(* ===== verification/_CoqProject ===== *)
-Q . S2P
Prelude.v
JsMap.v
Regex.v
Transitions.v
CoreTypes.v
MissionLifecycle.v
RunLifecycle.v
TaskDag.v
WriteDomains.v
Workset.v
Lanes.v
FileLock.v
EventStore.v
LedgerView.v
LedgerCodec.v
Ledger.v
Redact.v
WorkGraph.v
GenerationGuard.v
ToolCallGuard.v
Breakers.v
RetryTiming.v
FairQueue.v
Leases.v
Ownership.v
CompletionGate.v
FailureRecovery.v
MissionScheduler.v
TaskRun.v
ContractLadder.v
MergeGate.v
MergeQueue.v
PostMerge.v
MissionStore.v
MissionReplay.v
MissionFences.v
SessionStore.v
LeaseCompaction.v
Outbox.v
Delivery.v
PortableLock.v
