(* ===== verification/Prelude.v ===== *)
(** * pi-engineering: verification development

    pi-engineering (TypeScript, src/src) runs software-engineering missions with
    coding agents: plans are split into tasks, workers implement them in
    isolated worktrees, reviewers and verification commands judge the result, a
    gate decides completion, a merge queue integrates it, and every decision is
    recorded in an append-only ledger shared by several processes. This library
    models the decision-making core of that runtime and proves what the rest of
    the program relies on.

    ** The parts, and the file that models each

    - [Prelude]: fallible results ([res], a thrown error is [Err]), the
      JavaScript list and string helpers the code uses, the order of strings,
      the tactics and the hint database [pieng]. [JsMap]: [Map] in insertion
      order. [Regex]: JavaScript regular expressions, the backtracking matcher
      with its declarative semantics, search, replacement and splitting.
      [Transitions]: the interface of status tables (class
      [TransitionTable]) with the lemmas on runs of asserted transitions.
    - [CoreTypes]: the ledger entities of core/types.ts.
    - [MissionLifecycle] ([Mission], [Task]): the tables of
      orchestration/state.ts and their assertions.
    - [RunLifecycle] ([RunState]: lifecycle/stateMachine.ts; [Gate]: the
      completion gate, lifecycle/gate.ts, every checklist item).
    - [TaskDag]: plan/taskDag.ts (topological sort, scope conflicts, failure
      propagation).
    - The planning side of orchestration/workset.ts. [WriteDomains]: the
      canonical form, overlap and containment of write domains. [Workset]: the
      acyclicity search, the validator of a planner's workset and the splitting of
      oversized tasks.
    - [Lanes]: orchestration/lanes.ts (claims on write domains, in-memory
      coordinator) and orchestration/lanesGit.ts (the same claims in a git ref
      replaced by compare-and-swap, with GitRepo's two primitives over an abstract
      origin that other hosts change at every call).
    - [FileLock]: ledger/fileLock.ts, one file-system call per step, with deaths and
      the passage of time, and the generation counter of ledger/authority.ts.
    - The ledger, ledger/EventStore.ts and ledger/Ledger.ts. [EventStore]: the
      log file as text, with the reader's offset, the torn-tail repair, catch-up
      and conditional and batch appends; it is parametric in the line format
      (class [EventCodec]). [LedgerView]: the view a process folds from events
      ([apply], [ingest], [track], [replay]) and its queries. [LedgerCodec]: a
      concrete line format that satisfies [EventCodec]. [Ledger]: [makeEvent],
      the fences, [emit], [emitBatch] and every operation that records events;
      then the world of several processes sharing a file, with crashes in the
      middle of a write as steps.
    - [Redact] (platform/redact.ts) and [WorkGraph] (platform/WorkGraph.ts: runs,
      workers and approvals kept in memory, their chain of redacted events and its
      replay).
    - [GenerationGuard]: guard/GenerationGuard.ts, guard/config.ts and
      guard/RecoveryController.ts. [ToolCallGuard]: guard/toolCallGuard.ts.
    - [Breakers]: inference/circuitBreaker.ts and resilience/circuitBreaker.ts
      as instances of one interface (class [BreakerSpec]), and the registry.
    - [RetryTiming]: inference/retryDelay.ts, inference/retryPolicy.ts,
      resilience/retryWindow.ts, resilience/watchdog.ts and
      orchestration/supervisorBackoff.ts.
    - [FairQueue]: sched/Scheduler.ts (weighted picking, pump, settlement) and
      telemetry/throttle.ts.
    - [Leases]: runtime/isolation/LeaseManager.ts with the holder assessment of
      processIdentity.ts and RuntimeRegistry.ts.
    - [Ownership]: orchestration/ownership.ts on the lease tables of
      orchestration/missionStore.ts: an asynchronous operation is a tree of
      synchronous segments ([Async]), a pool of them runs in any interleaving
      ([pool_step]); the renewable authority of a dispatch.
    - [CompletionGate]: orchestration/completionGate.ts ([gather], [evaluate]) with
      the evidence identities of orchestration/evidence.ts and the store's queries.
    - [FailureRecovery]: orchestration/recovery.ts, the classification of failures by
      their texts ([Classify]) and the recovery planner ([Planner]).
    - The mission store, orchestration/missionStore.ts and canonicalLifecycle.ts.
      [MissionStore]: the tables, the mutators as computations of a state and error
      monad that keeps the writes made before a throw, the emission and draining of
      events, their replay, and the conditional settlements in two parts around the
      append. [MissionReplay]: what events the operations append and that replaying
      them gives the same tables. [MissionFences]: invariants of every run, the
      revision fence and what it protects.
    - The shared namespace of sessions. [SessionStore]: runtime/isolation/SessionEventStore.ts
      and jsonlFiles.ts: one stream of events per session ([Streams]), their merge by time ([Merge]),
      incremental reading, repair of a torn tail and the three appends. [LeaseCompaction]:
      orchestration/leaseCompaction.ts: the two passes over a log, the replay they must
      preserve, and the protocol that replaces the file.
    - Control-plane events, runtime/herdr. [Outbox]: outbox.ts, the queue file that processes
      share, its index, acknowledgements, compaction and dead letters. [Delivery]: sourceSequence.ts
      ([Seq]), envelopeStore.ts and ControlPlaneIngest.ts ([Deliver]) as programs that call the outbox,
      the allocator and the server; [Trace] reasons about what one program does, [Net]
      runs any number of them interleaved. [PortableLock]: portableLock.ts, the lock under which
      they do so, one file system call per step.
    - [MissionScheduler] ([Dispatch]) and [TaskRun]: orchestration/scheduler.ts, the
      dispatch pass and the retry loop of one task ([executeWithRetry]) with the
      resilience window; what workers, probes, planners and other components answer
      in a round of the loop is a record.
    - [ContractLadder]: plannerWorker/stateMachine.ts, convergence.ts and the
      contract life cycle of executor.ts ([Executor], [Dag]).
    - [MergeGate]: verify/failureBaseline.ts ([Baseline]), merge/mergeGate.ts
      ([Decision]), merge/checkRunIngest.ts ([Ingest]) and
      merge/protectionDrift.ts ([Protection]).
    - [MergeQueue]: merge/MergeQueue.ts; [Fence] is the promotion of one entry
      in a state-and-error monad over git primitives, [Chains] the per-target
      serialisation.
    - [PostMerge]: merge/verificationEvidence.ts, merge/postMergeSmoke.ts and
      merge/postMerge.ts.

    ** What the theorems show

    Ledger: each process's view is the replay of the prefix it has read, the
    log's ids and keys are unique and its authority generations monotone, [emit]
    refines an atomic append on the shared log, the two fences are exact, retries
    are idempotent across processes, evidence updates are not lost, a guardless
    plan never surfaces a revision conflict, and a torn write loses nothing that
    was there before. Opening a file while another process writes to it, and evidence
    without a work item, are outside the runs of these theorems. Its lock file excludes
    under any interleaving as long as no live process keeps a lock longer than the stale
    age and a reclaim takes the file it judged, and the library exhibits a run where it does
    not ([dead_owner_overlap]); a release never removes a foreign lock it has read. Leases: a superseded generation is powerless and a
    holder that is alive is never displaced. Ownership: the lease tables are the
    replay of their events, tokens only increase, a stale identity is powerless
    whatever interleaves, a dispatch authority stands for one epoch, waiting for
    custody ends; a live repository lease can be lost to a suspended request
    ([live_lease_taken_over]). Lanes: claims of different tasks never conflict, a
    lease protects its term, the git coordinator is linearizable, a push that moved the
    ref and was reported as failed included ([unreported_push_claims]); a lost race is an
    error ([lost_race_fails]) and fences can repeat ([fence_reused]). Scheduling:
    tasks running together that declare what they write write disjoint paths
    (undeclared ones are left to the lanes, [undeclared_writers_together]), all four limits
    hold, a run ends only when nothing can run and no limit is zero ([zero_capacity_ends_run]),
    success is earned by a worker under authority, relaunches
    are bounded, and the one way an error escapes the retry loop. Worksets: the
    validator accepts exactly the well-formed ones, the cycle check is exact,
    splitting keeps deliverables and order. Mission completion: the gate gives a
    reason exactly when it refuses, and a mission it lets complete rests on current
    evidence for its candidate, up to unpushed nested work
    ([unpushed_nested_work_completes]). Mission store: the tables are the replay of
    the log under any interleaving of operations and appends that creates entities under
    new ids ([op_ok]); outcomes of tasks and decisions are final, and what a task requires
    of its model may change until then; the revision fence detects every change, a resumption fences
    earlier executions, a mission is settled once in a generation across all stores,
    whatever plain stops are recorded besides,
    repair starts with its decision in one event, superseded work is covered; where
    these stop holding is exhibited as well (repository waits, [wait_breaks_fence];
    supersessions that lead back, [supersession_cycle_masks]; [fail_leaves_terminal]).
    Sessions: a refresh holds what a store opened now would hold, a successful append
    is seen by every later reader, both for sessions none of whose writes failed part way
    ([torn_append_loses_next]); compacting lease events keeps the replayed state,
    of one log and of a namespace whose streams are in time order and share no event, and
    not otherwise ([clock_step_changes_winner], [shared_event_counts_twice]); the command never
    loses the original. Control-plane
    events: what was staged is taken by the server, set aside in a whole
    record or pending, under any interleaving and any crash, as long as inode numbers are not
    used again ([reused_inode_loses]) and unlocked reads do not overlap ([overlap_skips]); a
    dead-letter write that is cut off makes at most one other record unreadable
    ([torn_dead_letter]); the cap drops the oldest; sequence numbers are
    unique; a pass acknowledges and sets aside only what the server's answers justify, and one
    failed renumbering sets the whole queue aside ([failed_resync_drops_queue]). Their lock
    excludes as long as age condemns only the dead and no guard is replaced while it is being
    broken, and not otherwise ([guard_break_overlap]).
    Recovery: a lost lease is never taken for a credential problem, repairs are
    bounded between resumptions, decisions have distinct ids. Guards: repetition and
    budgets are detected exactly and snapshots charge each token once. Work graph and
    redaction: the replay gives the live graph with its texts redacted, as long as ids do not look
    like secrets ([secret_like_ids_merge]). Lifecycles: which ways lead to completion,
    that no mission is stuck, and that the completion gate passes exactly on a
    satisfied checklist that rests on evidence. Plans: the sort terminates,
    accepts exactly the acyclic plans and orders them; failure propagation is
    exact. Contracts: the attempt loop is bounded whatever the environment
    answers and never makes an illegal status change; promotion decides exactly
    what can be decided; stall detection is exact. Merging: the decision is
    characterised completely, at most one pull request of a queue goes ahead,
    ingestion fails closed, a baseline forgives exactly what was broken before,
    the SHA fence holds up to a race the library exhibits ([late_push_merged]),
    and entries of one branch are serialised; after the merge the decision to revert
    is exact when the runs of a check agree, and not otherwise ([masked_failure_confirmed]),
    and keeps the history. Timing: server hints are minima,
    backoffs are spaced and bounded, circuits refuse while open and probe once,
    sources are served fairly.

    ** Modelling conventions

    - A number is an integer [Z] where the code uses whole numbers and a rational
      [Q] where it computes fractions (RetryTiming); floating-point rounding and
      the 2^53 limit are outside the model. Clock readings, random numbers and
      fresh ids are arguments. Strings are byte strings; [toLowerCase] is the
      ASCII one; object literals used as maps keep insertion order.
    - An operation is one step where the code makes it one: the file-backed
      appends run under the lock of ledger/fileLock.ts and the SQLite transactions
      of the lease manager are serialised, so interleavings are sequences of
      operations; a crash is a step that leaves a prefix of the bytes. Where the
      code awaits between reads and writes the steps are finer: system calls in
      [FileLock] and [PortableLock], synchronous segments in [Ownership], git calls in [Lanes] and
      [MergeQueue], over worlds that others change in between, and locked calls in
      [Delivery]. A synchronous segment reads the clock once.
    - Code outside src/ is a parameter: SHA-256, [Date.parse], [Number], the
      collation of [localeCompare], JSON (through [EventCodec], whose laws are
      round trip, no newline inside a line and no acceptance of a proper prefix),
      process probes, git, models and workers. Regular expressions are written out
      over [Regex] in the files that require it and are parameters in the others
      (the ledger, lanes and merge files). Each hypothesis on a parameter is
      instantiated by a concrete function in a witness.
    - In memory the TypeScript events share their payload objects with the view;
      statements about events are about the durable log.

    ** Fuel

    Loops that are not structural carry fuel and are proved to end within it:
    [kahn] ([2n + 1] rounds for [n] tasks), [block_loop] ([n + 1]), [pump_loop]
    (one per queued item), [order_rows], [promote_loop] (one pass per pending contract),
    [entry_loop] ([maxRevalidations + 2] rounds, given refs that do not go
    back; without that assumption it need not end, [flapping_never_returns]).
    [recordPlan] retries as often as the code does (100), [cas_loop] 9 times, and
    [poll] as often as [maxPolls] says. The search of [Workset] has fuel [n + 1] for
    [n] tasks, [fresh_id] one per occupied id, [leaves] one per lineage
    ([leaves_fuel]). [executeWithRetry] runs over the list of rounds it is given, and
    [launches_bounded] bounds the workers launched on any such list. The matcher of
    [Regex] recurses on the expression and, under a star, on the rest of the text;
    replacement and splitting have one round per character ([replace_loop_fuel]).
    The walk over supersessions has one level more than there are supersessions,
    which a walk that visits no task twice cannot exceed ([leaves_cover]). [overflow] of
    [Outbox] has one round per pending event ([overflow_drops]); the programs of [Delivery]
    are finite trees.

    ** Not modelled, and the plan

    The orchestrator and the execution broker, process and terminal supervision,
    model gateways, git and GitHub adapters, prompt and context assembly and
    rendering are I/O or text processing around the parts above. Of the modelled
    files, these are left out: configuration parsing and lane key slugs (lanes.ts),
    parsing of a planner's free-form JSON (workset.ts), tolerant parsing of reviewer
    results (evidence.ts), notices, wake-ups and the recovery journal (scheduler.ts);
    candidates and their evidence, checkpoints, handoffs, specifications, plans and
    GitHub links (missionStore.ts); the hash of a replacement's specification
    (recovery.ts); the registry of open stores, the queue of appends and diagnostics
    (SessionEventStore.ts); loss notices (outbox.ts); redaction, envelope fields other than id,
    number and content, and the reading of response bodies (envelopeStore.ts, ControlPlaneIngest.ts). Next: those records of the mission store, mission custody
    (runtime/isolation/MissionCustody.ts), admission control
    (inference/admissionContract.ts), the shell-target guards (guard/shellTargets.ts,
    guard/primaryWorktreeGuard.ts) and mission cancellation
    (orchestration/missionCancel.ts). *)

From Stdlib Require Export ZArith Lia Ascii Sorted.
From stdpp Require Export base option strings gmap finite relations pretty tactics list.
Export stdpp.list.

#[global] Open Scope Z_scope.
#[global] Set Default Goal Selector "!".

(** ** Fallible code

    A TypeScript function that may [throw] is modelled by a function into
    [res E A]: [Err e] is the thrown error, [Ok a] the returned value. *)
Inductive res (E A : Type) : Type :=
| Ok (a : A)
| Err (e : E).
Arguments Ok {E A} a.
Arguments Err {E A} e.

#[export] Instance res_eq_dec {E A} `{EqDecision E, EqDecision A} : EqDecision (res E A).
Proof. solve_decision. Defined.

Definition res_bind {E A B} (m : res E A) (k : A -> res E B) : res E B :=
  match m with
  | Ok a => k a
  | Err e => Err e
  end.

Definition is_ok {E A} (m : res E A) : bool :=
  match m with Ok _ => true | Err _ => false end.

Declare Scope res_scope.
Delimit Scope res_scope with res.
Notation "'let!' x ':=' m 'in' k" := (res_bind m (fun x => k))
  (at level 10, x pattern, m at level 100, k at level 200) : res_scope.
#[global] Open Scope res_scope.

Lemma res_bind_ok {E A B} (m : res E A) (k : A -> res E B) b :
  res_bind m k = Ok b <-> exists a, m = Ok a /\ k a = Ok b.
Proof.
  destruct m as [a|e]; simpl; split.
  - eauto.
  - intros (a' & [= <-] & H). done.
  - done.
  - intros (a' & [=] & _).
Qed.

(** ** Automation shared by the component files *)

Create HintDb pieng.

(** Break the [match]/[if] a hypothesis or the goal is stuck on. *)
Ltac break_match :=
  match goal with
  | H : context [match ?x with _ => _ end] |- _ => destruct x eqn:?
  | |- context [match ?x with _ => _ end] => destruct x eqn:?
  end.
Ltac break_goal :=
  match goal with
  | |- context [match ?x with _ => _ end] => destruct x eqn:?
  end.

(** Turn the boolean tests of the code into the propositions they decide. *)
Ltac bool_to_prop :=
  repeat match goal with
  | H : andb _ _ = true |- _ => apply andb_true_iff in H as [? ?]
  | H : orb _ _ = false |- _ => apply orb_false_iff in H as [? ?]
  | H : orb _ _ = true |- _ => apply orb_true_iff in H
  | H : andb _ _ = false |- _ => apply andb_false_iff in H
  | H : negb _ = true |- _ => apply negb_true_iff in H
  | H : negb _ = false |- _ => apply negb_false_iff in H
  | H : bool_decide _ = true |- _ => apply bool_decide_eq_true in H
  | H : bool_decide _ = false |- _ => apply bool_decide_eq_false in H
  | H : Z.ltb _ _ = true |- _ => apply Z.ltb_lt in H
  | H : Z.ltb _ _ = false |- _ => apply Z.ltb_ge in H
  | H : Z.leb _ _ = true |- _ => apply Z.leb_le in H
  | H : Z.leb _ _ = false |- _ => apply Z.leb_gt in H
  | H : Z.eqb _ _ = true |- _ => apply Z.eqb_eq in H
  | H : Z.eqb _ _ = false |- _ => apply Z.eqb_neq in H
  | H : Nat.ltb _ _ = true |- _ => apply Nat.ltb_lt in H
  | H : Nat.ltb _ _ = false |- _ => apply Nat.ltb_ge in H
  | H : Nat.leb _ _ = true |- _ => apply Nat.leb_le in H
  | H : Nat.leb _ _ = false |- _ => apply Nat.leb_gt in H
  | H : Nat.eqb _ _ = true |- _ => apply Nat.eqb_eq in H
  | H : Nat.eqb _ _ = false |- _ => apply Nat.eqb_neq in H
  end.

(** ** JavaScript helpers *)

(** [xs.some(p)], [xs.every(p)] and [xs.includes(x)]. *)
Definition js_some {A} (p : A -> bool) (l : list A) : bool := existsb p l.
Definition js_every {A} (p : A -> bool) (l : list A) : bool := forallb p l.
Definition js_includes {A} `{EqDecision A} (x : A) (l : list A) : bool := bool_decide (x ∈ l).

(** [xs.find(p)]. *)
Fixpoint js_find {A} (p : A -> bool) (l : list A) : option A :=
  match l with
  | [] => None
  | x :: l' => if p x then Some x else js_find p l'
  end.

(** [xs.filter(p)] with a boolean predicate. *)
Fixpoint js_filter {A} (p : A -> bool) (l : list A) : list A :=
  match l with
  | [] => []
  | x :: l' => if p x then x :: js_filter p l' else js_filter p l'
  end.

(** [[...new Set(xs)]]: first occurrences, in order. *)
Fixpoint js_dedup_from {A} `{EqDecision A} (seen : list A) (l : list A) : list A :=
  match l with
  | [] => []
  | x :: l' => if js_includes x seen then js_dedup_from seen l'
               else x :: js_dedup_from (seen ++ [x]) l'
  end.
Definition js_dedup {A} `{EqDecision A} (l : list A) : list A := js_dedup_from [] l.

(** [xs.join(sep)]. *)
Fixpoint js_join (sep : string) (l : list string) : string :=
  match l with
  | [] => ""
  | [x] => x
  | x :: l' => x +:+ sep +:+ js_join sep l'
  end.

(** [s.startsWith(p)]. *)
Fixpoint js_startsWith (s p : string) : bool :=
  match p, s with
  | EmptyString, _ => true
  | String c p', String c' s' => bool_decide (c = c') && js_startsWith s' p'
  | String _ _, EmptyString => false
  end.

(** [s.toLowerCase()] on ASCII text. *)
Definition lower_ascii (c : ascii) : ascii :=
  let n := N_of_ascii c in
  if (65 <=? n)%N && (n <=? 90)%N then ascii_of_N (n + 32) else c.
Fixpoint js_lower (s : string) : string :=
  match s with EmptyString => EmptyString | String c s' => String (lower_ascii c) (js_lower s') end.

(** The characters [String.prototype.trim] removes. *)
Definition is_space (c : ascii) : bool :=
  js_includes (N_of_ascii c) [9; 10; 11; 12; 13; 32; 160]%N.

(** [s.trim()] *)
Fixpoint trim_start (s : string) : string :=
  match s with
  | EmptyString => EmptyString
  | String c s' => if is_space c then trim_start s' else s
  end.
Fixpoint trim_end (s : string) : string :=
  match s with
  | EmptyString => EmptyString
  | String c s' => match trim_end s' with
                   | EmptyString => if is_space c then EmptyString else String c EmptyString
                   | r => String c r
                   end
  end.
Definition js_trim (s : string) : string := trim_end (trim_start s).

(** [`${n}`] for an integer. *)
Definition js_num (n : Z) : string := pretty n.

(** [xs.length] as a number. *)
Definition js_len {A} (l : list A) : Z := Z.of_nat (length l).

(** [xs.sort(cmp)], a stable sort; [le x y] is [cmp(x, y) <= 0]. *)
Fixpoint js_insert {A} (le : A -> A -> bool) (x : A) (l : list A) : list A :=
  match l with
  | [] => [x]
  | y :: l' => if le x y then x :: l else y :: js_insert le x l'
  end.
Definition js_sort {A} (le : A -> A -> bool) (l : list A) : list A := foldr (js_insert le) [] l.

(** [x ?? d]. *)
Definition nullish {A} (o : option A) (d : A) : A := default d o.

(** A string is falsy exactly when it is empty. *)
Definition truthy (s : string) : bool := negb (bool_decide (s = ""%string)).

Lemma js_includes_true {A} `{EqDecision A} (x : A) l : js_includes x l = true <-> x ∈ l.
Proof. unfold js_includes. apply bool_decide_eq_true. Qed.

Lemma js_includes_false {A} `{EqDecision A} (x : A) l : js_includes x l = false <-> x ∉ l.
Proof. unfold js_includes. apply bool_decide_eq_false. Qed.

Lemma js_startsWith_true s p : js_startsWith s p = true <-> exists r, s = p +:+ r.
Proof.
  revert s. induction p as [|c p IH]; intros s; [destruct s; simpl; naive_solver|].
  destruct s as [|c' s]; [split; [done|by intros [r ?]]|].
  cbn [js_startsWith]. rewrite andb_true_iff, bool_decide_eq_true, IH. split.
  - intros [-> [r ->]]. by exists r.
  - intros [r Hr]. injection Hr as -> ->. eauto.
Qed.

Lemma string_app_assoc (a b c : string) : (a +:+ b) +:+ c = a +:+ b +:+ c.
Proof. induction a as [|x a IH]; [done|]. change ((String x a +:+ b) +:+ c) with (String x ((a +:+ b) +:+ c)). by rewrite IH. Qed.

Lemma string_length_app (a b : string) : String.length (a +:+ b) = (String.length a + String.length b)%nat.
Proof. induction a as [|x a IH]; [done|]. change (String x a +:+ b) with (String x (a +:+ b)). simpl. lia. Qed.

Lemma js_filter_elem {A} (p : A -> bool) l x : x ∈ js_filter p l <-> x ∈ l /\ p x = true.
Proof.
  induction l as [|y l IH]; simpl; [set_solver|].
  rewrite elem_of_cons. destruct (p y) eqn:E; [rewrite elem_of_cons|]; rewrite IH.
  - split; [intros [->|[]]; auto|intros [[->|] ?]; auto].
  - split; [intros []; auto|intros [[->|] ?]; [congruence|auto]].
Qed.

Lemma js_filter_app {A} (p : A -> bool) l1 l2 :
  js_filter p (l1 ++ l2) = js_filter p l1 ++ js_filter p l2.
Proof. induction l1 as [|x l1 IH]; simpl; [done|]. destruct (p x); simpl; by rewrite IH. Qed.

Lemma js_filter_ext {A} (p q : A -> bool) l :
  (forall x, x ∈ l -> p x = q x) -> js_filter p l = js_filter q l.
Proof.
  induction l as [|x l IH]; simpl; [done|]. intros H. rewrite (H x), IH by set_solver. done.
Qed.

Lemma foldl_ind {A B} (P : B -> Prop) (f : B -> A -> B) l b :
  P b -> (forall b' x, x ∈ l -> P b' -> P (f b' x)) -> P (foldl f b l).
Proof.
  revert b. induction l as [|x l IH]; intros b Hb Hf; simpl; [done|].
  apply IH; [apply Hf; set_solver|]. intros b' y Hy. apply Hf. set_solver.
Qed.

Lemma js_filter_nil {A} (p : A -> bool) l :
  js_filter p l = [] <-> (forall x, x ∈ l -> p x = false).
Proof.
  induction l as [|y l IH]; simpl.
  - split; [intros _ x Hx; set_solver | done].
  - destruct (p y) eqn:E.
    + split; [done|]. intros H. specialize (H y ltac:(set_solver)). congruence.
    + rewrite IH. split; [|set_solver].
      intros H x Hx. apply elem_of_cons in Hx as [->|]; auto.
Qed.

Lemma js_filter_length {A} (p : A -> bool) l : (length (js_filter p l) <= length l)%nat.
Proof. induction l as [|x l IH]; simpl; [lia|]. destruct (p x); simpl; lia. Qed.

Lemma js_filter_le {A} (p q : A -> bool) l :
  (forall y, p y = true -> q y = true) -> (length (js_filter p l) <= length (js_filter q l))%nat.
Proof.
  intros H. induction l as [|y l IH]; simpl; [lia|]. specialize (H y).
  destruct (p y), (q y); simpl; lia || by specialize (H eq_refl).
Qed.

Lemma js_filter_lt {A} (p q : A -> bool) l x :
  (forall y, p y = true -> q y = true) -> x ∈ l -> q x = true -> p x = false ->
  (length (js_filter p l) < length (js_filter q l))%nat.
Proof.
  intros H Hx Hq Hp. induction l as [|y l IH]; [set_solver|]. pose proof (js_filter_le p q l H) as Hle. simpl.
  apply elem_of_cons in Hx as [<-|Hx]; [rewrite Hq, Hp; simpl; lia|].
  specialize (IH Hx). specialize (H y). destruct (p y), (q y); simpl; lia || by specialize (H eq_refl).
Qed.

Lemma js_find_some {A} (p : A -> bool) l x : js_find p l = Some x -> x ∈ l /\ p x = true.
Proof.
  induction l as [|y l IH]; simpl; [done|].
  destruct (p y) eqn:E; intros; simplify_eq; [split; [set_solver|done]|].
  destruct IH; [done|]. split; [set_solver|done].
Qed.

Lemma js_find_none {A} (p : A -> bool) l : js_find p l = None <-> (forall x, x ∈ l -> p x = false).
Proof.
  induction l as [|y l IH]; simpl.
  - split; [intros _ x Hx; set_solver | done].
  - destruct (p y) eqn:E.
    + split; [done|]. intros H. specialize (H y ltac:(set_solver)). congruence.
    + rewrite IH. split; [|set_solver].
      intros H x Hx. apply elem_of_cons in Hx as [->|]; auto.
Qed.

Lemma js_some_true {A} (p : A -> bool) l : js_some p l = true <-> exists x, x ∈ l /\ p x = true.
Proof.
  unfold js_some. rewrite existsb_exists.
  split; intros (x & Hx & Hp); exists x; split; auto; by apply list_elem_of_In.
Qed.

Lemma js_some_false {A} (p : A -> bool) l : js_some p l = false <-> (forall x, x ∈ l -> p x = false).
Proof.
  split.
  - intros H x Hx. destruct (p x) eqn:E; [|done].
    assert (js_some p l = true) by (apply js_some_true; eauto). congruence.
  - intros H. destruct (js_some p l) eqn:E; [|done].
    apply js_some_true in E as (x & Hx & Hp). rewrite (H x Hx) in Hp. congruence.
Qed.

Lemma js_every_true {A} (p : A -> bool) l : js_every p l = true <-> (forall x, x ∈ l -> p x = true).
Proof.
  unfold js_every. rewrite forallb_forall.
  split; intros H x Hx; apply H; by apply list_elem_of_In.
Qed.

Lemma js_insert_perm {A} (le : A -> A -> bool) x l : js_insert le x l ≡ₚ x :: l.
Proof.
  induction l as [|y l IH]; simpl; [done|]. destruct (le x y); [done|].
  rewrite IH. apply Permutation_swap.
Qed.

Lemma js_sort_perm {A} (le : A -> A -> bool) l : js_sort le l ≡ₚ l.
Proof. induction l as [|x l IH]; simpl; [done|]. by rewrite js_insert_perm, IH. Qed.

Lemma js_dedup_from_elem {A} `{EqDecision A} (seen l : list A) x :
  x ∈ js_dedup_from seen l <-> x ∈ l /\ x ∉ seen.
Proof.
  revert seen. induction l as [|y l IH]; intros seen; simpl; [set_solver|].
  destruct (js_includes y seen) eqn:E.
  - apply js_includes_true in E. rewrite IH. set_solver.
  - apply js_includes_false in E. rewrite !elem_of_cons, IH, elem_of_app, elem_of_cons.
    destruct (decide (x = y)) as [->|]; [naive_solver|]. rewrite elem_of_nil. naive_solver.
Qed.

Lemma js_dedup_elem {A} `{EqDecision A} (l : list A) x : x ∈ js_dedup l <-> x ∈ l.
Proof. unfold js_dedup. rewrite js_dedup_from_elem. set_solver. Qed.

(** Loops that push at most a few elements per iteration: [concat (map f l)]. *)
Lemma js_dedup_from_NoDup {A} `{EqDecision A} (seen l : list A) :
  NoDup (js_dedup_from seen l) /\ forall x, x ∈ js_dedup_from seen l -> x ∉ seen.
Proof.
  revert seen. induction l as [|y l IH]; intros seen; cbn [js_dedup_from]; [split; [apply NoDup_nil_2|by intros ? ?%elem_of_nil]|].
  destruct (js_includes y seen) eqn:E; [apply IH|]. apply js_includes_false in E.
  destruct (IH (seen ++ [y])) as [H1 H2]. split.
  - apply NoDup_cons_2; [|done]. intros Hy. apply H2 in Hy. set_solver.
  - intros x [->|Hx]%elem_of_cons; [done|]. apply H2 in Hx. set_solver.
Qed.

Lemma js_dedup_NoDup {A} `{EqDecision A} (l : list A) : NoDup (js_dedup l).
Proof. apply js_dedup_from_NoDup. Qed.

Lemma NoDup_at_most_one {A} (l : list A) :
  NoDup l -> (length l <= 1)%nat <-> (forall x y, x ∈ l -> y ∈ l -> x = y).
Proof.
  intros Hnd. destruct l as [|a [|b l]]; simpl.
  - split; [by intros _ x y ?%elem_of_nil|lia].
  - split; [by intros _ x y ->%list_elem_of_singleton ->%list_elem_of_singleton|lia].
  - split; [lia|]. intros H. apply NoDup_cons in Hnd as [Hn _]. exfalso. apply Hn.
    rewrite (H a b); [by left|by left|by right; left].
Qed.

Lemma concat_map_nil {A B} (f : A -> list B) l :
  concat (map f l) = [] <-> (forall x, x ∈ l -> f x = []).
Proof.
  induction l as [|y l IH]; simpl; [split; [intros _ x Hx; set_solver|done]|].
  rewrite app_nil, IH. split.
  - intros [Hy Hl] x Hx. apply elem_of_cons in Hx as [->|Hx]; auto.
  - intros H. split; [|intros x Hx]; apply H; set_solver.
Qed.

Lemma concat_map_elem {A B} (f : A -> list B) l y :
  y ∈ concat (map f l) <-> exists x, x ∈ l /\ y ∈ f x.
Proof.
  induction l as [|z l IH]; simpl; [set_solver|]. rewrite elem_of_app, IH. set_solver.
Qed.

(** A conditional push. *)
Lemma if_nil {A} (b : bool) (x : A) l : (if b then x :: l else []) = [] <-> b = false.
Proof. by destruct b. Qed.

(** ** The order of strings ([<] on code units) *)

Lemma string_ltb_lt a b : String.ltb a b = true <-> String.compare a b = Lt.
Proof. unfold String.ltb. by destruct (String.compare a b). Qed.

Lemma string_ltb_irrefl a : String.ltb a a = false.
Proof.
  apply not_true_iff_false. rewrite string_ltb_lt. intros E. pose proof (String.compare_antisym a a) as H.
  by rewrite E in H.
Qed.

Lemma string_ltb_trans a b c : String.ltb a b = true -> String.ltb b c = true -> String.ltb a c = true.
Proof.
  rewrite !string_ltb_lt. revert b c. induction a as [|x a IH]; intros [|y b] [|z c]; simpl; try done.
  unfold Ascii.compare.
  destruct (N.compare_spec (N_of_ascii x) (N_of_ascii y)), (N.compare_spec (N_of_ascii y) (N_of_ascii z)),
    (N.compare_spec (N_of_ascii x) (N_of_ascii z)); try done; try lia; eauto.
Qed.

Lemma string_ltb_total a b : String.ltb a b = false -> String.ltb b a = false -> a = b.
Proof.
  unfold String.ltb. rewrite (String.compare_antisym b a).
  destruct (String.compare a b) eqn:E; simpl; [|done|done]. intros _ _. by apply String.compare_eq_iff.
Qed.

Lemma string_nltb_trans a b c : String.ltb a b = false -> String.ltb b c = false -> String.ltb a c = false.
Proof.
  intros H1 H2. destruct (String.ltb a c) eqn:E; [|done]. rewrite <- H1. symmetry.
  destruct (String.ltb c b) eqn:E2; [by eapply string_ltb_trans|].
  by rewrite (string_ltb_total b c).
Qed.

(** A transitive, irreflexive order has a minimal element in every non-empty list. *)
Lemma exists_minimal {A} (lt : A -> A -> bool) (l : list A) :
  (forall x, lt x x = false) -> (forall x y z, lt x y = true -> lt y z = true -> lt x z = true) ->
  l <> [] -> exists m, m ∈ l /\ forall x, x ∈ l -> lt x m = false.
Proof.
  intros Hirr Htr. induction l as [|x l IH]; [done|]. intros _.
  destruct l as [|y l]; [exists x; set_solver|].
  destruct IH as (m & Hm & Hmin); [done|]. destruct (lt x m) eqn:E.
  - exists x. split; [set_solver|]. intros z Hz. apply elem_of_cons in Hz as [->|Hz]; [done|].
    destruct (lt z x) eqn:E'; [|done]. rewrite <- (Hmin z Hz). symmetry. eauto.
  - exists m. split; [set_solver|]. intros z Hz. apply elem_of_cons in Hz as [->|Hz]; auto.
Qed.

(** Occurrences of [x] in [l]. *)
Definition occ {A} `{EqDecision A} (x : A) (l : list A) : nat := length (filter (fun y => x = y) l).

Lemma occ_nil {A} `{EqDecision A} (x : A) : occ x [] = 0%nat.
Proof. done. Qed.

Lemma occ_cons {A} `{EqDecision A} (x y : A) l :
  occ x (y :: l) = ((if decide (x = y) then 1 else 0) + occ x l)%nat.
Proof. unfold occ. rewrite filter_cons. by destruct (decide (x = y)). Qed.

Lemma occ_app {A} `{EqDecision A} (x : A) l1 l2 : occ x (l1 ++ l2) = (occ x l1 + occ x l2)%nat.
Proof. unfold occ. by rewrite filter_app, length_app. Qed.

Lemma occ_zero {A} `{EqDecision A} (x : A) l : occ x l = 0%nat <-> x ∉ l.
Proof.
  induction l as [|y l IH]; [rewrite occ_nil; set_solver|].
  rewrite occ_cons, not_elem_of_cons. destruct (decide (x = y)); [|rewrite <- IH; naive_solver].
  split; [lia|naive_solver].
Qed.

Lemma NoDup_length_le {A} `{EqDecision A} (l k : list A) :
  NoDup l -> (forall x, x ∈ l -> x ∈ k) -> (length l <= length k)%nat.
Proof. intros Hl Hs. apply submseteq_length, NoDup_submseteq; done. Qed.

Lemma NoDup_same_length {A} `{EqDecision A} (l k : list A) :
  NoDup l -> (forall x, x ∈ l -> x ∈ k) -> (length k <= length l)%nat -> forall x, x ∈ k -> x ∈ l.
Proof.
  intros Hl Hs Hlen x Hx.
  assert (Hp : l ≡ₚ k) by (apply submseteq_length_Permutation; [by apply NoDup_submseteq|done]).
  by rewrite Hp.
Qed.

Lemma filter_notin {A} `{EqDecision A} (x : A) (l : list A) : x ∉ l -> filter (fun y => x <> y) l = l.
Proof.
  induction l as [|y l IH]; [done|]. rewrite not_elem_of_cons, filter_cons. intros [Hne Hni].
  by rewrite decide_True, IH.
Qed.

#[export] Hint Rewrite @js_includes_true @js_includes_false @js_filter_elem : pieng.

Lemma StronglySorted_snoc {A} (R : A -> A -> Prop) l x :
  StronglySorted R l -> (forall y, y ∈ l -> R y x) -> StronglySorted R (l ++ [x]).
Proof.
  induction 1 as [|y l Hl IH Hy]; intros Hx; simpl; [repeat constructor|].
  constructor; [apply IH; set_solver|]. apply Forall_app. split; [done|]. repeat constructor. apply Hx. set_solver.
Qed.

(** [xs.sort(cmp)] sorts when [cmp] is a total preorder, and the last element of a
    sorted array is its greatest. *)
Section Sorting.
Context {A : Type} (le : A -> A -> bool).
Context (le_total : forall x y, le x y = true \/ le y x = true).
Context (le_trans : forall x y z, le x y = true -> le y z = true -> le x z = true).
Notation sorted := (StronglySorted (fun x y => le x y = true)).

Lemma js_insert_sorted x l : sorted l -> sorted (js_insert le x l).
Proof.
  induction 1 as [|y l Hl IH Hy]; simpl; [repeat constructor|]. destruct (le x y) eqn:E.
  - constructor; [by constructor|]. constructor; [done|]. rewrite Forall_forall in Hy |- *. intros z Hz. eauto.
  - constructor; [done|]. rewrite Forall_forall in Hy |- *. intros z. rewrite js_insert_perm, elem_of_cons.
    intros [->|Hz]; [|eauto]. destruct (le_total y x); congruence.
Qed.

Lemma js_sort_sorted l : sorted (js_sort le l).
Proof. induction l as [|x l IH]; [constructor|]. by apply js_insert_sorted. Qed.

Lemma js_filter_sorted (p : A -> bool) l : sorted l -> sorted (js_filter p l).
Proof.
  induction 1 as [|y l Hl IH Hy]; simpl; [constructor|]. destruct (p y); [|done]. constructor; [done|].
  rewrite Forall_forall in Hy |- *. intros z [Hz _]%js_filter_elem. auto.
Qed.

Lemma sorted_last l x y : sorted l -> last l = Some x -> y ∈ l -> le y x = true.
Proof.
  induction 1 as [|z l Hl IH Hz]; [done|]. destruct l as [|w l].
  - intros [= ->] ->%list_elem_of_singleton. by destruct (le_total x x).
  - change (last (z :: w :: l)) with (last (w :: l)). intros Hx. rewrite elem_of_cons. intros [->|Hy]; [|auto].
    rewrite Forall_forall in Hz. apply Hz. by apply last_Some_elem_of.
Qed.
End Sorting.
