(* ===== verification/JsMap.v ===== *)
(** * JavaScript [Map]

    A [Map] iterates in insertion order; [set] on a present key replaces the
    value in place (the key keeps its position) and [delete] removes it. The
    code relies on that order when it lists entities and when it evicts, so a
    [Map] is an association list here, with the operations and laws below. *)

From S2P Require Import Prelude.

Section JsMap.
Context {K V : Type} `{EqDecision K}.

Definition jsmap : Type := list (K * V).

(** [m.get(k)] ([None] is [undefined]). *)
Fixpoint map_get (k : K) (m : jsmap) : option V :=
  match m with
  | [] => None
  | (k', v) :: m' => if decide (k = k') then Some v else map_get k m'
  end.

(** [m.has(k)]. *)
Definition map_has (k : K) (m : jsmap) : bool :=
  match map_get k m with Some _ => true | None => false end.

(** [m.set(k, v)]. *)
Fixpoint map_set (k : K) (v : V) (m : jsmap) : jsmap :=
  match m with
  | [] => [(k, v)]
  | (k', v') :: m' => if decide (k = k') then (k', v) :: m' else (k', v') :: map_set k v m'
  end.

(** [m.delete(k)]. *)
Fixpoint map_delete (k : K) (m : jsmap) : jsmap :=
  match m with
  | [] => []
  | (k', v') :: m' => if decide (k = k') then m' else (k', v') :: map_delete k m'
  end.

(** [[...m.keys()]], [[...m.values()]] and [m.size]. *)
Definition map_keys (m : jsmap) : list K := m.*1.
Definition map_values (m : jsmap) : list V := m.*2.
Definition map_size (m : jsmap) : nat := length m.

(** A [Map] never holds a key twice. *)
Definition map_ok (m : jsmap) : Prop := NoDup (map_keys m).

Lemma map_get_set_eq k v m : map_get k (map_set k v m) = Some v.
Proof.
  induction m as [|[k' v'] m IH]; simpl; [by rewrite decide_True|].
  destruct (decide (k = k')) as [->|]; simpl; [by rewrite decide_True|].
  by rewrite decide_False.
Qed.

Lemma map_get_set_ne k k' v m : k <> k' -> map_get k' (map_set k v m) = map_get k' m.
Proof.
  intros Hne. induction m as [|[k1 v1] m IH]; simpl.
  - by rewrite decide_False.
  - destruct (decide (k = k1)) as [->|]; simpl.
    + by rewrite !decide_False.
    + by rewrite IH.
Qed.

Lemma map_get_set k k' v m :
  map_get k' (map_set k v m) = if decide (k = k') then Some v else map_get k' m.
Proof.
  destruct (decide (k = k')) as [->|]; [apply map_get_set_eq|by apply map_get_set_ne].
Qed.

Lemma map_has_get k m : map_has k m = true <-> is_Some (map_get k m).
Proof.
  unfold map_has. destruct (map_get k m); split; intros H; [eauto|done|done|by destruct H].
Qed.

Lemma map_get_none k m : map_get k m = None <-> k ∉ map_keys m.
Proof.
  unfold map_keys. induction m as [|[k' v] m IH]; simpl; [split; [set_solver|done]|].
  rewrite elem_of_cons. destruct (decide (k = k')) as [->|].
  - split; [done|]. intros H. exfalso. apply H. by left.
  - rewrite IH. naive_solver.
Qed.

Lemma map_get_elem k v m : map_get k m = Some v -> (k, v) ∈ m.
Proof.
  induction m as [|[k' v'] m IH]; simpl; [done|].
  destruct (decide (k = k')) as [->|]; intros; simplify_eq; set_solver.
Qed.

Lemma map_elem_get k v m : map_ok m -> (k, v) ∈ m -> map_get k m = Some v.
Proof.
  unfold map_ok, map_keys. induction m as [|[k' v'] m IH]; simpl; [set_solver|].
  rewrite NoDup_cons. intros [Hni Hnd] Hin.
  apply elem_of_cons in Hin as [Heq|Hin].
  - simplify_eq. by rewrite decide_True.
  - destruct (decide (k = k')) as [->|]; [|auto].
    exfalso. apply Hni. apply (list_elem_of_fmap_2 fst) in Hin. done.
Qed.

Lemma map_set_keys_present k v m : k ∈ map_keys m -> map_keys (map_set k v m) = map_keys m.
Proof.
  unfold map_keys. induction m as [|[k' v'] m IH]; simpl; [set_solver|].
  rewrite elem_of_cons. intros H.
  destruct (decide (k = k')) as [->|]; simpl; [done|].
  f_equal. apply IH. naive_solver.
Qed.

Lemma map_set_absent k v m : k ∉ map_keys m -> map_set k v m = m ++ [(k, v)].
Proof.
  unfold map_keys. induction m as [|[k' v'] m IH]; simpl; [done|].
  rewrite not_elem_of_cons. intros [Hne Hni].
  rewrite decide_False by done. by rewrite IH.
Qed.

Lemma map_set_keys_absent k v m : k ∉ map_keys m -> map_keys (map_set k v m) = map_keys m ++ [k].
Proof. intros H. rewrite map_set_absent by done. unfold map_keys. by rewrite fmap_app. Qed.

Lemma map_set_ok k v m : map_ok m -> map_ok (map_set k v m).
Proof.
  unfold map_ok. intros H. destruct (decide (k ∈ map_keys m)) as [Hin|Hni].
  - by rewrite map_set_keys_present.
  - rewrite map_set_keys_absent by done. rewrite NoDup_app.
    split_and!; [done|set_solver|]. apply NoDup_singleton.
Qed.

Lemma map_set_set k a b m : map_set k a (map_set k b m) = map_set k a m.
Proof.
  induction m as [|[k' v] m IH]; simpl; [by rewrite decide_True|].
  destruct (decide (k = k')) as [->|]; simpl; [by rewrite decide_True|]. by rewrite decide_False, IH.
Qed.

Lemma map_set_same k v m : map_get k m = Some v -> map_set k v m = m.
Proof. induction m as [|[k' w] m IH]; simpl; [done|]. destruct (decide (k = k')); [by intros [= ->]|]. intros H. by rewrite IH. Qed.

Lemma map_delete_keys k m : map_ok m -> map_keys (map_delete k m) = filter (fun k' => k <> k') (map_keys m).
Proof.
  unfold map_ok, map_keys. induction m as [|[k' v'] m IH]; simpl; [done|].
  rewrite NoDup_cons. intros [Hni Hnd]. rewrite filter_cons.
  destruct (decide (k = k')) as [->|]; simpl.
  - rewrite decide_False by naive_solver. by rewrite filter_notin.
  - rewrite decide_True by done. simpl. f_equal. by apply IH.
Qed.

Lemma map_delete_ok k m : map_ok m -> map_ok (map_delete k m).
Proof.
  intros H. unfold map_ok. rewrite map_delete_keys by done. by apply NoDup_filter.
Qed.

Lemma map_get_delete_eq k m : map_ok m -> map_get k (map_delete k m) = None.
Proof.
  intros H. apply map_get_none. rewrite map_delete_keys by done.
  rewrite list_elem_of_filter. naive_solver.
Qed.

Lemma map_get_delete_ne k k' m : k <> k' -> map_get k' (map_delete k m) = map_get k' m.
Proof.
  intros Hne. induction m as [|[k1 v1] m IH]; simpl; [done|].
  destruct (decide (k = k1)) as [->|]; simpl.
  - by rewrite decide_False.
  - by rewrite IH.
Qed.

Lemma map_size_set k v m : map_size (map_set k v m) = (map_size m + if map_has k m then 0 else 1)%nat.
Proof.
  unfold map_size, map_has. destruct (map_get k m) eqn:E.
  - assert (Hin : k ∈ map_keys m).
    { destruct (decide (k ∈ map_keys m)); [done|].
      apply map_get_none in n. congruence. }
    pose proof (map_set_keys_present k v m Hin) as Hk. unfold map_keys in Hk.
    apply (f_equal length) in Hk. rewrite !length_fmap in Hk. lia.
  - apply map_get_none in E. rewrite map_set_absent by done.
    rewrite length_app. simpl. lia.
Qed.
End JsMap.
Arguments jsmap : clear implicits.

(** A function on the values commutes with [get]. *)
Lemma map_get_values {K V V'} `{EqDecision K} (f : V -> V') (k : K) (o : jsmap K V) :
  map_get k (map (fun kv => (fst kv, f (snd kv))) o) = f <$> map_get k o.
Proof. induction o as [|[k' v] o IH]; [done|]. simpl. by destruct (decide (k = k')). Qed.

#[export] Hint Resolve map_set_ok map_delete_ok : pieng.
#[export] Hint Rewrite @map_get_set_eq : pieng.
