(* ===== verification/Regex.v ===== *)
(** * The regular expressions of the language

    The backtracking matcher of ECMAScript, for the constructs the source uses:
    character sets, sequences, alternatives, greedy and lazy repetition, capture
    groups, anchors, word boundaries, lookahead and one-character lookbehind,
    with [RegExp.prototype.test], global [String.prototype.replace] and
    [String.prototype.split]. [sem] is the relation a pattern denotes; the matcher
    is proved to find a match exactly when there is one, and replacement to
    rewrite exactly the leftmost matches.

    Capture groups do not occur under a repetition or a lookahead in the patterns
    of this library, so the matcher does not reset them there. *)

From S2P Require Import Prelude JsMap.

Open Scope string_scope.
#[local] Arguments String.append !_ _ /.

(** A character set and the sets the patterns are built from. *)
Definition cset : Type := ascii -> bool.

Definition code_between (lo hi : ascii) : cset := fun c =>
  (N_of_ascii lo <=? N_of_ascii c)%N && (N_of_ascii c <=? N_of_ascii hi)%N.
Fixpoint one_of (s : string) : cset := fun c =>
  match s with
  | EmptyString => false
  | String d s' => bool_decide (c = d) || one_of s' c
  end.
Definition cunion (p q : cset) : cset := fun c => p c || q c.
Definition cneg (p : cset) : cset := fun c => negb (p c).
Definition digit : cset := code_between "0" "9".
Definition upper : cset := code_between "A" "Z".
Definition lower : cset := code_between "a" "z".
Definition letter : cset := cunion upper lower.
Definition alnum : cset := cunion letter digit.
(** [\w] *)
Definition word : cset := cunion alnum (one_of "_").

(** A pattern. The flag of [RStar] says greedy; those of [RAhead] and [RBehind]
    say that the assertion is negated. *)
Inductive regex :=
  | RSet (p : cset)
  | REps
  | RSeq (a b : regex)
  | RAlt (a b : regex)
  | RStar (greedy : bool) (a : regex)
  | RGroup (n : nat) (a : regex)
  | RBegin
  | REnd
  | RWord
  | RAhead (neg : bool) (a : regex)
  | RBehind (neg : bool) (p : cset).

Declare Scope regex_scope.
Delimit Scope regex_scope with re.
Bind Scope regex_scope with regex.
Infix "·" := RSeq (at level 41, right associativity) : regex_scope.

Fixpoint lit (s : string) : regex :=
  match s with
  | EmptyString => REps
  | String c EmptyString => RSet (fun d => bool_decide (d = c))
  | String c s' => RSeq (RSet (fun d => bool_decide (d = c))) (lit s')
  end.
(** A literal under the flag [i]. *)
Fixpoint lit_i (s : string) : regex :=
  match s with
  | EmptyString => REps
  | String c EmptyString => RSet (fun d => bool_decide (lower_ascii d = lower_ascii c))
  | String c s' => RSeq (RSet (fun d => bool_decide (lower_ascii d = lower_ascii c))) (lit_i s')
  end.
Fixpoint alts (l : list regex) : regex :=
  match l with
  | [] => REps
  | [a] => a
  | a :: l' => RAlt a (alts l')
  end.
Definition star (a : regex) : regex := RStar true a.
Definition plus (a : regex) : regex := RSeq a (star a).
Definition opt (a : regex) : regex := RAlt a REps.
Fixpoint times (n : nat) (a : regex) : regex :=
  match n with O => REps | S O => a | S n' => RSeq a (times n' a) end.
(** [a{n,}] *)
Definition at_least (n : nat) (a : regex) : regex := RSeq (times n a) (star a).

(** A position in the text, with what the groups have captured so far. *)
Record pos := mkPos {
  before : string; (* the text to the left, nearest character first *)
  rest : string;
  groups : jsmap nat string
}.

Definition start (s : string) : pos := mkPos "" s [].

Definition advance (s : pos) : option (ascii * pos) :=
  match rest s with
  | EmptyString => None
  | String c t => Some (c, mkPos (String c (before s)) t (groups s))
  end.

Definition left_len (s : pos) : nat := String.length (rest s).

(** The text between two positions. *)
Definition text (s u : pos) : string := String.substring 0 (left_len s - left_len u) (rest s).

Definition capture (n : nat) (s u : pos) : pos :=
  mkPos (before u) (rest u) (map_set n (text s u) (groups u)).

Definition head_in (p : cset) (s : string) : bool :=
  match s with EmptyString => false | String c _ => p c end.
Definition at_boundary (s : pos) : bool := xorb (head_in word (before s)) (head_in word (rest s)).
Definition is_empty (s : string) : bool := match s with EmptyString => true | _ => false end.

(** The zero-width assertions that look at no pattern. *)
Definition assertion (r : regex) (s : pos) : bool :=
  match r with
  | RBegin => is_empty (before s)
  | REnd => is_empty (rest s)
  | RWord => at_boundary s
  | RBehind neg p => xorb neg (head_in p (before s))
  | _ => false
  end.

(** The repetition of a matcher: an iteration counts only if it consumed
    something, so as many iterations as there are characters left are enough. *)
Definition star_loop {A} (greedy : bool) (body : pos -> (pos -> option A) -> option A) (k : pos -> option A)
  : nat -> pos -> option A :=
  fix loop (n : nat) (s : pos) {struct n} : option A :=
    match n with
    | O => k s
    | S n' =>
        let more := body s (fun u => if (left_len u <? left_len s)%nat then loop n' u else None) in
        if greedy
        then match more with Some x => Some x | None => k s end
        else match k s with Some x => Some x | None => more end
    end.

(** The matcher, with the continuation of the ECMAScript algorithm: [m r s k] is
    the first answer of [k] among the ends of the matches of [r] at [s], in the
    order the algorithm tries them. *)
Fixpoint m {A} (r : regex) (s : pos) (k : pos -> option A) {struct r} : option A :=
  match r with
  | RSet p => match advance s with
              | Some (c, u) => if p c then k u else None
              | None => None
              end
  | REps => k s
  | RSeq a b => m a s (fun u => m b u k)
  | RAlt a b => match m a s k with Some x => Some x | None => m b s k end
  | RStar greedy a => star_loop greedy (m a) k (left_len s) s
  | RGroup n a => m a s (fun u => k (capture n s u))
  | RAhead neg a =>
      match m a s Some with
      | Some _ => if neg then None else k s
      | None => if neg then k s else None
      end
  | RBegin | REnd | RWord | RBehind _ _ => if assertion r s then k s else None
  end.

(** A match at the position itself. *)
Definition exec_at (r : regex) (s : pos) : option pos := m r s Some.

(** The leftmost match at or after a position: its two ends. *)
Fixpoint search_from (r : regex) (b t : string) : option (pos * pos) :=
  match exec_at r (mkPos b t []) with
  | Some u => Some (mkPos b t [], u)
  | None => match t with
            | EmptyString => None
            | String c t' => search_from r (String c b) t'
            end
  end.
Definition exec (r : regex) (s : string) : option (pos * pos) := search_from r "" s.
(** [r.test(s)] *)
Definition test (r : regex) (s : string) : bool := bool_decide (is_Some (exec r s)).

(** [s.replace(/r/g, f)]; [f] gets the matched text and the groups. *)
Fixpoint replace_loop (n : nat) (r : regex) (f : string -> jsmap nat string -> string) (b t : string) : string :=
  match n with
  | O => t
  | S n' =>
      let step := match t with
                  | EmptyString => EmptyString
                  | String c t' => String c (replace_loop n' r f (String c b) t')
                  end in
      match exec_at r (mkPos b t []) with
      | None => step
      | Some u => f (text (mkPos b t []) u) (groups u) +:+
                  (if (left_len u <? String.length t)%nat then replace_loop n' r f (before u) (rest u) else step)
      end
  end.
Definition replace_from (r : regex) (f : string -> jsmap nat string -> string) (b t : string) : string :=
  replace_loop (S (String.length t)) r f b t.
Definition replace_all (r : regex) (f : string -> jsmap nat string -> string) (s : string) : string :=
  replace_from r f "" s.
(** [s.replace(/r/, f)], the first match only. *)
Definition replace_first (r : regex) (f : string -> jsmap nat string -> string) (s : string) : string :=
  match exec r s with
  | None => s
  | Some (u, v) => String.substring 0 (String.length s - left_len u) s +:+ f (text u v) (groups v) +:+ rest v
  end.

(** [s.split(/r/)] for a pattern that matches no empty text and captures nothing;
    [cur] is the piece read so far, reversed. *)
Fixpoint split_loop (n : nat) (r : regex) (cur : string) (b t : string) : list string :=
  match n with
  | O => [String.rev cur]
  | S n' =>
      match t with
      | EmptyString => [String.rev cur]
      | String c t' =>
          match exec_at r (mkPos b t []) with
          | Some u => if (left_len u <? String.length t)%nat
                      then String.rev cur :: split_loop n' r "" (before u) (rest u)
                      else split_loop n' r (String c cur) (String c b) t'
          | None => split_loop n' r (String c cur) (String c b) t'
          end
      end
  end.
Definition split_re (r : regex) (s : string) : list string := split_loop (S (String.length s)) r "" "" s.

(** [Number.parseInt(s, 10)]; [None] is [NaN]. *)
Fixpoint digits_value (acc : Z) (s : string) : Z :=
  match s with
  | EmptyString => acc
  | String c s' => if digit c then digits_value (acc * 10 + (Z.of_N (N_of_ascii c) - 48)) s' else acc
  end.
Definition parse_digits (s : string) : option Z := if head_in digit s then Some (digits_value 0 s) else None.
Definition parseInt (s : string) : option Z :=
  match trim_start s with
  | String "-" t => option_map Z.opp (parse_digits t)
  | String "+" t => parse_digits t
  | t => parse_digits t
  end.

(** * What a pattern denotes *)

(** A step that consumes something. *)
Definition shorter (R : pos -> pos -> Prop) (x y : pos) : Prop := R x y /\ (left_len y < left_len x)%nat.

(** [sem r s u]: the pattern can match the text between [s] and [u]. *)
Fixpoint sem (r : regex) (s u : pos) : Prop :=
  match r with
  | RSet p => exists c, advance s = Some (c, u) /\ p c = true
  | REps => u = s
  | RSeq a b => exists v, sem a s v /\ sem b v u
  | RAlt a b => sem a s u \/ sem b s u
  | RStar _ a => rtc (shorter (sem a)) s u
  | RGroup n a => exists v, sem a s v /\ u = capture n s v
  | RAhead neg a => u = s /\ if neg then ~ (exists v, sem a s v) else exists v, sem a s v
  | RBegin | REnd | RWord | RBehind _ _ => u = s /\ assertion r s = true
  end.

(** What the answer of the matcher says: an end of a match with the answer of
    the continuation there, or that the continuation refuses every end. *)
Definition answers {A} (ends : pos -> Prop) (k : pos -> option A) (o : option A) : Prop :=
  match o with
  | Some x => exists u, ends u /\ k u = Some x
  | None => forall u, ends u -> k u = None
  end.

Lemma answers_assert {A} (s : pos) (b : bool) (k : pos -> option A) :
  answers (fun u => u = s /\ b = true) k (if b then k s else None).
Proof.
  destruct b; simpl; [|by intros u [_ ?]].
  destruct (k s) eqn:E; simpl; [by exists s|by intros u [-> _]].
Qed.

Lemma answers_or {A} (P Q : pos -> Prop) (k : pos -> option A) o1 o2 :
  answers P k o1 -> answers Q k o2 ->
  answers (fun u => P u \/ Q u) k (match o1 with Some x => Some x | None => o2 end).
Proof.
  destruct o1 as [x|]; simpl; [intros (u & ? & ?) _; by eauto|].
  destruct o2 as [y|]; simpl; [intros _ (u & ? & ?); by eauto|]. naive_solver.
Qed.

(** One more iteration of a repetition, or none. *)
Lemma rtc_unfold {A} (R : A -> A -> Prop) x z : rtc R x z <-> x = z \/ exists y, R x y /\ rtc R y z.
Proof.
  split; [inversion 1; subst; eauto|]. intros [->|(y & ? & ?)]; [constructor|by eapply rtc_l].
Qed.

Lemma answers_iff {A} (P Q : pos -> Prop) (k : pos -> option A) o :
  (forall u, P u <-> Q u) -> answers P k o -> answers Q k o.
Proof. destruct o; simpl; naive_solver. Qed.

Lemma answers_here {A} (s : pos) (k : pos -> option A) : answers (fun u => s = u) k (k s).
Proof. destruct (k s) eqn:E; simpl; [by eauto|by intros u <-]. Qed.

Lemma star_answers {A} g (body : pos -> (pos -> option A) -> option A) (R : pos -> pos -> Prop) k n s :
  (forall s k, answers (R s) k (body s k)) -> (left_len s <= n)%nat ->
  answers (rtc (shorter R) s) k (star_loop g body k n s).
Proof.
  intros Hbody. revert s. induction n as [|n IHn]; intros s Hle; simpl.
  { eapply answers_iff; [|apply answers_here]. intros u. rewrite rtc_unfold. unfold shorter.
    split; [by left|]. intros [->|(y & [_ ?] & _)]; [done|lia]. }
  set (more := body s _).
  assert (answers (fun u => exists y, shorter R s y /\ rtc (shorter R) y u) k more) as Hmore.
  { pose proof (Hbody s (fun u => if (left_len u <? left_len s)%nat then star_loop g body k n u else None)) as H.
    fold more in H. clearbody more. unfold shorter at 1. destruct more as [x|]; simpl in *.
    - destruct H as (y & Ha & Hk). destruct (Nat.ltb_spec (left_len y) (left_len s)); [|done].
      pose proof (IHn y ltac:(lia)) as H'. rewrite Hk in H'. simpl in H'. naive_solver.
    - intros u (y & (Ha & Hlt) & Hr). specialize (H y Ha).
      destruct (Nat.ltb_spec (left_len y) (left_len s)); [|lia].
      pose proof (IHn y ltac:(lia)) as H'. rewrite H in H'. by apply H'. }
  clearbody more. pose proof (answers_here s k) as Hs.
  destruct g;
    [eapply answers_iff; [|exact (answers_or _ _ _ _ _ Hmore Hs)]
    |eapply answers_iff; [|exact (answers_or _ _ _ _ _ Hs Hmore)]];
    intros u; rewrite rtc_unfold; tauto.
Qed.

(** The matcher is exact. *)
Lemma m_answers r : forall A s (k : pos -> option A), answers (sem r s) k (m r s k).
Proof.
  induction r as [p| |a IHa b IHb|a IHa b IHb|g a IHa|n a IHa| | | |neg a IHa|neg p]; intros A s k; simpl;
    try apply answers_assert.
  - destruct (advance s) as [[c u]|]; simpl; [|by intros u (c & ? & _)].
    destruct (p c) eqn:Hp; simpl; [|intros v (c' & ? & ?); simplify_eq; congruence].
    destruct (k u) eqn:E; simpl; [by eauto 6|]. intros v (c' & ? & ?). by simplify_eq.
  - destruct (k s) eqn:E; simpl; [by eauto|by intros u ->].
  - pose proof (IHa A s (fun u => m b u k)) as H. destruct (m a s _) as [x|]; simpl in *.
    + destruct H as (u & Ha & Hb). pose proof (IHb A u k) as H. rewrite Hb in H. naive_solver.
    + intros u (v & Ha & Hb). pose proof (IHb A v k) as H'. rewrite (H v Ha) in H'. by apply H'.
  - by apply answers_or.
  - by apply star_answers.
  - pose proof (IHa A s (fun u => k (capture n s u))) as H. destruct (m a s _); simpl in *; naive_solver.
  - pose proof (IHa pos s Some) as H. destruct (m a s Some) as [v|]; simpl in H.
    + destruct H as (v' & Hv & _). destruct neg; simpl; [intros u [_ Hn]; destruct Hn; eauto|].
      destruct (k s) eqn:E; simpl; [exists s; split_and!; eauto|]. by intros u [-> _].
    + destruct neg; simpl.
      * destruct (k s) eqn:E; simpl; [|by intros u [-> _]].
        exists s. split_and!; [done| |done]. intros [v Hv]. by specialize (H v Hv).
      * intros u [_ [v Hv]]. by specialize (H v Hv).
Qed.

Lemma exec_at_some r s u : exec_at r s = Some u -> sem r s u.
Proof.
  intros H. pose proof (m_answers r pos s Some) as Ha. unfold exec_at in H. rewrite H in Ha.
  destruct Ha as (v & ? & ?). by simplify_eq.
Qed.

Lemma exec_at_none r s : exec_at r s = None <-> forall u, ~ sem r s u.
Proof.
  pose proof (m_answers r pos s Some) as Ha. unfold exec_at. destruct (m r s Some); simpl in Ha.
  - split; [done|]. destruct Ha as (v & Hv & _). intros H. by destruct (H v).
  - split; [|done]. intros _ u Hu. by specialize (Ha u Hu).
Qed.

(** A match consumes a prefix of what is left. *)
Definition consumes (x : string) (s u : pos) : Prop := rest s = x +:+ rest u /\ before u = String.rev_app x (before s).

Lemma string_app_nil_r (x : string) : x +:+ "" = x.
Proof. induction x as [|c x IH]; simpl; [done|]. by f_equal. Qed.

Lemma rev_app_app (x y acc : string) : String.rev_app (x +:+ y) acc = String.rev_app y (String.rev_app x acc).
Proof. revert acc. induction x as [|c x IH]; intros acc; [done|]. simpl. apply IH. Qed.

Lemma consumes_refl s : consumes "" s s.
Proof. split; reflexivity. Qed.

Lemma consumes_trans x y s u v : consumes x s u -> consumes y u v -> consumes (x +:+ y) s v.
Proof.
  intros [H1 H2] [H3 H4]. split; [by rewrite H1, H3, string_app_assoc|]. by rewrite H4, H2, rev_app_app.
Qed.

Lemma sem_consumes r : forall s u, sem r s u -> exists x, consumes x s u.
Proof.
  induction r as [p| |a IHa b IHb|a IHa b IHb|g a IHa|n a IHa| | | |neg a IHa|neg p]; intros s u H; simpl in H;
    try (destruct H as [-> _] || subst u; by exists ""; apply consumes_refl).
  - destruct H as (c & H & _). unfold advance in H. destruct (rest s) as [|d t] eqn:E; simplify_eq.
    exists (String c ""). unfold consumes. by rewrite E.
  - destruct H as (v & Ha & Hb). destruct (IHa _ _ Ha) as [x ?], (IHb _ _ Hb) as [y ?].
    exists (x +:+ y). by eapply consumes_trans.
  - destruct H; eauto.
  - induction H as [|s v u [Hv _] _ [y Hy]]; [by exists ""; apply consumes_refl|].
    destruct (IHa _ _ Hv) as [x Hx]. exists (x +:+ y). by eapply consumes_trans.
  - destruct H as (v & Ha & ->). destruct (IHa _ _ Ha) as [x [H1 H2]]. by exists x.
Qed.

Lemma substring_prefix (x y : string) : String.substring 0 (String.length x) (x +:+ y) = x.
Proof. induction x as [|c x IH]; simpl; [by destruct y|]. by f_equal. Qed.

Lemma text_consumed x s u : consumes x s u -> text s u = x.
Proof.
  intros [H _]. unfold text, left_len. rewrite H, string_length_app, Nat.add_sub. apply substring_prefix.
Qed.

(** The position after [x] characters. *)
Definition at_ (b x t : string) : pos := mkPos (String.rev_app x b) t [].

(** The leftmost match: nothing before it matches. *)
Lemma search_from_some r b t p u :
  search_from r b t = Some (p, u) ->
  exists x, t = x +:+ rest p /\ p = at_ b x (rest p) /\ exec_at r p = Some u /\
            (forall y z, x = y +:+ z -> z <> "" -> forall v, ~ sem r (at_ b y (z +:+ rest p)) v).
Proof.
  revert b. induction t as [|c t IH]; intros b H; simpl in H;
    (match type of H with context [exec_at r ?q] => destruct (exec_at r q) as [v|] eqn:E end; [|try done]).
  1,2: simplify_eq; exists ""; (split_and!; [reflexivity|reflexivity|exact E|]); intros y z Hyz Hz;
    destruct y; [|done]; by destruct z.
  destruct (IH _ H) as (x & -> & Hp & Hu & Hbefore). exists (String c x). split_and!; [done|exact Hp|done|].
  intros [|d y] z Hyz Hz; simplify_eq/=.
  - apply exec_at_none. exact E.
  - by apply Hbefore.
Qed.

Lemma search_from_none r b t :
  search_from r b t = None <-> forall y z, t = y +:+ z -> forall v, ~ sem r (at_ b y z) v.
Proof.
  revert b. induction t as [|c t IH]; intros b; simpl;
    (destruct (exec_at r _) as [v|] eqn:E;
     [split; [done|]; intros H; exfalso; by eapply (H "" _), exec_at_some|]).
  - split; [|done]. intros _ [|? ?] z Hyz; [|done]. simpl in Hyz. subst z. by apply exec_at_none.
  - rewrite IH. split.
    + intros H [|d y] z Hyz; simplify_eq/=; [by apply exec_at_none|]. by apply H.
    + intros H y z -> v. by apply (H (String c y) z).
Qed.

(** [test] answers whether the pattern matches somewhere. *)
Lemma test_false r s : test r s = false <-> forall y z, s = y +:+ z -> forall v, ~ sem r (at_ "" y z) v.
Proof.
  unfold test, exec. rewrite bool_decide_eq_false, <-search_from_none. destruct (search_from r "" s); simpl.
  - split; [|done]. intros []. by eexists.
  - split; [done|]. by intros _ [].
Qed.

(** Text that a pattern matches nowhere is left alone. *)
Lemma replace_loop_none n r f b t : search_from r b t = None -> replace_loop n r f b t = t.
Proof.
  revert b t. induction n as [|n IH]; intros b t H; simpl; [done|].
  destruct t as [|c t]; simpl in H; destruct (exec_at r _) eqn:E; try done.
  by rewrite IH.
Qed.

Lemma replace_all_none r f s : test r s = false -> replace_all r f s = s.
Proof.
  unfold test, exec, replace_all, replace_from. rewrite bool_decide_eq_false. intros H. apply replace_loop_none.
  destruct (search_from r "" s); [|done]. by destruct H.
Qed.

(** More fuel than characters changes nothing. *)
Lemma replace_loop_fuel n n' r f b t :
  (String.length t < n)%nat -> (String.length t < n')%nat -> replace_loop n r f b t = replace_loop n' r f b t.
Proof.
  revert n' b t. induction n as [|n IH]; intros [|n'] b t Hn Hn'; [lia|lia|lia|]. simpl.
  assert (match t with EmptyString => EmptyString | String c t' => String c (replace_loop n r f (String c b) t') end
        = match t with EmptyString => EmptyString | String c t' => String c (replace_loop n' r f (String c b) t') end)
    as Hstep.
  { destruct t as [|c t]; [done|]. simpl in *. f_equal. apply IH; lia. }
  destruct (exec_at r _) as [u|]; [|done]. rewrite Hstep.
  destruct (Nat.ltb_spec (left_len u) (String.length t)); [|done]. f_equal. unfold left_len in *. apply IH; lia.
Qed.

Lemma replace_from_unfold r f b t :
  replace_from r f b t =
  (let step := match t with
              | EmptyString => EmptyString
              | String c t' => String c (replace_from r f (String c b) t')
              end in
  match exec_at r (mkPos b t []) with
  | None => step
  | Some u => f (text (mkPos b t []) u) (groups u) +:+
              (if (left_len u <? String.length t)%nat then replace_from r f (before u) (rest u) else step)
  end).
Proof.
  unfold replace_from at 1. cbn [replace_loop]. destruct (exec_at r (mkPos b t [])) as [u|]; [|by destruct t].
  destruct (Nat.ltb_spec (left_len u) (String.length t)); [|by destruct t]. cbn zeta. f_equal.
  apply replace_loop_fuel; unfold left_len in *; lia.
Qed.

(** The leftmost match is replaced, and the replacement goes on behind it. *)
Lemma replace_from_leftmost r f b t p u :
  search_from r b t = Some (p, u) -> (left_len u < left_len p)%nat ->
  exists x, t = x +:+ rest p /\
    replace_from r f b t = x +:+ f (text p u) (groups u) +:+ replace_from r f (before u) (rest u).
Proof.
  intros H Hlt. revert b H. induction t as [|c t IH]; intros b H; cbn [search_from] in H;
    rewrite replace_from_unfold;
    (match type of H with context [exec_at r ?q] => destruct (exec_at r q) as [v|] eqn:E end; [simplify_eq|try done]).
  - unfold left_len in Hlt. simpl in Hlt. lia.
  - exists "". split; [done|]. unfold left_len in *. cbn [rest] in Hlt.
    destruct (Nat.ltb_spec (String.length (rest u)) (String.length (String c t))); [done|lia].
  - destruct (IH _ H) as (x & Hs & Hr). exists (String c x). cbn zeta. by rewrite Hr, Hs.
Qed.
