(* ===== verification/Transitions.v ===== *)
(** * Transition tables

    Three parts of the runtime keep a status in a table of allowed successors:
    missions and tasks (src/orchestration/state.ts), contracts
    (src/plannerWorker/stateMachine.ts) and lifecycle runs
    (src/lifecycle/stateMachine.ts). [TransitionTable] is the interface they
    share; the lemmas here are proved once against it. *)

From S2P Require Import Prelude.

Class TransitionTable (S : Type) `{EqDecision S} := {
  next : S -> list S;
}.

Section Table.
Context {S : Type} `{TransitionTable S}.

(** [TABLE[from].includes(to)] *)
Definition allowed (from to : S) : bool := js_includes to (next from).

Definition trans (from to : S) : Prop := allowed from to = true.

(** A request list fed through the asserting setter: the first refused
    transition stops it with the pair it refused. *)
Fixpoint run_requests (s : S) (reqs : list S) : res (S * S) S :=
  match reqs with
  | [] => Ok s
  | t :: reqs' => if allowed s t then run_requests t reqs' else Err (s, t)
  end.

(** Bounded search for a path, used to establish reachability by computation. *)
Fixpoint reach_within (n : nat) (from to : S) : bool :=
  bool_decide (from = to)
  || match n with
     | O => false
     | Datatypes.S n' => existsb (fun m => reach_within n' m to) (next from)
     end.

(** A set of states no transition leaves. *)
Definition closed_set (P : S -> bool) : Prop :=
  forall s t, P s = true -> trans s t -> P t = true.

Lemma trans_next s t : trans s t <-> t ∈ next s.
Proof. unfold trans, allowed. apply js_includes_true. Qed.

Lemma run_requests_app s l1 l2 :
  run_requests s (l1 ++ l2) =
  (let! t := run_requests s l1 in run_requests t l2).
Proof.
  revert s. induction l1 as [|t l1 IH]; intros s; simpl; [done|].
  destruct (allowed s t); [apply IH|done].
Qed.

Lemma run_requests_rtc s reqs t : run_requests s reqs = Ok t -> rtc trans s t.
Proof.
  revert s. induction reqs as [|u reqs IH]; intros s; simpl.
  - intros [= ->]. apply rtc_refl.
  - destruct (allowed s u) eqn:E; [|done]. intros H1. eapply rtc_l; [exact E|auto].
Qed.

Lemma rtc_run_requests s t : rtc trans s t -> exists reqs, run_requests s reqs = Ok t.
Proof.
  induction 1 as [s|s u t Hsu _ [reqs Hreqs]]; [by exists []|].
  exists (u :: reqs). simpl. unfold trans in Hsu. by rewrite Hsu.
Qed.

Lemma reach_within_sound n from to : reach_within n from to = true -> rtc trans from to.
Proof.
  revert from. induction n as [|n IH]; intros from; simpl; intros H1; bool_to_prop.
  - destruct H1 as [H1|H1]; [|done]. bool_to_prop. subst. apply rtc_refl.
  - destruct H1 as [H1|H1]; bool_to_prop; [subst; apply rtc_refl|].
    apply existsb_exists in H1 as (m & Hm & Hr).
    eapply rtc_l; [|by apply IH]. apply trans_next, list_elem_of_In; done.
Qed.

Lemma closed_set_rtc P s t : closed_set P -> P s = true -> rtc trans s t -> P t = true.
Proof. intros Hc Hs Hr. induction Hr; eauto. Qed.

Lemma closed_set_dec (P : S -> bool) (all : list S) :
  (forall s, s ∈ all) ->
  forallb (fun s => implb (P s) (forallb P (next s))) all = true -> closed_set P.
Proof.
  intros Hall Hb s t Hs Ht. rewrite forallb_forall in Hb.
  specialize (Hb s (proj1 (list_elem_of_In _ _) (Hall s))). rewrite Hs in Hb. simpl in Hb.
  rewrite forallb_forall in Hb. apply Hb.
  apply list_elem_of_In, trans_next, Ht.
Qed.

(** A run that leaves a region enters one of the states that guard its exits. *)
Lemma run_requests_exit (P Q : S -> bool) (all : list S) s reqs t :
  (forall s, s ∈ all) ->
  forallb (fun s => implb (P s) (forallb (fun t => P t || Q t) (next s))) all = true ->
  P s = true -> run_requests s reqs = Ok t ->
  P t = true \/ exists q, q ∈ reqs /\ Q q = true.
Proof.
  intros Hall Hb. rewrite forallb_forall in Hb.
  revert s. induction reqs as [|u reqs IH]; intros s Hs; simpl; [intros [= <-]; by left|].
  destruct (allowed s u) eqn:E; [|done]. intros Hr.
  specialize (Hb s (proj1 (list_elem_of_In _ _) (Hall s))). rewrite Hs in Hb. simpl in Hb.
  rewrite forallb_forall in Hb.
  assert (Hu : P u || Q u = true) by (apply Hb, list_elem_of_In, trans_next, E).
  bool_to_prop. destruct Hu as [Hu|Hu].
  - destruct (IH u Hu Hr) as [?|(q & Hq & HQ)]; [by left|]. right. exists q. set_solver.
  - right. exists u. set_solver.
Qed.

(** The last request of a run that ends elsewhere than it began was made in a
    state that lists the final one. *)
Lemma run_requests_last s reqs t :
  run_requests s reqs = Ok t -> s <> t ->
  exists l p, reqs = l ++ [t] /\ run_requests s l = Ok p /\ t ∈ next p.
Proof.
  intros Hr Hne. destruct reqs as [|u reqs _] using rev_ind; [simpl in Hr; congruence|].
  rewrite run_requests_app in Hr. apply res_bind_ok in Hr as (p & Hp & Hl). simpl in Hl.
  destruct (allowed p u) eqn:E; [|done]. simplify_eq.
  exists reqs, p. by rewrite <- trans_next.
Qed.

(** A state with no successors answers every request with an error. *)
Lemma terminal_refuses s t reqs : next s = [] -> run_requests s (t :: reqs) = Err (s, t).
Proof.
  intros Hn. simpl. unfold allowed. rewrite Hn.
  unfold js_includes. by rewrite bool_decide_eq_false_2 by set_solver.
Qed.

(** A refused request is always the first illegal pair of the list. *)
Lemma run_requests_err s reqs a b :
  run_requests s reqs = Err (a, b) ->
  exists l1 l2, reqs = l1 ++ b :: l2 /\ run_requests s l1 = Ok a /\ allowed a b = false.
Proof.
  revert s. induction reqs as [|u reqs IH]; intros s; simpl; [done|].
  destruct (allowed s u) eqn:E.
  - intros H1. apply IH in H1 as (l1 & l2 & -> & H2 & H3).
    exists (u :: l1), l2. simpl. by rewrite E.
  - intros [= <- <-]. by exists [], reqs.
Qed.
End Table.
