(* ===== verification/CoreTypes.v ===== *)
(** * Domain types of the ledger (src/core/types.ts)

    Records and enumerations shared by the ledger, the task DAG and the gates.
    Optional fields ([x?: T]) and nullable fields ([T | null]) are [option]s.
    Timestamps are the ISO strings the code stores. A number that need not be an
    integer is a rational. *)

From Stdlib Require Import QArith.
From S2P Require Import Prelude.

Inductive RiskLevel := risk_low | risk_medium | risk_high | risk_critical.
Inductive WorkItemStatus :=
| DEFINED | PLANNING | READY | EXECUTING | VERIFYING | REVIEWING | INTEGRATING | COMPLETED
| BLOCKED | FAILED | PARTIAL | CANCELLED | NEEDS_HUMAN | BUDGET_EXHAUSTED.
Inductive CandidateStatus :=
| C_CREATED | C_IMPLEMENTING | C_VERIFYING | C_ELIGIBLE | C_REVIEWING | C_PROMOTED | C_REJECTED.
Inductive TaskKind := implementation | investigation | test | review.
Inductive LedgerTaskStatus :=
| t_ready | t_started | t_completed | t_failed | t_blocked | t_proposed.
Inductive EvidenceStatus := ev_passed | ev_failed | ev_error.
Inductive EvidenceTrust := authoritative | deterministic | observed | reviewed | unverified.
Inductive EntityKind :=
| requirement | invariant | fact | hypothesis | decision | finding | test_obligation.
Inductive EntityStatus :=
| e_open | e_verified | e_rejected | e_resolved | e_accepted | e_implemented.
Inductive Severity := sev_info | sev_low | sev_medium | sev_high | sev_critical.

#[export] Instance RiskLevel_eq_dec : EqDecision RiskLevel.
Proof. solve_decision. Defined.
#[export] Instance WorkItemStatus_eq_dec : EqDecision WorkItemStatus.
Proof. solve_decision. Defined.
#[export] Instance CandidateStatus_eq_dec : EqDecision CandidateStatus.
Proof. solve_decision. Defined.
#[export] Instance TaskKind_eq_dec : EqDecision TaskKind.
Proof. solve_decision. Defined.
#[export] Instance LedgerTaskStatus_eq_dec : EqDecision LedgerTaskStatus.
Proof. solve_decision. Defined.
#[export] Instance EvidenceStatus_eq_dec : EqDecision EvidenceStatus.
Proof. solve_decision. Defined.
#[export] Instance EvidenceTrust_eq_dec : EqDecision EvidenceTrust.
Proof. solve_decision. Defined.
#[export] Instance EntityKind_eq_dec : EqDecision EntityKind.
Proof. solve_decision. Defined.
#[export] Instance EntityStatus_eq_dec : EqDecision EntityStatus.
Proof. solve_decision. Defined.
#[export] Instance Severity_eq_dec : EqDecision Severity.
Proof. solve_decision. Defined.

Record WorkItemPrLink := mkPrLink {
  pr_host : string;
  pr_owner : string;
  pr_repo : string;
  pr_number : Z;
  pr_url_canonical : string;
}.

Record LedgerPlanStep := mkStep { ps_task_id : string; ps_title : string }.

Record LedgerPlan := mkPlan {
  pl_id : string;
  pl_work_item_id : string;
  pl_revision : Z;
  pl_digest : string;
  pl_steps : list LedgerPlanStep;
  pl_total_steps : Q;
  pl_artifact : option (string * string);
  pl_supersedes : option string;
  pl_superseded_by : option string;
  pl_recorded_at : string;
}.

Record WorkItem := mkWorkItem {
  wi_id : string;
  wi_goal : string;
  wi_status : WorkItemStatus;
  wi_risk : RiskLevel;
  wi_repositories : list string;
  wi_created_at : string;
  wi_updated_at : string;
  wi_current_candidate_id : option string;
  wi_incumbent_candidate_id : option string;
  wi_blocked_reason : option string;
}.

Record Candidate := mkCandidate {
  ca_id : string;
  ca_work_item_id : string;
  ca_parent_id : option string;
  ca_status : CandidateStatus;
  ca_base_commit : string;
  ca_head_commit : option string;
  ca_tree : option string;
  ca_branch : string;
  ca_worktree_path : option string;
  ca_producer_run_id : option string;
  ca_producer_role : string;
  ca_diff : option string;
  ca_diff_artifact_uri : option string;
  ca_changed_files : list string;
  ca_evidence_ids : list string;
  ca_rejection_reason : option string;
  ca_created_at : string;
}.

Record Task := mkTask {
  task_id : string;
  task_work_item_id : string;
  task_title : string;
  task_kind : TaskKind;
  task_depends_on : list string;
  task_status : LedgerTaskStatus;
  task_scope_paths : list string;
  task_risk : RiskLevel;
  task_result_work_item_id : option string;
  task_blocked_reason : option string;
}.

(** The [summary] payload of an evidence record is opaque text here. *)
Record Evidence := mkEvidence {
  evd_id : string;
  evd_candidate_id : option string;
  evd_type : string;
  evd_tool : string;
  evd_command : option string;
  evd_started_at : string;
  evd_finished_at : string;
  evd_exit_code : Z;
  evd_status : EvidenceStatus;
  evd_summary : string;
  evd_artifacts : list string;
  evd_trust : EvidenceTrust;
}.

Record LedgerEntity := mkEntity {
  en_id : string;
  en_kind : EntityKind;
  en_claim : string;
  en_status : EntityStatus;
  en_evidence : list string;
  en_confidence : option Z;
  en_severity : option Severity;
  en_candidate_id : option string;
  en_work_item_id : option string;
  en_created_at : string;
}.
