(* ===== verification/MissionLifecycle.v ===== *)
(** * Mission and task lifecycles (src/orchestration/state.ts)

    The two transition tables, the checks built on them ([canTransition*],
    [assert*Transition]) and what the tables guarantee about every sequence of
    asserted transitions. *)

From S2P Require Import Prelude Transitions.

Module Mission.

Inductive MissionStatus :=
| NEW | CLASSIFYING | PLANNING | READY | QUEUED | STARTING | EXECUTING | INTEGRATING
| VALIDATING | REVIEWING | REPAIRING | FINAL_VALIDATION | COMPLETE | WAITING_FOR_USER
| WAITING_FOR_LLM | WAITING_FOR_CAPACITY | WAITING_FOR_GATEWAY | WAITING_FOR_MODEL
| WAITING_FOR_TOOL | RECOVERING_CONTEXT | RECOVERING_PROCESS | PAUSED_INFRASTRUCTURE
| NEEDS_ATTENTION | BLOCKED | CANCELING | CANCELED | FAILED.

#[export] Instance MissionStatus_eq_dec : EqDecision MissionStatus.
Proof. solve_decision. Defined.

(** First half of the table: intake, queueing and the parked states. *)
Definition MISSION_TRANSITIONS_intake (s : MissionStatus) : option (list MissionStatus) :=
  match s with
  | NEW => Some [CLASSIFYING; CANCELED]
  | CLASSIFYING => Some [PLANNING; READY; WAITING_FOR_USER; BLOCKED; FAILED; CANCELED]
  | PLANNING => Some [READY; QUEUED; WAITING_FOR_USER; BLOCKED; FAILED; CANCELED]
  | READY => Some [QUEUED; STARTING; EXECUTING; WAITING_FOR_USER; BLOCKED; FAILED; CANCELED]
  | QUEUED => Some [STARTING; EXECUTING; WAITING_FOR_USER; BLOCKED; CANCELING; FAILED]
  | STARTING =>
      Some [EXECUTING; WAITING_FOR_LLM; WAITING_FOR_GATEWAY; WAITING_FOR_CAPACITY;
            WAITING_FOR_MODEL; RECOVERING_CONTEXT; RECOVERING_PROCESS; NEEDS_ATTENTION;
            WAITING_FOR_USER; BLOCKED; CANCELING; FAILED]
  | WAITING_FOR_LLM =>
      Some [WAITING_FOR_CAPACITY; WAITING_FOR_GATEWAY; WAITING_FOR_MODEL; RECOVERING_CONTEXT;
            RECOVERING_PROCESS; PAUSED_INFRASTRUCTURE; NEEDS_ATTENTION; QUEUED; STARTING;
            EXECUTING; WAITING_FOR_TOOL; WAITING_FOR_USER; BLOCKED; CANCELING; FAILED]
  | WAITING_FOR_CAPACITY =>
      Some [WAITING_FOR_LLM; WAITING_FOR_GATEWAY; WAITING_FOR_MODEL; PAUSED_INFRASTRUCTURE;
            NEEDS_ATTENTION; QUEUED; STARTING; EXECUTING; WAITING_FOR_USER; BLOCKED;
            CANCELING; FAILED]
  | WAITING_FOR_GATEWAY =>
      Some [WAITING_FOR_LLM; WAITING_FOR_CAPACITY; WAITING_FOR_MODEL; RECOVERING_CONTEXT;
            RECOVERING_PROCESS; PAUSED_INFRASTRUCTURE; NEEDS_ATTENTION; QUEUED; STARTING;
            EXECUTING; WAITING_FOR_USER; BLOCKED; CANCELING; FAILED]
  | WAITING_FOR_MODEL =>
      Some [WAITING_FOR_LLM; WAITING_FOR_GATEWAY; WAITING_FOR_CAPACITY; PAUSED_INFRASTRUCTURE;
            NEEDS_ATTENTION; QUEUED; STARTING; EXECUTING; WAITING_FOR_USER; BLOCKED;
            CANCELING; FAILED]
  | WAITING_FOR_TOOL =>
      Some [EXECUTING; WAITING_FOR_LLM; RECOVERING_CONTEXT; RECOVERING_PROCESS;
            PAUSED_INFRASTRUCTURE; NEEDS_ATTENTION; QUEUED; STARTING; WAITING_FOR_USER;
            BLOCKED; CANCELING; FAILED]
  | RECOVERING_CONTEXT =>
      Some [WAITING_FOR_LLM; QUEUED; STARTING; EXECUTING; PAUSED_INFRASTRUCTURE;
            NEEDS_ATTENTION; WAITING_FOR_USER; BLOCKED; CANCELING; FAILED]
  | RECOVERING_PROCESS =>
      Some [EXECUTING; WAITING_FOR_LLM; QUEUED; STARTING; PAUSED_INFRASTRUCTURE;
            NEEDS_ATTENTION; WAITING_FOR_USER; BLOCKED; CANCELING; FAILED]
  | PAUSED_INFRASTRUCTURE =>
      Some [QUEUED; STARTING; EXECUTING; WAITING_FOR_USER; BLOCKED; CANCELING; FAILED]
  | NEEDS_ATTENTION =>
      Some [QUEUED; STARTING; EXECUTING; WAITING_FOR_LLM; WAITING_FOR_USER; BLOCKED;
            CANCELING; FAILED]
  | _ => None
  end.

(** Second half: execution, review, repair and the final states. *)
Definition MISSION_TRANSITIONS_execution (s : MissionStatus) : option (list MissionStatus) :=
  match s with
  | EXECUTING =>
      Some [INTEGRATING; VALIDATING; REVIEWING; REPAIRING; FINAL_VALIDATION; WAITING_FOR_LLM;
            WAITING_FOR_CAPACITY; WAITING_FOR_GATEWAY; WAITING_FOR_MODEL; WAITING_FOR_TOOL;
            RECOVERING_CONTEXT; RECOVERING_PROCESS; PAUSED_INFRASTRUCTURE; NEEDS_ATTENTION;
            WAITING_FOR_USER; BLOCKED; CANCELING; FAILED]
  | INTEGRATING =>
      Some [VALIDATING; REVIEWING; REPAIRING; FINAL_VALIDATION; EXECUTING; WAITING_FOR_LLM;
            WAITING_FOR_CAPACITY; WAITING_FOR_GATEWAY; WAITING_FOR_MODEL; RECOVERING_CONTEXT;
            RECOVERING_PROCESS; PAUSED_INFRASTRUCTURE; NEEDS_ATTENTION; WAITING_FOR_USER;
            BLOCKED; CANCELING; FAILED]
  | VALIDATING =>
      Some [REVIEWING; REPAIRING; FINAL_VALIDATION; EXECUTING; WAITING_FOR_LLM;
            WAITING_FOR_CAPACITY; WAITING_FOR_GATEWAY; WAITING_FOR_MODEL; RECOVERING_CONTEXT;
            RECOVERING_PROCESS; PAUSED_INFRASTRUCTURE; NEEDS_ATTENTION; WAITING_FOR_USER;
            BLOCKED; CANCELING; FAILED]
  | REVIEWING =>
      Some [REPAIRING; FINAL_VALIDATION; COMPLETE; WAITING_FOR_LLM; WAITING_FOR_CAPACITY;
            WAITING_FOR_GATEWAY; WAITING_FOR_MODEL; RECOVERING_CONTEXT; RECOVERING_PROCESS;
            PAUSED_INFRASTRUCTURE; NEEDS_ATTENTION; WAITING_FOR_USER; BLOCKED; CANCELING;
            FAILED]
  | REPAIRING =>
      Some [EXECUTING; INTEGRATING; VALIDATING; REVIEWING; FINAL_VALIDATION; WAITING_FOR_LLM;
            WAITING_FOR_CAPACITY; WAITING_FOR_GATEWAY; WAITING_FOR_MODEL; RECOVERING_CONTEXT;
            RECOVERING_PROCESS; PAUSED_INFRASTRUCTURE; NEEDS_ATTENTION; WAITING_FOR_USER;
            BLOCKED; CANCELING; FAILED]
  | FINAL_VALIDATION =>
      Some [COMPLETE; REPAIRING; REVIEWING; WAITING_FOR_LLM; WAITING_FOR_GATEWAY;
            WAITING_FOR_CAPACITY; RECOVERING_CONTEXT; RECOVERING_PROCESS;
            PAUSED_INFRASTRUCTURE; NEEDS_ATTENTION; BLOCKED; CANCELING; FAILED]
  | COMPLETE => Some []
  | WAITING_FOR_USER =>
      Some [CLASSIFYING; PLANNING; READY; QUEUED; STARTING; EXECUTING; REVIEWING; REPAIRING;
            FINAL_VALIDATION; CANCELING; BLOCKED; FAILED]
  | BLOCKED => Some [REPAIRING; WAITING_FOR_USER; CANCELED; FAILED]
  | CANCELING => Some [CANCELED; BLOCKED; FAILED]
  | CANCELED => Some []
  | FAILED => Some [BLOCKED; CANCELED]
  | _ => None
  end.

Definition MISSION_TRANSITIONS (s : MissionStatus) : list MissionStatus :=
  match MISSION_TRANSITIONS_intake s with
  | Some l => l
  | None => default [] (MISSION_TRANSITIONS_execution s)
  end.

#[export] Instance mission_table : TransitionTable MissionStatus := {| next := MISSION_TRANSITIONS |}.

Definition canTransitionMission (from to : MissionStatus) : bool := allowed from to.

(** The thrown message names the refused pair. *)
Definition assertMissionTransition (from to : MissionStatus) : res (MissionStatus * MissionStatus) unit :=
  if negb (canTransitionMission from to) then Err (from, to) else Ok tt.

Definition all_statuses : list MissionStatus :=
  [NEW; CLASSIFYING; PLANNING; READY; QUEUED; STARTING; EXECUTING; INTEGRATING; VALIDATING;
   REVIEWING; REPAIRING; FINAL_VALIDATION; COMPLETE; WAITING_FOR_USER; WAITING_FOR_LLM;
   WAITING_FOR_CAPACITY; WAITING_FOR_GATEWAY; WAITING_FOR_MODEL; WAITING_FOR_TOOL;
   RECOVERING_CONTEXT; RECOVERING_PROCESS; PAUSED_INFRASTRUCTURE; NEEDS_ATTENTION; BLOCKED;
   CANCELING; CANCELED; FAILED].

Lemma all_statuses_all s : s ∈ all_statuses.
Proof. apply list_elem_of_In. destruct s; simpl; tauto. Qed.

(** The states a mission parks in while infrastructure is degraded. *)
Definition parked : list MissionStatus :=
  [WAITING_FOR_LLM; WAITING_FOR_CAPACITY; WAITING_FOR_GATEWAY; WAITING_FOR_MODEL;
   WAITING_FOR_TOOL; RECOVERING_CONTEXT; RECOVERING_PROCESS; PAUSED_INFRASTRUCTURE;
   NEEDS_ATTENTION].

(** The asserting setter agrees with a run of one request. *)
Lemma assert_run from to :
  is_ok (assertMissionTransition from to) = is_ok (run_requests from [to]).
Proof.
  unfold assertMissionTransition, canTransitionMission. simpl.
  by destruct (allowed from to).
Qed.

(** Whatever transitions are asserted, a new mission that ends COMPLETE was
    classified, and its last step was taken in REVIEWING or FINAL_VALIDATION. *)
Theorem complete_only_through_gate reqs :
  run_requests NEW reqs = Ok COMPLETE ->
  CLASSIFYING ∈ reqs /\
  exists l g, reqs = l ++ [COMPLETE] /\ run_requests NEW l = Ok g /\
              (g = REVIEWING \/ g = FINAL_VALIDATION).
Proof.
  intros Hr. split.
  - destruct (run_requests_exit (fun s => js_includes s [NEW; CANCELED])
                (fun s => js_includes s [CLASSIFYING]) all_statuses NEW reqs COMPLETE)
      as [H|(q & Hq & H)]; [apply all_statuses_all|by vm_compute|done|done|done|].
    apply js_includes_true in H. set_solver.
  - destruct (run_requests_last _ _ _ Hr) as (l & g & -> & Hl & Hg); [done|].
    exists l, g. split_and!; [done|done|].
    apply js_includes_true in Hg. destruct g; try discriminate Hg; auto.
Qed.

Lemma complete_only_through_gate_witness :
  CLASSIFYING ∈ [CLASSIFYING; READY; EXECUTING; FINAL_VALIDATION; COMPLETE] /\
  exists l g, [CLASSIFYING; READY; EXECUTING; FINAL_VALIDATION; COMPLETE] = l ++ [COMPLETE] /\
              run_requests NEW l = Ok g /\ (g = REVIEWING \/ g = FINAL_VALIDATION).
Proof. apply complete_only_through_gate. vm_compute. reflexivity. Defined.

(** No mission is stuck: from every status other than the two terminal ones
    both COMPLETE and CANCELED can still be reached by legal transitions, while
    COMPLETE and CANCELED themselves refuse every further request. *)
Theorem mission_never_stuck s :
  (s <> COMPLETE -> s <> CANCELED -> rtc trans s COMPLETE /\ rtc trans s CANCELED) /\
  (s = COMPLETE \/ s = CANCELED <-> forall t reqs, run_requests s (t :: reqs) = Err (s, t)).
Proof.
  split.
  - intros H1 H2. split; apply (reach_within_sound 5); destruct s; try congruence; by vm_compute.
  - split.
    + intros [-> | ->] t reqs; by apply terminal_refuses.
    + intros H. destruct s; auto.
      all: match goal with
           | H : forall t reqs, run_requests ?s (t :: reqs) = _ |- _ =>
               let l := eval vm_compute in (MISSION_TRANSITIONS s) in
               match l with ?t :: _ => specialize (H t []); discriminate H end
           end.
Qed.
Lemma mission_never_stuck_witness : rtc trans BLOCKED COMPLETE /\ rtc trans BLOCKED CANCELED.
Proof. apply (proj1 (mission_never_stuck BLOCKED)); discriminate. Defined.

(** A blocked mission that gets back to EXECUTING went through REPAIRING or
    WAITING_FOR_USER; the second way out exists without any repair, although the
    table's comment allows only the first. *)
Theorem blocked_resumption reqs :
  (run_requests BLOCKED reqs = Ok EXECUTING -> REPAIRING ∈ reqs \/ WAITING_FOR_USER ∈ reqs) /\
  run_requests BLOCKED [WAITING_FOR_USER; EXECUTING] = Ok EXECUTING.
Proof.
  split; [|reflexivity]. intros Hr.
  destruct (run_requests_exit (fun s => js_includes s [BLOCKED; CANCELED; FAILED])
              (fun s => js_includes s [REPAIRING; WAITING_FOR_USER]) all_statuses BLOCKED reqs EXECUTING)
    as [H|(q & Hq & H)]; [apply all_statuses_all|by vm_compute|done|done|done|].
  apply js_includes_true in H. set_solver.
Qed.

Lemma blocked_resumption_witness :
  REPAIRING ∈ [REPAIRING; EXECUTING] \/ WAITING_FOR_USER ∈ [REPAIRING; EXECUTING].
Proof. apply (proj1 (blocked_resumption [REPAIRING; EXECUTING])). vm_compute. reflexivity. Defined.

(** A parked mission resumes to EXECUTING in one legal step, is never
    completed or canceled directly from the parked state, and stays cancellable
    through CANCELING. *)
Theorem parked_resumes s :
  s ∈ parked ->
  canTransitionMission s EXECUTING = true /\ canTransitionMission s CANCELING = true /\
  canTransitionMission s COMPLETE = false /\ canTransitionMission s CANCELED = false.
Proof. intros Hs. apply js_includes_true in Hs. destruct s; try discriminate Hs; by vm_compute. Qed.

Lemma parked_resumes_witness :
  canTransitionMission PAUSED_INFRASTRUCTURE EXECUTING = true /\
  canTransitionMission PAUSED_INFRASTRUCTURE CANCELING = true /\
  canTransitionMission PAUSED_INFRASTRUCTURE COMPLETE = false /\
  canTransitionMission PAUSED_INFRASTRUCTURE CANCELED = false.
Proof. apply parked_resumes. apply js_includes_true. vm_compute. reflexivity. Defined.

End Mission.

Module Task.

Inductive TaskStatus :=
| PENDING | READY | RUNNING | WAITING | SUCCEEDED | FAILED | RETRYING | CANCELED | SKIPPED
| BLOCKED.

#[export] Instance TaskStatus_eq_dec : EqDecision TaskStatus.
Proof. solve_decision. Defined.

Definition TASK_TRANSITIONS (s : TaskStatus) : list TaskStatus :=
  match s with
  | PENDING => [READY; CANCELED; SKIPPED; BLOCKED]
  | READY => [RUNNING; CANCELED; SKIPPED; BLOCKED; SUCCEEDED; FAILED]
  | RUNNING => [SUCCEEDED; FAILED; RETRYING; CANCELED; BLOCKED]
  | WAITING => [READY; RUNNING; CANCELED; BLOCKED; FAILED]
  | SUCCEEDED => []
  | FAILED => []
  | RETRYING => [READY; RUNNING; CANCELED; FAILED; SKIPPED; BLOCKED]
  | CANCELED => []
  | SKIPPED => []
  | BLOCKED => [READY; CANCELED; SKIPPED]
  end.

#[export] Instance task_table : TransitionTable TaskStatus := {| next := TASK_TRANSITIONS |}.

Definition canTransitionTask (from to : TaskStatus) : bool := allowed from to.

Definition assertTaskTransition (from to : TaskStatus) : res (TaskStatus * TaskStatus) unit :=
  if negb (canTransitionTask from to) then Err (from, to) else Ok tt.

Definition all_task_statuses : list TaskStatus :=
  [PENDING; READY; RUNNING; WAITING; SUCCEEDED; FAILED; RETRYING; CANCELED; SKIPPED; BLOCKED].

Lemma all_task_statuses_all s : s ∈ all_task_statuses.
Proof. apply list_elem_of_In. destruct s; simpl; tauto. Qed.

Definition settled : list TaskStatus := [SUCCEEDED; FAILED; CANCELED; SKIPPED].

(** Task outcomes are immutable history and execution cannot be skipped: a
    settled task refuses every request, a task that reaches SUCCEEDED or FAILED
    was READY first, and no asserted run ever parks a task in WAITING. *)
Theorem task_history s reqs :
  (forall t, s ∈ settled -> run_requests s (t :: reqs) = Err (s, t)) /\
  (forall o, o = SUCCEEDED \/ o = FAILED -> run_requests PENDING reqs = Ok o -> READY ∈ reqs) /\
  (s <> WAITING -> ~ rtc trans s WAITING).
Proof.
  split_and!.
  - intros t Hs. apply terminal_refuses. apply js_includes_true in Hs.
    destruct s; try discriminate Hs; done.
  - intros o Ho Hr.
    destruct (run_requests_exit (fun s => js_includes s [PENDING; CANCELED; SKIPPED; BLOCKED])
                (fun s => js_includes s [READY]) all_task_statuses PENDING reqs o)
      as [H|(q & Hq & H)]; [apply all_task_statuses_all|by vm_compute|done|done| |].
    + destruct Ho as [-> | ->]; discriminate H.
    + apply js_includes_true in H. set_solver.
  - intros Hs Hr.
    assert (Hc : closed_set (fun s => negb (bool_decide (s = WAITING)))).
    { apply (closed_set_dec _ all_task_statuses all_task_statuses_all). by vm_compute. }
    assert (Hw : negb (bool_decide (WAITING = WAITING)) = true).
    { apply (closed_set_rtc _ s WAITING Hc); [|done].
      apply negb_true_iff, bool_decide_eq_false. done. }
    discriminate Hw.
Qed.

Lemma task_history_witness :
  run_requests FAILED [RETRYING; RUNNING] = Err (FAILED, RETRYING) /\ READY ∈ [READY; RUNNING; SUCCEEDED]
  /\ ~ rtc trans PENDING WAITING.
Proof.
  split_and!.
  - apply (proj1 (task_history FAILED [RUNNING])). apply js_includes_true. vm_compute. reflexivity.
  - apply (proj1 (proj2 (task_history FAILED [READY; RUNNING; SUCCEEDED])) SUCCEEDED); [by left|].
    vm_compute. reflexivity.
  - apply (proj2 (proj2 (task_history PENDING []))). discriminate.
Defined.

End Task.
