(* ===== verification/RunLifecycle.v ===== *)
(** * Lifecycle runs and their completion gate

    [RunState] models src/lifecycle/stateMachine.ts (the allow-list of run
    states and [canTransition]); [Gate] models src/lifecycle/gate.ts (the only
    code that may declare a run complete), with every branch of [evaluateGate]
    and its messages. *)

From S2P Require Import Prelude JsMap Transitions.

Module RunState.

Inductive LifecycleState :=
| RECEIVED | CLASSIFIED | PLAN_PENDING | PLANNED | IMPLEMENTATION_PENDING | IMPLEMENTING
| IMPLEMENTED | CHANGE_CLASSIFIED | VERIFYING | VERIFIED | VERIFICATION_FAILED
| REVIEW_PENDING | REVIEWING | REVIEWED | REVIEW_FAILED | SPECIALIST_REVIEW_PENDING
| SPECIALIST_REVIEWED | SPECIALIST_REVIEW_FAILED | SPEC_VERIFY_PENDING | SPEC_VERIFIED
| SPEC_VERIFY_FAILED | FINAL_VERIFY_PENDING | FINAL_VERIFIED | REMEDIATION_REQUIRED
| REMEDIATING | BLOCKED | ESCALATED | COMPLETE.

#[export] Instance LifecycleState_eq_dec : EqDecision LifecycleState.
Proof. solve_decision. Defined.

Inductive LifecycleTrigger :=
| request | tool_activity | turn_settled | remediation_settled | command | resume.

#[export] Instance LifecycleTrigger_eq_dec : EqDecision LifecycleTrigger.
Proof. solve_decision. Defined.

Definition TERMINAL_STATES : list LifecycleState := [COMPLETE; BLOCKED; ESCALATED].

Definition TRANSITIONS (s : LifecycleState) : list LifecycleState :=
  match s with
  | RECEIVED => [CLASSIFIED; PLAN_PENDING; IMPLEMENTATION_PENDING; VERIFYING; COMPLETE; BLOCKED]
  | CLASSIFIED =>
      [PLAN_PENDING; PLANNED; IMPLEMENTATION_PENDING; VERIFYING; CHANGE_CLASSIFIED; COMPLETE;
       BLOCKED]
  | PLAN_PENDING => [PLANNED; IMPLEMENTATION_PENDING; BLOCKED; ESCALATED]
  | PLANNED => [IMPLEMENTATION_PENDING; BLOCKED]
  | IMPLEMENTATION_PENDING => [IMPLEMENTING; BLOCKED; ESCALATED]
  | IMPLEMENTING => [IMPLEMENTED; CHANGE_CLASSIFIED; BLOCKED; ESCALATED]
  | IMPLEMENTED => [CHANGE_CLASSIFIED; VERIFYING; REVIEW_PENDING; BLOCKED]
  | CHANGE_CLASSIFIED =>
      [IMPLEMENTING; VERIFYING; REVIEW_PENDING; SPEC_VERIFY_PENDING; COMPLETE; BLOCKED]
  | VERIFYING => [VERIFIED; VERIFICATION_FAILED; BLOCKED]
  | VERIFIED => [REVIEW_PENDING; SPEC_VERIFY_PENDING; BLOCKED]
  | VERIFICATION_FAILED => [REMEDIATION_REQUIRED; ESCALATED; BLOCKED]
  | REVIEW_PENDING => [REVIEWING; SPECIALIST_REVIEW_PENDING; BLOCKED]
  | REVIEWING => [REVIEWED; REVIEW_FAILED; BLOCKED]
  | REVIEWED => [SPECIALIST_REVIEW_PENDING; SPEC_VERIFY_PENDING; REMEDIATION_REQUIRED; BLOCKED]
  | REVIEW_FAILED => [REMEDIATION_REQUIRED; ESCALATED; BLOCKED]
  | SPECIALIST_REVIEW_PENDING =>
      [SPECIALIST_REVIEWED; SPECIALIST_REVIEW_FAILED; SPEC_VERIFY_PENDING; REMEDIATION_REQUIRED]
  | SPECIALIST_REVIEWED => [SPEC_VERIFY_PENDING; FINAL_VERIFY_PENDING; REMEDIATION_REQUIRED]
  | SPECIALIST_REVIEW_FAILED =>
      [SPEC_VERIFY_PENDING; FINAL_VERIFY_PENDING; REMEDIATION_REQUIRED; ESCALATED]
  | SPEC_VERIFY_PENDING => [SPEC_VERIFIED; SPEC_VERIFY_FAILED; FINAL_VERIFY_PENDING]
  | SPEC_VERIFIED => [FINAL_VERIFY_PENDING; REMEDIATION_REQUIRED]
  | SPEC_VERIFY_FAILED => [REMEDIATION_REQUIRED; ESCALATED]
  | FINAL_VERIFY_PENDING => [FINAL_VERIFIED; VERIFICATION_FAILED]
  | FINAL_VERIFIED => [COMPLETE; REMEDIATION_REQUIRED]
  | REMEDIATION_REQUIRED => [REMEDIATING; ESCALATED; BLOCKED]
  | REMEDIATING => [IMPLEMENTING; VERIFYING; CHANGE_CLASSIFIED; ESCALATED; BLOCKED]
  | BLOCKED => [RECEIVED; REMEDIATING]
  | ESCALATED => [RECEIVED; REMEDIATING]
  | COMPLETE => [RECEIVED]
  end.

#[export] Instance run_table : TransitionTable LifecycleState := {| next := TRANSITIONS |}.

Inductive refusal := terminal_reopen (from : LifecycleState)
| undefined_transition (from to : LifecycleState).

Record TransitionResult := mkResult {
  ok : bool;
  from_state : LifecycleState;
  to_state : LifecycleState;
  reason : option refusal;
}.

Definition canTransition (from to : LifecycleState) (trigger : LifecycleTrigger) : TransitionResult :=
  if decide (from = to) then mkResult true from to None
  else if js_includes to (TRANSITIONS from) then mkResult true from to None
  else if js_includes from TERMINAL_STATES && negb (bool_decide (trigger = command))
  then mkResult false from to (Some (terminal_reopen from))
  else mkResult false from to (Some (undefined_transition from to)).

Definition allowedNext (from : LifecycleState) : list LifecycleState := TRANSITIONS from.

Definition all_states : list LifecycleState :=
  [RECEIVED; CLASSIFIED; PLAN_PENDING; PLANNED; IMPLEMENTATION_PENDING; IMPLEMENTING;
   IMPLEMENTED; CHANGE_CLASSIFIED; VERIFYING; VERIFIED; VERIFICATION_FAILED; REVIEW_PENDING;
   REVIEWING; REVIEWED; REVIEW_FAILED; SPECIALIST_REVIEW_PENDING; SPECIALIST_REVIEWED;
   SPECIALIST_REVIEW_FAILED; SPEC_VERIFY_PENDING; SPEC_VERIFIED; SPEC_VERIFY_FAILED;
   FINAL_VERIFY_PENDING; FINAL_VERIFIED; REMEDIATION_REQUIRED; REMEDIATING; BLOCKED;
   ESCALATED; COMPLETE].

Lemma all_states_all s : s ∈ all_states.
Proof. apply list_elem_of_In. destruct s; simpl; tauto. Qed.

(** Verdict of [canTransition]: identity or table membership. *)
Lemma canTransition_ok from to trigger :
  ok (canTransition from to trigger) = true <-> from = to \/ trans from to.
Proof.
  unfold canTransition, trans, allowed. simpl.
  destruct (decide (from = to)); simpl; [tauto|].
  destruct (js_includes to (TRANSITIONS from)) eqn:E; simpl; [tauto|].
  destruct (_ && _); simpl; split; intros H; try discriminate; destruct H; congruence.
Qed.

(** The verdict does not depend on the trigger, so a terminal run is
    reopened by an automatic trigger as well: the guard that reserves reopening
    for the operator's command only changes the text of a refusal. *)
Theorem trigger_never_decides from to t1 t2 :
  ok (canTransition from to t1) = ok (canTransition from to t2) /\
  ok (canTransition COMPLETE RECEIVED turn_settled) = true.
Proof.
  split; [|by vm_compute]. apply eq_true_iff_eq. by rewrite !canTransition_ok.
Qed.

(** Once a run is IMPLEMENTING, every accepted sequence of states that ends
    in COMPLETE passed FINAL_VERIFIED, CHANGE_CLASSIFIED or was reset to
    RECEIVED; and no state of the machine is a dead end for completion. *)
Theorem implemented_run_completes_verified s reqs :
  (run_requests IMPLEMENTING reqs = Ok COMPLETE ->
   FINAL_VERIFIED ∈ reqs \/ CHANGE_CLASSIFIED ∈ reqs \/ RECEIVED ∈ reqs) /\
  rtc trans s COMPLETE.
Proof.
  split.
  - intros Hr.
    destruct (run_requests_exit
                (fun s => negb (js_includes s [FINAL_VERIFIED; CHANGE_CLASSIFIED; RECEIVED;
                                               CLASSIFIED; COMPLETE]))
                (fun s => js_includes s [FINAL_VERIFIED; CHANGE_CLASSIFIED; RECEIVED])
                all_states IMPLEMENTING reqs COMPLETE) as [H|(q & Hq & H)];
      [apply all_states_all|by vm_compute|done|done|done|].
    apply js_includes_true in H. set_solver.
  - apply (reach_within_sound 4). destruct s; by vm_compute.
Qed.

Lemma implemented_run_completes_verified_witness :
  (FINAL_VERIFIED ∈ [IMPLEMENTED; VERIFYING; VERIFIED; SPEC_VERIFY_PENDING; FINAL_VERIFY_PENDING;
                     FINAL_VERIFIED; COMPLETE]
   \/ CHANGE_CLASSIFIED ∈ [IMPLEMENTED; VERIFYING; VERIFIED; SPEC_VERIFY_PENDING;
                           FINAL_VERIFY_PENDING; FINAL_VERIFIED; COMPLETE]
   \/ RECEIVED ∈ [IMPLEMENTED; VERIFYING; VERIFIED; SPEC_VERIFY_PENDING; FINAL_VERIFY_PENDING;
                  FINAL_VERIFIED; COMPLETE]).
Proof. apply (proj1 (implemented_run_completes_verified RECEIVED _)). vm_compute. reflexivity. Defined.

End RunState.

Module Gate.

Inductive GateStatus := passed | failed | not_applicable | unavailable | skipped.
Inductive FindingSeverity := blocker | critical | high | medium | low | info.
Inductive Verdict := approve | request_changes | review_failed.
Inductive GapStatus := gap_missing | gap_partial | gap_divergent | gap_unverifiable.

#[export] Instance GateStatus_eq_dec : EqDecision GateStatus.
Proof. solve_decision. Defined.
#[export] Instance FindingSeverity_eq_dec : EqDecision FindingSeverity.
Proof. solve_decision. Defined.
#[export] Instance Verdict_eq_dec : EqDecision Verdict.
Proof. solve_decision. Defined.
#[export] Instance GapStatus_eq_dec : EqDecision GapStatus.
Proof. solve_decision. Defined.

Record GateItem := mkItem {
  it_key : string;
  it_status : GateStatus;
  it_required : bool;
  it_reason : string;
  it_blockers : list string;
}.

Record GateEvaluation := mkEvaluation {
  ev_pass : bool;
  ev_items : list GateItem;
  ev_blockers : list string;
  ev_evaluatedAt : string;
}.

Record ModelRef := { mr_provider : string; mr_id : string }.

Record SpecGap := { gap_requirement : string; gap_status : GapStatus; gap_severity : FindingSeverity }.

(** The fields of a review report the gate reads ([rr_findings] keeps the
    severities of the report's findings). *)
Record ReviewReport := {
  rr_role : string;
  rr_model : ModelRef;
  rr_verdict : Verdict;
  rr_findings : list FindingSeverity;
  rr_specGaps : list SpecGap;
}.

Record CheckOutcome := { co_name : string; co_kind : string; co_status : GateStatus }.

Record VerificationReport := {
  vr_status : GateStatus;
  vr_outcomes : list CheckOutcome;
  vr_blocking : list string;
}.

(** [policies.completion_gate.require], [policies.review]. *)
Record Require_ := {
  rq_implementation_complete : bool;
  rq_independent_review_pass : bool;
  rq_specialist_review_pass : bool;
  rq_verification_pass : bool;
  rq_spec_verification_pass : bool;
  rq_final_verification_pass : bool;
  rq_no_unresolved_high_risk_findings : bool;
  rq_tests_when_required : bool;
}.

Record ReviewPolicy := {
  rp_require_independent_review : bool;
  rp_independent_reviewer : bool;
  rp_max_blocking_findings_to_pass : Z;
}.

Record GateInput := {
  in_require : Require_;
  in_review : ReviewPolicy;
  in_categories : list string;
  in_changeObserved : bool;
  in_reviews : list ReviewReport;
  in_requiredSpecialists : list string;
  in_verification : option VerificationReport;
  in_finalVerification : option VerificationReport;
  in_specVerification : option ReviewReport;
  in_unresolvedFingerprints : list string;
  in_implementerModel : option string;
  in_testFilesChanged : Z;
  in_implementationComplete : option bool;
  in_extraItems : list GateItem;
}.

Local Open Scope string_scope.

Definition BLOCKING_SEVERITIES : list FindingSeverity := [blocker; critical; high].
Definition BLOCKING_GAP_SEVERITIES : list FindingSeverity := [blocker; critical].
Definition TEST_EXPECTED_CATEGORIES : list string :=
  ["feature"; "bugfix"; "api"; "database"; "backend"; "runtime_system"; "migration"].

Definition is_blocking (s : FindingSeverity) : bool := js_includes s BLOCKING_SEVERITIES.

Definition modelKey (r : ModelRef) : string := mr_provider r +:+ "/" +:+ mr_id r.

Definition satisfied (i : GateItem) : bool :=
  if negb (it_required i) then true
  else js_includes (it_status i) [passed; not_applicable].

Definition status_name (s : GateStatus) : string :=
  match s with
  | passed => "passed" | failed => "failed" | not_applicable => "not_applicable"
  | unavailable => "unavailable" | skipped => "skipped"
  end.

Definition gap_name (s : GapStatus) : string :=
  match s with
  | gap_missing => "missing" | gap_partial => "partial" | gap_divergent => "divergent"
  | gap_unverifiable => "unverifiable"
  end.

(** [Object.keys(require)] with the flag each key holds. *)
Definition require_entries (r : Require_) : list (string * bool) :=
  [("implementation_complete", rq_implementation_complete r);
   ("independent_review_pass", rq_independent_review_pass r);
   ("specialist_review_pass", rq_specialist_review_pass r);
   ("verification_pass", rq_verification_pass r);
   ("spec_verification_pass", rq_spec_verification_pass r);
   ("final_verification_pass", rq_final_verification_pass r);
   ("no_unresolved_high_risk_findings", rq_no_unresolved_high_risk_findings r);
   ("tests_when_required", rq_tests_when_required r)].

Definition chat_only (cats : list string) : bool :=
  negb (bool_decide (cats = [])) && js_every (fun c => bool_decide (c = "chat")) cats.

Definition implementation_item (inp : GateInput) : GateItem :=
  let complete := nullish (in_implementationComplete inp) (in_changeObserved inp) in
  mkItem "implementation_complete" (if complete then passed else failed)
    (rq_implementation_complete (in_require inp))
    (if complete then "change set captured" else "no captured change set")
    (if complete then [] else ["implementation_complete"]).

Definition independent_reviews (inp : GateInput) : list ReviewReport :=
  js_filter (fun r => negb (bool_decide (rr_role r = "spec_verifier"))) (in_reviews inp).

Definition same_model_reviews (inp : GateInput) : list ReviewReport :=
  if rp_independent_reviewer (in_review inp) then
    js_filter (fun r =>
      match in_implementerModel inp with
      | Some m => truthy m && bool_decide (modelKey (rr_model r) = m)
      | None => false
      end) (independent_reviews inp)
  else [].

(** The blockers of the independent review, in the order the code pushes them. *)
Definition independent_blockers (inp : GateInput) : list string :=
  let independent := independent_reviews inp in
  let failedR := js_filter (fun r => bool_decide (rr_verdict r = review_failed)) independent in
  let changes := js_filter (fun r => bool_decide (rr_verdict r = request_changes)) independent in
  let blocking := js_filter is_blocking (concat (map rr_findings changes)) in
  let same := same_model_reviews inp in
  (if bool_decide (failedR = []) then []
   else [js_join ", " (map rr_role failedR) +:+ " could not be executed"])
  ++ (if bool_decide (changes = []) then []
      else if (rp_max_blocking_findings_to_pass (in_review inp) <? js_len blocking)%Z
      then [js_num (js_len blocking) +:+ " blocking finding(s) from " +:+ js_join ", " (map rr_role changes)]
      else [])
  ++ (if bool_decide (same = []) then []
      else [js_join ", " (map rr_role same) +:+ " ran on the implementing model ("
            +:+ default "undefined" (in_implementerModel inp) +:+ ")"]).

Definition independent_item (inp : GateInput) : GateItem :=
  let req := rq_independent_review_pass (in_require inp) in
  if negb (rp_require_independent_review (in_review inp)) then
    mkItem "independent_review_pass" skipped req
      "policies.review.require_independent_review is false" []
  else if bool_decide (independent_reviews inp = []) then
    mkItem "independent_review_pass" failed req "no independent review was executed"
      ["independent_review_pass"]
  else
    let blockers := independent_blockers inp in
    mkItem "independent_review_pass" (if bool_decide (blockers = []) then passed else failed) req
      (if bool_decide (blockers = [])
       then "reviewed by " +:+ js_join ", " (map (fun r => rr_role r +:+ "@" +:+ modelKey (rr_model r))
                                              (independent_reviews inp))
       else js_join "; " blockers) blockers.

(** [new Map(reviews.map(r => [r.role, r]))]: the last report of a role wins. *)
Definition by_role (reviews : list ReviewReport) : jsmap string ReviewReport :=
  fold_left (fun m r => map_set (rr_role r) r m) reviews [].

Definition missing_specialists (inp : GateInput) : list string :=
  js_filter (fun role => negb (map_has role (by_role (in_reviews inp)))) (in_requiredSpecialists inp).
Definition failed_specialists (inp : GateInput) : list string :=
  js_filter (fun role => match map_get role (by_role (in_reviews inp)) with
                         | Some r => bool_decide (rr_verdict r = review_failed)
                         | None => false end) (in_requiredSpecialists inp).
Definition requesting_specialists (inp : GateInput) : list string :=
  js_filter (fun role => match map_get role (by_role (in_reviews inp)) with
                         | Some r => bool_decide (rr_verdict r = request_changes)
                                     && js_some is_blocking (rr_findings r)
                         | None => false end) (in_requiredSpecialists inp).

Definition specialist_blockers (inp : GateInput) : list string :=
  (if bool_decide (missing_specialists inp = []) then []
   else ["missing specialist review: " +:+ js_join ", " (missing_specialists inp)])
  ++ (if bool_decide (failed_specialists inp = []) then []
      else ["specialist could not run: " +:+ js_join ", " (failed_specialists inp)])
  ++ (if bool_decide (requesting_specialists inp = []) then []
      else ["specialist requested changes: " +:+ js_join ", " (requesting_specialists inp)]).

Definition specialist_item (inp : GateInput) : GateItem :=
  let req := rq_specialist_review_pass (in_require inp) in
  if bool_decide (in_requiredSpecialists inp = []) then
    mkItem "specialist_review_pass" not_applicable req "no specialist trigger for this change set" []
  else
    let blockers := specialist_blockers inp in
    mkItem "specialist_review_pass" (if bool_decide (blockers = []) then passed else failed) req
      (if bool_decide (blockers = [])
       then "specialists satisfied: " +:+ js_join ", " (in_requiredSpecialists inp)
       else js_join "; " blockers) blockers.

Definition pushVerification (key : string) (report : option VerificationReport) (required : bool)
    (stage : string) : GateItem :=
  match report with
  | None => mkItem key failed required ("no " +:+ stage +:+ " verification evidence recorded") [key]
  | Some rep =>
      match vr_status rep with
      | passed =>
          let shown := js_join ", " (map (fun o => co_name o +:+ "=" +:+ status_name (co_status o))
                                       (vr_outcomes rep)) in
          mkItem key passed required
            (stage +:+ " checks: " +:+ (if truthy shown then shown else "none required")) []
      | not_applicable =>
          mkItem key not_applicable required
            ("no " +:+ stage +:+ " verification command is declared for this repository") []
      | unavailable =>
          mkItem key unavailable required (stage +:+ " verification command is unavailable") [key]
      | skipped => mkItem key skipped required (stage +:+ " verification was skipped") [key]
      | failed =>
          let shown := js_join "; " (vr_blocking rep) in
          mkItem key failed required
            (if truthy shown then shown else stage +:+ " verification failed") [key]
      end
  end.

Definition blocking_gaps (r : ReviewReport) : list SpecGap :=
  let gaps := js_filter (fun g => negb (bool_decide (gap_status g = gap_unverifiable))
                                  || js_includes (gap_severity g) BLOCKING_GAP_SEVERITIES)
                (rr_specGaps r) in
  js_filter (fun g => is_blocking (gap_severity g) || bool_decide (gap_status g = gap_missing)) gaps.

Definition spec_item (inp : GateInput) : GateItem :=
  let req := rq_spec_verification_pass (in_require inp) in
  match in_specVerification inp with
  | None =>
      mkItem "spec_verification_pass" not_applicable req
        "no specification or requirement set was supplied for this work item" []
  | Some r =>
      if decide (rr_verdict r = review_failed) then
        mkItem "spec_verification_pass" failed req "spec verification could not be executed"
          ["spec_verification_pass"]
      else
        let blocking := blocking_gaps r in
        mkItem "spec_verification_pass"
          (if bool_decide (blocking = []) then passed else failed) req
          (if bool_decide (blocking = []) then "all quoted requirements verified as satisfied"
           else js_num (js_len blocking) +:+ " unmet requirement(s): "
                +:+ js_join " | " (map (fun g => gap_name (gap_status g) +:+ ": " +:+ gap_requirement g)
                                     blocking))
          (if bool_decide (blocking = []) then [] else ["spec_verification_pass"])
  end.

Definition unresolved_item (inp : GateInput) : GateItem :=
  let u := in_unresolvedFingerprints inp in
  mkItem "no_unresolved_high_risk_findings" (if bool_decide (u = []) then passed else failed)
    (rq_no_unresolved_high_risk_findings (in_require inp))
    (if bool_decide (u = []) then "no unresolved high-severity findings"
     else js_num (js_len u) +:+ " unresolved high-severity finding(s): " +:+ js_join ", " (take 4 u))
    (if bool_decide (u = []) then [] else ["no_unresolved_high_risk_findings"]).

Definition ran_tests (inp : GateInput) : bool :=
  js_some (fun o => bool_decide (co_kind o = "test") && js_includes (co_status o) [passed; failed])
    (match in_verification inp with Some v => vr_outcomes v | None => [] end).

Definition tests_item (inp : GateInput) : GateItem :=
  let req := rq_tests_when_required (in_require inp) in
  if negb (js_some (fun c => js_includes c TEST_EXPECTED_CATEGORIES) (in_categories inp)) then
    mkItem "tests_when_required" not_applicable req "change categories do not require new tests" []
  else if (0 <? in_testFilesChanged inp)%Z || ran_tests inp then
    mkItem "tests_when_required" passed req
      (if (0 <? in_testFilesChanged inp)%Z
       then js_num (in_testFilesChanged inp) +:+ " test file(s) changed"
       else "test suite executed as part of verification") []
  else mkItem "tests_when_required" failed req
         "behaviour-bearing change with no test change and no test command run" ["tests_when_required"].

Definition gate_items (inp : GateInput) : list GateItem :=
  [implementation_item inp; independent_item inp; specialist_item inp;
   pushVerification "verification_pass" (in_verification inp)
     (rq_verification_pass (in_require inp)) "implementation";
   spec_item inp;
   pushVerification "final_verification_pass" (in_finalVerification inp)
     (rq_final_verification_pass (in_require inp)) "final";
   unresolved_item inp; tests_item inp] ++ in_extraItems inp.

Definition item_blockers (i : GateItem) : list string :=
  if bool_decide (it_blockers i = []) then [it_key i +:+ ": " +:+ it_reason i] else it_blockers i.

Definition evaluateGate (inp : GateInput) (now : string) : GateEvaluation :=
  if negb (in_changeObserved inp) || chat_only (in_categories inp) then
    let reason := if chat_only (in_categories inp)
                  then "request classified as chat; no engineering change expected"
                  else "no repository change detected" in
    mkEvaluation true
      (map (fun '(key, req) => mkItem key not_applicable req reason []) (require_entries (in_require inp)))
      [] now
  else
    let items := gate_items inp in
    let blockers := concat (map item_blockers (js_filter (fun i => negb (satisfied i)) items)) in
    mkEvaluation (bool_decide (blockers = [])) items blockers now.

(** The gate is really consulted: something was built. *)
Definition engaged (inp : GateInput) : bool :=
  in_changeObserved inp && negb (chat_only (in_categories inp)).

#[global] Arguments gate_items : simpl never.
#[global] Arguments independent_reviews : simpl never.

(** ** Lemmas *)

Lemma item_blockers_ne i : item_blockers i <> [].
Proof. unfold item_blockers. case_bool_decide; done. Qed.

Lemma concat_nil_iff {A B} (f : A -> list B) l :
  (forall x, f x <> []) -> concat (map f l) = [] <-> l = [].
Proof.
  intros Hf. split; [|by intros ->]. destruct l as [|x l]; [done|]. simpl.
  intros H. apply app_eq_nil in H as [H _]. by apply Hf in H.
Qed.

Lemma not_engaged_pass inp now : engaged inp = false -> ev_pass (evaluateGate inp now) = true.
Proof.
  unfold engaged, evaluateGate. intros H.
  destruct (in_changeObserved inp), (chat_only (in_categories inp)); done.
Qed.

Definition open_blockers (inp : GateInput) : list string :=
  concat (map item_blockers (js_filter (fun i => negb (satisfied i)) (gate_items inp))).

Lemma engaged_unfold inp now : engaged inp = true ->
  evaluateGate inp now =
  mkEvaluation (bool_decide (open_blockers inp = [])) (gate_items inp) (open_blockers inp) now.
Proof. unfold engaged, evaluateGate. intros H. bool_to_prop. by rewrite H, H0. Qed.

Lemma open_blockers_nil inp :
  open_blockers inp = [] <-> forall i, i ∈ gate_items inp -> satisfied i = true.
Proof.
  unfold open_blockers. rewrite concat_nil_iff by apply item_blockers_ne. rewrite js_filter_nil.
  split; intros H i Hi; specialize (H i Hi); [by apply negb_false_iff|by rewrite H].
Qed.

Lemma pass_items inp now : engaged inp = true ->
  ev_pass (evaluateGate inp now) = true <-> forall i, i ∈ gate_items inp -> satisfied i = true.
Proof.
  intros He. rewrite engaged_unfold by done. simpl. rewrite bool_decide_eq_true.
  apply open_blockers_nil.
Qed.

Lemma satisfied_required i : satisfied i = true -> it_required i = true ->
  it_status i = passed \/ it_status i = not_applicable.
Proof.
  unfold satisfied. intros H Hr. rewrite Hr in H. simpl in H.
  apply js_includes_true in H. set_solver.
Qed.

(** [if (xs.length) blockers.push(m)] pushed nothing. *)
Lemma push_if_nil {A B} (l : list A) (x : B) :
  (if bool_decide (l = []) then [] else [x]) = [] -> l = [].
Proof. by destruct (bool_decide_reflect (l = [])). Qed.

Lemma push_unless_nil {A B} (l : list A) (r : list B) :
  (if bool_decide (l = []) then [] else r) = [] -> l = [] \/ r = [].
Proof. destruct (bool_decide_reflect (l = [])); auto. Qed.

Lemma verification_item_ok key rep req stage :
  (it_status (pushVerification key rep req stage) = passed \/
   it_status (pushVerification key rep req stage) = not_applicable) ->
  exists r, rep = Some r /\ (vr_status r = passed \/ vr_status r = not_applicable).
Proof.
  unfold pushVerification. destruct rep as [r|]; [|intros [|]; done].
  intros H. exists r. split; [done|]. destruct (vr_status r); simpl in H; destruct H; try done; auto.
Qed.

Lemma independent_item_ok inp :
  (it_status (independent_item inp) = passed \/ it_status (independent_item inp) = not_applicable) ->
  independent_reviews inp <> [] /\ independent_blockers inp = [].
Proof.
  unfold independent_item. destruct (negb _); simpl; [intros [|]; done|].
  case_bool_decide as Hn; simpl; [intros [|]; done|].
  case_bool_decide; simpl; [auto|intros [|]; done].
Qed.

Lemma independent_blockers_nil inp : independent_blockers inp = [] ->
  (forall r, r ∈ independent_reviews inp -> rr_verdict r <> review_failed) /\
  (js_len (js_filter is_blocking (concat (map rr_findings
     (js_filter (fun r => bool_decide (rr_verdict r = request_changes)) (independent_reviews inp)))))
   <= rp_max_blocking_findings_to_pass (in_review inp)
   \/ (forall r, r ∈ independent_reviews inp -> rr_verdict r <> request_changes))%Z /\
  same_model_reviews inp = [].
Proof.
  unfold independent_blockers. intros H.
  apply app_eq_nil in H as [H1 H]. apply app_eq_nil in H as [H2 H3].
  apply push_if_nil in H1, H3. apply push_unless_nil in H2. split_and!; [|destruct H2 as [H2|H2]|done].
  - intros r Hr Hv. rewrite js_filter_nil in H1. specialize (H1 r Hr). bool_to_prop. done.
  - right. intros r Hr Hv. rewrite js_filter_nil in H2. specialize (H2 r Hr). bool_to_prop. done.
  - left. destruct (Z.ltb _ _) eqn:E; [done|]. by apply Z.ltb_ge.
Qed.

Lemma specialist_item_ok inp role :
  (it_status (specialist_item inp) = passed \/ it_status (specialist_item inp) = not_applicable) ->
  role ∈ in_requiredSpecialists inp ->
  exists r, map_get role (by_role (in_reviews inp)) = Some r /\ rr_verdict r <> review_failed /\
            (rr_verdict r = request_changes -> js_some is_blocking (rr_findings r) = false).
Proof.
  unfold specialist_item. intros H Hin.
  destruct (bool_decide_reflect (in_requiredSpecialists inp = [])) as [Hn|_];
    [rewrite Hn in Hin; set_solver|].
  destruct (bool_decide_reflect (specialist_blockers inp = [])) as [Hb|_];
    [clear H|simpl in H; destruct H; done].
  unfold specialist_blockers in Hb. apply app_eq_nil in Hb as [H1 Hb]. apply app_eq_nil in Hb as [H2 H3].
  apply push_if_nil in H1, H2, H3.
  unfold missing_specialists, failed_specialists, requesting_specialists, map_has in *.
  rewrite js_filter_nil in H1, H2, H3.
  specialize (H1 role Hin). specialize (H2 role Hin). specialize (H3 role Hin).
  destruct (map_get role _) as [r|]; [|done]. exists r. split_and!; [done|by bool_to_prop|].
  intros Hv. rewrite bool_decide_eq_true_2 in H3 by done. done.
Qed.

(** When a change was built, the gate passes exactly when every required
    item of its checklist (integration items included) is [passed] or
    [not_applicable]; a skipped, unavailable or failed required item always
    blocks, whether or not it listed blockers of its own. *)
Theorem gate_pass_iff_items inp now :
  engaged inp = true ->
  (ev_pass (evaluateGate inp now) = true <->
   forall i, i ∈ gate_items inp -> it_required i = true ->
             it_status i = passed \/ it_status i = not_applicable) /\
  (ev_pass (evaluateGate inp now) = true <-> ev_blockers (evaluateGate inp now) = []).
Proof.
  intros He. split.
  - rewrite pass_items by done. split; intros H i Hi; [by apply satisfied_required; auto|].
    unfold satisfied. destruct (it_required i) eqn:E; [|done]. simpl.
    apply js_includes_true. destruct (H i Hi E) as [-> | ->]; set_solver.
  - rewrite engaged_unfold by done. simpl. apply bool_decide_eq_true.
Qed.

(** A passing gate rests on evidence: with the default requirements it has
    passing (or declared not applicable) implementation and final verification,
    at least one independent review, no independent review that failed to
    run, no reviewer on the implementing model,
    an acceptable last report of every required specialist, and no unresolved high-severity finding. *)
Theorem gate_pass_evidence inp now :
  engaged inp = true -> ev_pass (evaluateGate inp now) = true ->
  (rq_verification_pass (in_require inp) = true ->
     exists v, in_verification inp = Some v /\ (vr_status v = passed \/ vr_status v = not_applicable)) /\
  (rq_final_verification_pass (in_require inp) = true ->
     exists v, in_finalVerification inp = Some v /\
               (vr_status v = passed \/ vr_status v = not_applicable)) /\
  (rq_independent_review_pass (in_require inp) = true ->
     (exists r, r ∈ independent_reviews inp) /\
     (forall r, r ∈ independent_reviews inp -> rr_verdict r <> review_failed) /\
     (forall r m, r ∈ independent_reviews inp -> rp_independent_reviewer (in_review inp) = true ->
        in_implementerModel inp = Some m -> truthy m = true -> modelKey (rr_model r) <> m)) /\
  (rq_specialist_review_pass (in_require inp) = true ->
     forall role, role ∈ in_requiredSpecialists inp ->
     exists r, map_get role (by_role (in_reviews inp)) = Some r /\ rr_verdict r <> review_failed /\
               (rr_verdict r = request_changes -> js_some is_blocking (rr_findings r) = false)) /\
  (rq_no_unresolved_high_risk_findings (in_require inp) = true -> in_unresolvedFingerprints inp = []).
Proof.
  intros He Hp. rewrite pass_items in Hp by done.
  assert (Hin : forall i, i ∈ gate_items inp -> it_required i = true ->
                it_status i = passed \/ it_status i = not_applicable)
    by (intros; by apply satisfied_required; auto).
  unfold gate_items in Hin. split_and!; intros Hr.
  - eapply verification_item_ok, (Hin (pushVerification _ _ _ _));
      [apply elem_of_app; left; do 3 apply list_elem_of_further; apply list_elem_of_here|].
    unfold pushVerification. by repeat case_match.
  - eapply verification_item_ok, (Hin (pushVerification _ _ _ _));
      [apply elem_of_app; left; do 5 apply list_elem_of_further; apply list_elem_of_here|].
    unfold pushVerification. by repeat case_match.
  - destruct (independent_item_ok inp) as [Hne Hb].
    { apply Hin; [set_solver|]. unfold independent_item. by repeat case_match. }
    apply independent_blockers_nil in Hb as (H1 & _ & H3). split_and!; [|done|].
    + destruct (independent_reviews inp) as [|r l]; [done|]. exists r. set_solver.
    + intros r m Hrin Hrp Hm Ht Heq. unfold same_model_reviews in H3. rewrite Hrp, Hm in H3.
      rewrite js_filter_nil in H3. specialize (H3 r Hrin). rewrite Ht in H3. simpl in H3.
      bool_to_prop. done.
  - intros role Hrole. apply specialist_item_ok; [|done].
    apply Hin; [set_solver|]. unfold specialist_item. by repeat case_match.
  - assert (Hu : it_status (unresolved_item inp) = passed \/ it_status (unresolved_item inp) = not_applicable).
    { apply Hin; [set_solver|done]. }
    unfold unresolved_item in Hu. simpl in Hu. case_bool_decide; [done|]. destruct Hu; done.
Qed.

(** A change reviewed by an independent model, with all checks passed. *)
Definition sample_require : Require_ := Build_Require_ true true true true true true true true.
Definition sample_review : ReviewReport :=
  {| rr_role := "reviewer"; rr_model := {| mr_provider := "p"; mr_id := "m2" |};
     rr_verdict := approve; rr_findings := [medium]; rr_specGaps := [] |}.
Definition sample_verification : VerificationReport :=
  {| vr_status := passed; vr_outcomes := [{| co_name := "unit"; co_kind := "test"; co_status := passed |}];
     vr_blocking := [] |}.
Definition sample_input (final : option VerificationReport) : GateInput :=
  {| in_require := sample_require;
     in_review := {| rp_require_independent_review := true; rp_independent_reviewer := true;
                     rp_max_blocking_findings_to_pass := 0 |};
     in_categories := ["feature"]; in_changeObserved := true; in_reviews := [sample_review];
     in_requiredSpecialists := []; in_verification := Some sample_verification;
     in_finalVerification := final; in_specVerification := None;
     in_unresolvedFingerprints := []; in_implementerModel := Some "p/m1"; in_testFilesChanged := 1;
     in_implementationComplete := None; in_extraItems := [] |}.

Lemma gate_pass_iff_items_witness :
  ev_pass (evaluateGate (sample_input None) "t") = true <->
  forall i, i ∈ gate_items (sample_input None) -> it_required i = true ->
            it_status i = passed \/ it_status i = not_applicable.
Proof. apply (proj1 (gate_pass_iff_items (sample_input None) "t" eq_refl)). Defined.

Lemma gate_pass_evidence_witness :
  exists v, in_finalVerification (sample_input (Some sample_verification)) = Some v /\
            (vr_status v = passed \/ vr_status v = not_applicable).
Proof.
  apply (proj1 (proj2 (gate_pass_evidence (sample_input (Some sample_verification)) "t" eq_refl
                         ltac:(vm_compute; reflexivity)))).
  reflexivity.
Defined.

Example gate_blocks_without_final_verification :
  ev_pass (evaluateGate (sample_input None) "t") = false.
Proof. vm_compute. reflexivity. Qed.

End Gate.
