(* ===== verification/TaskDag.v ===== *)
(** * Task DAG helpers (src/plan/taskDag.ts)

    [topoSort] is the code's Kahn loop over its three maps, with the queue loop
    bounded by [2 * n + 1] rounds for [n] tasks (every id enters the queue at
    most once from the initial filter per task and at most once when its
    in-degree reaches zero; [topoSort_terminates] shows the bound suffices).
    [blockedByFailure] is the code's [while (changed)] loop, bounded by [n + 1]
    passes for the same reason. *)

From S2P Require Import Prelude CoreTypes.

Local Open Scope string_scope.
Local Open Scope Z_scope.
Local Open Scope list_scope.

Inductive dag_error :=
| unknown_dependency (task dep : string)
| dependency_cycle (ids : list string).

Definition ids_of (tasks : list Task) : list string := map task_id tasks.

(** [new Map(tasks.map((t) => [t.id, t]))] *)
Definition by_id (tasks : list Task) : gmap string Task :=
  foldl (fun m t => <[task_id t := t]> m) ∅ tasks.

Definition degree (indegree : gmap string Z) (i : string) : Z := default 0 (indegree !! i).

(** The maps after the first loop. *)
Definition init_maps (tasks : list Task) : gmap string Z * gmap string (list string) :=
  foldl (fun '(ind, dep) t => (<[task_id t := 0]> ind, <[task_id t := []]> dep)) (∅, ∅) tasks.

(** Body of the second loop for one dependency of [t]. *)
Definition add_edge (byId : gmap string Task) (t : string)
    (acc : res dag_error (gmap string Z * gmap string (list string))) (d : string)
    : res dag_error (gmap string Z * gmap string (list string)) :=
  let! (ind, dep) := acc in
  match byId !! d with
  | None => Err (unknown_dependency t d)
  | Some _ => Ok (<[t := degree ind t + 1]> ind, <[d := default [] (dep !! d) ++ [t]]> dep)
  end.

Definition build_maps (tasks : list Task) : res dag_error (gmap string Z * gmap string (list string)) :=
  foldl (fun acc t => foldl (add_edge (by_id tasks) (task_id t)) acc (task_depends_on t))
    (Ok (init_maps tasks)) tasks.

(** [for (const d of dependents.get(id) ?? [])]: lower the in-degree, enqueue at zero. *)
Definition relax (st : gmap string Z * list string) (d : string) : gmap string Z * list string :=
  let '(ind, queue) := st in
  let deg := degree ind d - 1 in
  (<[d := deg]> ind, if deg =? 0 then queue ++ [d] else queue).

Fixpoint kahn (fuel : nat) (dependents : gmap string (list string)) (ind : gmap string Z)
    (queue order : list string) : option (list string) :=
  match queue with
  | [] => Some order
  | i :: queue' =>
      match fuel with
      | O => None
      | S fuel' =>
          let '(ind', q') := foldl relax (ind, queue') (default [] (dependents !! i)) in
          kahn fuel' dependents ind' q' (order ++ [i])
      end
  end.

Definition initial_queue (tasks : list Task) (ind : gmap string Z) : list string :=
  ids_of (js_filter (fun t => degree ind (task_id t) =? 0) tasks).

(** [None] is "the loop did not finish within the bound" and never happens. *)
Definition topoSort (tasks : list Task) : option (res dag_error (list Task)) :=
  match build_maps tasks with
  | Err e => Some (Err e)
  | Ok (ind, dependents) =>
      match kahn (2 * length tasks + 1) dependents ind (initial_queue tasks ind) [] with
      | None => None
      | Some order =>
          if negb (Nat.eqb (length order) (length tasks))
          then Some (Err (dependency_cycle
                            (ids_of (js_filter (fun t => negb (js_includes (task_id t) order)) tasks))))
          else Some (Ok (omap (fun i => by_id tasks !! i) order))
      end
  end.

(** Strip one trailing slash: [p.replace(/\/$/, "")]. *)
Fixpoint norm (p : string) : string :=
  match p with
  | EmptyString => EmptyString
  | String c EmptyString => if Ascii.eqb c "/"%char then EmptyString else p
  | String c p' => String c (norm p')
  end.

Definition scopesOverlap (a b : string) : bool :=
  let x := norm a in
  let y := norm b in
  if String.eqb x y then true
  else js_startsWith x (y +:+ "/") || js_startsWith y (x +:+ "/").

Definition tasksConflict (a b : Task) : bool :=
  js_some (fun p => js_some (fun q => scopesOverlap p q) (task_scope_paths b)) (task_scope_paths a).

(** One pass of [for (const t of tasks)]: the failed set, the output, the [changed] flag. *)
Definition block_step (st : gset string * list Task * bool) (t : Task) : gset string * list Task * bool :=
  let '(failed, out, changed) := st in
  if bool_decide (task_id t ∈ failed) then st
  else if js_some (fun d => bool_decide (d ∈ failed)) (task_depends_on t)
  then ({[task_id t]} ∪ failed, out ++ [t], true)
  else st.

Fixpoint block_loop (fuel : nat) (tasks : list Task) (failed : gset string) (out : list Task)
    : option (list Task) :=
  match fuel with
  | O => None
  | S fuel' =>
      let '(failed', out', changed) := foldl block_step (failed, out, false) tasks in
      if changed then block_loop fuel' tasks failed' out' else Some out'
  end.

Definition blockedByFailure (tasks : list Task) (failedIds : gset string) : option (list Task) :=
  block_loop (length tasks + 1) tasks failedIds [].

(** ** The two maps *)

Definition edges (tasks : list Task) : list (string * string) :=
  concat (map (fun t => map (fun d => (task_id t, d)) (task_depends_on t)) tasks).

Definition add_edges (byId : gmap string Task) acc (es : list (string * string)) :=
  foldl (fun acc '(t, d) => add_edge byId t acc d) acc es.

Lemma build_maps_edges tasks :
  build_maps tasks = add_edges (by_id tasks) (Ok (init_maps tasks)) (edges tasks).
Proof.
  unfold build_maps, edges. generalize (by_id tasks) (Ok (E:=dag_error) (init_maps tasks)).
  induction tasks as [|t ts IH]; intros m acc; [done|]. simpl.
  unfold add_edges. rewrite foldl_app. rewrite IH. unfold add_edges. f_equal.
  generalize acc. induction (task_depends_on t) as [|d ds IHd]; intros a; [done|]. simpl. apply IHd.
Qed.

Lemma elem_of_edges tasks i d :
  (i, d) ∈ edges tasks <-> exists t, t ∈ tasks /\ task_id t = i /\ d ∈ task_depends_on t.
Proof.
  unfold edges. rewrite list_elem_of_In, in_concat. split.
  - intros (l & Hl & Hin). apply in_map_iff in Hl as (t & <- & Ht).
    apply in_map_iff in Hin as (d' & [= <- <-] & Hd). exists t. split_and!; [by apply list_elem_of_In|done|by apply list_elem_of_In].
  - intros (t & Ht & <- & Hd). apply list_elem_of_In in Ht, Hd.
    exists (map (fun d => (task_id t, d)) (task_depends_on t)). split; apply in_map_iff; eauto.
Qed.

Lemma task_id_elem t ts : t ∈ ts -> task_id t ∈ ids_of ts.
Proof. intros Ht. by apply list_elem_of_In, in_map, list_elem_of_In. Qed.

Lemma by_id_lookup tasks i : is_Some (by_id tasks !! i) <-> i ∈ ids_of tasks.
Proof.
  unfold by_id, ids_of. induction tasks as [|t ts IH] using rev_ind; simpl.
  - rewrite lookup_empty. split; [by intros [? ?]|set_solver].
  - rewrite foldl_app, map_app, elem_of_app, <- IH. simpl. rewrite lookup_insert.
    case_decide as Hd; [subst; split; [set_solver|eauto]|]. set_solver.
Qed.

Lemma by_id_task tasks t : NoDup (ids_of tasks) -> t ∈ tasks -> by_id tasks !! task_id t = Some t.
Proof.
  unfold by_id, ids_of. induction tasks as [|u ts IH] using rev_ind; [set_solver|].
  rewrite foldl_app, map_app, NoDup_app. simpl. intros (Hnd & Hdis & _).
  rewrite elem_of_app, list_elem_of_singleton, lookup_insert. intros [Ht|<-].
  - rewrite decide_False; [by apply IH|]. intros He. apply (Hdis (task_id t)); [|set_solver].
    by apply task_id_elem.
  - by rewrite decide_True.
Qed.

Lemma init_maps_degree tasks x : degree (init_maps tasks).1 x = 0.
Proof.
  unfold init_maps. induction tasks as [|t ts IH] using rev_ind; [done|].
  rewrite foldl_app. simpl. destruct (foldl _ _ ts) as [ind dep]. simpl in *.
  unfold degree in *. rewrite lookup_insert. by case_decide.
Qed.

Lemma init_maps_dependents tasks x : default [] ((init_maps tasks).2 !! x) = [].
Proof.
  unfold init_maps. induction tasks as [|t ts IH] using rev_ind; [done|].
  rewrite foldl_app. simpl. destruct (foldl _ _ ts) as [ind dep]. simpl in *.
  rewrite lookup_insert. by case_decide.
Qed.

Lemma add_edges_err m e es : add_edges m (Err e) es = Err e.
Proof. induction es as [|[t d] es IH]; [done|]. simpl. apply IH. Qed.

Lemma add_edges_cons m ind dep t d es :
  add_edges m (Ok (ind, dep)) ((t, d) :: es) =
  match m !! d with
  | None => Err (unknown_dependency t d)
  | Some _ => add_edges m (Ok (<[t := degree ind t + 1]> ind,
                               <[d := default [] (dep !! d) ++ [t]]> dep)) es
  end.
Proof. unfold add_edges at 1. simpl. destruct (m !! d); [done|]. apply add_edges_err. Qed.

Lemma add_edges_known m ind dep es :
  (forall t d, (t, d) ∈ es -> is_Some (m !! d)) -> exists r, add_edges m (Ok (ind, dep)) es = Ok r.
Proof.
  revert ind dep. induction es as [|[t d] es IH]; intros ind dep Hk; [eexists; done|]. rewrite add_edges_cons.
  destruct (Hk t d ltac:(set_solver)) as [v ->]. apply IH. intros t' d' Hin. apply (Hk t'). by right.
Qed.

Lemma add_edges_unknown m ind dep es e :
  add_edges m (Ok (ind, dep)) es = Err e ->
  exists t d, e = unknown_dependency t d /\ (t, d) ∈ es /\ m !! d = None.
Proof.
  revert ind dep. induction es as [|[t d] es IH]; intros ind dep; [done|]. rewrite add_edges_cons.
  destruct (m !! d) as [v|] eqn:E.
  - intros H. apply IH in H as (t' & d' & ? & ? & ?). exists t', d'. set_solver.
  - intros [= <-]. exists t, d. set_solver.
Qed.

Lemma add_edges_spec m ind dep es ind' dep' :
  add_edges m (Ok (ind, dep)) es = Ok (ind', dep') ->
  (forall t d, (t, d) ∈ es -> is_Some (m !! d)) /\
  (forall x, degree ind' x = degree ind x + Z.of_nat (occ x es.*1)) /\
  (forall i x, occ x (default [] (dep' !! i)) = (occ x (default [] (dep !! i)) + occ (x, i) es)%nat) /\
  (forall i x, x ∈ default [] (dep' !! i) -> x ∈ default [] (dep !! i) \/ x ∈ es.*1).
Proof.
  revert ind dep. induction es as [|[t d] es IH]; intros ind dep.
  - simpl. intros [= <- <-]. split_and!; intros; rewrite ?occ_nil; try lia; [set_solver|auto].
  - rewrite add_edges_cons. destruct (m !! d) as [v|] eqn:E; [|done].
    intros H. apply IH in H as (H1 & H2 & H3 & H4). split_and!.
    + intros t' d' Hin. apply elem_of_cons in Hin as [[= <- <-]|Hin]; eauto.
    + intros x. rewrite H2, fmap_cons, occ_cons. unfold degree. rewrite lookup_insert.
      destruct (decide (t = x)) as [->|].
      * rewrite decide_True by done. cbn [default from_option id]. lia.
      * rewrite decide_False by (simpl; congruence). lia.
    + intros i x. rewrite H3, occ_cons, lookup_insert. case_decide as Hd; simpl.
      * subst. rewrite occ_app, occ_cons, occ_nil.
        destruct (decide (x = t)) as [->|]; [rewrite decide_True by done|rewrite decide_False by congruence]; lia.
      * rewrite decide_False by congruence. lia.
    + intros i x Hx. apply H4 in Hx as [Hx|Hx]; [|right; set_solver].
      rewrite lookup_insert in Hx. case_decide as Hd; [|by left]. simpl in Hx. subst.
      apply elem_of_app in Hx as [Hx|Hx]; [by left|right; set_solver].
Qed.

Lemma edges_cons t ts :
  edges (t :: ts) = map (fun d => (task_id t, d)) (task_depends_on t) ++ edges ts.
Proof. done. Qed.

Lemma occ_edge_sources (i x : string) (ds : list string) :
  occ x (map (fun d => (i, d)) ds).*1 = if decide (x = i) then length ds else 0%nat.
Proof.
  induction ds as [|d ds IH]; [by destruct (decide (x = i))|].
  rewrite map_cons, fmap_cons, occ_cons, IH. simpl. by destruct (decide (x = i)).
Qed.

Lemma occ_edge_pair (i x y : string) (ds : list string) :
  occ (x, y) (map (fun d => (i, d)) ds) = if decide (x = i) then occ y ds else 0%nat.
Proof.
  induction ds as [|d ds IH]; [by destruct (decide (x = i))|].
  rewrite map_cons, !occ_cons, IH.
  destruct (decide (x = i)) as [->|]; [|by rewrite decide_False by congruence].
  destruct (decide (y = d)) as [->|]; [by rewrite decide_True|by rewrite decide_False by congruence].
Qed.

Lemma occ_edges_absent x ts : x ∉ ids_of ts -> occ x (edges ts).*1 = 0%nat /\ forall y, occ (x, y) (edges ts) = 0%nat.
Proof.
  intros Hx. split; [|intros y]; apply occ_zero; intros Hin; apply Hx.
  - apply list_elem_of_fmap in Hin as ([i d] & -> & Hin). apply elem_of_edges in Hin as (t & Ht & <- & _).
    by apply task_id_elem.
  - apply elem_of_edges in Hin as (t & Ht & <- & _). by apply task_id_elem.
Qed.

Lemma occ_edges_task tasks t :
  NoDup (ids_of tasks) -> t ∈ tasks ->
  occ (task_id t) (edges tasks).*1 = length (task_depends_on t) /\
  forall y, occ (task_id t, y) (edges tasks) = occ y (task_depends_on t).
Proof.
  induction tasks as [|u ts IH]; [set_solver|].
  unfold ids_of. rewrite map_cons, NoDup_cons. fold (ids_of ts). intros [Hni Hnd] Hin.
  apply elem_of_cons in Hin as [->|Hin].
  - destruct (occ_edges_absent _ _ Hni) as [H1 H2]. rewrite edges_cons, fmap_app, occ_app, H1, occ_edge_sources.
    rewrite decide_True by done. split; [lia|]. intros y.
    rewrite occ_app, H2, occ_edge_pair, decide_True by done. lia.
  - destruct (IH Hnd Hin) as [H1 H2].
    assert (Hne : task_id t <> task_id u).
    { intros He. apply Hni. rewrite <- He. by apply task_id_elem. }
    rewrite edges_cons, fmap_app, occ_app, H1, occ_edge_sources, decide_False by done. split; [lia|].
    intros y. by rewrite occ_app, H2, occ_edge_pair, decide_False by done.
Qed.

Lemma build_maps_spec tasks ind dep :
  build_maps tasks = Ok (ind, dep) ->
  (forall t d, t ∈ tasks -> d ∈ task_depends_on t -> d ∈ ids_of tasks) /\
  (forall i x, x ∈ default [] (dep !! i) -> x ∈ ids_of tasks) /\
  (NoDup (ids_of tasks) -> forall t, t ∈ tasks ->
     degree ind (task_id t) = Z.of_nat (length (task_depends_on t)) /\
     forall i, occ (task_id t) (default [] (dep !! i)) = occ i (task_depends_on t)).
Proof.
  rewrite build_maps_edges. pose proof (init_maps_degree tasks) as Hd.
  pose proof (init_maps_dependents tasks) as Hp.
  destruct (init_maps tasks) as [ind0 dep0]. simpl in *. intros H.
  apply add_edges_spec in H as (H1 & H2 & H3 & H4). split_and!.
  - intros t d Ht Hin. apply by_id_lookup, (H1 (task_id t)), elem_of_edges. eauto.
  - intros i x Hx. apply H4 in Hx as [Hx|Hx]; [rewrite Hp in Hx; set_solver|].
    apply list_elem_of_fmap in Hx as ([i' d] & -> & Hin). apply elem_of_edges in Hin as (t & Ht & <- & _).
    by apply task_id_elem.
  - intros Hnd t Ht. destruct (occ_edges_task tasks t Hnd Ht) as [He Hf]. split.
    + rewrite H2, Hd, He. lia.
    + intros i. by rewrite H3, Hp, Hf.
Qed.

Lemma build_maps_total tasks :
  (forall t d, t ∈ tasks -> d ∈ task_depends_on t -> d ∈ ids_of tasks) ->
  exists ind dep, build_maps tasks = Ok (ind, dep).
Proof.
  intros Hk. rewrite build_maps_edges. destruct (init_maps tasks) as [ind0 dep0].
  destruct (add_edges_known (by_id tasks) ind0 dep0 (edges tasks)) as [[ind dep] H]; [|by exists ind, dep].
  intros i d Hin. apply elem_of_edges in Hin as (t & Ht & _ & Hd). apply by_id_lookup. eauto.
Qed.

(** ** The queue loop *)

Lemma relax_fold ds : forall ind q,
  exists ind' new, foldl relax (ind, q) ds = (ind', q ++ new) /\
  (forall x, degree ind' x = degree ind x - Z.of_nat (occ x ds)) /\
  NoDup new /\ (forall x, x ∈ new <-> 1 <= degree ind x <= Z.of_nat (occ x ds)).
Proof.
  induction ds as [|d ds IH]; intros ind q.
  - exists ind, []. split_and!; [by rewrite app_nil_r|intros; rewrite occ_nil; lia|constructor|].
    intros x. rewrite occ_nil. split; [set_solver|lia].
  - simpl foldl. set (ind1 := <[d := degree ind d - 1]> ind).
    assert (Hdeg : forall x, degree ind1 x = degree ind x - if decide (d = x) then 1 else 0).
    { intros x. unfold ind1, degree. rewrite lookup_insert.
      destruct (decide (d = x)) as [->|]; cbn [default from_option id]; lia. }
    destruct (IH ind1 (if degree ind d - 1 =? 0 then q ++ [d] else q)) as (ind' & new & Hf & H1 & H2 & H3).
    rewrite Hf. exists ind'.
    destruct (Z.eqb_spec (degree ind d - 1) 0) as [Hz|Hz].
    + exists (d :: new). rewrite <- app_assoc. split_and!; [done| | |].
      * intros x. rewrite H1, Hdeg, occ_cons. destruct (decide (d = x)), (decide (x = d)); simplify_eq; lia.
      * apply NoDup_cons. split; [|done]. rewrite H3, Hdeg, decide_True by done. lia.
      * intros x. rewrite elem_of_cons, H3, Hdeg, occ_cons.
        destruct (decide (x = d)) as [->|].
        -- rewrite decide_True by done. split; [lia|by left].
        -- rewrite decide_False by congruence. split; [intros [?|?]; [done|lia]|right; lia].
    + exists new. split_and!; [done| |done|].
      * intros x. rewrite H1, Hdeg, occ_cons. destruct (decide (d = x)), (decide (x = d)); simplify_eq; lia.
      * intros x. rewrite H3, Hdeg, occ_cons. destruct (decide (d = x)), (decide (x = d)); simplify_eq; lia.
Qed.

(** Ids with a positive in-degree: what the loop can still enqueue. *)
Definition positive_count (U : list string) (ind : gmap string Z) : nat :=
  length (filter (fun x => 1 <= degree ind x)%Z U).

Lemma positive_count_le U ind ind' new :
  (forall x, degree ind' x <= degree ind x) -> NoDup new ->
  (forall x, x ∈ new -> x ∈ U /\ 1 <= degree ind x /\ degree ind' x <= 0) ->
  (length new + positive_count U ind' <= positive_count U ind)%nat.
Proof.
  intros Hle Hnd Hnew. unfold positive_count.
  assert (H1 : (length new <= length (filter (fun x => 1 <= degree ind x /\ degree ind' x <= 0)%Z U))%nat).
  { apply NoDup_length_le; [done|]. intros x Hx. destruct (Hnew x Hx) as (? & ? & ?).
    rewrite list_elem_of_filter. auto. }
  assert (H2 : (length (filter (fun x => 1 <= degree ind x /\ degree ind' x <= 0)%Z U)
                + length (filter (fun x => 1 <= degree ind' x)%Z U)
                <= length (filter (fun x => 1 <= degree ind x)%Z U))%nat); [|lia].
  clear -Hle. induction U as [|x U IH]; [done|]. rewrite !filter_cons. specialize (Hle x).
  repeat case_decide; simpl; lia.
Qed.

Lemma kahn_terminates U dep :
  (forall i x, x ∈ default [] (dep !! i) -> x ∈ U) ->
  forall fuel ind queue order,
  (length queue + positive_count U ind <= fuel)%nat -> is_Some (kahn fuel dep ind queue order).
Proof.
  intros HU fuel. induction fuel as [|fuel IH]; intros ind queue order Hf.
  - destruct queue; simpl in *; [eauto|lia].
  - destruct queue as [|i queue]; simpl; [eauto|]. simpl in Hf.
    destruct (relax_fold (default [] (dep !! i)) ind queue) as (ind' & new & -> & H1 & H2 & H3).
    apply IH. rewrite length_app.
    assert ((length new + positive_count U ind' <= positive_count U ind)%nat); [|lia].
    apply positive_count_le; [intros x; rewrite H1; lia|done|].
    intros x Hx. pose proof (proj1 (H3 x) Hx). rewrite H1. split_and!; try lia.
    apply (HU i). destruct (decide (x ∈ default [] (dep !! i))) as [|Hn]; [done|].
    apply occ_zero in Hn. lia.
Qed.

(** Dependencies of [ds] not yet emitted. *)
Definition pending (order ds : list string) : nat := length (filter (fun d => d ∉ order) ds).

Lemma pending_snoc order i ds :
  i ∉ order -> pending order ds = (pending (order ++ [i]) ds + occ i ds)%nat.
Proof.
  intros Hi. unfold pending. induction ds as [|d ds IH]; [done|].
  rewrite !filter_cons, occ_cons.
  destruct (decide (i = d)) as [<-|Hne].
  - rewrite decide_True by done. rewrite decide_False by set_solver. simpl. lia.
  - destruct (decide (d ∈ order)).
    + rewrite !decide_False by set_solver. lia.
    + rewrite !decide_True by set_solver. simpl. lia.
Qed.

Lemma pending_zero order ds : pending order ds = 0%nat <-> forall d, d ∈ ds -> d ∈ order.
Proof.
  unfold pending. induction ds as [|d ds IH]; [split; [set_solver|done]|].
  rewrite filter_cons. destruct (decide (d ∈ order)).
  - rewrite decide_False by auto. rewrite IH. set_solver.
  - rewrite decide_True by done. simpl. split; [lia|set_solver].
Qed.

Record kahn_inv (tasks : list Task) (ind : gmap string Z) (queue order : list string) : Prop := {
  ki_nodup : NoDup (order ++ queue);
  ki_ids : forall x, x ∈ order ++ queue -> x ∈ ids_of tasks;
  ki_deg : forall t, t ∈ tasks -> degree ind (task_id t) = Z.of_nat (pending order (task_depends_on t));
  ki_zero : forall t, t ∈ tasks -> task_id t ∈ order ++ queue <-> degree ind (task_id t) = 0;
  ki_topo : forall l1 l2 t, t ∈ tasks -> order = l1 ++ task_id t :: l2 ->
            forall d, d ∈ task_depends_on t -> d ∈ l1;
}.

Lemma ids_of_inv tasks x : x ∈ ids_of tasks -> exists t, t ∈ tasks /\ task_id t = x.
Proof.
  intros Hx. apply list_elem_of_In, in_map_iff in Hx as (t & <- & Ht).
  exists t. by rewrite list_elem_of_In.
Qed.

Section KahnCorrect.
Context (tasks : list Task) (dep : gmap string (list string)).
Hypothesis Hnd : NoDup (ids_of tasks).
Hypothesis Hdep : forall t i, t ∈ tasks ->
  occ (task_id t) (default [] (dep !! i)) = occ i (task_depends_on t).
Hypothesis Hids : forall i x, x ∈ default [] (dep !! i) -> x ∈ ids_of tasks.

Lemma kahn_step_inv ind i queue order ind' new :
  kahn_inv tasks ind (i :: queue) order ->
  (forall x, degree ind' x = degree ind x - Z.of_nat (occ x (default [] (dep !! i)))) ->
  NoDup new -> (forall x, x ∈ new <-> 1 <= degree ind x <= Z.of_nat (occ x (default [] (dep !! i)))) ->
  kahn_inv tasks ind' (queue ++ new) (order ++ [i]).
Proof.
  intros [I1 I2 I3 I4 I5] Hdeg Hnew Hin.
  assert (Hi : i ∉ order) by (apply NoDup_app in I1 as (_ & H & _); intros ?; by apply (H i); set_solver).
  assert (Happ : (order ++ [i]) ++ (queue ++ new) = (order ++ i :: queue) ++ new)
    by (by rewrite <- !app_assoc).
  assert (Hdeg' : forall t, t ∈ tasks ->
            degree ind' (task_id t) = Z.of_nat (pending (order ++ [i]) (task_depends_on t))).
  { intros t Ht. rewrite Hdeg, I3, Hdep, (pending_snoc order i) by done. lia. }
  assert (Hnewids : forall x, x ∈ new -> x ∈ ids_of tasks).
  { intros x Hx. apply (Hids i). apply Hin in Hx.
    destruct (decide (x ∈ default [] (dep !! i))) as [|Hn]; [done|]. apply occ_zero in Hn. lia. }
  assert (Hfresh : forall x, x ∈ new -> x ∉ order ++ i :: queue).
  { intros x Hx Ho. destruct (ids_of_inv tasks x (Hnewids x Hx)) as (t & Ht & <-).
    apply I4 in Ho; [|done]. apply Hin in Hx. lia. }
  constructor.
  - rewrite Happ. apply NoDup_app. split_and!; [done|intros x H1 H2; by apply (Hfresh x)|done].
  - rewrite Happ. intros x Hx. apply elem_of_app in Hx as [Hx|Hx]; auto.
  - done.
  - intros t Ht. rewrite Happ, elem_of_app, I4, Hin, Hdeg' by done.
    rewrite I3, Hdep, (pending_snoc order i) by done. lia.
  - intros l1 l2 t Ht Heq d Hd.
    assert (Hp : forall d, d ∈ task_depends_on t -> task_id t = i -> d ∈ order).
    { intros d' Hd' <-. apply (pending_zero order (task_depends_on t)); [|done].
      assert (degree ind (task_id t) = 0) by (apply I4; [done|set_solver]). rewrite I3 in H by done. lia. }
    destruct l2 as [|y l2 _] using rev_ind.
    + apply app_inj_tail in Heq as [<- Heq]. by apply Hp.
    + rewrite app_comm_cons, app_assoc in Heq. apply app_inj_tail in Heq as [Heq _].
      by apply (I5 l1 l2 t).
Qed.

Lemma kahn_result_inv fuel ind queue order out :
  kahn_inv tasks ind queue order -> kahn fuel dep ind queue order = Some out ->
  exists ind', kahn_inv tasks ind' [] out.
Proof.
  revert ind queue order. induction fuel as [|fuel IH]; intros ind queue order Hinv.
  - destruct queue; simpl; [|done]. intros [= <-]. eauto.
  - destruct queue as [|i queue]; simpl; [intros [= <-]; eauto|].
    destruct (relax_fold (default [] (dep !! i)) ind queue) as (ind' & new & -> & H1 & H2 & H3).
    apply IH. eapply kahn_step_inv; eauto.
Qed.

End KahnCorrect.

Lemma kahn_initial_inv tasks ind :
  NoDup (ids_of tasks) ->
  (forall t, t ∈ tasks -> degree ind (task_id t) = Z.of_nat (length (task_depends_on t))) ->
  kahn_inv tasks ind (initial_queue tasks ind) [].
Proof.
  intros Hnd Hdeg.
  assert (Hpend : forall ds, pending [] ds = length ds).
  { intros ds. unfold pending. induction ds as [|d ds IH]; [done|]. rewrite filter_cons.
    rewrite decide_True by set_solver. cbn [length]. by rewrite IH. }
  assert (Hq : forall x, x ∈ initial_queue tasks ind <-> exists t, t ∈ tasks /\ task_id t = x /\ degree ind x = 0).
  { intros x. unfold initial_queue, ids_of. rewrite list_elem_of_In, in_map_iff. split.
    - intros (t & <- & Ht). apply list_elem_of_In, js_filter_elem in Ht as [Ht Hz]. bool_to_prop. eauto.
    - intros (t & Ht & <- & Hz). exists t. split; [done|]. apply list_elem_of_In, js_filter_elem.
      split; [done|]. by apply Z.eqb_eq. }
  constructor.
  - simpl. unfold initial_queue, ids_of. unfold ids_of in Hnd. revert Hnd. clear.
    induction tasks as [|t ts IH]; [constructor|]. simpl. rewrite NoDup_cons. intros [Hni Hnd'].
    destruct (Z.eqb _ 0); simpl; [|auto]. apply NoDup_cons. split; [|auto].
    intros Hin. apply Hni. apply list_elem_of_In, in_map_iff in Hin as (u & <- & Hu).
    apply list_elem_of_In, js_filter_elem in Hu as [Hu _].
    by apply list_elem_of_In, in_map, list_elem_of_In.
  - intros x Hx. apply Hq in Hx as (t & Ht & <- & _). by apply task_id_elem.
  - intros t Ht. by rewrite Hpend, Hdeg.
  - intros t Ht. simpl. rewrite Hq. split; [by intros (? & _ & _ & ?)|eauto].
  - intros l1 l2 t _ Heq. by destruct l1.
Qed.

(** ** Properties of [topoSort] *)

Definition known_deps (tasks : list Task) : Prop :=
  forall t d, t ∈ tasks -> d ∈ task_depends_on t -> d ∈ ids_of tasks.

(** An assignment of levels in which every dependency is strictly below. *)
Definition ranked (tasks : list Task) (rank : string -> nat) : Prop :=
  forall t d, t ∈ tasks -> d ∈ task_depends_on t -> (rank d < rank (task_id t))%nat.

Lemma omap_by_id tasks l :
  NoDup (ids_of tasks) -> (forall t, t ∈ l -> t ∈ tasks) ->
  omap (fun i => by_id tasks !! i) (ids_of l) = l.
Proof.
  intros Hnd Hl. induction l as [|t l IH]; [done|]. simpl.
  rewrite by_id_task by set_solver. f_equal. apply IH. set_solver.
Qed.

Lemma ids_lift tasks order :
  (forall x, x ∈ order -> x ∈ ids_of tasks) -> exists l, order = ids_of l /\ forall t, t ∈ l -> t ∈ tasks.
Proof.
  induction order as [|x order IH]; intros Hx; [exists []; set_solver|].
  destruct IH as (l & -> & Hl); [set_solver|].
  destruct (ids_of_inv tasks x (Hx x ltac:(set_solver))) as (t & Ht & <-).
  exists (t :: l). split; [done|]. set_solver.
Qed.

Lemma topoSort_unfold tasks :
  match build_maps tasks with
  | Err e => topoSort tasks = Some (Err e)
  | Ok (ind, dep) =>
      exists order, kahn (2 * length tasks + 1) dep ind (initial_queue tasks ind) [] = Some order /\
      topoSort tasks =
        if negb (Nat.eqb (length order) (length tasks))
        then Some (Err (dependency_cycle
                          (ids_of (js_filter (fun t => negb (js_includes (task_id t) order)) tasks))))
        else Some (Ok (omap (fun i => by_id tasks !! i) order))
  end.
Proof.
  unfold topoSort. destruct (build_maps tasks) as [[ind dep]|e] eqn:E; [|done].
  destruct (build_maps_spec _ _ _ E) as (_ & Hids & _).
  destruct (kahn_terminates (ids_of tasks) dep Hids (2 * length tasks + 1) ind
              (initial_queue tasks ind) []) as [order Ho].
  - assert (H1 : (length (initial_queue tasks ind) <= length tasks)%nat).
    { unfold initial_queue, ids_of. rewrite length_map. apply js_filter_length. }
    assert (H2 : (positive_count (ids_of tasks) ind <= length tasks)%nat).
    { unfold positive_count. etransitivity; [apply length_filter|]. unfold ids_of. by rewrite length_map. }
    lia.
  - exists order. by rewrite Ho.
Qed.

(** What the loop has established when it leaves with [order]. *)
Lemma topoSort_loop_inv tasks ind dep order :
  NoDup (ids_of tasks) -> build_maps tasks = Ok (ind, dep) ->
  kahn (2 * length tasks + 1) dep ind (initial_queue tasks ind) [] = Some order ->
  known_deps tasks /\ exists ind', kahn_inv tasks ind' [] order.
Proof.
  intros Hnd Hb Hk. destruct (build_maps_spec _ _ _ Hb) as (H1 & H2 & H3). split; [exact H1|].
  refine (kahn_result_inv tasks dep Hnd _ H2 _ _ _ _ _ _ Hk).
  - intros t i Ht. by apply H3.
  - apply kahn_initial_inv; [done|]. intros t Ht. by apply H3.
Qed.

(** The sort always returns: the queue loop finishes within its bound on
    every task list, duplicated ids and cycles included. *)
Theorem topoSort_terminates tasks : is_Some (topoSort tasks).
Proof.
  pose proof (topoSort_unfold tasks) as H. destruct (build_maps tasks) as [[ind dep]|e].
  - destruct H as (order & _ & ->). destruct (negb _); eauto.
  - rewrite H. eauto.
Qed.

Lemma topoSort_ok_inv tasks out :
  NoDup (ids_of tasks) -> topoSort tasks = Some (Ok out) ->
  known_deps tasks /\ (forall t, t ∈ out -> t ∈ tasks) /\ length out = length tasks /\
  exists ind, kahn_inv tasks ind [] (ids_of out).
Proof.
  intros Hnd Ht. pose proof (topoSort_unfold tasks) as H.
  destruct (build_maps tasks) as [[ind dep]|e] eqn:Hb; [|congruence].
  destruct H as (order & Hk & Hs). rewrite Hs in Ht.
  destruct (topoSort_loop_inv _ _ _ _ Hnd Hb Hk) as [Hkn [ind' Hinv]].
  destruct (negb _) eqn:Hlen; [done|]. injection Ht as <-. bool_to_prop.
  destruct (ids_lift tasks order) as (l & -> & Hl).
  { intros x Hx. apply (ki_ids _ _ _ _ Hinv). by rewrite app_nil_r. }
  rewrite omap_by_id by done. unfold ids_of in Hlen. rewrite length_map in Hlen. eauto.
Qed.

Lemma kahn_inv_all tasks ind order :
  NoDup (ids_of tasks) -> kahn_inv tasks ind [] order -> length order = length tasks ->
  order ≡ₚ ids_of tasks.
Proof.
  intros Hnd Hinv Hlen. pose proof (ki_nodup _ _ _ _ Hinv) as H1. pose proof (ki_ids _ _ _ _ Hinv) as H2.
  rewrite app_nil_r in *. apply submseteq_length_Permutation; [by apply NoDup_submseteq|].
  unfold ids_of. rewrite length_map. lia.
Qed.

Lemma topoSort_sorted tasks out :
  NoDup (ids_of tasks) -> topoSort tasks = Some (Ok out) ->
  out ≡ₚ tasks /\
  forall l1 t l2, out = l1 ++ t :: l2 -> forall d, d ∈ task_depends_on t -> d ∈ ids_of l1.
Proof.
  intros Hnd Ht. destruct (topoSort_ok_inv _ _ Hnd Ht) as (_ & Hsub & Hlen & ind & Hinv).
  split.
  - rewrite <- (omap_by_id tasks out), <- (omap_by_id tasks tasks) at 1 by auto.
    apply omap_Permutation, (kahn_inv_all tasks ind); [done|done|].
    unfold ids_of. by rewrite length_map.
  - intros l1 t l2 -> d Hd.
    apply (ki_topo _ _ _ _ Hinv (ids_of l1) (ids_of l2) t); [|unfold ids_of; by rewrite map_app|done].
    apply Hsub. set_solver.
Qed.

(** Tasks the loop never emitted. *)
Definition unfinished (tasks : list Task) (order : list string) : list string :=
  filter (fun x => x ∉ order) (ids_of tasks).

Lemma unfinished_ne tasks ind order :
  NoDup (ids_of tasks) -> kahn_inv tasks ind [] order -> length order <> length tasks ->
  unfinished tasks order <> [].
Proof.
  intros Hnd Hinv Hlen Hnil. pose proof (ki_nodup _ _ _ _ Hinv) as H1.
  pose proof (ki_ids _ _ _ _ Hinv) as H2. rewrite app_nil_r in *.
  apply Hlen, Nat.le_antisymm; rewrite <- (length_map task_id tasks);
    apply NoDup_length_le; try done. intros x Hx. destruct (decide (x ∈ order)); [done|].
  assert (Hc : x ∈ unfinished tasks order) by (by apply list_elem_of_filter).
  rewrite Hnil in Hc. set_solver.
Qed.

(** An unfinished task waits for another unfinished task. *)
Lemma unfinished_waits tasks ind order i :
  known_deps tasks -> kahn_inv tasks ind [] order -> i ∈ unfinished tasks order ->
  exists t d, t ∈ tasks /\ task_id t = i /\ d ∈ task_depends_on t /\ d ∈ unfinished tasks order.
Proof.
  intros Hkn Hinv Hi. apply list_elem_of_filter in Hi as [Hno Hi].
  destruct (ids_of_inv tasks i Hi) as (t & Ht & <-).
  pose proof (ki_zero _ _ _ _ Hinv t Ht) as Hz. rewrite (ki_deg _ _ _ _ Hinv t Ht), app_nil_r in Hz.
  destruct (decide (Forall (fun d => d ∈ order) (task_depends_on t))) as [Hall|Hex].
  - exfalso. apply Hno, Hz. rewrite Forall_forall in Hall. by apply pending_zero in Hall as ->.
  - apply not_Forall_Exists in Hex; [|apply _]. apply Exists_exists in Hex as (d & Hd & Hdn).
    exists t, d. split_and!; [done..|]. apply list_elem_of_filter. split; [done|]. by apply (Hkn t).
Qed.

Lemma unfinished_js tasks order x :
  x ∈ ids_of (js_filter (fun t => negb (js_includes (task_id t) order)) tasks) <-> x ∈ unfinished tasks order.
Proof.
  unfold unfinished. rewrite list_elem_of_filter. split.
  - intros Hx. apply ids_of_inv in Hx as (t & Ht & <-). apply js_filter_elem in Ht as [Ht Hn].
    apply negb_true_iff, js_includes_false in Hn. split; [done|by apply task_id_elem].
  - intros [Hn Hx]. destruct (ids_of_inv tasks x Hx) as (t & Ht & <-). apply task_id_elem.
    apply js_filter_elem. split; [done|]. by apply negb_true_iff, js_includes_false.
Qed.

(** Soundness of the sort: for distinct ids an accepted plan is a
    permutation of the tasks in which every dependency precedes its task. *)
Theorem topoSort_sound tasks out :
  NoDup (ids_of tasks) -> topoSort tasks = Some (Ok out) ->
  out ≡ₚ tasks /\
  forall l1 t l2, out = l1 ++ t :: l2 -> forall d, d ∈ task_depends_on t -> d ∈ ids_of l1.
Proof. apply topoSort_sorted. Qed.

(** The two errors are real: an unknown dependency is reported only for a
    task of the plan that names an id no task has, and the ids of a reported
    cycle are non-empty and each depends on another of them. *)
Theorem topoSort_errors tasks :
  NoDup (ids_of tasks) ->
  (forall i d, topoSort tasks = Some (Err (unknown_dependency i d)) ->
     d ∉ ids_of tasks /\ exists t, t ∈ tasks /\ task_id t = i /\ d ∈ task_depends_on t) /\
  (forall ids, topoSort tasks = Some (Err (dependency_cycle ids)) ->
     ids <> [] /\ forall i, i ∈ ids -> exists t d, t ∈ tasks /\ task_id t = i /\ d ∈ task_depends_on t /\ d ∈ ids).
Proof.
  intros Hnd. pose proof (topoSort_unfold tasks) as H.
  destruct (build_maps tasks) as [[ind dep]|e] eqn:Hb.
  - destruct H as (order & Hk & ->). destruct (topoSort_loop_inv _ _ _ _ Hnd Hb Hk) as [Hkn [ind' Hinv]].
    destruct (negb _) eqn:Hlen; split; intros; simplify_eq. bool_to_prop.
    split.
    + intros Hnil. destruct (unfinished tasks order) as [|x l] eqn:Hu;
        [by apply (unfinished_ne tasks ind' order)|].
      assert (Hx : x ∈ unfinished tasks order) by (rewrite Hu; set_solver).
      apply unfinished_js in Hx. rewrite Hnil in Hx. set_solver.
    + intros i Hi. apply unfinished_js in Hi.
      destruct (unfinished_waits tasks ind' order i) as (t & d & ? & ? & ? & Hd); [done..|].
      exists t, d. split_and!; [done..|]. by apply unfinished_js.
  - rewrite build_maps_edges in Hb. destruct (init_maps tasks) as [ind0 dep0].
    apply add_edges_unknown in Hb as (t & d & -> & Hin & Hnone). rewrite H. split; intros; simplify_eq.
    split; [|by apply elem_of_edges]. intros Hd. apply by_id_lookup in Hd as [? Hd]. congruence.
Qed.

(** Position of an id in an emitted order. *)
Fixpoint position (i : string) (l : list string) : nat :=
  match l with
  | [] => 0
  | x :: l' => if decide (i = x) then 0 else S (position i l')
  end.

Lemma position_lt i l : i ∈ l -> (position i l < length l)%nat.
Proof.
  induction l as [|x l IH]; [set_solver|]. simpl. intros Hi.
  destruct (decide (i = x)); [lia|]. assert (i ∈ l) by set_solver. specialize (IH H). lia.
Qed.

Lemma position_app_l i l1 l2 : i ∈ l1 -> position i (l1 ++ l2) = position i l1.
Proof.
  induction l1 as [|x l1 IH]; [set_solver|]. simpl. intros Hi.
  destruct (decide (i = x)); [done|]. f_equal. apply IH. set_solver.
Qed.

Lemma position_here i l1 l2 : i ∉ l1 -> position i (l1 ++ i :: l2) = length l1.
Proof.
  induction l1 as [|x l1 IH]; simpl; [by rewrite decide_True|].
  intros Hi. rewrite decide_False by set_solver. f_equal. apply IH. set_solver.
Qed.

Lemma sorted_ranked tasks out :
  NoDup (ids_of tasks) -> out ≡ₚ tasks ->
  (forall l1 t l2, out = l1 ++ t :: l2 -> forall d, d ∈ task_depends_on t -> d ∈ ids_of l1) ->
  ranked tasks (fun i => position i (ids_of out)).
Proof.
  intros Hnd Hp Hs t d Ht Hd. rewrite <- Hp in Ht. apply list_elem_of_split in Ht as (l1 & l2 & ->).
  assert (Hin : d ∈ ids_of l1) by (by apply (Hs l1 t l2)).
  assert (Hnd' : NoDup (ids_of (l1 ++ t :: l2))) by (unfold ids_of in *; by rewrite Hp).
  unfold ids_of in *. rewrite map_app in *. apply NoDup_app in Hnd' as (_ & Hdis & _).
  rewrite position_app_l by done. simpl. rewrite position_here; [by apply position_lt|].
  intros Hc. apply (Hdis _ Hc). simpl. set_solver.
Qed.

(** In a non-empty set of ids some id has the least rank. *)
Lemma least_rank (rank : string -> nat) (l : list string) :
  l <> [] -> exists m, m ∈ l /\ forall x, x ∈ l -> (rank m <= rank x)%nat.
Proof.
  induction l as [|x l IH]; [done|]. intros _. destruct l as [|y l].
  - exists x. split; [set_solver|]. intros z Hz. assert (z = x) as -> by set_solver. lia.
  - destruct IH as (m & Hm & Hle); [done|]. destruct (decide (rank x <= rank m)%nat).
    + exists x. split; [set_solver|]. intros z Hz. apply elem_of_cons in Hz as [->|Hz]; [lia|].
      specialize (Hle z Hz). lia.
    + exists m. split; [set_solver|]. intros z Hz. apply elem_of_cons in Hz as [->|Hz]; [lia|auto].
Qed.

(** The sort decides acyclicity: for distinct ids it accepts exactly the
    plans whose dependencies all name tasks of the plan and admit a level
    assignment with every dependency strictly below its task. *)
Theorem topoSort_accepts_iff tasks :
  NoDup (ids_of tasks) ->
  (exists out, topoSort tasks = Some (Ok out)) <-> known_deps tasks /\ exists rank, ranked tasks rank.
Proof.
  intros Hnd. split.
  - intros [out Ho]. pose proof (topoSort_ok_inv _ _ Hnd Ho) as (Hk & _). split; [done|].
    pose proof (topoSort_sorted tasks out Hnd Ho) as Hs.
    exists (fun i => position i (ids_of out)). apply sorted_ranked; [done|apply Hs..].
  - intros [Hk [rank Hr]].
    destruct (build_maps_total tasks Hk) as (ind & dep & Hb).
    pose proof (topoSort_unfold tasks) as H. rewrite Hb in H. destruct H as (order & Hkahn & ->).
    destruct (topoSort_loop_inv _ _ _ _ Hnd Hb Hkahn) as [_ [ind' Hinv]].
    destruct (negb _) eqn:Hlen; [|eauto]. exfalso. bool_to_prop.
    destruct (least_rank rank (unfinished tasks order)) as (m & Hm & Hmin);
      [by apply (unfinished_ne tasks ind' order)|].
    destruct (unfinished_waits tasks ind' order m) as (t & d & Ht & <- & Hd & Hu); [done..|].
    specialize (Hmin d Hu). specialize (Hr t d Ht Hd). lia.
Qed.

(** A three-task plan and a two-task cycle. *)
Definition sample_task (i : string) (deps scope : list string) : Task :=
  mkTask i "WI" i implementation deps t_ready scope risk_low None None.
Definition sample_plan : list Task :=
  [sample_task "c" ["a"; "b"] []; sample_task "a" [] []; sample_task "b" ["a"] []].
Definition sample_cycle : list Task := [sample_task "a" ["b"] []; sample_task "b" ["a"] []].

Lemma sample_plan_nodup : NoDup (ids_of sample_plan).
Proof. apply (bool_decide_unpack (NoDup (ids_of sample_plan))). vm_compute. exact I. Qed.
Lemma sample_cycle_nodup : NoDup (ids_of sample_cycle).
Proof. apply (bool_decide_unpack (NoDup (ids_of sample_cycle))). vm_compute. exact I. Qed.

Lemma topoSort_sound_witness :
  [sample_task "a" [] []; sample_task "b" ["a"] []; sample_task "c" ["a"; "b"] []] ≡ₚ sample_plan.
Proof.
  apply (proj1 (topoSort_sound sample_plan _ sample_plan_nodup ltac:(vm_compute; reflexivity))).
Defined.

Lemma topoSort_errors_witness :
  ["a"; "b"] <> [] /\
  forall i, i ∈ ["a"; "b"] -> exists t d, t ∈ sample_cycle /\ task_id t = i /\
    d ∈ task_depends_on t /\ d ∈ ["a"; "b"].
Proof.
  apply (proj2 (topoSort_errors sample_cycle sample_cycle_nodup)). vm_compute. reflexivity.
Defined.

Lemma topoSort_accepts_iff_witness :
  (exists out, topoSort sample_plan = Some (Ok out)) <->
  known_deps sample_plan /\ exists rank, ranked sample_plan rank.
Proof. apply (topoSort_accepts_iff sample_plan sample_plan_nodup). Defined.

(** ** Write scopes *)

(** The files a scope path stands for: the path itself and everything below it. *)
Definition covers (scope file : string) : Prop :=
  file = norm scope \/ exists r, file = norm scope +:+ "/" +:+ r.

Lemma common_path x y r1 r2 :
  x +:+ "/" +:+ r1 = y +:+ "/" +:+ r2 ->
  x = y \/ (exists r, y = x +:+ "/" +:+ r) \/ (exists r, x = y +:+ "/" +:+ r).
Proof.
  revert y. induction x as [|c x IH]; intros [|c' y]; simpl; intros H.
  - by left.
  - right. left. exists y. by simplify_eq.
  - right. right. exists x. by simplify_eq.
  - injection H as -> H. apply IH in H as [->|[[r ->]|[r ->]]]; [by left|right; left|right; right]; by exists r.
Qed.

Lemma startsWith_dir x y : js_startsWith x (y +:+ "/") = true <-> exists r, x = y +:+ "/" +:+ r.
Proof.
  rewrite js_startsWith_true. by split; intros [r Hr]; exists r; rewrite string_app_assoc in *.
Qed.

(** Two scopes conflict exactly when some file lies in both, up to one
    trailing slash each; conflict is symmetric. *)
Theorem scopesOverlap_iff a b :
  (scopesOverlap a b = true <-> exists file, covers a file /\ covers b file) /\
  scopesOverlap a b = scopesOverlap b a.
Proof.
  assert (H : forall a b, scopesOverlap a b = true <-> exists file, covers a file /\ covers b file).
  { clear. intros a b. unfold scopesOverlap, covers.
    destruct (String.eqb_spec (norm a) (norm b)) as [->|Hne]; [split; [eauto|done]|].
    rewrite orb_true_iff, !startsWith_dir. split.
    - intros [[r Hr]|[r Hr]]; [exists (norm a)|exists (norm b)]; eauto.
    - intros (f & [->|[r1 ->]] & [H2|[r2 H2]]); [done|eauto|eauto|].
      apply common_path in H2 as [?|[?|?]]; auto. done. }
  split; [apply H|]. apply eq_true_iff_eq. rewrite !H. naive_solver.
Qed.

Example scope_dir_conflicts_with_file : scopesOverlap "src/" "src/foo.ts" = true.
Proof. reflexivity. Qed.
Example scope_sibling_prefix_is_free : scopesOverlap "src/foo" "src/foobar.ts" = false.
Proof. reflexivity. Qed.

(** ** Failure propagation *)

Inductive doomed (tasks : list Task) (failedIds : gset string) : string -> Prop :=
| doomed_failed i : i ∈ failedIds -> doomed tasks failedIds i
| doomed_dep t d : t ∈ tasks -> d ∈ task_depends_on t -> doomed tasks failedIds d ->
                   doomed tasks failedIds (task_id t).

Lemma block_pass ts : forall failed out c failed' out' c',
  foldl block_step (failed, out, c) ts = (failed', out', c') ->
  exists new, out' = out ++ new /\ failed' = list_to_set (ids_of new) ∪ failed /\
  (forall t, t ∈ new -> t ∈ ts) /\ NoDup (ids_of new) /\ (forall i, i ∈ ids_of new -> i ∉ failed) /\
  (forall all F, (forall t, t ∈ ts -> t ∈ all) -> (forall i, i ∈ failed -> doomed all F i) ->
     forall i, i ∈ ids_of new -> doomed all F i) /\
  c' = c || negb (bool_decide (new = [])) /\
  (new = [] -> forall t d, t ∈ ts -> task_id t ∉ failed -> d ∈ task_depends_on t -> d ∉ failed).
Proof.
  induction ts as [|t ts IH]; intros failed out c failed' out' c'.
  - simpl. intros [= <- <- <-]. exists []. split_and!; [by rewrite app_nil_r|set_solver|set_solver|constructor|
      set_solver|set_solver|by rewrite orb_false_r|set_solver].
  - simpl foldl. destruct (bool_decide_reflect (task_id t ∈ failed)) as [Hin|Hout].
    + intros H. apply IH in H as (new & -> & -> & H1 & H2 & H3 & H4 & -> & H6). exists new.
      split_and!; [done|done|set_solver|done|done| |done|].
      * intros all F Ha. apply H4. set_solver.
      * intros Hn u d Hu. apply elem_of_cons in Hu as [->|Hu]; [done|]. by apply H6.
    + destruct (js_some _ _) eqn:E.
      * intros H. apply IH in H as (new & -> & -> & H1 & H2 & H3 & H4 & -> & H6). exists (t :: new).
        apply js_some_true in E as (d & Hd & Hf). bool_to_prop.
        split_and!; [by rewrite <- app_assoc|set_solver|set_solver| |set_solver| |by rewrite orb_true_r|done].
        -- apply NoDup_cons. split; [|done]. intros Hc. apply H3 in Hc. set_solver.
        -- intros all F Ha Hfd i Hi.
           assert (Ht : doomed all F (task_id t)) by (apply (doomed_dep _ _ t d); [set_solver|done|auto]).
           apply elem_of_cons in Hi as [->|Hi]; [done|]. apply (H4 all F); [set_solver| |done].
           intros j Hj. apply elem_of_union in Hj as [Hj|Hj]; [|auto]. set_solver.
      * intros H. apply IH in H as (new & -> & -> & H1 & H2 & H3 & H4 & -> & H6). exists new.
        split_and!; [done|done|set_solver|done|done| |done|].
        -- intros all F Ha. apply H4. set_solver.
        -- intros Hn u d Hu Hni Hd. apply elem_of_cons in Hu as [->|Hu]; [|by apply (H6 Hn u)].
           rewrite js_some_false in E. specialize (E d Hd). by bool_to_prop.
Qed.

Record block_inv (tasks : list Task) (F failed : gset string) (out : list Task) : Prop := {
  bi_failed : failed = list_to_set (ids_of out) ∪ F;
  bi_sub : forall t, t ∈ out -> t ∈ tasks;
  bi_nodup : NoDup (ids_of out);
  bi_fresh : forall i, i ∈ ids_of out -> i ∉ F;
  bi_doomed : forall i, i ∈ ids_of out -> doomed tasks F i;
}.

Lemma block_loop_spec tasks F : forall fuel failed out,
  block_inv tasks F failed out -> (length tasks < fuel + length out)%nat ->
  exists out', block_loop fuel tasks failed out = Some out' /\
    exists failed', block_inv tasks F failed' out' /\
    forall t d, t ∈ tasks -> task_id t ∉ failed' -> d ∈ task_depends_on t -> d ∉ failed'.
Proof.
  induction fuel as [|fuel IH]; intros failed out [B1 B2 B3 B4 B5] Hf.
  - exfalso. assert (length out <= length tasks)%nat; [|lia].
    rewrite <- (length_map task_id out), <- (length_map task_id tasks).
    apply NoDup_length_le; [done|]. intros x Hx. apply ids_of_inv in Hx as (t & Ht & <-).
    by apply task_id_elem, B2.
  - simpl. destruct (foldl block_step (failed, out, false) tasks) as [[failed' out'] c] eqn:E.
    apply block_pass in E as (new & -> & -> & H1 & H2 & H3 & H4 & -> & H6).
    assert (Hd : forall i, i ∈ failed -> doomed tasks F i).
    { intros i Hi. rewrite B1 in Hi. apply elem_of_union in Hi as [Hi|Hi]; [|by constructor].
      apply B5. set_solver. }
    assert (Hinv : block_inv tasks F (list_to_set (ids_of new) ∪ failed) (out ++ new)).
    { constructor; unfold ids_of in *; rewrite ?map_app; [set_solver|set_solver| |set_solver|].
      - apply NoDup_app. split_and!; [done| |done]. intros x Hx Hn. apply H3 in Hn. set_solver.
      - intros i Hi. apply elem_of_app in Hi as [Hi|Hi]; [auto|]. by apply (H4 tasks F). }
    simpl. destruct (bool_decide_reflect (new = [])) as [->|Hne]; simpl.
    + exists (out ++ []). split; [done|]. exists (list_to_set (ids_of []) ∪ failed).
      split; [done|]. simpl. rewrite union_empty_l_L. by apply H6.
    + apply IH; [done|]. rewrite length_app. destruct new; [done|]. simpl. lia.
Qed.

(** Failure propagation returns, and returns exactly the tasks that are
    doomed: a task is listed (once) if and only if it did not fail itself and
    transitively depends on a failed id. *)
Theorem blockedByFailure_exact tasks failedIds :
  exists out, blockedByFailure tasks failedIds = Some out /\
    NoDup (ids_of out) /\ (forall t, t ∈ out -> t ∈ tasks) /\
    forall i, i ∈ ids_of out <-> doomed tasks failedIds i /\ i ∉ failedIds.
Proof.
  destruct (block_loop_spec tasks failedIds (length tasks + 1) failedIds []) as
    (out & Ho & failed' & [B1 B2 B3 B4 B5] & Hclosed).
  - constructor; [set_solver|set_solver|constructor|set_solver|set_solver].
  - simpl. lia.
  - exists out. split_and!; [done|done|done|]. intros i. split; [by auto|]. intros [Hd Hn].
    assert (Hall : i ∈ failed').
    { clear Hn. induction Hd as [i Hi|t d Ht Hd _ IH]; [set_solver|].
      destruct (decide (task_id t ∈ failed')); [done|]. by apply (Hclosed t d) in IH. }
    rewrite B1 in Hall. set_solver.
Qed.

Example blocked_chain :
  option_map ids_of (blockedByFailure sample_plan {["a"]}) = Some ["c"; "b"].
Proof. vm_compute. reflexivity. Qed.
