(* ===== verification/WriteDomains.v ===== *)
(** * Write domains (src/orchestration/workset.ts)

    A task declares the parts of a repository it writes as path patterns. This
    file models how the code canonicalises and compares them
    ([canonicalizeWriteDomain], [normalizeDomain], [domainsOverlap],
    [domainWithin]) and relates the comparisons to the sets of paths the patterns
    stand for. Regular expressions anchored at an end are the string tests they
    perform: [/\/$/] removes one final slash, [/\/\*\*$/] one final ["/**"]. *)

From S2P Require Import Prelude.
Local Open Scope string_scope.

Inductive WorksetValidationCode :=
| UNKNOWN_REPOSITORY | MISSING_REPOSITORY_BINDING | WRITE_DOMAIN_OUTSIDE_REPOSITORY | UNCOVERED_ACCEPTANCE
| UNKNOWN_ACCEPTANCE | UNKNOWN_DEPENDENCY | DUPLICATE_TASK_ID | CYCLIC_DEPENDENCY | DECOMPOSITION_REQUIRED
| TASK_BUDGET_EXCEEDED | INVALID_TASK_BUDGET | INVALID_CHECKPOINT_POLICY | INVALID_WRITE_DOMAIN
| CROSS_REPOSITORY_MUTATION_UNSUPPORTED.

#[export] Instance WorksetValidationCode_eq_dec : EqDecision WorksetValidationCode.
Proof. solve_decision. Defined.

(** [WorksetValidationError]: the code, and the task, domain or repository list
    its message is about. *)
Record WorksetValidationError := mkWorksetError { we_code : WorksetValidationCode; we_subject : string }.

#[export] Instance WorksetValidationError_eq_dec : EqDecision WorksetValidationError.
Proof. solve_decision. Defined.

(** ** String operations the code uses *)

(** [s.split(c)] for a one-character separator. *)
Fixpoint js_split (c : ascii) (s : string) : list string :=
  match s with
  | EmptyString => [""]
  | String a s' =>
      if bool_decide (a = c) then "" :: js_split c s'
      else match js_split c s' with
           | [] => [String a ""]
           | w :: ws => String a w :: ws
           end
  end.

(** [s.replaceAll(a, b)] for single characters. *)
Fixpoint replace_char (a b : ascii) (s : string) : string :=
  match s with
  | EmptyString => ""
  | String c s' => String (if bool_decide (c = a) then b else c) (replace_char a b s')
  end.

(** [s.replace(/suf$/, "")]. *)
Fixpoint strip_suffix (suf s : string) : string :=
  if bool_decide (s = suf) then ""
  else match s with
       | EmptyString => ""
       | String c s' => String c (strip_suffix suf s')
       end.

Fixpoint has_char (c : ascii) (s : string) : bool :=
  match s with
  | EmptyString => false
  | String a s' => bool_decide (a = c) || has_char c s'
  end.

Definition slash : ascii := "/".
Definition backslash : ascii := "\".

(** [/^[A-Za-z]:\//.test(s)]. *)
Definition is_letter (c : ascii) : bool :=
  let n := N_of_ascii c in ((65 <=? n) && (n <=? 90) || (97 <=? n) && (n <=? 122))%N.
Definition drive (s : string) : bool :=
  match s with
  | String a s' => is_letter a && js_startsWith s' ":/"
  | EmptyString => false
  end.

(** ** Canonical domains *)

Definition bad_segment (segment : string) : bool := bool_decide (segment = "") || bool_decide (segment = ".") || bool_decide (segment = "..").

Definition canonicalizeWriteDomain (domain : string) : res WorksetValidationError string :=
  let normalized := replace_char backslash slash domain in
  if js_startsWith normalized "/" || drive normalized then Err (mkWorksetError INVALID_WRITE_DOMAIN domain)
  else
    let segments := js_split slash (strip_suffix "/" normalized) in
    if bool_decide (segments = []) || js_some bad_segment segments then Err (mkWorksetError INVALID_WRITE_DOMAIN domain)
    else Ok (js_join "/" segments).

Definition domainSegments (domain : string) : res WorksetValidationError (list string) :=
  let! c := canonicalizeWriteDomain domain in Ok (js_split slash c).

Definition normalizeDomain (d : string) : res WorksetValidationError string :=
  let! c := canonicalizeWriteDomain d in Ok (strip_suffix "/**" c).

(** The comparison of two normalised domains in [domainsOverlap]. *)
Definition overlapping (x y : string) : bool :=
  bool_decide (x = "**") || bool_decide (y = "**") || bool_decide (x = y)
  || js_startsWith x (y +:+ "/") || js_startsWith y (x +:+ "/").

Fixpoint domainsOverlap_inner (rawX : string) (b : list string) : res WorksetValidationError bool :=
  match b with
  | [] => Ok false
  | rawY :: b' =>
      let! x := normalizeDomain rawX in
      let! y := normalizeDomain rawY in
      if overlapping x y then Ok true else domainsOverlap_inner rawX b'
  end.

Fixpoint domainsOverlap (a b : list string) : res WorksetValidationError bool :=
  match a with
  | [] => Ok false
  | rawX :: a' =>
      let! hit := domainsOverlap_inner rawX b in
      if hit : bool then Ok true else domainsOverlap a' b
  end.

(** [prefix.every((segment, index) => target[index] === segment)]. *)
Fixpoint segments_match (prefix target : list string) : bool :=
  match prefix, target with
  | [], _ => true
  | s :: prefix', t :: target' => bool_decide (t = s) && segments_match prefix' target'
  | _ :: _, [] => false
  end.

Definition within_segments (target allowed : list string) : bool :=
  if bool_decide (allowed = ["**"]) then true
  else if bool_decide (target = ["**"]) then false
  else
    let recursive := bool_decide (last allowed = Some "**") in
    let prefix := if recursive then take (length allowed - 1) allowed else allowed in
    if negb recursive && negb (bool_decide (length target = length prefix)) then false
    else if bool_decide (length target < length prefix)%nat then false
    else segments_match prefix target.

Definition domainWithin (requested authorized : string) : res WorksetValidationError bool :=
  let! target := domainSegments requested in
  let! allowed := domainSegments authorized in
  Ok (within_segments target allowed).

(** ** Splitting and joining *)

Lemma js_split_nonempty c s : js_split c s <> [].
Proof. destruct s as [|a s]; simpl; [done|]. repeat case_match; done. Qed.

Lemma js_join_cons sep x l : l <> [] -> js_join sep (x :: l) = x +:+ sep +:+ js_join sep l.
Proof. by destruct l. Qed.

Lemma join_split c s : js_join (String c "") (js_split c s) = s.
Proof.
  induction s as [|a s IH]; [done|]. cbn [js_split]. pose proof (js_split_nonempty c s) as Hne.
  destruct (bool_decide (a = c)) eqn:E; bool_to_prop.
  - subst a. rewrite js_join_cons by done. cbn. by rewrite IH.
  - destruct (js_split c s) as [|w ws]; [done|]. destruct ws as [|w' ws].
    + cbn in *. by rewrite IH.
    + rewrite js_join_cons in IH |- * by done. rewrite <- IH. done.
Qed.

Lemma split_segments c s w : w ∈ js_split c s -> has_char c w = false.
Proof.
  revert w. induction s as [|a s IH]; intros w; cbn [js_split]; [by intros ->%list_elem_of_singleton|].
  destruct (bool_decide (a = c)) eqn:E; bool_to_prop.
  - intros [->|Hw]%elem_of_cons; [done|by apply IH].
  - destruct (js_split c s) as [|v vs]; [intros ->%list_elem_of_singleton|intros [->|Hw]%elem_of_cons].
    + cbn. by rewrite bool_decide_eq_false_2.
    + cbn. rewrite bool_decide_eq_false_2 by done. apply IH. by left.
    + apply IH. by right.
Qed.

Lemma split_plain c w : has_char c w = false -> js_split c w = [w].
Proof.
  induction w as [|a w IH]; cbn; [done|]. intros [Ha Hw]%orb_false_iff. rewrite Ha. by rewrite IH.
Qed.

Lemma split_app c w s : has_char c w = false -> js_split c (w +:+ String c s) = w :: js_split c s.
Proof.
  induction w as [|a w IH].
  - intros _. change ("" +:+ String c s) with (String c s). cbn [js_split]. by rewrite bool_decide_eq_true_2.
  - cbn [has_char]. intros [Ha Hw]%orb_false_iff. change (String a w +:+ String c s) with (String a (w +:+ String c s)).
    cbn [js_split]. rewrite Ha, IH by done. done.
Qed.

Lemma split_join c l : l <> [] -> Forall (fun w => has_char c w = false) l -> js_split c (js_join (String c "") l) = l.
Proof.
  induction l as [|w l IH]; [done|]. intros _ [Hw Hl]%Forall_cons. destruct l as [|w' l]; [by apply split_plain|].
  rewrite js_join_cons by done. change (String c "" +:+ js_join (String c "") (w' :: l)) with (String c (js_join (String c "") (w' :: l))).
  rewrite split_app by done. by rewrite IH.
Qed.

Lemma split_append c t r : js_split c (t +:+ String c r) = (js_split c t ++ js_split c r)%list.
Proof.
  induction t as [|a t IH].
  - change ("" +:+ String c r) with (String c r). cbn [js_split]. by rewrite bool_decide_eq_true_2.
  - change (String a t +:+ String c r) with (String a (t +:+ String c r)). cbn [js_split].
    rewrite IH. pose proof (js_split_nonempty c t). destruct (js_split c t); [done|]. by case_match.
Qed.

Lemma join_app c l1 l2 :
  l1 <> [] -> l2 <> [] -> js_join (String c "") (l1 ++ l2)%list = js_join (String c "") l1 +:+ String c (js_join (String c "") l2).
Proof.
  intros H1 H2. induction l1 as [|w l1 IH]; [done|]. destruct l1 as [|w' l1].
  - cbn [app]. by rewrite js_join_cons.
  - change ((w :: w' :: l1) ++ l2)%list with (w :: ((w' :: l1) ++ l2))%list. rewrite !(js_join_cons _ w) by done.
    rewrite IH by done. by rewrite !string_app_assoc.
Qed.

(** [x.startsWith(`${y}/`)] says that [y]'s segments are a proper prefix of [x]'s. *)
Lemma startsWith_segments x y :
  js_startsWith x (y +:+ "/") = true <-> exists l, l <> [] /\ js_split slash x = (js_split slash y ++ l)%list.
Proof.
  rewrite js_startsWith_true. split.
  - intros [r ->]. exists (js_split slash r). split; [apply js_split_nonempty|].
    rewrite string_app_assoc. apply split_append.
  - intros (l & Hne & Hl). exists (js_join "/" l). rewrite string_app_assoc.
    rewrite <- (join_split slash x), Hl. pose proof (js_split_nonempty slash y).
    rewrite (join_app slash) by done. by rewrite (join_split slash y).
Qed.

(** ** Stripping suffixes *)

Lemma strip_suffix_app suf p : suf <> "" -> strip_suffix suf (p +:+ suf) = p.
Proof.
  intros Hne. induction p as [|a p IH].
  - change ("" +:+ suf) with suf. destruct suf; [done|]. cbn [strip_suffix]. by rewrite bool_decide_eq_true_2.
  - change (String a p +:+ suf) with (String a (p +:+ suf)). cbn [strip_suffix]. rewrite IH, bool_decide_eq_false_2; [done|].
    intros E. apply (f_equal String.length) in E. cbn in E. rewrite string_length_app in E. lia.
Qed.

Lemma strip_suffix_spec suf s : s = strip_suffix suf s +:+ suf \/ strip_suffix suf s = s /\ forall p, s <> p +:+ suf.
Proof.
  induction s as [|a s IH]; cbn [strip_suffix].
  - case_bool_decide as E; [left; by rewrite <- E|right]. split; [done|]. intros [|? ?] Hp; [by apply E|done].
  - case_bool_decide as E; [left; by rewrite <- E|]. destruct IH as [IH|[IH Hn]].
    + left. rewrite IH at 1. done.
    + right. rewrite IH. split; [done|]. intros [|b p] Hp; [by apply E|]. injection Hp as -> Hp. by apply (Hn p).
Qed.

Lemma has_char_app c s t : has_char c (s +:+ t) = has_char c s || has_char c t.
Proof.
  induction s as [|a s IH]; [done|]. change (String a s +:+ t) with (String a (s +:+ t)). cbn [has_char].
  by rewrite IH, orb_assoc.
Qed.

Lemma replace_char_gone a b s : a <> b -> has_char a (replace_char a b s) = false.
Proof. intros Hab. induction s as [|c s IH]; cbn; [done|]. rewrite IH, orb_false_r. apply bool_decide_eq_false. by case_bool_decide; [intros ->|]. Qed.

Lemma replace_char_id a b s : has_char a s = false -> replace_char a b s = s.
Proof. induction s as [|c s IH]; cbn; [done|]. intros [Hc Hs]%orb_false_iff. by rewrite Hc, IH. Qed.

Lemma startsWith_extend s t p : js_startsWith s p = true -> js_startsWith (s +:+ t) p = true.
Proof. rewrite !js_startsWith_true. intros [r ->]. exists (r +:+ t). by rewrite string_app_assoc. Qed.

Lemma drive_app s t : drive s = true -> drive (s +:+ t) = true.
Proof.
  destruct s as [|a s]; [done|]. change (String a s +:+ t) with (String a (s +:+ t)). cbn [drive].
  intros [-> H]%andb_true_iff. by apply startsWith_extend.
Qed.

(** ** Canonical domains *)

(** A canonical domain: repository-relative, in plain segments. *)
Definition canonical (c : string) : Prop :=
  has_char backslash c = false /\ js_startsWith c "/" = false /\ drive c = false /\
  Forall (fun w => bad_segment w = false) (js_split slash c).

Lemma canonicalize_canonical d c : canonicalizeWriteDomain d = Ok c -> canonical c.
Proof.
  unfold canonicalizeWriteDomain. set (n := replace_char backslash slash d).
  destruct (js_startsWith n "/" || drive n) eqn:E1; [done|]. apply orb_false_iff in E1 as [E1 E2].
  case_match eqn:E3; [done|]. apply orb_false_iff in E3 as [_ E3].
  intros [= <-]. rewrite (join_split slash).
  assert (Hn : has_char backslash n = false) by by apply replace_char_gone.
  set (c := strip_suffix "/" n) in *.
  assert (Hpre : exists t, n = c +:+ t).
  { destruct (strip_suffix_spec "/" n) as [H|[H _]]; [by exists "/"|]. exists "". unfold c. rewrite H. clear.
    induction n as [|a n IH]; [done|]. change (String a n +:+ "") with (String a (n +:+ "")). by rewrite <- IH. }
  destruct Hpre as [t Ht]. rewrite Ht in Hn, E1, E2. rewrite has_char_app in Hn. apply orb_false_iff in Hn as [Hn _].
  split_and!; [done| | |].
  - destruct (js_startsWith c "/") eqn:E; [|done]. by rewrite (startsWith_extend c t) in E1.
  - destruct (drive c) eqn:E; [|done]. by rewrite (drive_app c t) in E2.
  - rewrite Forall_forall. intros w Hw. rewrite js_some_false in E3. by apply E3.
Qed.

Lemma canonical_last c p : canonical c -> c <> p +:+ "/".
Proof.
  intros (_ & _ & _ & H) ->. rewrite split_append in H. apply Forall_app in H as [_ H].
  by apply Forall_cons in H as [H _].
Qed.

Lemma canonical_canonicalize c : canonical c -> canonicalizeWriteDomain c = Ok c.
Proof.
  intros Hc. pose proof Hc as (Hb & Hs & Hd & Hw). unfold canonicalizeWriteDomain.
  rewrite replace_char_id by done. rewrite Hs, Hd. cbn [orb].
  destruct (strip_suffix_spec "/" c) as [H|[-> _]]; [by eapply canonical_last in H|].
  case_match eqn:E; [|by rewrite (join_split slash)].
  apply orb_true_iff in E as [E|E]; [bool_to_prop; by apply js_split_nonempty in E|].
  apply js_some_true in E as (w & Hin & Hbad). rewrite Forall_forall in Hw. by rewrite Hw in Hbad.
Qed.

(** Canonicalisation is idempotent. *)
Lemma canonicalize_idem d c : canonicalizeWriteDomain d = Ok c -> canonicalizeWriteDomain c = Ok c.
Proof. intros H. by eapply canonical_canonicalize, canonicalize_canonical. Qed.

(** ** Normalised domains in segments *)

Definition normal_segments (segs : list string) : list string :=
  if bool_decide (last segs = Some "**") && bool_decide (1 < length segs)%nat then take (length segs - 1) segs else segs.

Lemma strip_glob c : js_split slash (strip_suffix "/**" c) = normal_segments (js_split slash c).
Proof.
  unfold normal_segments. destruct (strip_suffix_spec "/**" c) as [H|[H Hn]].
  - set (p := strip_suffix "/**" c) in *. clearbody p. subst c. change "/**" with (String slash "**").
    rewrite split_append. change (js_split slash "**") with ["**"].
    rewrite last_snoc, length_app. cbn [length]. pose proof (js_split_nonempty slash p) as Hne.
    rewrite bool_decide_eq_true_2 by done. rewrite bool_decide_eq_true_2 by (destruct (js_split _ _); [done|simpl; lia]).
    cbn [andb]. rewrite take_app_length'; [done|lia].
  - rewrite H. destruct (bool_decide (last (js_split slash c) = Some "**")) eqn:E1; [|done].
    destruct (bool_decide (1 < length (js_split slash c))%nat) eqn:E2; [|done]. exfalso. bool_to_prop.
    apply last_Some in E1 as [l Hl]. rewrite Hl, length_app in E2. cbn [length] in E2.
    assert (l <> []) by (destruct l; [simpl in E2; lia|done]).
    apply (Hn (js_join "/" l)). rewrite <- (join_split slash c), Hl. by rewrite (join_app slash).
Qed.

(** ** Overlap *)

(** The paths (as lists of segments) a domain stands for when conflicts are
    judged: a domain covers everything below it. *)
Definition covers (d : string) (path : list string) : Prop :=
  exists n, normalizeDomain d = Ok n /\ (n = "**" \/ js_split slash n `prefix_of` path).

Definition valid_domain (d : string) : Prop := is_ok (canonicalizeWriteDomain d) = true.

Lemma normalize_valid d : valid_domain d -> exists n, normalizeDomain d = Ok n.
Proof. unfold valid_domain, normalizeDomain. destruct (canonicalizeWriteDomain d); [eauto|done]. Qed.

Lemma prefix_comparable {A} (l1 l2 : list A) :
  (exists k, l1 `prefix_of` k /\ l2 `prefix_of` k) <-> l1 `prefix_of` l2 \/ l2 `prefix_of` l1.
Proof.
  split.
  - intros (k & H1 & H2). by eapply prefix_weak_total.
  - intros [H|H]; eauto.
Qed.

Lemma prefix_cases {A} (l1 l2 : list A) : l1 `prefix_of` l2 <-> l1 = l2 \/ exists l, l <> [] /\ l2 = (l1 ++ l)%list.
Proof.
  split.
  - intros [[|x l] ->]; [left; by rewrite app_nil_r|right]. by exists (x :: l).
  - intros [->|(l & _ & ->)]; [done|by apply prefix_app_r].
Qed.

Lemma overlapping_true x y :
  overlapping x y = true <-> exists path, (x = "**" \/ js_split slash x `prefix_of` path) /\ (y = "**" \/ js_split slash y `prefix_of` path).
Proof.
  unfold overlapping. rewrite !orb_true_iff, !bool_decide_eq_true, !startsWith_segments.
  destruct (decide (x = "**")) as [Hx|Hx]; [split; [exists (js_split slash y); auto|tauto]|].
  destruct (decide (y = "**")) as [Hy|Hy]; [split; [exists (js_split slash x); auto|tauto]|].
  transitivity (js_split slash x `prefix_of` js_split slash y \/ js_split slash y `prefix_of` js_split slash x).
  - rewrite !prefix_cases. split; [|intros [[H|H]|[H|H]]; auto].
    + intros [[[[H|H]|H]|H]|H]; [done|done|subst; auto|auto|auto].
    + do 2 left. right. by rewrite <- (join_split slash x), <- (join_split slash y), H.
    + do 2 left. right. by rewrite <- (join_split slash x), <- (join_split slash y), H.
  - rewrite <- prefix_comparable. naive_solver.
Qed.

Lemma domainsOverlap_inner_ok x b :
  valid_domain x -> Forall valid_domain b ->
  exists hit, domainsOverlap_inner x b = Ok hit /\
    (hit = true <-> exists y path, y ∈ b /\ covers x path /\ covers y path).
Proof.
  intros Hx. destruct (normalize_valid x Hx) as [nx Ex]. induction b as [|y b IH]; intros Hb.
  - exists false. split; [done|]. split; [done|]. by intros (y & p & Hy%elem_of_nil & _).
  - apply Forall_cons in Hb as [Hy Hb]. destruct (normalize_valid y Hy) as [ny Ey]. destruct (IH Hb) as (hit & Eh & Hh).
    cbn [domainsOverlap_inner]. rewrite Ex, Ey. cbn [res_bind].
    assert (Hxy : overlapping nx ny = true <-> exists path, covers x path /\ covers y path).
    { rewrite overlapping_true. unfold covers. rewrite Ex, Ey. split.
      - intros (p & H1 & H2). exists p. split; [by exists nx|by exists ny].
      - intros (p & (n1 & [= <-] & H1) & (n2 & [= <-] & H2)). by exists p. }
    destruct (overlapping nx ny) eqn:E.
    + exists true. split; [done|]. split; [|done]. intros _. destruct Hxy as [Hxy _]. destruct (Hxy eq_refl) as (p & ? & ?).
      exists y, p. split; [by left|done].
    + exists hit. split; [done|]. rewrite Hh. split.
      * intros (y' & p & Hy' & H). exists y', p. split; [by right|done].
      * intros (y' & p & [->|Hy']%elem_of_cons & H1 & H2); [|eauto]. destruct Hxy as [_ Hxy]. discriminate Hxy; eauto.
Qed.

(** Two lists of well-formed write domains are reported to overlap exactly
    when some path is covered by a domain of each: a domain covers the paths below
    it, and "**" everything. No conflict between writers is missed and none is
    invented. *)
Theorem domainsOverlap_iff a b :
  Forall valid_domain a -> Forall valid_domain b ->
  exists hit, domainsOverlap a b = Ok hit /\
    (hit = true <-> exists x y path, x ∈ a /\ y ∈ b /\ covers x path /\ covers y path).
Proof.
  intros Ha Hb. induction a as [|x a IH].
  - exists false. split; [done|]. split; [done|]. by intros (x & y & p & Hx%elem_of_nil & _).
  - apply Forall_cons in Ha as [Hx Ha]. destruct (IH Ha) as (hit & Eh & Hh).
    destruct (domainsOverlap_inner_ok x b Hx Hb) as (h1 & E1 & H1). cbn [domainsOverlap]. rewrite E1. cbn [res_bind].
    destruct h1.
    + exists true. split; [done|]. split; [|done]. intros _. destruct H1 as [H1 _]. destruct (H1 eq_refl) as (y & p & ? & ?).
      exists x, y, p. split; [by left|done].
    + exists hit. split; [done|]. rewrite Hh. split.
      * intros (x' & y' & p & Hx' & H). exists x', y', p. split; [by right|done].
      * intros (x' & y' & p & [->|Hx']%elem_of_cons & H); [|by exists x', y', p]. destruct H1 as [_ H1]. discriminate H1. eauto.
Qed.

Lemma domainsOverlap_iff_witness :
  exists hit, domainsOverlap ["docs"; "src/a/**"] ["src\a\b"] = Ok hit /\
    (hit = true <-> exists x y path, x ∈ ["docs"; "src/a/**"] /\ y ∈ ["src\a\b"] /\ covers x path /\ covers y path).
Proof. apply (domainsOverlap_iff ["docs"; "src/a/**"] ["src\a\b"]); repeat constructor. Defined.

(** ** Authorisation *)

(** The paths a declared domain names: with a final ["**"] everything below its
    stem, otherwise that one path. *)
Definition open_ended (segs : list string) : bool := bool_decide (last segs = Some "**").
Definition stem (segs : list string) : list string := if open_ended segs then take (length segs - 1) segs else segs.
Definition names (segs path : list string) : Prop :=
  if open_ended segs then stem segs `prefix_of` path else path = segs.

(** The wildcard is used only at the end, as the planner is told to. *)
Definition plain_domain (segs : list string) : Prop := "**" ∉ take (length segs - 1) segs.

Lemma segments_match_prefix p t : segments_match p t = true <-> p `prefix_of` t.
Proof.
  revert t. induction p as [|s p IH]; intros t; cbn [segments_match]; [split; [intros _; apply prefix_nil|done]|].
  destruct t as [|x t]; [split; [done|by intros ?%prefix_nil_not]|].
  rewrite andb_true_iff, bool_decide_eq_true, IH. split.
  - intros [-> H]. by apply prefix_cons.
  - intros H. split; [symmetry; by eapply prefix_cons_inv_1|by eapply prefix_cons_inv_2].
Qed.

Lemma open_snoc segs : open_ended segs = true -> segs = (stem segs ++ ["**"])%list.
Proof.
  intros H. unfold stem. rewrite H. unfold open_ended in H. bool_to_prop. apply last_Some in H as [l ->].
  rewrite length_app. cbn [length]. rewrite take_app_length'; [done|lia].
Qed.

Lemma within_segments_reduce target allowed :
  allowed <> ["**"] -> target <> ["**"] ->
  within_segments target allowed =
    if open_ended allowed then segments_match (stem allowed) target else bool_decide (target = allowed).
Proof.
  intros Ha Ht. unfold within_segments, stem. rewrite (bool_decide_eq_false_2 _ Ha), (bool_decide_eq_false_2 _ Ht).
  fold (open_ended allowed). destruct (open_ended allowed) eqn:E; cbn [negb andb].
  - case_bool_decide as Hlen; [|done]. symmetry. apply not_true_is_false. intros H%segments_match_prefix.
    apply prefix_length in H. lia.
  - case_bool_decide as Hlen; cbn [negb].
    + rewrite bool_decide_eq_false_2 by lia. apply Bool.eq_iff_eq_true. rewrite segments_match_prefix, bool_decide_eq_true.
      split; [|by intros ->]. intros [l ->]. rewrite length_app in Hlen. destruct l; [by rewrite app_nil_r|simpl in Hlen; lia].
    + symmetry. apply bool_decide_eq_false. by intros ->.
Qed.

(** Two different paths are named by an open-ended domain. *)
Lemma names_open_two segs path :
  open_ended segs = true -> (forall p, p <> [] -> names segs p -> p = path) -> False.
Proof.
  intros Ho H. unfold names in H. rewrite Ho in H.
  pose proof (H (stem segs ++ ["a"])%list ltac:(by destruct (stem segs)) ltac:(by apply prefix_app_r)) as H1.
  pose proof (H (stem segs ++ ["b"])%list ltac:(by destruct (stem segs)) ltac:(by apply prefix_app_r)) as H2.
  rewrite <- H2 in H1. by apply app_inj_tail in H1 as [_ ?].
Qed.

Lemma within_segments_iff target allowed :
  target <> [] -> allowed <> [] -> plain_domain allowed ->
  within_segments target allowed = true <-> (forall path, path <> [] -> names target path -> names allowed path).
Proof.
  intros Ht Ha Hplain. destruct (decide (allowed = ["**"])) as [->|Ha'].
  { split; [|by unfold within_segments]. intros _ path _ _. cbn. apply prefix_nil. }
  destruct (decide (target = ["**"])) as [->|Ht'].
  { assert (Hw : within_segments ["**"] allowed = false) by (unfold within_segments; by rewrite (bool_decide_eq_false_2 _ Ha')).
    rewrite Hw. split; [done|]. intros H. exfalso.
    destruct (open_ended allowed) eqn:Eo.
    - pose proof (open_snoc _ Eo) as Es. destruct (stem allowed) as [|h l] eqn:El; [done|].
      specialize (H [h +:+ "x"] ltac:(done) ltac:(apply prefix_nil)). unfold names in H. rewrite Eo, El in H.
      apply prefix_cons_inv_1 in H. apply (f_equal String.length) in H. rewrite string_length_app in H. simpl in H. lia.
    - apply (names_open_two ["**"] allowed); [done|]. intros p Hp Hn. specialize (H p Hp Hn). unfold names in H. by rewrite Eo in H. }
  rewrite within_segments_reduce by done. destruct (open_ended allowed) eqn:Eo.
  - rewrite segments_match_prefix. destruct (open_ended target) eqn:Et.
    + pose proof (open_snoc _ Et) as Es. assert (Hne : stem target <> []) by (intros E; rewrite E in Es; done).
      transitivity (stem allowed `prefix_of` stem target).
      * split; [|intros H; rewrite Es; by apply prefix_app_r].
        rewrite Es at 1. intros [l Hl]. destruct (decide (l = [])) as [->|Hnl].
        { exfalso. apply Hplain. rewrite app_nil_r in Hl. unfold stem in Hl at 2. rewrite Eo in Hl.
          rewrite <- Hl. apply elem_of_app. right. by left. }
        destruct (exists_last Hnl) as (l' & x & ->). rewrite app_assoc in Hl. apply app_inj_tail in Hl as [-> _].
        by apply prefix_app_r.
      * split.
        -- intros H path _. unfold names. rewrite Et, Eo. by intros Hp; etrans.
        -- intros H. specialize (H (stem target) Hne). unfold names in H. rewrite Et, Eo in H. by apply H.
    + split.
      * intros H path _. unfold names. rewrite Et, Eo. by intros ->.
      * intros H. specialize (H target Ht). unfold names in H. rewrite Et, Eo in H. by apply H.
  - rewrite bool_decide_eq_true. split; [intros ->; by auto|]. intros H. destruct (open_ended target) eqn:Et.
    + exfalso. apply (names_open_two target allowed); [done|]. intros p Hp Hn. specialize (H p Hp Hn).
      unfold names in H. by rewrite Eo in H.
    + specialize (H target Ht). unfold names in H. rewrite Et, Eo in H. by apply H.
Qed.

Lemma domainSegments_ok d segs : domainSegments d = Ok segs -> segs <> [] /\ Forall (fun w => bad_segment w = false) segs.
Proof.
  unfold domainSegments. destruct (canonicalizeWriteDomain d) as [c|e] eqn:E; [|done]. intros [= <-].
  split; [apply js_split_nonempty|]. by destruct (canonicalize_canonical d c E) as (_ & _ & _ & ?).
Qed.

(** A requested write domain is within an authorised one (whose wildcard, if
    any, is at the end) exactly when every path it names is named by the authorised
    one: the check neither lets a task write outside its repository's domains nor
    refuses a contained request. *)
Theorem domainWithin_iff requested authorized target allowed :
  domainSegments requested = Ok target -> domainSegments authorized = Ok allowed -> plain_domain allowed ->
  domainWithin requested authorized = Ok true <-> (forall path, path <> [] -> names target path -> names allowed path).
Proof.
  intros Et Ea Hp. destruct (domainSegments_ok _ _ Et) as [Ht _], (domainSegments_ok _ _ Ea) as [Ha _].
  unfold domainWithin. rewrite Et, Ea. cbn [res_bind]. rewrite <- within_segments_iff by done.
  split; [by intros [= ->]|by intros ->].
Qed.

Lemma domainWithin_iff_witness :
  domainWithin "src/a/b" "src/a/**" = Ok true <->
  (forall path, path <> [] -> names ["src"; "a"; "b"] path -> names ["src"; "a"; "**"] path).
Proof. apply domainWithin_iff; [reflexivity|reflexivity|]. unfold plain_domain. apply (bool_decide_unpack _). vm_compute. exact I. Defined.
