(* ===== verification/Workset.v ===== *)
(** * Planner worksets (src/orchestration/workset.ts)

    The tasks a planner proposes are validated as a whole before any of them is
    dispatched, and tasks with too many deliverables are split into chained parts.
    [assertAcyclic] is the depth-first search of the code, with fuel for its
    recursion; numbers that may be fractional or non-finite are [Num]. The texts
    of errors are reduced to what they name. *)

From Stdlib Require Import QArith.
From S2P Require Import Prelude JsMap WriteDomains.
#[local] Open Scope Z_scope.
#[local] Open Scope string_scope.

(** A JavaScript number: finite, or one of NaN and the infinities. *)
Inductive Num := Fin (q : Q) | NonFinite.

Definition isFinite (n : Num) : bool := match n with Fin _ => true | NonFinite => false end.
Definition isInteger (n : Num) : bool := match n with Fin q => bool_decide (Qden (Qred q) = 1%positive) | NonFinite => false end.
Definition leq (a b : Num) : bool := match a, b with Fin x, Fin y => Qle_bool x y | _, _ => false end.
Definition zero : Num := Fin 0.

Inductive TaskKind := agent | process | review | integration | validation | approval | aggregation | research.

#[export] Instance TaskKind_eq_dec : EqDecision TaskKind.
Proof. solve_decision. Defined.

Record CheckpointPolicy := mkCheckpointPolicy { activity_milestone : Num; before_deadline_ms : Num }.

Record WorksetTask := mkWorksetTask {
  task_id : string;
  kind : TaskKind;
  repo_id : option string;
  depends_on : list string;
  mutates_repo : bool;
  write_domains : list string;
  acceptance_ids : option (list string);
  deliverables : option (list string);
  execution_budget_ms : option Num;
  checkpoint_policy : option CheckpointPolicy;
  objective : option string;
}.

Record WorksetPolicy := mkWorksetPolicy { maxDeliverablesPerTask : Z; maxTaskBudgetMs : option Num }.
Definition DEFAULT_WORKSET_POLICY : WorksetPolicy := mkWorksetPolicy 4 None.

(** The part of [WorkspaceManifest] a workset is validated against. *)
Record Repository := mkRepository { repoId : string; writableDomains : list string }.

Record ValidateWorksetInput := mkValidateWorksetInput {
  repositories : list Repository;
  acceptanceIds : list string;
  tasks : list WorksetTask;
  policy : WorksetPolicy;
}.

Notation result := (res WorksetValidationError).

Definition throw_if (b : bool) (code : WorksetValidationCode) (subject : string) : result unit :=
  if b then Err (mkWorksetError code subject) else Ok tt.

(** ** Sets with insertion order *)
Definition set_add (x : string) (s : list string) : list string := if js_includes x s then s else (s ++ [x])%list.
Definition set_delete (x : string) (s : list string) : list string := filter (fun y => y <> x) s.

(** ** [assertAcyclic] *)

Definition index_tasks (ts : list WorksetTask) : jsmap string WorksetTask :=
  foldl (fun m t => map_set (task_id t) t m) [] ts.

Definition Search : Type := list string * list string.

Section Visit.
Context (byId : jsmap string WorksetTask).

Fixpoint visit_deps (visit : string -> Search -> option (result Search)) (taskId : string) (deps : list string) (st : Search)
    : option (result Search) :=
  match deps with
  | [] => Some (Ok st)
  | dependency :: deps' =>
      if negb (map_has dependency byId) then Some (Err (mkWorksetError UNKNOWN_DEPENDENCY taskId))
      else match visit dependency st with
           | Some (Ok st') => visit_deps visit taskId deps' st'
           | other => other
           end
  end.

Fixpoint visit (fuel : nat) (taskId : string) (st : Search) : option (result Search) :=
  match fuel with
  | O => None
  | S fuel' =>
      let '(visiting, visited) := st in
      if js_includes taskId visiting then Some (Err (mkWorksetError CYCLIC_DEPENDENCY taskId))
      else if js_includes taskId visited then Some (Ok st)
      else match map_get taskId byId with
           | None => Some (Ok st)
           | Some task =>
               match visit_deps (visit fuel') taskId (depends_on task) (set_add taskId visiting, visited) with
               | Some (Ok (visiting', visited')) => Some (Ok (set_delete taskId visiting', set_add taskId visited'))
               | other => other
               end
           end
  end.

Fixpoint visit_tasks (fuel : nat) (ids : list string) (st : Search) : option (result Search) :=
  match ids with
  | [] => Some (Ok st)
  | id :: ids' =>
      match visit fuel id st with
      | Some (Ok st') => visit_tasks fuel ids' st'
      | other => other
      end
  end.
End Visit.

(** The recursion is never deeper than the number of tasks plus one. *)
Definition search (ts : list WorksetTask) : option (result Search) :=
  visit_tasks (index_tasks ts) (S (length ts)) (map task_id ts) ([], []).

Definition assertAcyclic (ts : list WorksetTask) : result unit :=
  match search ts with
  | Some (Ok _) | None => Ok tt
  | Some (Err e) => Err e
  end.

(** ** [validateWorkset] *)

Fixpoint check_unique (ids seen : list string) : result unit :=
  match ids with
  | [] => Ok tt
  | id :: ids' => if js_includes id seen then Err (mkWorksetError DUPLICATE_TASK_ID id) else check_unique ids' (set_add id seen)
  end.

Fixpoint canonical_domains (ds : list string) : result (list string) :=
  match ds with
  | [] => Ok []
  | d :: ds' => let! c := canonicalizeWriteDomain d in let! cs := canonical_domains ds' in Ok (c :: cs)
  end.

Definition with_domains (t : WorksetTask) (ds : list string) : WorksetTask :=
  mkWorksetTask (task_id t) (kind t) (repo_id t) (depends_on t) (mutates_repo t) ds (acceptance_ids t) (deliverables t)
    (execution_budget_ms t) (checkpoint_policy t) (objective t).

Fixpoint canonical_tasks (ts : list WorksetTask) : result (list WorksetTask) :=
  match ts with
  | [] => Ok []
  | t :: ts' => let! ds := canonical_domains (write_domains t) in let! rest := canonical_tasks ts' in Ok (with_domains t ds :: rest)
  end.

(** [task.repo_id] where it is truthy. *)
Definition bound_repo (t : WorksetTask) : option string :=
  match repo_id t with Some r => if truthy r then Some r else None | None => None end.

Definition mutatingRepositories (ts : list WorksetTask) : list string :=
  js_dedup (concat (map (fun t => match bound_repo t with Some r => [r] | None => [] end) (js_filter mutates_repo ts))).

(** [writableDomains.some(authorized => domainWithin(domain, authorized))]. *)
Fixpoint some_within (domain : string) (authorized : list string) : result bool :=
  match authorized with
  | [] => Ok false
  | a :: rest => let! hit := domainWithin domain a in if hit : bool then Ok true else some_within domain rest
  end.

(** [write_domains.some(domain => !writableDomains.some(...))]. *)
Fixpoint some_outside (domains authorized : list string) : result bool :=
  match domains with
  | [] => Ok false
  | d :: rest => let! inside := some_within d authorized in if inside : bool then some_outside rest authorized else Ok true
  end.

Definition index_repositories (rs : list Repository) : jsmap string Repository :=
  foldl (fun m r => map_set (repoId r) r m) [] rs.

Definition deliverable_count (t : WorksetTask) : Z := js_len (nullish (deliverables t) []).

Definition bad_checkpoint (t : WorksetTask) : bool :=
  match checkpoint_policy t with
  | None => true
  | Some p =>
      negb (isInteger (activity_milestone p)) || leq (activity_milestone p) zero
      || negb (isFinite (before_deadline_ms p)) || leq (before_deadline_ms p) zero
      || match execution_budget_ms t with Some budget => leq budget (before_deadline_ms p) | None => false end
  end.

Fixpoint check_acceptance (known ids : list string) (t : WorksetTask) : result unit :=
  match ids with
  | [] => Ok tt
  | a :: ids' => if js_includes a known then check_acceptance known ids' t else Err (mkWorksetError UNKNOWN_ACCEPTANCE a)
  end.

Definition check_task (input : ValidateWorksetInput) (t : WorksetTask) : result unit :=
  let repos := index_repositories (repositories input) in
  let pol := policy input in
  let! _ := throw_if (bool_decide (kind t = aggregation) && mutates_repo t) CROSS_REPOSITORY_MUTATION_UNSUPPORTED (task_id t) in
  let! _ := throw_if (negb (bool_decide (kind t = aggregation)) && bool_decide (bound_repo t = None)) MISSING_REPOSITORY_BINDING (task_id t) in
  let! _ := throw_if (match bound_repo t with Some r => negb (map_has r repos) | None => false end) UNKNOWN_REPOSITORY (task_id t) in
  let! _ := throw_if ((1 <? js_len (repositories input))%Z && mutates_repo t && js_includes "**" (write_domains t)) DECOMPOSITION_REQUIRED (task_id t) in
  let! _ := throw_if (maxDeliverablesPerTask pol <? deliverable_count t)%Z DECOMPOSITION_REQUIRED (task_id t) in
  let! _ := throw_if (match execution_budget_ms t with Some b => negb (isFinite b) || leq b zero | None => false end)
              INVALID_TASK_BUDGET (task_id t) in
  let! _ := throw_if (match execution_budget_ms t, maxTaskBudgetMs pol with Some b, Some mx => leq mx b && negb (leq b mx) | _, _ => false end)
              TASK_BUDGET_EXCEEDED (task_id t) in
  let! _ := throw_if (bad_checkpoint t) INVALID_CHECKPOINT_POLICY (task_id t) in
  let! _ := match bound_repo t ≫= fun r => map_get r repos with
            | Some repository =>
                if mutates_repo t then
                  let! outside := some_outside (write_domains t) (writableDomains repository) in
                  throw_if outside WRITE_DOMAIN_OUTSIDE_REPOSITORY (task_id t)
                else Ok tt
            | None => Ok tt
            end in
  check_acceptance (acceptanceIds input) (nullish (acceptance_ids t) []) t.

Fixpoint check_tasks (input : ValidateWorksetInput) (ts : list WorksetTask) : result unit :=
  match ts with
  | [] => Ok tt
  | t :: ts' => let! _ := check_task input t in check_tasks input ts'
  end.

Definition uncovered (ids : list string) (ts : list WorksetTask) : list string :=
  js_filter (fun a => negb (js_includes a (concat (map (fun t => nullish (acceptance_ids t) []) ts)))) ids.

Definition validateWorkset (input : ValidateWorksetInput) : result (list WorksetTask) :=
  let! ts := canonical_tasks (tasks input) in
  let! _ := check_unique (map task_id ts) [] in
  let! _ := assertAcyclic ts in
  let! _ := throw_if (bool_decide (1 < length (mutatingRepositories ts))%nat) CROSS_REPOSITORY_MUTATION_UNSUPPORTED
              (js_join ", " (js_sort (fun a b => negb (String.ltb b a)) (mutatingRepositories ts))) in
  let! _ := check_tasks input ts in
  let! _ := throw_if (negb (bool_decide (uncovered (acceptanceIds input) ts = []))) UNCOVERED_ACCEPTANCE
              (js_join ", " (uncovered (acceptanceIds input) ts)) in
  Ok ts.

(** ** [splitWorksetDeliverables] *)

(** [while (occupied.has(taskId)) taskId = `${baseId}:${collision++}`]. *)
Fixpoint fresh_id (fuel : nat) (occupied : list string) (baseId taskId : string) (collision : Z) : option string :=
  if js_includes taskId occupied then
    match fuel with
    | O => None
    | S fuel' => fresh_id fuel' occupied baseId (baseId +:+ ":" +:+ js_num collision) (collision + 1)%Z
    end
  else Some taskId.

(** Chunks of at most [n] deliverables, in order. *)
Fixpoint chunks (fuel n : nat) (l : list string) : list (list string) :=
  match fuel with
  | O => []
  | S fuel' => match l with [] => [] | _ => take n l :: chunks fuel' n (drop n l) end
  end.

Definition part_of (t : WorksetTask) (taskId : string) (chunk : list string) (previous : option string) : WorksetTask :=
  mkWorksetTask taskId (kind t) (repo_id t) (match previous with Some p => [p] | None => depends_on t end) (mutates_repo t)
    (write_domains t) (acceptance_ids t) (Some chunk) (execution_budget_ms t) (checkpoint_policy t)
    (Some (nullish (objective t) (task_id t) +:+ " [deliverables: " +:+ js_join ", " chunk +:+ "]")).

Fixpoint split_parts (t : WorksetTask) (cs : list (list string)) (part : Z) (previous : option string) (occupied : list string)
    : list WorksetTask * list string :=
  match cs with
  | [] => ([], occupied)
  | chunk :: cs' =>
      let baseId := task_id t +:+ "::part:" +:+ js_num part in
      let taskId := default baseId (fresh_id (length occupied) occupied baseId baseId 1) in
      let '(rest, occupied') := split_parts t cs' (part + 1)%Z (Some taskId) (set_add taskId occupied) in
      (part_of t taskId chunk previous :: rest, occupied')
  end.

Definition split_task (n : nat) (t : WorksetTask) (occupied : list string) : list WorksetTask * list string :=
  let ds := nullish (deliverables t) [] in
  if bool_decide (length ds <= n)%nat then ([t], occupied)
  else split_parts t (chunks (length ds) n ds) 1 None occupied.

Definition last_id (ts : list WorksetTask) (d : string) : string :=
  match last ts with Some t => task_id t | None => d end.

Fixpoint split_tasks (n : nat) (ts : list WorksetTask) (occupied : list string) (final : jsmap string string)
    : list WorksetTask * jsmap string string :=
  match ts with
  | [] => ([], final)
  | t :: ts' =>
      let '(parts, occupied') := split_task n t occupied in
      let '(rest, final') := split_tasks n ts' occupied' (map_set (task_id t) (last_id parts (task_id t)) final) in
      ((parts ++ rest)%list, final')
  end.

Definition with_deps (t : WorksetTask) (deps : list string) : WorksetTask :=
  mkWorksetTask (task_id t) (kind t) (repo_id t) deps (mutates_repo t) (write_domains t) (acceptance_ids t) (deliverables t)
    (execution_budget_ms t) (checkpoint_policy t) (objective t).

Inductive SplitError := bad_limit | duplicate (e : WorksetValidationError).

Definition splitWorksetDeliverables (ts : list WorksetTask) (maxDeliverables : Z)
    : res SplitError (list WorksetTask * jsmap string string) :=
  if (maxDeliverables <=? 0)%Z then Err bad_limit
  else match check_unique (map task_id ts) [] with
       | Err e => Err (duplicate e)
       | Ok _ =>
           let '(split, final) := split_tasks (Z.to_nat maxDeliverables) ts (foldl (fun s t => set_add (task_id t) s) [] ts) [] in
           Ok (map (fun t => with_deps t (map (fun d => nullish (map_get d final) d) (depends_on t))) split, final)
       end.

(** ** The search *)

Section Search.
Context (byId : jsmap string WorksetTask).

Definition dep (u v : string) : Prop := exists t, map_get u byId = Some t /\ v ∈ depends_on t.
Definition known (u : string) : Prop := map_has u byId = true.

(** Every task comes after all its dependencies. *)
Definition topological (order : list string) : Prop :=
  forall l1 x l2, order = (l1 ++ x :: l2)%list -> forall v, dep x v -> v ∈ l1.

Lemma topological_nil : topological [].
Proof. intros [|] x l2; done. Qed.

Lemma topological_snoc order x : topological order -> (forall v, dep x v -> v ∈ order) -> topological (order ++ [x])%list.
Proof.
  intros Ht Hx l1 y l2 Hl. destruct (decide (l2 = [])) as [->|Hne].
  - apply app_inj_tail in Hl as [-> ->]. done.
  - destruct (exists_last Hne) as (l3 & z & ->). change (l1 ++ y :: l3 ++ [z])%list with (l1 ++ (y :: l3) ++ [z])%list in Hl.
    rewrite app_assoc in Hl. apply app_inj_tail in Hl as [-> _]. by eapply Ht.
Qed.

Lemma topological_tc order x y : topological order -> tc dep x y -> forall l1 l2, order = (l1 ++ x :: l2)%list -> y ∈ l1.
Proof.
  intros Ht. induction 1 as [x y Hd|x z y Hd Hzy IH]; intros l1 l2 Hl; [by eapply Ht|].
  pose proof (Ht _ _ _ Hl _ Hd) as Hz. apply list_elem_of_split in Hz as (k1 & k2 & ->).
  rewrite <- app_assoc in Hl. cbn [app] in Hl. specialize (IH _ _ Hl). apply elem_of_app. by left.
Qed.

Lemma topological_acyclic order x : topological order -> NoDup order -> x ∈ order -> ~ tc dep x x.
Proof.
  intros Ht Hnd Hx Hc. apply list_elem_of_split in Hx as (l1 & l2 & ->).
  pose proof (topological_tc _ _ _ Ht Hc l1 l2 eq_refl) as Hin.
  apply NoDup_app in Hnd as (_ & Hdis & _). apply (Hdis x Hin). by left.
Qed.

(** What an error of the search says about the graph. *)
Definition explains (e : WorksetValidationError) : Prop :=
  exists u, (e = mkWorksetError CYCLIC_DEPENDENCY u /\ tc dep u u) \/
            (e = mkWorksetError UNKNOWN_DEPENDENCY u /\ exists v, dep u v /\ ~ known v).

(** A state of the search: the stack has no repetition, the finished tasks are in
    topological order and apart from the stack. *)
Record search_ok (V D : list string) : Prop := {
  so_stack : NoDup V;
  so_stack_known : forall v, v ∈ V -> known v;
  so_done : NoDup D;
  so_done_known : forall v, v ∈ D -> known v;
  so_apart : forall v, v ∈ V -> v ∉ D;
  so_order : topological D;
}.

(** The outcome of visiting from stack [V] and finished tasks [D] so that all of
    [ids] are finished. *)
Definition visited_ok (V D ids : list string) (r : option (result Search)) : Prop :=
  match r with
  | None => False
  | Some (Err e) => explains e
  | Some (Ok (V', D')) => V' = V /\ search_ok V D' /\ D ⊆ D' /\ forall id, id ∈ ids -> known id -> id ∈ D'
  end.

Lemma set_add_fresh x s : x ∉ s -> set_add x s = (s ++ [x])%list.
Proof. intros H. unfold set_add. by rewrite (proj2 (js_includes_false x s) H). Qed.

Lemma set_delete_last x s : x ∉ s -> set_delete x (s ++ [x])%list = s.
Proof.
  intros H. unfold set_delete. rewrite filter_app, filter_cons_False, filter_nil, app_nil_r by naive_solver.
  induction s as [|y s IH]; [done|]. apply not_elem_of_cons in H as [H1 H2]. rewrite filter_cons_True by done. by rewrite IH.
Qed.

Lemma known_length V : NoDup V -> (forall v, v ∈ V -> known v) -> (length V <= map_size byId)%nat.
Proof.
  intros Hnd Hk. unfold map_size. rewrite <- (length_fmap fst byId). apply NoDup_length_le; [done|].
  intros v Hv. specialize (Hk v Hv). destruct (decide (v ∈ map_keys byId)) as [|Hn]; [done|].
  apply map_get_none in Hn. unfold known, map_has in Hk. by rewrite Hn in Hk.
Qed.

Lemma visit_deps_ok visit id deps V D :
  (forall d D', dep id d -> known d -> search_ok V D' -> visited_ok V D' [d] (visit d (V, D'))) ->
  (forall d, d ∈ deps -> dep id d) -> search_ok V D ->
  match visit_deps byId visit id deps (V, D) with
  | None => False
  | Some (Err e) => explains e
  | Some (Ok (V', D')) => V' = V /\ search_ok V D' /\ D ⊆ D' /\ forall d, d ∈ deps -> d ∈ D'
  end.
Proof.
  intros Hv. revert D. induction deps as [|d deps IH]; intros D Hd Hs; cbn [visit_deps].
  - split_and!; try done. by intros d ?%elem_of_nil.
  - destruct (map_has d byId) eqn:Ek; cbn [negb].
    2:{ exists id. right. split; [done|]. exists d. split; [apply Hd; by left|]. unfold known. by rewrite Ek. }
    specialize (Hv d D (Hd d ltac:(by left)) Ek Hs) as Hv1. unfold visited_ok in Hv1.
    destruct (visit d (V, D)) as [[[V1 D1]|e]|]; [|done|done]. destruct Hv1 as (-> & Hs1 & Hsub & Hin).
    specialize (IH D1 ltac:(intros; apply Hd; by right) Hs1).
    destruct (visit_deps byId visit id deps (V, D1)) as [[[V2 D2]|e]|]; [|done|done].
    destruct IH as (-> & Hs2 & Hsub2 & Hall). split_and!; [done|done|set_solver|].
    intros d' [->|H]%elem_of_cons; [|by apply Hall]. apply Hsub2, Hin; [by left|done].
Qed.

Lemma visit_ok fuel id V D :
  (map_size byId < fuel + length V)%nat -> (forall v, v ∈ V -> tc dep v id) -> search_ok V D ->
  visited_ok V D [id] (visit byId fuel id (V, D)).
Proof.
  revert id V D. induction fuel as [|fuel IH]; intros id V D Hf Hst Hs.
  { pose proof (known_length V (so_stack _ _ Hs) (so_stack_known _ _ Hs)). lia. }
  cbn [visit]. destruct (js_includes id V) eqn:EV.
  { apply js_includes_true in EV. exists id. left. split; [done|]. by apply Hst. }
  apply js_includes_false in EV. destruct (js_includes id D) eqn:ED.
  { apply js_includes_true in ED. split_and!; try done. by intros ? ->%list_elem_of_singleton. }
  apply js_includes_false in ED. destruct (map_get id byId) as [t|] eqn:Et.
  2:{ split_and!; try done. intros ? ->%list_elem_of_singleton. unfold known, map_has. by rewrite Et. }
  assert (Hk : known id) by (unfold known, map_has; by rewrite Et).
  assert (Hdep : forall d, d ∈ depends_on t -> dep id d) by (intros d Hd; by exists t).
  destruct Hs as [S1 S2 S3 S4 S5 S6]. rewrite (set_add_fresh id V EV).
  assert (Hs' : search_ok (V ++ [id]) D).
  { split; try done.
    - apply NoDup_app. split_and!; [done|set_solver|apply NoDup_singleton].
    - set_solver.
    - set_solver. }
  opose proof (visit_deps_ok (visit byId fuel) id (depends_on t) (V ++ [id]) D _ Hdep Hs') as Hd.
  { intros d D' Hd' Hkd HsD. apply IH; [rewrite length_app; simpl; lia| |done].
    intros v [Hv| ->%list_elem_of_singleton]%elem_of_app; [|by apply tc_once]. eapply tc_r; [by apply Hst|done]. }
  destruct (visit_deps byId (visit byId fuel) id (depends_on t) ((V ++ [id])%list, D)) as [[[V1 D1]|e]|]; [|done|done].
  destruct Hd as (-> & [T1 T2 T3 T4 T5 T6] & Hsub & Hall).
  assert (Hid : id ∉ D1) by (apply T5; set_solver).
  cbn [visited_ok]. rewrite (set_delete_last id V EV), (set_add_fresh id D1 Hid). split_and!; [done| |set_solver|set_solver].
  split; [done|done| | | |].
  - apply NoDup_app. split_and!; [done|set_solver|apply NoDup_singleton].
  - set_solver.
  - intros v Hv. apply not_elem_of_app. split; [apply T5; set_solver|]. intros ->%list_elem_of_singleton. done.
  - apply topological_snoc; [done|]. intros v (t' & Et' & Hv). simplify_eq. by apply Hall.
Qed.

Lemma visit_tasks_ok fuel ids D :
  (map_size byId < fuel)%nat -> search_ok [] D -> visited_ok [] D ids (visit_tasks byId fuel ids ([], D)).
Proof.
  intros Hf. revert D. induction ids as [|id ids IH]; intros D Hs; cbn [visit_tasks].
  { split_and!; try done. by intros ? ?%elem_of_nil. }
  opose proof (visit_ok fuel id [] D _ _ Hs) as Hv; [simpl; lia|by intros ? ?%elem_of_nil|]. unfold visited_ok in Hv.
  destruct (visit byId fuel id ([], D)) as [[[V1 D1]|e]|]; [|done|done]. destruct Hv as (-> & Hs1 & Hsub & Hin).
  specialize (IH D1 Hs1). unfold visited_ok in *. destruct (visit_tasks byId fuel ids ([], D1)) as [[[V2 D2]|e]|]; [|done|done].
  destruct IH as (-> & Hs2 & Hsub2 & Hall). split_and!; [done|done|set_solver|].
  intros d' [->|H]%elem_of_cons; [|by apply Hall]. intros Hk. apply Hsub2, Hin; [by left|done].
Qed.

(** The graph is closed and has no cycle. *)
Definition well_founded_graph : Prop := (forall u v, dep u v -> known v) /\ forall u, ~ tc dep u u.

Lemma topological_graph order :
  topological order -> NoDup order -> (forall v, v ∈ order <-> known v) -> well_founded_graph.
Proof.
  intros Ht Hnd Hk. assert (Hdk : forall u v, dep u v -> known u).
  { intros u v (t & Et & _). unfold known, map_has. by rewrite Et. }
  split.
  - intros u v Hd. pose proof (proj2 (Hk u) (Hdk u v Hd)) as Hu. apply list_elem_of_split in Hu as (l1 & l2 & ->).
    apply Hk. apply elem_of_app. left. by eapply Ht.
  - intros u Hc. assert (Hu : known u). { inversion Hc; subst; by eapply Hdk. }
    eapply topological_acyclic; [exact Ht|exact Hnd|by apply Hk|exact Hc].
Qed.
End Search.

Lemma index_tasks_get (ts : list WorksetTask) (m : jsmap string WorksetTask) id :
  map_has id (foldl (fun m t => map_set (task_id t) t m) m ts) = true <-> map_has id m = true \/ id ∈ map task_id ts.
Proof.
  revert m. induction ts as [|t ts IH]; intros m; cbn [foldl map]; [set_solver|].
  rewrite IH, elem_of_cons, !map_has_get, map_get_set. case_decide; subst; [|naive_solver]. split; [by auto|]. intros _. left. eauto.
Qed.

Lemma index_tasks_known ts id : known (index_tasks ts) id <-> id ∈ map task_id ts.
Proof. unfold known, index_tasks. rewrite index_tasks_get. split; [by intros [H|H]|by right]. Qed.

Lemma index_tasks_size ts : (map_size (index_tasks ts) <= length ts)%nat.
Proof.
  unfold index_tasks. enough (forall m : jsmap string WorksetTask, (map_size (foldl (fun m t => map_set (task_id t) t m) m ts) <= map_size m + length ts)%nat) by (specialize (H []); simpl in *; lia).
  induction ts as [|t ts IH]; intros m; cbn [foldl length]; [lia|]. specialize (IH (map_set (task_id t) t m)).
  rewrite map_size_set in IH. case_match; lia.
Qed.

Lemma search_spec ts :
  exists r, search ts = Some r /\
    match r with
    | Err e => explains (index_tasks ts) e
    | Ok (_, D) => topological (index_tasks ts) D /\ NoDup D /\ forall v, v ∈ D <-> known (index_tasks ts) v
    end.
Proof.
  pose proof (visit_tasks_ok (index_tasks ts) (S (length ts)) (map task_id ts) []) as Hv.
  ospecialize (Hv _ _); [pose proof (index_tasks_size ts); lia| |].
  { split; try done; try apply NoDup_nil; try done; try (by intros ? ?%elem_of_nil). apply topological_nil. }
  unfold visited_ok, search in *. destruct (visit_tasks _ _ _ _) as [[[V D]|e]|]; [|by exists (Err e)|done].
  destruct Hv as (-> & [_ _ Hnd Hk _ Ho] & _ & Hall). exists (Ok ([], D)). split; [done|]. split_and!; [done|done|].
  intros v. split; [apply Hk|]. intros Hv. apply Hall; [by apply index_tasks_known|done].
Qed.

Lemma assertAcyclic_err ts e : assertAcyclic ts = Err e -> explains (index_tasks ts) e.
Proof.
  destruct (search_spec ts) as (r & Es & Hr). unfold assertAcyclic. rewrite Es. destruct r as [[V D]|e']; [done|]. by intros [= <-].
Qed.

Lemma assertAcyclic_ok ts : assertAcyclic ts = Ok tt <-> well_founded_graph (index_tasks ts).
Proof.
  destruct (search_spec ts) as (r & Es & Hr). unfold assertAcyclic. rewrite Es. destruct r as [[V D]|e].
  - destruct Hr as (Ht & Hnd & Hk). split; [intros _|done]. by eapply topological_graph.
  - split; [done|]. intros [Hclosed Hac]. destruct Hr as (u & [[_ Hc]|(_ & v & Hd & Hn)]); [by apply Hac in Hc|].
    by apply Hclosed in Hd.
Qed.

(** A workset's graph, when accepted, has a topological order of all its tasks. *)
Lemma well_founded_order ts :
  well_founded_graph (index_tasks ts) ->
  exists D, topological (index_tasks ts) D /\ NoDup D /\ forall v, v ∈ D <-> v ∈ map task_id ts.
Proof.
  intros H. apply assertAcyclic_ok in H. destruct (search_spec ts) as (r & Es & Hr). unfold assertAcyclic in H. rewrite Es in H.
  destruct r as [[V D]|e]; [|done]. exists D. destruct Hr as (? & ? & Hk). split_and!; [done|done|].
  intros v. by rewrite Hk, index_tasks_known.
Qed.

(** The depth-first search ends on every workset, accepts exactly the graphs
    whose dependencies are all tasks of the workset and that have no cycle, and
    otherwise names a task that lies on a cycle or depends on an unknown task. *)
Theorem assertAcyclic_exact ts :
  is_Some (search ts) /\
  (assertAcyclic ts = Ok tt <-> (forall u v, dep (index_tasks ts) u v -> v ∈ map task_id ts) /\ forall u, ~ tc (dep (index_tasks ts)) u u) /\
  (forall code u, assertAcyclic ts = Err (mkWorksetError code u) ->
    code = CYCLIC_DEPENDENCY /\ tc (dep (index_tasks ts)) u u \/
    code = UNKNOWN_DEPENDENCY /\ exists v, dep (index_tasks ts) u v /\ v ∉ map task_id ts).
Proof.
  split_and!.
  - destruct (search_spec ts) as (r & -> & _). by eexists.
  - rewrite assertAcyclic_ok. unfold well_founded_graph. by setoid_rewrite index_tasks_known.
  - intros code u H. apply assertAcyclic_err in H as (w & [[[= -> ->] Hc]|([= -> ->] & v & Hd & Hn)]); [by left|].
    right. split; [done|]. exists v. by rewrite <- index_tasks_known.
Qed.

(** ** What validation guarantees *)

Definition finite_pos (n : Num) : Prop := exists q, n = Fin q /\ (0 < q)%Q.

Record task_ok (input : ValidateWorksetInput) (t : WorksetTask) : Prop := {
  tk_aggregation : kind t = aggregation -> mutates_repo t = false;
  tk_bound : kind t <> aggregation -> is_Some (bound_repo t);
  tk_repository : forall r, bound_repo t = Some r -> r ∈ map repoId (repositories input);
  tk_broad : (1 < length (repositories input))%nat -> mutates_repo t = true -> "**" ∉ write_domains t;
  tk_deliverables : (deliverable_count t <= maxDeliverablesPerTask (policy input))%Z;
  tk_budget : forall b, execution_budget_ms t = Some b -> finite_pos b;
  tk_budget_limit : forall b mx, execution_budget_ms t = Some (Fin b) -> maxTaskBudgetMs (policy input) = Some (Fin mx) -> (b <= mx)%Q;
  tk_checkpoint : exists p, checkpoint_policy t = Some p /\ isInteger (activity_milestone p) = true /\
                    finite_pos (activity_milestone p) /\ finite_pos (before_deadline_ms p) /\
                    forall b, execution_budget_ms t = Some b -> leq b (before_deadline_ms p) = false;
  tk_domains : mutates_repo t = true -> forall r rep, bound_repo t = Some r ->
                 map_get r (index_repositories (repositories input)) = Some rep ->
                 forall d, d ∈ write_domains t -> exists a, a ∈ writableDomains rep /\ domainWithin d a = Ok true;
  tk_acceptance : forall a, a ∈ nullish (acceptance_ids t) [] -> a ∈ acceptanceIds input;
}.

Record workset_ok (input : ValidateWorksetInput) (ts : list WorksetTask) : Prop := {
  ws_unique : NoDup (map task_id ts);
  ws_graph : well_founded_graph (index_tasks ts);
  ws_one_repo : forall t t' r r', t ∈ ts -> t' ∈ ts -> mutates_repo t = true -> mutates_repo t' = true ->
                  bound_repo t = Some r -> bound_repo t' = Some r' -> r = r';
  ws_tasks : Forall (task_ok input) ts;
  ws_covered : forall a, a ∈ acceptanceIds input -> exists t, t ∈ ts /\ a ∈ nullish (acceptance_ids t) [];
}.

(** The manifest's own domains are well formed. *)
Definition manifest_ok (input : ValidateWorksetInput) : Prop :=
  forall rep, rep ∈ repositories input -> Forall valid_domain (writableDomains rep).

Lemma throw_if_ok b code s u : throw_if b code s = Ok u <-> b = false.
Proof. unfold throw_if. destruct u. by destruct b. Qed.

Lemma bind_unit_ok {A} (m : result unit) (k : unit -> result A) r : (let! x := m in k x) = Ok r <-> m = Ok tt /\ k tt = Ok r.
Proof. rewrite res_bind_ok. split; [intros ([] & ? & ?); eauto|intros [? ?]; eauto]. Qed.

Lemma domainWithin_total d a : valid_domain d -> valid_domain a -> exists hit, domainWithin d a = Ok hit.
Proof.
  unfold valid_domain, domainWithin, domainSegments. destruct (canonicalizeWriteDomain d), (canonicalizeWriteDomain a); try done.
  intros _ _. cbn. eauto.
Qed.

Lemma some_within_ok d l :
  valid_domain d -> Forall valid_domain l ->
  exists hit, some_within d l = Ok hit /\ (hit = true <-> exists a, a ∈ l /\ domainWithin d a = Ok true).
Proof.
  intros Hd. induction l as [|a l IH]; intros Hl; cbn [some_within].
  { exists false. split; [done|]. split; [done|]. by intros (a & ?%elem_of_nil & _). }
  apply Forall_cons in Hl as [Ha Hl]. destruct (IH Hl) as (h & E & H), (domainWithin_total d a Hd Ha) as [h1 E1].
  rewrite E1. cbn [res_bind]. destruct h1.
  - exists true. split; [done|]. split; [|done]. intros _. exists a. split; [by left|done].
  - exists h. split; [done|]. rewrite H. split; [intros (x & ? & ?); exists x; split; [by right|done]|].
    intros (x & [->|Hx]%elem_of_cons & Hw); [congruence|eauto].
Qed.

Lemma some_outside_ok ds l :
  Forall valid_domain ds -> Forall valid_domain l ->
  some_outside ds l = Ok false <-> (forall d, d ∈ ds -> exists a, a ∈ l /\ domainWithin d a = Ok true).
Proof.
  intros Hds Hl. induction ds as [|d ds IH]; cbn [some_outside].
  { split; [|done]. by intros _ d ?%elem_of_nil. }
  apply Forall_cons in Hds as [Hd Hds]. destruct (some_within_ok d l Hd Hl) as (h & -> & H). cbn [res_bind]. destruct h.
  - rewrite IH by done. split; [|set_solver]. intros Hall x [->|Hx]%elem_of_cons; [by apply H|by apply Hall].
  - split; [done|]. intros Hall. destruct H as [_ H]. discriminate H. apply Hall. by left.
Qed.

Lemma check_acceptance_ok known ids t : check_acceptance known ids t = Ok tt <-> forall a, a ∈ ids -> a ∈ known.
Proof.
  induction ids as [|a ids IH]; cbn [check_acceptance]; [split; [by intros _ a ?%elem_of_nil|done]|].
  destruct (js_includes a known) eqn:E.
  - apply js_includes_true in E. rewrite IH. set_solver.
  - apply js_includes_false in E. split; [done|]. intros H. exfalso. apply E, H. by left.
Qed.

Lemma Qle_bool_false x y : Qle_bool x y = false <-> (y < x)%Q.
Proof.
  rewrite <- not_true_iff_false, Qle_bool_iff. split; [apply Qnot_le_lt|apply Qlt_not_le].
Qed.

Lemma finite_pos_bool b : negb (isFinite b) || leq b zero = false <-> finite_pos b.
Proof.
  unfold finite_pos. destruct b as [q|]; cbn; [|split; [done|by intros (q & ? & _)]].
  rewrite Qle_bool_false. naive_solver.
Qed.

Lemma index_repositories_get (rs : list Repository) m r rep :
  map_get r (foldl (fun m x => map_set (repoId x) x m) m rs) = Some rep -> map_get r m = Some rep \/ rep ∈ rs.
Proof.
  revert m. induction rs as [|x rs IH]; intros m; cbn [foldl]; [by left|].
  intros H. apply IH in H as [H|H]; [|right; by right]. rewrite map_get_set in H. case_decide; [simplify_eq; right; by left|by left].
Qed.

Lemma index_repositories_has (rs : list Repository) (m : jsmap string Repository) r :
  map_has r (foldl (fun m x => map_set (repoId x) x m) m rs) = true <-> map_has r m = true \/ r ∈ map repoId rs.
Proof.
  revert m. induction rs as [|x rs IH]; intros m; cbn [foldl map]; [set_solver|].
  rewrite IH, elem_of_cons, !map_has_get, map_get_set. case_decide; subst; [|naive_solver]. split; [by auto|]. intros _. left. eauto.
Qed.

Lemma repo_check_ok input t :
  match bound_repo t with Some r => negb (map_has r (index_repositories (repositories input))) | None => false end = false
  <-> forall r, bound_repo t = Some r -> r ∈ map repoId (repositories input).
Proof.
  destruct (bound_repo t) as [r|]; [|split; [by intros _ r|done]]. rewrite negb_false_iff. unfold index_repositories.
  rewrite index_repositories_has. naive_solver.
Qed.

Lemma budget_limit_ok (b mx : option Num) :
  (forall n, b = Some n -> finite_pos n) ->
  match b, mx with Some b, Some mx => leq mx b && negb (leq b mx) | _, _ => false end = false
  <-> forall x y, b = Some (Fin x) -> mx = Some (Fin y) -> (x <= y)%Q.
Proof.
  intros Hb. destruct b as [b|]; [|naive_solver]. destruct (Hb b eq_refl) as (q & -> & _).
  destruct mx as [[m|]|]; cbn; [|naive_solver|naive_solver]. rewrite andb_false_iff, negb_false_iff, Qle_bool_iff, Qle_bool_false. split.
  - intros H x y [= <-] [= <-]. destruct H as [H|H]; [by apply Qlt_le_weak|done].
  - intros H. right. by apply H.
Qed.

Lemma bad_checkpoint_ok t :
  bad_checkpoint t = false <->
  exists p, checkpoint_policy t = Some p /\ isInteger (activity_milestone p) = true /\ finite_pos (activity_milestone p) /\
    finite_pos (before_deadline_ms p) /\ forall b, execution_budget_ms t = Some b -> leq b (before_deadline_ms p) = false.
Proof.
  unfold bad_checkpoint. destruct (checkpoint_policy t) as [p|]; [|split; [done|by intros (p & ? & _)]].
  rewrite !orb_false_iff, !negb_false_iff.
  assert (Hm : isInteger (activity_milestone p) = true /\ leq (activity_milestone p) zero = false <->
               isInteger (activity_milestone p) = true /\ finite_pos (activity_milestone p)).
  { rewrite <- finite_pos_bool, orb_false_iff, negb_false_iff. destruct (activity_milestone p); cbn; naive_solver. }
  assert (Hl : isFinite (before_deadline_ms p) = true /\ leq (before_deadline_ms p) zero = false <-> finite_pos (before_deadline_ms p)).
  { by rewrite <- finite_pos_bool, orb_false_iff, negb_false_iff. }
  assert (Hb : match execution_budget_ms t with Some budget => leq budget (before_deadline_ms p) | None => false end = false <->
               forall b, execution_budget_ms t = Some b -> leq b (before_deadline_ms p) = false).
  { destruct (execution_budget_ms t); naive_solver. }
  rewrite Hb. split.
  - intros [[[H1 H2] H3] H4]. exists p. tauto.
  - intros (p' & [= <-] & H1 & H2 & H3 & H4). tauto.
Qed.

Lemma domains_check_ok input t :
  manifest_ok input -> Forall valid_domain (write_domains t) ->
  match bound_repo t ≫= (fun r => map_get r (index_repositories (repositories input))) with
  | Some repository =>
      if mutates_repo t then
        let! outside := some_outside (write_domains t) (writableDomains repository) in
        throw_if outside WRITE_DOMAIN_OUTSIDE_REPOSITORY (task_id t)
      else Ok tt
  | None => Ok tt
  end = Ok tt <->
  (mutates_repo t = true -> forall r rep, bound_repo t = Some r -> map_get r (index_repositories (repositories input)) = Some rep ->
     forall d, d ∈ write_domains t -> exists a, a ∈ writableDomains rep /\ domainWithin d a = Ok true).
Proof.
  intros Hman Hds. destruct (bound_repo t) as [r|]; cbn; [|split; [by intros _ _ r|done]].
  destruct (map_get r (index_repositories (repositories input))) as [rep|] eqn:Er; [|split; [intros _ _ r' rep [= <-]; congruence|done]].
  assert (Hl : Forall valid_domain (writableDomains rep)).
  { apply index_repositories_get in Er as [Er|Er]; [done|by apply Hman]. }
  destruct (mutates_repo t); [|split; [done|done]]. rewrite res_bind_ok. split.
  - intros (b & Eb & Ht) _ r' rep' [= <-] Er'. simplify_eq. apply throw_if_ok in Ht as ->. by apply some_outside_ok.
  - intros H. exists false. split; [|done]. apply some_outside_ok; [done|done|]. by apply (H eq_refl r rep).
Qed.

Lemma check_task_ok input t :
  manifest_ok input -> Forall valid_domain (write_domains t) -> check_task input t = Ok tt <-> task_ok input t.
Proof.
  intros Hman Hds. unfold check_task. rewrite !bind_unit_ok, !throw_if_ok.
  rewrite repo_check_ok, bad_checkpoint_ok, domains_check_ok, check_acceptance_ok by done.
  rewrite !andb_false_iff, Z.ltb_ge, !bool_decide_eq_false, negb_false_iff, bool_decide_eq_true, js_includes_false.
  unfold js_len. rewrite Z.ltb_ge.
  split.
  - intros (H1 & H2 & H3 & H4 & H5 & H6 & H7 & H8 & H9 & H10).
    assert (Hb : forall b, execution_budget_ms t = Some b -> finite_pos b).
    { intros b Eb. rewrite Eb in H6. by apply finite_pos_bool. }
    split; try done.
    + intros Hk. destruct H1 as [?|?]; [done|done].
    + intros Hk. destruct (bound_repo t); [eauto|]. destruct H2; done.
    + intros Hlen Hm. destruct H4 as [[?|?]|?]; [lia|congruence|done].
    + intros b mx Eb Em. by eapply budget_limit_ok.
  - intros [H1 H2 H3 H4 H5 H6 H7 H8 H9 H10]. split_and!; try done.
    + destruct (decide (kind t = aggregation)); [right; by apply H1|by left].
    + destruct (decide (kind t = aggregation)); [by left|right]. intros E. destruct (H2 n) as [r Er]. congruence.
    + destruct (mutates_repo t); [|by left; right]. destruct (decide (1 < length (repositories input))%nat); [right; by apply H4|].
      left. left. lia.
    + destruct (execution_budget_ms t) as [b|]; [|done]. apply finite_pos_bool. by apply H6.
    + apply budget_limit_ok; [done|]. by apply H7.
Qed.

Lemma check_tasks_ok input ts :
  manifest_ok input -> Forall (fun t => Forall valid_domain (write_domains t)) ts ->
  check_tasks input ts = Ok tt <-> Forall (task_ok input) ts.
Proof.
  intros Hman. induction ts as [|t ts IH]; intros Hds; cbn [check_tasks]; [split; [by constructor|done]|].
  apply Forall_cons in Hds as [Hd Hds]. rewrite bind_unit_ok, check_task_ok, IH, Forall_cons by done. done.
Qed.

Lemma check_unique_ok ids seen : check_unique ids seen = Ok tt <-> NoDup ids /\ forall x, x ∈ ids -> x ∉ seen.
Proof.
  revert seen. induction ids as [|id ids IH]; intros seen; cbn [check_unique].
  { split; [|done]. intros _. split; [apply NoDup_nil_2|by intros ? ?%elem_of_nil]. }
  destruct (js_includes id seen) eqn:E.
  - apply js_includes_true in E. split; [done|]. intros [_ H]. exfalso. by apply (H id); [left|].
  - apply js_includes_false in E. rewrite IH, set_add_fresh, NoDup_cons by done. set_solver.
Qed.

Lemma mutatingRepositories_elem ts r :
  r ∈ mutatingRepositories ts <-> exists t, t ∈ ts /\ mutates_repo t = true /\ bound_repo t = Some r.
Proof.
  unfold mutatingRepositories. rewrite js_dedup_elem, concat_map_elem. setoid_rewrite js_filter_elem. split.
  - intros (t & [Ht Hm] & Hr). exists t. destruct (bound_repo t); [|by apply elem_of_nil in Hr].
    by apply list_elem_of_singleton in Hr as ->.
  - intros (t & Ht & Hm & Hr). exists t. rewrite Hr. split; [done|by left].
Qed.

Lemma one_repo_ok ts :
  ~ (1 < length (mutatingRepositories ts))%nat <->
  (forall t t' r r', t ∈ ts -> t' ∈ ts -> mutates_repo t = true -> mutates_repo t' = true ->
    bound_repo t = Some r -> bound_repo t' = Some r' -> r = r').
Proof.
  transitivity (length (mutatingRepositories ts) <= 1)%nat; [lia|]. rewrite NoDup_at_most_one by apply js_dedup_NoDup.
  setoid_rewrite mutatingRepositories_elem. split.
  - intros H t t' r r' ? ? ? ? ? ?. apply H; eauto.
  - intros H x y (t & ? & ? & ?) (t' & ? & ? & ?). by apply (H t t').
Qed.

Lemma uncovered_ok ids ts :
  uncovered ids ts = [] <-> (forall a, a ∈ ids -> exists t, t ∈ ts /\ a ∈ nullish (acceptance_ids t) []).
Proof.
  unfold uncovered. rewrite js_filter_nil. setoid_rewrite negb_false_iff. setoid_rewrite js_includes_true.
  by setoid_rewrite concat_map_elem.
Qed.

Lemma canonical_domains_ok ds cs : canonical_domains ds = Ok cs -> Forall valid_domain cs.
Proof.
  revert cs. induction ds as [|d ds IH]; intros cs; cbn [canonical_domains]; [by intros [= <-]; constructor|].
  rewrite res_bind_ok. intros (c & Ec & H). apply res_bind_ok in H as (cs' & Ecs & [= <-]).
  constructor; [|by apply IH]. unfold valid_domain. by rewrite (canonicalize_idem d c Ec).
Qed.

Lemma canonical_tasks_ok ts cs : canonical_tasks ts = Ok cs -> Forall (fun t => Forall valid_domain (write_domains t)) cs.
Proof.
  revert cs. induction ts as [|t ts IH]; intros cs; cbn [canonical_tasks]; [by intros [= <-]; constructor|].
  rewrite res_bind_ok. intros (ds & Eds & H). apply res_bind_ok in H as (rest & Er & [= <-]).
  constructor; [by apply canonical_domains_ok in Eds|by apply IH].
Qed.

(** A workset is accepted exactly when its write domains canonicalise and the
    canonical tasks are well formed: unique ids, a closed and acyclic dependency
    graph, at most one repository written, every task bound, bounded, with a usable
    checkpoint policy and inside its repository's domains, and the mission's
    acceptance criteria exactly known and covered. The accepted tasks are returned. *)
Theorem validateWorkset_iff input ts :
  manifest_ok input ->
  validateWorkset input = Ok ts <-> canonical_tasks (tasks input) = Ok ts /\ workset_ok input ts.
Proof.
  intros Hman. unfold validateWorkset. rewrite res_bind_ok. split.
  - intros (ts' & Ec & H). rewrite !bind_unit_ok, !throw_if_ok in H. destruct H as (H1 & H2 & H3 & H4 & H5 & [= ->]).
    split; [done|]. apply check_unique_ok in H1 as [H1 _]. apply assertAcyclic_ok in H2.
    rewrite bool_decide_eq_false, one_repo_ok in H3. rewrite negb_false_iff, bool_decide_eq_true, uncovered_ok in H5.
    apply check_tasks_ok in H4; [|done|by eapply canonical_tasks_ok]. by split.
  - intros [Ec [H1 H2 H3 H4 H5]]. exists ts. split; [done|]. rewrite !bind_unit_ok, !throw_if_ok. split_and!; [| | | | |done].
    + apply check_unique_ok. split; [done|]. by intros ? _ ?%elem_of_nil.
    + by apply assertAcyclic_ok.
    + by rewrite bool_decide_eq_false, one_repo_ok.
    + apply check_tasks_ok; [done|by eapply canonical_tasks_ok|done].
    + by rewrite negb_false_iff, bool_decide_eq_true, uncovered_ok.
Qed.

(** ** Splitting *)

Lemma fresh_id_fresh fuel occupied base c n id : fresh_id fuel occupied base c n = Some id -> id ∉ occupied.
Proof.
  revert c n. induction fuel as [|fuel IH]; intros c n; cbn [fresh_id]; (destruct (js_includes c occupied) eqn:E;
    [try done|intros [= <-]; by apply js_includes_false]). apply IH.
Qed.

Definition nth_name (base : string) (n : Z) (i : nat) : string := base +:+ ":" +:+ js_num (n + Z.of_nat i).

Lemma string_app_inj (a b c : string) : a +:+ b = a +:+ c -> b = c.
Proof. induction a as [|x a IH]; [done|]. intros H. injection H as H. by apply IH. Qed.

Lemma nth_name_inj base n i j : nth_name base n i = nth_name base n j -> i = j.
Proof.
  unfold nth_name, js_num. intros H. apply string_app_inj, string_app_inj in H. apply (inj pretty) in H. lia.
Qed.

Lemma fresh_id_none fuel occupied base c n :
  fresh_id fuel occupied base c n = None -> c ∈ occupied /\ forall i, (i < fuel)%nat -> nth_name base n i ∈ occupied.
Proof.
  revert c n. induction fuel as [|fuel IH]; intros c n; cbn [fresh_id]; destruct (js_includes c occupied) eqn:E; try done;
    apply js_includes_true in E; [intros _; split; [done|lia]|].
  intros H. apply IH in H as [H1 H2]. split; [done|]. intros [|i] Hi.
  - unfold nth_name. by rewrite Z.add_0_r.
  - specialize (H2 i ltac:(lia)). unfold nth_name in *. by replace (n + Z.of_nat (S i))%Z with (n + 1 + Z.of_nat i)%Z by lia.
Qed.

(** The collision loop ends: with one more candidate than occupied names, one is free. *)
Lemma fresh_id_total occupied base : is_Some (fresh_id (length occupied) occupied base base 1).
Proof.
  destruct (fresh_id (length occupied) occupied base base 1) as [id|] eqn:E; [eauto|exfalso].
  apply fresh_id_none in E as [H1 H2].
  set (names := base :: map (nth_name base 1) (seq 0 (length occupied))).
  assert (Hnd : NoDup names).
  { apply NoDup_cons_2.
    - rewrite list_elem_of_fmap. intros (i & Hi & _). apply (f_equal String.length) in Hi. unfold nth_name in Hi.
      rewrite !string_length_app in Hi. simpl in Hi. lia.
    - apply NoDup_fmap_2; [intros i j; apply nth_name_inj|apply NoDup_seq]. }
  assert (Hsub : names ⊆ occupied).
  { intros x [->|Hx]%elem_of_cons; [done|]. apply list_elem_of_fmap in Hx as (i & -> & Hi%elem_of_seq). apply H2. lia. }
  apply NoDup_length_le in Hsub; [|done]. unfold names in Hsub. simpl in Hsub. rewrite length_map, length_seq in Hsub. lia.
Qed.

Lemma chunks_concat fuel n l : (0 < n)%nat -> (length l <= fuel)%nat -> concat (chunks fuel n l) = l.
Proof.
  intros Hn. revert l. induction fuel as [|fuel IH]; intros [|x l] Hl; cbn [chunks]; try done; [simpl in Hl; lia|].
  cbn [concat]. rewrite IH; [apply take_drop|]. rewrite length_drop. simpl in *. lia.
Qed.

Lemma chunks_bound fuel n l : Forall (fun c => (length c <= n)%nat) (chunks fuel n l).
Proof.
  revert l. induction fuel as [|fuel IH]; intros [|x l]; cbn [chunks]; try constructor; [|apply IH]. rewrite length_take. lia.
Qed.

Lemma chunks_nonempty n l : l <> [] -> chunks (length l) n l <> [].
Proof. by destruct l. Qed.

Definition dels (t : WorksetTask) : list string := nullish (deliverables t) [].

(** A part keeps what its task declared, except id, deliverables, objective and
    dependencies. *)
Definition same_binding (t p : WorksetTask) : Prop :=
  kind p = kind t /\ repo_id p = repo_id t /\ mutates_repo p = mutates_repo t /\ write_domains p = write_domains t /\
  acceptance_ids p = acceptance_ids t /\ execution_budget_ms p = execution_budget_ms t /\ checkpoint_policy p = checkpoint_policy t.

Fixpoint chained (first : list string) (ps : list WorksetTask) : Prop :=
  match ps with
  | [] => True
  | p :: ps' => depends_on p = first /\ chained [task_id p] ps'
  end.

Lemma split_parts_spec t cs part previous occupied parts occupied' :
  split_parts t cs part previous occupied = (parts, occupied') ->
  occupied' = (occupied ++ map task_id parts)%list /\ NoDup (map task_id parts) /\ (forall id, id ∈ map task_id parts -> id ∉ occupied) /\
  map dels parts = cs /\ Forall (same_binding t) parts /\
  chained (match previous with Some p => [p] | None => depends_on t end) parts.
Proof.
  revert part previous occupied parts occupied'. induction cs as [|c cs IH]; intros part previous occupied parts occupied'; cbn [split_parts].
  { intros [= <- <-]. rewrite app_nil_r. split_and!; try done; [apply NoDup_nil_2|by intros ? ?%elem_of_nil]. }
  set (base := task_id t +:+ "::part:" +:+ js_num part). destruct (fresh_id_total occupied base) as [fid Eid]. rewrite Eid.
  change (default base (Some fid)) with fid. destruct (split_parts t cs (part + 1) (Some fid) (set_add fid occupied)) as [rest occ] eqn:E.
  intros [= <- <-]. apply IH in E as (-> & Hnd & Hfr & Hd & Hsb & Hch). pose proof (fresh_id_fresh _ _ _ _ _ _ Eid) as Hid.
  rewrite set_add_fresh in * by done. cbn [map part_of task_id]. split_and!.
  - by rewrite <- app_assoc.
  - apply NoDup_cons_2; [|done]. intros H. apply Hfr in H. set_solver.
  - intros x [->|Hx]%elem_of_cons; [done|]. apply Hfr in Hx. set_solver.
  - by rewrite Hd.
  - constructor; [done|done].
  - split; [by destruct previous|done].
Qed.

(** The parts of one task. *)
Record group_ok (n : nat) (t : WorksetTask) (g : list WorksetTask) : Prop := {
  g_nonempty : g <> [];
  g_chain : chained (depends_on t) g;
  g_dels : concat (map dels g) = dels t;
  g_bound : Forall (fun p => (length (dels p) <= n)%nat) g;
  g_same : Forall (same_binding t) g;
  g_short : (length (dels t) <= n)%nat -> g = [t];
}.

Lemma split_task_spec n t occupied g occupied' :
  (0 < n)%nat -> split_task n t occupied = (g, occupied') ->
  group_ok n t g /\ NoDup (map task_id g) /\
  (g = [t] /\ occupied' = occupied \/ (forall id, id ∈ map task_id g -> id ∉ occupied) /\ occupied' = (occupied ++ map task_id g)%list).
Proof.
  intros Hn. unfold split_task. fold (dels t). case_bool_decide as Hlen.
  - intros [= <- <-]. split_and!; [|apply NoDup_singleton|by left]. split; try done.
    + cbn. by rewrite app_nil_r.
    + by constructor.
    + by repeat constructor.
  - intros E. apply split_parts_spec in E as (-> & Hnd & Hfr & Hd & Hsb & Hch). split_and!; [|done|by right]. split; try done.
    + intros ->. cbn in Hd. symmetry in Hd. apply chunks_nonempty in Hd; [done|]. intros E. rewrite E in Hlen. simpl in Hlen. lia.
    + rewrite Hd. by apply chunks_concat.
    + pose proof (chunks_bound (length (dels t)) n (dels t)) as Hb. rewrite <- Hd in Hb. by rewrite Forall_map in Hb.
Qed.

Lemma split_tasks_spec n ts occupied final out final' :
  (0 < n)%nat -> NoDup (map task_id ts) -> (forall t, t ∈ ts -> task_id t ∈ occupied) ->
  split_tasks n ts occupied final = (out, final') ->
  exists groups, out = concat groups /\ Forall2 (group_ok n) ts groups /\ NoDup (map task_id out) /\
    (forall id, id ∈ map task_id out -> id ∈ map task_id ts \/ id ∉ occupied) /\
    (forall t g, (t, g) ∈ zip ts groups -> map_get (task_id t) final' = Some (last_id g (task_id t))) /\
    (forall id, id ∉ map task_id ts -> map_get id final' = map_get id final) /\
    (forall t g, (t, g) ∈ zip ts groups -> g = [t] \/ forall id, id ∈ map task_id g -> id ∉ occupied).
Proof.
  intros Hn. revert occupied final out final'. induction ts as [|t ts IH]; intros occupied final out final' Hnd Hocc; cbn [split_tasks].
  { intros [= <- <-]. exists []. split_and!; [done|constructor|apply NoDup_nil_2|by intros ? ?%elem_of_nil|by intros ? ? ?%elem_of_nil|done|by intros ? ? ?%elem_of_nil]. }
  destruct (split_task n t occupied) as [g occ] eqn:Eg. destruct (split_tasks n ts occ _) as [rest fin] eqn:Er.
  intros [= <- <-]. cbn [map] in Hnd. apply NoDup_cons in Hnd as [Ht Hnd].
  apply split_task_spec in Eg as (Hg & Hgn & Hcase); [|done].
  assert (Hsub : occupied ⊆ occ) by (destruct Hcase as [[_ ->]|[_ ->]]; set_solver).
  assert (Hin : forall id, id ∈ map task_id g -> id ∈ occ).
  { intros id Hid. destruct Hcase as [[-> ->]|[_ ->]]; [|set_solver]. apply list_elem_of_singleton in Hid as ->. apply Hocc. by left. }
  apply IH in Er as (groups & -> & Hgs & Hrn & Hnew & Hfin & Hkeep & Hfresh); [|done|intros x Hx; apply Hsub, Hocc; by right].
  exists (g :: groups). split_and!; [done|by constructor| | | | |].
  - rewrite map_app. apply NoDup_app. split_and!; [done| |done]. intros id Hid Hid'. apply Hnew in Hid' as [Hid'|Hid']; [|by apply Hid', Hin].
    destruct Hcase as [[-> _]|[Hfr _]].
    + apply list_elem_of_singleton in Hid as ->. by apply Ht.
    + apply (Hfr id Hid). apply list_elem_of_fmap in Hid' as (x & -> & Hx). apply Hocc. by right.
  - intros id. rewrite map_app, elem_of_app. intros [Hid|Hid].
    + destruct Hcase as [[-> _]|[Hfr _]]; [left|right; by apply Hfr]. apply list_elem_of_singleton in Hid as ->. by left.
    + apply Hnew in Hid as [Hid|Hid]; [left; by right|right]. by intros ?%Hsub.
  - intros t' g' [[= -> ->]|Hz]%elem_of_cons; [|by apply Hfin]. rewrite Hkeep by done. apply map_get_set_eq.
  - intros id Hid. cbn [map] in Hid. apply not_elem_of_cons in Hid as [H1 H2]. rewrite Hkeep by done. by rewrite map_get_set_ne.
  - intros t' g' [[= -> ->]|Hz]%elem_of_cons; [destruct Hcase as [[-> _]|[Hfr _]]; [by left|by right]|].
    destruct (Hfresh t' g' Hz) as [->|Hf]; [by left|right]. intros id Hid Ho. by apply (Hf id Hid), Hsub.
Qed.

Lemma concat_position {A} (gs : list (list A)) j j' g g' k k' x :
  NoDup (concat gs) -> gs !! j = Some g -> g !! k = Some x -> gs !! j' = Some g' -> g' !! k' = Some x -> j = j' /\ k = k'.
Proof.
  revert j j'. induction gs as [|h gs IH]; intros j j' Hnd; [done|]. cbn [concat] in Hnd. apply NoDup_app in Hnd as (Hh & Hdis & Hnd).
  assert (Hin : forall i l m, gs !! i = Some l -> l !! m = Some x -> x ∈ concat gs).
  { intros i l m Hi Hl. apply list_elem_of_In, in_concat. exists l.
    split; apply list_elem_of_In; by eapply list_elem_of_lookup_2. }
  destruct j as [|j], j' as [|j']; cbn; intros E1 E2 E3 E4.
  - simplify_eq. split; [done|]. exact (NoDup_lookup _ _ _ _ Hh E2 E4).
  - simplify_eq. exfalso. apply (Hdis x); [by eapply list_elem_of_lookup_2|by eapply Hin].
  - simplify_eq. exfalso. apply (Hdis x); [by eapply list_elem_of_lookup_2|by eapply Hin].
  - destruct (IH j j' Hnd E1 E2 E3 E4) as [-> ->]. done.
Qed.

Lemma index_tasks_lookup ts id t :
  NoDup (map task_id ts) -> map_get id (index_tasks ts) = Some t <-> t ∈ ts /\ task_id t = id.
Proof.
  intros Hnd. unfold index_tasks.
  enough (forall m : jsmap string WorksetTask, (forall x, x ∈ map task_id ts -> map_get x m = None) ->
    map_get id (foldl (fun m t => map_set (task_id t) t m) m ts) = Some t <-> map_get id m = Some t \/ (t ∈ ts /\ task_id t = id)).
  { rewrite H by done. split; [by intros [?|?]|by right]. }
  induction ts as [|u ts IH]; intros m Hm; cbn [foldl].
  - split; [by left|]. intros [H|[H _]]; [done|by apply elem_of_nil in H].
  - cbn [map] in *. apply NoDup_cons in Hnd as [Hu Hnd]. rewrite IH; [|done|].
    + rewrite map_get_set, elem_of_cons. case_decide as E; [|naive_solver]. subst id.
      rewrite (Hm (task_id u)) by by left. split; [naive_solver|]. intros [?|[[->|Ht] Hid]]; [done|by left|].
      exfalso. apply Hu. rewrite <- Hid. by apply list_elem_of_fmap_2.
    + intros x Hx. rewrite map_get_set_ne; [apply Hm; by right|]. intros E. subst x. done.
Qed.

Lemma chained_lookup first g k p :
  chained first g -> g !! k = Some p ->
  match k with
  | O => depends_on p = first
  | S k' => exists p', g !! k' = Some p' /\ depends_on p = [task_id p']
  end.
Proof.
  revert first k. induction g as [|q g IH]; intros first k; [done|]. intros [Hq Hch]. destruct k as [|k]; cbn; [by intros [= <-]|].
  intros Hp. specialize (IH [task_id q] k Hch Hp). destruct k as [|k]; [by exists q|]. exact IH.
Qed.

(** The graph after splitting. *)
Section SplitGraph.
Context (n : nat) (ts : list WorksetTask) (groups : list (list WorksetTask)) (final : jsmap string string).
Notation remap := (fun d => nullish (map_get d final) d).
Notation out := (map (fun t => with_deps t (map remap (depends_on t))) (concat groups)).
Context (Hgroups : Forall2 (group_ok n) ts groups) (Hids : NoDup (map task_id ts)) (Hnd : NoDup (map task_id (concat groups))).
Context (Hfinal : forall t g, (t, g) ∈ zip ts groups -> map_get (task_id t) final = Some (last_id g (task_id t))).
Context (Hother : forall id, id ∉ map task_id ts -> map_get id final = None).
Context (Hfresh : forall t g, (t, g) ∈ zip ts groups -> g = [t] \/ forall id, id ∈ map task_id g -> id ∉ map task_id ts).

(** [u] is the [k]-th part of [t]. *)
Definition placed (u : string) (t : WorksetTask) (k : nat) : Prop :=
  exists j g p, ts !! j = Some t /\ groups !! j = Some g /\ g !! k = Some p /\ task_id p = u.

Lemma placed_zip j t g : ts !! j = Some t -> groups !! j = Some g -> (t, g) ∈ zip ts groups.
Proof.
  intros Ht Hg. eapply list_elem_of_lookup_2 with (i := j). apply lookup_zip_with_Some. by exists t, g.
Qed.

Lemma placed_unique u t k t' k' : placed u t k -> placed u t' k' -> t = t' /\ k = k'.
Proof.
  intros (j & g & p & Ht & Hg & Hp & Hu) (j' & g' & p' & Ht' & Hg' & Hp' & Hu').
  destruct (concat_position (map (map task_id) groups) j j' (map task_id g) (map task_id g') k k' u) as [<- <-].
  - by rewrite concat_map in Hnd.
  - by rewrite list_lookup_fmap, Hg.
  - rewrite list_lookup_fmap, Hp. by rewrite <- Hu.
  - by rewrite list_lookup_fmap, Hg'.
  - rewrite list_lookup_fmap, Hp'. by rewrite <- Hu'.
  - by simplify_eq.
Qed.

Lemma out_elem_placed p : p ∈ concat groups -> exists t k, placed (task_id p) t k.
Proof.
  intros Hp. apply list_elem_of_In, in_concat in Hp as (g & Hg & Hp).
  apply list_elem_of_In, list_elem_of_lookup in Hg as [j Hj], Hp as [k Hk].
  destruct (Forall2_lookup_r _ _ _ _ _ Hgroups Hj) as (t & Ht & _). exists t, k, j, g, p. done.
Qed.

Lemma placed_out u t k : placed u t k -> exists p, p ∈ concat groups /\ task_id p = u.
Proof.
  intros (j & g & p & _ & Hg & Hp & Hu). exists p. split; [|done]. apply list_elem_of_In, in_concat. exists g.
  split; apply list_elem_of_In; by eapply list_elem_of_lookup_2.
Qed.

Lemma out_ids : map task_id out = map task_id (concat groups).
Proof. rewrite map_map. done. Qed.

Lemma out_dep u v :
  dep (index_tasks out) u v <-> exists p, p ∈ concat groups /\ task_id p = u /\ v ∈ map remap (depends_on p).
Proof.
  unfold dep. setoid_rewrite index_tasks_lookup; [|by rewrite out_ids]. split.
  - intros (t & [Ht Hu] & Hv). apply list_elem_of_fmap in Ht as (p & -> & Hp). by exists p.
  - intros (p & Hp & Hu & Hv). exists (with_deps p (map remap (depends_on p))). split; [|done]. split; [|done].
    apply list_elem_of_fmap. by exists p.
Qed.

(** The last part of a task stands for it. *)
Lemma remap_task j t g :
  ts !! j = Some t -> groups !! j = Some g -> exists k p, g !! k = Some p /\ length g = S k /\ remap (task_id t) = task_id p.
Proof.
  intros Ht Hg. pose proof (Hfinal t g ltac:(by eapply placed_zip)) as Hf. destruct (Forall2_lookup_lr _ _ _ _ _ _ Hgroups Ht Hg) as [Hne _ _ _ _ _].
  destruct (exists_last Hne) as (l & p & ->). exists (length l), p. rewrite list_lookup_middle, length_app by done. cbn.
  split_and!; [done|lia|]. rewrite Hf. unfold last_id. by rewrite last_snoc.
Qed.

(** A part other than the first depends on the one before it, the first on the
    last parts of what its task depends on. *)
Lemma out_dep_inv u v t k :
  dep (index_tasks out) u v -> placed u t k ->
  match k with
  | S k' => placed v t k'
  | O => exists d, d ∈ depends_on t /\ v = remap d
  end.
Proof.
  intros (p & Hp & Hu & Hv)%out_dep Hpl. pose proof Hpl as (j & g & q & Ht & Hg & Hq & Hqu).
  assert (p = q) as ->.
  { assert (Hq' : q ∈ concat groups).
    { apply list_elem_of_In, in_concat. exists g. split; apply list_elem_of_In; by eapply list_elem_of_lookup_2. }
    apply list_elem_of_lookup in Hp as [i Hi], Hq' as [i' Hi'].
    assert (i = i') as <-; [|by simplify_eq]. eapply (NoDup_lookup _ i i' u Hnd); rewrite list_lookup_fmap, ?Hi, ?Hi'; cbn; congruence. }
  destruct (Forall2_lookup_lr _ _ _ _ _ _ Hgroups Ht Hg) as [_ Hch _ _ _ _].
  pose proof (chained_lookup _ _ _ _ Hch Hq) as Hc. destruct k as [|k].
  - rewrite Hc in Hv. apply list_elem_of_fmap in Hv as (d & -> & Hd). by exists d.
  - destruct Hc as (p' & Hp' & Hd). rewrite Hd in Hv. cbn in Hv. apply list_elem_of_singleton in Hv as ->.
    exists j, g, p'. split_and!; [done|done|done|]. rewrite Hother; [done|].
    destruct (Hfresh t g ltac:(by eapply placed_zip)) as [->|Hf].
    + destruct k; [|by destruct k]. done.
    + apply Hf. apply list_elem_of_fmap_2. by eapply list_elem_of_lookup_2.
Qed.

Lemma out_tc_inv u v t k :
  well_founded_graph (index_tasks ts) -> tc (dep (index_tasks out)) u v -> placed u t k ->
  exists t' k', placed v t' k' /\ (tc (dep (index_tasks ts)) (task_id t) (task_id t') \/ t = t' /\ (k' < k)%nat).
Proof.
  intros [Hclosed Hac].
  assert (Hstep : forall u v t k, dep (index_tasks out) u v -> placed u t k ->
    exists t' k', placed v t' k' /\ (tc (dep (index_tasks ts)) (task_id t) (task_id t') \/ t = t' /\ (k' < k)%nat)).
  { clear u v t k. intros u v t k Hd Hpl. pose proof (out_dep_inv _ _ _ _ Hd Hpl) as Hinv. destruct k as [|k].
    - destruct Hinv as (d & Hin & ->). destruct Hpl as (j & g & p & Ht & Hg & _ & _).
      assert (Hdt : dep (index_tasks ts) (task_id t) d).
      { exists t. split; [|done]. apply index_tasks_lookup; [done|]. split; [by eapply list_elem_of_lookup_2|done]. }
      pose proof (Hclosed _ _ Hdt) as Hk. apply index_tasks_known, list_elem_of_fmap in Hk as (t' & -> & Ht').
      apply list_elem_of_lookup in Ht' as [j' Hj']. destruct (Forall2_lookup_l _ _ _ _ _ Hgroups Hj') as (g' & Hg' & _).
      destruct (remap_task j' t' g' Hj' Hg') as (k' & p' & Hp' & _ & Hr). exists t', k'. split; [|left; by apply tc_once].
      exists j', g', p'. done.
    - exists t, k. split; [done|]. right. split; [done|lia]. }
  intros Htc. revert t k. induction Htc as [u v Hd|u w v Hd _ IH]; intros t k Hpl; [by eapply Hstep|].
  destruct (Hstep _ _ _ _ Hd Hpl) as (t1 & k1 & Hp1 & H1). destruct (IH _ _ Hp1) as (t2 & k2 & Hp2 & H2).
  exists t2, k2. split; [done|]. destruct H1 as [H1|[-> H1]], H2 as [H2|[-> H2]]; [left; by etrans|by left|by left|right; split; [done|lia]].
Qed.

Lemma split_graph_ok : well_founded_graph (index_tasks ts) -> well_founded_graph (index_tasks out).
Proof.
  intros Hwf. split.
  - intros u v Hd. apply index_tasks_known. rewrite out_ids. pose proof Hd as (p & Hp & <- & _)%out_dep.
    destruct (out_elem_placed p Hp) as (t & k & Hpl).
    destruct (out_tc_inv _ v t k Hwf (tc_once _ _ _ Hd) Hpl) as (t' & k' & Hv & _).
    destruct (placed_out _ _ _ Hv) as (q & Hq & <-). by apply list_elem_of_fmap_2.
  - intros u Hc. assert (Hu : exists t k, placed u t k).
    { inversion Hc as [? ? Hd|? ? ? Hd]; subst; apply out_dep in Hd as (p & Hp & <- & _); by apply out_elem_placed. }
    destruct Hu as (t & k & Hpl). destruct (out_tc_inv _ _ _ _ Hwf Hc Hpl) as (t' & k' & Hpl' & Hcase).
    destruct (placed_unique _ _ _ _ _ Hpl Hpl') as [<- <-]. destruct Hcase as [Hcase|[_ Hcase]]; [by apply Hwf in Hcase|lia].
Qed.

(** Within a task, later parts wait for all earlier ones. *)
Lemma parts_chain j t g k p k' p' :
  ts !! j = Some t -> groups !! j = Some g -> g !! k = Some p -> g !! k' = Some p' -> (k' < k)%nat ->
  tc (dep (index_tasks out)) (task_id p) (task_id p').
Proof.
  intros Ht Hg. destruct (Forall2_lookup_lr _ _ _ _ _ _ Hgroups Ht Hg) as [_ Hch _ _ _ _].
  revert p. induction k as [|k IH]; intros p Hp Hp' Hlt; [lia|].
  destruct (chained_lookup _ _ _ _ Hch Hp) as (q & Hq & Hdep).
  assert (Hstep : dep (index_tasks out) (task_id p) (task_id q)).
  { apply out_dep. exists p. split_and!; [|done|].
    - apply list_elem_of_In, in_concat. exists g. split; apply list_elem_of_In; by eapply list_elem_of_lookup_2.
    - rewrite Hdep. cbn. apply list_elem_of_singleton. rewrite Hother; [done|].
      destruct (Hfresh t g ltac:(by eapply placed_zip)) as [->|Hf]; [by destruct k|].
      apply Hf, list_elem_of_fmap_2. by eapply list_elem_of_lookup_2. }
  destruct (decide (k' = k)) as [->|]; [simplify_eq; by apply tc_once|]. eapply tc_l; [exact Hstep|]. apply IH; [done|done|lia].
Qed.

(** Every part of a task waits for every part of each task it depended on. *)
Lemma parts_wait j t g j' t' g' p p' :
  ts !! j = Some t -> groups !! j = Some g -> ts !! j' = Some t' -> groups !! j' = Some g' ->
  task_id t' ∈ depends_on t -> p ∈ g -> p' ∈ g' -> tc (dep (index_tasks out)) (task_id p) (task_id p').
Proof.
  intros Ht Hg Ht' Hg' Hd Hp Hp'. apply list_elem_of_lookup in Hp as [k Hk], Hp' as [k' Hk'].
  destruct (remap_task j' t' g' Ht' Hg') as (kl & pl & Hpl & Hlen & Hr).
  destruct (Forall2_lookup_lr _ _ _ _ _ _ Hgroups Ht Hg) as [Hne Hch _ _ _ _].
  destruct g as [|p0 g0]; [done|]. pose proof (chained_lookup _ _ 0 p0 Hch eq_refl) as H0.
  assert (Hlink : dep (index_tasks out) (task_id p0) (task_id pl)).
  { apply out_dep. exists p0. split_and!; [|done|].
    - apply list_elem_of_In, in_concat. exists (p0 :: g0). split; apply list_elem_of_In; [by eapply list_elem_of_lookup_2|by left].
    - rewrite H0, <- Hr. by apply (list_elem_of_fmap_2 remap). }
  assert (Hdown : tc (dep (index_tasks out)) (task_id p) (task_id pl)).
  { destruct k as [|k]; [cbn in Hk; injection Hk as <-; by apply tc_once|].
    eapply tc_r; [|exact Hlink]. eapply (parts_chain j t (p0 :: g0) (S k) p 0 p0); try done. lia. }
  destruct (decide (k' = kl)) as [->|Hne']; [by simplify_eq|].
  etrans; [exact Hdown|]. eapply (parts_chain j' t' g' kl pl k' p'); try done. apply lookup_lt_Some in Hk'. lia.
Qed.
End SplitGraph.

Lemma occupied_ids ts : NoDup (map task_id ts) -> foldl (fun s t => set_add (task_id t) s) [] ts = map task_id ts.
Proof.
  intros Hnd. enough (forall s, (forall id, id ∈ map task_id ts -> id ∉ s) -> foldl (fun s t => set_add (task_id t) s) s ts = (s ++ map task_id ts)%list) as H by (apply H; by intros ? _ ?%elem_of_nil).
  induction ts as [|t ts IH]; intros s Hs; cbn [foldl map]; [by rewrite app_nil_r|]. cbn [map] in *. apply NoDup_cons in Hnd as [Ht Hnd].
  rewrite set_add_fresh by (apply Hs; by left). rewrite IH; [by rewrite <- app_assoc|done|].
  intros id Hid. apply not_elem_of_app. split; [apply Hs; by right|]. intros ->%list_elem_of_singleton. done.
Qed.

Lemma dels_out (f : WorksetTask -> list string) l : concat (map dels (map (fun t => with_deps t (f t)) l)) = concat (map dels l).
Proof. rewrite map_map. done. Qed.

(** Splitting oversized tasks is total on worksets with unique ids and keeps
    what matters: the parts are exactly the tasks' deliverables in order, none
    exceeds the limit, ids stay unique even if planned ids look like part names, the
    dependency graph stays closed and acyclic, and every part of a task waits for
    every part of each task it depended on. *)
Theorem split_correct ts limit :
  (0 < limit)%Z -> NoDup (map task_id ts) ->
  exists out final groups, splitWorksetDeliverables ts limit = Ok (out, final) /\ Forall2 (fun t g => concat (map dels g) = dels t /\ Forall (same_binding t) g) ts groups /\
    map task_id out = map task_id (concat groups) /\ NoDup (map task_id out) /\
    Forall (fun t => (deliverable_count t <= limit)%Z) out /\ concat (map dels out) = concat (map dels ts) /\
    (well_founded_graph (index_tasks ts) -> well_founded_graph (index_tasks out)) /\
    (forall i j t t' g g' p p', ts !! i = Some t -> groups !! i = Some g -> ts !! j = Some t' -> groups !! j = Some g' ->
      task_id t' ∈ depends_on t -> p ∈ g -> p' ∈ g' -> tc (dep (index_tasks out)) (task_id p) (task_id p')).
Proof.
  intros Hl Hnd. unfold splitWorksetDeliverables. rewrite (proj2 (Z.leb_gt _ _) Hl).
  rewrite (proj2 (check_unique_ok (map task_id ts) [])) by (split; [done|by intros ? _ ?%elem_of_nil]).
  rewrite occupied_ids by done. destruct (split_tasks (Z.to_nat limit) ts (map task_id ts) []) as [split final] eqn:E.
  apply split_tasks_spec in E as (groups & -> & Hg & Hno & _ & Hfin & Hoth & Hfr); [|lia|done|intros t Ht; by apply list_elem_of_fmap_2].
  eexists _, final, groups. split_and!; [reflexivity| | | | | | |].
  - eapply Forall2_impl; [exact Hg|]. by intros t g [].
  - by rewrite out_ids.
  - by rewrite out_ids.
  - rewrite Forall_map, Forall_concat. apply Forall_forall. intros g Hin. apply list_elem_of_lookup in Hin as [j Hj].
    destruct (Forall2_lookup_r _ _ _ _ _ Hg Hj) as (t & _ & [_ _ _ Hb _ _]). eapply Forall_impl; [exact Hb|].
    intros p Hp. change (Z.of_nat (length (dels p)) <= limit)%Z. simpl in Hp. lia.
  - rewrite dels_out. clear -Hg. induction Hg as [|t g ts gs Htg Hrest IH]; [done|]. cbn [concat map]. rewrite map_app, concat_app, IH.
    by rewrite (g_dels _ _ _ Htg).
  - by apply split_graph_ok with (n := Z.to_nat limit).
  - intros i j t t' g g' p p'. by apply parts_wait with (n := Z.to_nat limit).
Qed.

(** ** Samples *)

Definition sample_task (id : string) (deps : list string) (ds : list string) (files : list string) : WorksetTask :=
  mkWorksetTask id agent (Some "repo") deps true ds (Some ["AC1"]) (Some files) None
    (Some (mkCheckpointPolicy (Fin 5) (Fin 1000))) None.

Definition sample_input : ValidateWorksetInput :=
  mkValidateWorksetInput [mkRepository "repo" ["src/**"]] ["AC1"]
    [sample_task "b" ["a"] ["src\b\"] []; sample_task "a" [] ["src/a/**"] ["x"; "y"; "z"]] DEFAULT_WORKSET_POLICY.

Example sample_accepted : (let! ts := validateWorkset sample_input in Ok (map write_domains ts)) = Ok [["src/b"]; ["src/a/**"]].
Proof. vm_compute. reflexivity. Qed.

Example sample_cycle : assertAcyclic [sample_task "a" ["b"] [] []; sample_task "b" ["a"] [] []] = Err (mkWorksetError CYCLIC_DEPENDENCY "a").
Proof. vm_compute. reflexivity. Qed.

(** A planned id that looks like a part name is avoided. *)
Example sample_split :
  (let! r := splitWorksetDeliverables [sample_task "b" ["a"] [] []; sample_task "a" [] [] ["x"; "y"; "z"]; sample_task "a::part:1" [] [] []] 2 in
   Ok (map (fun t => (task_id t, depends_on t)) (fst r)))
  = Ok [("b", ["a::part:2"]); ("a::part:1:1", []); ("a::part:2", ["a::part:1:1"]); ("a::part:1", [])].
Proof. vm_compute. reflexivity. Qed.

Lemma validateWorkset_iff_witness :
  exists ts, validateWorkset sample_input = Ok ts /\ workset_ok sample_input ts.
Proof.
  eexists. split; [vm_compute; reflexivity|]. eapply (validateWorkset_iff sample_input); [|vm_compute; reflexivity].
  intros rep ->%list_elem_of_singleton. repeat constructor.
Defined.

Lemma split_correct_witness :
  exists out final, splitWorksetDeliverables (tasks sample_input) 2 = Ok (out, final) /\ NoDup (map task_id out) /\
    Forall (fun t => (deliverable_count t <= 2)%Z) out.
Proof.
  destruct (split_correct (tasks sample_input) 2) as (out & final & _ & H & _ & _ & H1 & H2 & _); [lia| |by exists out, final].
  apply (bool_decide_unpack _). vm_compute. exact I.
Defined.
