(* ===== verification/Lanes.v ===== *)
(** * Multi-mission lanes (src/orchestration/lanes.ts, lanesGit.ts)

    Concurrent missions share a repository by claiming write domains. The claim
    operations are pure functions on an array of claims; the in-memory coordinator
    keeps one array per repository, the git coordinator keeps it in a ref of the
    shared origin and replaces it by compare-and-swap pushes
    (src/git/GitRepo.ts, [casPushRef] and [readRemoteRef]). *)

From S2P Require Import Prelude JsMap WriteDomains Workset.
#[local] Open Scope string_scope.
#[local] Open Scope Z_scope.

Definition INTEGRATION_DOMAIN : string := "<integration>".

Record LaneClaim := mkClaim {
  lc_domain : string;
  lc_ownerId : string;
  lc_missionId : string;
  lc_taskId : string;
  lc_fence : Z;
  lc_acquiredAt : Z;
  lc_renewBy : Z;
}.

#[export] Instance LaneClaim_eq_dec : EqDecision LaneClaim.
Proof. solve_decision. Defined.

Record LaneLease := mkLease {
  ll_repoId : string;
  ll_ownerId : string;
  ll_missionId : string;
  ll_taskId : string;
  ll_domains : list string;
  ll_fence : Z;
  ll_renewBy : Z;
}.

Inductive LaneError :=
| LaneBlockedError (blockingClaims : list LaneClaim)
| LaneIndexCorruptError
| LaneInvalidDomain (e : WorksetValidationError)
| LaneCasFailed
| LaneCasExhausted
| GitQueryError.

Notation lane_res := (res LaneError).

Definition lift {A} (r : res WorksetValidationError A) : lane_res A :=
  match r with Ok a => Ok a | Err e => Err (LaneInvalidDomain e) end.

Record LaneAcquireInput := mkAcquire {
  la_repoId : string;
  la_domains : list string;
  la_ownerId : string;
  la_missionId : string;
  la_taskId : string;
}.

Fixpoint normalize_all (ds : list string) : lane_res (list string) :=
  match ds with
  | [] => Ok []
  | d :: ds' => let! n := lift (normalizeDomain d) in let! ns := normalize_all ds' in Ok (n :: ns)
  end.

(** [[...new Set(ds.map(normalizeDomain).filter(d => d.length > 0))]]. *)
Definition lane_domains (ds : list string) : lane_res (list string) :=
  let! ns := normalize_all ds in Ok (js_dedup (js_filter (fun d => negb (bool_decide (d = ""%string))) ns)).

Definition laneDomainsOf (k : TaskKind) (write_domains : list string) : lane_res (list string) :=
  if bool_decide (k = integration) then Ok [INTEGRATION_DOMAIN]
  else let! domains := lane_domains write_domains in Ok (if bool_decide (domains = []) then ["**"%string] else domains).

Definition laneDomainOverlap (a b : string) : lane_res bool :=
  if bool_decide (a = INTEGRATION_DOMAIN) || bool_decide (b = INTEGRATION_DOMAIN) then Ok (bool_decide (a = b))
  else lift (domainsOverlap [a] [b]).

Definition pruneStale (claims : list LaneClaim) (now : Z) : list LaneClaim * list LaneClaim :=
  (js_filter (fun c => now <=? lc_renewBy c) claims, js_filter (fun c => negb (now <=? lc_renewBy c)) claims).

Fixpoint some_overlap (domains : list string) (domain : string) : lane_res bool :=
  match domains with
  | [] => Ok false
  | d :: ds => let! hit := laneDomainOverlap d domain in if hit : bool then Ok true else some_overlap ds domain
  end.

Fixpoint findOverlaps (claims : list LaneClaim) (domains : list string) : lane_res (list LaneClaim) :=
  match claims with
  | [] => Ok []
  | c :: cs =>
      let! hit := some_overlap domains (lc_domain c) in
      let! rest := findOverlaps cs domains in
      Ok (if hit : bool then c :: rest else rest)
  end.

(** One more than the highest fence of the claims on these domains. *)
Definition next_fence (domains : list string) (claims : list LaneClaim) : Z :=
  foldl (fun fence c => if js_includes (lc_domain c) domains && (fence <=? lc_fence c) then lc_fence c + 1 else fence) 1 claims.

Definition is_work (c : LaneClaim) : bool := negb (bool_decide (lc_domain c = INTEGRATION_DOMAIN)).

Definition writers (claims : list LaneClaim) : list string := js_dedup (map lc_taskId (js_filter is_work claims)).

Definition grantClaims (claims : list LaneClaim) (input : LaneAcquireInput) (leaseMs maxRepoWriters now : Z)
    : lane_res (list LaneClaim * LaneLease) :=
  let! domains := lane_domains (la_domains input) in
  let fence := next_fence domains claims in
  let others := js_filter (fun c => (now <=? lc_renewBy c) && negb (bool_decide (lc_taskId c = la_taskId input))) claims in
  let! blocking := findOverlaps others domains in
  if negb (bool_decide (blocking = [])) then Err (LaneBlockedError blocking)
  else
    let integrationOnly := js_every (fun d => bool_decide (d = INTEGRATION_DOMAIN)) domains in
    if negb integrationOnly && (0 <? maxRepoWriters) && (maxRepoWriters <=? js_len (writers others))
    then Err (LaneBlockedError (js_filter is_work others))
    else
      let renewBy := now + leaseMs in
      let granted := map (fun d => mkClaim d (la_ownerId input) (la_missionId input) (la_taskId input) fence now renewBy) domains in
      Ok ((others ++ granted)%list,
          mkLease (la_repoId input) (la_ownerId input) (la_missionId input) (la_taskId input) domains fence renewBy).

Definition held_by (l : LaneLease) (c : LaneClaim) : bool :=
  bool_decide (lc_taskId c = ll_taskId l) && (lc_fence c =? ll_fence l).

Definition with_renewBy (renewBy : Z) (c : LaneClaim) : LaneClaim :=
  mkClaim (lc_domain c) (lc_ownerId c) (lc_missionId c) (lc_taskId c) (lc_fence c) (lc_acquiredAt c) renewBy.

Definition renewClaims (claims : list LaneClaim) (l : LaneLease) (leaseMs now : Z) : list LaneClaim * option LaneLease :=
  let renewBy := now + leaseMs in
  (map (fun c => if held_by l c then with_renewBy renewBy c else c) claims,
   if js_some (held_by l) claims
   then Some (mkLease (ll_repoId l) (ll_ownerId l) (ll_missionId l) (ll_taskId l) (ll_domains l) (ll_fence l) renewBy)
   else None).

Definition releaseClaims (claims : list LaneClaim) (l : LaneLease) : list LaneClaim :=
  js_filter (fun c => negb (held_by l c)) claims.

(** ** The in-memory coordinator *)

Record LaneConfig := mkLaneConfig { lanes_leaseMs : Z; lanes_maxRepoWriters : Z }.
Definition DEFAULT_LANE_CONFIG : LaneConfig := mkLaneConfig 300000 4.

(** The constructor's corrections of the configured values. *)
Definition coordinator_config (c : LaneConfig) : LaneConfig :=
  mkLaneConfig (if 0 <? lanes_leaseMs c then lanes_leaseMs c else lanes_leaseMs DEFAULT_LANE_CONFIG)
               (if 0 <=? lanes_maxRepoWriters c then lanes_maxRepoWriters c else lanes_maxRepoWriters DEFAULT_LANE_CONFIG).

Notation Repos := (jsmap string (list LaneClaim)).

Section InMemory.
Context (cfg : LaneConfig).

Definition claims_of (repos : Repos) (r : string) : list LaneClaim := nullish (map_get r repos) [].

Definition acquire (now : Z) (input : LaneAcquireInput) (repos : Repos) : Repos * lane_res LaneLease :=
  match grantClaims (claims_of repos (la_repoId input)) input (lanes_leaseMs cfg) (lanes_maxRepoWriters cfg) now with
  | Ok (claims, l) => (map_set (la_repoId input) claims repos, Ok l)
  | Err e => (repos, Err e)
  end.

Definition renew (now : Z) (l : LaneLease) (repos : Repos) : Repos * option LaneLease :=
  let '(claims, next) := renewClaims (claims_of repos (ll_repoId l)) l (lanes_leaseMs cfg) now in
  (map_set (ll_repoId l) claims repos, next).

Definition release (l : LaneLease) (repos : Repos) : Repos :=
  map_set (ll_repoId l) (releaseClaims (claims_of repos (ll_repoId l)) l) repos.

Definition listClaims (now : Z) (r : string) (repos : Repos) : list LaneClaim := fst (pruneStale (claims_of repos r) now).

Inductive LaneOp :=
| op_acquire (now : Z) (input : LaneAcquireInput)
| op_renew (now : Z) (l : LaneLease)
| op_release (l : LaneLease).

Definition run_op (o : LaneOp) (repos : Repos) : Repos :=
  match o with
  | op_acquire now input => fst (acquire now input repos)
  | op_renew now l => fst (renew now l repos)
  | op_release l => release l repos
  end.

Definition run_ops (os : list LaneOp) (repos : Repos) : Repos := foldl (fun s o => run_op o s) repos os.
End InMemory.

(** ** The git coordinator *)

(** The payload of a lane ref, as [parseIndex] sees it. *)
Inductive Index := index (claims : list LaneClaim) | corrupt.

#[export] Instance Index_eq_dec : EqDecision Index.
Proof. solve_decision. Defined.

(** A lane commit is an orphan with a fixed identity: its id is determined by its
    payload and the second it was made in. *)
Definition Sha : Type := Index * Z.

(** How a push whose lease matches ends: it succeeds; it fails and the remote ref is as
    it was; or the remote moved the ref and the command fails all the same, because the
    connection broke before the report. *)
Inductive PushEnd := push_done | push_failed | push_unreported.
#[global] Instance PushEnd_eq_dec : EqDecision PushEnd.
Proof. solve_decision. Defined.

(** What the other hosts do: [env k] changes the remote ref before the [k]-th git
    command of this host; [clock k] and [push k] are the time it runs at and how a
    push ends. *)
Section Git.
Context (cfg : LaneConfig) (env : nat -> option Sha -> option Sha) (clock : nat -> Z) (push : nat -> PushEnd).

Record Origin := mkOrigin { o_ref : option Sha; o_calls : nat }.

Definition tick (o : Origin) : Origin := mkOrigin (env (o_calls o) (o_ref o)) (S (o_calls o)).
Definition time_at (o : Origin) : Z := clock (o_calls o).

(** [git ls-remote], then [git fetch] of the ref into a temporary one. *)
Definition readRemoteRef (o : Origin) : Origin * lane_res (option Sha) :=
  let o1 := tick o in
  match o_ref o1 with
  | None => (o1, Ok None)
  | Some _ =>
      let o2 := tick o1 in
      match o_ref o2 with
      | None => (o2, Err GitQueryError)
      | Some sha => (o2, Ok (Some sha))
      end
  end.

Definition parseIndex (i : Index) : lane_res (list LaneClaim) :=
  match i with index claims => Ok claims | corrupt => Err LaneIndexCorruptError end.

Definition readIndex (o : Origin) : Origin * lane_res (option (Sha * list LaneClaim)) :=
  let '(o1, r) := readRemoteRef o in
  (o1, let! read := r in
       match read with
       | None => Ok None
       | Some sha => let! claims := parseIndex (fst sha) in Ok (Some (sha, claims))
       end).

(** [git ls-remote] after a push that exited with an error. *)
Definition push_rejected (expectedSha : option Sha) (o : Origin) : Origin * lane_res (bool * option Sha) :=
  let o1 := tick o in
  if bool_decide (o_ref o1 = expectedSha) then (o1, Err GitQueryError) else (o1, Ok (false, o_ref o1)).

(** [git push --force-with-lease]. *)
Definition casPushRef (content : Index) (expectedSha : option Sha) (o : Origin) : Origin * lane_res (bool * option Sha) :=
  let o1 := tick o in
  let commit := (content, time_at o / 1000) in
  if bool_decide (o_ref o1 = expectedSha) then
    match push (o_calls o) with
    | push_done => (mkOrigin (Some commit) (o_calls o1), Ok (true, Some commit))
    | push_failed => push_rejected expectedSha o1
    | push_unreported => push_rejected expectedSha (mkOrigin (Some commit) (o_calls o1))
    end
  else push_rejected expectedSha o1.

Definition RETRY_MAX_ATTEMPTS : nat := 8.

(** The loop of [casMutate]; [rest] is the number of further attempts. The result
    carries the stale claims it reports. *)
Fixpoint cas_loop {T} (mutate : Z -> list LaneClaim -> lane_res (list LaneClaim * T)) (rest : nat)
    (last : option (Sha * list LaneClaim)) (o : Origin) : Origin * lane_res (T * list LaneClaim) :=
  let claims := match last with Some (_, c) => c | None => [] end in
  let stale := snd (pruneStale claims (time_at o)) in
  match mutate (time_at o) claims with
  | Err e => (o, Err e)
  | Ok (claims', result) =>
      match casPushRef (index claims') (fst <$> last) o with
      | (o1, Err e) => (o1, Err e)
      | (o1, Ok (true, _)) => (o1, Ok (result, stale))
      | (o1, Ok (false, remoteSha)) =>
          match readIndex o1 with
          | (o2, Err e) => (o2, Err e)
          | (o2, Ok refreshed) =>
              if bool_decide (is_Some refreshed) && bool_decide (fst <$> refreshed = remoteSha) then (o2, Err LaneCasFailed)
              else match rest with
                   | O => (o2, Err LaneCasExhausted)
                   | S rest' => cas_loop mutate rest' refreshed o2
                   end
          end
      end
  end.

Definition casMutate {T} (mutate : Z -> list LaneClaim -> lane_res (list LaneClaim * T)) (o : Origin) : Origin * lane_res (T * list LaneClaim) :=
  match readIndex o with
  | (o1, Err e) => (o1, Err e)
  | (o1, Ok last) => cas_loop mutate RETRY_MAX_ATTEMPTS last o1
  end.

Definition git_acquire (input : LaneAcquireInput) : Origin -> Origin * lane_res (LaneLease * list LaneClaim) :=
  casMutate (fun now claims => grantClaims claims input (lanes_leaseMs cfg) (lanes_maxRepoWriters cfg) now).

Definition git_renew (l : LaneLease) : Origin -> Origin * lane_res (option LaneLease * list LaneClaim) :=
  casMutate (fun now claims => Ok (renewClaims claims l (lanes_leaseMs cfg) now)).

Definition git_release (l : LaneLease) : Origin -> Origin * lane_res (unit * list LaneClaim) :=
  casMutate (fun now claims => Ok (releaseClaims claims l, tt)).
End Git.

(** ** The atomic operations *)

Inductive lane_step (cfg : LaneConfig) : list LaneClaim -> list LaneClaim -> Prop :=
| step_grant claims input now claims' l :
    grantClaims claims input (lanes_leaseMs cfg) (lanes_maxRepoWriters cfg) now = Ok (claims', l) -> lane_step cfg claims claims'
| step_renew claims l now : lane_step cfg claims (fst (renewClaims claims l (lanes_leaseMs cfg) now))
| step_release claims l : lane_step cfg claims (releaseClaims claims l).

(** Two claims conflict: both integrate, or both write some path. *)
Definition lane_conflict (a b : string) : Prop :=
  a = INTEGRATION_DOMAIN /\ b = INTEGRATION_DOMAIN \/
  a <> INTEGRATION_DOMAIN /\ b <> INTEGRATION_DOMAIN /\ exists path, covers a path /\ covers b path.

(** The invariant of a repository's claims, stale ones included: no two tasks
    conflict, and the writer cap is respected. *)
Record claims_ok (cfg : LaneConfig) (claims : list LaneClaim) : Prop := {
  co_valid : forall c, c ∈ claims -> valid_domain (lc_domain c);
  co_exclusive : forall c c', c ∈ claims -> c' ∈ claims -> lane_conflict (lc_domain c) (lc_domain c') -> lc_taskId c = lc_taskId c';
  co_cap : 0 < lanes_maxRepoWriters cfg -> js_len (writers claims) <= lanes_maxRepoWriters cfg;
}.

Lemma lane_conflict_sym a b : lane_conflict a b -> lane_conflict b a.
Proof. intros [[? ?]|(? & ? & p & ? & ?)]; [by left|right]. split_and!; [done|done|]. by exists p. Qed.

Lemma integration_valid : valid_domain INTEGRATION_DOMAIN.
Proof. reflexivity. Qed.

Lemma normalize_canonical d n : normalizeDomain d = Ok n -> valid_domain n.
Proof.
  unfold normalizeDomain. rewrite res_bind_ok. intros (c & Ec & [= <-]). apply canonicalize_canonical in Ec as (H1 & H2 & H3 & H4).
  unfold valid_domain. rewrite canonical_canonicalize; [done|]. pose proof (strip_glob c) as Hs.
  destruct (strip_suffix_spec "/**" c) as [H|[H _]]; [|by rewrite H].
  set (n := strip_suffix "/**" c) in *. clearbody n. subst c. split_and!.
  - rewrite has_char_app in H1. by apply orb_false_iff in H1 as [H1 _].
  - destruct (js_startsWith n "/") eqn:E; [|done]. by rewrite (startsWith_extend n) in H2.
  - destruct (drive n) eqn:E; [|done]. by rewrite (drive_app n) in H3.
  - rewrite Hs. unfold normal_segments. case_match; [by apply Forall_take|done].
Qed.

Lemma laneDomainOverlap_ok a b :
  valid_domain a -> valid_domain b -> exists hit, laneDomainOverlap a b = Ok hit /\ (hit = true <-> lane_conflict a b).
Proof.
  intros Ha Hb. unfold laneDomainOverlap, lane_conflict. destruct (bool_decide (a = INTEGRATION_DOMAIN)) eqn:Ea; bool_to_prop; cbn [orb].
  { subst a. eexists. split; [done|]. rewrite bool_decide_eq_true. split; [intros <-; by left|]. intros [[_ ->]|(? & _)]; done. }
  destruct (bool_decide (b = INTEGRATION_DOMAIN)) eqn:Eb; bool_to_prop.
  { subst b. eexists. split; [done|]. rewrite bool_decide_eq_true. split; [done|]. intros [[? _]|(_ & ? & _)]; done. }
  destruct (domainsOverlap_inner_ok a [b] Ha) as (h & E & H); [by constructor|]. exists h.
  cbn [domainsOverlap]. rewrite E. cbn [res_bind]. split; [by destruct h|]. rewrite H. split.
  - intros (y & p & ->%list_elem_of_singleton & ? & ?). right. eauto.
  - intros [[? _]|(_ & _ & p & ? & ?)]; [done|]. exists b, p. split; [by left|done].
Qed.

Lemma some_overlap_ok ds d :
  Forall valid_domain ds -> valid_domain d ->
  exists hit, some_overlap ds d = Ok hit /\ (hit = true <-> exists x, x ∈ ds /\ lane_conflict x d).
Proof.
  intros Hds Hd. induction ds as [|x ds IH]; cbn [some_overlap].
  { exists false. split; [done|]. split; [done|]. by intros (x & ?%elem_of_nil & _). }
  apply Forall_cons in Hds as [Hx Hds]. destruct (IH Hds) as (h & E & H), (laneDomainOverlap_ok x d Hx Hd) as (h1 & E1 & H1).
  rewrite E1. cbn [res_bind]. destruct h1.
  - exists true. split; [done|]. split; [|done]. intros _. exists x. split; [by left|by apply H1].
  - exists h. split; [done|]. rewrite H. split; [intros (y & ? & ?); exists y; split; [by right|done]|].
    intros (y & [->|Hy]%elem_of_cons & Hc); [by apply H1 in Hc|eauto].
Qed.

Lemma findOverlaps_ok claims ds :
  Forall valid_domain ds -> (forall c, c ∈ claims -> valid_domain (lc_domain c)) ->
  exists hits, findOverlaps claims ds = Ok hits /\
    forall c, c ∈ hits <-> c ∈ claims /\ exists d, d ∈ ds /\ lane_conflict d (lc_domain c).
Proof.
  intros Hds. induction claims as [|c cs IH]; intros Hv; cbn [findOverlaps].
  { exists []. split; [done|]. set_solver. }
  destruct IH as (hits & E & H); [intros; apply Hv; by right|].
  destruct (some_overlap_ok ds (lc_domain c) Hds) as (h & E1 & H1); [apply Hv; by left|]. rewrite E1, E. cbn [res_bind].
  destruct h; eexists; (split; [done|]); intros x; rewrite ?elem_of_cons, H, ?elem_of_cons.
  - split; [|naive_solver]. intros [->|?]; [|naive_solver]. split; [by left|by apply H1].
  - split; [naive_solver|]. intros [[->|?] Hc]; [|done]. by apply H1 in Hc.
Qed.

Lemma normalize_all_ok ds ns : normalize_all ds = Ok ns -> Forall valid_domain ns.
Proof.
  revert ns. induction ds as [|d ds IH]; intros ns; cbn [normalize_all]; [by intros [= <-]; constructor|].
  destruct (normalizeDomain d) as [n|] eqn:E; [|done]. cbn. destruct (normalize_all ds) as [rest|]; [|done]. cbn.
  intros [= <-]. constructor; [by eapply normalize_canonical|by apply IH].
Qed.

Lemma lane_domains_ok ds ns : lane_domains ds = Ok ns -> Forall valid_domain ns.
Proof.
  unfold lane_domains. rewrite res_bind_ok. intros (l & El & [= <-]). apply normalize_all_ok in El.
  rewrite Forall_forall in El |- *. intros x Hx. rewrite js_dedup_elem, js_filter_elem in Hx. destruct Hx. by apply El.
Qed.

Definition key (c : LaneClaim) : string * string := (lc_domain c, lc_taskId c).

Lemma writers_elem claims t : t ∈ writers claims <-> exists c, c ∈ claims /\ is_work c = true /\ lc_taskId c = t.
Proof.
  unfold writers. rewrite js_dedup_elem, list_elem_of_fmap. setoid_rewrite js_filter_elem. naive_solver.
Qed.

Lemma writers_le l l' : (forall t, t ∈ writers l' -> t ∈ writers l) -> js_len (writers l') <= js_len (writers l).
Proof. intros H. unfold js_len. apply inj_le, NoDup_length_le; [apply js_dedup_NoDup|done]. Qed.

(** Dropping claims or changing only their terms keeps the invariant. *)
Lemma claims_ok_sub cfg claims claims' :
  claims_ok cfg claims -> (forall c', c' ∈ claims' -> exists c, c ∈ claims /\ key c = key c') -> claims_ok cfg claims'.
Proof.
  intros [Hv He Hc] Hsub. unfold key in Hsub. split.
  - intros c Hin. destruct (Hsub c Hin) as (c1 & H1 & [= <- _]). by apply Hv.
  - intros c c' Hin Hin'. destruct (Hsub c Hin) as (c1 & H1 & [= <- <-]), (Hsub c' Hin') as (c2 & H2 & [= <- <-]). by apply He.
  - intros Hpos. etrans; [|by apply Hc]. apply writers_le. intros t (c & Hin & Hw & <-)%writers_elem.
    destruct (Hsub c Hin) as (c1 & H1 & [= Hd Ht]). apply writers_elem. exists c1. split_and!; [done| |done].
    unfold is_work in *. by rewrite Hd.
Qed.

Lemma grant_ok cfg claims input now claims' l :
  claims_ok cfg claims -> grantClaims claims input (lanes_leaseMs cfg) (lanes_maxRepoWriters cfg) now = Ok (claims', l) ->
  claims_ok cfg claims'.
Proof.
  intros Hok. unfold grantClaims. rewrite res_bind_ok. intros (ds & Eds & H). apply lane_domains_ok in Eds.
  set (others := js_filter _ claims) in *.
  assert (Ho : claims_ok cfg others).
  { eapply claims_ok_sub; [exact Hok|]. intros c [Hc _]%js_filter_elem. by exists c. }
  destruct (findOverlaps_ok others ds Eds (co_valid _ _ Ho)) as (hits & Eh & Hh). rewrite Eh in H. cbn [res_bind] in H.
  destruct (bool_decide (hits = [])) eqn:E0; [|done]. bool_to_prop. subst hits. cbn [negb] in H.
  destruct (negb _ && _ && _) eqn:Ecap in H; [done|]. injection H as <- _.
  assert (Hgr : forall c, c ∈ map (fun d => mkClaim d (la_ownerId input) (la_missionId input) (la_taskId input) (next_fence ds claims) now (now + lanes_leaseMs cfg)) ds ->
     lc_domain c ∈ ds /\ lc_taskId c = la_taskId input).
  { intros c (d & -> & Hd)%list_elem_of_fmap. done. }
  assert (Hfree : forall c d, c ∈ others -> d ∈ ds -> ~ lane_conflict d (lc_domain c)).
  { intros c d Hc Hd Hconf. assert (c ∈ []) as Hn by (apply Hh; eauto). by apply elem_of_nil in Hn. }
  split.
  - intros c [Hc|Hc]%elem_of_app; [by apply Ho|]. apply Hgr in Hc as [Hd _]. rewrite Forall_forall in Eds. by apply Eds.
  - intros c c' [Hc|Hc]%elem_of_app [Hc'|Hc']%elem_of_app Hconf.
    + by apply (co_exclusive _ _ Ho).
    + apply Hgr in Hc' as [Hd _]. apply lane_conflict_sym in Hconf. by apply Hfree in Hconf.
    + apply Hgr in Hc as [Hd _]. by apply Hfree in Hconf.
    + apply Hgr in Hc as [_ ->], Hc' as [_ ->]. done.
  - intros Hpos. destruct (js_every _ ds) eqn:Eint.
    + etrans; [|by apply (co_cap _ _ Ho)]. apply writers_le. intros t (c & [Hc|Hc]%elem_of_app & Hw & <-)%writers_elem; [by apply writers_elem; eauto|].
      apply Hgr in Hc as [Hd _]. rewrite js_every_true in Eint. apply Eint in Hd. unfold is_work in Hw. bool_to_prop. done.
    + cbn [negb andb] in Ecap. apply andb_false_iff in Ecap as [Ecap|Ecap]; bool_to_prop; [lia|].
      apply Z.leb_gt in Ecap. unfold js_len in *.
      enough (length (writers (others ++ map (fun d => mkClaim d (la_ownerId input) (la_missionId input) (la_taskId input) (next_fence ds claims) now (now + lanes_leaseMs cfg)) ds)) <= length (la_taskId input :: writers others))%nat by (simpl in *; lia).
      apply NoDup_length_le; [apply js_dedup_NoDup|]. intros t (c & [Hc|Hc]%elem_of_app & Hw & <-)%writers_elem.
      * right. apply writers_elem. eauto.
      * apply Hgr in Hc as [_ ->]. by left.
Qed.

Lemma lane_step_ok cfg claims claims' : lane_step cfg claims claims' -> claims_ok cfg claims -> claims_ok cfg claims'.
Proof.
  intros [c input now c' l H|c l now|c l] Hok.
  - by eapply grant_ok.
  - eapply claims_ok_sub; [exact Hok|]. intros x (y & -> & Hy)%list_elem_of_fmap. exists y. split; [done|]. by case_match.
  - eapply claims_ok_sub; [exact Hok|]. intros x [Hx _]%js_filter_elem. by exists x.
Qed.

Lemma claims_ok_nil cfg : claims_ok cfg [].
Proof. split; [by intros ? ?%elem_of_nil|by intros ? ? ?%elem_of_nil|]. intros H. unfold js_len. simpl. lia. Qed.

(** ** The in-memory coordinator *)

Section InMemoryProofs.
Context (cfg : LaneConfig).

Lemma claims_of_set r r' claims repos :
  claims_of (map_set r claims repos) r' = if decide (r = r') then claims else claims_of repos r'.
Proof. unfold claims_of. rewrite map_get_set. by case_decide. Qed.

(** Each operation is one atomic step on one repository. *)
Lemma run_op_step o repos r : lane_step cfg (claims_of repos r) (claims_of (run_op cfg o repos) r) \/ claims_of (run_op cfg o repos) r = claims_of repos r.
Proof.
  destruct o as [now input|now l|l]; cbn [run_op].
  - unfold acquire. destruct (grantClaims _ _ _ _ _) as [[claims l]|e] eqn:E; cbn [fst]; [|by right].
    rewrite claims_of_set. case_decide; [subst r; left; by eapply step_grant|by right].
  - unfold renew. cbn [renewClaims fst]. rewrite claims_of_set. case_decide; [subst r; left; apply step_renew|by right].
  - unfold release. rewrite claims_of_set. case_decide; [subst r; left; apply step_release|by right].
Qed.

Lemma run_ops_ok os repos : (forall r, claims_ok cfg (claims_of repos r)) -> forall r, claims_ok cfg (claims_of (run_ops cfg os repos) r).
Proof.
  unfold run_ops. revert repos. induction os as [|o os IH]; intros repos Hr; cbn [foldl]; [done|]. apply IH. intros r.
  destruct (run_op_step o repos r) as [H| ->]; [|done]. by eapply lane_step_ok.
Qed.

(** C14: whatever missions acquire, renew and release, and whatever their clocks
    show, the claims recorded for a repository never conflict: no path is claimed by
    two tasks, at most one task holds the integration lane, and with a cap at most
    that many tasks write. *)
Theorem lanes_exclusive os r :
  let claims := claims_of (run_ops cfg os []) r in
  (forall c c' path, c ∈ claims -> c' ∈ claims -> is_work c = true -> is_work c' = true ->
     covers (lc_domain c) path -> covers (lc_domain c') path -> lc_taskId c = lc_taskId c') /\
  (forall c c', c ∈ claims -> c' ∈ claims -> is_work c = false -> is_work c' = false -> lc_taskId c = lc_taskId c') /\
  (0 < lanes_maxRepoWriters cfg -> js_len (writers claims) <= lanes_maxRepoWriters cfg).
Proof.
  intros claims. destruct (run_ops_ok os [] (fun r => claims_ok_nil cfg) r) as [_ He Hc]. fold claims in He, Hc.
  unfold is_work. split_and!; [| |done].
  - intros c c' p H1 H2 W1 W2 C1 C2. bool_to_prop. apply He; [done|done|]. right. eauto.
  - intros c c' H1 H2 W1 W2. bool_to_prop. apply He; [done|done|]. by left.
Qed.

(** ** What a lease gives its holder *)

Definition op_task (o : LaneOp) : string :=
  match o with op_acquire _ input => la_taskId input | op_renew _ l | op_release l => ll_taskId l end.
Definition op_time (o : LaneOp) : option Z :=
  match o with op_acquire now _ | op_renew now _ => Some now | op_release _ => None end.

Lemma held_by_true l c : held_by l c = true <-> lc_taskId c = ll_taskId l /\ lc_fence c = ll_fence l.
Proof. unfold held_by. by rewrite andb_true_iff, bool_decide_eq_true, Z.eqb_eq. Qed.

(** The claims of a lease are recorded, with at least its term. *)
Definition lease_held (l : LaneLease) (repos : Repos) : Prop :=
  forall d, d ∈ ll_domains l -> exists c, c ∈ claims_of repos (ll_repoId l) /\ lc_domain c = d /\ held_by l c = true /\ ll_renewBy l <= lc_renewBy c.

Lemma acquire_held now input repos repos' l : acquire cfg now input repos = (repos', Ok l) -> lease_held l repos'.
Proof.
  unfold acquire. destruct (grantClaims _ _ _ _ _) as [[claims l']|e] eqn:E; [|done]. intros [= <- <-].
  unfold grantClaims in E. apply res_bind_ok in E as (ds & _ & E). apply res_bind_ok in E as (hits & _ & E).
  destruct (negb (bool_decide (hits = []))); [done|]. case_match; [done|]. injection E as <- <-.
  intros d Hd. cbn [ll_domains ll_repoId] in *. rewrite claims_of_set, decide_True by done. eexists. split_and!.
  - apply elem_of_app. right. apply list_elem_of_fmap. by exists d.
  - done.
  - unfold held_by. cbn. by rewrite bool_decide_eq_true_2, Z.eqb_refl.
  - cbn. lia.
Qed.

Lemma run_op_held o l repos :
  op_task o <> ll_taskId l -> (forall now, op_time o = Some now -> now <= ll_renewBy l) -> lease_held l repos -> lease_held l (run_op cfg o repos).
Proof.
  intros Hne Htime Hl d Hd. destruct (Hl d Hd) as (c & Hc & Hcd & Hh & Hr). exists c. split_and!; try done.
  assert (Ht : lc_taskId c = ll_taskId l) by by apply held_by_true in Hh as [? _].
  destruct o as [now input|now l'|l']; cbn [run_op op_task op_time] in *.
  - unfold acquire. destruct (grantClaims _ _ _ _ _) as [[claims x]|e] eqn:E; cbn [fst]; [|done].
    rewrite claims_of_set. case_decide as Er; [|done]. rewrite Er in E. unfold grantClaims in E.
    apply res_bind_ok in E as (ds & _ & E). apply res_bind_ok in E as (hits & _ & E).
    destruct (negb (bool_decide (hits = []))); [done|]. case_match; [done|]. injection E as <- _.
    apply elem_of_app. left. apply js_filter_elem. split; [done|]. apply andb_true_iff. split; [apply Z.leb_le; specialize (Htime now eq_refl); lia|].
    apply negb_true_iff, bool_decide_eq_false. congruence.
  - unfold renew. cbn [renewClaims fst]. rewrite claims_of_set. case_decide as Er; [|done]. rewrite Er.
    apply list_elem_of_fmap. exists c. split; [|done]. unfold held_by. rewrite bool_decide_eq_false_2 by congruence. done.
  - unfold release. rewrite claims_of_set. case_decide as Er; [|done]. rewrite Er. apply js_filter_elem. split; [done|].
    unfold held_by. by rewrite bool_decide_eq_false_2 by congruence.
Qed.

(** A lease protects its holder for its term: as long as the clock readings
    of the other missions' operations do not pass [renewBy], the holder's claims stay
    recorded, and a request of another task for a conflicting domain is refused as
    blocked. *)
Theorem lease_protects now0 input0 repos0 repos l os now input d ds :
  (forall r, claims_ok cfg (claims_of repos0 r)) ->
  acquire cfg now0 input0 repos0 = (repos, Ok l) ->
  Forall (fun o => op_task o <> ll_taskId l /\ forall t, op_time o = Some t -> t <= ll_renewBy l) os ->
  lane_domains (la_domains input) = Ok ds -> la_repoId input = ll_repoId l -> la_taskId input <> ll_taskId l -> now <= ll_renewBy l ->
  d ∈ ll_domains l -> (exists x, x ∈ ds /\ lane_conflict x d) ->
  lease_held l (run_ops cfg os repos) /\
  exists blocking, acquire cfg now input (run_ops cfg os repos) = (run_ops cfg os repos, Err (LaneBlockedError blocking)) /\ blocking <> [].
Proof.
  intros Hok0 Hacq Hos Eds Er Hne Hnow Hd Hconf.
  assert (Hok : forall r, claims_ok cfg (claims_of (run_ops cfg os repos) r)).
  { apply run_ops_ok. intros r. replace repos with (run_op cfg (op_acquire now0 input0) repos0) by (cbn [run_op]; by rewrite Hacq).
    destruct (run_op_step (op_acquire now0 input0) repos0 r) as [H| ->]; [|done]. by eapply lane_step_ok. }
  assert (Hl : lease_held l (run_ops cfg os repos)).
  { apply acquire_held in Hacq. clear Hok Hd. unfold run_ops. revert repos Hacq Hos. induction os as [|o os IH]; intros repos Hacq Hos; cbn [foldl]; [done|].
    apply Forall_cons in Hos as [[H1 H2] Hos]. apply IH; [|done]. by apply run_op_held. }
  split; [done|]. destruct (Hl d Hd) as (c & Hc & <- & Hh & Hr).
  unfold acquire. rewrite Er. set (repos1 := run_ops cfg os repos) in *. unfold grantClaims. rewrite Eds. cbn [res_bind].
  set (others := js_filter _ (claims_of repos1 (ll_repoId l))).
  destruct (findOverlaps_ok others ds) as (hits & -> & Hh').
  { by eapply lane_domains_ok. }
  { intros x [Hx _]%js_filter_elem. by apply (Hok (ll_repoId l)). }
  cbn [res_bind]. assert (Hin : c ∈ hits).
  { apply Hh'. split; [|done]. apply js_filter_elem. split; [done|]. apply andb_true_iff. split; [apply Z.leb_le; lia|].
    apply negb_true_iff, bool_decide_eq_false. apply held_by_true in Hh as [? _]. congruence. }
  rewrite bool_decide_eq_false_2 by (by intros ->; apply elem_of_nil in Hin). cbn [negb]. exists hits. split; [done|].
  by intros ->; apply elem_of_nil in Hin.
Qed.
End InMemoryProofs.

(** ** The git coordinator *)

Definition ref_claims (r : option Sha) : option (list LaneClaim) :=
  match r with
  | None => Some []
  | Some (index claims, _) => Some claims
  | Some (corrupt, _) => None
  end.

Section GitProofs.
Context (cfg : LaneConfig) (env : nat -> option Sha -> option Sha) (clock : nat -> Z) (push : nat -> PushEnd).

(** The remote ref changes by what the other hosts do. *)
Definition others_step (r r' : option Sha) : Prop := exists k, r' = env k r.

Lemma tick_others o : others_step (o_ref o) (o_ref (tick env o)).
Proof. by exists (o_calls o). Qed.

Definition last_claims (last : option (Sha * list LaneClaim)) : list LaneClaim := match last with Some (_, c) => c | None => [] end.

Lemma readIndex_spec o o' r :
  readIndex env o = (o', r) ->
  rtc others_step (o_ref o) (o_ref o') /\
  forall last, r = Ok last -> fst <$> last = o_ref o' /\ ref_claims (o_ref o') = Some (last_claims last).
Proof.
  unfold readIndex, readRemoteRef. destruct (o_ref (tick env o)) as [s|] eqn:E1.
  - destruct (o_ref (tick env (tick env o))) as [s2|] eqn:E2; intros [= <- <-].
    + split; [eapply rtc_l; [apply tick_others|eapply rtc_once, tick_others]|]. rewrite E2. cbn [res_bind].
      destruct s2 as [[c|] sec]; cbn [fst parseIndex res_bind]; [|done]. by intros last [= <-].
    + split; [eapply rtc_l; [apply tick_others|eapply rtc_once, tick_others]|done].
  - intros [= <- <-]. split; [eapply rtc_once, tick_others|]. rewrite E1. by intros last [= <-].
Qed.

Lemma push_rejected_spec expected o o' r :
  push_rejected env expected o = (o', r) ->
  (forall s, r <> Ok (true, s)) /\ others_step (o_ref o) (o_ref o') /\ forall s, r = Ok (false, s) -> s = o_ref o' /\ s <> expected.
Proof.
  unfold push_rejected. destruct (bool_decide (o_ref (tick env o) = expected)) eqn:E; intros [= <- <-]; (split; [done|]);
    (split; [apply tick_others|]); [done|]. bool_to_prop. by intros s [= <-].
Qed.

Lemma casPushRef_spec content expected o o' r :
  casPushRef env clock push content expected o = (o', r) ->
  (exists sha, r = Ok (true, Some sha) /\ others_step (o_ref o) expected /\ o_ref o' = Some sha /\ fst sha = content) \/
  ((forall s, r <> Ok (true, s)) /\ (forall s, r = Ok (false, s) -> s = o_ref o' /\ s <> expected) /\
   (rtc others_step (o_ref o) (o_ref o') \/
    exists sha, (exists k, push k = push_unreported) /\ others_step (o_ref o) expected /\ fst sha = content /\ others_step (Some sha) (o_ref o'))).
Proof.
  unfold casPushRef. pose proof (tick_others o) as Ht. destruct (bool_decide (o_ref (tick env o) = expected)) eqn:E.
  2: { intros (H1 & H2 & H3)%push_rejected_spec. right. split_and!; [done|done|]. left. eapply rtc_l; [exact Ht|by apply rtc_once]. }
  bool_to_prop. rewrite E in Ht. destruct (push (o_calls o)) eqn:Ep.
  - intros [= <- <-]. left. by eexists.
  - intros (H1 & H2 & H3)%push_rejected_spec. right. split_and!; [done|done|]. left. rewrite E in H2. eapply rtc_l; [exact Ht|by apply rtc_once].
  - intros (H1 & H2 & H3)%push_rejected_spec. right. split_and!; [done|done|]. right. cbn in H2. eexists. split_and!; [by eexists|done| |exact H2]. done.
Qed.

(** The operation applied to the claims the remote holds. *)
Definition own_step {T} (mutate : Z -> list LaneClaim -> lane_res (list LaneClaim * T)) (r r' : option Sha) : Prop :=
  exists claims claims' x now sec, ref_claims r = Some claims /\ mutate now claims = Ok (claims', x) /\ r' = Some (index claims', sec).

(** What happens to the ref besides the push that succeeds: what the others do, and the
    operation itself where a push moved the ref and was reported as failed. *)
Definition ref_step {T} (mutate : Z -> list LaneClaim -> lane_res (list LaneClaim * T)) (r r' : option Sha) : Prop :=
  others_step r r' \/ ((exists k, push k = push_unreported) /\ own_step mutate r r').

(** The outcome of an operation: on success its last replacement of the index is of claims
    the remote held at that moment, with the result it returns; on failure the ref is left
    where the steps above led. *)
Definition atomic_outcome {T} (mutate : Z -> list LaneClaim -> lane_res (list LaneClaim * T)) (r : option Sha) (o' : Origin)
    (res : lane_res (T * list LaneClaim)) : Prop :=
  match res with
  | Err _ => rtc (ref_step mutate) r (o_ref o')
  | Ok (x, _) => exists before claims claims' now sec, rtc (ref_step mutate) r before /\ ref_claims before = Some claims /\
                   mutate now claims = Ok (claims', x) /\ o_ref o' = Some (index claims', sec)
  end.

Lemma others_steps {T} (mutate : Z -> list LaneClaim -> lane_res (list LaneClaim * T)) r r' : rtc others_step r r' -> rtc (ref_step mutate) r r'.
Proof. apply rtc_subrel. intros x y H. by left. Qed.

(** Without pushes that move the ref unreported, only the others change it. *)
Lemma reported_steps {T} (mutate : Z -> list LaneClaim -> lane_res (list LaneClaim * T)) r r' :
  (forall k, push k <> push_unreported) -> rtc (ref_step mutate) r r' -> rtc others_step r r'.
Proof. intros Hp. apply rtc_subrel. intros x y [H|[[k Hk] _]]; [done|]. by destruct (Hp k). Qed.

Lemma cas_loop_atomic {T} (mutate : Z -> list LaneClaim -> lane_res (list LaneClaim * T)) rest last o o' res r :
  rtc (ref_step mutate) r (o_ref o) -> ref_claims (fst <$> last) = Some (last_claims last) ->
  cas_loop env clock push mutate rest last o = (o', res) -> atomic_outcome mutate r o' res.
Proof.
  revert last o. induction rest as [|rest IH]; intros last o Hr Hl; cbn [cas_loop]; fold (last_claims last);
    (destruct (mutate (time_at clock o) (last_claims last)) as [[claims' x]|e] eqn:Em; [|by intros [= <- <-]]);
    destruct (casPushRef env clock push (index claims') (fst <$> last) o) as [o1 r1] eqn:Ec;
    apply casPushRef_spec in Ec as [([content sec] & -> & Ho & Ho1 & Hs)|(Hn & Hf & Ho)].
  1, 3: intros [= <- <-]; cbn in Hs; subst content; exists (fst <$> last), (last_claims last), claims', (time_at clock o), sec;
      split_and!; [eapply rtc_r; [exact Hr|by left]|done|done|done].
  all: assert (Hr1 : rtc (ref_step mutate) r (o_ref o1));
    [destruct Ho as [Ho|([content sec] & Hk & Hb & Hc & Ha)]; [etrans; [exact Hr|by apply others_steps]|];
     cbn in Hc; subst content; eapply rtc_r; [|by left; exact Ha]; eapply rtc_r; [eapply rtc_r; [exact Hr|by left; exact Hb]|];
     right; split; [done|]; by exists (last_claims last), claims', x, (time_at clock o), sec|].
  all: destruct r1 as [[[|] s]|e]; [by destruct (Hn s)| |by intros [= <- <-]];
    destruct (readIndex env o1) as [o2 r2] eqn:Er; apply readIndex_spec in Er as [Ho2 Hlast];
    assert (Hr2 : rtc (ref_step mutate) r (o_ref o2)) by (etrans; [exact Hr1|by apply others_steps]);
    (destruct r2 as [refreshed|e]; [|by intros [= <- <-]]);
    (case_match; [by intros [= <- <-]|]).
  - by intros [= <- <-].
  - destruct (Hlast refreshed eq_refl) as [H1 H2]. apply IH; [exact Hr2|]. by rewrite H1.
Qed.

Lemma casMutate_atomic {T} (mutate : Z -> list LaneClaim -> lane_res (list LaneClaim * T)) o o' res :
  casMutate env clock push mutate o = (o', res) -> atomic_outcome mutate (o_ref o) o' res.
Proof.
  unfold casMutate. destruct (readIndex env o) as [o1 [last|e]] eqn:E; apply readIndex_spec in E as [Ho Hl]; [|intros [= <- <-]; by apply others_steps].
  destruct (Hl last eq_refl) as [H1 H2]. intros H. eapply cas_loop_atomic; [by apply others_steps|by rewrite H1|exact H].
Qed.

(** An index is sound: readable claims satisfy the invariant. *)
Definition ref_ok (r : option Sha) : Prop := forall claims, ref_claims r = Some claims -> claims_ok cfg claims.

(** C15: the compare-and-swap operations on the shared ref are linearizable. An
    acquire, a renewal or a release that returns replaced the index by the pure operation
    applied to claims the origin held at that very moment, with the result it returns.
    Apart from that push the ref is changed only by the other hosts, and by the same
    pure operation applied to the claims held when a push moved the ref and was reported
    as failed; without such pushes an operation that fails changed nothing. Hence
    if the other hosts keep the index sound, so does this one, and the granted claims
    conflict with no other task. *)
Theorem git_lanes_linearizable input l o :
  ref_ok (o_ref o) -> (forall k r, ref_ok r -> ref_ok (env k r)) ->
  (let '(o', res) := git_acquire cfg env clock push input o in
   ref_ok (o_ref o') /\
   atomic_outcome (fun now claims => grantClaims claims input (lanes_leaseMs cfg) (lanes_maxRepoWriters cfg) now) (o_ref o) o' res /\
   ((forall k, push k <> push_unreported) -> is_ok res = false -> rtc others_step (o_ref o) (o_ref o'))) /\
  (let '(o', res) := git_renew cfg env clock push l o in
   ref_ok (o_ref o') /\ atomic_outcome (fun now claims => Ok (renewClaims claims l (lanes_leaseMs cfg) now)) (o_ref o) o' res /\
   ((forall k, push k <> push_unreported) -> is_ok res = false -> rtc others_step (o_ref o) (o_ref o'))) /\
  (let '(o', res) := git_release env clock push l o in
   ref_ok (o_ref o') /\ atomic_outcome (fun now claims => Ok (releaseClaims claims l, tt)) (o_ref o) o' res /\
   ((forall k, push k <> push_unreported) -> is_ok res = false -> rtc others_step (o_ref o) (o_ref o'))).
Proof.
  intros Ho Henv.
  assert (Hall : forall T (mutate : Z -> list LaneClaim -> lane_res (list LaneClaim * T)) o' res,
    (forall now claims claims' x, mutate now claims = Ok (claims', x) -> lane_step cfg claims claims') ->
    casMutate env clock push mutate o = (o', res) -> ref_ok (o_ref o') /\ atomic_outcome mutate (o_ref o) o' res /\
      ((forall k, push k <> push_unreported) -> is_ok res = false -> rtc others_step (o_ref o) (o_ref o'))).
  { intros T mutate o' res Hm H. apply casMutate_atomic in H.
    assert (Hown : forall r r', own_step mutate r r' -> ref_ok r -> ref_ok r').
    { intros r r' (claims & claims' & x & now & sec & Hc & Hmut & ->) Hr cl [= <-]. eapply lane_step_ok; [by eapply Hm|]. by apply Hr. }
    assert (Hrtc : forall r r', rtc (ref_step mutate) r r' -> ref_ok r -> ref_ok r').
    { induction 1 as [|r1 r2 r3 [[k ->]|[_ Hs]] _ IH]; [done| |]; intros Hr; apply IH; [by apply Henv|by eapply Hown]. }
    split_and!; [|done|].
    - destruct res as [[x stale]|e]; cbn in H; [|by eapply Hrtc].
      destruct H as (before & claims & claims' & now & sec & Hb & Hc & Hmut & Ho'). apply (Hown before); [|by apply (Hrtc (o_ref o))].
      by exists claims, claims', x, now, sec.
    - intros Hp He. destruct res as [[x stale]|e]; [done|]. by eapply reported_steps. }
  split_and!; unfold git_acquire, git_renew, git_release; (destruct (casMutate _ _ _ _ _) as [o' res] eqn:E); (apply Hall in E; [done|]).
  - intros now claims claims' x H. by eapply step_grant.
  - intros now claims claims' x [= <- _]. apply step_renew.
  - intros now claims claims' [] [= <-]. apply step_release.
Qed.

(** Losing a race is an error. When another host's push lands between this
    host's read and its push and nothing happens afterwards, the operation throws "lane
    CAS push failed" although its request could be granted on the new index: the
    re-read ref equals the sha the rejected push reported, which the loop takes for an
    unchanged remote. *)
Theorem lost_race_fails {T} (mutate : Z -> list LaneClaim -> lane_res (list LaneClaim * T)) o o1 last claims' x claims sec :
  readIndex env o = (o1, Ok last) -> mutate (time_at clock o1) (last_claims last) = Ok (claims', x) ->
  env (o_calls o1) (o_ref o1) = Some (index claims, sec) -> Some (index claims, sec) <> (fst <$> last) ->
  (forall k r, (o_calls o1 < k)%nat -> env k r = r) ->
  exists o', casMutate env clock push mutate o = (o', Err LaneCasFailed) /\ o_ref o' = Some (index claims, sec).
Proof.
  intros Er Em Ee Hne Hq. unfold casMutate. rewrite Er. cbn [cas_loop RETRY_MAX_ATTEMPTS].
  fold (last_claims last). rewrite Em. unfold casPushRef.
  assert (Ht1 : tick env o1 = mkOrigin (Some (index claims, sec)) (S (o_calls o1))) by (unfold tick; by rewrite Ee).
  assert (Hs : forall n, (o_calls o1 < n)%nat -> tick env (mkOrigin (Some (index claims, sec)) n) = mkOrigin (Some (index claims, sec)) (S n)).
  { intros n Hn. unfold tick. cbn. by rewrite Hq. }
  rewrite Ht1. cbn [o_ref o_calls]. rewrite (bool_decide_eq_false_2 _ Hne). unfold push_rejected. rewrite Hs by lia. cbn [o_ref o_calls].
  rewrite (bool_decide_eq_false_2 _ Hne). unfold readIndex, readRemoteRef. rewrite Hs by lia. cbn [o_ref o_calls]. rewrite Hs by lia.
  cbn. rewrite bool_decide_eq_true_2 by done. eexists. done.
Qed.
End GitProofs.

(** ** Samples *)

Definition sample_cfg : LaneConfig := coordinator_config (mkLaneConfig 100 4).
Definition sample_request (owner task domain : string) : LaneAcquireInput := mkAcquire "repo" [domain] owner "M" task.

(** A lane holder [A] of task [T] stalls past its term; another task's grant drops
    its stale claim, and [T] is dispatched again to [B]. *)
Definition stalled_ops : list LaneOp :=
  [op_acquire 0 (sample_request "A" "T" "src/a"); op_acquire 200 (sample_request "X" "U" "src/c")].

(** Fences are reused. The fence of a grant is the successor of the highest
    fence recorded for its domains, but grants and releases drop claims together with
    their fences: after the history above the second holder of the same task gets the
    fence of the first, so the first can renew the second's claim, and its late release
    frees the lane to a third task while the second's lease is still running. *)
Theorem fence_reused :
  exists leaseA leaseB leaseV repos1 repos2,
    snd (acquire sample_cfg 0 (sample_request "A" "T" "src/a") []) = Ok leaseA /\
    acquire sample_cfg 210 (sample_request "B" "T" "src/a") (run_ops sample_cfg stalled_ops []) = (repos1, Ok leaseB) /\
    ll_ownerId leaseA <> ll_ownerId leaseB /\ ll_fence leaseA = ll_fence leaseB /\
    is_Some (snd (renew sample_cfg 220 leaseA repos1)) /\
    acquire sample_cfg 230 (sample_request "V" "W" "src/a") (release leaseA repos1) = (repos2, Ok leaseV) /\ 230 < ll_renewBy leaseB.
Proof. do 5 eexists. split_and!; try (vm_compute; reflexivity); [done|]. vm_compute. eauto. Qed.

(** Without such a gap fences do grow: a re-grant on domains whose claims are
    still recorded gets a higher one. *)
Example fence_grows :
  exists repos l, acquire sample_cfg 150 (sample_request "B" "T2" "src/a") (run_ops sample_cfg [op_acquire 0 (sample_request "A" "T" "src/a")] []) = (repos, Ok l) /\ ll_fence l = 2.
Proof. do 2 eexists. split; vm_compute; reflexivity. Qed.

Lemma lease_protects_witness :
  exists repos l, acquire sample_cfg 0 (sample_request "A" "T" "src/a") [] = (repos, Ok l) /\
    exists blocking, acquire sample_cfg 60 (sample_request "B" "U" "src/a/b")
      (run_ops sample_cfg [op_acquire 50 (sample_request "X" "U" "src/c")] repos)
      = (run_ops sample_cfg [op_acquire 50 (sample_request "X" "U" "src/c")] repos, Err (LaneBlockedError blocking)) /\ blocking <> [].
Proof.
  do 2 eexists. split; [vm_compute; reflexivity|].
  eapply (lease_protects sample_cfg 0 (sample_request "A" "T" "src/a") [] _ _
    [op_acquire 50 (sample_request "X" "U" "src/c")] 60 (sample_request "B" "U" "src/a/b") "src/a" ["src/a/b"%string]).
  - intros r. apply claims_ok_nil.
  - vm_compute; reflexivity.
  - repeat constructor; [done|]. intros t [= <-]. vm_compute. done.
  - reflexivity.
  - reflexivity.
  - done.
  - vm_compute. done.
  - by left.
  - exists "src/a/b"%string. split; [by left|]. right. split_and!; [done|done|]. exists ["src"; "a"; "b"]%string.
    split; (eexists; split; [reflexivity|]; right); [done|]. by exists ["b"%string].
Defined.

(** Another host records a claim just before this host's push. *)
Definition race_env (k : nat) (r : option Sha) : option Sha :=
  if bool_decide (k = 1%nat) then Some (index [mkClaim "docs" "X" "M2" "U" 1 0 1000], 7) else r.

Lemma lost_race_fails_witness :
  exists o', git_acquire sample_cfg race_env (fun _ => 0) (fun _ => push_done) (sample_request "A" "T" "src/a") (mkOrigin None 0) = (o', Err LaneCasFailed) /\
    o_ref o' = Some (index [mkClaim "docs" "X" "M2" "U" 1 0 1000], 7).
Proof.
  unfold git_acquire. eapply lost_race_fails; [reflexivity|vm_compute; reflexivity|reflexivity|done|].
  intros k r Hk. unfold race_env. case_bool_decide; [simpl in Hk; lia|done].
Defined.

(** A push moves the ref and is reported as failed: the acquire throws, and its claim is
    recorded. *)
Lemma unreported_push_claims :
  exists o', git_acquire sample_cfg (fun _ r => r) (fun _ => 0) (fun _ => push_unreported) (sample_request "A" "T" "src/a") (mkOrigin None 0) = (o', Err LaneCasFailed) /\
    map lc_taskId <$> ref_claims (o_ref o') = Some ["T"%string].
Proof. eexists. split; vm_compute; reflexivity. Qed.

Lemma git_lanes_linearizable_witness :
  exists o' x, git_acquire sample_cfg (fun _ r => r) (fun _ => 0) (fun _ => push_done) (sample_request "A" "T" "src/a") (mkOrigin None 0) = (o', Ok x) /\
    ref_ok sample_cfg (o_ref o').
Proof.
  pose proof (git_lanes_linearizable sample_cfg (fun _ r => r) (fun _ => 0) (fun _ => push_done) (sample_request "A" "T" "src/a")
    (mkLease "" "" "" "" [] 0 0) (mkOrigin None 0)) as [H _]; [intros ? [= <-]; apply claims_ok_nil|done|].
  do 2 eexists. split; [vm_compute; reflexivity|]. apply H.
Defined.
