(* ===== verification/FileLock.v ===== *)
(** * The ledger's lock file (src/ledger/fileLock.ts, src/ledger/authority.ts)

    Every process that appends to a ledger file holds a lock file created with
    O_EXCL. Here the file system calls of [acquireFileLock], [staleContent],
    [reclaimStaleLock] and [release] are the steps, so that all interleavings of
    any number of processes, deaths included, are runs of [exec]. An inode number
    is the identity of a file; a process's program counter says which call it
    makes next and carries what it has read. The random tokens are fresh
    numbers; reading the time of a file and probing the owner's pid are one step.
    A process is named by its host and its pid there, and probing a pid asks the
    prober's own host, as [process.kill(pid, 0)] does; a process has at most one
    acquisition under way and its pid is not reused. *)

From Stdlib Require Import Sorted.
From S2P Require Import Prelude.

(** A process: its host and its pid on that host. *)
Definition Proc : Type := string * nat.

Record LockOwner := mkOwner { lo_pid : nat; lo_host : string; lo_token : nat }.

#[global] Instance LockOwner_eq_dec : EqDecision LockOwner.
Proof. solve_decision. Defined.

(** A lock file's content: the owner record, or [None] while it is still empty. *)
Definition content : Type := option LockOwner.

(** Where a process is. [tok] is the token of its current [acquireFileLock];
    [ino] is the file it created, judged or moved aside. *)
Inductive Pc :=
| Out
| Trying (tok : nat)                                   (* openSync(path, "wx") *)
| Writing (tok ino : nat)                              (* writeSync(fd, owner) *)
| Holding (tok ino : nat)                              (* critical section *)
| Releasing (tok ino : nat)                            (* release: readFileSync(path) *)
| Unlinking (tok ino : nat)                            (* release: unlinkSync(path) *)
| Exists (tok : nat)                                   (* staleContent: readFileSync(path) *)
| Judging (tok : nat) (raw : content) (ino : nat)      (* staleContent: statSync(path), pidAlive *)
| Condemned (tok : nat) (raw : content) (ino : nat)    (* reclaimStaleLock: renameSync(path, aside) *)
| MovedAside (tok : nat) (raw : content) (ino : nat)   (* readFileSync(aside) *)
| Restoring (tok ino : nat)                            (* linkSync(aside, path) *)
| Waiting (tok : nat).                                 (* sleep, or give up *)

Record World := mkWorld {
  w_path : option nat;
  w_content : nat -> content;
  w_mtime : nat -> Z;
  w_clock : Z;
  w_next : nat;
  w_pc : Proc -> Pc;
  w_alive : Proc -> bool;
}.

Definition upd {K A} `{EqDecision K} (k : K) (v : A) (f : K -> A) : K -> A := fun x => if decide (x = k) then v else f x.

(** [process.kill(pid, 0)] on the host of [p]. *)
Definition pidAlive (p : Proc) (pid : nat) (w : World) : bool := w_alive w (p.1, pid).

Section Lock.
Context (staleMs : Z).

Definition set_pc (p : Proc) (c : Pc) (w : World) : World :=
  mkWorld (w_path w) (w_content w) (w_mtime w) (w_clock w) (w_next w) (upd p c (w_pc w)) (w_alive w).
Definition set_path (o : option nat) (w : World) : World :=
  mkWorld o (w_content w) (w_mtime w) (w_clock w) (w_next w) (w_pc w) (w_alive w).

(** [staleContent], given what was read, the time of the file now at the path
    and the pids alive: dead owner on this host, or too old. *)
Definition condemns (p : Proc) (raw : content) (ino : nat) (w : World) : bool :=
  match raw with
  | Some o => (String.eqb (lo_host o) p.1 && negb (pidAlive p (lo_pid o) w)) || (staleMs <? w_clock w - w_mtime w ino)
  | None => staleMs <? w_clock w - w_mtime w ino
  end.

(** The next call of process [p]. *)
Definition syscall (p : Proc) (w : World) : World :=
  match w_pc w p with
  | Out => w
  | Trying tok =>
      match w_path w with
      | None => (* created *)
          let ino := w_next w in
          mkWorld (Some ino) (upd ino None (w_content w)) (upd ino (w_clock w) (w_mtime w)) (w_clock w) (S ino)
            (upd p (Writing tok ino) (w_pc w)) (w_alive w)
      | Some _ => set_pc p (Exists tok) w (* EEXIST *)
      end
  | Writing tok ino =>
      mkWorld (w_path w) (upd ino (Some (mkOwner p.2 p.1 tok)) (w_content w)) (upd ino (w_clock w) (w_mtime w))
        (w_clock w) (w_next w) (upd p (Holding tok ino) (w_pc w)) (w_alive w)
  | Holding tok ino => set_pc p (Releasing tok ino) w
  | Releasing tok ino =>
      match w_path w with
      | Some i => match w_content w i with
                  | Some o => if bool_decide (lo_token o = tok) then set_pc p (Unlinking tok ino) w else set_pc p Out w
                  | None => set_pc p Out w
                  end
      | None => set_pc p Out w
      end
  | Unlinking _ _ => set_pc p Out (set_path None w)
  | Exists tok =>
      match w_path w with
      | Some i => set_pc p (Judging tok (w_content w i) i) w
      | None => set_pc p (Waiting tok) w
      end
  | Judging tok raw ino =>
      match w_path w with
      | Some i => set_pc p (if condemns p raw i w then Condemned tok raw ino else Waiting tok) w
      | None => set_pc p (Waiting tok) w
      end
  | Condemned tok raw ino =>
      match w_path w with
      | Some i => set_pc p (MovedAside tok raw i) (set_path None w)
      | None => set_pc p (Trying tok) w (* raced *)
      end
  | MovedAside tok raw ino =>
      if bool_decide (w_content w ino = raw) then set_pc p (Trying tok) w (* removed *)
      else set_pc p (Restoring tok ino) w
  | Restoring tok ino =>
      match w_path w with
      | None => set_pc p (Trying tok) (set_path (Some ino) w) (* restored *)
      | Some _ => set_pc p (Trying tok) w (* lost *)
      end
  | Waiting tok => set_pc p (Trying tok) w
  end.

Inductive Action :=
| a_start (p : Proc)    (* acquireFileLock is called *)
| a_next (p : Proc)     (* its next file system call *)
| a_give_up (p : Proc)  (* LedgerLockTimeoutError *)
| a_die (p : Proc)      (* the process is killed *)
| a_tick (ms : Z).     (* time passes *)

Definition exec (a : Action) (w : World) : option World :=
  match a with
  | a_start p =>
      if w_alive w p then
        match w_pc w p with
        | Out => Some (mkWorld (w_path w) (w_content w) (w_mtime w) (w_clock w) (S (w_next w))
                         (upd p (Trying (w_next w)) (w_pc w)) (w_alive w))
        | _ => None
        end
      else None
  | a_next p => if w_alive w p then Some (syscall p w) else None
  | a_give_up p => if w_alive w p then match w_pc w p with Waiting _ => Some (set_pc p Out w) | _ => None end else None
  | a_die p => Some (mkWorld (w_path w) (w_content w) (w_mtime w) (w_clock w) (w_next w) (w_pc w) (upd p false (w_alive w)))
  | a_tick ms => if 0 <=? ms then Some (mkWorld (w_path w) (w_content w) (w_mtime w) (w_clock w + ms) (w_next w) (w_pc w) (w_alive w)) else None
  end.

Fixpoint exec_all (l : list Action) (w : World) : option World :=
  match l with
  | [] => Some w
  | a :: l' => w' ← exec a w; exec_all l' w'
  end.

Lemma exec_all_app l l' w : exec_all (l ++ l') w = (w' ← exec_all l w; exec_all l' w').
Proof. revert w. induction l as [|a l IH]; intros w; simpl; [done|]. destruct (exec a w); simpl; auto. Qed.

Definition init : World := mkWorld None (fun _ => None) (fun _ => 0) 0 0 (fun _ => Out) (fun _ => true).

(** ** Mutual exclusion *)

(** The file a process has created and not yet unlinked, from its point of view. *)
Definition file_of (c : Pc) : option nat :=
  match c with
  | Writing _ ino | Holding _ ino | Releasing _ ino | Unlinking _ ino => Some ino
  | _ => None
  end.

Definition holds (p : Proc) (w : World) : Prop := w_alive w p = true /\ exists tok ino, w_pc w p = Holding tok ino.

(** The two timing assumptions under which the lock is exclusive. A lock file
    found older than [staleMs] is not one a live process still uses (critical
    sections are shorter than [staleMs]); and no process slips in between a
    reclaimer's reading of a lock and its renaming of it: the file moved aside is
    the file that was read (the residual window the source accepts). That the
    owner of a lock condemned for another reason is dead is proved, not assumed. *)
Definition calm (a : Action) (w : World) : Prop :=
  match a with
  | a_next p =>
      match w_pc w p, w_path w with
      | Judging _ _ _, Some i =>
          staleMs < w_clock w - w_mtime w i -> forall p', w_alive w p' = true -> file_of (w_pc w p') <> Some i
      | Condemned _ _ ino, Some i => i = ino
      | _, _ => True
      end
  | _ => True
  end.

Inductive any_step : World -> World -> Prop :=
| any_step_intro a w w' : exec a w = Some w' -> any_step w w'.

Inductive calm_step : World -> World -> Prop :=
| calm_step_intro a w w' : exec a w = Some w' -> calm a w -> calm_step w w'.

(** A run all of whose steps are calm. *)
Fixpoint all_calm (l : list Action) (w : World) : Prop :=
  match l with
  | [] => True
  | a :: l' => calm a w /\ match exec a w with Some w' => all_calm l' w' | None => True end
  end.

(** The same, decided: no lock is ever found too old. *)
Fixpoint all_calmb (l : list Action) (w : World) : bool :=
  match l with
  | [] => true
  | a :: l' =>
      match a with
      | a_next p =>
          match w_pc w p, w_path w with
          | Judging _ _ _, Some i => negb (staleMs <? w_clock w - w_mtime w i)
          | Condemned _ _ ino, Some i => bool_decide (i = ino)
          | _, _ => true
          end
      | _ => true
      end && match exec a w with Some w' => all_calmb l' w' | None => true end
  end.

Lemma all_calmb_sound l w : all_calmb l w = true -> all_calm l w.
Proof.
  revert w. induction l as [|a l IH]; intros w; simpl; [done|]. intros [Ha Hl]%andb_prop. split.
  - destruct a; simpl; try done. repeat case_match; try done; bool_to_prop; lia || done.
  - destruct (exec a w); auto.
Qed.

Lemma exec_all_calm l w w' : exec_all l w = Some w' -> all_calm l w -> rtc calm_step w w'.
Proof.
  revert w. induction l as [|a l IH]; intros w E Hc; simpl in *; [simplify_eq; apply rtc_refl|].
  destruct Hc as [Ha Hl]. destruct (exec a w) as [w1|] eqn:Ew; [|done]. simpl in E.
  eapply rtc_l; [by eapply calm_step_intro|auto].
Qed.

(** What every run keeps, calm or not: an acquisition's token appears in no
    other file than the one it created, and a file that its creator is still
    using names that creator. *)
Definition tok_of (c : Pc) : option nat :=
  match c with
  | Out => None
  | Trying tok | Writing tok _ | Holding tok _ | Releasing tok _ | Unlinking tok _ | Exists tok
  | Judging tok _ _ | Condemned tok _ _ | MovedAside tok _ _ | Restoring tok _ | Waiting tok => Some tok
  end.

(** What a process has read of the file it is judging is still its content. *)
Definition read_ok (c : Pc) (w : World) : Prop :=
  match c with
  | Judging _ (Some o) ino => w_content w ino = Some o
  | _ => True
  end.

(** The file a process created, judged or moved aside. *)
Definition ino_of (c : Pc) : option nat :=
  match c with
  | Writing _ ino | Holding _ ino | Releasing _ ino | Unlinking _ ino
  | Judging _ _ ino | Condemned _ _ ino | MovedAside _ _ ino | Restoring _ ino => Some ino
  | _ => None
  end.

Record Base (w : World) : Prop := {
  b_seen : forall p ino, ino_of (w_pc w p) = Some ino -> (ino < w_next w)%nat;
  b_own : forall p p' ino, file_of (w_pc w p) = Some ino -> file_of (w_pc w p') = Some ino -> p = p';
  b_tok : forall p tok, tok_of (w_pc w p) = Some tok -> (tok < w_next w)%nat;
  b_toks : forall p p' tok, tok_of (w_pc w p) = Some tok -> tok_of (w_pc w p') = Some tok -> p = p';
  b_next : forall i o, w_content w i = Some o -> (lo_token o < w_next w)%nat;
  b_mine : forall p tok i o, tok_of (w_pc w p) = Some tok -> w_content w i = Some o -> lo_token o = tok ->
             file_of (w_pc w p) = Some i;
  b_owner : forall p i o, file_of (w_pc w p) = Some i -> w_content w i = Some o -> p = (lo_host o, lo_pid o);
  b_writing : forall p tok i, w_pc w p = Writing tok i -> w_content w i = None;
  b_path : forall i, w_path w = Some i -> (i < w_next w)%nat;
  b_fresh : forall i, (w_next w <= i)%nat -> w_content w i = None;
  b_read : forall p, read_ok (w_pc w p) w;
}.

Lemma file_ino c ino : file_of c = Some ino -> ino_of c = Some ino.
Proof. by destruct c. Qed.

Lemma base_ext w w' :
  Base w -> w_path w' = w_path w -> w_content w' = w_content w -> w_next w' = w_next w -> w_pc w' = w_pc w -> Base w'.
Proof.
  destruct w, w'. cbn. intros [B1 B2 B3 B4 B5 B6 B7 B8 B9 B10 B11] -> -> -> ->.
  constructor; assumption.
Qed.

Lemma base_set_pc p c w :
  Base w -> c = Out \/ (tok_of c = tok_of (w_pc w p) /\ file_of c = file_of (w_pc w p)) ->
  (forall tok i, c <> Writing tok i) -> (forall i, ino_of c = Some i -> (i < w_next w)%nat) -> read_ok c w ->
  Base (set_pc p c w).
Proof.
  intros [B1 B2 B3 B4 B5 B6 B7 B8 B9 B10 B11] Hc Hw Hi Hr.
  assert (Ht : forall q tok, tok_of (upd p c (w_pc w) q) = Some tok ->
            tok_of (w_pc w q) = Some tok /\ file_of (upd p c (w_pc w) q) = file_of (w_pc w q)).
  { intros q tok. unfold upd. case_decide; [subst|done]. destruct Hc as [-> | [-> ->]]; done. }
  assert (Hf : forall q i, file_of (upd p c (w_pc w) q) = Some i -> file_of (w_pc w q) = Some i).
  { intros q i. unfold upd. case_decide; [subst|done]. destruct Hc as [-> | [_ ->]]; done. }
  constructor; simpl; try done.
  - intros q i. unfold upd. case_decide; eauto.
  - eauto.
  - intros q tok [? _]%Ht. eauto.
  - intros q q' tok [? _]%Ht [? _]%Ht. eauto.
  - intros q tok i o [? ->]%Ht. eauto.
  - intros q i o ?%Hf. eauto.
  - intros q tok i. unfold upd. case_decide; [|eauto]. intros E. by destruct (Hw tok i).
  - intros q. unfold upd. case_decide; [done|apply B11].
Qed.

Lemma base_set_path o w : Base w -> (forall i, o = Some i -> (i < w_next w)%nat) -> Base (set_path o w).
Proof. intros [] Ho. constructor; simpl; done. Qed.

Lemma base_create p tok w : Base w -> w_pc w p = Trying tok -> w_path w = None -> Base (syscall p w).
Proof.
  intros [B1 B2 B3 B4 B5 B6 B7 B8 B9 B10 B11] Hpc Hp. unfold syscall. rewrite Hpc, Hp.
  assert (Ec : forall i, upd (w_next w) None (w_content w) i = w_content w i).
  { intros i. unfold upd. case_decide; [subst; by rewrite B10|done]. }
  assert (Hnone : forall q, file_of (w_pc w q) <> Some (w_next w)).
  { intros q E. apply file_ino, B1 in E. lia. }
  assert (Htok : (tok < w_next w)%nat) by (apply (B3 p); by rewrite Hpc).
  assert (Hpt : tok_of (w_pc w p) = Some tok) by (by rewrite Hpc).
  constructor; simpl; try setoid_rewrite Ec.
  - intros q i. unfold upd. case_decide; simpl; [intros [= <-]; lia|]. intros Hx%B1. lia.
  - intros q q' i. unfold upd. repeat case_decide; subst; simpl; try done; [| |eauto].
    + intros [= <-] Hx. by destruct (Hnone q').
    + intros Hx [= <-]. by destruct (Hnone q).
  - intros q tk. unfold upd. case_decide; simpl; [intros [= <-]; lia|]. intros Hx%B3. lia.
  - intros q q' tk. unfold upd. repeat case_decide; subst; simpl; try done; [| |eauto]; intros E1 E2; simplify_eq; eauto.
  - intros i o Hx%B5. lia.
  - intros q tk i o. unfold upd. case_decide; subst; simpl; [|eauto].
    intros [= <-] Hc Ho. pose proof (B6 p tok i o Hpt Hc Ho) as Hx. by rewrite Hpc in Hx.
  - intros q i o. unfold upd. case_decide; subst; simpl; [|eauto].
    intros [= <-] Hc. rewrite B10 in Hc; [done|lia].
  - intros q tk i. unfold upd. case_decide; subst; simpl; [|eauto]. intros [= _ <-]. apply B10. lia.
  - intros i [= <-]. lia.
  - intros i Hi. apply B10. lia.
  - intros q. unfold upd at 1. case_decide; subst; simpl; [done|]. specialize (B11 q).
    destruct (w_pc w q) as [| | | | | | |? [|]| | | |]; simpl in *; try done. by rewrite Ec.
Qed.

Lemma base_write p tok ino w : Base w -> w_pc w p = Writing tok ino -> Base (syscall p w).
Proof.
  intros [B1 B2 B3 B4 B5 B6 B7 B8 B9 B10 B11] Hpc. unfold syscall. rewrite Hpc.
  assert (Hpt : tok_of (w_pc w p) = Some tok) by (by rewrite Hpc).
  assert (Hpf : file_of (w_pc w p) = Some ino) by (by rewrite Hpc).
  pose proof (B8 p tok ino Hpc) as Hn.
  assert (Hf : forall q, file_of (upd p (Holding tok ino) (w_pc w) q) = file_of (w_pc w q)).
  { intros q. unfold upd. case_decide; [subst; by rewrite Hpc|done]. }
  assert (Ht : forall q, tok_of (upd p (Holding tok ino) (w_pc w) q) = tok_of (w_pc w q)).
  { intros q. unfold upd. case_decide; [subst; by rewrite Hpc|done]. }
  assert (Hk : forall i o, upd ino (Some (mkOwner p.2 p.1 tok)) (w_content w) i = Some o ->
            (i = ino /\ o = mkOwner p.2 p.1 tok) \/ w_content w i = Some o).
  { intros i o. unfold upd. case_decide; [intros [= <-]; by left|by right]. }
  constructor; simpl; try setoid_rewrite Hf; try setoid_rewrite Ht; try done.
  - intros q i. unfold upd. case_decide; [subst; simpl; intros [= <-]; apply (B1 p); by rewrite Hpc|apply B1].
  - intros i o [[-> ->]|H]%Hk; simpl; eauto.
  - intros q tk i o Hq [[-> ->]|H]%Hk Ho; simpl in *; [|eauto]. subst. by rewrite (B4 q p tk).
  - intros q i o Hq [[-> ->]|H]%Hk; simpl; [|eauto]. rewrite (B2 q p ino) by done. by destruct p.
  - intros q tk i. unfold upd. case_decide as Eq; [done|]. intros Hq. case_decide as Ei; [|eauto]. subst.
    destruct Eq. apply (B2 q p ino); [by rewrite Hq|done].
  - intros i Hi. unfold upd. case_decide; [|by apply B10]. subst. assert (ino < w_next w)%nat; [|lia].
    apply (B1 p). by rewrite Hpc.
  - intros q. unfold upd at 1. case_decide; [done|]. specialize (B11 q).
    destruct (w_pc w q) as [| | | | | | |? [|] i| | | |]; simpl in *; try done. unfold upd. case_decide; [|done]. subst.
    by rewrite Hn in B11.
Qed.

Lemma base_syscall p w : Base w -> Base (syscall p w).
Proof.
  intros HB. pose proof HB as [B1 B2 B3 B4 B5 B6 B7 B8 B9 B10 B11]. specialize (B1 p) as Bi. specialize (B11 p) as Br.
  destruct (w_pc w p) eqn:Hpc; simpl in Bi, Br.
  2: destruct (w_path w) eqn:Hp; [|by eapply base_create].
  3: by eapply base_write.
  all: unfold syscall; rewrite Hpc; repeat case_match.
  all: first [done | apply base_set_pc].
  all: first [done | by left | by (right; rewrite Hpc) | by (intros ? [= <-]; auto) | idtac].
  all: try (apply base_set_path; first [done | by (intros ? [= <-]; auto)]).
  - simpl. by destruct (w_content w n) eqn:E.
  - right. simpl. by rewrite Hpc.
  - right. simpl. by rewrite Hpc.
Qed.

Lemma base_step w w' : any_step w w' -> Base w -> Base w'.
Proof.
  intros [a w1 w2 E] HB. destruct a as [p|p|p|p|ms]; simpl in E.
  - destruct (w_alive w1 p); [|done]. destruct (w_pc w1 p) eqn:Hpc; simplify_eq.
    destruct HB as [B1 B2 B3 B4 B5 B6 B7 B8 B9 B10 B11].
    assert (Hf : forall q, file_of (upd p (Trying (w_next w1)) (w_pc w1) q) = file_of (w_pc w1 q)).
    { intros q. unfold upd. case_decide; [subst; by rewrite Hpc|done]. }
    assert (Hi : forall q, ino_of (upd p (Trying (w_next w1)) (w_pc w1) q) = ino_of (w_pc w1 q)).
    { intros q. unfold upd. case_decide; [subst; by rewrite Hpc|done]. }
    constructor; simpl; try setoid_rewrite Hf; try setoid_rewrite Hi; eauto.
    + intros q i Hx%B1. lia.
    + intros q tk. unfold upd. case_decide; simpl; [intros [= <-]; lia|]. intros Hx%B3. lia.
    + intros q q' tk. unfold upd. repeat case_decide; subst; simpl; try done; [| |eauto]; intros E1 E2; simplify_eq;
        match goal with H : tok_of _ = Some (w_next w1) |- _ => apply B3 in H; lia end.
    + intros i o Hx%B5. lia.
    + intros q tk i o. unfold upd. case_decide; subst; simpl; [|eauto]. intros [= <-] Hc%B5 Ho. lia.
    + intros q tk i. unfold upd. case_decide; [done|eauto].
    + intros i Hx%B9. lia.
    + intros i Hlt. apply B10. lia.
    + intros q. unfold upd at 1. case_decide; [done|]. specialize (B11 q). by destruct (w_pc w1 q).
  - destruct (w_alive w1 p) eqn:Ha; simplify_eq. by apply base_syscall.
  - destruct (w_alive w1 p); [|done]. destruct (w_pc w1 p); simplify_eq. by apply base_set_pc; [|left|..].
  - simplify_eq. by eapply base_ext.
  - destruct (0 <=? ms); simplify_eq. by eapply base_ext.
Qed.

Lemma base_reachable w : rtc any_step init w -> Base w.
Proof.
  intros Hr. assert (Base init) as H0 by (constructor; done || (intros; simpl in *; lia)).
  revert H0. induction Hr as [|w1 w2 w3 Hs _ IH]; [done|]. intros H0. by apply IH, (base_step w1 w2).
Qed.

(** What calm runs keep besides: a live process's file is the one at the path,
    and a condemned file has no live user. *)
Definition used (ino : nat) (w : World) : Prop := exists p, w_alive w p = true /\ file_of (w_pc w p) = Some ino.

Record Inv (w : World) : Prop := {
  inv_base : Base w;
  inv_path : forall ino, used ino w -> w_path w = Some ino;
  inv_condemned : forall p tok raw ino, w_pc w p = Condemned tok raw ino -> ~ used ino w;
}.

(** A step that leaves the users of every file as they were, or fewer. *)
Lemma inv_step w w' :
  Inv w -> Base w' -> (forall ino, used ino w' -> used ino w) ->
  (forall ino, used ino w' -> w_path w' = w_path w \/ w_path w' = Some ino) ->
  (forall p tok raw ino, w_pc w' p = Condemned tok raw ino -> w_pc w p = Condemned tok raw ino \/ ~ used ino w) ->
  Inv w'.
Proof.
  intros [HB Hp Hc] HB' Hu Hpath Hcond. constructor; [done| |].
  - intros ino H. destruct (Hpath ino H) as [E|E]; [rewrite E; by apply Hp, Hu|done].
  - intros p tok raw ino E H%Hu. destruct (Hcond p tok raw ino E) as [E'|E']; [by eapply Hc|done].
Qed.

Lemma used_set_pc p c w ino :
  file_of c = None \/ file_of c = file_of (w_pc w p) -> used ino (set_pc p c w) -> used ino w.
Proof.
  intros Hc (q & Ha & Hf). exists q. split; [done|]. simpl in Hf. unfold upd in Hf. case_decide; [|done]. subst.
  destruct Hc as [Hc|Hc]; rewrite Hc in Hf; done.
Qed.

Lemma condemned_set_pc p c w :
  (forall tok raw ino, c = Condemned tok raw ino -> ~ used ino w) ->
  forall q tok raw ino, w_pc (set_pc p c w) q = Condemned tok raw ino -> w_pc w q = Condemned tok raw ino \/ ~ used ino w.
Proof. intros Hc q tok raw ino. simpl. unfold upd. case_decide; [|by left]. intros E. right. by eapply Hc. Qed.

Lemma inv_set_pc p c w :
  Inv w -> Base (set_pc p c w) -> file_of c = None \/ file_of c = file_of (w_pc w p) ->
  (forall tok raw ino, c = Condemned tok raw ino -> ~ used ino w) -> Inv (set_pc p c w).
Proof.
  intros HI HB Hf Hc. apply (inv_step w); [done|done|intros ino; by apply used_set_pc|by left|by apply condemned_set_pc].
Qed.

(** What is condemned has no live user: by its age (assumed of old locks), or
    because its owner's process, on the judge's host, is gone. *)
Lemma condemned_unused p tok raw ino i w :
  Inv w -> calm (a_next p) w -> w_pc w p = Judging tok raw ino -> w_path w = Some i ->
  condemns p raw i w = true -> ~ used ino w.
Proof.
  intros [HB Hp Hc] Hcalm Hpc Hi Hcond Hu. pose proof (Hp ino Hu) as Hi'. rewrite Hi in Hi'. injection Hi' as ->.
  simpl in Hcalm. rewrite Hpc, Hi in Hcalm. destruct Hu as (q & Ha & Hf).
  assert (Hold : (staleMs <? w_clock w - w_mtime w ino) = true -> False).
  { intros Hlt. apply Z.ltb_lt in Hlt. by apply (Hcalm Hlt q). }
  destruct raw as [o|]; [|by apply Hold]. simpl in Hcond.
  apply orb_prop in Hcond as [Hcond|]; [|by apply Hold]. apply andb_prop in Hcond as [Hh Hd].
  apply String.eqb_eq in Hh. pose proof (b_read w HB p) as Hr. rewrite Hpc in Hr. simpl in Hr.
  rewrite (b_owner w HB q ino o Hf Hr), Hh in Ha. unfold pidAlive in Hd. by rewrite Ha in Hd.
Qed.

Lemma no_users w ino : Inv w -> w_path w = None -> ~ used ino w.
Proof. intros [_ Hp _] E Hu. specialize (Hp ino Hu). congruence. Qed.

Lemma inv_create tok p w :
  Inv w -> w_pc w p = Trying tok -> w_path w = None -> Inv (syscall p w).
Proof.
  intros HI Hpc Hp. pose proof (base_create p tok w (inv_base w HI) Hpc Hp) as HB.
  assert (Hu : forall ino, used ino (syscall p w) -> ino = w_next w).
  { intros ino. unfold syscall. rewrite Hpc, Hp. intros (q & Ha & Hf). simpl in Ha, Hf. unfold upd in Hf.
    case_decide; [by injection Hf|]. destruct (no_users w ino HI Hp). by exists q. }
  constructor; [done| |].
  - intros ino ->%Hu. unfold syscall. by rewrite Hpc, Hp.
  - intros q tk raw ino E Hx%Hu. subst. unfold syscall in E. rewrite Hpc, Hp in E. simpl in E. unfold upd in E.
    case_decide; [done|]. pose proof (b_seen w (inv_base w HI) q (w_next w)) as Hs. rewrite E in Hs. specialize (Hs eq_refl). lia.
Qed.

Lemma inv_unlink p w tok ino : Inv w -> w_alive w p = true -> w_pc w p = Unlinking tok ino -> Inv (syscall p w).
Proof.
  intros HI Ha Hpc. pose proof (base_syscall p w (inv_base w HI)) as HB. unfold syscall in *. rewrite Hpc in *.
  pose proof HI as [HB0 Hp Hc].
  assert (Hu : forall i, ~ used i (set_pc p Out (set_path None w))).
  { intros i (q & Hq & Hf). simpl in Hq, Hf. unfold upd in Hf. case_decide as Hne; [done|]. apply Hne.
    pose proof (Hp i (ex_intro _ q (conj Hq Hf))) as E1.
    assert (w_path w = Some ino) as E2 by (apply Hp; exists p; by rewrite Hpc).
    apply (b_own w HB0 q p ino); [congruence|by rewrite Hpc]. }
  constructor; [done|by intros i H%Hu|by intros ? ? ? i _ H%Hu].
Qed.

Lemma inv_reclaim p w tok raw ino :
  Inv w -> calm (a_next p) w -> w_pc w p = Condemned tok raw ino -> Inv (syscall p w).
Proof.
  intros HI Hcalm Hpc. pose proof (base_syscall p w (inv_base w HI)) as HB. simpl in Hcalm. unfold syscall in *.
  rewrite Hpc in *. destruct (w_path w) as [i|] eqn:Hp; [|by apply inv_set_pc; [| |left|]]. subst i.
  assert (Hu : forall i, ~ used i w).
  { intros i Hu. pose proof (inv_path w HI i Hu) as E. rewrite Hp in E. injection E as <-.
    by apply (inv_condemned w HI p tok raw ino). }
  assert (Hu' : forall i, ~ used i (set_pc p (MovedAside tok raw ino) (set_path None w))).
  { intros i H%used_set_pc; [|by left]. by apply (Hu i). }
  constructor; [done|by intros i H%Hu'|by intros ? ? ? i _ H%Hu'].
Qed.

Lemma syscall_inv p w : Inv w -> w_alive w p = true -> calm (a_next p) w -> Inv (syscall p w).
Proof.
  intros HI Ha Hcalm. pose proof (base_syscall p w (inv_base w HI)) as HB. destruct (w_pc w p) eqn:Hpc.
  2: destruct (w_path w) eqn:Hp; [|by eapply inv_create].
  6: by eapply inv_unlink.
  8: by eapply inv_reclaim.
  all: unfold syscall in *; rewrite Hpc in *; repeat case_match.
  all: try done; try (apply inv_set_pc; [done|done|by (left + (right; rewrite Hpc))|done]).
  - apply (inv_step w); [done|done| |by left|].
    + intros i (q & Hq & Hf). exists q. split; [done|]. simpl in Hf. unfold upd in Hf. case_decide; [|done]. subst. by rewrite Hpc.
    + intros q tk raw i. simpl. unfold upd. case_decide; [done|by left].
  - apply inv_set_pc; [done|done|by left|]. intros tk r i [= <- <- <-]. by eapply condemned_unused.
  - apply (inv_step w); [done|done| | |].
    + intros i. by apply (used_set_pc p (Trying tok) w); left.
    + intros i Hu%used_set_pc; [|by left]. by destruct (no_users w i HI).
    + by apply (condemned_set_pc p (Trying tok) w).
Qed.

Lemma step_inv w w' : calm_step w w' -> Inv w -> Inv w'.
Proof.
  intros [a w1 w2 E Hc] HI.
  pose proof (base_step w1 w2 (any_step_intro a w1 w2 E) (inv_base w1 HI)) as HB.
  destruct a as [p|p|p|p|ms]; simpl in E.
  - destruct (w_alive w1 p); [|done]. destruct (w_pc w1 p) eqn:Hpc; simplify_eq.
    apply (inv_step w1); [done|done| |by left|].
    + intros i. by apply (used_set_pc p (Trying (w_next w1)) w1); left.
    + by apply (condemned_set_pc p (Trying (w_next w1)) w1).
  - destruct (w_alive w1 p) eqn:Ha; simplify_eq. by apply syscall_inv.
  - destruct (w_alive w1 p); [|done]. destruct (w_pc w1 p); simplify_eq. by apply inv_set_pc; [| |left|].
  - simplify_eq. apply (inv_step w1); [done|done| |by left|by left].
    intros i (q & Hq & Hf). exists q. split; [|done]. simpl in Hq. unfold upd in Hq. by case_decide.
  - destruct (0 <=? ms); simplify_eq. by apply (inv_step w1); [| | |left|left].
Qed.

Lemma calm_reachable w : rtc calm_step init w -> Inv w.
Proof.
  intros Hr. assert (Inv init) as H0.
  { constructor; [by apply base_reachable, rtc_refl|by intros i (q & _ & Hf)|done]. }
  revert H0. induction Hr as [|w1 w2 w3 Hs _ IH]; [done|]. intros H0. by apply IH, (step_inv w1 w2).
Qed.

(** C32: the lock file under any interleaving of the processes' file system calls
    and deaths. In a run in which no live process keeps a lock longer than the
    stale age and every reclaimer renames the very file it read, at most one live
    process is in its critical section, and the file at the lock path is the one
    it created: what the staleness check condemns is never the lock of a live
    process. In every run whatsoever, a release goes on to unlink the lock path
    only if the file it read there is the one its own acquisition created. *)
Theorem lock_mutual_exclusion w :
  (rtc calm_step init w ->
     (forall p p', holds p w -> holds p' w -> p = p') /\
     (forall p tok ino, w_alive w p = true -> w_pc w p = Holding tok ino -> w_path w = Some ino)) /\
  (rtc any_step init w ->
     forall p tok ino w', w_pc w p = Releasing tok ino -> exec (a_next p) w = Some w' ->
       w_pc w' p = Unlinking tok ino -> w_path w = Some ino).
Proof.
  split.
  - intros HI%calm_reachable. destruct HI as [HB Hp _].
    assert (Hh : forall p tok ino, w_alive w p = true -> w_pc w p = Holding tok ino -> w_path w = Some ino).
    { intros p tok ino Ha E. apply Hp. exists p. by rewrite E. }
    split; [|done]. intros p p' [Ha (tok & ino & E)] [Ha' (tok' & ino' & E')].
    pose proof (Hh _ _ _ Ha E). pose proof (Hh _ _ _ Ha' E'). simplify_eq.
    eapply (b_own w HB); [by rewrite E|by rewrite E'].
  - intros HB%base_reachable p tok ino w' Hpc Hex Hun. simpl in Hex. destruct (w_alive w p); [|done].
    injection Hex as <-. unfold syscall in Hun. rewrite Hpc in Hun. unfold set_pc, upd in Hun.
    repeat case_match; simpl in Hun; rewrite decide_True in Hun by done; try done.
    pose proof (b_mine w HB p tok) as Hm. rewrite Hpc in Hm. bool_to_prop. specialize (Hm n l eq_refl ltac:(done) ltac:(done)). simpl in Hm. congruence.
Qed.
End Lock.

(** ** The residual window, with a dead owner *)

Definition DEFAULT_LOCK_STALE_MS : Z := 30000.
Definition P (n : nat) : Proc := ("host", n).
Definition run_demo : list Action -> option World := fun l => exec_all DEFAULT_LOCK_STALE_MS l init.

Lemma run_demo_app l l' : run_demo (l ++ l') = (w' ← run_demo l; exec_all DEFAULT_LOCK_STALE_MS l' w').
Proof. apply exec_all_app. Qed.

(** What is seen of some processes: whether they live, and where they are. *)
Definition view (l : list Proc) (w : World) : list (bool * Pc) := map (fun p => (w_alive w p, w_pc w p)) l.

(** Process 0 dies holding the lock; 1 and 2 both judge it; 1 reclaims it and
    takes the lock; 2 then moves aside 1's live lock, and 3 creates a new one
    before 2 can put it back. *)
Definition dead_owner_trace : list Action :=
  [a_start (P 0); a_next (P 0); a_next (P 0); a_die (P 0);
   a_start (P 1); a_next (P 1); a_next (P 1); a_next (P 1);
   a_start (P 2); a_next (P 2); a_next (P 2); a_next (P 2);
   a_next (P 1); a_next (P 1); a_next (P 1); a_next (P 1);
   a_next (P 2); a_next (P 2);
   a_start (P 3); a_next (P 3); a_next (P 3)].

(** The lock is not exclusive when two processes reclaim it from a dead
    owner: although no time passes (so no lock is ever condemned by age), after
    this run of the code two live processes are in their critical sections. *)
Theorem dead_owner_overlap :
  exists w, run_demo dead_owner_trace = Some w /\ holds (P 1) w /\ holds (P 3) w /\
    (forall ms, a_tick ms ∉ dead_owner_trace) /\ w_alive w (P 0) = false.
Proof.
  assert (E : view [P 0; P 1; P 3] <$> run_demo dead_owner_trace =
    Some [(false, Holding 0 1); (true, Holding 2 4); (true, Holding 5 6)]) by (vm_compute; reflexivity).
  destruct (run_demo dead_owner_trace) as [w|]; [|discriminate E]. cbn in E. injection E as E0 _ E1 E1' E3 E3'.
  exists w. split_and!; [done|split; eauto|split; eauto| |done].
  intros ms. unfold dead_owner_trace. set_solver.
Qed.

(** One process reclaiming a dead owner's lock is calm, and then holds it alone. *)
Definition one_reclaimer_trace : list Action :=
  [a_start (P 0); a_next (P 0); a_next (P 0); a_die (P 0); a_start (P 1); a_next (P 1); a_next (P 1); a_next (P 1); a_next (P 1); a_next (P 1); a_next (P 1); a_next (P 1)].

Lemma one_reclaimer_calm w : run_demo one_reclaimer_trace = Some w -> rtc (calm_step DEFAULT_LOCK_STALE_MS) init w.
Proof.
  unfold run_demo. intros E. refine (exec_all_calm DEFAULT_LOCK_STALE_MS one_reclaimer_trace init w E _).
  apply all_calmb_sound. vm_compute. reflexivity.
Qed.

Lemma lock_mutual_exclusion_witness :
  exists w, run_demo one_reclaimer_trace = Some w /\ holds (P 1) w /\ (forall p, holds p w -> p = P 1) /\
    exists w' w2, exec DEFAULT_LOCK_STALE_MS (a_next (P 1)) w = Some w' /\ w_pc w' (P 1) = Releasing 2 3 /\
      exec DEFAULT_LOCK_STALE_MS (a_next (P 1)) w' = Some w2 /\ w_pc w2 (P 1) = Unlinking 2 3 /\ w_path w' = Some 3%nat.
Proof.
  assert (E1 : view [P 1] <$> run_demo one_reclaimer_trace = Some [(true, Holding 2 3)]) by (vm_compute; reflexivity).
  assert (E2 : view [P 1] <$> run_demo (one_reclaimer_trace ++ [a_next (P 1)]) = Some [(true, Releasing 2 3)])
    by (vm_compute; reflexivity).
  assert (E3 : view [P 1] <$> run_demo (one_reclaimer_trace ++ [a_next (P 1); a_next (P 1)]) = Some [(true, Unlinking 2 3)])
    by (vm_compute; reflexivity).
  rewrite run_demo_app in E2, E3.
  destruct (run_demo one_reclaimer_trace) as [w|] eqn:E; [|discriminate E1]. cbn in E1. injection E1 as Ha Hp.
  pose proof (one_reclaimer_calm w E) as Hc. assert (Hh : holds (P 1) w) by (split; eauto).
  exists w. split; [reflexivity|]. split; [exact Hh|]. split.
  - intros p Hp'. exact (proj1 (proj1 (lock_mutual_exclusion DEFAULT_LOCK_STALE_MS w) Hc) p (P 1) Hp' Hh).
  - cbn [mbind option_bind exec_all] in E2, E3.
    destruct (exec DEFAULT_LOCK_STALE_MS (a_next (P 1)) w) as [w'|] eqn:Ew; [|discriminate E2].
    cbn [mbind option_bind exec_all] in E2, E3. cbn in E2. injection E2 as Ha' Hp2.
    destruct (exec DEFAULT_LOCK_STALE_MS (a_next (P 1)) w') as [w2|] eqn:Ew2; [|discriminate E3].
    cbn in E3. injection E3 as Ha2 Hp3. exists w', w2. split_and!; [done..|].
    assert (Hr : rtc (any_step DEFAULT_LOCK_STALE_MS) init w').
    { apply (rtc_r _ w); [|exact (any_step_intro DEFAULT_LOCK_STALE_MS _ w w' Ew)].
      apply (rtc_subrel (calm_step DEFAULT_LOCK_STALE_MS)); [|exact Hc]. intros ? ? []. by econstructor. }
    exact (proj2 (lock_mutual_exclusion DEFAULT_LOCK_STALE_MS w') Hr (P 1) 2%nat 3%nat w2 Hp2 Ew2 Hp3).
Defined.

(** ** Authority generations (src/ledger/authority.ts)

    [stored] is the number the counter file parses to, if any. *)
Definition MAX_SAFE_INTEGER : Z := 2 ^ 53 - 1.

Definition claimAuthorityGeneration (stored : option Z) (floor : Z) : Z :=
  let current := match stored with
                 | Some n => if (n <=? MAX_SAFE_INTEGER) && (0 <? n) then n else 0
                 | None => 0
                 end in
  Z.max current floor + 1.

(** Successive claims, each under the lock, with the floors their logs gave. *)
Fixpoint claims (stored : option Z) (floors : list Z) : list Z :=
  match floors with
  | [] => []
  | floor :: rest => let g := claimAuthorityGeneration stored floor in g :: claims (Some g) rest
  end.

(** Claims are strictly increasing, and above the floor of each. *)
Lemma claims_increase stored floors :
  Forall (fun f => 0 <= f) floors -> Forall (fun g => g <= MAX_SAFE_INTEGER) (claims stored floors) ->
  StronglySorted Z.lt (claims stored floors) /\
  forall i f g, floors !! i = Some f -> claims stored floors !! i = Some g -> f < g.
Proof.
  revert stored. induction floors as [|f floors IH]; intros stored Hf Hg; [split; [constructor|done]|].
  cbn [claims] in *. set (g := claimAuthorityGeneration stored f) in *.
  apply Forall_cons in Hf as [Hf0 Hf], Hg as [Hg0 Hg]. destruct (IH (Some g) Hf Hg) as [Hs Hi].
  assert (Hgf : f < g) by (unfold g, claimAuthorityGeneration; lia).
  split; [|intros [|i] f' g'; simpl; [by intros [= <-] [= <-]|apply Hi]].
  constructor; [done|]. clear IH Hi. destruct floors as [|f2 floors]; [constructor|]. cbn [claims] in *.
  assert (Hlt : g < claimAuthorityGeneration (Some g) f2).
  { unfold claimAuthorityGeneration. destruct (g <=? MAX_SAFE_INTEGER) eqn:E1; bool_to_prop; [|lia].
    destruct (0 <? g) eqn:E2; bool_to_prop; simpl; lia. }
  apply Forall_cons. split; [done|]. apply StronglySorted_inv in Hs as [_ Hs].
  eapply Forall_impl; [exact Hs|]. intros x. simpl. lia.
Qed.
