(* ===== verification/EventStore.v ===== *)
(** * The append-only event store (src/ledger/EventStore.ts)

    A store keeps the events it has read, an index by event id, the byte offset
    up to which it has read the shared JSONL file, and whether the file ended in
    an unterminated line. The file itself is text shared by every process; an
    append holds the cross-process lock, so it is one atomic step here: catch up
    with the file, judge the condition, write one line, index the event.

    The client's state [L] is threaded through the callbacks the code passes
    ([condition], [onCommit], [onExternal]). [JSON.stringify]/[JSON.parse] of an
    event are the class [EventCodec]; its laws are the documented behaviour of
    JSON text for the events the program stores. *)

From S2P Require Import Prelude JsMap.

Notation text := (list ascii).
Definition nl : ascii := "010"%char.

(** [text.split("\n")]: always at least one piece. *)
Fixpoint split_nl (t : text) : list text :=
  match t with
  | [] => [[]]
  | c :: t' =>
      if decide (c = nl) then [] :: split_nl t'
      else match split_nl t' with
           | piece :: rest => (c :: piece) :: rest
           | [] => [[c]]
           end
  end.

(** [lines.pop()] of the split: what follows the last newline. *)
Definition tail_piece (t : text) : text := List.last (split_nl t) [].

(** [!line.trim()] *)
Definition blank (line : text) : bool := js_every is_space line.

Class HasEventId (E : Type) := event_id : E -> string.

Class EventCodec (E : Type) := {
  stringify : E -> text;
  parse : text -> option E;
  parse_stringify e : parse (stringify e) = Some e;
  stringify_one_line e : nl ∉ stringify e;
  stringify_not_blank e : blank (stringify e) = false;
  (** an object's text is not complete before its closing brace *)
  stringify_minimal e k : (k < length (stringify e))%nat -> parse (take k (stringify e)) = None;
}.

Section Store.
Context {E L Er : Type} `{HasId : HasEventId E} `{Codec : EventCodec E}.
Implicit Types (file : option text).

Record EventStore := mkStore {
  st_events : list E;
  st_byId : jsmap string E;
  st_offset : nat;
  st_needsNewline : bool;
}.

Definition emptyStore : EventStore := mkStore [] [] 0 false.

(** The in-memory half of an append: push and index. *)
Definition push_event (e : E) (st : EventStore) : EventStore :=
  mkStore (st_events st ++ [e]) (map_set (event_id e) e (st_byId st)) (st_offset st) (st_needsNewline st).

(** One iteration of the loop of [consume]. *)
Definition consume_line (onExternal : option (E -> L -> L)) (s : EventStore * L) (line : text) : EventStore * L :=
  let (st, l) := s in
  if blank line then (st, l)
  else match parse line with
       | None => (st, l)
       | Some evt =>
           if map_has (event_id evt) (st_byId st) then (st, l)
           else (push_event evt st, match onExternal with Some h => h evt l | None => l end)
       end.

Definition consume (onExternal : option (E -> L -> L)) (t : text) (s : EventStore * L) : EventStore * L :=
  let (st, l) := foldl (consume_line onExternal) s (split_nl t) in
  (mkStore (st_events st) (st_byId st) (st_offset st + length t)
           (negb (bool_decide (tail_piece t = []))), l).

Definition load (file : option text) (l : L) : EventStore * L :=
  match file with
  | None => (emptyStore, l)
  | Some f => consume None f (emptyStore, l)
  end.

Definition catchUp (onExternal : E -> L -> L) file (s : EventStore * L) : EventStore * L :=
  match file with
  | None => s
  | Some f =>
      let (st, l) := s in
      let size := length f in
      if (size <? st_offset st)%nat then (mkStore (st_events st) (st_byId st) size (st_needsNewline st), l)
      else if (size =? st_offset st)%nat then (st, l)
      else consume (Some onExternal) (drop (st_offset st) f) (st, l)
  end.

(** The text one append writes, and its effect on the file and the offset. *)
Definition append_text (needsNewline : bool) (es : list E) : text :=
  (if needsNewline then [nl] else []) ++ concat (map (fun e => stringify e ++ [nl]) es).
Definition file_text file : text := default [] file.
Definition write_text (t : text) file (st : EventStore) : option text * EventStore :=
  (Some (file_text file ++ t), mkStore (st_events st) (st_byId st) (st_offset st + length t) false).

(** The state an append works on: the shared file, the store, its client. *)
Definition astate : Type := option text * EventStore * L.

Definition appendConditionally (memoryOnly : bool) (onExternal : E -> L -> L) (event : E)
    (condition : L -> res Er bool) (onCommit : L -> L) (s : astate) : astate * res Er (option E) :=
  let '(file, st, l) := s in
  if memoryOnly then
    match condition l with
    | Err e => (s, Err e)
    | Ok false => (s, Ok None)
    | Ok true => ((file, push_event event st, onCommit l), Ok (Some event))
    end
  else
    let '(st1, l1) := catchUp onExternal file (st, l) in
    match condition l1 with
    | Err e => ((file, st1, l1), Err e)
    | Ok false => ((file, st1, l1), Ok None)
    | Ok true =>
        let '(file', st2) := write_text (append_text (st_needsNewline st1) [event]) file st1 in
        ((file', push_event event st2, onCommit l1), Ok (Some event))
    end.

(** [appendBatch]: the events are built by [prepare] under the lock; an absent or
    empty list writes nothing. *)
Definition push_events (es : list E) (st : EventStore) : EventStore := foldl (fun st e => push_event e st) st es.

Definition appendBatch (memoryOnly : bool) (onExternal : E -> L -> L)
    (prepare : L -> res Er (option (list E))) (onCommit : list E -> L -> L) (s : astate)
  : astate * res Er (option (list E)) :=
  let '(file, st, l) := s in
  let '(st1, l1) := if memoryOnly then (st, l) else catchUp onExternal file (st, l) in
  match prepare l1 with
  | Err e => ((file, st1, l1), Err e)
  | Ok None | Ok (Some []) => ((file, st1, l1), Ok None)
  | Ok (Some es) =>
      let '(file', st2) := if memoryOnly then (file, st1)
                           else write_text (append_text (st_needsNewline st1) es) file st1 in
      ((file', push_events es st2, onCommit es l1), Ok (Some es))
  end.

Definition append (memoryOnly : bool) (onExternal : E -> L -> L) (event : E) (s : astate) : astate * res Er (option E) :=
  appendConditionally memoryOnly onExternal event (fun _ => Ok true) id s.

Definition st_get (eventId : string) (st : EventStore) : option E := map_get eventId (st_byId st).
Definition st_all (st : EventStore) : list E := st_events st.
Definition st_count (st : EventStore) : Z := js_len (st_events st).

(** ** The log a file denotes

    The reference reading of a file: every line that parses, in order, first
    occurrence of an id only. *)
Definition parse_line (line : text) : option E := if blank line then None else parse line.
Definition decode (t : text) : list E := omap parse_line (split_nl t).
Fixpoint first_ids (seen : list string) (es : list E) : list E :=
  match es with
  | [] => []
  | e :: es' => if js_includes (event_id e) seen then first_ids seen es'
                else e :: first_ids (seen ++ [event_id e]) es'
  end.
Definition log_of (t : text) : list E := first_ids [] (decode t).

(** The file ends inside a line. *)
Definition open_end (t : text) : bool := negb (bool_decide (tail_piece t = [])).

(** [s] continues [p] on a line boundary. *)
Definition seam (p s : text) : Prop := open_end p = false \/ s = [] \/ exists s', s = nl :: s'.

Lemma split_nl_ne t : split_nl t <> [].
Proof. destruct t as [|c t]; simpl; [done|]. destruct (decide _); [done|]. by destruct (split_nl t). Qed.

Lemma split_app_nl a b : split_nl (a ++ nl :: b) = split_nl a ++ split_nl b.
Proof.
  induction a as [|c a IH]; [done|]. cbn [app split_nl]. rewrite IH.
  destruct (decide (c = nl)); [done|]. pose proof (split_nl_ne a). by destruct (split_nl a).
Qed.

Lemma split_one a : nl ∉ a -> split_nl a = [a].
Proof.
  induction a as [|c a IH]; [done|]. rewrite not_elem_of_cons. intros [Hc Ha]. simpl.
  rewrite decide_False by congruence. by rewrite IH.
Qed.

(** A text either holds no newline or splits at its last one. *)
Lemma last_nl t : nl ∉ t \/ exists q r, t = q ++ nl :: r /\ nl ∉ r.
Proof.
  induction t as [|c t [IH|(q & r & -> & Hr)]].
  - left. set_solver.
  - destruct (decide (c = nl)) as [->|]; [right; exists [], t|left]; set_solver.
  - right. by exists (c :: q), r.
Qed.

Lemma tail_piece_app a r : nl ∉ r -> tail_piece (a ++ nl :: r) = r.
Proof. intros Hr. unfold tail_piece. by rewrite split_app_nl, (split_one r), List.last_last. Qed.

Lemma tail_piece_one r : nl ∉ r -> tail_piece r = r.
Proof. intros Hr. unfold tail_piece. by rewrite split_one. Qed.

Lemma open_end_false t : open_end t = false <-> t = [] \/ exists q, t = q ++ [nl].
Proof.
  unfold open_end. rewrite negb_false_iff, bool_decide_eq_true.
  destruct (last_nl t) as [Ht|(q & r & -> & Hr)].
  - rewrite tail_piece_one by done. split; [by left|]. intros [?|[q ->]]; [done|]. set_solver.
  - rewrite tail_piece_app by done. split; [intros ->; eauto|].
    intros [H|[q' H]]; [by destruct q|]. destruct r as [|c r _] using rev_ind; [done|].
    replace (q ++ nl :: r ++ [c]) with ((q ++ nl :: r) ++ [c]) in H by by rewrite <- app_assoc.
    apply app_inj_tail in H as [_ ->]. set_solver.
Qed.

Lemma open_end_nl q : open_end (q ++ [nl]) = false.
Proof. apply open_end_false. eauto. Qed.

Lemma decode_app p s : seam p s -> decode (p ++ s) = decode p ++ decode s.
Proof.
  assert (Hnil : decode [] = []) by done.
  intros [Ho|[->|[s' ->]]].
  - apply open_end_false in Ho as [->|[q ->]]; [by rewrite Hnil|].
    unfold decode. rewrite <- app_assoc. simpl. rewrite !split_app_nl, !omap_app.
    change (omap parse_line (split_nl [])) with (@nil E). by rewrite app_nil_r.
  - by rewrite app_nil_r, Hnil, app_nil_r.
  - unfold decode. change (split_nl (nl :: s')) with (split_nl ([] ++ nl :: s')).
    rewrite !split_app_nl, !omap_app. change (omap parse_line (split_nl [])) with (@nil E). done.
Qed.

Lemma first_ids_app seen a b :
  first_ids seen (a ++ b) = first_ids seen a ++ first_ids (seen ++ map event_id (first_ids seen a)) b.
Proof.
  revert seen. induction a as [|e a IH]; intros seen; simpl; [by rewrite app_nil_r|].
  destruct (js_includes _ seen); [apply IH|]. simpl. f_equal. rewrite IH. by rewrite <- app_assoc.
Qed.

Lemma first_ids_fresh seen es :
  NoDup (map event_id es) -> (forall e, e ∈ es -> event_id e ∉ seen) -> first_ids seen es = es.
Proof.
  revert seen. induction es as [|e es IH]; intros seen; [done|]. simpl. rewrite NoDup_cons.
  intros [Hni Hnd] Hf. rewrite (proj2 (js_includes_false _ _)) by (apply Hf; set_solver). f_equal.
  apply IH; [done|]. intros e' He'. rewrite elem_of_app, list_elem_of_singleton. intros [Hs|Heq].
  - by apply (Hf e'); [set_solver|].
  - apply Hni. rewrite <- Heq. by apply list_elem_of_fmap_2.
Qed.

Lemma first_ids_nodup seen es :
  NoDup (map event_id (first_ids seen es)) /\ (forall i, i ∈ map event_id (first_ids seen es) -> i ∉ seen).
Proof.
  revert seen. induction es as [|e es IH]; intros seen; simpl; [split; [constructor|set_solver]|].
  destruct (js_includes (event_id e) seen) eqn:Hi; [apply IH|]. simpl. apply js_includes_false in Hi.
  destruct (IH (seen ++ [event_id e])) as [H1 H2]. split.
  - apply NoDup_cons. split; [|done]. intros Hc. apply H2 in Hc. set_solver.
  - intros i Hin. apply elem_of_cons in Hin as [->|Hin]; [done|]. apply H2 in Hin. set_solver.
Qed.

(** Reading a further piece of text extends the events of a store whose index
    matches its events; every event read reaches the client's handler once. *)
Definition indexed (st : EventStore) : Prop :=
  forall i, map_has i (st_byId st) = js_includes i (map event_id (st_events st)).

Lemma indexed_push e st : indexed st -> indexed (push_event e st).
Proof.
  intros H i. unfold push_event. simpl. rewrite map_app. simpl.
  apply eq_true_iff_eq. rewrite map_has_get, js_includes_true, elem_of_app, list_elem_of_singleton.
  rewrite map_get_set. destruct (decide (event_id e = i)) as [->|Hne]; [naive_solver|].
  rewrite <- map_has_get, H, js_includes_true. naive_solver.
Qed.

Lemma indexed_push_all es : forall st, indexed st -> indexed (push_events es st).
Proof. induction es as [|e es IH]; intros st Hs; [done|]. apply IH. by apply indexed_push. Qed.

Lemma push_events_spec es : forall st,
  st_events (push_events es st) = st_events st ++ es /\
  st_offset (push_events es st) = st_offset st /\ st_needsNewline (push_events es st) = st_needsNewline st.
Proof.
  induction es as [|e es IH]; intros st; [by rewrite app_nil_r|].
  destruct (IH (push_event e st)) as (H1 & H2 & H3).
  change (push_events (e :: es) st) with (push_events es (push_event e st)).
  rewrite H1, H2, H3. simpl. by rewrite <- app_assoc.
Qed.

Definition notify (h : option (E -> L -> L)) (es : list E) (l : L) : L :=
  match h with Some f => foldl (fun l e => f e l) l es | None => l end.

Lemma consume_line_eq h st l ln :
  consume_line h (st, l) ln =
  match parse_line ln with
  | Some e => if map_has (event_id e) (st_byId st) then (st, l)
              else (push_event e st, match h with Some f => f e l | None => l end)
  | None => (st, l)
  end.
Proof. unfold consume_line, parse_line. by destruct (blank ln). Qed.

Lemma consume_lines h ls : forall st l,
  indexed st -> exists st', indexed st' /\
  foldl (consume_line h) (st, l) ls =
    (st', notify h (first_ids (map event_id (st_events st)) (omap parse_line ls)) l) /\
  st_events st' = st_events st ++ first_ids (map event_id (st_events st)) (omap parse_line ls) /\
  st_offset st' = st_offset st.
Proof.
  induction ls as [|ln ls IH]; intros st l Hi.
  - exists st. rewrite app_nil_r. split_and!; [done| |done|done]. by destruct h.
  - change (foldl (consume_line h) (st, l) (ln :: ls))
      with (foldl (consume_line h) (consume_line h (st, l) ln) ls).
    change (omap parse_line (ln :: ls)) with
      (match parse_line ln with Some e => e :: omap parse_line ls | None => omap parse_line ls end).
    rewrite consume_line_eq. destruct (parse_line ln) as [e|]; [|by apply IH]. rewrite Hi. simpl first_ids.
    destruct (js_includes (event_id e) _) eqn:Hin; [by apply IH|].
    destruct (IH (push_event e st) (match h with Some f => f e l | None => l end)) as (st' & H1 & H2 & H3 & H4);
      [by apply indexed_push|].
    exists st'. assert (Hm : map event_id (st_events (push_event e st)) = map event_id (st_events st) ++ [event_id e])
      by (unfold push_event; simpl; by rewrite map_app).
    rewrite Hm in *. split_and!; [done| | |done].
    + rewrite H2. by destruct h.
    + rewrite H3. unfold push_event. simpl. by rewrite <- app_assoc.
Qed.

Lemma consume_spec h t st l :
  indexed st ->
  let new := first_ids (map event_id (st_events st)) (decode t) in
  exists st', consume h t (st, l) = (st', notify h new l) /\ indexed st' /\
  st_events st' = st_events st ++ new /\ st_offset st' = (st_offset st + length t)%nat /\
    st_needsNewline st' = open_end t.
Proof.
  intros Hi new. destruct (consume_lines h (split_nl t) st l Hi) as (st' & H1 & H2 & H3 & H4).
  unfold consume. rewrite H2. eexists. split; [done|]. split_and!; [done|done| |done].
  simpl. by rewrite H4.
Qed.

(** ** A store in step with the file

    The store has read the first [st_offset] bytes: its events are the log of
    that prefix, and whatever follows starts on a line boundary. *)
Record synced (f : text) (st : EventStore) : Prop := {
  sy_offset : (st_offset st <= length f)%nat;
  sy_events : st_events st = log_of (take (st_offset st) f);
  sy_index : indexed st;
  sy_newline : st_needsNewline st = open_end (take (st_offset st) f);
  sy_seam : seam (take (st_offset st) f) (drop (st_offset st) f);
}.

Lemma log_of_app p s :
  seam p s -> log_of (p ++ s) = log_of p ++ first_ids (map event_id (log_of p)) (decode s).
Proof. intros Hs. unfold log_of. by rewrite decode_app, first_ids_app. Qed.

Lemma open_end_app p s : s <> [] -> seam p s -> open_end (p ++ s) = open_end s.
Proof.
  intros Hne Hs. apply Bool.eq_true_iff_eq. destruct (open_end s) eqn:E1.
  - split; [done|]. intros _. destruct (open_end (p ++ s)) eqn:E2; [done|]. exfalso.
    destruct s as [|c s _] using rev_ind; [done|].
    apply open_end_false in E2 as [E2|[q E2]]; [by destruct p, s|].
    rewrite app_assoc in E2. apply app_inj_tail in E2 as [_ ->]. by rewrite open_end_nl in E1.
  - split; [|done]. apply open_end_false in E1 as [->|[q ->]]; [done|].
    rewrite app_assoc. by rewrite open_end_nl.
Qed.

Lemma catchUp_synced onExternal f st l :
  synced f st ->
  exists st', catchUp onExternal (Some f) (st, l) =
    (st', foldl (fun l e => onExternal e l) l (drop (length (st_events st)) (log_of f))) /\
  synced f st' /\ st_offset st' = length f /\ st_events st' = log_of f.
Proof.
  intros [H1 H2 H3 H4 H5]. unfold catchUp. rewrite (proj2 (Nat.ltb_ge _ _)) by done.
  destruct (Nat.eqb_spec (length f) (st_offset st)) as [He|Hne].
  - exists st. assert (Ht : take (st_offset st) f = f) by (apply take_ge; lia).
    rewrite Ht in H2. rewrite H2, drop_all. split_and!; [done| |done|done].
    constructor; rewrite ?Ht; [done|done|done|by rewrite Ht in H4|]. right. left. apply drop_ge. lia.
  - destruct (consume_spec (Some onExternal) (drop (st_offset st) f) st l H3) as (st' & -> & I1 & I2 & I3 & I4).
    assert (Hl : log_of f = st_events st ++ first_ids (map event_id (st_events st)) (decode (drop (st_offset st) f))).
    { rewrite H2, <- log_of_app by done. by rewrite take_drop. }
    assert (Hoff : st_offset st' = length f) by (rewrite I3, length_drop; lia).
    exists st'. split_and!; [| |done|by rewrite I2].
    + by rewrite Hl, drop_app_length.
    + constructor; [lia| |done| |].
      * by rewrite I2, Hoff, firstn_all.
      * rewrite I4, Hoff, firstn_all. rewrite <- (take_drop (st_offset st) f) at 2.
        rewrite open_end_app; [done| |done]. intros Hd. apply (f_equal length) in Hd.
        rewrite length_drop in Hd. simpl in Hd. lia.
      * right. left. rewrite Hoff. apply drop_all.
Qed.

Lemma synced_prefix f st :
  synced f st -> log_of f = st_events st ++ drop (length (st_events st)) (log_of f).
Proof.
  intros [H1 H2 H3 H4 H5].
  assert (Hl : log_of f = st_events st ++ first_ids (map event_id (st_events st)) (decode (drop (st_offset st) f)))
    by (rewrite H2, <- log_of_app by done; by rewrite take_drop).
  rewrite Hl at 2. by rewrite drop_app_length.
Qed.

(** The file grows at a line boundary: stores that have not looked stay in step. *)
Lemma synced_grow f s st : synced f st -> seam f s -> synced (f ++ s) st.
Proof.
  intros [H1 H2 H3 H4 H5] Hs.
  constructor; rewrite ?take_app_le, ?drop_app_le by done; try done; [rewrite length_app; lia|].
  destruct H5 as [H5|[H5|[s' H5]]]; [by left| |right; right; rewrite H5; by eexists].
  rewrite H5. simpl. rewrite <- (take_drop (st_offset st) f), H5, app_nil_r in Hs. done.
Qed.

(** ** Writing *)

Lemma decode_line e t : decode (stringify e ++ nl :: t) = e :: decode t.
Proof.
  unfold decode. rewrite split_app_nl, split_one by by apply stringify_one_line.
  simpl. unfold parse_line at 1. by rewrite stringify_not_blank, parse_stringify.
Qed.

Lemma decode_nl t : decode (nl :: t) = decode t.
Proof. done. Qed.

Lemma decode_batch es : decode (concat (map (fun e => stringify e ++ [nl]) es)) = es.
Proof.
  induction es as [|e es IH]; [done|]. simpl. rewrite <- app_assoc. simpl. by rewrite decode_line, IH.
Qed.

Lemma decode_append_text b es : decode (append_text b es) = es.
Proof. unfold append_text. destruct b; simpl; rewrite ?decode_nl; by apply decode_batch. Qed.

Lemma seam_append_text f es k : seam f (take k (append_text (open_end f) es)).
Proof.
  destruct (open_end f) eqn:Ho; [|by left]. right. destruct k; simpl; [by left|]. right. by eexists.
Qed.

Lemma append_text_open b es : es <> [] -> open_end (append_text b es) = false.
Proof.
  intros Hne. apply open_end_false. right. destruct es as [|e es _] using rev_ind; [done|].
  unfold append_text. rewrite map_app, concat_app. simpl. rewrite app_nil_r.
  match goal with |- exists q, ?a ++ ?c ++ _ = _ => exists (a ++ c ++ stringify e) end.
  rewrite !app_assoc. reflexivity.
Qed.

(** A write cut short leaves a prefix of the batch readable and nothing else. *)
Lemma decode_torn_batch es : forall k,
  exists n, decode (take k (concat (map (fun e => stringify e ++ [nl]) es))) = take n es.
Proof.
  induction es as [|e es IH]; intros k; [exists 0%nat; destruct k; reflexivity|].
  simpl. rewrite <- app_assoc. simpl.
  destruct (decide (k < length (stringify e))%nat) as [Hk|Hk].
  - exists 0%nat. rewrite take_app_le by lia. unfold decode.
    rewrite split_one by (pose proof (stringify_one_line e) as Hn; intros Hc; apply Hn;
                          apply (elem_of_take _ _ _) in Hc as (? & ? & _); by eapply list_elem_of_lookup_2).
    simpl. unfold parse_line. destruct (blank _); [done|]. by rewrite stringify_minimal.
  - replace k with (length (stringify e) + (k - length (stringify e)))%nat by lia.
    rewrite take_app_add. destruct (k - length (stringify e))%nat as [|m].
    + exists 1%nat. simpl. rewrite app_nil_r. unfold decode. rewrite split_one by by apply stringify_one_line.
      simpl. unfold parse_line. by rewrite stringify_not_blank, parse_stringify.
    + simpl. rewrite decode_line. destruct (IH m) as [n Hn]. exists (S n). by rewrite Hn.
Qed.

Lemma decode_torn es b k : exists n, decode (take k (append_text b es)) = take n es.
Proof.
  unfold append_text. destruct b; simpl; [|by apply decode_torn_batch].
  destruct k; simpl; [by exists 0%nat|]. rewrite decode_nl. by apply decode_torn_batch.
Qed.

(** Events whose ids the log does not hold yet. *)
Definition fresh_for (f : text) (es : list E) : Prop :=
  NoDup (map event_id es) /\ forall e, e ∈ es -> event_id e ∉ map event_id (log_of f).

Lemma log_of_torn f es k :
  fresh_for f es ->
  exists n, log_of (f ++ take k (append_text (open_end f) es)) = log_of f ++ take n es.
Proof.
  intros [Hnd Hf]. destruct (decode_torn es (open_end f) k) as [n Hn]. exists n.
  rewrite log_of_app by apply seam_append_text. rewrite Hn. f_equal. apply first_ids_fresh.
  - rewrite <- (take_drop n es), map_app, NoDup_app in Hnd. apply Hnd.
  - intros e He. apply Hf. rewrite <- (take_drop n es). set_solver.
Qed.

Lemma log_of_append f es :
  fresh_for f es -> log_of (f ++ append_text (open_end f) es) = log_of f ++ es.
Proof.
  intros [Hnd Hf]. rewrite log_of_app.
  - rewrite decode_append_text. f_equal. by apply first_ids_fresh.
  - rewrite <- (firstn_all (append_text (open_end f) es)). apply seam_append_text.
Qed.

Lemma seam_full f es : seam f (append_text (open_end f) es).
Proof. rewrite <- (firstn_all (append_text (open_end f) es)). apply seam_append_text. Qed.

(** A store at the end of the file that writes a batch is at the end again. *)
Lemma write_synced f es st :
  synced f st -> st_offset st = length f -> es <> [] -> fresh_for f es ->
  let t := append_text (st_needsNewline st) es in
  synced (f ++ t) (push_events es (snd (write_text t (Some f) st))) /\
  st_offset (push_events es (snd (write_text t (Some f) st))) = length (f ++ t) /\ seam f t /\
  log_of (f ++ t) = log_of f ++ es.
Proof.
  intros [H1 H2 H3 H4 H5] Hoff Hne Hf t. rewrite Hoff, firstn_all in H2, H4.
  assert (Ht : t = append_text (open_end f) es) by (unfold t; by rewrite H4).
  set (st2 := snd (write_text t (Some f) st)). destruct (push_events_spec es st2) as (P1 & P2 & P3).
  assert (Hlen : st_offset (push_events es st2) = length (f ++ t)) by (rewrite P2, length_app; simpl; lia).
  assert (Hlog : log_of (f ++ t) = log_of f ++ es) by (rewrite Ht; by apply log_of_append).
  split_and!; [|done|rewrite Ht; apply seam_full|done].
  constructor; rewrite ?Hlen, ?firstn_all, ?drop_all; [lia| | | |].
  - rewrite P1, Hlog. simpl. by rewrite H2.
  - by apply indexed_push_all.
  - rewrite P3. simpl. rewrite open_end_app; [by rewrite Ht, append_text_open| |rewrite Ht; apply seam_full].
    rewrite Ht. intros Hc. pose proof (append_text_open (open_end f) es Hne) as Ho.
    destruct es as [|e es]; [done|]. unfold append_text in Hc. simpl in Hc. by destruct (open_end f), (stringify e).
  - right. by left.
Qed.

Lemma load_synced f l : exists st, load (Some f) l = (st, l) /\ synced f st /\ st_offset st = length f.
Proof.
  destruct (consume_spec None f emptyStore l) as (st & H1 & H2 & H3 & H4 & H5); [by intros i|].
  exists st. simpl in H4. split_and!; [done| |done]. constructor; rewrite ?H4, ?firstn_all, ?drop_all; [lia|done|done|done|].
  right. by left.
Qed.

(** The client state an append judges: the store's client after the events other
    processes wrote since the store last looked. *)
Definition caught_up (onExternal : E -> L -> L) file (st : EventStore) (l : L) : L :=
  foldl (fun l e => onExternal e l) l (drop (length (st_events st)) (log_of (file_text file))).

Lemma catchUp_any onExternal file st l :
  synced (file_text file) st ->
  exists st', catchUp onExternal file (st, l) = (st', caught_up onExternal file st l) /\
  synced (file_text file) st' /\ st_offset st' = length (file_text file) /\ st_events st' = log_of (file_text file).
Proof.
  intros Hs. destruct file as [f|]; [by apply catchUp_synced|].
  exists st. destruct Hs as [H1 H2 H3 H4 H5]. simpl in *. rewrite take_nil in H2.
  assert (Ho : st_offset st = 0%nat) by lia. split_and!; [| |done|done].
  - unfold caught_up. change (log_of (file_text None)) with (@nil E). by destruct (length (st_events st)).
  - constructor; rewrite ?Ho; [done|done|done|by rewrite Ho in H4|]. right. by left.
Qed.

Lemma write_any file es st :
  synced (file_text file) st -> st_offset st = length (file_text file) -> es <> [] ->
  fresh_for (file_text file) es ->
  exists st', write_text (append_text (st_needsNewline st) es) file st =
    (Some (file_text file ++ append_text (open_end (file_text file)) es), st') /\
  synced (file_text file ++ append_text (open_end (file_text file)) es) (push_events es st') /\
  st_offset (push_events es st') = length (file_text file ++ append_text (open_end (file_text file)) es).
Proof.
  intros Hs Ho Hne Hf. destruct (write_synced (file_text file) es st) as (W1 & W2 & _ & _); [done..|].
  assert (Hn : st_needsNewline st = open_end (file_text file)) by (rewrite (sy_newline _ _ Hs), Ho; by rewrite firstn_all).
  rewrite Hn in *. eexists. split; [reflexivity|]. done.
Qed.

(** What one conditional append does to a store in step with the file. *)
Lemma appendConditionally_spec onExternal event (condition : L -> res Er bool) onCommit file st l :
  synced (file_text file) st -> fresh_for (file_text file) [event] ->
  let f := file_text file in
  let l1 := caught_up onExternal file st l in
  exists st' file',
    appendConditionally false onExternal event condition onCommit (file, st, l) =
      match condition l1 with
      | Err er => ((file', st', l1), Err er)
      | Ok false => ((file', st', l1), Ok None)
      | Ok true => ((file', st', onCommit l1), Ok (Some event))
      end /\
    file' = match condition l1 with
            | Ok true => Some (f ++ append_text (open_end f) [event])
            | _ => file
            end /\
    synced (file_text file') st' /\ st_offset st' = length (file_text file').
Proof.
  intros Hs Hf f l1. destruct (catchUp_any onExternal file st l Hs) as (st1 & Hc & C1 & C2 & _).
  unfold appendConditionally. rewrite Hc. fold l1. destruct (condition l1) as [[]|er].
  - destruct (write_any file [event] st1) as (st2 & Hw & W1 & W2); [done..|].
    rewrite Hw. by exists (push_event event st2), (Some (f ++ append_text (open_end f) [event])).
  - by exists st1, file.
  - by exists st1, file.
Qed.

Lemma appendBatch_spec onExternal (prepare : L -> res Er (option (list E))) onCommit file st l :
  synced (file_text file) st ->
  let f := file_text file in
  let l1 := caught_up onExternal file st l in
  (forall es, prepare l1 = Ok (Some es) -> fresh_for f es) ->
  exists st' file',
    appendBatch false onExternal prepare onCommit (file, st, l) =
      match prepare l1 with
      | Err er => ((file', st', l1), Err er)
      | Ok None | Ok (Some []) => ((file', st', l1), Ok None)
      | Ok (Some es) => ((file', st', onCommit es l1), Ok (Some es))
      end /\
    file' = match prepare l1 with
            | Ok (Some ((_ :: _) as es)) => Some (f ++ append_text (open_end f) es)
            | _ => file
            end /\
    synced (file_text file') st' /\ st_offset st' = length (file_text file').
Proof.
  intros Hs f l1 Hp. destruct (catchUp_any onExternal file st l Hs) as (st1 & Hc & C1 & C2 & _).
  unfold appendBatch. rewrite Hc. fold l1. destruct (prepare l1) as [[[|e es]|]|er]; [by exists st1, file| |by exists st1, file..].
  pose proof (Hp (e :: es) eq_refl) as Hf.
  destruct (write_any file (e :: es) st1) as (st2 & Hw & W1 & W2); [done..|].
  rewrite Hw. eexists _, _. split; [reflexivity|]. split; [reflexivity|]. split; [exact W1|exact W2].
Qed.

(** C3: crash safety of the log: a process dies after [k] bytes of writing a
    batch to a log whose file is [f], at any byte; a writer that last looked at any
    earlier point then appends one event. The log read back is everything that was
    there, then a prefix of the torn batch, then the new event: no old event is
    lost, no garbage line is read, and the torn line does not swallow the new one. *)
Theorem torn_write_recovers f (batch : list E) (k : nat) (event : E) (onExternal : E -> L -> L) (st : EventStore) (l : L) :
  synced f st -> fresh_for f (batch ++ [event]) ->
  exists n after st' l',
    appendConditionally false onExternal event (fun _ => Ok true : res Er bool) id
      (Some (f ++ take k (append_text (open_end f) batch)), st, l) = ((Some after, st', l'), Ok (Some event)) /\
    log_of after = log_of f ++ take n batch ++ [event] /\ st_events st' = log_of after.
Proof.
  intros Hs [Hnd Hf]. rewrite map_app in Hnd. apply NoDup_app in Hnd as (N1 & N2 & N3).
  assert (Hfb : fresh_for f batch) by (split; [done|]; intros e' ?; apply Hf; set_solver).
  destruct (log_of_torn f batch k Hfb) as [n Hn]. set (g := f ++ _) in *.
  assert (Hfe : fresh_for g [event]).
  { split; [done|]. intros e' Hin. apply list_elem_of_singleton in Hin as ->. rewrite Hn, map_app.
    rewrite not_elem_of_app. split; [apply Hf; set_solver|]. intros Hc.
    apply (N2 (event_id event)); [|set_solver]. rewrite <- (take_drop n batch), map_app. set_solver. }
  destruct (appendConditionally_spec onExternal event (fun _ => Ok true : res Er bool) id (Some g) st l) as
    (st' & file' & H1 & -> & H3 & H4); [apply synced_grow; [done|apply seam_append_text]|done|].
  exists n. eexists _, st', _. split; [exact H1|]. simpl in *. split.
  - rewrite log_of_append, Hn; [by rewrite <- app_assoc|done].
  - by rewrite (sy_events _ _ H3), H4, firstn_all.
Qed.
End Store.

(** A two-event vocabulary with a concrete codec, for the evaluated examples. *)
Definition mini_text (b : bool) : text := if b then ["{"; "t"; "}"]%char else ["{"; "f"; "}"]%char.
Definition mini_parse (t : text) : option bool :=
  if decide (t = mini_text true) then Some true
  else if decide (t = mini_text false) then Some false else None.

Definition mini_id (b : bool) : string := if b then "t"%string else "f"%string.
#[export] Instance mini_has_id : HasEventId bool := mini_id.
#[export] Instance mini_codec : EventCodec bool.
Proof.
  refine {| stringify := mini_text; parse := mini_parse |}.
  - by intros [].
  - intros []; apply (bool_decide_unpack (nl ∉ _)); vm_compute; exact I.
  - by intros [].
  - intros [] k Hk; do 3 (destruct k as [|k]; [reflexivity|]); simpl in Hk; lia.
Defined.

Lemma torn_write_recovers_witness :
  exists n file' st' l',
    appendConditionally false (fun (_ : bool) (l : unit) => l) false (fun _ => Ok true : res string bool) id
      (Some ([] ++ take 2 (append_text (open_end []) [true])), emptyStore, tt) = ((Some file', st', l'), Ok (Some false)) /\
    log_of file' = log_of [] ++ take n [true] ++ [false] /\ st_events st' = log_of file'.
Proof.
  apply (torn_write_recovers (Er := string) [] [true] 2 false (fun _ l => l) emptyStore tt).
  - constructor; [reflexivity|reflexivity|intros i; reflexivity|reflexivity|left; reflexivity].
  - split; [apply (bool_decide_unpack (NoDup _)); vm_compute; exact I|].
    intros e _. vm_compute. apply (not_elem_of_nil (A := string)).
Defined.
