(* ===== verification/LedgerView.v ===== *)
(** * Events and the materialised view (src/ledger/Ledger.ts, src/core/types.ts)

    The event vocabulary, the validators of the two payloads the code does not
    trust ([prLinkOf], [planOf]) and the fold that maintains the in-memory view
    ([apply], [track], [ingest]). A payload read through an [as] cast has the shape
    of the cast, so it is typed here; the two validated payloads are JSON objects. *)

From Stdlib Require Import QArith.
From S2P Require Import Prelude JsMap CoreTypes.

(** JSON values and objects. *)
Inductive json :=
| jnull
| jbool (b : bool)
| jnum (n : Q)
| jstr (s : string)
| jarr (l : list json)
| jobj (o : list (string * json)).
Notation record := (list (string * json)).

Definition field (k : string) (p : record) : option json := map_get k p.

(** [typeof v === "string"] and [typeof v === "number"] *)
Definition as_string (v : option json) : option string :=
  match v with Some (jstr s) => Some s | _ => None end.
Definition as_number (v : option json) : option Q :=
  match v with Some (jnum n) => Some n | _ => None end.

(** [Number.isInteger(n)] and the integer it is. *)
Definition as_integer (n : Q) : option Z :=
  if decide (Qden (Qred n) = 1%positive) then Some (Qnum (Qred n)) else None.

(** [s.slice(0, n)] *)
Definition js_slice (n : nat) (s : string) : string := String.substring 0 n s.

(** ** The event vocabulary *)

Inductive ActorType := actor_agent | actor_user | actor_system.
Record Actor := mkActor {
  actor_type : ActorType;
  actor_run_id : option string;
  actor_role : option string;
  actor_model : option string;
}.

Record EventMeta := mkMeta {
  em_task_id : option string;
  em_session_id : option string;
  em_run_id : option string;
  em_correlation_id : option string;
  em_causation_id : option string;
  em_idempotency_key : option string;
  em_authority_generation : option Z;
}.
Definition noMeta : EventMeta := mkMeta None None None None None None None.

(** [Partial<WorkItem>] and [Partial<Candidate>]: [None] is an absent key. *)
Record WorkItemPatch := mkWiPatch {
  wp_id : option string;
  wp_goal : option string;
  wp_status : option WorkItemStatus;
  wp_risk : option RiskLevel;
  wp_repositories : option (list string);
  wp_created_at : option string;
  wp_updated_at : option string;
  wp_current_candidate_id : option (option string);
  wp_incumbent_candidate_id : option (option string);
  wp_blocked_reason : option (option string);
}.
Definition noWiPatch : WorkItemPatch := mkWiPatch None None None None None None None None None None.

Record CandidatePatch := mkCaPatch {
  cp_id : option string;
  cp_work_item_id : option string;
  cp_parent_id : option (option string);
  cp_status : option CandidateStatus;
  cp_base_commit : option string;
  cp_head_commit : option (option string);
  cp_tree : option (option string);
  cp_branch : option string;
  cp_worktree_path : option (option string);
  cp_producer_run_id : option (option string);
  cp_producer_role : option string;
  cp_diff : option (option string);
  cp_diff_artifact_uri : option (option string);
  cp_changed_files : option (list string);
  cp_evidence_ids : option (list string);
  cp_rejection_reason : option (option string);
  cp_created_at : option string;
}.
Definition noCaPatch : CandidatePatch :=
  mkCaPatch None None None None None None None None None None None None None None None None None.

(** The payload of the five task events that update a task. *)
Record TaskPatch := mkTaskPatch {
  tp_task_id : string;
  tp_status : option LedgerTaskStatus;
  tp_reason : option string;
  tp_depends_on : option (list string);
  tp_scope_paths : option (list string);
  tp_result_work_item_id : option (option string);
}.

Inductive TaskEventType := task_started | task_completed | task_blocked | task_failed | task_updated.
Inductive EntityEventType :=
| fact_verified | hypothesis_created | hypothesis_rejected | decision_proposed | decision_accepted
| finding_created | finding_resolved | entity_updated
| requirement_created | invariant_created | test_obligation_created.

#[export] Instance TaskEventType_eq_dec : EqDecision TaskEventType.
Proof. solve_decision. Defined.

(** An event's type together with the payload its handler reads. Every other
    member of [EventType] only reaches the [default] case. *)
Inductive EventBody :=
| work_item_created (workItem : WorkItem)
| work_item_updated (changes : WorkItemPatch)
| work_item_pr_linked (payload : record)
| plan_recorded (payload : record)
| candidate_created (candidate : Candidate)
| candidate_changed (candidate_id : string) (changes : CandidatePatch)
| candidate_rejected (candidate_id : string) (reason : option string)
| candidate_promoted (candidate_id : string)
| task_created (task : Task)
| task_event (type : TaskEventType) (payload : TaskPatch)
| entity_event (type : EntityEventType) (entity : LedgerEntity)
| evidence_recorded (evidence : Evidence)
| other_event (type : string) (payload : record).

Definition type_of (b : EventBody) : string :=
  match b with
  | work_item_created _ => "work_item.created"
  | work_item_updated _ => "work_item.updated"
  | work_item_pr_linked _ => "work_item.pr_linked"
  | plan_recorded _ => "plan.recorded"
  | candidate_created _ => "candidate.created"
  | candidate_changed _ _ => "candidate.changed"
  | candidate_rejected _ _ => "candidate.rejected"
  | candidate_promoted _ => "candidate.promoted"
  | task_created _ => "task.created"
  | task_event task_started _ => "task.started"
  | task_event task_completed _ => "task.completed"
  | task_event task_blocked _ => "task.blocked"
  | task_event task_failed _ => "task.failed"
  | task_event task_updated _ => "task.updated"
  | entity_event fact_verified _ => "fact.verified"
  | entity_event hypothesis_created _ => "hypothesis.created"
  | entity_event hypothesis_rejected _ => "hypothesis.rejected"
  | entity_event decision_proposed _ => "decision.proposed"
  | entity_event decision_accepted _ => "decision.accepted"
  | entity_event finding_created _ => "finding.created"
  | entity_event finding_resolved _ => "finding.resolved"
  | entity_event entity_updated _ => "entity.updated"
  | entity_event requirement_created _ => "requirement.created"
  | entity_event invariant_created _ => "invariant.created"
  | entity_event test_obligation_created _ => "test-obligation.created"
  | evidence_recorded _ => "evidence.recorded"
  | other_event t _ => t
  end%string.

Record LedgerEvent := mkEvent {
  ev_id : string;
  ev_schema_version : option Z;
  ev_work_item_id : option string;
  ev_timestamp : string;
  ev_actor : Actor;
  ev_meta : EventMeta;
  ev_body : EventBody;
}.
Definition ev_key (e : LedgerEvent) : option string := em_idempotency_key (ev_meta e).
Definition ev_authority (e : LedgerEvent) : option Z := em_authority_generation (ev_meta e).

(** [event.work_item_id ?? ""] *)
Definition scope_of (workItemId : option string) : string := nullish workItemId "".

(** The key when it is truthy. *)
Definition live_key (e : LedgerEvent) : option string :=
  match ev_key e with Some k => if truthy k then Some k else None | None => None end.

(** ** Validated payloads *)

Definition MAX_PLAN_STEPS : nat := 50.
Definition MAX_PLAN_TITLE : nat := 120.
Definition MAX_ID : nat := 128.

Definition prUrl (host owner repo : string) (number : Z) : string :=
  "https://" +:+ host +:+ "/" +:+ owner +:+ "/" +:+ repo +:+ "/pull/" +:+ js_num number.

Definition prLinkOf (p : record) : option WorkItemPrLink :=
  match as_string (field "host" p), as_string (field "owner" p), as_string (field "repo" p) with
  | Some host, Some owner, Some repo =>
      match as_number (field "number" p) with
      | Some n =>
          match as_integer n with
          | Some number =>
              if number <? 1 then None
              else if negb (truthy host) || negb (truthy owner) || negb (truthy repo) then None
              else Some (mkPrLink host owner repo number
                           (nullish (as_string (field "url_canonical" p)) (prUrl host owner repo number)))
          | None => None
          end
      | None => None
      end
  | _, _, _ => None
  end.

Definition cleanStep (r : json) : option LedgerPlanStep :=
  match r with
  | jobj o =>
      match as_string (field "task_id" o), as_string (field "title" o) with
      | Some task_id, Some title =>
          if negb (truthy task_id) || (MAX_ID <? String.length task_id)%nat then None
          else Some (mkStep task_id (js_slice MAX_PLAN_TITLE title))
      | _, _ => None
      end
  | _ => None
  end.

Definition cleanSteps (raw : option json) : list LedgerPlanStep :=
  match raw with
  | Some (jarr l) => omap cleanStep l
  | _ => []
  end.

(** [/^[0-9a-f]{64}$/] *)
Definition is_hex (c : ascii) : bool :=
  let n := N_of_ascii c in ((48 <=? n) && (n <=? 57) || (97 <=? n) && (n <=? 102))%N.
Fixpoint all_hex (s : string) : bool :=
  match s with EmptyString => true | String c s' => is_hex c && all_hex s' end.
Definition is_digest (s : string) : bool := (String.length s =? 64)%nat && all_hex s.

Definition artifactOf (v : option json) : option (string * string) :=
  match v with
  | Some (jobj a) =>
      match as_string (field "id" a), as_string (field "version" a) with
      | Some i, Some ver => Some (js_slice MAX_ID i, js_slice MAX_ID ver)
      | _, _ => None
      end
  | _ => None
  end.

Definition planOf (p : record) (workItemId : option string) (at_ : string) : option LedgerPlan :=
  match workItemId, as_string (field "plan_id" p) with
  | Some wi, Some plan_id =>
      if negb (truthy wi) || (2 * MAX_ID <? String.length plan_id)%nat then None
      else
        match as_number (field "revision" p) with
        | Some r =>
            match as_integer r with
            | Some revision =>
                if revision <? 1 then None
                else
                  match as_string (field "digest" p) with
                  | Some digest =>
                      if negb (is_digest digest) then None
                      else
                        let steps := take MAX_PLAN_STEPS (cleanSteps (field "steps" p)) in
                        if (length steps =? 0)%nat then None
                        else
                          let n := inject_Z (js_len steps) in
                          let total := match as_number (field "total_steps" p) with
                                       | Some t => if Qle_bool n t then t else n
                                       | None => n
                                       end in
                          Some (mkPlan plan_id wi revision digest steps total
                                  (artifactOf (field "artifact" p))
                                  (as_string (field "supersedes" p)) None at_)
                  | None => None
                  end
            | None => None
            end
        | None => None
        end
  | _, _ => None
  end.

Definition samePr (a b : WorkItemPrLink) : bool :=
  (pr_number a =? pr_number b)
  && String.eqb (js_lower (pr_host a)) (js_lower (pr_host b))
  && String.eqb (js_lower (pr_owner a)) (js_lower (pr_owner b))
  && String.eqb (js_lower (pr_repo a)) (js_lower (pr_repo b)).

(** ** The materialised view *)

Record View := mkView {
  v_workItems : jsmap string WorkItem;
  v_candidates : jsmap string Candidate;
  v_tasks : jsmap string Task;
  v_entities : jsmap string LedgerEntity;
  v_evidence : jsmap string Evidence;
  v_byIdempotencyKey : jsmap string LedgerEvent;
  v_revisions : jsmap string Z;
  v_authorities : jsmap string Z;
  v_prLinks : jsmap string (list WorkItemPrLink);
  v_plans : jsmap string (list LedgerPlan);
}.
Definition emptyView : View := mkView [] [] [] [] [] [] [] [] [] [].

Definition set_workItems m (v : View) := mkView m (v_candidates v) (v_tasks v) (v_entities v) (v_evidence v)
  (v_byIdempotencyKey v) (v_revisions v) (v_authorities v) (v_prLinks v) (v_plans v).
Definition set_candidates m (v : View) := mkView (v_workItems v) m (v_tasks v) (v_entities v) (v_evidence v)
  (v_byIdempotencyKey v) (v_revisions v) (v_authorities v) (v_prLinks v) (v_plans v).
Definition set_tasks m (v : View) := mkView (v_workItems v) (v_candidates v) m (v_entities v) (v_evidence v)
  (v_byIdempotencyKey v) (v_revisions v) (v_authorities v) (v_prLinks v) (v_plans v).
Definition set_entities m (v : View) := mkView (v_workItems v) (v_candidates v) (v_tasks v) m (v_evidence v)
  (v_byIdempotencyKey v) (v_revisions v) (v_authorities v) (v_prLinks v) (v_plans v).
Definition set_evidence m (v : View) := mkView (v_workItems v) (v_candidates v) (v_tasks v) (v_entities v) m
  (v_byIdempotencyKey v) (v_revisions v) (v_authorities v) (v_prLinks v) (v_plans v).
Definition set_keys m (v : View) := mkView (v_workItems v) (v_candidates v) (v_tasks v) (v_entities v) (v_evidence v)
  m (v_revisions v) (v_authorities v) (v_prLinks v) (v_plans v).
Definition set_counters r a (v : View) := mkView (v_workItems v) (v_candidates v) (v_tasks v) (v_entities v) (v_evidence v)
  (v_byIdempotencyKey v) r a (v_prLinks v) (v_plans v).
Definition set_prLinks m (v : View) := mkView (v_workItems v) (v_candidates v) (v_tasks v) (v_entities v) (v_evidence v)
  (v_byIdempotencyKey v) (v_revisions v) (v_authorities v) m (v_plans v).
Definition set_plans m (v : View) := mkView (v_workItems v) (v_candidates v) (v_tasks v) (v_entities v) (v_evidence v)
  (v_byIdempotencyKey v) (v_revisions v) (v_authorities v) (v_prLinks v) m.

(** [Object.assign(wi, upd)] and [Object.assign(c, changes)] *)
Definition assignWorkItem (wi : WorkItem) (u : WorkItemPatch) : WorkItem :=
  mkWorkItem (nullish (wp_id u) (wi_id wi)) (nullish (wp_goal u) (wi_goal wi)) (nullish (wp_status u) (wi_status wi))
    (nullish (wp_risk u) (wi_risk wi)) (nullish (wp_repositories u) (wi_repositories wi))
    (nullish (wp_created_at u) (wi_created_at wi)) (nullish (wp_updated_at u) (wi_updated_at wi))
    (nullish (wp_current_candidate_id u) (wi_current_candidate_id wi))
    (nullish (wp_incumbent_candidate_id u) (wi_incumbent_candidate_id wi))
    (nullish (wp_blocked_reason u) (wi_blocked_reason wi)).

Definition touchWorkItem (at_ : string) (wi : WorkItem) : WorkItem :=
  mkWorkItem (wi_id wi) (wi_goal wi) (wi_status wi) (wi_risk wi) (wi_repositories wi) (wi_created_at wi) at_
    (wi_current_candidate_id wi) (wi_incumbent_candidate_id wi) (wi_blocked_reason wi).

Definition assignCandidate (c : Candidate) (u : CandidatePatch) : Candidate :=
  mkCandidate (nullish (cp_id u) (ca_id c)) (nullish (cp_work_item_id u) (ca_work_item_id c))
    (nullish (cp_parent_id u) (ca_parent_id c)) (nullish (cp_status u) (ca_status c))
    (nullish (cp_base_commit u) (ca_base_commit c)) (nullish (cp_head_commit u) (ca_head_commit c))
    (nullish (cp_tree u) (ca_tree c)) (nullish (cp_branch u) (ca_branch c))
    (nullish (cp_worktree_path u) (ca_worktree_path c)) (nullish (cp_producer_run_id u) (ca_producer_run_id c))
    (nullish (cp_producer_role u) (ca_producer_role c)) (nullish (cp_diff u) (ca_diff c))
    (nullish (cp_diff_artifact_uri u) (ca_diff_artifact_uri c)) (nullish (cp_changed_files u) (ca_changed_files c))
    (nullish (cp_evidence_ids u) (ca_evidence_ids c)) (nullish (cp_rejection_reason u) (ca_rejection_reason c))
    (nullish (cp_created_at u) (ca_created_at c)).

(** [c.status = s] and, on rejection, [c.rejection_reason = reason]. *)
Definition setCandidateStatus (s : CandidateStatus) (reason : option (option string)) (c : Candidate) : Candidate :=
  assignCandidate c (mkCaPatch None None None (Some s) None None None None None None None None None None None reason None).

Definition assignTask (type : TaskEventType) (p : TaskPatch) (t : Task) : Task :=
  mkTask (task_id t) (task_work_item_id t) (task_title t) (task_kind t)
    (nullish (tp_depends_on p) (task_depends_on t))
    (nullish (tp_status p) (task_status t))
    (nullish (tp_scope_paths p) (task_scope_paths t))
    (task_risk t)
    (match tp_result_work_item_id p with Some (Some r) => Some r | _ => task_result_work_item_id t end)
    (match tp_status p with
     | Some _ => if decide (type = task_blocked) then tp_reason p else None
     | None => task_blocked_reason t
     end).

(** [prior.superseded_by = plan.id] on the first plan with id [old], unless set. *)
Fixpoint supersede (old new : string) (l : list LedgerPlan) : list LedgerPlan :=
  match l with
  | [] => []
  | p :: l' =>
      if String.eqb (pl_id p) old then
        (match pl_superseded_by p with
         | Some s => if truthy s then p else
             mkPlan (pl_id p) (pl_work_item_id p) (pl_revision p) (pl_digest p) (pl_steps p) (pl_total_steps p)
                    (pl_artifact p) (pl_supersedes p) (Some new) (pl_recorded_at p)
         | None =>
             mkPlan (pl_id p) (pl_work_item_id p) (pl_revision p) (pl_digest p) (pl_steps p) (pl_total_steps p)
                    (pl_artifact p) (pl_supersedes p) (Some new) (pl_recorded_at p)
         end) :: l'
      else p :: supersede old new l'
  end.

Definition update {V} (k : string) (f : V -> V) (m : jsmap string V) : jsmap string V :=
  match map_get k m with Some x => map_set k (f x) m | None => m end.

(** The [switch] of [apply]. *)
Definition apply_body (event : LedgerEvent) (v : View) : View :=
  match ev_body event with
  | work_item_created wi => set_workItems (map_set (wi_id wi) wi (v_workItems v)) v
  | work_item_updated upd =>
      match ev_work_item_id event with
      | Some id => set_workItems (update id (fun wi => touchWorkItem (ev_timestamp event) (assignWorkItem wi upd))
                                    (v_workItems v)) v
      | None => v
      end
  | work_item_pr_linked p =>
      match prLinkOf p, ev_work_item_id event with
      | Some link, Some id =>
          if truthy id then
            let l := nullish (map_get id (v_prLinks v)) [] in
            if js_some (fun x => samePr x link) l then v
            else set_prLinks (map_set id (l ++ [link]) (v_prLinks v)) v
          else v
      | _, _ => v
      end
  | plan_recorded p =>
      match planOf p (ev_work_item_id event) (ev_timestamp event) with
      | Some plan =>
          let l := nullish (map_get (pl_work_item_id plan) (v_plans v)) [] in
          if js_some (fun x => String.eqb (pl_id x) (pl_id plan)) l then v
          else
            let l' := match pl_supersedes plan with
                      | Some s => if truthy s then supersede s (pl_id plan) l else l
                      | None => l
                      end in
            set_plans (map_set (pl_work_item_id plan) (l' ++ [plan]) (v_plans v)) v
      | None => v
      end
  | candidate_created c => set_candidates (map_set (ca_id c) c (v_candidates v)) v
  | candidate_changed id changes => set_candidates (update id (fun c => assignCandidate c changes) (v_candidates v)) v
  | candidate_rejected id reason => set_candidates (update id (setCandidateStatus C_REJECTED (Some reason)) (v_candidates v)) v
  | candidate_promoted id => set_candidates (update id (setCandidateStatus C_PROMOTED None) (v_candidates v)) v
  | task_created t => set_tasks (map_set (task_id t) t (v_tasks v)) v
  | task_event type p => set_tasks (update (tp_task_id p) (assignTask type p) (v_tasks v)) v
  | entity_event _ e => set_entities (map_set (en_id e) e (v_entities v)) v
  | evidence_recorded e => set_evidence (map_set (evd_id e) e (v_evidence v)) v
  | other_event _ _ => v
  end.

(** The first two lines of [apply]: the key index. *)
Definition index_key (event : LedgerEvent) (v : View) : View :=
  match live_key event with
  | Some k => if map_has k (v_byIdempotencyKey v) then v
              else set_keys (map_set k event (v_byIdempotencyKey v)) v
  | None => v
  end.

Definition apply (event : LedgerEvent) (v : View) : View := apply_body event (index_key event v).

Definition track (event : LedgerEvent) (v : View) : View :=
  let scope := scope_of (ev_work_item_id event) in
  set_counters
    (map_set scope (nullish (map_get scope (v_revisions v)) 0 + 1) (v_revisions v))
    (match ev_authority event with
     | Some g => map_set scope (Z.max (nullish (map_get scope (v_authorities v)) 0) g) (v_authorities v)
     | None => v_authorities v
     end) v.

(** Materialize an event that is already in the log. *)
Definition ingest (event : LedgerEvent) (v : View) : View := track event (apply event v).

(** [Ledger.fromEvents] / the rebuild of [Ledger.create]. *)
Definition replay (events : list LedgerEvent) : View := foldl (fun v e => ingest e v) emptyView events.

(** ** Queries *)

Definition revision (workItemId : option string) (v : View) : Z :=
  nullish (map_get (scope_of workItemId) (v_revisions v)) 0.
Definition highestAuthorityGeneration (v : View) : Z := foldl Z.max 0 (map_values (v_authorities v)).
Definition listPrLinks (workItemId : string) (v : View) : list WorkItemPrLink :=
  nullish (map_get workItemId (v_prLinks v)) [].
Definition listPlans (workItemId : string) (v : View) : list LedgerPlan :=
  nullish (map_get workItemId (v_plans v)) [].
Definition latestPlan (workItemId : string) (v : View) : option LedgerPlan := list.last (listPlans workItemId v).
Definition planFor (id : string) (v : View) : option LedgerPlan :=
  let wiId := match map_get id (v_tasks v) with Some t => task_work_item_id t | None => id end in
  let l := listPlans wiId v in
  if map_has id (v_tasks v) then
    js_find (fun p => js_some (fun s => String.eqb (ps_task_id s) id) (pl_steps p)) (reverse l)
  else list.last l.
Definition getWorkItem (id : string) (v : View) := map_get id (v_workItems v).
Definition listWorkItems (v : View) : list WorkItem := map_values (v_workItems v).
Definition getCandidate (id : string) (v : View) := map_get id (v_candidates v).
Definition listCandidates (workItemId : option string) (v : View) : list Candidate :=
  let all := map_values (v_candidates v) in
  match workItemId with
  | Some w => if truthy w then js_filter (fun c => String.eqb (ca_work_item_id c) w) all else all
  | None => all
  end.
Definition getTask (id : string) (v : View) := map_get id (v_tasks v).
Definition listTasks (workItemId : string) (v : View) : list Task :=
  js_filter (fun t => String.eqb (task_work_item_id t) workItemId) (map_values (v_tasks v)).
Definition getEntity (id : string) (v : View) := map_get id (v_entities v).
Definition getEvidence (id : string) (v : View) := map_get id (v_evidence v).
Definition listEvidence (candidateId : option string) (v : View) : list Evidence :=
  let all := map_values (v_evidence v) in
  match candidateId with
  | Some c => if truthy c then js_filter (fun e => bool_decide (evd_candidate_id e = Some c)) all else all
  | None => all
  end.

(** ** The counters are folds of the log *)

Definition in_scope (scope : string) (e : LedgerEvent) : bool := String.eqb (scope_of (ev_work_item_id e)) scope.
Definition events_in (scope : string) (log : list LedgerEvent) : list LedgerEvent := js_filter (in_scope scope) log.
(** The generations recorded for a scope, in log order. *)
Definition generations (scope : string) (log : list LedgerEvent) : list Z :=
  omap ev_authority (events_in scope log).
Definition keys_of (log : list LedgerEvent) : list string := omap live_key log.

Definition opt_max (a : option Z) (g : Z) : option Z := Some (Z.max (nullish a 0) g).

Lemma replay_app l1 l2 : replay (l1 ++ l2) = foldl (fun v e => ingest e v) (replay l1) l2.
Proof. unfold replay. by rewrite foldl_app. Qed.

Lemma replay_snoc l e : replay (l ++ [e]) = ingest e (replay l).
Proof. by rewrite replay_app. Qed.

(** [apply] touches neither counters nor, beyond its own key, the key index. *)
Lemma apply_body_frame e v :
  v_revisions (apply_body e v) = v_revisions v /\ v_authorities (apply_body e v) = v_authorities v /\
  v_byIdempotencyKey (apply_body e v) = v_byIdempotencyKey v.
Proof. unfold apply_body. destruct (ev_body e); repeat break_goal; done. Qed.

Lemma index_key_frame e v :
  v_revisions (index_key e v) = v_revisions v /\ v_authorities (index_key e v) = v_authorities v.
Proof. unfold index_key. repeat break_goal; done. Qed.

Lemma apply_frame e v :
  v_revisions (apply e v) = v_revisions v /\ v_authorities (apply e v) = v_authorities v /\
  v_byIdempotencyKey (apply e v) = v_byIdempotencyKey (index_key e v).
Proof.
  unfold apply. destruct (apply_body_frame e (index_key e v)) as (-> & -> & ->).
  by destruct (index_key_frame e v) as (-> & ->).
Qed.

Lemma ingest_revisions e v :
  v_revisions (ingest e v) =
  map_set (scope_of (ev_work_item_id e)) (nullish (map_get (scope_of (ev_work_item_id e)) (v_revisions v)) 0 + 1)
    (v_revisions v).
Proof. unfold ingest, track. simpl. by destruct (apply_frame e v) as (-> & _). Qed.

Lemma ingest_authorities e v :
  v_authorities (ingest e v) =
  match ev_authority e with
  | Some g => map_set (scope_of (ev_work_item_id e))
                (Z.max (nullish (map_get (scope_of (ev_work_item_id e)) (v_authorities v)) 0) g) (v_authorities v)
  | None => v_authorities v
  end.
Proof. unfold ingest, track. simpl. by destruct (apply_frame e v) as (_ & -> & _). Qed.

Lemma ingest_keys e v : v_byIdempotencyKey (ingest e v) = v_byIdempotencyKey (index_key e v).
Proof. unfold ingest, track. simpl. by destruct (apply_frame e v) as (_ & _ & ->). Qed.

Lemma events_in_snoc s l e : events_in s (l ++ [e]) = events_in s l ++ (if in_scope s e then [e] else []).
Proof. unfold events_in. by rewrite js_filter_app. Qed.

(** The revision of a scope is the number of its events. *)
Lemma revision_count log w : revision w (replay log) = js_len (events_in (scope_of w) log).
Proof.
  unfold revision. induction log as [|e log IH] using rev_ind; [done|].
  rewrite replay_snoc, ingest_revisions, map_get_set, events_in_snoc. unfold in_scope, js_len in *.
  destruct (String.eqb_spec (scope_of (ev_work_item_id e)) (scope_of w)) as [->|Hne].
  - rewrite decide_True, IH by done. rewrite length_app. simpl. lia.
  - by rewrite decide_False, IH, app_nil_r.
Qed.

(** The recorded authority of a scope is the maximum of its generations. *)
Lemma authority_fold log s :
  map_get s (v_authorities (replay log)) = foldl opt_max None (generations s log).
Proof.
  induction log as [|e log IH] using rev_ind; [done|].
  rewrite replay_snoc, ingest_authorities. unfold generations in *. rewrite events_in_snoc, omap_app, foldl_app.
  unfold in_scope. destruct (String.eqb_spec (scope_of (ev_work_item_id e)) s) as [<-|Hne].
  - destruct (ev_authority e) as [g|] eqn:Ea; simpl; rewrite Ea; [|done]. rewrite map_get_set_eq, IH. done.
  - simpl. destruct (ev_authority e); [rewrite map_get_set_ne by done|]; done.
Qed.

(** The key index holds exactly the keys of the log. *)
Lemma key_index log k : map_has k (v_byIdempotencyKey (replay log)) = js_includes k (keys_of log).
Proof.
  induction log as [|e log IH] using rev_ind; [done|].
  rewrite replay_snoc, ingest_keys. unfold keys_of in *. rewrite omap_app. unfold index_key.
  apply eq_true_iff_eq. rewrite js_includes_true, elem_of_app, <- js_includes_true, <- IH. simpl.
  destruct (live_key e) as [k'|]; [|naive_solver set_solver].
  rewrite list_elem_of_singleton.
  destruct (map_has k' (v_byIdempotencyKey (replay log))) eqn:Hh; [naive_solver congruence|].
  simpl. rewrite map_has_get, map_get_set. destruct (decide (k' = k)) as [->|Hne]; [naive_solver|].
  rewrite <- map_has_get. naive_solver.
Qed.

(** The event indexed under a key carries it. *)
Lemma key_index_event log k e :
  map_get k (v_byIdempotencyKey (replay log)) = Some e -> e ∈ log /\ live_key e = Some k.
Proof.
  induction log as [|e' log IH] using rev_ind; [done|].
  rewrite replay_snoc, ingest_keys. unfold index_key. destruct (live_key e') as [k'|] eqn:Hk.
  - destruct (map_has k' _); [intros H; apply IH in H; set_solver|]. simpl. rewrite map_get_set.
    destruct (decide (k' = k)) as [->|]; [intros [= <-]; set_solver|intros H; apply IH in H; set_solver].
  - intros H. apply IH in H. set_solver.
Qed.

(** Committing an event by the index updates of [emit]/[emitBatch] and then
    [apply] is ingesting it. *)
Lemma apply_track e e' v : apply e (track e' v) = track e' (apply e v).
Proof.
  unfold apply, index_key, track. destruct (live_key e); [destruct (map_has s _) eqn:Hh|].
  all: unfold apply_body; simpl; rewrite ?Hh; unfold apply_body; destruct (ev_body e); simpl; repeat break_goal; done.
Qed.

Lemma apply_track_all e es v : apply e (foldl (fun v e => track e v) v es) = foldl (fun v e => track e v) (apply e v) es.
Proof. revert v. induction es as [|e' es IH]; intros v; [done|]. simpl. by rewrite IH, apply_track. Qed.

Lemma commit_batch es v :
  foldl (fun v e => apply e v) (foldl (fun v e => track e v) v es) es = foldl (fun v e => ingest e v) v es.
Proof.
  revert v. induction es as [|e es IH]; intros v; [done|]. simpl.
  rewrite apply_track_all, IH. f_equal. apply apply_track.
Qed.

Lemma commit_keyed e v k :
  live_key e = Some k -> map_has k (v_byIdempotencyKey v) = false ->
  apply e (track e (set_keys (map_set k e (v_byIdempotencyKey v)) v)) = ingest e v.
Proof.
  intros Hk Hh. rewrite apply_track. unfold ingest. f_equal. unfold apply, index_key. rewrite Hk, Hh. simpl.
  by rewrite (proj2 (map_has_get _ _)) by (rewrite map_get_set_eq; eauto).
Qed.
