(* ===== verification/LedgerCodec.v ===== *)
(** * A concrete codec for ledger events

    The event store is proved against the class [EventCodec]. This file shows the
    class is inhabited for every countable type, [LedgerEvent] among them: a value is
    numbered and its number is written in binary between braces.
    It stands in for [JSON.stringify]/[JSON.parse] in the evaluated examples only. *)

From Stdlib Require Import QArith.
From stdpp Require Import countable.
From S2P Require Import Prelude CoreTypes EventStore LedgerView.

Section Enum.
Context {A : Type} `{EqDecision A} (all : list A) (Hall : forall x, x ∈ all).

Definition enum_index (x : A) : nat := default 0%nat (fst <$> list_find (fun y => x = y) all).

Lemma enum_index_lookup x : all !! enum_index x = Some x.
Proof.
  unfold enum_index. destruct (list_find (fun y => x = y) all) as [[i y]|] eqn:E; simpl.
  - apply list_find_Some in E as (Hi & -> & _). done.
  - exfalso. apply list_find_None in E. rewrite Forall_forall in E. by apply (E x).
Qed.

Definition enum_countable : Countable A.
Proof.
  refine {| encode x := encode (enum_index x); countable.decode p := n ← countable.decode p; all !! (n : nat) |}.
  intros x. rewrite decode_encode. apply enum_index_lookup.
Defined.
End Enum.

Ltac enum_all := intros []; apply (bool_decide_unpack _); vm_compute; exact I.

#[export] Instance ActorType_eq_dec : EqDecision ActorType.
Proof. solve_decision. Defined.
#[export] Instance EntityEventType_eq_dec : EqDecision EntityEventType.
Proof. solve_decision. Defined.

#[export] Instance RiskLevel_countable : Countable RiskLevel.
Proof. refine (enum_countable [risk_low; risk_medium; risk_high; risk_critical] _). enum_all. Defined.
#[export] Instance WorkItemStatus_countable : Countable WorkItemStatus.
Proof.
  refine (enum_countable [DEFINED; PLANNING; READY; EXECUTING; VERIFYING; REVIEWING; INTEGRATING; COMPLETED;
    BLOCKED; FAILED; PARTIAL; CANCELLED; NEEDS_HUMAN; BUDGET_EXHAUSTED] _). enum_all.
Defined.
#[export] Instance CandidateStatus_countable : Countable CandidateStatus.
Proof.
  refine (enum_countable [C_CREATED; C_IMPLEMENTING; C_VERIFYING; C_ELIGIBLE; C_REVIEWING; C_PROMOTED; C_REJECTED] _).
  enum_all.
Defined.
#[export] Instance TaskKind_countable : Countable TaskKind.
Proof. refine (enum_countable [implementation; investigation; test; review] _). enum_all. Defined.
#[export] Instance LedgerTaskStatus_countable : Countable LedgerTaskStatus.
Proof. refine (enum_countable [t_ready; t_started; t_completed; t_failed; t_blocked; t_proposed] _). enum_all. Defined.
#[export] Instance EvidenceStatus_countable : Countable EvidenceStatus.
Proof. refine (enum_countable [ev_passed; ev_failed; ev_error] _). enum_all. Defined.
#[export] Instance EvidenceTrust_countable : Countable EvidenceTrust.
Proof. refine (enum_countable [authoritative; deterministic; observed; reviewed; unverified] _). enum_all. Defined.
#[export] Instance EntityKind_countable : Countable EntityKind.
Proof.
  refine (enum_countable [requirement; invariant; fact; hypothesis; decision; finding; test_obligation] _). enum_all.
Defined.
#[export] Instance EntityStatus_countable : Countable EntityStatus.
Proof. refine (enum_countable [e_open; e_verified; e_rejected; e_resolved; e_accepted; e_implemented] _). enum_all. Defined.
#[export] Instance Severity_countable : Countable Severity.
Proof. refine (enum_countable [sev_info; sev_low; sev_medium; sev_high; sev_critical] _). enum_all. Defined.
#[export] Instance ActorType_countable : Countable ActorType.
Proof. refine (enum_countable [actor_agent; actor_user; actor_system] _). enum_all. Defined.
#[export] Instance TaskEventType_countable : Countable TaskEventType.
Proof. refine (enum_countable [task_started; task_completed; task_blocked; task_failed; task_updated] _). enum_all. Defined.
#[export] Instance EntityEventType_countable : Countable EntityEventType.
Proof.
  refine (enum_countable [fact_verified; hypothesis_created; hypothesis_rejected; decision_proposed; decision_accepted;
    finding_created; finding_resolved; entity_updated; requirement_created; invariant_created; test_obligation_created] _).
  enum_all.
Defined.

#[export] Instance Q_eq_dec : EqDecision Q.
Proof. solve_decision. Defined.
#[export] Instance Q_countable : Countable Q.
Proof. refine (inj_countable' (fun q => (Qnum q, Qden q)) (fun '(n, d) => Qmake n d) _). by intros []. Defined.

(** JSON values as trees. *)
Fixpoint json_enc (j : json) : gen_tree (bool + (Q + string)) :=
  match j with
  | jnull => GenNode 0 []
  | jbool b => GenLeaf (inl b)
  | jnum n => GenLeaf (inr (inl n))
  | jstr s => GenLeaf (inr (inr s))
  | jarr l => GenNode 1 (map json_enc l)
  | jobj o => GenNode 2 (map (fun p => GenNode 3 [GenLeaf (inr (inr (fst p))); json_enc (snd p)]) o)
  end.

Fixpoint json_dec (t : gen_tree (bool + (Q + string))) : json :=
  match t with
  | GenLeaf (inl b) => jbool b
  | GenLeaf (inr (inl n)) => jnum n
  | GenLeaf (inr (inr s)) => jstr s
  | GenNode 1 l => jarr (map json_dec l)
  | GenNode 2 l => jobj (map (fun t => match t with
                                       | GenNode _ [GenLeaf (inr (inr k)); v] => (k, json_dec v)
                                       | _ => (EmptyString, jnull)
                                       end) l)
  | GenNode _ _ => jnull
  end.

Lemma json_dec_enc : forall j, json_dec (json_enc j) = j.
Proof.
  fix IH 1. intros [| | | |l|o]; try reflexivity; simpl; f_equal.
  - induction l as [|j l IHl]; simpl; [reflexivity|]. by rewrite IH, IHl.
  - induction o as [|[k v] o IHo]; simpl; [reflexivity|]. by rewrite IH, IHo.
Qed.

#[export] Instance json_eq_dec : EqDecision json.
Proof.
  intros a b. destruct (decide (json_enc a = json_enc b)) as [H|H]; [left|right; congruence].
  by rewrite <- (json_dec_enc a), H, json_dec_enc.
Defined.
#[export] Instance json_countable : Countable json := inj_countable' json_enc json_dec json_dec_enc.

Ltac record_dec := solve_decision.
#[export] Instance WorkItem_eq_dec : EqDecision WorkItem. Proof. record_dec. Defined.
#[export] Instance Candidate_eq_dec : EqDecision Candidate. Proof. record_dec. Defined.
#[export] Instance Task_eq_dec : EqDecision Task. Proof. record_dec. Defined.
#[export] Instance LedgerEntity_eq_dec : EqDecision LedgerEntity. Proof. record_dec. Defined.
#[export] Instance Evidence_eq_dec : EqDecision Evidence. Proof. record_dec. Defined.
#[export] Instance WorkItemPatch_eq_dec : EqDecision WorkItemPatch. Proof. record_dec. Defined.
#[export] Instance CandidatePatch_eq_dec : EqDecision CandidatePatch. Proof. record_dec. Defined.
#[export] Instance TaskPatch_eq_dec : EqDecision TaskPatch. Proof. record_dec. Defined.
#[export] Instance Actor_eq_dec : EqDecision Actor. Proof. record_dec. Defined.
#[export] Instance EventMeta_eq_dec : EqDecision EventMeta. Proof. record_dec. Defined.
#[export] Instance EventBody_eq_dec : EqDecision EventBody. Proof. record_dec. Defined.
#[export] Instance LedgerEvent_eq_dec : EqDecision LedgerEvent. Proof. record_dec. Defined.

#[export] Instance WorkItem_countable : Countable WorkItem.
Proof.
  refine (inj_countable' (fun r => (wi_id r, wi_goal r, wi_status r, wi_risk r, wi_repositories r, wi_created_at r,
    wi_updated_at r, wi_current_candidate_id r, wi_incumbent_candidate_id r, wi_blocked_reason r))
    (fun '(a, b, c, d, e, f, g, h, i, j) => mkWorkItem a b c d e f g h i j) _). by intros [].
Defined.
#[export] Instance Candidate_countable : Countable Candidate.
Proof.
  refine (inj_countable' (fun r => (ca_id r, ca_work_item_id r, ca_parent_id r, ca_status r, ca_base_commit r,
    ca_head_commit r, ca_tree r, ca_branch r, ca_worktree_path r, ca_producer_run_id r, ca_producer_role r, ca_diff r,
    ca_diff_artifact_uri r, ca_changed_files r, ca_evidence_ids r, ca_rejection_reason r, ca_created_at r))
    (fun '(a, b, c, d, e, f, g, h, i, j, k, l, m, n, o, p, q) => mkCandidate a b c d e f g h i j k l m n o p q) _).
  by intros [].
Defined.
#[export] Instance Task_countable : Countable Task.
Proof.
  refine (inj_countable' (fun r => (task_id r, task_work_item_id r, task_title r, task_kind r, task_depends_on r,
    task_status r, task_scope_paths r, task_risk r, task_result_work_item_id r, task_blocked_reason r))
    (fun '(a, b, c, d, e, f, g, h, i, j) => mkTask a b c d e f g h i j) _). by intros [].
Defined.
#[export] Instance LedgerEntity_countable : Countable LedgerEntity.
Proof.
  refine (inj_countable' (fun r => (en_id r, en_kind r, en_claim r, en_status r, en_evidence r, en_confidence r,
    en_severity r, en_candidate_id r, en_work_item_id r, en_created_at r))
    (fun '(a, b, c, d, e, f, g, h, i, j) => mkEntity a b c d e f g h i j) _). by intros [].
Defined.
#[export] Instance Evidence_countable : Countable Evidence.
Proof.
  refine (inj_countable' (fun r => (evd_id r, evd_candidate_id r, evd_type r, evd_tool r, evd_command r, evd_started_at r,
    evd_finished_at r, evd_exit_code r, evd_status r, evd_summary r, evd_artifacts r, evd_trust r))
    (fun '(a, b, c, d, e, f, g, h, i, j, k, l) => mkEvidence a b c d e f g h i j k l) _). by intros [].
Defined.
#[export] Instance WorkItemPatch_countable : Countable WorkItemPatch.
Proof.
  refine (inj_countable' (fun r => (wp_id r, wp_goal r, wp_status r, wp_risk r, wp_repositories r, wp_created_at r,
    wp_updated_at r, wp_current_candidate_id r, wp_incumbent_candidate_id r, wp_blocked_reason r))
    (fun '(a, b, c, d, e, f, g, h, i, j) => mkWiPatch a b c d e f g h i j) _). by intros [].
Defined.
#[export] Instance CandidatePatch_countable : Countable CandidatePatch.
Proof.
  refine (inj_countable' (fun r => (cp_id r, cp_work_item_id r, cp_parent_id r, cp_status r, cp_base_commit r,
    cp_head_commit r, cp_tree r, cp_branch r, cp_worktree_path r, cp_producer_run_id r, cp_producer_role r, cp_diff r,
    cp_diff_artifact_uri r, cp_changed_files r, cp_evidence_ids r, cp_rejection_reason r, cp_created_at r))
    (fun '(a, b, c, d, e, f, g, h, i, j, k, l, m, n, o, p, q) => mkCaPatch a b c d e f g h i j k l m n o p q) _).
  by intros [].
Defined.
#[export] Instance TaskPatch_countable : Countable TaskPatch.
Proof.
  refine (inj_countable' (fun r => (tp_task_id r, tp_status r, tp_reason r, tp_depends_on r, tp_scope_paths r,
    tp_result_work_item_id r)) (fun '(a, b, c, d, e, f) => mkTaskPatch a b c d e f) _). by intros [].
Defined.
#[export] Instance Actor_countable : Countable Actor.
Proof.
  refine (inj_countable' (fun r => (actor_type r, actor_run_id r, actor_role r, actor_model r))
    (fun '(a, b, c, d) => mkActor a b c d) _). by intros [].
Defined.
#[export] Instance EventMeta_countable : Countable EventMeta.
Proof.
  refine (inj_countable' (fun r => (em_task_id r, em_session_id r, em_run_id r, em_correlation_id r, em_causation_id r,
    em_idempotency_key r, em_authority_generation r)) (fun '(a, b, c, d, e, f, g) => mkMeta a b c d e f g) _). by intros [].
Defined.

Notation body_sum :=
  (WorkItem + (WorkItemPatch + (record + (record + (Candidate + (string * CandidatePatch + (string * option string +
   (string + (Task + (TaskEventType * TaskPatch + (EntityEventType * LedgerEntity + (Evidence + string * record))))))))))))%type.
Definition body_enc (b : EventBody) : body_sum :=
  match b with
  | work_item_created x => inl x
  | work_item_updated x => inr (inl x)
  | work_item_pr_linked x => inr (inr (inl x))
  | plan_recorded x => inr (inr (inr (inl x)))
  | candidate_created x => inr (inr (inr (inr (inl x))))
  | candidate_changed x y => inr (inr (inr (inr (inr (inl (x, y))))))
  | candidate_rejected x y => inr (inr (inr (inr (inr (inr (inl (x, y)))))))
  | candidate_promoted x => inr (inr (inr (inr (inr (inr (inr (inl x)))))))
  | task_created x => inr (inr (inr (inr (inr (inr (inr (inr (inl x))))))))
  | task_event x y => inr (inr (inr (inr (inr (inr (inr (inr (inr (inl (x, y))))))))))
  | entity_event x y => inr (inr (inr (inr (inr (inr (inr (inr (inr (inr (inl (x, y)))))))))))
  | evidence_recorded x => inr (inr (inr (inr (inr (inr (inr (inr (inr (inr (inr (inl x)))))))))))
  | other_event x y => inr (inr (inr (inr (inr (inr (inr (inr (inr (inr (inr (inr (x, y))))))))))))
  end.
Definition body_dec (s : body_sum) : EventBody :=
  match s with
  | inl x => work_item_created x
  | inr (inl x) => work_item_updated x
  | inr (inr (inl x)) => work_item_pr_linked x
  | inr (inr (inr (inl x))) => plan_recorded x
  | inr (inr (inr (inr (inl x)))) => candidate_created x
  | inr (inr (inr (inr (inr (inl (x, y)))))) => candidate_changed x y
  | inr (inr (inr (inr (inr (inr (inl (x, y))))))) => candidate_rejected x y
  | inr (inr (inr (inr (inr (inr (inr (inl x))))))) => candidate_promoted x
  | inr (inr (inr (inr (inr (inr (inr (inr (inl x)))))))) => task_created x
  | inr (inr (inr (inr (inr (inr (inr (inr (inr (inl (x, y)))))))))) => task_event x y
  | inr (inr (inr (inr (inr (inr (inr (inr (inr (inr (inl (x, y))))))))))) => entity_event x y
  | inr (inr (inr (inr (inr (inr (inr (inr (inr (inr (inr (inl x))))))))))) => evidence_recorded x
  | inr (inr (inr (inr (inr (inr (inr (inr (inr (inr (inr (inr (x, y)))))))))))) => other_event x y
  end.
#[export] Instance EventBody_countable : Countable EventBody.
Proof. refine (inj_countable' body_enc body_dec _). by intros []. Defined.
#[export] Instance LedgerEvent_countable : Countable LedgerEvent.
Proof.
  refine (inj_countable' (fun r => (ev_id r, ev_schema_version r, ev_work_item_id r, ev_timestamp r, ev_actor r, ev_meta r,
    ev_body r)) (fun '(a, b, c, d, e, f, g) => mkEvent a b c d e f g) _). by intros [].
Defined.

(** The text of a number. *)
Fixpoint bits (p : positive) : text :=
  match p with
  | xH => ["}"%char]
  | xO p' => "0"%char :: bits p'
  | xI p' => "1"%char :: bits p'
  end.
Fixpoint parse_bits (t : text) : option positive :=
  match t with
  | [] => None
  | c :: t' =>
      if decide (c = "}"%char) then (if decide (t' = []) then Some xH else None)
      else if decide (c = "0"%char) then xO <$> parse_bits t'
      else if decide (c = "1"%char) then xI <$> parse_bits t'
      else None
  end.

Lemma parse_bits_bits p : parse_bits (bits p) = Some p.
Proof. induction p as [p IH|p IH|]; cbn [bits parse_bits]; simpl; by rewrite ?IH. Qed.

Lemma bits_minimal p : forall k, (k < length (bits p))%nat -> parse_bits (take k (bits p)) = None.
Proof.
  induction p as [p IH|p IH|]; intros [|k] Hk; simpl in *; try done; try lia; rewrite IH by lia; done.
Qed.

Lemma bits_chars p : Forall (fun c => c <> nl) (bits p).
Proof. induction p; simpl; constructor; try done; by constructor. Qed.

Section Codec.
Context {A : Type} `{Countable A}.

Definition number_text (e : A) : text := "{"%char :: bits (encode e).
Definition number_parse (t : text) : option A :=
  match t with
  | c :: t' => if decide (c = "{"%char) then p ← parse_bits t'; countable.decode p else None
  | [] => None
  end.

Definition number_codec : EventCodec A.
Proof.
  refine {| stringify := number_text; parse := number_parse |}.
  - intros e. unfold number_text, number_parse. rewrite decide_True by done. rewrite parse_bits_bits. simpl. apply decode_encode.
  - intros e Hc. apply elem_of_cons in Hc as [?|Hc]; [done|].
    pose proof (bits_chars (encode e)) as Hf. rewrite Forall_forall in Hf. by apply (Hf nl Hc).
  - done.
  - intros e [|k] Hk; [done|]. unfold number_text, number_parse. simpl in Hk |- *. by rewrite bits_minimal by lia.
Defined.
End Codec.

#[export] Instance event_codec : EventCodec LedgerEvent := number_codec.
