(* ===== verification/Ledger.v ===== *)
(** * The engineering ledger (src/ledger/Ledger.ts)

    The operations of [Ledger] over the event store, one definition per method.
    A method runs against the shared file, the process's store and its view; it
    returns the new state and its result or the error it throws. Event ids
    ([newEventId]), entity ids and the clock are inputs ([draws]).

    The second half is the system of processes sharing one log file: a process
    opens the log, performs operations, or dies in the middle of a write. *)

From Stdlib Require Import QArith.
From S2P Require Import Prelude JsMap CoreTypes EventStore LedgerView LedgerCodec.

#[export] Instance ledger_event_id : HasEventId LedgerEvent := ev_id.

Record AppendGuard := mkGuard { expected_revision : option Z }.
Record LedgerWriteOptions := mkWrite { guard : option AppendGuard; authority_generation : option Z }.

Inductive LedgerError :=
| LedgerRevisionConflictError (scope : option string) (expected actual : Z)
| LedgerAuthorityStaleError (scope : option string) (generation current : Z)
| KeyMismatchError (key : string) (prior wanted : string * option string)
| MultiScopeError
| UndefinedError.

(** The values an operation draws from its environment: event ids (one per call
    of [newEventId]) and their timestamps, the id of the object it creates, and its
    own reading of the clock. *)
Record Draws := mkDraws {
  d_event_id : nat -> string;
  d_event_at : nat -> string;
  d_object_id : string;
  d_now : string;
}.

Section Ledger.
Context `{Codec : EventCodec LedgerEvent}.
(** [createHash("sha256")...digest("hex")]: the hash library is not in the repository. *)
Context (sha256 : string -> string).
Notation lstate := (astate (E := LedgerEvent) (L := View)).

Definition view_of (s : lstate) : View := snd s.
Definition with_view (f : View -> View) (s : lstate) : lstate := (fst s, f (snd s)).

(** *** Fences and events *)

Definition assertFences (event : LedgerEvent) (g : option AppendGuard) (v : View) : res LedgerError unit :=
  let w := ev_work_item_id event in
  let stale_revision := match g with
                        | Some g => match expected_revision g with
                                    | Some r => if r =? revision w v then None else Some r
                                    | None => None
                                    end
                        | None => None
                        end in
  match stale_revision with
  | Some r => Err (LedgerRevisionConflictError w r (revision w v))
  | None =>
      match ev_authority event, map_get (scope_of w) (v_authorities v) with
      | Some generation, Some current =>
          if generation <? current then Err (LedgerAuthorityStaleError w generation current) else Ok tt
      | _, _ => Ok tt
      end
  end.

(** [Object.entries(meta).filter(([, v]) => v !== undefined && v !== "")] *)
Definition drop_empty (s : option string) : option string :=
  match s with Some x => if truthy x then Some x else None | None => None end.
Definition defined_meta (m : EventMeta) : EventMeta :=
  mkMeta (drop_empty (em_task_id m)) (drop_empty (em_session_id m)) (drop_empty (em_run_id m))
    (drop_empty (em_correlation_id m)) (drop_empty (em_causation_id m)) (drop_empty (em_idempotency_key m))
    (em_authority_generation m).
Definition has_meta (m : EventMeta) : bool :=
  js_some (fun x : option string => match x with Some _ => true | None => false end)
    [em_task_id m; em_session_id m; em_run_id m; em_correlation_id m; em_causation_id m; em_idempotency_key m]
  || match em_authority_generation m with Some _ => true | None => false end.

Definition makeEvent (d : Draws) (i : nat) (body : EventBody) (workItemId : option string) (actor : Actor)
    (meta : EventMeta) : LedgerEvent :=
  let m := defined_meta meta in
  mkEvent (d_event_id d i) (if has_meta m then Some 2 else None) workItemId (d_event_at d i) actor m body.

(** A key names one request. *)
Definition sameRequest (prior wanted : LedgerEvent) : res LedgerError LedgerEvent :=
  if negb (String.eqb (type_of (ev_body prior)) (type_of (ev_body wanted)))
     || negb (bool_decide (ev_work_item_id prior = ev_work_item_id wanted))
  then Err (KeyMismatchError (nullish (ev_key wanted) "")
              (type_of (ev_body prior), ev_work_item_id prior) (type_of (ev_body wanted), ev_work_item_id wanted))
  else Ok prior.

Definition answer_prior (k : string) (wanted : LedgerEvent) (v : View) : res LedgerError LedgerEvent :=
  match map_get k (v_byIdempotencyKey v) with
  | Some prior => sameRequest prior wanted
  | None => Err UndefinedError
  end.

Definition emit_condition (event : LedgerEvent) (g : option AppendGuard) (v : View) : res LedgerError bool :=
  match live_key event with
  | Some k => if map_has k (v_byIdempotencyKey v) then Ok false
              else let! _ := assertFences event g v in Ok true
  | None => let! _ := assertFences event g v in Ok true
  end.

Definition emit_commit (event : LedgerEvent) (v : View) : View :=
  track event (match live_key event with
               | Some k => set_keys (map_set k event (v_byIdempotencyKey v)) v
               | None => v
               end).

(** The conditional append of [emit] and what follows it. *)
Definition emit_append (mem : bool) (event : LedgerEvent) (g : option AppendGuard) (s : lstate)
  : lstate * res LedgerError LedgerEvent :=
  match appendConditionally mem ingest event (emit_condition event g) (emit_commit event) s with
  | (s', Err e) => (s', Err e)
  | (s', Ok None) => (s', match live_key event with
                          | Some k => answer_prior k event (view_of s')
                          | None => Err UndefinedError
                          end)
  | (s', Ok (Some _)) => (with_view (apply event) s', Ok event)
  end.

Definition emit_event (mem : bool) (event : LedgerEvent) (g : option AppendGuard) (s : lstate)
  : lstate * res LedgerError LedgerEvent :=
  match live_key event with
  | Some k =>
      match map_get k (v_byIdempotencyKey (view_of s)) with
      | Some prior => (s, sameRequest prior event)
      | None => emit_append mem event g s
      end
  | None => emit_append mem event g s
  end.

Definition emit (mem : bool) (d : Draws) (i : nat) (body : EventBody) (workItemId : option string) (actor : Actor)
    (meta : EventMeta) (g : option AppendGuard) (s : lstate) : lstate * res LedgerError LedgerEvent :=
  emit_event mem (makeEvent d i body workItemId actor meta) g s.

Definition write_meta (write : option LedgerWriteOptions) : EventMeta :=
  match write with
  | Some w => mkMeta None None None None None None (authority_generation w)
  | None => noMeta
  end.
Definition write_guard (write : option LedgerWriteOptions) : option AppendGuard :=
  match write with Some w => guard w | None => None end.

Definition emitWith (mem : bool) (d : Draws) (body : EventBody) (workItemId : option string) (actor : Actor)
    (write : option LedgerWriteOptions) (s : lstate) : lstate * res LedgerError LedgerEvent :=
  emit mem d 0 body workItemId actor (write_meta write) (write_guard write) s.

Definition emitBatch_prepare (d : Draws) (actor : Actor) (write : option LedgerWriteOptions)
    (build : View -> list (EventBody * option string)) (v : View) : res LedgerError (option (list LedgerEvent)) :=
  let events := imap (fun i sp => makeEvent d i (fst sp) (snd sp) actor (write_meta write)) (build v) in
  match events with
  | [] => Ok None
  | first :: _ =>
      if js_some (fun e => negb (bool_decide (ev_work_item_id e = ev_work_item_id first))) events
      then Err MultiScopeError
      else let! _ := assertFences first (write_guard write) v in Ok (Some events)
  end.

Definition emitBatch (mem : bool) (d : Draws) (actor : Actor) (write : option LedgerWriteOptions)
    (build : View -> list (EventBody * option string)) (s : lstate) : lstate * res LedgerError (list LedgerEvent) :=
  match appendBatch mem ingest (emitBatch_prepare d actor write build) (fun es v => foldl (fun v e => track e v) v es) s with
  | (s', Err e) => (s', Err e)
  | (s', Ok stored) =>
      let es := nullish stored [] in
      (with_view (fun v => foldl (fun v e => apply e v) v es) s', Ok es)
  end.

(** The result of a helper that discards the event(s) and returns [x]. *)
Definition returning {A B} (x : B) (r : lstate * res LedgerError A) : lstate * res LedgerError B :=
  (fst r, let! _ := snd r in Ok x).

(** *** Work items *)

Definition emitEvent := emit.

Definition createWorkItem (mem : bool) (d : Draws) (goal : string) (risk : RiskLevel) (repositories : list string)
    (actor : Actor) (write : option LedgerWriteOptions) (s : lstate) : lstate * res LedgerError WorkItem :=
  let wi := mkWorkItem (d_object_id d) goal DEFINED risk repositories (d_now d) (d_now d) None None None in
  returning wi (emitWith mem d (work_item_created wi) (Some (wi_id wi)) actor write s).

Definition updateWorkItem (mem : bool) (d : Draws) (id : string) (changes : WorkItemPatch) (actor : Actor)
    (write : option LedgerWriteOptions) (s : lstate) : lstate * res LedgerError unit :=
  returning tt (emitWith mem d (work_item_updated changes) (Some id) actor write s).

Definition pr_payload (l : WorkItemPrLink) : record :=
  [("host", jstr (pr_host l)); ("owner", jstr (pr_owner l)); ("repo", jstr (pr_repo l));
   ("number", jnum (inject_Z (pr_number l))); ("url_canonical", jstr (pr_url_canonical l))]%string.

Definition recordPrLink (mem : bool) (d : Draws) (workItemId host owner repo : string) (number : Z) (actor : Actor)
    (write : option LedgerWriteOptions) (s : lstate) : lstate * res LedgerError bool :=
  match prLinkOf (pr_payload (mkPrLink host owner repo number (prUrl host owner repo number))) with
  | None => (s, Ok false)
  | Some full =>
      if negb (map_has workItemId (v_workItems (view_of s))) then (s, Ok false)
      else if js_some (fun l => samePr l full) (listPrLinks workItemId (view_of s)) then (s, Ok false)
      else returning true (emitWith mem d (work_item_pr_linked (pr_payload full)) (Some workItemId) actor write s)
  end.

(** *** Plans *)

Definition MAX_PLAN_RETRIES : nat := 100.

(** [JSON.stringify] of a string: quotes, backslashes and control characters are
    escaped. *)
Definition hex_digit (n : N) : ascii := ascii_of_N (if (n <? 10)%N then 48 + n else 87 + n)%N.
Definition json_char (c : ascii) : string :=
  let n := N_of_ascii c in
  let esc (x : ascii) := String "092"%char (String x EmptyString) in
  if (n =? 34)%N then esc "034"%char
  else if (n =? 92)%N then esc "092"%char
  else if (n =? 8)%N then esc "b"%char
  else if (n =? 9)%N then esc "t"%char
  else if (n =? 10)%N then esc "n"%char
  else if (n =? 12)%N then esc "f"%char
  else if (n =? 13)%N then esc "r"%char
  else if (n <? 32)%N then
    String "092"%char ("u00" +:+ String (hex_digit (n / 16)) (String (hex_digit (n mod 16)) EmptyString))
  else String c EmptyString.
Fixpoint json_chars (s : string) : string :=
  match s with EmptyString => EmptyString | String c s' => json_char c +:+ json_chars s' end.
Definition json_string (s : string) : string :=
  String "034"%char (json_chars s +:+ String "034"%char EmptyString).

Definition planDigestOf (steps : list LedgerPlanStep) : string :=
  sha256 ("[" +:+ js_join "," (map (fun st => "[" +:+ json_string (ps_task_id st) +:+ "," +:+
                                              json_string (ps_title st) +:+ "]") steps) +:+ "]").

Definition step_json (st : LedgerPlanStep) : json :=
  jobj [("task_id", jstr (ps_task_id st)); ("title", jstr (ps_title st))]%string.

Definition planId (workItemId : string) (revision : Z) : string := workItemId +:+ "/" +:+ js_num revision.

Definition plan_payload (plan_id : string) (revision : Z) (digest : string) (steps : list LedgerPlanStep) (total : Z)
    (art : option (string * string)) (latest : option LedgerPlan) : record :=
  [("plan_id", jstr plan_id); ("revision", jnum (inject_Z revision)); ("digest", jstr digest);
    ("steps", jarr (map step_json steps)); ("total_steps", jnum (inject_Z total))]%string
   ++ (match art with
       | Some (i, ver) => if truthy i && truthy ver then [("artifact", jobj [("id", jstr i); ("version", jstr ver)])]%string else []
       | None => []
       end)
   ++ (match latest with Some l => [("supersedes", jstr (pl_id l))]%string | None => [] end).

(** The [for] loop of [recordPlan]; [retries] is [MAX_PLAN_RETRIES - attempt]. *)
Fixpoint recordPlan_loop (retries : nat) (mem : bool) (d : Draws) (workItemId digest : string)
    (steps : list LedgerPlanStep) (total : Z) (art : option (string * string)) (actor : Actor)
    (write : option LedgerWriteOptions) (s : lstate) : lstate * res LedgerError (option LedgerPlan) :=
  let latest := latestPlan workItemId (view_of s) in
  if match latest with Some l => String.eqb (pl_digest l) digest | None => false end then (s, Ok latest)
  else
    let revision' := nullish (option_map pl_revision latest) 0 + 1 in
    let plan_id := planId workItemId revision' in
    let meta := mkMeta None None None None None (Some ("plan:" +:+ plan_id +:+ ":" +:+ digest)%string)
                  (match write with Some w => authority_generation w | None => None end) in
    let g := match write_guard write with
             | Some g => g
             | None => mkGuard (Some (revision (Some workItemId) (view_of s)))
             end in
    match emit mem d (MAX_PLAN_RETRIES - retries)
            (plan_recorded (plan_payload plan_id revision' digest steps total art latest))
            (Some workItemId) actor meta (Some g) s with
    | (s', Ok _) => (s', Ok (js_find (fun l => String.eqb (pl_id l) plan_id) (listPlans workItemId (view_of s'))))
    | (s', Err (LedgerRevisionConflictError sc x y as err)) =>
        match write_guard write, retries with
        | None, S retries' => recordPlan_loop retries' mem d workItemId digest steps total art actor write s'
        | _, _ => (s', Err err)
        end
    | (s', Err err) => (s', Err err)
    end.

Definition recordPlan (mem : bool) (d : Draws) (workItemId : string) (input : list LedgerPlanStep)
    (art : option (string * string)) (actor : Actor) (write : option LedgerWriteOptions) (s : lstate)
  : lstate * res LedgerError (option LedgerPlan) :=
  if negb (map_has workItemId (v_workItems (view_of s))) then (s, Ok None)
  else
    let all := cleanSteps (Some (jarr (map step_json input))) in
    let steps := take MAX_PLAN_STEPS all in
    if (length steps =? 0)%nat then (s, Ok None)
    else recordPlan_loop MAX_PLAN_RETRIES mem d workItemId (planDigestOf steps) steps (js_len all) art actor write s.

(** *** Candidates *)

Definition createCandidate (mem : bool) (d : Draws) (workItemId baseCommit branch : string) (worktreePath : option string)
    (producerRole producerRunId : string) (parentId : option string) (actor : Actor)
    (write : option LedgerWriteOptions) (s : lstate) : lstate * res LedgerError Candidate :=
  let candidate := mkCandidate (d_object_id d) workItemId parentId C_CREATED baseCommit None None branch worktreePath
                     (Some producerRunId) producerRole None None [] [] None (d_now d) in
  returning candidate
    (emitBatch mem d actor write (fun _ =>
       [(candidate_created candidate, Some workItemId);
        (work_item_updated (mkWiPatch None None None None None None None (Some (Some (ca_id candidate))) None None),
         Some workItemId)]) s).

Definition changeCandidate (mem : bool) (d : Draws) (id : string) (changes : CandidatePatch) (workItemId : string)
    (actor : Actor) (write : option LedgerWriteOptions) (s : lstate) : lstate * res LedgerError unit :=
  returning tt (emitWith mem d (candidate_changed id changes) (Some workItemId) actor write s).

Definition rejectCandidate (mem : bool) (d : Draws) (id workItemId reason : string) (actor : Actor)
    (write : option LedgerWriteOptions) (s : lstate) : lstate * res LedgerError unit :=
  returning tt (emitWith mem d (candidate_rejected id (Some reason)) (Some workItemId) actor write s).

Definition promoteCandidate (mem : bool) (d : Draws) (id workItemId : string) (actor : Actor)
    (write : option LedgerWriteOptions) (s : lstate) : lstate * res LedgerError unit :=
  returning tt
    (emitBatch mem d actor write (fun _ =>
       [(candidate_promoted id, Some workItemId);
        (work_item_updated (mkWiPatch None None None None None None None None (Some (Some id)) None),
         Some workItemId)]) s).

(** *** Tasks *)

Definition createTask (mem : bool) (d : Draws) (workItemId title : string) (kind : TaskKind) (risk : RiskLevel)
    (actor : Actor) (scopePaths dependsOn : list string) (write : option LedgerWriteOptions) (s : lstate)
  : lstate * res LedgerError Task :=
  let task := mkTask (d_object_id d) workItemId title kind dependsOn t_ready scopePaths risk None None in
  returning task (emitWith mem d (task_created task) (Some workItemId) actor write s).

Definition setTaskStatus (mem : bool) (d : Draws) (id : string) (status : LedgerTaskStatus) (workItemId : string)
    (actor : Actor) (write : option LedgerWriteOptions) (s : lstate) : lstate * res LedgerError unit :=
  let type := match status with
              | t_completed => task_completed
              | t_blocked => task_blocked
              | t_failed => task_failed
              | _ => task_started
              end in
  returning tt (emitWith mem d (task_event type (mkTaskPatch id (Some status) None None None None))
                  (Some workItemId) actor write s).

Definition updateTask (mem : bool) (d : Draws) (id : string) (depends_on scope_paths : option (list string))
    (result_work_item_id : option (option string)) (workItemId : string) (actor : Actor)
    (write : option LedgerWriteOptions) (s : lstate) : lstate * res LedgerError unit :=
  if negb (map_has id (v_tasks (view_of s))) then (s, Ok tt)
  else returning tt (emitWith mem d (task_event task_updated
                        (mkTaskPatch id None None depends_on scope_paths result_work_item_id))
                       (Some workItemId) actor write s).

(** *** Entities *)

Definition entityEventType (kind : EntityKind) (status : EntityStatus) : EntityEventType :=
  match kind with
  | finding => if decide (status = e_resolved) then finding_resolved else finding_created
  | hypothesis => if decide (status = e_rejected) then hypothesis_rejected else hypothesis_created
  | fact => fact_verified
  | decision => if decide (status = e_accepted) then decision_accepted else decision_proposed
  | requirement => requirement_created
  | invariant => invariant_created
  | test_obligation => test_obligation_created
  end.

Definition recordEntity (mem : bool) (d : Draws) (kind : EntityKind) (claim : string) (status : EntityStatus)
    (actor : Actor) (workItemId : option string) (evidence : option (list string)) (confidence : option Z)
    (severity : option Severity) (candidateId : option string) (write : option LedgerWriteOptions) (s : lstate)
  : lstate * res LedgerError LedgerEntity :=
  let entity := mkEntity (d_object_id d) kind claim status (nullish evidence []) confidence severity candidateId
                  workItemId (d_now d) in
  returning entity (emitWith mem d (entity_event (entityEventType kind status) entity) workItemId actor write s).

Definition attachEvidence (mem : bool) (d : Draws) (entityId evidenceId : string) (workItemId : option string)
    (actor : Actor) (write : option LedgerWriteOptions) (s : lstate) : lstate * res LedgerError (option LedgerEntity) :=
  match map_get entityId (v_entities (view_of s)) with
  | None => (s, Ok None)
  | Some entity =>
      if js_includes evidenceId (en_evidence entity) then (s, Ok (Some entity))
      else
        let updated := mkEntity (en_id entity) (en_kind entity) (en_claim entity) (en_status entity)
                         (en_evidence entity ++ [evidenceId]) (en_confidence entity) (en_severity entity)
                         (en_candidate_id entity) (en_work_item_id entity) (en_created_at entity) in
        returning (Some updated) (emitWith mem d (entity_event entity_updated updated) workItemId actor write s)
  end.

Definition updateEntityStatus (mem : bool) (d : Draws) (id : string) (status : EntityStatus) (workItemId : option string)
    (actor : Actor) (write : option LedgerWriteOptions) (s : lstate) : lstate * res LedgerError unit :=
  match map_get id (v_entities (view_of s)) with
  | None => (s, Ok tt)
  | Some e =>
      let updated := mkEntity (en_id e) (en_kind e) (en_claim e) status (en_evidence e) (en_confidence e)
                       (en_severity e) (en_candidate_id e) (en_work_item_id e) (en_created_at e) in
      returning tt (emitWith mem d (entity_event entity_updated updated) workItemId actor write s)
  end.

(** *** Evidence *)

Definition nonempty (o : option string) : option string := drop_empty o.

Definition add_evidence (evId : string) (c : Candidate) : CandidatePatch :=
  mkCaPatch None None None None None None None None None None None None None None
    (Some (ca_evidence_ids c ++ [evId])) None None.

Definition recordEvidence_build (ev : Evidence) (candidateId workItemId : option string) (v : View)
  : list (EventBody * option string) :=
  (evidence_recorded ev, workItemId) ::
  match nonempty candidateId, nonempty workItemId with
  | Some cid, Some w =>
      match map_get cid (v_candidates v) with
      | Some c => [(candidate_changed cid (add_evidence (evd_id ev) c), Some w)]
      | None => []
      end
  | _, _ => []
  end.

Definition recordEvidence (mem : bool) (d : Draws) (candidateId : option string) (type tool : string)
    (command : option string) (exitCode : Z) (status : EvidenceStatus) (summary : string) (artifacts : list string)
    (trust : EvidenceTrust) (workItemId : option string) (actor : Actor) (write : option LedgerWriteOptions) (s : lstate)
  : lstate * res LedgerError Evidence :=
  let ev := mkEvidence (d_object_id d) candidateId type tool command (d_now d) (d_now d) exitCode status summary
              artifacts trust in
  match emitBatch mem d actor write (recordEvidence_build ev candidateId workItemId) s with
  | (s', Err e) => (s', Err e)
  | (s', Ok _) =>
      match nonempty workItemId, nonempty candidateId with
      | None, Some cid =>
          (with_view (fun v => set_candidates (update cid (fun c => assignCandidate c (add_evidence (evd_id ev) c))
                                                 (v_candidates v)) v) s', Ok ev)
      | _, _ => (s', Ok ev)
      end
  end.

(** ** One operation against the log

    [good file st v]: the store is in step with the file and the view is the
    replay of the events the store has read. *)
Definition good (s : lstate) : Prop :=
  let '(file, st, v) := s in synced (file_text file) st /\ v = replay (st_events st).

Definition log_at (s : lstate) : list LedgerEvent := log_of (file_text (fst (fst s))).
Definition text_at (s : lstate) : text := file_text (fst (fst s)).

(** The store has read the whole file. *)
Definition current (s : lstate) : Prop := st_offset (snd (fst s)) = length (text_at s).

Lemma good_view s : good s -> current s -> view_of s = replay (log_at s).
Proof.
  destruct s as [[file st] v]. intros [H1 ->] Hc. unfold view_of, log_at, current in *. simpl in *.
  by rewrite (sy_events _ _ H1), Hc, firstn_all.
Qed.

Lemma caught_up_good file st : synced (file_text file) st ->
  caught_up ingest file st (replay (st_events st)) = replay (log_of (file_text file)).
Proof. intros Hs. unfold caught_up. rewrite <- replay_app. by rewrite <- synced_prefix. Qed.

(** What may follow a log: keys unseen, generations not behind. *)
Definition admissible_event (log : list LedgerEvent) (e : LedgerEvent) : Prop :=
  (forall k, live_key e = Some k -> k ∉ keys_of log) /\
  (forall g cur, ev_authority e = Some g -> cur ∈ generations (scope_of (ev_work_item_id e)) log -> cur <= g).
Fixpoint admissible (log es : list LedgerEvent) : Prop :=
  match es with
  | [] => True
  | e :: es' => admissible_event log e /\ admissible (log ++ [e]) es'
  end.

(** [s'] is [s] after the operation wrote [es] as one piece of text. *)
Record wrote (s s' : lstate) (es : list LedgerEvent) : Prop := {
  wr_good : good s';
  wr_text : text_at s' = text_at s ++ (if decide (es = []) then [] else append_text (open_end (text_at s)) es);
  wr_fresh : fresh_for (text_at s) es;
  wr_adm : admissible (log_at s) es;
}.

Instance es_nil_dec (es : list LedgerEvent) : Decision (es = []) | 0.
Proof. destruct es; [by left|by right]. Defined.

Lemma fresh_for_nil (f : text) : fresh_for f ([] : list LedgerEvent).
Proof. split; [constructor|set_solver]. Qed.

Lemma wrote_nothing s s' : good s' -> text_at s' = text_at s -> wrote s s' [].
Proof. intros H1 H2. constructor; [done|by rewrite H2; simpl; rewrite app_nil_r|apply fresh_for_nil|done]. Qed.

Lemma wrote_log s s' es : wrote s s' es -> log_at s' = log_at s ++ es.
Proof.
  intros [_ H2 H3 _]. unfold log_at. unfold text_at in *. rewrite H2. destruct (decide (es = [])) as [->|Hne].
  - by rewrite !app_nil_r.
  - by apply log_of_append.
Qed.

(** The specification of one [emit]: a function of the log alone. *)
Definition emit_ref (event : LedgerEvent) (g : option AppendGuard) (log : list LedgerEvent)
  : res LedgerError LedgerEvent * list LedgerEvent :=
  let v := replay log in
  match live_key event with
  | Some k =>
      match map_get k (v_byIdempotencyKey v) with
      | Some prior => (sameRequest prior event, [])
      | None => match assertFences event g v with Err e => (Err e, []) | Ok _ => (Ok event, [event]) end
      end
  | None => match assertFences event g v with Err e => (Err e, []) | Ok _ => (Ok event, [event]) end
  end.

Lemma fold_opt_max_some l a : exists m, foldl opt_max (Some a) l = Some m /\ a <= m.
Proof.
  revert a. induction l as [|x l IH]; intros a; simpl; [exists a; split; [done|lia]|].
  destruct (IH (Z.max a x)) as (m & H1 & H2). exists m. split; [done|lia].
Qed.

Lemma fold_opt_max_ge l : forall a x, x ∈ l -> exists m, foldl opt_max a l = Some m /\ x <= m.
Proof.
  induction l as [|y l IH]; intros a x Hx; [set_solver|]. simpl.
  apply elem_of_cons in Hx as [->|Hx]; [|by apply IH].
  destruct (fold_opt_max_some l (Z.max (nullish a 0) y)) as (m & H1 & H2). exists m. split; [exact H1|lia].
Qed.

Lemma assertFences_ok event g log :
  assertFences event g (replay log) = Ok tt ->
  (forall r, (match g with Some g => expected_revision g | None => None end) = Some r ->
     r = js_len (events_in (scope_of (ev_work_item_id event)) log)) /\
  (forall gen cur, ev_authority event = Some gen ->
     cur ∈ generations (scope_of (ev_work_item_id event)) log -> cur <= gen).
Proof.
  unfold assertFences. rewrite revision_count, authority_fold. intros H. split.
  - intros r Hr. destruct g as [g|]; [|done]. rewrite Hr in H. destruct (r =? _) eqn:E; [by apply Z.eqb_eq|done].
  - intros gen cur Ha Hc. rewrite Ha in H. destruct (fold_opt_max_ge _ None _ Hc) as (m & Hm & Hle).
    destruct (match g with Some _ => _ | None => _ end); [done|]. rewrite Hm in H.
    destruct (gen <? m) eqn:Hlt; [done|]. bool_to_prop. lia.
Qed.

(** An index entry of an earlier view is an index entry of every later one. *)
Lemma key_index_stable log more k e :
  map_get k (v_byIdempotencyKey (replay log)) = Some e ->
  map_get k (v_byIdempotencyKey (replay (log ++ more))) = Some e.
Proof.
  intros H. induction more as [|x more IH] using rev_ind; [by rewrite app_nil_r|].
  rewrite app_assoc, replay_snoc, ingest_keys. unfold index_key. destruct (live_key x) as [k'|]; [|done].
  destruct (map_has k' _) eqn:Hh; [done|]. simpl. rewrite map_get_set_ne; [done|]. intros ->.
  assert (map_has k (v_byIdempotencyKey (replay (log ++ more))) = true) by (apply map_has_get; eauto). congruence.
Qed.

Lemma wrote_emit file st v event :
  synced (file_text file) st -> v = replay (st_events st) -> fresh_for (file_text file) [event] ->
  admissible_event (log_of (file_text file)) event ->
  forall st' v', synced (file_text file ++ append_text (open_end (file_text file)) [event]) st' ->
  st_offset st' = length (file_text file ++ append_text (open_end (file_text file)) [event]) ->
  v' = ingest event (replay (log_of (file_text file))) ->
  wrote (file, st, v) (Some (file_text file ++ append_text (open_end (file_text file)) [event]), st', v') [event].
Proof.
  intros Hs Hv Hf Ha st' v' Hs' Ho ->. constructor; [|done|done|done]. split; [done|].
  rewrite (sy_events _ _ Hs'), Ho, firstn_all, log_of_append by done. by rewrite replay_snoc.
Qed.

Lemma emit_admissible event g log :
  assertFences event g (replay log) = Ok tt ->
  (forall k, live_key event = Some k -> map_get k (v_byIdempotencyKey (replay log)) = None) ->
  admissible_event log event.
Proof.
  intros Hf Hk. split; [|apply (assertFences_ok event g log Hf)].
  intros k Hk'. apply Hk in Hk'. rewrite <- js_includes_false, <- key_index. unfold map_has. by rewrite Hk'.
Qed.

Lemma commit_ingest event v :
  (forall k, live_key event = Some k -> map_get k (v_byIdempotencyKey v) = None) ->
  apply event (emit_commit event v) = ingest event v.
Proof.
  intros Hk. unfold emit_commit. destruct (live_key event) as [k|] eqn:E.
  - apply commit_keyed; [done|]. unfold map_has. by rewrite Hk.
  - apply apply_track.
Qed.

(** The appending half of [emit], when the log judges it. *)
Lemma emit_append_refines s event g :
  good s -> fresh_for (text_at s) [event] ->
  exists s', emit_append false event g s = (s', fst (emit_ref event g (log_at s))) /\
    wrote s s' (snd (emit_ref event g (log_at s))) /\ current s'.
Proof.
  destruct s as [[file st] v]. intros [Hs Hv] Hf. unfold text_at, log_at in *. simpl in Hf |- *.
  destruct (appendConditionally_spec ingest event (emit_condition event g) (emit_commit event) file st v Hs Hf)
    as (st' & file' & Heq & Hfile & Hs' & Ho).
  unfold emit_append. rewrite Heq. rewrite Hv, caught_up_good in * by done.
  set (f := file_text file) in *. set (log := log_of f) in *.
  assert (Hnone : file' = file -> wrote (file, st, replay (st_events st)) (file', st', replay log) []).
  { intros ->. apply wrote_nothing; [|done]. split; [done|]. f_equal. by rewrite (sy_events _ _ Hs'), Ho, firstn_all. }
  assert (Hfence : assertFences event g (replay log) = Ok tt ->
    (forall k, live_key event = Some k -> map_get k (v_byIdempotencyKey (replay log)) = None) ->
    file' = Some (f ++ append_text (open_end f) [event]) ->
    wrote (file, st, replay (st_events st)) (file', st', apply event (emit_commit event (replay log))) [event]).
  { intros Hok Hk ->. apply wrote_emit; [done|done|done|by apply (emit_admissible event g)|done|done|].
    by apply commit_ingest. }
  unfold emit_ref, emit_condition, answer_prior in *. fold log.
  destruct (live_key event) as [k|] eqn:Ek; [unfold map_has in *; destruct (map_get k _) as [prior|] eqn:Eg|].
  - exists (file', st', replay log). unfold view_of. simpl. rewrite Eg. auto.
  - destruct (assertFences event g (replay log)) as [[]|err]; simpl in *; eexists; split_and!; eauto.
    apply Hfence; [done| |done]. by intros ? [= <-].
  - destruct (assertFences event g (replay log)) as [[]|err]; simpl in *; eexists; split_and!; eauto.
    apply Hfence; done.
Qed.

Lemma emit_event_refines s event g :
  good s -> fresh_for (text_at s) [event] ->
  exists s', emit_event false event g s = (s', fst (emit_ref event g (log_at s))) /\
    wrote s s' (snd (emit_ref event g (log_at s))).
Proof.
  intros Hg Hf. pose proof (emit_append_refines s event g Hg Hf) as (s1 & H1 & H2 & _). unfold emit_event.
  destruct (live_key event) as [k|] eqn:Ek; [|by exists s1].
  destruct (map_get k (v_byIdempotencyKey (view_of s))) as [prior|] eqn:Eg; [|by exists s1].
  exists s. destruct s as [[file st] v]. destruct Hg as [Hs Hv]. unfold view_of in Eg. simpl in Eg. subst v.
  unfold emit_ref, log_at. simpl. rewrite Ek.
  rewrite (synced_prefix _ _ Hs). rewrite (key_index_stable _ _ _ _ Eg).
  split; [done|]. by apply wrote_nothing.
Qed.

(** *** Batches *)

Definition batch_ref (d : Draws) (actor : Actor) (write : option LedgerWriteOptions)
    (build : View -> list (EventBody * option string)) (log : list LedgerEvent)
  : res LedgerError (list LedgerEvent) * list LedgerEvent :=
  match emitBatch_prepare d actor write build (replay log) with
  | Err e => (Err e, [])
  | Ok es => (Ok (nullish es []), nullish es [])
  end.

Lemma keys_none_snoc log e : live_key e = None -> keys_of (log ++ [e]) = keys_of log.
Proof. intros He. unfold keys_of. rewrite omap_app. simpl. rewrite He. apply app_nil_r. Qed.

Lemma generations_snoc s log e :
  generations s (log ++ [e]) =
  generations s log ++ (if in_scope s e then match ev_authority e with Some g => [g] | None => [] end else []).
Proof.
  unfold generations. rewrite events_in_snoc, omap_app. f_equal. destruct (in_scope s e); simpl; [|done].
  by destruct (ev_authority e).
Qed.

(** Events of one scope and one generation, none with a key, may follow a log
    that the first of them may follow. *)
Lemma admissible_batch g w es : forall log,
  (forall e, e ∈ es -> live_key e = None /\ ev_authority e = g /\ ev_work_item_id e = w) ->
  (forall gen cur, g = Some gen -> cur ∈ generations (scope_of w) log -> cur <= gen) ->
  admissible log es.
Proof.
  induction es as [|e es IH]; intros log Hall Hg; [done|].
  destruct (Hall e ltac:(set_solver)) as (He1 & He2 & He3). split.
  - split; [by rewrite He1|]. rewrite He2, He3. exact Hg.
  - apply IH; [intros e' He'; apply Hall; set_solver|]. intros gen cur Hgen. rewrite generations_snoc, elem_of_app.
    intros [Hc|Hc]; [by eapply Hg|]. destruct (in_scope _ e); [|set_solver]. rewrite He2, Hgen in Hc.
    apply list_elem_of_singleton in Hc. lia.
Qed.

Lemma write_meta_event d i b w a write :
  live_key (makeEvent d i b w a (write_meta write)) = None /\
  ev_authority (makeEvent d i b w a (write_meta write)) = match write with Some x => authority_generation x | None => None end /\
  ev_work_item_id (makeEvent d i b w a (write_meta write)) = w /\ ev_id (makeEvent d i b w a (write_meta write)) = d_event_id d i.
Proof. by destruct write as [[? ?]|]. Qed.

Lemma prepare_spec d actor write build v es :
  emitBatch_prepare d actor write build v = Ok (Some es) ->
  exists first rest, es = first :: rest /\ assertFences first (write_guard write) v = Ok tt /\
    es = imap (fun i sp => makeEvent d i (fst sp) (snd sp) actor (write_meta write)) (build v) /\
    forall e, e ∈ es -> live_key e = None /\ ev_authority e = ev_authority first /\ ev_work_item_id e = ev_work_item_id first.
Proof.
  unfold emitBatch_prepare. remember (imap _ (build v)) as evs eqn:He.
  destruct evs as [|first rest]; [done|]. destruct (js_some _ _) eqn:Hs; [done|].
  destruct (assertFences _ _ _) as [[]|] eqn:Hf; [|done]. simpl. intros [= <-]. exists first, rest.
  split_and!; [done|done|done|]. rewrite js_some_false in Hs.
  assert (Hm : forall e, e ∈ first :: rest -> live_key e = None /\
    ev_authority e = match write with Some x => authority_generation x | None => None end).
  { intros e Hin. rewrite He in Hin. apply list_elem_of_lookup_1 in Hin as [i Hi]. rewrite list_lookup_imap in Hi.
    destruct (build v !! i) as [sp|]; [|done]. simpl in Hi. injection Hi as <-.
    by destruct (write_meta_event d i (fst sp) (snd sp) actor write) as (-> & -> & _). }
  intros e Hin. specialize (Hs e Hin). bool_to_prop. split_and!; [by apply Hm| |done].
  rewrite (proj2 (Hm e Hin)). symmetry. apply Hm. set_solver.
Qed.

Lemma batch_ids d actor write (specs : list (EventBody * option string)) :
  map ev_id (imap (fun i sp => makeEvent d i (fst sp) (snd sp) actor (write_meta write)) specs) =
  imap (fun i _ => d_event_id d i) specs.
Proof.
  change (map ev_id) with (fmap (M := list) ev_id). rewrite fmap_imap. apply imap_ext. by intros i sp _.
Qed.

(** The environment never hands out an event id the log already holds. *)
Definition fresh_draws (f : text) (d : Draws) : Prop :=
  (forall i j, d_event_id d i = d_event_id d j -> i = j) /\
  (forall i, d_event_id d i ∉ map event_id (log_of (E := LedgerEvent) f)).

Lemma fresh_one f d i b w a m : fresh_draws f d -> fresh_for f [makeEvent d i b w a m].
Proof.
  intros [_ Hf]. split; [apply NoDup_singleton|]. intros e He. apply list_elem_of_singleton in He as ->. apply Hf.
Qed.

Lemma fresh_batch f d actor write specs :
  fresh_draws f d -> fresh_for f (imap (fun i sp => makeEvent d i (fst sp) (snd sp) actor (write_meta write)) specs).
Proof.
  intros [Hinj Hf]. split.
  - change (map event_id) with (map ev_id). rewrite batch_ids. apply NoDup_alt. intros i j x.
    rewrite !list_lookup_imap. destruct (specs !! i), (specs !! j); simpl; try done. intros [= <-] [= Hx]. by apply Hinj.
  - intros e He. apply (list_elem_of_fmap_2 ev_id) in He. change (fmap ev_id) with (map ev_id) in He.
    rewrite batch_ids in He. apply list_elem_of_lookup_1 in He as [i Hi]. rewrite list_lookup_imap in Hi.
    destruct (specs !! i); [|done]. simpl in Hi. injection Hi as Hi. change (event_id e) with (ev_id e). rewrite <- Hi. apply Hf.
Qed.

Lemma emitBatch_refines s d actor write build :
  good s -> fresh_draws (text_at s) d ->
  exists s', emitBatch false d actor write build s = (s', fst (batch_ref d actor write build (log_at s))) /\
    wrote s s' (snd (batch_ref d actor write build (log_at s))) /\ current s'.
Proof.
  destruct s as [[file st] v]. intros [Hs Hv] Hd. unfold text_at, log_at in *. simpl in Hd |- *.
  assert (Hp : forall es, emitBatch_prepare d actor write build (caught_up ingest file st v) = Ok (Some es) ->
    fresh_for (file_text file) es).
  { intros es He. apply prepare_spec in He as (_ & _ & _ & _ & -> & _). by apply fresh_batch. }
  destruct (appendBatch_spec ingest (emitBatch_prepare d actor write build)
    (fun es v => foldl (fun v e => track e v) v es) file st v Hs Hp) as (st' & file' & Heq & Hfile & Hs' & Ho).
  unfold emitBatch. rewrite Heq. rewrite Hv, caught_up_good in * by done. unfold batch_ref.
  set (f := file_text file) in *. set (log := log_of f) in *.
  assert (Hlog : file' = file -> good (file', st', replay log)).
  { intros ->. split; [done|]. by rewrite (sy_events _ _ Hs'), Ho, firstn_all. }
  destruct (emitBatch_prepare d actor write build (replay log)) as [[es|]|err] eqn:Ep; simpl.
  - specialize (Hp es eq_refl). destruct (prepare_spec _ _ _ _ _ _ Ep) as (first & rest & -> & Hok & _ & Hall).
    eexists. split; [reflexivity|]. split; [|done]. subst file'. constructor; [|done|done|].
    + split; [done|]. etransitivity; [exact (commit_batch (first :: rest) (replay log))|].
      rewrite <- replay_app. f_equal.
      rewrite (sy_events _ _ Hs'), Ho, firstn_all. simpl. by rewrite log_of_append.
    + apply (admissible_batch (ev_authority first) (ev_work_item_id first)); [done|].
      apply (assertFences_ok first (write_guard write) log Hok).
  - eexists. split; [reflexivity|]. split; [|done]. apply wrote_nothing; [by apply Hlog|by rewrite Hfile].
  - eexists. split; [reflexivity|]. split; [|done]. apply wrote_nothing; [by apply Hlog|by rewrite Hfile].
Qed.

(** ** Every operation writes through the log *)

Inductive LedgerOp :=
| op_emitEvent (body : EventBody) (workItemId : option string) (actor : Actor) (meta : EventMeta) (g : option AppendGuard)
| op_createWorkItem (goal : string) (risk : RiskLevel) (repositories : list string) (actor : Actor) (write : option LedgerWriteOptions)
| op_updateWorkItem (id : string) (changes : WorkItemPatch) (actor : Actor) (write : option LedgerWriteOptions)
| op_recordPrLink (workItemId host owner repo : string) (number : Z) (actor : Actor) (write : option LedgerWriteOptions)
| op_recordPlan (workItemId : string) (steps : list LedgerPlanStep) (art : option (string * string)) (actor : Actor) (write : option LedgerWriteOptions)
| op_createCandidate (workItemId baseCommit branch : string) (worktreePath : option string) (role runId : string) (parentId : option string) (actor : Actor) (write : option LedgerWriteOptions)
| op_changeCandidate (id : string) (changes : CandidatePatch) (workItemId : string) (actor : Actor) (write : option LedgerWriteOptions)
| op_rejectCandidate (id workItemId reason : string) (actor : Actor) (write : option LedgerWriteOptions)
| op_promoteCandidate (id workItemId : string) (actor : Actor) (write : option LedgerWriteOptions)
| op_createTask (workItemId title : string) (kind : TaskKind) (risk : RiskLevel) (actor : Actor) (scopePaths dependsOn : list string) (write : option LedgerWriteOptions)
| op_setTaskStatus (id : string) (status : LedgerTaskStatus) (workItemId : string) (actor : Actor) (write : option LedgerWriteOptions)
| op_updateTask (id : string) (depends_on scope_paths : option (list string)) (result : option (option string)) (workItemId : string) (actor : Actor) (write : option LedgerWriteOptions)
| op_recordEntity (kind : EntityKind) (claim : string) (status : EntityStatus) (actor : Actor) (workItemId : option string) (evidence : option (list string)) (confidence : option Z) (severity : option Severity) (candidateId : option string) (write : option LedgerWriteOptions)
| op_attachEvidence (entityId evidenceId : string) (workItemId : option string) (actor : Actor) (write : option LedgerWriteOptions)
| op_updateEntityStatus (id : string) (status : EntityStatus) (workItemId : option string) (actor : Actor) (write : option LedgerWriteOptions)
| op_recordEvidence (candidateId : option string) (type tool : string) (command : option string) (exitCode : Z) (status : EvidenceStatus) (summary : string) (artifacts : list string) (trust : EvidenceTrust) (workItemId : option string) (actor : Actor) (write : option LedgerWriteOptions).

Definition run_op (o : LedgerOp) (d : Draws) (s : lstate) : lstate :=
  match o with
  | op_emitEvent b w a m g => fst (emitEvent false d 0 b w a m g s)
  | op_createWorkItem goal risk repos a wr => fst (createWorkItem false d goal risk repos a wr s)
  | op_updateWorkItem id ch a wr => fst (updateWorkItem false d id ch a wr s)
  | op_recordPrLink w h ow r n a wr => fst (recordPrLink false d w h ow r n a wr s)
  | op_recordPlan w steps art a wr => fst (recordPlan false d w steps art a wr s)
  | op_createCandidate w bc br wt ro ru pa a wr => fst (createCandidate false d w bc br wt ro ru pa a wr s)
  | op_changeCandidate id ch w a wr => fst (changeCandidate false d id ch w a wr s)
  | op_rejectCandidate id w re a wr => fst (rejectCandidate false d id w re a wr s)
  | op_promoteCandidate id w a wr => fst (promoteCandidate false d id w a wr s)
  | op_createTask w t k r a sp dep wr => fst (createTask false d w t k r a sp dep wr s)
  | op_setTaskStatus id stt w a wr => fst (setTaskStatus false d id stt w a wr s)
  | op_updateTask id dep sp res w a wr => fst (updateTask false d id dep sp res w a wr s)
  | op_recordEntity k c stt a w ev co se ca wr => fst (recordEntity false d k c stt a w ev co se ca wr s)
  | op_attachEvidence e v w a wr => fst (attachEvidence false d e v w a wr s)
  | op_updateEntityStatus id stt w a wr => fst (updateEntityStatus false d id stt w a wr s)
  | op_recordEvidence c ty to cm ex stt su ar tr w a wr => fst (recordEvidence false d c ty to cm ex stt su ar tr w a wr s)
  end.

(** Evidence for a candidate recorded under no work item changes the candidate in
    memory only ("unchanged legacy behaviour"); every other operation is durable. *)
Definition durable_op (o : LedgerOp) : bool :=
  match o with
  | op_recordEvidence c _ _ _ _ _ _ _ _ w _ _ =>
      match nonempty w, nonempty c with None, Some _ => false | _, _ => true end
  | _ => true
  end.

Definition writes (s s' : lstate) : Prop := exists es, wrote s s' es.

Lemma writes_nothing s : good s -> writes s s.
Proof. intros H. exists []. by apply wrote_nothing. Qed.

Lemma emit_writes s d i b w a m g : good s -> fresh_draws (text_at s) d -> writes s (fst (emit false d i b w a m g s)).
Proof.
  intros Hg Hd. unfold emit. destruct (emit_event_refines s (makeEvent d i b w a m) g Hg) as (s' & -> & H);
    [by apply fresh_one|]. eexists. exact H.
Qed.

Lemma returning_emitWith {B} (x : B) s d b w a wr :
  good s -> fresh_draws (text_at s) d -> writes s (fst (returning x (emitWith false d b w a wr s))).
Proof. intros Hg Hd. by apply emit_writes. Qed.

Lemma returning_emitBatch {B} (x : B) s d a wr build :
  good s -> fresh_draws (text_at s) d -> writes s (fst (returning x (emitBatch false d a wr build s))).
Proof.
  intros Hg Hd. destruct (emitBatch_refines s d a wr build Hg Hd) as (s' & H & Hw & _).
  unfold returning. rewrite H. eexists. exact Hw.
Qed.

(** A refused emission writes nothing. *)
Lemma emit_error_silent event g log e es : emit_ref event g log = (Err e, es) -> es = [].
Proof. unfold emit_ref. repeat break_goal; intros; simplify_eq; done. Qed.

Lemma recordPlan_loop_writes retries : forall d w digest steps total art a wr s,
  good s -> fresh_draws (text_at s) d ->
  writes s (fst (recordPlan_loop retries false d w digest steps total art a wr s)).
Proof.
  induction retries as [|retries IH]; intros d w digest steps total art a wr s Hg Hd; cbn [recordPlan_loop];
    (destruct (match latestPlan w (view_of s) with Some _ => _ | None => _ end); [by apply writes_nothing|]);
    unfold emit;
    match goal with |- context [emit_event false ?ev ?g s] =>
      destruct (emit_event_refines s ev g Hg (fresh_one _ _ _ _ _ _ _ Hd)) as (s1 & -> & Hw);
      destruct (emit_ref ev g (log_at s)) as [r es] eqn:Er
    end; simpl in Hw |- *; destruct r as [ev|err]; try (by exists es);
    destruct err; try (by exists es); destruct (write_guard wr); try (by exists es).
  apply emit_error_silent in Er as ->. pose proof (wr_text _ _ _ Hw) as Ht. simpl in Ht. rewrite app_nil_r in Ht.
  destruct (IH d w digest steps total art a wr s1 (wr_good _ _ _ Hw)) as [es2 H2]; [by rewrite Ht|].
  exists es2. destruct H2 as [G1 G2 G3 G4]. rewrite Ht in *. constructor; [done|done|done|].
  unfold log_at in *. unfold text_at in Ht. by rewrite Ht in G4.
Qed.

Lemma run_op_writes o d s :
  good s -> fresh_draws (text_at s) d -> durable_op o = true -> writes s (run_op o d s).
Proof.
  intros Hg Hd Ho. destruct o; unfold run_op;
    unfold createCandidate, promoteCandidate;
    try (by apply returning_emitWith); try (by apply returning_emitBatch); try (by apply emit_writes).
  - unfold recordPrLink. repeat (break_goal; try by apply writes_nothing). by apply returning_emitWith.
  - unfold recordPlan. repeat (break_goal; try by apply writes_nothing). by apply recordPlan_loop_writes.
  - unfold updateTask. repeat (break_goal; try by apply writes_nothing). by apply returning_emitWith.
  - unfold attachEvidence. repeat (break_goal; try by apply writes_nothing). by apply returning_emitWith.
  - unfold updateEntityStatus. repeat (break_goal; try by apply writes_nothing). by apply returning_emitWith.
  - unfold recordEvidence. simpl in Ho.
    match goal with |- context [emitBatch false d ?a ?wr ?b s] =>
      destruct (emitBatch_refines s d a wr b Hg Hd) as (s' & -> & Hw & _)
    end.
    match goal with |- context [batch_ref ?x ?y ?z ?b ?l] => destruct (batch_ref x y z b l) as [[r|err] es] end;
      simpl in Hw |- *; [|by exists es].
    destruct (nonempty workItemId), (nonempty candidateId); try done; by exists es.
Qed.

(** ** Processes sharing a log

    [w_procs] are the live processes, each with its own store and view. An
    operation is atomic because every append holds the file lock. A process may die
    while it writes: any number of bytes of its text reach the file. Not among the
    steps: opening the file in the middle of another process's write, which
    [EventStore.load] does not guard against by the lock, and recording evidence without
    a work item, which changes only the memory of the process ([durable_op]). *)
Record World := mkWorld { w_file : option text; w_procs : list (EventStore (E := LedgerEvent) * View) }.

Definition w_text (w : World) : text := file_text (w_file w).
Definition w_log (w : World) : list LedgerEvent := log_of (w_text w).

(** [Ledger.create]: load the file, then ingest every event read. *)
Definition create (file : option text) : EventStore (E := LedgerEvent) * View :=
  let (st, _) := load file tt in (st, replay (st_all st)).

Inductive wstep : World -> World -> Prop :=
| ws_open w : wstep w (mkWorld (w_file w) (w_procs w ++ [create (w_file w)]))
| ws_op w i st v o d file' st' v' :
    w_procs w !! i = Some (st, v) -> durable_op o = true -> fresh_draws (w_text w) d ->
    run_op o d (w_file w, st, v) = (file', st', v') ->
    wstep w (mkWorld file' (<[i := (st', v')]> (w_procs w)))
| ws_crash w i st v o d file' st' v' k :
    w_procs w !! i = Some (st, v) -> durable_op o = true -> fresh_draws (w_text w) d ->
    run_op o d (w_file w, st, v) = (file', st', v') ->
    (length (w_text w) <= k)%nat ->
    wstep w (mkWorld (Some (take k (file_text file'))) (delete i (w_procs w))).

Definition reachable (w : World) : Prop := rtc wstep (mkWorld None []) w.

(** The invariants of the log itself. *)
Record log_ok (log : list LedgerEvent) : Prop := {
  lo_ids : NoDup (map ev_id log);
  lo_keys : NoDup (keys_of log);
  lo_authority : forall scope, StronglySorted Z.le (generations scope log);
}.

Record world_ok (w : World) : Prop := {
  wo_procs : forall p, p ∈ w_procs w -> good (w_file w, fst p, snd p);
  wo_log : log_ok (w_log w);
}.

Lemma log_ok_event log e : log_ok log -> admissible_event log e -> ev_id e ∉ map ev_id log -> log_ok (log ++ [e]).
Proof.
  intros [H1 H2 H3] [A1 A2] Hf. constructor.
  - rewrite map_app. apply NoDup_app. split_and!; [done| |apply NoDup_singleton]. set_solver.
  - unfold keys_of. rewrite omap_app. simpl. destruct (live_key e) as [k|] eqn:Ek; [|by rewrite app_nil_r].
    apply NoDup_app. split_and!; [done| |apply NoDup_singleton]. intros x Hx Hc.
    apply list_elem_of_singleton in Hc as ->. by apply (A1 k).
  - intros s. rewrite generations_snoc. unfold in_scope.
    destruct (String.eqb_spec (scope_of (ev_work_item_id e)) s) as [<-|]; [|by rewrite app_nil_r].
    destruct (ev_authority e) as [g|] eqn:Ea; [|by rewrite app_nil_r].
    apply StronglySorted_snoc; [done|]. intros y Hy. by apply (A2 g).
Qed.

Lemma log_ok_app es : forall log,
  log_ok log -> admissible log es -> NoDup (map ev_id es) -> (forall e, e ∈ es -> ev_id e ∉ map ev_id log) ->
  log_ok (log ++ es).
Proof.
  induction es as [|e es IH]; intros log Hl Ha Hnd Hf; [by rewrite app_nil_r|].
  destruct Ha as [Ha Has]. simpl in Hnd. apply NoDup_cons in Hnd as [Hni Hnd].
  replace (log ++ e :: es) with ((log ++ [e]) ++ es) by by rewrite <- app_assoc.
  apply IH; [apply log_ok_event; [done|done|apply Hf; set_solver]|done|done|].
  intros e' He'. rewrite map_app, not_elem_of_app. split; [apply Hf; set_solver|]. simpl.
  rewrite list_elem_of_singleton. intros Hc. apply Hni. rewrite <- Hc. by apply list_elem_of_fmap_2.
Qed.

Lemma admissible_take n es : forall log, admissible log es -> admissible log (take n es).
Proof.
  revert n. induction es as [|e es IH]; intros [|n] log; simpl; try done. intros [H1 H2]. split; [done|]. by apply IH.
Qed.

Lemma fresh_take f n (es : list LedgerEvent) : fresh_for f es -> fresh_for f (take n es).
Proof.
  intros [H1 H2]. split.
  - rewrite <- (take_drop n es), map_app, NoDup_app in H1. apply H1.
  - intros e He. apply H2. rewrite <- (take_drop n es). set_solver.
Qed.

Lemma log_ok_wrote f es n :
  log_ok (log_of f) -> fresh_for f es -> admissible (log_of f) es -> log_ok (log_of f ++ take n es).
Proof.
  intros Hl Hf Ha. destruct (fresh_take f n es Hf) as [F1 F2].
  apply log_ok_app; [done|by apply admissible_take|done|done].
Qed.

Lemma good_grow file st v s : good (file, st, v) -> seam (file_text file) s -> good (Some (file_text file ++ s), st, v).
Proof. intros [H1 H2] Hs. split; [|done]. simpl. by apply synced_grow. Qed.

Lemma create_good file : good (file, fst (create file), snd (create file)).
Proof.
  unfold create. destruct file as [f|].
  - destruct (load_synced f tt) as (st & -> & Hs & _). by split.
  - split; [|done]. simpl. constructor; [done|done|by intros i|done|by left].
Qed.

Lemma wrote_seam s s' es : wrote s s' es -> exists t, text_at s' = text_at s ++ t /\ seam (text_at s) t.
Proof.
  intros [_ H2 _ _]. eexists. split; [exact H2|]. destruct (decide (es = [])); [right; by left|]. apply seam_full.
Qed.

(** Cutting the text of a write anywhere still continues the log admissibly. *)
Lemma wrote_torn s s' es k :
  wrote s s' es -> (length (text_at s) <= k)%nat ->
  exists t n, take k (text_at s') = text_at s ++ t /\ seam (text_at s) t /\ log_of (text_at s ++ t) = log_at s ++ take n es.
Proof.
  intros [_ H2 H3 _] Hk. rewrite H2. replace k with (length (text_at s) + (k - length (text_at s)))%nat by lia.
  rewrite take_app_add. destruct (decide (es = [])) as [->|Hne].
  - exists [], 0%nat. rewrite take_nil, !app_nil_r. split_and!; [done|right; by left|done].
  - destruct (log_of_torn (text_at s) es (k - length (text_at s)) H3) as [n Hn].
    eexists _, n. split; [reflexivity|]. split; [apply seam_append_text|exact Hn].
Qed.

Lemma others_good (ps : list (EventStore (E := LedgerEvent) * View)) file s :
  (forall p, p ∈ ps -> good (file, fst p, snd p)) -> seam (file_text file) s ->
  forall file', file_text file' = file_text file ++ s -> forall p, p ∈ ps -> good (file', fst p, snd p).
Proof.
  intros H Hs file' Hf p Hp. destruct (good_grow _ _ _ s (H p Hp) Hs) as [G1 G2]. split; [|done].
  simpl in G1. by rewrite Hf.
Qed.

Lemma wstep_ok w w' : wstep w w' -> world_ok w -> world_ok w' /\ exists es, w_log w' = w_log w ++ es.
Proof.
  intros Hstep [Hp Hl]. destruct Hstep as [w|w i st v o d file' st' v' Hi Ho Hd Hr|w i st v o d file' st' v' k Hi Ho Hd Hr Hk].
  - split; [|exists []; by rewrite app_nil_r]. constructor; [|done]. simpl. intros p Hin.
    apply elem_of_app in Hin as [Hin|Hin]; [by apply Hp|]. apply list_elem_of_singleton in Hin as ->. apply create_good.
  - assert (Hg : good (w_file w, st, v)) by (apply (Hp (st, v)); by apply list_elem_of_lookup_2 in Hi).
    destruct (run_op_writes o d _ Hg Hd Ho) as [es Hw]. rewrite Hr in Hw.
    pose proof (wrote_log _ _ _ Hw) as Hlog. destruct (wrote_seam _ _ _ Hw) as (t & Ht & Hs).
    split; [|exists es; exact Hlog]. constructor; simpl.
    + intros p Hin. apply list_elem_of_lookup_1 in Hin as [j Hj]. apply list_lookup_insert_Some in Hj as [(-> & <- & _)|[_ Hj]].
      * apply Hw.
      * apply (others_good (w_procs w) (w_file w) t Hp Hs); [done|by apply list_elem_of_lookup_2 in Hj].
    + unfold w_log, w_text. simpl. change (log_ok (log_at (file', st', v'))). rewrite Hlog.
      rewrite <- (firstn_all es). apply log_ok_wrote; [done|apply Hw|apply Hw].
  - assert (Hg : good (w_file w, st, v)) by (apply (Hp (st, v)); by apply list_elem_of_lookup_2 in Hi).
    destruct (run_op_writes o d _ Hg Hd Ho) as [es Hw]. rewrite Hr in Hw.
    destruct (wrote_torn _ _ _ k Hw Hk) as (t & n & Ht & Hs & Hlog).
    unfold w_log, w_text, text_at, log_at in *. simpl in *.
    split; [|exists (take n es); by rewrite Ht]. constructor; unfold w_log, w_text; simpl.
    + intros p Hin. apply (others_good (w_procs w) (w_file w) t Hp Hs (Some (take k (file_text file')))); [done|].
      apply list_elem_of_lookup_1 in Hin as [j Hj]. rewrite list_lookup_delete in Hj. break_match.
      all: by apply list_elem_of_lookup_2 in Hj.
    + rewrite Ht, Hlog. apply log_ok_wrote; [done|apply Hw|apply Hw].
Qed.

Lemma reachable_ok w : reachable w -> world_ok w.
Proof.
  intros Hr. unfold reachable in Hr.
  assert (H0 : world_ok (mkWorld None [])).
  { constructor; [set_solver|]. constructor; [constructor|constructor|intros; constructor]. }
  revert H0. induction Hr as [w|w1 w2 w3 Hs _ IH]; [done|]. intros H1. apply IH. by apply (wstep_ok w1).
Qed.

(** ** What the ledger promises *)

(** C1: in every state that any number of processes sharing a log file reach by opening it
    between writes and by operations that append to it (recording evidence without a work
    item, which changes only memory, is not one), crashes mid-write included, each process's
    view is exactly the replay of a prefix of the log, the prefix it has read; and a process
    that opens the file now sees the replay of the whole log. *)
Theorem ledger_views_replay_log w :
  reachable w ->
  (forall st v, (st, v) ∈ w_procs w ->
     exists n, st_events st = take n (w_log w) /\ v = replay (take n (w_log w))) /\
  snd (create (w_file w)) = replay (w_log w).
Proof.
  intros Hr. destruct (reachable_ok w Hr) as [Hp _]. split.
  - intros st v Hin. destruct (Hp _ Hin) as [Hs Hv]. simpl in Hs, Hv. exists (length (st_events st)).
    unfold w_log, w_text. rewrite (synced_prefix _ _ Hs). rewrite take_app_length. split; [done|exact Hv].
  - unfold create, w_log, w_text. destruct (w_file w) as [f|]; [|done].
    destruct (load_synced f tt) as (st & -> & Hs & Ho). simpl. unfold st_all.
    by rewrite (sy_events _ _ Hs), Ho, firstn_all.
Qed.

(** C13: integrity of the shared log: event ids are distinct, an idempotency key
    is recorded at most once across all processes, the authority generations of
    each work item never decrease along the log (a fenced-off owner cannot write
    after its successor), and no later step, crashes included, removes or
    reorders an event. *)
Theorem ledger_log_integrity w :
  reachable w ->
  NoDup (map ev_id (w_log w)) /\ NoDup (keys_of (w_log w)) /\
  (forall scope, StronglySorted Z.le (generations scope (w_log w))) /\
  forall w', rtc wstep w w' -> w_log w `prefix_of` w_log w'.
Proof.
  intros Hr. pose proof (reachable_ok w Hr) as Hok. destruct Hok as [Hp [H1 H2 H3]].
  split_and!; [done..|]. intros w' Hw'. assert (Hok : world_ok w) by done. clear -Hw' Hok.
  induction Hw' as [w|w1 w2 w3 Hs _ IH]; [done|]. destruct (wstep_ok _ _ Hs Hok) as [Hok2 [es He]].
  transitivity (w_log w2); [by exists es|by apply IH].
Qed.

(** C2: refinement: whatever a process has read so far, one [emit] by it behaves
    as the atomic specification [emit_ref] on the log all processes share: same
    result, and the log grows by exactly the events the specification writes. *)
Theorem emit_refines_log w i st v d n body workItemId actor meta g :
  reachable w -> w_procs w !! i = Some (st, v) -> fresh_draws (w_text w) d ->
  let event := makeEvent d n body workItemId actor meta in
  exists file' st' v',
    emit false d n body workItemId actor meta g (w_file w, st, v) = ((file', st', v'), fst (emit_ref event g (w_log w))) /\
    log_of (file_text file') = w_log w ++ snd (emit_ref event g (w_log w)) /\
    v' = replay (st_events st').
Proof.
  intros Hr Hi Hd event. destruct (reachable_ok w Hr) as [Hp _].
  assert (Hg : good (w_file w, st, v)) by (apply (Hp (st, v)); by apply list_elem_of_lookup_2 in Hi).
  destruct (emit_event_refines _ event g Hg) as ([[file' st'] v'] & He & Hw); [by apply fresh_one|].
  exists file', st', v'. split; [exact He|]. split; [exact (wrote_log _ _ _ Hw)|apply Hw].
Qed.

Definition guard_revision (g : option AppendGuard) : option Z :=
  match g with Some g => expected_revision g | None => None end.

(** The highest generation recorded; below 0 counts as 0. *)
Lemma fold_opt_max_highest l a : l <> [] -> foldl opt_max a l = Some (foldl Z.max (nullish a 0) l).
Proof.
  revert a. induction l as [|x l IH]; intros a Hl; [done|]. simpl. destruct l as [|y l]; [done|]. by rewrite IH.
Qed.

(** The revision a guard asks for, when it is not the actual one. *)
Definition stale_guard (g : option AppendGuard) (n : Z) : option Z :=
  match guard_revision g with Some r => if r =? n then None else Some r | None => None end.

Lemma emit_ref_new_key event g log :
  (forall k, live_key event = Some k -> k ∉ keys_of log) ->
  let w := ev_work_item_id event in
  emit_ref event g log =
  match stale_guard g (js_len (events_in (scope_of w) log)) with
  | Some r => (Err (LedgerRevisionConflictError w r (js_len (events_in (scope_of w) log))), [])
  | None =>
      match ev_authority event, foldl opt_max None (generations (scope_of w) log) with
      | Some gen, Some cur => if gen <? cur then (Err (LedgerAuthorityStaleError w gen cur), []) else (Ok event, [event])
      | _, _ => (Ok event, [event])
      end
  end.
Proof.
  intros Hk w. unfold emit_ref.
  assert (E : forall A (x : A) (f : LedgerEvent -> A), match live_key event with Some k => match map_get k (v_byIdempotencyKey (replay log)) with Some prior => f prior | None => x end | None => x end = x).
  { intros A x f. destruct (live_key event) as [k|]; [|done]. pose proof (key_index log k) as Hi. unfold map_has in Hi.
    destruct (map_get k _); [|done]. symmetry in Hi. apply js_includes_true in Hi. by destruct (Hk k eq_refl). }
  rewrite E. unfold assertFences, stale_guard, guard_revision. fold w.
  rewrite revision_count, authority_fold. destruct g as [[ [r|] ] | ]; simpl; [destruct (r =? _); [|done]| |];
    (destruct (ev_authority event) as [gen|]; [|done]); (destruct (foldl _ _ _) as [cur|]; [|done]);
    by destruct (gen <? cur).
Qed.

(** C30: the idempotency key and the two fences, exactly. An event whose key the log
    already records is answered by comparison with the recorded event, and nothing is
    written. An event without a key, or with a new one, is refused with the actual
    revision when the writer's expected revision is not the number of events the log
    holds for its work item; otherwise it is refused, with the highest generation
    recorded there, when its authority generation is below that (generations below 0
    count as 0); a refused event leaves the file unchanged; and with both fences
    satisfied it is appended. *)
Theorem fenced_append s event g :
  good s -> fresh_for (text_at s) [event] ->
  let w := ev_work_item_id event in
  let n := js_len (events_in (scope_of w) (log_at s)) in
  let gens := generations (scope_of w) (log_at s) in
  let highest := foldl Z.max 0 gens in
  exists s' r, emit_event false event g s = (s', r) /\
    (forall k prior, live_key event = Some k -> map_get k (v_byIdempotencyKey (replay (log_at s))) = Some prior ->
       r = sameRequest prior event /\ text_at s' = text_at s) /\
    ((forall k, live_key event = Some k -> k ∉ keys_of (log_at s)) ->
      (forall x, guard_revision g = Some x -> x <> n ->
         r = Err (LedgerRevisionConflictError w x n) /\ text_at s' = text_at s) /\
      ((forall x, guard_revision g = Some x -> x = n) -> forall gen, ev_authority event = Some gen -> gens <> [] -> gen < highest ->
         r = Err (LedgerAuthorityStaleError w gen highest) /\ text_at s' = text_at s) /\
      ((forall x, guard_revision g = Some x -> x = n) ->
       (forall gen, ev_authority event = Some gen -> gens = [] \/ highest <= gen) ->
         r = Ok event /\ log_at s' = log_at s ++ [event])).
Proof.
  intros Hg Hf w n gens highest. destruct (emit_event_refines s event g Hg Hf) as (s' & He & Hw).
  exists s', (fst (emit_ref event g (log_at s))). split; [done|].
  pose proof (wr_text _ _ _ Hw) as Ht. pose proof (wrote_log _ _ _ Hw) as Hl. split.
  { intros k prior Hk Hp. unfold emit_ref in *. rewrite Hk, Hp in *. simpl in *. by rewrite app_nil_r in Ht. }
  intros Hk. pose proof (emit_ref_new_key event g (log_at s) Hk) as Hr. cbv zeta in Hr. fold w in Hr. fold n gens in Hr.
  rewrite Hr in Ht, Hl |- *. clear Hr He Hw.
  assert (Hok : (forall x, guard_revision g = Some x -> x = n) -> stale_guard g n = None).
  { intros H. unfold stale_guard. destruct (guard_revision g) as [r|]; [|done]. by rewrite (H r eq_refl), Z.eqb_refl. }
  split_and!.
  - intros x Hx Hne. assert (Hs : stale_guard g n = Some x).
    { unfold stale_guard. rewrite Hx. by rewrite (proj2 (Z.eqb_neq _ _)). }
    rewrite Hs in *. simpl in *. rewrite app_nil_r in Ht. done.
  - intros H gen Ha Hne Hlt. rewrite (Hok H), Ha, (fold_opt_max_highest gens None Hne) in *. simpl nullish in *. fold highest in Ht, Hl |- *.
    rewrite (proj2 (Z.ltb_lt gen highest)) in * by lia. simpl in *. rewrite app_nil_r in Ht. done.
  - intros H Ha. rewrite (Hok H) in *. destruct (ev_authority event) as [gen|]; [|done].
    destruct (decide (gens = [])) as [E|Hne]; [by rewrite E in *|]. rewrite (fold_opt_max_highest gens None Hne) in *. simpl nullish in *. fold highest in Ht, Hl |- *.
    destruct (Ha gen eq_refl) as [?|Hle]; [done|]. by rewrite (proj2 (Z.ltb_ge gen highest)) in *.
Qed.

Lemma index_fresh log e k :
  live_key e = Some k -> map_get k (v_byIdempotencyKey (replay log)) = None ->
  map_get k (v_byIdempotencyKey (replay (log ++ [e]))) = Some e.
Proof.
  intros Hk Hn. rewrite replay_snoc, ingest_keys. unfold index_key, map_has. rewrite Hk, Hn. simpl. apply map_get_set_eq.
Qed.

(** Retries are idempotent across processes and restarts: once a request
    with a key has been answered with event [p], the same request (same key, type
    and work item, possibly a new event id, time and guard) made later by any
    process is answered with [p] and writes nothing, even if a fence would now
    refuse it. *)
Theorem emit_idempotent s e1 g1 s1 p s2 e2 g2 k :
  good s -> fresh_for (text_at s) [e1] -> emit_event false e1 g1 s = (s1, Ok p) ->
  good s2 -> fresh_for (text_at s2) [e2] -> log_at s1 `prefix_of` log_at s2 ->
  live_key e1 = Some k -> live_key e2 = Some k ->
  type_of (ev_body e1) = type_of (ev_body e2) -> ev_work_item_id e1 = ev_work_item_id e2 ->
  exists s3, emit_event false e2 g2 s2 = (s3, Ok p) /\ text_at s3 = text_at s2.
Proof.
  intros Hg1 Hf1 He1 Hg2 Hf2 [more Hmore] Hk1 Hk2 Ht Hw.
  destruct (emit_event_refines s e1 g1 Hg1 Hf1) as (s1' & H1 & W1). rewrite He1 in H1.
  assert (s1' = s1) as -> by congruence. pose proof (wrote_log _ _ _ W1) as L1.
  assert (Hp : map_get k (v_byIdempotencyKey (replay (log_at s1))) = Some p /\ sameRequest p e2 = Ok p).
  { injection H1 as H1. rewrite L1. unfold emit_ref in *. rewrite Hk1 in *.
    destruct (map_get k (v_byIdempotencyKey (replay (log_at s)))) as [prior|] eqn:Eg.
    - simpl in *. unfold sameRequest in H1. rewrite app_nil_r. destruct (_ || _) eqn:Eo; [done|]. simplify_eq.
      split; [done|]. unfold sameRequest. rewrite <- Ht, <- Hw. by rewrite Eo.
    - destruct (assertFences e1 g1 _); simpl in *; simplify_eq. split; [by apply index_fresh|].
      unfold sameRequest. rewrite Ht, Hw, String.eqb_refl, bool_decide_eq_true_2 by done. done. }
  destruct Hp as [Hp1 Hp2]. apply (key_index_stable _ more) in Hp1. rewrite <- Hmore in Hp1.
  destruct (emit_event_refines s2 e2 g2 Hg2 Hf2) as (s3 & H3 & W3). unfold emit_ref in H3, W3.
  rewrite Hk2, Hp1 in H3, W3. exists s3. rewrite H3. simpl. rewrite Hp2. split; [done|].
  rewrite (wr_text _ _ _ W3). simpl. apply app_nil_r.
Qed.

(** C31: recording evidence never loses an update: however stale the process's
    view, after [recordEvidence] with a non-empty id of a candidate of the log and a non-empty
    work item (without one the code changes only memory) the
    candidate's evidence list is the one the log held, extended by the new id, and
    the evidence itself is retrievable. *)
Theorem recordEvidence_no_lost_update s d cid type tool command exitCode status summary artifacts trust wi actor c :
  good s -> fresh_draws (text_at s) d -> cid <> ""%string -> wi <> ""%string ->
  getCandidate cid (replay (log_at s)) = Some c ->
  exists s' ev,
    recordEvidence false d (Some cid) type tool command exitCode status summary artifacts trust (Some wi) actor None s
      = (s', Ok ev) /\
    view_of s' = replay (log_at s') /\
    option_map ca_evidence_ids (getCandidate cid (view_of s')) = Some (ca_evidence_ids c ++ [evd_id ev]) /\
    getEvidence (evd_id ev) (view_of s') = Some ev.
Proof.
  intros Hg Hd Hc Hw Hcand. unfold recordEvidence.
  set (ev := mkEvidence _ _ _ _ _ _ _ _ _ _ _ _).
  destruct (emitBatch_refines s d actor None (recordEvidence_build ev (Some cid) (Some wi)) Hg Hd) as (s' & -> & Hwr & Hcur).
  unfold batch_ref, emitBatch_prepare, recordEvidence_build, getCandidate in *.
  assert (Tc : nonempty (Some cid) = Some cid) by (unfold nonempty, drop_empty, truthy; by rewrite bool_decide_eq_false_2).
  assert (Tw : nonempty (Some wi) = Some wi) by (unfold nonempty, drop_empty, truthy; by rewrite bool_decide_eq_false_2).
  rewrite Tc, Tw, Hcand in *. simpl in Hwr |- *.
  rewrite !bool_decide_eq_true_2 in * by done. simpl in *.
  exists s', ev. pose proof (good_view s' (wr_good _ _ _ Hwr) Hcur) as Hv. split; [done|]. split; [done|].
  rewrite Hv, (wrote_log _ _ _ Hwr), replay_app. cbn [foldl].
  unfold ingest, track, apply, index_key. simpl. unfold apply_body, update. simpl. rewrite Hcand. simpl.
  rewrite map_get_set_eq. split; [done|]. unfold getEvidence. simpl. apply map_get_set_eq.
Qed.

(** A writer that has read the whole log is never told its own revision is stale. *)
Lemma own_revision_current s event r sc x y :
  good s -> current s -> ev_work_item_id event = Some r ->
  fst (emit_ref event (Some (mkGuard (Some (revision (Some r) (view_of s))))) (log_at s)) <>
    Err (LedgerRevisionConflictError sc x y).
Proof.
  intros Hg Hc Hw. rewrite (good_view s Hg Hc). unfold emit_ref, assertFences. rewrite Hw. simpl.
  rewrite Z.eqb_refl. unfold sameRequest. repeat break_goal; simpl; try congruence;
    repeat break_match; congruence.
Qed.

Lemma conflict_means_current s event g s' sc x y :
  good s -> fresh_for (text_at s) [event] ->
  emit_event false event g s = (s', Err (LedgerRevisionConflictError sc x y)) -> good s' /\ current s' /\ text_at s' = text_at s.
Proof.
  intros Hg Hf He. destruct (emit_append_refines s event g Hg Hf) as (s1 & H1 & W1 & C1).
  assert (Hs : emit_event false event g s = emit_append false event g s).
  { unfold emit_event in *. destruct (live_key event); [|done]. destruct (map_get _ _); [|done].
    unfold sameRequest in He. destruct (_ || _); simplify_eq. }
  rewrite Hs, H1 in He. injection He as -> He. destruct (emit_ref event g (log_at s)) as [r es] eqn:Er. simpl in *. subst r.
  apply emit_error_silent in Er as ->. split_and!; [apply W1|done|]. rewrite (wr_text _ _ _ W1). apply app_nil_r.
Qed.

(** Recording a plan without a caller's guard never fails on a revision
    race: a stale view is refused once, re-derived from the true tail of the log,
    and the next attempt's fence holds. *)
Theorem recordPlan_never_conflicts s d workItemId input art actor write sc x y :
  good s -> fresh_draws (text_at s) d -> write_guard write = None ->
  snd (recordPlan false d workItemId input art actor write s) <> Err (LedgerRevisionConflictError sc x y).
Proof.
  intros Hg Hd Hwr. unfold recordPlan. destruct (negb _); [done|]. destruct (_ =? 0)%nat; [done|].
  generalize (take MAX_PLAN_STEPS (cleanSteps (Some (jarr (map step_json input))))) as steps. intros steps.
  generalize (js_len (cleanSteps (Some (jarr (map step_json input))))) as total. intros total.
  generalize (planDigestOf steps) as digest. intros digest.
  replace MAX_PLAN_RETRIES with (S 99) by done. generalize 99%nat as m. intros m.
  assert (Hcur : forall n s, good s -> current s -> fresh_draws (text_at s) d ->
    snd (recordPlan_loop n false d workItemId digest steps total art actor write s) <> Err (LedgerRevisionConflictError sc x y)).
  { intros n s0 Hg0 Hc0 Hd0. destruct n; cbn [recordPlan_loop]; rewrite Hwr;
      (destruct (match latestPlan workItemId (view_of s0) with Some _ => _ | None => _ end); [done|]); unfold emit;
      match goal with |- context [emit_event false ?ev ?g s0] =>
        pose proof (own_revision_current s0 ev workItemId) as Hno;
        destruct (emit_event_refines s0 ev g Hg0 (fresh_one _ _ _ _ _ _ _ Hd0)) as (s1 & -> & _)
      end;
      destruct (fst _) as [ev|err] eqn:Er; [done| |done|]; destruct err; try done;
      exfalso; by eapply Hno. }
  cbn [recordPlan_loop]. rewrite Hwr.
  destruct (match latestPlan workItemId (view_of s) with Some _ => _ | None => _ end); [done|]. unfold emit.
  match goal with |- context [emit_event false ?ev ?g s] =>
    pose proof (conflict_means_current s ev g) as Hcc; destruct (emit_event false ev g s) as [s1 [e|err]] end; [done|].
  destruct err; try done.
  destruct (Hcc s1 _ _ _ Hg ltac:(by apply fresh_one) eq_refl) as (G1 & C1 & T1).
  apply (Hcur m s1 G1 C1). by rewrite T1.
Qed.
End Ledger.

(** ** A concrete system

    The codec is the one of LedgerCodec.v and the digest function keeps its input. *)
Definition sample_actor : Actor := mkActor actor_system None None None.
Definition sample_draws (run : string) : Draws :=
  mkDraws (fun n => run +:+ pretty n) (fun _ => "T"%string) (run +:+ "obj") "T"%string.
Definition state0 : astate (E := LedgerEvent) (L := View) := (None, emptyStore, emptyView).
Definition world0 : World := mkWorld None [create None].

Lemma string_app_inj_l p a b : p +:+ a = p +:+ b -> a = b.
Proof. induction p as [|c p IH]; [done|]. intros H. injection H as H. by apply IH. Qed.

Lemma log_at_text (s : astate (E := LedgerEvent) (L := View)) : log_of (text_at s) = log_at s.
Proof. done. Qed.

Lemma good0 : good state0.
Proof. split; [|done]. simpl. constructor; [done|done|by intros i|done|by left]. Qed.

Lemma sample_fresh run f :
  (forall n : nat, (run +:+ pretty n : string) ∉ map event_id (log_of (E := LedgerEvent) f)) -> fresh_draws f (sample_draws run).
Proof.
  intros H. split; [|exact H]. intros i j Hij. apply string_app_inj_l in Hij. by apply (inj pretty).
Qed.

Lemma fresh0 run : fresh_draws [] (sample_draws run).
Proof. apply sample_fresh. intros n. apply not_elem_of_nil. Qed.

Lemma reachable0 : reachable id world0.
Proof. unfold reachable. eapply rtc_l; [|apply rtc_refl]. exact (ws_open id (mkWorld None [])). Qed.

(** One process records a work item; a second process opens the log. *)
Definition sample_op : LedgerOp := op_createWorkItem "goal" risk_low [] sample_actor None.
Definition state1 : astate (E := LedgerEvent) (L := View) := run_op id sample_op (sample_draws "a") state0.
Definition world1 : World :=
  mkWorld (fst (fst state1)) [(snd (fst state1), snd state1); create (fst (fst state1))].

Lemma reachable1 : reachable id world1.
Proof.
  unfold reachable. eapply rtc_r; [eapply rtc_r; [exact reachable0|]|].
  - apply (ws_op id world0 0 emptyStore emptyView sample_op (sample_draws "a")
      (fst (fst state1)) (snd (fst state1)) (snd state1)); [reflexivity|reflexivity|apply fresh0|].
    change (w_file world0, emptyStore, emptyView) with state0. fold state1. by destruct state1 as [[? ?] ?].
  - exact (ws_open id _).
Qed.

Definition event1 : LedgerEvent :=
  makeEvent (sample_draws "a") 0
    (work_item_created (mkWorkItem "aobj" "goal" DEFINED risk_low [] "T" "T" None None None)) (Some "aobj"%string)
    sample_actor noMeta.

Lemma log1 : good state1 /\ log_at state1 = [event1].
Proof.
  destruct (emit_event_refines state0 event1 None good0) as (s' & H1 & H2); [by apply fresh_one, fresh0|].
  assert (Hs : state1 = s').
  { unfold state1, run_op, sample_op, createWorkItem, returning, emitWith, emit. simpl fst at 1.
    change (fst (emit_event false event1 None state0) = s'). by rewrite H1. }
  rewrite Hs. split; [apply H2|]. rewrite (wrote_log _ _ _ H2). done.
Qed.

Lemma fresh1 : fresh_draws (text_at state1) (sample_draws "b").
Proof.
  apply sample_fresh. intros n. rewrite (log_at_text state1), (proj2 log1).
  simpl. rewrite list_elem_of_singleton. intros Hc. discriminate Hc.
Qed.

Lemma ledger_views_replay_log_witness :
  (forall st v, (st, v) ∈ w_procs world1 ->
     exists n, st_events st = take n (w_log world1) /\ v = replay (take n (w_log world1))) /\
  snd (create (w_file world1)) = replay (w_log world1).
Proof. apply (ledger_views_replay_log id world1 reachable1). Defined.

Lemma ledger_log_integrity_witness :
  NoDup (map ev_id (w_log world1)) /\ NoDup (keys_of (w_log world1)) /\
  (forall scope, StronglySorted Z.le (generations scope (w_log world1))) /\
  forall w', rtc (wstep id) world1 w' -> w_log world1 `prefix_of` w_log w'.
Proof. apply (ledger_log_integrity id world1 reachable1). Defined.

Lemma emit_refines_log_witness :
  let event := makeEvent (sample_draws "a") 0 (candidate_promoted "c") None sample_actor noMeta in
  exists file' st' v',
    emit false (sample_draws "a") 0 (candidate_promoted "c") None sample_actor noMeta None (w_file world0, emptyStore, emptyView)
      = ((file', st', v'), fst (emit_ref event None (w_log world0))) /\
    log_of (file_text file') = w_log world0 ++ snd (emit_ref event None (w_log world0)) /\
    v' = replay (st_events st').
Proof.
  apply (emit_refines_log id world0 0 emptyStore emptyView (sample_draws "a") 0 (candidate_promoted "c") None
           sample_actor noMeta None reachable0 eq_refl (fresh0 "a")).
Defined.

Lemma fenced_append_witness :
  exists s' r, emit_event false event1 (Some (mkGuard (Some 7))) state0 = (s', r) /\
    r = Err (LedgerRevisionConflictError (Some "aobj"%string) 7 0) /\ text_at s' = text_at state0.
Proof.
  destruct (fenced_append state0 event1 (Some (mkGuard (Some 7))) good0 (fresh_one _ _ _ _ _ _ _ (fresh0 "a")))
    as (s' & r & H1 & _ & H2).
  exists s', r. split; [exact H1|]. apply (proj1 (H2 ltac:(discriminate)) 7); [reflexivity|]. vm_compute. discriminate.
Defined.

Definition keyed (n : nat) : LedgerEvent :=
  makeEvent (sample_draws "k") n (other_event "agent.started" []) None sample_actor
    (mkMeta None None None None None (Some "key"%string) None).
Definition state2 : astate (E := LedgerEvent) (L := View) := fst (emit_event false (keyed 0) None state0).

Lemma state2_eq : emit_event false (keyed 0) None state0 = (state2, Ok (keyed 0)) /\ good state2 /\ log_at state2 = [keyed 0].
Proof.
  destruct (emit_event_refines state0 (keyed 0) None good0) as (s' & H1 & H2); [by apply fresh_one, fresh0|].
  assert (Hs : state2 = s') by (unfold state2; by rewrite H1).
  rewrite Hs. split; [exact H1|]. split; [apply H2|]. rewrite (wrote_log _ _ _ H2). reflexivity.
Qed.

Lemma emit_idempotent_witness :
  exists s3, emit_event false (keyed 1) (Some (mkGuard (Some 9))) state2 = (s3, Ok (keyed 0)) /\ text_at s3 = text_at state2.
Proof.
  apply (emit_idempotent state0 (keyed 0) None state2 (keyed 0) state2 (keyed 1) (Some (mkGuard (Some 9))) "key"%string).
  - exact good0.
  - apply fresh_one, fresh0.
  - apply state2_eq.
  - apply state2_eq.
  - split; [apply NoDup_singleton|]. intros e He. apply list_elem_of_singleton in He as ->.
    rewrite (log_at_text state2), (proj2 (proj2 state2_eq)).
    simpl. rewrite list_elem_of_singleton. intros Hc. discriminate Hc.
  - reflexivity.
  - reflexivity.
  - reflexivity.
  - reflexivity.
  - reflexivity.
Defined.

Definition state3 : astate (E := LedgerEvent) (L := View) :=
  run_op id (op_createCandidate "aobj" "c0" "br" None "implementer" "r" None sample_actor None) (sample_draws "b") state1.
Definition candidate3 : Candidate :=
  mkCandidate "bobj" "aobj" None C_CREATED "c0" None None "br" None (Some "r"%string) "implementer" None None [] [] None "T".
Definition event3 (n : nat) : LedgerEvent :=
  makeEvent (sample_draws "b") n
    (match n with
     | 0%nat => candidate_created candidate3
     | _ => work_item_updated (mkWiPatch None None None None None None None (Some (Some "bobj"%string)) None None)
     end) (Some "aobj"%string) sample_actor noMeta.

Lemma log3 : good state3 /\ log_at state3 = [event1; event3 0; event3 1].
Proof.
  unfold state3, run_op, createCandidate, returning. cbn [fst].
  match goal with |- context [emitBatch false ?d ?a ?wr ?b state1] =>
    destruct (emitBatch_refines state1 d a wr b (proj1 log1) fresh1) as (s' & H1 & H2 & _) end.
  rewrite H1. cbn [fst]. split; [apply H2|]. rewrite (wrote_log _ _ _ H2), (proj2 log1). reflexivity.
Qed.

Lemma recordEvidence_no_lost_update_witness :
  exists s' ev,
    recordEvidence false (sample_draws "c") (Some "bobj"%string) "test" "vitest" None 0 ev_passed "" [] deterministic
      (Some "aobj"%string) sample_actor None state3 = (s', Ok ev) /\
    view_of s' = replay (log_at s') /\
    option_map ca_evidence_ids (getCandidate "bobj" (view_of s')) = Some ([] ++ [evd_id ev]) /\
    getEvidence (evd_id ev) (view_of s') = Some ev.
Proof.
  apply (recordEvidence_no_lost_update state3 (sample_draws "c") "bobj" "test" "vitest" None 0 ev_passed "" []
           deterministic "aobj" sample_actor candidate3).
  - apply log3.
  - apply sample_fresh. intros n. rewrite (log_at_text state3), (proj2 log3).
    simpl. rewrite !not_elem_of_cons. split_and!; [intros Hc; discriminate Hc..|apply not_elem_of_nil].
  - discriminate.
  - discriminate.
  - rewrite (proj2 log3). vm_compute. reflexivity.
Defined.

Lemma recordPlan_never_conflicts_witness :
  snd (recordPlan id false (sample_draws "b") "aobj" [mkStep "t" "title"] None sample_actor None state1)
    <> Err (LedgerRevisionConflictError None 0 0).
Proof.
  apply (recordPlan_never_conflicts id state1 (sample_draws "b") "aobj" [mkStep "t" "title"] None sample_actor None None 0 0
           (proj1 log1) fresh1 eq_refl).
Defined.
