(* ===== verification/Redact.v ===== *)
(** * Secret redaction (src/platform/redact.ts)

    The canonical table of secret shapes, [redactSecrets] on text and [redactDeep]
    on event payloads, with the patterns of the source run by [Regex]. *)

From S2P Require Import Prelude JsMap LedgerView Regex.

Open Scope string_scope.

Definition PLACEHOLDER : string := "[REDACTED]".

Inductive SecretKind := api_key | bearer | aws | private_key | generic.

(** A rule: the replacement is the placeholder, after group 1 where the source
    writes [$1], and before a fixed text. *)
Record SecretRule := mkRule {
  sr_kind : SecretKind;
  sr_pattern : regex;
  sr_keep_group : bool;
  sr_suffix : string
}.

Definition chars (s : string) : regex := RSet (one_of s).
Definition dquote : ascii := ascii_of_N 34.
Definition backslash : ascii := ascii_of_N 92.
Definition one_char (c : ascii) : cset := fun d => bool_decide (d = c).
Definition either_quote : cset := cunion (one_char dquote) (one_of "'").
(** [.]: any character but a line terminator. *)
Definition dot : cset := cneg (cunion (one_char (ascii_of_N 10)) (one_char (ascii_of_N 13))).
Definition blank : cset := cunion (one_of " ") (one_char (ascii_of_N 9)).
Definition token_char : cset := cunion alnum (one_of "_-").
Definition name_char : cset := cunion alnum (one_of "_.-").
Definition credential_char : cset := cunion alnum (one_of "._~+/=-").
Definition schemes : regex := alts [lit_i "Bearer"; lit_i "Basic"].
Definition userinfo : regex := plus (RSet (cneg (cunion is_space (one_of "/@")))).

Definition SECRET_RULES : list SecretRule := [
  mkRule private_key
    (lit "-----BEGIN " · star (RSet (cunion upper (one_of " "))) · lit "PRIVATE KEY-----"
     · RStar false (RSet (fun _ => true))
     · lit "-----END " · star (RSet (cunion upper (one_of " "))) · lit "PRIVATE KEY-----")%re false "";
  mkRule generic
    (RWord · RGroup 1 (RSet letter · star (RSet (cunion alnum (one_of "+.-"))) · lit "://")
     · userinfo · lit ":" · userinfo · lit "@")%re true "@";
  mkRule api_key (RWord · RGroup 1 (lit "gh" · chars "pousr" · lit "_" · at_least 16 (RSet alnum)))%re false "";
  mkRule api_key (RWord · lit "sk-" · at_least 12 (RSet token_char))%re false "";
  mkRule api_key (RWord · lit "xox" · chars "baprs" · lit "-" · at_least 10 (RSet (cunion alnum (one_of "-"))))%re false "";
  mkRule aws (RWord · lit "AKIA" · times 16 (RSet (cunion digit upper)) · RWord)%re false "";
  mkRule generic
    (RWord · lit "eyJ" · at_least 8 (RSet token_char) · lit "." · at_least 8 (RSet token_char)
     · lit "." · at_least 8 (RSet token_char))%re false "";
  mkRule api_key (RWord · lit "AIza" · times 35 (RSet token_char) · RAhead true (RSet token_char))%re false "";
  mkRule bearer (RWord · RGroup 1 (schemes · plus (RSet blank)) · plus (RSet credential_char))%re true ""
].

Definition SECRET_NAME : regex :=
  let sep := RSet (one_of "_-") in
  alts [lit_i "key";
    (star (RSet name_char) · alts
      [lit_i "api" · opt sep · lit_i "key"; lit_i "access" · opt sep · lit_i "key";
       lit_i "private" · opt sep · lit_i "key"; sep · lit_i "key";
       lit_i "secret"; lit_i "password"; lit_i "passwd"; lit_i "token"; lit_i "credential"; lit_i "authorization"])%re].

(** A quoted value, with escaped characters. *)
Definition quoted (q : ascii) : regex :=
  (RSet (one_char q)
   · star (alts [RSet (one_char backslash) · RSet dot; RSet (cneg (cunion (one_char q) (one_char backslash)))])
   · RSet (one_char q))%re.

(** The lookahead that ends a bare value: a comma or semicolon before white space,
    the end of the text or another assignment. *)
Definition field_end : regex :=
  (RSet (one_of ",;") · alts
    [RSet is_space; REnd;
     opt (RSet either_quote) · plus (RSet name_char) · opt (RSet either_quote) · star (RSet blank) · RSet (one_of ":=")])%re.

Definition ASSIGNMENT : regex :=
  (RBehind true name_char
   · RGroup 1 (alts [RSet either_quote · SECRET_NAME · RSet either_quote; SECRET_NAME])
   · RGroup 2 (star (RSet blank) · RSet (one_of ":=") · star (RSet blank)
       · opt (opt (RSet (one_char (ascii_of_N 13))) · RSet (one_char (ascii_of_N 10)) · star (RSet blank)
              · RAhead false (RSet either_quote)))
   · RGroup 3 (alts
       [schemes · plus (RSet blank) · alts [plus (RSet credential_char); lit PLACEHOLDER];
        quoted dquote; quoted "'";
        plus (RAhead true field_end · RSet (cneg is_space))]))%re.

Definition group (n : nat) (gs : jsmap nat string) : string := nullish (map_get n gs) "".

Definition apply_rule (out : string) (r : SecretRule) : string :=
  replace_all (sr_pattern r)
    (fun _ gs => (if sr_keep_group r then group 1 gs else "") +:+ PLACEHOLDER +:+ sr_suffix r) out.

(** The replacement of an assignment: the name, the separator, the quotes and the
    scheme stay, the value goes. *)
Definition redact_assignment (_ : string) (gs : jsmap nat string) : string :=
  let value := group 3 gs in
  let quote := if js_startsWith value (String dquote "") then String dquote ""
               else if js_startsWith value "'" then "'" else "" in
  let scheme := match exec (RBegin · schemes · plus (RSet blank))%re value with
                | Some (p, u) => text p u
                | None => ""
                end in
  group 1 gs +:+ group 2 gs +:+ quote +:+ scheme +:+ PLACEHOLDER +:+ quote.

Definition redactSecrets (t : string) : string :=
  if negb (truthy t) then t
  else replace_all ASSIGNMENT redact_assignment (foldl apply_rule t SECRET_RULES).

Fixpoint redactDeep (depth : nat) (value : json) {struct value} : json :=
  if (12 <? depth)%nat then value
  else match value with
       | jstr s => jstr (redactSecrets s)
       | jarr l => jarr (map (redactDeep (S depth)) l)
       | jobj o => jobj (map (fun kv : string * json => (fst kv, redactDeep (S depth) (snd kv))) o)
       | _ => value
       end.

(** * Properties *)

(** The place of a value inside a structure. *)
Inductive place := element (i : nat) | member (k : string).
Definition child (p : place) (v : json) : option json :=
  match p, v with
  | element i, jarr l => l !! i
  | member k, jobj o => map_get k o
  | _, _ => None
  end.
Fixpoint at_place (p : list place) (v : json) : option json :=
  match p with
  | [] => Some v
  | s :: p' => child s v ≫= at_place p'
  end.

Lemma child_redact s d v :
  (d <= 12)%nat -> child s (redactDeep d v) = redactDeep (S d) <$> child s v.
Proof.
  intros Hd. destruct v as [| | | |l|o]; simpl; destruct (Nat.ltb_spec 12 d); try lia; destruct s as [i|k]; simpl; try done.
  - apply list_lookup_fmap.
  - apply map_get_values.
Qed.

(** Below the depth bound nothing is touched. *)
Lemma redactDeep_deep d v : (12 < d)%nat -> redactDeep d v = v.
Proof. intros Hd. destruct v; simpl; destruct (Nat.ltb_spec 12 d); done || lia. Qed.

Lemma redactDeep_at p : forall d v x, at_place p v = Some x ->
  at_place p (redactDeep d v) = Some (if (d + length p <=? 12)%nat then redactDeep (d + length p) x else x).
Proof.
  induction p as [|s p IH]; intros d v x Hx; simpl in Hx |- *.
  - simplify_eq. rewrite Nat.add_0_r. destruct (Nat.leb_spec d 12); [done|]. by rewrite redactDeep_deep.
  - destruct (child s v) as [c|] eqn:Ec; [|done]. simpl in Hx.
    destruct (decide (d <= 12)%nat) as [Hd|Hd].
    + rewrite child_redact, Ec by done. simpl. rewrite (IH (S d) c x Hx). by rewrite Nat.add_succ_r.
    + rewrite redactDeep_deep, Ec by lia. simpl. rewrite Hx. by destruct (Nat.leb_spec (d + S (length p)) 12); [lia|].
Qed.

(** Redaction of a structure reaches exactly the strings that are at most twelve
    levels down: each such string is replaced by its redacted form where it stands,
    every other value, and every string deeper than that, is kept as it is. *)
Theorem redactDeep_exact p v x :
  at_place p v = Some x ->
  match x with
  | jarr _ | jobj _ => True
  | jstr s => at_place p (redactDeep 0 v) = Some (jstr (if (length p <=? 12)%nat then redactSecrets s else s))
  | _ => at_place p (redactDeep 0 v) = Some x
  end.
Proof.
  intros Hx. rewrite (redactDeep_at p 0 v x Hx), Nat.add_0_l.
  destruct x; try done; destruct (Nat.leb_spec (length p) 12); try done;
    simpl; destruct (Nat.ltb_spec 12 (length p)); done || lia.
Qed.

(** Text without a secret shape is kept: if no rule and no assignment of the table
    matches anywhere in it, redaction is the identity on it. *)
Lemma redactSecrets_clean t :
  js_every (fun r => negb (test (sr_pattern r) t)) SECRET_RULES = true -> test ASSIGNMENT t = false ->
  redactSecrets t = t.
Proof.
  intros Hr Ha. unfold redactSecrets. destruct (truthy t); [|done].
  replace (foldl apply_rule t SECRET_RULES) with t; [by apply replace_all_none|].
  symmetry. revert Hr. generalize SECRET_RULES as rs. intros rs. induction rs as [|r rs IH]; intros Hr; [done|].
  cbn [js_every forallb] in Hr. apply andb_true_iff in Hr as [H1 H2]. rewrite negb_true_iff in H1.
  simpl. unfold apply_rule at 2. rewrite replace_all_none by done. by apply IH.
Qed.

(** A token keeps its shape behind an underscore: [_] is a word character, so the
    word boundary in front of a token's prefix does not hold there. *)
Theorem underscored_token_leaks :
  redactSecrets "deploy ghp_0123456789abcdef" = "deploy [REDACTED]" /\
  redactSecrets "deploy_ghp_0123456789abcdef" = "deploy_ghp_0123456789abcdef".
Proof. split; vm_compute; reflexivity. Qed.

Fixpoint nest (n : nat) (v : json) : json := match n with O => v | S n' => jobj [("a", nest n' v)] end.

Lemma redactDeep_exact_witness :
  at_place (repeat (member "a") 12) (redactDeep 0 (nest 12 (jstr "token=abc"))) = Some (jstr "token=[REDACTED]") /\
  at_place (repeat (member "a") 13) (redactDeep 0 (nest 13 (jstr "token=abc"))) = Some (jstr "token=abc").
Proof.
  split.
  - exact (redactDeep_exact (repeat (member "a") 12) (nest 12 (jstr "token=abc")) (jstr "token=abc") eq_refl).
  - exact (redactDeep_exact (repeat (member "a") 13) (nest 13 (jstr "token=abc")) (jstr "token=abc") eq_refl).
Defined.
