(* ===== verification/WorkGraph.v ===== *)
(** * The work graph (src/platform/WorkGraph.ts, src/platform/types.ts)

    Runs and workers with their life cycle, the chain of event writes behind every
    transition ([emit], [flush]), and the reconstruction of the graph from the
    stored events ([rebuild], [replay]). Payloads are JSON objects, redacted before
    they are appended and read back through the casts of the source: a payload
    without the shape of its cast is skipped. The lineage hooks are observational
    and are left out. Clock readings and fresh ids are arguments; an operation reads
    the clock once for the entity and once for the event. *)

From Stdlib Require Import QArith.
From S2P Require Import Prelude JsMap LedgerView Regex Redact.

Open Scope string_scope.
Open Scope Z_scope.

(** ** Entities *)

Inductive RunStatus := PENDING | PLANNING | RUN_RUNNING | RUN_WAITING | RUN_COMPLETED | RUN_FAILED | RUN_CANCELLED.
Inductive WorkerStatus :=
  | IDLE | BOOTSTRAPPING | W_RUNNING | W_BLOCKED | W_WAITING | W_COMPLETED | W_FAILED | W_CANCELLED | RECOVERING.

Record ApprovalRecord := mkApproval {
  ap_mode : string;
  ap_decision : string;
  ap_externalDecisionId : option string;
  ap_planRef : option string;
  ap_approvedBy : option string;
  ap_reason : option string;
  ap_annotations : list string;
  ap_decided_at : string
}.

Record Run := mkRun {
  run_id : string;
  run_projectId : string;
  run_workItemId : option string;
  run_goal : string;
  run_status : RunStatus;
  run_parentRunId : option string;
  run_started_at : string;
  run_finished_at : option string;
  run_approval : option ApprovalRecord
}.

Record WorkerLimits := mkLimits { maxTokens : Z; maxAttempts : Z; timeoutMs : Z; maxTools : Z }.

Record Worker := mkWorker {
  w_id : string;
  w_runId : option string;
  w_projectId : string;
  w_role : string;
  w_status : WorkerStatus;
  w_model : option string;
  w_worktree : option string;
  w_parentWorkerId : option string;
  w_limits : WorkerLimits;
  w_host : string;
  w_remote : bool;
  w_created_at : string;
  w_updated_at : string;
  w_heartbeat_at : option string;
  w_generation : Z
}.

Definition DEFAULT_LIMITS : WorkerLimits := mkLimits 40000 3 600000 200.

#[export] Instance run_status_eq_dec : EqDecision RunStatus.
Proof. solve_decision. Defined.
#[export] Instance worker_status_eq_dec : EqDecision WorkerStatus.
Proof. solve_decision. Defined.

(** ** The JSON of a payload *)

Definition run_status_name (s : RunStatus) : string :=
  match s with
  | PENDING => "PENDING" | PLANNING => "PLANNING" | RUN_RUNNING => "RUNNING" | RUN_WAITING => "WAITING"
  | RUN_COMPLETED => "COMPLETED" | RUN_FAILED => "FAILED" | RUN_CANCELLED => "CANCELLED"
  end.
Definition worker_status_name (s : WorkerStatus) : string :=
  match s with
  | IDLE => "IDLE" | BOOTSTRAPPING => "BOOTSTRAPPING" | W_RUNNING => "RUNNING" | W_BLOCKED => "BLOCKED"
  | W_WAITING => "WAITING" | W_COMPLETED => "COMPLETED" | W_FAILED => "FAILED" | W_CANCELLED => "CANCELLED"
  | RECOVERING => "RECOVERING"
  end.
Definition run_statuses : list RunStatus :=
  [PENDING; PLANNING; RUN_RUNNING; RUN_WAITING; RUN_COMPLETED; RUN_FAILED; RUN_CANCELLED].
Definition worker_statuses : list WorkerStatus :=
  [IDLE; BOOTSTRAPPING; W_RUNNING; W_BLOCKED; W_WAITING; W_COMPLETED; W_FAILED; W_CANCELLED; RECOVERING].
Definition run_status_of (s : string) : option RunStatus :=
  js_find (fun x => bool_decide (run_status_name x = s)) run_statuses.
Definition worker_status_of (s : string) : option WorkerStatus :=
  js_find (fun x => bool_decide (worker_status_name x = s)) worker_statuses.

Definition jopt (o : option string) : json := match o with Some s => jstr s | None => jnull end.
Definition jint (n : Z) : json := jnum (inject_Z n).

Definition approval_json (a : ApprovalRecord) : json := jobj [
  ("mode", jstr (ap_mode a)); ("decision", jstr (ap_decision a));
  ("externalDecisionId", jopt (ap_externalDecisionId a)); ("planRef", jopt (ap_planRef a));
  ("approvedBy", jopt (ap_approvedBy a)); ("reason", jopt (ap_reason a));
  ("annotations", jarr (map jstr (ap_annotations a))); ("decided_at", jstr (ap_decided_at a))].

Definition run_json (r : Run) : json := jobj [
  ("id", jstr (run_id r)); ("projectId", jstr (run_projectId r)); ("workItemId", jopt (run_workItemId r));
  ("goal", jstr (run_goal r)); ("status", jstr (run_status_name (run_status r)));
  ("parentRunId", jopt (run_parentRunId r)); ("started_at", jstr (run_started_at r));
  ("finished_at", jopt (run_finished_at r));
  ("approval", match run_approval r with Some a => approval_json a | None => jnull end)].

Definition worker_json (w : Worker) : json := jobj [
  ("id", jstr (w_id w)); ("runId", jopt (w_runId w)); ("projectId", jstr (w_projectId w)); ("role", jstr (w_role w));
  ("status", jstr (worker_status_name (w_status w))); ("model", jopt (w_model w)); ("worktree", jopt (w_worktree w));
  ("parentWorkerId", jopt (w_parentWorkerId w));
  ("limits", jobj [("maxTokens", jint (maxTokens (w_limits w))); ("maxAttempts", jint (maxAttempts (w_limits w)));
                   ("timeoutMs", jint (timeoutMs (w_limits w))); ("maxTools", jint (maxTools (w_limits w)))]);
  ("location", jobj [("host", jstr (w_host w)); ("remote", jbool (w_remote w))]);
  ("created_at", jstr (w_created_at w)); ("updated_at", jstr (w_updated_at w));
  ("heartbeat_at", jopt (w_heartbeat_at w)); ("generation", jint (w_generation w))].

(** The casts: typed reads of a JSON object. *)
Definition get (k : string) (v : json) : option json := match v with jobj o => field k o | _ => None end.
Definition get_str (k : string) (v : json) : option string := as_string (get k v).
Definition get_opt (k : string) (v : json) : option (option string) :=
  match get k v with Some (jstr s) => Some (Some s) | Some jnull => Some None | _ => None end.
Definition get_int (k : string) (v : json) : option Z := as_number (get k v) ≫= as_integer.
Definition get_bool (k : string) (v : json) : option bool := match get k v with Some (jbool b) => Some b | _ => None end.
Definition get_strs (k : string) (v : json) : option (list string) :=
  match get k v with Some (jarr l) => mapM (fun x => as_string (Some x)) l | _ => None end.

Definition approval_of (v : json) : option ApprovalRecord :=
  mode ← get_str "mode" v; decision ← get_str "decision" v;
  ext ← get_opt "externalDecisionId" v; plan ← get_opt "planRef" v; by_ ← get_opt "approvedBy" v;
  reason ← get_opt "reason" v; notes ← get_strs "annotations" v; at_ ← get_str "decided_at" v;
  Some (mkApproval mode decision ext plan by_ reason notes at_).

Definition run_of (v : json) : option Run :=
  id ← get_str "id" v; project ← get_str "projectId" v; item ← get_opt "workItemId" v; goal ← get_str "goal" v;
  status ← get_str "status" v ≫= run_status_of; parent ← get_opt "parentRunId" v; started ← get_str "started_at" v;
  finished ← get_opt "finished_at" v;
  approval ← match get "approval" v with
             | Some jnull => Some None
             | Some a => Some <$> approval_of a
             | None => None
             end;
  Some (mkRun id project item goal status parent started finished approval).

Definition limits_of (v : json) : option WorkerLimits :=
  a ← get_int "maxTokens" v; b ← get_int "maxAttempts" v; c ← get_int "timeoutMs" v; d ← get_int "maxTools" v;
  Some (mkLimits a b c d).

Definition worker_of (v : json) : option Worker :=
  id ← get_str "id" v; run ← get_opt "runId" v; project ← get_str "projectId" v; role ← get_str "role" v;
  status ← get_str "status" v ≫= worker_status_of; model ← get_opt "model" v; tree ← get_opt "worktree" v;
  parent ← get_opt "parentWorkerId" v; limits ← get "limits" v ≫= limits_of;
  host ← get "location" v ≫= get_str "host"; remote ← get "location" v ≫= get_bool "remote";
  created ← get_str "created_at" v; updated ← get_str "updated_at" v; beat ← get_opt "heartbeat_at" v;
  generation ← get_int "generation" v;
  Some (mkWorker id run project role status model tree parent limits host remote created updated beat generation).

(** ** Events and the graph *)

Inductive PlatformEventType :=
  | run_created | run_status_event | run_approval_event
  | worker_created | worker_heartbeat | worker_status_event | worker_restarted.

Record PlatformEvent := mkPlatformEvent {
  pe_event_id : string;
  pe_timestamp : string;
  pe_type : PlatformEventType;
  pe_project_id : option string;
  pe_run_id : option string;
  pe_worker_id : option string;
  pe_payload : json
}.

(** The maps, the writes the chain has not made yet, and the collected failures. *)
Record Graph := mkGraph {
  runs : jsmap string Run;
  workers : jsmap string Worker;
  pending : list PlatformEvent;
  emitFailures : list string
}.
Definition create : Graph := mkGraph [] [] [] [].

Definition with_runs (rs : jsmap string Run) (g : Graph) : Graph := mkGraph rs (workers g) (pending g) (emitFailures g).
Definition with_workers (ws : jsmap string Worker) (g : Graph) : Graph := mkGraph (runs g) ws (pending g) (emitFailures g).

(** What an operation draws from its surroundings: the entity's clock reading, the
    event's, a fresh event id and a fresh entity id. *)
Record Env := mkEnv { now : string; event_now : string; fresh_event : string; fresh_entity : string }.

(** [emit]: the event joins the chain with its payload redacted. *)
Definition emit (env : Env) (type : PlatformEventType) (project run worker : option string) (payload : json) (g : Graph) : Graph :=
  mkGraph (runs g) (workers g)
    (pending g ++ [mkPlatformEvent (fresh_event env) (event_now env) type project run worker (redactDeep 0 payload)])%list
    (emitFailures g).

(** *** Runs *)

Record CreateRunInput := mkRunInput {
  ri_projectId : string; ri_goal : string; ri_workItemId : option string; ri_parentRunId : option string }.

Definition createRun (env : Env) (i : CreateRunInput) (g : Graph) : Graph * Run :=
  let run := mkRun (fresh_entity env) (ri_projectId i) (ri_workItemId i) (ri_goal i) PENDING (ri_parentRunId i)
               (now env) None None in
  (emit env run_created (Some (run_projectId run)) (Some (run_id run)) None (jobj [("run", run_json run)])
     (with_runs (map_set (run_id run) run (runs g)) g), run).

Definition getRun (id : string) (g : Graph) : option Run := map_get id (runs g).

Definition listRuns (projectId : option string) (g : Graph) : list Run :=
  match projectId with
  | Some p => if truthy p then js_filter (fun r => bool_decide (run_projectId r = p)) (map_values (runs g)) else map_values (runs g)
  | None => map_values (runs g)
  end.

Definition terminal_status (s : RunStatus) : bool :=
  js_includes s [RUN_COMPLETED; RUN_FAILED; RUN_CANCELLED].

Definition set_run_status (s : RunStatus) (finished : option string) (r : Run) : Run :=
  mkRun (run_id r) (run_projectId r) (run_workItemId r) (run_goal r) s (run_parentRunId r) (run_started_at r) finished (run_approval r).
Definition set_run_approval (a : ApprovalRecord) (r : Run) : Run :=
  mkRun (run_id r) (run_projectId r) (run_workItemId r) (run_goal r) (run_status r) (run_parentRunId r) (run_started_at r)
    (run_finished_at r) (Some a).

Definition setRunStatus (env : Env) (id : string) (s : RunStatus) (g : Graph) : Graph * option Run :=
  match map_get id (runs g) with
  | None => (g, None)
  | Some run =>
      let run := set_run_status s (if terminal_status s then Some (now env) else run_finished_at run) run in
      let g := with_runs (map_set id run (runs g)) g in
      let g := emit env run_status_event (Some (run_projectId run)) (Some (run_id run)) None
                 (jobj [("run_id", jstr (run_id run)); ("status", jstr (run_status_name s)); ("finished_at", jopt (run_finished_at run))]) g in
      (g, getRun id g)
  end.

Definition recordApproval (env : Env) (id : string) (a : ApprovalRecord) (g : Graph) : Graph * option Run :=
  match map_get id (runs g) with
  | None => (g, None)
  | Some run =>
      let run := set_run_approval a run in
      let g := with_runs (map_set id run (runs g)) g in
      let g := emit env run_approval_event (Some (run_projectId run)) (Some (run_id run)) None
                 (jobj [("run_id", jstr (run_id run)); ("approval", approval_json a)]) g in
      (g, getRun id g)
  end.

Definition pendingApprovals (g : Graph) : list Run :=
  js_filter (fun r => bool_decide (run_status r = RUN_WAITING)) (listRuns None g).

(** *** Workers *)

Record CreateWorkerInput := mkWorkerInput {
  wi_id : option string; wi_runId : option string; wi_projectId : string; wi_role : string;
  wi_model : option string; wi_worktree : option string; wi_parentWorkerId : option string;
  wi_maxTokens : option Z; wi_maxAttempts : option Z; wi_timeoutMs : option Z; wi_maxTools : option Z;
  wi_location : option (string * bool) }.

Definition createWorker (env : Env) (i : CreateWorkerInput) (g : Graph) : Graph * Worker :=
  let limits := mkLimits (nullish (wi_maxTokens i) (maxTokens DEFAULT_LIMITS)) (nullish (wi_maxAttempts i) (maxAttempts DEFAULT_LIMITS))
                  (nullish (wi_timeoutMs i) (timeoutMs DEFAULT_LIMITS)) (nullish (wi_maxTools i) (maxTools DEFAULT_LIMITS)) in
  let location := nullish (wi_location i) ("localhost", false) in
  let w := mkWorker (nullish (wi_id i) (fresh_entity env)) (wi_runId i) (wi_projectId i) (wi_role i) IDLE (wi_model i)
             (wi_worktree i) (wi_parentWorkerId i) limits (fst location) (snd location) (now env) (now env) None 1 in
  (emit env worker_created (Some (w_projectId w)) (w_runId w) (Some (w_id w)) (jobj [("worker", worker_json w)])
     (with_workers (map_set (w_id w) w (workers g)) g), w).

Definition getWorker (id : string) (g : Graph) : option Worker := map_get id (workers g).

Definition listWorkers (projectId runId : option string) (g : Graph) : list Worker :=
  let by_project := match projectId with
                    | Some p => if truthy p then js_filter (fun w => bool_decide (w_projectId w = p)) (map_values (workers g))
                                else map_values (workers g)
                    | None => map_values (workers g)
                    end in
  match runId with
  | Some r => if truthy r then js_filter (fun w => bool_decide (w_runId w = Some r)) by_project else by_project
  | None => by_project
  end.

Definition set_worker (s : WorkerStatus) (generation : Z) (beat : option string) (updated : string) (w : Worker) : Worker :=
  mkWorker (w_id w) (w_runId w) (w_projectId w) (w_role w) s (w_model w) (w_worktree w) (w_parentWorkerId w) (w_limits w)
    (w_host w) (w_remote w) (w_created_at w) updated beat generation.

(** A worker is updated and the event of the update emitted. *)
Definition update_worker (env : Env) (id : string) (type : PlatformEventType) (upd : Worker -> Worker) (payload : Worker -> json)
  (g : Graph) : Graph * option Worker :=
  match map_get id (workers g) with
  | None => (g, None)
  | Some w =>
      let w := upd w in
      let g := with_workers (map_set id w (workers g)) g in
      let g := emit env type (Some (w_projectId w)) (w_runId w) (Some (w_id w)) (payload w) g in
      (g, getWorker id g)
  end.

Definition setWorkerStatus (env : Env) (id : string) (s : WorkerStatus) (g : Graph) : Graph * option Worker :=
  update_worker env id worker_status_event
    (fun w => set_worker s (w_generation w) (w_heartbeat_at w) (now env) w)
    (fun w => jobj [("worker_id", jstr (w_id w)); ("status", jstr (worker_status_name (w_status w))); ("generation", jint (w_generation w))]) g.

Definition heartbeat (env : Env) (id : string) (g : Graph) : Graph * option Worker :=
  update_worker env id worker_heartbeat
    (fun w => set_worker (w_status w) (w_generation w) (Some (now env)) (now env) w)
    (fun w => jobj [("worker_id", jstr (w_id w)); ("generation", jint (w_generation w))]) g.

Definition restart (env : Env) (id : string) (g : Graph) : Graph * option Worker :=
  update_worker env id worker_restarted
    (fun w => set_worker IDLE (w_generation w + 1) None (now env) w)
    (fun w => jobj [("worker_id", jstr (w_id w)); ("generation", jint (w_generation w))]) g.

Definition cancel (env : Env) (id : string) (g : Graph) : Graph * option Worker := setWorkerStatus env id W_CANCELLED g.
Definition complete (env : Env) (id : string) (g : Graph) : Graph * option Worker := setWorkerStatus env id W_COMPLETED g.

Definition staleWorkers (Date_parse : string -> option Z) (staleAfterMs clock : Z) (g : Graph) : list Worker :=
  js_filter (fun w => match w_heartbeat_at w with
                      | Some beat => truthy beat && match Date_parse beat with Some t => staleAfterMs <? clock - t | None => false end
                      | None => false
                      end) (listWorkers None None g).

(** *** The chain of writes *)

Section Store.
Context {W : Type} (append : PlatformEvent -> W -> W * res string unit).

(** The chain makes the writes in order; a failed one is collected and the next
    one is made all the same. *)
Fixpoint drain (evs : list PlatformEvent) (failures : list string) (w : W) : W * list string :=
  match evs with
  | [] => (w, failures)
  | e :: evs' => let '(w', r) := append e w in
                 drain evs' (match r with Ok _ => failures | Err err => failures ++ [err] end)%list w'
  end.

Definition settle (g : Graph) (w : W) : Graph * W :=
  let '(w', failures) := drain (pending g) (emitFailures g) w in
  (mkGraph (runs g) (workers g) [] failures, w').

Definition flush (g : Graph) (w : W) : Graph * W * res (list string) unit :=
  let '(g', w') := settle g w in
  match emitFailures g' with
  | [] => (g', w', Ok tt)
  | failures => (mkGraph (runs g') (workers g') [] [], w', Err failures)
  end.

Definition hasFailures (g : Graph) : bool := match emitFailures g with [] => false | _ => true end.
End Store.

(** *** Reconstruction *)

(** [String(v ?? "")], for the ids a payload carries. *)
Definition key_of (v : option json) : string := match v with Some (jstr s) => s | _ => "" end.

Definition replay_run (p : json) (upd : Run -> Run) (g : Graph) : Graph :=
  match map_get (key_of (get "run_id" p)) (runs g) with
  | Some run => with_runs (map_set (key_of (get "run_id" p)) (upd run) (runs g)) g
  | None => g
  end.
Definition replay_worker (p : json) (upd : Worker -> Worker) (g : Graph) : Graph :=
  match map_get (key_of (get "worker_id" p)) (workers g) with
  | Some w => with_workers (map_set (key_of (get "worker_id" p)) (upd w) (workers g)) g
  | None => g
  end.

Definition rebuild_step (g : Graph) (e : PlatformEvent) : Graph :=
  let p := pe_payload e in
  match pe_type e with
  | run_created => match get "run" p ≫= run_of with
                   | Some r => with_runs (map_set (run_id r) r (runs g)) g
                   | None => g
                   end
  | run_status_event =>
      replay_run p (fun run =>
        set_run_status (nullish (get_str "status" p ≫= run_status_of) (run_status run))
          (nullish (get_opt "finished_at" p) (run_finished_at run)) run) g
  | run_approval_event =>
      match get "approval" p ≫= approval_of with
      | Some a => replay_run p (set_run_approval a) g
      | None => g
      end
  | worker_created => match get "worker" p ≫= worker_of with
                      | Some w => with_workers (map_set (w_id w) w (workers g)) g
                      | None => g
                      end
  | worker_status_event =>
      replay_worker p (fun w =>
        set_worker (nullish (get_str "status" p ≫= worker_status_of) (w_status w)) (w_generation w) (w_heartbeat_at w) (w_updated_at w) w) g
  | worker_restarted =>
      replay_worker p (fun w => set_worker IDLE (nullish (get_int "generation" p) (w_generation w)) None (w_updated_at w) w) g
  | worker_heartbeat =>
      replay_worker p (fun w => set_worker (w_status w) (w_generation w) (Some (pe_timestamp e)) (w_updated_at w) w) g
  end.

Definition rebuild (events : list PlatformEvent) : Graph := foldl rebuild_step create events.

(** [replay]: the rebuilt maps, over a real store. *)
Definition replay (events : list PlatformEvent) : Graph :=
  let source := rebuild events in mkGraph (runs source) (workers source) [] [].

(** * Properties *)

(** ** What redaction leaves of an entity *)

Definition redact_approval (a : ApprovalRecord) : ApprovalRecord :=
  mkApproval (redactSecrets (ap_mode a)) (redactSecrets (ap_decision a)) (redactSecrets <$> ap_externalDecisionId a)
    (redactSecrets <$> ap_planRef a) (redactSecrets <$> ap_approvedBy a) (redactSecrets <$> ap_reason a)
    (redactSecrets <$> ap_annotations a) (redactSecrets (ap_decided_at a)).

Definition redact_run (r : Run) : Run :=
  mkRun (redactSecrets (run_id r)) (redactSecrets (run_projectId r)) (redactSecrets <$> run_workItemId r)
    (redactSecrets (run_goal r)) (run_status r) (redactSecrets <$> run_parentRunId r) (redactSecrets (run_started_at r))
    (redactSecrets <$> run_finished_at r) (redact_approval <$> run_approval r).

Definition redact_worker (w : Worker) : Worker :=
  mkWorker (redactSecrets (w_id w)) (redactSecrets <$> w_runId w) (redactSecrets (w_projectId w)) (redactSecrets (w_role w))
    (w_status w) (redactSecrets <$> w_model w) (redactSecrets <$> w_worktree w) (redactSecrets <$> w_parentWorkerId w)
    (w_limits w) (redactSecrets (w_host w)) (w_remote w) (redactSecrets (w_created_at w)) (redactSecrets (w_updated_at w))
    (redactSecrets <$> w_heartbeat_at w) (w_generation w).

(** The names of the statuses look like no secret. *)
Lemma run_status_roundtrip s : run_status_of (redactSecrets (run_status_name s)) = Some s.
Proof. destruct s; vm_compute; reflexivity. Qed.
Lemma worker_status_roundtrip s : worker_status_of (redactSecrets (worker_status_name s)) = Some s.
Proof. destruct s; vm_compute; reflexivity. Qed.

Lemma as_integer_int n : as_integer (inject_Z n) = Some n.
Proof.
  unfold as_integer, inject_Z, Qred. simpl. destruct (Z.ggcd n 1) as [g [a b]] eqn:E.
  pose proof (Z.ggcd_correct_divisors n 1) as H. pose proof (Z.ggcd_gcd n 1) as Hg. rewrite E in H, Hg. simpl in *.
  rewrite Z.gcd_1_r in Hg. subst g. destruct H as [Ha Hb]. rewrite Z.mul_1_l in Ha, Hb. by subst.
Qed.

#[local] Arguments redactSecrets : simpl never.
#[local] Arguments redactSecrets _ : simpl never.
#[local] Arguments as_integer : simpl never.
#[local] Arguments run_status_of : simpl never.
#[local] Arguments worker_status_of : simpl never.

Lemma strings_of_redacted d l : (d <= 12)%nat ->
  mapM (fun x => as_string (Some x)) (map (redactDeep d) (map jstr l)) = Some (redactSecrets <$> l).
Proof.
  intros Hd. induction l as [|x l IH]; [done|]. simpl. destruct (Nat.ltb_spec 12 d) as [?|_]; [lia|]. simpl in *.
  by rewrite IH.
Qed.

Lemma jopt_redacted d o : (d <= 12)%nat -> redactDeep d (jopt o) = jopt (redactSecrets <$> o).
Proof. intros Hd. destruct o; simpl; destruct (Nat.ltb_spec 12 d); done || lia. Qed.

Lemma get_opt_jopt o : (match jopt o with jstr s => Some (Some s) | jnull => Some None | _ => None end) = Some o.
Proof. by destruct o. Qed.

Lemma approval_roundtrip d a : (d <= 8)%nat -> approval_of (redactDeep d (approval_json a)) = Some (redact_approval a).
Proof.
  intros Hd. unfold approval_json. cbn [redactDeep]. destruct (Nat.ltb_spec 12 d); [lia|].
  cbn [map fst snd redactDeep]. rewrite !jopt_redacted by lia.
  destruct (Nat.ltb_spec 12 (S d)); [lia|]. unfold approval_of, get_str, get_opt, get_strs, get, field.
  cbn [map_get]. simpl. rewrite !get_opt_jopt. simpl. rewrite strings_of_redacted by lia. done.
Qed.

#[local] Arguments approval_of : simpl never.

Lemma run_roundtrip r : run_of (redactDeep 1 (run_json r)) = Some (redact_run r).
Proof.
  unfold run_json. cbn [redactDeep Nat.ltb Nat.leb map fst snd]. rewrite !jopt_redacted by lia.
  assert (redactDeep 2 (match run_approval r with Some a => approval_json a | None => jnull end) =
          match run_approval r with Some a => redactDeep 2 (approval_json a) | None => jnull end) as ->
    by (by destruct (run_approval r)).
  unfold run_of, get_str, get_opt, get, field. cbn [map_get]. simpl. rewrite run_status_roundtrip. simpl.
  rewrite !get_opt_jopt. simpl. unfold redact_run. destruct (run_approval r) as [a|]; [|done].
  pose proof (approval_roundtrip 2 a ltac:(lia)) as H. simpl in H. by rewrite H.
Qed.

Lemma worker_roundtrip w : worker_of (redactDeep 1 (worker_json w)) = Some (redact_worker w).
Proof.
  unfold worker_json. cbn [redactDeep Nat.ltb Nat.leb map fst snd]. rewrite !jopt_redacted by lia.
  unfold worker_of, limits_of, get_str, get_opt, get_int, get_bool, get, field. cbn [map_get]. simpl.
  rewrite worker_status_roundtrip. simpl. rewrite !get_opt_jopt. simpl. rewrite !as_integer_int. simpl.
  unfold redact_worker. by destruct (w_limits w).
Qed.

(** ** The simulation *)

(** Two maps with the same keys in the same order and related values. *)
Definition rel_map {V V'} (R : V' -> V -> Prop) (m' : jsmap string V') (m : jsmap string V) : Prop :=
  Forall2 (fun a b => fst a = fst b /\ R (snd a) (snd b)) m' m.

Section RelMap.
Context {V V' : Type} (R : V' -> V -> Prop).

Lemma rel_map_get m' m k : rel_map R m' m ->
  match map_get k m with
  | Some v => exists v', map_get k m' = Some v' /\ R v' v
  | None => map_get k m' = None
  end.
Proof.
  induction 1 as [|[k1 v1] [k2 v2] m' m [Hk Hv] _ IH]; [done|]. simpl in *. subst k2.
  destruct (decide (k = k1)); [by eauto|exact IH].
Qed.

Lemma rel_map_set m' m k v' v : rel_map R m' m -> R v' v -> rel_map R (map_set k v' m') (map_set k v m).
Proof.
  intros H Hv. induction H as [|[k1 v1] [k2 v2] m' m [Hk Hv1] Hm IH]; simpl in *; [by repeat constructor|].
  subst k2. destruct (decide (k = k1)); constructor; done.
Qed.
End RelMap.

(** A rebuilt worker: as the live one, redacted, up to the time of its last update
    and the time of its last heartbeat. *)
Definition agrees (w' w : Worker) : Prop :=
  exists beat updated, w' = set_worker (w_status w) (w_generation w) beat updated (redact_worker w) /\
                       (beat = None <-> w_heartbeat_at w = None).

Definition sim (rebuilt g : Graph) : Prop :=
  rel_map (fun r' r => r' = redact_run r) (runs rebuilt) (runs g) /\ rel_map agrees (workers rebuilt) (workers g).

(** Entities are stored under their ids, and redaction keeps the ids. *)
Definition clean (s : string) : Prop := redactSecrets s = s.
Record well_keyed (g : Graph) : Prop := {
  wk_runs : forall k r, map_get k (runs g) = Some r -> run_id r = k /\ clean k;
  wk_workers : forall k w, map_get k (workers g) = Some w -> w_id w = k /\ clean k
}.

(** *** Operations *)
Inductive op :=
  | o_createRun (i : CreateRunInput)
  | o_setRunStatus (id : string) (s : RunStatus)
  | o_recordApproval (id : string) (a : ApprovalRecord)
  | o_createWorker (i : CreateWorkerInput)
  | o_setWorkerStatus (id : string) (s : WorkerStatus)
  | o_heartbeat (id : string)
  | o_restart (id : string).

Definition do_op (env : Env) (o : op) (g : Graph) : Graph :=
  match o with
  | o_createRun i => (createRun env i g).1
  | o_setRunStatus id s => (setRunStatus env id s g).1
  | o_recordApproval id a => (recordApproval env id a g).1
  | o_createWorker i => (createWorker env i g).1
  | o_setWorkerStatus id s => (setWorkerStatus env id s g).1
  | o_heartbeat id => (heartbeat env id g).1
  | o_restart id => (restart env id g).1
  end.

(** The id of a new entity is not taken for a secret. *)
Definition clean_op (env : Env) (o : op) : Prop :=
  match o with
  | o_createRun _ => clean (fresh_entity env)
  | o_createWorker i => clean (nullish (wi_id i) (fresh_entity env))
  | _ => True
  end.

Lemma map_get_set_inv {V} (k k' : string) (v v' : V) m :
  map_get k' (map_set k v m) = Some v' -> (k' = k /\ v' = v) \/ map_get k' m = Some v'.
Proof. rewrite map_get_set. destruct (decide (k = k')); intros; simplify_eq; auto. Qed.

Lemma well_keyed_run g k r pe ef :
  well_keyed g -> run_id r = k -> clean k -> well_keyed (mkGraph (map_set k r (runs g)) (workers g) pe ef).
Proof.
  intros [Hr Hw] Hk Hc. split; simpl; [|done]. intros k' r' H.
  destruct (map_get_set_inv _ _ _ _ _ H) as [[-> ->]|?]; [done|by apply Hr].
Qed.

Lemma well_keyed_worker g k w pe ef :
  well_keyed g -> w_id w = k -> clean k -> well_keyed (mkGraph (runs g) (map_set k w (workers g)) pe ef).
Proof.
  intros [Hr Hw] Hk Hc. split; simpl; [done|]. intros k' w' H.
  destruct (map_get_set_inv _ _ _ _ _ H) as [[-> ->]|?]; [done|by apply Hw].
Qed.

Lemma update_worker_keyed env id type upd payload g :
  (forall w, w_id (upd w) = w_id w) -> well_keyed g -> well_keyed (update_worker env id type upd payload g).1.
Proof.
  intros Hu Hk. unfold update_worker. destruct (map_get id (workers g)) as [w|] eqn:E; [|done].
  destruct (wk_workers g Hk id w E) as [Hi Hc]. apply (well_keyed_worker g); [done|by rewrite Hu|done].
Qed.

Lemma do_op_keyed env o g : clean_op env o -> well_keyed g -> well_keyed (do_op env o g).
Proof.
  intros Hc Hk. destruct o as [i|id s|id a|i|id s|id|id]; simpl in *.
  - by apply (well_keyed_run g).
  - unfold setRunStatus. destruct (map_get id (runs g)) as [r|] eqn:E; [|done].
    destruct (wk_runs g Hk id r E). by apply (well_keyed_run g).
  - unfold recordApproval. destruct (map_get id (runs g)) as [r|] eqn:E; [|done].
    destruct (wk_runs g Hk id r E). by apply (well_keyed_run g).
  - by apply (well_keyed_worker g).
  - by apply update_worker_keyed.
  - by apply update_worker_keyed.
  - by apply update_worker_keyed.
Qed.

Lemma sim_run rb g pe ef pe' ef' k r :
  sim rb g -> sim (mkGraph (map_set k (redact_run r) (runs rb)) (workers rb) pe ef)
                  (mkGraph (map_set k r (runs g)) (workers g) pe' ef').
Proof. intros [Hr Hw]. split; [|done]. by apply rel_map_set. Qed.

Lemma sim_worker rb g pe ef pe' ef' k w' w :
  sim rb g -> agrees w' w ->
  sim (mkGraph (runs rb) (map_set k w' (workers rb)) pe ef) (mkGraph (runs g) (map_set k w (workers g)) pe' ef').
Proof. intros [Hr Hw] Ha. split; [done|]. by apply rel_map_set. Qed.

(** The event of an update, replayed on a rebuilt run or worker. *)
Lemma replay_run_sim rb g k r p upd upd' pe ef :
  sim rb g -> map_get k (runs g) = Some r -> key_of (get "run_id" p) = k ->
  upd' (redact_run r) = redact_run (upd r) ->
  sim (replay_run p upd' rb) (mkGraph (map_set k (upd r) (runs g)) (workers g) pe ef).
Proof.
  intros Hs Hg Hk Hu. unfold replay_run. rewrite Hk. pose proof (rel_map_get _ _ _ k (proj1 Hs)) as H. rewrite Hg in H.
  destruct H as (r' & -> & ->). rewrite Hu. by apply (sim_run rb g).
Qed.

Lemma replay_worker_sim rb g k w p upd upd' pe ef :
  sim rb g -> map_get k (workers g) = Some w -> key_of (get "worker_id" p) = k ->
  (forall w', agrees w' w -> agrees (upd' w') (upd w)) ->
  sim (replay_worker p upd' rb) (mkGraph (runs g) (map_set k (upd w) (workers g)) pe ef).
Proof.
  intros Hs Hg Hk Hu. unfold replay_worker. rewrite Hk. pose proof (rel_map_get _ _ _ k (proj2 Hs)) as H. rewrite Hg in H.
  destruct H as (w' & -> & Ha). by apply sim_worker; [|apply Hu].
Qed.

(** One operation, and the events it emits replayed. *)
Definition follows (rb : Graph) (g g' : Graph) : Prop :=
  exists evs, pending g' = (pending g ++ evs)%list /\ emitFailures g' = emitFailures g /\
              sim (foldl rebuild_step rb evs) g'.

Lemma follows_none rb g : sim rb g -> follows rb g g.
Proof. intros H. exists []. by rewrite app_nil_r. Qed.

Lemma update_worker_follows env id type upd payload upd' rb g :
  well_keyed g -> sim rb g ->
  (forall w, w_id (upd w) = w_id w) ->
  (forall w, map_get id (workers g) = Some w ->
     let e := mkPlatformEvent (fresh_event env) (event_now env) type (Some (w_projectId (upd w))) (w_runId (upd w))
                (Some (w_id (upd w))) (redactDeep 0 (payload (upd w))) in
     rebuild_step rb e = replay_worker (pe_payload e) (upd' e) rb /\
     key_of (get "worker_id" (pe_payload e)) = redactSecrets (w_id w) /\
     (forall w', agrees w' w -> agrees (upd' e w') (upd w))) ->
  follows rb g (update_worker env id type upd payload g).1.
Proof.
  intros Hk Hs Hi Hall. unfold update_worker. destruct (map_get id (workers g)) as [w|] eqn:E; [|by apply follows_none].
  destruct (wk_workers g Hk id w E) as [Hid Hc]. destruct (Hall w eq_refl) as (H1 & H2 & H3).
  eexists. split; [reflexivity|]. split; [done|]. cbn [foldl]. rewrite H1.
  eapply (replay_worker_sim rb g id w _ upd); [done|done| |done]. rewrite H2, Hid. exact Hc.
Qed.

Lemma agrees_set s n beat updated beat' updated' w' w :
  (beat' = None <-> beat = None) -> agrees w' w -> agrees (set_worker s n beat' updated' w') (set_worker s n beat updated w).
Proof. intros Hb (b & u & -> & _). by exists beat', updated'. Qed.

Lemma agrees_fields w' w : agrees w' w ->
  w_status w' = w_status w /\ w_generation w' = w_generation w /\ (w_heartbeat_at w' = None <-> w_heartbeat_at w = None).
Proof. by intros (b & u & -> & H). Qed.

Lemma do_op_follows env o rb g :
  clean_op env o -> well_keyed g -> sim rb g -> follows rb g (do_op env o g).
Proof.
  intros Hc Hk Hs. destruct o as [i|id s|id a|i|id s|id|id]; cbn [do_op clean_op] in *.
  - eexists. split; [reflexivity|]. split; [done|]. unfold rebuild_step. cbn [foldl pe_type pe_payload].
    match goal with |- context [redactDeep 0 (jobj [("run", run_json ?r)])] =>
      change (get "run" (redactDeep 0 (jobj [("run", run_json r)]))) with (Some (redactDeep 1 (run_json r))) end.
    cbn [mbind option_bind]. rewrite run_roundtrip. cbn [run_id redact_run]. simpl. rewrite Hc. by apply (sim_run rb g).
  - unfold setRunStatus. destruct (map_get id (runs g)) as [r|] eqn:E; [|by apply follows_none].
    destruct (wk_runs g Hk id r E) as [Hid Hcl].
    eexists. split; [reflexivity|]. split; [done|]. cbn [foldl rebuild_step pe_type pe_payload].
    eapply (replay_run_sim rb g id r _ (fun r => set_run_status s (if terminal_status s then Some (now env) else run_finished_at r) r));
      [done|done| |].
    + cbn. rewrite Hid. exact Hcl.
    + unfold get_str, get_opt, get, field. cbn [redactDeep Nat.ltb Nat.leb map fst snd]. rewrite jopt_redacted by lia.
      cbn [map_get]. simpl. rewrite run_status_roundtrip, get_opt_jopt. done.
  - unfold recordApproval. destruct (map_get id (runs g)) as [r|] eqn:E; [|by apply follows_none].
    destruct (wk_runs g Hk id r E) as [Hid Hcl].
    eexists. split; [reflexivity|]. split; [done|]. cbn [foldl rebuild_step pe_type pe_payload].
    change (get "approval" (redactDeep 0 (jobj [("run_id", jstr (run_id (set_run_approval a r))); ("approval", approval_json a)])))
      with (Some (redactDeep 1 (approval_json a))).
    cbn [mbind option_bind]. rewrite approval_roundtrip by lia.
    apply (replay_run_sim rb g id r _ (set_run_approval a)); [done|done| |done]. cbn. rewrite Hid. exact Hcl.
  - eexists. split; [reflexivity|]. split; [done|]. unfold rebuild_step. cbn [foldl pe_type pe_payload].
    match goal with |- context [redactDeep 0 (jobj [("worker", worker_json ?w)])] =>
      change (get "worker" (redactDeep 0 (jobj [("worker", worker_json w)]))) with (Some (redactDeep 1 (worker_json w))) end.
    cbn [mbind option_bind]. rewrite worker_roundtrip. cbn [w_id redact_worker]. rewrite Hc. apply (sim_worker rb g); [done|].
    eexists _, _. by split.
  - apply update_worker_follows with (upd' := fun e w =>
      set_worker (nullish (get_str "status" (pe_payload e) ≫= worker_status_of) (w_status w)) (w_generation w) (w_heartbeat_at w) (w_updated_at w) w);
      [done|done|done|]. intros w Hw. split_and!; [done|done|]. intros w' Ha.
    unfold get_str, get, field. simpl. rewrite worker_status_roundtrip. simpl.
    destruct (agrees_fields _ _ Ha) as (_ & -> & Hb). by apply agrees_set.
  - apply update_worker_follows with (upd' := fun e w =>
      set_worker (w_status w) (w_generation w) (Some (pe_timestamp e)) (w_updated_at w) w);
      [done|done|done|]. intros w Hw. split_and!; [done|done|]. intros w' Ha.
    destruct (agrees_fields _ _ Ha) as (-> & -> & _). by apply agrees_set.
  - apply update_worker_follows with (upd' := fun e w =>
      set_worker IDLE (nullish (get_int "generation" (pe_payload e)) (w_generation w)) None (w_updated_at w) w);
      [done|done|done|]. intros w Hw. split_and!; [done|done|]. intros w' Ha.
    unfold get_int, get, field. simpl. rewrite as_integer_int. simpl. by apply agrees_set.
Qed.

(** ** The store behind the graph *)

Section WithStore.
Context {W : Type} (append : PlatformEvent -> W -> W * res string unit) (log_of : W -> list PlatformEvent).

(** What the backend promises: an accepted event is at the end of the log. *)
Definition append_logs : Prop := forall e w w', append e w = (w', Ok tt) -> log_of w' = (log_of w ++ [e])%list.

(** One write of the chain, at any moment. *)
Definition tick (g : Graph) (w : W) : Graph * W :=
  match pending g with
  | [] => (g, w)
  | e :: evs => let '(w', r) := append e w in
                (mkGraph (runs g) (workers g) evs (match r with Ok _ => emitFailures g | Err err => emitFailures g ++ [err] end)%list, w')
  end.

(** The graph and its store at work: operations, writes of the chain in between
    and calls of [flush]; the flag says that some [flush] reported a failure. *)
Inductive step := Do (env : Env) (o : op) | Tick | Flush.
Definition do_step (s : step) (x : Graph * W * bool) : Graph * W * bool :=
  let '(g, w, reported) := x in
  match s with
  | Do env o => (do_op env o g, w, reported)
  | Tick => let '(g', w') := tick g w in (g', w', reported)
  | Flush => let '(g', w', r) := flush append g w in (g', w', reported || negb (is_ok r))
  end.
Definition exec_steps (steps : list step) (w : W) : Graph * W * bool :=
  foldl (fun x s => do_step s x) (create, w, false) steps.
Definition clean_step (s : step) : Prop := match s with Do env o => clean_op env o | _ => True end.

Hypothesis logs : append_logs.

Lemma drain_grows evs fs w w' fs' : drain append evs fs w = (w', fs') -> fs' = [] -> fs = [] /\ log_of w' = (log_of w ++ evs)%list.
Proof.
  revert fs w. induction evs as [|e evs IH]; intros fs w H Hf; simpl in H; [simplify_eq; by rewrite app_nil_r|].
  destruct (append e w) as [w1 [[]|err]] eqn:E; destruct (IH _ _ H Hf) as [H1 H2].
  - split; [done|]. rewrite H2, (logs _ _ _ E). by rewrite <-app_assoc.
  - apply app_nil in H1 as [_ H1]. discriminate H1.
Qed.

Definition inv (x : Graph * W * bool) : Prop :=
  let '(g, w, reported) := x in
  well_keyed g /\ (reported = false -> emitFailures g = [] -> sim (rebuild (log_of w ++ pending g)%list) g).

Lemma well_keyed_maps g g' : well_keyed g -> runs g' = runs g -> workers g' = workers g -> well_keyed g'.
Proof. intros [H1 H2] Hr Hw. split; by rewrite ?Hr, ?Hw. Qed.

Lemma sim_maps rb g g' : sim rb g -> runs g' = runs g -> workers g' = workers g -> sim rb g'.
Proof. intros [H1 H2] Hr Hw. split; by rewrite ?Hr, ?Hw. Qed.

Lemma tick_inv g w reported : inv (g, w, reported) -> inv (tick g w, reported).
Proof.
  intros [Hk Hs]. unfold tick. destruct (pending g) as [|e evs] eqn:Ep; [by split; [|rewrite Ep]|].
  destruct (append e w) as [w' [[]|err]] eqn:E; split; simpl; try (by eapply well_keyed_maps).
  - intros Hr Hf. rewrite (logs _ _ _ E), <-app_assoc. by eapply sim_maps; [apply Hs|..].
  - intros _ H. apply app_nil in H as [_ H]. discriminate H.
Qed.

Lemma flush_inv g w reported : inv (g, w, reported) ->
  let '(g', w', r) := flush append g w in inv (g', w', reported || negb (is_ok r)).
Proof.
  intros [Hk Hs]. unfold flush, settle. destruct (drain append (pending g) (emitFailures g) w) as [w' fs] eqn:E. simpl.
  destruct fs as [|f fs]; split; simpl; try (by eapply well_keyed_maps); rewrite ?orb_true_r; [|done].
  rewrite orb_false_r. intros Hr _. destruct (drain_grows _ _ _ _ _ E eq_refl) as [Hf ->].
  rewrite app_nil_r. by eapply sim_maps; [apply Hs|..].
Qed.

Lemma do_step_inv s x : clean_step s -> inv x -> inv (do_step s x).
Proof.
  destruct x as [[g w] reported]. intros Hc Hi. destruct s as [env o| |]; simpl in Hc |- *.
  - destruct Hi as [Hk Hs]. split; [by apply do_op_keyed|]. intros Hr Hf.
    (* an operation never clears the failures *)
    assert (emitFailures g = []) as Hg.
    { destruct o; unfold do_op, createRun, setRunStatus, recordApproval, createWorker, setWorkerStatus, heartbeat, restart,
        update_worker in Hf; repeat case_match; simpl in Hf; done. }
    destruct (do_op_follows env o _ g Hc Hk (Hs Hr Hg)) as (evs & -> & _ & Hsim).
    unfold rebuild in *. by rewrite app_assoc, foldl_app.
  - pose proof (tick_inv g w reported Hi) as H. by destruct (tick g w).
  - pose proof (flush_inv g w reported Hi) as H. by destruct (flush append g w) as [[g' w'] r].
Qed.

Lemma exec_steps_inv steps w : log_of w = [] -> Forall clean_step steps -> inv (exec_steps steps w).
Proof.
  intros Hw Hc. unfold exec_steps. assert (inv (create, w, false)) as H0.
  { split; [by split|]. intros _ _. rewrite Hw. by split; constructor. }
  revert H0. generalize (create, w, false) as x. induction Hc as [|s steps Hs _ IH]; intros x Hx; [done|].
  simpl. by apply IH, do_step_inv.
Qed.

End WithStore.

(** C11: restart recovery is faithful: from an empty store, however operations, the writes
    behind them and flushes are interleaved, if no flush reported a failure then after the
    last one the graph replayed from the store is the live graph with its texts redacted, the
    time of each worker's last update and heartbeat apart; all this as long as the
    ids of new entities do not look like secrets, and an append the store accepts puts the event at
    the end of its log. *)
Theorem replay_faithful {W} (append : PlatformEvent -> W -> W * res string unit) (log_of : W -> list PlatformEvent) steps w0 g w :
  append_logs append log_of -> log_of w0 = [] -> Forall clean_step steps ->
  exec_steps append (steps ++ [Flush])%list w0 = (g, w, false) -> sim (replay (log_of w)) g.
Proof.
  intros Hl Hw Hc He.
  assert (inv log_of (exec_steps append (steps ++ [Flush])%list w0)) as Hi
    by (apply exec_steps_inv; [done|done|apply Forall_app; by repeat constructor]).
  rewrite He in Hi. destruct Hi as [_ Hs].
  assert (pending g = [] /\ emitFailures g = []) as [Hp Hf].
  { unfold exec_steps in He. rewrite foldl_snoc in He.
    destruct (foldl _ _ steps) as [[g1 w1] rep]. simpl in He. unfold flush, settle in He.
    destruct (drain append (pending g1) (emitFailures g1) w1) as [w2 fs]. simpl in He. destruct fs; by simplify_eq. }
  specialize (Hs eq_refl Hf). rewrite Hp, app_nil_r in Hs. destruct Hs as [H1 H2]. by split.
Qed.

(** *** Samples *)
Module GraphSamples.
Definition env (now : string) (entity : string) : Env := mkEnv now now ("evt-" +:+ now) entity.
Definition worker_input (id : option string) : CreateWorkerInput :=
  mkWorkerInput id (Some "RUN-1") "p" "implementer" None None None None None None None None.
Definition list_append (e : PlatformEvent) (w : list PlatformEvent) : list PlatformEvent * res string unit := ((w ++ [e])%list, Ok tt).
Definition sample_steps : list step := [
  Do (env "1" "RUN-1") (o_createRun (mkRunInput "p" "deploy with token=abc" None None));
  Do (env "2" "WRK-1") (o_createWorker (worker_input None)); Tick;
  Do (env "3" "") (o_heartbeat "WRK-1"); Flush;
  Do (env "4" "") (o_restart "WRK-1"); Do (env "5" "") (o_setRunStatus "RUN-1" RUN_COMPLETED)].

Lemma replay_faithful_witness :
  sim (replay (exec_steps list_append (sample_steps ++ [Flush])%list []).1.2)
      (exec_steps list_append (sample_steps ++ [Flush])%list []).1.1.
Proof.
  apply (replay_faithful list_append id sample_steps []).
  - intros e w w' H. unfold list_append in H. by simplify_eq.
  - reflexivity.
  - repeat constructor; unfold clean_step, clean_op, clean; vm_compute; reflexivity.
  - vm_compute. reflexivity.
Defined.

(** Two workers whose caller-supplied ids look like keys are one worker after a
    restart: both ids are redacted to the same text, and it is their key. *)
Theorem secret_like_ids_merge :
  let g := (exec_steps list_append [
    Do (env "1" "") (o_createWorker (worker_input (Some "sk-worker-east-1")));
    Do (env "2" "") (o_createWorker (worker_input (Some "sk-worker-west-2"))); Flush] []) in
  map_keys (workers g.1.1) = ["sk-worker-east-1"; "sk-worker-west-2"] /\
  map_keys (workers (replay g.1.2)) = ["[REDACTED]"].
Proof. vm_compute. by split. Qed.

(** The time of a worker's last update does not survive a restart: the replay keeps
    the one of its creation. *)
Theorem update_time_lost :
  let g := exec_steps list_append (sample_steps ++ [Flush])%list [] in
  w_updated_at <$> getWorker "WRK-1" g.1.1 = Some "4" /\
  w_updated_at <$> getWorker "WRK-1" (replay g.1.2) = Some "2".
Proof. vm_compute. by split. Qed.
End GraphSamples.
