(* ===== verification/GenerationGuard.v ===== *)
(** * The generation guard (src/guard)

    GenerationGuard.ts: the detector of degenerate streamed output, with its
    sentence splitting, its rolling window, its token budgets and its two ways of
    being fed (deltas and cumulative snapshots). RecoveryController.ts: the bounded
    recovery ladder. config.ts: the thresholds and their resolution from the
    environment. Patterns are the ones of the source, run by [Regex]. *)

From S2P Require Import Prelude JsMap Regex.

Open Scope string_scope.
Open Scope Z_scope.

(** [xs.slice(k)] for a list. *)
Definition js_slice_list {A} (k : Z) (l : list A) : list A :=
  if k <? 0 then drop (Z.to_nat (Z.max 0 (js_len l + k))) l else drop (Z.to_nat k) l.

(** ** Configuration *)
Module Config.

Record GenerationGuardConfig := mkConfig {
  enabled : bool;
  repeatedSentenceThreshold : Z;
  repeatedWindowSize : Z;
  maxReasoningTokensWithoutProgress : Z;
  maxNarrationTokensBeforeAction : Z;
  narrationBudgetEnabled : bool;
  maxRecoveryAttempts : Z;
  lowerReasoningEffortOnRetry : bool;
  compactContextOnAttempt : Z;
  fallbackModelOnAttempt : Z
}.

Definition DEFAULT_GUARD_CONFIG : GenerationGuardConfig := mkConfig true 4 8 4000 2000 true 3 true 2 3.
Definition DEFAULT_INTERACTIVE_MAX_NO_PROGRESS_TOKENS : Z := 12000.

Inductive GuardProfile := worker | interactive.

(** [Number.parseInt(value, 10) || fallback], for a variable that is set and not
    empty: both [NaN] and [0] select the fallback. *)
Definition env_int (value : option string) (fallback : Z) : Z :=
  match value with
  | Some v => if truthy v
              then match parseInt v with Some n => if n =? 0 then fallback else n | None => fallback end
              else fallback
  | None => fallback
  end.
(** [value !== "false" && value !== "0"], for a variable that is set. *)
Definition env_flag (value : option string) (fallback : bool) : bool :=
  match value with
  | Some v => negb (bool_decide (v = "false")) && negb (bool_decide (v = "0"))
  | None => fallback
  end.

(** The resolution without programmatic overrides. *)
Definition resolveGuardConfig (env : string -> option string) (profile : GuardProfile) : GenerationGuardConfig :=
  let d := DEFAULT_GUARD_CONFIG in
  let narration0 := match profile with interactive => false | worker => narrationBudgetEnabled d end in
  let reasoning0 := match profile with
                    | interactive => DEFAULT_INTERACTIVE_MAX_NO_PROGRESS_TOKENS
                    | worker => maxReasoningTokensWithoutProgress d
                    end in
  mkConfig
    (env_flag (env "PI_GUARD_ENABLED") (enabled d))
    (env_int (env "PI_GUARD_SENTENCE_THRESHOLD") (repeatedSentenceThreshold d))
    (env_int (env "PI_GUARD_WINDOW") (repeatedWindowSize d))
    (match profile with
     | worker => env_int (env "PI_GUARD_MAX_REASONING_TOKENS") reasoning0
     | interactive => env_int (env "PI_GUARD_INTERACTIVE_MAX_NO_PROGRESS_TOKENS") reasoning0
     end)
    (env_int (env "PI_GUARD_MAX_NARRATION_TOKENS") (maxNarrationTokensBeforeAction d))
    (env_flag (env "PI_GUARD_NARRATION_BUDGET") narration0)
    (env_int (env "PI_GUARD_MAX_RECOVERY") (maxRecoveryAttempts d))
    (lowerReasoningEffortOnRetry d) (compactContextOnAttempt d) (fallbackModelOnAttempt d).

End Config.
Export Config.

(** ** Sentences *)
Module Sentences.

Definition spaces : regex := star (RSet is_space).

(** The pattern of the discourse markers: [/^(okay|alright|...)\s*,?\s*/i]. *)
Definition markers : regex :=
  (RBegin · RGroup 1 (alts (map lit_i ["okay"; "alright"; "so"; "now"; "well"; "right"; "ok"; "sure"; "okay then"; "alright then"]))
   · spaces · opt (lit ",") · spaces)%re.

Definition empty_text (_ : string) (_ : jsmap nat string) : string := "".

Definition normalizeSentence (t : string) : string :=
  let s := js_lower (replace_all (plus (RSet is_space)) (fun _ _ => " ") (js_trim t)) in
  let s := replace_first (plus (RSet (one_of ".,;:!?")) · REnd)%re empty_text s in
  let s := replace_first markers empty_text s in
  js_trim s.

Definition splitSentences (t : string) : list string :=
  js_filter truthy (map js_trim (split_re (RBehind false (one_of ".!?") · plus (RSet is_space))%re t)).

(** A terminator, at most one closing quote, parenthesis or bracket, and white
    space up to the end of the text; 34 is the double quote. *)
Definition ends_sentence : regex :=
  (RSet (one_of ".!?") · opt (RSet (cunion (fun c => bool_decide (c = ascii_of_N 34)) (one_of "')]"))) · spaces · REnd)%re.

Definition splitCompleteSentences (t : string) : list string :=
  let sentences := splitSentences t in
  match sentences with
  | [] => sentences
  | _ => if test ends_sentence t then sentences else removelast sentences
  end.

End Sentences.
Export Sentences.

(** ** The guard *)
Module Guard.

Inductive ProgressEventType := tool_call | structured_action | final_answer_start | state_change.

Record GenerationGuardState := mkState {
  sentenceWindow : list string;
  tokensSinceProgress : Z;
  narrationTokens : Z;
  toolCallCount : Z;
  finalAnswerStarted : bool;
  hasProgress : bool;
  recoveryAttempt : Z
}.

Definition initialGuardState : GenerationGuardState := mkState [] 0 0 0 false false 0.

(** A decision; the constructors other than [go_on] are the abort reasons the
    guard gives, with their diagnostics. *)
Inductive GuardDecision :=
  | go_on
  | repeated_sentence (repeated_text : string) (repeat_count window_size tokens_since_progress : Z)
  | no_progress (tokens_since_progress threshold narration_tokens : Z)
  | excessive_narration (narration_tokens threshold tool_call_count : Z).

#[export] Instance decision_eq_dec : EqDecision GuardDecision.
Proof. solve_decision. Defined.

Definition aborts (d : GuardDecision) : bool := negb (bool_decide (d = go_on)).

Record GenerationGuard := mkGuard {
  gstate : GenerationGuardState;
  fullText : list string;
  processedSentenceCount : nat;
  consumedSnapshotLength : nat
}.

Definition new : GenerationGuard := mkGuard initialGuardState [] 0 0.
Definition reset (g : GenerationGuard) : GenerationGuard := mkGuard initialGuardState [] 0 0.

Definition setRecoveryAttempt (n : Z) (g : GenerationGuard) : GenerationGuard :=
  let s := gstate g in
  mkGuard (mkState (sentenceWindow s) (tokensSinceProgress s) (narrationTokens s) (toolCallCount s)
             (finalAnswerStarted s) (hasProgress s) n)
    (fullText g) (processedSentenceCount g) (consumedSnapshotLength g).

Definition getAccumulatedText (g : GenerationGuard) : string := js_join "" (fullText g).

(** [Math.ceil(text.length / 4)] *)
Definition tokens (t : string) : Z := (Z.of_nat (String.length t) + 3) / 4.

Section WithConfig.
Context (config : GenerationGuardConfig).

Definition count_step (counts : jsmap string Z) (s : string) : jsmap string Z :=
  map_set s (nullish (map_get s counts) 0 + 1) counts.
Definition window_counts (w : list string) : jsmap string Z := foldl count_step [] w.

Definition checkRepeatedSentence (s : GenerationGuardState) : GuardDecision :=
  if js_len (sentenceWindow s) <? repeatedSentenceThreshold config then go_on
  else match js_find (fun sc : string * Z => repeatedSentenceThreshold config <=? snd sc) (window_counts (sentenceWindow s)) with
       | Some (sentence, count) => repeated_sentence sentence count (js_len (sentenceWindow s)) (tokensSinceProgress s)
       | None => go_on
       end.

Definition checkNoProgress (s : GenerationGuardState) : GuardDecision :=
  if tokensSinceProgress s <=? maxReasoningTokensWithoutProgress config then go_on
  else no_progress (tokensSinceProgress s) (maxReasoningTokensWithoutProgress config) (narrationTokens s).

Definition checkExcessiveNarration (s : GenerationGuardState) : GuardDecision :=
  if negb (narrationBudgetEnabled config) then go_on
  else if hasProgress s then go_on
  else if finalAnswerStarted s then go_on
  else if 0 <? toolCallCount s then go_on
  else if narrationTokens s <=? maxNarrationTokensBeforeAction config then go_on
  else excessive_narration (narrationTokens s) (maxNarrationTokensBeforeAction config) (toolCallCount s).

(** The new sentences that enter the window; trivial fragments are skipped. *)
Definition window_entries (raws : list string) : list string :=
  js_filter (fun n => negb (String.length n <? 3)%nat) (map normalizeSentence raws).

Definition trim_window (w : list string) : list string :=
  if repeatedWindowSize config <? js_len w then js_slice_list (- repeatedWindowSize config) w else w.

Definition feed (t : string) (g : GenerationGuard) : GenerationGuard * GuardDecision :=
  if negb (enabled config) then (g, go_on)
  else
    let s := gstate g in
    let fullText := (fullText g ++ [t])%list in
    let sentences := splitCompleteSentences (js_join "" fullText) in
    let newSentences := drop (processedSentenceCount g) sentences in
    let s := mkState (trim_window (sentenceWindow s ++ window_entries newSentences)%list)
               (tokensSinceProgress s + tokens t) (narrationTokens s + tokens t) (toolCallCount s)
               (finalAnswerStarted s) (hasProgress s) (recoveryAttempt s) in
    let g' := mkGuard s fullText (Nat.max (processedSentenceCount g) (length sentences))
                (consumedSnapshotLength g + String.length t) in
    (g', if aborts (checkRepeatedSentence s) then checkRepeatedSentence s
         else if aborts (checkNoProgress s) then checkNoProgress s
         else checkExcessiveNarration s).

Definition feedSnapshot (snapshot : string) (g : GenerationGuard) : GenerationGuard * GuardDecision :=
  if negb (enabled config) then (g, go_on)
  else
    let consumed := consumedSnapshotLength g in
    let isContinuation := (consumed <=? String.length snapshot)%nat &&
                          js_startsWith snapshot (String.substring 0 consumed (js_join "" (fullText g))) in
    if negb isContinuation then
      let g' := mkGuard (gstate g) [] 0 0 in
      if truthy snapshot then feed snapshot g' else (g', go_on)
    else
      let delta := String.substring consumed (String.length snapshot - consumed) snapshot in
      if truthy delta then feed delta g else (g, go_on).

Definition onProgress (type : ProgressEventType) (g : GenerationGuard) : GenerationGuard :=
  let s := gstate g in
  mkGuard
    (mkState [] 0 (narrationTokens s)
       (match type with tool_call => toolCallCount s + 1 | _ => toolCallCount s end)
       (match type with final_answer_start => true | _ => finalAnswerStarted s end)
       true (recoveryAttempt s))
    (fullText g) (length (splitCompleteSentences (js_join "" (fullText g)))) (consumedSnapshotLength g).

End WithConfig.
End Guard.
Export Guard.

(** ** Recovery *)
Module Recovery.

Inductive ReasoningEffort := low | medium | high.

Definition lowerReasoningEffort (current : ReasoningEffort) : ReasoningEffort :=
  match current with high => medium | medium => low | low => low end.

(** The loop [for (let i = 0; i < attempt; i++)]. *)
Definition reasoningEffortForRecovery (original : ReasoningEffort) (attempt : Z) : ReasoningEffort :=
  Nat.iter (Z.to_nat attempt) lowerReasoningEffort original.

Inductive GuardAbortReason := r_repeated_sentence | r_repeated_text | r_no_progress | r_excessive_narration | r_recovery_limit.

(** [ModelDegenerationError] with the reason [recovery_exhausted]. *)
Record ModelDegenerationError := mkDegeneration {
  de_model : string;
  de_attempt : Z;
  de_max_attempts : Z;
  de_last_reason : GuardAbortReason
}.

Record RecoveryDecision := mkRecovery {
  shouldRetry : bool;
  rd_attempt : Z;
  injectPrompt : bool; (* recoveryPrompt is RECOVERY_PROMPT *)
  compactContext : bool;
  useFallbackModel : bool;
  reasoningEffort : ReasoningEffort;
  rd_error : option ModelDegenerationError
}.

Definition decideRecovery (attempt : Z) (config : GenerationGuardConfig) (originalEffort : ReasoningEffort) (model : string)
  (lastReason : GuardAbortReason) : RecoveryDecision :=
  if maxRecoveryAttempts config <? attempt then
    mkRecovery false attempt false false false originalEffort
      (Some (mkDegeneration model (attempt - 1) (maxRecoveryAttempts config) lastReason))
  else
    mkRecovery true attempt true
      ((0 <? compactContextOnAttempt config) && (compactContextOnAttempt config <=? attempt))
      ((0 <? fallbackModelOnAttempt config) && (fallbackModelOnAttempt config <=? attempt))
      (if lowerReasoningEffortOnRetry config then reasoningEffortForRecovery originalEffort attempt else originalEffort)
      None.

Record RecoveryTelemetry := mkTelemetry {
  abortCount : Z;
  retrySuccess : Z;
  retryFailure : Z;
  fallbackCount : Z;
  tokensSaved : Z;
  byReason : jsmap GuardAbortReason Z
}.

#[export] Instance reason_eq_dec : EqDecision GuardAbortReason.
Proof. solve_decision. Defined.

Definition initialRecoveryTelemetry : RecoveryTelemetry := mkTelemetry 0 0 0 0 0 [].

Definition recordAbort (t : RecoveryTelemetry) (reason : GuardAbortReason) (tokensAtAbort maxOutputBudget : Z) : RecoveryTelemetry :=
  mkTelemetry (abortCount t + 1) (retrySuccess t) (retryFailure t) (fallbackCount t)
    (tokensSaved t + Z.max 0 (maxOutputBudget - tokensAtAbort))
    (map_set reason (nullish (map_get reason (byReason t)) 0 + 1) (byReason t)).

Definition recordRetryOutcome (t : RecoveryTelemetry) (success usedFallback : bool) : RecoveryTelemetry :=
  mkTelemetry (abortCount t)
    (if success then retrySuccess t + 1 else retrySuccess t)
    (if success then retryFailure t else retryFailure t + 1)
    (if usedFallback then fallbackCount t + 1 else fallbackCount t)
    (tokensSaved t) (byReason t).

End Recovery.

(** * Properties *)
Module GuardProps.
Import Recovery.

(** A stream of what the session reports. *)
Inductive stream_event := chunk (d : string) | progressed (p : ProgressEventType).

Section Streams.
Context (config : GenerationGuardConfig).

(** The guard fed with deltas, and with the cumulative text [acc] grows into. *)
Fixpoint run_deltas (evs : list stream_event) (g : GenerationGuard) : GenerationGuard * list GuardDecision :=
  match evs with
  | [] => (g, [])
  | chunk d :: evs' =>
      let '(g1, v) := feed config d g in
      let '(g2, vs) := run_deltas evs' g1 in (g2, v :: vs)
  | progressed p :: evs' => run_deltas evs' (onProgress p g)
  end.
Fixpoint run_snapshots (acc : string) (evs : list stream_event) (g : GenerationGuard)
  : GenerationGuard * list GuardDecision :=
  match evs with
  | [] => (g, [])
  | chunk d :: evs' =>
      let '(g1, v) := feedSnapshot config (acc +:+ d) g in
      let '(g2, vs) := run_snapshots (acc +:+ d) evs' g1 in (g2, v :: vs)
  | progressed p :: evs' => run_snapshots acc evs' (onProgress p g)
  end.

Definition chunks_nonempty (evs : list stream_event) : bool :=
  js_every (fun e => match e with chunk d => truthy d | progressed _ => true end) evs.

(** The snapshot accounting is in step with the text. *)
Definition synced (g : GenerationGuard) : Prop :=
  consumedSnapshotLength g = String.length (getAccumulatedText g).

Lemma js_join_snoc l t : js_join "" (l ++ [t])%list = js_join "" l +:+ t.
Proof.
  induction l as [|x l IH]; [reflexivity|]. destruct l as [|y l]; [reflexivity|].
  change (js_join "" ((x :: y :: l) ++ [t])%list) with (x +:+ "" +:+ js_join "" ((y :: l) ++ [t])%list).
  rewrite IH. change (js_join "" (x :: y :: l)) with (x +:+ "" +:+ js_join "" (y :: l)).
  by rewrite !string_app_assoc.
Qed.

Lemma feed_text t g :
  enabled config = true -> getAccumulatedText (feed config t g).1 = getAccumulatedText g +:+ t.
Proof. intros He. unfold feed. rewrite He. apply js_join_snoc. Qed.

Lemma feed_synced t g : synced g -> synced (feed config t g).1.
Proof.
  intros Hs. destruct (enabled config) eqn:He; [|by unfold feed; rewrite He].
  unfold synced. rewrite feed_text, string_length_app, <-Hs by done. unfold feed. by rewrite He.
Qed.

Lemma onProgress_synced p g : synced g -> synced (onProgress p g).
Proof. done. Qed.

Lemma substring_all (x : string) : String.substring 0 (String.length x) x = x.
Proof. rewrite <-(string_app_nil_r x) at 2. apply substring_prefix. Qed.

Lemma substring_suffix (x y : string) : String.substring (String.length x) (String.length y) (x +:+ y) = y.
Proof.
  induction x as [|c x IH]; [apply substring_all|].
  change (String c x +:+ y) with (String c (x +:+ y)). exact IH.
Qed.

(** One snapshot that extends what was seen is one delta. *)
Lemma snapshot_delta g d :
  synced g -> truthy d = true -> feedSnapshot config (getAccumulatedText g +:+ d) g = feed config d g.
Proof.
  intros Hs Hd. unfold feedSnapshot.
  destruct (enabled config) eqn:He; [simpl|unfold feed; by rewrite He]. rewrite Hs. fold (getAccumulatedText g).
  rewrite substring_all, string_length_app.
  destruct (Nat.leb_spec (String.length (getAccumulatedText g)) (String.length (getAccumulatedText g) + String.length d));
    [|lia].
  assert (js_startsWith (getAccumulatedText g +:+ d) (getAccumulatedText g) = true) as ->
    by (apply js_startsWith_true; eauto).
  simpl. replace (_ + _ - _)%nat with (String.length d) by lia. by rewrite substring_suffix, Hd.
Qed.

Lemma run_snapshots_deltas evs g :
  enabled config = true -> synced g -> chunks_nonempty evs = true ->
  run_snapshots (getAccumulatedText g) evs g = run_deltas evs g.
Proof.
  intros He. revert g. induction evs as [|[d|p] evs IH]; intros g Hs Hne; [done| |].
  - cbn [chunks_nonempty js_every forallb] in Hne. apply andb_true_iff in Hne as [Hd Hne].
    cbn [run_snapshots run_deltas]. rewrite snapshot_delta by done.
    pose proof (feed_text d g He) as Ht. pose proof (feed_synced d g Hs) as Hs'.
    destruct (feed config d g) as [g1 v]. simpl in Ht, Hs'. rewrite <-Ht, IH; done.
  - cbn [run_snapshots run_deltas]. apply (IH (onProgress p g)); done.
Qed.

(** ** Budgets *)

(** The characters streamed since the last progress event, after [n] of them. *)
Fixpoint chars_since (n : Z) (evs : list stream_event) : Z :=
  match evs with
  | [] => n
  | chunk d :: evs' => chars_since (n + Z.of_nat (String.length d)) evs'
  | progressed _ :: evs' => chars_since 0 evs'
  end.
(** The characters streamed in all. *)
Fixpoint chars_total (evs : list stream_event) : Z :=
  match evs with
  | [] => 0
  | chunk d :: evs' => Z.of_nat (String.length d) + chars_total evs'
  | progressed _ :: evs' => chars_total evs'
  end.

Lemma tokens_bounds t : Z.of_nat (String.length t) <= 4 * tokens t /\ 0 <= tokens t <= Z.of_nat (String.length t).
Proof. unfold tokens. generalize (String.length t) as n. intros n. Z.to_euclidean_division_equations; lia. Qed.

Lemma feed_tokens t g : enabled config = true ->
  tokensSinceProgress (gstate (feed config t g).1) = tokensSinceProgress (gstate g) + tokens t /\
  narrationTokens (gstate (feed config t g).1) = narrationTokens (gstate g) + tokens t /\
  hasProgress (gstate (feed config t g).1) = hasProgress (gstate g) /\
  toolCallCount (gstate (feed config t g).1) = toolCallCount (gstate g) /\
  finalAnswerStarted (gstate (feed config t g).1) = finalAnswerStarted (gstate g).
Proof. intros He. unfold feed. by rewrite He. Qed.

Lemma aborts_true d : aborts d = true <-> d <> go_on.
Proof. unfold aborts. rewrite negb_true_iff. apply bool_decide_eq_false. Qed.

(** A decision to go on means that every detector is silent. *)
Lemma feed_silent t g : enabled config = true -> (feed config t g).2 = go_on ->
  let s := gstate (feed config t g).1 in
  checkRepeatedSentence config s = go_on /\ checkNoProgress config s = go_on /\
  checkExcessiveNarration config s = go_on.
Proof.
  intros He. unfold feed. rewrite He. simpl. set (s := mkState _ _ _ _ _ _ _). unfold aborts.
  repeat case_bool_decide; simpl; naive_solver.
Qed.

Lemma checkNoProgress_silent s :
  checkNoProgress config s = go_on <-> tokensSinceProgress s <= maxReasoningTokensWithoutProgress config.
Proof. unfold checkNoProgress. destruct (Z.leb_spec (tokensSinceProgress s) (maxReasoningTokensWithoutProgress config)); naive_solver lia. Qed.

Lemma healthy_chars evs g n :
  enabled config = true -> 0 <= maxReasoningTokensWithoutProgress config ->
  n <= 4 * tokensSinceProgress (gstate g) ->
  n <= 4 * maxReasoningTokensWithoutProgress config ->
  js_every (fun v => negb (aborts v)) (run_deltas evs g).2 = true ->
  chars_since n evs <= 4 * maxReasoningTokensWithoutProgress config.
Proof.
  intros He Hmax. revert g n. induction evs as [|[d|p] evs IH]; intros g n Hn Hm Hall; [done| |].
  - cbn [run_deltas chars_since] in *.
    pose proof (feed_tokens d g He) as (Ht & _). pose proof (feed_silent d g He) as Hsil.
    destruct (feed config d g) as [g1 v]. destruct (run_deltas evs g1) as [g2 vs] eqn:Er. simpl in Hall, Ht, Hsil.
    apply andb_true_iff in Hall as [Hv Hvs]. unfold aborts in Hv. rewrite negb_involutive, bool_decide_eq_true in Hv.
    destruct (Hsil Hv) as (_ & Hnp & _). apply checkNoProgress_silent in Hnp. pose proof (tokens_bounds d).
    apply (IH g1); [lia|lia|by rewrite Er].
  - cbn [run_deltas chars_since] in *. apply (IH (onProgress p g)); [simpl; lia|lia|done].
Qed.

(** ** Repetition *)

(** The last [n] elements. *)
Definition lastn {A} (n : nat) (l : list A) : list A := drop (length l - n) l.

Lemma lastn_lastn_app {A} n (l k : list A) : lastn n (lastn n l ++ k)%list = lastn n (l ++ k)%list.
Proof.
  unfold lastn. rewrite !length_app, length_drop.
  destruct (decide (length l <= n)%nat).
  - replace (length l - n)%nat with 0%nat by lia. rewrite drop_0. f_equal. lia.
  - rewrite <-(drop_app_le l k (length l - n)%nat), drop_drop by lia. f_equal. lia.
Qed.

Lemma trim_window_lastn w :
  0 < repeatedWindowSize config -> trim_window config w = lastn (Z.to_nat (repeatedWindowSize config)) w.
Proof.
  intros Hw. unfold trim_window, lastn, js_slice_list, js_len.
  destruct (Z.ltb_spec (repeatedWindowSize config) (Z.of_nat (length w))).
  - destruct (Z.ltb_spec (- repeatedWindowSize config) 0); [|lia]. f_equal. lia.
  - replace (length w - Z.to_nat (repeatedWindowSize config))%nat with 0%nat by lia. by rewrite drop_0.
Qed.

(** The sentences that entered the window since the last progress event, after
    those of [e]. *)
Fixpoint entered (e : list string) (evs : list stream_event) (g : GenerationGuard) : list string :=
  match evs with
  | [] => e
  | chunk d :: evs' =>
      let fresh := drop (processedSentenceCount g) (splitCompleteSentences (getAccumulatedText g +:+ d)) in
      entered (e ++ window_entries fresh)%list evs' (feed config d g).1
  | progressed p :: evs' => entered [] evs' (onProgress p g)
  end.

Lemma feed_window t g : enabled config = true ->
  sentenceWindow (gstate (feed config t g).1) =
  trim_window config (sentenceWindow (gstate g) ++
    window_entries (drop (processedSentenceCount g) (splitCompleteSentences (getAccumulatedText g +:+ t))))%list.
Proof. intros He. unfold feed. rewrite He. simpl. by rewrite js_join_snoc. Qed.

Lemma window_is_suffix evs g e :
  enabled config = true -> 0 < repeatedWindowSize config ->
  sentenceWindow (gstate g) = lastn (Z.to_nat (repeatedWindowSize config)) e ->
  sentenceWindow (gstate (run_deltas evs g).1) =
  lastn (Z.to_nat (repeatedWindowSize config)) (entered e evs g).
Proof.
  intros He Hw. revert g e. induction evs as [|[d|p] evs IH]; intros g e Hg; [done| |].
  - cbn [run_deltas entered]. pose proof (feed_window d g He) as Hd.
    destruct (feed config d g) as [g1 v]. destruct (run_deltas evs g1) as [g2 vs] eqn:Er. simpl in *.
    specialize (IH g1). rewrite Er in IH. apply IH. by rewrite Hd, trim_window_lastn, Hg, lastn_lastn_app.
  - cbn [run_deltas entered]. by apply IH.
Qed.

Lemma window_counts_ok w m : map_ok m -> map_ok (foldl count_step m w).
Proof. revert m. induction w as [|x w IH]; intros m Hm; [done|]. apply IH. unfold count_step. auto with pieng. Qed.

Lemma window_counts_get s w m :
  map_get s (foldl count_step m w) =
  if decide (occ s w = 0%nat) then map_get s m else Some (nullish (map_get s m) 0 + Z.of_nat (occ s w)).
Proof.
  revert m. induction w as [|x w IH]; intros m; [done|]. simpl. rewrite IH. rewrite occ_cons.
  unfold count_step. rewrite map_get_set. unfold nullish.
  destruct (decide (x = s)) as [->|Hne].
  - rewrite (decide_True (P := s = s)) by done. destruct (decide (occ s w = 0%nat)) as [E|E].
    + rewrite decide_False by lia. f_equal. lia.
    + rewrite decide_False by lia. simpl. f_equal. lia.
  - rewrite (decide_False (P := s = x)) by congruence. done.
Qed.

Lemma checkRepeatedSentence_exact s :
  0 < repeatedSentenceThreshold config ->
  aborts (checkRepeatedSentence config s) = true <->
  exists t, repeatedSentenceThreshold config <= Z.of_nat (occ t (sentenceWindow s)).
Proof.
  intros Hthr. rewrite aborts_true. unfold checkRepeatedSentence. set (w := sentenceWindow s).
  assert (map_ok (window_counts w)) as Hok by (apply window_counts_ok; constructor).
  assert (forall t, (occ t w <= length w)%nat) as Hocc by (intros t; unfold occ; apply length_filter).
  destruct (Z.ltb_spec (js_len w) (repeatedSentenceThreshold config)) as [Hlt|Hge].
  { split; [done|]. intros [t Ht]. unfold js_len in Hlt. specialize (Hocc t). lia. }
  destruct (js_find _ _) as [[t c]|] eqn:E.
  - split; [intros _|done]. apply js_find_some in E as [Hin Hc]. simpl in Hc. apply Z.leb_le in Hc. exists t.
    apply map_elem_get in Hin; [|done]. unfold window_counts in Hin. rewrite window_counts_get in Hin. simpl in Hin.
    destruct (decide (occ t w = 0%nat)); simplify_eq/=. lia.
  - split; [done|]. intros [t Ht]. rewrite js_find_none in E.
    assert (map_get t (window_counts w) = Some (Z.of_nat (occ t w))) as Hg.
    { unfold window_counts. rewrite window_counts_get. rewrite decide_False by lia. done. }
    apply map_get_elem, E in Hg. simpl in Hg. lia.
Qed.

Lemma run_deltas_snoc evs d g :
  (run_deltas (evs ++ [chunk d])%list g).1 = (feed config d (run_deltas evs g).1).1.
Proof.
  revert g. induction evs as [|[e|p] evs IH]; intros g; cbn [run_deltas app].
  - cbn [fst]. by destruct (feed config d g).
  - destruct (feed config e g) as [g1 v]. specialize (IH g1). destruct (run_deltas (evs ++ _)%list g1), (run_deltas evs g1).
    exact IH.
  - apply IH.
Qed.
End Streams.

(** Feeding the growing text of a message charges what feeding its deltas
    charges: from a fresh guard, on any stream of chunks and progress events, the
    two ways of feeding give the same guard and the same decisions. *)
Theorem snapshots_are_deltas config evs :
  enabled config = true -> chunks_nonempty evs = true ->
  run_snapshots config "" evs new = run_deltas config evs new.
Proof. intros He Hne. by apply (run_snapshots_deltas config evs new). Qed.

(** A stream the guard lets through has bounded silence: between two progress
    events, and at its end, at most four characters per token of the budget were
    streamed. *)
Theorem healthy_stream_bounded config evs :
  enabled config = true -> 0 <= maxReasoningTokensWithoutProgress config ->
  js_every (fun v => negb (aborts v)) (run_deltas config evs new).2 = true ->
  chars_since 0 evs <= 4 * maxReasoningTokensWithoutProgress config.
Proof. intros He Hm Hall. apply (healthy_chars config evs new); simpl; [done|done|lia|lia|done]. Qed.

(** The repetition detector is exact: the decision on a chunk is the repetition
    abort if and only if some normalised sentence occurs at least
    [repeatedSentenceThreshold] times among the last [repeatedWindowSize] sentences
    completed since the last progress event. *)
Theorem repetition_exact config evs d :
  enabled config = true -> 0 < repeatedSentenceThreshold config -> 0 < repeatedWindowSize config ->
  (exists t c n k, (feed config d (run_deltas config evs new).1).2 = repeated_sentence t c n k) <->
  exists t, repeatedSentenceThreshold config <=
            Z.of_nat (occ t (lastn (Z.to_nat (repeatedWindowSize config)) (entered config [] (evs ++ [chunk d])%list new))).
Proof.
  intros He Hthr Hw. rewrite <-(window_is_suffix config (evs ++ [chunk d])%list new []), run_deltas_snoc by done.
  rewrite <-checkRepeatedSentence_exact by done. generalize (run_deltas config evs new).1 as g. intros g.
  unfold feed. rewrite He. simpl. set (s := mkState _ _ _ _ _ _ _).
  destruct (aborts (checkRepeatedSentence config s)) eqn:E.
  - split; [done|]. intros _. unfold checkRepeatedSentence in *.
    repeat match type of E with context [match ?x with _ => _ end] => destruct x end; eauto 6; done.
  - split; [|done]. intros (t & c & n & k & H). exfalso. revert H. unfold checkNoProgress, checkExcessiveNarration.
    repeat case_match; discriminate.
Qed.

(** Three calls of [Math.ceil] cost more than one: a text streamed one character
    at a time is charged a token per character, four times the estimate the
    budgets are calibrated to. *)
Fixpoint chars_of (t : string) : list stream_event :=
  match t with EmptyString => [] | String c t' => chunk (String c "") :: chars_of t' end.

Theorem single_characters_cost_a_token config t :
  enabled config = true ->
  narrationTokens (gstate (run_deltas config (chars_of t) new).1) = Z.of_nat (String.length t) /\
  narrationTokens (gstate (run_deltas config [chunk t] new).1) = (Z.of_nat (String.length t) + 3) / 4.
Proof.
  intros He. split.
  - change (Z.of_nat (String.length t)) with (narrationTokens (gstate new) + Z.of_nat (String.length t)).
    generalize new as g. induction t as [|c t IH]; intros g; cbn [chars_of run_deltas].
    + simpl. lia.
    + pose proof (feed_tokens config (String c "") g He) as (_ & Hn & _).
      destruct (feed config (String c "") g) as [g1 v]. specialize (IH g1).
      destruct (run_deltas config (chars_of t) g1) as [g2 vs]. simpl in *. change (tokens (String c "")) with 1 in Hn. lia.
  - cbn [run_deltas]. pose proof (feed_tokens config t new He) as (_ & Hn & _).
    destruct (feed config t new) as [g1 v]. simpl in *. rewrite Hn. unfold tokens. lia.
Qed.

(** Discourse markers are stripped from inside words, and the two-word markers
    never are. *)
Theorem marker_inside_word :
  normalizeSentence "Some tests fail." = "me tests fail" /\
  normalizeSentence "Okay then, run it." = "then, run it".
Proof. split; vm_compute; reflexivity. Qed.

Definition effort_rank (e : ReasoningEffort) : Z := match e with low => 0 | medium => 1 | high => 2 end.

Lemma lower_le e : effort_rank (lowerReasoningEffort e) <= effort_rank e.
Proof. destruct e; simpl; lia. Qed.

Lemma effort_after e a : 2 <= a -> reasoningEffortForRecovery e a = low.
Proof.
  intros Ha. unfold reasoningEffortForRecovery. replace (Z.to_nat a) with (S (S (Z.to_nat (a - 2)))) by lia.
  generalize (Z.to_nat (a - 2)) as n. induction n as [|n IH]; [by destruct e|].
  change (Nat.iter (S (S (S n))) lowerReasoningEffort e) with (lowerReasoningEffort (Nat.iter (S (S n)) lowerReasoningEffort e)).
  by rewrite IH.
Qed.

(** The ladder is bounded and only descends: exactly the attempts up to
    [maxRecoveryAttempts] are retried, the next one is the degeneration error that
    counts them; along the retried attempts, compaction and the fallback model stay
    on once they are on, and the reasoning effort never rises and is [low] from the
    second attempt. *)
Theorem recovery_ladder config effort model reason a b :
  1 <= a <= b ->
  let d n := decideRecovery n config effort model reason in
  (shouldRetry (d b) = true <-> b <= maxRecoveryAttempts config) /\
  (rd_error (d b) = if b <=? maxRecoveryAttempts config then None
                    else Some (mkDegeneration model (b - 1) (maxRecoveryAttempts config) reason)) /\
  (shouldRetry (d b) = true ->
     shouldRetry (d a) = true /\
     (compactContext (d a) = true -> compactContext (d b) = true) /\
     (useFallbackModel (d a) = true -> useFallbackModel (d b) = true) /\
     effort_rank (reasoningEffort (d b)) <= effort_rank (reasoningEffort (d a)) /\
     (lowerReasoningEffortOnRetry config = true -> 2 <= b -> reasoningEffort (d b) = low)).
Proof.
  intros Hab d. subst d. cbv beta. unfold decideRecovery.
  destruct (Z.ltb_spec (maxRecoveryAttempts config) b) as [Hb|Hb], (Z.leb_spec b (maxRecoveryAttempts config));
    try lia; simpl; [split_and!; [split; [done|lia]|done|intros E; discriminate E]|].
  destruct (Z.ltb_spec (maxRecoveryAttempts config) a); simpl; [lia|].
  split_and!; [done|done|]. intros _. rewrite !andb_true_iff, !Z.ltb_lt, !Z.leb_le.
  split_and!; [done|lia|lia| |].
  - destruct (lowerReasoningEffortOnRetry config); [|lia]. destruct (decide (a = b)) as [->|]; [lia|].
    rewrite (effort_after effort b) by lia. destruct (reasoningEffortForRecovery effort a); simpl; lia.
  - intros -> Hb2. by apply effort_after.
Qed.

(** *** Samples *)
Definition looping : string := "Let me inspect the repository. ".
Definition sample_stream : list stream_event :=
  [chunk looping; chunk looping; progressed tool_call; chunk looping; chunk "Now I will run it."].

Lemma snapshots_are_deltas_witness :
  run_snapshots DEFAULT_GUARD_CONFIG "" sample_stream new = run_deltas DEFAULT_GUARD_CONFIG sample_stream new.
Proof. apply snapshots_are_deltas; vm_compute; reflexivity. Defined.

Lemma healthy_stream_bounded_witness : chars_since 0 sample_stream <= 4 * 4000.
Proof. apply (healthy_stream_bounded DEFAULT_GUARD_CONFIG); [reflexivity|simpl; lia|vm_compute; reflexivity]. Defined.

Lemma repetition_exact_witness :
  exists t c n k, (feed DEFAULT_GUARD_CONFIG looping (run_deltas DEFAULT_GUARD_CONFIG [chunk looping; chunk looping; chunk looping] new).1).2
    = repeated_sentence t c n k.
Proof.
  apply repetition_exact; [reflexivity|simpl; lia|simpl; lia|]. exists "let me inspect the repository".
  vm_compute. discriminate.
Defined.

Lemma single_characters_cost_a_token_witness :
  narrationTokens (gstate (run_deltas DEFAULT_GUARD_CONFIG (chars_of "Let me look.") new).1) = 12 /\
  narrationTokens (gstate (run_deltas DEFAULT_GUARD_CONFIG [chunk "Let me look."] new).1) = 3.
Proof. apply (single_characters_cost_a_token DEFAULT_GUARD_CONFIG "Let me look."). reflexivity. Defined.

Lemma recovery_ladder_witness :
  let d n := decideRecovery n DEFAULT_GUARD_CONFIG high "m" r_no_progress in
  shouldRetry (d 1) = true /\ (compactContext (d 1) = true -> compactContext (d 3) = true) /\ reasoningEffort (d 3) = low.
Proof.
  destruct (recovery_ladder DEFAULT_GUARD_CONFIG high "m" r_no_progress 1 3) as (_ & _ & H); [lia|].
  destruct H as (H1 & H2 & _ & _ & H3); [reflexivity|]. split_and!; [done|done|]. by apply H3.
Defined.
End GuardProps.
