(* ===== verification/ToolCallGuard.v ===== *)
(** * The tool-call loop guard (src/guard/toolCallGuard.ts)

    The guard on the tool-call hook of a session: it blocks a call that repeats the
    previous ones, gives test and build commands a default timeout (it patches the
    caller's input object, so the patched input is part of the result), and refuses
    to run again at once a command that just timed out. How numbers are printed is
    a parameter; every pattern is the one of the source. *)

From Stdlib Require Import QArith.
From S2P Require Import Prelude JsMap LedgerView Regex.

Open Scope string_scope.
Open Scope Z_scope.

(** ** Configuration *)

Record ToolCallGuardConfig := mkToolConfig {
  tc_enabled : bool;
  maxIdenticalConsecutive : Z;
  testCommandTimeoutSec : Z
}.
Definition DEFAULT_TOOL_CALL_GUARD_CONFIG : ToolCallGuardConfig := mkToolConfig true 8 3600.
Definition STATUS_POLL_LIMIT_FACTOR : Z := 10.
Definition INTERRUPTION_MEMORY_CALLS : Z := 3.

Definition positiveInt (value : option string) (fallback : Z) : Z :=
  match value ≫= parseInt with
  | Some n => if 0 <? n then n else fallback
  | None => fallback
  end.

Definition resolveToolCallGuardConfig (env : string -> option string) : ToolCallGuardConfig :=
  mkToolConfig
    (negb (test (RBegin · alts (map lit_i ["0"; "false"; "off"; "no"]) · REnd)%re (nullish (env "PI_TOOL_CALL_GUARD") "")))
    (positiveInt (env "PI_REPEATED_TOOL_CALL_LIMIT") (maxIdenticalConsecutive DEFAULT_TOOL_CALL_GUARD_CONFIG))
    (positiveInt (env "PI_BASH_TEST_TIMEOUT_SEC") (testCommandTimeoutSec DEFAULT_TOOL_CALL_GUARD_CONFIG)).

(** ** Patterns *)

Definition sp : regex := plus (RSet is_space).
Definition sp0 : regex := star (RSet is_space).
Definition nonspace : regex := RSet (cneg is_space).
Definition any_word (l : list string) : regex := alts (map lit l).

Definition TEST_OR_BUILD : regex :=
  (RBegin · alts
    [any_word ["npm"; "pnpm"; "yarn"; "bun"] · sp · opt (lit "run" · sp)
       · any_word ["test"; "build"; "typecheck"; "check"; "lint"] · RWord;
     lit "node" · sp · lit "--test" · RWord;
     lit "npx" · sp · any_word ["tsc"; "vitest"; "jest"; "mocha"; "playwright"] · RWord;
     lit "tsc" · RWord; lit "vitest" · RWord; lit "jest" · RWord;
     lit "cargo" · sp · any_word ["test"; "build"; "check"; "clippy"] · RWord;
     lit "go" · sp · any_word ["test"; "build"; "vet"] · RWord;
     lit "pytest" · RWord;
     lit "python" · opt (lit "3") · sp · lit "-m" · sp · lit "pytest" · RWord;
     lit "make" · RWord; lit "mvn" · RWord; lit "gradle" · RWord; lit "./gradlew" · RWord; lit "sbt" · RWord;
     lit "dotnet" · sp · any_word ["test"; "build"] · RWord])%re.

Definition COMMAND_PREFIX : regex :=
  (RBegin · star (alts
    [RSet (cunion letter (one_of "_")) · star (RSet word) · lit "=" · star nonspace · sp;
     any_word ["time"; "sudo"; "nice"; "env"; "command"; "exec"] · sp;
     lit "timeout" · sp · star (lit "-" · plus nonspace · sp) · plus nonspace · sp]))%re.

(** The separators of a compound command; 10 is the newline. *)
Definition SEGMENT_SEPARATOR : regex :=
  alts [lit "&&"; lit "||"; RSet (cunion (one_of ";|&()") (fun c => bool_decide (c = ascii_of_N 10)))].

Definition runsTestOrBuild (command : string) : bool :=
  js_some (fun segment => test TEST_OR_BUILD (replace_first COMMAND_PREFIX (fun _ _ => "") (js_trim segment)))
    (split_re SEGMENT_SEPARATOR command).

Definition STATUS_POLL : regex :=
  let unpiped := star (RSet (cneg (one_of ";&|"))) in
  (RBegin
   · opt (lit "sleep" · sp · plus (RSet digit) · opt (RSet (one_of "smh")) · sp0 · any_word ["&&"; ";"] · sp0)
   · alts
      [lit "gh" · sp · alts
         [lit "pr" · sp · any_word ["checks"; "status"; "view"; "list"];
          lit "run" · sp · any_word ["list"; "view"; "watch"];
          lit "issue" · sp · any_word ["view"; "list"]];
       lit "git" · sp · any_word ["status"; "log"; "diff"; "show"; "fetch"; "rev-parse"; "branch"];
       lit "squeue"; lit "sacct"; lit "kubectl" · sp · lit "get"; lit "docker" · sp · lit "ps"]
   · RWord · unpiped
   · star (lit "|" · sp0 · any_word ["head"; "tail"; "grep"; "jq"; "wc"; "sort"] · RWord · unpiped)
   · REnd)%re.

Definition TIMED_OUT : regex := (lit "Command timed out after " · plus (RSet digit) · lit " seconds")%re.

(** ** Signatures *)

Definition hex_digit (n : N) : string :=
  String (ascii_of_N (if (n <? 10)%N then 48 + n else 87 + n)) "".
(** A character inside a JSON string. *)
Definition json_char (c : ascii) : string :=
  let n := N_of_ascii c in
  let esc d := String (ascii_of_N 92) (String d "") in
  if (n =? 34)%N || (n =? 92)%N then esc c
  else if (n =? 8)%N then esc "b"%char
  else if (n =? 9)%N then esc "t"%char
  else if (n =? 10)%N then esc "n"%char
  else if (n =? 12)%N then esc "f"%char
  else if (n =? 13)%N then esc "r"%char
  else if (n <? 32)%N then esc "u"%char +:+ "00" +:+ hex_digit (n / 16) +:+ hex_digit (n mod 16)
  else String c "".
Definition quote : string := String (ascii_of_N 34) "".
Fixpoint json_chars (s : string) : string :=
  match s with EmptyString => "" | String c s' => json_char c +:+ json_chars s' end.
Definition json_string (s : string) : string := quote +:+ json_chars s +:+ quote.

Definition key_le (a b : string * string) : bool := negb (String.ltb (fst b) (fst a)).

Section Guard.
(** The decimal form of a number. *)
Context (num_text : Q -> string).

Fixpoint stableStringify (value : json) : string :=
  match value with
  | jarr l => "[" +:+ js_join "," (map stableStringify l) +:+ "]"
  | jobj o =>
      let printed := map (fun kv : string * json => (fst kv, stableStringify (snd kv))) o in
      "{" +:+ js_join "," (map (fun kt : string * string => json_string (fst kt) +:+ ":" +:+ snd kt) (js_sort key_le printed))
          +:+ "}"
  | jstr s => json_string s
  | jnum n => num_text n
  | jbool b => if b then "true" else "false"
  | jnull => "null"
  end.

Definition prop (k : string) (input : json) : option json :=
  match input with jobj o => field k o | _ => None end.

Definition bashCommand (toolName : string) (input : json) : option string :=
  if bool_decide (toolName = "bash") then js_trim <$> as_string (prop "command" input) else None.

Definition signature (toolName : string) (input : json) : string :=
  toolName +:+ String (ascii_of_N 0) "" +:+ stableStringify input.

(** ** The guard *)

Record Interruption := mkInterruption { in_command : string; in_timeout : option Q; otherCalls : Z }.
Record ToolCallGuard := mkToolGuard {
  lastSignature : option string;
  identicalRun : Z;
  interrupted : option Interruption
}.
Definition new_guard : ToolCallGuard := mkToolGuard None 0 None.

(** The two verdicts that block, and the text they carry. *)
Inductive ToolCallVerdict := blocked_identical (toolName : string) (run : Z) | blocked_timed_out (command : string).
Definition verdict_reason (v : ToolCallVerdict) : string :=
  match v with
  | blocked_identical toolName run =>
      "Blocked: identical " +:+ toolName +:+ " call (same arguments) repeated " +:+ js_num run +:+
      " times in a row. Its result will not change; inspect the previous result and change approach."
  | blocked_timed_out command =>
      "Blocked: `" +:+ js_slice 120 command +:+ "` just timed out. Re-running it unchanged will do the same; " +:+
      "narrow it (e.g. a single test file) or pass a larger explicit timeout."
  end.

Context (config : ToolCallGuardConfig).

(** The cap of a call. *)
Definition call_limit (toolName : string) (input : json) : Z :=
  match bashCommand toolName input with
  | Some command => if test STATUS_POLL command then maxIdenticalConsecutive config * STATUS_POLL_LIMIT_FACTOR
                    else maxIdenticalConsecutive config
  | None => maxIdenticalConsecutive config
  end.

(** What another call does to the memory of a timeout. *)
Definition age (i : option Interruption) (command : option string) : option Interruption :=
  match i with
  | Some i => if bool_decide (Some (in_command i) = command) then Some i
              else if INTERRUPTION_MEMORY_CALLS <=? otherCalls i + 1 then None
              else Some (mkInterruption (in_command i) (in_timeout i) (otherCalls i + 1))
  | None => None
  end.

Definition raised (i : Interruption) (timeout : option Q) : bool :=
  match timeout, in_timeout i with
  | Some t, Some t' => negb (Qle_bool t t')
  | Some _, None => true
  | None, _ => false
  end.

(** The default timeout, written into the input object. *)
Definition with_default_timeout (command : string) (timeout : option Q) (input : json) : json :=
  match input, timeout with
  | jobj o, None => if runsTestOrBuild command
                    then jobj (map_set "timeout" (jnum (inject_Z (testCommandTimeoutSec config))) o)
                    else input
  | _, _ => input
  end.

Definition onToolCall (toolName : string) (input : json) (g : ToolCallGuard)
  : ToolCallGuard * json * option ToolCallVerdict :=
  if negb (tc_enabled config) then (g, input, None)
  else
    let sig := signature toolName input in
    let run := if bool_decide (lastSignature g = Some sig) then identicalRun g + 1 else 1 in
    let command := bashCommand toolName input in
    if call_limit toolName input <? run
    then (mkToolGuard (Some sig) run (interrupted g), input, Some (blocked_identical toolName run))
    else
      let i := age (interrupted g) command in
      match command with
      | None => (mkToolGuard (Some sig) run i, input, None)
      | Some command =>
          let timeout := as_number (prop "timeout" input) in
          match i with
          | Some i' =>
              if bool_decide (in_command i' = command) then
                if negb (raised i' timeout)
                then (mkToolGuard (Some sig) run i, input, Some (blocked_timed_out command))
                else (mkToolGuard (Some sig) run None, with_default_timeout command timeout input, None)
              else (mkToolGuard (Some sig) run i, with_default_timeout command timeout input, None)
          | None => (mkToolGuard (Some sig) run i, with_default_timeout command timeout input, None)
          end
      end.

Definition onToolResult (toolName : string) (input : json) (isError : bool) (text : string) (g : ToolCallGuard)
  : ToolCallGuard :=
  if negb (tc_enabled config) then g
  else match bashCommand toolName input with
       | None => g
       | Some command =>
           if isError && test TIMED_OUT text
           then mkToolGuard (lastSignature g) (identicalRun g)
                  (Some (mkInterruption command (as_number (prop "timeout" input)) 0))
           else match interrupted g with
                | Some i => if bool_decide (in_command i = command)
                            then mkToolGuard (lastSignature g) (identicalRun g) None else g
                | None => g
                end
       end.

(** * Properties *)

(** What a session reports to the guard. *)
Inductive event :=
  | call (toolName : string) (input : json)
  | result (toolName : string) (input : json) (isError : bool) (text : string).

Definition step (e : event) (g : ToolCallGuard) : ToolCallGuard :=
  match e with
  | call t i => (onToolCall t i g).1.1
  | result t i isError text => onToolResult t i isError text g
  end.
Definition run (evs : list event) (g : ToolCallGuard) : ToolCallGuard := foldl (fun g e => step e g) g evs.

(** The signatures of the calls made, the last one first. *)
Definition sig_of (e : event) : list string := match e with call t i => [signature t i] | _ => [] end.
Definition past (evs : list event) : list string := rev (concat (map sig_of evs)).

(** How many of the last calls in a row had a given signature. *)
Fixpoint trailing (sig : string) (past : list string) : Z :=
  match past with
  | s :: p => if bool_decide (s = sig) then 1 + trailing sig p else 0
  | [] => 0
  end.

Definition sees (p : list string) (g : ToolCallGuard) : Prop :=
  match p with
  | [] => lastSignature g = None
  | s :: _ => lastSignature g = Some s /\ identicalRun g = trailing s p
  end.

Lemma onToolResult_signature t i e x g :
  lastSignature (onToolResult t i e x g) = lastSignature g /\ identicalRun (onToolResult t i e x g) = identicalRun g.
Proof. unfold onToolResult. repeat case_match; done. Qed.

Lemma onToolCall_signature t i g :
  tc_enabled config = true ->
  lastSignature (onToolCall t i g).1.1 = Some (signature t i) /\
  identicalRun (onToolCall t i g).1.1 =
    if bool_decide (lastSignature g = Some (signature t i)) then identicalRun g + 1 else 1.
Proof. intros He. unfold onToolCall. rewrite He. simpl. repeat case_match; done. Qed.

Lemma past_snoc evs e : past (evs ++ [e])%list = (rev (sig_of e) ++ past evs)%list.
Proof. unfold past. rewrite map_app, concat_app, rev_app_distr. simpl. by rewrite app_nil_r. Qed.

Lemma sees_run p g t i : sees p g ->
  (if bool_decide (lastSignature g = Some (signature t i)) then identicalRun g + 1 else 1) =
  1 + trailing (signature t i) p.
Proof.
  destruct p as [|s p]; [intros Hl|intros [Hl Hn]]; rewrite Hl; simpl; [done|].
  repeat case_bool_decide; simplify_eq; [|lia]. rewrite Hn. simpl. rewrite bool_decide_eq_true_2 by done. lia.
Qed.

Lemma run_sees evs : tc_enabled config = true -> sees (past evs) (run evs new_guard).
Proof.
  intros He. induction evs as [|e evs IH] using rev_ind; [done|].
  unfold run in *. rewrite foldl_snoc, past_snoc. simpl. destruct e as [t i|t i er x]; simpl.
  - destruct (onToolCall_signature t i (foldl (fun g e => step e g) new_guard evs) He) as [Hl Hn].
    rewrite Hl, Hn, (sees_run _ _ _ _ IH). split; [done|]. by rewrite bool_decide_eq_true_2.
  - destruct (onToolResult_signature t i er x (foldl (fun g e => step e g) new_guard evs)) as [Hl Hn].
    destruct (past evs); simpl in *; by rewrite Hl, ?Hn.
Qed.

(** ** The memory of a timeout *)

(** Another call or result than those of the command [c]. *)
Definition foreign (c : string) (e : event) : bool :=
  match e with
  | call t i => negb (bool_decide (bashCommand t i = Some c))
  | result t i isError text =>
      match bashCommand t i with
      | Some c' => negb (bool_decide (c' = c)) && negb (isError && test TIMED_OUT text)
      | None => true
      end
  end.

(** The calls that were not blocked as repetitions. *)
Fixpoint counted (evs : list event) (g : ToolCallGuard) : Z :=
  match evs with
  | [] => 0
  | e :: evs' =>
      match e with
      | call t i => match (onToolCall t i g).2 with Some (blocked_identical _ _) => 0 | _ => 1 end
      | result _ _ _ _ => 0
      end + counted evs' (step e g)
  end.

Definition remembered (c : string) (t : option Q) (n : Z) : option Interruption :=
  if n <? INTERRUPTION_MEMORY_CALLS then Some (mkInterruption c t n) else None.

Lemma foreign_step c t n e g :
  tc_enabled config = true -> foreign c e = true -> interrupted g = remembered c t n ->
  interrupted (step e g) = remembered c t (n + counted [e] g).
Proof.
  intros He Hf Hi. cbn [counted]. rewrite Z.add_0_r.
  destruct e as [tool i|tool i er x]; simpl in Hf |- *.
  - rewrite negb_true_iff, bool_decide_eq_false in Hf. unfold onToolCall. rewrite He. simpl.
    destruct (_ <? _); simpl; [by rewrite Z.add_0_r|].
    assert (age (interrupted g) (bashCommand tool i) = remembered c t (n + 1)) as Ha.
    { rewrite Hi. unfold age, remembered, INTERRUPTION_MEMORY_CALLS.
      destruct (Z.ltb_spec n 3); simpl.
      - rewrite bool_decide_eq_false_2 by congruence.
        destruct (Z.leb_spec 3 (n + 1)), (Z.ltb_spec (n + 1) 3); try lia; done.
      - by destruct (Z.ltb_spec (n + 1) 3); [lia|]. }
    rewrite Ha. destruct (bashCommand tool i) as [command|]; simpl; [|done].
    destruct (remembered c t (n + 1)) as [i'|] eqn:Er; simpl; [|done].
    assert (in_command i' = c) as Hc by (unfold remembered in Er; by destruct (_ <? _); simplify_eq).
    rewrite bool_decide_eq_false_2 by congruence. done.
  - rewrite Z.add_0_r. unfold onToolResult. rewrite He. simpl.
    destruct (bashCommand tool i) as [c'|]; [|done]. apply andb_true_iff in Hf as [Hc Ht].
    rewrite negb_true_iff in Hc, Ht. rewrite bool_decide_eq_false in Hc. rewrite Ht, Hi.
    unfold remembered. destruct (n <? _) eqn:En; simpl; [|by rewrite Hi; unfold remembered; rewrite En].
    rewrite bool_decide_eq_false_2 by congruence. rewrite Hi. unfold remembered. by rewrite En.
Qed.

Lemma foreign_run c t n evs g :
  tc_enabled config = true -> js_every (foreign c) evs = true -> interrupted g = remembered c t n ->
  interrupted (run evs g) = remembered c t (n + counted evs g).
Proof.
  intros He. revert g n. induction evs as [|e evs IH]; intros g n Hf Hi; [by rewrite Z.add_0_r|].
  cbn [js_every forallb] in Hf. apply andb_true_iff in Hf as [Hf Hfs].
  pose proof (foreign_step c t n e g He Hf Hi) as Hs.
  change (run (e :: evs) g) with (run evs (step e g)).
  rewrite (IH (step e g) _ Hfs Hs). f_equal. cbn [counted]. lia.
Qed.

Lemma onToolResult_timed_out t i x g c :
  tc_enabled config = true -> bashCommand t i = Some c -> test TIMED_OUT x = true ->
  interrupted (onToolResult t i true x g) = remembered c (as_number (prop "timeout" i)) 0.
Proof. intros He Hc Hx. unfold onToolResult. rewrite He, Hc, Hx. done. Qed.
End Guard.

(** A loop of identical calls is stopped, and nothing else is: after any history
    of calls and results, a call is blocked as a repetition exactly if it is the
    same as the calls before it and they are already as many as its limit allows
    (ten times as many for a read-only status poll). *)
Theorem repetition_blocked_exactly num_text config evs tool input :
  tc_enabled config = true ->
  ((exists n, (onToolCall num_text config tool input (run num_text config evs new_guard)).2 = Some (blocked_identical tool n)) <->
   call_limit config tool input <= trailing (signature num_text tool input) (past num_text evs)).
Proof.
  intros He. pose proof (sees_run num_text _ _ tool input (run_sees num_text config evs He)) as Hn.
  set (g := run num_text config evs new_guard) in *. unfold onToolCall. rewrite He. cbn [negb]. rewrite Hn.
  destruct (Z.ltb_spec (call_limit config tool input)
              (1 + trailing (signature num_text tool input) (past num_text evs))) as [H|H].
  - split; [lia|]. intros _. eexists. reflexivity.
  - split; [|lia]. intros [n Hv]. exfalso. revert Hv. repeat case_match; discriminate.
Qed.

(** A command that timed out is refused until it is changed: whatever other calls
    and results come in between, its next call is let through only if its timeout was
    raised or three other calls went by, and it is refused as timed out only if
    neither holds. *)
Theorem timed_out_command_refused num_text config g tool input text evs tool' input' c :
  tc_enabled config = true ->
  bashCommand tool input = Some c -> test TIMED_OUT text = true ->
  js_every (foreign c) evs = true -> bashCommand tool' input' = Some c ->
  let g1 := onToolResult config tool input true text g in
  let fresh := counted num_text config evs g1 <? INTERRUPTION_MEMORY_CALLS in
  let unchanged := negb (raised (mkInterruption c (as_number (prop "timeout" input)) 0) (as_number (prop "timeout" input'))) in
  let verdict := (onToolCall num_text config tool' input' (run num_text config evs g1)).2 in
  (fresh && unchanged = true -> verdict <> None) /\
  (verdict = Some (blocked_timed_out c) -> fresh && unchanged = true).
Proof.
  intros He Hc Ht Hf Hc' g1 fresh unchanged verdict.
  pose proof (foreign_run num_text config c _ 0 evs g1 He Hf (onToolResult_timed_out config tool input text g c He Hc Ht)) as Hi.
  rewrite Z.add_0_l in Hi. subst verdict. unfold onToolCall. rewrite He, Hc', Hi. cbn [negb]. fold fresh in Hi.
  destruct (call_limit config tool' input' <? _); cbn [snd]; [by split|]. unfold remembered. fold fresh. destruct fresh; simpl; [|by split].
  rewrite bool_decide_eq_true_2 by done. simpl. rewrite bool_decide_eq_true_2 by done.
  change (raised (mkInterruption c _ (counted _ _ _ _)) ?t) with (raised (mkInterruption c (as_number (prop "timeout" input)) 0) t).
  fold unchanged. by destruct unchanged.
Qed.

(** *** Samples *)
Module ToolSamples.
Definition num (q : Q) : string := js_num (Qnum q).
Definition bash (command : string) (timeout : option Z) : json :=
  jobj (("command", jstr command) :: match timeout with Some t => [("timeout", jnum (inject_Z t))] | None => [] end).
Definition cfg : ToolCallGuardConfig := DEFAULT_TOOL_CALL_GUARD_CONFIG.
Definition same (n : nat) (tool : string) (input : json) : list event := repeat (call tool input) n.

Example poll_limit : call_limit cfg "bash" (bash "gh pr checks 12 | grep fail" None) = 80.
Proof. vm_compute. reflexivity. Qed.

Example default_timeout :
  (onToolCall num cfg "bash" (bash "cd app && CI=1 npm run test" None) new_guard).1.2 = bash "cd app && CI=1 npm run test" (Some 3600).
Proof. vm_compute. reflexivity. Qed.

Lemma repetition_blocked_exactly_witness :
  exists n, (onToolCall num cfg "bash" (bash "echo x >> log" None)
               (run num cfg (same 8 "bash" (bash "echo x >> log" None)) new_guard)).2 = Some (blocked_identical "bash" n).
Proof. apply repetition_blocked_exactly; [reflexivity|]. vm_compute. discriminate. Defined.

Lemma timed_out_command_refused_witness :
  (onToolCall num cfg "bash" (bash "npm test" (Some 60))
     (run num cfg [call "read" (jobj []); call "bash" (bash "git status" None)]
        (onToolResult cfg "bash" (bash "npm test" (Some 60)) true "Command timed out after 60 seconds" new_guard))).2 <> None.
Proof.
  destruct (timed_out_command_refused num cfg new_guard "bash" (bash "npm test" (Some 60)) "Command timed out after 60 seconds"
              [call "read" (jobj []); call "bash" (bash "git status" None)] "bash" (bash "npm test" (Some 60)) "npm test") as [H _];
    [reflexivity|vm_compute; reflexivity..|]. apply H. vm_compute. reflexivity.
Defined.
End ToolSamples.
