(* ===== verification/Breakers.v ===== *)
(** * Circuit breakers (src/inference/circuitBreaker.ts, src/resilience/circuitBreaker.ts)

    The runtime has two breakers: one per model/provider with a sliding failure
    window and a single half-open probe, and one for the inference gateway with a
    consecutive-failure counter. [BreakerSpec] is what both promise to their
    callers; the storm-protection theorem is proved against it and both are
    instances. Times are integer milliseconds; the clock is an argument. *)

From stdpp Require Import sorting.
From S2P Require Import Prelude JsMap.

Inductive BreakerState := CLOSED | OPEN | HALF_OPEN.
#[export] Instance BreakerState_eq_dec : EqDecision BreakerState.
Proof. solve_decision. Defined.

(** ** The interface *)

(** What happens to a breaker: a recorded failure, a recorded success, a caller
    asking whether it may send a request. *)
Inductive bevent := ev_failure | ev_success | ev_request.

Class BreakerOps (B : Type) := {
  b_state : B -> BreakerState;
  b_halfOpenAfterMs : B -> Z;
  b_cooldownMs : B -> Z;
  b_failure : Z -> B -> B;
  b_success : Z -> B -> B;
  b_request : Z -> B -> bool * B;
}.

Class BreakerSpec (B : Type) `{BreakerOps B} := {
  (** opening, from whichever state, starts a full cooldown *)
  bs_opens now b : b_state b <> OPEN -> b_state (b_failure now b) = OPEN ->
    b_halfOpenAfterMs (b_failure now b) = now + b_cooldownMs b;
  (** further failures neither extend nor shorten it *)
  bs_open_failure now b : b_state b = OPEN ->
    b_state (b_failure now b) = OPEN /\ b_halfOpenAfterMs (b_failure now b) = b_halfOpenAfterMs b;
  (** while it runs, requests are refused and change nothing *)
  bs_open_request now b : b_state b = OPEN -> now < b_halfOpenAfterMs b -> b_request now b = (false, b);
  bs_open_elapsed now b : b_state b = OPEN -> b_halfOpenAfterMs b <= now -> fst (b_request now b) = true;
  bs_half_open_failure now b : b_state b = HALF_OPEN -> b_state (b_failure now b) = OPEN;
  bs_success now b : b_state (b_success now b) = CLOSED;
  bs_closed_request now b : b_state b = CLOSED -> b_request now b = (true, b);
}.

(** A breaker driven by timed events: final state and the answers given. *)
Fixpoint drive {B} `{BreakerOps B} (b : B) (evs : list (Z * bevent)) : B * list bool :=
  match evs with
  | [] => (b, [])
  | (t, ev_failure) :: evs' => drive (b_failure t b) evs'
  | (t, ev_success) :: evs' => drive (b_success t b) evs'
  | (t, ev_request) :: evs' =>
      let (ok, b') := b_request t b in
      let (b'', answers) := drive b' evs' in
      (b'', ok :: answers)
  end.

Section Spec.
Context {B : Type} `{BreakerSpec B}.

Lemma drive_open evs : forall b limit,
  b_state b = OPEN -> b_halfOpenAfterMs b = limit ->
  (forall t e, (t, e) ∈ evs -> e <> ev_success /\ t < limit) ->
  b_state (fst (drive b evs)) = OPEN /\ b_halfOpenAfterMs (fst (drive b evs)) = limit /\
  forall a, a ∈ snd (drive b evs) -> a = false.
Proof.
  induction evs as [|[t e] evs IH]; intros b limit Hs Hl Hev; [set_solver|].
  destruct (Hev t e ltac:(set_solver)) as [Hne Hlt].
  assert (Hev' : forall t e, (t, e) ∈ evs -> e <> ev_success /\ t < limit) by (intros; apply Hev; set_solver).
  destruct e; [|done|]; simpl.
  - destruct (bs_open_failure t b Hs) as [H1 H2]. apply IH; [done|congruence|done].
  - rewrite bs_open_request by (done || lia). specialize (IH b limit Hs Hl Hev').
    destruct (drive b evs) as [b'' answers]. simpl in *. destruct IH as (H1 & H2 & H3).
    split_and!; [done|done|]. intros a Ha. apply elem_of_cons in Ha as [->|Ha]; auto.
Qed.

(** Storm protection, of either breaker: from the moment a failure opens the
    circuit until its cooldown has passed, every request is refused, however many
    callers ask and however many more failures are recorded, unless a success is
    recorded; and the first request after the cooldown is let through. *)
Theorem open_circuit_refuses b t0 evs t1 :
  b_state b <> OPEN -> b_state (b_failure t0 b) = OPEN ->
  (forall t e, (t, e) ∈ evs -> e <> ev_success /\ t < t0 + b_cooldownMs b) ->
  t0 + b_cooldownMs b <= t1 ->
  let run := drive (b_failure t0 b) evs in
  (forall a, a ∈ snd run -> a = false) /\ b_state (fst run) = OPEN /\
  fst (b_request t1 (fst run)) = true.
Proof.
  intros Hb Ho Hev Ht1 run. pose proof (bs_opens t0 b Hb Ho) as Hh.
  destruct (drive_open evs (b_failure t0 b) _ Ho Hh Hev) as (H1 & H2 & H3).
  split_and!; [done|done|]. apply bs_open_elapsed; [done|]. fold run in H2. lia.
Qed.
End Spec.

(** ** The model breaker *)
Module ModelBreaker.

Record ModelCircuitBreaker := mkMB {
  state : BreakerState;
  failureTimes : list Z;
  openedAtMs : Z;
  halfOpenAfterMs : Z;
  probeInFlight : bool;
  key : string;
  threshold : Z;
  windowMs : Z;
  cooldownMs : Z;
}.

(** The constructor: option defaults. *)
Definition new (k : option string) (failureThreshold window cooldown : option Z) : ModelCircuitBreaker :=
  mkMB CLOSED [] 0 0 false (nullish k "default") (nullish failureThreshold 3) (nullish window (5 * 60000))
    (nullish cooldown (2 * 60000)).

Definition prune (nowMs : Z) (b : ModelCircuitBreaker) : ModelCircuitBreaker :=
  let cutoff := nowMs - windowMs b in
  mkMB (state b) (js_filter (fun t => cutoff <=? t) (failureTimes b)) (openedAtMs b) (halfOpenAfterMs b)
    (probeInFlight b) (key b) (threshold b) (windowMs b) (cooldownMs b).

Definition open (nowMs : Z) (b : ModelCircuitBreaker) : ModelCircuitBreaker :=
  mkMB OPEN (failureTimes b) nowMs (nowMs + cooldownMs b) false (key b) (threshold b) (windowMs b) (cooldownMs b).

Definition push_failure (nowMs : Z) (b : ModelCircuitBreaker) : ModelCircuitBreaker :=
  mkMB (state b) (failureTimes b ++ [nowMs]) (openedAtMs b) (halfOpenAfterMs b) (probeInFlight b) (key b) (threshold b)
    (windowMs b) (cooldownMs b).

Definition recordFailure (nowMs : Z) (b : ModelCircuitBreaker) : ModelCircuitBreaker :=
  if decide (state b = HALF_OPEN) then open nowMs b
  else
    let b1 := prune nowMs (push_failure nowMs b) in
    if (threshold b1 <=? js_len (failureTimes b1)) && negb (bool_decide (state b1 = OPEN)) then open nowMs b1 else b1.

Definition recordSuccess (b : ModelCircuitBreaker) : ModelCircuitBreaker :=
  mkMB CLOSED [] 0 0 false (key b) (threshold b) (windowMs b) (cooldownMs b).

Definition allowRequest (nowMs : Z) (b : ModelCircuitBreaker) : bool * ModelCircuitBreaker :=
  match state b with
  | CLOSED => (true, b)
  | HALF_OPEN => (negb (probeInFlight b), b)
  | OPEN =>
      if halfOpenAfterMs b <=? nowMs
      then (true, mkMB HALF_OPEN (failureTimes b) (openedAtMs b) (halfOpenAfterMs b) true (key b) (threshold b)
                    (windowMs b) (cooldownMs b))
      else (false, b)
  end.

Definition beginProbe (b : ModelCircuitBreaker) : ModelCircuitBreaker :=
  if decide (state b = HALF_OPEN)
  then mkMB (state b) (failureTimes b) (openedAtMs b) (halfOpenAfterMs b) true (key b) (threshold b) (windowMs b) (cooldownMs b)
  else b.

Definition snapshot (nowMs : Z) (b : ModelCircuitBreaker) : (string * BreakerState * Z * Z * Z) * ModelCircuitBreaker :=
  let b1 := prune nowMs b in
  ((key b1, state b1, js_len (failureTimes b1), openedAtMs b1, halfOpenAfterMs b1), b1).

#[global] Instance ops : BreakerOps ModelCircuitBreaker := {|
  b_state := state; b_halfOpenAfterMs := halfOpenAfterMs; b_cooldownMs := cooldownMs;
  b_failure := recordFailure; b_success := fun _ => recordSuccess; b_request := allowRequest;
|}.

#[global] Instance spec : BreakerSpec ModelCircuitBreaker.
Proof.
  constructor; simpl.
  - intros now b Hn Ho. unfold recordFailure in *. destruct (decide _); [done|].
    destruct (_ && _); [done|]. by destruct (Hn Ho).
  - intros now b Ho. unfold recordFailure. rewrite decide_False by congruence. simpl.
    rewrite Ho, bool_decide_eq_true_2 by done. rewrite andb_false_r. done.
  - intros now b Ho Hlt. unfold allowRequest. rewrite Ho, (proj2 (Z.leb_gt _ _)) by lia. done.
  - intros now b Ho Hle. unfold allowRequest. rewrite Ho, (proj2 (Z.leb_le _ _)) by lia. done.
  - intros now b Hh. unfold recordFailure. by rewrite decide_True.
  - done.
  - intros now b Hc. unfold allowRequest. by rewrite Hc.
Qed.

(** The only way into HALF_OPEN takes the probe slot. *)
Definition probe_taken (b : ModelCircuitBreaker) : Prop := state b = HALF_OPEN -> probeInFlight b = true.

Lemma probe_taken_event t e b :
  probe_taken b ->
  probe_taken (match e with ev_failure => recordFailure t b | ev_success => recordSuccess b | ev_request => snd (allowRequest t b) end).
Proof.
  intros Hp. destruct e; unfold probe_taken in *; simpl.
  - unfold recordFailure. destruct (decide _) as [Hs|Hs]; [done|].
    destruct (_ && _); [done|]. simpl. congruence.
  - done.
  - unfold allowRequest. destruct (state b) eqn:E; [|destruct (_ <=? _)|]; simpl; try congruence; auto.
Qed.

Lemma probe_taken_drive evs : forall b, probe_taken b -> probe_taken (fst (drive b evs)).
Proof.
  induction evs as [|[t e] evs IH]; intros b Hp; [done|].
  pose proof (probe_taken_event t e b Hp) as Hp'. destruct e; simpl; try by apply IH.
  destruct (allowRequest t b) as [ok b'] eqn:Ea. specialize (IH b' Hp').
  destruct (drive b' evs). done.
Qed.

Definition is_request (te : Z * bevent) : Prop := snd te = ev_request.

Lemma half_open_refuses evs : forall b,
  state b = HALF_OPEN -> probeInFlight b = true -> Forall is_request evs ->
  drive b evs = (b, map (fun _ => false) evs).
Proof.
  induction evs as [|[t e] evs IH]; intros b Hs Hp Hev; [done|].
  inversion_clear Hev as [|? ? He Hevs]. unfold is_request in He. simpl in He. subst e. simpl.
  unfold allowRequest. rewrite Hs, Hp. simpl. by rewrite IH.
Qed.

(** Single probe: whatever happened to a breaker before, once it is past its
    cooldown exactly one of any number of requests is let through until the probe
    settles (a success or a failure is recorded); if the probe fails the circuit
    opens again for a full cooldown. *)
Theorem single_probe k ft w c history t0 evs t1 :
  let b := fst (drive (new k ft w c) history) in
  state b = OPEN -> halfOpenAfterMs b <= t0 -> Forall is_request evs ->
  let run := drive b ((t0, ev_request) :: evs) in
  snd run = true :: map (fun _ => false) evs /\
  state (recordFailure t1 (fst run)) = OPEN /\
  halfOpenAfterMs (recordFailure t1 (fst run)) = t1 + cooldownMs b.
Proof.
  intros b Ho Ht Hev run.
  set (h := mkMB HALF_OPEN (failureTimes b) (openedAtMs b) (halfOpenAfterMs b) true (key b) (threshold b) (windowMs b) (cooldownMs b)).
  assert (Ha : allowRequest t0 b = (true, h)) by (unfold allowRequest; by rewrite Ho, (proj2 (Z.leb_le _ _)) by done).
  assert (Hr : run = (h, true :: map (fun _ => false) evs)).
  { unfold run. cbn [drive]. change (b_request t0 b) with (allowRequest t0 b). rewrite Ha.
    by rewrite (half_open_refuses evs h). }
  by rewrite Hr.
Qed.

(** A breaker between two requests: at HALF_OPEN nothing is admitted. *)
Lemma half_open_admits_nothing k ft w c history t :
  let b := fst (drive (new k ft w c) history) in
  state b = HALF_OPEN -> fst (allowRequest t b) = false.
Proof.
  intros b Hs. assert (Hp : probe_taken b) by (apply probe_taken_drive; intros Hc; discriminate Hc).
  unfold allowRequest. rewrite Hs. simpl. by rewrite (Hp Hs).
Qed.

(** *** When the circuit opens *)

Fixpoint fail_at (b : ModelCircuitBreaker) (ts : list Z) : ModelCircuitBreaker :=
  match ts with [] => b | t :: ts' => fail_at (recordFailure t b) ts' end.

Lemma fail_at_snoc b ts t : fail_at b (ts ++ [t]) = recordFailure t (fail_at b ts).
Proof. revert b. induction ts as [|x ts IH]; intros b; simpl; [done|]. apply IH. Qed.

(** Failures of [ts] inside the window that ends at [t]. *)
Definition in_window (w t : Z) (ts : list Z) : list Z := js_filter (fun x => t - w <=? x) ts.

Lemma in_window_idem w t t' ts : t <= t' -> in_window w t' (in_window w t ts) = in_window w t' ts.
Proof.
  intros Hle. unfold in_window. induction ts as [|x ts IH]; [done|]. simpl.
  destruct (t - w <=? x) eqn:E1; simpl; destruct (t' - w <=? x) eqn:E2; rewrite ?IH; try done.
  bool_to_prop. lia.
Qed.

Lemma in_window_push w x t ts : x <= t -> in_window w t (in_window w x ts ++ [t]) = in_window w t (ts ++ [t]).
Proof.
  intros Hle. transitivity (in_window w t (in_window w x ts) ++ in_window w t [t]); [apply js_filter_app|].
  rewrite in_window_idem by done. symmetry. apply js_filter_app.
Qed.

(** Before it opens, the breaker holds exactly the failures of its window. *)
Lemma closed_window b ts t :
  state b = CLOSED -> failureTimes b = [] -> StronglySorted Z.le (ts ++ [t]) ->
  state (fail_at b (ts ++ [t])) = CLOSED ->
  state (fail_at b ts) = CLOSED /\ failureTimes (fail_at b (ts ++ [t])) = in_window (windowMs b) t (ts ++ [t]) /\
  threshold (fail_at b (ts ++ [t])) = threshold b /\ windowMs (fail_at b (ts ++ [t])) = windowMs b.
Proof.
  intros Hc He Hsort. revert t Hsort. induction ts as [|x ts IH] using rev_ind; intros t Hsort Hst.
  - simpl in *. unfold recordFailure in *. rewrite decide_False in * by congruence.
    destruct (_ && _); [done|]. simpl. by rewrite He.
  - rewrite (fail_at_snoc b (ts ++ [x]) t) in Hst |- *. set (b1 := fail_at b (ts ++ [x])) in *.
    assert (Hst1 : state b1 = CLOSED).
    { unfold recordFailure in Hst. destruct (decide _) as [Hh|Hh]; [done|]. destruct (_ && _); [done|]. done. }
    assert (Hs1 : StronglySorted Z.le (ts ++ [x]) /\ x <= t).
    { apply StronglySorted_app in Hsort as (H1 & H2 & _). split; [done|]. apply H1; set_solver. }
    destruct Hs1 as [Hs1 Hxt]. destruct (IH x Hs1 Hst1) as (_ & H2 & H3 & H4).
    unfold recordFailure in Hst |- *. rewrite decide_False in * by congruence.
    destruct (_ && _); [done|]. simpl. fold b1 in H2, H3, H4. rewrite H2, H3, H4. split_and!; [done| |done|done].
    by apply in_window_push.
Qed.

Lemma open_failure_open t b : state b = OPEN -> state (recordFailure t b) = OPEN.
Proof. intros Ho. exact (proj1 (bs_open_failure t b Ho)). Qed.

(** A fresh model breaker that only sees failures (with a clock that does not
    go back) is open after them if and only if at some failure the number of
    failures within the window ending there had reached the threshold. *)
Theorem model_breaker_opens_iff k ft w c ts :
  StronglySorted Z.le ts ->
  let b := new k ft w c in
  state (fail_at b ts) = OPEN <->
  exists l t l', ts = l ++ t :: l' /\ threshold b <= js_len (in_window (windowMs b) t (l ++ [t])).
Proof.
  intros Hsort b. induction ts as [|t ts IH] using rev_ind.
  - split; [done|]. intros (l & t & l' & H & _). by destruct l.
  - assert (Hs' : StronglySorted Z.le ts) by by apply StronglySorted_app in Hsort as (_ & ? & _).
    specialize (IH Hs'). rewrite fail_at_snoc.
    assert (Hcases : state (fail_at b ts) = OPEN \/ state (fail_at b ts) = CLOSED).
    { clear -Hs'. induction ts as [|x ts IHt] using rev_ind; [by right|]. rewrite fail_at_snoc.
      apply StronglySorted_app in Hs' as (_ & Hs' & _). destruct (IHt Hs') as [Ho|Hc].
      - left. by apply open_failure_open.
      - unfold recordFailure. rewrite decide_False by congruence. destruct (_ && _); [by left|]. by right. }
    destruct Hcases as [Ho|Hc].
    + split; [|intros _; by apply open_failure_open]. intros _.
      apply IH in Ho as (l & x & l' & -> & Hx). exists l, x, (l' ++ [t]). by rewrite <- app_assoc.
    + assert (Hwin : failureTimes (prune t (push_failure t (fail_at b ts))) = in_window (windowMs b) t (ts ++ [t]) /\
        threshold (fail_at b ts) = threshold b).
      { destruct ts as [|x ts _] using rev_ind; [done|].
        destruct (closed_window b ts x) as (_ & H2 & H3 & H4); [done..|]. simpl. rewrite H2, H4. split; [|done].
        apply in_window_push.
        apply StronglySorted_app in Hsort as (Hx & _). apply Hx; set_solver. }
      destruct Hwin as [Hw Ht]. unfold recordFailure. rewrite decide_False by congruence. rewrite Hw.
      replace (threshold (prune t (push_failure t (fail_at b ts)))) with (threshold b) by by rewrite <- Ht.
      replace (state (prune t (push_failure t (fail_at b ts)))) with CLOSED by by rewrite <- Hc.
      rewrite bool_decide_eq_false_2 by done. rewrite andb_true_r.
      destruct (threshold b <=? _) eqn:E.
      * split; [|done]. intros _. bool_to_prop. by exists ts, t, [].
      * change (state (prune t (push_failure t (fail_at b ts)))) with (state (fail_at b ts)). rewrite Hc. split; [done|]. intros (l & x & l' & Hl & Hx). exfalso. bool_to_prop.
        destruct l' as [|y l' _] using rev_ind.
        -- apply app_inj_tail in Hl as [-> ->]. lia.
        -- rewrite app_comm_cons, app_assoc in Hl. apply app_inj_tail in Hl as [-> ->].
           assert (Ho : state (fail_at b (l ++ x :: l')) = OPEN) by (apply IH; eauto). congruence.
Qed.
End ModelBreaker.

(** ** The gateway breaker *)
Module GatewayBreaker.

Record CircuitBreaker := mkCB {
  state : BreakerState;
  consecutiveFailures : Z;
  openedAtMs : Z;
  halfOpenAfterMs : Z;
  threshold : Z;
  openCooldownMs : Z;
}.

Definition new (t c : option Z) : CircuitBreaker := mkCB CLOSED 0 0 0 (nullish t 5) (nullish c 10000).

Definition recordSuccess (b : CircuitBreaker) : CircuitBreaker := mkCB CLOSED 0 0 0 (threshold b) (openCooldownMs b).

Definition open (nowMs : Z) (b : CircuitBreaker) : CircuitBreaker :=
  mkCB OPEN (consecutiveFailures b) nowMs (nowMs + openCooldownMs b) (threshold b) (openCooldownMs b).

Definition recordFailure (nowMs : Z) (b : CircuitBreaker) : CircuitBreaker :=
  let b1 := mkCB (state b) (consecutiveFailures b + 1) (openedAtMs b) (halfOpenAfterMs b) (threshold b) (openCooldownMs b) in
  if decide (state b1 = HALF_OPEN) then open nowMs b1
  else if (threshold b1 <=? consecutiveFailures b1) && negb (bool_decide (state b1 = OPEN)) then open nowMs b1
  else b1.

Definition allowRequest (nowMs : Z) (b : CircuitBreaker) : bool :=
  match state b with
  | CLOSED => true
  | HALF_OPEN => true
  | OPEN => halfOpenAfterMs b <=? nowMs
  end.

Definition tryHalfOpen (nowMs : Z) (b : CircuitBreaker) : bool * CircuitBreaker :=
  if negb (allowRequest nowMs b) then (false, b)
  else (true, if decide (state b = OPEN)
              then mkCB HALF_OPEN (consecutiveFailures b) (openedAtMs b) (halfOpenAfterMs b) (threshold b) (openCooldownMs b)
              else b).

Definition isOpen (b : CircuitBreaker) : bool := bool_decide (state b = OPEN).

#[global] Instance ops : BreakerOps CircuitBreaker := {|
  b_state := state; b_halfOpenAfterMs := halfOpenAfterMs; b_cooldownMs := openCooldownMs;
  b_failure := recordFailure; b_success := fun _ => recordSuccess; b_request := tryHalfOpen;
|}.

#[global] Instance spec : BreakerSpec CircuitBreaker.
Proof.
  constructor; simpl.
  - intros now b Hn Ho. unfold recordFailure in *. destruct (decide _); [done|].
    destruct (_ && _); [done|]. by destruct (Hn Ho).
  - intros now b Ho. unfold recordFailure. simpl. rewrite decide_False by congruence.
    rewrite bool_decide_eq_true_2 by done. by rewrite andb_false_r.
  - intros now b Ho Hlt. unfold tryHalfOpen, allowRequest. by rewrite Ho, (proj2 (Z.leb_gt _ _)).
  - intros now b Ho Hle. unfold tryHalfOpen, allowRequest. by rewrite Ho, (proj2 (Z.leb_le _ _)).
  - intros now b Hh. unfold recordFailure. simpl. by rewrite decide_True.
  - done.
  - intros now b Hc. unfold tryHalfOpen, allowRequest. rewrite Hc. simpl. done.
Qed.

Fixpoint fail_at (b : CircuitBreaker) (ts : list Z) : CircuitBreaker :=
  match ts with [] => b | t :: ts' => fail_at (recordFailure t b) ts' end.

Lemma fail_at_counts ts : forall b,
  state b = CLOSED -> consecutiveFailures b < threshold b ->
  consecutiveFailures (fail_at b ts) = consecutiveFailures b + js_len ts /\
  (state (fail_at b ts) = OPEN <-> threshold b <= consecutiveFailures b + js_len ts) /\
  (state (fail_at b ts) = OPEN \/ state (fail_at b ts) = CLOSED) /\ threshold (fail_at b ts) = threshold b.
Proof.
  induction ts as [|t ts IH] using rev_ind; intros b Hc Hlt.
  - unfold js_len. simpl. rewrite Z.add_0_r, Hc. split_and!; [done| |by right|done]. split; [done|lia].
  - assert (Hsn : fail_at b (ts ++ [t]) = recordFailure t (fail_at b ts)).
    { clear. revert b. induction ts; intros b; simpl; [done|]. apply IHts. }
    rewrite Hsn. destruct (IH b Hc Hlt) as (H1 & H2 & H3 & H4). unfold js_len in *. rewrite length_app. simpl length.
    unfold recordFailure. simpl. rewrite H1, H4. rewrite decide_False by (destruct H3; congruence).
    destruct H3 as [Ho|Hcl].
    + rewrite bool_decide_eq_true_2 by done. rewrite andb_false_r. simpl. rewrite Ho.
      pose proof (proj1 H2 Ho). split_and!; [lia| |by left|done]. split; [lia|done].
    + rewrite bool_decide_eq_false_2 by congruence. rewrite andb_true_r.
      destruct (threshold b <=? _) eqn:E; bool_to_prop; simpl.
      * split_and!; [lia| |by left|done]. split; [lia|done].
      * rewrite Hcl. split_and!; [lia| |by right|done]. split; [done|]. lia.
Qed.

(** The gateway breaker opens at exactly the configured number of consecutive
    failures: from closed with no failures, it is open after [n] failures if and
    only if [n] reaches the (positive) threshold; until then it counts them all. *)
Theorem gateway_breaker_opens_iff t c ts :
  0 < threshold (new t c) ->
  (state (fail_at (new t c) ts) = OPEN <-> threshold (new t c) <= js_len ts) /\
  consecutiveFailures (fail_at (new t c) ts) = js_len ts.
Proof.
  intros Hp. destruct (fail_at_counts ts (new t c)) as (H1 & H2 & _); [done|done|]. simpl in *. auto.
Qed.

(** The half-open state of this breaker does not count its attempts: every
    request is admitted until one settles. *)
Lemma half_open_admits_all nows b : state b = HALF_OPEN ->
  map (fun t => fst (tryHalfOpen t b)) nows = map (fun _ => true) nows.
Proof. intros Hs. apply map_ext. intros t. unfold tryHalfOpen, allowRequest. by rewrite Hs. Qed.
End GatewayBreaker.

(** ** The registry of model breakers *)
Module Registry.
Import ModelBreaker.

Record CircuitBreakerRegistry := mkReg {
  breakers : jsmap string ModelCircuitBreaker;
  opt_threshold : option Z;
  opt_windowMs : option Z;
  opt_cooldownMs : option Z;
}.

Definition modelKey (provider model : string) : string := "model:" +:+ provider +:+ "/" +:+ model.
Definition providerKey (provider : string) : string := "provider:" +:+ provider.

(** [for(key)]: the breaker of a key, created on first use. *)
Definition for_ (k : string) (r : CircuitBreakerRegistry) : ModelCircuitBreaker * CircuitBreakerRegistry :=
  match map_get k (breakers r) with
  | Some b => (b, r)
  | None =>
      let b := new (Some k) (opt_threshold r) (opt_windowMs r) (opt_cooldownMs r) in
      (b, mkReg (map_set k b (breakers r)) (opt_threshold r) (opt_windowMs r) (opt_cooldownMs r))
  end.

(** A caller holds the shared object [for(key)] returned and calls a method of it:
    the registry's entry changes. *)
Definition call (k : string) (f : ModelCircuitBreaker -> ModelCircuitBreaker) (r : CircuitBreakerRegistry) : CircuitBreakerRegistry :=
  let '(b, r1) := for_ k r in
  mkReg (map_set k (f b) (breakers r1)) (opt_threshold r1) (opt_windowMs r1) (opt_cooldownMs r1).

Definition get (k : string) (r : CircuitBreakerRegistry) : option ModelCircuitBreaker := map_get k (breakers r).

Definition all (nowMs : Z) (r : CircuitBreakerRegistry) : list (string * BreakerState * Z * Z * Z) :=
  map (fun b => fst (snapshot nowMs b)) (map_values (breakers r)).

Lemma call_get k k' f r :
  get k' (call k f r) =
  if decide (k = k') then Some (f (fst (for_ k r))) else get k' r.
Proof.
  unfold call, get. destruct (for_ k r) as [b r1] eqn:E. simpl. rewrite map_get_set.
  destruct (decide (k = k')); [done|]. unfold for_ in E. destruct (map_get k (breakers r)); simplify_eq; simpl; [done|].
  by apply map_get_set_ne.
Qed.

(** A model's failures never open its provider's circuit, and the other way
    round: a call on one breaker leaves every other key's breaker as it was, and a
    model key is never a provider key. *)
Theorem registry_isolated provider provider' model f r k :
  (k <> modelKey provider model -> get k (call (modelKey provider model) f r) = get k r) /\
  get (providerKey provider') (call (modelKey provider model) f r) = get (providerKey provider') r /\
  get (modelKey provider model) (call (providerKey provider') f r) = get (modelKey provider model) r.
Proof.
  rewrite !call_get. split_and!.
  - intros Hne. by rewrite decide_False by congruence.
  - by rewrite decide_False by (intros Hc; discriminate Hc).
  - by rewrite decide_False by (intros Hc; discriminate Hc).
Qed.

(** Two different provider/model pairs can name one key. *)
Example model_keys_collide : modelKey "a/b" "c" = modelKey "a" "b/c".
Proof. reflexivity. Qed.
End Registry.

(** ** Evaluated instances *)

Lemma open_circuit_refuses_witness :
  let b := GatewayBreaker.fail_at (GatewayBreaker.new None None) [1; 2; 3; 4] in
  let run := drive (b_failure 5 b) [(6, ev_request); (7, ev_failure); (9000, ev_request)] in
  (forall a, a ∈ snd run -> a = false) /\ b_state (fst run) = OPEN /\ fst (b_request 10005 (fst run)) = true.
Proof.
  apply (open_circuit_refuses (GatewayBreaker.fail_at (GatewayBreaker.new None None) [1; 2; 3; 4]) 5
           [(6, ev_request); (7, ev_failure); (9000, ev_request)] 10005).
  - discriminate.
  - reflexivity.
  - simpl. intros t e He. rewrite !elem_of_cons in He.
    destruct He as [[= -> ->]|[[= -> ->]|[[= -> ->]|He]]]; [split; [done|lia]..|]. by apply elem_of_nil in He.
  - simpl. lia.
Defined.

Lemma single_probe_witness :
  let b := fst (drive (ModelBreaker.new None None None None) [(1, ev_failure); (2, ev_failure); (3, ev_failure)]) in
  let run := drive b ((130000, ev_request) :: [(130001, ev_request); (130002, ev_request)]) in
  snd run = true :: map (fun _ => false) [(130001, ev_request); (130002, ev_request)] /\
  ModelBreaker.state (ModelBreaker.recordFailure 130003 (fst run)) = OPEN /\
  ModelBreaker.halfOpenAfterMs (ModelBreaker.recordFailure 130003 (fst run)) = 130003 + ModelBreaker.cooldownMs b.
Proof.
  apply (ModelBreaker.single_probe None None None None [(1, ev_failure); (2, ev_failure); (3, ev_failure)] 130000
           [(130001, ev_request); (130002, ev_request)] 130003).
  - reflexivity.
  - vm_compute. discriminate.
  - repeat constructor.
Defined.

Lemma model_breaker_opens_iff_witness :
  let b := ModelBreaker.new None None None None in
  ModelBreaker.state (ModelBreaker.fail_at b [0; 10; 400000]) = OPEN <->
  exists l t l', [0; 10; 400000] = l ++ t :: l' /\
    ModelBreaker.threshold b <= js_len (ModelBreaker.in_window (ModelBreaker.windowMs b) t (l ++ [t])).
Proof.
  apply (ModelBreaker.model_breaker_opens_iff None None None None [0; 10; 400000]).
  repeat constructor; vm_compute; discriminate.
Defined.

Lemma gateway_breaker_opens_iff_witness :
  (GatewayBreaker.state (GatewayBreaker.fail_at (GatewayBreaker.new None None) [1; 2; 3]) = OPEN <-> 5 <= js_len [1; 2; 3]) /\
  GatewayBreaker.consecutiveFailures (GatewayBreaker.fail_at (GatewayBreaker.new None None) [1; 2; 3]) = js_len [1; 2; 3].
Proof. apply (GatewayBreaker.gateway_breaker_opens_iff None None [1; 2; 3]). reflexivity. Defined.
