(* ===== verification/RetryTiming.v ===== *)
(** * Waiting and retrying

    How long the runtime waits before it tries again, and when it stops:
    server-directed delays (src/inference/retryDelay.ts), the same-model stream
    retry ladder (src/inference/retryPolicy.ts), the wall-clock retry window
    (src/resilience/retryWindow.ts), the stall watchdog
    (src/resilience/watchdog.ts) and the supervisor's repair backoff
    (src/orchestration/supervisorBackoff.ts).

    Times computed with fractions (jitter, body hints) are exact rationals; the
    rest are integer milliseconds. *)

From Stdlib Require Import QArith Qround Lqa.
From S2P Require Import Prelude JsMap LedgerView.

(** ** Delay resolution *)
Module RetryDelay.
Local Open Scope Q_scope.

Definition qmax (a b : Q) : Q := if Qle_bool a b then b else a.
Definition qmin (a b : Q) : Q := if Qle_bool a b then a else b.
Definition qlt (a b : Q) : bool := negb (Qle_bool b a).

Inductive RetryDelaySource := retry_after_ms | retry_after_seconds | retry_after_date | body | backoff.

Record RetryDelay := mkDelay {
  delayMs : Q;
  source : RetryDelaySource;
  serverDelayMs : option Q;
  clamped : bool;
}.

Inductive WaitDecision := wait (waitMs : Q) | stop.

Definition decideWait (serverMinimumMs : option Q) (proposedMs remainingMs : Q) : WaitDecision :=
  if match serverMinimumMs with Some m => qlt remainingMs m | None => false end then stop
  else
    let waitMs := qmin proposedMs remainingMs in
    if qlt 0 waitMs then wait waitMs else stop.

Record RetryDelayBounds := mkBounds {
  minDelayMs : Q;
  maxDelayMs : Q;
  baseBackoffMs : Q;
  maxBackoffMs : option Q;
  jitterRatio : Q;
  honorRetryAfter : option bool;
}.

(** [/^\d+$/] and the number it denotes. *)
Definition digit_value (c : ascii) : option Z :=
  let n := Z.of_N (N_of_ascii c) in if ((48 <=? n) && (n <=? 57))%Z then Some (n - 48)%Z else None.
Fixpoint digits_from (acc : Z) (s : string) : option Z :=
  match s with
  | EmptyString => Some acc
  | String c s' => match digit_value c with Some d => digits_from (10 * acc + d) s' | None => None end
  end.
Definition digits (s : string) : option Z :=
  match s with EmptyString => None | _ => digits_from 0 s end.

(** [Number.isFinite] of the double nearest to [n]. *)
Definition finite (n : Z) : bool := (n <? 2 ^ 1024 - 2 ^ 970)%Z.

Definition parseRetryAfterMsHeader (value : option string) : option Q :=
  match value with
  | None => None
  | Some v => match digits (js_trim v) with
              | Some ms => if finite ms && (0 <=? ms)%Z then Some (inject_Z ms) else None
              | None => None
              end
  end.

Section Externals.
(** [Date.parse] and [Number] of a string: [None] when the result is not finite. *)
Context (dateParse : string -> option Q) (toNumber : string -> option Q).

Definition parseRetryAfterHeader (value : option string) (nowMs : Q) : option Q :=
  match value with
  | None => None
  | Some v =>
      let trimmed := js_trim v in
      if negb (truthy trimmed) then None
      else match digits trimmed with
           | Some seconds => if finite seconds && (0 <=? seconds)%Z then Some (inject_Z seconds * 1000) else None
           | None => match dateParse trimmed with
                     | Some timestamp => Some (qmax 0 (timestamp - nowMs))
                     | None => None
                     end
           end
  end.

(** [a ?? b]: null and undefined are nullish. *)
Definition non_null (v : option json) : option json := match v with Some jnull => None | _ => v end.

Definition bodyRetryAfterMs (b : option json) : option Q :=
  match b with
  | Some (jobj o) =>
      let raw := match non_null (field "retry_after_ms" o) with
                 | Some r => Some r
                 | None => field "retryAfterMs" o
                 end in
      let value := match raw with Some (jstr s) => toNumber s | Some (jnum n) => Some n | _ => None end in
      match value with Some v => if Qle_bool 0 v then Some v else None | None => None end
  | _ => None
  end.

(** [base * 2 ** min(exponent, 30)], capped. *)
Definition exponentialBackoffMs (attempt : Z) (baseBackoff maxBackoff : Q) : Q :=
  let exponent := Z.max 0 (attempt - 1) in
  let raw := baseBackoff * inject_Z (2 ^ Z.min exponent 30) in
  qmin (qmax raw 0) maxBackoff.

Definition clampDelay (ms minMs maxMs : Q) : Q :=
  let lo := qmax 0 (qmin minMs maxMs) in
  let hi := qmax lo maxMs in
  qmin (qmax ms lo) hi.

(** [Math.round] *)
Definition js_round (q : Q) : Q := inject_Z (Qfloor (q + (1 # 2))).

Definition addBoundedJitter (delay ratio random : Q) : Q :=
  if negb (qlt 0 ratio) then delay
  else
    let r := qmin (qmax random 0) 1 in
    js_round (delay * (1 + ratio * r)).

Definition AdmissionHeaders : Type := list (string * option string).
Definition headerGetter (headers : option AdmissionHeaders) (name : string) : option string :=
  match headers with
  | None => None
  | Some hs =>
      let lowered := foldl (fun (m : jsmap string string) (kv : string * option string) =>
                        match snd kv with Some v => map_set (js_lower (fst kv)) v m | None => m end) [] hs in
      map_get (js_lower name) lowered
  end.

Record ResolveRetryDelayInput := mkInput {
  headers : option AdmissionHeaders;
  rbody : option json;
  attempt : Z;
  bounds : RetryDelayBounds;
  nowMs : Q;
  random : Q;
}.

Definition fromServer (src : RetryDelaySource) (server : Q) (b : RetryDelayBounds) (inp : ResolveRetryDelayInput) : RetryDelay :=
  let clampedMs := qmax server (qmax 0 (minDelayMs b)) in
  mkDelay (addBoundedJitter clampedMs (jitterRatio b) (random inp)) src (Some server) (negb (Qeq_bool clampedMs server)).

(** The hints of one response, in the order the code pushes them. *)
Definition candidates (inp : ResolveRetryDelayInput) : list (RetryDelaySource * Q) :=
  let get := headerGetter (headers inp) in
  (match parseRetryAfterMsHeader (get "retry-after-ms"%string) with Some ms => [(retry_after_ms, ms)] | None => [] end)
  ++ (match get "retry-after"%string with
      | Some retryAfter =>
          match parseRetryAfterMsHeader (Some retryAfter) with
          | Some seconds => [(retry_after_seconds, seconds * 1000)]
          | None => match parseRetryAfterHeader (Some retryAfter) (nowMs inp) with
                    | Some dateMs => [(retry_after_date, dateMs)]
                    | None => []
                    end
          end
      | None => []
      end)
  ++ (match bodyRetryAfterMs (rbody inp) with Some ms => [(body, ms)] | None => [] end).

Definition larger (best : option (RetryDelaySource * Q)) (c : RetryDelaySource * Q) : option (RetryDelaySource * Q) :=
  match best with
  | None => Some c
  | Some b => if qlt (snd b) (snd c) then Some c else Some b
  end.

Definition localDelay (inp : ResolveRetryDelayInput) : RetryDelay :=
  let b := bounds inp in
  let bo := exponentialBackoffMs (attempt inp) (baseBackoffMs b) (nullish (maxBackoffMs b) (maxDelayMs b)) in
  mkDelay (addBoundedJitter (clampDelay bo (minDelayMs b) (maxDelayMs b)) (jitterRatio b) (random inp)) backoff None false.

Definition resolveRetryDelay (inp : ResolveRetryDelayInput) : RetryDelay :=
  match honorRetryAfter (bounds inp) with
  | Some false => localDelay inp
  | _ => match foldl larger None (candidates inp) with
         | Some (src, ms) => fromServer src ms (bounds inp) inp
         | None => localDelay inp
         end
  end.

(** *** Arithmetic facts *)

Lemma qmax_spec a b : a <= qmax a b /\ b <= qmax a b /\ (qmax a b == a \/ qmax a b == b).
Proof.
  unfold qmax. destruct (Qle_bool a b) eqn:E.
  - apply Qle_bool_iff in E. split_and!; [done|lra|right; lra].
  - assert (~ a <= b) by (rewrite <- Qle_bool_iff; congruence). split_and!; [lra|lra|left; lra].
Qed.

Lemma qmin_spec a b : qmin a b <= a /\ qmin a b <= b /\ (qmin a b == a \/ qmin a b == b).
Proof.
  unfold qmin. destruct (Qle_bool a b) eqn:E.
  - apply Qle_bool_iff in E. split_and!; [lra|done|left; lra].
  - assert (~ a <= b) by (rewrite <- Qle_bool_iff; congruence). split_and!; [lra|lra|right; lra].
Qed.

Lemma qlt_true a b : qlt a b = true <-> a < b.
Proof.
  unfold qlt. rewrite negb_true_iff. split.
  - intros H. apply Qnot_le_lt. rewrite <- Qle_bool_iff. congruence.
  - intros H. destruct (Qle_bool b a) eqn:E; [|done]. apply Qle_bool_iff in E. lra.
Qed.

Lemma qlt_false a b : qlt a b = false <-> b <= a.
Proof. unfold qlt. rewrite negb_false_iff. apply Qle_bool_iff. Qed.

Lemma js_round_bounds q : q - (1 # 2) < js_round q /\ js_round q <= q + (1 # 2).
Proof.
  unfold js_round. pose proof (Qfloor_le (q + (1 # 2))). pose proof (Qlt_floor (q + (1 # 2))) as H2.
  rewrite inject_Z_plus in H2. change (inject_Z 1) with 1 in H2. split; lra.
Qed.

(** Rounding never goes below an integer lower bound. *)
Lemma js_round_integer (z : Z) q : inject_Z z <= q -> inject_Z z <= js_round q.
Proof.
  intros H. unfold js_round. rewrite <- Zle_Qle. rewrite <- (Qfloor_Z z). apply Qfloor_resp_le. lra.
Qed.

(** Positive jitter: within [[delay - 1/2, delay * (1 + ratio) + 1/2]], and not below
    an integer delay. *)
Lemma jitter_bounds delay ratio random :
  0 <= delay ->
  delay - (1 # 2) <= addBoundedJitter delay ratio random /\
  addBoundedJitter delay ratio random <= delay * (1 + qmax 0 ratio) + (1 # 2) /\
  forall z, inject_Z z <= delay -> inject_Z z <= addBoundedJitter delay ratio random.
Proof.
  intros Hd. unfold addBoundedJitter. destruct (qmax_spec 0 ratio) as (M1 & M2 & M3).
  destruct (qlt 0 ratio) eqn:E; simpl.
  - apply qlt_true in E. set (r := qmin (qmax random 0) 1).
    assert (Hr : 0 <= r <= 1).
    { destruct (qmax_spec random 0) as (A1 & A2 & A3), (qmin_spec (qmax random 0) 1) as (B1 & B2 & [B3|B3]);
        unfold r; split; lra. }
    assert (Hrr : 0 <= ratio * r) by (apply Qmult_le_0_compat; lra).
    assert (Hdr : 0 <= delay * (ratio * r)) by (apply Qmult_le_0_compat; lra).
    assert (Hrl : 0 <= ratio * (1 - r)) by (apply Qmult_le_0_compat; lra).
    assert (Hdl : 0 <= delay * (qmax 0 ratio - ratio * r)) by (apply Qmult_le_0_compat; lra).
    assert (Hx : delay <= delay * (1 + ratio * r)) by lra.
    assert (Hy : delay * (1 + ratio * r) <= delay * (1 + qmax 0 ratio)) by lra.
    destruct (js_round_bounds (delay * (1 + ratio * r))) as [R1 R2]. split_and!; [lra|lra|].
    intros z Hz. apply js_round_integer. lra.
  - assert (0 <= delay * qmax 0 ratio) by (apply Qmult_le_0_compat; lra). split_and!; [lra|lra|done].
Qed.

Lemma larger_fold cs : forall best,
  match foldl larger best cs with
  | Some m => (forall c, c ∈ cs -> snd c <= snd m) /\ (forall b, best = Some b -> snd b <= snd m) /\ (m ∈ cs \/ best = Some m)
  | None => cs = [] /\ best = None
  end.
Proof.
  induction cs as [|c cs IH]; intros best; simpl.
  - destruct best; [|done]. split_and!; [set_solver|intros ? [= <-]; lra|by right].
  - specialize (IH (larger best c)). destruct (foldl larger (larger best c) cs) as [m|].
    + destruct IH as (H1 & H2 & H3).
      assert (Hc : snd c <= snd m /\ forall b, best = Some b -> snd b <= snd m).
      { unfold larger in H2. destruct best as [b|].
        - destruct (qlt (snd b) (snd c)) eqn:E.
          + apply qlt_true in E. pose proof (H2 c eq_refl). split; [done|]. intros ? [= <-]. lra.
          + apply qlt_false in E. pose proof (H2 b eq_refl). split; [lra|]. by intros ? [= <-].
        - split; [by apply H2|done]. }
      destruct Hc as [Hc Hb]. split_and!; [|done|].
      * intros c' Hc'. apply elem_of_cons in Hc' as [->|?]; auto.
      * destruct H3 as [H3|H3]; [left; set_solver|]. unfold larger in H3.
        destruct best as [b|]; [destruct (qlt _ _)|]; simplify_eq; set_solver.
    + destruct IH as [_ IH]. unfold larger in IH. destruct best; [destruct (qlt _ _)|]; done.
Qed.

(** Server hints are minima: unless the configuration ignores them, the
    resolved delay is at least every hint the response carried (to within half a
    millisecond of rounding when a body hint is not a whole number of
    milliseconds), and at least the configured minimum; the hint reported is the
    largest one. No configured maximum shortens it. *)
Theorem server_minimum_honoured inp src ms :
  honorRetryAfter (bounds inp) <> Some false -> (src, ms) ∈ candidates inp ->
  ms - (1 # 2) <= delayMs (resolveRetryDelay inp) /\
  (forall z, ms == inject_Z z -> ms <= delayMs (resolveRetryDelay inp)) /\
  minDelayMs (bounds inp) - (1 # 2) <= delayMs (resolveRetryDelay inp) /\
  exists m, serverDelayMs (resolveRetryDelay inp) = Some m /\ ms <= m.
Proof.
  intros Hh Hin. pose proof (larger_fold (candidates inp) None) as Hl. unfold resolveRetryDelay.
  destruct (foldl larger None (candidates inp)) as [[s m]|] eqn:E; [|destruct Hl as [Hl _]; rewrite Hl in Hin; set_solver].
  destruct Hl as (H1 & _ & _). specialize (H1 _ Hin). simpl in H1.
  replace (match honorRetryAfter (bounds inp) with Some false => localDelay inp | _ => fromServer s m (bounds inp) inp end)
    with (fromServer s m (bounds inp) inp) by (destruct (honorRetryAfter (bounds inp)) as [[]|]; done).
  unfold fromServer. simpl.
  destruct (qmax_spec 0 (minDelayMs (bounds inp))) as (A1 & A2 & _),
    (qmax_spec m (qmax 0 (minDelayMs (bounds inp)))) as (B1 & B2 & _).
  destruct (jitter_bounds (qmax m (qmax 0 (minDelayMs (bounds inp)))) (jitterRatio (bounds inp)) (random inp)) as (J1 & _ & J3); [lra|].
  split_and!; [lra| |lra|by exists m]. intros z Hz. rewrite Hz. apply J3. rewrite <- Hz. lra.
Qed.

(** The local backoff is bounded: with no usable hint the delay lies between
    the lower clamp and the upper clamp stretched by the jitter ratio (rounding
    aside), whatever the attempt number. *)
Theorem local_backoff_bounded inp :
  (honorRetryAfter (bounds inp) = Some false \/ candidates inp = []) ->
  let b := bounds inp in
  let lo := qmax 0 (qmin (minDelayMs b) (maxDelayMs b)) in
  let hi := qmax lo (maxDelayMs b) in
  lo - (1 # 2) <= delayMs (resolveRetryDelay inp) /\
  delayMs (resolveRetryDelay inp) <= hi * (1 + qmax 0 (jitterRatio b)) + (1 # 2) /\
  serverDelayMs (resolveRetryDelay inp) = None.
Proof.
  intros Hno b lo hi.
  assert (Hr : resolveRetryDelay inp = localDelay inp).
  { unfold resolveRetryDelay. destruct Hno as [->| ->]; [done|]. by destruct (honorRetryAfter (bounds inp)) as [[]|]. }
  rewrite Hr. unfold localDelay. simpl. fold b. set (bo := exponentialBackoffMs _ _ _).
  destruct (qmax_spec 0 (qmin (minDelayMs b) (maxDelayMs b))) as (L1 & _ & _).
  destruct (qmax_spec lo (maxDelayMs b)) as (H1 & _ & _). fold lo in L1. fold hi in H1.
  destruct (qmax_spec bo lo) as (A1 & A2 & _), (qmin_spec (qmax bo lo) hi) as (B1 & B2 & [B3|B3]).
  all: assert (Hc : lo <= clampDelay bo (minDelayMs b) (maxDelayMs b) <= hi)
    by (change (clampDelay bo (minDelayMs b) (maxDelayMs b)) with (qmin (qmax bo lo) hi); clearbody lo hi; lra).
  all: destruct (jitter_bounds (clampDelay bo (minDelayMs b) (maxDelayMs b)) (jitterRatio b) (random inp)) as (J1 & J2 & _);
    [clearbody lo hi; lra|].
  all: destruct (qmax_spec 0 (jitterRatio b)) as (Q1 & _ & _); clearbody lo hi; 
    assert (0 <= (hi - clampDelay bo (minDelayMs b) (maxDelayMs b)) * (1 + qmax 0 (jitterRatio b)))
      by (apply Qmult_le_0_compat; lra); split_and!; [lra|lra|done].
Qed.

(** [decideWait] never shortens a server minimum: when it decides to wait, the
    wait is positive and within the remaining budget, and if the proposal respected
    the server's minimum so does the wait; when the minimum does not fit it stops. *)
Theorem decideWait_keeps_minimum serverMin proposed remaining :
  (forall m, serverMin = Some m -> remaining < m -> decideWait serverMin proposed remaining = stop) /\
  (forall w, decideWait serverMin proposed remaining = wait w ->
     0 < w /\ w <= remaining /\ w <= proposed /\ forall m, serverMin = Some m -> m <= proposed -> m <= w).
Proof.
  unfold decideWait. split.
  - intros m -> Hm. by rewrite (proj2 (qlt_true _ _) Hm).
  - intros w. destruct (match serverMin with Some m => qlt remaining m | None => false end) eqn:E; [done|].
    destruct (qlt 0 (qmin proposed remaining)) eqn:E2; [|done]. intros [= <-]. apply qlt_true in E2.
    destruct (qmin_spec proposed remaining) as (A1 & A2 & A3). split_and!; [done|done|done|].
    intros m -> Hm. apply qlt_false in E. destruct A3; lra.
Qed.
End Externals.
End RetryDelay.

(** ** The same-model stream retry ladder *)
Module StreamRetry.
Import RetryDelay.
Local Open Scope Q_scope.

Record StreamRetryPolicyConfig := mkConfig {
  enabled : bool;
  maxAttempts : Z;
  initialDelayMs : Q;
  policyMaxDelayMs : Q;
  policyJitterRatio : Q;
  honorServerDelay : bool;
}.

Definition DEFAULT_STREAM_RETRY_POLICY : StreamRetryPolicyConfig := mkConfig true 4 30000 120000 (1 # 6) true.

Inductive StreamRetryDelaySource := server | server_plus_ladder | ladder | exhausted | disabled.

Record RetryDecision := mkDecision {
  shouldRetry : bool;
  decidedDelayMs : Q;
  decidedSource : StreamRetryDelaySource;
  decidedAttempt : Z;
  attemptsUsed : Z;
}.

Definition ladderDelayMs (c : StreamRetryPolicyConfig) (failedAttempt : Z) : Q :=
  let exponent := Z.max 0 (failedAttempt - 1) in
  let raw := initialDelayMs c * inject_Z (2 ^ Z.min exponent 30) in
  qmin (qmax raw 0) (policyMaxDelayMs c).

Definition decide (c : StreamRetryPolicyConfig) (random : Q) (failedAttempt : Z) (serverDelay : option Q) : RetryDecision :=
  let a := Z.max 1 failedAttempt in
  if negb (enabled c) then mkDecision false 0 disabled a a
  else if (maxAttempts c <=? a)%Z then mkDecision false 0 exhausted a a
  else
    let l := addBoundedJitter (ladderDelayMs c a) (policyJitterRatio c) random in
    match serverDelay with
    | Some s =>
        if honorServerDelay c && qlt 0 s then
          let d := qmax s l in
          mkDecision true d (if Qeq_bool d s then server else server_plus_ladder) a a
        else mkDecision true l ladder a a
    | None => mkDecision true l ladder a a
    end.

Lemma pow2_le a b : (0 <= a <= b)%Z -> inject_Z (2 ^ Z.min a 30) <= inject_Z (2 ^ Z.min b 30).
Proof. intros H. rewrite <- Zle_Qle. apply Z.pow_le_mono_r; lia. Qed.

(** The stream retry ladder: a retry is granted exactly while the policy is
    enabled and attempts remain; its wait is never below a (positive, honoured)
    server delay; and the local ladder never decreases from one attempt to the
    next nor exceeds its ceiling. *)
Theorem stream_retry_ladder c random n serverDelay :
  0 <= initialDelayMs c -> 0 <= policyMaxDelayMs c ->
  (shouldRetry (decide c random n serverDelay) = true <-> enabled c = true /\ (Z.max 1 n < maxAttempts c)%Z) /\
  (forall s, serverDelay = Some s -> honorServerDelay c = true -> 0 < s ->
     shouldRetry (decide c random n serverDelay) = true -> s <= decidedDelayMs (decide c random n serverDelay)) /\
  ladderDelayMs c n <= ladderDelayMs c (n + 1) /\ ladderDelayMs c n <= policyMaxDelayMs c.
Proof.
  intros Hi Hm. split_and!.
  - unfold decide. destruct (enabled c); simpl; [|naive_solver].
    destruct (maxAttempts c <=? Z.max 1 n)%Z eqn:E; bool_to_prop; simpl.
    + split; [done|]. intros [_ H]. lia.
    + destruct serverDelay; [destruct (_ && _)|]; simpl; split; try done; intros _; (split; [done|lia]).
  - intros s -> Hh Hs. unfold decide. destruct (enabled c); [|done]. destruct (_ <=? _)%Z; [done|]. simpl.
    rewrite Hh, (proj2 (qlt_true _ _) Hs). simpl. intros _. apply qmax_spec.
  - unfold ladderDelayMs.
    set (x := initialDelayMs c * inject_Z (2 ^ Z.min (Z.max 0 (n - 1)) 30)).
    set (y := initialDelayMs c * inject_Z (2 ^ Z.min (Z.max 0 (n + 1 - 1)) 30)).
    assert (Hxy : x <= y).
    { unfold x, y. rewrite !(Qmult_comm (initialDelayMs c)). apply Qmult_le_compat_r; [|done]. apply pow2_le. lia. }
    destruct (qmax_spec x 0) as (A1 & A2 & [A3|A3]), (qmax_spec y 0) as (B1 & B2 & [B3|B3]),
      (qmin_spec (qmax x 0) (policyMaxDelayMs c)) as (C1 & C2 & C3),
      (qmin_spec (qmax y 0) (policyMaxDelayMs c)) as (D1 & D2 & [D3|D3]); lra.
  - unfold ladderDelayMs. apply qmin_spec.
Qed.

Example default_ladder :
  map (fun n => Qred (ladderDelayMs DEFAULT_STREAM_RETRY_POLICY n)) [1; 2; 3; 4]%Z = [30000; 60000; 120000; 120000].
Proof. reflexivity. Qed.
End StreamRetry.

(** ** The wall-clock retry window *)
Module RetryWindow.

Record RetryWindowState := mkWindow {
  retry_started_at_ms : Z;
  retry_deadline_ms : Z;
  last_probe_at_ms : Z;
  probe_count : Z;
}.

Definition startRetryWindow (nowMs retryWindowMs : Z) : RetryWindowState :=
  mkWindow nowMs (nowMs + retryWindowMs) nowMs 0.
Definition restoreRetryWindow (s : RetryWindowState) : RetryWindowState := s.
Definition remainingMs (s : RetryWindowState) (nowMs : Z) : Z := Z.max 0 (retry_deadline_ms s - nowMs).
Definition windowOpen (s : RetryWindowState) (nowMs : Z) : bool := nowMs <? retry_deadline_ms s.
Definition recordProbe (s : RetryWindowState) (nowMs : Z) : RetryWindowState :=
  mkWindow (retry_started_at_ms s) (retry_deadline_ms s) nowMs (probe_count s + 1).

(** [String(n).padStart(2, "0")] *)
Definition pad2 (n : Z) : string := if n <? 10 then "0" +:+ js_num n else js_num n.
Definition formatElapsed (ms : Z) : string :=
  let total := Z.max 0 (ms / 1000) in
  let h := total / 3600 in
  let m := (total mod 3600) / 60 in
  let s := total mod 60 in
  pad2 h +:+ ":" +:+ pad2 m +:+ ":" +:+ pad2 s.

(** What a step does with its window: probe at a time, or restart and restore. *)
Inductive window_event := probe (nowMs : Z) | restart.
Definition window_step (s : RetryWindowState) (e : window_event) : RetryWindowState :=
  match e with probe t => recordProbe s t | restart => restoreRetryWindow s end.

Lemma window_history evs : forall s,
  retry_deadline_ms (foldl window_step s evs) = retry_deadline_ms s /\
  retry_started_at_ms (foldl window_step s evs) = retry_started_at_ms s.
Proof. induction evs as [|e evs IH]; intros s; [done|]. simpl. destruct (IH (window_step s e)) as [-> ->]. by destruct e. Qed.

(** The retry budget is wall-clock time, not attempts: after any number of
    probes and process restarts the window is open at [now] exactly when less than
    the configured time has passed since it started, and the remaining budget is
    what is left of it. *)
Theorem retry_window_is_wall_clock t0 width evs now :
  let s := foldl window_step (startRetryWindow t0 width) evs in
  windowOpen s now = (now - t0 <? width) /\
  remainingMs s now = Z.max 0 (width - (now - t0)) /\
  (windowOpen s now = true <-> 0 < remainingMs s now).
Proof.
  intros s. destruct (window_history evs (startRetryWindow t0 width)) as [Hd _]. fold s in Hd. simpl in Hd.
  unfold windowOpen, remainingMs. rewrite Hd. split_and!.
  - apply eq_true_iff_eq. rewrite !Z.ltb_lt. lia.
  - lia.
  - rewrite Z.ltb_lt. lia.
Qed.

Example elapsed_format : formatElapsed 3723000 = "01:02:03"%string.
Proof. reflexivity. Qed.
End RetryWindow.

(** ** The watchdog *)
Module Watchdog.

Record WatchdogConfig := mkWdConfig {
  heartbeat_interval_ms : Z;
  inference_stall_threshold_ms : Z;
  tool_stall_threshold_ms : Z;
  auto_recover : bool;
}.
Definition DEFAULT_WATCHDOG_CONFIG : WatchdogConfig := mkWdConfig 10000 (5 * 60000) (10 * 60000) true.

Record WatchdogState := mkWd {
  last_heartbeat_at_ms : Z;
  last_llm_success_at_ms : Z;
  last_tool_progress_at_ms : Z;
  mission_state : string;
}.

Inductive StallKind := none | heartbeat_lost | inference_stalled | tool_stalled.

Definition isProcessAlive (s : WatchdogState) (nowMs : Z) (c : WatchdogConfig) : bool :=
  nowMs - last_heartbeat_at_ms s <=? heartbeat_interval_ms c * 3.

Definition classifyStall (s : WatchdogState) (nowMs : Z) (c : WatchdogConfig) : StallKind :=
  if negb (isProcessAlive s nowMs c) then heartbeat_lost
  else if js_startsWith (mission_state s) "WAITING_FOR" then none
  else if String.eqb (mission_state s) "PAUSED_INFRASTRUCTURE" || String.eqb (mission_state s) "NEEDS_ATTENTION" then none
  else if inference_stall_threshold_ms c <? nowMs - last_llm_success_at_ms s then inference_stalled
  else if tool_stall_threshold_ms c <? nowMs - last_tool_progress_at_ms s then tool_stalled
  else none.

Definition heartbeat (s : WatchdogState) (nowMs : Z) : WatchdogState :=
  mkWd nowMs (last_llm_success_at_ms s) (last_tool_progress_at_ms s) (mission_state s).
Definition recordLlmSuccess (s : WatchdogState) (nowMs : Z) : WatchdogState :=
  mkWd (last_heartbeat_at_ms s) nowMs (last_tool_progress_at_ms s) (mission_state s).
Definition recordToolProgress (s : WatchdogState) (nowMs : Z) : WatchdogState :=
  mkWd (last_heartbeat_at_ms s) (last_llm_success_at_ms s) nowMs (mission_state s).

(** A waiting mission is only ever reported hung for missing heartbeats. *)
Lemma waiting_is_not_stalled s now c :
  js_startsWith (mission_state s) "WAITING_FOR" = true ->
  classifyStall s now c = if isProcessAlive s now c then none else heartbeat_lost.
Proof. intros Hw. unfold classifyStall. rewrite Hw. by destruct (isProcessAlive s now c). Qed.
End Watchdog.

(** ** Supervisor repair backoff *)
Module RepairBackoff.

Record Entry := mkEntry { fingerprint : string; attempts : Z; lastAt : Z }.

Record SupervisorRepairBackoff := mkBackoff {
  baseMs : Z;
  maxMs : Z;
  entries : jsmap string Entry;
}.

Definition new (base max : option Z) : SupervisorRepairBackoff := mkBackoff (nullish base 30000) (nullish max (30 * 60000)) [].

Definition delayAfter (b : SupervisorRepairBackoff) (n : Z) : Z := Z.min (maxMs b) (baseMs b * 2 ^ Z.max 0 (n - 1)).

Definition shouldAttempt (missionId fp : string) (now : Z) (b : SupervisorRepairBackoff) : bool :=
  match map_get missionId (entries b) with
  | None => true
  | Some e => if negb (String.eqb (fingerprint e) fp) then true else delayAfter b (attempts e) <? now - lastAt e
  end.

Definition recordAttempt (missionId fp : string) (now : Z) (b : SupervisorRepairBackoff) : SupervisorRepairBackoff :=
  let n := match map_get missionId (entries b) with
           | Some e => if String.eqb (fingerprint e) fp then attempts e + 1 else 1
           | None => 1
           end in
  mkBackoff (baseMs b) (maxMs b) (map_set missionId (mkEntry fp n now) (entries b)).

Definition forget (missionId : string) (b : SupervisorRepairBackoff) : SupervisorRepairBackoff :=
  mkBackoff (baseMs b) (maxMs b) (map_delete missionId (entries b)).

(** The supervisor's ticks for one mission whose decision does not change: the
    times at which it repairs. *)
Fixpoint ticks (missionId fp : string) (b : SupervisorRepairBackoff) (times : list Z) : list Z :=
  match times with
  | [] => []
  | t :: times' =>
      if shouldAttempt missionId fp t b then t :: ticks missionId fp (recordAttempt missionId fp t b) times'
      else ticks missionId fp b times'
  end.

(** Repairs made so far and the last one's time, as the entry records them. *)
Definition repaired (m fp : string) (n last : Z) (b : SupervisorRepairBackoff) : Prop :=
  map_get m (entries b) = Some (mkEntry fp n last).

Lemma ticks_spaced m fp times : forall b n last,
  repaired m fp n last b ->
  forall i a, (last :: ticks m fp b times) !! i = Some a ->
  forall c, (last :: ticks m fp b times) !! S i = Some c -> delayAfter b (n + Z.of_nat i) < c - a.
Proof.
  induction times as [|t times IH]; intros b n last Hr i a Ha c Hc; [by destruct i|].
  simpl in Ha, Hc. destruct (shouldAttempt m fp t b) eqn:Es.
  - destruct i as [|i].
    + simpl in Ha, Hc. simplify_eq. unfold shouldAttempt in Es. rewrite Hr in Es. simpl in Es.
      rewrite String.eqb_refl in Es. simpl in Es. bool_to_prop. replace (n + Z.of_nat 0) with n by lia. done.
    + assert (Hr' : repaired m fp (n + 1) t (recordAttempt m fp t b)).
      { unfold repaired, recordAttempt. rewrite Hr. simpl. rewrite String.eqb_refl. apply map_get_set_eq. }
      specialize (IH _ _ _ Hr' i a Ha c Hc).
      replace (n + Z.of_nat (S i)) with (n + 1 + Z.of_nat i) by lia. exact IH.
  - by apply (IH b n last Hr i).
Qed.

(** A repair decision that does not change is retried with exponential
    spacing: however often the supervisor ticks, the first tick repairs and the
    gap after the [i]-th repair exceeds [min(maxMs, baseMs * 2^(i-1))]. *)
Theorem repair_backoff_spacing m fp b t0 times :
  map_get m (entries b) = None ->
  let done_ := ticks m fp b (t0 :: times) in
  head done_ = Some t0 /\
  forall i a c, done_ !! i = Some a -> done_ !! S i = Some c ->
    Z.min (maxMs b) (baseMs b * 2 ^ Z.of_nat i) < c - a.
Proof.
  intros Hn done_.
  assert (Hd : done_ = t0 :: ticks m fp (recordAttempt m fp t0 b) times).
  { unfold done_. simpl. unfold shouldAttempt. by rewrite Hn. }
  rewrite Hd. split; [done|]. intros i a c Ha Hc.
  assert (Hr : repaired m fp 1 t0 (recordAttempt m fp t0 b)).
  { unfold repaired, recordAttempt. rewrite Hn. apply map_get_set_eq. }
  pose proof (ticks_spaced m fp times _ _ _ Hr i a Ha c Hc) as H. unfold delayAfter in H. simpl in H.
  replace (Z.max 0 (1 + Z.of_nat i - 1)) with (Z.of_nat i) in H by lia. exact H.
Qed.

(** A changed decision is attempted at once. *)
Lemma changed_decision_attempts m fp fp' t now b :
  fp <> fp' -> shouldAttempt m fp' now (recordAttempt m fp t b) = true.
Proof.
  intros Hne. unfold shouldAttempt, recordAttempt. simpl. rewrite map_get_set_eq. simpl.
  by rewrite (proj2 (String.eqb_neq fp fp')).
Qed.
End RepairBackoff.

(** ** Evaluated instances *)
Section Witnesses.
Import RetryDelay.
Local Open Scope Q_scope.

Definition sample_bounds (honor : option bool) : RetryDelayBounds := mkBounds 1000 60000 500 None (1 # 4) honor.
Definition sample_input (honor : option bool) (hs : option AdmissionHeaders) : ResolveRetryDelayInput :=
  mkInput hs None 3 (sample_bounds honor) 0 (1 # 2).
Definition no_date (s : string) : option Q := None.

Lemma server_minimum_honoured_witness :
  let inp := sample_input None (Some [("Retry-After"%string, Some "120"%string)]) in
  (120000 - (1 # 2) <= delayMs (resolveRetryDelay no_date no_date inp)) /\
  (forall z, 120 * 1000 == inject_Z z -> 120 * 1000 <= delayMs (resolveRetryDelay no_date no_date inp)) /\
  minDelayMs (bounds inp) - (1 # 2) <= delayMs (resolveRetryDelay no_date no_date inp) /\
  exists m, serverDelayMs (resolveRetryDelay no_date no_date inp) = Some m /\ 120 * 1000 <= m.
Proof.
  apply (server_minimum_honoured no_date no_date (sample_input None (Some [("Retry-After"%string, Some "120"%string)]))
           retry_after_seconds (inject_Z 120 * 1000)).
  - discriminate.
  - vm_compute. left.
Defined.

Lemma local_backoff_bounded_witness :
  delayMs (resolveRetryDelay no_date no_date (sample_input (Some false) None)) <=
    qmax (qmax 0 (qmin 1000 60000)) 60000 * (1 + qmax 0 (1 # 4)) + (1 # 2).
Proof.
  apply (local_backoff_bounded no_date no_date (sample_input (Some false) None)). left. reflexivity.
Defined.

Lemma stream_retry_ladder_witness :
  StreamRetry.ladderDelayMs StreamRetry.DEFAULT_STREAM_RETRY_POLICY 2 <=
  StreamRetry.ladderDelayMs StreamRetry.DEFAULT_STREAM_RETRY_POLICY (2 + 1).
Proof.
  apply (StreamRetry.stream_retry_ladder StreamRetry.DEFAULT_STREAM_RETRY_POLICY 0 2 None); vm_compute; discriminate.
Defined.

Lemma repair_backoff_spacing_witness :
  let b := RepairBackoff.new None None in
  head (RepairBackoff.ticks "m" "fp" b (0 :: [30001; 60000; 95000])%Z) = Some 0%Z /\
  forall i a c, RepairBackoff.ticks "m" "fp" b (0 :: [30001; 60000; 95000])%Z !! i = Some a ->
    RepairBackoff.ticks "m" "fp" b (0 :: [30001; 60000; 95000])%Z !! S i = Some c ->
    (Z.min (RepairBackoff.maxMs b) (RepairBackoff.baseMs b * 2 ^ Z.of_nat i) < c - a)%Z.
Proof.
  apply (RepairBackoff.repair_backoff_spacing "m" "fp" (RepairBackoff.new None None) 0 [30001; 60000; 95000]%Z). reflexivity.
Defined.
End Witnesses.
