(* ===== verification/FairQueue.v ===== *)
(** * Scheduling (src/sched/Scheduler.ts) and repeat suppression (src/telemetry/throttle.ts)

    The scheduler keeps a queue, a count of running tasks and a credit per source.
    A step of the system is a submission or the settling of a running task; both
    end in [pump], which starts tasks while a slot is free. Weights are integers. *)

From S2P Require Import Prelude JsMap.

Module Sched.

Record QueueItem := mkItem { q_id : string; q_source : string; q_weight : option Z }.
#[export] Instance QueueItem_eq_dec : EqDecision QueueItem.
Proof. solve_decision. Defined.

Record Scheduler := mkSched {
  concurrency : Z;
  queue : list QueueItem;
  active : Z;
  deficit : jsmap string Z;
  weights : jsmap string Z;
}.

Inductive sched_error := concurrency_too_low.

Definition new (c : Z) : res sched_error Scheduler :=
  if c <? 1 then Err concurrency_too_low else Ok (mkSched c [] 0 [] []).

(** [weightOf]: the weight of the source's first queued task. *)
Fixpoint weightOf (q : list QueueItem) (source : string) : Z :=
  match q with
  | [] => 1
  | x :: q' => if String.eqb (q_source x) source then nullish (q_weight x) 1 else weightOf q' source
  end.

Definition credit (d : jsmap string Z) (s : string) : Z := nullish (map_get s d) 0.

Definition activeSources (q : list QueueItem) : list string := js_dedup (map q_source q).

(** The first loop of [pickFair]: every queued source accrues its weight. *)
Definition accrue (q : list QueueItem) (st : jsmap string Z * jsmap string Z * Z) (s : string)
  : jsmap string Z * jsmap string Z * Z :=
  let '(d, ws, total) := st in
  let w := weightOf q s in
  (map_set s (credit d s + w) d, map_set s w ws, total + w).

(** The second loop: the first queued task of the richest source, with its index. *)
Fixpoint best_from (d : jsmap string Z) (i : nat) (best : option (nat * QueueItem)) (q : list QueueItem)
  : option (nat * QueueItem) :=
  match q with
  | [] => best
  | x :: q' =>
      let best' := match best with
                   | None => Some (i, x)
                   | Some (j, b) => if credit d (q_source b) <? credit d (q_source x) then Some (i, x) else Some (j, b)
                   end in
      best_from d (S i) best' q'
  end.

Definition pickFair (s : Scheduler) : option QueueItem * Scheduler :=
  match queue s with
  | [] => (None, s)
  | _ =>
      let '(d, ws, total) := foldl (accrue (queue s)) (deficit s, weights s, 0) (activeSources (queue s)) in
      match best_from d 0 None (queue s) with
      | None => (None, mkSched (concurrency s) (queue s) (active s) d ws)
      | Some (i, b) =>
          let d' := map_set (q_source b) (credit d (q_source b) - total) d in
          (Some b, mkSched (concurrency s) (delete i (queue s)) (active s) d' ws)
      end
  end.

(** [pump]: start tasks while a slot is free; returns the tasks started, in order. *)
Fixpoint pump_loop (fuel : nat) (s : Scheduler) : option (list QueueItem * Scheduler) :=
  match fuel with
  | O => None
  | S fuel' =>
      if (active s <? concurrency s) && negb (length (queue s) =? 0)%nat then
        match pickFair s with
        | (None, s1) => Some ([], s1)
        | (Some it, s1) =>
            let s2 := mkSched (concurrency s1) (queue s1) (active s1 + 1) (deficit s1) (weights s1) in
            match pump_loop fuel' s2 with
            | Some (its, s3) => Some (it :: its, s3)
            | None => None
            end
        end
      else Some ([], s)
  end.
Definition pump (s : Scheduler) : option (list QueueItem * Scheduler) := pump_loop (S (length (queue s))) s.

(** [schedule(task)] and the [finally] of a settled task. *)
Definition schedule (t : QueueItem) (s : Scheduler) : option (list QueueItem * Scheduler) :=
  pump (mkSched (concurrency s) (queue s ++ [t]) (active s) (deficit s) (weights s)).
Definition settle (s : Scheduler) : option (list QueueItem * Scheduler) :=
  pump (mkSched (concurrency s) (queue s) (active s - 1) (deficit s) (weights s)).

(** *** Picking *)

Lemma best_from_spec d q : forall i best,
  (forall j b, best = Some (j, b) -> (j < i)%nat) ->
  match best_from d i best q with
  | None => q = [] /\ best = None
  | Some (j, b) =>
      (best = Some (j, b) \/ exists k, j = (i + k)%nat /\ q !! k = Some b) /\
      (forall x, x ∈ q -> credit d (q_source x) <= credit d (q_source b)) /\
      (forall j0 b0, best = Some (j0, b0) -> credit d (q_source b0) <= credit d (q_source b)) /\
      (forall k x, q !! k = Some x -> (i + k < j)%nat -> credit d (q_source x) < credit d (q_source b)) /\
      (forall j0 b0, best = Some (j0, b0) -> j <> j0 -> credit d (q_source b0) < credit d (q_source b))
  end.
Proof.
  induction q as [|x q IH]; intros i best Hb; cbn [best_from].
  - destruct best as [[j b]|]; [|done]. split_and!; [by left|set_solver|by intros ?? [= -> ->]|done|].
    intros j0 b0 [= -> ->]. done.
  - set (best' := match best with None => Some (i, x) | Some (j, b) => _ end).
    assert (Hb' : forall j b, best' = Some (j, b) -> (j < S i)%nat).
    { intros j b. unfold best'. destruct best as [[j0 b0]|]; [destruct (_ <? _)|]; intros [= <- <-]; try lia.
      specialize (Hb _ _ eq_refl). lia. }
    specialize (IH (S i) best' Hb'). destruct (best_from d (S i) best' q) as [[j b]|].
    2:{ destruct IH as [_ IH]. unfold best' in IH. destruct best as [[? ?]|]; [destruct (_ <? _)|]; done. }
    destruct IH as (H1 & H2 & H3 & H4 & H5).
    assert (Hx : credit d (q_source x) <= credit d (q_source b) /\
      (forall j0 b0, best = Some (j0, b0) -> credit d (q_source b0) <= credit d (q_source b)) /\
      (j <> i -> (i < j)%nat -> credit d (q_source x) < credit d (q_source b)) /\
      (forall j0 b0, best = Some (j0, b0) -> j <> j0 -> credit d (q_source b0) < credit d (q_source b))).
    { unfold best' in *. destruct best as [[j0 b0]|].
      - specialize (Hb _ _ eq_refl). destruct (_ <? _) eqn:E; bool_to_prop.
        + specialize (H3 _ _ eq_refl). split_and!; [done|intros ?? [= <- <-]; lia| |intros ?? [= <- <-]; lia].
          intros Hne _. by apply (H5 i x).
        + specialize (H3 _ _ eq_refl). split_and!; [lia|by intros ?? [= <- <-]| |].
          * intros _ Hlt. specialize (H5 _ _ eq_refl ltac:(lia)). lia.
          * intros ?? [= <- <-] Hne. by apply (H5 j0 b0).
      - specialize (H3 _ _ eq_refl). split_and!; [done|done| |done]. intros Hne _. by apply (H5 i x). }
    destruct Hx as (X1 & X2 & X3 & X4). split_and!.
    + destruct H1 as [H1|(k & -> & Hk)].
      * unfold best' in H1. destruct best as [[j0 b0]|]; [destruct (_ <? _)|]; simplify_eq.
        -- right. exists 0%nat. split; [lia|done].
        -- by left.
        -- right. exists 0%nat. split; [lia|done].
      * right. exists (S k). split; [lia|done].
    + intros y Hy. apply elem_of_cons in Hy as [->|Hy]; auto.
    + done.
    + intros [|k] y Hy Hlt; simpl in Hy; [simplify_eq; apply X3; lia|]. apply (H4 k y Hy). lia.
    + done.
Qed.

(** Credits after a pick. *)
Definition sum_over (l : list string) (f : string -> Z) : Z := foldr (fun s a => f s + a) 0 l.

Lemma accrue_fold q l : forall d ws t d' ws' t',
  NoDup l -> foldl (accrue q) (d, ws, t) l = (d', ws', t') ->
  (forall s, credit d' s = credit d s + if decide (s ∈ l) then weightOf q s else 0) /\
  t' = t + sum_over l (weightOf q).
Proof.
  induction l as [|x l IH]; intros d ws t d' ws' t' Hnd; cbn [foldl].
  - intros [= <- <- <-]. split; [|simpl; lia]. intros s. destruct (decide (s ∈ [])); [set_solver|lia].
  - apply NoDup_cons in Hnd as [Hni Hnd]. intros H. apply IH in H as [H1 H2]; [|done].
    split; [|simpl; lia].
    intros s. rewrite H1. unfold credit. rewrite map_get_set. destruct (decide (x = s)) as [->|Hne].
    + destruct (decide (s ∈ l)); [done|]. destruct (decide (s ∈ s :: l)); [|set_solver]. simpl. lia.
    + destruct (decide (s ∈ l)), (decide (s ∈ x :: l)); try set_solver; simpl; lia.
Qed.

Lemma js_dedup_from_spec {A} `{EqDecision A} (l : list A) : forall seen,
  NoDup (js_dedup_from seen l) /\ (forall x, x ∈ js_dedup_from seen l <-> x ∈ l /\ x ∉ seen).
Proof.
  induction l as [|y l IH]; intros seen; simpl; [split; [constructor|set_solver]|].
  destruct (js_includes y seen) eqn:E.
  - apply js_includes_true in E. destruct (IH seen) as [H1 H2]. split; [done|]. intros x. rewrite H2. set_solver.
  - apply js_includes_false in E. destruct (IH (seen ++ [y])) as [H1 H2]. split.
    + apply NoDup_cons. split; [|done]. rewrite H2. set_solver.
    + intros x. rewrite elem_of_cons, H2, elem_of_cons, elem_of_app, list_elem_of_singleton.
      destruct (decide (x = y)) as [->|]; naive_solver.
Qed.

Lemma activeSources_spec q : NoDup (activeSources q) /\ forall s, s ∈ activeSources q <-> s ∈ map q_source q.
Proof.
  destruct (js_dedup_from_spec (map q_source q) []) as [H1 H2]. split; [done|]. intros s. rewrite (H2 s). set_solver.
Qed.

(** One pick on a non-empty queue. *)
Lemma pickFair_spec s :
  queue s <> [] ->
  exists i b s', pickFair s = (Some b, s') /\ queue s !! i = Some b /\ queue s' = delete i (queue s) /\
    active s' = active s /\ concurrency s' = concurrency s /\
    let S := activeSources (queue s) in
    let W := sum_over S (weightOf (queue s)) in
    let after x := credit (deficit s) x + if decide (x ∈ S) then weightOf (queue s) x else 0 in
    (forall x, credit (deficit s') x = after x - if decide (x = q_source b) then W else 0) /\
    (forall x, x ∈ S -> after x <= after (q_source b)) /\
    (forall k x, queue s !! k = Some x -> (k < i)%nat -> after (q_source x) < after (q_source b)).
Proof.
  intros Hne. unfold pickFair. destruct (queue s) as [|q0 q'] eqn:Eq; [done|]. rewrite <- Eq. clear Hne.
  destruct (foldl _ _ _) as [[d ws] total] eqn:Ef.
  destruct (activeSources_spec (queue s)) as [Hnd Hel].
  apply accrue_fold in Ef as [Hd Ht]; [|done].
  pose proof (best_from_spec d (queue s) 0 None ltac:(done)) as Hb.
  destruct (best_from d 0 None (queue s)) as [[i b]|]; [|destruct Hb as [Hb _]; congruence].
  destruct Hb as ([?|(k & -> & Hk)] & Hmax & _ & Hfirst & _); [done|].
  exists k, b. eexists. split; [reflexivity|]. simpl. split_and!; [done|done|done|done| | |].
  - intros x. unfold credit at 1. rewrite map_get_set. destruct (decide (q_source b = x)) as [<-|Hne].
    + destruct (decide (q_source b = q_source b)); [|done]. simpl. rewrite Hd, Ht. lia.
    + destruct (decide (x = q_source b)); [congruence|]. change (nullish (map_get x d) 0) with (credit d x).
      rewrite Hd. lia.
  - intros x Hx. rewrite <- !Hd. apply Hel in Hx. apply list_elem_of_fmap in Hx as (it & -> & Hit). by apply Hmax.
  - intros j x Hj Hlt. rewrite <- !Hd. by apply (Hfirst j).
Qed.

(** *** Starting tasks *)

Definition of_source (src : string) (l : list QueueItem) : list QueueItem :=
  js_filter (fun x => String.eqb (q_source x) src) l.

Lemma of_source_app src a b : of_source src (a ++ b) = of_source src a ++ of_source src b.
Proof. apply js_filter_app. Qed.

Lemma delete_split {A} (l : list A) i b : l !! i = Some b -> l = take i l ++ b :: drop (S i) l /\ delete i l = take i l ++ drop (S i) l.
Proof. intros H. split; [by rewrite take_drop_middle|]. apply delete_take_drop. Qed.

(** The picked task is the oldest of its source. *)
Lemma pick_fifo s i b src :
  queue s !! i = Some b -> (forall k x, queue s !! k = Some x -> (k < i)%nat -> q_source x <> q_source b) ->
  of_source src (queue s) = of_source src [b] ++ of_source src (delete i (queue s)).
Proof.
  intros Hi Hne. destruct (delete_split _ _ _ Hi) as [H1 H2]. rewrite H2. rewrite H1 at 1.
  change (b :: drop (S i) (queue s)) with ([b] ++ drop (S i) (queue s)). rewrite !of_source_app.
  destruct (String.eqb_spec (q_source b) src) as [<-|Hs].
  - assert (Hnil : of_source (q_source b) (take i (queue s)) = []).
    { apply js_filter_nil. intros x Hx. apply String.eqb_neq. apply list_elem_of_lookup_1 in Hx as [k Hk].
      apply lookup_take_Some in Hk as [Hk Hlt]. by apply (Hne k). }
    by rewrite Hnil.
  - assert (Hnil : of_source src [b] = []) by (unfold of_source; simpl; by rewrite (proj2 (String.eqb_neq _ _))).
    by rewrite Hnil.
Qed.

Lemma length_delete_lt {A} (l : list A) i b : l !! i = Some b -> length l = S (length (delete i l)).
Proof.
  intros H. destruct (delete_split l i b H) as [H1 H2]. rewrite H2. rewrite H1 at 1. rewrite !length_app. simpl. lia.
Qed.

Record pumped (s : Scheduler) (its : list QueueItem) (s' : Scheduler) : Prop := {
  pu_concurrency : concurrency s' = concurrency s;
  pu_active : active s' = active s + js_len its;
  pu_full : queue s' = [] \/ concurrency s <= active s';
  pu_cap : active s <= concurrency s -> active s' <= concurrency s;
  pu_fifo : forall src, of_source src its ++ of_source src (queue s') = of_source src (queue s);
}.

Lemma pump_loop_spec fuel : forall s, (length (queue s) < fuel)%nat -> exists its s', pump_loop fuel s = Some (its, s') /\ pumped s its s'.
Proof.
  induction fuel as [|fuel IH]; intros s Hf; [lia|]. cbn [pump_loop].
  destruct ((active s <? concurrency s) && negb (length (queue s) =? 0)%nat) eqn:E.
  - bool_to_prop.
    assert (Hne : queue s <> []) by (intros Hq; rewrite Hq in *; done).
    destruct (pickFair_spec s Hne) as (i & b & s1 & -> & Hi & Hq & Ha & Hc & Hcr & Hmax & Hfirst).
    set (s2 := mkSched _ _ _ _ _). pose proof (length_delete_lt _ _ _ Hi) as Hlen.
    destruct (IH s2) as (its & s' & -> & [P1 P2 P3 P4 P5]); [simpl; rewrite Hq; lia|].
    exists (b :: its), s'. split; [done|]. simpl in P1, P2, P3, P4, P5. rewrite Hq in P5.
    constructor; [lia|unfold js_len in *; simpl length; lia|destruct P3; [by left|right; lia]|intros; rewrite <- Hc; apply P4; lia|].
    intros src. change (b :: its) with ([b] ++ its). rewrite of_source_app, <- app_assoc, P5.
    symmetry. apply pick_fifo; [done|]. intros k x Hk Hlt Heq. specialize (Hfirst k x Hk Hlt). rewrite Heq in Hfirst. lia.
  - exists [], s. split; [done|]. bool_to_prop. constructor; [done|unfold js_len; simpl; lia| |done|done].
    destruct E as [E|E]; bool_to_prop; [by right|]. left. by apply length_zero_iff_nil.
Qed.

Lemma pump_spec s : exists its s', pump s = Some (its, s') /\ pumped s its s'.
Proof. apply pump_loop_spec. lia. Qed.

(** *** The scheduler as a system *)

Inductive op := submit (t : QueueItem) | finish.

(** [finish] is the settling of some running task; with none running it does not occur. *)
Fixpoint run_ops (ops : list op) (s : Scheduler) : option (list QueueItem * Scheduler) :=
  match ops with
  | [] => Some ([], s)
  | o :: ops' =>
      match (match o with
             | submit t => schedule t s
             | finish => if 0 <? active s then settle s else Some ([], s)
             end) with
      | Some (its, s1) => match run_ops ops' s1 with
                          | Some (its', s2) => Some (its ++ its', s2)
                          | None => None
                          end
      | None => None
      end
  end.

Definition submitted (ops : list op) : list QueueItem := omap (fun o => match o with submit t => Some t | finish => None end) ops.

Lemma run_ops_spec ops : forall s,
  0 <= active s <= concurrency s -> (queue s <> [] -> active s = concurrency s) ->
  exists started s', run_ops ops s = Some (started, s') /\
    0 <= active s' <= concurrency s /\ (queue s' <> [] -> active s' = concurrency s) /\ concurrency s' = concurrency s /\
    forall src, of_source src started ++ of_source src (queue s') = of_source src (queue s) ++ of_source src (submitted ops).
Proof.
  induction ops as [|o ops IH]; intros s Ha Hq.
  - exists [], s. split_and!; [done|lia|lia|done|done|]. intros src. simpl. by rewrite app_nil_r.
  - assert (Hstep : exists its s1,
      (match o with submit t => schedule t s | finish => if 0 <? active s then settle s else Some ([], s) end) = Some (its, s1) /\
      0 <= active s1 <= concurrency s /\ (queue s1 <> [] -> active s1 = concurrency s) /\ concurrency s1 = concurrency s /\
      forall src, of_source src its ++ of_source src (queue s1) =
        of_source src (queue s) ++ of_source src (match o with submit t => [t] | finish => [] end)).
    { destruct o as [t|].
      - unfold schedule. destruct (pump_spec (mkSched (concurrency s) (queue s ++ [t]) (active s) (deficit s) (weights s)))
          as (its & s1 & -> & [P1 P2 P3 P4 P5]). simpl in *. exists its, s1. unfold js_len in *.
        split_and!; [done|lia|apply P4; lia| |done|].
        + intros Hne. destruct P3 as [|P3]; [done|]. specialize (P4 ltac:(lia)). lia.
        + intros src. rewrite P5. apply of_source_app.
      - destruct (0 <? active s) eqn:E; bool_to_prop.
        + unfold settle. destruct (pump_spec (mkSched (concurrency s) (queue s) (active s - 1) (deficit s) (weights s)))
            as (its & s1 & -> & [P1 P2 P3 P4 P5]). simpl in *. exists its, s1. unfold js_len in *.
          split_and!; [done|lia|apply P4; lia| |done|].
          * intros Hne. destruct P3 as [|P3]; [done|]. specialize (P4 ltac:(lia)). lia.
          * intros src. rewrite P5. by rewrite app_nil_r.
        + exists [], s. split_and!; [done|lia|lia|done|done|]. intros src. by rewrite app_nil_r. }
    destruct Hstep as (its & s1 & Hs & A1 & A2 & A3 & A4).
    destruct (IH s1) as (its' & s2 & Hr & B1 & B2 & B3 & B4); [rewrite A3; done|rewrite A3; done|].
    exists (its ++ its'), s2. cbn [run_ops]. rewrite Hs, Hr. rewrite A3 in *.
    split_and!; [done|lia|lia|done|done|]. intros src. rewrite of_source_app, <- app_assoc, B4, app_assoc, A4, <- app_assoc.
    f_equal. rewrite <- of_source_app. f_equal. destruct o; done.
Qed.

(** The scheduler never exceeds its concurrency, never idles while work is
    queued, and starts every submitted task exactly once and in submission order
    within its source: for any sequence of submissions and completions, what has
    started followed by what is queued is, source by source, what was submitted. *)
Theorem scheduler_contract c ops s0 :
  new c = Ok s0 ->
  exists started s', run_ops ops s0 = Some (started, s') /\
    0 <= active s' <= c /\ (queue s' <> [] -> active s' = c) /\
    forall src, of_source src started ++ of_source src (queue s') = of_source src (submitted ops).
Proof.
  unfold new. destruct (c <? 1) eqn:E; [done|]. intros [= <-]. bool_to_prop.
  destruct (run_ops_spec ops (mkSched c [] 0 [] [])) as (started & s' & H1 & H2 & H3 & H4 & H5); [simpl; lia|done|].
  simpl in *. exists started, s'. split_and!; [done|lia|lia|done|]. exact H5.
Qed.

(** *** No starvation *)

Definition enqueue (a : list QueueItem) (s : Scheduler) : Scheduler :=
  mkSched (concurrency s) (queue s ++ a) (active s) (deficit s) (weights s).

(** Rounds of picking, each after some arrivals: the sources served. *)
Fixpoint rounds (s : Scheduler) (arrivals : list (list QueueItem)) : list (option string) * Scheduler :=
  match arrivals with
  | [] => ([], s)
  | a :: arrivals' =>
      let (it, s1) := pickFair (enqueue a s) in
      let (served, s2) := rounds s1 arrivals' in
      (option_map q_source it :: served, s2)
  end.

(** At every round exactly the sources of [S] have queued tasks, with weights [w]. *)
Fixpoint steady (S : list string) (w : string -> Z) (s : Scheduler) (arrivals : list (list QueueItem)) : Prop :=
  match arrivals with
  | [] => True
  | a :: arrivals' =>
      (forall x, x ∈ map q_source (queue (enqueue a s)) <-> x ∈ S) /\
      (forall x, x ∈ S -> weightOf (queue (enqueue a s)) x = w x) /\
      steady S w (snd (pickFair (enqueue a s))) arrivals'
  end.

Lemma sum_over_perm l k f : l ≡ₚ k -> sum_over l f = sum_over k f.
Proof. induction 1; simpl; lia. Qed.

Lemma sum_over_ext l f g : (forall x, x ∈ l -> f x = g x) -> sum_over l f = sum_over l g.
Proof. induction l as [|x l IH]; intros H; simpl; [done|]. rewrite IH, (H x) by set_solver. done. Qed.

Lemma sum_over_sub l f g : sum_over l (fun x => f x - g x) = sum_over l f - sum_over l g.
Proof. induction l as [|x l IH]; simpl; lia. Qed.
Lemma sum_over_add l f g : sum_over l (fun x => f x + g x) = sum_over l f + sum_over l g.
Proof. induction l as [|x l IH]; simpl; lia. Qed.

Lemma sum_over_single l b W : NoDup l -> b ∈ l -> sum_over l (fun x => if decide (x = b) then W else 0) = W.
Proof.
  induction l as [|x l IH]; [set_solver|]. rewrite NoDup_cons, elem_of_cons. intros [Hni Hnd] Hb. simpl.
  destruct (decide (x = b)) as [->|Hne].
  - assert (Hz : sum_over l (fun x => if decide (x = b) then W else 0) = 0); [|lia].
    clear -Hni. induction l as [|y l IH]; simpl; [done|]. destruct (decide (y = b)); [set_solver|]. rewrite IH by set_solver. done.
  - rewrite IH by (done || naive_solver). lia.
Qed.

Lemma sum_over_le l f M : (forall x, x ∈ l -> f x <= M) -> sum_over l f <= js_len l * M.
Proof.
  induction l as [|x l IH]; intros H; unfold js_len in *; [simpl; lia|]. simpl sum_over. simpl length.
  specialize (IH ltac:(intros; apply H; set_solver)). specialize (H x ltac:(set_solver)). lia.
Qed.

Lemma sum_over_ge l f m : (forall x, x ∈ l -> m <= f x) -> js_len l * m <= sum_over l f.
Proof.
  induction l as [|x l IH]; intros H; unfold js_len in *; [simpl; lia|]. simpl sum_over. simpl length.
  specialize (IH ltac:(intros; apply H; set_solver)). specialize (H x ltac:(set_solver)). lia.
Qed.

Section Starvation.
Context (S : list string) (w : string -> Z).
Context (HS : NoDup S) (Hw : forall y, y ∈ S -> 0 < w y).
Let W := sum_over S w.

(** The credits of the competing sources sum to zero and none is below [-W]. *)
Record balanced (d : jsmap string Z) : Prop := {
  ba_sum : sum_over S (credit d) = 0;
  ba_low : forall y, y ∈ S -> - W < credit d y;
}.

Lemma pick_balanced s a :
  S <> [] -> (forall x, x ∈ map q_source (queue (enqueue a s)) <-> x ∈ S) ->
  (forall x, x ∈ S -> weightOf (queue (enqueue a s)) x = w x) ->
  balanced (deficit s) ->
  exists b s', pickFair (enqueue a s) = (Some b, s') /\ q_source b ∈ S /\ balanced (deficit s') /\
    forall x, x ∈ S -> x <> q_source b -> credit (deficit s') x = credit (deficit s) x + w x.
Proof.
  intros Hne Hsrc Hwt [B1 B2].
  assert (Hq : queue (enqueue a s) <> []).
  { intros Hq. rewrite Hq in Hsrc. destruct S as [|x l]; [done|]. pose proof (proj2 (Hsrc x)). set_solver. }
  destruct (pickFair_spec _ Hq) as (i & b & s' & Hp & Hi & _ & _ & _ & Hcr & Hmax & _).
  exists b, s'. change (deficit (enqueue a s)) with (deficit s) in *.
  destruct (activeSources_spec (queue (enqueue a s))) as [And Ael].
  assert (Hb : q_source b ∈ S).
  { apply Hsrc. apply list_elem_of_lookup_2 in Hi. by apply (list_elem_of_fmap_2 q_source). }
  assert (Hperm : activeSources (queue (enqueue a s)) ≡ₚ S).
  { apply NoDup_Permutation; [done|done|]. intros x. by rewrite Ael, Hsrc. }
  assert (HW : sum_over (activeSources (queue (enqueue a s))) (weightOf (queue (enqueue a s))) = W).
  { rewrite (sum_over_perm _ _ _ Hperm). unfold W. apply sum_over_ext. exact Hwt. }
  assert (Hafter : forall x, x ∈ S ->
    credit (deficit s) x + (if decide (x ∈ activeSources (queue (enqueue a s))) then weightOf (queue (enqueue a s)) x else 0)
    = credit (deficit s) x + w x).
  { intros x Hx. destruct (decide (x ∈ activeSources (queue (enqueue a s)))) as [_|Hn]; [by rewrite Hwt|].
    exfalso. apply Hn. rewrite Hperm. done. }
  assert (Hnew : forall x, x ∈ S -> credit (deficit s') x = credit (deficit s) x + w x - if decide (x = q_source b) then W else 0).
  { intros x Hx. rewrite Hcr, HW, Hafter by done. done. }
  assert (Hsum : sum_over S (fun x => credit (deficit s) x + w x) = W) by (rewrite sum_over_add, B1; done).
  assert (HWpos : 0 < W).
  { unfold W. destruct S as [|x l]; [done|]. simpl. pose proof (Hw x ltac:(set_solver)).
    pose proof (sum_over_ge l w 0 ltac:(intros; apply Z.lt_le_incl, Hw; set_solver)). lia. }
  assert (Hbpos : 0 < credit (deficit s) (q_source b) + w (q_source b)).
  { pose proof (sum_over_le S (fun x => credit (deficit s) x + w x) (credit (deficit s) (q_source b) + w (q_source b))) as Hle.
    rewrite Hsum in Hle. assert (W <= js_len S * (credit (deficit s) (q_source b) + w (q_source b))).
    { apply Hle. intros x Hx. rewrite <- !Hafter by done. apply Hmax. by rewrite Hperm. }
    unfold js_len in *. nia. }
  split_and!; [done|done| |].
  - constructor.
    + rewrite (sum_over_ext S _ (fun x => (credit (deficit s) x + w x) - if decide (x = q_source b) then W else 0)) by exact Hnew.
      rewrite sum_over_sub, Hsum, sum_over_single by done. lia.
    + intros y Hy. rewrite Hnew by done. specialize (B2 y Hy). specialize (Hw y Hy). destruct (decide (y = q_source b)) as [->|]; lia.
  - intros x Hx Hxb. rewrite Hnew by done. destruct (decide (x = q_source b)); [done|]. lia.
Qed.

Lemma rounds_balanced arrivals : forall s,
  S <> [] -> steady S w s arrivals -> balanced (deficit s) ->
  balanced (deficit (snd (rounds s arrivals))) /\
  forall x, x ∈ S -> Some x ∉ fst (rounds s arrivals) ->
    credit (deficit (snd (rounds s arrivals))) x = credit (deficit s) x + js_len arrivals * w x.
Proof.
  induction arrivals as [|a arrivals IH]; intros s Hne Hst Hb.
  - split; [done|]. intros. unfold js_len. simpl. lia.
  - destruct Hst as (H1 & H2 & H3).
    destruct (pick_balanced s a Hne H1 H2 Hb) as (b & s' & Hp & Hbs & Hb' & Hcr).
    cbn [rounds]. rewrite Hp in *. simpl in H3. destruct (IH s' Hne H3 Hb') as [I1 I2].
    destruct (rounds s' arrivals) as [served s2]. simpl in *. split; [done|]. intros x Hx Hni.
    rewrite I2 by set_solver. rewrite Hcr by set_solver. unfold js_len. simpl length. lia.
Qed.

(** The credit of one source is bounded by what the others may owe. *)
Lemma balanced_upper d x : balanced d -> x ∈ S -> credit d x <= (js_len S - 1) * W.
Proof.
  intros [B1 B2] Hx. apply list_elem_of_split in Hx as (l1 & l2 & HSeq).
  assert (Hp : S ≡ₚ x :: (l1 ++ l2)) by (rewrite HSeq; symmetry; apply Permutation_middle).
  rewrite (sum_over_perm _ _ _ Hp) in B1. simpl in B1.
  pose proof (sum_over_ge (l1 ++ l2) (credit d) (- W)) as Hge.
  assert (Hl : js_len S = 1 + js_len (l1 ++ l2)) by (unfold js_len; rewrite Hp; simpl; lia).
  assert (js_len (l1 ++ l2) * - W <= sum_over (l1 ++ l2) (credit d)).
  { apply Hge. intros y Hy. apply Z.lt_le_incl, B2. rewrite Hp. set_solver. }
  rewrite Hl. lia.
Qed.
End Starvation.

Lemma rounds_app s a1 a2 :
  rounds s (a1 ++ a2) = (fst (rounds s a1) ++ fst (rounds (snd (rounds s a1)) a2), snd (rounds (snd (rounds s a1)) a2)).
Proof.
  revert s. induction a1 as [|a a1 IH]; intros s; simpl; [by destruct (rounds s a2)|].
  destruct (pickFair (enqueue a s)) as [it s1]. rewrite IH. destruct (rounds s1 a1). simpl. done.
Qed.

Lemma steady_app S w a1 : forall s a2, steady S w s (a1 ++ a2) -> steady S w s a1 /\ steady S w (snd (rounds s a1)) a2.
Proof.
  induction a1 as [|a a1 IH]; intros s a2; simpl; [done|]. intros (H1 & H2 & H3). apply IH in H3 as [H3 H4].
  destruct (pickFair (enqueue a s)) as [it s1]. simpl in *. destruct (rounds s1 a1). simpl in *. done.
Qed.

(** No source starves: as long as the same sources compete with positive
    weights [w] (from fresh credits), any block of consecutive picks that skips a
    source [x] is shorter than [|S| * W / w x], [W] the total weight, whatever
    arrives in between; heavier sources are skipped for proportionally less. *)
Theorem no_source_starves S w s before block x :
  NoDup S -> (forall y, y ∈ S -> 0 < w y) -> x ∈ S ->
  (forall y, y ∈ S -> credit (deficit s) y = 0) ->
  steady S w s (before ++ block) ->
  Some x ∉ fst (rounds (snd (rounds s before)) block) ->
  js_len block * w x < js_len S * sum_over S w.
Proof.
  intros HS Hw Hx H0 Hst Hni. assert (Hne : S <> []) by (intros ->; set_solver).
  assert (HW : 0 < sum_over S w).
  { apply list_elem_of_split in Hx as (l1 & l2 & HSeq).
    assert (Hp : S ≡ₚ x :: (l1 ++ l2)) by (rewrite HSeq; symmetry; apply Permutation_middle).
    rewrite (sum_over_perm _ _ _ Hp). simpl. pose proof (Hw x ltac:(rewrite Hp; set_solver)).
    pose proof (sum_over_ge (l1 ++ l2) w 0 ltac:(intros y Hy; apply Z.lt_le_incl, Hw; rewrite Hp; set_solver)). lia. }
  assert (Hb0 : balanced S w (deficit s)).
  { constructor; [rewrite (sum_over_ext S _ (fun _ => 0)) by done; clear; induction S; simpl; lia|].
    intros y Hy. rewrite H0 by done. lia. }
  apply steady_app in Hst as [Hs1 Hs2].
  destruct (rounds_balanced S w HS Hw before s Hne Hs1 Hb0) as [Hb1 _].
  destruct (rounds_balanced S w HS Hw block _ Hne Hs2 Hb1) as [Hb2 Hcr].
  specialize (Hcr x Hx Hni). pose proof (balanced_upper S w HS Hw _ x Hb2 Hx) as Hup.
  pose proof (ba_low _ _ _ Hb1 x Hx). lia.
Qed.

(** *** Submission order of [scheduleAll] *)

(** Group by source, sources in first-seen order. *)
Definition bySource (tasks : list QueueItem) : jsmap string (list QueueItem) :=
  foldl (fun m t => map_set (q_source t) (nullish (map_get (q_source t) m) [] ++ [t]) m) [] tasks.

(** One pass of the inner [for]: the next task of every source that has one left.
    The rows are the tasks not yet taken (the code keeps a cursor per source). *)
Definition heads (rows : list (list QueueItem)) : list QueueItem := omap head rows.
Definition tails (rows : list (list QueueItem)) : list (list QueueItem) := map tail rows.

Fixpoint order_rows (fuel : nat) (remaining : nat) (rows : list (list QueueItem)) : option (list QueueItem) :=
  match fuel with
  | O => None
  | Datatypes.S fuel' =>
      if (remaining =? 0)%nat then Some []
      else match order_rows fuel' (remaining - length (heads rows)) (tails rows) with
           | Some rest => Some (heads rows ++ rest)
           | None => None
           end
  end.

Definition ordered (tasks : list QueueItem) : option (list QueueItem) :=
  order_rows (Datatypes.S (length tasks)) (length tasks) (map_values (bySource tasks)).

Lemma heads_tails_perm rows : heads rows ++ concat (tails rows) ≡ₚ concat rows.
Proof.
  unfold heads, tails. induction rows as [|[|x r] rows IH]; simpl; [done|done|].
  apply perm_skip. rewrite <- IH. rewrite !app_assoc. apply Permutation_app_tail, Permutation_app_comm.
Qed.

Lemma heads_nil rows : heads rows = [] -> concat rows = [].
Proof. unfold heads. induction rows as [|[|x r] rows IH]; simpl; [done|done|done]. Qed.

Lemma order_rows_spec fuel : forall rows, (length (concat rows) < fuel)%nat ->
  exists out, order_rows fuel (length (concat rows)) rows = Some out /\ out ≡ₚ concat rows.
Proof.
  induction fuel as [|fuel IH]; intros rows Hf; [lia|]. cbn [order_rows].
  destruct (Nat.eqb_spec (length (concat rows)) 0) as [H0|Hne].
  - exists []. apply length_zero_iff_nil in H0. by rewrite H0.
  - pose proof (heads_tails_perm rows) as Hp.
    assert (Hl : length (concat (tails rows)) = (length (concat rows) - length (heads rows))%nat)
      by (rewrite <- Hp, length_app; lia).
    assert (Hh : (0 < length (heads rows))%nat).
    { destruct (heads rows) eqn:E; [|simpl; lia]. apply heads_nil in E. by rewrite E in Hne. }
    assert (length (heads rows) <= length (concat rows))%nat by (rewrite <- Hp, length_app; lia).
    destruct (IH (tails rows)) as (out & Ho & Hperm); [lia|]. rewrite Hl in Ho. rewrite Ho.
    exists (heads rows ++ out). split; [done|]. by rewrite Hperm.
Qed.

Lemma bySource_perm tasks : concat (map_values (bySource tasks)) ≡ₚ tasks.
Proof.
  unfold bySource. rewrite <- (app_nil_l tasks) at 2.
  assert (H : forall m, concat (map_values (foldl (fun m t => map_set (q_source t) (nullish (map_get (q_source t) m) [] ++ [t]) m) m tasks))
    ≡ₚ concat (map_values m) ++ tasks).
  { induction tasks as [|t tasks IH]; intros m; [by rewrite app_nil_r|]. simpl. rewrite IH.
    assert (Hs : concat (map_values (map_set (q_source t) (nullish (map_get (q_source t) m) [] ++ [t]) m)) ≡ₚ concat (map_values m) ++ [t]).
    { clear IH. unfold map_values. induction m as [|[k l] m IHm]; simpl; [done|].
      destruct (decide (q_source t = k)); simpl; [|by rewrite IHm, app_assoc].
      rewrite <- !app_assoc. apply Permutation_app_head. apply Permutation_app_comm. }
    rewrite Hs, <- app_assoc. done. }
  apply (H []).
Qed.

(** The round-robin submission loop of [scheduleAll] ends and submits every task
    exactly once. *)
Lemma ordered_total tasks : exists out, ordered tasks = Some out /\ out ≡ₚ tasks.
Proof.
  unfold ordered. pose proof (bySource_perm tasks) as Hp.
  destruct (order_rows_spec (Datatypes.S (length tasks)) (map_values (bySource tasks))) as (out & H1 & H2).
  - rewrite Hp. lia.
  - rewrite (Permutation_length Hp) in H1. exists out. split; [exact H1|]. by rewrite H2.
Qed.

(** Tasks submitted source by source are not run in submission order. *)
Example round_robin_order :
  option_map (map q_id) (ordered [mkItem "a1" "a" None; mkItem "a2" "a" None; mkItem "b1" "b" None]) =
  Some ["a1"; "b1"; "a2"]%string.
Proof. reflexivity. Qed.
End Sched.

(** ** Repeat suppression of diagnostics *)
Module Throttle.

Definition DEFAULT_REPEAT_MS : Z := 60000.
Definition MAX_TRACKED : nat := 64.

(** Delete the expired entries, in iteration order. *)
Definition sweep (at_ repeatMs : Z) (shownAt : jsmap string Z) : jsmap string Z :=
  js_filter (fun kv => negb (repeatMs <=? at_ - snd kv)) shownAt.

(** Delete from the front until at most [MAX_TRACKED] are left. *)
Definition evict (shownAt : jsmap string Z) : jsmap string Z := drop (length shownAt - MAX_TRACKED) shownAt.

(** The predicate [createRepeatThrottle] returns: show the notice?, new memory. *)
Definition notice (repeatMs : Z) (key : option string) (text : string) (at_ : Z) (shownAt : jsmap string Z)
  : bool * jsmap string Z :=
  let k := nullish key text in
  match map_get k shownAt with
  | Some previous => if at_ - previous <? repeatMs then (false, shownAt)
                     else let m := map_set k at_ shownAt in
                          (true, if (MAX_TRACKED <? map_size m)%nat then evict (sweep at_ repeatMs m) else m)
  | None => let m := map_set k at_ shownAt in
            (true, if (MAX_TRACKED <? map_size m)%nat then evict (sweep at_ repeatMs m) else m)
  end.

Fixpoint notices (repeatMs : Z) (l : list (option string * string * Z)) (shownAt : jsmap string Z)
  : list bool * jsmap string Z :=
  match l with
  | [] => ([], shownAt)
  | (k, t, at_) :: l' =>
      let (b, m) := notice repeatMs k t at_ shownAt in
      let (bs, m') := notices repeatMs l' m in
      (b :: bs, m')
  end.

Lemma evict_size m : (map_size (evict m) <= MAX_TRACKED)%nat.
Proof. unfold map_size, evict. rewrite length_drop. lia. Qed.

Lemma notice_capped r k t at_ m :
  (map_size m <= MAX_TRACKED)%nat -> (map_size (snd (notice r k t at_ m)) <= MAX_TRACKED)%nat.
Proof.
  intros Hm. unfold notice. destruct (map_get _ m); [destruct (_ <? _); [done|]|]; simpl;
    (destruct (_ <? _)%nat eqn:E; [apply evict_size|by bool_to_prop]).
Qed.

(** A notice is silenced only by the same condition shown less than [repeatMs] ago. *)
Lemma notice_silenced r k t at_ m :
  fst (notice r k t at_ m) = false <-> exists p, map_get (nullish k t) m = Some p /\ at_ - p < r.
Proof.
  unfold notice. destruct (map_get (nullish k t) m) as [p|]; [|split; [done|by intros (? & ? & _)]].
  destruct (at_ - p <? r) eqn:E; bool_to_prop; simpl.
  - split; [eauto|done].
  - split; [done|]. intros (p' & [= <-] & Hlt). lia.
Qed.

(** The memory only ever holds times at which that condition was shown. *)
Definition recorded (l : list (option string * string * Z)) (bs : list bool) (k : string) (p : Z) : Prop :=
  exists i nk nt, l !! i = Some (nk, nt, p) /\ bs !! i = Some true /\ nullish nk nt = k.

Lemma js_filter_map_get (f : string * Z -> bool) (m : jsmap string Z) k p :
  map_ok m -> map_get k (js_filter f m) = Some p -> map_get k m = Some p.
Proof.
  intros Hok H. apply map_get_elem in H. apply js_filter_elem in H as [H _]. by apply map_elem_get.
Qed.

Lemma drop_map_get n (m : jsmap string Z) k p : map_ok m -> map_get k (drop n m) = Some p -> map_get k m = Some p.
Proof.
  intros Hok H. apply map_get_elem in H. apply map_elem_get; [done|]. rewrite <- (take_drop n m). set_solver.
Qed.

Lemma js_filter_ok (f : string * Z -> bool) (m : jsmap string Z) : map_ok m -> map_ok (js_filter f m).
Proof.
  unfold map_ok, map_keys. induction m as [|[k v] m IH]; simpl; [done|]. rewrite NoDup_cons. intros [Hni Hnd].
  destruct (f (k, v)); [|by apply IH]. simpl. apply NoDup_cons. split; [|by apply IH]. intros Hc. apply Hni.
  apply list_elem_of_fmap in Hc as ([k' v'] & -> & Hin). apply js_filter_elem in Hin as [Hin _].
  by apply (list_elem_of_fmap_2 fst) in Hin.
Qed.

Lemma notice_memory r k t at_ m :
  map_ok m -> map_ok (snd (notice r k t at_ m)) /\
  forall k' p, map_get k' (snd (notice r k t at_ m)) = Some p ->
    map_get k' m = Some p \/ (fst (notice r k t at_ m) = true /\ k' = nullish k t /\ p = at_).
Proof.
  intros Hok. set (m1 := map_set (nullish k t) at_ m).
  assert (Hok1 : map_ok m1) by (by apply map_set_ok).
  set (m2 := if (MAX_TRACKED <? map_size m1)%nat then evict (sweep at_ r m1) else m1).
  assert (H2 : map_ok m2 /\ forall k' p, map_get k' m2 = Some p -> map_get k' m1 = Some p).
  { unfold m2. destruct (_ <? _)%nat; [|done]. assert (Hs : map_ok (sweep at_ r m1)) by by apply js_filter_ok. split.
    - unfold evict, map_ok, map_keys in *. rewrite fmap_drop. rewrite <- (take_drop (length (sweep at_ r m1) - MAX_TRACKED) (sweep at_ r m1).*1) in Hs.
      apply NoDup_app in Hs as (_ & _ & Hs). exact Hs.
    - intros k' p H. apply drop_map_get in H; [|done]. by apply js_filter_map_get in H. }
  assert (H1 : forall k' p, map_get k' m2 = Some p -> map_get k' m = Some p \/ (k' = nullish k t /\ p = at_)).
  { intros k' p H. apply H2 in H. unfold m1 in H. rewrite map_get_set in H. destruct (decide _); simplify_eq; auto. }
  unfold notice. fold m1. fold m2. destruct (map_get (nullish k t) m) as [pr|]; [destruct (_ <? _)|]; simpl.
  - split; [done|]. auto.
  - split; [apply H2|]. intros k' p H. apply H1 in H. naive_solver.
  - split; [apply H2|]. intros k' p H. apply H1 in H. naive_solver.
Qed.

Lemma notices_spec r l : forall m,
  map_ok m -> (map_size m <= MAX_TRACKED)%nat ->
  (map_size (snd (notices r l m)) <= MAX_TRACKED)%nat /\
  forall i nk nt at_, l !! i = Some (nk, nt, at_) -> fst (notices r l m) !! i = Some false ->
    exists p, at_ - p < r /\
      (map_get (nullish nk nt) m = Some p \/
       exists j nk' nt', (j < i)%nat /\ l !! j = Some (nk', nt', p) /\ fst (notices r l m) !! j = Some true /\
         nullish nk' nt' = nullish nk nt).
Proof.
  induction l as [|[[k t] a] l IH]; intros m Hok Hm; cbn [notices]; [split; [done|intros i ? ? ? Hi; by destruct i]|].
  destruct (notice r k t a m) as [b m1] eqn:En.
  destruct (notice_memory r k t a m Hok) as [Hok1 Hmem]. rewrite En in Hok1, Hmem. simpl in Hok1, Hmem.
  pose proof (notice_capped r k t a m Hm) as Hcap. rewrite En in Hcap. simpl in Hcap.
  destruct (IH m1 Hok1 Hcap) as [I1 I2]. destruct (notices r l m1) as [bs m'] eqn:El. simpl in *. split; [done|].
  intros [|i] nk nt at_ Hi Hb; simpl in *.
  - simplify_eq. pose proof (proj1 (notice_silenced r nk nt at_ m)) as Hs. rewrite En in Hs.
    destruct (Hs eq_refl) as (p & Hp & Hlt). exists p. auto.
  - destruct (I2 i nk nt at_ Hi Hb) as (p & Hlt & [Hg|(j & nk' & nt' & Hj & Hl & Ht & Hk)]); exists p; (split; [done|]).
    + apply Hmem in Hg as [Hg|(-> & Hk & ->)]; [by left|]. right. exists 0%nat, k, t. split_and!; [lia|done|done|done].
    + right. exists (S j), nk', nt'. split_and!; [lia|done|done|done].
Qed.

(** The notification throttle remembers at most 64 conditions whatever
    arrives, and it silences a notice only when the same condition was actually
    shown less than the repeat interval before: evictions can only un-suppress. *)
Theorem throttle_capped_and_sound r l :
  let run := notices r l [] in
  (map_size (snd run) <= MAX_TRACKED)%nat /\
  forall i nk nt at_, l !! i = Some (nk, nt, at_) -> fst run !! i = Some false ->
    exists j nk' nt' p, (j < i)%nat /\ l !! j = Some (nk', nt', p) /\ fst run !! j = Some true /\
      nullish nk' nt' = nullish nk nt /\ at_ - p < r.
Proof.
  intros run. destruct (notices_spec r l []) as [H1 H2]; [constructor|simpl; unfold MAX_TRACKED; lia|]. split; [done|].
  intros i nk nt at_ Hi Hb. destruct (H2 i nk nt at_ Hi Hb) as (p & Hlt & [Hg|(j & nk' & nt' & H)]); [done|].
  exists j, nk', nt', p. naive_solver.
Qed.
End Throttle.

(** ** Evaluated instances *)

Definition sample_tasks : list Sched.op :=
  [Sched.submit (Sched.mkItem "a1" "a" (Some 3)); Sched.submit (Sched.mkItem "a2" "a" (Some 3));
   Sched.submit (Sched.mkItem "b1" "b" None); Sched.finish; Sched.finish].

Lemma scheduler_contract_witness :
  exists started s', Sched.run_ops sample_tasks (Sched.mkSched 1 [] 0 [] []) = Some (started, s') /\
    0 <= Sched.active s' <= 1 /\ (Sched.queue s' <> [] -> Sched.active s' = 1) /\
    forall src, Sched.of_source src started ++ Sched.of_source src (Sched.queue s') =
      Sched.of_source src (Sched.submitted sample_tasks).
Proof. apply (Sched.scheduler_contract 1 sample_tasks (Sched.mkSched 1 [] 0 [] [])). reflexivity. Defined.

(** Two sources of weight 3 and 1, always refilled. *)
Definition sample_weight (s : string) : Z := if decide (s = "a"%string) then 3 else 1.
Definition sample_state : Sched.Scheduler :=
  Sched.mkSched 1 [Sched.mkItem "a1" "a" (Some 3); Sched.mkItem "a2" "a" (Some 3); Sched.mkItem "b1" "b" None] 1 [] [].

Lemma no_source_starves_witness : js_len [[] : list Sched.QueueItem] * sample_weight "b" < js_len ["a"; "b"]%string * (3 + (1 + 0)).
Proof.
  apply (Sched.no_source_starves ["a"; "b"]%string sample_weight sample_state [] [[]] "b").
  - apply (bool_decide_unpack (NoDup ["a"; "b"]%string)). vm_compute. exact I.
  - intros y _. unfold sample_weight. destruct (decide _); lia.
  - set_solver.
  - reflexivity.
  - split; [|split; [|exact I]].
    + intros x. simpl. set_solver.
    + intros x Hx. apply elem_of_cons in Hx as [->|Hx]; [reflexivity|].
      apply list_elem_of_singleton in Hx as ->. reflexivity.
  - intros Hc. vm_compute in Hc. apply list_elem_of_singleton in Hc. discriminate Hc.
Defined.
