(* ===== verification/Leases.v ===== *)
(** * Generation-fenced leases (src/runtime/isolation/LeaseManager.ts)

    The lease table, the liveness verdicts it relies on
    (src/runtime/isolation/processIdentity.ts, [RuntimeRegistry.assess]) and every
    operation of the lease manager. What the code reads from the operating system
    (host name, boot id, process start times, signal probes) and the session
    registry's rows are the environment of a step; each operation runs in an
    immediate transaction, so it is one step. *)

From S2P Require Import Prelude JsMap.

(** ** Processes and sessions *)

Record ProcessIdentity := mkProc {
  p_pid : Z;
  p_host : string;
  p_bootId : option string;
  p_processStartTime : option string;
}.

Inductive AliveReason := incarnation_matches | signal_ok.
Inductive ProcessLiveness := alive (reason : AliveReason) | dead (reason : string) | unknown (reason : string).

(** What a process can learn about another one. *)
Inductive StartTime := present (value : string) | missing | unreadable.
Inductive Probe := probe_alive | probe_dead | probe_permission_denied.
Record Os := mkOs {
  os_hostname : string;
  os_bootId : option string;
  os_startTime : Z -> StartTime;
  os_signal : Z -> Probe;
}.

(** [Number.isSafeInteger(pid) && pid > 0] *)
Definition valid_pid (pid : Z) : bool := (0 <? pid) && (pid <? 2 ^ 53).

Definition truthy_opt (o : option string) : option string :=
  match o with Some s => if truthy s then Some s else None | None => None end.

Definition signal_verdict (os : Os) (owner : ProcessIdentity) : ProcessLiveness :=
  match os_signal os (p_pid owner) with
  | probe_dead => dead "pid_not_alive"
  | probe_permission_denied => unknown "permission_denied"
  | probe_alive => match truthy_opt (p_processStartTime owner) with
                   | Some _ => unknown "identity_unavailable"
                   | None => alive signal_ok
                   end
  end.

Definition assessProcess (os : Os) (owner : ProcessIdentity) : ProcessLiveness :=
  if negb (valid_pid (p_pid owner)) then dead "pid_not_alive"
  else if negb (String.eqb (p_host owner) (os_hostname os)) then unknown "remote_host"
  else if match truthy_opt (p_bootId owner), truthy_opt (os_bootId os) with
          | Some a, Some b => negb (String.eqb a b)
          | _, _ => false
          end then dead "rebooted"
  else match truthy_opt (p_processStartTime owner) with
       | Some recorded =>
           match os_startTime os (p_pid owner) with
           | missing => dead "pid_not_alive"
           | present v => if String.eqb v recorded then alive incarnation_matches else dead "pid_reused"
           | unreadable => signal_verdict os owner
           end
       | None => signal_verdict os owner
       end.

Inductive SessionState := s_starting | s_healthy | s_recovering | s_rebinding | s_stopping | s_stopped | s_dead | s_orphaned.
#[export] Instance SessionState_eq_dec : EqDecision SessionState.
Proof. solve_decision. Defined.
Definition LIVE_STATES : list SessionState := [s_starting; s_healthy; s_recovering; s_rebinding; s_stopping].
Definition state_name (s : SessionState) : string :=
  match s with
  | s_starting => "starting" | s_healthy => "healthy" | s_recovering => "recovering" | s_rebinding => "rebinding"
  | s_stopping => "stopping" | s_stopped => "stopped" | s_dead => "dead" | s_orphaned => "orphaned"
  end.

(** The columns of a session row that liveness reads. *)
Record SessionRecord := mkSession {
  sr_process : ProcessIdentity;
  sr_state : SessionState;
  sr_lastHeartbeatMs : Z;
}.

Inductive SessionAssessment := session_live | session_dead (reason : string) | session_uncertain (reason : string).

Definition reason_of (l : ProcessLiveness) : string :=
  match l with
  | alive incarnation_matches => "incarnation_matches"
  | alive signal_ok => "signal_ok"
  | dead r => r
  | unknown r => r
  end.

(** [RuntimeRegistry.assess] *)
Definition assess (os : Os) (staleAfterMs now : Z) (record : SessionRecord) : SessionAssessment :=
  if negb (js_includes (sr_state record) LIVE_STATES) then session_dead ("state_" +:+ state_name (sr_state record))
  else
    let liveness := assessProcess os (sr_process record) in
    match liveness with
    | dead r => session_dead r
    | alive incarnation_matches => session_live
    | alive signal_ok =>
        if staleAfterMs <? now - sr_lastHeartbeatMs record then session_dead "heartbeat_expired" else session_live
    | unknown r =>
        if staleAfterMs <? now - sr_lastHeartbeatMs record then session_dead ("heartbeat_expired_" +:+ r)
        else session_uncertain r
    end.

(** ** Leases *)

Record LeaseRecord := mkLease {
  le_sessionId : string;
  le_process : ProcessIdentity;
  le_generationId : string;
  le_acquiredAtMs : Z;
  le_heartbeatAtMs : Z;
  le_expiresAtMs : Z;
}.
(** The table: [resource_id] is its primary key. *)
Definition leases : Type := jsmap string LeaseRecord.

Record LeaseOwner := mkOwner { ow_sessionId : string; ow_process : ProcessIdentity }.

Definition DEFAULT_LEASE_TTL_MS : Z := 45000.

(** The environment of a step. *)
Record Env := mkEnv {
  e_now : Z;
  e_os : Os;
  e_sessions : jsmap string SessionRecord;
  e_staleAfterMs : Z;
}.

Definition displacementReason (env : Env) (holder : LeaseRecord) : option string :=
  match map_get (le_sessionId holder) (e_sessions env) with
  | None => Some "session_unregistered"%string
  | Some session =>
      if negb (bool_decide (p_processStartTime (sr_process session) = p_processStartTime (le_process holder)))
         || negb (p_pid (sr_process session) =? p_pid (le_process holder))
      then Some "holder_incarnation_superseded"%string
      else
        match assess (e_os env) (e_staleAfterMs env) (e_now env) session with
        | session_dead reason => Some reason
        | _ =>
            match assessProcess (e_os env) (le_process holder) with
            | dead reason => Some reason
            | alive incarnation_matches => None
            | _ => if le_expiresAtMs holder <? e_now env then Some "lease_expired"%string else None
            end
        end
  end.

Inductive LeaseAcquisition :=
| acq_ok (lease : LeaseRecord) (reentrant : bool) (reclaimed : option (string * string))
| acq_held (holder : LeaseRecord).

Definition extend (now ttlMs : Z) (l : LeaseRecord) : LeaseRecord :=
  mkLease (le_sessionId l) (le_process l) (le_generationId l) (le_acquiredAtMs l) now (now + ttlMs).

(** [UPDATE ... WHERE resource_id = ? AND generation_id = ?] and the matching
    [DELETE]: the row changes only if it carries that generation. *)
Definition update_generation (r g : string) (f : LeaseRecord -> LeaseRecord) (t : leases) : leases * bool :=
  match map_get r t with
  | Some l => if String.eqb (le_generationId l) g then (map_set r (f l) t, true) else (t, false)
  | None => (t, false)
  end.
Definition delete_generation (r g : string) (t : leases) : leases * bool :=
  match map_get r t with
  | Some l => if String.eqb (le_generationId l) g then (map_delete r t, true) else (t, false)
  | None => (t, false)
  end.

Definition sameOwner (l : LeaseRecord) (o : LeaseOwner) : bool :=
  String.eqb (le_sessionId l) (ow_sessionId o)
  && (p_pid (le_process l) =? p_pid (ow_process o))
  && bool_decide (p_processStartTime (le_process l) = p_processStartTime (ow_process o)).

Definition freshLease (env : Env) (owner : LeaseOwner) (ttlMs : Z) (uuid : string) : LeaseRecord :=
  mkLease (ow_sessionId owner) (ow_process owner) uuid (e_now env) (e_now env) (e_now env + ttlMs).

(** [acquire]; [uuid] is what [randomUUID()] returns. *)
Definition acquire (env : Env) (r : string) (owner : LeaseOwner) (ttlMs : Z) (uuid : string) (t : leases)
  : leases * LeaseAcquisition :=
  match map_get r t with
  | Some current =>
      if sameOwner current owner then
        (fst (update_generation r (le_generationId current) (extend (e_now env) ttlMs) t),
         acq_ok (extend (e_now env) ttlMs current) true None)
      else
        match displacementReason env current with
        | None => (t, acq_held current)
        | Some reason =>
            let t1 := fst (delete_generation r (le_generationId current) t) in
            let lease := freshLease env owner ttlMs uuid in
            (map_set r lease t1, acq_ok lease false (Some (le_sessionId current, reason)))
        end
  | None =>
      let lease := freshLease env owner ttlMs uuid in
      (map_set r lease t, acq_ok lease false None)
  end.

Definition renew (env : Env) (r g : string) (ttlMs : Z) (t : leases) : leases * bool :=
  update_generation r g (extend (e_now env) ttlMs) t.

Definition release (r g : string) (t : leases) : leases * bool := delete_generation r g t.

Definition renewSessionLeasesInTransaction (sessionId : string) (now ttlMs : Z) (t : leases) : leases :=
  map (fun kv => (fst kv, if String.eqb (le_sessionId (snd kv)) sessionId then extend now ttlMs (snd kv) else snd kv)) t.

Definition releaseSessionLeasesInTransaction (sessionId : string) (t : leases) : leases * Z :=
  (js_filter (fun kv => negb (String.eqb (le_sessionId (snd kv)) sessionId)) t,
   js_len (js_filter (fun kv => String.eqb (le_sessionId (snd kv)) sessionId) t)).

Definition reap_step (env : Env) (st : leases * list (string * string * string)) (kv : string * LeaseRecord)
  : leases * list (string * string * string) :=
  let (t, reaped) := st in
  match displacementReason env (snd kv) with
  | None => (t, reaped)
  | Some reason => (fst (delete_generation (fst kv) (le_generationId (snd kv)) t),
                    reaped ++ [(fst kv, le_sessionId (snd kv), reason)])
  end.
Definition reapStale (env : Env) (t : leases) : leases * list (string * string * string) :=
  foldl (reap_step env) (t, []) t.

(** ** Histories *)

Inductive lop :=
| l_acquire (r : string) (owner : LeaseOwner) (ttlMs : Z) (uuid : string)
| l_renew (r g : string) (ttlMs : Z)
| l_release (r g : string)
| l_renewSession (sessionId : string) (ttlMs : Z)
| l_releaseSession (sessionId : string)
| l_reap.

Definition lstep (env : Env) (o : lop) (t : leases) : leases :=
  match o with
  | l_acquire r owner ttl uuid => fst (acquire env r owner ttl uuid t)
  | l_renew r g ttl => fst (renew env r g ttl t)
  | l_release r g => fst (release r g t)
  | l_renewSession sid ttl => renewSessionLeasesInTransaction sid (e_now env) ttl t
  | l_releaseSession sid => fst (releaseSessionLeasesInTransaction sid t)
  | l_reap => fst (reapStale env t)
  end.

Definition generation_at (r : string) (t : leases) : option string := option_map le_generationId (map_get r t).

Lemma map_get_map (f : string * LeaseRecord -> LeaseRecord) r (t : leases) :
  (forall k l, f (k, l) = f (r, l)) ->
  map_get r (map (fun kv => (fst kv, f kv)) t) = option_map (fun l => f (r, l)) (map_get r t).
Proof.
  intros Hf. induction t as [|[k l] t IH]; simpl; [done|]. destruct (decide (r = k)) as [->|]; [simpl|done]. done.
Qed.

Lemma js_filter_get (p : string * LeaseRecord -> bool) r (t : leases) :
  map_ok t -> map_get r (js_filter p t) = match map_get r t with Some l => if p (r, l) then Some l else None | None => None end.
Proof.
  unfold map_ok, map_keys. induction t as [|[k l] t IH]; simpl; [done|]. rewrite NoDup_cons. intros [Hni Hnd].
  destruct (p (k, l)) eqn:E; simpl; destruct (decide (r = k)) as [->|Hne]; rewrite ?E; auto.
  rewrite IH by done. destruct (map_get k t) as [l'|] eqn:Eg; [|done]. exfalso. apply Hni.
  apply map_get_elem in Eg. by apply (list_elem_of_fmap_2 fst) in Eg.
Qed.

Lemma delete_generation_get r g r' t :
  map_ok t ->
  map_get r' (fst (delete_generation r g t)) =
  if decide (r = r' /\ generation_at r t = Some g) then None else map_get r' t.
Proof.
  intros Hok. unfold delete_generation, generation_at. destruct (map_get r t) as [l|] eqn:E; simpl.
  - destruct (String.eqb_spec (le_generationId l) g) as [<-|Hne].
    + destruct (decide (r = r')) as [->|Hr].
      * rewrite decide_True by done. simpl. by apply map_get_delete_eq.
      * rewrite decide_False by naive_solver. simpl. by apply map_get_delete_ne.
    + by rewrite decide_False by naive_solver.
  - by rewrite decide_False by naive_solver.
Qed.

Lemma delete_generation_ok r g t : map_ok t -> map_ok (fst (delete_generation r g t)).
Proof. intros Hok. unfold delete_generation. repeat break_goal; simpl; auto with pieng. Qed.

Lemma update_generation_get r g f r' t :
  map_get r' (fst (update_generation r g f t)) =
  if decide (r = r' /\ generation_at r t = Some g) then option_map f (map_get r' t) else map_get r' t.
Proof.
  unfold update_generation, generation_at. destruct (map_get r t) as [l|] eqn:E; simpl.
  - destruct (String.eqb_spec (le_generationId l) g) as [<-|Hne].
    + simpl. rewrite map_get_set. destruct (decide (r = r')) as [->|Hr].
      * rewrite decide_True by done. by rewrite E.
      * by rewrite decide_False by naive_solver.
    + by rewrite decide_False by naive_solver.
  - by rewrite decide_False by naive_solver.
Qed.

(** What reaping does to one row: it goes exactly when its holder may be displaced. *)
Definition displaced (env : Env) (l : LeaseRecord) : bool :=
  match displacementReason env l with Some _ => true | None => false end.

Lemma reap_fold env l : forall t acc r,
  map_ok t -> NoDup (map fst l) -> (forall k v, (k, v) ∈ l -> map_get k t = Some v) ->
  map_ok (fst (foldl (reap_step env) (t, acc) l)) /\
  map_get r (fst (foldl (reap_step env) (t, acc) l)) =
    match map_get r t with
    | Some v => if js_includes r (map fst l) && displaced env v then None else Some v
    | None => None
    end.
Proof.
  induction l as [|[k v] l IH]; intros t acc r Hok Hnd Hl; cbn [foldl map].
  - split; [done|]. simpl. by destruct (map_get r t) as [v|].
  - simpl in Hnd. apply NoDup_cons in Hnd as [Hni Hnd].
    pose proof (Hl k v ltac:(set_solver)) as Hkv.
    assert (Hl' : forall k' v', (k', v') ∈ l -> map_get k' t = Some v') by (intros; apply Hl; set_solver).
    assert (Hinc : forall x : LeaseRecord, r <> k -> js_includes r (fst (k, x) :: map fst l) = js_includes r (map fst l)).
    { intros x Hne. apply eq_true_iff_eq. rewrite !js_includes_true. simpl. set_solver. }
    replace (reap_step env (t, acc) (k, v)) with
      (match displacementReason env v with
       | None => (t, acc)
       | Some reason => (fst (delete_generation k (le_generationId v) t), acc ++ [(k, le_sessionId v, reason)])
       end) by done.
    destruct (displacementReason env v) as [reason|] eqn:Ed.
    + set (t1 := fst (delete_generation k (le_generationId v) t)).
      assert (Hg : forall r', map_get r' t1 = if decide (k = r') then None else map_get r' t).
      { intros r'. unfold t1. rewrite delete_generation_get by done. unfold generation_at. rewrite Hkv. simpl.
        destruct (decide (k = r')); [rewrite decide_True by done|rewrite decide_False by naive_solver]; done. }
      destruct (IH t1 (acc ++ [(k, le_sessionId v, reason)]) r) as [I1 I2].
      * by apply delete_generation_ok.
      * done.
      * intros k' v' Hin. rewrite Hg. rewrite decide_False; [by apply Hl'|]. intros <-. apply Hni.
        by apply (list_elem_of_fmap_2 fst) in Hin.
      * split; [exact I1|]. etransitivity; [exact I2|]. rewrite Hg. destruct (decide (k = r)) as [<-|Hne].
        -- rewrite Hkv. unfold displaced. rewrite Ed, (proj2 (js_includes_true _ _)) by set_solver. done.
        -- destruct (map_get r t) as [x|]; [|done]. by rewrite (Hinc v) by congruence.
    + destruct (IH t acc r Hok Hnd Hl') as [I1 I2]. split; [done|]. etransitivity; [exact I2|].
      destruct (map_get r t) as [x|] eqn:Er; [|done]. destruct (decide (r = k)) as [->|Hne].
      * rewrite Hkv in Er. simplify_eq. unfold displaced. rewrite Ed, !andb_false_r. done.
      * by rewrite (Hinc v).
Qed.

Lemma reapStale_get env t r :
  map_ok t -> map_ok (fst (reapStale env t)) /\
  map_get r (fst (reapStale env t)) =
    match map_get r t with
    | Some v => match displacementReason env v with Some _ => None | None => Some v end
    | None => None
    end.
Proof.
  intros Hok. destruct (reap_fold env t t [] r Hok Hok) as [H1 H2].
  - intros k v Hin. by apply map_elem_get.
  - split; [exact H1|]. unfold reapStale. etransitivity; [exact H2|]. destruct (map_get r t) as [v|] eqn:E; [|done].
    assert (Hin : r ∈ map fst t) by (apply map_get_elem in E; by apply (list_elem_of_fmap_2 fst) in E).
    rewrite (proj2 (js_includes_true _ _)) by done. unfold displaced. simpl. by destruct (displacementReason env v).
Qed.

Lemma generation_kept_or_gone r t t' :
  map_get r t' = map_get r t \/ map_get r t' = None -> generation_at r t' = generation_at r t \/ generation_at r t' = None.
Proof. unfold generation_at. intros [-> | ->]; auto. Qed.

(** One step changes a resource's generation only by removing it or by a fresh
    acquisition of that resource. *)
Lemma lstep_generation env o t r :
  map_ok t -> map_ok (lstep env o t) /\
  (generation_at r (lstep env o t) = generation_at r t \/ generation_at r (lstep env o t) = None \/
   exists owner ttl uuid, o = l_acquire r owner ttl uuid /\ generation_at r (lstep env o t) = Some uuid).
Proof.
  intros Hok. destruct o as [r0 owner ttl uuid|r0 g ttl|r0 g|sid ttl|sid|]; unfold lstep.
  - unfold acquire. destruct (map_get r0 t) as [cur|] eqn:Ec; [destruct (sameOwner cur owner); [|destruct (displacementReason env cur)]|].
    + split; [unfold update_generation; repeat break_goal; simpl; auto with pieng|]. left. unfold generation_at at 1.
      simpl. rewrite update_generation_get. destruct (decide _) as [[-> _]|]; [|done]. unfold generation_at. by rewrite Ec.
    + split; [apply map_set_ok; by apply delete_generation_ok|]. simpl. unfold generation_at. rewrite map_get_set.
      destruct (decide (r0 = r)) as [->|Hne]; [right; right; simpl; eauto|]. left.
      rewrite delete_generation_get by done. by rewrite decide_False by naive_solver.
    + split; [done|]. by left.
    + split; [by apply map_set_ok|]. simpl. unfold generation_at. rewrite map_get_set.
      destruct (decide (r0 = r)) as [->|Hne]; [right; right; simpl; eauto|by left].
  - split; [unfold renew, update_generation; repeat break_goal; simpl; auto with pieng|]. left. unfold generation_at at 1, renew.
    rewrite update_generation_get. destruct (decide _); [|done]. unfold generation_at. by destruct (map_get r t).
  - split; [by apply delete_generation_ok|]. apply or_assoc. left. apply generation_kept_or_gone. unfold release.
    rewrite delete_generation_get by done. destruct (decide _); auto.
  - split.
    + unfold renewSessionLeasesInTransaction, map_ok, map_keys. change (map ?f t) with (f <$> t). rewrite <- list_fmap_compose.
      exact Hok.
    + left. unfold generation_at at 1, renewSessionLeasesInTransaction.
      rewrite (map_get_map (fun kv => if String.eqb (le_sessionId (snd kv)) sid then extend (e_now env) ttl (snd kv) else snd kv)) by done.
      unfold generation_at. destruct (map_get r t) as [l|]; [|done]. simpl. by destruct (String.eqb _ _).
  - split.
    + unfold releaseSessionLeasesInTransaction. simpl. clear r. revert Hok. unfold map_ok, map_keys.
      induction t as [|[k l] t IH]; simpl; [done|]. rewrite NoDup_cons. intros [Hni Hnd].
      destruct (negb _); [|by apply IH]. simpl. apply NoDup_cons. split; [|by apply IH]. intros Hc. apply Hni.
      apply list_elem_of_fmap in Hc as ([k' l'] & -> & Hin). apply js_filter_elem in Hin as [Hin _].
      by apply (list_elem_of_fmap_2 fst) in Hin.
    + apply or_assoc. left. apply generation_kept_or_gone. unfold releaseSessionLeasesInTransaction. simpl.
      rewrite js_filter_get by done. destruct (map_get r t) as [l|]; [|auto]. simpl. destruct (negb _); auto.
  - destruct (reapStale_get env t r Hok) as [H1 H2]. split; [exact H1|]. apply or_assoc. left. apply generation_kept_or_gone.
    rewrite H2. destruct (map_get r t) as [l|]; [|auto]. destruct (displacementReason env l); auto.
Qed.

Definition issued_by (o : lop) : list string := match o with l_acquire _ _ _ uuid => [uuid] | _ => [] end.

(** A history and the generations drawn in it; [randomUUID] never repeats one. *)
Fixpoint run (t : leases) (ops : list (Env * lop)) : leases :=
  match ops with [] => t | (env, o) :: ops' => run (lstep env o t) ops' end.
Fixpoint fresh_run (issued : list string) (ops : list (Env * lop)) : Prop :=
  match ops with
  | [] => True
  | (_, o) :: ops' => (forall u, u ∈ issued_by o -> u ∉ issued) /\ fresh_run (issued ++ issued_by o) ops'
  end.

Lemma run_ok ops : forall t, map_ok t -> map_ok (run t ops).
Proof.
  induction ops as [|[env o] ops IH]; intros t Hok; [done|]. simpl. apply IH.
  apply (lstep_generation env o t "" Hok).
Qed.

Lemma run_stale ops : forall t issued r g,
  map_ok t -> fresh_run issued ops -> g ∈ issued -> generation_at r t <> Some g -> generation_at r (run t ops) <> Some g.
Proof.
  induction ops as [|[env o] ops IH]; intros t issued r g Hok Hf Hg Hne; [done|]. simpl.
  destruct Hf as [Hf1 Hf2]. destruct (lstep_generation env o t r Hok) as [Hok' Hgen].
  apply (IH _ (issued ++ issued_by o)); [done|done|set_solver|].
  destruct Hgen as [->|[->|(owner & ttl & uuid & -> & ->)]]; [done|done|]. intros [= ->].
  by apply (Hf1 g); [simpl; set_solver|].
Qed.

(** C4: fencing: once a generation has been issued and no longer holds a
    resource, its owner is powerless there for ever: after any further history of
    lease operations (by anyone, in any environment, with fresh generation ids),
    renewing or releasing with it fails and leaves the table untouched. *)
Theorem stale_generation_powerless history ops r g env ttl :
  fresh_run [] (history ++ ops) ->
  let t := run [] history in
  let t' := run t ops in
  g ∈ concat (map (fun eo => issued_by (snd eo)) history) -> generation_at r t <> Some g ->
  renew env r g ttl t' = (t', false) /\ release r g t' = (t', false).
Proof.
  intros Hf t t' Hg Hne.
  assert (Hf' : fresh_run (concat (map (fun eo => issued_by (snd eo)) history)) ops).
  { clear -Hf. rewrite <- (app_nil_l (concat _)). revert Hf. generalize ([] : list string) as issued.
    induction history as [|[e o] h IH]; intros issued; simpl; [by rewrite app_nil_r|]. intros [_ Hf].
    rewrite app_assoc. by apply IH. }
  assert (Hok : map_ok t) by (apply run_ok; constructor).
  pose proof (run_stale ops t _ r g Hok Hf' Hg Hne) as Hst. fold t' in Hst.
  unfold renew, release, update_generation, delete_generation. unfold generation_at in Hst.
  destruct (map_get r t') as [l|]; [|done]. simpl in Hst. destruct (String.eqb_spec (le_generationId l) g); [congruence|done].
Qed.

(** The holder's registry row describes the process that took the lease, in a live
    state, and the operating system confirms that very incarnation. *)
Definition verified_alive (env : Env) (sid : string) (p : ProcessIdentity) : Prop :=
  exists s, map_get sid (e_sessions env) = Some s /\ sr_process s = p /\ sr_state s ∈ LIVE_STATES /\
    assessProcess (e_os env) p = alive incarnation_matches.

(** Everything but the holder's own release (of the lease or of its session). *)
Definition foreign (r g sid : string) (o : lop) : Prop :=
  o <> l_release r g /\ o <> l_releaseSession sid.

Lemma verified_not_displaced env l :
  verified_alive env (le_sessionId l) (le_process l) -> displacementReason env l = None.
Proof.
  intros (s & Hs & Hp & Hst & Hal). unfold displacementReason, assess. rewrite Hs, Hp.
  rewrite bool_decide_eq_true_2, Z.eqb_refl by done. simpl.
  rewrite (proj2 (js_includes_true _ _)) by done. simpl. by rewrite Hal.
Qed.

Definition held (r g sid : string) (p : ProcessIdentity) (t : leases) : Prop :=
  exists l, map_get r t = Some l /\ le_generationId l = g /\ le_sessionId l = sid /\ le_process l = p.

Lemma lstep_held env o t r g sid p :
  map_ok t -> held r g sid p t -> verified_alive env sid p -> foreign r g sid o -> held r g sid p (lstep env o t).
Proof.
  intros Hok (l & Hl & Hg & Hsid & Hp) Hv [F1 F2].
  assert (Hnd : displacementReason env l = None) by (apply verified_not_displaced; by rewrite Hsid, Hp).
  destruct o as [r0 owner ttl uuid|r0 g0 ttl|r0 g0|sid0 ttl|sid0|]; unfold lstep.
  - unfold acquire. destruct (map_get r0 t) as [cur|] eqn:Ec; [destruct (sameOwner cur owner); [|destruct (displacementReason env cur) eqn:Ed]|]; simpl.
    + unfold held. rewrite update_generation_get. destruct (decide _); [|eauto]. rewrite Hl. simpl. eexists. split; [done|]. done.
    + assert (Hr : r0 <> r) by (intros ->; congruence). exists l. rewrite map_get_set_ne, delete_generation_get by done.
      by rewrite decide_False by naive_solver.
    + by exists l.
    + assert (Hr : r0 <> r) by (intros ->; congruence). exists l. by rewrite map_get_set_ne.
  - unfold held, renew. rewrite update_generation_get. destruct (decide _); [|eauto]. rewrite Hl. simpl. eexists. split; [done|]. done.
  - exists l. unfold release. rewrite delete_generation_get by done. rewrite decide_False; [done|]. intros [-> Hgen].
    unfold generation_at in Hgen. rewrite Hl in Hgen. simpl in Hgen. congruence.
  - unfold held, renewSessionLeasesInTransaction.
    rewrite (map_get_map (fun kv => if String.eqb (le_sessionId (snd kv)) sid0 then extend (e_now env) ttl (snd kv) else snd kv)) by done.
    rewrite Hl. simpl. eexists. split; [done|]. by destruct (String.eqb _ _).
  - exists l. unfold releaseSessionLeasesInTransaction. simpl. rewrite js_filter_get, Hl by done. simpl.
    destruct (String.eqb_spec (le_sessionId l) sid0); [congruence|]. done.
  - exists l. destruct (reapStale_get env t r Hok) as [_ ->]. by rewrite Hl, Hnd.
Qed.

Lemma run_held ops : forall t r g sid p,
  map_ok t -> held r g sid p t ->
  (forall env o, (env, o) ∈ ops -> verified_alive env sid p /\ foreign r g sid o) -> held r g sid p (run t ops).
Proof.
  induction ops as [|[env o] ops IH]; intros t r g sid p Hok Hh Hall; [done|]. simpl.
  destruct (Hall env o ltac:(set_solver)) as [Hv Hf]. apply IH.
  - apply (lstep_generation env o t r Hok).
  - by apply lstep_held.
  - intros. apply Hall. set_solver.
Qed.

(** C12: a live holder is never displaced: as long as the registry and the
    operating system confirm the process that took a lease, no history of other
    parties' acquisitions, renewals, releases or reaping takes the lease from it,
    expired or not; and another session that asks for it is told who holds it. *)
Theorem live_holder_keeps_lease history ops r g sid p env owner ttl uuid :
  held r g sid p (run [] history) ->
  (forall env o, (env, o) ∈ ops -> verified_alive env sid p /\ foreign r g sid o) ->
  verified_alive env sid p -> ow_sessionId owner <> sid ->
  let t' := run (run [] history) ops in
  held r g sid p t' /\
  exists holder, acquire env r owner ttl uuid t' = (t', acq_held holder) /\ le_generationId holder = g.
Proof.
  intros Hh Hall Hv Ho t'. assert (Hok : map_ok (run [] history)) by (apply run_ok; constructor).
  pose proof (run_held ops _ r g sid p Hok Hh Hall) as Hh'. fold t' in Hh'. split; [done|].
  destruct Hh' as (l & Hl & Hg & Hsid & Hp). exists l. split; [|done]. unfold acquire. rewrite Hl.
  unfold sameOwner. rewrite Hsid. destruct (String.eqb_spec sid (ow_sessionId owner)); [congruence|]. simpl.
  by rewrite verified_not_displaced by by rewrite Hsid, Hp.
Qed.

(** ** Evaluated instances *)

Definition sample_proc : ProcessIdentity := mkProc 42 "h" (Some "boot"%string) (Some "100"%string).
Definition sample_os : Os := mkOs "h" (Some "boot"%string) (fun _ => present "100") (fun _ => probe_alive).
Definition sample_env (now : Z) : Env :=
  mkEnv now sample_os [("s1"%string, mkSession sample_proc s_healthy 0)] 60000.
Definition sample_owner (sid : string) : LeaseOwner := mkOwner sid sample_proc.

Lemma stale_generation_powerless_witness :
  let t := run [] [(sample_env 0, l_acquire "r" (sample_owner "s1") 1000 "g1"); (sample_env 1, l_release "r" "g1")] in
  let t' := run t [(sample_env 2, l_acquire "r" (sample_owner "s1") 1000 "g2")] in
  renew (sample_env 3) "r" "g1" 1000 t' = (t', false) /\ release "r" "g1" t' = (t', false).
Proof.
  apply (stale_generation_powerless
    [(sample_env 0, l_acquire "r" (sample_owner "s1") 1000 "g1"); (sample_env 1, l_release "r" "g1")]
    [(sample_env 2, l_acquire "r" (sample_owner "s1") 1000 "g2")] "r" "g1" (sample_env 3) 1000).
  - simpl. set_solver.
  - simpl. set_solver.
  - vm_compute. discriminate.
Defined.

Lemma live_holder_keeps_lease_witness :
  let t' := run (run [] [(sample_env 0, l_acquire "r" (sample_owner "s1") 1000 "g1")]) [(sample_env 90000, l_reap)] in
  held "r" "g1" "s1" sample_proc t' /\
  exists holder, acquire (sample_env 90001) "r" (sample_owner "s2") 1000 "g2" t' = (t', acq_held holder) /\
    le_generationId holder = "g1"%string.
Proof.
  assert (Hv : forall n, verified_alive (sample_env n) "s1" sample_proc).
  { intros n. exists (mkSession sample_proc s_healthy 0). split; [reflexivity|]. split; [reflexivity|].
    split; [|reflexivity]. simpl. set_solver. }
  apply (live_holder_keeps_lease [(sample_env 0, l_acquire "r" (sample_owner "s1") 1000 "g1")]
           [(sample_env 90000, l_reap)] "r" "g1" "s1" sample_proc (sample_env 90001) (sample_owner "s2") 1000 "g2").
  - eexists. split; [reflexivity|]. split; [reflexivity|]. split; reflexivity.
  - intros env o Hin. apply list_elem_of_singleton in Hin. injection Hin as -> ->. split; [apply Hv|]. split; discriminate.
  - apply Hv.
  - discriminate.
Defined.
