(* ===== verification/Ownership.v ===== *)
(** * Mission and repository ownership

    orchestration/ownership.ts ([MissionOwnership], [RenewableDispatchAuthority])
    on the lease tables of orchestration/missionStore.ts: mission and repository
    leases with a generation and a fencing token, kept by events and rebuilt from
    them at a restart. The operations are asynchronous, so other operations run at
    every [await]: an operation is a tree of synchronous segments, and the theorems
    hold for every interleaving of segments and every answer of the clock, the
    custody service, the writer lock and the disk. *)

From S2P Require Import Prelude JsMap.

(** ** Leases and their events: orchestration/types.ts *)

Inductive LeaseTransition := acquired | renewed | expired | fenced.
#[export] Instance LeaseTransition_eq_dec : EqDecision LeaseTransition.
Proof. solve_decision. Defined.

Record MissionLease := mkLease {
  missionId : string;
  generation : Z;
  ownerId : string;
  acquiredAt : Z;
  renewBy : Z;
  fencingToken : Z;
  resumptionGeneration : option Z
}.

(** [interface RepositoryLease extends MissionLease]. *)
Record RepositoryLease := mkRepositoryLease { repoId : string; base : MissionLease }.

Inductive OwnershipIdentity :=
| of_mission (l : MissionLease)
| of_repository (r : RepositoryLease).
Definition lease_of (i : OwnershipIdentity) : MissionLease :=
  match i with of_mission l => l | of_repository r => base r end.

Inductive Scope := mission_scope | repository_scope.
#[export] Instance Scope_eq_dec : EqDecision Scope.
Proof. solve_decision. Defined.
Definition scope_of (i : OwnershipIdentity) : Scope :=
  match i with of_mission _ => mission_scope | of_repository _ => repository_scope end.

(** Thrown errors; the text of each names the resource and the values given. *)
Inductive OwnershipError :=
| unknown_mission (m : string)
| writer_authority_required
| custody_of_other (holder : string) (waitedMs : Z)
| custody_lost (holder : string)
| mission_owned_by (owner : string) (until : Z)
| RepositoryLeasedError (repo holderMission holderOwner : string)
| stale_fencing_identity (s : Scope)
| stale_resumption_identity
| stale_mission_ownership
| lease_expired (s : Scope)
| flush_failed
| renewal_failed (times : Z) (last : OwnershipError).

Inductive Event :=
| lease_event (t : LeaseTransition) (i : OwnershipIdentity)
| mission_resumed (m : string) (generation : Z).

(** ** The lease tables of the mission store

    [st_log] is the history of events this store applied, emitted here or read from
    other sessions, and [st_invalidated] the missions whose
    candidates [invalidateCurrentCandidate] was called for. *)
Record Store := mkStore {
  missions : list string;
  missionLeases : @jsmap string MissionLease;
  repositoryLeases : @jsmap string RepositoryLease;
  missionLeaseEpochs : @jsmap string MissionLease;
  repositoryLeaseEpochs : @jsmap string RepositoryLease;
  missionResumptions : list (string * Z);
  st_log : list Event;
  st_invalidated : list string
}.

Definition ends (t : LeaseTransition) : bool :=
  match t with expired | fenced => true | _ => false end.

Definition same_epoch (a b : MissionLease) : bool :=
  (generation a =? generation b) && (fencingToken a =? fencingToken b).

Definition holdsLeaseEpoch (i : OwnershipIdentity) (s : Store) : bool :=
  match i with
  | of_mission l => match map_get (missionId l) (missionLeases s) with
                    | Some held => same_epoch held l | None => false end
  | of_repository r => match map_get (repoId r) (repositoryLeases s) with
                       | Some held => same_epoch (base held) (base r) | None => false end
  end.

(** The two tables a lease event writes: the held leases and the last epochs. *)
Definition put_lease (t : LeaseTransition) (i : OwnershipIdentity) (s : Store) : Store :=
  match i with
  | of_mission l =>
      mkStore (missions s)
        (if ends t then map_delete (missionId l) (missionLeases s) else map_set (missionId l) l (missionLeases s))
        (repositoryLeases s) (map_set (missionId l) l (missionLeaseEpochs s)) (repositoryLeaseEpochs s)
        (missionResumptions s) (st_log s) (st_invalidated s)
  | of_repository r =>
      mkStore (missions s) (missionLeases s)
        (if ends t then map_delete (repoId r) (repositoryLeases s) else map_set (repoId r) r (repositoryLeases s))
        (missionLeaseEpochs s) (map_set (repoId r) r (repositoryLeaseEpochs s))
        (missionResumptions s) (st_log s) (st_invalidated s)
  end.

Definition emit (e : Event) (s : Store) : Store :=
  mkStore (missions s) (missionLeases s) (repositoryLeases s) (missionLeaseEpochs s) (repositoryLeaseEpochs s)
    (missionResumptions s) (st_log s ++ [e]) (st_invalidated s).

Definition invalidateCurrentCandidate (m : string) (s : Store) : Store :=
  mkStore (missions s) (missionLeases s) (repositoryLeases s) (missionLeaseEpochs s) (repositoryLeaseEpochs s)
    (missionResumptions s) (st_log s) (st_invalidated s ++ [m]).

Definition applyLeaseTransition (t : LeaseTransition) (i : OwnershipIdentity) (s : Store) : res OwnershipError Store :=
  let l := lease_of i in
  if negb (js_includes (missionId l) (missions s)) then Err (unknown_mission (missionId l))
  else if ends t && negb (holdsLeaseEpoch i s) then Ok s
  else
    let s1 := match i with
              | of_mission _ =>
                  match map_get (missionId l) (missionLeaseEpochs s) with
                  | Some prior => if generation prior =? generation l then s else invalidateCurrentCandidate (missionId l) s
                  | None => s
                  end
              | of_repository _ => s
              end in
    Ok (emit (lease_event t i) (put_lease t i s1)).

(** [listMissionResumptions(m).at(-1)?.generation ?? 0]. *)
Definition currentResumption (m : string) (s : Store) : Z :=
  match last (js_filter (fun p => bool_decide (p.1 = m)) (missionResumptions s)) with
  | Some p => p.2 | None => 0 end.

Definition push_resumption (m : string) (g : Z) (s : Store) : Store :=
  mkStore (missions s) (missionLeases s) (repositoryLeases s) (missionLeaseEpochs s) (repositoryLeaseEpochs s)
    (missionResumptions s ++ [(m, g)]) (st_log s) (st_invalidated s).

(** One event of a log being replayed, or of another session. *)
Definition apply (e : Event) (s : Store) : Store :=
  match e with
  | lease_event t i => put_lease t i s
  | mission_resumed m g => push_resumption m g s
  end.

Definition listRepositoryLeases (m : string) (s : Store) : list RepositoryLease :=
  js_filter (fun r => bool_decide (missionId (base r) = m)) (map_values (repositoryLeases s)).

(** ** Synchronous segments

    What the answers of the environment are while a segment runs: the clock, whether
    this process holds the writer lock, the outcome of the custody claim or of the
    flush the segment waited for, which runtimes are provably gone, and the events
    other sessions appended that [syncExternal] finds. *)
Inductive CustodyClaim := claim_ok | claim_held (holder : string).

Record Env := mkEnv {
  e_now : Z;
  e_writer : bool;
  e_claim : CustodyClaim;
  e_flush : bool;
  e_gone : string -> bool;
  e_external : list Event
}.

(** [MissionOwnershipOptions], defaults filled in. *)
Record Options := mkOptions {
  o_ownerId : string;
  o_leaseMs : Z;
  o_heartbeatMs : Z;
  o_custody : bool;
  o_custodyWaitMs : Z;
  o_custodyPollMs : Z;
  o_maxConsecutiveRenewFailures : Z
}.

(** The checks of the constructor; whole numbers are finite. *)
Definition valid_options (o : Options) : bool :=
  truthy (js_trim (o_ownerId o)) && (0 <? o_leaseMs o) &&
  (0 <? o_heartbeatMs o) && (o_heartbeatMs o <? o_leaseMs o) && (1 <=? o_maxConsecutiveRenewFailures o) &&
  (0 <=? o_custodyWaitMs o) && (0 <? o_custodyPollMs o).

(** The holder counters of each [MissionOwnership] object (numbered) over one store. *)
Record Holders := mkHolders {
  missionHolders : @jsmap string Z;
  repositoryHolders : @jsmap string Z
}.
Record World := mkWorld { w_store : Store; w_holders : nat -> Holders }.

Definition Seg (A : Type) : Type := Env -> World -> World * res OwnershipError A.
Definition seg_ret {A} (a : A) : Seg A := fun _ w => (w, Ok a).
Definition seg_throw {A} (x : OwnershipError) : Seg A := fun _ w => (w, Err x).
Definition seg_bind {A B} (m : Seg A) (k : A -> Seg B) : Seg B := fun e w =>
  let '(w', r) := m e w in
  match r with Ok a => k a e w' | Err x => (w', Err x) end.
Declare Scope seg_scope.
Delimit Scope seg_scope with seg.
Notation "'let*' x ':=' m 'in' k" := (seg_bind m (fun x => k))
  (at level 10, x pattern, m at level 100, k at level 200) : seg_scope.
Open Scope seg_scope.

Definition env : Seg Env := fun e w => (w, Ok e).
Definition store : Seg Store := fun _ w => (w, Ok (w_store w)).
Definition update (f : Store -> res OwnershipError Store) : Seg unit := fun _ w =>
  match f (w_store w) with
  | Ok s => (mkWorld s (w_holders w), Ok tt)
  | Err x => (w, Err x)
  end.
Definition transition (t : LeaseTransition) (i : OwnershipIdentity) : Seg unit := update (applyLeaseTransition t i).

(** The loop [for (const repository of listRepositoryLeases(m)) transition(t, repository)]. *)
Fixpoint transition_all (t : LeaseTransition) (rs : list RepositoryLease) : Seg unit :=
  match rs with
  | [] => seg_ret tt
  | r :: rs' => let* _ := transition t (of_repository r) in transition_all t rs'
  end.
Definition transition_repositories (t : LeaseTransition) (m : string) : Seg unit :=
  let* s := store in transition_all t (listRepositoryLeases m s).

Definition resumeMission (m : string) : Seg Z :=
  let* s := store in
  if negb (js_includes m (missions s)) then seg_throw (unknown_mission m) else
  let* _ := match map_get m (missionLeases s) with
            | Some l => let* _ := transition fenced (of_mission l) in transition_repositories fenced m
            | None => seg_ret tt
            end in
  let* s1 := store in
  let g := currentResumption m s1 + 1 in
  let* _ := update (fun s => Ok (emit (mission_resumed m g) (push_resumption m g s))) in
  seg_ret g.

(** ** Asynchronous operations

    [settled] is a settled promise; [segment] an operation suspended at an [await],
    with the code that runs when it is resumed. *)
Inductive Async (A : Type) : Type :=
| settled (r : res OwnershipError A)
| segment (run : Env -> World -> World * Async A).
Arguments settled {A} r.
Arguments segment {A} run.

Fixpoint abind {A B} (m : Async A) (k : A -> Async B) : Async B :=
  match m with
  | settled (Ok a) => k a
  | settled (Err x) => settled (Err x)
  | segment run => segment (fun e w => let '(w', m') := run e w in (w', abind m' k))
  end.

Definition return_ {A} (a : A) : Async A := settled (Ok a).

(** The body of a segment: synchronous code, then either the end of the operation or
    the next [await]. *)
Definition Body (A : Type) : Type := Env -> World -> World * Async A.
Definition sync {A B} (m : Seg A) (k : A -> Body B) : Body B := fun e w =>
  let '(w', r) := m e w in
  match r with Ok a => k a e w' | Err x => (w', settled (Err x)) end.
Definition finish {A} (a : A) : Body A := fun _ w => (w, return_ a).
Definition throw {A} (x : OwnershipError) : Body A := fun _ w => (w, settled (Err x)).
(** [const a = await operation]. *)
Definition call {A B} (m : Async A) (k : A -> Body B) : Body B := fun _ w => (w, abind m (fun a => segment (k a))).
Notation "'let&' x ':=' m 'in' k" := (sync m (fun x => k))
  (at level 10, x pattern, m at level 100, k at level 200) : seg_scope.
Notation "'await' x ':=' m 'in' k" := (call m (fun x => k))
  (at level 10, x pattern, m at level 100, k at level 200) : seg_scope.

(** [store.flush()]: settles when the pending writes are on disk, or fails. *)
Definition flush : Async unit :=
  segment (fun e w => (w, if e_flush e then return_ tt else settled (Err flush_failed))).

Section Ownership.
Context (cfg : nat -> Options).

Definition isExpired (l : MissionLease) (now : Z) : bool := renewBy l <=? now.

Definition heldByGoneOwner (i : nat) (e : Env) (l : MissionLease) : bool :=
  negb (bool_decide (ownerId l = o_ownerId (cfg i))) && e_gone e (ownerId l).

Definition confirmCustody (i : nat) : Async unit :=
  if negb (o_custody (cfg i)) then return_ tt else
  segment (fun e w => (w, match e_claim e with claim_ok => return_ tt | claim_held holder => settled (Err (custody_lost holder)) end)).

(** [claimCustody]: [polls] claims at most, each a segment; a pause follows a refused
    claim. *)
Definition CUSTODY_FIRST_PAUSE_MS : Z := 250.
Definition firstPauseMs (i : nat) : Z := Z.min CUSTODY_FIRST_PAUSE_MS (o_custodyPollMs (cfg i)).
(** [Math.ceil(a / b)] for positive [b]. *)
Definition ceil_div (a b : Z) : Z := (a + b - 1) / b.
Definition maxPolls (i : nat) : Z := Z.max 1 (ceil_div (o_custodyWaitMs (cfg i)) (firstPauseMs i) + 1).
Definition pauseMs (backoffMs deadline now : Z) : Z := Z.min backoffMs (Z.max 1 (deadline - now)).

Definition syncExternal : Seg unit :=
  let* e := env in update (fun s => Ok (foldl (fun s ev => emit ev (apply ev s)) s (e_external e))).

Fixpoint poll (i : nat) (polls : nat) (deadline backoffMs waitedMs : Z) (holder : string) : Async unit :=
  match polls with
  | O => settled (Err (custody_of_other holder waitedMs))
  | S polls' =>
      segment (fun e w =>
        match e_claim e with
        | claim_ok => (fst (syncExternal e w), return_ tt)
        | claim_held holder' =>
            (w, if deadline <=? e_now e then settled (Err (custody_of_other holder' waitedMs))
                else let pause := pauseMs backoffMs deadline (e_now e) in
                     poll i polls' deadline (Z.min (backoffMs * 2) (o_custodyPollMs (cfg i))) (waitedMs + pause) holder')
        end)
  end.

Definition claimCustody (i : nat) (now : Z) : Async unit :=
  if negb (o_custody (cfg i)) then return_ tt
  else poll i (Z.to_nat (maxPolls i)) (now + o_custodyWaitMs (cfg i)) (firstPauseMs i) 0 "".

Definition epochKey (l : MissionLease) : string :=
  missionId l +:+ ":" +:+ js_num (generation l) +:+ ":" +:+ js_num (fencingToken l).
Definition repositoryEpochKey (r : RepositoryLease) : string :=
  missionId (base r) +:+ ":" +:+ repoId r +:+ ":" +:+ js_num (generation (base r)) +:+ ":" +:+ js_num (fencingToken (base r)).

Definition set_holders (i : nat) (f : Holders -> Holders) : Seg unit := fun _ w =>
  (mkWorld (w_store w) (fun j => if Nat.eqb j i then f (w_holders w i) else w_holders w j), Ok tt).
Definition holders (i : nat) : Seg Holders := fun _ w => (w, Ok (w_holders w i)).
Definition on_missions (f : @jsmap string Z -> @jsmap string Z) (h : Holders) : Holders :=
  mkHolders (f (missionHolders h)) (repositoryHolders h).
Definition on_repositories (f : @jsmap string Z -> @jsmap string Z) (h : Holders) : Holders :=
  mkHolders (missionHolders h) (f (repositoryHolders h)).
(** [holders.set(key, (holders.get(key) ?? 0) + 1)]. *)
Definition add_holder (key : string) (m : @jsmap string Z) : @jsmap string Z :=
  map_set key (nullish (map_get key m) 0 + 1) m.

Definition assertWriterAuthority : Seg unit :=
  let* e := env in if e_writer e then seg_ret tt else seg_throw writer_authority_required.

Definition assertSameEpoch (identity : MissionLease) (current : option MissionLease) (sc : Scope) : Seg MissionLease :=
  match current with
  | None => seg_throw (stale_fencing_identity sc)
  | Some c =>
      if bool_decide (ownerId c = ownerId identity) && (generation c =? generation identity)
         && (fencingToken c =? fencingToken identity)
      then seg_ret c else seg_throw (stale_fencing_identity sc)
  end.

Definition assertNotExpired (l : MissionLease) (sc : Scope) : Seg unit :=
  let* e := env in if isExpired l (e_now e) then seg_throw (lease_expired sc) else seg_ret tt.

Definition assertMissionOwner (m owner : string) : Seg unit :=
  let* e := env in
  let* s := store in
  match map_get m (missionLeases s) with
  | None => seg_throw stale_mission_ownership
  | Some l => if negb (bool_decide (ownerId l = owner)) || isExpired l (e_now e)
              then seg_throw stale_mission_ownership else seg_ret tt
  end.

Definition assertAuthoritative (identity : OwnershipIdentity) : Seg unit :=
  let* s := store in
  match identity with
  | of_repository r =>
      let* c := assertSameEpoch (base r) (base <$> map_get (repoId r) (repositoryLeases s)) repository_scope in
      let* _ := assertNotExpired c repository_scope in
      assertMissionOwner (missionId (base r)) (ownerId (base r))
  | of_mission l =>
      let* c := assertSameEpoch l (map_get (missionId l) (missionLeases s)) mission_scope in
      if negb (nullish (resumptionGeneration l) 0 =? currentResumption (missionId l) s)
      then seg_throw stale_resumption_identity
      else assertNotExpired c mission_scope
  end.

(** ** The operations of [MissionOwnership] *)

Definition with_renewBy (t : Z) (l : MissionLease) : MissionLease :=
  mkLease (missionId l) (generation l) (ownerId l) (acquiredAt l) t (fencingToken l) (resumptionGeneration l).

Definition renew (i : nat) (identity : MissionLease) : Async MissionLease :=
  segment (
    await _ := confirmCustody i in
    let& s := store in
    let& current := assertSameEpoch identity (map_get (missionId identity) (missionLeases s)) mission_scope in
    let& e := env in
    if isExpired current (e_now e) then
      let& _ := transition expired (of_mission current) in
      let& _ := transition_repositories expired (missionId identity) in
      await _ := flush in
      throw (lease_expired mission_scope)
    else
      let renewedLease := with_renewBy (e_now e + o_leaseMs (cfg i)) current in
      let& _ := transition renewed (of_mission renewedLease) in
      await _ := flush in
      finish renewedLease).

(** The end of [acquire]: a lease of the next epoch. *)
Definition acquire_new (i : nat) (m : string) (resumption : option Z) (now : Z) : Body MissionLease :=
  let& s := store in
  let previous := map_get m (missionLeaseEpochs s) in
  let lease := mkLease m (nullish (generation <$> previous) 0 + 1) (o_ownerId (cfg i)) now (now + o_leaseMs (cfg i))
                 (nullish (fencingToken <$> previous) 0 + 1)
                 (Some (nullish resumption (currentResumption m s))) in
  let& _ := transition acquired (of_mission lease) in
  await _ := flush in
  let& _ := set_holders i (on_missions (map_set (epochKey lease) 1)) in
  finish lease.

(** [if (current && this.store.getMissionLease(missionId)) {...}] and what follows. *)
Definition acquire_expire (i : nat) (m : string) (resumption : option Z) (now : Z) (current : option MissionLease) : Body MissionLease :=
  let& s := store in
  match current, map_get m (missionLeases s) with
  | Some c, Some _ =>
      let& _ := transition expired (of_mission c) in
      let& _ := transition_repositories expired m in
      await _ := flush in
      acquire_new i m resumption now
  | _, _ => acquire_new i m resumption now
  end.

Definition acquire (i : nat) (m : string) (resumption : option Z) : Async MissionLease :=
  segment (
    let& _ := assertWriterAuthority in
    let& e0 := env in
    await _ := claimCustody i (e_now e0) in
    let& s := store in
    let& e := env in
    let now := e_now e in
    match map_get m (missionLeases s) with
    | Some current =>
        if negb (isExpired current now) && negb (heldByGoneOwner i e current) then
          if negb (bool_decide (ownerId current = o_ownerId (cfg i))) then throw (mission_owned_by (ownerId current) (renewBy current))
          else if match resumption with
                  | Some g => negb (nullish (resumptionGeneration current) 0 =? g)
                  | None => false
                  end then
            let& _ := transition fenced (of_mission current) in
            let& _ := transition_repositories fenced m in
            let& _ := set_holders i (on_missions (map_delete (epochKey current))) in
            await _ := flush in
            acquire_expire i m resumption now (Some current)
          else
            await renewedLease := renew i current in
            let& _ := set_holders i (on_missions (add_holder (epochKey renewedLease))) in
            finish renewedLease
        else acquire_expire i m resumption now (Some current)
    | None => acquire_expire i m resumption now None
    end).

Definition with_base (f : MissionLease -> MissionLease) (r : RepositoryLease) : RepositoryLease :=
  mkRepositoryLease (repoId r) (f (base r)).

Definition renewRepository (i : nat) (identity : RepositoryLease) : Async RepositoryLease :=
  segment (
    await _ := confirmCustody i in
    let& s := store in
    let current := map_get (repoId identity) (repositoryLeases s) in
    let& _ := assertSameEpoch (base identity) (base <$> current) repository_scope in
    let& _ := assertMissionOwner (missionId (base identity)) (ownerId (base identity)) in
    let& e := env in
    match current with
    | None => throw (stale_fencing_identity repository_scope)
    | Some c =>
        if isExpired (base c) (e_now e) then
          let& _ := transition expired (of_repository c) in
          await _ := flush in
          throw (lease_expired repository_scope)
        else
          let renewedLease := with_base (with_renewBy (e_now e + o_leaseMs (cfg i))) c in
          let& _ := transition renewed (of_repository renewedLease) in
          await _ := flush in
          finish renewedLease
    end).

Definition acquireRepository_new (i : nat) (identity : MissionLease) (repo : string) (now : Z) : Body RepositoryLease :=
  let& s := store in
  let previous := base <$> map_get repo (repositoryLeaseEpochs s) in
  let lease := mkRepositoryLease repo
                 (mkLease (missionId identity) (nullish (generation <$> previous) 0 + 1) (o_ownerId (cfg i)) now
                    (now + o_leaseMs (cfg i)) (nullish (fencingToken <$> previous) 0 + 1) None) in
  let& _ := transition acquired (of_repository lease) in
  await _ := flush in
  let& _ := set_holders i (on_repositories (map_set (repositoryEpochKey lease) 1)) in
  finish lease.

Definition acquireRepository (i : nat) (identity : MissionLease) (repo : string) : Async RepositoryLease :=
  segment (
    let& _ := assertWriterAuthority in
    let& _ := assertAuthoritative (of_mission identity) in
    let& e0 := env in
    await _ := claimCustody i (e_now e0) in
    let& s := store in
    let& e := env in
    let now := e_now e in
    match map_get repo (repositoryLeases s) with
    | Some current =>
        if negb (isExpired (base current) now) && negb (heldByGoneOwner i e (base current)) then
          if negb (bool_decide (missionId (base current) = missionId identity))
             || negb (bool_decide (ownerId (base current) = ownerId identity))
          then throw (RepositoryLeasedError repo (missionId (base current)) (ownerId (base current)))
          else
            await renewedLease := renewRepository i current in
            let& _ := set_holders i (on_repositories (add_holder (repositoryEpochKey renewedLease))) in
            finish renewedLease
        else
          let& _ := transition expired (of_repository current) in
          await _ := flush in
          acquireRepository_new i identity repo now
    | None => acquireRepository_new i identity repo now
    end).

Definition fence (identity : OwnershipIdentity) : Async unit :=
  segment (
    let& _ := assertAuthoritative identity in
    let& _ := transition fenced identity in
    await _ := flush in
    finish tt).

Definition epoch_key (i : OwnershipIdentity) : string :=
  match i with of_mission l => epochKey l | of_repository r => repositoryEpochKey r end.
Definition holder_map (i : OwnershipIdentity) (h : Holders) : @jsmap string Z :=
  match i with of_mission _ => missionHolders h | of_repository _ => repositoryHolders h end.
Definition on_holder_map (i : OwnershipIdentity) (f : @jsmap string Z -> @jsmap string Z) : Holders -> Holders :=
  match i with of_mission _ => on_missions f | of_repository _ => on_repositories f end.
Definition is_held (i : OwnershipIdentity) (s : Store) : bool :=
  match i with
  | of_mission l => map_has (missionId l) (missionLeases s)
  | of_repository r => map_has (repoId r) (repositoryLeases s)
  end.

(** The release of custody that follows the flush is not awaited. *)
Definition release (i : nat) (identity : OwnershipIdentity) : Async unit :=
  segment (
    let& s := store in
    if negb (is_held identity s) then finish tt else
    let& _ := assertAuthoritative identity in
    let& h := holders i in
    let key := epoch_key identity in
    let n := nullish (map_get key (holder_map identity h)) 1 in
    if 1 <? n then
      let& _ := set_holders i (on_holder_map identity (map_set key (n - 1))) in finish tt
    else
      let& _ := set_holders i (on_holder_map identity (map_delete key)) in
      let& _ := transition fenced identity in
      await _ := flush in
      finish tt).

(** [maintain]: renew the mission lease, then lease the repository. *)
Definition maintain (i : nat) (identity : MissionLease) (repo : option string) : Async (MissionLease * option RepositoryLease) :=
  segment (
    await mission := renew i identity in
    match repo with
    | Some r =>
        if truthy r then await repository := acquireRepository i mission r in finish (mission, Some repository)
        else finish (mission, None)
    | None => finish (mission, None)
    end).

(** The calls other code makes, in any order and number. *)
Inductive Op :=
| op_acquire (m : string) (resumption : option Z)
| op_renew (l : MissionLease)
| op_acquireRepository (l : MissionLease) (repo : string)
| op_renewRepository (r : RepositoryLease)
| op_fence (id : OwnershipIdentity)
| op_release (id : OwnershipIdentity)
| op_maintain (l : MissionLease) (repo : option string).

Definition ignore {A} (a : Async A) : Async unit := abind a (fun _ => return_ tt).

Definition start (i : nat) (o : Op) : Async unit :=
  match o with
  | op_acquire m g => ignore (acquire i m g)
  | op_renew l => ignore (renew i l)
  | op_acquireRepository l repo => ignore (acquireRepository i l repo)
  | op_renewRepository r => ignore (renewRepository i r)
  | op_fence id => fence id
  | op_release id => release i id
  | op_maintain l repo => ignore (maintain i l repo)
  end.

End Ownership.

(** ** Resources and epochs *)

Inductive resource := the_mission (m : string) | the_repository (r : string).
#[export] Instance resource_eq_dec : EqDecision resource.
Proof. solve_decision. Defined.

Definition resource_of (i : OwnershipIdentity) : resource :=
  match i with of_mission l => the_mission (missionId l) | of_repository r => the_repository (repoId r) end.

Definition held_at (x : resource) (s : Store) : option MissionLease :=
  match x with
  | the_mission m => map_get m (missionLeases s)
  | the_repository r => base <$> map_get r (repositoryLeases s)
  end.
Definition epoch_at (x : resource) (s : Store) : option MissionLease :=
  match x with
  | the_mission m => map_get m (missionLeaseEpochs s)
  | the_repository r => base <$> map_get r (repositoryLeaseEpochs s)
  end.

Definition same_tokens (a b : MissionLease) : Prop := generation a = generation b /\ fencingToken a = fencingToken b.
Definition same_holder (a b : MissionLease) : Prop := same_tokens a b /\ ownerId a = ownerId b.
Definition newer (prior : option MissionLease) (l : MissionLease) : Prop :=
  forall p, prior = Some p -> generation p < generation l /\ fencingToken p < fencingToken l.

(** What may happen to the leases of a resource: the last epoch never goes back, and
    a lease that is held afterwards was held before by the same holder or belongs to a
    later epoch. *)
Definition evolves (s s' : Store) : Prop :=
  forall x,
    (forall l', held_at x s' = Some l' -> (exists l, held_at x s = Some l /\ same_holder l l') \/ newer (epoch_at x s) l') /\
    (forall p, epoch_at x s = Some p ->
       exists p', epoch_at x s' = Some p' /\ generation p <= generation p' /\ fencingToken p <= fencingToken p').

(** The leases acquired for a resource, in the order of the history. *)
Definition acquisition (x : resource) (e : Event) : list MissionLease :=
  match e with
  | lease_event acquired i => if decide (resource_of i = x) then [lease_of i] else []
  | _ => []
  end.
Definition acquisitions (x : resource) (log : list Event) : list MissionLease := concat (map (acquisition x) log).
Definition before (a b : MissionLease) : Prop := generation a < generation b /\ fencingToken a < fencingToken b.

Definition empty_store (ms : list string) : Store := mkStore ms [] [] [] [] [] [] [].
Definition tables (s : Store) := (missionLeases s, repositoryLeases s, missionLeaseEpochs s, repositoryLeaseEpochs s, missionResumptions s).
Definition replay (log : list Event) (s : Store) : Store := foldl (fun s e => apply e s) s log.

Record Inv (s : Store) : Prop := mkInv {
  inv_missions_ok : map_ok (missionLeases s);
  inv_repositories_ok : map_ok (repositoryLeases s);
  inv_mission_keys : forall m l, map_get m (missionLeases s) = Some l -> missionId l = m;
  inv_repository_keys : forall m r, map_get m (repositoryLeases s) = Some r -> repoId r = m;
  inv_held : forall x l, held_at x s = Some l -> exists p, epoch_at x s = Some p /\ same_tokens p l;
  inv_replay : forall ms, tables (replay (st_log s) (empty_store ms)) = tables s;
  inv_increasing : forall x, StronglySorted before (acquisitions x (st_log s));
  inv_bounded : forall x l, l ∈ acquisitions x (st_log s) ->
    exists p, epoch_at x s = Some p /\ generation l <= generation p /\ fencingToken l <= fencingToken p;
  inv_last : forall x p, epoch_at x s = Some p -> exists a, last (acquisitions x (st_log s)) = Some a /\ same_tokens a p
}.

(** A lease event that continues the history: an acquisition of a later epoch, or a
    change of the lease that is held. *)
Definition orderly (s : Store) (e : Event) : Prop :=
  match e with
  | lease_event acquired i => newer (epoch_at (resource_of i) s) (lease_of i)
  | lease_event renewed i => exists l, held_at (resource_of i) s = Some l /\ same_holder l (lease_of i)
  | lease_event _ i => exists l, held_at (resource_of i) s = Some l /\ same_tokens l (lease_of i)
  | mission_resumed _ _ => True
  end.

Lemma held_put t i s x :
  Inv s -> held_at x (put_lease t i s) = if decide (resource_of i = x) then (if ends t then None else Some (lease_of i)) else held_at x s.
Proof.
  intros Hi. destruct i as [l|r], x as [m|r']; simpl; try done.
  - destruct (decide (the_mission (missionId l) = the_mission m)) as [[= <-]|Hne].
    + destruct (ends t); [apply map_get_delete_eq, Hi|apply map_get_set_eq].
    + destruct (ends t); [apply map_get_delete_ne|apply map_get_set_ne]; congruence.
  - destruct (decide (the_repository (repoId r) = the_repository r')) as [[= <-]|Hne].
    + destruct (ends t); [rewrite map_get_delete_eq by apply Hi|rewrite map_get_set_eq]; done.
    + destruct (ends t); [rewrite map_get_delete_ne by congruence|rewrite map_get_set_ne by congruence]; done.
Qed.

Lemma epoch_put t i s x :
  epoch_at x (put_lease t i s) = if decide (resource_of i = x) then Some (lease_of i) else epoch_at x s.
Proof.
  destruct i as [l|r], x as [m|r']; simpl; try done.
  - rewrite map_get_set. destruct (decide (missionId l = m)) as [->|Hne]; [by rewrite decide_True|].
    rewrite decide_False; [done|congruence].
  - rewrite map_get_set. destruct (decide (repoId r = r')) as [->|Hne]; [by rewrite decide_True|].
    rewrite decide_False; [done|congruence].
Qed.

Lemma put_ok t i s : Inv s -> map_ok (missionLeases (put_lease t i s)) /\ map_ok (repositoryLeases (put_lease t i s)).
Proof.
  intros Hi. destruct i; simpl; (destruct (ends t); split; [try apply map_delete_ok; apply Hi|..]);
    try apply map_delete_ok; try apply map_set_ok; apply Hi.
Qed.

(** A table keyed by a field of its values stays so. *)
Lemma keyed_update {V} (key : V -> string) (b : bool) v (m : @jsmap string V) :
  map_ok m -> (forall k x, map_get k m = Some x -> key x = k) ->
  forall k x, map_get k (if b then map_delete (key v) m else map_set (key v) v m) = Some x -> key x = k.
Proof.
  intros Hok H k x. destruct b.
  - destruct (decide (key v = k)) as [<-|Hne]; [by rewrite map_get_delete_eq|]. rewrite map_get_delete_ne by done. apply H.
  - rewrite map_get_set. destruct (decide (key v = k)) as [<-|]; [by intros [= <-]|apply H].
Qed.

Lemma tables_apply e a b : tables a = tables b -> tables (apply e a) = tables (apply e b).
Proof. intros [= H1 H2 H3 H4 H5]. destruct e as [t [l|r]|m g]; unfold tables; simpl; by rewrite ?H1, ?H2, ?H3, ?H4, ?H5. Qed.

Lemma tables_at a b x : tables a = tables b -> held_at x a = held_at x b /\ epoch_at x a = epoch_at x b.
Proof. intros [= H1 H2 H3 H4 H5]. destruct x; simpl; rewrite ?H1, ?H2, ?H3, ?H4; done. Qed.

Lemma evolves_refl s : evolves s s.
Proof.
  intros x. split; [intros l Hl; left; exists l; unfold same_holder, same_tokens; auto|]. intros p Hp. exists p. split_and!; [done|lia|lia].
Qed.

Lemma evolves_trans s1 s2 s3 : evolves s1 s2 -> evolves s2 s3 -> evolves s1 s3.
Proof.
  intros H12 H23 x. destruct (H12 x) as [A1 A2], (H23 x) as [B1 B2]. split.
  - intros l Hl. destruct (B1 l Hl) as [(l2 & Hl2 & [[E1 E2] E3])|Hn].
    + destruct (A1 l2 Hl2) as [(l1 & Hl1 & [[F1 F2] F3])|Hn].
      * left. exists l1. split; [done|]. unfold same_holder, same_tokens. split_and!; congruence.
      * right. intros p Hp. rewrite <- E1, <- E2. by apply Hn.
    + right. intros p Hp. destruct (A2 p Hp) as (p2 & Hp2 & ? & ?). destruct (Hn p2 Hp2). lia.
  - intros p Hp. destruct (A2 p Hp) as (p2 & Hp2 & ? & ?). destruct (B2 p2 Hp2) as (p3 & ? & ? & ?). exists p3. split; [done|lia].
Qed.

Lemma evolves_tables s s1 s2 : tables s1 = tables s2 -> evolves s s1 -> evolves s s2.
Proof. intros Ht H x. destruct (tables_at _ _ x Ht) as [<- <-]. apply H. Qed.

Lemma acquisitions_snoc x log e : acquisitions x (log ++ [e]) = acquisitions x log ++ acquisition x e.
Proof. unfold acquisitions. rewrite map_app, concat_app. simpl. by rewrite app_nil_r. Qed.

(** The tokens a lease event records are those of the held epoch, or later ones. *)
Lemma orderly_tokens s t i :
  Inv s -> orderly s (lease_event t i) ->
  forall p, epoch_at (resource_of i) s = Some p ->
    if decide (t = acquired) then before p (lease_of i) else same_tokens p (lease_of i).
Proof.
  intros Hi Ho p Hp.
  destruct (decide (t = acquired)) as [->|Ht]; [by apply Ho|].
  assert (exists l, held_at (resource_of i) s = Some l /\ same_tokens l (lease_of i)) as (l & Hl & E1 & E2).
  { destruct t; simpl in Ho; try done. destruct Ho as (l & ? & [? _]). eauto. }
  destruct (inv_held s Hi _ _ Hl) as (p' & Hp' & F1 & F2). unfold same_tokens in *. naive_solver congruence.
Qed.

Lemma lease_event_evolves s t i : Inv s -> orderly s (lease_event t i) -> evolves s (put_lease t i s).
Proof.
  intros Hi Ho x. rewrite (held_put _ _ _ _ Hi), epoch_put.
  destruct (decide (resource_of i = x)) as [<-|Hne]; [|apply evolves_refl]. split.
  - intros l' Hl'. destruct (ends t) eqn:Et; [done|]. injection Hl' as <-.
    destruct t; simpl in Ho; try done; [by right|]. left. naive_solver.
  - intros p Hp. exists (lease_of i). pose proof (orderly_tokens s t i Hi Ho p Hp) as H. unfold before, same_tokens in H.
    destruct (decide (t = acquired)); split_and!; try done; lia.
Qed.

Lemma lease_event_inv s t i : Inv s -> orderly s (lease_event t i) -> Inv (emit (lease_event t i) (put_lease t i s)).
Proof.
  intros Hi Ho. destruct (put_ok t i s Hi) as [K1 K2].
  assert (Hlog : st_log (put_lease t i s) = st_log s) by (by destruct i).
  constructor.
  - done.
  - done.
  - destruct i as [l|r]; [apply (keyed_update missionId (ends t) l); apply Hi|apply Hi].
  - destruct i as [l|r]; [apply Hi|apply (keyed_update repoId (ends t) r); apply Hi].
  - intros x l. change (held_at x (emit _ ?a)) with (held_at x a). change (epoch_at x (emit _ ?a)) with (epoch_at x a).
    rewrite (held_put _ _ _ _ Hi), epoch_put. destruct (decide _) as [<-|Hne]; [|apply Hi].
    intros Hl. destruct (ends t); [done|]. injection Hl as <-. by exists (lease_of i).
  - intros ms. simpl. rewrite Hlog. unfold replay. rewrite foldl_app. simpl.
    change (tables (emit ?e ?a)) with (tables a). apply (tables_apply (lease_event t i)). apply Hi.
  - intros x. simpl. rewrite Hlog, acquisitions_snoc. destruct (acquisition x (lease_event t i)) as [|a [|? ?]] eqn:Ea.
    + rewrite app_nil_r. apply Hi.
    + simpl in Ea. destruct t; try done. destruct (decide _) as [Hx|]; [|done]. injection Ea as <-.
      apply StronglySorted_snoc; [apply Hi|]. intros y Hy. destruct (inv_bounded s Hi x y Hy) as (p & Hp & ? & ?).
      subst x. destruct (Ho p Hp). split; lia.
    + simpl in Ea. destruct t; try done. destruct (decide _); done.
  - intros x l. simpl. change (epoch_at x (emit _ ?a)) with (epoch_at x a). rewrite Hlog, acquisitions_snoc, elem_of_app, epoch_put.
    intros [Hl|Hl].
    + destruct (inv_bounded s Hi x l Hl) as (p & Hp & ? & ?). destruct (decide (resource_of i = x)) as [<-|]; [|eauto].
      exists (lease_of i). pose proof (orderly_tokens s t i Hi Ho p Hp) as Ht. unfold before, same_tokens in Ht.
      destruct (decide (t = acquired)); split_and!; try done; lia.
    + simpl in Hl. destruct t; try (by apply not_elem_of_nil in Hl). destruct (decide (resource_of i = x)) as [_|]; [|by apply not_elem_of_nil in Hl].
      apply list_elem_of_singleton in Hl as ->. exists (lease_of i). split_and!; [done|lia|lia].
  - intros x p. simpl. change (epoch_at x (emit _ ?a)) with (epoch_at x a). rewrite Hlog, acquisitions_snoc, epoch_put.
    destruct (decide (resource_of i = x)) as [<-|Hne].
    + intros [= <-]. destruct (decide (t = acquired)) as [->|Ht].
      { exists (lease_of i). simpl. rewrite decide_True, last_snoc by done. done. }
      assert (exists p, epoch_at (resource_of i) s = Some p) as [p Hp].
      { assert (exists l, held_at (resource_of i) s = Some l) as [l Hl] by (destruct t; simpl in Ho; naive_solver).
        destruct (inv_held s Hi _ _ Hl) as (p & ? & _). eauto. }
      pose proof (orderly_tokens s t i Hi Ho p Hp) as HF. rewrite decide_False in HF by done. destruct HF as [F1 F2].
      destruct (inv_last s Hi _ _ Hp) as (a & Ha & G1 & G2). exists a.
      assert (acquisition (resource_of i) (lease_event t i) = []) as -> by (by destruct t).
      rewrite app_nil_r. unfold same_tokens. split_and!; [done|congruence|congruence].
    + intros Hp. assert (acquisition x (lease_event t i) = []) as ->; [|rewrite app_nil_r; by apply Hi].
      destruct t; simpl; try done. by rewrite decide_False.
Qed.

Lemma resumption_inv s m g : Inv s -> Inv (emit (mission_resumed m g) (push_resumption m g s)).
Proof.
  intros Hi. constructor.
  - apply Hi.
  - apply Hi.
  - apply Hi.
  - apply Hi.
  - intros [x|x] l Hl; [exact (inv_held s Hi (the_mission x) l Hl)|exact (inv_held s Hi (the_repository x) l Hl)].
  - intros ms. simpl. unfold replay. rewrite foldl_app. simpl. change (tables (emit ?e ?a)) with (tables a).
    apply (tables_apply (mission_resumed m g)). apply Hi.
  - intros x. simpl. rewrite acquisitions_snoc. simpl. rewrite app_nil_r. apply Hi.
  - intros x l. simpl. rewrite acquisitions_snoc. simpl. rewrite app_nil_r. intros Hl.
    destruct (inv_bounded s Hi x l Hl) as (p & Hp & ?). exists p. by destruct x.
  - intros x p Hp. simpl. rewrite acquisitions_snoc. simpl. rewrite app_nil_r. apply (inv_last s Hi). by destruct x.
Qed.

Lemma event_step s e : Inv s -> orderly s e -> Inv (emit e (apply e s)) /\ evolves s (emit e (apply e s)).
Proof.
  intros Hi Ho. destruct e as [t i|m g]; simpl; (split; [|]).
  - by apply lease_event_inv.
  - by apply (evolves_tables _ (put_lease t i s)), lease_event_evolves.
  - by apply resumption_inv.
  - intros [x|x]; [apply (evolves_refl s (the_mission x))|apply (evolves_refl s (the_repository x))].
Qed.

(** ** Every operation lets the leases evolve

    Rely and guarantee: each segment, run in any world that satisfies the invariant,
    keeps it and lets the leases evolve, whatever ran between the segments. *)

Definition good (w w' : World) : Prop := Inv (w_store w') /\ evolves (w_store w) (w_store w').

Fixpoint external_ok (s : Store) (evs : list Event) : Prop :=
  match evs with [] => True | ev :: evs' => orderly s ev /\ external_ok (emit ev (apply ev s)) evs' end.

Inductive safe {A} : Async A -> Prop :=
| safe_settled r : safe (settled r)
| safe_segment run :
    (forall e w, Inv (w_store w) -> external_ok (w_store w) (e_external e) -> good w (fst (run e w))) ->
    (forall e w, Inv (w_store w) -> external_ok (w_store w) (e_external e) -> safe (snd (run e w))) ->
    safe (segment run).

Definition body_ok {A} (b : Body A) (e : Env) (w : World) : Prop := good w (fst (b e w)) /\ safe (snd (b e w)).
Definition seg_ok {A} (m : Seg A) : Prop := forall e w, Inv (w_store w) -> good w (fst (m e w)).

Lemma good_refl w : Inv (w_store w) -> good w w.
Proof. intros H. split; [done|apply evolves_refl]. Qed.
Lemma good_trans w1 w2 w3 : good w1 w2 -> good w2 w3 -> good w1 w3.
Proof. intros [_ H1] [H2 H3]. split; [done|by eapply evolves_trans]. Qed.

Lemma safe_body {A} (b : Body A) : (forall e w, Inv (w_store w) -> body_ok b e w) -> safe (segment b).
Proof. intros H. constructor; intros e w Hi _; by apply H. Qed.

Lemma abind_safe {A B} (m : Async A) (k : A -> Async B) : safe m -> (forall a, safe (k a)) -> safe (abind m k).
Proof.
  intros Hm Hk. induction Hm as [[a|x]|run Hrun _ IH]; simpl; [apply Hk|constructor|].
  constructor; intros e w Hi He; [specialize (Hrun e w Hi He)|specialize (IH e w Hi He)]; by destruct (run e w).
Qed.

Lemma body_call {A B} (m : Async A) (k : A -> Body B) e w :
  Inv (w_store w) -> safe m -> (forall a e w, Inv (w_store w) -> body_ok (k a) e w) -> body_ok (call m k) e w.
Proof. intros Hi Hm Hk. split; [by apply good_refl|]. simpl. apply abind_safe; [done|]. intros a. apply safe_body. auto. Qed.

Lemma body_sync {A B} (m : Seg A) (k : A -> Body B) e w :
  good w (fst (m e w)) -> (forall a, snd (m e w) = Ok a -> body_ok (k a) e (fst (m e w))) -> body_ok (sync m k) e w.
Proof.
  unfold sync, body_ok. destruct (m e w) as [w' [a|x]]; simpl; intros Hg Hk.
  - destruct (Hk a eq_refl) as [H1 H2]. split; [by eapply good_trans|done].
  - split; [done|constructor].
Qed.

Lemma body_finish {A} (a : A) e w : Inv (w_store w) -> body_ok (finish a) e w.
Proof. intros H. split; [by apply good_refl|constructor]. Qed.
Lemma body_throw {A} x e w : Inv (w_store w) -> body_ok (throw (A := A) x) e w.
Proof. intros H. split; [by apply good_refl|constructor]. Qed.

Lemma flush_safe : safe flush.
Proof. constructor; intros e w Hi _; [by apply good_refl|]. simpl. destruct (e_flush e); constructor. Qed.

(** A segment that leaves the store as it is. *)
Definition reads {A} (m : Seg A) : Prop := forall e w, w_store (fst (m e w)) = w_store w.

Lemma reads_good {A} (m : Seg A) e w : reads m -> Inv (w_store w) -> good w (fst (m e w)).
Proof. intros H Hi. unfold good. rewrite H. split; [done|apply evolves_refl]. Qed.

Lemma transition_good t i e w :
  Inv (w_store w) -> (ends t = false -> orderly (w_store w) (lease_event t i)) -> good w (fst (transition t i e w)).
Proof.
  intros Hi Ho. unfold transition, update, applyLeaseTransition.
  destruct (negb _); simpl; [by apply good_refl|].
  destruct (ends t && negb (holdsLeaseEpoch i (w_store w))) eqn:Eg; simpl; [split; [done|apply evolves_refl]|].
  assert (Horder : orderly (w_store w) (lease_event t i)).
  { destruct (ends t) eqn:Et; [|auto]. simpl in Eg. apply negb_false_iff in Eg. unfold holdsLeaseEpoch in Eg.
    assert (exists l, held_at (resource_of i) (w_store w) = Some l /\ same_tokens l (lease_of i)) as H.
    { destruct i as [l|r]; simpl.
      - destruct (map_get _ _) as [h|]; [|done]. unfold same_epoch in Eg. bool_to_prop. exists h. done.
      - destruct (map_get _ _) as [h|]; [|done]. unfold same_epoch in Eg. bool_to_prop. exists (base h). done. }
    destruct t; try done. }
  set (s1 := match i with of_mission _ => _ | of_repository _ => _ end).
  assert (tables s1 = tables (w_store w) /\ st_log s1 = st_log (w_store w)) as [Ht Hl].
  { subst s1. destruct i; [|done]. destruct (map_get _ _); [|done]. destruct (_ =? _); done. }
  clearbody s1. unfold good. simpl.
  assert (Hi1 : Inv s1).
  { pose proof Ht as [= T1 T2 T3 T4 T5]. constructor; rewrite ?T1, ?T2, ?Hl; try apply Hi.
    - intros x l Hx. destruct (tables_at _ _ x Ht) as [E1 E2]. rewrite E1 in Hx. rewrite E2. by apply Hi.
    - intros ms. rewrite Ht. apply Hi.
    - intros x l Hx. destruct (tables_at _ _ x Ht) as [E1 E2]. rewrite E2. by apply Hi.
    - intros x l Hx. destruct (tables_at _ _ x Ht) as [E1 E2]. rewrite E2 in Hx. by apply Hi. }
  assert (Ho1 : orderly s1 (lease_event t i)).
  { destruct (tables_at _ _ (resource_of i) Ht) as [E1 E2]. destruct t; simpl in *; rewrite ?E1, ?E2; done. }
  destruct (event_step s1 (lease_event t i) Hi1 Ho1) as [H1 H2]. split; [done|].
  intros x. destruct (tables_at _ _ x Ht) as [E1 E2]. rewrite <- E1, <- E2. apply H2.
Qed.

Lemma transition_all_good t rs e w : ends t = true -> Inv (w_store w) -> good w (fst (transition_all t rs e w)).
Proof.
  intros Ht. revert w. induction rs as [|r rs IH]; intros w Hi; [by apply good_refl|].
  cbn [transition_all]. unfold seg_bind.
  pose proof (transition_good t (of_repository r) e w Hi) as Hg.
  destruct (transition t (of_repository r) e w) as [w' [a|x]]; simpl in *.
  - eapply good_trans; [apply Hg; congruence|]. apply IH. apply Hg. congruence.
  - apply Hg. congruence.
Qed.
Lemma transition_repositories_good t m e w : ends t = true -> Inv (w_store w) -> good w (fst (transition_repositories t m e w)).
Proof. intros. by apply transition_all_good. Qed.

(** ** The segments of the operations *)

Lemma sameEpoch_ok identity c sc e w :
  (exists x, assertSameEpoch identity c sc e w = (w, Err x)) \/
  (exists l, c = Some l /\ same_holder l identity /\ assertSameEpoch identity c sc e w = (w, Ok l)).
Proof.
  unfold assertSameEpoch, seg_throw, seg_ret. destruct c as [l|]; [|eauto].
  destruct (bool_decide _ && _ && _) eqn:E; [|eauto]. bool_to_prop. right. exists l.
  unfold same_holder, same_tokens. auto.
Qed.

Lemma assertSameEpoch_reads identity c sc : reads (assertSameEpoch identity c sc).
Proof. intros e w. by destruct (sameEpoch_ok identity c sc e w) as [[x ->]|(l & _ & _ & ->)]. Qed.

(** A check only reads: it answers in the world it was called in. *)
Definition checks {A} (m : Seg A) : Prop := forall e w, fst (m e w) = w.
Lemma checks_reads {A} (m : Seg A) : checks m -> reads m.
Proof. intros H e w. by rewrite H. Qed.
Lemma checks_bind {A B} (m : Seg A) (k : A -> Seg B) : checks m -> (forall a, checks (k a)) -> checks (seg_bind m k).
Proof.
  intros Hm Hk e w. unfold seg_bind. specialize (Hm e w). destruct (m e w) as [w' [a|x]]; simpl in *; subst; [apply Hk|done].
Qed.
Lemma checks_ret {A} (a : A) : checks (seg_ret a). Proof. done. Qed.
Lemma checks_throw {A} x : checks (seg_throw (A := A) x). Proof. done. Qed.
Lemma checks_env : checks env. Proof. done. Qed.
Lemma checks_store : checks store. Proof. done. Qed.
Lemma checks_sameEpoch identity c sc : checks (assertSameEpoch identity c sc).
Proof. intros e w. by destruct (sameEpoch_ok identity c sc e w) as [[x ->]|(l & _ & _ & ->)]. Qed.
#[export] Hint Resolve checks_ret checks_throw checks_env checks_store checks_sameEpoch checks_bind : pieng.
Lemma checks_notExpired l sc : checks (assertNotExpired l sc).
Proof. apply checks_bind; [done|]. intros e. destruct (isExpired _ _); auto with pieng. Qed.
Lemma checks_missionOwner m o : checks (assertMissionOwner m o).
Proof.
  apply checks_bind; [done|]. intros e. apply checks_bind; [done|]. intros s. destruct (map_get _ _); [|done].
  destruct (_ || _); done.
Qed.
#[export] Hint Resolve checks_notExpired checks_missionOwner : pieng.
Lemma checks_authoritative i : checks (assertAuthoritative i).
Proof.
  apply checks_bind; [done|]. intros s. destruct i; (apply checks_bind; [auto with pieng|]; intros c).
  - destruct (negb _); auto with pieng.
  - apply checks_bind; auto with pieng.
Qed.
Lemma checks_writer : checks assertWriterAuthority.
Proof. apply checks_bind; [done|]. intros e. destruct (e_writer e); done. Qed.
Lemma checks_holders i : checks (holders i). Proof. done. Qed.
#[export] Hint Resolve checks_authoritative checks_writer checks_holders : pieng.

Lemma body_check {A B} (m : Seg A) (k : A -> Body B) e w :
  checks m -> Inv (w_store w) -> (forall a, m e w = (w, Ok a) -> body_ok (k a) e w) -> body_ok (sync m k) e w.
Proof.
  intros Hm Hi Hk. pose proof (Hm e w) as E. apply body_sync; rewrite E; [by apply good_refl|].
  intros a Ha. apply Hk. destruct (m e w); simpl in *; congruence.
Qed.

Lemma body_transition {B} t i (k : unit -> Body B) e w :
  Inv (w_store w) -> (ends t = false -> orderly (w_store w) (lease_event t i)) ->
  (forall w', Inv (w_store w') -> body_ok (k tt) e w') -> body_ok (sync (transition t i) k) e w.
Proof.
  intros Hi Ho Hk. apply body_sync; [by apply transition_good|]. intros [] _. apply Hk. by apply transition_good.
Qed.

Lemma body_repositories {B} t m (k : unit -> Body B) e w :
  ends t = true -> Inv (w_store w) -> (forall w', Inv (w_store w') -> body_ok (k tt) e w') ->
  body_ok (sync (transition_repositories t m) k) e w.
Proof.
  intros Ht Hi Hk. apply body_sync; [by apply transition_repositories_good|]. intros [] _. apply Hk. by apply transition_repositories_good.
Qed.

Lemma body_holders {B} i f (k : unit -> Body B) e w :
  Inv (w_store w) -> (forall w', Inv (w_store w') -> body_ok (k tt) e w') -> body_ok (sync (set_holders i f) k) e w.
Proof. intros Hi Hk. apply body_sync; [by split; [|apply evolves_refl]|]. intros [] _. by apply Hk. Qed.

(** Walk along a body, leaving the transitions that need an argument. *)
Ltac body_walk :=
  repeat first
    [ by (apply body_finish) | by (apply body_throw)
    | apply body_call; [assumption|first [apply flush_safe|assumption|idtac]|intros ? ? ? ?]
    | apply body_holders; [assumption|intros ? ?]
    | apply body_repositories; [reflexivity|assumption|intros ? ?]
    | apply body_transition; [assumption|by intros [=]|intros ? ?] ].

Section OperationsSafe.
Context (cfg : nat -> Options).

Lemma syncExternal_good e w :
  Inv (w_store w) -> external_ok (w_store w) (e_external e) -> good w (fst (syncExternal e w)).
Proof.
  unfold good. simpl. generalize (w_store w) (e_external e). intros s evs. revert s.
  induction evs as [|ev evs IH]; intros s Hi; simpl; [intros _; split; [done|apply evolves_refl]|].
  intros [Ho He]. destruct (event_step s ev Hi Ho) as [H1 H2]. destruct (IH _ H1 He) as [H3 H4].
  split; [done|by eapply evolves_trans].
Qed.

Lemma poll_safe i n d b wm h : safe (poll cfg i n d b wm h).
Proof.
  revert b wm h. induction n as [|n IH]; intros; [constructor|]. cbn [poll].
  constructor; intros e w Hi He; destruct (e_claim e); simpl.
  - by apply syncExternal_good.
  - by apply good_refl.
  - constructor.
  - destruct (_ <=? _); [constructor|apply IH].
Qed.

Lemma claimCustody_safe i now : safe (claimCustody cfg i now).
Proof. unfold claimCustody. destruct (negb _); [constructor|apply poll_safe]. Qed.
Lemma confirmCustody_safe i : safe (confirmCustody cfg i).
Proof.
  unfold confirmCustody. destruct (negb _); [constructor|]. constructor; intros e w Hi _; simpl; [by apply good_refl|].
  destruct (e_claim e); constructor.
Qed.

Lemma renew_safe i identity : safe (renew cfg i identity).
Proof.
  apply safe_body. intros e0 w0 Hi0. apply body_call; [done|apply confirmCustody_safe|]. intros _ e w Hi.
  apply body_check; [done|done|]. intros s [= <-].
  apply body_check; [auto with pieng|done|]. intros c Hc.
  destruct (sameEpoch_ok identity (map_get (missionId identity) (missionLeases (w_store w))) mission_scope e w)
    as [[x E]|(l & Hl & Hs & E)]; rewrite E in Hc; [done|]. injection Hc as <-.
  apply body_check; [done|done|]. intros e' [= <-].
  destruct (isExpired l (e_now e)); [by body_walk|].
  apply body_transition; [done| |by intros; body_walk]. intros _. exists l. simpl.
  by rewrite (inv_mission_keys _ Hi _ _ Hl).
Qed.

Lemma renewRepository_safe i identity : safe (renewRepository cfg i identity).
Proof.
  apply safe_body. intros e0 w0 Hi0. apply body_call; [done|apply confirmCustody_safe|]. intros _ e w Hi.
  apply body_check; [done|done|]. intros s [= <-].
  apply body_check; [auto with pieng|done|]. intros c Hc.
  apply body_check; [auto with pieng|done|]. intros _ _.
  apply body_check; [done|done|]. intros e' [= <-].
  destruct (map_get (repoId identity) (repositoryLeases (w_store w))) as [r|] eqn:Er; [|by apply body_throw].
  destruct (isExpired _ _); [by body_walk|].
  apply body_transition; [done| |by intros; body_walk]. intros _. exists (base r). simpl.
  by rewrite (inv_repository_keys _ Hi _ _ Er), Er.
Qed.

Lemma acquire_new_ok i m g now e w : Inv (w_store w) -> body_ok (acquire_new cfg i m g now) e w.
Proof.
  intros Hi. apply body_check; [done|done|]. intros s [= <-].
  apply body_transition; [done| |by intros; body_walk]. intros _ p Hp. simpl in *. rewrite Hp. simpl. lia.
Qed.

Lemma acquire_expire_ok i m g now c e w : Inv (w_store w) -> body_ok (acquire_expire cfg i m g now c) e w.
Proof.
  intros Hi. apply body_check; [done|done|]. intros s [= <-].
  destruct c as [c|]; [|by apply acquire_new_ok]. destruct (map_get m _); [|by apply acquire_new_ok].
  body_walk. by apply acquire_new_ok.
Qed.

Lemma acquire_safe i m g : safe (acquire cfg i m g).
Proof.
  apply safe_body. intros e0 w0 Hi0. apply body_check; [auto with pieng|done|]. intros [] _.
  apply body_check; [done|done|]. intros e0' _. apply body_call; [done|apply claimCustody_safe|]. intros _ e w Hi.
  apply body_check; [done|done|]. intros s [= <-]. apply body_check; [done|done|]. intros e' [= <-].
  destruct (map_get m _) as [c|]; [|by apply acquire_expire_ok].
  cbv beta zeta. destruct (negb (isExpired c (e_now e)) && negb (heldByGoneOwner cfg i e c)); [|by apply acquire_expire_ok].
  destruct (negb (bool_decide (ownerId c = o_ownerId (cfg i)))); [by apply body_throw|]. destruct (match g with Some _ => _ | None => _ end).
  - body_walk. by apply acquire_expire_ok.
  - apply body_call; [done|apply renew_safe|]. intros l e1 w1 Hi1. body_walk.
Qed.

Lemma acquireRepository_new_ok i l repo now e w : Inv (w_store w) -> body_ok (acquireRepository_new cfg i l repo now) e w.
Proof.
  intros Hi. apply body_check; [done|done|]. intros s [= <-].
  apply body_transition; [done| |by intros; body_walk]. intros _ p Hp. simpl in *. rewrite Hp. simpl. lia.
Qed.

Lemma acquireRepository_safe i l repo : safe (acquireRepository cfg i l repo).
Proof.
  apply safe_body. intros e0 w0 Hi0. apply body_check; [auto with pieng|done|]. intros [] _.
  apply body_check; [auto with pieng|done|]. intros [] _.
  apply body_check; [done|done|]. intros e0' _. apply body_call; [done|apply claimCustody_safe|]. intros _ e w Hi.
  apply body_check; [done|done|]. intros s [= <-]. apply body_check; [done|done|]. intros e' [= <-].
  destruct (map_get repo _) as [c|]; [|by apply acquireRepository_new_ok].
  cbv beta zeta. destruct (negb (isExpired (base c) (e_now e)) && negb (heldByGoneOwner cfg i e (base c))).
  - destruct (negb (bool_decide (missionId (base c) = missionId l)) || negb (bool_decide (ownerId (base c) = ownerId l))); [by apply body_throw|]. apply body_call; [done|apply renewRepository_safe|]. intros r e1 w1 Hi1. body_walk.
  - body_walk. by apply acquireRepository_new_ok.
Qed.

Lemma fence_safe id : safe (fence id).
Proof. apply safe_body. intros e w Hi. apply body_check; [auto with pieng|done|]. intros [] _. body_walk. Qed.

Lemma release_safe i id : safe (release i id).
Proof.
  apply safe_body. intros e w Hi. apply body_check; [done|done|]. intros s _. destruct (negb _); [by apply body_finish|].
  apply body_check; [auto with pieng|done|]. intros [] _. apply body_check; [done|done|]. intros h _.
  cbv beta zeta. destruct (1 <? nullish (map_get (epoch_key id) (holder_map id h)) 1); body_walk.
Qed.

Lemma maintain_safe i l repo : safe (maintain cfg i l repo).
Proof.
  apply safe_body. intros e w Hi. apply body_call; [done|apply renew_safe|]. intros m e1 w1 Hi1.
  destruct repo as [r|]; [|by apply body_finish]. destruct (truthy r); [|by apply body_finish].
  apply body_call; [done|apply acquireRepository_safe|]. intros. by apply body_finish.
Qed.

Lemma start_safe i o : safe (start cfg i o).
Proof.
  assert (forall A (a : Async A), safe a -> safe (ignore a)) as Hig by (intros; apply abind_safe; [done|constructor]).
  destruct o; simpl; try apply Hig;
    auto using acquire_safe, renew_safe, acquireRepository_safe, renewRepository_safe, fence_safe, release_safe, maintain_safe.
Qed.

Lemma resumeMission_good m e w : Inv (w_store w) -> good w (fst (resumeMission m e w)).
Proof.
  intros Hi. unfold resumeMission. unfold seg_bind at 1. simpl. destruct (negb _); [by apply good_refl|].
  set (body := match map_get m _ with Some _ => _ | None => _ end).
  assert (Hb : good w (fst (body e w))).
  { subst body. destruct (map_get m _) as [l|]; [|by apply good_refl]. unfold seg_bind.
    pose proof (transition_good fenced (of_mission l) e w Hi) as Ht.
    destruct (transition fenced (of_mission l) e w) as [w1 [a|x]]; simpl in *; [|by apply Ht].
    eapply good_trans; [by apply Ht|]. apply transition_repositories_good; [done|by apply Ht]. }
  clearbody body. unfold seg_bind. destruct (body e w) as [w1 [a|x]]; simpl in *; [|done].
  eapply good_trans; [done|]. apply (event_step (w_store w1) (mission_resumed m (currentResumption m (w_store w1) + 1))); [apply Hb|done].
Qed.

End OperationsSafe.

(** ** All interleavings *)

Definition config : Type := World * list (Async unit).

Inductive pool_step (cfg : nat -> Options) : config -> config -> Prop :=
| step_call i o w p : pool_step cfg (w, p) (w, p ++ [start cfg i o])
| step_run e w p k run :
    p !! k = Some (segment run) -> external_ok (w_store w) (e_external e) ->
    pool_step cfg (w, p) (fst (run e w), <[k := snd (run e w)]> p)
| step_resumeMission m e w p : pool_step cfg (w, p) (fst (resumeMission m e w), p).

Definition no_holders (_ : nat) : Holders := mkHolders [] [].
Definition fresh (ms : list string) : config := (mkWorld (empty_store ms) no_holders, []).
Definition reachable (cfg : nat -> Options) (c : config) : Prop := exists ms, rtc (pool_step cfg) (fresh ms) c.

Lemma empty_inv ms : Inv (empty_store ms).
Proof.
  constructor; simpl; try done; try apply NoDup_nil_2.
  - by intros [] l.
  - intros x. constructor.
  - intros x l Hl. by apply not_elem_of_nil in Hl.
  - by intros [] p.
Qed.

Lemma pool_step_ok cfg w p w' p' :
  pool_step cfg (w, p) (w', p') -> Inv (w_store w) -> Forall safe p -> good w w' /\ Forall safe p'.
Proof.
  intros Hs Hi Hp. inversion Hs as [i o w1 p1|e w1 p1 k run Hk He|m e w1 p1]; subst.
  - split; [by apply good_refl|]. apply Forall_app. split; [done|]. repeat constructor. apply start_safe.
  - pose proof (Forall_lookup_1 _ _ _ _ Hp Hk) as Hr. inversion Hr as [|? H1 H2]; subst.
    split; [by apply H1|]. apply Forall_insert; [done|by apply H2].
  - split; [by apply resumeMission_good|done].
Qed.

Lemma steps_ok cfg c c' :
  rtc (pool_step cfg) c c' -> Inv (w_store (fst c)) -> Forall safe (snd c) -> good (fst c) (fst c') /\ Forall safe (snd c').
Proof.
  induction 1 as [c|[w p] [w1 p1] c' Hs _ IH]; intros Hi Hp; [split; [by apply good_refl|done]|].
  destruct (pool_step_ok _ _ _ _ _ Hs Hi Hp) as [Hg Hp1]. destruct (IH (proj1 Hg) Hp1) as [Hg' Hp'].
  split; [by eapply good_trans|done].
Qed.

Lemma pool_reachable_ok cfg c : reachable cfg c -> Inv (w_store (fst c)) /\ Forall safe (snd c).
Proof.
  intros [ms H]. destruct (steps_ok _ _ _ H) as [[Hi _] Hp]; [apply empty_inv|constructor|done].
Qed.

(** The lease tables of a store are the replay of its event history, whatever
    operations ran and however their segments interleaved: a restart recovers the same
    leases, epochs and resumptions. Per mission and per repository the acquisitions have
    strictly increasing generations and fencing tokens, and a lease that is held belongs
    to the last of them. *)
Theorem ownership_history cfg w p :
  reachable cfg (w, p) ->
  (forall ms, tables (replay (st_log (w_store w)) (empty_store ms)) = tables (w_store w)) /\
  (forall x, StronglySorted before (acquisitions x (st_log (w_store w)))) /\
  (forall x l, held_at x (w_store w) = Some l ->
     exists a, last (acquisitions x (st_log (w_store w))) = Some a /\ same_tokens a l).
Proof.
  intros H. destruct (pool_reachable_ok _ _ H) as [Hi _]. split_and!; [apply Hi|apply Hi|]. intros x l Hl.
  destruct (inv_held _ Hi x l Hl) as (q & Hq & E1 & E2). destruct (inv_last _ Hi x q Hq) as (a & Ha & F1 & F2).
  exists a. unfold same_tokens. split_and!; [done|congruence|congruence].
Qed.

(** An identity of an epoch that was issued and is not the one held (any more). *)
Definition stale (id : OwnershipIdentity) (s : Store) : Prop :=
  (exists p, epoch_at (resource_of id) s = Some p /\ generation (lease_of id) <= generation p) /\
  (forall l, held_at (resource_of id) s = Some l -> ~ same_holder l (lease_of id)).

Lemma stale_evolves id s s' : stale id s -> evolves s s' -> stale id s'.
Proof.
  intros [(p & Hp & Hle) Hno] He. destruct (He (resource_of id)) as [H1 H2]. split.
  - destruct (H2 p Hp) as (p' & Hp' & ? & _). exists p'. split; [done|lia].
  - intros l' Hl' Hs. destruct (H1 l' Hl') as [(l & Hl & [[E1 E2] E3])|Hn].
    + apply (Hno l Hl). destruct Hs as [[F1 F2] F3]. unfold same_holder, same_tokens. split_and!; congruence.
    + destruct (Hn p Hp). destruct Hs as [[F1 _] _]. lia.
Qed.

(** An operation that cannot act while [st] holds: its segments leave the store as it
    is and it does not return, except where [quits] allows it to have nothing to do. *)
Inductive powerless {A} (st : Store -> Prop) (quits : Prop) : Async A -> Prop :=
| powerless_settled r : (forall a, r = Ok a -> quits) -> powerless st quits (settled r)
| powerless_segment run :
    (forall e w, st (w_store w) -> w_store (fst (run e w)) = w_store w) ->
    (forall e w, st (w_store w) -> powerless st quits (snd (run e w))) ->
    powerless st quits (segment run).

Definition presents (id : OwnershipIdentity) (o : Op) : Prop :=
  match o with
  | op_acquire _ _ => False
  | op_renew l | op_acquireRepository l _ | op_maintain l _ => id = of_mission l
  | op_renewRepository r => id = of_repository r
  | op_fence i | op_release i => id = i
  end.
Definition is_release (o : Op) : Prop := match o with op_release _ => True | _ => False end.

Lemma stale_sameEpoch id s e w sc :
  stale id s -> exists x, assertSameEpoch (lease_of id) (held_at (resource_of id) s) sc e w = (w, Err x).
Proof.
  intros [_ Hno]. destruct (sameEpoch_ok (lease_of id) (held_at (resource_of id) s) sc e w) as [?|(l & Hl & Hs & _)]; [done|].
  by destruct (Hno l Hl).
Qed.

Lemma stale_authoritative id e w : stale id (w_store w) -> exists x, assertAuthoritative id e w = (w, Err x).
Proof.
  intros Hs. unfold assertAuthoritative, seg_bind, store.
  destruct id as [l|r].
  - destruct (stale_sameEpoch (of_mission l) _ e w mission_scope Hs) as [x E]. simpl in E. rewrite E. eauto.
  - destruct (stale_sameEpoch (of_repository r) _ e w repository_scope Hs) as [x E]. simpl in E. rewrite E. eauto.
Qed.

Lemma powerless_bind {A B} st (m : Async A) (k : A -> Async B) : powerless st False m -> powerless st False (abind m k).
Proof.
  induction 1 as [[a|x] H|run H1 _ IH]; simpl; [by destruct (H a)|by constructor|].
  constructor; intros e w Hs; [specialize (H1 e w Hs)|specialize (IH e w Hs)]; by destruct (run e w).
Qed.

(** Custody is confirmed without touching the store; what follows decides. *)
Lemma powerless_confirmed {B} cfg i st (k : unit -> Body B) :
  powerless st False (segment (k tt)) -> powerless st False (segment (call (confirmCustody cfg i) k)).
Proof.
  intros Hk. constructor; [done|]. intros e w Hs. simpl. unfold confirmCustody.
  destruct (negb _); [exact Hk|]. constructor; [done|]. intros e' w' Hs'. simpl.
  destruct (e_claim e'); [exact Hk|]. by constructor.
Qed.

Lemma powerless_refused {B} st (b : Body B) :
  (forall e w, st (w_store w) -> exists x, b e w = (w, settled (Err x))) -> powerless st False (segment b).
Proof.
  intros H. constructor; intros e w Hs; destruct (H e w Hs) as [x ->]; [done|]. by constructor.
Qed.

Lemma renew_powerless cfg i l : powerless (stale (of_mission l)) False (renew cfg i l).
Proof.
  apply powerless_confirmed, powerless_refused. intros e w Hs. unfold sync at 1, store. unfold sync at 1.
  destruct (stale_sameEpoch (of_mission l) _ e w mission_scope Hs) as [x E]. simpl in E. rewrite E. eauto.
Qed.

Lemma renewRepository_powerless cfg i r : powerless (stale (of_repository r)) False (renewRepository cfg i r).
Proof.
  apply powerless_confirmed, powerless_refused. intros e w Hs. unfold sync at 1, store. unfold sync at 1.
  destruct (stale_sameEpoch (of_repository r) _ e w repository_scope Hs) as [x E]. simpl in E. rewrite E. eauto.
Qed.

Lemma acquireRepository_powerless cfg i l repo : powerless (stale (of_mission l)) False (acquireRepository cfg i l repo).
Proof.
  apply powerless_refused. intros e w Hs. unfold sync at 1, assertWriterAuthority, seg_bind at 1, env.
  destruct (e_writer e); simpl; [|by eexists]. unfold sync at 1.
  destruct (stale_authoritative (of_mission l) e w Hs) as [x E]. rewrite E. eauto.
Qed.

Lemma fence_powerless id : powerless (stale id) False (fence id).
Proof.
  apply powerless_refused. intros e w Hs. unfold sync at 1. destruct (stale_authoritative id e w Hs) as [x E]. rewrite E. eauto.
Qed.

Lemma release_powerless i id : powerless (stale id) True (release i id).
Proof.
  constructor; intros e w Hs; unfold sync at 1, store; (destruct (negb _); [by repeat constructor|]); unfold sync at 1;
    destruct (stale_authoritative id e w Hs) as [x ->]; by repeat constructor.
Qed.

Lemma start_powerless cfg i id o : presents id o -> powerless (stale id) (is_release o) (start cfg i o).
Proof.
  destruct o as [m g|l|l repo|r|j|j|l repo]; simpl; intros H; subst; try done.
  - apply powerless_bind, renew_powerless.
  - apply powerless_bind, acquireRepository_powerless.
  - apply powerless_bind, renewRepository_powerless.
  - apply fence_powerless.
  - apply release_powerless.
  - apply powerless_bind. constructor; [done|]. intros e w Hs. unfold call. cbn [snd]. apply powerless_bind, renew_powerless.
Qed.

Lemma powerless_steps cfg id k a Q c c' :
  rtc (pool_step cfg) c c' -> Inv (w_store (fst c)) -> Forall safe (snd c) -> stale id (w_store (fst c)) ->
  snd c !! k = Some a -> powerless (stale id) Q a ->
  exists a', snd c' !! k = Some a' /\ powerless (stale id) Q a'.
Proof.
  intros Hr. revert a. induction Hr as [c|[w p] [w1 p1] c' Hs _ IH]; intros a Hi Hp Hst Hk Ha; [eauto|].
  destruct (pool_step_ok _ _ _ _ _ Hs Hi Hp) as [[Hi1 He1] Hp1]. simpl in *.
  assert (Hst1 : stale id (w_store w1)) by (by eapply stale_evolves).
  assert (exists a1, p1 !! k = Some a1 /\ powerless (stale id) Q a1) as (a1 & Hk1 & Ha1); [|by eapply IH].
  inversion Hs as [i o w2 p2|e w2 p2 j run Hj He|m e w2 p2]; subst.
  - exists a. split; [by apply lookup_app_l_Some|done].
  - destruct (decide (j = k)) as [->|Hne].
    + rewrite Hk in Hj. injection Hj as ->. inversion Ha as [|? H1 H2]; subst. exists (snd (run e w)). split; [|by apply H2].
      apply list_lookup_insert_eq. by eapply lookup_lt_Some.
    + exists a. by rewrite list_lookup_insert_ne.
  - eauto.
Qed.

(** C6: an identity that was issued and is no longer the held one is powerless for
    ever, whatever runs concurrently: it stays stale, every check of it fails, and a
    renewal, fencing, release, maintenance or repository acquisition that presents it
    never changes the store and never succeeds, except that a release may return having
    found nothing to release. The lease events other sessions append between the segments
    are assumed orderly: an acquisition has a later epoch than the resource's last one, and
    every other event is of the lease that is held ([external_ok]). *)
Theorem stale_identity_powerless cfg w p w' p' id :
  reachable cfg (w, p) -> stale id (w_store w) -> rtc (pool_step cfg) (w, p) (w', p') ->
  stale id (w_store w') /\
  (forall e, exists x, assertAuthoritative id e w' = (w', Err x)) /\
  (forall i o k w2 p2, presents id o -> p' !! k = Some (start cfg i o) -> rtc (pool_step cfg) (w', p') (w2, p2) ->
     exists a, p2 !! k = Some a /\ powerless (stale id) (is_release o) a).
Proof.
  intros Hr Hs Hsteps. destruct (pool_reachable_ok _ _ Hr) as [Hi Hp]. destruct (steps_ok _ _ _ Hsteps Hi Hp) as [[Hi' He] Hp'].
  assert (Hs' : stale id (w_store w')) by (by eapply stale_evolves).
  split_and!; [done|intros e; by apply stale_authoritative|]. intros i o k w2 p2 Hpr Hk Hsteps2.
  eapply (powerless_steps cfg id k (start cfg i o) _ (w', p') (w2, p2)); eauto using start_powerless.
Qed.

(** ** Waiting for custody *)

Fixpoint run_async {A} (es : list Env) (a : Async A) (w : World) : World * Async A :=
  match a, es with
  | segment run, e :: es' => let '(w', a') := run e w in run_async es' a' w'
  | _, _ => (w, a)
  end.

(** Each poll happens no earlier than the previous one plus the pause. *)
Fixpoint punctual (poll_ms deadline backoff : Z) (es : list Env) : Prop :=
  match es with
  | e :: ((e' :: _) as es') =>
      e_now e + pauseMs backoff deadline (e_now e) <= e_now e' /\ punctual poll_ms deadline (Z.min (backoff * 2) poll_ms) es'
  | _ => True
  end.

Lemma poll_settles cfg i n d b wm h es w :
  (n <= length es)%nat -> exists w' r, run_async es (poll cfg i n d b wm h) w = (w', settled r).
Proof.
  revert b wm h es w. induction n as [|n IH]; intros b wm h es w Hn; [destruct es; simpl; eauto|].
  destruct es as [|e es]; simpl in Hn; [lia|]. cbn [poll run_async]. destruct (e_claim e); simpl.
  - destruct es; simpl; eauto.
  - destruct (_ <=? _); [destruct es; simpl; eauto|]. apply IH. lia.
Qed.

Lemma poll_waits cfg i n d b wm h es w w' holder waited now0 :
  wm <= d - now0 -> punctual (o_custodyPollMs (cfg i)) d b es ->
  (forall e es', es = e :: es' -> now0 + wm <= e_now e) ->
  run_async es (poll cfg i n d b wm h) w = (w', settled (Err (custody_of_other holder waited))) -> waited <= d - now0.
Proof.
  revert b wm h es w. induction n as [|n IH]; intros b wm h es w Hwm Hp Hnow; [destruct es; simpl; intros [= _ _ <-]; lia|].
  destruct es as [|e es]; [done|]. cbn [poll run_async]. specialize (Hnow e es eq_refl).
  destruct (e_claim e); simpl; [by destruct es|].
  destruct (d <=? e_now e) eqn:Ed; [destruct es; simpl; intros [= _ _ <-]; lia|]. bool_to_prop.
  unfold pauseMs. apply IH.
  - lia.
  - by destruct es as [|e' es]; [|apply Hp].
  - intros e' es' ->. destruct Hp as [Hp _]. unfold pauseMs in Hp. lia.
Qed.

(** A claim of custody ends. It polls at most [maxPolls] times, even if the clock
    stands still; and if the pauses take at least as long as they were asked to, the
    time it reports to have waited is within the configured limit. *)
Theorem custody_wait_bounded cfg i now0 es w :
  0 <= o_custodyWaitMs (cfg i) -> maxPolls cfg i <= Z.of_nat (length es) ->
  exists w' r, run_async es (claimCustody cfg i now0) w = (w', settled r) /\
    forall holder waited, r = Err (custody_of_other holder waited) ->
      punctual (o_custodyPollMs (cfg i)) (now0 + o_custodyWaitMs (cfg i)) (firstPauseMs cfg i) es ->
      (forall e es', es = e :: es' -> now0 <= e_now e) -> waited <= o_custodyWaitMs (cfg i).
Proof.
  intros Hw Hn. unfold claimCustody. destruct (negb _).
  - exists w, (Ok tt). split; [by destruct es|done].
  - destruct (poll_settles cfg i (Z.to_nat (maxPolls cfg i)) (now0 + o_custodyWaitMs (cfg i)) (firstPauseMs cfg i) 0 "" es w)
      as (w' & r & E); [lia|]. exists w', r. split; [done|]. intros holder waited -> Hp Hnow.
    enough (waited <= now0 + o_custodyWaitMs (cfg i) - now0) by lia.
    eapply (poll_waits cfg i); [|exact Hp| |exact E]; [lia|]. intros e es' ->. rewrite Z.add_0_r. eauto.
Qed.

(** ** The renewable authority of a dispatch

    A timer chains [pulse]s; [rm] and [rr] are the answers of the renewals a pulse
    asks for. *)
Record Authority := mkAuthority {
  a_mission : MissionLease;
  a_repository : option RepositoryLease;
  a_failure : option OwnershipError;
  a_lastError : option OwnershipError;
  a_stopped : bool;
  a_consecutiveRenewFailures : Z
}.

Definition newAuthority (m : MissionLease) (r : option RepositoryLease) : Authority := mkAuthority m r None None false 0.

Definition isStaleFencingIdentity (x : OwnershipError) : bool :=
  match x with stale_fencing_identity _ => true | _ => false end.

(** The [catch] of the timer. *)
Definition pulse_failed (max : Z) (x : OwnershipError) (a : Authority) : Authority :=
  let n := a_consecutiveRenewFailures a + 1 in
  mkAuthority (a_mission a) (a_repository a)
    (match a_failure a with
     | Some f => Some f
     | None => if isStaleFencingIdentity x || (max <=? n) then Some (renewal_failed n x) else None
     end) (Some x) (a_stopped a) n.

Definition pulse (max : Z) (rm : res OwnershipError MissionLease) (rr : res OwnershipError RepositoryLease) (a : Authority) : Authority :=
  if a_stopped a || bool_decide (is_Some (a_failure a)) then a else
  match rm with
  | Err x => pulse_failed max x a
  | Ok m =>
      let a1 := mkAuthority m (a_repository a) (a_failure a) (a_lastError a) (a_stopped a) (a_consecutiveRenewFailures a) in
      match a_repository a with
      | None => mkAuthority m None (a_failure a) (a_lastError a) (a_stopped a) 0
      | Some _ => match rr with
                  | Err x => pulse_failed max x a1
                  | Ok r => mkAuthority m (Some r) (a_failure a) (a_lastError a) (a_stopped a) 0
                  end
      end
  end.

(** [close], given the answer of the release it asks for. *)
Definition close (released : res OwnershipError unit) (a : Authority) : Authority * option OwnershipError :=
  if a_stopped a then (a, a_failure a)
  else (mkAuthority (a_mission a) (a_repository a) (a_failure a) (a_lastError a) true (a_consecutiveRenewFailures a),
        match a_repository a, released with
        | Some _, Err x => Some x
        | _, _ => a_failure a
        end).

Definition authority_assertAuthoritative (a : Authority) : Seg unit :=
  match a_failure a with
  | Some x => seg_throw x
  | None =>
      let* _ := assertAuthoritative (of_mission (a_mission a)) in
      match a_repository a with Some r => assertAuthoritative (of_repository r) | None => seg_ret tt end
  end.

(** [a] may return [x], whatever other code does between its segments. *)
Inductive returns {A} : Async A -> A -> Prop :=
| returns_settled x : returns (settled (Ok x)) x
| returns_segment run e w x : returns (snd (run e w)) x -> returns (segment run) x.

Inductive authority_step (cfg : nat -> Options) (i : nat) : Authority -> Authority -> Prop :=
| step_pulse a rm rr :
    (forall l, rm = Ok l -> returns (renew cfg i (a_mission a)) l) ->
    (forall repo r, a_repository a = Some repo -> rr = Ok r -> returns (renewRepository cfg i repo) r) ->
    authority_step cfg i a (pulse (o_maxConsecutiveRenewFailures (cfg i)) rm rr a)
| step_close a released : authority_step cfg i a (fst (close released a)).

Lemma returns_bind {A B} (m : Async A) (k : A -> Async B) y : returns (abind m k) y -> exists x, returns m x /\ returns (k x) y.
Proof.
  intros H. remember (abind m k) as b eqn:E. revert m E. induction H as [y|run e w y H IH]; intros [[a|x]|run']; simpl; intros E.
  - exists a. split; [constructor|]. rewrite <- E. constructor.
  - done.
  - done.
  - exists a. split; [constructor|]. rewrite <- E. by apply (returns_segment run e w).
  - done.
  - injection E as ->. destruct (run' e w) as [w' m'] eqn:E. destruct (IH m' eq_refl) as (x & H1 & H2). exists x. split; [|done].
    apply (returns_segment run' e w). by rewrite E.
Qed.

Lemma returns_call {A B} (m : Async A) (k : A -> Body B) e w y :
  returns (snd (call m k e w)) y -> exists a e' w', returns (snd (k a e' w')) y.
Proof.
  unfold call. cbn [snd]. intros H. destruct (returns_bind _ _ _ H) as (a & _ & H1).
  inversion H1 as [|? e' w' ? H2]; subst. eauto.
Qed.

Lemma returns_sync {A B} (m : Seg A) (k : A -> Body B) e w y :
  returns (snd (sync m k e w)) y -> exists a, m e w = (fst (m e w), Ok a) /\ returns (snd (k a e (fst (m e w)))) y.
Proof.
  unfold sync. destruct (m e w) as [w' [a|x]]; simpl; intros H; [eauto|inversion H].
Qed.

Lemma returns_finish {A} (a : A) e w y : returns (snd (finish a e w)) y -> y = a.
Proof. by inversion 1. Qed.

(** A renewal returns the identity it was given, with a later deadline. *)
Lemma renew_returns cfg i l l' : returns (renew cfg i l) l' -> same_holder l' l.
Proof.
  intros H. inversion H as [|? e0 w0 ? H0]; subst. apply returns_call in H0 as (_ & e & w & H0).
  apply returns_sync in H0 as (s & [= <-] & H0). unfold store in H0. cbn [fst] in H0. apply returns_sync in H0 as (c & Hc & H0).
  destruct (sameEpoch_ok l (map_get (missionId l) (missionLeases (w_store w))) mission_scope e w) as [[x E]|(l1 & _ & Hs & E)];
    rewrite E in Hc, H0; [done|]. injection Hc as <-. simpl in H0.
  apply returns_sync in H0 as (e' & [= <-] & H0). simpl in H0. destruct (isExpired l1 (e_now e)).
  - apply returns_sync in H0 as (_ & _ & H0). apply returns_sync in H0 as (_ & _ & H0).
    apply returns_call in H0 as (_ & ? & ? & H0). inversion H0.
  - apply returns_sync in H0 as (_ & _ & H0). apply returns_call in H0 as (_ & ? & ? & H0). by apply returns_finish in H0 as ->.
Qed.

Lemma renewRepository_returns cfg i r r' : returns (renewRepository cfg i r) r' -> same_holder (base r') (base r).
Proof.
  intros H. inversion H as [|? e0 w0 ? H0]; subst. apply returns_call in H0 as (_ & e & w & H0).
  apply returns_sync in H0 as (s & [= <-] & H0). unfold store in H0. cbn [fst] in H0. apply returns_sync in H0 as (c & Hc & H0).
  set (current := map_get (repoId r) _) in Hc, H0. clearbody current.
  destruct (sameEpoch_ok (base r) (base <$> current) repository_scope e w) as [[x E]|(l1 & Hl1 & Hs & E)];
    rewrite E in Hc, H0; [done|]. simpl in H0. apply returns_sync in H0 as (_ & _ & H0). apply returns_sync in H0 as (e' & [= <-] & H0).
  destruct current as [c1|]; [|done]. injection Hl1 as <-. destruct (isExpired _ _).
  - apply returns_sync in H0 as (_ & _ & H0). apply returns_call in H0 as (_ & ? & ? & H0). inversion H0.
  - apply returns_sync in H0 as (_ & _ & H0). apply returns_call in H0 as (_ & ? & ? & H0). by apply returns_finish in H0 as ->.
Qed.

(** What a life of the authority preserves. *)
Record authority_inv (max : Z) (a0 a : Authority) : Prop := mkAuthorityInv {
  ai_mission : same_holder (a_mission a) (a_mission a0);
  ai_repository : forall r, a_repository a = Some r -> exists r0, a_repository a0 = Some r0 /\ same_holder (base r) (base r0);
  ai_bound : a_failure a = None -> a_consecutiveRenewFailures a < max
}.

Lemma same_holder_trans a b c : same_holder a b -> same_holder b c -> same_holder a c.
Proof. unfold same_holder, same_tokens. intros [[] ] [[] ]. split_and!; congruence. Qed.

Lemma pulse_failed_inv max x a0 a :
  same_holder (a_mission a) (a_mission a0) ->
  (forall r, a_repository a = Some r -> exists r0, a_repository a0 = Some r0 /\ same_holder (base r) (base r0)) ->
  authority_inv max a0 (pulse_failed max x a).
Proof.
  intros H1 H2. constructor; [done|done|]. simpl. destruct (a_failure a); [done|].
  destruct (isStaleFencingIdentity x); [done|]. simpl. destruct (_ <=? _) eqn:E; [done|]. intros _. bool_to_prop. lia.
Qed.

Lemma authority_step_inv cfg i a0 a a' :
  1 <= o_maxConsecutiveRenewFailures (cfg i) ->
  authority_step cfg i a a' -> authority_inv (o_maxConsecutiveRenewFailures (cfg i)) a0 a ->
  authority_inv (o_maxConsecutiveRenewFailures (cfg i)) a0 a' /\ (forall x, a_failure a = Some x -> a_failure a' = Some x).
Proof.
  intros Hmax Hs [H1 H2 H3]. inversion Hs as [? rm rr Hm Hr|? released]; subst.
  - unfold pulse. destruct (a_stopped a || bool_decide (is_Some (a_failure a))) eqn:Estop; [by split|].
    bool_to_prop. destruct (a_failure a) as [f|] eqn:Ef; [by exfalso; eauto|]. split; [|done].
    destruct rm as [m|x]; [|by apply pulse_failed_inv].
    pose proof (same_holder_trans _ _ _ (renew_returns _ _ _ _ (Hm m eq_refl)) H1) as Hm1.
    destruct (a_repository a) as [repo|] eqn:Erepo; [|constructor; simpl; [done|done|lia]].
    destruct rr as [r|x]; [|by apply pulse_failed_inv].
    constructor; simpl; [done| |lia]. intros ? [= <-]. destruct (H2 repo eq_refl) as (r0 & ? & Hr0). exists r0. split; [done|].
    eapply same_holder_trans; [|done]. by apply (renewRepository_returns cfg i), (Hr repo).
  - unfold close. destruct (a_stopped a); simpl; [by split|]. by split; [constructor|].
Qed.

Lemma authority_steps_inv cfg i a0 a a' :
  1 <= o_maxConsecutiveRenewFailures (cfg i) ->
  rtc (authority_step cfg i) a a' -> authority_inv (o_maxConsecutiveRenewFailures (cfg i)) a0 a ->
  authority_inv (o_maxConsecutiveRenewFailures (cfg i)) a0 a' /\ (forall x, a_failure a = Some x -> a_failure a' = Some x).
Proof.
  intros Hmax. induction 1 as [b|b c d Hs _ IH]; intros Hi; [done|].
  destruct (authority_step_inv _ _ a0 _ _ Hmax Hs Hi) as [H1 H2]. destruct (IH H1). auto.
Qed.

Lemma checks_ok_bind {A B} (m : Seg A) (k : A -> Seg B) e w b :
  checks m -> seg_bind m k e w = (w, Ok b) -> exists a, m e w = (w, Ok a) /\ k a e w = (w, Ok b).
Proof.
  intros Hm. unfold seg_bind. specialize (Hm e w). destruct (m e w) as [w' [a|x]]; simpl in Hm; subst; [eauto|done].
Qed.

Lemma authoritative_held id e w :
  assertAuthoritative id e w = (w, Ok tt) ->
  exists l, held_at (resource_of id) (w_store w) = Some l /\ same_holder l (lease_of id) /\ e_now e < renewBy l.
Proof.
  assert (forall l sc, assertNotExpired l sc e w = (w, Ok tt) -> e_now e < renewBy l) as Hexp.
  { intros l sc. unfold assertNotExpired, seg_bind, env, isExpired. destruct (_ <=? _) eqn:E; [done|]. bool_to_prop. lia. }
  unfold assertAuthoritative. intros (s & [= <-] & H)%checks_ok_bind; [|done]. destruct id as [l|r].
  - apply checks_ok_bind in H as (c & Hc & H); [|auto with pieng].
    destruct (sameEpoch_ok l (map_get (missionId l) (missionLeases (w_store w))) mission_scope e w) as [[x E]|(l1 & Hl1 & Hs & E)];
      rewrite E in Hc; [done|]. injection Hc as <-. exists l1. split_and!; [done|done|].
    destruct (negb _); [done|]. by eapply Hexp.
  - apply checks_ok_bind in H as (c & Hc & H); [|auto with pieng].
    destruct (sameEpoch_ok (base r) (base <$> map_get (repoId r) (repositoryLeases (w_store w))) repository_scope e w) as [[x E]|(l1 & Hl1 & Hs & E)];
      rewrite E in Hc; [done|]. injection Hc as <-. exists l1. split_and!; [done|done|].
    apply checks_ok_bind in H as ([] & H & _); [|auto with pieng]. by eapply Hexp.
Qed.

(** A dispatch authority stands for one epoch. Whatever the renewals answer, it
    never adopts another generation, token or owner; fewer than
    [maxConsecutiveRenewFailures] renewals in a row have failed while it is not
    invalidated, and an invalidation is for ever; when its check passes, the store
    holds unexpired leases of exactly the epochs it was created with. *)
Theorem dispatch_authority_one_epoch cfg i m r a :
  1 <= o_maxConsecutiveRenewFailures (cfg i) -> rtc (authority_step cfg i) (newAuthority m r) a ->
  (a_failure a = None -> a_consecutiveRenewFailures a < o_maxConsecutiveRenewFailures (cfg i)) /\
  (forall x a', a_failure a = Some x -> rtc (authority_step cfg i) a a' -> forall e w, authority_assertAuthoritative a' e w = (w, Err x)) /\
  (forall e w, authority_assertAuthoritative a e w = (w, Ok tt) ->
     (exists l, held_at (the_mission (missionId (a_mission a))) (w_store w) = Some l /\ same_holder l m /\ e_now e < renewBy l) /\
     (forall repo, a_repository a = Some repo -> exists repo0 l, r = Some repo0 /\
        held_at (the_repository (repoId repo)) (w_store w) = Some l /\ same_holder l (base repo0) /\ e_now e < renewBy l)).
Proof.
  intros Hmax Hr.
  assert (Hinv : authority_inv (o_maxConsecutiveRenewFailures (cfg i)) (newAuthority m r) a).
  { apply (authority_steps_inv _ _ _ _ _ Hmax Hr).
    constructor; [by unfold same_holder|simpl; intros r0 ->; exists r0; by unfold same_holder|simpl; lia]. }
  split_and!; [apply Hinv| |].
  - intros x a' Hx Hsteps e w. destruct (authority_steps_inv _ _ _ _ _ Hmax Hsteps Hinv) as [_ Hx'].
    unfold authority_assertAuthoritative. by rewrite (Hx' x Hx).
  - intros e w. unfold authority_assertAuthoritative. destruct (a_failure a); [done|].
    intros (u & H1 & H2)%checks_ok_bind; [|auto with pieng]. destruct u. split.
    + destruct (authoritative_held _ _ _ H1) as (l & Hl & Hs & Ht). exists l. split_and!; [done| |done].
      eapply same_holder_trans; [exact Hs|apply Hinv].
    + intros repo Hrepo. rewrite Hrepo in H2. destruct (ai_repository _ _ _ Hinv repo Hrepo) as (r0 & Hr0 & Hs0).
      destruct (authoritative_held _ _ _ H2) as (l & Hl & Hs & Ht). exists r0, l. split_and!; [done|done| |done].
      eapply same_holder_trans; [exact Hs|done].
Qed.

(** ** Concrete runs *)

Definition env_at (t : Z) : Env := mkEnv t true claim_ok true (fun _ => false) [].

Inductive Act := act_call (i : nat) (o : Op) | act_run (k : nat) (t : Z).
Fixpoint exec (cfg : nat -> Options) (acts : list Act) (c : config) : option config :=
  match acts with
  | [] => Some c
  | act_call i o :: acts' => exec cfg acts' (fst c, snd c ++ [start cfg i o])
  | act_run k t :: acts' =>
      match snd c !! k with
      | Some (segment run) => let '(w', a') := run (env_at t) (fst c) in exec cfg acts' (w', <[k := a']> (snd c))
      | _ => None
      end
  end.

Lemma exec_steps cfg acts c c' : exec cfg acts c = Some c' -> rtc (pool_step cfg) c c'.
Proof.
  revert c. induction acts as [|[i o|k t] acts IH]; intros [w p]; simpl; [by intros [= <-]| |].
  - intros H. eapply rtc_l; [constructor|]. by apply IH.
  - destruct (p !! k) as [[r|run]|] eqn:Ek; [done| |done]. destruct (run (env_at t) w) as [w' a'] eqn:Er. intros H.
    eapply rtc_l; [by apply (step_run cfg (env_at t) w p k run)|]. rewrite Er. by apply IH.
Qed.

Definition sample_cfg (i : nat) : Options :=
  match i with
  | O => mkOptions "A" 10000 3000 false 600000 5000 3
  | _ => mkOptions "B" 10 3 true 1000 500 3
  end.
Definition sample_start : config := fresh ["M0"; "M1"; "M2"].

Definition lease0 : MissionLease := mkLease "M0" 1 "B" 0 10 1 (Some 0).
Definition lease1 : MissionLease := mkLease "M1" 1 "A" 100 10100 1 (Some 0).
Definition lease2 : MissionLease := mkLease "M2" 1 "A" 100 10100 1 (Some 0).

(** "B" leases mission M0 and repository R at time 0 and is not heard of again; at
    time 100 both leases have expired, and "A" leases missions M1 and M2. *)
Definition sample_setup : list Act :=
  [act_call 1 (op_acquire "M0" None); act_run 0 0; act_run 0 0; act_run 0 0; act_run 0 0; act_run 0 0;
   act_call 1 (op_acquireRepository lease0 "R"); act_run 1 0; act_run 1 0; act_run 1 0; act_run 1 0; act_run 1 0;
   act_call 0 (op_acquire "M1" None); act_run 2 100; act_run 2 100; act_run 2 100; act_run 2 100;
   act_call 0 (op_acquire "M2" None); act_run 3 100; act_run 3 100; act_run 3 100; act_run 3 100].

(** Both missions ask for R; the first is suspended at the flush that follows its
    expiry of the old lease while the second finds R free and leases it. *)
Definition sample_race : list Act :=
  [act_call 0 (op_acquireRepository lease1 "R"); act_run 4 100; act_run 4 100;
   act_call 0 (op_acquireRepository lease2 "R"); act_run 5 100; act_run 5 100; act_run 5 100; act_run 5 100].

Definition repository_of_M2 : RepositoryLease := mkRepositoryLease "R" (mkLease "M2" 2 "A" 100 10100 2 None).

Lemma exec_app cfg a b c : exec cfg (a ++ b) c = exec cfg a c ≫= exec cfg b.
Proof.
  revert c. induction a as [|[i o|k t] a IH]; intros c; simpl; [done|apply IH|].
  destruct (snd c !! k) as [[r|run]|]; [done| |done]. destruct (run (env_at t) (fst c)). apply IH.
Qed.

Lemma exec_observe {A} (f : config -> A) cfg a c x : f <$> exec cfg a c = Some x -> exists c', exec cfg a c = Some c' /\ f c' = x.
Proof. destruct (exec cfg a c) as [c'|]; [|done]. intros [= <-]. eauto. Qed.
Lemma exec_continues {A} (f : config -> A) cfg a b c c1 x :
  f <$> exec cfg (a ++ b) c = Some x -> exec cfg a c = Some c1 -> exists c', exec cfg b c1 = Some c' /\ f c' = x.
Proof. rewrite exec_app. intros H E. rewrite E in H. by apply exec_observe. Qed.

(** What is observed of the repository R, and whether the second request has returned. *)
Definition observe (c : config) :=
  (repositoryLeases (w_store (fst c)), repositoryLeaseEpochs (w_store (fst c)),
   match snd c !! 5%nat with Some (settled (Ok _)) => true | _ => false end).

Definition repository_of_M1 : RepositoryLease := mkRepositoryLease "R" (mkLease "M1" 3 "A" 100 10100 3 None).
Lemma race_granted :
  observe <$> exec sample_cfg (sample_setup ++ sample_race) sample_start =
  Some ([("R", repository_of_M2)], [("R", repository_of_M2)], true).
Proof. vm_compute. reflexivity. Qed.
Lemma race_taken :
  observe <$> exec sample_cfg ((sample_setup ++ sample_race) ++ [act_run 4 100; act_run 4 100]) sample_start =
  Some ([("R", repository_of_M1)], [("R", repository_of_M1)], true).
Proof. vm_compute. reflexivity. Qed.

(** A live repository lease can be taken over. [acquireRepository] does not look
    again after the flush that follows the expiry of an old lease: after the run above
    mission M2 has been granted R until 10100, and at time 100 the suspended call of
    mission M1 is granted R as well, which makes the lease of M2 stale. *)
Theorem live_lease_taken_over :
  exists w p w' p',
    reachable sample_cfg (w, p) /\ p !! 5%nat = Some (return_ tt) /\
    map_get "R" (repositoryLeases (w_store w)) = Some repository_of_M2 /\
    exec sample_cfg [act_run 4 100; act_run 4 100] (w, p) = Some (w', p') /\ 100 < renewBy (base repository_of_M2) /\
    (missionId ∘ base <$> map_get "R" (repositoryLeases (w_store w'))) = Some "M1" /\
    stale (of_repository repository_of_M2) (w_store w').
Proof.
  destruct (exec_observe observe _ _ _ _ race_granted) as ([w p] & E & Hg).
  destruct (exec_continues observe _ _ _ _ _ _ race_taken E) as ([w' p'] & E' & Ht).
  injection Hg as Hg1 _ Hg2. injection Ht as Ht1 Ht2 _. exists w, p, w', p'. split_and!.
  - exists ["M0"; "M1"; "M2"]. exact (exec_steps _ _ _ _ E).
  - destruct (p !! 5%nat) as [[[[]|]|]|]; done.
  - by rewrite Hg1.
  - done.
  - done.
  - by rewrite Ht1.
  - clear E E'. unfold stale. simpl. rewrite Ht1, Ht2. simpl. split; [by eexists|]. intros l [= <-]. by intros [[? ?] ?].
Qed.

Lemma ownership_history_witness :
  exists w p, reachable sample_cfg (w, p) /\ length (st_log (w_store w)) = 7%nat /\
    (forall ms, tables (replay (st_log (w_store w)) (empty_store ms)) = tables (w_store w)) /\
    (forall x, StronglySorted before (acquisitions x (st_log (w_store w)))) /\
    (forall x l, held_at x (w_store w) = Some l ->
       exists a, last (acquisitions x (st_log (w_store w))) = Some a /\ same_tokens a l).
Proof.
  assert (Hn : (fun c : config => length (st_log (w_store (fst c)))) <$> exec sample_cfg ((sample_setup ++ sample_race) ++ [act_run 4 100; act_run 4 100]) sample_start = Some 7%nat)
    by (vm_compute; reflexivity).
  destruct (exec_observe _ _ _ _ _ Hn) as ([w p] & E & Hlen).
  assert (Hr : reachable sample_cfg (w, p)) by (exists ["M0"; "M1"; "M2"]; exact (exec_steps _ _ _ _ E)).
  clear E. exists w, p. split; [done|]. split; [done|]. apply (ownership_history sample_cfg w p Hr).
Defined.

Lemma stale_identity_powerless_witness :
  exists w p, reachable sample_cfg (w, p) /\ stale (of_repository repository_of_M2) (w_store w) /\
    forall e, exists x, assertAuthoritative (of_repository repository_of_M2) e w = (w, Err x).
Proof.
  destruct (exec_observe observe _ _ _ _ race_taken) as ([w p] & E & Ht).
  assert (Hr : reachable sample_cfg (w, p)) by (exists ["M0"; "M1"; "M2"]; exact (exec_steps _ _ _ _ E)).
  clear E. assert (Hs : stale (of_repository repository_of_M2) (w_store w)).
  { injection Ht as Ht1 Ht2 _. unfold stale. simpl. rewrite Ht1, Ht2. simpl. split; [by eexists|]. intros l [= <-]. by intros [[? ?] ?]. }
  exists w, p. split; [done|]. split; [done|].
  apply (stale_identity_powerless sample_cfg w p w p (of_repository repository_of_M2) Hr Hs (rtc_refl _ _)).
Defined.

(** A refused session: another one holds the custody throughout. *)
Definition refused_at (t : Z) : Env := mkEnv t true (claim_held "session 1") true (fun _ => false) [].

Lemma custody_wait_bounded_witness :
  exists w' r, run_async (map refused_at [0; 250; 750; 1250; 1251; 1252]) (claimCustody sample_cfg 1 0) (fst sample_start) = (w', settled r) /\
    r = Err (custody_of_other "session 1" 1000) /\ 1000 <= o_custodyWaitMs (sample_cfg 1).
Proof.
  destruct (custody_wait_bounded sample_cfg 1 0 (map refused_at [0; 250; 750; 1250; 1251; 1252]) (fst sample_start)) as (w' & r & E & H).
  - by vm_compute.
  - by vm_compute.
  - exists w', r. split; [exact E|].
    assert (Hr : r = Err (custody_of_other "session 1" 1000)) by (vm_compute in E; congruence).
    split; [exact Hr|]. apply (H "session 1" 1000 Hr).
    + vm_compute. repeat split; discriminate.
    + intros e es' [= <- _]. by vm_compute.
Defined.

Lemma dispatch_authority_one_epoch_witness :
  let a := pulse 3 (Err flush_failed) (Err flush_failed) (newAuthority lease1 None) in
  a_failure a = None /\ a_consecutiveRenewFailures a = 1 /\ 1 < 3.
Proof.
  set (a := pulse 3 _ _ _). split; [reflexivity|]. split; [reflexivity|].
  change 1 with (a_consecutiveRenewFailures a). change 3 with (o_maxConsecutiveRenewFailures (sample_cfg 0)).
  apply (dispatch_authority_one_epoch sample_cfg 0 lease1 None a).
  - by vm_compute.
  - apply rtc_once. apply (step_pulse sample_cfg 0 (newAuthority lease1 None) (Err flush_failed) (Err flush_failed)); done.
  - reflexivity.
Defined.
