(* ===== verification/CompletionGate.v ===== *)
(** * The completion gate of a mission

    orchestration/completionGate.ts with orchestration/evidence.ts (evidence
    identities), nestedPublicationGate.ts, testRequirement.ts and the explanations of
    recovery.ts, over the records the mission store keeps. The gate decides whether a
    mission may become COMPLETE: the theorems say that its verdict lists a reason
    exactly when it refuses, and what a mission that may complete rests on. *)

From S2P Require Import Prelude JsMap MissionLifecycle Workset.
#[local] Open Scope string_scope.
#[local] Open Scope Z_scope.
Import MissionLifecycle.Task.

(** ** Records: orchestration/types.ts

    Times are the values of [Date.parse]. *)

Record CandidateEvidenceIdentity := mkIdentity {
  workspaceManifestHash : string;
  missionGeneration : Z;
  ci_repoId : string;
  ci_baseSha : string;
  candidateSha : string;
  diffHash : string;
  ci_acceptanceIds : list string;
  artifactHashes : list string
}.
#[export] Instance CandidateEvidenceIdentity_eq_dec : EqDecision CandidateEvidenceIdentity.
Proof. solve_decision. Defined.

Record CandidateRevision := mkCandidate {
  ca_missionId : string;
  ca_taskId : string;
  ca_executionId : string;
  ca_identity : CandidateEvidenceIdentity;
  ca_identityHash : string
}.

Inductive ResultStatus := result_passed | result_failed.
Record AcceptanceEvidenceResult := mkResult { ar_acceptanceId : string; ar_status : ResultStatus }.

(** What validation and review evidence share. *)
Record Evidence := mkEvidence {
  ev_evidenceId : string;
  ev_missionId : string;
  ev_taskId : string;
  ev_executionId : string;
  ev_identity : CandidateEvidenceIdentity;
  ev_identityHash : string;
  ev_accessible : bool;
  ev_acceptanceResults : list AcceptanceEvidenceResult;
  ev_recordedAt : Z
}.
Record ValidationEvidence := mkValidation { va_evidence : Evidence; exitCode : Z; noTargets : bool }.

Inductive ReviewVerdict := approve | request_changes.
Inductive Severity := sev_blocking | sev_major | sev_minor.
Inductive FindingStatus := finding_open | finding_accepted | finding_resolved.
#[export] Instance ReviewVerdict_eq_dec : EqDecision ReviewVerdict.
Proof. solve_decision. Defined.
#[export] Instance Severity_eq_dec : EqDecision Severity.
Proof. solve_decision. Defined.
#[export] Instance FindingStatus_eq_dec : EqDecision FindingStatus.
Proof. solve_decision. Defined.
Record GateFinding := mkFinding { finding_id : string; severity : Severity; finding_status : FindingStatus }.
Record ReviewEvidence := mkReview {
  re_evidence : Evidence;
  verdict : ReviewVerdict;
  re_findings : list (Severity * FindingStatus);
  outputValid : bool
}.

Inductive InvalidationScope := scope_all | scope_validation | scope_review.
#[export] Instance InvalidationScope_eq_dec : EqDecision InvalidationScope.
Proof. solve_decision. Defined.
Record EvidenceInvalidation := mkInvalidation {
  in_missionId : string;
  in_identity : CandidateEvidenceIdentity;
  invalidatedAt : Z;
  in_scope : option InvalidationScope
}.

Record RepositoryBinding := mkBinding { rb_repoId : string; rb_baseSha : string }.
Record WorkspaceManifest := mkManifest { repositories : list RepositoryBinding; manifest_hash : string }.

Inductive IsolationMode := iso_none | iso_worktree.
#[export] Instance IsolationMode_eq_dec : EqDecision IsolationMode.
Proof. solve_decision. Defined.

Record GateTask := mkGateTask {
  gt_id : string;
  gt_mission : string;
  gt_kind : TaskKind;
  gt_role : string;
  gt_objective : string;
  gt_status : TaskStatus;
  gt_mutates_repo : bool;
  gt_isolation : IsolationMode;
  gt_assigned_execution_id : option string;
  gt_completed_at : option Z;
  gt_repo_id : option string;
  gt_acceptance_ids : list string;
  gt_deliverables : list string;
  gt_mission_generation : option Z;
  gt_fencing_token : option Z;
  gt_failure_reason : option string
}.

Inductive ExecutionBackend := be_agent | be_process | be_review | be_integration | be_validation | be_research.
#[export] Instance ExecutionBackend_eq_dec : EqDecision ExecutionBackend.
Proof. solve_decision. Defined.
Inductive ExecutionStatus := ex_PENDING | ex_RUNNING | ex_SUCCEEDED | ex_FAILED | ex_CANCELED.
#[export] Instance ExecutionStatus_eq_dec : EqDecision ExecutionStatus.
Proof. solve_decision. Defined.
Record AlreadySatisfied := mkSatisfied { as_reason : string; as_proof : string }.

Record GateExecution := mkGateExecution {
  ge_id : string;
  ge_task : string;
  ge_mission : string;
  ge_backend : ExecutionBackend;
  ge_status : ExecutionStatus;
  ge_ended_at : option Z;
  ge_exit_status : option string;
  ge_repo_id : option string;
  ge_mission_generation : option Z;
  ge_fencing_token : option Z;
  ge_recovered_merged : list string;
  ge_reviewed_recovered : list string;
  ge_already_satisfied : option AlreadySatisfied
}.

Record TaskSupersession := mkSupersession {
  su_missionId : string;
  su_failedTaskId : string;
  su_replacementTaskIds : list string;
  su_repoId : string;
  su_acceptanceIds : list string;
  su_coverageFingerprint : option string;
  su_recoveryDecisionId : option string
}.

Inductive CriterionStatus := cr_pending | cr_passed | cr_failed.
#[export] Instance CriterionStatus_eq_dec : EqDecision CriterionStatus.
Proof. solve_decision. Defined.
Record AcceptanceCriterion := mkCriterion {
  acceptance_id : option string;
  criterion : string;
  cr_status : CriterionStatus;
  cr_evidence : option string
}.

Inductive RequiredGate :=
| g_validation | g_independent_review | g_security_review | g_migration_validation | g_compatibility_review
| g_dependency_validation.
#[export] Instance RequiredGate_eq_dec : EqDecision RequiredGate.
Proof. solve_decision. Defined.

Record Mission := mkMission {
  mission_id : string;
  acceptance_criteria : list AcceptanceCriterion;
  required_gates : list RequiredGate
}.

Record FailureClassification := mkClassification { fc_missionId : string; fc_taskId : string; fc_category : string; fc_summary : string }.

(** git/GitRepo.ts. *)
Record NestedRepoPublication := mkNested { np_remoteUrl : option string; np_baseSha : string; np_headSha : string; np_publishedSha : option string }.

(** The maps of the mission store the gate reads. [legacyAuthorityLoss] answers the
    pattern match on cancellation texts, and [recoveryAction] the action of a recorded
    recovery decision. *)
Record MissionStore := mkMissionStore {
  st_missions : @jsmap string Mission;
  st_tasks : @jsmap string GateTask;
  st_executions : @jsmap string GateExecution;
  authoritativeExecutionStartOrder : @jsmap string Z;
  st_candidates : @jsmap string CandidateRevision;
  workspaceManifests : @jsmap string WorkspaceManifest;
  validationEvidence : list ValidationEvidence;
  reviewEvidence : list ReviewEvidence;
  evidenceInvalidations : list EvidenceInvalidation;
  taskSupersessions : list TaskSupersession;
  st_findings : list (string * GateFinding);
  latestLeaseGeneration : @jsmap string Z;
  evidenceReplayErrors : @jsmap string (list string);
  failureClassifications : list FailureClassification;
  recoveryAction : @jsmap string string;
  legacyAuthorityLoss : string -> bool
}.

(** ** Queries of the store: orchestration/missionStore.ts *)

(** [missionId ? x.missionId === missionId : true]. *)
Definition in_mission (m x : string) : bool := negb (truthy m) || bool_decide (x = m).

Definition listTasks (m : string) (s : MissionStore) : list GateTask :=
  js_filter (fun t => in_mission m (gt_mission t)) (map_values (st_tasks s)).
Definition listExecutions (m : string) (s : MissionStore) : list GateExecution :=
  js_filter (fun e => in_mission m (ge_mission e)) (map_values (st_executions s)).
Definition listValidationEvidence (m : string) (s : MissionStore) : list ValidationEvidence :=
  js_filter (fun v => in_mission m (ev_missionId (va_evidence v))) (validationEvidence s).
Definition listReviewEvidence (m : string) (s : MissionStore) : list ReviewEvidence :=
  js_filter (fun v => in_mission m (ev_missionId (re_evidence v))) (reviewEvidence s).
Definition listEvidenceInvalidations (m : string) (s : MissionStore) : list EvidenceInvalidation :=
  js_filter (fun v => in_mission m (in_missionId v)) (evidenceInvalidations s).
Definition listTaskSupersessions (m : string) (s : MissionStore) : list TaskSupersession :=
  js_filter (fun v => in_mission m (su_missionId v)) (taskSupersessions s).
Definition listFindings (m : string) (s : MissionStore) : list GateFinding :=
  map snd (js_filter (fun p => in_mission m p.1) (st_findings s)).
Definition listFailureClassifications (m : string) (s : MissionStore) : list FailureClassification :=
  js_filter (fun c => in_mission m (fc_missionId c)) (failureClassifications s).

Definition candidateKey (m repo : string) : string := m +:+ String (ascii_of_N 0) repo.
Definition listCandidates (m : string) (s : MissionStore) : list CandidateRevision :=
  js_filter (fun c => bool_decide (ca_missionId c = m)) (map_values (st_candidates s)).
Definition getCandidate (m : string) (repo : option string) (s : MissionStore) : option CandidateRevision :=
  match repo with
  | Some r => if truthy r then map_get (candidateKey m r) (st_candidates s)
              else match listCandidates m s with [c] => Some c | _ => None end
  | None => match listCandidates m s with [c] => Some c | _ => None end
  end.

Definition startOrder (s : MissionStore) (executionId : string) : option Z :=
  map_get executionId (authoritativeExecutionStartOrder s).

(** [taskSupersessionLeaves]: the tasks that finally stand for a superseded one. A
    lineage being visited is cut, so the recursion is at most as deep as there are
    lineages. *)
Fixpoint leaves (fuel : nat) (s : MissionStore) (visiting : list string) (taskId : string) : list GateTask :=
  match fuel with
  | O => []
  | S fuel' =>
      if js_includes taskId visiting then [] else
      match js_find (fun l => bool_decide (su_failedTaskId l = taskId)) (taskSupersessions s) with
      | None => match map_get taskId (st_tasks s) with Some t => [t] | None => [] end
      | Some lineage => concat (map (leaves fuel' s (visiting ++ [taskId])) (su_replacementTaskIds lineage))
      end
  end.
Definition taskSupersessionLeaves (s : MissionStore) (taskId : string) : list GateTask :=
  leaves (S (length (taskSupersessions s))) s [] taskId.

(** ** Evidence identities: orchestration/evidence.ts *)

Definition required (value field : string) : res string string :=
  let normalized := js_trim value in
  if truthy normalized then Ok normalized else Err ("candidate evidence identity requires " +:+ field).

Fixpoint required_all (values : list string) (field : string) : res string (list string) :=
  match values with
  | [] => Ok []
  | v :: vs => let! v' := required v field in let! vs' := required_all vs field in Ok (v' :: vs')
  end.
(** [[...new Set(normalized)].sort()]; code-unit order on byte strings. *)
Definition canonicalSet (values : list string) (field : string) : res string (list string) :=
  let! normalized := required_all values field in Ok (js_sort String.leb (js_dedup normalized)).

Definition buildCandidateEvidenceIdentity (i : CandidateEvidenceIdentity) : res string CandidateEvidenceIdentity :=
  if missionGeneration i <? 0 then Err "candidate evidence identity requires a non-negative missionGeneration" else
  let! h := required (workspaceManifestHash i) "workspaceManifestHash" in
  let! r := required (ci_repoId i) "repoId" in
  let! b := required (ci_baseSha i) "baseSha" in
  let! c := required (candidateSha i) "candidateSha" in
  let! d := required (diffHash i) "diffHash" in
  let! a := canonicalSet (ci_acceptanceIds i) "acceptanceIds" in
  let! f := canonicalSet (artifactHashes i) "artifactHashes" in
  Ok (mkIdentity h (missionGeneration i) r b c d a f).

(** ** nestedPublicationGate.ts *)

Definition isNestedPublicationAcceptable (r : NestedRepoPublication) : bool :=
  negb (bool_decide (np_headSha r = np_baseSha r)) &&
  (bool_decide (np_publishedSha r = None) || bool_decide (np_publishedSha r = Some (np_headSha r))).
Definition hasAcceptableNestedPublication (records : list NestedRepoPublication) : bool :=
  js_some isNestedPublicationAcceptable records.

(** ** Explanations: orchestration/recovery.ts *)

Definition ex_status_text (s : ExecutionStatus) : string :=
  match s with
  | ex_PENDING => "PENDING" | ex_RUNNING => "RUNNING" | ex_SUCCEEDED => "SUCCEEDED" | ex_FAILED => "FAILED"
  | ex_CANCELED => "CANCELED"
  end.

(** The last attempt that did not succeed, else the last attempt. *)
Definition last_attempt (t : GateTask) (es : list GateExecution) : option GateExecution :=
  let attempts := js_filter (fun e => bool_decide (ge_task e = gt_id t)) es in
  match js_find (fun e => negb (bool_decide (ge_status e = ex_SUCCEEDED))) (reverse attempts) with
  | Some e => Some e
  | None => last attempts
  end.
Definition trimmed (o : option string) : string := match o with Some x => js_trim x | None => "" end.

Definition taskFailureReason (t : GateTask) (es : list GateExecution) (cs : list FailureClassification) : string :=
  let recorded := trimmed (gt_failure_reason t) in
  if truthy recorded then recorded else
  match last_attempt t es with
  | Some e =>
      let outcome := js_dedup (js_filter truthy [trimmed (ge_exit_status e); ex_status_text (ge_status e)]) in
      "execution " +:+ ge_id e +:+ " ended " +:+ js_join " " outcome
  | None =>
      let classification := last (js_filter (fun c => bool_decide (fc_taskId c = gt_id t)) cs) in
      let summary := trimmed (fc_summary <$> classification) in
      if truthy summary then nullish (fc_category <$> classification) "" +:+ ": " +:+ summary
      else "task " +:+ gt_id t +:+ " failed without a recorded reason"
  end.

Definition latestAlreadySatisfied (ts : list GateTask) (es : list GateExecution) : option AlreadySatisfied :=
  let mutators := map gt_id (js_filter gt_mutates_repo ts) in
  last (omap ge_already_satisfied
    (js_filter (fun e => js_includes (ge_task e) mutators && bool_decide (ge_status e = ex_SUCCEEDED)) es)).

Definition alreadySatisfiedClause (a : AlreadySatisfied) : string :=
  " — already_satisfied: a worker asserted the objective needs no change (reason: " +:+ as_reason a +:+ "; proof: " +:+
  as_proof a +:+ ")".

(** [role.includes(text)]. *)
Fixpoint string_includes (s text : string) : bool :=
  js_startsWith s text || match s with EmptyString => false | String _ s' => string_includes s' text end.

(** [xs.some(p)] and [xs.filter(p)] for a predicate that may throw. *)
Fixpoint some_res {A} (p : A -> res string bool) (l : list A) : res string bool :=
  match l with
  | [] => Ok false
  | x :: l' => let! b := p x in if b then Ok true else some_res p l'
  end.
Fixpoint filter_res {A} (p : A -> res string bool) (l : list A) : res string (list A) :=
  match l with
  | [] => Ok []
  | x :: l' => let! b := p x in let! r := filter_res p l' in Ok (if b then x :: r else r)
  end.

(** ** The gate

    SHA-256 over JSON, the pattern that tells whether a criterion asks for tests, and
    the reference sweep of a decision text are parameters. *)
Section Gate.
Context (sha256 : CandidateEvidenceIdentity -> string).
Context (coverage_sha256 : list string * string * string -> string).
Context (criterionRequiresTests : string -> bool).
Context {SweepRecord : Type} (referenceSweepBlockers : SweepRecord -> list string).

Definition hashCandidateEvidenceIdentity (i : CandidateEvidenceIdentity) : res string string :=
  let! c := buildCandidateEvidenceIdentity i in Ok ("sha256:" +:+ sha256 c).
Definition evidenceIdentitiesEqual (a b : CandidateEvidenceIdentity) : res string bool :=
  let! x := hashCandidateEvidenceIdentity a in
  let! y := hashCandidateEvidenceIdentity b in
  Ok (bool_decide (x = y)).
Definition taskCoverageFingerprint (t : GateTask) : res string string :=
  let! objective := required (gt_objective t) "objective" in
  let! repo := required (nullish (gt_repo_id t) "") "repoId" in
  let! deliverables := canonicalSet (gt_deliverables t) "deliverables" in
  Ok ("sha256:" +:+ coverage_sha256 (deliverables, objective, repo)).

Definition noTargetsTestRequirement (criteria : list AcceptanceCriterion) : option string :=
  let demanding := js_filter (fun c => criterionRequiresTests (criterion c)) criteria in
  match demanding with
  | [] => None
  | _ => Some ("acceptance " +:+ js_join ", " (map (fun c => nullish (acceptance_id c) (String (ascii_of_N 34) (criterion c +:+ String (ascii_of_N 34) ""))) demanding)
               +:+ " requires tests but no verification targets were detected (no tests were added)")
  end.

(** What the caller hands to the gate: the nested publications of the mission, and the
    answers of the optional integration check and of the decision sweeps, either of
    which may throw. *)
Record Providers := mkProviders {
  nestedPublicationsFor : list NestedRepoPublication;
  extraBlockers : option (res string (list string));
  decisionSweeps : option (res string (list SweepRecord))
}.

(** *** Which candidate and which evidence are current *)

Definition the_manifest (m : string) (s : MissionStore) : option WorkspaceManifest := map_get m (workspaceManifests s).
Definition first_repo (m : string) (s : MissionStore) : option string :=
  match the_manifest m s with Some w => rb_repoId <$> head (repositories w) | None => None end.
Definition repo_count (m : string) (s : MissionStore) : nat :=
  match the_manifest m s with Some w => length (repositories w) | None => 0%nat end.
Definition multiRepoUnsupported (m : string) (s : MissionStore) : bool := Nat.ltb 1 (repo_count m s).
Definition gate_candidate (m : string) (s : MissionStore) : option CandidateRevision :=
  if multiRepoUnsupported m s then None else getCandidate m (first_repo m s) s.

Definition currentGeneration (m : string) (s : MissionStore) : Z :=
  match map_get m (latestLeaseGeneration s) with
  | Some g => g
  | None => foldl Z.max 0 (map (fun t => nullish (gt_mission_generation t) 0) (listTasks m s))
  end.

Definition candidateCurrent (m : string) (s : MissionStore) : bool :=
  match gate_candidate m s, the_manifest m s with
  | Some c, Some w =>
      bool_decide (workspaceManifestHash (ca_identity c) = manifest_hash w) &&
      (missionGeneration (ca_identity c) =? currentGeneration m s) &&
      js_some (fun r => bool_decide (rb_repoId r = ci_repoId (ca_identity c)) && bool_decide (rb_baseSha r = ci_baseSha (ca_identity c)))
        (repositories w)
  | _, _ => false
  end.

Definition nestedEvidence (p : Providers) (m : string) (s : MissionStore) : bool :=
  negb (candidateCurrent m s) && hasAcceptableNestedPublication (nestedPublicationsFor p).

Definition invalidated (m : string) (s : MissionStore) (kind : InvalidationScope) (e : Evidence) : res string bool :=
  some_res (fun entry =>
    let! h := hashCandidateEvidenceIdentity (in_identity entry) in
    Ok (bool_decide (h = ev_identityHash e) &&
        match in_scope entry with
        | None => true
        | Some sc => bool_decide (sc = scope_all) || bool_decide (sc = kind)
        end && (ev_recordedAt e <=? invalidatedAt entry))) (listEvidenceInvalidations m s).

(** Executions of the candidate's repository with an authoritative start, in start order. *)
Definition repoGateExecutions (m : string) (s : MissionStore) : list GateExecution :=
  match gate_candidate m s with
  | None => []
  | Some c =>
      let order e := nullish (startOrder s (ge_id e)) 0 in
      js_sort (fun a b => order a <=? order b)
        (js_filter (fun e => bool_decide (startOrder s (ge_id e) <> None))
          (js_filter (fun e => bool_decide (ge_repo_id e = Some (ci_repoId (ca_identity c)))) (listExecutions m s)))
  end.
Definition latestExecution (m : string) (s : MissionStore) (b : ExecutionBackend) : option GateExecution :=
  last (js_filter (fun e => bool_decide (ge_backend e = b)) (repoGateExecutions m s)).
Definition latestTask (m : string) (s : MissionStore) (b : ExecutionBackend) : option GateTask :=
  match latestExecution m s b with
  | Some e => js_find (fun t => bool_decide (gt_id t = ge_task e)) (listTasks m s)
  | None => None
  end.

(** Evidence of the latest execution, which succeeded together with its task. *)
Definition of_latest (m : string) (s : MissionStore) (b : ExecutionBackend) (e : Evidence) : bool :=
  match latestTask m s b, latestExecution m s b with
  | Some t, Some x =>
      bool_decide (gt_status t = SUCCEEDED) && bool_decide (gt_id t = ev_taskId e) &&
      bool_decide (gt_assigned_execution_id t = Some (ev_executionId e)) &&
      bool_decide (ge_id x = ev_executionId e) && bool_decide (ge_status x = ex_SUCCEEDED)
  | _, _ => false
  end.

(** The filters that select current evidence, for either kind of it. *)
Definition current_of {A} (head : A -> Evidence) (kind : InvalidationScope) (b : ExecutionBackend) (recorded : list A)
    (m : string) (s : MissionStore) : res string (option A) :=
  match gate_candidate m s with
  | Some c =>
      if candidateCurrent m s then
        let! l1 := filter_res (fun v => if bool_decide (ev_identityHash (head v) = ca_identityHash c)
                                        then evidenceIdentitiesEqual (ev_identity (head v)) (ca_identity c) else Ok false) recorded in
        let! l2 := filter_res (fun v => let! i := invalidated m s kind (head v) in Ok (negb i)) l1 in
        Ok (last (js_filter (fun v => of_latest m s b (head v)) l2))
      else Ok None
  | None => Ok None
  end.
Definition currentValidation (m : string) (s : MissionStore) : res string (option ValidationEvidence) :=
  current_of va_evidence scope_validation be_validation (listValidationEvidence m s) m s.
Definition currentReview (m : string) (s : MissionStore) : res string (option ReviewEvidence) :=
  current_of re_evidence scope_review be_review (listReviewEvidence m s) m s.

Definition validationOk (mission : Mission) (v : option ValidationEvidence) : bool :=
  match v with
  | Some v => ev_accessible (va_evidence v) &&
              (if noTargets v then bool_decide (noTargetsTestRequirement (acceptance_criteria mission) = None) else exitCode v =? 0)
  | None => false
  end.
Definition reviewOk (r : option ReviewEvidence) : bool :=
  match r with
  | Some r => ev_accessible (re_evidence r) && outputValid r && bool_decide (verdict r = approve) &&
              js_every (fun f => negb (bool_decide (f.1 = sev_blocking)) || bool_decide (f.2 = finding_resolved)) (re_findings r)
  | None => false
  end.

(** *** Acceptance criteria *)

Definition cr_status_text (c : CriterionStatus) : string :=
  match c with cr_pending => "pending" | cr_passed => "passed" | cr_failed => "failed" end.

Definition criterion_problem (nested current : bool) (c : option CandidateRevision) (results : list AcceptanceEvidenceResult)
    (cr : AcceptanceCriterion) : list string :=
  let id := nullish (acceptance_id cr) "" in
  if negb (truthy id) then ["material acceptance criterion lacks a stable acceptance ID: " +:+ criterion cr]
  else if nested then []
  else
    match c with
    | Some c =>
        if negb current || negb (js_includes id (ci_acceptanceIds (ca_identity c)))
        then ["acceptance " +:+ id +:+ " lacks current candidate evidence"]
        else if negb (js_some (fun r => bool_decide (ar_acceptanceId r = id) && match ar_status r with result_passed => true | result_failed => false end) results)
        then ["acceptance " +:+ id +:+ " lacks an explicit current passing result"]
        else if negb (bool_decide (cr_status cr = cr_passed)) then ["acceptance " +:+ id +:+ " is " +:+ cr_status_text (cr_status cr)]
        else if negb (bool_decide (cr_evidence cr = Some (ca_identityHash c)))
        then ["acceptance " +:+ id +:+ " is not bound to current evidence"]
        else []
    | None => ["acceptance " +:+ id +:+ " lacks current candidate evidence"]
    end.

Definition results_of (v : option ValidationEvidence) (r : option ReviewEvidence) : list AcceptanceEvidenceResult :=
  (match v with Some v => ev_acceptanceResults (va_evidence v) | None => [] end ++
   match r with Some r => ev_acceptanceResults (re_evidence r) | None => [] end)%list.

(** *** Failed attempts that no longer count *)

Definition kind_backend (b : ExecutionBackend) : option TaskKind :=
  match b with
  | be_validation => Some validation
  | be_review => Some review
  | be_integration => Some integration
  | _ => None
  end.

(** Did every attempt of [t] provably start before the execution [current]? *)
Definition provablyEarlier (m : string) (s : MissionStore) (b : ExecutionBackend) (currentOrder : Z) (t : GateTask) : bool :=
  bool_decide (kind_backend b = Some (gt_kind t)) && bool_decide (gt_status t = FAILED) &&
  let attempts := js_filter (fun e => bool_decide (ge_backend e = b) && bool_decide (ge_task e = gt_id t)) (repoGateExecutions m s) in
  let orders := omap (fun e => startOrder s (ge_id e)) attempts in
  Nat.ltb 0 (length orders) && js_every (fun o => o <? currentOrder) orders.

Definition repoGateTasks (m : string) (s : MissionStore) : list GateTask :=
  match gate_candidate m s with
  | Some c => js_filter (fun t => bool_decide (gt_repo_id t = Some (ci_repoId (ca_identity c)))) (listTasks m s)
  | None => []
  end.

Definition markProvablyEarlierFailedAttempts (m : string) (s : MissionStore) (b : ExecutionBackend) (current : option string)
    (acc : list string) : list string :=
  match current with
  | None => acc
  | Some executionId =>
      match startOrder s executionId with
      | None => acc
      | Some o => foldl (fun acc t => if provablyEarlier m s b o t then set_add (gt_id t) acc else acc) acc (repoGateTasks m s)
      end
  end.

Definition obsoleteGateAttempts (m : string) (mission : Mission) (s : MissionStore) (v : option ValidationEvidence) (r : option ReviewEvidence) : list string :=
  let a1 := if candidateCurrent m s
            then markProvablyEarlierFailedAttempts m s be_integration (ca_executionId <$> gate_candidate m s) [] else [] in
  let a2 := if validationOk mission v
            then markProvablyEarlierFailedAttempts m s be_validation ((ev_executionId ∘ va_evidence) <$> v) a1 else a1 in
  if reviewOk r then markProvablyEarlierFailedAttempts m s be_review ((ev_executionId ∘ re_evidence) <$> r) a2 else a2.

(** *** Superseded tasks *)

(** The execution ended after the replacement was completed, or is the integration
    that produced the current candidate. *)
Definition after_replacement (m : string) (s : MissionStore) (c : CandidateRevision) (t : GateTask) (e : option GateExecution) : bool :=
  match e, gt_completed_at t with
  | Some e, Some done_ =>
      match ge_ended_at e with
      | Some ended =>
          (done_ <? ended) ||
          (candidateCurrent m s && bool_decide (gt_kind t = integration) && bool_decide (ge_task e = gt_id t) &&
           bool_decide (ca_taskId c = gt_id t) && bool_decide (gt_assigned_execution_id t = Some (ge_id e)) &&
           bool_decide (ge_id e = ca_executionId c))
      | None => false
      end
  | _, _ => false
  end.

Definition mutationProofValid (m : string) (mission : Mission) (s : MissionStore) (v : option ValidationEvidence) (r : option ReviewEvidence)
    (failed : option GateTask) (replacements : list GateTask) : bool :=
  let c := gate_candidate m s in
  let requires := match failed with Some f => gt_mutates_repo f | None => false end || bool_decide (is_Some c)
                  || Nat.ltb 0 (length (required_gates mission)) in
  negb requires ||
  match c, v, r with
  | Some c, Some v, Some r =>
      let evidenceExecutions := map (fun id => map_get id (st_executions s))
        [ca_executionId c; ev_executionId (va_evidence v); ev_executionId (re_evidence r)] in
      js_every (fun t => bool_decide (is_Some (gt_completed_at t)) && js_every (after_replacement m s c t) evidenceExecutions) replacements
  | _, _, _ => false
  end.

Definition canceled_by_authority_loss (s : MissionStore) (lineage : TaskSupersession) (f : GateTask) : bool :=
  bool_decide (gt_status f = CANCELED) && legacyAuthorityLoss s (gt_id f) &&
  match su_recoveryDecisionId lineage with
  | Some d => truthy d && bool_decide (map_get d (recoveryAction s) = Some "FENCE_RECONCILE_AND_RESUME")
  | None => false
  end.

Definition lineage_valid (m : string) (mission : Mission) (s : MissionStore) (v : option ValidationEvidence) (r : option ReviewEvidence)
    (lineage : TaskSupersession) : res string bool :=
  match js_find (fun t => bool_decide (gt_id t = su_failedTaskId lineage)) (listTasks m s) with
  | None => Ok false
  | Some f =>
      let replacements := taskSupersessionLeaves s (su_failedTaskId lineage) in
      if (bool_decide (gt_status f = FAILED) || canceled_by_authority_loss s lineage f)
         && bool_decide (gt_repo_id f = Some (su_repoId lineage)) && Nat.ltb 0 (length replacements)
      then
        let! print := taskCoverageFingerprint f in
        Ok (bool_decide (su_coverageFingerprint lineage = Some print) &&
            js_every (fun t => bool_decide (gt_status t = SUCCEEDED) && bool_decide (gt_repo_id t = Some (su_repoId lineage))) replacements &&
            mutationProofValid m mission s v r (Some f) replacements &&
            js_every (fun a => js_includes a (concat (map gt_acceptance_ids replacements))) (su_acceptanceIds lineage))
      else Ok false
  end.

(** Valid lineages and the problems of the others. *)
Fixpoint judge_lineages (m : string) (mission : Mission) (s : MissionStore) (v : option ValidationEvidence) (r : option ReviewEvidence)
    (ls : list TaskSupersession) (acc : list string * list string) : res string (list string * list string) :=
  match ls with
  | [] => Ok acc
  | l :: ls' =>
      let! valid := lineage_valid m mission s v r l in
      judge_lineages m mission s v r ls'
        (if valid then (set_add (su_failedTaskId l) acc.1, acc.2)
         else (acc.1, (acc.2 ++ ["invalid supersession lineage for " +:+ su_failedTaskId l +:+ ": replacement coverage is not successful"])%list))
  end.

(** Tasks whose preserved work was merged by a successful integration and checked by
    the current review. *)
Definition recovered_tasks (m : string) (mission : Mission) (s : MissionStore) (v : option ValidationEvidence) (r : option ReviewEvidence) : list string :=
  match r with
  | Some rv =>
      if validationOk mission v && reviewOk r then
        let es := listExecutions m s in
        let reviewed := match js_find (fun e => bool_decide (ge_id e = ev_executionId (re_evidence rv))) es with
                        | Some e => ge_reviewed_recovered e | None => [] end in
        concat (map (fun e =>
          if bool_decide (ge_backend e = be_integration) && bool_decide (ge_status e = ex_SUCCEEDED)
          then js_filter (fun t => js_includes t reviewed) (ge_recovered_merged e) else []) es)
      else []
  | None => []
  end.

(** *** Problems and the gathered evidence *)

Definition status_text (t : TaskStatus) : string :=
  match t with
  | PENDING => "PENDING" | READY => "READY" | RUNNING => "RUNNING" | WAITING => "WAITING" | SUCCEEDED => "SUCCEEDED"
  | FAILED => "FAILED" | RETRYING => "RETRYING" | CANCELED => "CANCELED" | SKIPPED => "SKIPPED" | BLOCKED => "BLOCKED"
  end.

Definition terminalTaskProblems (ts : list GateTask) (superseded : list string) : list string :=
  map (fun t => "unresolved " +:+ status_text (gt_status t) +:+ " task " +:+ gt_id t)
    (js_filter (fun t => negb (js_includes (gt_id t) superseded))
      (js_filter (fun t => js_includes (gt_status t) [BLOCKED; CANCELED; SKIPPED]) ts)).

Definition activeExecutionProblems (m : string) (s : MissionStore) : list string :=
  map (fun e =>
    let fenced := match map_get (ge_task e) (st_tasks s) with
                  | Some t => bool_decide (ge_mission_generation e = gt_mission_generation t) &&
                              bool_decide (ge_fencing_token e = gt_fencing_token t) &&
                              bool_decide (gt_assigned_execution_id t = Some (ge_id e))
                  | None => false
                  end in
    (if fenced then "active" else "active unfenced") +:+ " execution " +:+ ge_id e +:+ " can still mutate candidate state")
    (js_filter (fun e => bool_decide (ge_status e = ex_RUNNING)) (listExecutions m s)).

Definition multi_repo_text : string := "multi-repository completion requires repository head-vector evidence".

Definition task_kind_text (k : TaskKind) : string :=
  match k with
  | agent => "agent" | process => "process" | review => "review" | integration => "integration"
  | validation => "validation" | approval => "approval" | aggregation => "aggregation" | research => "research"
  end.

Definition missingCandidateCause (p : Providers) (m : string) (s : MissionStore) (superseded obsolete : list string) : string :=
  if negb (candidateCurrent m s) && negb (nestedEvidence p m s) && negb (multiRepoUnsupported m s) then
    match js_find (fun t => bool_decide (gt_status t = FAILED) && negb (js_includes (gt_id t) superseded) &&
                            negb (js_includes (gt_id t) obsolete)) (listTasks m s) with
    | None => ""
    | Some t =>
        "; task " +:+ gt_id t +:+ " (" +:+ task_kind_text (gt_kind t) +:+ ":" +:+ gt_role t +:+ ") failed: " +:+
        taskFailureReason t
          (js_filter (fun e => negb (truthy (gt_id t)) || bool_decide (ge_task e = gt_id t)) (listExecutions m s))
          (listFailureClassifications m s)
    end
  else "".

Definition reviewProblem (p : Providers) (m : string) (s : MissionStore) (cause : string) (r : option ReviewEvidence) : option string :=
  if negb (candidateCurrent m s) then
    if nestedEvidence p m s then None
    else if multiRepoUnsupported m s then Some multi_repo_text
    else Some ("current review evidence is unavailable because no candidate is recorded" +:+ cause)
  else
    match r with
    | None => Some "no current review evidence matches the exact candidate"
    | Some rv =>
        if negb (ev_accessible (re_evidence rv)) then Some "current review evidence is inaccessible"
        else if negb (outputValid rv) then Some "current review evidence is malformed"
        else if bool_decide (verdict rv = request_changes) then Some "current review requested changes"
        else if negb (reviewOk r) then Some "current review has unresolved blocking findings"
        else None
    end.

Definition validationProblem (p : Providers) (m : string) (mission : Mission) (s : MissionStore) (cause : string) (v : option ValidationEvidence) : option string :=
  if negb (candidateCurrent m s) then
    if nestedEvidence p m s then None
    else if multiRepoUnsupported m s then Some multi_repo_text
    else Some ("current validation evidence is unavailable because no candidate is recorded" +:+ cause)
  else
    match v with
    | None => Some "no current validation evidence matches the exact candidate"
    | Some va =>
        if negb (ev_accessible (va_evidence va)) then Some "current validation evidence is inaccessible"
        else if noTargets va then noTargetsTestRequirement (acceptance_criteria mission)
        else if negb (exitCode va =? 0) then Some ("current validation failed with exit code " +:+ js_num (exitCode va))
        else None
    end.

Definition securityReviewed (m : string) (s : MissionStore) (r : option ReviewEvidence) : bool :=
  match r with
  | Some rv => reviewOk r && js_some (fun t => bool_decide (gt_id t = ev_taskId (re_evidence rv)) && bool_decide (gt_kind t = review) &&
                 string_includes (gt_role t) "security" && bool_decide (gt_status t = SUCCEEDED)) (listTasks m s)
  | None => false
  end.

Definition review_findings (r : option ReviewEvidence) : list GateFinding :=
  match r with
  | Some rv => imap (fun k f => mkFinding (ev_evidenceId (re_evidence rv) +:+ ":" +:+ js_num (Z.of_nat k)) f.1 f.2) (re_findings rv)
  | None => []
  end.

Record GateEvidence := mkGateEvidence {
  validationsPassed : Z;
  reviewsCompleted : Z;
  securityReviewsCompleted : Z;
  gathered_findings : list GateFinding;
  recoveredTasks : list string;
  obsoleteAttempts : list string;
  ge_validationProblem : option string;
  ge_reviewProblem : option string;
  acceptanceProblems : list string;
  executionProblems : list string;
  terminalProblems : list string;
  supersessionProblems : list string
}.

Definition gather (p : Providers) (m : string) (s : MissionStore) : res string GateEvidence :=
  match map_get m (st_missions s) with
  | None => Err ("unknown mission " +:+ m)
  | Some mission =>
      let! v := currentValidation m s in
      let! r := currentReview m s in
      let obsolete := obsoleteGateAttempts m mission s v r in
      let! judged := judge_lineages m mission s v r (listTaskSupersessions m s) ([], []) in
      let superseded := foldl (fun acc t => set_add t acc) judged.1 (recovered_tasks m mission s v r) in
      let cause := missingCandidateCause p m s superseded obsolete in
      Ok (mkGateEvidence
            (if validationOk mission v || nestedEvidence p m s then 1 else 0)
            (if reviewOk r || nestedEvidence p m s then 1 else 0)
            (if securityReviewed m s r then 1 else 0)
            (listFindings m s ++ review_findings r)%list
            superseded obsolete
            (validationProblem p m mission s cause v) (reviewProblem p m s cause r)
            ((if multiRepoUnsupported m s then [multi_repo_text] else []) ++
             map (fun e => "quarantined evidence: " +:+ e) (nullish (map_get m (evidenceReplayErrors s)) []) ++
             concat (map (criterion_problem (nestedEvidence p m s) (candidateCurrent m s) (gate_candidate m s) (results_of v r))
               (acceptance_criteria mission)))%list
            (activeExecutionProblems m s)
            (terminalTaskProblems (listTasks m s) superseded)
            judged.2)
  end.

(** A mutating mission cannot complete on a candidate identical to its base. *)
Definition emptyCandidateProblem (m : string) (s : MissionStore) : option string :=
  if negb (Nat.eqb (repo_count m s) 1) then None else
  let repo := first_repo m s in
  let isolatedMutator := js_some (fun t => gt_mutates_repo t && bool_decide (gt_isolation t = iso_worktree) && bool_decide (gt_repo_id t = repo)) (listTasks m s) in
  let asserted := latestAlreadySatisfied (js_filter (fun t => bool_decide (gt_repo_id t = repo)) (listTasks m s)) (listExecutions m s) in
  let suffix := match asserted with Some a => alreadySatisfiedClause a | None => "" end in
  match getCandidate m repo s with
  | None =>
      if isolatedMutator then
        Some ("a mutating task requested worktree isolation but no candidate was ever recorded: nothing proves the repository changed" +:+ suffix)
      else None
  | Some c =>
      if negb (bool_decide (candidateSha (ca_identity c) = ci_baseSha (ca_identity c))) then None
      else if js_some (fun t => gt_mutates_repo t && bool_decide (gt_repo_id t = Some (ci_repoId (ca_identity c)))) (listTasks m s) then
        Some ("the current candidate is identical to its base (empty diff): a mutating mission cannot complete on it" +:+ suffix)
      else None
  end.

(** *** The verdict *)

Record CompletionVerdict := mkVerdict {
  can_complete : bool;
  reasons : list string;
  missing_gates : list RequiredGate;
  unresolved_findings : Z;
  running_tasks : Z;
  superseded_by_recovery : list string
}.

Definition gate_text (g : RequiredGate) : string :=
  match g with
  | g_validation => "validation" | g_independent_review => "independent_review" | g_security_review => "security_review"
  | g_migration_validation => "migration_validation" | g_compatibility_review => "compatibility_review"
  | g_dependency_validation => "dependency_validation"
  end.

(** The reason a required gate is missing, if it is. *)
Definition gate_reason (e : GateEvidence) (g : RequiredGate) : option string :=
  match g with
  | g_validation | g_migration_validation | g_dependency_validation =>
      if validationsPassed e =? 0 then
        Some (nullish (ge_validationProblem e) (gate_text g +:+ " gate required but no current validation evidence exists"))
      else None
  | g_independent_review | g_compatibility_review =>
      if reviewsCompleted e =? 0 then
        Some (nullish (ge_reviewProblem e) (gate_text g +:+ " gate required but no current review evidence exists"))
      else None
  | g_security_review =>
      if securityReviewsCompleted e =? 0 then
        Some (nullish (ge_reviewProblem e) "security_review gate required but no current security review evidence exists")
      else None
  end.

Definition blockers_or (prefix : string) (r : option (res string (list string))) : list string :=
  match r with
  | None => []
  | Some (Ok l) => l
  | Some (Err x) => [prefix +:+ x]
  end.
Definition sweep_answer (p : Providers) : option (res string (list string)) :=
  match decisionSweeps p with
  | None => None
  | Some (Ok records) => Some (Ok (concat (map referenceSweepBlockers records)))
  | Some (Err x) => Some (Err x)
  end.

Definition is_running (t : GateTask) : bool := js_includes (gt_status t) [READY; RUNNING; RETRYING; WAITING; PENDING].
Definition some_reason (b : bool) (text : string) : list string := if b then [text] else [].

Definition evaluate (p : Providers) (mission : Mission) (s : MissionStore) : res string CompletionVerdict :=
  let m := mission_id mission in
  let! e := gather p m s in
  let tasks := listTasks m s in
  let running := js_len (js_filter is_running tasks) in
  let failed := js_len (js_filter (fun t => bool_decide (gt_status t = FAILED) && negb (js_includes (gt_id t) (recoveredTasks e)) &&
                                            negb (js_includes (gt_id t) (obsoleteAttempts e))) tasks) in
  let gateReasons := omap (gate_reason e) (required_gates mission) in
  let missing := js_filter (fun g => bool_decide (is_Some (gate_reason e g))) (required_gates mission) in
  let unresolvedBlocking := js_len (js_filter (fun f => bool_decide (severity f = sev_blocking) && negb (bool_decide (finding_status f = finding_resolved)))
                              (gathered_findings e)) in
  let empty := emptyCandidateProblem m s in
  let integration := blockers_or "integration evidence failed: " (extraBlockers p) in
  let sweep := blockers_or "reference sweep evidence failed: " (sweep_answer p) in
  let reasons :=
    (gateReasons ++ some_reason (0 <? unresolvedBlocking) (js_num unresolvedBlocking +:+ " blocking finding(s) unresolved") ++
     some_reason (0 <? running) (js_num running +:+ " task(s) still running") ++ some_reason (0 <? failed) (js_num failed +:+ " task(s) failed") ++
     terminalProblems e ++ supersessionProblems e ++ executionProblems e ++ acceptanceProblems e ++
     option_list empty ++ integration ++ sweep)%list in
  let structural := (if empty then 1 else 0) + js_len (terminalProblems e) + js_len (supersessionProblems e) + js_len (executionProblems e) +
                    js_len (acceptanceProblems e) + js_len integration + js_len sweep in
  Ok (mkVerdict
        ((js_len missing =? 0) && (unresolvedBlocking =? 0) && (running =? 0) && (failed =? 0) && (structural =? 0))
        (js_dedup reasons) (js_dedup missing) unresolvedBlocking running (recoveredTasks e)).

End Gate.

(** ** Properties *)

Lemma filter_res_elem {A} (p : A -> res string bool) l l' x :
  filter_res p l = Ok l' -> x ∈ l' -> x ∈ l /\ p x = Ok true.
Proof.
  revert l'. induction l as [|y l IH]; intros l'; simpl; [intros [= <-] H; by apply not_elem_of_nil in H|].
  intros (b & Hb & (r & Hr & [= <-])%res_bind_ok)%res_bind_ok. rewrite elem_of_cons. destruct b.
  - rewrite elem_of_cons. intros [->|Hx]; [auto|]. destruct (IH r Hr Hx). auto.
  - intros Hx. destruct (IH r Hr Hx). auto.
Qed.

Lemma some_res_false {A} (p : A -> res string bool) l x : some_res p l = Ok false -> x ∈ l -> p x = Ok false.
Proof.
  induction l as [|y l IH]; simpl; [intros _ H; by apply not_elem_of_nil in H|].
  intros (b & Hb & H)%res_bind_ok. destruct b; [done|]. rewrite elem_of_cons. intros [->|Hx]; auto.
Qed.

Lemma js_len_zero {A} (l : list A) : (js_len l =? 0) = true <-> l = [].
Proof. unfold js_len. rewrite Z.eqb_eq. destruct l; simpl; split; try done; lia. Qed.
Lemma js_len_positive {A} (l : list A) : (0 <? js_len l) = false <-> l = [].
Proof. unfold js_len. rewrite Z.ltb_ge. destruct l; simpl; split; try done; lia. Qed.
Lemma js_len_nonneg {A} (l : list A) : 0 <= js_len l.
Proof. unfold js_len. lia. Qed.

Lemma js_dedup_nil {A} `{EqDecision A} (l : list A) : js_dedup l = [] <-> l = [].
Proof.
  split; [|by intros ->]. intros H. destruct l as [|x l]; [done|]. assert (Hx : x ∈ js_dedup (x :: l)) by (apply js_dedup_elem; left).
  rewrite H in Hx. by apply not_elem_of_nil in Hx.
Qed.

Lemma some_reason_nil b t : some_reason b t = [] <-> b = false.
Proof. by destruct b. Qed.

Lemma omap_nil_filter {A B} (f : A -> option B) l : omap f l = [] <-> js_filter (fun x => bool_decide (is_Some (f x))) l = [].
Proof.
  induction l as [|x l IH]; simpl; [done|]. destruct (f x) as [y|] eqn:E; simpl.
  - done.
  - done.
Qed.

Section GateProofs.
Context (sha256 : CandidateEvidenceIdentity -> string) (coverage_sha256 : list string * string * string -> string).
Context (criterionRequiresTests : string -> bool) {SweepRecord : Type} (referenceSweepBlockers : SweepRecord -> list string).
Notation evaluate := (evaluate sha256 coverage_sha256 criterionRequiresTests referenceSweepBlockers).
Notation gather := (gather sha256 coverage_sha256 criterionRequiresTests).
Notation currentValidation := (currentValidation sha256).
Notation currentReview := (currentReview sha256).
Notation validationOk := (validationOk criterionRequiresTests).

(** The verdict explains itself: a mission may complete exactly when the gate
    lists no reason against it. *)
Theorem completion_iff_no_reasons p mission s v :
  evaluate p mission s = Ok v -> (can_complete v = true <-> reasons v = []).
Proof.
  unfold evaluate. intros (e & _ & [= <-])%res_bind_ok. simpl. rewrite js_dedup_nil.
  set (missing := js_filter _ (required_gates mission)). set (gates := omap _ _).
  assert (Hg : gates = [] <-> missing = []) by apply omap_nil_filter. clearbody gates missing.
  rewrite !andb_true_iff, js_len_zero, !js_len_zero, <- Hg, Z.eqb_eq.
  rewrite !app_nil, !some_reason_nil, !js_len_positive.
  assert (Hlen : forall (A : Type) (l : list A), js_len l = 0 <-> l = []) by (intros A l; rewrite <- Z.eqb_eq; apply js_len_zero).
  assert (Hempty : forall o : option string, option_list o = [] <-> (if o then 1 else 0) = 0) by (by intros [|]).
  rewrite Hempty. rewrite <- (Hlen _ (terminalProblems e)), <- (Hlen _ (supersessionProblems e)), <- (Hlen _ (executionProblems e)),
    <- (Hlen _ (acceptanceProblems e)).
  set (i := blockers_or "integration evidence failed: " _). set (w := blockers_or "reference sweep evidence failed: " _).
  rewrite <- (Hlen _ i), <- (Hlen _ w).
  pose proof (js_len_nonneg (terminalProblems e)). pose proof (js_len_nonneg (supersessionProblems e)).
  pose proof (js_len_nonneg (executionProblems e)). pose proof (js_len_nonneg (acceptanceProblems e)).
  pose proof (js_len_nonneg i). pose proof (js_len_nonneg w).
  destruct (emptyCandidateProblem _ _); split; intros; destruct_and?; split_and?; try done; lia.
Qed.

(** *** What current evidence is *)

(** An execution of the candidate's repository with an authoritative start [o]. *)
Definition started (m : string) (s : MissionStore) (c : CandidateRevision) (b : ExecutionBackend) (x : GateExecution) (o : Z) : Prop :=
  x ∈ listExecutions m s /\ ge_backend x = b /\ ge_repo_id x = Some (ci_repoId (ca_identity c)) /\ startOrder s (ge_id x) = Some o.

(** Evidence that is recorded for exactly the candidate, was not invalidated since, and
    stems from the last execution of its kind in the repository, which succeeded as
    did its task. *)
Record current_evidence (kind : InvalidationScope) (b : ExecutionBackend) (m : string) (s : MissionStore) (c : CandidateRevision) (e : Evidence) : Prop := mkCurrent {
  ce_hash : ev_identityHash e = ca_identityHash c;
  ce_identity : exists h, hashCandidateEvidenceIdentity sha256 (ev_identity e) = Ok h /\ hashCandidateEvidenceIdentity sha256 (ca_identity c) = Ok h;
  ce_valid : forall entry, entry ∈ listEvidenceInvalidations m s ->
    hashCandidateEvidenceIdentity sha256 (in_identity entry) = Ok (ev_identityHash e) ->
    (in_scope entry = None \/ in_scope entry = Some scope_all \/ in_scope entry = Some kind) -> invalidatedAt entry < ev_recordedAt e;
  ce_latest : exists x o, started m s c b x o /\ ge_id x = ev_executionId e /\ ge_status x = ex_SUCCEEDED /\
    forall y o', started m s c b y o' -> o' <= o;
  ce_task : exists t, t ∈ listTasks m s /\ gt_id t = ev_taskId e /\ gt_status t = SUCCEEDED /\
    gt_assigned_execution_id t = Some (ev_executionId e)
}.

Lemma latestExecution_spec m s c b x :
  gate_candidate m s = Some c -> latestExecution m s b = Some x ->
  exists o, started m s c b x o /\ forall y o', started m s c b y o' -> o' <= o.
Proof.
  unfold latestExecution, repoGateExecutions. intros Hc. rewrite Hc. set (order := fun e => nullish (startOrder s (ge_id e)) 0).
  set (le := fun a b => order a <=? order b). set (l := js_filter _ (js_filter _ (listExecutions m s))).
  intros Hlast.
  assert (Hl : forall y o', started m s c b y o' <-> y ∈ js_filter (fun e => bool_decide (ge_backend e = b)) (js_sort le l) /\ startOrder s (ge_id y) = Some o').
  { intros y o'. unfold l. rewrite js_filter_elem, js_sort_perm, !js_filter_elem, !bool_decide_eq_true. unfold started.
    split; [intros (? & ? & ? & E); rewrite E; split_and!; done|intros [[[[] ?] ?] ?]; split_and!; done]. }
  assert (Hx : x ∈ js_filter (fun e => bool_decide (ge_backend e = b)) (js_sort le l)) by (by apply last_Some_elem_of).
  assert (exists o, startOrder s (ge_id x) = Some o) as [o Ho].
  { rewrite js_filter_elem, js_sort_perm in Hx. unfold l in Hx. rewrite !js_filter_elem, !bool_decide_eq_true in Hx.
    destruct Hx as [[_ Hx] _]. destruct (startOrder s (ge_id x)); [eauto|done]. }
  exists o. split; [by apply Hl|]. intros y o' [Hy Ho']%Hl.
  assert (Hle : le y x = true).
  { eapply (sorted_last le); [..|exact Hlast|exact Hy].
    - intros a1 a2. unfold le. rewrite !Z.leb_le. lia.
    - apply js_filter_sorted, js_sort_sorted; unfold le; intros *; rewrite ?Z.leb_le; lia. }
  unfold le, order in Hle. rewrite Ho, Ho' in Hle. simpl in Hle. by apply Z.leb_le in Hle.
Qed.

Lemma of_latest_spec m s c b e :
  gate_candidate m s = Some c -> of_latest m s b e = true ->
  (exists x o, started m s c b x o /\ ge_id x = ev_executionId e /\ ge_status x = ex_SUCCEEDED /\ forall y o', started m s c b y o' -> o' <= o) /\
  (exists t, t ∈ listTasks m s /\ gt_id t = ev_taskId e /\ gt_status t = SUCCEEDED /\ gt_assigned_execution_id t = Some (ev_executionId e)).
Proof.
  intros Hc. unfold of_latest, latestTask. destruct (latestExecution m s b) as [x|] eqn:Ex; [|done].
  destruct (js_find _ (listTasks m s)) as [t|] eqn:Et; [|done]. intros H. bool_to_prop.
  apply js_find_some in Et as [Ht _]. destruct (latestExecution_spec _ _ _ _ _ Hc Ex) as (o & Ho & Hmax). split.
  - exists x, o. done.
  - exists t. done.
Qed.

Lemma current_of_spec {A} (head : A -> Evidence) kind b recorded m s v :
  current_of sha256 head kind b recorded m s = Ok (Some v) ->
  exists c, gate_candidate m s = Some c /\ candidateCurrent m s = true /\ v ∈ recorded /\ current_evidence kind b m s c (head v).
Proof.
  unfold current_of. destruct (gate_candidate m s) as [c|] eqn:Ec; [|done]. destruct (candidateCurrent m s); [|done].
  intros (l1 & H1 & (l2 & H2 & [= H3])%res_bind_ok)%res_bind_ok. exists c. split_and!; [done|done| |].
  all: pose proof (last_Some_elem_of _ _ H3) as Hv; apply js_filter_elem in Hv as [Hv2 Hlatest];
    destruct (filter_res_elem _ _ _ _ H2 Hv2) as [Hv1 Hinv]; destruct (filter_res_elem _ _ _ _ H1 Hv1) as [Hv Hid].
  - done.
  - apply res_bind_ok in Hinv as (i & Hi & [= Hneg%negb_true_iff]). subst i.
    destruct (bool_decide _) eqn:Eh in Hid; [|done]. bool_to_prop. unfold evidenceIdentitiesEqual in Hid.
    apply res_bind_ok in Hid as (x & Hx & (y & Hy & [= Hxy])%res_bind_ok). bool_to_prop. subst y.
    destruct (of_latest_spec m s c b (head v) Ec Hlatest) as [HL HT]. constructor; [done|eauto| |done|done].
    intros entry Hentry Hhash Hscope. pose proof (some_res_false _ _ _ Hi Hentry) as Hno. cbv beta in Hno. rewrite Hhash in Hno. simpl in Hno.
    injection Hno as Hno. rewrite bool_decide_true in Hno by done. simpl in Hno.
    assert (E : match in_scope entry with None => true | Some sc => bool_decide (sc = scope_all) || bool_decide (sc = kind) end = true).
    { destruct Hscope as [->|[->| ->]]; [done|by rewrite bool_decide_true|]. by rewrite (bool_decide_true (kind = kind)), orb_true_r. }
    rewrite E in Hno. simpl in Hno. by apply Z.leb_gt in Hno.
Qed.

(** Validation that passed, review that approved. *)
Definition validated (m : string) (stored : Mission) (s : MissionStore) (v : ValidationEvidence) : Prop :=
  v ∈ listValidationEvidence m s /\ ev_accessible (va_evidence v) = true /\
  (if noTargets v then noTargetsTestRequirement criterionRequiresTests (acceptance_criteria stored) = None else exitCode v = 0).
Definition approved (m : string) (s : MissionStore) (r : ReviewEvidence) : Prop :=
  r ∈ listReviewEvidence m s /\ ev_accessible (re_evidence r) = true /\ outputValid r = true /\ verdict r = approve /\
  forall sv st, (sv, st) ∈ re_findings r -> sv = sev_blocking -> st = finding_resolved.

(** The candidate is the one of the manifest, at its base and at the current lease
    generation. *)
Definition candidate_is_current (m : string) (s : MissionStore) (c : CandidateRevision) : Prop :=
  gate_candidate m s = Some c /\ exists w, the_manifest m s = Some w /\ (length (repositories w) <= 1)%nat /\
    workspaceManifestHash (ca_identity c) = manifest_hash w /\ missionGeneration (ca_identity c) = currentGeneration m s /\
    mkBinding (ci_repoId (ca_identity c)) (ci_baseSha (ca_identity c)) ∈ repositories w.

Lemma candidateCurrent_spec m s c : gate_candidate m s = Some c -> candidateCurrent m s = true -> candidate_is_current m s c.
Proof.
  intros Hc. unfold candidateCurrent. rewrite Hc. destruct (the_manifest m s) as [w|] eqn:Ew; [|done]. intros H.
  split; [done|]. exists w. bool_to_prop. split_and!; try done.
  - unfold gate_candidate, multiRepoUnsupported, repo_count in Hc. rewrite Ew in Hc.
    destruct (Nat.ltb 1 (length (repositories w))) eqn:E; [done|]. by apply Nat.ltb_ge in E.
  - apply js_some_true in H0 as ([r b] & Hr & H0). bool_to_prop. simpl in *. by subst.
Qed.

Lemma validation_spec m stored s v :
  currentValidation m s = Ok v -> validationOk stored v = true ->
  exists va c, v = Some va /\ candidate_is_current m s c /\ validated m stored s va /\
    current_evidence scope_validation be_validation m s c (va_evidence va).
Proof.
  intros H Hok. destruct v as [va|]; [|done]. destruct (current_of_spec _ _ _ _ _ _ _ H) as (c & Hc & Hcur & Hva & Hce).
  exists va, c. split_and!; [done|by apply candidateCurrent_spec| |done]. simpl in Hok. bool_to_prop. split_and!; [done|done|].
  destruct (noTargets va); bool_to_prop; done.
Qed.

Lemma review_spec m s r :
  currentReview m s = Ok r -> reviewOk r = true ->
  exists rv c, r = Some rv /\ candidate_is_current m s c /\ approved m s rv /\
    current_evidence scope_review be_review m s c (re_evidence rv).
Proof.
  intros H Hok. destruct r as [rv|]; [|done]. destruct (current_of_spec _ _ _ _ _ _ _ H) as (c & Hc & Hcur & Hva & Hce).
  exists rv, c. split_and!; [done|by apply candidateCurrent_spec| |done]. simpl in Hok. bool_to_prop. split_and!; try done.
  intros sv st Hf ->. match goal with Hev : js_every _ _ = true |- _ => rewrite js_every_true in Hev; pose proof (Hev _ Hf) as Hx end.
  simpl in Hx. by apply bool_decide_eq_true in Hx.
Qed.

(** *** Tasks that stand in for others *)

Lemma set_add_elem (x y : string) l : x ∈ set_add y l <-> x = y \/ x ∈ l.
Proof.
  unfold set_add. destruct (js_includes y l) eqn:E; [|set_solver]. apply js_includes_true in E. set_solver.
Qed.

Lemma set_adds_elem x (ys l : list string) : x ∈ foldl (fun acc t => set_add t acc) l ys <-> x ∈ ys \/ x ∈ l.
Proof. revert l. induction ys as [|y ys IH]; intros l; simpl; [set_solver|]. rewrite IH, set_add_elem. set_solver. Qed.

(** [id] is replaced by successful tasks that cover its acceptance ids, or its
    preserved work was merged by a successful integration and the approving review of
    the current candidate was asked to check it. *)
Definition superseded_ok (m : string) (s : MissionStore) (id : string) : Prop :=
  (exists l, l ∈ listTaskSupersessions m s /\ su_failedTaskId l = id /\ taskSupersessionLeaves s id <> [] /\
     (forall t, t ∈ taskSupersessionLeaves s id -> gt_status t = SUCCEEDED /\ gt_repo_id t = Some (su_repoId l)) /\
     (forall a, a ∈ su_acceptanceIds l -> exists t, t ∈ taskSupersessionLeaves s id /\ a ∈ gt_acceptance_ids t)) \/
  (exists x y rv c, x ∈ listExecutions m s /\ ge_backend x = be_integration /\ ge_status x = ex_SUCCEEDED /\ id ∈ ge_recovered_merged x /\
     candidate_is_current m s c /\ approved m s rv /\ current_evidence scope_review be_review m s c (re_evidence rv) /\
     y ∈ listExecutions m s /\ ge_id y = ev_executionId (re_evidence rv) /\ id ∈ ge_reviewed_recovered y).

Lemma lineage_valid_spec m stored s v r l :
  lineage_valid coverage_sha256 m stored s v r l = Ok true ->
  taskSupersessionLeaves s (su_failedTaskId l) <> [] /\
  (forall t, t ∈ taskSupersessionLeaves s (su_failedTaskId l) -> gt_status t = SUCCEEDED /\ gt_repo_id t = Some (su_repoId l)) /\
  (forall a, a ∈ su_acceptanceIds l -> exists t, t ∈ taskSupersessionLeaves s (su_failedTaskId l) /\ a ∈ gt_acceptance_ids t).
Proof.
  unfold lineage_valid. destruct (js_find _ _) as [f|]; [|done]. generalize (taskSupersessionLeaves s (su_failedTaskId l)). intros ts.
  destruct ((_ && _) && Nat.ltb 0 (length ts)) eqn:E; [|done]. intros (print & _ & [= H])%res_bind_ok.
  rewrite !andb_true_iff, !js_every_true in H. destruct H as [[[_ Hall] _] Hcover]. bool_to_prop. split_and!.
  - intros ->. simpl in *. lia.
  - intros t Ht. specialize (Hall t Ht). by bool_to_prop.
  - intros a Ha. specialize (Hcover a Ha). rewrite js_includes_true in Hcover.
    apply list_elem_of_In, in_concat in Hcover as (ids & Hids & Hin%list_elem_of_In).
    apply in_map_iff in Hids as (t & <- & Ht%list_elem_of_In). eauto.
Qed.

Lemma judge_lineages_elem m stored s v r ls acc out x :
  judge_lineages coverage_sha256 m stored s v r ls acc = Ok out -> x ∈ out.1 ->
  x ∈ acc.1 \/ exists l, l ∈ ls /\ su_failedTaskId l = x /\ lineage_valid coverage_sha256 m stored s v r l = Ok true.
Proof.
  revert acc. induction ls as [|l ls IH]; intros acc; simpl; [intros [= <-]; auto|].
  intros (b & Hb & H)%res_bind_ok Hx. destruct (IH _ H Hx) as [Hacc|(l' & Hl' & ?)].
  - destruct b; simpl in Hacc; [|auto]. apply set_add_elem in Hacc as [->|]; [|auto]. right. exists l. split; [left|done].
  - right. exists l'. split; [by right|done].
Qed.

Lemma recovered_elem m stored s v r x :
  currentReview m s = Ok r -> x ∈ recovered_tasks criterionRequiresTests m stored s v r -> superseded_ok m s x.
Proof.
  intros Hr. unfold recovered_tasks. destruct r as [rv|]; [|intros H; by apply not_elem_of_nil in H].
  destruct (validationOk stored v && reviewOk (Some rv)) eqn:E; [|intros H; by apply not_elem_of_nil in H]. bool_to_prop.
  destruct (review_spec _ _ _ Hr H0) as (rv' & c & [= <-] & Hc & Ha & Hce).
  intros Hx. apply list_elem_of_In, in_concat in Hx as (ids & Hids & Hin%list_elem_of_In).
  apply in_map_iff in Hids as (e & <- & He%list_elem_of_In).
  destruct (bool_decide _ && bool_decide _) eqn:Ee in Hin; [|by apply not_elem_of_nil in Hin]. bool_to_prop.
  apply js_filter_elem in Hin as [Hmerged Hreviewed%js_includes_true].
  destruct (js_find _ (listExecutions m s)) as [y|] eqn:Ey; [|by apply not_elem_of_nil in Hreviewed].
  apply js_find_some in Ey as [Hy Hid]. bool_to_prop. right. exists e, y, rv, c. done.
Qed.

(** [id] is a failed gate attempt that provably started before the execution behind
    the current candidate, the passing validation or the approving review. *)
Definition obsolete_ok (m : string) (stored : Mission) (s : MissionStore) (id : string) : Prop :=
  exists b c o t, candidate_is_current m s c /\ t ∈ listTasks m s /\ gt_id t = id /\ gt_status t = FAILED /\ kind_backend b = Some (gt_kind t) /\
    (exists x o', started m s c b x o' /\ ge_task x = id) /\
    (forall x o', started m s c b x o' -> ge_task x = id -> o' < o) /\
    ((b = be_integration /\ startOrder s (ca_executionId c) = Some o) \/
     (b = be_validation /\ exists va, validated m stored s va /\ current_evidence scope_validation be_validation m s c (va_evidence va) /\
        startOrder s (ev_executionId (va_evidence va)) = Some o) \/
     (b = be_review /\ exists rv, approved m s rv /\ current_evidence scope_review be_review m s c (re_evidence rv) /\
        startOrder s (ev_executionId (re_evidence rv)) = Some o)).

Lemma started_gate m s c b x o :
  gate_candidate m s = Some c ->
  (started m s c b x o <-> x ∈ repoGateExecutions m s /\ ge_backend x = b /\ startOrder s (ge_id x) = Some o).
Proof.
  intros Hc. unfold repoGateExecutions. rewrite Hc, js_sort_perm, !js_filter_elem, !bool_decide_eq_true. unfold started.
  split; [intros (? & ? & ? & E); rewrite E; split_and!; done|intros ([[] _] & ? & ?); split_and!; done].
Qed.

Lemma mark_elem m s c b exec acc x :
  gate_candidate m s = Some c -> x ∈ markProvablyEarlierFailedAttempts m s b exec acc ->
  x ∈ acc \/ exists id o t, exec = Some id /\ startOrder s id = Some o /\ t ∈ listTasks m s /\ gt_id t = x /\ gt_status t = FAILED /\
    kind_backend b = Some (gt_kind t) /\ (exists y o', started m s c b y o' /\ ge_task y = x) /\
    (forall y o', started m s c b y o' -> ge_task y = x -> o' < o).
Proof.
  intros Hc. unfold markProvablyEarlierFailedAttempts. destruct exec as [id|]; [|auto]. destruct (startOrder s id) as [o|] eqn:Eo; [|auto].
  assert (Hin : forall t, t ∈ repoGateTasks m s -> t ∈ listTasks m s).
  { intros t. unfold repoGateTasks. rewrite Hc, js_filter_elem. by intros []. }
  revert acc. induction (repoGateTasks m s) as [|t ts IH]; intros acc; simpl; [auto|]. intros Hx.
  destruct (IH ltac:(intros t' Ht'; apply Hin; by right) _ Hx) as [Hacc|?]; [|auto].
  destruct (provablyEarlier m s b o t) eqn:Ep; [|auto]. apply set_add_elem in Hacc as [->|]; [|auto]. right. exists id, o, t.
  unfold provablyEarlier in Ep. rewrite !andb_true_iff, js_every_true in Ep. destruct Ep as [[Hk Hf] [Hsome Hall]]. bool_to_prop.
  split_and!; try done; [apply Hin; left| |].
  - set (orders := omap _ _) in *. destruct orders as [|o' os] eqn:E; [simpl in Hsome; lia|].
    assert (Ho' : o' ∈ orders) by (rewrite E; left). apply list_elem_of_omap in Ho' as (y & Hy & Hyo).
    apply js_filter_elem in Hy as [Hy Hb]. bool_to_prop. exists y, o'. rewrite (started_gate _ _ _ _ _ _ Hc). done.
  - intros y o' [Hy [Hb Hyo]]%(started_gate _ _ _ _ _ _ Hc) Ht. apply Z.ltb_lt, Hall. apply list_elem_of_omap. exists y.
    split; [|done]. apply js_filter_elem. split; [done|]. by rewrite !bool_decide_true.
Qed.

(** *** What a mission that may complete rests on *)

Definition has_validation (m : string) (stored : Mission) (s : MissionStore) : Prop :=
  exists va c, candidate_is_current m s c /\ validated m stored s va /\ current_evidence scope_validation be_validation m s c (va_evidence va).
Definition has_review (m : string) (s : MissionStore) (extra : ReviewEvidence -> Prop) : Prop :=
  exists rv c, candidate_is_current m s c /\ approved m s rv /\ current_evidence scope_review be_review m s c (re_evidence rv) /\ extra rv.
Definition security_task (m : string) (s : MissionStore) (rv : ReviewEvidence) : Prop :=
  exists t, t ∈ listTasks m s /\ gt_id t = ev_taskId (re_evidence rv) /\ gt_kind t = review /\ string_includes (gt_role t) "security" = true /\
    gt_status t = SUCCEEDED.

(** A criterion that passed, with an explicit result in current evidence. *)
Definition criterion_met (m : string) (s : MissionStore) (cr : AcceptanceCriterion) (id : string) : Prop :=
  exists c r, candidate_is_current m s c /\ id ∈ ci_acceptanceIds (ca_identity c) /\ cr_status cr = cr_passed /\
    cr_evidence cr = Some (ca_identityHash c) /\ ar_acceptanceId r = id /\ ar_status r = result_passed /\
    ((exists va, current_evidence scope_validation be_validation m s c (va_evidence va) /\ r ∈ ev_acceptanceResults (va_evidence va)) \/
     (exists rv, current_evidence scope_review be_review m s c (re_evidence rv) /\ r ∈ ev_acceptanceResults (re_evidence rv))).

Record completion_basis (p : @Providers SweepRecord) (mission stored : Mission) (s : MissionStore) : Prop := mkBasis {
  cb_validation : forall g, g ∈ required_gates mission -> g ∈ [g_validation; g_migration_validation; g_dependency_validation] ->
    nestedEvidence p (mission_id mission) s = true \/ has_validation (mission_id mission) stored s;
  cb_review : forall g, g ∈ required_gates mission -> g ∈ [g_independent_review; g_compatibility_review] ->
    nestedEvidence p (mission_id mission) s = true \/ has_review (mission_id mission) s (fun _ => True);
  cb_security : g_security_review ∈ required_gates mission -> has_review (mission_id mission) s (security_task (mission_id mission) s);
  cb_criteria : forall cr, cr ∈ acceptance_criteria stored -> exists id, acceptance_id cr = Some id /\
    (nestedEvidence p (mission_id mission) s = true \/ criterion_met (mission_id mission) s cr id);
  cb_tasks : forall t, t ∈ listTasks (mission_id mission) s ->
    gt_status t = SUCCEEDED \/
    (gt_status t = FAILED /\ (superseded_ok (mission_id mission) s (gt_id t) \/ obsolete_ok (mission_id mission) stored s (gt_id t))) \/
    (gt_status t ∈ [BLOCKED; CANCELED; SKIPPED] /\ superseded_ok (mission_id mission) s (gt_id t));
  cb_executions : forall x, x ∈ listExecutions (mission_id mission) s -> ge_status x <> ex_RUNNING;
  cb_findings : forall f, f ∈ listFindings (mission_id mission) s -> severity f = sev_blocking -> finding_status f = finding_resolved;
  cb_change : forall t c, t ∈ listTasks (mission_id mission) s -> repo_count (mission_id mission) s = 1%nat -> gt_mutates_repo t = true ->
    getCandidate (mission_id mission) (first_repo (mission_id mission) s) s = Some c -> gt_repo_id t = Some (ci_repoId (ca_identity c)) ->
    candidateSha (ca_identity c) <> ci_baseSha (ca_identity c)
}.

Lemma obsolete_elem m stored s v r x :
  currentValidation m s = Ok v -> currentReview m s = Ok r ->
  x ∈ obsoleteGateAttempts criterionRequiresTests m stored s v r -> obsolete_ok m stored s x.
Proof.
  intros Hv Hr. unfold obsoleteGateAttempts.
  assert (H1 : forall y, y ∈ (if candidateCurrent m s then markProvablyEarlierFailedAttempts m s be_integration (ca_executionId <$> gate_candidate m s) [] else []) ->
    obsolete_ok m stored s y).
  { intros y Hy. destruct (candidateCurrent m s) eqn:Ecur; [|by apply not_elem_of_nil in Hy].
    destruct (gate_candidate m s) as [c|] eqn:Ec; [|by unfold candidateCurrent in Ecur; rewrite Ec in Ecur].
    destruct (mark_elem _ _ c _ _ _ _ Ec Hy) as [Hn|(id & o & t & [= <-] & Ho & ?)]; [by apply not_elem_of_nil in Hn|].
    exists be_integration, c, o, t. destruct_and?. split_and!; try done; [by apply candidateCurrent_spec|]. by left. }
  revert H1. generalize (if candidateCurrent m s then markProvablyEarlierFailedAttempts m s be_integration (ca_executionId <$> gate_candidate m s) [] else []).
  intros a1 H1. cbv zeta.
  assert (H2 : forall y, y ∈ (if validationOk stored v then markProvablyEarlierFailedAttempts m s be_validation ((ev_executionId ∘ va_evidence) <$> v) a1 else a1) ->
    obsolete_ok m stored s y).
  { intros y Hy. destruct (validationOk stored v) eqn:Ok; [|auto]. destruct (validation_spec _ _ _ _ Hv Ok) as (va & c & -> & Hc & Hval & Hce).
    destruct (mark_elem _ _ c _ _ _ _ (proj1 Hc) Hy) as [?|(id & o & t & [= <-] & Ho & ?)]; [auto|].
    exists be_validation, c, o, t. destruct_and?. split_and!; try done. right. left. eauto. }
  revert H2. generalize (if validationOk stored v then markProvablyEarlierFailedAttempts m s be_validation ((ev_executionId ∘ va_evidence) <$> v) a1 else a1).
  intros a2 H2. destruct (reviewOk r) eqn:Ok; [|auto]. intros Hy. destruct (review_spec _ _ _ Hr Ok) as (rv & c & -> & Hc & Hval & Hce).
  destruct (mark_elem _ _ c _ _ _ _ (proj1 Hc) Hy) as [?|(id & o & t & [= <-] & Ho & ?)]; [auto|].
  exists be_review, c, o, t. destruct_and?. split_and!; try done. right. right. eauto.
Qed.

Lemma criterion_problem_nil (p : @Providers SweepRecord) m s v r cr :
  currentValidation m s = Ok v -> currentReview m s = Ok r ->
  criterion_problem (nestedEvidence p m s) (candidateCurrent m s) (gate_candidate m s) (results_of v r) cr = [] ->
  exists id, acceptance_id cr = Some id /\ (nestedEvidence p m s = true \/ criterion_met m s cr id).
Proof.
  intros Hv Hr. unfold criterion_problem. destruct (acceptance_id cr) as [id|]; simpl; [|done]. destruct (truthy id); simpl; [|done].
  intros H. exists id. split; [done|]. destruct (nestedEvidence p m s); [by left|]. right.
  destruct (gate_candidate m s) as [c|] eqn:Ec; [|done]. destruct (candidateCurrent m s) eqn:Ecur; [|done]. simpl in H.
  destruct (js_includes id _) eqn:Ei in H; [|done]. simpl in H. destruct (js_some _ _) eqn:Es in H; [|done]. simpl in H.
  destruct (bool_decide (cr_status cr = cr_passed)) eqn:Ep; [|done]. simpl in H.
  destruct (bool_decide (cr_evidence cr = _)) eqn:Ee; [|done]. bool_to_prop.
  apply js_some_true in Es as (x & Hx & Hres). bool_to_prop. destruct (ar_status x) eqn:Ex; [|done].
  exists c, x. split_and!; try done; [by apply candidateCurrent_spec|by apply js_includes_true|].
  unfold results_of in Hx. apply elem_of_app in Hx as [Hx|Hx].
  - left. destruct v as [va|]; [|by apply not_elem_of_nil in Hx]. destruct (current_of_spec _ _ _ _ _ _ _ Hv) as (c' & Hc' & _ & _ & Hce).
    rewrite Ec in Hc'. injection Hc' as <-. eauto.
  - right. destruct r as [rv|]; [|by apply not_elem_of_nil in Hx]. destruct (current_of_spec _ _ _ _ _ _ _ Hr) as (c' & Hc' & _ & _ & Hce).
    rewrite Ec in Hc'. injection Hc' as <-. eauto.
Qed.

Lemma terminal_nil ts superseded t :
  terminalTaskProblems ts superseded = [] -> t ∈ ts -> gt_status t ∈ [BLOCKED; CANCELED; SKIPPED] -> gt_id t ∈ superseded.
Proof.
  intros H%map_eq_nil Hin Hs. rewrite js_filter_nil in H. apply js_includes_true, negb_false_iff, H, js_filter_elem.
  split; [done|]. by apply js_includes_true.
Qed.

(** The facts a positive verdict gives about the gathered evidence. *)
Lemma evaluate_complete p mission s v :
  evaluate p mission s = Ok v -> can_complete v = true ->
  exists e, gather p (mission_id mission) s = Ok e /\
    (forall g, g ∈ required_gates mission -> gate_reason e g = None) /\
    (forall f, f ∈ gathered_findings e -> severity f = sev_blocking -> finding_status f = finding_resolved) /\
    (forall t, t ∈ listTasks (mission_id mission) s -> is_running t = false /\
       (gt_status t = FAILED -> gt_id t ∈ recoveredTasks e \/ gt_id t ∈ obsoleteAttempts e)) /\
    emptyCandidateProblem (mission_id mission) s = None /\
    terminalProblems e = [] /\ executionProblems e = [] /\ acceptanceProblems e = [].
Proof.
  unfold evaluate. intros (e & He & [= <-])%res_bind_ok. simpl. intros H. exists e. split; [done|].
  rewrite !andb_true_iff, !js_len_zero, Z.eqb_eq, !js_filter_nil in H. destruct H as [[[[Hg Hf] Hr] Hx] Hs].
  pose proof (js_len_nonneg (terminalProblems e)). pose proof (js_len_nonneg (supersessionProblems e)).
  pose proof (js_len_nonneg (executionProblems e)). pose proof (js_len_nonneg (acceptanceProblems e)).
  pose proof (js_len_nonneg (blockers_or "integration evidence failed: " (extraBlockers p))).
  pose proof (js_len_nonneg (blockers_or "reference sweep evidence failed: " (sweep_answer referenceSweepBlockers p))).
  assert (Hlen : forall (A : Type) (l : list A), js_len l = 0 <-> l = []) by (intros A l; rewrite <- Z.eqb_eq; apply js_len_zero).
  rewrite <- !Hlen. split_and!.
  - intros g Hin. specialize (Hg g Hin). apply bool_decide_eq_false in Hg. destruct (gate_reason e g); [|done]. exfalso. eauto.
  - intros f Hin Hsev. specialize (Hf f Hin). rewrite Hsev in Hf. destruct (finding_status f); done.
  - intros t Ht. split; [by apply Hr|]. intros Hfail. specialize (Hx t Ht). rewrite Hfail in Hx. simpl in Hx.
    destruct (js_includes (gt_id t) (recoveredTasks e)) eqn:E1; [left; by apply js_includes_true|].
    destruct (js_includes (gt_id t) (obsoleteAttempts e)) eqn:E2; [right; by apply js_includes_true|done].
  - destruct (emptyCandidateProblem _ _); [lia|done].
  - destruct (emptyCandidateProblem _ _); lia.
  - destruct (emptyCandidateProblem _ _); lia.
  - destruct (emptyCandidateProblem _ _); lia.
Qed.

(** C5: a mission the gate lets complete rests on current evidence. Unless the mission
    has no current candidate and an acceptable publication in a nested repository stands
    in ([nestedEvidence]), every required validation gate has a passing validation and every
    required independent or compatibility review gate an approving review, of exactly the
    current candidate, stemming from the latest execution of its kind and not invalidated
    since, and every acceptance criterion passed on that candidate with an explicit result. With
    or without nested publications, a required security gate has such a review by a security task;
    every criterion has an id; every task succeeded, was superseded by successful ones, or is an
    attempt older than the evidence that counts; nothing is running; no blocking finding is
    open; and the candidate of a mission with one repository and a mutating task there is not its base. *)
Theorem completion_rests_on_evidence p mission s v :
  evaluate p mission s = Ok v -> can_complete v = true ->
  exists stored, map_get (mission_id mission) (st_missions s) = Some stored /\ completion_basis p mission stored s.
Proof.
  intros Hev Hc. destruct (evaluate_complete _ _ _ _ Hev Hc) as (e & He & Hg & Hf & Ht & Hempty & Hterm & Hact & Hacc).
  unfold gather in He. destruct (map_get (mission_id mission) (st_missions s)) as [stored|]; [|done]. exists stored. split; [done|].
  apply res_bind_ok in He as (va & Hva & (rv & Hrv & (judged & Hj & [= <-])%res_bind_ok)%res_bind_ok). simpl in *.
  assert (Hsup : forall x, x ∈ foldl (fun acc t => set_add t acc) judged.1 (recovered_tasks criterionRequiresTests (mission_id mission) stored s va rv) ->
    superseded_ok (mission_id mission) s x).
  { intros x [Hx|Hx]%set_adds_elem; [by eapply recovered_elem|].
    destruct (judge_lineages_elem _ _ _ _ _ _ _ _ _ Hj Hx) as [Hn|(l & Hl & Hid & Hval)]; [by apply not_elem_of_nil in Hn|].
    left. exists l. subst x. destruct (lineage_valid_spec _ _ _ _ _ _ Hval) as (? & ? & ?). done. }
  apply app_nil in Hacc as [Hmulti [Hquar Hcrit]%app_nil]. rewrite concat_map_nil in Hcrit.
  constructor.
  - intros g Hin Hkind. specialize (Hg g Hin). destruct (nestedEvidence p _ s); [by left|]. right. rewrite orb_false_r in Hg.
    assert (Hok : validationOk stored va = true).
    { destruct (validationOk stored va) eqn:E; [done|]. destruct g; simpl in Hg; rewrite ?E in Hg; simpl in Hg; try done; set_solver. }
    destruct (validation_spec _ _ _ _ Hva Hok) as (v1 & c & -> & ?). exists v1, c. naive_solver.
  - intros g Hin Hkind. specialize (Hg g Hin). destruct (nestedEvidence p _ s); [by left|]. right. rewrite orb_false_r in Hg.
    assert (Hok : reviewOk rv = true).
    { destruct (reviewOk rv) eqn:E; [done|]. destruct g; simpl in Hg; rewrite ?E in Hg; simpl in Hg; try done; set_solver. }
    destruct (review_spec _ _ _ Hrv Hok) as (r1 & c & -> & ?). exists r1, c. naive_solver.
  - intros Hin. specialize (Hg _ Hin). simpl in Hg. destruct (securityReviewed _ s rv) eqn:E; [|done].
    unfold securityReviewed in E. destruct rv as [r1|]; [|done]. apply andb_true_iff in E as [Hok Hsome].
    destruct (review_spec _ _ _ Hrv Hok) as (r2 & c & [= <-] & ?). exists r1, c. destruct_and?. split_and!; try done.
    apply js_some_true in Hsome as (t & Hin' & Hs). bool_to_prop. exists t. done.
  - intros cr Hin. eapply criterion_problem_nil; eauto.
  - intros t Hin. destruct (Ht t Hin) as [Hrun Hfail]. destruct (gt_status t) eqn:Es;
      try (exfalso; unfold is_running in Hrun; rewrite Es in Hrun; done).
    + by left.
    + right. left. split; [done|]. destruct (Hfail eq_refl) as [Hx|Hx]; [left; auto|right; by eapply obsolete_elem].
    + right. right. split; [set_solver|]. apply Hsup, (terminal_nil _ _ _ Hterm Hin). rewrite Es. set_solver.
    + right. right. split; [set_solver|]. apply Hsup, (terminal_nil _ _ _ Hterm Hin). rewrite Es. set_solver.
    + right. right. split; [set_solver|]. apply Hsup, (terminal_nil _ _ _ Hterm Hin). rewrite Es. set_solver.
  - intros x Hin Hrun. unfold activeExecutionProblems in Hact. apply map_eq_nil in Hact. rewrite js_filter_nil in Hact. specialize (Hact x Hin).
    by apply bool_decide_eq_false in Hact.
  - intros f Hin. apply Hf. apply elem_of_app. by left.
  - intros t c Hin Hrepo Hmut Hcand Hid Heq. unfold emptyCandidateProblem in Hempty. rewrite Hrepo, Hcand in Hempty. simpl in Hempty.
    rewrite bool_decide_true in Hempty by done. simpl in Hempty.
    destruct (js_some _ _) eqn:Es in Hempty; [done|]. rewrite js_some_false in Es. specialize (Es t Hin). rewrite Hmut, bool_decide_true in Es by done. done.
Qed.
End GateProofs.

(** The fuel of [taskSupersessionLeaves] is enough: more of it changes nothing. *)
Definition unvisited (s : MissionStore) (visiting : list string) : list string :=
  js_filter (fun k => negb (js_includes k visiting)) (map su_failedTaskId (taskSupersessions s)).

Lemma leaves_stable s n n' visiting id :
  (length (unvisited s visiting) < n)%nat -> (length (unvisited s visiting) < n')%nat -> leaves n s visiting id = leaves n' s visiting id.
Proof.
  revert n' visiting id. induction n as [|n IH]; intros n' visiting id Hn Hn'; [lia|]. destruct n' as [|n']; [lia|]. simpl.
  destruct (js_includes id visiting) eqn:Ev; [done|]. destruct (js_find _ (taskSupersessions s)) as [l|] eqn:El; [|done].
  apply js_find_some in El as [Hl Hid]. bool_to_prop.
  assert (Hlt : (length (unvisited s (visiting ++ [id])) < length (unvisited s visiting))%nat).
  { apply (js_filter_lt _ _ _ id); [|rewrite <- Hid; by apply list_elem_of_fmap_2|by rewrite Ev|].
    - intros k Hk. apply negb_true_iff, js_includes_false. apply negb_true_iff, js_includes_false in Hk. set_solver.
    - apply negb_false_iff, js_includes_true. set_solver. }
  f_equal. apply map_ext_in. intros r _. apply IH; lia.
Qed.

Lemma leaves_fuel s n id : (length (taskSupersessions s) < n)%nat -> leaves n s [] id = taskSupersessionLeaves s id.
Proof.
  intros Hn. assert (length (unvisited s []) <= length (taskSupersessions s))%nat.
  { unfold unvisited. etransitivity; [apply js_filter_length|]. by rewrite length_map. }
  apply leaves_stable; lia.
Qed.

(** ** Concrete missions *)

Definition sample_identity : CandidateEvidenceIdentity := mkIdentity "manifest" 1 "repo" "base" "head" "diff" ["AC-1"] [].
Definition sample_sha (i : CandidateEvidenceIdentity) : string := candidateSha i +:+ ":" +:+ ci_baseSha i.
Definition sample_coverage (c : list string * string * string) : string := c.1.2.
Definition sample_hash : string := "sha256:head:base".
Definition sample_candidate : CandidateRevision := mkCandidate "M" "T" "E0" sample_identity sample_hash.
Definition sample_evidence (id task execution : string) : Evidence :=
  mkEvidence id "M" task execution sample_identity sample_hash true [mkResult "AC-1" result_passed] 10.
Definition gate_task (id : string) (k : TaskKind) (st : TaskStatus) (execution : string) : GateTask :=
  mkGateTask id "M" k "worker" "objective" st (bool_decide (k = agent)) iso_worktree (Some execution) (Some 5) (Some "repo") ["AC-1"] [] (Some 1) (Some 1) None.
Definition gate_execution (id task : string) (b : ExecutionBackend) (st : ExecutionStatus) : GateExecution :=
  mkGateExecution id task "M" b st (Some 6) None (Some "repo") (Some 1) (Some 1) [] [] None.
Definition sample_mission : Mission :=
  mkMission "M" [mkCriterion (Some "AC-1") "works" cr_passed (Some sample_hash)] [g_validation; g_independent_review].

(** A mission whose first validation failed and whose second one passed. *)
Definition sample_store : MissionStore :=
  mkMissionStore [("M", sample_mission)]
    [("T", gate_task "T" agent SUCCEEDED "E0"); ("V0", gate_task "V0" validation FAILED "E1");
     ("V1", gate_task "V1" validation SUCCEEDED "E2"); ("R", gate_task "R" review SUCCEEDED "E3")]
    [("E0", gate_execution "E0" "T" be_agent ex_SUCCEEDED); ("E1", gate_execution "E1" "V0" be_validation ex_FAILED);
     ("E2", gate_execution "E2" "V1" be_validation ex_SUCCEEDED); ("E3", gate_execution "E3" "R" be_review ex_SUCCEEDED)]
    [("E0", 1); ("E1", 2); ("E2", 3); ("E3", 4)]
    [(candidateKey "M" "repo", sample_candidate)] [("M", mkManifest [mkBinding "repo" "base"] "manifest")]
    [mkValidation (sample_evidence "EV" "V1" "E2") 0 false] [mkReview (sample_evidence "ER" "R" "E3") approve [] true]
    [] [] [] [("M", 1)] [] [] [] (fun _ => false).
Definition no_providers : @Providers unit := mkProviders [] None None.
Definition sample_evaluate (p : @Providers unit) (s : MissionStore) : res string CompletionVerdict :=
  evaluate sample_sha sample_coverage (fun _ => false) (fun _ => []) p sample_mission s.
Definition accepted : CompletionVerdict := mkVerdict true [] [] 0 0 [].

Lemma sample_completes : sample_evaluate no_providers sample_store = Ok accepted.
Proof. vm_compute. reflexivity. Qed.

Lemma completion_iff_no_reasons_witness : can_complete accepted = true <-> reasons accepted = [].
Proof.
  apply (completion_iff_no_reasons sample_sha sample_coverage (fun _ => false) (fun _ : unit => []) no_providers sample_mission sample_store).
  exact sample_completes.
Defined.

Lemma completion_rests_on_evidence_witness :
  exists stored, map_get "M" (st_missions sample_store) = Some stored /\
    completion_basis sample_sha (fun _ => false) no_providers sample_mission stored sample_store.
Proof.
  apply (completion_rests_on_evidence sample_sha sample_coverage (fun _ => false) (fun _ : unit => []) no_providers sample_mission sample_store accepted);
    [exact sample_completes|reflexivity].
Defined.

(** The same mission before its candidate is recorded; a nested repository with a
    remote has a commit that was never pushed: [publishedSha] is [None]. *)
Definition unpushed : NestedRepoPublication := mkNested (Some "git@host:product.git") "old" "new" None.
Definition nested_store : MissionStore :=
  mkMissionStore [("M", sample_mission)] [("T", mkGateTask "T" "M" agent "worker" "objective" SUCCEEDED true iso_none (Some "E0") (Some 5) (Some "repo") ["AC-1"] [] (Some 1) (Some 1) None)]
    [("E0", gate_execution "E0" "T" be_agent ex_SUCCEEDED)] [("E0", 1)] [] [("M", mkManifest [mkBinding "repo" "base"] "manifest")]
    [] [] [] [] [] [("M", 1)] [] [] [] (fun _ => false).

Definition verdict_of (r : res string CompletionVerdict) : option CompletionVerdict := match r with Ok v => Some v | Err _ => None end.

(** Unpushed nested work completes a mission. A nested repository that has a
    remote but whose new commit is not there is recorded with no published sha; the
    gate takes that for a repository without a remote, and the mission completes with
    neither validation nor review, while a push of an older commit would have been
    refused. *)
Theorem unpushed_nested_work_completes :
  np_remoteUrl unpushed <> None /\ np_publishedSha unpushed <> Some (np_headSha unpushed) /\
  sample_evaluate (mkProviders [unpushed] None None) nested_store = Ok accepted /\
  validationEvidence nested_store = [] /\ reviewEvidence nested_store = [] /\
  can_complete <$> verdict_of (sample_evaluate (mkProviders [mkNested (Some "git@host:product.git") "old" "new" (Some "old")] None None) nested_store) = Some false.
Proof. split_and!; [done|done|vm_compute; reflexivity|done|done|vm_compute; reflexivity]. Qed.
