(* ===== verification/FailureRecovery.v ===== *)
(** * Failure classification and the recovery planner (src/orchestration/recovery.ts)

    [Classify]: the category a failure's text, status and code map to, with every
    pattern of the source, the failures of gate tasks, and the fingerprint that
    identifies a failure. [Planner]: the decision on a classified failure from the
    durable history of decisions. Times are milliseconds; SHA-256 over a record,
    [Date.parse] and [toISOString] are parameters. *)

From stdpp Require sorting.
From S2P Require Import Prelude JsMap Regex Workset.

Open Scope string_scope.
Open Scope Z_scope.

Inductive FailureCategory :=
  | WORKSPACE_SCOPE_MISMATCH | EVIDENCE_UNAVAILABLE | TASK_BUDGET_EXHAUSTED | PROVIDER_TRANSIENT | PROVIDER_PERMANENT
  | INVALID_WORKER_OUTPUT | VALIDATION_FAILED | REVIEW_FAILED | IMPLEMENTATION_DEFECT | MERGE_CONFLICT
  | AUTHORIZATION_OR_CREDENTIAL | REQUIREMENT_AMBIGUITY | ORPHANED_EXECUTION | DEADLOCKED_DAG | PERSISTENCE_FAILURE
  | DISK_SUSPENDED.
#[export] Instance FailureCategory_eq_dec : EqDecision FailureCategory.
Proof. solve_decision. Defined.

Inductive RecoveryAction :=
  | REBUILD_WORKSPACE_MANIFEST | RECONSTRUCT_EVIDENCE | CHECKPOINT_SPLIT_AND_REPLACE | PROBE_AND_BACKOFF
  | REPAIR_WORKER_OUTPUT | CREATE_REPAIR_TASKS | REBUILD_INTEGRATION_CANDIDATE | FENCE_RECONCILE_AND_RESUME
  | WAIT_FOR_REQUIREMENT | PAUSE_FOR_PERSISTENCE | REPAIR_BLOCKED_MISSION | STOP.
#[export] Instance RecoveryAction_eq_dec : EqDecision RecoveryAction.
Proof. solve_decision. Defined.

Inductive RecoveryStatus := rs_planned | rs_started | rs_succeeded | rs_failed | rs_exhausted.
#[export] Instance RecoveryStatus_eq_dec : EqDecision RecoveryStatus.
Proof. solve_decision. Defined.

Module Classify.

Record FailureEvidence := mkFailure {
  fe_missionId : string;
  fe_taskId : option string;
  fe_executionId : option string;
  fe_summary : string;
  fe_evidenceRefs : option (list string);
  fe_providerStatus : option Z;
  fe_providerCode : option string;
  fe_observedAt : option string;
  fe_category : option FailureCategory
}.

Record FailureClassification := mkClassification {
  fc_classificationId : string;
  fc_missionId : string;
  fc_taskId : option string;
  fc_executionId : option string;
  fc_category : FailureCategory;
  fc_evidenceRefs : list string;
  fc_fingerprint : string;
  fc_summary : string;
  fc_classifiedAt : string;
  fc_blockerEpisodeId : option string
}.

(** [summary.trim().toLowerCase().replace(/\s+/g, " ")] *)
Definition normalizedSummary (s : string) : string :=
  replace_all (plus (RSet is_space)) (fun _ _ => " ") (js_lower (js_trim s)).

Definition upper_ascii (c : ascii) : ascii :=
  let n := N_of_ascii c in if (97 <=? n)%N && (n <=? 122)%N then ascii_of_N (n - 32) else c.
Fixpoint js_upper (s : string) : string :=
  match s with EmptyString => EmptyString | String c s' => String (upper_ascii c) (js_upper s') end.

(** *** Patterns *)

Definition anything : regex := star (RSet (cneg (cunion (fun c => bool_decide (c = ascii_of_N 10)) (fun c => bool_decide (c = ascii_of_N 13))))).
Definition any_char : regex := RSet (cneg (cunion (fun c => bool_decide (c = ascii_of_N 10)) (fun c => bool_decide (c = ascii_of_N 13)))).
Definition words (l : list string) : regex := alts (map lit l).

Definition ALREADY_SATISFIED_MARKER : string := "already_satisfied".
Definition NO_CHANGE_LOOP_PREVENTED_MARKER : string := "loop_prevented_no_change_vs_base".
(** [s.includes(t)] *)
Definition includes (s t : string) : bool := test (lit t) s.

Definition LOST_OWNERSHIP : regex := lit "no longer authoritative".
Definition CONTEXT_OVERFLOW : regex := (lit "context" · RSet (one_of "_ ") · lit "overflow")%re.
Definition DISK : regex :=
  alts [lit "enospc"; lit "no space left on device"; (lit "disk " · words ["full"; "pressure"; "space"])%re;
        lit "storage pressure"; (lit "disk" · RSet (one_of "- ") · lit "suspend")%re].
Definition CAPACITY : regex :=
  alts [lit "inferweave_backpressure"; lit "backpressure"; lit "no capacity right now"; lit "has no capacity";
        (lit "capacity " · words ["hold"; "unavailable"])%re; lit "gateway capacity"; lit "overloaded"].
Definition model_superseded : regex := (lit "model" · RSet (one_of "_ ") · lit "superseded")%re.
Definition SERVING : regex :=
  alts [model_superseded; lit "gateway capacity hold"; lit "capacity hold:"; (lit "http 400" · anything · lit "grammar")%re;
        lit "failed to parse grammar"; lit "failed to initialize samplers"].
Definition WORKSPACE : regex := words ["workspace"; "scope mismatch"; "role-access"; "repository mismatch"].
Definition EVIDENCE : regex :=
  alts [(lit "evidence" · anything · words ["unavailable"; "missing"; "inaccessible"])%re; lit "candidate evidence unavailable"].
Definition BUDGET : regex :=
  alts [lit "budget exhausted"; lit "execution budget"; lit "deadline exceeded";
        (lit "wall" · any_char · lit "clock " · words ["timeout"; "limit"])%re].
Definition CREDENTIAL : regex :=
  alts [(lit "invalid" · anything · words ["api key"; "credential"; "model"; "config"])%re;
        (lit "model" · anything · words ["not found"; "does not exist"])%re;
        (RWord · opt (lit "o") · lit "auth" · opt (words ["entication"; "enticate"; "orization"; "orize"; "orized"]) · RWord)%re;
        (lit "unauthori" · RSet (one_of "sz") · lit "ed")%re; lit "forbidden";
        (RWord · lit "40" · RSet (one_of "13") · RWord)%re; lit "credential";
        (RWord · lit "token " · words ["expired"; "revoked"; "invalid"])%re;
        (RWord · words ["expired"; "revoked"; "invalid"] · lit " " · opt (words ["access "; "refresh "; "bearer "]) · lit "token" · RWord)%re].
Definition PROVIDER_WORDS : regex := words ["provider"; "api key"; "model"; "config"].
Definition ORPHAN : regex := words ["orphan"; "no owner"; "stale owner"].
Definition NETWORK : regex :=
  words ["429"; "502"; "503"; "504"; "rate limit"; "network"; "econn"; "temporar"; "gateway"; "timeout"; "connection reset"].
Definition SCHEMA : regex := words ["schema"; "invalid worker output"; "malformed output"].
Definition VALIDATION : regex :=
  alts [lit "validation"; lit "test suite"; (lit "test" · opt (lit "s") · lit " failed")%re; lit "compile"; lit "typecheck"].
Definition REVIEW : regex := alts [lit "review"; (lit "request" · opt (lit "ed") · lit " changes")%re].
Definition DEFECT : regex := words ["implementation defect"; "bug in"; "defect in"].
Definition CONFLICT : regex := words ["merge conflict"; "unmerged"; "integration conflict"].
Definition AUTHORIZATION : regex := words ["authorization"; "credential"; "permission"; "unauthorized"; "forbidden"].
Definition REQUIREMENT : regex := words ["requirement"; "ambiguous"; "clarification"].
Definition DEADLOCK : regex := words ["deadlock"; "dependency graph"; "cyclic dependency"].
Definition PERSIST : regex := words ["persist"; "durable write"; "event store"; "jsonl"].
Definition TRANSPORT : regex :=
  alts [lit "connection error"; lit "connection closed"; (lit "stream ended without " · opt (lit "a ") · lit "finish_reason")%re;
        lit "no worker_result"; (words ["missing"; "empty"] · lit " worker_result")%re].
Definition GATE_TRANSPORT_SIGNATURE : regex :=
  alts [lit_i "connection error"; lit_i "connection closed";
        (lit_i "stream ended without " · opt (lit_i "a ") · lit_i "finish_reason")%re;
        (lit_i "model" · RSet (one_of "_ ") · lit_i "superseded")%re; lit_i "gateway capacity hold"; lit_i "capacity hold:";
        (lit_i "http 400" · anything · lit_i "grammar")%re; lit_i "failed to parse grammar"; lit_i "failed to initialize samplers"].

(** *** The classifier *)

Definition status_category (status : option Z) : option FailureCategory :=
  match status with
  | Some s => if js_includes s [408; 425; 429; 500; 502; 503; 504] then Some PROVIDER_TRANSIENT
              else if 400 <=? s then Some PROVIDER_PERMANENT else None
  | None => None
  end.

Definition code_category (code : option string) : option FailureCategory :=
  match code with
  | Some c => let c := js_upper (js_trim c) in
              if negb (truthy c) then None
              else if js_includes c ["ECONNRESET"; "ECONNREFUSED"; "ETIMEDOUT"; "EAI_AGAIN"; "RATE_LIMITED"; "OVERLOADED"]
              then Some PROVIDER_TRANSIENT else Some PROVIDER_PERMANENT
  | None => None
  end.

(** The signatures of the text that are tried one after the other. *)
Fixpoint first_signature (rules : list (regex * FailureCategory)) (s : string) : option FailureCategory :=
  match rules with
  | [] => None
  | (r, c) :: rules' => if test r s then Some c else first_signature rules' s
  end.

(** The signatures before the provider's status and code. *)
Definition early_rules : list (regex * FailureCategory) := [
  (lit ALREADY_SATISFIED_MARKER, REQUIREMENT_AMBIGUITY); (lit NO_CHANGE_LOOP_PREVENTED_MARKER, REQUIREMENT_AMBIGUITY);
  (CONTEXT_OVERFLOW, TASK_BUDGET_EXHAUSTED); (DISK, DISK_SUSPENDED); (CAPACITY, PROVIDER_TRANSIENT)].
(** Those before the credential words. *)
Definition middle_rules : list (regex * FailureCategory) := [
  (SERVING, PROVIDER_TRANSIENT); (WORKSPACE, WORKSPACE_SCOPE_MISMATCH); (EVIDENCE, EVIDENCE_UNAVAILABLE);
  (BUDGET, TASK_BUDGET_EXHAUSTED); (LOST_OWNERSHIP, ORPHANED_EXECUTION)].
(** Those after them. *)
Definition late_rules : list (regex * FailureCategory) := [
  (ORPHAN, ORPHANED_EXECUTION); (NETWORK, PROVIDER_TRANSIENT); (lit "provider", PROVIDER_PERMANENT);
  (SCHEMA, INVALID_WORKER_OUTPUT); (VALIDATION, VALIDATION_FAILED); (REVIEW, REVIEW_FAILED); (DEFECT, IMPLEMENTATION_DEFECT);
  (CONFLICT, MERGE_CONFLICT); (AUTHORIZATION, AUTHORIZATION_OR_CREDENTIAL); (REQUIREMENT, REQUIREMENT_AMBIGUITY);
  (ORPHAN, ORPHANED_EXECUTION); (DEADLOCK, DEADLOCKED_DAG); (PERSIST, PERSISTENCE_FAILURE); (TRANSPORT, PROVIDER_TRANSIENT)].

Definition or_next {A} (a b : option A) : option A := match a with Some _ => a | None => b end.

Definition credential_category (s : string) : option FailureCategory :=
  if test CREDENTIAL s then Some (if test PROVIDER_WORDS s then PROVIDER_PERMANENT else AUTHORIZATION_OR_CREDENTIAL) else None.

Definition inferRecognizedCategory (e : FailureEvidence) : option FailureCategory :=
  let s := normalizedSummary (fe_summary e) in
  or_next (first_signature early_rules s)
    (or_next (status_category (fe_providerStatus e))
      (or_next (code_category (fe_providerCode e))
        (or_next (first_signature middle_rules s)
          (or_next (credential_category s) (first_signature late_rules s))))).

Definition inferCategory (e : FailureEvidence) : FailureCategory := nullish (inferRecognizedCategory e) PROVIDER_TRANSIENT.

(** The category [classify] settles on. *)
Definition settled_category (e : FailureEvidence) : FailureCategory :=
  let s := normalizedSummary (fe_summary e) in
  if bool_decide (is_Some (fe_category e)) && test LOST_OWNERSHIP s then ORPHANED_EXECUTION
  else if includes s ALREADY_SATISFIED_MARKER || includes s NO_CHANGE_LOOP_PREVENTED_MARKER then REQUIREMENT_AMBIGUITY
  else match fe_category e with Some c => c | None => inferCategory e end.

(** [[...new Set(refs ?? [])].sort()] *)
Definition string_le (a b : string) : bool := negb (String.ltb b a).
Definition canonical_refs (refs : option (list string)) : list string := js_sort string_le (js_dedup (nullish refs [])).

(** What the fingerprint is taken of. *)
Record FingerprintInput := mkFingerprint {
  fp_missionId : string;
  fp_taskId : option string;
  fp_category : FailureCategory;
  fp_summary : string;
  fp_evidenceRefs : list string
}.

Section Hash.
(** The hexadecimal SHA-256 of the JSON of the input. *)
Context (hash : FingerprintInput -> string) (epoch : string).

Definition failureFingerprint (e : FailureEvidence) (category : FailureCategory) : string :=
  "sha256:" +:+ hash (mkFingerprint (fe_missionId e) (fe_taskId e) category (normalizedSummary (fe_summary e))
                        (canonical_refs (fe_evidenceRefs e))).

Definition classify (e : FailureEvidence) : FailureClassification :=
  let category := settled_category e in
  let fingerprint := failureFingerprint e category in
  mkClassification ("FC-" +:+ String.substring 7 20 fingerprint) (fe_missionId e) (fe_taskId e) (fe_executionId e) category
    (canonical_refs (fe_evidenceRefs e)) fingerprint (js_trim (fe_summary e)) (nullish (fe_observedAt e) epoch) None.

(** *** Gate tasks *)

Inductive Severity := blocking | other_severity.
Record OutcomeReview := mkOutcomeReview {
  or_request_changes : bool; or_findings : list Severity; or_outputValid : bool; or_accessible : bool }.
Record OutcomeValidation := mkOutcomeValidation { ov_accessible : bool; ov_noTargets : bool; ov_exitCode : Z }.
Record ExecutionOutcome := mkOutcome {
  oc_exitStatus : string;
  oc_summary : string;
  oc_checksFailed : bool;
  oc_error : option string;
  oc_findings : option (list Severity);
  oc_review : option OutcomeReview;
  oc_validation : option OutcomeValidation
}.
#[export] Instance Severity_eq_dec : EqDecision Severity.
Proof. solve_decision. Defined.

Definition GATE_INFRASTRUCTURE_CATEGORIES : list FailureCategory :=
  [PROVIDER_TRANSIENT; PROVIDER_PERMANENT; INVALID_WORKER_OUTPUT; ORPHANED_EXECUTION; EVIDENCE_UNAVAILABLE].

Definition is_blocking (s : Severity) : bool := bool_decide (s = blocking).

Definition integrationChecksFailed (o : option ExecutionOutcome) : bool :=
  match o with
  | None => false
  | Some o => if bool_decide (oc_exitStatus o = "conflict") then false
              else oc_checksFailed o || test (RBegin · lit "verification failed at stage:")%re (nullish (oc_error o) "")
  end.

Definition reviewKeptFindings (o : option ExecutionOutcome) : bool :=
  match o with
  | Some o => match oc_review o with
              | Some r => or_request_changes r && negb (bool_decide (or_findings r = [])) &&
                          (0 <? js_len (nullish (oc_findings o) []))
              | None => false
              end
  | None => false
  end.

(** The fallback on the backend's own words. *)
Definition reported_text (e : FailureEvidence) (o : option ExecutionOutcome) : string :=
  match o with
  | Some o => js_join ": " (js_filter truthy ((match oc_error o with Some x => [x] | None => [] end) ++ [oc_summary o])%list)
  | None => fe_summary e
  end.

Definition with_summary (e : FailureEvidence) (s : string) : FailureEvidence :=
  mkFailure (fe_missionId e) (fe_taskId e) (fe_executionId e) s (fe_evidenceRefs e) (fe_providerStatus e) (fe_providerCode e)
    (fe_observedAt e) (fe_category e).
Definition with_category (e : FailureEvidence) (c : FailureCategory) : FailureEvidence :=
  mkFailure (fe_missionId e) (fe_taskId e) (fe_executionId e) (fe_summary e) (fe_evidenceRefs e) (fe_providerStatus e)
    (fe_providerCode e) (fe_observedAt e) (Some c).

Definition text_reports_verdict (e : FailureEvidence) (o : option ExecutionOutcome) : bool :=
  let reported := reported_text e o in
  if negb (truthy (js_trim reported)) then false
  else if test (lit_i "git provider") reported then true
  else match inferRecognizedCategory (with_summary e reported) with
       | None => true
       | Some c => negb (js_includes c GATE_INFRASTRUCTURE_CATEGORIES)
       end.

Definition gateReportedVerdict (kind : TaskKind) (e : FailureEvidence) (o : option ExecutionOutcome) : bool :=
  match kind with
  | review =>
      match o ≫= oc_review with
      | Some r => if reviewKeptFindings o then true
                  else or_outputValid r && or_accessible r && (or_request_changes r || js_some is_blocking (or_findings r))
      | None => if js_some is_blocking (nullish (o ≫= oc_findings) []) then true else text_reports_verdict e o
      end
  | validation =>
      match o ≫= oc_validation with
      | Some v => ov_accessible v && negb (ov_noTargets v) && negb (ov_exitCode v =? 0)
      | None => text_reports_verdict e o
      end
  | integration =>
      if integrationChecksFailed o then true
      else if match o with Some o => bool_decide (oc_exitStatus o = "conflict") | None => false end ||
              test (lit_i "conflict") (fe_summary e) then true
      else text_reports_verdict e o
  | _ => text_reports_verdict e o
  end.

Definition GATE_FAILURE_CATEGORY (kind : TaskKind) : option FailureCategory :=
  match kind with
  | validation => Some VALIDATION_FAILED
  | review => Some REVIEW_FAILED
  | integration => Some MERGE_CONFLICT
  | _ => None
  end.

(** A review whose output could not be read and kept no findings. *)
Definition unreadable_review (kind : TaskKind) (o : option ExecutionOutcome) : bool :=
  match kind, o ≫= oc_review with
  | review, Some r => negb (or_outputValid r) && negb (reviewKeptFindings o)
  | _, _ => false
  end.

Definition classifyGateFailure (kind : TaskKind) (e : FailureEvidence) (o : option ExecutionOutcome) : FailureClassification :=
  let rest :=
    if unreadable_review kind o then classify (with_category e PROVIDER_TRANSIENT)
    else let inferred := classify e in
         if bool_decide (is_Some (GATE_FAILURE_CATEGORY kind)) && bool_decide (fc_category inferred = INVALID_WORKER_OUTPUT)
         then classify (with_category e PROVIDER_TRANSIENT) else inferred in
  match GATE_FAILURE_CATEGORY kind with
  | Some gateCategory =>
      if gateReportedVerdict kind e o then
        let category := match kind with
                        | integration => if integrationChecksFailed o then VALIDATION_FAILED else gateCategory
                        | _ => gateCategory
                        end in
        classify (with_category e category)
      else rest
  | None => rest
  end.

End Hash.

(** *** Reasons and assertions *)

Record AttemptView := mkAttempt { at_execution_id : string; at_task_id : string; at_status : string; at_exit_status : option string }.
Record ClassificationView := mkClassView { cv_taskId : option string; cv_category : string; cv_summary : string }.

(** [l.at(-1)] *)
Definition js_at_last {A} (l : list A) : option A := last l.

Definition taskFailureReason (task_id : string) (failure_reason : option string) (executions : list AttemptView)
    (classifications : list ClassificationView) : string :=
  let recorded := js_trim (nullish failure_reason "") in
  if truthy recorded then recorded
  else
    let attempts := js_filter (fun x => bool_decide (at_task_id x = task_id)) executions in
    match or_next (js_find (fun x => negb (bool_decide (at_status x = "SUCCEEDED"))) (rev attempts)) (js_at_last attempts) with
    | Some l =>
        let outcome := js_dedup (js_filter truthy [js_trim (nullish (at_exit_status l) ""); at_status l]) in
        "execution " +:+ at_execution_id l +:+ " ended " +:+ js_join " " outcome
    | None =>
        let unknown := "task " +:+ task_id +:+ " failed without a recorded reason" in
        match js_at_last (js_filter (fun c => bool_decide (cv_taskId c = Some task_id)) classifications) with
        | Some c => if truthy (js_trim (cv_summary c)) then cv_category c +:+ ": " +:+ js_trim (cv_summary c) else unknown
        | None => unknown
        end
    end.

Record AlreadySatisfied := mkSatisfied { as_reason : string; as_proof : string }.
Record MutatorView := mkMutator { mv_task_id : string; mv_mutates_repo : bool }.
Record AssertionView := mkAssertion { av_task_id : string; av_status : string; av_already_satisfied : option AlreadySatisfied }.

Definition latestAlreadySatisfied (tasks : list MutatorView) (executions : list AssertionView) : option AlreadySatisfied :=
  let mutators := map mv_task_id (js_filter mv_mutates_repo tasks) in
  if bool_decide (mutators = []) then None
  else js_at_last (js_filter (fun x => bool_decide (is_Some (av_already_satisfied x)))
         (js_filter (fun x => js_includes (av_task_id x) mutators && bool_decide (av_status x = "SUCCEEDED")) executions))
       ≫= av_already_satisfied.

Definition alreadySatisfiedClause (a : AlreadySatisfied) : string :=
  " — " +:+ ALREADY_SATISFIED_MARKER +:+ ": a worker asserted the objective needs no change" +:+
  " (reason: " +:+ as_reason a +:+ "; proof: " +:+ as_proof a +:+ ")".

End Classify.

Module Planner.
Import Classify.

Definition DEFAULT_STRATEGY_MAX_ATTEMPTS : Z := 8.
Definition DEFAULT_MISSION_RECOVERY_CEILING : Z := 1000.

Definition DEFAULT_ACTIONS (c : FailureCategory) : RecoveryAction :=
  match c with
  | WORKSPACE_SCOPE_MISMATCH => REBUILD_WORKSPACE_MANIFEST
  | EVIDENCE_UNAVAILABLE => RECONSTRUCT_EVIDENCE
  | TASK_BUDGET_EXHAUSTED => CHECKPOINT_SPLIT_AND_REPLACE
  | PROVIDER_TRANSIENT => PROBE_AND_BACKOFF
  | PROVIDER_PERMANENT => STOP
  | INVALID_WORKER_OUTPUT => REPAIR_WORKER_OUTPUT
  | VALIDATION_FAILED | REVIEW_FAILED | IMPLEMENTATION_DEFECT => CREATE_REPAIR_TASKS
  | MERGE_CONFLICT => REBUILD_INTEGRATION_CANDIDATE
  | AUTHORIZATION_OR_CREDENTIAL => STOP
  | REQUIREMENT_AMBIGUITY => WAIT_FOR_REQUIREMENT
  | ORPHANED_EXECUTION => FENCE_RECONCILE_AND_RESUME
  | DEADLOCKED_DAG => REPAIR_BLOCKED_MISSION
  | PERSISTENCE_FAILURE => PAUSE_FOR_PERSISTENCE
  | DISK_SUSPENDED => FENCE_RECONCILE_AND_RESUME
  end.

Definition EXPECTED_CHANGE (a : RecoveryAction) : string :=
  match a with
  | REBUILD_WORKSPACE_MANIFEST => "rebuild the authorized workspace manifest and rerun role-access probes"
  | RECONSTRUCT_EVIDENCE => "reconstruct candidate evidence from Git and durable artifacts"
  | CHECKPOINT_SPLIT_AND_REPLACE => "split checkpointed remaining deliverables into bounded replacement tasks"
  | PROBE_AND_BACKOFF => "observe a healthy provider probe within the durable outage deadline"
  | REPAIR_WORKER_OUTPUT => "produce schema-valid worker output from a fresh bounded attempt"
  | CREATE_REPAIR_TASKS => "create bounded replacement tasks that materially change the candidate"
  | REBUILD_INTEGRATION_CANDIDATE => "rebuild the isolated integration candidate and rerun integration"
  | FENCE_RECONCILE_AND_RESUME => "fence the old owner, reconcile side effects, and resume remaining work"
  | WAIT_FOR_REQUIREMENT => "receive clarification for only the affected requirement branch"
  | PAUSE_FOR_PERSISTENCE => "restore durable writes before any further mutation"
  | REPAIR_BLOCKED_MISSION => "replace unresolved blocked work through an explicit durable repair plan"
  | STOP => "no safe automatic material change is available"
  end.

Definition CAPACITY_WAIT_ACTIONS (c : FailureCategory) : option RecoveryAction :=
  match c with
  | PROVIDER_TRANSIENT | PROVIDER_PERMANENT | ORPHANED_EXECUTION | EVIDENCE_UNAVAILABLE | DISK_SUSPENDED => Some PROBE_AND_BACKOFF
  | PERSISTENCE_FAILURE => Some PAUSE_FOR_PERSISTENCE
  | _ => None
  end.

Definition PARKING_WAIT_ACTIONS : list RecoveryAction := [PROBE_AND_BACKOFF; PAUSE_FOR_PERSISTENCE].

Definition OPERATOR_QUESTIONS (c : FailureCategory) : option string :=
  match c with
  | REQUIREMENT_AMBIGUITY => Some "operator question: which requirement is authoritative for this mission, and what should it do next?"
  | AUTHORIZATION_OR_CREDENTIAL => Some "operator question: which credential or authorization must be restored before this mission touches the repository again?"
  | WORKSPACE_SCOPE_MISMATCH => Some "operator question: which workspace roots and repository roles is this mission authorized to use?"
  | _ => None
  end.

Definition ESCALATION_GUIDANCE (c : FailureCategory) : option string :=
  match c with
  | MERGE_CONFLICT => Some "preserved work conflicts with commits merged upstream. The worker was deliberately based on the mission's original base (not a newer commit) so a real conflict is surfaced rather than masked. Options: (a) rebase the preserved branch onto the current main head and re-integrate, (b) discard the conflicting branch, or (c) raise the recovery budget to retry from the originally bound incumbent base."
  | VALIDATION_FAILED => Some "the repository's own checks do not pass on the candidate. Options: (a) let a repair task fix the failing checks, or (b) raise the recovery budget to retry the failing step."
  | REVIEW_FAILED => Some "the candidate did not pass review. Options: (a) let a repair task address the review findings, or (b) raise the recovery budget to retry review."
  | IMPLEMENTATION_DEFECT => Some "the candidate carries an implementation defect. Options: (a) let a repair task fix it, or (b) raise the recovery budget to retry."
  | DEADLOCKED_DAG => Some "the task graph is blocked with no automatic repair. Options: (a) replace the blocked work through an explicit repair plan, or (b) cancel the mission."
  | TASK_BUDGET_EXHAUSTED => Some "the task exhausted its attempt budget. Options: (a) split the remaining deliverables into bounded replacement tasks, or (b) raise the task budget."
  | REQUIREMENT_AMBIGUITY | AUTHORIZATION_OR_CREDENTIAL | WORKSPACE_SCOPE_MISMATCH => OPERATOR_QUESTIONS c
  | _ => None
  end.

Record ZeroToolWait := mkZeroToolWait { zw_retries : Z; zw_cap : Z; zw_failureClass : string }.

Record RecoveryDecision := mkRecovery {
  rd_recoveryId : string;
  rd_missionId : string;
  rd_classificationId : string;
  rd_action : RecoveryAction;
  rd_expectedMaterialChange : string;
  rd_attempt : Z;
  rd_maxAttempts : Z;
  rd_deadline : option string;
  rd_nextActionAt : string;
  rd_status : RecoveryStatus;
  rd_decidedAt : string;
  rd_failureFingerprint : option string;
  rd_resumptionGeneration : option Z;
  rd_operatorGuidance : option string;
  rd_zeroToolWait : option ZeroToolWait;
  rd_blockedEpisodeId : option string;
  (* absent, null or a value *)
  rd_startingCandidateIdentityHash : option (option string);
  rd_startingCandidateContent : option (option (string * string))
}.

Definition set_status (d : RecoveryDecision) (s : RecoveryStatus) : RecoveryDecision :=
  mkRecovery (rd_recoveryId d) (rd_missionId d) (rd_classificationId d) (rd_action d) (rd_expectedMaterialChange d)
    (rd_attempt d) (rd_maxAttempts d) (rd_deadline d) (rd_nextActionAt d) s (rd_decidedAt d) (rd_failureFingerprint d)
    (rd_resumptionGeneration d) (rd_operatorGuidance d) (rd_zeroToolWait d) (rd_blockedEpisodeId d)
    (rd_startingCandidateIdentityHash d) (rd_startingCandidateContent d).

Record RecoveryPlanner := mkPlanner { missionCeiling : Z; strategyMaxAttempts : Z; decisionTtlMs : option Z }.

Definition newPlanner (ceiling attempts ttl : option Z) : res string RecoveryPlanner :=
  let p := mkPlanner (nullish ceiling DEFAULT_MISSION_RECOVERY_CEILING) (nullish attempts DEFAULT_STRATEGY_MAX_ATTEMPTS) ttl in
  if (missionCeiling p <? 1) || (strategyMaxAttempts p <? 1) || match ttl with Some t => t <? 1 | None => false end
  then Err "recovery planner budgets and deadline must be positive" else Ok p.

Record RecoveryDecisionInput := mkDecisionInput {
  in_classification : FailureClassification;
  in_history : list RecoveryDecision;
  in_now : Z;
  in_nextActionAt : option Z;
  in_waitReason : option string;
  in_zeroToolWait : option ZeroToolWait;
  in_resumptionGeneration : option Z;
  in_exhaustionIsTerminal : bool;
  in_budgetEpoch : option Z
}.

(** What a recovery id is the hash of. *)
Record RecoveryKey := mkKey {
  rk_missionId : string; rk_classificationId : string; rk_fingerprint : string; rk_action : RecoveryAction;
  rk_attempt : Z; rk_deadline : option string; rk_resumptionGeneration : option Z; rk_decisionsForFingerprint : option Z }.

Section Decide.
(** The first twenty hexadecimal digits of the hash; [Date.parse] and [toISOString]. *)
Context (hash20 : RecoveryKey -> string) (Date_parse : string -> option Z) (iso : Z -> string).
Context (p : RecoveryPlanner).

Definition generation_of (d : RecoveryDecision) : Z := nullish (rd_resumptionGeneration d) 0.

Section Input.
Context (i : RecoveryDecisionInput).
Notation category := (fc_category (in_classification i)).
Notation fingerprint := (fc_fingerprint (in_classification i)).
Notation history := (in_history i).

Definition resumptionGeneration : Z :=
  nullish (in_resumptionGeneration i) (foldr Z.max 0 (map generation_of history)).
Definition capacityWait : option RecoveryAction := CAPACITY_WAIT_ACTIONS category.
Definition countsAsAttempt (d : RecoveryDecision) : bool :=
  negb (in_exhaustionIsTerminal i && bool_decide (is_Some capacityWait) && bool_decide (rd_status d = rs_succeeded)).
Definition same_fingerprint (d : RecoveryDecision) : bool := bool_decide (rd_failureFingerprint d = Some fingerprint).
Definition counts (d : RecoveryDecision) : bool :=
  same_fingerprint d && (nullish (in_budgetEpoch i) 0 <=? generation_of d) && countsAsAttempt d.
Definition fingerprintAttempts : Z := js_len (js_filter counts history).
Definition decisionsForFingerprint : Z := js_len (js_filter same_fingerprint history).

Definition deadline_ms (d : RecoveryDecision) : list Z :=
  match rd_deadline d with
  | Some t => if truthy t then match Date_parse t with Some n => [n] | None => [] end else []
  | None => []
  end.
Definition durableDeadlines : list Z :=
  concat (map deadline_ms (js_filter (fun d => generation_of d =? resumptionGeneration) history)).
Definition durableDeadline : option Z :=
  match durableDeadlines with
  | d :: ds => Some (foldr Z.min d ds)
  | [] => option_map (fun ttl => in_now i + ttl) (decisionTtlMs p)
  end.

Definition missionExhausted : bool := missionCeiling p <=? js_len history.
Definition deadlineExhausted : bool := match durableDeadline with Some d => d <=? in_now i | None => false end.
Definition strategyExhausted : bool := strategyMaxAttempts p <=? fingerprintAttempts.
Definition budgetExhausted : bool := missionExhausted || deadlineExhausted || strategyExhausted.
Definition countExhaustedForCaller : bool := in_exhaustionIsTerminal i && (missionExhausted || strategyExhausted).
Definition parksOnCapacity : bool := bool_decide (is_Some capacityWait) && negb countExhaustedForCaller.
Definition action : RecoveryAction :=
  if negb budgetExhausted then DEFAULT_ACTIONS category
  else if parksOnCapacity then nullish capacityWait STOP else STOP.
Definition parkedDeadline : bool := parksOnCapacity && deadlineExhausted.
Definition durableDeadlineAt : option string := option_map iso durableDeadline.
Definition deadline : option string := if parkedDeadline then None else durableDeadlineAt.
Definition at_deadline : string := nullish durableDeadlineAt "null".

Definition ratio (a b : Z) : string := "(" +:+ js_num a +:+ "/" +:+ js_num b +:+ ")".
Definition budgetReason : string :=
  if missionExhausted then "mission recovery ceiling exhausted " +:+ ratio (js_len history) (missionCeiling p)
  else if deadlineExhausted then "mission recovery deadline exhausted at " +:+ at_deadline
  else if strategyExhausted
  then "identical failure fingerprint exhausted its strategy budget " +:+ ratio fingerprintAttempts (strategyMaxAttempts p)
  else EXPECTED_CHANGE action.
Definition parkCause : string :=
  if missionExhausted then "mission recovery ceiling reached " +:+ ratio (js_len history) (missionCeiling p)
  else if deadlineExhausted then "mission recovery deadline reached at " +:+ at_deadline
  else "attempt budget reached " +:+ ratio fingerprintAttempts (strategyMaxAttempts p).
Definition exhaustedReason : string :=
  if negb budgetExhausted then EXPECTED_CHANGE action
  else if parksOnCapacity
  then "waiting (" +:+ parkCause +:+ "; this does not stop a wait); the mission parks instead of stopping: " +:+
       EXPECTED_CHANGE (nullish capacityWait STOP)
  else nullish (OPERATOR_QUESTIONS category) budgetReason.
Definition operatorGuidance : option string :=
  if budgetExhausted && negb parksOnCapacity then Some (nullish (ESCALATION_GUIDANCE category) budgetReason) else None.

Definition recovery_key : RecoveryKey :=
  mkKey (fc_missionId (in_classification i)) (fc_classificationId (in_classification i)) fingerprint action
    (fingerprintAttempts + 1) deadline
    (if 0 <? resumptionGeneration then Some resumptionGeneration else None)
    (if decisionsForFingerprint =? fingerprintAttempts then None else Some decisionsForFingerprint).

Definition decide_ : RecoveryDecision :=
  let probing := bool_decide (action = PROBE_AND_BACKOFF) in
  mkRecovery ("RCV-" +:+ hash20 recovery_key) (fc_missionId (in_classification i)) (fc_classificationId (in_classification i)) action
    (match in_waitReason i with
     | Some reason => if probing && truthy reason then reason else exhaustedReason
     | None => exhaustedReason
     end)
    (fingerprintAttempts + 1) (strategyMaxAttempts p) deadline (iso (nullish (in_nextActionAt i) (in_now i))) rs_planned
    (iso (in_now i)) (Some fingerprint) (Some resumptionGeneration) operatorGuidance
    (if probing then in_zeroToolWait i else None) None None None.
End Input.
End Decide.

Definition action_name (a : RecoveryAction) : string :=
  match a with
  | REBUILD_WORKSPACE_MANIFEST => "REBUILD_WORKSPACE_MANIFEST"
  | RECONSTRUCT_EVIDENCE => "RECONSTRUCT_EVIDENCE"
  | CHECKPOINT_SPLIT_AND_REPLACE => "CHECKPOINT_SPLIT_AND_REPLACE"
  | PROBE_AND_BACKOFF => "PROBE_AND_BACKOFF"
  | REPAIR_WORKER_OUTPUT => "REPAIR_WORKER_OUTPUT"
  | CREATE_REPAIR_TASKS => "CREATE_REPAIR_TASKS"
  | REBUILD_INTEGRATION_CANDIDATE => "REBUILD_INTEGRATION_CANDIDATE"
  | FENCE_RECONCILE_AND_RESUME => "FENCE_RECONCILE_AND_RESUME"
  | WAIT_FOR_REQUIREMENT => "WAIT_FOR_REQUIREMENT"
  | PAUSE_FOR_PERSISTENCE => "PAUSE_FOR_PERSISTENCE"
  | REPAIR_BLOCKED_MISSION => "REPAIR_BLOCKED_MISSION"
  | STOP => "STOP"
  end.
Definition status_name (s : RecoveryStatus) : string :=
  match s with
  | rs_planned => "planned" | rs_started => "started" | rs_succeeded => "succeeded" | rs_failed => "failed" | rs_exhausted => "exhausted"
  end.

Definition describeRecoveryOutcome (decision : option (RecoveryAction * RecoveryStatus)) (can_complete : bool) (reasons : list string) : string :=
  let ran := match decision with
             | Some (a, s) => action_name a +:+ " " +:+ status_name s
             | None => "no recovery action was started"
             end in
  let joined := js_join "; " reasons in
  let gate := if can_complete then "gate can complete"
              else "gate blocked: " +:+ (if truthy joined then joined else "no reason reported") in
  ran +:+ "; " +:+ gate.

End Planner.

(** *** What the classification guarantees *)

Module ClassifyProps.
Import Classify.

Lemma first_signature_in rules s c : first_signature rules s = Some c -> exists r, (r, c) ∈ rules /\ test r s = true.
Proof.
  induction rules as [|[r d] rules IH]; simpl; [done|]. destruct (test r s) eqn:E.
  - intros [= <-]. exists r. split; [left|done].
  - intros (r' & Hin & Ht)%IH. exists r'. split; [by right|done].
Qed.

Lemma first_signature_hit rules s r c : (r, c) ∈ rules -> test r s = true -> is_Some (first_signature rules s).
Proof.
  intros Hin Ht. induction rules as [|[r' d] rules IH]; [by apply elem_of_nil in Hin|].
  simpl. destruct (test r' s) eqn:E; [by eexists|].
  apply elem_of_cons in Hin as [[= -> ->]|Hin]; [congruence|auto].
Qed.

(** The categories a list of signatures can answer. *)
Lemma first_signature_cats rules s c : first_signature rules s = Some c -> c ∈ map snd rules.
Proof. intros (r & Hin & _)%first_signature_in. by apply list_elem_of_fmap_2 with (f := snd) in Hin. Qed.

Lemma status_category_cats st c : status_category st = Some c -> c = PROVIDER_TRANSIENT \/ c = PROVIDER_PERMANENT.
Proof. unfold status_category. intros H. repeat case_match; simplify_eq; auto. Qed.

Lemma code_category_cats code c : code_category code = Some c -> c = PROVIDER_TRANSIENT \/ c = PROVIDER_PERMANENT.
Proof. unfold code_category. intros H. repeat case_match; simplify_eq; auto. Qed.

(** A lost lease is recognised before the credential words, whatever else the text says. *)
Lemma infer_lost_ownership e c :
  test LOST_OWNERSHIP (normalizedSummary (fe_summary e)) = true -> inferRecognizedCategory e = Some c ->
  c ∈ [REQUIREMENT_AMBIGUITY; TASK_BUDGET_EXHAUSTED; DISK_SUSPENDED; PROVIDER_TRANSIENT; WORKSPACE_SCOPE_MISMATCH;
       EVIDENCE_UNAVAILABLE; ORPHANED_EXECUTION] \/
  c = PROVIDER_PERMANENT /\ (is_Some (fe_providerStatus e) \/ is_Some (fe_providerCode e)).
Proof.
  intros Hl. unfold inferRecognizedCategory. set (s := normalizedSummary _) in *.
  assert (Hm : is_Some (first_signature middle_rules s)).
  { apply (first_signature_hit _ _ LOST_OWNERSHIP ORPHANED_EXECUTION); [|exact Hl]. by do 4 right; left. }
  destruct (first_signature early_rules s) as [d|] eqn:E1; cbn [or_next].
  { intros [= <-]. left. apply first_signature_cats in E1. unfold early_rules in E1. set_solver. }
  destruct (status_category _) as [d|] eqn:E2; cbn [or_next].
  { intros [= <-]. destruct (status_category_cats _ _ E2) as [->| ->]; [left; set_solver|right]. split; [done|left].
    destruct (fe_providerStatus e); [by eexists|done]. }
  destruct (code_category _) as [d|] eqn:E3; cbn [or_next].
  { intros [= <-]. destruct (code_category_cats _ _ E3) as [->| ->]; [left; set_solver|right]. split; [done|right].
    destruct (fe_providerCode e); [by eexists|done]. }
  destruct Hm as [d Hd]. rewrite Hd. cbn [or_next]. intros [= <-]. left.
  apply first_signature_cats in Hd. unfold middle_rules in Hd. set_solver.
Qed.

Lemma settled_given e c : fe_category e = Some c ->
  settled_category e = ORPHANED_EXECUTION \/ settled_category e = REQUIREMENT_AMBIGUITY \/ settled_category e = c.
Proof. intros H. unfold settled_category. rewrite H. repeat case_match; auto. Qed.

(** A failure whose text reports a lost lease, in any spacing and letter case, is never classified as a
    credential problem, whatever category the caller supplied and whatever credential words the text holds; the
    planner's first action for it is a stop only if a provider status or code says the provider refused for good. *)
Theorem ownership_loss_never_credential hash epoch e :
  test LOST_OWNERSHIP (normalizedSummary (fe_summary e)) = true ->
  let c := fc_category (classify hash epoch e) in
  c <> AUTHORIZATION_OR_CREDENTIAL /\
  (Planner.DEFAULT_ACTIONS c = STOP ->
   fe_category e = None /\ (is_Some (fe_providerStatus e) \/ is_Some (fe_providerCode e))).
Proof.
  intros Hl. cbn -[settled_category]. unfold settled_category. rewrite Hl.
  destruct (fe_category e) as [c0|] eqn:Hc; [done|]. cbn [bool_decide andb]. rewrite bool_decide_false by by intros [? ?].
  cbn [andb]. destruct (_ || _); [done|]. unfold inferCategory.
  destruct (inferRecognizedCategory e) as [c|] eqn:E; [|done]. cbn [nullish].
  destruct (infer_lost_ownership e c Hl E) as [Hin|[-> Hp]]; [|by split].
  split; [|intros Hs]; repeat (apply elem_of_cons in Hin as [->|Hin]; [done|]); by apply elem_of_nil in Hin.
Qed.

(** A gate task's failure is blamed on the work only if the gate reported a verdict. Without one it is never
    [INVALID_WORKER_OUTPUT], and a review that could not be read and kept no finding waits for the provider, unless
    the text reports a lost lease or that nothing was to be done; with one, the failure takes the gate's category,
    failed checks of an integration counting as a failed validation. *)
Theorem gate_failure_needs_verdict hash epoch kind e o :
  fe_category e = None ->
  is_Some (GATE_FAILURE_CATEGORY kind) ->
  let c := fc_category (classifyGateFailure hash epoch kind e o) in
  let excused := test LOST_OWNERSHIP (normalizedSummary (fe_summary e)) ||
                 includes (normalizedSummary (fe_summary e)) ALREADY_SATISFIED_MARKER ||
                 includes (normalizedSummary (fe_summary e)) NO_CHANGE_LOOP_PREVENTED_MARKER in
  c <> INVALID_WORKER_OUTPUT /\
  (unreadable_review kind o = true -> c ∈ [PROVIDER_TRANSIENT; ORPHANED_EXECUTION; REQUIREMENT_AMBIGUITY]) /\
  (gateReportedVerdict kind e o = true -> excused = false ->
   Some c = match kind with
            | validation => Some VALIDATION_FAILED
            | review => Some REVIEW_FAILED
            | _ => if integrationChecksFailed o then Some VALIDATION_FAILED else Some MERGE_CONFLICT
            end).
Proof.
  intros He [g Hg]. pose proof (fun c => settled_given (with_category e c) c eq_refl) as Hset.
  cbn zeta. unfold classifyGateFailure. rewrite Hg. split_and!.
  - cbn [fc_category classify]. destruct (gateReportedVerdict kind e o).
    + cbn [fc_category classify]. destruct kind; simplify_eq; simpl in Hg; simplify_eq; try destruct (integrationChecksFailed o);
        edestruct Hset as [->|[->| ->]]; done.
    + destruct (unreadable_review kind o); [cbn [fc_category classify]; edestruct Hset as [->|[->| ->]]; done|].
      rewrite bool_decide_true by by eexists. cbn [andb]. case_bool_decide as Hb; [|done].
      cbn [fc_category classify]. edestruct Hset as [->|[->| ->]]; done.
  - intros Hu. assert (gateReportedVerdict kind e o = false) as ->.
    { unfold unreadable_review in Hu. unfold gateReportedVerdict. destruct kind; try done.
      destruct (o ≫= oc_review) as [r|]; [|done]. apply andb_true_iff in Hu as [Hv Hk].
      apply negb_true_iff in Hv, Hk. by rewrite Hk, Hv. }
    rewrite Hu. cbn [fc_category classify]. edestruct Hset as [->|[->| ->]]; set_solver.
  - intros -> Hx. apply orb_false_iff in Hx as [[H1 H2]%orb_false_iff H3]. cbn [fc_category classify].
    unfold settled_category. cbn [with_category fe_summary fe_category]. rewrite H1, H2, H3, andb_false_r. cbn [orb].
    destruct kind; simpl in Hg; simplify_eq; try done. by destruct (integrationChecksFailed o).
Qed.

Lemma string_le_trans : Transitive (fun a b => string_le a b = true).
Proof.
  intros a b c. unfold string_le. rewrite !negb_true_iff. intros H1 H2. by eapply string_nltb_trans.
Qed.

Lemma string_le_total a b : string_le a b = true \/ string_le b a = true.
Proof.
  unfold string_le. destruct (String.ltb b a) eqn:E; [right|by left]. apply negb_true_iff.
  apply not_true_iff_false. intros E2. pose proof (string_ltb_trans _ _ _ E2 E) as E3. by rewrite string_ltb_irrefl in E3.
Qed.

(** The references of a failure as the fingerprint sees them depend on their set alone. *)
Lemma canonical_refs_ext a b :
  (forall r, r ∈ nullish a [] <-> r ∈ nullish b []) -> canonical_refs a = canonical_refs b.
Proof.
  intros H. unfold canonical_refs.
  assert (Hs : forall l, StronglySorted (fun x y => string_le x y = true) (js_sort string_le l)).
  { intros l. apply js_sort_sorted; [exact string_le_total|exact string_le_trans]. }
  assert (AntiSymm eq (fun x y => string_le x y = true)).
  { intros x y. unfold string_le. rewrite !negb_true_iff. intros. by apply string_ltb_total. }
  apply (sorting.StronglySorted_unique (fun x y => string_le x y = true)); [apply Hs..|].
  rewrite !js_sort_perm. apply NoDup_Permutation; [apply js_dedup_NoDup..|]. intros x. by rewrite !js_dedup_elem.
Qed.

(** The fingerprint, by which failed attempts are counted, does not depend on who observed the failure and when:
    two failures of one task whose texts differ in letter case and spacing only and whose references are the same
    set, in any order and with any repetition, get one classification id, category and fingerprint. *)
Theorem fingerprint_canonical hash epoch e1 e2 :
  fe_missionId e1 = fe_missionId e2 -> fe_taskId e1 = fe_taskId e2 -> fe_category e1 = fe_category e2 ->
  fe_providerStatus e1 = fe_providerStatus e2 -> fe_providerCode e1 = fe_providerCode e2 ->
  normalizedSummary (fe_summary e1) = normalizedSummary (fe_summary e2) ->
  (forall r, r ∈ nullish (fe_evidenceRefs e1) [] <-> r ∈ nullish (fe_evidenceRefs e2) []) ->
  let c1 := classify hash epoch e1 in
  let c2 := classify hash epoch e2 in
  fc_classificationId c1 = fc_classificationId c2 /\ fc_category c1 = fc_category c2 /\
  fc_fingerprint c1 = fc_fingerprint c2 /\ fc_evidenceRefs c1 = fc_evidenceRefs c2.
Proof.
  intros H1 H2 H3 H4 H5 H6 H7%canonical_refs_ext. cbn zeta.
  assert (E : settled_category e1 = settled_category e2).
  { unfold settled_category, inferCategory, inferRecognizedCategory. by rewrite H3, H4, H5, H6. }
  assert (F : failureFingerprint hash e1 (settled_category e1) = failureFingerprint hash e2 (settled_category e2)).
  { unfold failureFingerprint. by rewrite E, H1, H2, H6, H7. }
  unfold classify. cbn [fc_classificationId fc_category fc_fingerprint fc_evidenceRefs]. by rewrite F, E, H7.
Qed.

Lemma js_filter_filter {A} (q r : A -> bool) l : js_filter r (js_filter q l) = js_filter (fun x => q x && r x) l.
Proof. induction l as [|x l IH]; simpl; [done|]. destruct (q x); simpl; by rewrite IH. Qed.

(** The last element of a filtered list is the last that passes. *)
Lemma last_js_filter {A} (q : A -> bool) l x : last (js_filter q l) = Some x ->
  exists l1 l2, l = (l1 ++ x :: l2)%list /\ q x = true /\ forall y, y ∈ l2 -> q y = false.
Proof.
  induction l as [|z l IH] using rev_ind; [done|]. rewrite js_filter_app. simpl. destruct (q z) eqn:E.
  - rewrite last_snoc. intros [= ->]. exists l, []. split_and!; [done..|by intros ? ?%elem_of_nil].
  - rewrite app_nil_r. intros (l1 & l2 & -> & Hq & Hall)%IH. exists l1, (l2 ++ [z])%list. rewrite <- app_assoc.
    split_and!; [done..|]. intros y [?| ->%list_elem_of_singleton]%elem_of_app; auto.
Qed.

(** Only a worker that was asked to change the repository and succeeded can say that nothing was to be changed, and
    the latest such assertion is the one reported. *)
Theorem assertion_of_successful_mutator tasks executions a :
  latestAlreadySatisfied tasks executions = Some a ->
  exists l1 x l2, executions = (l1 ++ x :: l2)%list /\ av_already_satisfied x = Some a /\ av_status x = "SUCCEEDED" /\
    (exists t, t ∈ tasks /\ mv_mutates_repo t = true /\ mv_task_id t = av_task_id x) /\
    forall y, y ∈ l2 -> av_status y = "SUCCEEDED" -> is_Some (av_already_satisfied y) ->
      forall t, t ∈ tasks -> mv_task_id t = av_task_id y -> mv_mutates_repo t = false.
Proof.
  unfold latestAlreadySatisfied. case_bool_decide; [done|]. set (mut := map mv_task_id _). unfold js_at_last.
  intros (x & Hx & Ha)%bind_Some. rewrite js_filter_filter in Hx.
  apply last_js_filter in Hx as (l1 & l2 & -> & Hq & Hall). exists l1, x, l2. split; [done|].
  apply andb_true_iff in Hq as [[Hm Hs]%andb_true_iff _]. apply bool_decide_eq_true in Hs. split_and!; [done..| |].
  - apply js_includes_true in Hm. apply list_elem_of_fmap in Hm as (t & Ht & [Hin Hmut]%js_filter_elem). eauto.
  - intros y Hy Hys Hya t Ht Hid. apply not_true_iff_false. intros Hmut. specialize (Hall y Hy).
    apply andb_false_iff in Hall as [Hall|Hall]; [|by rewrite bool_decide_true in Hall].
    apply andb_false_iff in Hall as [Hall|Hall]; [|by rewrite bool_decide_true in Hall].
    apply js_includes_false in Hall. apply Hall, list_elem_of_fmap. exists t. split; [done|]. by apply js_filter_elem.
Qed.

(** A gate whose evidence says that it never ran is blamed on the candidate all the same if the text of its failure
    mentions the gate. *)
Lemma category_without_verdict hash epoch :
  let e := mkFailure "MSN-1" (Some "T-3") None "validation could not start: runner missing" None None None None None in
  let o := Some (mkOutcome "failed" "" false None None None (Some (mkOutcomeValidation false false 1))) in
  gateReportedVerdict validation e o = false /\ fc_category (classifyGateFailure hash epoch validation e o) = VALIDATION_FAILED /\
  Planner.DEFAULT_ACTIONS VALIDATION_FAILED = CREATE_REPAIR_TASKS.
Proof. split_and!; vm_compute; reflexivity. Qed.

End ClassifyProps.

(** *** What the planner guarantees *)

Module PlannerProps.
Import Classify Planner.

(** The actions that do something about a failure: all but the stop and the waits. *)
Definition acts (d : RecoveryDecision) : bool := negb (js_includes (rd_action d) (STOP :: PARKING_WAIT_ACTIONS)).
(** Those taken on failures that are not waited out, the ones whose attempts all count. *)
Definition repairs (f : string) (d : RecoveryDecision) : bool :=
  acts d && negb (js_includes (rd_action d) [RECONSTRUCT_EVIDENCE; FENCE_RECONCILE_AND_RESUME]) &&
  bool_decide (rd_failureFingerprint d = Some f).
Section Props.
Context (hash20 : RecoveryKey -> string) (Date_parse : string -> option Z) (iso : Z -> string).
Context (p : RecoveryPlanner).
Notation decision := (decide_ hash20 Date_parse iso p).
Notation act := (action Date_parse p).

Lemma DEFAULT_ACTIONS_capacity c a :
  CAPACITY_WAIT_ACTIONS c = Some a ->
  DEFAULT_ACTIONS c ∈ [PROBE_AND_BACKOFF; STOP; FENCE_RECONCILE_AND_RESUME; RECONSTRUCT_EVIDENCE; PAUSE_FOR_PERSISTENCE].
Proof. destruct c; simpl; intros; simplify_eq; set_solver. Qed.

Lemma capacity_wait_parks c a : CAPACITY_WAIT_ACTIONS c = Some a -> a ∈ PARKING_WAIT_ACTIONS.
Proof. destruct c; simpl; intros; simplify_eq; set_solver. Qed.

(** Once a budget is exhausted the planner stops or parks. *)
Lemma acts_within_budget i : acts (decision i) = true -> budgetExhausted Date_parse p i = false.
Proof.
  intros H. destruct (budgetExhausted Date_parse p i) eqn:E; [|done]. exfalso. revert H.
  unfold acts, decide_. cbn [rd_action]. unfold action. rewrite E. cbn [negb].
  unfold parksOnCapacity, capacityWait. destruct (CAPACITY_WAIT_ACTIONS _) as [a|] eqn:Ea; [|done].
  apply capacity_wait_parks in Ea. destruct (_ && _); [|done]. cbn [nullish]. unfold PARKING_WAIT_ACTIONS in *.
  repeat (apply elem_of_cons in Ea as [->|Ea]; [done|]). by apply elem_of_nil in Ea.
Qed.

Lemma repairs_count_all f i : repairs f (decision i) = true ->
  fc_fingerprint (in_classification i) = f /\ forall d, countsAsAttempt i d = true.
Proof.
  unfold repairs. intros [[Ha Hn]%andb_true_iff Hf]%andb_true_iff. apply bool_decide_eq_true in Hf.
  split; [by injection Hf|]. intros d. unfold countsAsAttempt, capacityWait.
  destruct (CAPACITY_WAIT_ACTIONS _) as [a|] eqn:Ea; [|by rewrite bool_decide_false, andb_false_r by by intros [? ?]].
  exfalso. pose proof (acts_within_budget i Ha) as Hb. revert Ha Hn. unfold acts, decide_. cbn [rd_action].
  unfold action. rewrite Hb. cbn [negb]. pose proof (DEFAULT_ACTIONS_capacity _ _ Ea) as Hin.
  repeat (apply elem_of_cons in Hin as [->|Hin]; [done|]). by apply elem_of_nil in Hin.
Qed.

(** The decisions a mission adds to its history between two resumptions by the operator: each one is made on the
    history so far, at a generation that counts, and the statuses of the decisions change in any way. *)
Inductive recovering (h0 : list RecoveryDecision) (epoch : Z) : list RecoveryDecision -> Prop :=
  | recovering_start : recovering h0 epoch []
  | recovering_decide l i :
      recovering h0 epoch l -> in_history i = (h0 ++ l)%list -> nullish (in_budgetEpoch i) 0 = epoch ->
      epoch <= resumptionGeneration i -> recovering h0 epoch (l ++ [decision i])
  | recovering_status l1 d s l2 :
      recovering h0 epoch (l1 ++ d :: l2) -> recovering h0 epoch (l1 ++ set_status d s :: l2).

Lemma recovering_generation h0 epoch l d : recovering h0 epoch l -> d ∈ l -> epoch <= generation_of d.
Proof.
  intros H. revert d. induction H as [|l i _ IH Hh He Hg|l1 d s l2 _ IH]; intros x; [by intros ?%elem_of_nil|..].
  - rewrite elem_of_app, list_elem_of_singleton. intros [?| ->]; [auto|done].
  - rewrite elem_of_app, elem_of_cons. intros [?|[-> | ?]].
    + apply IH. set_solver.
    + change (epoch <= generation_of d). apply IH. set_solver.
    + apply IH. set_solver.
Qed.

Lemma filter_set_status (q : RecoveryDecision -> bool) l1 d s l2 : q (set_status d s) = q d ->
  length (js_filter q (l1 ++ set_status d s :: l2)) = length (js_filter q (l1 ++ d :: l2)).
Proof. intros H. rewrite !js_filter_app. simpl. rewrite H. destruct (q d); rewrite !length_app; simpl; lia. Qed.

(** A repair within the strategy budget sees fewer than its number of attempts. *)
Lemma repair_room h0 epoch l f i :
  recovering h0 epoch l -> in_history i = (h0 ++ l)%list -> nullish (in_budgetEpoch i) 0 = epoch ->
  repairs f (decision i) = true -> js_len (js_filter (repairs f) l) < strategyMaxAttempts p.
Proof.
  intros Hr Hh He Hrep. destruct (repairs_count_all f i Hrep) as [Hf Hall].
  assert (Ha : acts (decision i) = true) by (unfold repairs in Hrep; by destruct (acts _)).
  pose proof (acts_within_budget i Ha) as Hb. unfold budgetExhausted, strategyExhausted in Hb.
  apply orb_false_iff in Hb as [_ Hb]. apply Z.leb_gt in Hb. unfold fingerprintAttempts in Hb.
  rewrite Hh, js_filter_app in Hb. unfold js_len in *. rewrite length_app in Hb.
  enough (length (js_filter (repairs f) l) <= length (js_filter (counts i) l))%nat by lia.
  rewrite (js_filter_ext (repairs f) (fun d => counts i d && repairs f d) l).
  - apply js_filter_le. intros y [Hy _]%andb_true_iff. exact Hy.
  - intros d Hd. destruct (repairs f d) eqn:E; [|by rewrite andb_false_r]. rewrite andb_true_r. symmetry.
    unfold counts, same_fingerprint. rewrite Hall, andb_true_r, He, Hf. apply andb_true_iff. split.
    + unfold repairs in E. apply andb_true_iff in E as [_ E]. exact E.
    + apply Z.leb_le. by eapply recovering_generation.
Qed.

(** C38: automatic recovery is bounded by counts. Between two resumptions by the operator, however failures arrive,
    whatever clock readings, wait reasons and callers' options come with them and however the recorded decisions
    settle, the planner orders at most [strategyMaxAttempts] repairs of one fingerprint that is not waited out, and
    at most [missionCeiling] actions that are more than a stop or a wait. *)
Theorem recovery_bounded ceiling attempts ttl h0 epoch l f :
  newPlanner ceiling attempts ttl = Ok p -> recovering h0 epoch l ->
  js_len (js_filter (repairs f) l) <= strategyMaxAttempts p /\ js_len (js_filter acts l) <= missionCeiling p.
Proof.
  intros Hp H.
  assert (Hpos : 1 <= strategyMaxAttempts p /\ 1 <= missionCeiling p).
  { unfold newPlanner in Hp. destruct (_ || _) eqn:E; [done|]. injection Hp as <-.
    apply orb_false_iff in E as [[E1%Z.ltb_ge E2%Z.ltb_ge]%orb_false_iff _]. done. }
  induction H as [|l i H [IH1 IH2] Hh He Hg|l1 d s l2 _ [IH1 IH2]].
  - unfold js_len. simpl. lia.
  - unfold js_len in *. rewrite !js_filter_app, !length_app. simpl. split.
    + destruct (repairs f (decision i)) eqn:E; [|simpl; lia]. pose proof (repair_room h0 epoch l f i H Hh He E).
      unfold js_len in *. simpl. lia.
    + destruct (acts (decision i)) eqn:E; [|simpl; lia]. pose proof (acts_within_budget i E) as Hb.
      unfold budgetExhausted, missionExhausted in Hb. apply orb_false_iff in Hb as [[Hb _]%orb_false_iff _].
      apply Z.leb_gt in Hb. unfold js_len in Hb. rewrite Hh, length_app in Hb. pose proof (js_filter_length acts l). simpl. lia.
  - unfold js_len in *. rewrite !filter_set_status by done. done.
Qed.

(** **** Deadlines *)

Lemma durableDeadline_min i d t : d ∈ in_history i -> generation_of d = resumptionGeneration i ->
  rd_deadline d = Some (iso t) -> iso t <> "" -> Date_parse (iso t) = Some t ->
  exists t', durableDeadline Date_parse p i = Some t' /\ t' <= t.
Proof.
  intros Hd Hg Ht Hne Hp.
  assert (Hin : t ∈ durableDeadlines Date_parse i).
  { unfold durableDeadlines. apply list_elem_of_In, in_concat. exists (deadline_ms Date_parse d).
    rewrite <- !list_elem_of_In. split.
    - apply list_elem_of_fmap. exists d. split; [done|]. apply js_filter_elem. split; [done|]. by apply Z.eqb_eq.
    - unfold deadline_ms. rewrite Ht. destruct (iso t) eqn:E; [done|]. simpl. rewrite Hp. left. }
  unfold durableDeadline. destruct (durableDeadlines Date_parse i) as [|x xs]; [by apply elem_of_nil in Hin|].
  eexists. split; [done|]. clear - Hin. apply elem_of_cons in Hin. induction xs as [|y xs IH]; simpl.
  - destruct Hin as [->|[]%elem_of_nil]. done.
  - rewrite elem_of_cons in Hin. destruct Hin as [->|[->|Hin]]; [|lia|]; specialize (IH ltac:(tauto)); lia.
Qed.

(** A deadline never moves back, and a decision that acts or waits never carries one that has passed: after a
    decision with deadline [t] is in the history, a decision of the same generation either carries no deadline,
    which happens only when it parks a failure that is waited out after the deadline, or one at or before [t], and
    unless it is a stop the clock has not reached it. *)
Theorem deadline_only_tightens i d t :
  d ∈ in_history i -> generation_of d = resumptionGeneration i ->
  rd_deadline d = Some (iso t) -> iso t <> "" -> Date_parse (iso t) = Some t ->
  (rd_deadline (decision i) = None /\ rd_action (decision i) ∈ PARKING_WAIT_ACTIONS) \/
  (exists t', t' <= t /\ rd_deadline (decision i) = Some (iso t') /\ (rd_action (decision i) <> STOP -> in_now i < t')).
Proof.
  intros H1 H2 H3 H4 H5. destruct (durableDeadline_min i d t H1 H2 H3 H4 H5) as (t' & Hdur & Hle).
  unfold decide_. cbn [rd_deadline rd_action]. unfold deadline, parkedDeadline, durableDeadlineAt, action, budgetExhausted.
  unfold deadlineExhausted. rewrite Hdur. cbn [option_map].
  destruct (parksOnCapacity p i) eqn:Ep, (t' <=? in_now i) eqn:Et; cbn [andb orb negb]; rewrite ?orb_true_r; cbn [orb negb].
  - left. split; [done|]. unfold parksOnCapacity in Ep. apply andb_true_iff in Ep as [[a Ha]%bool_decide_eq_true _].
    rewrite Ha. cbn [nullish]. by eapply capacity_wait_parks.
  - right. exists t'. apply Z.leb_gt in Et. done.
  - right. exists t'. done.
  - right. exists t'. apply Z.leb_gt in Et. done.
Qed.

(** **** Identities *)

(** The position of a decision among those of its fingerprint, as its key determines it. *)
Definition ordinal (k : RecoveryKey) : Z := nullish (rk_decisionsForFingerprint k) (rk_attempt k - 1).

Lemma ordinal_recovery_key i : ordinal (recovery_key Date_parse iso p i) = decisionsForFingerprint i.
Proof.
  unfold ordinal, recovery_key. cbn [rk_decisionsForFingerprint rk_attempt].
  destruct (decisionsForFingerprint i =? fingerprintAttempts i) eqn:E; [|done]. apply Z.eqb_eq in E.
  change (fingerprintAttempts i + 1 - 1 = decisionsForFingerprint i). lia.
Qed.

(** The id, fingerprint and place of a decision already in the history. *)
Definition placed (h : list RecoveryDecision) (d : RecoveryDecision) : Prop :=
  exists k, rd_recoveryId d = "RCV-" +:+ hash20 k /\ rd_failureFingerprint d = Some (rk_fingerprint k) /\
    ordinal k < js_len (js_filter (fun x => bool_decide (rd_failureFingerprint x = Some (rk_fingerprint k))) h).

Lemma placed_mono h h' d : placed h d -> placed (h ++ h') d.
Proof.
  intros (k & Hid & Hf & Ho). exists k. split_and!; [done..|]. unfold js_len in *. rewrite js_filter_app, length_app. lia.
Qed.

Lemma placed_status h1 x s h2 d : placed (h1 ++ x :: h2) d -> placed (h1 ++ set_status x s :: h2) d.
Proof.
  intros (k & Hid & Hf & Ho). exists k. split_and!; [done..|]. unfold js_len in *. by rewrite filter_set_status.
Qed.

Lemma placed_decision i h : in_history i = h -> placed (h ++ [decision i]) (decision i).
Proof.
  intros <-. exists (recovery_key Date_parse iso p i). split_and!; [done..|]. rewrite ordinal_recovery_key.
  cbn [recovery_key rk_fingerprint]. unfold decisionsForFingerprint, js_len, same_fingerprint.
  rewrite js_filter_app, length_app. simpl. rewrite bool_decide_true by done. simpl. lia.
Qed.

Lemma placed_fresh i h d : in_history i = h -> Inj (=) (=) hash20 -> placed h d -> rd_recoveryId d <> rd_recoveryId (decision i).
Proof.
  intros <- Hinj (k & Hid & Hf & Ho) E. rewrite Hid in E. cbn [rd_recoveryId decide_] in E.
  injection E as E. apply Hinj in E as ->. rewrite ordinal_recovery_key in Ho. unfold decisionsForFingerprint, same_fingerprint in Ho.
  cbn [recovery_key rk_fingerprint] in Ho. lia.
Qed.

(** As long as the hash does not collide, the decisions a mission makes have distinct ids, even though resolved
    waits do not advance the attempt number and a resumption starts it over. *)
Theorem recovery_ids_unique h0 epoch l :
  Inj (=) (=) hash20 -> recovering h0 epoch l -> NoDup (map rd_recoveryId l).
Proof.
  intros Hinj H. enough (NoDup (map rd_recoveryId l) /\ forall d, d ∈ l -> placed (h0 ++ l) d) by tauto.
  induction H as [|l i H [IH1 IH2] Hh He Hg|l1 d s l2 _ [IH1 IH2]].
  - split; [constructor|by intros ? ?%elem_of_nil].
  - split.
    + rewrite map_app. apply NoDup_app. split_and!; [done| |simpl; apply NoDup_singleton].
      intros x (d & -> & Hd)%list_elem_of_fmap. simpl. rewrite list_elem_of_singleton.
      eapply placed_fresh; [exact Hh|exact Hinj|auto].
    + intros d. rewrite app_assoc, elem_of_app, list_elem_of_singleton. intros [Hd| ->]; [by apply placed_mono; auto|].
      by apply placed_decision.
  - split; [by rewrite map_app in *|]. intros x Hx. rewrite app_assoc. apply placed_status. rewrite <- app_assoc.
    apply elem_of_app in Hx as [Hx|[-> |Hx]%elem_of_cons]; [apply IH2; set_solver| |apply IH2; set_solver].
    destruct (IH2 d) as (k & ?); [set_solver|]. by exists k.
Qed.

(** **** Waits *)

(** A failure that is waited out does not end a mission by its count, except one: a provider's permanent refusal is
    a stop while the budget lasts and becomes a probe once it is exhausted, the later decision being the weaker. *)
Theorem waits_never_stop i :
  in_exhaustionIsTerminal i = false -> is_Some (CAPACITY_WAIT_ACTIONS (fc_category (in_classification i))) ->
  (rd_action (decision i) = STOP <->
   fc_category (in_classification i) = PROVIDER_PERMANENT /\ budgetExhausted Date_parse p i = false) /\
  (budgetExhausted Date_parse p i = true -> rd_action (decision i) ∈ PARKING_WAIT_ACTIONS /\ rd_operatorGuidance (decision i) = None).
Proof.
  intros Ht [a Ha].
  assert (Hp : parksOnCapacity p i = true).
  { unfold parksOnCapacity, capacityWait, countExhaustedForCaller. rewrite Ha, Ht, bool_decide_true by by eexists. done. }
  unfold decide_. cbn [rd_action rd_operatorGuidance]. unfold action, operatorGuidance, capacityWait. rewrite Hp, Ha.
  destruct (budgetExhausted Date_parse p i); cbn [negb nullish andb].
  - pose proof (capacity_wait_parks _ _ Ha) as Hin. split; [|done]. split; [|by intros [_ ?]].
    change (nullish (Some a) STOP) with a. intros ->. unfold PARKING_WAIT_ACTIONS in Hin. set_solver.
  - split; [|done]. destruct (fc_category (in_classification i)); simpl in *; simplify_eq; split; try done; by intros [? _].
Qed.

End Props.
End PlannerProps.

(** *** Witnesses *)

Module RecoverySamples.
Import Classify Planner PlannerProps ClassifyProps.

Lemma assertion_of_successful_mutator_witness :
  exists l1 x l2, [mkAssertion "T-1" "SUCCEEDED" (Some (mkSatisfied "done" "test"))] = (l1 ++ x :: l2)%list /\ av_status x = "SUCCEEDED".
Proof.
  destruct (assertion_of_successful_mutator [mkMutator "T-1" true] [mkAssertion "T-1" "SUCCEEDED" (Some (mkSatisfied "done" "test"))]
              (mkSatisfied "done" "test")) as (l1 & x & l2 & H & _ & Hs & _); [vm_compute; reflexivity|].
  exists l1, x, l2. split; [exact H|exact Hs].
Defined.

Definition no_hash (_ : FingerprintInput) : string := "0123456789abcdef0123456789abcdef".
Definition lost : FailureEvidence :=
  mkFailure "MSN-1" (Some "T-1") None "401 Unauthorized: execution X is  No Longer Authoritative" (Some ["b"; "a"]) None None None None.
Definition lost_too : FailureEvidence :=
  mkFailure "MSN-1" (Some "T-1") (Some "E-9") " 401 unauthorized: execution x is no longer authoritative" (Some ["a"; "b"; "a"]) None None None None.

Lemma ownership_loss_never_credential_witness :
  fc_category (classify no_hash "1970" lost) <> AUTHORIZATION_OR_CREDENTIAL.
Proof. apply (ownership_loss_never_credential no_hash "1970" lost). vm_compute. reflexivity. Defined.

Lemma fingerprint_canonical_witness :
  fc_fingerprint (classify no_hash "1970" lost) = fc_fingerprint (classify no_hash "1970" lost_too) /\
  fc_evidenceRefs (classify no_hash "1970" lost) = ["a"; "b"].
Proof.
  split; [|vm_compute; reflexivity].
  destruct (fingerprint_canonical no_hash "1970" lost lost_too) as (_ & _ & H & _); [reflexivity..|vm_compute; reflexivity| |exact H].
  intros r. simpl. set_solver.
Defined.

Definition checks_failed : FailureEvidence :=
  mkFailure "MSN-1" (Some "T-2") None "integration failed" None None None None None.
Definition failed_checks : ExecutionOutcome :=
  mkOutcome "failed" "checks failed" true None None None None.

Lemma gate_failure_needs_verdict_witness :
  fc_category (classifyGateFailure no_hash "1970" integration checks_failed (Some failed_checks)) = VALIDATION_FAILED.
Proof.
  destruct (gate_failure_needs_verdict no_hash "1970" integration checks_failed (Some failed_checks)) as (_ & _ & H);
    [reflexivity|by eexists|].
  assert (E := H ltac:(vm_compute; reflexivity) ltac:(vm_compute; reflexivity)). exact (f_equal (fun o => nullish o MERGE_CONFLICT) E).
Defined.

Definition plain_hash (_ : RecoveryKey) : string := "0123456789abcdef0123".
Definition clock (s : string) : option Z := if bool_decide (s = "5000") then Some 5000 else None.
Definition planner : RecoveryPlanner := mkPlanner 1000 8 None.
Definition review_failed : FailureClassification :=
  mkClassification "FC-1" "MSN-1" (Some "T-1") None REVIEW_FAILED [] "sha256:aa" "review failed" "1970" None.
Definition saturated : FailureClassification :=
  mkClassification "FC-2" "MSN-1" (Some "T-1") None PROVIDER_TRANSIENT [] "sha256:bb" "overloaded" "1970" None.
Definition on (c : FailureClassification) (h : list RecoveryDecision) : RecoveryDecisionInput :=
  mkDecisionInput c h 1000 None None None None false None.
Definition first_repair : RecoveryDecision := decide_ plain_hash clock js_num planner (on review_failed []).

Lemma one_repair hash : recovering hash clock js_num planner [] 0 [decide_ hash clock js_num planner (on review_failed [])].
Proof.
  apply (recovering_decide hash clock js_num planner [] 0 [] (on review_failed [])); [constructor|reflexivity..|].
  vm_compute. discriminate.
Defined.

Lemma recovery_bounded_witness : js_len (js_filter (repairs "sha256:aa") [first_repair]) <= 8 /\ rd_action first_repair = CREATE_REPAIR_TASKS.
Proof.
  split; [|reflexivity].
  apply (recovery_bounded plain_hash clock js_num planner None None None [] 0 [first_repair] "sha256:aa"); [reflexivity|].
  apply one_repair.
Defined.

(** A hash of recovery keys that does not collide. *)
Definition encode_key (k : RecoveryKey) : string :=
  pretty (N.pos (encode (rk_missionId k, rk_classificationId k, rk_fingerprint k, action_name (rk_action k), rk_attempt k,
                              rk_deadline k, rk_resumptionGeneration k, rk_decisionsForFingerprint k))).

#[local] Instance encode_key_inj : Inj (=) (=) encode_key.
Proof.
  intros k1 k2 H. unfold encode_key in H. apply (inj (@pretty N _)) in H. injection H as H. apply (inj encode) in H.
  destruct k1 as [m1 c1 f1 a1 n1 d1 g1 o1], k2 as [m2 c2 f2 a2 n2 d2 g2 o2].
  simpl in H. injection H as -> -> -> Ha -> -> -> ->. f_equal. by destruct a1, a2.
Qed.

Lemma recovery_ids_unique_witness : NoDup (map rd_recoveryId [decide_ encode_key clock js_num planner (on review_failed [])]).
Proof.
  apply (recovery_ids_unique encode_key clock js_num planner [] 0); [exact encode_key_inj|apply one_repair].
Defined.

Definition timed : RecoveryDecision :=
  mkRecovery "RCV-0" "MSN-1" "FC-2" PROBE_AND_BACKOFF "" 1 8 (Some "5000") "1000" rs_failed "1000" (Some "sha256:bb") None None None None None None.

Lemma deadline_only_tightens_witness :
  rd_deadline (decide_ plain_hash clock js_num planner (on saturated [timed])) = Some "5000" /\
  ((rd_deadline (decide_ plain_hash clock js_num planner (on saturated [timed])) = None /\
    rd_action (decide_ plain_hash clock js_num planner (on saturated [timed])) ∈ PARKING_WAIT_ACTIONS) \/
   exists t', t' <= 5000 /\
     rd_deadline (decide_ plain_hash clock js_num planner (on saturated [timed])) = Some (js_num t') /\
     (rd_action (decide_ plain_hash clock js_num planner (on saturated [timed])) <> STOP -> 1000 < t')).
Proof.
  split; [vm_compute; reflexivity|].
  apply (deadline_only_tightens plain_hash clock js_num planner (on saturated [timed]) timed 5000); [left|vm_compute; reflexivity..|discriminate|vm_compute; reflexivity].
Defined.

Lemma waits_never_stop_witness : rd_action (decide_ plain_hash clock js_num planner (on saturated (repeat timed 8))) ∈ PARKING_WAIT_ACTIONS.
Proof.
  apply (waits_never_stop plain_hash clock js_num planner (on saturated (repeat timed 8))); [reflexivity|by eexists|vm_compute; reflexivity].
Defined.

End RecoverySamples.
