(* ===== verification/MissionScheduler.v ===== *)
(** * The mission scheduler (src/orchestration/scheduler.ts)

    [Dispatch] models how the scheduler picks tasks: readiness, write conflicts,
    lane pre-check, concurrency limits, the bookkeeping of active tasks and one pass
    of the loop of [runMission]. [Resilience] models how one task is run
    ([executeWithRetry]): the retry window, the recovery probe, the outage ceilings
    and the statuses a task can end in. *)

From S2P Require Import Prelude JsMap Transitions MissionLifecycle WriteDomains Workset Lanes RetryTiming Breakers.
#[local] Open Scope string_scope.
#[local] Open Scope Z_scope.

Module Dispatch.
Import MissionLifecycle.Task.

Record SchedulerLimits := mkLimits { maxActive : Z; maxAgents : Z; maxSubprocesses : Z; maxPerRole : Z }.
Definition DEFAULT_LIMITS : SchedulerLimits := mkLimits 6 3 3 2.

(** The fields of [OrchestrationTask] dispatch reads. *)
Record OTask := mkOTask {
  ot_id : string;
  ot_kind : TaskKind;
  ot_role : string;
  ot_repo : option string;
  ot_deps : list string;
  ot_status : TaskStatus;
  ot_mutates : bool;
  ot_domains : list string;
}.

Notation Tasks := (jsmap string OTask).

Record Sched := mkSched {
  s_active : Tasks;
  s_agents : Z;
  s_subprocesses : Z;
  s_byRole : jsmap string Z;
}.

Definition initial : Sched := mkSched [] 0 0 [].

Definition is_agent (t : OTask) : bool := bool_decide (ot_kind t = agent).
Definition is_subprocess (t : OTask) : bool := bool_decide (ot_kind t = process) || bool_decide (ot_kind t = validation).
Definition is_model (t : OTask) : bool := bool_decide (ot_kind t = agent) || bool_decide (ot_kind t = review) || bool_decide (ot_kind t = research).

Definition laneRepoKey (t : OTask) (missionRepository : string) : string := nullish (ot_repo t) missionRepository.

(** What a pass reads besides the scheduler's own state: the concurrency the
    gateway advertises for a task's model, the cached lane claims, the tasks
    replaced by succeeded ones, and how the limits were configured. *)
Record Env := mkEnv {
  e_limits : SchedulerLimits;
  e_agentsExplicit : bool;
  e_perRoleExplicit : bool;
  e_capacity : OTask -> option Z;
  e_laneView : jsmap string (list LaneClaim);
  e_maxRepoWriters : Z;
  e_satisfied : string -> bool;
  e_repository : string;
}.

Definition role_count (s : Sched) (r : string) : Z := nullish (map_get r (s_byRole s)) 0.

(** The concurrency the gateway advertises for a model task, and the limits on
    agents and on a role in force for it. *)
Definition capacity (e : Env) (t : OTask) : option Z :=
  if is_model t then match e_capacity e t with Some n => if 0 <=? n then Some n else None | None => None end else None.
Definition agentLimit (e : Env) (t : OTask) : Z :=
  match capacity e t with
  | Some n => if e_agentsExplicit e then maxAgents (e_limits e) else Z.max (maxAgents (e_limits e)) n
  | None => maxAgents (e_limits e)
  end.
Definition roleLimit (e : Env) (t : OTask) : Z :=
  match capacity e t with
  | Some n => if e_perRoleExplicit e then maxPerRole (e_limits e) else n
  | None => maxPerRole (e_limits e)
  end.

Definition hasCapacity (e : Env) (s : Sched) (t : OTask) : bool :=
  negb (maxActive (e_limits e) <=? Z.of_nat (map_size (s_active s)))
  && negb (is_agent t && (agentLimit e t <=? s_agents s))
  && negb (is_subprocess t && (maxSubprocesses (e_limits e) <=? s_subprocesses s))
  && negb (roleLimit e t <=? role_count s (ot_role t)).

Definition acquire (t : OTask) (s : Sched) : Sched :=
  mkSched (map_set (ot_id t) t (s_active s))
    (if is_agent t then s_agents s + 1 else s_agents s)
    (if is_subprocess t then s_subprocesses s + 1 else s_subprocesses s)
    (map_set (ot_role t) (role_count s (ot_role t) + 1) (s_byRole s)).

Definition release (t : OTask) (s : Sched) : Sched :=
  mkSched (map_delete (ot_id t) (s_active s))
    (if is_agent t then s_agents s - 1 else s_agents s)
    (if is_subprocess t then s_subprocesses s - 1 else s_subprocesses s)
    (map_set (ot_role t) (Z.max 0 (role_count s (ot_role t) - 1)) (s_byRole s)).

(** Two bound tasks of different repositories never conflict. *)
Definition same_repo (t a : OTask) : bool :=
  match ot_repo t, ot_repo a with Some r, Some r' => bool_decide (r = r') | _, _ => true end.

Fixpoint some_conflict (active : list OTask) (t : OTask) : res WorksetValidationError bool :=
  match active with
  | [] => Ok false
  | a :: rest =>
      if ot_mutates a && same_repo t a then
        let! hit := domainsOverlap (ot_domains a) (ot_domains t) in
        if hit : bool then Ok true else some_conflict rest t
      else some_conflict rest t
  end.

Definition hasConflict (s : Sched) (t : OTask) : res WorksetValidationError bool :=
  if ot_mutates t then some_conflict (map_values (s_active s)) t else Ok false.

Fixpoint claims_block (claims : list LaneClaim) (taskId : string) (domains : list string) : lane_res bool :=
  match claims with
  | [] => Ok false
  | c :: cs =>
      if bool_decide (lc_taskId c = taskId) then claims_block cs taskId domains
      else let! hit := some_overlap domains (lc_domain c) in if hit : bool then Ok true else claims_block cs taskId domains
  end.

Definition laneViewBlocked (e : Env) (t : OTask) : lane_res bool :=
  if ot_mutates t then
    let claims := nullish (map_get (laneRepoKey t (e_repository e)) (e_laneView e)) [] in
    let! domains := laneDomainsOf (ot_kind t) (ot_domains t) in
    let! hit := claims_block claims (ot_id t) domains in
    if hit : bool then Ok true
    else Ok (negb (bool_decide (domains = [INTEGRATION_DOMAIN])) && (0 <? e_maxRepoWriters e) && (e_maxRepoWriters e <=? js_len (writers claims)))
  else Ok false.

Definition deps_done (e : Env) (tasks : Tasks) (t : OTask) : bool :=
  js_every (fun d => bool_decide (ot_status <$> map_get d tasks = Some SUCCEEDED) || e_satisfied e d) (ot_deps t).

(** One task of [runnable]. *)
Definition is_runnable (e : Env) (tasks : Tasks) (s : Sched) (t : OTask) : lane_res bool :=
  if negb (bool_decide (ot_status t = PENDING) || bool_decide (ot_status t = READY)) then Ok false
  else if map_has (ot_id t) (s_active s) then Ok false
  else if negb (deps_done e tasks t) then Ok false
  else
    let! conflict := lift (hasConflict s t) in
    if conflict : bool then Ok false
    else
      let! blocked := laneViewBlocked e t in
      if blocked : bool then Ok false else Ok (hasCapacity e s t).

Fixpoint runnable_from (e : Env) (tasks : Tasks) (s : Sched) (ts : list OTask) : lane_res (list OTask) :=
  match ts with
  | [] => Ok []
  | t :: ts' =>
      let! yes := is_runnable e tasks s t in
      let! rest := runnable_from e tasks s ts' in
      Ok (if yes : bool then t :: rest else rest)
  end.

Definition runnable (e : Env) (tasks : Tasks) (s : Sched) : lane_res (list OTask) := runnable_from e tasks s (map_values tasks).

(** [store.transitionTask(id, "READY")] unless it is READY already. *)
Definition make_ready (tasks : Tasks) (t : OTask) : Tasks :=
  match map_get (ot_id t) tasks with
  | Some u =>
      if bool_decide (ot_status u = READY) then tasks
      else map_set (ot_id t) (mkOTask (ot_id u) (ot_kind u) (ot_role u) (ot_repo u) (ot_deps u) READY (ot_mutates u) (ot_domains u)) tasks
  | None => tasks
  end.

(** The launch loop: conflicts and capacity are checked again against the tasks
    taken earlier in the same pass. A thrown error ends it. *)
Fixpoint launch (e : Env) (ts : list OTask) (tasks : Tasks) (s : Sched) : Tasks * Sched * lane_res unit :=
  match ts with
  | [] => (tasks, s, Ok tt)
  | t :: ts' =>
      match hasConflict s t with
      | Err x => (tasks, s, Err (LaneInvalidDomain x))
      | Ok true => launch e ts' tasks s
      | Ok false =>
          if hasCapacity e s t then launch e ts' (make_ready tasks t) (acquire t s)
          else launch e ts' tasks s
      end
  end.

Definition unfinished (tasks : Tasks) : list OTask :=
  js_filter (fun t => negb (js_includes (ot_status t) [SUCCEEDED; FAILED; CANCELED; SKIPPED])) (map_values tasks).

Inductive PassOutcome := launched (ts : list OTask) | wait_for_wake | pass_done.

Fixpoint some_lane_waiting (e : Env) (ts : list OTask) : lane_res bool :=
  match ts with
  | [] => Ok false
  | t :: ts' => let! b := laneViewBlocked e t in if b : bool then Ok true else some_lane_waiting e ts'
  end.

(** What a pass of [runMission] does with nothing to launch. *)
Definition idle (e : Env) (tasks : Tasks) (s : Sched) : lane_res PassOutcome :=
  if bool_decide (unfinished tasks = []) then Ok pass_done
  else if bool_decide (map_size (s_active s) = 0%nat) then
    let! waiting := some_lane_waiting e (unfinished tasks) in Ok (if waiting : bool then wait_for_wake else pass_done)
  else Ok wait_for_wake.

Definition pass (e : Env) (tasks : Tasks) (s : Sched) : Tasks * Sched * lane_res PassOutcome :=
  match runnable e tasks s with
  | Err x => (tasks, s, Err x)
  | Ok [] => (tasks, s, idle e tasks s)
  | Ok ts => let '(tasks', s', r) := launch e ts tasks s in (tasks', s', let! _ := r in Ok (launched ts))
  end.

(** ** Bookkeeping *)

Definition count (p : OTask -> bool) (m : Tasks) : Z := Z.of_nat (length (js_filter p (map_values m))).

Lemma count_set p t (m : Tasks) : ot_id t ∉ map_keys m -> count p (map_set (ot_id t) t m) = count p m + if p t then 1 else 0.
Proof.
  intros H. unfold count, map_values. rewrite map_set_absent by done. rewrite fmap_app, js_filter_app, length_app. cbn.
  destruct (p t); simpl; lia.
Qed.

Lemma count_delete p k t (m : Tasks) : map_get k m = Some t -> count p (map_delete k m) = count p m - if p t then 1 else 0.
Proof.
  unfold count, map_values. induction m as [|[k' u] m IH]; cbn [map_get map_delete]; [done|]. case_decide; intros Hk.
  - simplify_eq. cbn. destruct (p t); simpl; lia.
  - specialize (IH Hk). cbn. destruct (p u); simpl; lia.
Qed.

Lemma size_delete k t (m : Tasks) : map_get k m = Some t -> (map_size (map_delete k m) <= map_size m)%nat.
Proof.
  unfold map_size. induction m as [|[k' u] m IH]; cbn [map_get map_delete]; [done|]. case_decide; intros Hk; simpl; [lia|].
  specialize (IH Hk). lia.
Qed.

Lemma elem_delete k (m : Tasks) t : t ∈ map_values (map_delete k m) -> t ∈ map_values m.
Proof.
  unfold map_values. induction m as [|[k' u] m IH]; cbn [map_delete]; [done|]. case_decide; cbn; [intros Hx; by right|].
  intros [->|Hx]%elem_of_cons; [by left|right; by apply IH].
Qed.

(** No declared write domain of one task covers a path that one of the other covers. *)
Definition apart (a b : OTask) : Prop :=
  forall x y path, x ∈ ot_domains a -> y ∈ ot_domains b -> covers x path -> ~ covers y path.

(** Limits that were in force: the configured ones, and bounds on the limits on
    agents and on each role that passes have applied. *)
Record Bounds := mkBounds { bd_limits : SchedulerLimits; bd_agents : Z; bd_role : string -> Z }.

Record sched_ok (lim : Bounds) (s : Sched) : Prop := {
  so_map : map_ok (s_active s);
  so_ids : forall k t, map_get k (s_active s) = Some t -> ot_id t = k;
  so_agents : s_agents s = count is_agent (s_active s);
  so_subprocesses : s_subprocesses s = count is_subprocess (s_active s);
  so_roles : forall r, role_count s r = count (fun t => bool_decide (ot_role t = r)) (s_active s);
  so_apart : forall a b, a ∈ map_values (s_active s) -> b ∈ map_values (s_active s) -> ot_id a <> ot_id b ->
               ot_mutates a = true -> ot_mutates b = true -> same_repo a b = true -> apart a b;
  so_active : Z.of_nat (map_size (s_active s)) <= Z.max 0 (maxActive (bd_limits lim));
  so_processes : s_subprocesses s <= Z.max 0 (maxSubprocesses (bd_limits lim));
  so_agent_limit : s_agents s <= Z.max 0 (bd_agents lim);
  so_role_limit : forall r, role_count s r <= Z.max 0 (bd_role lim r);
}.

(** The limits a pass applies are within the bounds. *)
Record within (e : Env) (lim : Bounds) : Prop := {
  wi_limits : e_limits e = bd_limits lim;
  wi_agents : forall t, agentLimit e t <= bd_agents lim;
  wi_role : forall t, roleLimit e t <= bd_role lim (ot_role t);
}.

Lemma initial_ok lim : sched_ok lim initial.
Proof. split; cbn; try done; try (intros; lia); try (intros; unfold role_count; cbn; lia). - apply NoDup_nil_2. - intros a b Ha. by apply elem_of_nil in Ha. Qed.

Lemma role_count_set s' r n (m : jsmap string Z) : s_byRole s' = map_set r n m -> forall r', role_count s' r' = if decide (r = r') then n else nullish (map_get r' m) 0.
Proof. intros H r'. unfold role_count. rewrite H, map_get_set. by case_decide. Qed.

Lemma same_repo_sym a b : same_repo a b = same_repo b a.
Proof. unfold same_repo. destruct (ot_repo a), (ot_repo b); try done. apply bool_decide_ext. naive_solver. Qed.

Lemma apart_sym a b : apart a b -> apart b a.
Proof. intros H x y p Hx Hy H1 H2. by eapply (H y x p). Qed.

Lemma inner_overlap_false x b : domainsOverlap_inner x b = Ok false -> forall y path, y ∈ b -> covers x path -> ~ covers y path.
Proof.
  induction b as [|y b IH]; cbn [domainsOverlap_inner]; [by intros _ y p ?%elem_of_nil|].
  rewrite res_bind_ok. intros (nx & Ex & H). apply res_bind_ok in H as (ny & Ey & H).
  destruct (overlapping nx ny) eqn:E; [done|]. intros z p [->|Hz]%elem_of_cons; [|exact (IH H z p Hz)].
  intros (n1 & E1 & H1) (n2 & E2 & H2). rewrite Ex in E1. rewrite Ey in E2. injection E1 as <-. injection E2 as <-. apply not_true_iff_false in E. apply E, overlapping_true. by exists p.
Qed.

Lemma domainsOverlap_false a b : domainsOverlap a b = Ok false -> forall x y path, x ∈ a -> y ∈ b -> covers x path -> ~ covers y path.
Proof.
  induction a as [|x a IH]; cbn [domainsOverlap]; [by intros _ x y p ?%elem_of_nil|].
  rewrite res_bind_ok. intros ([|] & Eh & H); [done|]. intros z y p [->|Hz]%elem_of_cons Hy; [exact (inner_overlap_false _ _ Eh y p Hy)|exact (IH H z y p Hz Hy)].
Qed.

Lemma some_conflict_false active t :
  some_conflict active t = Ok false -> forall a, a ∈ active -> ot_mutates a = true -> same_repo t a = true -> apart a t.
Proof.
  induction active as [|a active IH]; cbn [some_conflict]; [by intros _ a ?%elem_of_nil|].
  destruct (ot_mutates a && same_repo t a) eqn:E.
  - rewrite res_bind_ok. intros ([|] & Eh & H); [done|]. intros b [->|Hb]%elem_of_cons; [|by apply IH].
    intros _ _ x y p Hx Hy. exact (domainsOverlap_false _ _ Eh x y p Hx Hy).
  - intros H b [->|Hb]%elem_of_cons; [|by apply IH]. intros H1 H2. by rewrite H1, H2 in E.
Qed.

Lemma acquire_ok e lim s t :
  within e lim -> sched_ok lim s -> ot_id t ∉ map_keys (s_active s) -> hasConflict s t = Ok false -> hasCapacity e s t = true ->
  sched_ok lim (acquire t s).
Proof.
  intros [W1 W2 W3] [I1 I2 I3 I4 I5 I6 I7 I8 I9 I10] Hnew Hconf Hcap. unfold hasCapacity in Hcap. rewrite !andb_true_iff, !negb_true_iff in Hcap.
  destruct Hcap as [[[C1 C2] C3] C4]. rewrite W1 in C1, C3. apply Z.leb_gt in C1, C4. specialize (W2 t). specialize (W3 t). split; cbn [acquire s_active s_agents s_subprocesses s_byRole].
  - by apply map_set_ok.
  - intros k u. rewrite map_get_set. case_decide; [by intros [= <-]|apply I2].
  - rewrite count_set by done. destruct (is_agent t); lia.
  - rewrite count_set by done. destruct (is_subprocess t); lia.
  - intros r. erewrite role_count_set by done. rewrite count_set by done. specialize (I5 r). unfold role_count in *. case_decide as Er.
    + subst r. rewrite bool_decide_eq_true_2 by done. lia.
    + rewrite bool_decide_eq_false_2 by done. lia.
  - unfold map_values. rewrite map_set_absent by done. rewrite fmap_app. cbn. fold (map_values (s_active s)).
    assert (Hct : ot_mutates t = true -> forall a, a ∈ map_values (s_active s) -> ot_mutates a = true -> same_repo t a = true -> apart a t).
    { intros Hm. unfold hasConflict in Hconf. rewrite Hm in Hconf. by apply some_conflict_false. }
    intros a b [Ha|Ha]%elem_of_app [Hb|Hb]%elem_of_app Hne Ma Mb Hr.
    + by apply I6.
    + apply list_elem_of_singleton in Hb as ->. apply Hct; [done|done|done|]. by rewrite same_repo_sym.
    + apply list_elem_of_singleton in Ha as ->. apply apart_sym, Hct; done.
    + apply list_elem_of_singleton in Ha as ->. by apply list_elem_of_singleton in Hb as ->.
  - rewrite map_size_set. destruct (map_has _ _); lia.
  - destruct (is_subprocess t) eqn:E; [|lia]. cbn [andb] in C3. apply Z.leb_gt in C3. lia.
  - destruct (is_agent t) eqn:E; [|lia]. cbn [andb] in C2. apply Z.leb_gt in C2. lia.
  - intros r. erewrite role_count_set by done. case_decide as Er; [subst r; lia|]. apply I10.
Qed.

Lemma release_ok lim s k t : sched_ok lim s -> map_get k (s_active s) = Some t -> sched_ok lim (release t s).
Proof.
  intros [I1 I2 I3 I4 I5 I6 I7 I8 I9 I10] Hk. pose proof (I2 k t Hk) as <-. split; cbn [release s_active s_agents s_subprocesses s_byRole].
  - by apply map_delete_ok.
  - intros k u Hu. destruct (decide (ot_id t = k)) as [<-|Hne]; [by rewrite map_get_delete_eq in Hu|].
    rewrite map_get_delete_ne in Hu by done. by apply I2.
  - rewrite (count_delete _ _ t) by done. destruct (is_agent t); lia.
  - rewrite (count_delete _ _ t) by done. destruct (is_subprocess t); lia.
  - intros r. erewrite role_count_set by done. rewrite (count_delete _ _ t) by done. specialize (I5 r). unfold role_count in *. case_decide as Er.
    + subst r. rewrite bool_decide_eq_true_2 by done.
      assert (1 <= count (fun u => bool_decide (ot_role u = ot_role t)) (s_active s)); [|lia].
      unfold count. enough (js_filter (fun u => bool_decide (ot_role u = ot_role t)) (map_values (s_active s)) <> []) by (destruct (js_filter _ _); [done|simpl; lia]).
      intros E. apply (proj1 (js_filter_nil _ _)) with (x := t) in E; [by rewrite bool_decide_eq_true_2 in E|].
      apply map_get_elem in Hk. apply list_elem_of_fmap. by exists (ot_id t, t).
    + rewrite bool_decide_eq_false_2 by done. lia.
  - intros a b Ha%elem_delete Hb%elem_delete. by apply I6.
  - pose proof (size_delete (ot_id t) t (s_active s) Hk). lia.
  - destruct (is_subprocess t); lia.
  - destruct (is_agent t); lia.
  - intros r. erewrite role_count_set by done. specialize (I10 r). unfold role_count in *. case_decide; [subst r|]; lia.
Qed.

Lemma launch_ok e lim ts tasks s :
  within e lim -> sched_ok lim s -> NoDup (map ot_id ts) -> (forall t, t ∈ ts -> ot_id t ∉ map_keys (s_active s)) ->
  sched_ok lim (snd (fst (launch e ts tasks s))).
Proof.
  intros Hw. revert tasks s. induction ts as [|t ts IH]; intros tasks s Hs Hnd Hnew; cbn [launch]; [done|].
  cbn [map] in Hnd. apply NoDup_cons in Hnd as [Ht Hnd].
  assert (Hrest : forall u, u ∈ ts -> ot_id u ∉ map_keys (s_active s)) by (intros u Hu; apply Hnew; by right).
  destruct (hasConflict s t) as [[|]|x] eqn:Ec; [by apply IH| |done]. destruct (hasCapacity e s t) eqn:Ecap; [|by apply IH].
  apply IH; [|done|].
  - apply (acquire_ok e); [done|done|apply Hnew; by left|done|done].
  - intros u Hu. cbn [acquire s_active]. rewrite map_set_keys_absent by (apply Hnew; by left). apply not_elem_of_app. split; [by apply Hrest|].
    intros E%list_elem_of_singleton. apply Ht. rewrite <- E. by apply list_elem_of_fmap_2.
Qed.

(** A mission's tasks as the store lists them. *)
Definition store_ok (tasks : Tasks) : Prop := map_ok tasks /\ forall k t, map_get k tasks = Some t -> ot_id t = k.

Lemma runnable_from_elem e tasks s ts out :
  runnable_from e tasks s ts = Ok out -> forall t, t ∈ out <-> t ∈ ts /\ is_runnable e tasks s t = Ok true.
Proof.
  revert out. induction ts as [|u ts IH]; intros out; cbn [runnable_from]; [intros [= <-] t; set_solver|].
  rewrite res_bind_ok. intros (yes & Eu & H). apply res_bind_ok in H as (rest & Er & [= <-]). intros t. specialize (IH rest Er t).
  destruct yes; rewrite ?elem_of_cons, IH; (split; [|intros [[->|?] ?]; [|by auto]]); try (intros [->|[? ?]]; auto); auto; [by intros [? ?]; auto|congruence].
Qed.

Lemma runnable_from_nodup e tasks s ts out : runnable_from e tasks s ts = Ok out -> NoDup (map ot_id ts) -> NoDup (map ot_id out).
Proof.
  revert out. induction ts as [|u ts IH]; intros out; cbn [runnable_from]; [by intros [= <-]|].
  rewrite res_bind_ok. intros (yes & Eu & H). apply res_bind_ok in H as (rest & Er & [= <-]). cbn [map]. intros [Hu Hnd]%NoDup_cons.
  specialize (IH rest Er Hnd). destruct yes; [|done]. cbn [map]. apply NoDup_cons. split; [|done].
  intros (t & Ht & Hin)%list_elem_of_fmap. apply (runnable_from_elem _ _ _ _ _ Er) in Hin as [Hin _]. apply Hu. rewrite Ht. by apply list_elem_of_fmap_2.
Qed.

Lemma store_ids tasks : store_ok tasks -> NoDup (map ot_id (map_values tasks)).
Proof.
  intros [Hok Hids]. replace (map ot_id (map_values tasks)) with (map_keys tasks); [done|]. unfold map_keys, map_values.
  rewrite map_map. apply map_ext_in. intros [k t] Hin. apply list_elem_of_In in Hin. cbn. symmetry. apply Hids. by apply map_elem_get.
Qed.

Lemma pass_ok e lim tasks s : within e lim -> sched_ok lim s -> store_ok tasks -> sched_ok lim (snd (fst (pass e tasks s))).
Proof.
  intros Hw Hs Hst. unfold pass. destruct (runnable e tasks s) as [[|t ts]|x] eqn:E; [done| |done].
  destruct (launch e (t :: ts) tasks s) as [[tasks' s'] r] eqn:El. cbn [fst snd].
  pose proof (launch_ok e lim (t :: ts) tasks s) as Hl. rewrite El in Hl. apply Hl; [done|done| |].
  - eapply runnable_from_nodup; [exact E|]. by apply store_ids.
  - intros u Hu. apply (runnable_from_elem _ _ _ _ _ E) in Hu as [_ Hr]. unfold is_runnable in Hr.
    case_match; [done|]. destruct (map_has (ot_id u) (s_active s)) eqn:Eh; [done|].
    apply map_get_none. unfold map_has in Eh. by destruct (map_get (ot_id u) (s_active s)).
Qed.

(** ** A run of the scheduler *)

Inductive SchedOp :=
| op_pass (e : Env) (tasks : Tasks)   (* one pass over the mission's tasks as they are then *)
| op_settled (k : string).            (* the run of an active task ends, whatever its outcome *)

Definition sched_step (o : SchedOp) (s : Sched) : Sched :=
  match o with
  | op_pass e tasks => snd (fst (pass e tasks s))
  | op_settled k => match map_get k (s_active s) with Some t => release t s | None => s end
  end.

Definition admissible (lim : Bounds) (o : SchedOp) : Prop :=
  match o with op_pass e tasks => within e lim /\ store_ok tasks | op_settled _ => True end.

(** C28: whatever missions, gateway capacities and lane views the passes meet and in
    whatever order tasks settle, the declared write domains of mutating tasks that are
    active together in the same repository (or in one not named) cover no common path;
    a mutating task that declares none is kept apart only by its lane claim. No task is
    active twice; the agent, subprocess and role counters are exactly the active tasks';
    and at every moment the active tasks, subprocesses, agents and tasks of each role are
    within the limits: the configured ones, or for agents and roles whose limit follows
    the gateway's advertised concurrency, the largest limit a pass applied. *)
Theorem dispatch_invariant lim os :
  Forall (admissible lim) os -> sched_ok lim (foldl (fun s o => sched_step o s) initial os).
Proof.
  intros Hos. enough (forall s, sched_ok lim s -> sched_ok lim (foldl (fun s o => sched_step o s) s os)) as H by apply H, initial_ok.
  induction os as [|o os IH]; intros s Hs; cbn [foldl]; [done|]. apply Forall_cons in Hos as [Ho Hos]. apply IH; [done|].
  destruct o as [e tasks|k]; cbn [sched_step]; [destruct Ho as [Hw Hst]; by apply pass_ok|].
  destruct (map_get k (s_active s)) as [t|] eqn:Ek; [|done]. by eapply release_ok.
Qed.

(** ** Deadlock detection *)

Lemma runnable_from_total e tasks s ts out : runnable_from e tasks s ts = Ok out -> forall t, t ∈ ts -> exists b, is_runnable e tasks s t = Ok b.
Proof.
  revert out. induction ts as [|u ts IH]; intros out; cbn [runnable_from]; [by intros _ t ?%elem_of_nil|].
  rewrite res_bind_ok. intros (yes & Eu & H). apply res_bind_ok in H as (rest & Er & _). intros t [->|Ht]%elem_of_cons; [by exists yes|by eapply IH].
Qed.

Lemma some_lane_waiting_false e ts : some_lane_waiting e ts = Ok false -> forall t, t ∈ ts -> laneViewBlocked e t = Ok false.
Proof.
  induction ts as [|u ts IH]; cbn [some_lane_waiting]; [by intros _ t ?%elem_of_nil|].
  rewrite res_bind_ok. intros ([|] & Eu & H); [done|]. intros t [->|Ht]%elem_of_cons; [done|by apply IH].
Qed.

Definition positive_limits (lim : SchedulerLimits) : Prop :=
  0 < maxActive lim /\ 0 < maxAgents lim /\ 0 < maxSubprocesses lim /\ 0 < maxPerRole lim.

Lemma idle_capacity e lim s t :
  sched_ok lim s -> s_active s = [] -> positive_limits (e_limits e) -> e_capacity e t <> Some 0 -> hasCapacity e s t = true.
Proof.
  intros Hs Ha (L1 & L2 & L3 & L4) Hc. pose proof (so_agents _ _ Hs) as Eag. pose proof (so_subprocesses _ _ Hs) as Esub.
  pose proof (so_roles _ _ Hs (ot_role t)) as Erole. rewrite Ha in *. cbn in Eag, Esub, Erole.
  assert (Hcap : forall n, e_capacity e t = Some n -> (0 <=? n) = true -> 0 < n).
  { intros n En Hn. apply Z.leb_le in Hn. destruct (decide (n = 0)) as [->|]; [done|lia]. }
  unfold hasCapacity, agentLimit, roleLimit, capacity. rewrite Ha. cbn [map_size length]. rewrite !andb_true_iff, !negb_true_iff.
  assert (Hgt : forall x y, y = 0 -> 0 < x -> (x <=? y) = false) by (intros; apply Z.leb_gt; lia).
  split_and!; [by apply Hgt| | |].
  - destruct (is_agent t); [|done]. apply Hgt; [done|]. destruct (is_model t); [|done].
    destruct (e_capacity e t) as [n|]; [|done]. destruct (0 <=? n); [|done]. destruct (e_agentsExplicit e); lia.
  - destruct (is_subprocess t); [|done]. by apply Hgt.
  - apply Hgt; [done|]. destruct (is_model t); [|done]. destruct (e_capacity e t) as [n|] eqn:En; [|done].
    destruct (0 <=? n) eqn:E0; [|done]. destruct (e_perRoleExplicit e); [done|]. by apply Hcap.
Qed.

(** C27: the scheduler does not give up while it could work. When a pass with no
    active task ends the run, every task that is still PENDING or READY waits for a
    dependency that has not succeeded (limits being positive and the gateway not
    advertising zero capacity). *)
Theorem pass_done_means_stuck e lim tasks s tasks' s' t :
  sched_ok lim s -> s_active s = [] -> positive_limits (e_limits e) -> (forall u, e_capacity e u <> Some 0) ->
  pass e tasks s = (tasks', s', Ok pass_done) ->
  t ∈ map_values tasks -> ot_status t = PENDING \/ ot_status t = READY -> deps_done e tasks t = false.
Proof.
  intros Hs Ha Hl Hc Hp Ht Hst. apply not_true_is_false. intros Hd. unfold pass in Hp.
  destruct (runnable e tasks s) as [[|u us]|x] eqn:Er; [|by destruct (launch _ _ _ _) as [[? ?] [?|?]]|done].
  injection Hp as <- <- Hi. unfold idle in Hi.
  assert (Hu : t ∈ unfinished tasks).
  { apply js_filter_elem. split; [done|]. destruct Hst as [-> | ->]; reflexivity. }
  rewrite bool_decide_eq_false_2 in Hi by (by intros E; rewrite E in Hu; apply elem_of_nil in Hu).
  rewrite Ha in Hi. cbn [map_size length] in Hi. rewrite bool_decide_eq_true_2 in Hi by done.
  apply res_bind_ok in Hi as ([|] & Hw & Hi); [done|]. pose proof (some_lane_waiting_false _ _ Hw t Hu) as Hlane.
  assert (Hr : is_runnable e tasks s t = Ok true).
  { unfold is_runnable. rewrite Hd, Ha. replace (negb _) with false by (by destruct Hst as [-> | ->]). cbn [map_has map_get negb].
    unfold hasConflict. rewrite Ha. cbn [map_values fmap list_fmap some_conflict]. destruct (ot_mutates t); cbn [lift res_bind];
    rewrite Hlane; cbn [res_bind]; by rewrite (idle_capacity e lim). }
  assert (Hin : t ∈ []) by (by apply (runnable_from_elem _ _ _ _ _ Er)). by apply elem_of_nil in Hin.
Qed.

(** ** Samples *)

Definition sample_env (capacity : option Z) (view : jsmap string (list LaneClaim)) (cap : Z) : Env :=
  mkEnv DEFAULT_LIMITS false false (fun _ => capacity) view cap (fun _ => false) "repo".
Definition sample_task (id : string) (deps domains : list string) : OTask := mkOTask id agent "implementer" None deps PENDING true domains.
Definition sample_tasks : Tasks :=
  [("a", sample_task "a" [] ["src/a"]); ("b", sample_task "b" [] ["src/a/b"]); ("c", sample_task "c" ["a"] ["src/c"])].

Example sample_pass : map_keys (s_active (snd (fst (pass (sample_env None [] 0) sample_tasks initial)))) = ["a"].
Proof. vm_compute. reflexivity. Qed.

(** A gateway that advertises no free slot for the moment ends the run, although
    a task is ready. *)
Lemma zero_capacity_ends_run :
  snd (pass (sample_env (Some 0) [] 0) sample_tasks initial) = Ok pass_done /\ deps_done (sample_env (Some 0) [] 0) sample_tasks (sample_task "a" [] ["src/a"]) = true.
Proof. vm_compute. done. Qed.

(** A task's own claim counts against the writer cap of the pre-check, although
    the grant itself would ignore it. *)
Lemma own_claim_blocks :
  let claims := [mkClaim "src/a" "owner" "M" "a" 1 0 1000] in
  laneViewBlocked (sample_env None [("repo", claims)] 1) (sample_task "a" [] ["src/a"]) = Ok true /\
  is_ok (grantClaims claims (mkAcquire "repo" ["src/a"] "owner" "M" "a") 1000 1 10) = true.
Proof. vm_compute. done. Qed.

Lemma sample_store_ok : store_ok sample_tasks.
Proof.
  split; [apply (bool_decide_unpack _); vm_compute; exact I|].
  intros k t H. apply map_get_elem, list_elem_of_In in H. by destruct H as [[= <- <-]|[[= <- <-]|[[= <- <-]|[]]]].
Qed.

(** Two mutating tasks that declare no write domains are active together. *)
Lemma undeclared_writers_together :
  map_keys (s_active (snd (fst (pass (sample_env None [] 0) [("a", sample_task "a" [] []); ("b", sample_task "b" [] [])] initial)))) = ["a"; "b"].
Proof. vm_compute. reflexivity. Qed.

Definition sample_bounds : Bounds := mkBounds DEFAULT_LIMITS 5 (fun _ => 5).
Definition sample_ops : list SchedOp :=
  [op_pass (sample_env None [] 0) sample_tasks; op_settled "a"; op_pass (sample_env (Some 5) [] 0) sample_tasks].

Lemma sample_within n : n = None \/ n = Some 5 -> within (sample_env n [] 0) sample_bounds.
Proof.
  intros Hn. split; [done|..]; intros t; unfold agentLimit, roleLimit, capacity; destruct (is_model t); cbn;
    destruct Hn as [-> | ->]; cbn; lia.
Qed.

Lemma dispatch_invariant_witness : sched_ok sample_bounds (foldl (fun s o => sched_step o s) initial sample_ops).
Proof.
  apply dispatch_invariant. constructor; [split; [apply sample_within; by left|apply sample_store_ok]|]. constructor; [done|].
  constructor; [split; [apply sample_within; by right|apply sample_store_ok]|constructor].
Defined.

Lemma pass_done_means_stuck_witness :
  deps_done (sample_env None [] 0) [("c", sample_task "c" ["a"] ["src/c"])] (sample_task "c" ["a"] ["src/c"]) = false.
Proof.
  eapply (pass_done_means_stuck (sample_env None [] 0) sample_bounds [("c", sample_task "c" ["a"] ["src/c"])] initial); try reflexivity.
  - apply initial_ok.
  - repeat split; lia.
  - done.
  - by left.
  - by left.
Defined.
End Dispatch.
