(* ===== verification/TaskRun.v ===== *)
(** * Running one task (src/orchestration/scheduler.ts, [executeWithRetry])

    The retry loop of a dispatched task: the probe gate, the dispatch authority,
    the worker execution, the resilience window with its outage ceilings, the
    zero-tool and inactivity allowances, and the catch block. What the rest of the
    system answers in one round of the loop is a record of answers ([Round]); status
    changes other components make while the loop awaits are part of it. Status
    changes and launches of this loop are logged. Notices to the user, the choice of
    the candidate to continue from and the recovery journal are left out; whether
    the journal's planner stops the retry is one of the answers. *)

From S2P Require Import Prelude Transitions MissionLifecycle RetryTiming Breakers.
#[local] Open Scope string_scope.
#[local] Open Scope Z_scope.

Import MissionLifecycle.Task.
Notation MissionStatus := MissionLifecycle.Mission.MissionStatus.
#[local] Existing Instance MissionLifecycle.Mission.MissionStatus_eq_dec.
Notation Window := RetryTiming.RetryWindow.RetryWindowState.
Notation Breaker := Breakers.GatewayBreaker.CircuitBreaker.

Record GatewayResilienceConfig := mkResilience {
  retry_window_ms : Z;
  max_backoff_ms : option Z;
  max_relaunches : option Z;
  max_zero_tool_retries : option Z;
  max_outage_ms : option Z;
  probe_interval_ms : Z;
  retry_transient_errors : bool;
  jitter_ms : Z;
  circuit_breaker_threshold : Z;
}.

Definition DEFAULT_GATEWAY_RESILIENCE : GatewayResilienceConfig :=
  mkResilience (12 * 3600000) (Some 180000) (Some 100) (Some 20) None 10000 true 1000 5.

Definition MAX_INACTIVITY_RESUMES : Z := 3.
Definition UNLISTED_PROBES_BEFORE_VERIFY : Z := 3.
Definition INACTIVITY_MARKER : string := "inactivity".

Inductive InfraErrorCategory := TRANSIENT_INFRASTRUCTURE | RATE_LIMITED | CONTEXT_RECOVERABLE | AUTH_CONFIG | INVALID_REQUEST.

Definition CATEGORY_TO_STATE (c : InfraErrorCategory) : MissionStatus :=
  match c with
  | TRANSIENT_INFRASTRUCTURE => Mission.WAITING_FOR_LLM
  | RATE_LIMITED => Mission.WAITING_FOR_CAPACITY
  | CONTEXT_RECOVERABLE => Mission.RECOVERING_CONTEXT
  | AUTH_CONFIG | INVALID_REQUEST => Mission.NEEDS_ATTENTION
  end.

Fixpoint string_drop (n : nat) (s : string) : string :=
  match n, s with
  | S n', String _ s' => string_drop n' s'
  | _, _ => s
  end.

Definition infraCategoryFromWorkerMarker (marker : option string) : option InfraErrorCategory :=
  match marker with
  | Some m =>
      if js_startsWith m "transient:" then
        let sub := string_drop (String.length "transient:") m in
        if bool_decide (sub = "rate_limit") then Some RATE_LIMITED
        else if bool_decide (sub = "compaction") then Some CONTEXT_RECOVERABLE
        else if bool_decide (sub = "context_overflow") then None
        else if bool_decide (sub = "permanent") || bool_decide (sub = "model_unavailable") || bool_decide (sub = "server_error") then None
        else Some TRANSIENT_INFRASTRUCTURE
      else None
  | None => None
  end.

(** ** State *)

Inductive Entry := launched | moved (to : TaskStatus).
#[export] Instance Entry_eq_dec : EqDecision Entry.
Proof. solve_decision. Defined.

Record St := mkSt {
  task : TaskStatus;
  mission : option MissionStatus;
  window : option Window;
  breaker : option Breaker;
  outageStartedAt : option Z;
  relaunches : Z;
  zeroToolRetries : Z;
  zeroToolHeld : bool;
  unlistedProbes : Z;
  verifyingUnlisted : bool;
  authorityLost : bool;
  log : list Entry;
}.

Definition set_task (t : TaskStatus) (s : St) : St :=
  mkSt t (mission s) (window s) (breaker s) (outageStartedAt s) (relaunches s) (zeroToolRetries s) (zeroToolHeld s) (unlistedProbes s) (verifyingUnlisted s) (authorityLost s) (log s).
Definition set_mission (m : option MissionStatus) (s : St) : St :=
  mkSt (task s) m (window s) (breaker s) (outageStartedAt s) (relaunches s) (zeroToolRetries s) (zeroToolHeld s) (unlistedProbes s) (verifyingUnlisted s) (authorityLost s) (log s).
Definition set_window (w : option Window) (s : St) : St :=
  mkSt (task s) (mission s) w (breaker s) (outageStartedAt s) (relaunches s) (zeroToolRetries s) (zeroToolHeld s) (unlistedProbes s) (verifyingUnlisted s) (authorityLost s) (log s).
Definition set_breaker (b : option Breaker) (s : St) : St :=
  mkSt (task s) (mission s) (window s) b (outageStartedAt s) (relaunches s) (zeroToolRetries s) (zeroToolHeld s) (unlistedProbes s) (verifyingUnlisted s) (authorityLost s) (log s).
Definition set_outage (o : option Z) (r : Z) (s : St) : St :=
  mkSt (task s) (mission s) (window s) (breaker s) o r (zeroToolRetries s) (zeroToolHeld s) (unlistedProbes s) (verifyingUnlisted s) (authorityLost s) (log s).
Definition set_zero (n : Z) (held : bool) (s : St) : St :=
  mkSt (task s) (mission s) (window s) (breaker s) (outageStartedAt s) (relaunches s) n held (unlistedProbes s) (verifyingUnlisted s) (authorityLost s) (log s).
Definition set_unlisted (n : Z) (v : bool) (s : St) : St :=
  mkSt (task s) (mission s) (window s) (breaker s) (outageStartedAt s) (relaunches s) (zeroToolRetries s) (zeroToolHeld s) n v (authorityLost s) (log s).
Definition lose_authority (s : St) : St :=
  mkSt (task s) (mission s) (window s) (breaker s) (outageStartedAt s) (relaunches s) (zeroToolRetries s) (zeroToolHeld s) (unlistedProbes s) (verifyingUnlisted s) true (log s).
Definition note (e : Entry) (s : St) : St :=
  mkSt (task s) (mission s) (window s) (breaker s) (outageStartedAt s) (relaunches s) (zeroToolRetries s) (zeroToolHeld s) (unlistedProbes s) (verifyingUnlisted s) (authorityLost s) (log s ++ [e])%list.

(** [store.transitionTask]: [None] when the transition is illegal (it throws). *)
Definition transitionTask (to : TaskStatus) (s : St) : option St :=
  if canTransitionTask (task s) to then Some (note (moved to) (set_task to s)) else None.

(** ** Parking the mission *)

Definition parkMission (state : MissionStatus) (s : St) : St :=
  match mission s with
  | None => s
  | Some m => if bool_decide (m = state) then s else if Mission.canTransitionMission m state then set_mission (Some state) s else s
  end.

Definition parked_states : list MissionStatus :=
  [Mission.WAITING_FOR_LLM; Mission.WAITING_FOR_CAPACITY; Mission.WAITING_FOR_GATEWAY; Mission.WAITING_FOR_MODEL; Mission.WAITING_FOR_TOOL;
   Mission.RECOVERING_CONTEXT; Mission.RECOVERING_PROCESS; Mission.PAUSED_INFRASTRUCTURE].

(** [othersRetrying]: another task of the mission is RETRYING. *)
Definition resumeToExecuting (othersRetrying : bool) (s : St) : St :=
  match mission s with
  | None => s
  | Some m =>
      if bool_decide (m = Mission.EXECUTING) || negb (js_includes m parked_states) || othersRetrying || bool_decide (task s = RETRYING) then s
      else if Mission.canTransitionMission m Mission.EXECUTING then set_mission (Some Mission.EXECUTING) s else s
  end.

Definition clearResilience (s : St) : St := set_unlisted 0 false (set_breaker None (set_window None s)).
Definition forgetOutage (s : St) : St := set_zero 0 false (set_outage None 0 s).
Definition leaveResilienceWindow (othersRetrying : bool) (s : St) : St := resumeToExecuting othersRetrying (forgetOutage (clearResilience s)).

Definition markTaskResumable (s : St) : St :=
  if bool_decide (task s = RUNNING) then default s (transitionTask RETRYING s) else s.

Definition pauseMission (s : St) : bool * St :=
  match mission s with
  | None => (false, s)
  | Some _ => (true, clearResilience (markTaskResumable (parkMission Mission.PAUSED_INFRASTRUCTURE s)))
  end.

Definition breakerFailure (cfg : GatewayResilienceConfig) (now : Z) (s : St) : St :=
  let b := match breaker s with
           | Some b => b
           | None => GatewayBreaker.new (Some (circuit_breaker_threshold cfg)) (Some (probe_interval_ms cfg))
           end in
  set_breaker (Some (GatewayBreaker.recordFailure now b)) s.

Definition breakerSuccess (s : St) : St := set_breaker None s.

(** ** Aborts *)

Inductive Signal := not_aborted | pause_abort | cancel_abort.
#[export] Instance Signal_eq_dec : EqDecision Signal.
Proof. solve_decision. Defined.

Definition cancelTask (s : St) : St :=
  let s1 := set_unlisted 0 false s in
  if js_includes (task s1) [SUCCEEDED; FAILED; CANCELED; SKIPPED] then s1 else default s1 (transitionTask CANCELED s1).

Definition stopTaskOnAbort (sig : Signal) (s : St) : St :=
  if bool_decide (sig = pause_abort) then (if bool_decide (task s = RUNNING) then default s (transitionTask RETRYING s) else s)
  else cancelTask s.

(** ** The probe gate *)

Record ProbeResult := mkProbe { pr_healthy : bool; pr_authoritative : option bool; pr_model_unlisted : bool }.

Inductive Gate := proceed | wait | paused | aborted.

(** Aborts while the gate probes ([during]) or sleeps ([sleeping]). *)
Definition probeGate (cfg : GatewayResilienceConfig) (now : Z) (during sleeping : Signal) (probe : ProbeResult) (s : St) : Gate * St :=
  let waited := if bool_decide (sleeping = not_aborted) then wait else aborted in
  match window s with
  | None => (proceed, s)
  | Some w =>
      if negb (RetryTiming.RetryWindow.windowOpen w now) then
        let '(p, s1) := pauseMission s in ((if p then paused else proceed), s1)
      else if match breaker s with Some b => negb (GatewayBreaker.allowRequest now b) | None => false end then (waited, s)
      else
        let s1 := match breaker s with Some b => set_breaker (Some (snd (GatewayBreaker.tryHalfOpen now b))) s | None => s end in
        if negb (bool_decide (during = not_aborted)) then (aborted, s1)
        else if pr_healthy probe && negb (bool_decide (pr_authoritative probe = Some false) && zeroToolHeld s1)
        then (proceed, set_unlisted 0 (verifyingUnlisted s1) s1)
        else if pr_model_unlisted probe then
          if UNLISTED_PROBES_BEFORE_VERIFY <=? unlistedProbes s1 + 1 then (proceed, set_unlisted 0 true s1)
          else (waited, set_unlisted (unlistedProbes s1 + 1) (verifyingUnlisted s1) s1)
        else (waited, set_unlisted 0 (verifyingUnlisted s1) s1)
  end.

(** ** Ceilings and pacing *)

(** One more infrastructure failure: has the outage hit its duration or relaunch
    ceiling? *)
Definition outageCeiling (cfg : GatewayResilienceConfig) (now : Z) (s : St) : bool * St :=
  let started := nullish (outageStartedAt s) now in
  let n := relaunches s + 1 in
  let s1 := set_outage (Some started) n s in
  (match max_outage_ms cfg with Some mx => mx <=? now - started | None => false end
   || match max_relaunches cfg with Some mx => mx <? n | None => false end, s1).

Definition backoffMs (cfg : GatewayResilienceConfig) (failures : Z) : Z :=
  Z.min (nullish (max_backoff_ms cfg) (probe_interval_ms cfg)) (probe_interval_ms cfg * 2 ^ Z.min failures 30).

(** [jitter] is [Math.round(cfg.jitter_ms * rand())] where jitter is configured. *)
Definition resilienceGate (cfg : GatewayResilienceConfig) (now jitter : Z) (cat : InfraErrorCategory) (s : St) : (bool * Z * bool) * St :=
  if negb (retry_transient_errors cfg) then ((false, 0, false), s)
  else
    let w := match window s with Some w => w | None => RetryTiming.RetryWindow.startRetryWindow now (retry_window_ms cfg) end in
    let s0 := set_window (Some w) s in
    if negb (RetryTiming.RetryWindow.windowOpen w now) then
      let '(p, s1) := pauseMission s0 in ((false, 0, p), s1)
    else
      let s1 := breakerFailure cfg now (parkMission (CATEGORY_TO_STATE cat) s0) in
      let s2 := set_window (Some (RetryTiming.RetryWindow.recordProbe w now)) s1 in
      ((true, backoffMs cfg (RetryTiming.RetryWindow.probe_count w) + (if 0 <? jitter_ms cfg then jitter else 0), false), s2).

(** ** One round of the loop *)

Inductive AuthorityAnswer := auth_unused | auth_granted | auth_leased | auth_error.
Inductive FailureAction := act_retry | act_repair | act_block.
#[export] Instance FailureAction_eq_dec : EqDecision FailureAction.
Proof. solve_decision. Defined.

Record Outcome := mkOutcome { oc_succeeded : bool; oc_error : option string; oc_toolCalls : option Z }.

(** The points at which the dispatch authority is asserted. *)
Inductive Point := after_execute | after_result | before_settle | before_success | in_catch | catch_settle.

(** What the loop meets in one round. [ext_*] are the status changes other
    components make during the awaits: before the worker starts, while it runs, and
    while the recovery journal is flushed. *)
Record Round := mkRound {
  q_now : Z;
  q_jitter : Z;
  q_signal : Signal;                 (* at the top of the loop *)
  q_during : Signal;
  q_sleeping : Signal;
  q_probe : ProbeResult;
  q_authority : AuthorityAnswer;
  q_authority_signal : Signal;
  q_ext_start : TaskStatus -> TaskStatus;
  q_execute : bool;                  (* broker.execute() returns a handle *)
  q_execute_signal : Signal;
  q_ext_run : TaskStatus -> TaskStatus;
  q_outcome : option Outcome;        (* [None]: result() throws *)
  q_holds : Point -> bool;
  q_stop : bool;                     (* the recovery planner stops the retry *)
  q_ext_plan : TaskStatus -> TaskStatus;
  q_wait_signal : Signal;
  q_catch_signal : Signal;
  q_action : FailureAction;          (* classifyFailure of a thrown error *)
}.

Record Loc := mkLoc { attempt : Z; inactivityResumes : Z }.

Inductive Next := again (s : St) (l : Loc) | return_ (s : St) | escaped (s : St).

Section Run.
Context (cfg : GatewayResilienceConfig) (isAgent : bool) (max_attempts : Z) (othersRetrying : bool).

Definition holds (q : Round) (p : Point) : bool :=
  match q_authority q with auth_granted => q_holds q p | _ => true end.

Definition taskAlreadyTerminal (s : St) : bool := js_includes (task s) [SUCCEEDED; FAILED; CANCELED; BLOCKED; SKIPPED].

Definition change (f : TaskStatus -> TaskStatus) (s : St) : St := set_task (f (task s)) s.

(** Settling as FAILED: the assertion, the terminal check, the transition.
    [None]: an error is thrown. *)
Definition fail_task (q : Round) (p : Point) (s : St) : option St :=
  if holds q p then (if taskAlreadyTerminal s then Some s else transitionTask FAILED s) else None.

(** The [catch] block. *)
Definition catch_block (q : Round) (s : St) (l : Loc) : Next :=
  if negb (holds q in_catch) then return_ (lose_authority s)
  else if negb (bool_decide (q_catch_signal q = not_aborted)) then return_ (stopTaskOnAbort (q_catch_signal q) s)
  else if bool_decide (task s = CANCELED) then return_ s
  else if bool_decide (q_action q = act_retry) && (attempt l <? max_attempts) then
    let s1 := change (q_ext_plan q) s in
    if q_stop q then match fail_task q catch_settle s1 with Some s2 => return_ s2 | None => escaped s1 end
    else if negb (holds q catch_settle) then escaped s1
    else if taskAlreadyTerminal s1 then return_ s1
    else if bool_decide (task s1 = READY) then again s1 l
    else match transitionTask RETRYING s1 with Some s2 => again s2 l | None => escaped s1 end
  else match fail_task q catch_settle s with Some s1 => return_ s1 | None => escaped s end.

(** A retry after a worker failure: the journal, the assertion, RETRYING. *)
Definition retry_task (q : Round) (s : St) (l : Loc) (sleeps : bool) : Next :=
  let s1 := change (q_ext_plan q) s in
  if negb (holds q before_settle) then catch_block q s1 l
  else if taskAlreadyTerminal s1 then return_ s1
  else match transitionTask RETRYING s1 with
       | None => catch_block q s1 l
       | Some s2 =>
           if sleeps && negb (bool_decide (q_wait_signal q = not_aborted)) then return_ (stopTaskOnAbort (q_wait_signal q) s2)
           else again s2 l
       end.

Definition settle_failed (q : Round) (s : St) (l : Loc) : Next :=
  match fail_task q before_settle s with Some s1 => return_ s1 | None => catch_block q s l end.

(** A worker that ended without success. *)
Definition worker_failed (q : Round) (o : Outcome) (s : St) (l : Loc) : Next :=
  let cat := infraCategoryFromWorkerMarker (oc_error o) in
  let zeroTool := bool_decide (is_Some cat) && isAgent && bool_decide (oc_toolCalls o = Some 0) in
  let '(ceiling, s1) := match cat with Some _ => if zeroTool then (false, s) else outageCeiling cfg (q_now q) s | None => (false, s) end in
  if ceiling : bool then settle_failed q s1 l
  else
    let '((retry, _, is_paused), s2) := match cat with Some c => resilienceGate cfg (q_now q) (q_jitter q) c s1 | None => ((false, 0, false), s1) end in
    if is_paused : bool then return_ s2
    else if retry : bool then
      let cap := nullish (max_zero_tool_retries cfg) (nullish (max_zero_tool_retries DEFAULT_GATEWAY_RESILIENCE) 0) in
      let s3 := if zeroTool then set_zero (zeroToolRetries s2 + 1) (zeroToolHeld s2 || (cap <? zeroToolRetries s2 + 1)) s2 else s2 in
      let l1 := if zeroTool then mkLoc (attempt l - 1) (inactivityResumes l) else l in
      if q_stop q then settle_failed q (change (q_ext_plan q) s3) l1 else retry_task q s3 l1 true
    else if bool_decide (oc_error o = Some INACTIVITY_MARKER) && (inactivityResumes l <? MAX_INACTIVITY_RESUMES) then
      let l1 := mkLoc (attempt l) (inactivityResumes l + 1) in
      if q_stop q then settle_failed q (change (q_ext_plan q) s2) l1 else retry_task q s2 l1 false
    else settle_failed q s2 l.

(** The [try] block: the execution, the assertions, RUNNING, the outcome. *)
Definition launch (q : Round) (s : St) (l : Loc) : Next :=
  if negb (q_execute q) then catch_block q s l
  else
    let s0 := note launched s in
    if negb (bool_decide (q_execute_signal q = not_aborted)) then return_ s0
    else if negb (holds q after_execute) then catch_block q s0 l
    else match transitionTask RUNNING s0 with
         | None => catch_block q s0 l
         | Some s1 =>
             let s2 := change (q_ext_run q) s1 in
             match q_outcome q with
             | None => catch_block q s2 l
             | Some o =>
                 if negb (holds q after_result) then catch_block q s2 l
                 else if negb (bool_decide (task s2 = RUNNING)) then return_ s2
                 else if negb (oc_succeeded o) then worker_failed q o s2 l
                 else
                   let s3 := resumeToExecuting othersRetrying (forgetOutage (clearResilience (breakerSuccess s2))) in
                   if negb (holds q before_success) then catch_block q s3 l
                   else match transitionTask SUCCEEDED s3 with Some s4 => return_ s4 | None => catch_block q s3 l end
             end
         end.

(** One round. *)
Definition round (q : Round) (s : St) (l : Loc) : Next :=
  if negb (bool_decide (q_signal q = not_aborted)) then return_ (stopTaskOnAbort (q_signal q) s)
  else
    match probeGate cfg (q_now q) (q_during q) (q_sleeping q) (q_probe q) s with
    | (aborted, s1) => return_ (stopTaskOnAbort (if bool_decide (q_during q = not_aborted) then q_sleeping q else q_during q) s1)
    | (paused, s1) => return_ s1
    | (wait, s1) => again s1 l
    | (proceed, s1) =>
        let l1 := mkLoc (attempt l + 1) (inactivityResumes l) in
        let s2 := change (q_ext_start q) (set_unlisted (unlistedProbes s1) false s1) in
        match q_authority q with
        | auth_leased => return_ (if bool_decide (q_authority_signal q = not_aborted) then s2 else stopTaskOnAbort (q_authority_signal q) s2)
        | auth_error =>
            if negb (bool_decide (q_authority_signal q = not_aborted)) then return_ (stopTaskOnAbort (q_authority_signal q) s2)
            else match transitionTask BLOCKED s2 with Some s3 => return_ s3 | None => escaped s2 end
        | _ => launch q s2 l1
        end
    end.

(** [executeWithRetry] over the rounds it meets; [again] when they run out first. *)
Fixpoint executeWithRetry (qs : list Round) (s : St) (l : Loc) : Next :=
  match qs with
  | [] => again s l
  | q :: qs' => match round q s l with
                | again s1 l1 => executeWithRetry qs' s1 l1
                | other => other
                end
  end.
End Run.

(** ** What the steps leave alone *)

(** [s'] continues [s]: entries satisfying [P] are appended to the log and the
    relaunch count is kept. *)
Definition extends (P : Entry -> Prop) (s s' : St) : Prop :=
  relaunches s' = relaunches s /\ exists es, log s' = (log s ++ es)%list /\ Forall P es.

Definition quiet_entry (e : Entry) : Prop := e <> launched /\ e <> moved SUCCEEDED.

Lemma extends_refl P s : extends P s s.
Proof. split; [done|]. exists []. by rewrite app_nil_r. Qed.

Lemma extends_same P s s' : relaunches s' = relaunches s -> log s' = log s -> extends P s s'.
Proof. intros H1 H2. split; [done|]. exists []. by rewrite app_nil_r. Qed.

Lemma extends_trans P s1 s2 s3 : extends P s1 s2 -> extends P s2 s3 -> extends P s1 s3.
Proof.
  intros [H1 (es1 & E1 & F1)] [H2 (es2 & E2 & F2)]. split; [congruence|]. exists (es1 ++ es2)%list.
  split; [by rewrite E2, E1, app_assoc|by apply Forall_app].
Qed.

Lemma transition_extends P to s s' : transitionTask to s = Some s' -> P (moved to) -> extends P s s'.
Proof.
  unfold transitionTask. case_match; [|done]. intros [= <-] HP. split; [done|]. exists [moved to]. split; [done|by constructor].
Qed.

Lemma default_transition_extends P to s : P (moved to) -> extends P s (default s (transitionTask to s)).
Proof. intros HP. destruct (transitionTask to s) eqn:E; [by eapply transition_extends|apply extends_refl]. Qed.

Lemma quiet_moved to : to <> SUCCEEDED -> quiet_entry (moved to).
Proof. intros H. split; [done|]. by intros [= ->]. Qed.

#[local] Hint Resolve extends_refl extends_same default_transition_extends quiet_moved : taskrun.

Lemma parkMission_extends P m s : extends P s (parkMission m s).
Proof. unfold parkMission. repeat case_match; auto with taskrun. Qed.

Lemma resumeToExecuting_extends P b s : extends P s (resumeToExecuting b s).
Proof. unfold resumeToExecuting. repeat case_match; auto with taskrun. Qed.

Lemma stop_extends sig s : extends quiet_entry s (stopTaskOnAbort sig s).
Proof.
  assert (Ht : forall to x, to <> SUCCEEDED -> extends quiet_entry x (default x (transitionTask to x))).
  { intros to x Hto. apply default_transition_extends. by apply quiet_moved. }
  unfold stopTaskOnAbort, cancelTask. destruct (bool_decide (sig = pause_abort)).
  - destruct (bool_decide (task s = RUNNING)); [by apply Ht|apply extends_refl].
  - apply (extends_trans _ _ (set_unlisted 0 false s)); [by apply extends_same|]. case_match; [apply extends_refl|by apply Ht].
Qed.

Lemma pauseMission_extends s : extends quiet_entry s (snd (pauseMission s)).
Proof.
  unfold pauseMission. destruct (mission s) eqn:Em; cbn [snd]; [|apply extends_refl].
  set (s1 := parkMission Mission.PAUSED_INFRASTRUCTURE s). apply (extends_trans _ _ s1); [apply parkMission_extends|]. apply (extends_trans _ _ (markTaskResumable s1)); [|by apply extends_same].
  unfold markTaskResumable. case_match; [|apply extends_refl]. apply default_transition_extends. by apply quiet_moved.
Qed.

Lemma probeGate_extends cfg now d w pr s g s' : probeGate cfg now d w pr s = (g, s') -> extends quiet_entry s s'.
Proof.
  unfold probeGate. destruct (window s) as [wd|]; [|intros [= _ <-]; apply extends_refl].
  case_match; [destruct (pauseMission s) as [p s1] eqn:Ep; intros [= _ <-]; replace s1 with (snd (pauseMission s)) by (by rewrite Ep); apply pauseMission_extends|].
  case_match; [intros [= _ <-]; apply extends_refl|].
  assert (Hb : extends quiet_entry s (match breaker s with Some b => set_breaker (Some (snd (GatewayBreaker.tryHalfOpen now b))) s | None => s end)).
  { case_match; by apply extends_same. }
  set (s1 := match breaker s with Some b => _ | None => s end) in *. clearbody s1.
  intros Hg. eapply extends_trans; [exact Hb|]. destruct (negb (bool_decide (d = not_aborted))); [by simplify_eq; apply extends_refl|].
  destruct (pr_healthy pr && _); [simplify_eq; by apply extends_same|]. destruct (pr_model_unlisted pr); [|simplify_eq; by apply extends_same].
  destruct (UNLISTED_PROBES_BEFORE_VERIFY <=? _); simplify_eq; by apply extends_same.
Qed.

Lemma resilienceGate_extends cfg now j c s r s' : resilienceGate cfg now j c s = (r, s') -> extends quiet_entry s s'.
Proof.
  unfold resilienceGate. case_match; [intros [= _ <-]; apply extends_refl|]. set (w := match window s with Some w => w | None => _ end).
  case_match.
  - destruct (pauseMission _) as [p s1] eqn:Ep. intros [= _ <-].
    apply (extends_trans _ _ (set_window (Some w) s)); [by apply extends_same|].
    replace s1 with (snd (pauseMission (set_window (Some w) s))) by (by rewrite Ep). apply pauseMission_extends.
  - intros [= _ <-]. apply (extends_trans _ _ (set_window (Some w) s)); [by apply extends_same|].
    eapply extends_trans; [apply (parkMission_extends _ (CATEGORY_TO_STATE c))|]. by apply extends_same.
Qed.

Definition state_of (n : Next) : St := match n with again s _ | return_ s | escaped s => s end.

Section RunProofs.
Context (cfg : GatewayResilienceConfig) (isAgent : bool) (max_attempts : Z) (othersRetrying : bool).
Notation catch_block := (catch_block max_attempts).
Notation worker_failed := (worker_failed cfg isAgent max_attempts).
Notation launch := (launch cfg isAgent max_attempts othersRetrying).
Notation round := (round cfg isAgent max_attempts othersRetrying).
Notation executeWithRetry := (executeWithRetry cfg isAgent max_attempts othersRetrying).

Lemma change_extends P f s : extends P s (change f s).
Proof. by apply extends_same. Qed.

Lemma fail_task_extends q p s s' : fail_task q p s = Some s' -> extends quiet_entry s s'.
Proof.
  unfold fail_task. case_match; [|done]. case_match; [intros [= <-]; apply extends_refl|].
  intros H1. eapply transition_extends; [exact H1|by apply quiet_moved].
Qed.

Lemma catch_block_extends q s l : extends quiet_entry s (state_of (catch_block q s l)).
Proof.
  unfold TaskRun.catch_block. case_match; [by apply extends_same|]. case_match; [apply stop_extends|]. case_match; [apply extends_refl|].
  case_match; [|destruct (fail_task q catch_settle s) eqn:E; [by apply fail_task_extends in E|apply extends_refl]].
  eapply extends_trans; [apply (change_extends _ (q_ext_plan q))|]. set (s1 := change _ s). clearbody s1.
  case_match; [destruct (fail_task q catch_settle s1) eqn:E; [by apply fail_task_extends in E|apply extends_refl]|].
  case_match; [apply extends_refl|]. case_match; [apply extends_refl|]. case_match; [apply extends_refl|].
  destruct (transitionTask RETRYING s1) eqn:E; [eapply transition_extends; [exact E|by apply quiet_moved]|apply extends_refl].
Qed.

Lemma settle_failed_extends q s l : extends quiet_entry s (state_of (settle_failed max_attempts q s l)).
Proof.
  unfold settle_failed. destruct (fail_task q before_settle s) eqn:E; [by apply fail_task_extends in E|apply catch_block_extends].
Qed.

Lemma retry_task_extends q s l b : extends quiet_entry s (state_of (retry_task max_attempts q s l b)).
Proof.
  unfold retry_task. eapply extends_trans; [apply (change_extends _ (q_ext_plan q))|]. set (s1 := change _ s). clearbody s1.
  case_match; [apply catch_block_extends|]. case_match; [apply extends_refl|].
  destruct (transitionTask RETRYING s1) as [s2|] eqn:E; [|apply catch_block_extends].
  eapply extends_trans; [eapply transition_extends; [exact E|by apply quiet_moved]|]. case_match; [apply stop_extends|apply extends_refl].
Qed.

Definition zero_tool (o : Outcome) : bool :=
  bool_decide (is_Some (infraCategoryFromWorkerMarker (oc_error o))) && isAgent && bool_decide (oc_toolCalls o = Some 0).

(** What a failed worker's round starts from: one more relaunch where the outage
    is counted. *)
Definition counted (o : Outcome) (s s1 : St) : Prop :=
  log s1 = log s /\ task s1 = task s /\ mission s1 = mission s /\
  relaunches s1 = relaunches s + (if bool_decide (is_Some (infraCategoryFromWorkerMarker (oc_error o))) && negb (zero_tool o) then 1 else 0).

Lemma worker_failed_cases q o s l :
  exists s1, counted o s s1 /\
    ((worker_failed q o s l = settle_failed max_attempts q s1 l) \/
     exists s2, extends quiet_entry s1 s2 /\
       (worker_failed q o s l = return_ s2 \/
        worker_failed q o s l = settle_failed max_attempts q s2 l \/
        (exists s3 l1, extends quiet_entry s2 s3 /\
           (l1 = (if zero_tool o then mkLoc (attempt l - 1) (inactivityResumes l) else l) /\ is_Some (infraCategoryFromWorkerMarker (oc_error o)) /\
            (zero_tool o = false -> forall mx, max_relaunches cfg = Some mx -> relaunches s1 <= mx) \/
            l1 = mkLoc (attempt l) (inactivityResumes l + 1) /\ inactivityResumes l < MAX_INACTIVITY_RESUMES) /\
           exists b, worker_failed q o s l = if q_stop q then settle_failed max_attempts q (change (q_ext_plan q) s3) l1 else retry_task max_attempts q s3 l1 b))).
Proof.
  unfold TaskRun.worker_failed. fold (zero_tool o).
  set (p := match infraCategoryFromWorkerMarker (oc_error o) with Some _ => if zero_tool o then (false, s) else outageCeiling cfg (q_now q) s | None => (false, s) end).
  destruct p as [ceiling s1] eqn:Ep. exists s1.
  assert (Hc : counted o s s1 /\ (ceiling = false -> zero_tool o = false -> is_Some (infraCategoryFromWorkerMarker (oc_error o)) ->
                 forall mx, max_relaunches cfg = Some mx -> relaunches s1 <= mx)).
  { subst p. unfold counted. destruct (infraCategoryFromWorkerMarker (oc_error o)) as [c|] eqn:Ec.
    - rewrite bool_decide_eq_true_2 by eauto. destruct (zero_tool o); cbn [negb andb].
      + injection Ep as <- <-. split; [split_and!; (done || lia)|done].
      + unfold outageCeiling in Ep. injection Ep as <- <-. split; [done|]. intros Hn _ _ mx Hmx. rewrite Hmx in Hn.
        apply orb_false_iff in Hn as [_ Hn]. apply Z.ltb_ge in Hn. done.
    - injection Ep as <- <-. rewrite bool_decide_eq_false_2 by apply is_Some_None. cbn [andb]. split; [split_and!; (done || lia)|].
      intros _ _ HS. by apply is_Some_None in HS. }
  destruct Hc as [Hc Hmax]. split; [done|]. destruct ceiling; [by left|right].
  destruct (match infraCategoryFromWorkerMarker (oc_error o) with Some c => resilienceGate cfg (q_now q) (q_jitter q) c s1 | None => ((false, 0, false), s1) end)
    as [[[retry ms] ps] s2] eqn:Er.
  exists s2. split.
  { destruct (infraCategoryFromWorkerMarker (oc_error o)); [by eapply resilienceGate_extends|]. injection Er as <- <- <- <-. apply extends_refl. }
  destruct ps; [by left|right]. destruct retry.
  - right. do 2 eexists. split; [|split; [left; split; [reflexivity|split]|by exists true]].
    + destruct (zero_tool o); [by apply extends_same|apply extends_refl].
    + destruct (infraCategoryFromWorkerMarker (oc_error o)); [eauto|]. injection Er. done.
    + intros Hz. apply Hmax; [done|done|]. destruct (infraCategoryFromWorkerMarker (oc_error o)); [eauto|]. injection Er. done.
  - destruct (bool_decide (oc_error o = Some INACTIVITY_MARKER) && (inactivityResumes l <? MAX_INACTIVITY_RESUMES)) eqn:Ei; [right|by left].
    apply andb_true_iff in Ei as [_ Ei%Z.ltb_lt]. do 2 eexists. split; [apply extends_refl|]. split; [right; by split|by exists false].
Qed.

Lemma worker_failed_extends q o s l : exists s1, counted o s s1 /\ extends quiet_entry s1 (state_of (worker_failed q o s l)).
Proof.
  destruct (worker_failed_cases q o s l) as (s1 & Hc & [->|(s2 & H2 & [->|[->|(s3 & l1 & H3 & _ & b & ->)]])]); exists s1; (split; [done|]).
  - apply settle_failed_extends.
  - done.
  - eapply extends_trans; [done|]. apply settle_failed_extends.
  - eapply extends_trans; [done|]. eapply extends_trans; [done|]. case_match; [|apply retry_task_extends].
    eapply extends_trans; [apply (change_extends _ (q_ext_plan q))|]. apply settle_failed_extends.
Qed.

(** ** Success is earned *)

Definition earned (q : Round) : Prop :=
  q_execute q = true /\ (exists o, q_outcome q = Some o /\ oc_succeeded o = true) /\ q_ext_run q RUNNING = RUNNING /\
  holds q after_execute = true /\ holds q after_result = true /\ holds q before_success = true.

(** How often this loop launched a worker, and moved the task to SUCCEEDED. *)
Definition runs (s : St) : nat := occ launched (log s).
Definition wins (s : St) : nat := occ (moved SUCCEEDED) (log s).

(** Only quiet entries were logged. *)
Definition logs (s s' : St) : Prop := exists es, log s' = (log s ++ es)%list /\ Forall quiet_entry es.

Lemma extends_logs s s' : extends quiet_entry s s' -> logs s s'.
Proof. by intros [_ H]. Qed.

Lemma logs_same s s' : log s' = log s -> logs s s'.
Proof. intros H. exists []. by rewrite app_nil_r. Qed.

Lemma logs_trans s1 s2 s3 : logs s1 s2 -> logs s2 s3 -> logs s1 s3.
Proof.
  intros (es1 & E1 & F1) (es2 & E2 & F2). exists (es1 ++ es2)%list. split; [by rewrite E2, E1, app_assoc|by apply Forall_app].
Qed.

Lemma logs_counts s s' : logs s s' -> runs s' = runs s /\ wins s' = wins s.
Proof.
  intros (es & E & F). unfold runs, wins. rewrite E, !occ_app. rewrite Forall_forall in F.
  rewrite (proj2 (occ_zero launched es)), (proj2 (occ_zero (moved SUCCEEDED) es)); [lia| |]; intros Hin; by destruct (F _ Hin).
Qed.

Lemma launched_counts s s' : logs (note launched s) s' -> runs s' = S (runs s) /\ wins s' = wins s.
Proof.
  intros [H1 H2]%logs_counts. rewrite H1, H2. unfold runs, wins. cbn [note log]. rewrite !occ_app, !occ_cons, !occ_nil.
  rewrite decide_True by done. rewrite decide_False by done. lia.
Qed.

Lemma catch_logs q s l : logs s (state_of (catch_block q s l)).
Proof. apply extends_logs, catch_block_extends. Qed.

Lemma worker_logs q o s l : logs s (state_of (worker_failed q o s l)).
Proof.
  destruct (worker_failed_extends q o s l) as (s1 & (Hl & _) & H). eapply logs_trans; [by apply logs_same|by apply extends_logs].
Qed.

Lemma success_prepared s : logs s (resumeToExecuting othersRetrying (forgetOutage (clearResilience (breakerSuccess s)))).
Proof. eapply logs_trans; [|apply extends_logs, resumeToExecuting_extends]. by apply logs_same. Qed.

(** The phases of a launch: everything logged before the worker's answer is quiet. *)
Inductive launch_phase (q : Round) (s : St) (l : Loc) : Next -> Prop :=
| ph_not_executed : launch_phase q s l (catch_block q s l)
| ph_caught s1 : logs (note launched s) s1 -> relaunches s1 = relaunches s \/ holds q before_success = false -> launch_phase q s l (catch_block q s1 l)
| ph_returned s1 : logs (note launched s) s1 -> launch_phase q s l (return_ s1)
| ph_failed s1 o : logs (note launched s) s1 -> q_outcome q = Some o -> task s1 = RUNNING -> relaunches s1 = relaunches s ->
    launch_phase q s l (worker_failed q o s1 l)
| ph_succeeded s1 s2 : logs (note launched s) s1 -> earned q -> transitionTask SUCCEEDED s1 = Some s2 -> launch_phase q s l (return_ s2).

Lemma resume_task b s : task (resumeToExecuting b s) = task s.
Proof. unfold resumeToExecuting. by repeat case_match. Qed.

Lemma prepared_task s : task (resumeToExecuting othersRetrying (forgetOutage (clearResilience (breakerSuccess s)))) = task s.
Proof. by rewrite resume_task. Qed.

Lemma transition_some to s : canTransitionTask (task s) to = true -> transitionTask to s = Some (note (moved to) (set_task to s)).
Proof. intros H. unfold transitionTask. by rewrite H. Qed.

Lemma transition_inv to s s' : transitionTask to s = Some s' -> task s' = to /\ relaunches s' = relaunches s.
Proof. unfold transitionTask. destruct (canTransitionTask (task s) to); [by intros [= <-]|done]. Qed.

Lemma launch_phases q s l : launch_phase q s l (launch q s l).
Proof.
  unfold TaskRun.launch. destruct (q_execute q) eqn:E0; cbn [negb]; [|apply ph_not_executed]. set (s0 := note launched s).
  assert (H0 : logs s0 s0) by by apply logs_same.
  case_match; [by apply ph_returned|]. destruct (holds q after_execute) eqn:E1; cbn [negb]; [|apply ph_caught; [done|by left]].
  destruct (transitionTask RUNNING s0) as [s1|] eqn:Et; [|apply ph_caught; [done|by left]].
  destruct (transition_inv _ _ _ Et) as [Hr Hrel].
  assert (H1 : logs s0 (change (q_ext_run q) s1)).
  { eapply logs_trans; [eapply extends_logs, transition_extends; [exact Et|by apply quiet_moved]|by apply logs_same]. }
  destruct (q_outcome q) as [o|] eqn:Eo; [|apply ph_caught; [done|by left]].
  destruct (holds q after_result) eqn:E2; cbn [negb]; [|apply ph_caught; [done|by left]].
  destruct (bool_decide (task (change (q_ext_run q) s1) = RUNNING)) eqn:E3; cbn [negb]; [|by apply ph_returned].
  apply bool_decide_eq_true in E3. destruct (oc_succeeded o) eqn:E4; cbn [negb]; [|by apply ph_failed].
  pose proof (logs_trans _ _ _ H1 (success_prepared _)) as H3. pose proof (prepared_task (change (q_ext_run q) s1)) as Ht. rewrite E3 in Ht.
  destruct (holds q before_success) eqn:E5; cbn [negb]; [|apply ph_caught; [exact H3|by right]].
  rewrite transition_some by by rewrite Ht. eapply ph_succeeded; [exact H3| |by rewrite transition_some by by rewrite Ht].
  change (task (change (q_ext_run q) s1)) with (q_ext_run q (task s1)) in E3. rewrite Hr in E3. split_and!; try done. by exists o.
Qed.

Lemma launch_success q s l : (wins s < wins (state_of (launch q s l)))%nat -> earned q.
Proof.
  destruct (launch_phases q s l) as [|s1 H1 _|s1 H1|s1 o H1 _ _ _|s1 s2 H1 He _]; [intros H; exfalso..|done].
  - destruct (logs_counts _ _ (catch_logs q s l)). lia.
  - destruct (launched_counts _ _ (logs_trans _ _ _ H1 (catch_logs q s1 l))). lia.
  - destruct (launched_counts _ _ H1). cbn in *. lia.
  - destruct (launched_counts _ _ (logs_trans _ _ _ H1 (worker_logs q o s1 l))). lia.
Qed.

(** The phases of a round. *)
Inductive round_phase (q : Round) (s : St) (l : Loc) : Next -> Prop :=
| ph_quiet n : logs s (state_of n) -> (forall s' l', n = again s' l' -> l' = l /\ relaunches s' = relaunches s) -> round_phase q s l n
| ph_launch s1 : logs s s1 -> relaunches s1 = relaunches s -> round_phase q s l (launch q s1 (mkLoc (attempt l + 1) (inactivityResumes l))).

Lemma round_phases q s l : round_phase q s l (round q s l).
Proof.
  unfold TaskRun.round. destruct (negb (bool_decide (q_signal q = not_aborted))); [apply ph_quiet; [apply extends_logs, stop_extends|done]|].
  destruct (probeGate cfg (q_now q) (q_during q) (q_sleeping q) (q_probe q) s) as [g s1] eqn:Eg. apply probeGate_extends in Eg.
  assert (Hstop : forall sig s2, extends quiet_entry s s2 -> round_phase q s l (return_ (stopTaskOnAbort sig s2))).
  { intros sig s2 H. apply ph_quiet; [|done]. apply extends_logs. eapply extends_trans; [exact H|apply stop_extends]. }
  set (s2 := change (q_ext_start q) (set_unlisted (unlistedProbes s1) false s1)).
  assert (H2 : extends quiet_entry s s2) by (eapply extends_trans; [exact Eg|by apply extends_same]). clearbody s2.
  destruct g; [| |by apply ph_quiet; [apply extends_logs|]|by apply Hstop].
  - destruct (q_authority q).
    + apply ph_launch; [by apply extends_logs|by destruct H2].
    + apply ph_launch; [by apply extends_logs|by destruct H2].
    + destruct (bool_decide (q_authority_signal q = not_aborted)); [by apply ph_quiet; [apply extends_logs|]|by apply Hstop].
    + destruct (negb (bool_decide (q_authority_signal q = not_aborted))); [by apply Hstop|].
      destruct (transitionTask BLOCKED s2) as [s3|] eqn:E; apply ph_quiet; try done; apply extends_logs; [|done].
      eapply extends_trans; [exact H2|]. eapply transition_extends; [exact E|by apply quiet_moved].
  - apply ph_quiet; [by apply extends_logs|]. intros s' l' [= <- <-]. split; [done|]. by destruct Eg.
Qed.

Lemma round_success q s l : (wins s < wins (state_of (round q s l)))%nat -> earned q.
Proof.
  destruct (round_phases q s l) as [n H _|s1 H _]; [destruct (logs_counts _ _ H); lia|].
  intros Hlt. apply launch_success with (s := s1) (l := mkLoc (attempt l + 1) (inactivityResumes l)).
  destruct (logs_counts _ _ H). lia.
Qed.

(** C29: success is earned. The loop moves a task to SUCCEEDED only in a round in
    which a worker was launched, reported success, found the task still RUNNING, and
    the process still held its dispatch authority before and after. *)
Theorem success_is_earned qs s l :
  (wins s < wins (state_of (executeWithRetry qs s l)))%nat -> exists q, q ∈ qs /\ earned q.
Proof.
  revert s l. induction qs as [|q qs IH]; intros s l; cbn [TaskRun.executeWithRetry]; [simpl; lia|]. intros H.
  destruct (decide (wins s < wins (state_of (round q s l)))%nat) as [Hq|Hq].
  - exists q. split; [by left|by apply round_success in Hq].
  - destruct (round q s l) as [s1 l1|s1|s1]; [|simpl in *; lia|simpl in *; lia].
    destruct (IH s1 l1) as (q' & Hin & He); [simpl in Hq; lia|]. exists q'. split; [by right|done].
Qed.

(** ** The number of launches *)

Lemma catch_again q s l s' l' :
  catch_block q s l = again s' l' -> l' = l /\ attempt l < max_attempts /\ relaunches s' = relaunches s /\ holds q in_catch = true.
Proof.
  intros H. pose proof (catch_block_extends q s l) as Hx. rewrite H in Hx. destruct Hx as [Hr _]. cbn in Hr. revert H. unfold TaskRun.catch_block.
  destruct (holds q in_catch); cbn [negb]; [|done]. do 2 (case_match; [done|]).
  destruct (bool_decide (q_action q = act_retry) && (attempt l <? max_attempts)) eqn:E; [|by case_match].
  apply andb_true_iff in E as [_ E%Z.ltb_lt]. case_match; [by case_match|]. do 2 (case_match; [done|]).
  case_match; [by intros [= _ <-]|]. case_match; [by intros [= _ <-]|done].
Qed.

Lemma settle_again q s l s' l' :
  settle_failed max_attempts q s l = again s' l' -> l' = l /\ attempt l < max_attempts /\ relaunches s' = relaunches s.
Proof. unfold settle_failed. case_match; [done|]. intros H1. apply catch_again in H1 as (-> & ? & ? & _). done. Qed.

Lemma retry_again q s l b s' l' : retry_task max_attempts q s l b = again s' l' -> l' = l /\ relaunches s' = relaunches s.
Proof.
  intros H. pose proof (retry_task_extends q s l b) as Hx. rewrite H in Hx. destruct Hx as [Hr _]. split; [|done]. revert H.
  unfold retry_task. case_match; [intros H1; by apply catch_again in H1 as [? _]|]. case_match; [done|].
  destruct (transitionTask RETRYING (change (q_ext_plan q) s)); [case_match; [done|by intros [= _ <-]]|intros H1; by apply catch_again in H1 as [? _]].
Qed.

(** The launches the allowances still permit. *)
Definition allowance (R : Z) (s : St) (l : Loc) : Z :=
  Z.max 0 (R - relaunches s) + Z.max 0 (MAX_INACTIVITY_RESUMES - inactivityResumes l) + Z.max 0 (max_attempts - attempt l).

Definition zero_tool_round (q : Round) : bool := match q_outcome q with Some o => zero_tool o | None => false end.
Definition zero_tool_rounds (qs : list Round) : Z := js_len (js_filter zero_tool_round qs).

Lemma worker_again R q o s a i s' l' :
  max_relaunches cfg = Some R -> worker_failed q o s (mkLoc (a + 1) i) = again s' l' ->
  allowance R s' l' + 1 <= allowance R s (mkLoc a i) + (if zero_tool o then 1 else 0).
Proof.
  intros HR Hw. unfold allowance, MAX_INACTIVITY_RESUMES.
  destruct (worker_failed_cases q o s (mkLoc (a + 1) i)) as (s1 & (_ & _ & _ & Hc) & Hcase).
  assert (Hge : relaunches s <= relaunches s1) by (rewrite Hc; destruct (bool_decide _ && negb _); lia).
  destruct Hcase as [E|(s2 & [H2 _] & [E|[E|(s3 & l1 & [H3 _] & Hl & b & E)]])]; rewrite E in Hw.
  - apply settle_again in Hw as (-> & Ha & Hr). cbn [attempt inactivityResumes] in *. destruct (zero_tool o); lia.
  - done.
  - apply settle_again in Hw as (-> & Ha & Hr). cbn [attempt inactivityResumes] in *. destruct (zero_tool o); lia.
  - assert (Hw' : l' = l1 /\ relaunches s' = relaunches s3).
    { destruct (q_stop q); [apply settle_again in Hw as (? & _ & Hr); cbn in Hr|apply retry_again in Hw as [? Hr]]; (split; [done|lia]). }
    destruct Hw' as [-> Hr]. destruct Hl as [(-> & Hcat & Hmax)|[-> Hi]]; cbn [attempt inactivityResumes] in *.
    + rewrite bool_decide_eq_true_2 in Hc by done. destruct (zero_tool o); cbn [andb negb attempt inactivityResumes] in *; [lia|].
      specialize (Hmax eq_refl R HR). lia.
    + unfold MAX_INACTIVITY_RESUMES in Hi. destruct (zero_tool o); lia.
Qed.

(** Authority once lost stays lost within a round. *)
Definition lost_stays_lost (q : Round) : Prop := holds q before_success = false -> holds q in_catch = false.

Lemma round_launches R q s l :
  max_relaunches cfg = Some R -> lost_stays_lost q ->
  let z := if zero_tool_round q then 1 else 0 in
  match round q s l with
  | again s1 l1 => Z.of_nat (runs s1) + allowance R s1 l1 <= Z.of_nat (runs s) + allowance R s l + z
  | n => Z.of_nat (runs (state_of n)) <= Z.of_nat (runs s) + 1
  end.
Proof.
  intros HR Hlost z. assert (Hz : 0 <= z <= 1) by (unfold z; case_match; lia).
  destruct (round_phases q s l) as [n Hn Hag|s0 H0 Hr0].
  { destruct (logs_counts _ _ Hn) as [Hruns _]. destruct n as [s1 l1|s1|s1]; cbn in Hruns |- *; [|lia|lia].
    destruct (Hag s1 l1 eq_refl) as [-> Hr]. unfold allowance. rewrite Hr. lia. }
  destruct (logs_counts _ _ H0) as [Hruns0 _]. set (l1 := mkLoc (attempt l + 1) (inactivityResumes l)).
  assert (Hcatch : forall s1 s2 l2, relaunches s1 = relaunches s -> catch_block q s1 l1 = again s2 l2 -> allowance R s2 l2 + 1 <= allowance R s l).
  { intros s1 s2 l2 Hr1 Hc. apply catch_again in Hc as (-> & Ha & Hr & _). unfold allowance, l1 in *. cbn [attempt inactivityResumes] in *. lia. }
  destruct (launch_phases q s0 l1) as [|s1 H1 Hr1|s1 H1|s1 o H1 Ho _ Hr1|s1 s2 H1 _ E].
  - destruct (logs_counts _ _ (catch_logs q s0 l1)) as [Hruns _]. destruct (catch_block q s0 l1) eqn:Ec; cbn in *; [|lia|lia].
    apply Hcatch in Ec; [lia|lia].
  - destruct (launched_counts _ _ (logs_trans _ _ _ H1 (catch_logs q s1 l1))) as [Hruns _].
    destruct (catch_block q s1 l1) eqn:Ec; cbn in *; [|lia|lia]. destruct Hr1 as [Hr1|Hr1].
    + apply Hcatch in Ec; [lia|congruence].
    + apply catch_again in Ec as (_ & _ & _ & Hh). by rewrite Hlost in Hh.
  - destruct (launched_counts _ _ H1) as [Hruns _]. cbn. lia.
  - destruct (launched_counts _ _ (logs_trans _ _ _ H1 (worker_logs q o s1 l1))) as [Hruns _].
    destruct (worker_failed q o s1 l1) eqn:Ew; cbn in *; [|lia|lia]. unfold l1 in Ew. apply (worker_again R) in Ew; [|done].
    unfold z, zero_tool_round. rewrite Ho. replace (allowance R s l) with (allowance R s1 (mkLoc (attempt l) (inactivityResumes l))); [lia|].
    unfold allowance. cbn. congruence.
  - destruct (launched_counts _ _ H1) as [Hruns _]. unfold transitionTask in E. case_match; [|done]. injection E as <-.
    unfold runs in *. cbn [state_of note set_task log]. rewrite occ_app, occ_cons, occ_nil, decide_False by done. lia.
Qed.

(** A task cannot be relaunched for ever. Whatever workers, probes, planners
    and other components answer, the loop launches at most as many workers as the
    relaunch, inactivity and attempt allowances permit, plus one, plus one for each
    execution that failed on the provider before any tool call. *)
Theorem launches_bounded R qs s l :
  max_relaunches cfg = Some R -> Forall lost_stays_lost qs ->
  Z.of_nat (runs (state_of (executeWithRetry qs s l))) <= Z.of_nat (runs s) + allowance R s l + zero_tool_rounds qs + 1.
Proof.
  intros HR Hq. assert (Ha : forall s l, 0 <= allowance R s l) by (intros; unfold allowance; lia).
  unfold zero_tool_rounds, js_len. revert s l. induction Hq as [|q qs Hq Hqs IH]; intros s l; cbn [TaskRun.executeWithRetry].
  { specialize (Ha s l). cbn. lia. }
  pose proof (round_launches R q s l HR Hq) as Hr. cbn in Hr |- *. destruct (round q s l) as [s1 l1|s1|s1]; cbn in Hr |- *.
  - specialize (IH s1 l1). destruct (zero_tool_round q); cbn in *; lia.
  - specialize (Ha s l). lia.
  - specialize (Ha s l). lia.
Qed.

(** ** Errors that escape the loop *)

(** Nothing else touches the task, and the authority does not change hands inside
    the catch block. *)
Definition undisturbed (q : Round) : Prop :=
  (forall t, q_ext_start q t = t) /\ (forall t, q_ext_run q t = t) /\ (forall t, q_ext_plan q t = t) /\
  (holds q in_catch = true -> holds q catch_settle = true /\ holds q after_execute = true).

Definition resumable (t : TaskStatus) : Prop := t = READY \/ t = RETRYING.

(** The round goes on from a resumable task or returns; it does not throw. *)
Definition safe (n : Next) : Prop := match n with again s _ => resumable (task s) | return_ _ => True | escaped _ => False end.

Lemma fail_task_some q p s : holds q p = true -> task s ∈ [READY; RETRYING; RUNNING] -> is_Some (fail_task q p s).
Proof.
  intros Hh Ht. unfold fail_task. rewrite Hh. case_match; [eauto|]. unfold transitionTask.
  rewrite !elem_of_cons in Ht. destruct Ht as [-> |[-> |[-> |Ht]]]; [cbn; eauto..|by apply elem_of_nil in Ht].
Qed.

Lemma catch_safe q s l : undisturbed q -> task s = RUNNING \/ task s = READY -> safe (catch_block q s l).
Proof.
  intros (_ & _ & Hp & Hh) Ht. unfold TaskRun.catch_block. destruct (holds q in_catch); cbn [negb]; [|done]. destruct (Hh eq_refl) as [Hh' _]. clear Hh. rename Hh' into Hh.
  do 2 (case_match; [done|]).
  assert (Hf : forall x, task x = task s -> is_Some (fail_task q catch_settle x)).
  { intros x Hx. apply fail_task_some; [done|]. rewrite Hx. destruct Ht as [-> | ->]; set_solver. }
  case_match; [|destruct (Hf s eq_refl) as [? ->]; done].
  assert (Hx : task (change (q_ext_plan q) s) = task s) by apply Hp. set (s1 := change (q_ext_plan q) s) in *. clearbody s1.
  case_match; [destruct (Hf s1 Hx) as [? ->]; done|]. rewrite Hh. cbn [negb]. case_match; [done|]. rewrite <- Hx in Ht.
  destruct Ht as [Ht|Ht].
  - rewrite bool_decide_eq_false_2 by congruence. rewrite transition_some by by rewrite Ht. cbn. by right.
  - rewrite bool_decide_eq_true_2 by done. cbn. by left.
Qed.

Lemma settle_safe q s l : undisturbed q -> task s = RUNNING -> safe (settle_failed max_attempts q s l).
Proof. intros Hq Ht. unfold settle_failed. case_match; [done|]. apply catch_safe; [done|by left]. Qed.

Lemma retry_safe q s l b : undisturbed q -> task s = RUNNING -> safe (retry_task max_attempts q s l b).
Proof.
  intros Hq Ht. unfold retry_task. assert (Hx : task (change (q_ext_plan q) s) = RUNNING) by (destruct Hq as (_ & _ & Hp & _); cbn; by rewrite Hp).
  set (s1 := change (q_ext_plan q) s) in *. clearbody s1. case_match; [apply catch_safe; [done|by left]|]. case_match; [done|].
  rewrite transition_some by by rewrite Hx. case_match; [done|]. cbn. by right.
Qed.

Lemma park_task m s : task (parkMission m s) = task s.
Proof. unfold parkMission. by repeat case_match. Qed.

Lemma resilienceGate_task now j c s r s' : resilienceGate cfg now j c s = (r, s') -> snd r = false -> task s' = task s.
Proof.
  unfold resilienceGate. case_match; [by intros [= <- <-]|]. case_match.
  - unfold pauseMission. cbn [mission set_window]. destruct (mission s); intros [= <- <-]; [done|]. done.
  - intros [= <- <-] _. unfold breakerFailure. cbn [task set_window set_breaker]. by rewrite park_task.
Qed.

Lemma worker_safe q o s l : undisturbed q -> task s = RUNNING -> safe (worker_failed q o s l).
Proof.
  intros Hq Ht. unfold TaskRun.worker_failed.
  set (zt := _ && bool_decide (oc_toolCalls o = Some 0)).
  destruct (match infraCategoryFromWorkerMarker (oc_error o) with Some _ => if zt then (false, s) else outageCeiling cfg (q_now q) s | None => (false, s) end)
    as [ceiling s1] eqn:E1.
  assert (H1 : task s1 = RUNNING).
  { destruct (infraCategoryFromWorkerMarker (oc_error o)); [|by injection E1 as _ <-]. destruct zt; [by injection E1 as _ <-|].
    unfold outageCeiling in E1. by injection E1 as _ <-. }
  destruct ceiling; [by apply settle_safe|].
  destruct (match infraCategoryFromWorkerMarker (oc_error o) with Some c => resilienceGate cfg (q_now q) (q_jitter q) c s1 | None => ((false, 0, false), s1) end)
    as [[[retry ms] ps] s2] eqn:E2.
  destruct ps; [done|].
  assert (H2 : task s2 = RUNNING).
  { destruct (infraCategoryFromWorkerMarker (oc_error o)) as [c|]; [|by injection E2 as _ _ <-]. apply resilienceGate_task in E2; [congruence|done]. }
  assert (Hext : forall x, task x = RUNNING -> task (change (q_ext_plan q) x) = RUNNING).
  { intros x Hx. destruct Hq as (_ & _ & Hp & _). cbn. by rewrite Hp. }
  destruct retry.
  - set (s3 := if zt then _ else s2). assert (H3 : task s3 = RUNNING) by (unfold s3; by destruct zt). clearbody s3.
    destruct (q_stop q); [apply settle_safe; [done|by apply Hext]|by apply retry_safe].
  - destruct (bool_decide (oc_error o = Some INACTIVITY_MARKER) && (inactivityResumes l <? MAX_INACTIVITY_RESUMES)); [|by apply settle_safe].
    destruct (q_stop q); [apply settle_safe; [done|by apply Hext]|by apply retry_safe].
Qed.

(** A second launch error: the catch block of a task that is already RETRYING. *)
Lemma catch_retrying q s l :
  undisturbed q -> task s = RETRYING ->
  safe (catch_block q s l) \/ (q_action q = act_retry /\ q_stop q = false /\ exists s', catch_block q s l = escaped s' /\ task s' = RETRYING).
Proof.
  intros (_ & _ & Hp & Hh) Ht. unfold TaskRun.catch_block. destruct (holds q in_catch); cbn [negb]; [|by left]. destruct (Hh eq_refl) as [Hh' _].
  do 2 (case_match; [by left|]).
  assert (Hf : forall x, task x = RETRYING -> is_Some (fail_task q catch_settle x)).
  { intros x Hx. apply fail_task_some; [done|]. rewrite Hx. set_solver. }
  destruct (bool_decide (q_action q = act_retry)) eqn:Ea; cbn [andb]; [|left; destruct (Hf s Ht) as [? ->]; done]. apply bool_decide_eq_true in Ea.
  case_match; [|left; destruct (Hf s Ht) as [? ->]; done].
  assert (Hx : task (change (q_ext_plan q) s) = RETRYING) by (cbn; by rewrite Hp). set (s1 := change (q_ext_plan q) s) in *. clearbody s1.
  destruct (q_stop q); [left; destruct (Hf s1 Hx) as [? ->]; done|]. rewrite Hh'. cbn [negb]. case_match; [by left|].
  rewrite bool_decide_eq_false_2 by congruence. right. split_and!; [done|done|]. unfold transitionTask. rewrite Hx. by exists s1.
Qed.

Lemma launch_safe q s l :
  undisturbed q -> resumable (task s) ->
  safe (launch q s l) \/
  (q_execute q = false /\ task s = RETRYING /\ q_action q = act_retry /\ q_stop q = false /\ exists s', launch q s l = escaped s' /\ task s' = RETRYING).
Proof.
  intros Hq Ht. unfold TaskRun.launch. destruct (q_execute q) eqn:E0; cbn [negb].
  - left. case_match; [done|]. set (s0 := note launched s). assert (H0 : resumable (task s0)) by done.
    assert (Hrun : canTransitionTask (task s0) RUNNING = true) by (destruct H0 as [-> | ->]; reflexivity).
    destruct (holds q after_execute) eqn:E1; cbn [negb].
    2:{ unfold TaskRun.catch_block. destruct (holds q in_catch) eqn:Ei; cbn [negb]; [|done]. destruct Hq as (_ & _ & _ & Hh). destruct (Hh Ei); congruence. }
    rewrite transition_some by done. cbv zeta.
    set (s1 := note (moved RUNNING) (set_task RUNNING s0)). assert (H1 : task (change (q_ext_run q) s1) = RUNNING).
    { destruct Hq as (_ & Hr & _). cbn. by rewrite Hr. }
    set (s2 := change (q_ext_run q) s1) in *. clearbody s2.
    destruct (q_outcome q) as [o|]; [|apply catch_safe; [done|by left]]. case_match; [apply catch_safe; [done|by left]|].
    case_match; [done|]. case_match; [by apply worker_safe|]. case_match; [apply catch_safe; [done|left; by rewrite prepared_task]|].
    by rewrite transition_some by (rewrite prepared_task, H1; reflexivity).
  - destruct Ht as [Ht|Ht]; [left; apply catch_safe; [done|by right]|].
    destruct (catch_retrying q s l Hq Ht) as [H|(Ha & Hs & He)]; [by left|right]. done.
Qed.

Lemma pause_task s : fst (pauseMission s) = false -> snd (pauseMission s) = s.
Proof. unfold pauseMission. by destruct (mission s). Qed.

Lemma gate_task now d w pr s g s1 : probeGate cfg now d w pr s = (g, s1) -> resumable (task s) -> resumable (task s1).
Proof.
  intros H Ht. enough (task s1 = task s) by congruence. revert H. unfold probeGate. destruct (window s); [|by intros [= _ <-]].
  case_match.
  { destruct (pauseMission s) as [p s2] eqn:Ep. intros [= _ <-]. unfold pauseMission in Ep. destruct (mission s); injection Ep as _ <-; [|done].
    cbn [clearResilience set_unlisted set_breaker set_window task]. unfold markTaskResumable. rewrite park_task.
    rewrite bool_decide_eq_false_2 by (destruct Ht as [-> | ->]; done). apply park_task. }
  case_match; [by intros [= _ <-]|].
  set (s2 := match breaker s with Some b => _ | None => s end). assert (Hs2 : task s2 = task s) by (unfold s2; by case_match). clearbody s2.
  intros Hg. destruct (negb (bool_decide (d = not_aborted))); [by simplify_eq|].
  destruct (pr_healthy pr && _); [by simplify_eq|]. destruct (pr_model_unlisted pr); [|by simplify_eq].
  destruct (UNLISTED_PROBES_BEFORE_VERIFY <=? _); by simplify_eq.
Qed.

Lemma round_safe q s l :
  undisturbed q -> resumable (task s) ->
  safe (round q s l) \/ (q_execute q = false /\ q_action q = act_retry /\ q_stop q = false /\ exists s', round q s l = escaped s' /\ task s' = RETRYING).
Proof.
  intros Hq Ht. unfold TaskRun.round. case_match; [by left|].
  destruct (probeGate cfg (q_now q) (q_during q) (q_sleeping q) (q_probe q) s) as [g s1] eqn:Eg. apply gate_task in Eg; [|done].
  destruct g; [|by left|by left|by left]. set (s2 := change _ _). assert (H2 : resumable (task s2)).
  { destruct Hq as (Hs & _). unfold s2. cbn. by rewrite Hs. }
  clearbody s2. destruct (q_authority q).
  1, 2: destruct (launch_safe q s2 (mkLoc (attempt l + 1) (inactivityResumes l)) Hq H2) as [H'|(? & _ & ? & ? & ?)]; [by left|by right].
  - by left.
  - left. case_match; [done|]. rewrite transition_some; [done|]. by destruct H2 as [-> | ->].
Qed.

(** The loop's own status changes are legal except in one case. As long as no
    other component changes the task, no error escapes [executeWithRetry] unless
    launching a worker throws while the task is RETRYING after an earlier failure and
    the error is judged retryable: then RETRYING to RETRYING is refused by the table,
    the error leaves the catch block, and the task stays RETRYING. *)
Theorem escape_needs_second_launch_error qs s l s' :
  Forall undisturbed qs -> resumable (task s) -> executeWithRetry qs s l = escaped s' ->
  task s' = RETRYING /\ exists q, q ∈ qs /\ q_execute q = false /\ q_action q = act_retry /\ q_stop q = false.
Proof.
  intros Hq. revert s l. induction Hq as [|q qs Hq Hqs IH]; intros s l Ht; cbn [TaskRun.executeWithRetry]; [done|].
  destruct (round_safe q s l Hq Ht) as [Hs|(H1 & H2 & H3 & s1 & E & H4)].
  - destruct (round q s l) as [s1 l1|s1|s1]; [|done|done]. intros H. destruct (IH s1 l1 Hs H) as (? & q' & Hin & ?).
    split; [done|]. exists q'. split; [by right|done].
  - rewrite E. intros [= <-]. split; [done|]. exists q. split; [by left|done].
Qed.
End RunProofs.

(** ** Pausing and resuming *)

(** [resumePausedMission] up to the new run: the mission is resumed first, the
    RETRYING tasks are re-queued afterwards. *)
Definition resumePausedMission (othersRetrying : bool) (s : St) : St :=
  match mission s with
  | Some Mission.PAUSED_INFRASTRUCTURE =>
      let s1 := resumeToExecuting othersRetrying s in
      if bool_decide (task s1 = RETRYING) then default s1 (transitionTask READY s1) else s1
  | _ => s
  end.

(** The mission is still reported as paused while its re-queued task runs: at the
    moment the mission is resumed the paused task is RETRYING, which
    [resumeToExecuting] takes for a task that is still paused. *)
Lemma resumed_mission_still_paused b s :
  mission s = Some Mission.PAUSED_INFRASTRUCTURE -> task s = RETRYING ->
  mission (resumePausedMission b s) = Some Mission.PAUSED_INFRASTRUCTURE /\ task (resumePausedMission b s) = READY.
Proof.
  intros Hm Ht. unfold resumePausedMission, resumeToExecuting. rewrite Hm, Ht. rewrite orb_true_r. rewrite Ht. cbn [bool_decide].
  rewrite bool_decide_eq_true_2 by done. unfold transitionTask. rewrite Ht. cbn. done.
Qed.

(** Waits between relaunches grow from the probe interval to the cap. *)
Lemma backoff_bounds cfg mx n :
  max_backoff_ms cfg = Some mx -> 0 < probe_interval_ms cfg <= mx -> 0 <= n ->
  probe_interval_ms cfg <= backoffMs cfg n <= mx /\ backoffMs cfg n <= backoffMs cfg (n + 1).
Proof.
  intros Hm Hp Hn. unfold backoffMs. rewrite Hm. change (nullish (Some mx) (probe_interval_ms cfg)) with mx.
  assert (H1 : 2 ^ 0 <= 2 ^ Z.min n 30) by (apply Z.pow_le_mono_r; lia). change (2 ^ 0) with 1 in H1.
  assert (H2 : 2 ^ Z.min n 30 <= 2 ^ Z.min (n + 1) 30) by (apply Z.pow_le_mono_r; lia).
  set (p := probe_interval_ms cfg) in *. assert (p * 1 <= p * 2 ^ Z.min n 30) by (apply Z.mul_le_mono_nonneg_l; lia).
  assert (p * 2 ^ Z.min n 30 <= p * 2 ^ Z.min (n + 1) 30) by (apply Z.mul_le_mono_nonneg_l; lia). lia.
Qed.

(** The relaunch ceiling counts across pauses: pausing forgets the window and the
    breaker but neither the start of the outage nor the relaunches. *)
Lemma pause_keeps_outage s :
  relaunches (snd (pauseMission s)) = relaunches s /\ outageStartedAt (snd (pauseMission s)) = outageStartedAt s.
Proof.
  split; [apply pauseMission_extends|]. unfold pauseMission. destruct (mission s) as [m|] eqn:Em; [|done]. cbn [snd clearResilience set_unlisted set_breaker set_window outageStartedAt].
  assert (Hp : forall x, outageStartedAt (parkMission x s) = outageStartedAt s) by (intros x; unfold parkMission; by repeat case_match).
  unfold markTaskResumable. case_match; [|apply Hp]. unfold transitionTask. case_match; apply Hp.
Qed.

(** ** Samples *)

Definition healthy : ProbeResult := mkProbe true None false.
Definition sample_round (execute : bool) (o : option Outcome) : Round :=
  mkRound 1000 0 not_aborted not_aborted not_aborted healthy auth_granted not_aborted (fun t => t) execute not_aborted (fun t => t) o
    (fun _ => true) false (fun t => t) not_aborted not_aborted act_retry.
Definition sample_state : St := mkSt READY (Some Mission.EXECUTING) None None None 0 0 false 0 false false [].
Definition transient : Outcome := mkOutcome false (Some "transient:network") (Some 3).

(** A transient worker failure, then an error launching the next worker. *)
Definition second_launch_error : list Round := [sample_round true (Some transient); sample_round false None].

Lemma second_launch_error_escapes :
  exists s', executeWithRetry DEFAULT_GATEWAY_RESILIENCE true 5 false second_launch_error sample_state (mkLoc 0 0) = escaped s' /\
    task s' = RETRYING /\ mission s' = Some Mission.WAITING_FOR_LLM.
Proof. eexists. split; [vm_compute; reflexivity|done]. Qed.

Lemma sample_undisturbed e o : undisturbed (sample_round e o).
Proof. repeat split. Qed.

Lemma escape_needs_second_launch_error_witness :
  exists s', executeWithRetry DEFAULT_GATEWAY_RESILIENCE true 5 false second_launch_error sample_state (mkLoc 0 0) = escaped s' /\
    task s' = RETRYING /\ exists q, q ∈ second_launch_error /\ q_execute q = false /\ q_action q = act_retry /\ q_stop q = false.
Proof.
  eexists. split; [vm_compute; reflexivity|].
  eapply (escape_needs_second_launch_error DEFAULT_GATEWAY_RESILIENCE true 5 false second_launch_error sample_state (mkLoc 0 0)).
  - repeat (constructor; [apply sample_undisturbed|]). constructor.
  - by left.
  - vm_compute. reflexivity.
Defined.

Lemma success_is_earned_witness : exists q, q ∈ [sample_round true (Some (mkOutcome true None (Some 4)))] /\ earned q.
Proof.
  apply (success_is_earned DEFAULT_GATEWAY_RESILIENCE true 5 false _ sample_state (mkLoc 0 0)). vm_compute. lia.
Defined.

Lemma launches_bounded_witness :
  Z.of_nat (runs (state_of (executeWithRetry DEFAULT_GATEWAY_RESILIENCE true 5 false second_launch_error sample_state (mkLoc 0 0)))) <= 0 + 108 + 0 + 1.
Proof.
  apply (launches_bounded DEFAULT_GATEWAY_RESILIENCE true 5 false 100 second_launch_error sample_state (mkLoc 0 0)); [reflexivity|].
  repeat constructor; done.
Defined.
