(* ===== verification/ContractLadder.v ===== *)
(** * Planner-worker contracts (src/plannerWorker)

    [Contract] is the contract status table of stateMachine.ts, [Convergence]
    the progress tracker and the escalation ladder of convergence.ts, and
    [Executor] the contract life cycle of executor.ts built on both: the attempt
    loop with its reviews, the correction path after a failure, batch reviews, and
    the promotion of contracts whose dependencies are decided. What models,
    workers and git answer is an argument of each step. *)

From S2P Require Import Prelude JsMap Transitions.

Module Contract.

Inductive ContractStatus := pending | ready | running | reviewing | needs_fix | blocked | passed | failed | escalated.

#[global] Instance ContractStatus_eq_dec : EqDecision ContractStatus.
Proof. solve_decision. Defined.

Definition TRANSITIONS (s : ContractStatus) : list ContractStatus :=
  match s with
  | pending => [ready; blocked; failed]
  | ready => [running; blocked; failed]
  | running => [reviewing; needs_fix; blocked; failed; escalated]
  | reviewing => [passed; needs_fix; blocked; failed; escalated]
  | needs_fix => [running; escalated; blocked; failed]
  | blocked => [pending; ready; failed; escalated]
  | escalated => [running; failed]
  | passed => []
  | failed => []
  end.

#[global] Instance contract_table : TransitionTable ContractStatus := {| next := TRANSITIONS |}.

Definition canTransition (from to : ContractStatus) : bool := allowed from to.

Definition assertTransition (from to : ContractStatus) : res (ContractStatus * ContractStatus) unit :=
  if canTransition from to then Ok () else Err (from, to).

Definition isTerminal (s : ContractStatus) : bool := bool_decide (TRANSITIONS s = []).
End Contract.

Module Convergence.

Record AttemptObservation := mkObs {
  ob_attempt : Z;
  ob_failureSignature : option string;
  ob_findings : list string;
  ob_testsPassed : Z;
  ob_testsTotal : Z;
  ob_diffHash : string;
  ob_changedFiles : list string;
  ob_contractHash : string;
}.

Record ProgressAssessment := mkAssessment { pa_progressed : bool; pa_reasons : list string }.

Local Open Scope string_scope.

Definition assessProgress (prev cur : AttemptObservation) : ProgressAssessment :=
  if negb (String.eqb (ob_contractHash cur) (ob_contractHash prev)) then mkAssessment true ["contract changed"]
  else
    let failing := bool_decide (ob_failureSignature cur <> None) in
    let r1 := if failing && bool_decide (ob_failureSignature cur = ob_failureSignature prev) then ["identical failure"] else [] in
    let r2 := if (0 <? js_len (ob_findings cur))%Z && js_every (fun f => js_includes f (ob_findings prev)) (ob_findings cur)
              then ["repeated findings"] else [] in
    let r3 := if (ob_testsPassed cur <=? ob_testsPassed prev)%Z && failing then ["no test progress"] else [] in
    let reasons := (r1 ++ r2 ++ r3)%list in
    let reasons :=
      if String.eqb (ob_diffHash cur) (ob_diffHash prev) then (reasons ++ ["diff unchanged"])%list
      else if (0 <? js_len (ob_changedFiles cur))%Z
              && String.eqb (js_join (String "010" "") (ob_changedFiles cur)) (js_join (String "010" "") (ob_changedFiles prev))
              && (0 <? js_len reasons)%Z
      then (reasons ++ ["same files rewritten"])%list else reasons in
    let improved := (ob_testsPassed prev <? ob_testsPassed cur)%Z
                    || (negb failing && bool_decide (ob_failureSignature prev <> None))
                    || (js_len (ob_findings cur) <? js_len (ob_findings prev))%Z in
    mkAssessment (improved || bool_decide (reasons = [])) reasons.

(** [ConvergenceTracker]: the history per contract and [stall_after]. *)
Definition Tracker : Type := jsmap string (list AttemptObservation).

Definition observations (taskId : string) (h : Tracker) : list AttemptObservation := nullish (map_get taskId h) [].

Definition record (taskId : string) (obs : AttemptObservation) (h : Tracker) : Tracker :=
  map_set taskId (observations taskId h ++ [obs])%list h.

Record LocalLoopStalledEvent := mkStalled { se_task_id : string; se_attempts : Z; se_reasons : list string }.

(** The loop of [stalled] over the assessments of the window: an attempt that
    progressed ends it with [null]; reasons are collected in a [Set]. *)
Fixpoint stall_reasons (pairs : list (AttemptObservation * AttemptObservation)) (reasons : list string) : option (list string) :=
  match pairs with
  | [] => Some reasons
  | (prev, cur) :: rest =>
      let a := assessProgress prev cur in
      if pa_progressed a then None else stall_reasons rest (reasons ++ pa_reasons a)%list
  end.

(** The pairs [(list[i-1], list[i])] for [i] from [length - window]. *)
Definition window_pairs (window : nat) (l : list AttemptObservation) : list (AttemptObservation * AttemptObservation) :=
  let k := (length l - window)%nat in zip (drop (k - 1) l) (drop k l).

Definition stalled (stall_after : nat) (taskId : string) (h : Tracker) : option LocalLoopStalledEvent :=
  let l := observations taskId h in
  if (length l <? stall_after + 1)%nat then None
  else option_map (fun reasons => mkStalled taskId (js_len l) (js_dedup reasons)) (stall_reasons (window_pairs stall_after l) []).

Inductive Rung := local | diagnosed | on_escalation.
Inductive LadderAction := retry (r : Rung) | diagnose | escalate | fail (reason : string).

#[global] Instance Rung_eq_dec : EqDecision Rung.
Proof. solve_decision. Defined.

Record EscalationLadder := mkLadder {
  max_local_attempts : Z;
  max_diagnosed_attempts : Z;
  max_escalation_attempts : Z;
  max_replans : Z;
}.

Definition DEFAULT_ESCALATION_LADDER : EscalationLadder := mkLadder 2 1 1 2.

Definition escalateOrFail (escalationAvailable : bool) (why : string) : LadderAction :=
  if escalationAvailable then escalate else fail (why +:+ "; no escalation model available").

Definition nextLadderAction (rung : Rung) (attemptsOnRung : Z) (stalled_ reviewerAskedEscalation : bool)
    (ladder : EscalationLadder) (escalationAvailable : bool) : LadderAction :=
  match rung with
  | on_escalation =>
      if (attemptsOnRung <? max_escalation_attempts ladder)%Z then retry rung else fail "escalation attempts exhausted"
  | _ =>
      if reviewerAskedEscalation then escalateOrFail escalationAvailable "reviewer requested escalation"
      else if bool_decide (rung = local) then
        if negb stalled_ && (attemptsOnRung <? max_local_attempts ladder)%Z then retry rung
        else if (0 <? max_diagnosed_attempts ladder)%Z then diagnose
             else escalateOrFail escalationAvailable "local attempts exhausted"
      else if negb stalled_ && (attemptsOnRung <? max_diagnosed_attempts ladder)%Z then retry rung
           else escalateOrFail escalationAvailable "diagnosed attempts exhausted"
  end.

(** *** Properties *)

Lemma stall_reasons_some pairs reasons :
  is_Some (stall_reasons pairs reasons) <-> forall p, p ∈ pairs -> pa_progressed (assessProgress (fst p) (snd p)) = false.
Proof.
  revert reasons. induction pairs as [|[prev cur] pairs IH]; intros reasons; simpl; [split; [intros _ p Hp; set_solver|eauto]|].
  destruct (pa_progressed _) eqn:E.
  - split; [by intros [? ?]|]. intros H. specialize (H (prev, cur) ltac:(by left)). simpl in H. congruence.
  - rewrite IH. split; [|set_solver]. intros H p [->|Hp]%elem_of_cons; auto.
Qed.

Lemma window_pairs_elem n l p :
  (n < length l)%nat ->
  p ∈ window_pairs n l <-> exists i, (length l - n <= i)%nat /\ l !! (i - 1)%nat = Some (fst p) /\ l !! i = Some (snd p).
Proof.
  intros Hn. unfold window_pairs. rewrite list_elem_of_lookup. setoid_rewrite lookup_zip_with_Some. setoid_rewrite lookup_drop.
  set (k := (length l - n)%nat). split.
  - intros (j & a & b & -> & Ha & Hb). exists (k + j)%nat. simpl. split_and!; [lia| |done].
    by replace (k + j - 1)%nat with (k - 1 + j)%nat by lia.
  - intros (i & Hi & Ha & Hb). destruct p as [a b]. exists (i - k)%nat, a, b. simpl in *. split_and!; [done| |].
    + by replace (k - 1 + (i - k))%nat with (i - 1)%nat by lia.
    + by replace (k + (i - k))%nat with i by lia.
Qed.

(** What an attempt without progress looks like: the contract is the same, no
    more tests pass, the failure did not go away and no finding was resolved. *)
Lemma no_progress prev cur :
  pa_progressed (assessProgress prev cur) = false ->
  ob_contractHash cur = ob_contractHash prev /\ (ob_testsPassed cur <= ob_testsPassed prev)%Z /\
  (ob_failureSignature cur = None -> ob_failureSignature prev = None) /\
  (js_len (ob_findings prev) <= js_len (ob_findings cur))%Z /\ pa_reasons (assessProgress prev cur) <> [].
Proof.
  unfold assessProgress. destruct (String.eqb_spec (ob_contractHash cur) (ob_contractHash prev)) as [E|]; cbn [negb]; [|done].
  cbv zeta. set (reasons := if String.eqb (ob_diffHash cur) (ob_diffHash prev) then _ else _). cbn [pa_progressed pa_reasons].
  clearbody reasons. intros H. bool_to_prop. split_and!; [done|done| |done|done].
  intros Hn. destruct (ob_failureSignature prev); [|done]. exfalso.
  rewrite Hn in H2. destruct H2 as [H2|H2]; bool_to_prop; naive_solver.
Qed.

(** Stall detection is exact: LOCAL_LOOP_STALLED is raised for a contract
    if and only if it has more than [stall_after] attempts and each of the last
    [stall_after] made no progress over the one before: same contract, no more
    tests passing, failure not gone, findings not fewer. *)
Theorem stalled_iff stall_after taskId h :
  let l := observations taskId h in
  (is_Some (stalled stall_after taskId h) <->
   (stall_after < length l)%nat /\
   forall i prev cur, (length l - stall_after <= i)%nat -> l !! (i - 1)%nat = Some prev -> l !! i = Some cur ->
     pa_progressed (assessProgress prev cur) = false) /\
  (forall i prev cur, is_Some (stalled stall_after taskId h) -> (length l - stall_after <= i)%nat ->
     l !! (i - 1)%nat = Some prev -> l !! i = Some cur ->
     ob_contractHash cur = ob_contractHash prev /\ (ob_testsPassed cur <= ob_testsPassed prev)%Z /\
     (ob_failureSignature cur = None -> ob_failureSignature prev = None) /\
     (js_len (ob_findings prev) <= js_len (ob_findings cur))%Z).
Proof.
  cbv zeta. set (l := observations taskId h).
  assert (Hiff : is_Some (stalled stall_after taskId h) <-> (stall_after < length l)%nat /\
    forall i prev cur, (length l - stall_after <= i)%nat -> l !! (i - 1)%nat = Some prev -> l !! i = Some cur ->
      pa_progressed (assessProgress prev cur) = false).
  { unfold stalled. cbv zeta. fold l. destruct (length l <? stall_after + 1)%nat eqn:E; bool_to_prop.
    - split; [by intros [? ?]|lia].
    - rewrite fmap_is_Some, stall_reasons_some. setoid_rewrite window_pairs_elem; [|lia]. split.
      + intros H. split; [lia|]. intros i prev cur Hi Hp Hc. apply (H (prev, cur)). eauto.
      + intros [_ H] [prev cur] (i & Hi & Hp & Hc). eauto. }
  split; [done|]. intros i prev cur Hs Hi Hp Hc. apply Hiff in Hs as [_ Hs].
  destruct (no_progress prev cur (Hs i prev cur Hi Hp Hc)) as (? & ? & ? & ? & _). auto.
Qed.
End Convergence.

Module Executor.
Import Contract Convergence.

Inductive ContractRisk := low | medium | high.
Inductive ReviewStatus := review_pass | review_needs_fix | review_replan | review_escalate.
Inductive WorkerStatus := worker_succeeded | worker_failed | worker_blocked.

#[global] Instance ReviewStatus_eq_dec : EqDecision ReviewStatus.
Proof. solve_decision. Defined.

(** [reviewPlanFor(risk)]: whether a pre-implementation review runs, and whether reviews are batched. *)
Record ReviewPlan := mkReviewPlan { rp_preReview : bool; rp_batch : bool }.
Definition reviewPlanFor (risk : ContractRisk) : ReviewPlan :=
  match risk with
  | low => mkReviewPlan false true
  | high => mkReviewPlan true false
  | medium => mkReviewPlan false false
  end.

(** The part of [Runtime] and [ContractState] the life cycle reads and writes. *)
Record Runtime := mkRuntime {
  rt_task_id : string;
  rt_risk : ContractRisk;
  rt_status : ContractStatus;
  rt_attempt : Z;
  rt_rung : Rung;
  rt_attemptsOnRung : Z;
  rt_preReviewed : bool;
  rt_pendingBatch : bool;
  rt_resume : bool;
  rt_correctionFor : option Z;
  rt_stalled : option LocalLoopStalledEvent;
  rt_blocked_reason : option string;
  rt_history : list (ContractStatus * ContractStatus * string);
}.

Local Open Scope string_scope.

(** [addContract]. *)
Definition addContract (task_id : string) (risk : ContractRisk) : Runtime :=
  mkRuntime task_id risk pending 0 local 0 false false false None None None [].

Definition with_status (s : ContractStatus) (note : string) (rt : Runtime) : Runtime :=
  mkRuntime (rt_task_id rt) (rt_risk rt) s (rt_attempt rt) (rt_rung rt) (rt_attemptsOnRung rt) (rt_preReviewed rt)
    (rt_pendingBatch rt) (rt_resume rt) (rt_correctionFor rt) (rt_stalled rt) (rt_blocked_reason rt)
    (rt_history rt ++ [(rt_status rt, s, note)]).
Definition with_reason (r : string) (rt : Runtime) : Runtime :=
  mkRuntime (rt_task_id rt) (rt_risk rt) (rt_status rt) (rt_attempt rt) (rt_rung rt) (rt_attemptsOnRung rt) (rt_preReviewed rt)
    (rt_pendingBatch rt) (rt_resume rt) (rt_correctionFor rt) (rt_stalled rt) (Some r) (rt_history rt).
Definition with_rung (r : Rung) (a : Z) (rt : Runtime) : Runtime :=
  mkRuntime (rt_task_id rt) (rt_risk rt) (rt_status rt) (rt_attempt rt) r a (rt_preReviewed rt)
    (rt_pendingBatch rt) (rt_resume rt) (rt_correctionFor rt) (rt_stalled rt) (rt_blocked_reason rt) (rt_history rt).
Definition with_attempt (rt : Runtime) : Runtime :=
  mkRuntime (rt_task_id rt) (rt_risk rt) (rt_status rt) (rt_attempt rt + 1) (rt_rung rt) (rt_attemptsOnRung rt + 1)
    (rt_preReviewed rt) (rt_pendingBatch rt) (rt_resume rt) (rt_correctionFor rt) (rt_stalled rt) (rt_blocked_reason rt) (rt_history rt).
Definition with_flags (preReviewed batch resume : bool) (rt : Runtime) : Runtime :=
  mkRuntime (rt_task_id rt) (rt_risk rt) (rt_status rt) (rt_attempt rt) (rt_rung rt) (rt_attemptsOnRung rt) preReviewed
    batch resume (rt_correctionFor rt) (rt_stalled rt) (rt_blocked_reason rt) (rt_history rt).
Definition with_correction (rt : Runtime) : Runtime :=
  mkRuntime (rt_task_id rt) (rt_risk rt) (rt_status rt) (rt_attempt rt) (rt_rung rt) (rt_attemptsOnRung rt) (rt_preReviewed rt)
    (rt_pendingBatch rt) (rt_resume rt) (Some (rt_attempt rt + 1)) (rt_stalled rt) (rt_blocked_reason rt) (rt_history rt).
Definition with_stalled (e : option LocalLoopStalledEvent) (rt : Runtime) : Runtime :=
  match e, rt_stalled rt with
  | Some ev, None =>
      mkRuntime (rt_task_id rt) (rt_risk rt) (rt_status rt) (rt_attempt rt) (rt_rung rt) (rt_attemptsOnRung rt) (rt_preReviewed rt)
        (rt_pendingBatch rt) (rt_resume rt) (rt_correctionFor rt) (Some ev) (rt_blocked_reason rt) (rt_history rt)
  | _, _ => rt
  end.

(** An illegal transition throws; the pair is the error. *)
#[local] Notation X := (res (ContractStatus * ContractStatus)).

Definition setStatus (to : ContractStatus) (note : string) (rt : Runtime) : X Runtime :=
  if bool_decide (rt_status rt = to) then Ok rt
  else let! _ := assertTransition (rt_status rt) to in Ok (with_status to note rt).

Definition forceFail (reason : string) (rt : Runtime) : X Runtime :=
  let rt := with_reason reason rt in
  if bool_decide (rt_status rt = passed) || bool_decide (rt_status rt = failed) then Ok rt
  else setStatus failed reason rt.

Inductive Outcome := again | done_.

(** What the surroundings answer in one attempt or batch verdict. *)
Record Env := mkEnv {
  env_aborted : bool;               (* opts.signal aborted *)
  env_reject : option string;       (* no model takes the handoff *)
  env_worker : WorkerStatus;
  env_evidence : option string;     (* blockedEvidence(run) *)
  env_clean : bool;                 (* verification passed and nothing out of scope *)
  env_review : ReviewStatus;
  env_issues : string;              (* summaries of the verdict's issues *)
  env_merged : bool;                (* integrate(rt) *)
  env_observation : AttemptObservation; (* observeAttempt(...) *)
  env_escalationAvailable : bool;
  env_batchError : option string;   (* the batch review itself threw *)
}.

Record Config := mkConfig { cf_ladder : EscalationLadder; cf_stall_after : nat }.

Definition State : Type := Tracker * Runtime.

Definition rung_name (r : Rung) : string :=
  match r with local => "local" | diagnosed => "diagnosed" | on_escalation => "escalated" end.

(** [afterFailure]; [asked] is [verdict?.status === "escalate"]. *)
Definition afterFailure (cf : Config) (env : Env) (asked : bool) (s : State) : X (State * Outcome) :=
  let '(h, rt) := s in
  let h := record (rt_task_id rt) (env_observation env) h in
  let ev := stalled (cf_stall_after cf) (rt_task_id rt) h in
  let rt := with_stalled ev rt in
  let action := nextLadderAction (rt_rung rt) (rt_attemptsOnRung rt)
                  (bool_decide (ev <> None) && negb (bool_decide (rt_rung rt = on_escalation)))
                  asked (cf_ladder cf) (env_escalationAvailable env) in
  match action with
  | fail reason =>
      let! rt := (if bool_decide (rt_status rt = reviewing) then setStatus needs_fix "review failed" rt else Ok rt) in
      let! rt := forceFail reason rt in
      Ok ((h, rt), done_)
  | _ =>
      let! rt := (if negb (bool_decide (rt_status rt = needs_fix)) then
                    setStatus (if bool_decide (rt_status rt = running) || bool_decide (rt_status rt = reviewing)
                               then needs_fix else rt_status rt) "correction needed" rt
                  else Ok rt) in
      let! rt := match action with
                 | diagnose => Ok (with_rung diagnosed 0 rt)
                 | escalate => setStatus escalated "local ladder exhausted; escalating" (with_rung on_escalation 0 rt)
                 | _ => Ok rt
                 end in
      let! rt := setStatus running ("attempt " +:+ js_num (rt_attempt rt + 1) +:+ " (" +:+ rung_name (rt_rung rt) +:+ ")")
                   (with_correction rt) in
      Ok ((h, rt), again)
  end.

(** [accept]: a merge conflict is one more failed attempt. *)
Definition accept (cf : Config) (env : Env) (s : State) : X (State * Outcome) :=
  if negb (env_merged env) then afterFailure cf env false s
  else let! rt := setStatus passed "review passed; integrated" (snd s) in Ok ((fst s, rt), done_).

Definition asked_replan (issues : string) (rt : Runtime) : X Runtime :=
  setStatus blocked "reviewer requested a replan" (with_reason ("evidence: reviewer requested replan: " +:+ issues) rt).

Definition attempt (cf : Config) (env : Env) (s : State) : X (State * Outcome) :=
  let '(h, rt) := s in
  if env_aborted env then let! rt := forceFail "aborted" rt in Ok ((h, rt), done_)
  else
    let rt := with_attempt rt in
    match env_reject env with
    | Some why => let! rt := forceFail why rt in Ok ((h, rt), done_)
    | None =>
        match env_worker env, env_evidence env with
        | worker_blocked, Some evidence =>
            let! rt := setStatus blocked "worker reported BLOCKED with evidence" (with_reason ("evidence: " +:+ evidence) rt) in
            Ok ((h, rt), done_)
        | worker_blocked, None | worker_failed, _ => afterFailure cf env false (h, rt)
        | worker_succeeded, _ =>
            if negb (env_clean env) then afterFailure cf env false (h, rt)
            else
              let! rt := setStatus reviewing "verification passed" rt in
              if rp_batch (reviewPlanFor (rt_risk rt)) then Ok ((h, with_flags (rt_preReviewed rt) true (rt_resume rt) rt), done_)
              else match env_review env with
                   | review_pass => accept cf env (h, rt)
                   | review_replan => let! rt := asked_replan (env_issues env) rt in Ok ((h, rt), done_)
                   | v => afterFailure cf env (bool_decide (v = review_escalate)) (h, rt)
                   end
        end
    end.

(** [batchReview] for one contract of the batch: its verdict, or the failure of the review. *)
Definition batchVerdict (cf : Config) (env : Env) (s : State) : X State :=
  let rt := with_flags (rt_preReviewed (snd s)) false (rt_resume (snd s)) (snd s) in
  match env_batchError env with
  | Some err => let! rt := forceFail ("batch review failed: " +:+ err) rt in Ok (fst s, rt)
  | None =>
      let! r := match env_review env with
                | review_pass => accept cf env (fst s, rt)
                | review_replan => let! rt := asked_replan (env_issues env) rt in Ok ((fst s, rt), done_)
                | v => afterFailure cf env (bool_decide (v = review_escalate)) (fst s, rt)
                end in
      match r with
      | ((h, rt), again) => Ok (h, with_flags (rt_preReviewed rt) (rt_pendingBatch rt) true rt)
      | (s, done_) => Ok s
      end
  end.

(** [executeContract] up to its attempt loop: [preVerdict] is what the
    pre-implementation review said, [preserved] a reason not to create the worktree. *)
Definition executeContract_start (preVerdict : option ReviewStatus) (issues : string) (preserved : option string) (rt : Runtime)
  : X (Runtime * Outcome) :=
  let! rt := setStatus running "started" rt in
  let verdict := if rp_preReview (reviewPlanFor (rt_risk rt)) && negb (rt_preReviewed rt) then preVerdict else None in
  let rt := if rp_preReview (reviewPlanFor (rt_risk rt)) then with_flags true (rt_pendingBatch rt) (rt_resume rt) rt else rt in
  match verdict with
  | Some review_replan | Some review_needs_fix =>
      let! rt := setStatus blocked "pre-implementation review requires a revised contract"
                   (with_reason ("evidence: pre-implementation review: " +:+ issues) rt) in
      Ok (rt, done_)
  | _ =>
      let! rt := match verdict with
                 | Some review_escalate =>
                     let! rt := setStatus escalated "pre-implementation review asked for escalation"
                                  (with_rung on_escalation (rt_attemptsOnRung rt) rt) in
                     setStatus running "escalated implementation" rt
                 | _ => Ok rt
                 end in
      match preserved with
      | Some why => let! rt := forceFail why rt in Ok (rt, done_)
      | None => Ok (rt, again)
      end
  end.

(** The DAG driver's view of one contract: run an attempt while it is running
    (a resumed one included), give the batch verdict while one is pending. *)
Fixpoint drive (cf : Config) (envs : list Env) (s : State) : X State :=
  match envs with
  | [] => Ok s
  | env :: rest =>
      if rt_pendingBatch (snd s) then let! s := batchVerdict cf env s in drive cf rest s
      else if bool_decide (rt_status (snd s) = running) then
        let rt := with_flags (rt_preReviewed (snd s)) false false (snd s) in
        let! r := attempt cf env (fst s, rt) in drive cf rest (fst r)
      else Ok s
  end.

(** ** Properties *)

(** Attempts that can still follow once the current one has failed as number [a] on its rung. *)
Definition left_after (l : EscalationLadder) (r : Rung) (a : Z) : Z :=
  match r with
  | local => Z.max 0 (max_local_attempts l - a) + Z.max 0 (max_diagnosed_attempts l) + Z.max 1 (max_escalation_attempts l)
  | diagnosed => Z.max 0 (max_diagnosed_attempts l - a) + Z.max 1 (max_escalation_attempts l)
  | on_escalation => Z.max 0 (max_escalation_attempts l - a)
  end.
(** Attempts still possible when the next one is number [a + 1]. *)
Definition left_before (l : EscalationLadder) (r : Rung) (a : Z) : Z := 1 + left_after l r (a + 1).

Lemma left_after_nonneg l r a : 0 <= left_after l r a.
Proof. destruct r; simpl; lia. Qed.

Lemma ladder_descends r a st asked l av :
  match nextLadderAction r a st asked l av with
  | retry r' => r' = r /\ left_before l r a <= left_after l r a
  | diagnose => left_before l diagnosed 0 <= left_after l r a
  | escalate => left_before l on_escalation 0 <= left_after l r a
  | fail _ => True
  end.
Proof.
  unfold nextLadderAction, escalateOrFail, left_before.
  destruct r; rewrite ?(bool_decide_eq_true_2 (local = local)), ?(bool_decide_eq_false_2 (diagnosed = local)) by done.
  all: destruct asked, av, st; cbn [negb andb]; repeat (case_match; try done); bool_to_prop; simplify_eq/=; split_and?; try done; lia.
Qed.

Lemma setStatus_ok to note rt :
  rt_status rt <> to -> canTransition (rt_status rt) to = true -> setStatus to note rt = Ok (with_status to note rt).
Proof. intros Hne Hc. unfold setStatus, assertTransition. by rewrite bool_decide_eq_false_2, Hc. Qed.

Lemma forceFail_ok reason rt :
  exists rt', forceFail reason rt = Ok rt' /\ rt_attempt rt' = rt_attempt rt /\ rt_pendingBatch rt' = rt_pendingBatch rt /\
    (rt_status rt' = failed \/ rt_status rt' = passed).
Proof.
  unfold forceFail. cbn zeta. destruct (bool_decide (rt_status (with_reason reason rt) = passed)) eqn:E1; cbn [orb].
  { apply bool_decide_eq_true in E1. eexists. split; [reflexivity|]. split_and!; [done..|by right]. }
  destruct (bool_decide (rt_status (with_reason reason rt) = failed)) eqn:E2.
  { apply bool_decide_eq_true in E2. eexists. split; [reflexivity|]. split_and!; [done..|by left]. }
  bool_to_prop. rewrite setStatus_ok; [eexists; split; [reflexivity|]; split_and!; [done..|by left]|done|]. simpl in *. by destruct (rt_status rt).
Qed.

(** The contract waits for nothing but its next attempt. *)
Definition in_work (s : ContractStatus) : Prop := s = running \/ s = reviewing.

Definition settled (s : ContractStatus) : Prop := s = passed \/ s = failed \/ s = blocked.

Lemma afterFailure_spec cf env asked h rt :
  in_work (rt_status rt) ->
  exists h' rt' o, afterFailure cf env asked (h, rt) = Ok ((h', rt'), o) /\
    rt_attempt rt' = rt_attempt rt /\ rt_pendingBatch rt' = rt_pendingBatch rt /\
    match o with
    | again => rt_status rt' = running /\
               left_before (cf_ladder cf) (rt_rung rt') (rt_attemptsOnRung rt') <= left_after (cf_ladder cf) (rt_rung rt) (rt_attemptsOnRung rt)
    | done_ => settled (rt_status rt')
    end.
Proof.
  intros Hst. unfold afterFailure. cbv beta iota zeta. set (h1 := record _ _ _). set (ev := Convergence.stalled _ _ _).
  set (rt1 := with_stalled ev rt).
  assert (E : rt_status rt1 = rt_status rt /\ rt_attempt rt1 = rt_attempt rt /\ rt_pendingBatch rt1 = rt_pendingBatch rt /\
              rt_rung rt1 = rt_rung rt /\ rt_attemptsOnRung rt1 = rt_attemptsOnRung rt).
  { unfold rt1, with_stalled. destruct ev, (rt_stalled rt); done. }
  clearbody rt1. destruct E as (E1 & E2 & E3 & E4 & E5). rewrite <- E4, <- E5.
  pose proof (ladder_descends (rt_rung rt1) (rt_attemptsOnRung rt1)
    (bool_decide (ev <> None) && negb (bool_decide (rt_rung rt1 = on_escalation))) asked (cf_ladder cf) (env_escalationAvailable env)) as Hl.
  destruct (nextLadderAction _ _ _ _ _ _) as [r| | |reason].
  4: { assert (Hf : exists rt2, (if bool_decide (rt_status rt1 = reviewing) then setStatus needs_fix "review failed" rt1 else Ok rt1) = Ok rt2 /\
                     rt_attempt rt2 = rt_attempt rt1 /\ rt_pendingBatch rt2 = rt_pendingBatch rt1).
       { case_bool_decide as Eb; [|eauto]. rewrite setStatus_ok; [eauto|by rewrite Eb|by rewrite Eb]. }
       destruct Hf as (rt2 & -> & Ha & Hb). simpl. destruct (forceFail_ok reason rt2) as (rt3 & -> & Hc & Hd & He). simpl.
       exists h1, rt3, done_. unfold settled. split_and!; [done|congruence|congruence|naive_solver]. }
  all: assert (Hn : exists note, (if negb (bool_decide (rt_status rt1 = needs_fix)) then
                    setStatus (if bool_decide (rt_status rt1 = running) || bool_decide (rt_status rt1 = reviewing)
                               then needs_fix else rt_status rt1) "correction needed" rt1 else Ok rt1) = Ok (with_status needs_fix note rt1))
    by (exists "correction needed"; rewrite <- E1 in Hst; destruct Hst as [Hst|Hst]; rewrite Hst; cbn -[setStatus]; rewrite setStatus_ok;
        rewrite ?Hst; done).
  all: destruct Hn as (note & Hn); rewrite Hn; cbn [res_bind].
  - rewrite setStatus_ok by done. eexists _, _, again. split; [done|]. simpl. destruct Hl as [_ Hl]. auto.
  - rewrite setStatus_ok by done. eexists _, _, again. split; [done|]. simpl. auto.
  - rewrite setStatus_ok by done. cbn [res_bind]. rewrite setStatus_ok by done.
    eexists _, _, again. split; [done|]. simpl. auto.
Qed.

Section Bound.
Context (cf : Config).
Let l := cf_ladder cf.

(** Attempts still possible, and driver steps still possible, for a contract. *)
Definition potential (rt : Runtime) : Z :=
  if rt_pendingBatch rt then left_after l (rt_rung rt) (rt_attemptsOnRung rt)
  else if bool_decide (rt_status rt = running) then left_before l (rt_rung rt) (rt_attemptsOnRung rt) else 0.
Definition steps_left (rt : Runtime) : Z :=
  if rt_pendingBatch rt then 2 * left_after l (rt_rung rt) (rt_attemptsOnRung rt) + 1
  else if bool_decide (rt_status rt = running) then 2 * left_before l (rt_rung rt) (rt_attemptsOnRung rt) else 0.

Definition live (rt : Runtime) : Prop :=
  if rt_pendingBatch rt then rt_status rt = reviewing else rt_status rt = running \/ settled (rt_status rt).

(** A result that uses up at most [n] further attempts. *)
Definition within (n : Z) (rt rt' : Runtime) : Prop :=
  live rt' /\ rt_attempt rt' + potential rt' <= rt_attempt rt + n /\ steps_left rt' <= 2 * n.

Lemma settled_within n rt rt' :
  settled (rt_status rt') -> rt_pendingBatch rt' = false -> rt_attempt rt' <= rt_attempt rt -> 0 <= n -> within n rt rt'.
Proof.
  intros Hs Hp Ha Hn. unfold within, live, potential, steps_left. rewrite Hp.
  rewrite bool_decide_eq_false_2 by (intros E; rewrite E in Hs; by destruct Hs as [?|[?|?]]). split_and!; [by right|lia|lia].
Qed.

Lemma failure_within env asked h rt :
  in_work (rt_status rt) -> rt_pendingBatch rt = false ->
  exists h' rt' o, afterFailure cf env asked (h, rt) = Ok ((h', rt'), o) /\
    within (left_after l (rt_rung rt) (rt_attemptsOnRung rt)) rt rt'.
Proof.
  intros Hw Hp. destruct (afterFailure_spec cf env asked h rt Hw) as (h' & rt' & o & E & Ha & Hb & Ho).
  exists h', rt', o. split; [done|]. pose proof (left_after_nonneg l (rt_rung rt) (rt_attemptsOnRung rt)).
  destruct o; [|apply settled_within; [done|congruence|lia|done]].
  destruct Ho as [Hr Hle]. unfold within, live, potential, steps_left. rewrite Hb, Hp, Hr.
  rewrite bool_decide_eq_true_2 by done. fold l in Hle. split_and!; [by left|lia|lia].
Qed.

Lemma accept_within env h rt :
  rt_status rt = reviewing -> rt_pendingBatch rt = false ->
  exists h' rt' o, accept cf env (h, rt) = Ok ((h', rt'), o) /\
    within (left_after l (rt_rung rt) (rt_attemptsOnRung rt)) rt rt'.
Proof.
  intros Hs Hp. unfold accept. destruct (negb (env_merged env)); [apply failure_within; [by right|done]|].
  simpl. rewrite setStatus_ok; [|by rewrite Hs|by rewrite Hs]. eexists _, _, _. split; [done|].
  apply settled_within; [by left|done|done|apply left_after_nonneg].
Qed.

Lemma verdict_within env h rt :
  rt_status rt = reviewing -> rt_pendingBatch rt = false ->
  exists h' rt' o,
    match env_review env with
    | review_pass => accept cf env (h, rt)
    | review_replan => let! rt := asked_replan (env_issues env) rt in Ok ((h, rt), done_)
    | v => afterFailure cf env (bool_decide (v = review_escalate)) (h, rt)
    end = Ok ((h', rt'), o) /\ within (left_after l (rt_rung rt) (rt_attemptsOnRung rt)) rt rt'.
Proof.
  intros Hs Hp. destruct (env_review env); [by apply accept_within|apply failure_within; [by right|done]| |apply failure_within; [by right|done]].
  unfold asked_replan. rewrite setStatus_ok; [|by simpl; rewrite Hs|by simpl; rewrite Hs].
  eexists _, _, _. split; [done|]. apply settled_within; [by right; right|done|done|apply left_after_nonneg].
Qed.

Lemma attempt_within env h rt :
  rt_status rt = running -> rt_pendingBatch rt = false ->
  exists h' rt' o, attempt cf env (h, rt) = Ok ((h', rt'), o) /\
    live rt' /\ rt_attempt rt' + potential rt' <= rt_attempt rt + left_before l (rt_rung rt) (rt_attemptsOnRung rt) /\
    steps_left rt' < 2 * left_before l (rt_rung rt) (rt_attemptsOnRung rt).
Proof.
  intros Hs Hp. set (n := left_after l (rt_rung rt) (rt_attemptsOnRung rt + 1)).
  assert (Hn : 0 <= n) by apply left_after_nonneg. unfold left_before. fold n.
  assert (W : forall rt', within n (with_attempt rt) rt' ->
    live rt' /\ rt_attempt rt' + potential rt' <= rt_attempt rt + (1 + n) /\ steps_left rt' < 2 * (1 + n)).
  { intros rt' (H1 & H2 & H3). simpl in H2. split_and!; [done|lia|lia]. }
  assert (F : forall why rt1, rt_pendingBatch rt1 = false -> rt_attempt rt1 <= rt_attempt rt + 1 ->
    exists rt', forceFail why rt1 = Ok rt' /\ within n (with_attempt rt) rt').
  { intros why rt1 Hp1 Ha1. destruct (forceFail_ok why rt1) as (rt' & E & Ha & Hb & Hc). exists rt'. split; [done|].
    apply settled_within; [unfold settled; naive_solver|congruence|simpl; lia|done]. }
  unfold attempt. destruct (env_aborted env).
  { destruct (F "aborted" rt Hp ltac:(lia)) as (rt' & -> & H). eexists _, _, _. split; [done|auto]. }
  cbv zeta. destruct (env_reject env) as [why|].
  { destruct (F why (with_attempt rt) Hp ltac:(simpl; lia)) as (rt' & -> & H). eexists _, _, _. split; [done|auto]. }
  assert (G : exists h' rt' o, afterFailure cf env false (h, with_attempt rt) = Ok ((h', rt'), o) /\ within n (with_attempt rt) rt')
    by (apply failure_within; [by left|done]).
  assert (G' : exists h' rt' o, afterFailure cf env false (h, with_attempt rt) = Ok ((h', rt'), o) /\
    live rt' /\ rt_attempt rt' + potential rt' <= rt_attempt rt + (1 + n) /\ steps_left rt' < 2 * (1 + n))
    by (destruct G as (h' & rt' & o & E & H); exists h', rt', o; auto). clear G.
  destruct (env_worker env); [|done|destruct (env_evidence env) as [evidence|]; [|done]].
  2: { rewrite setStatus_ok; [|by simpl; rewrite Hs|by simpl; rewrite Hs]. eexists _, _, _. split; [done|].
       apply W. apply settled_within; [by right; right|done|done|done]. }
  destruct (negb (env_clean env)); [done|]. rewrite setStatus_ok; [|by simpl; rewrite Hs|by simpl; rewrite Hs]. cbn [res_bind].
  destruct (rp_batch _).
  - eexists _, _, _. split; [done|]. unfold live, potential, steps_left. simpl. fold n. split_and!; [done|lia|lia].
  - edestruct (verdict_within env h (with_status reviewing "verification passed" (with_attempt rt))) as (h' & rt' & o & E & H);
      [done|done|]. exists h', rt', o. split; [exact E|]. apply W. exact H.
Qed.

Lemma batch_within env h rt :
  rt_status rt = reviewing -> rt_pendingBatch rt = true ->
  exists h' rt', batchVerdict cf env (h, rt) = Ok (h', rt') /\
    within (left_after l (rt_rung rt) (rt_attemptsOnRung rt)) rt rt'.
Proof.
  intros Hs Hp. unfold batchVerdict. cbn [fst snd]. destruct (env_batchError env) as [err|].
  { destruct (forceFail_ok ("batch review failed: " +:+ err) (with_flags (rt_preReviewed rt) false (rt_resume rt) rt))
      as (rt' & -> & Ha & Hb & Hc). eexists _, _. split; [done|].
    apply settled_within; [unfold settled; naive_solver|done|simpl in Ha; lia|apply left_after_nonneg]. }
  destruct (verdict_within env h (with_flags (rt_preReviewed rt) false (rt_resume rt) rt)) as (h' & rt' & o & E & H); [done|done|].
  rewrite E. cbn [res_bind]. destruct o; eexists _, _; (split; [done|]); exact H.
Qed.

Lemma drive_within envs h rt :
  live rt ->
  exists h' rt', drive cf envs (h, rt) = Ok (h', rt') /\ live rt' /\
    rt_attempt rt' + potential rt' <= rt_attempt rt + potential rt /\
    (steps_left rt <= Z.of_nat (length envs) -> settled (rt_status rt')).
Proof.
  revert h rt. induction envs as [|env envs IH]; intros h rt Hlive.
  - exists h, rt. split_and!; [done|done|lia|]. unfold steps_left. unfold live in Hlive. simpl.
    pose proof (left_after_nonneg l (rt_rung rt) (rt_attemptsOnRung rt)).
    pose proof (left_after_nonneg l (rt_rung rt) (rt_attemptsOnRung rt + 1)). unfold left_before.
    destruct (rt_pendingBatch rt); [lia|]. destruct Hlive as [E|?]; [rewrite bool_decide_eq_true_2 by done; lia|done].
  - cbn [drive snd fst]. unfold live in Hlive. destruct (rt_pendingBatch rt) eqn:Ep.
    + destruct (batch_within env h rt Hlive Ep) as (h1 & rt1 & E & Hl1 & Hp1 & Hs1). rewrite E. cbn [res_bind].
      destruct (IH h1 rt1 Hl1) as (h' & rt' & E' & Hl' & Hp' & Hs'). exists h', rt'. split_and!; [done|done| |].
      * unfold potential at 2. rewrite Ep. lia.
      * unfold steps_left at 1. rewrite Ep. intros Hlen. apply Hs'. simpl in Hlen. lia.
    + destruct Hlive as [Er|Hst].
      * rewrite (bool_decide_eq_true_2 (rt_status rt = running)) by done.
        destruct (attempt_within env h (with_flags (rt_preReviewed rt) false false rt)) as (h1 & rt1 & o & E & Hl1 & Hp1 & Hs1); [done|done|].
        rewrite E. cbn [res_bind fst].
        destruct (IH h1 rt1 Hl1) as (h' & rt' & E' & Hl' & Hp' & Hs'). exists h', rt'.
        unfold potential at 2, steps_left at 1. rewrite Ep, bool_decide_eq_true_2 by done.
        split_and!; [done|done|simpl in *; lia|]. intros Hlen. apply Hs'. simpl in *. lia.
      * rewrite bool_decide_eq_false_2 by (intros E; rewrite E in Hst; by destruct Hst as [?|[?|?]]).
        exists h, rt. split_and!; [done| |lia|done]. unfold live. rewrite Ep. by right.
Qed.

(** A contract of the plan whose dependencies passed. *)
Definition ready_contract (task_id : string) (risk : ContractRisk) : Runtime :=
  with_status ready "dependencies passed" (addContract task_id risk).

Lemma start_within task risk preVerdict issues preserved :
  exists rt o, executeContract_start preVerdict issues preserved (ready_contract task risk) = Ok (rt, o) /\
    live rt /\ rt_attempt rt = 0 /\
    potential rt <= Z.max 1 (max_local_attempts l) + Z.max 0 (max_diagnosed_attempts l) + Z.max 1 (max_escalation_attempts l) /\
    steps_left rt = 2 * potential rt.
Proof.
  unfold executeContract_start. rewrite setStatus_ok by done. cbn [res_bind].
  destruct risk, preVerdict as [[]|], preserved as [why|]; cbn;
    (eexists _, _; split; [reflexivity|]; unfold live, potential, steps_left, settled; cbn;
     rewrite ?(bool_decide_eq_true_2 (running = running)), ?(bool_decide_eq_false_2 (failed = running)),
       ?(bool_decide_eq_false_2 (blocked = running)) by done;
     unfold left_before; cbn; split_and!; [tauto|done|lia|lia]).
Qed.

(** The attempt loop of a contract always ends and never makes an illegal
    status change: whatever the workers, reviewers, verification and git answer,
    with batch reviews in between and escalation at any point, a contract makes at
    most [max 1 local + max 0 diagnosed + max 1 escalation] attempts, and after
    twice that many driver steps it is passed, failed or blocked. *)
Theorem contract_ladder_bounded task risk preVerdict issues preserved h envs :
  exists rt o h' rt', executeContract_start preVerdict issues preserved (ready_contract task risk) = Ok (rt, o) /\
    drive cf envs (h, rt) = Ok (h', rt') /\
    let bound := Z.max 1 (max_local_attempts (cf_ladder cf)) + Z.max 0 (max_diagnosed_attempts (cf_ladder cf))
                 + Z.max 1 (max_escalation_attempts (cf_ladder cf)) in
    rt_attempt rt' <= bound /\
    (2 * bound <= Z.of_nat (length envs) -> settled (rt_status rt')).
Proof.
  destruct (start_within task risk preVerdict issues preserved) as (rt & o & E & Hl & Ha & Hp & Hs).
  destruct (drive_within envs h rt Hl) as (h' & rt' & E' & Hl' & Hp' & Hs').
  exists rt, o, h', rt'. cbv zeta. fold l. split_and!; [done|done| |intros; apply Hs'; lia].
  assert (0 <= potential rt').
  { unfold potential, left_before. pose proof (left_after_nonneg l (rt_rung rt') (rt_attemptsOnRung rt')).
    pose proof (left_after_nonneg l (rt_rung rt') (rt_attemptsOnRung rt' + 1)). repeat case_match; lia. }
  lia.
Qed.
End Bound.
End Executor.

(** ** [promoteReady]: the contracts of a plan by task id *)
Module Dag.
Import Contract Executor.

Record Node := mkNode { nd_deps : list string; nd_rt : Runtime }.
Definition Plan : Type := jsmap string Node.

Local Open Scope string_scope.

(** The status of a dependency; [results] are the ids with integrated results. *)
Definition dep_status (results : list string) (m : Plan) (d : string) : ContractStatus :=
  match map_get d m with
  | Some nd => rt_status (nd_rt nd)
  | None => if js_includes d results then passed else failed
  end.

Definition put (id : string) (nd : Node) (rt : Runtime) (m : Plan) : Plan := map_set id (mkNode (nd_deps nd) rt) m.

(** One iteration of the inner loop; the flag says whether it changed anything. *)
Definition promote_node (results : list string) (m : Plan) (id : string) : res (ContractStatus * ContractStatus) (Plan * bool) :=
  match map_get id m with
  | None => Ok (m, false)
  | Some nd =>
      let rt := nd_rt nd in
      if negb (bool_decide (rt_status rt = pending)) then Ok (m, false)
      else
        let deps := map (dep_status results m) (nd_deps nd) in
        if js_every (fun s => bool_decide (s = passed)) deps then
          let! rt := setStatus ready "dependencies passed" rt in Ok (put id nd rt m, true)
        else if js_some (fun s => bool_decide (s = failed)) deps then
          let! rt := setStatus blocked "a dependency failed" (with_reason "dependency failed" rt) in
          let! rt := setStatus failed "dependency failed" rt in
          Ok (put id nd rt m, true)
        else Ok (m, false)
  end.

(** [for (const rt of this.contracts.values())]. *)
Fixpoint promote_pass (results ids : list string) (m : Plan) (changed : bool) : res (ContractStatus * ContractStatus) (Plan * bool) :=
  match ids with
  | [] => Ok (m, changed)
  | id :: ids' =>
      let! r := promote_node results m id in
      promote_pass results ids' (fst r) (changed || snd r)
  end.

(** [while (changed)], with fuel. *)
Fixpoint promote_loop (fuel : nat) (results : list string) (m : Plan) : option (res (ContractStatus * ContractStatus) Plan) :=
  match fuel with
  | O => None
  | S fuel' =>
      match promote_pass results (map_keys m) m false with
      | Err e => Some (Err e)
      | Ok (m', true) => promote_loop fuel' results m'
      | Ok (m', false) => Some (Ok m')
      end
  end.

Definition promoteReady (results : list string) (m : Plan) : option (res (ContractStatus * ContractStatus) Plan) :=
  promote_loop (S (map_size m)) results m.

(** *** Properties *)

Definition status_at (m : Plan) (id : string) : option ContractStatus := (fun nd => rt_status (nd_rt nd)) <$> map_get id m.
Definition deps_at (m : Plan) (id : string) : option (list string) := nd_deps <$> map_get id m.

(** One promotion, as the statuses see it. *)
Record promoted (results : list string) (m m' : Plan) (id : string) : Prop := {
  pm_keys : map_keys m' = map_keys m;
  pm_deps : forall i, deps_at m' i = deps_at m i;
  pm_was : status_at m id = Some pending;
  pm_others : forall i, i <> id -> status_at m' i = status_at m i;
  pm_now : exists ds, deps_at m id = Some ds /\
    ((status_at m' id = Some ready /\ forall d, d ∈ ds -> dep_status results m d = passed) \/
     (status_at m' id = Some failed /\ exists d, d ∈ ds /\ dep_status results m d = failed));
}.

(** Nothing to do for [id]: it is not pending, or some dependency is undecided and none has failed. *)
Definition undecided (results : list string) (m : Plan) (id : string) : Prop :=
  status_at m id = Some pending -> exists ds, deps_at m id = Some ds /\
    (exists d, d ∈ ds /\ dep_status results m d <> passed) /\ (forall d, d ∈ ds -> dep_status results m d <> failed).

Lemma put_promoted results m id nd rt :
  map_get id m = Some nd -> rt_status (nd_rt nd) = pending ->
  ((rt_status rt = ready /\ forall d, d ∈ nd_deps nd -> dep_status results m d = passed) \/
   (rt_status rt = failed /\ exists d, d ∈ nd_deps nd /\ dep_status results m d = failed)) ->
  promoted results m (put id nd rt m) id.
Proof.
  intros Hg Hp Hn. unfold put. constructor.
  - apply map_set_keys_present. destruct (decide (id ∈ map_keys m)) as [?|n]; [done|]. apply map_get_none in n. congruence.
  - intros i. unfold deps_at. rewrite map_get_set. case_decide; [subst; by rewrite Hg|done].
  - unfold status_at. by rewrite Hg, <- Hp.
  - intros i Hi. unfold status_at. by rewrite map_get_set_ne.
  - exists (nd_deps nd). split; [unfold deps_at; by rewrite Hg|]. unfold status_at. rewrite map_get_set_eq. simpl.
    destruct Hn as [[-> ?]|[-> ?]]; [by left|by right].
Qed.

Lemma promote_node_spec results m id :
  exists m' b, promote_node results m id = Ok (m', b) /\
    if b then promoted results m m' id else m' = m /\ undecided results m id.
Proof.
  unfold promote_node, undecided, status_at, deps_at. destruct (map_get id m) as [nd|] eqn:Hg; [|eexists _, false; simpl; split_and!; done].
  destruct (bool_decide (rt_status (nd_rt nd) = pending)) eqn:Hp; cbn [negb].
  2: { apply bool_decide_eq_false in Hp. eexists _, false. simpl. split_and!; [done|done|congruence]. }
  apply bool_decide_eq_true in Hp.
  destruct (js_every _ _) eqn:E1.
  - rewrite setStatus_ok; [|by rewrite Hp|by rewrite Hp]. eexists _, true. split; [done|]. apply put_promoted; [done|done|left].
    split; [done|]. intros d Hd. rewrite js_every_true in E1.
    specialize (E1 (dep_status results m d) ltac:(by apply (list_elem_of_fmap_2 (dep_status results m)))). by apply bool_decide_eq_true in E1.
  - assert (Hne : exists d, d ∈ nd_deps nd /\ dep_status results m d <> passed).
    { apply not_true_iff_false in E1. rewrite js_every_true in E1.
      destruct (js_find (fun d => negb (bool_decide (dep_status results m d = passed))) (nd_deps nd)) as [d|] eqn:Ef.
      - apply js_find_some in Ef as [? Hd]. bool_to_prop. eauto.
      - exfalso. apply E1. intros s (d & -> & Hd)%list_elem_of_fmap. rewrite js_find_none in Ef.
        specialize (Ef d Hd). by apply negb_false_iff in Ef. }
    destruct (js_some _ _) eqn:E2.
    + rewrite setStatus_ok; [|by simpl; rewrite Hp|by simpl; rewrite Hp]. cbn [res_bind]. rewrite setStatus_ok by done.
      eexists _, true. split; [done|]. apply put_promoted; [done|done|right]. split; [done|].
      apply js_some_true in E2 as (s & (d & -> & Hd)%list_elem_of_fmap & Hs). apply bool_decide_eq_true in Hs. eauto.
    + eexists _, false. split_and!; [done|done|]. intros _. exists (nd_deps nd). split_and!; [done|done|].
      intros d Hd Hf. rewrite js_some_false in E2.
      specialize (E2 (dep_status results m d) ltac:(by apply (list_elem_of_fmap_2 (dep_status results m)))).
      by apply bool_decide_eq_false in E2.
Qed.

Section Promotion.
Context (results : list string).

Definition step (m m' : Plan) : Prop := exists id, promoted results m m' id.

Definition pending_count (m : Plan) : nat := length (js_filter (fun id => bool_decide (status_at m id = Some pending)) (map_keys m)).

Lemma step_pending m m' : step m m' -> (pending_count m' < pending_count m)%nat.
Proof.
  intros [id [Hk _ Hw Ho (ds & _ & Hn)]]. unfold pending_count. rewrite Hk.
  assert (Hnow : status_at m' id <> Some pending) by naive_solver.
  apply (js_filter_lt _ _ _ id).
  - intros y. rewrite !bool_decide_eq_true. destruct (decide (y = id)) as [->|]; [done|]. by rewrite Ho.
  - unfold status_at in Hw. destruct (decide (id ∈ map_keys m)) as [?|n]; [done|]. apply map_get_none in n. by rewrite n in Hw.
  - by apply bool_decide_eq_true.
  - by apply bool_decide_eq_false.
Qed.

Lemma steps_pending m m' : rtc step m m' -> (pending_count m' <= pending_count m)%nat /\ map_size m' = map_size m.
Proof.
  induction 1 as [|m1 m2 m3 Hs _ [IH1 IH2]]; [done|]. pose proof (step_pending _ _ Hs).
  destruct Hs as [id [Hk _ _ _ _]]. apply (f_equal length) in Hk. unfold map_keys in Hk. rewrite !length_fmap in Hk.
  unfold map_size in *. split; lia.
Qed.

Lemma promote_pass_spec ids m changed :
  exists m' changed', promote_pass results ids m changed = Ok (m', changed') /\ rtc step m m' /\
    (changed = true -> changed' = true) /\
    (changed = false -> if changed' then (pending_count m' < pending_count m)%nat
                        else m' = m /\ forall id, id ∈ ids -> undecided results m id).
Proof.
  revert m changed. induction ids as [|id ids IH]; intros m changed; cbn [promote_pass].
  - exists m, changed. split_and!; [done|apply rtc_refl|done|]. intros ->. split; [done|set_solver].
  - destruct (promote_node_spec results m id) as (m1 & b & E & Hb). rewrite E. cbn [res_bind fst snd].
    destruct (IH m1 (changed || b)) as (m' & ch & E' & Hr & Ht & Hf). exists m', ch. rewrite E'. destruct b.
    + rewrite orb_true_r in Ht, Hf. assert (Hs : step m m1) by (by exists id). split_and!; [done|by eapply rtc_l|auto|].
      intros _. rewrite Ht by done. pose proof (step_pending _ _ Hs). pose proof (steps_pending _ _ Hr) as [? _]. lia.
    + destruct Hb as [-> Hu]. rewrite orb_false_r in Ht, Hf. split_and!; [done|done|done|]. intros Hc. specialize (Hf Hc).
      destruct ch; [done|]. destruct Hf as [-> Hf]. split; [done|]. intros i [->|Hi]%elem_of_cons; auto.
Qed.

Lemma promote_loop_spec fuel m :
  (pending_count m < fuel)%nat ->
  exists m', promote_loop fuel results m = Some (Ok m') /\ rtc step m m' /\ forall id, id ∈ map_keys m' -> undecided results m' id.
Proof.
  revert m. induction fuel as [|fuel IH]; intros m Hf; [lia|]. cbn [promote_loop].
  destruct (promote_pass_spec (map_keys m) m false) as (m1 & ch & E & Hr & _ & Hc). rewrite E. specialize (Hc eq_refl). destruct ch.
  - destruct (IH m1 ltac:(lia)) as (m' & E' & Hr' & Hu). exists m'. split_and!; [done|by etransitivity|done].
  - destruct Hc as [-> Hu]. eauto.
Qed.

(** [id] failed, or it is pending and depends, through pending contracts, on one that failed. *)
Inductive doomed (m : Plan) : string -> Prop :=
| doomed_now d : dep_status results m d = failed -> doomed m d
| doomed_by i ds d : status_at m i = Some pending -> deps_at m i = Some ds -> d ∈ ds -> doomed m d -> doomed m i.

(** What promotions do to a plan. *)
Record progress (m m' : Plan) : Prop := {
  pg_keys : map_keys m' = map_keys m;
  pg_deps : forall i, deps_at m' i = deps_at m i;
  pg_kept : forall i, status_at m i <> Some pending -> status_at m' i = status_at m i;
  pg_moved : forall i, status_at m i = Some pending ->
    status_at m' i = Some pending \/
    (status_at m' i = Some ready /\ forall ds d, deps_at m i = Some ds -> d ∈ ds -> dep_status results m d = passed) \/
    (status_at m' i = Some failed /\ doomed m i);
}.

Lemma dep_status_at m d :
  dep_status results m d = match status_at m d with Some s => s | None => if js_includes d results then passed else failed end.
Proof. unfold dep_status, status_at. by destruct (map_get d m). Qed.

Lemma progress_passed m m' d : progress m m' -> dep_status results m' d = passed <-> dep_status results m d = passed.
Proof.
  intros [_ _ Hk Hm]. rewrite !dep_status_at. destruct (decide (status_at m d = Some pending)) as [E|E].
  - rewrite E. destruct (Hm d E) as [->|[[-> _]|[-> _]]]; done.
  - by rewrite Hk.
Qed.

Lemma progress_failed m m' d : progress m m' -> dep_status results m' d = failed -> doomed m d.
Proof.
  intros [_ _ Hk Hm]. rewrite dep_status_at. destruct (decide (status_at m d = Some pending)) as [E|E].
  - destruct (Hm d E) as [->|[[-> _]|[-> ?]]]; done.
  - rewrite Hk by done. intros H. apply doomed_now. by rewrite dep_status_at.
Qed.

Lemma steps_progress m m' : rtc step m m' -> progress m m'.
Proof.
  intros H. refine (rtc_ind_r (progress m) m _ _ m' H).
  - constructor; [done|done|done|by left].
  - clear. intros m1 m2 _ [id [Hk Hd Hw Ho (ds & Eds & Hn)]] IH. pose proof IH as [Ik Id Ikept Im].
    assert (Hid : status_at m id = Some pending).
    { destruct (decide (status_at m id = Some pending)) as [|E]; [done|]. rewrite (Ikept id E) in Hw. congruence. }
    constructor; [congruence|congruence| |].
    + intros i Hi. rewrite Ho; [auto|]. intros ->. congruence.
    + intros i Hi. destruct (decide (i = id)) as [->|]; [|rewrite Ho by done; auto]. right.
      rewrite Id in Eds. destruct Hn as [[E Ha]|[E (d & Hin & Hf)]].
      * left. split; [done|]. intros ds' d E' Hin. rewrite E' in Eds. injection Eds as ->.
        apply (progress_passed m m1); auto.
      * right. split; [done|]. eapply doomed_by; [done|done|done|]. by eapply progress_failed.
Qed.

(** Promotion of a plan returns without an illegal transition and decides
    exactly what can be decided: decided contracts keep their status, a pending
    one becomes ready iff all its dependencies passed, fails iff it depends,
    through pending contracts, on one that failed (or is unknown and has no
    result), and stays pending otherwise. *)
Theorem promoteReady_exact m :
  exists m', promoteReady results m = Some (Ok m') /\
    (forall i, status_at m i <> Some pending -> status_at m' i = status_at m i) /\
    (forall i ds, status_at m i = Some pending -> deps_at m i = Some ds ->
       (status_at m' i = Some ready <-> forall d, d ∈ ds -> dep_status results m d = passed) /\
       (status_at m' i = Some failed <-> doomed m i) /\
       (status_at m' i = Some ready \/ status_at m' i = Some failed \/ status_at m' i = Some pending)).
Proof.
  destruct (promote_loop_spec (S (map_size m)) m) as (m' & E & Hr & Hu).
  { unfold pending_count. pose proof (js_filter_length (fun id => bool_decide (status_at m id = Some pending)) (map_keys m)) as Hle.
    unfold map_keys in *. rewrite length_fmap in Hle. unfold map_size. lia. }
  pose proof (steps_progress m m' Hr) as Hp. pose proof Hp as [Hk Hd Hkept Hm].
  assert (Hu' : forall i, undecided results m' i).
  { intros i Hs. apply Hu; [|done]. unfold status_at in Hs.
    destruct (decide (i ∈ map_keys m')) as [|n]; [done|]. apply map_get_none in n. by rewrite n in Hs. }
  assert (Hdoom : forall i, doomed m i -> dep_status results m' i = failed).
  { intros i H. induction H as [d H|i ds d Hs Hds Hin _ IH].
    - rewrite dep_status_at in *. rewrite Hkept; [done|]. intros E'. by rewrite E' in H.
    - rewrite dep_status_at. destruct (Hm i Hs) as [Hs'|[[_ Ha]|[-> _]]]; [|exfalso|done].
      + exfalso. destruct (Hu' i Hs') as (ds' & Hds' & _ & Hnf). rewrite Hd, Hds in Hds'. injection Hds' as <-. by eapply Hnf.
      + specialize (Ha ds d Hds Hin). apply (progress_passed m m' d Hp) in Ha. congruence. }
  exists m'. split_and!; [done|done|]. intros i ds Hs Hds.
  assert (Hnd : forall i, status_at m i = Some pending -> status_at m' i <> Some failed -> ~ doomed m i).
  { intros j Hj Hne Hdm. apply Hdoom in Hdm. rewrite dep_status_at in Hdm.
    destruct (Hm j Hj) as [E'|[[E' _]|[E' _]]]; rewrite E' in Hdm; congruence. }
  destruct (Hm i Hs) as [E'|[[E' Ha]|[E' Hdm]]]; rewrite E'.
  - destruct (Hu' i E') as (ds' & Hds' & (d & Hin & Hne) & _). rewrite Hd, Hds in Hds'. injection Hds' as <-. split_and!; [|split; [done|]|auto].
    + split; [done|]. intros H. destruct Hne. apply (progress_passed m m' d Hp). auto.
    + intros Hdm. exfalso. by apply (Hnd i Hs); [congruence|].
  - split_and!; [|split; [done|]|auto]; [naive_solver|]. intros Hdm. exfalso. by apply (Hnd i Hs); [congruence|].
  - split_and!; [split; [done|]|done|auto]. intros H. exfalso. apply Hdoom in Hdm as Hf.
    destruct Hdm as [i Hdn|i ds0 d Hs0 Hds0 Hin Hdm]; [rewrite dep_status_at, Hs in Hdn; done|].
    rewrite Hds in Hds0. injection Hds0 as <-. specialize (H d Hin). apply Hdoom in Hdm.
    apply (progress_passed m m' d Hp) in H. congruence.
Qed.
End Promotion.
End Dag.
