(* ===== verification/MergeGate.v ===== *)
(** * Merge decisions (src/merge, src/verify/failureBaseline.ts)

    [Baseline] judges a verification outcome against the failures that already
    existed at the base commit, [Decision] is the SHA-fenced merge decision of
    mergeGate.ts, [Ingest] normalises raw check data into its input, and
    [Protection] compares branch protection snapshots. All of them are pure. *)

From S2P Require Import Prelude JsMap.

(** ** src/verify/failureBaseline.ts *)
Module Baseline.

(** The fields of a stage run and of an outcome the comparison reads;
    [sr_infrastructureFailure] is [summary.infrastructureFailure === true]. *)
Record StageRun := mkStageRun {
  sr_name : string;
  sr_exitCode : Z;
  sr_passed : bool;
  sr_infrastructureFailure : bool;
  sr_failingTests : option (list string);
}.

Record VerifyOutcome := mkOutcome {
  vo_stages : list StageRun;
  vo_profileHash : option string;
  vo_blocked : bool;
  vo_quarantined : option (list string);
}.

Record FailureBaseline := mkBaseline {
  fb_baseSha : string;
  fb_profileHash : string;
  fb_failures : list string;
  fb_flaky : list string;
  fb_capturedAt : string;
  fb_stagesRun : option (list string);
  fb_exitCodes : option (jsmap string Z);
}.

Record BaselineVerdict := mkVerdict {
  bv_introduced : list string;
  bv_preExisting : list string;
  bv_fixed : list string;
  bv_stale : bool;
  bv_blocking : bool;
  bv_reason : string;
}.

Local Open Scope string_scope.

Definition SEPARATOR : string := " » ".

Definition run_ids (run : StageRun) : list string :=
  if sr_passed run then []
  else let tests := nullish (sr_failingTests run) [] in
       if bool_decide (tests = []) then ["stage:" +:+ sr_name run]
       else map (fun test => "test:" +:+ sr_name run +:+ SEPARATOR +:+ test) tests.

Definition failureIds (o : VerifyOutcome) : list string := concat (map run_ids (vo_stages o)).

(** [s.slice(0, s.indexOf(sep))], when [sep] occurs. *)
Fixpoint before_sep (sep s : string) : option string :=
  if js_startsWith s sep then Some ""
  else match s with
       | EmptyString => None
       | String c s' => option_map (String c) (before_sep sep s')
       end.

(** [s.slice(n)]. *)
Fixpoint js_slice_from (n : nat) (s : string) : string :=
  match n, s with
  | O, _ => s
  | S n', String _ s' => js_slice_from n' s'
  | S _, EmptyString => ""
  end.

Definition stageOf (id : string) : string :=
  if js_startsWith id "stage:" then js_slice_from 6 id
  else let rest := js_slice_from 5 id in nullish (before_sep SEPARATOR rest) rest.

Definition quarantine_list (q : option (list string)) : string :=
  let s := js_join ", " (nullish q []) in if truthy s then s else "unknown".

(** A failing stage that died differently than on the base. *)
Definition changed_run (b : FailureBaseline) (run : StageRun) : bool :=
  if sr_passed run then false
  else sr_infrastructureFailure run
       || match fb_exitCodes b ≫= map_get (sr_name run) with
          | Some baseCode => negb (baseCode =? sr_exitCode run)%Z
          | None => false
          end.

Definition changedStages (b : FailureBaseline) (o : VerifyOutcome) : list string :=
  js_dedup (map sr_name (js_filter (changed_run b) (vo_stages o))).

Definition inherits (b : FailureBaseline) (o : VerifyOutcome) (id : string) : bool :=
  js_includes id (fb_failures b) && negb (js_includes (stageOf id) (changedStages b o)).

Definition stale_verdict (current : list string) (reason : string) : BaselineVerdict :=
  mkVerdict current [] [] true true ("stale baseline: " +:+ reason).

Definition compareToBaseline (b : FailureBaseline) (o : VerifyOutcome) (boundBaseSha : option string) : BaselineVerdict :=
  let current := failureIds o in
  if vo_blocked o then
    mkVerdict current [] [] false true ("blocked by quarantined test(s): " +:+ quarantine_list (vo_quarantined o))
  else match boundBaseSha with
  | None | Some "" => stale_verdict current "the candidate has no bound base SHA"
  | Some sha =>
      if negb (bool_decide (js_lower (fb_baseSha b) = js_lower sha)) then
        stale_verdict current ("captured at " +:+ fb_baseSha b +:+ " but the candidate is bound to " +:+ sha)
      else if match vo_profileHash o with
              | Some h => negb (bool_decide (h = fb_profileHash b)) | None => false end then
        stale_verdict current "captured for a different verification profile"
      else
        let preExisting := js_filter (inherits b o) current in
        let introduced := js_filter (fun id => negb (inherits b o id)) current in
        let ranStages := map sr_name (vo_stages o) in
        let fixed := js_filter (fun id => js_includes (stageOf id) ranStages && negb (js_includes id current)) (fb_failures b) in
        mkVerdict introduced preExisting fixed false (negb (bool_decide (introduced = [])))
          (if negb (bool_decide (introduced = []))
           then js_num (js_len introduced) +:+ " failure(s) introduced since " +:+ fb_baseSha b
           else "no failures beyond the " +:+ js_num (js_len preExisting) +:+ " present at " +:+ fb_baseSha b)
  end.

(** *** [captureBaseline], after its checkout checks: [outcomes] are the results
    of the confirming runs, [head] the commit checked out. *)

Definition everFailed (perRun : list (list string)) : list string := js_dedup (concat perRun).

Definition failed_always (perRun : list (list string)) (id : string) : bool :=
  js_every (fun ids => js_includes id ids) perRun.

(** The exit code of the first run of a stage, in each outcome. *)
Definition codes_of (name : string) (outcomes : list VerifyOutcome) : list (option Z) :=
  map (fun o => option_map sr_exitCode (js_find (fun r => String.eqb (sr_name r) name) (vo_stages o))) outcomes.

Definition record_code (outcomes : list VerifyOutcome) (codes : jsmap string Z) (run : StageRun) : jsmap string Z :=
  if sr_passed run then codes
  else if js_every (fun c => bool_decide (c = Some (sr_exitCode run))) (codes_of (sr_name run) outcomes)
       then map_set (sr_name run) (sr_exitCode run) codes else codes.

Definition exitCodes_of (outcomes : list VerifyOutcome) : jsmap string Z :=
  foldl (record_code outcomes) [] (match outcomes with [] => [] | o :: _ => vo_stages o end).

Inductive CaptureError := infrastructure_failure | runs_not_positive | not_at_base (head : string) | uncommitted_changes.

(** What git answers about the checkout: HEAD, the commit [baseSha] names
    (empty when it names none) and the status output. *)
Record Checkout := { co_head : string; co_wanted : string; co_status : string }.

(** The runs, stopping at the first that failed for an infrastructure reason. *)
Fixpoint confirm_runs (outcomes : list VerifyOutcome) : res CaptureError (list VerifyOutcome) :=
  match outcomes with
  | [] => Ok []
  | o :: rest => if js_some sr_infrastructureFailure (vo_stages o) then Err infrastructure_failure
                 else let! os := confirm_runs rest in Ok (o :: os)
  end.

Definition captureBaseline (checkout : Checkout) (profileHash capturedAt : string) (outcomes : list VerifyOutcome)
  : res CaptureError FailureBaseline :=
  if bool_decide (outcomes = []) then Err runs_not_positive
  else if negb (truthy (co_wanted checkout)) || negb (bool_decide (co_wanted checkout = co_head checkout))
  then Err (not_at_base (co_head checkout))
  else if truthy (co_status checkout) then Err uncommitted_changes
  else
    let! os := confirm_runs outcomes in
    let perRun := map (fun o => js_dedup (failureIds o)) os in
    let ever := everFailed perRun in
    Ok (mkBaseline (co_head checkout) profileHash
          (js_sort String.leb (js_filter (failed_always perRun) ever))
          (js_sort String.leb (js_filter (fun id => negb (failed_always perRun id)) ever))
          capturedAt
          (Some (js_dedup (concat (map (fun o => map sr_name (vo_stages o)) os))))
          (Some (exitCodes_of os))).

(** *** Properties *)

Lemma startsWith_app a b p :
  (String.length p <= String.length a)%nat -> js_startsWith (a +:+ b) p = js_startsWith a p.
Proof.
  revert a. induction p as [|c p IH]; intros a Ha; [by destruct (a +:+ b), a|].
  destruct a as [|c' a]; simpl in Ha; [lia|].
  change (String c' a +:+ b) with (String c' (a +:+ b)). simpl. by rewrite IH by lia.
Qed.

(** A stage name the id format can carry: cut at the first separator it comes
    back whole. Every name without the character » is plain. *)
Definition plain (name : string) : Prop := before_sep SEPARATOR (name +:+ SEPARATOR) = Some name.

Lemma before_sep_plain n t : plain n -> before_sep SEPARATOR (n +:+ SEPARATOR +:+ t) = Some n.
Proof.
  unfold plain. induction n as [|c n IH]; [intros _; by destruct t|].
  change (String c n +:+ ?x) with (String c (n +:+ x)).
  cbn [before_sep].
  assert (E : js_startsWith (String c (n +:+ SEPARATOR +:+ t)) SEPARATOR = js_startsWith (String c (n +:+ SEPARATOR)) SEPARATOR).
  { rewrite <- string_app_assoc. change (String c (?x +:+ t)) with (String c x +:+ t). apply startsWith_app.
    change (String c (n +:+ SEPARATOR)) with (String c n +:+ SEPARATOR). rewrite string_length_app. simpl. lia. }
  rewrite E. clear E. destruct (js_startsWith _ _); [by intros [=]|].
  destruct (before_sep SEPARATOR (n +:+ SEPARATOR)) eqn:B; [|done].
  intros [= ->]. by rewrite IH.
Qed.

Lemma stageOf_run_ids run id : plain (sr_name run) -> id ∈ run_ids run -> stageOf id = sr_name run.
Proof.
  intros Hp. unfold run_ids. destruct (sr_passed run); [set_solver|].
  destruct (bool_decide _).
  - intros ->%list_elem_of_singleton. unfold stageOf. by rewrite (proj2 (js_startsWith_true _ "stage:")) by eauto.
  - intros (t & -> & _)%list_elem_of_fmap. unfold stageOf.
    change (js_startsWith _ _) with false. cbn iota zeta.
    change (js_slice_from 5 _) with (sr_name run +:+ SEPARATOR +:+ t). by rewrite before_sep_plain.
Qed.

Lemma run_ids_nonempty run : sr_passed run = false -> exists id, id ∈ run_ids run.
Proof.
  intros Hp. unfold run_ids. rewrite Hp. destruct (nullish _ []) as [|t l]; simpl; [set_solver|]. eexists. by left.
Qed.

Lemma changedStages_elem b o n :
  n ∈ changedStages b o <-> exists run, run ∈ vo_stages o /\ changed_run b run = true /\ sr_name run = n.
Proof.
  unfold changedStages. rewrite js_dedup_elem, list_elem_of_fmap. setoid_rewrite js_filter_elem. naive_solver.
Qed.

(** The candidate's base and profile are the baseline's. *)
Definition bound_to (b : FailureBaseline) (o : VerifyOutcome) (boundBaseSha : option string) : Prop :=
  (exists sha, boundBaseSha = Some sha /\ sha <> "" /\ js_lower (fb_baseSha b) = js_lower sha) /\
  (forall h, vo_profileHash o = Some h -> h = fb_profileHash b).

(** The failing stage failed on the base in the same way: same ids, same exit code where one was recorded. *)
Definition forgiven (b : FailureBaseline) (run : StageRun) : Prop :=
  sr_infrastructureFailure run = false /\
  (forall codes c, fb_exitCodes b = Some codes -> map_get (sr_name run) codes = Some c -> c = sr_exitCode run) /\
  (forall id, id ∈ run_ids run -> id ∈ fb_failures b).

Lemma changed_run_false b run :
  sr_passed run = false ->
  changed_run b run = false <->
  sr_infrastructureFailure run = false /\
  (forall codes c, fb_exitCodes b = Some codes -> map_get (sr_name run) codes = Some c -> c = sr_exitCode run).
Proof.
  intros Hp. unfold changed_run. rewrite Hp, orb_false_iff.
  destruct (fb_exitCodes b) as [codes|]; simpl; [|naive_solver].
  destruct (map_get (sr_name run) codes) as [c|] eqn:E; [|naive_solver].
  rewrite negb_false_iff, Z.eqb_eq. naive_solver.
Qed.

Lemma all_inherited b o :
  (forall run, run ∈ vo_stages o -> plain (sr_name run)) ->
  (forall id, id ∈ failureIds o -> inherits b o id = true) <->
  (forall run, run ∈ vo_stages o -> sr_passed run = false -> forgiven b run).
Proof.
  intros Hplain. unfold failureIds. setoid_rewrite concat_map_elem. unfold inherits. split.
  - intros H run Hr Hp.
    assert (Hid : forall id, id ∈ run_ids run -> id ∈ fb_failures b /\ changed_run b run = false).
    { intros id Hin. specialize (H id ltac:(eauto)). apply andb_true_iff in H as [Hk Hc].
      apply js_includes_true in Hk. split; [done|].
      apply negb_true_iff, js_includes_false in Hc. rewrite (stageOf_run_ids run) in Hc by auto.
      rewrite changedStages_elem in Hc. destruct (changed_run b run) eqn:E; [|done]. exfalso. eauto. }
    destruct (run_ids_nonempty run Hp) as [id0 H0].
    destruct (Hid id0 H0) as [_ Hc]. apply changed_run_false in Hc as [? ?]; [|done].
    split_and!; [done..|]. intros id Hin. by apply Hid.
  - intros H id (run & Hr & Hin).
    assert (Hp : sr_passed run = false).
    { destruct (sr_passed run) eqn:E; [|done]. unfold run_ids in Hin. rewrite E in Hin. set_solver. }
    destruct (H run Hr Hp) as (_ & _ & Hk). rewrite andb_true_iff, js_includes_true, negb_true_iff, js_includes_false.
    split; [auto|]. rewrite changedStages_elem. intros (r' & Hr' & Hc & _).
    assert (Hp' : sr_passed r' = false).
    { destruct (sr_passed r') eqn:E; [|done]. unfold changed_run in Hc. by rewrite E in Hc. }
    destruct (H r' Hr' Hp') as (? & ? & _).
    assert (changed_run b r' = false) by (by apply changed_run_false). congruence.
Qed.

(** A baseline forgives exactly what was already broken: the verdict does
    not block if and only if the outcome is not blocked by quarantine, the
    baseline was captured at the candidate's base for its profile, and every
    failing stage failed on the base with the same failures and no other exit
    code, and not for an infrastructure reason; and the failures are always split
    into introduced and pre-existing ones. *)
Theorem baseline_forgives_iff b o boundBaseSha :
  (forall run, run ∈ vo_stages o -> plain (sr_name run)) ->
  let v := compareToBaseline b o boundBaseSha in
  (bv_blocking v = false <->
   vo_blocked o = false /\ bound_to b o boundBaseSha /\
   forall run, run ∈ vo_stages o -> sr_passed run = false -> forgiven b run) /\
  (forall id, id ∈ failureIds o <-> id ∈ bv_introduced v \/ id ∈ bv_preExisting v).
Proof.
  intros Hplain. unfold compareToBaseline, bound_to.
  destruct (vo_blocked o); [simpl; set_solver|].
  destruct boundBaseSha as [sha|]; [|simpl; set_solver].
  destruct sha as [|c sha]; [simpl; set_solver|].
  case_bool_decide as Hsha; cbn [negb]; [|simpl; split; [|set_solver]; naive_solver].
  destruct (vo_profileHash o) as [h|].
  1: case_bool_decide as Hh; cbn [negb]; [|simpl; split; [|set_solver]; naive_solver].
  all: cbn -[js_filter inherits failureIds]; split;
    [rewrite negb_false_iff, bool_decide_eq_true, js_filter_nil, <- all_inherited by done;
     setoid_rewrite negb_false_iff; naive_solver
    |intros id; rewrite !js_filter_elem; destruct (inherits b o id); naive_solver].
Qed.

Lemma confirm_runs_ok outcomes os :
  confirm_runs outcomes = Ok os ->
  os = outcomes /\ forall o run, o ∈ os -> run ∈ vo_stages o -> sr_infrastructureFailure run = false.
Proof.
  revert os. induction outcomes as [|o outcomes IH]; intros os H; simpl in H; [injection H as <-; set_solver|].
  destruct (js_some _ _) eqn:E; [done|]. apply res_bind_ok in H as (os' & H' & [= <-]).
  destruct (IH os' H') as [-> Hi]. split; [done|]. intros o' run Ho Hr.
  apply elem_of_cons in Ho as [->|Ho]; [|eauto]. rewrite js_some_false in E. auto.
Qed.

(** A recorded exit code is the one the stage had in every confirming run. *)
Lemma exitCodes_of_spec outcomes n c o :
  map_get n (exitCodes_of outcomes) = Some c -> o ∈ outcomes ->
  exists run, js_find (fun r => String.eqb (sr_name r) n) (vo_stages o) = Some run /\ sr_exitCode run = c.
Proof.
  unfold exitCodes_of. intros H Ho. revert H.
  apply (foldl_ind (fun codes => map_get n codes = Some c -> _)); [done|].
  intros codes run _ IH. unfold record_code. destruct (sr_passed run); [done|].
  destruct (js_every _ _) eqn:E; [|done]. rewrite map_get_set.
  destruct (decide (sr_name run = n)) as [<-|]; [|done]. intros [= <-].
  rewrite js_every_true in E. unfold codes_of in E.
  specialize (E (option_map sr_exitCode (js_find (fun r => String.eqb (sr_name r) (sr_name run)) (vo_stages o)))
               ltac:(by apply (list_elem_of_fmap_2 (fun o => option_map sr_exitCode (js_find (fun r => String.eqb (sr_name r) (sr_name run)) (vo_stages o)))))).
  apply bool_decide_eq_true in E. destruct (js_find _ _) as [r|]; simplify_eq/=. eauto.
Qed.

Lemma find_by_name run runs :
  NoDup (map sr_name runs) -> run ∈ runs -> js_find (fun r => String.eqb (sr_name r) (sr_name run)) runs = Some run.
Proof.
  induction runs as [|r runs IH]; [set_solver|]. cbn [map js_find]. rewrite NoDup_cons. intros [Hni Hnd] Hin.
  destruct (String.eqb_spec (sr_name r) (sr_name run)) as [E|E].
  - apply elem_of_cons in Hin as [->|Hin]; [done|]. exfalso. apply Hni. rewrite E. by apply list_elem_of_fmap_2.
  - apply elem_of_cons in Hin as [->|Hin]; [done|auto].
Qed.

Lemma failed_always_true os id :
  failed_always (map (fun o => js_dedup (failureIds o)) os) id = true <-> forall o, o ∈ os -> id ∈ failureIds o.
Proof.
  unfold failed_always. rewrite js_every_true. setoid_rewrite js_includes_true. split.
  - intros H o Ho. specialize (H (js_dedup (failureIds o)) ltac:(by apply (list_elem_of_fmap_2 (fun o => js_dedup (failureIds o))))).
    by rewrite js_dedup_elem in H.
  - intros H l (o & -> & Ho)%list_elem_of_fmap. rewrite js_dedup_elem. auto.
Qed.

Lemma everFailed_elem os id :
  id ∈ everFailed (map (fun o => js_dedup (failureIds o)) os) <-> exists o, o ∈ os /\ id ∈ failureIds o.
Proof. unfold everFailed. rewrite js_dedup_elem, concat_map_elem. by setoid_rewrite js_dedup_elem. Qed.

Lemma sorted_elem (l : list string) (x : string) : x ∈ js_sort String.leb l <-> x ∈ l.
Proof. by rewrite js_sort_perm. Qed.

(** Capturing a baseline and judging by it agree: the recorded failures are
    the ids that failed in every confirming run and the flaky ones those that
    failed in some but not all; and a candidate that behaves as one of those runs
    did is held to introduce exactly that run's flaky failures. *)
Theorem captured_run_blocked_by_flakes checkout profileHash at_ os b o :
  captureBaseline checkout profileHash at_ os = Ok b -> o ∈ os ->
  vo_blocked o = false -> (forall h, vo_profileHash o = Some h -> h = profileHash) -> NoDup (map sr_name (vo_stages o)) ->
  (forall id, id ∈ fb_failures b <-> forall o', o' ∈ os -> id ∈ failureIds o') /\
  (forall id, id ∈ fb_flaky b <-> (exists o', o' ∈ os /\ id ∈ failureIds o') /\ ~ forall o', o' ∈ os -> id ∈ failureIds o') /\
  bv_introduced (compareToBaseline b o (Some (co_head checkout))) = js_filter (fun id => js_includes id (fb_flaky b)) (failureIds o).
Proof.
  unfold captureBaseline. case_bool_decide as Hne; [done|].
  destruct (_ || _) eqn:Hco; [done|]. destruct (truthy (co_status checkout)); [done|].
  intros (os' & Hos & [= <-])%res_bind_ok Ho Hb Hh Hnd. apply confirm_runs_ok in Hos as [-> Hinf].
  apply orb_false_iff in Hco as [Hw Hhd]. apply negb_false_iff in Hw, Hhd. apply bool_decide_eq_true in Hhd.
  cbn [fb_failures fb_flaky].
  assert (HF : forall id, id ∈ js_sort String.leb (js_filter (failed_always (map (fun o => js_dedup (failureIds o)) os))
                 (everFailed (map (fun o => js_dedup (failureIds o)) os))) <-> forall o', o' ∈ os -> id ∈ failureIds o').
  { intros id. rewrite sorted_elem, js_filter_elem, failed_always_true, everFailed_elem. naive_solver. }
  assert (HK : forall id, id ∈ js_sort String.leb (js_filter (fun id => negb (failed_always (map (fun o => js_dedup (failureIds o)) os) id))
                 (everFailed (map (fun o => js_dedup (failureIds o)) os))) <->
                 (exists o', o' ∈ os /\ id ∈ failureIds o') /\ ~ forall o', o' ∈ os -> id ∈ failureIds o').
  { intros id. rewrite sorted_elem, js_filter_elem, everFailed_elem, negb_true_iff, <- not_true_iff_false, failed_always_true. done. }
  split_and!; [done|done|].
  set (b := mkBaseline _ _ _ _ _ _ _).
  assert (Hc : forall n, n ∉ changedStages b o).
  { intros n (run & Hr & Hc & _)%changedStages_elem. unfold changed_run in Hc.
    destruct (sr_passed run); [done|]. rewrite (Hinf o run) in Hc by done. cbn in Hc.
    destruct (map_get (sr_name run) (exitCodes_of os)) as [c|] eqn:E; [|done].
    destruct (exitCodes_of_spec os _ c o E Ho) as (r & Hf & <-). rewrite find_by_name in Hf by done.
    injection Hf as <-. by rewrite Z.eqb_refl in Hc. }
  unfold compareToBaseline. rewrite Hb.
  assert (Hnz : co_head checkout <> ""). { intros E. rewrite <- Hhd in E. by rewrite E in Hw. }
  destruct (co_head checkout) as [|c0 h0] eqn:Eh; [done|]. rewrite bool_decide_eq_true_2 by done. cbn [negb].
  replace (match vo_profileHash o with Some h => negb (bool_decide (h = fb_profileHash b)) | None => false end) with false.
  2: { destruct (vo_profileHash o) as [h|]; [|done]. by rewrite (Hh h), bool_decide_eq_true_2. }
  cbn [bv_introduced]. apply js_filter_ext. intros id Hid.
  unfold inherits. rewrite (proj2 (js_includes_false _ _) (Hc _)), andb_true_r.
  change (fb_failures b) with (js_sort String.leb (js_filter (failed_always (map (fun o => js_dedup (failureIds o)) os))
                 (everFailed (map (fun o => js_dedup (failureIds o)) os)))).
  apply eq_true_iff_eq. rewrite negb_true_iff, js_includes_false, js_includes_true, HF, HK. naive_solver.
Qed.
End Baseline.

(** ** src/merge/mergeGate.ts *)
Module Decision.

Inductive CheckStatus := pass | fail | pending | skipped.
Record CheckRun := mkCheck { ck_name : string; ck_status : CheckStatus; ck_sha : string }.
Inductive Verdict := PASS | FAIL.
Record ReviewVerdict := mkReview { rv_verdict : Verdict; rv_sha : string }.
Inductive MergeQueueEntryState := queued | merging | merged | failed.
Record MergeQueueItem := mkItem {
  qi_repo : string;
  qi_prNumber : Z;
  qi_state : MergeQueueEntryState;
  qi_enqueuedAt : string;
}.
(** [Pick<FailureBaseline, "baseSha" | "failures" | "flaky">]. *)
Record CheckBaseline := mkCheckBaseline { cb_baseSha : string; cb_failures : list string; cb_flaky : list string }.

Record MergeDecisionInput := mkInput {
  mi_repo : string;
  mi_prNumber : Z;
  mi_candidateSha : string;
  mi_prHeadSha : string;
  mi_baseSha : string;
  mi_checks : list CheckRun;
  mi_requiredChecks : list string;
  mi_review : option ReviewVerdict;
  mi_queue : list MergeQueueItem;
  mi_baseline : option CheckBaseline;
}.

Inductive FailureClass := base | flaky | deterministic.
Inductive Outcome := merge | wait | reject.
Record MergeDecision := mkDecision {
  md_decision : Outcome;
  md_reasons : list string;
  md_failureClasses : jsmap string FailureClass;
}.

#[global] Instance CheckStatus_eq_dec : EqDecision CheckStatus.
Proof. solve_decision. Defined.
#[global] Instance Verdict_eq_dec : EqDecision Verdict.
Proof. solve_decision. Defined.
#[global] Instance EntryState_eq_dec : EqDecision MergeQueueEntryState.
Proof. solve_decision. Defined.
#[global] Instance FailureClass_eq_dec : EqDecision FailureClass.
Proof. solve_decision. Defined.
#[global] Instance Outcome_eq_dec : EqDecision Outcome.
Proof. solve_decision. Defined.

Local Open Scope string_scope.

Definition classifyFailure (name : string) (inp : MergeDecisionInput) : FailureClass :=
  match mi_baseline inp with
  | Some b => if String.eqb (cb_baseSha b) (mi_baseSha inp) && js_includes name (cb_failures b) then base
              else if js_includes name (cb_flaky b) then flaky else deterministic
  | None => deterministic
  end.

Definition class_name (c : FailureClass) : string :=
  match c with base => "base" | flaky => "flaky" | deterministic => "deterministic" end.

(** *** The reasons, in the order the code pushes them *)

Definition candidate_reasons (inp : MergeDecisionInput) : list string :=
  if negb (String.eqb (mi_candidateSha inp) (mi_prHeadSha inp))
  then ["candidate sha " +:+ mi_candidateSha inp +:+ " != PR head " +:+ mi_prHeadSha inp] else [].

Definition review_sha_reasons (inp : MergeDecisionInput) : list string :=
  match mi_review inp with
  | Some r => if negb (String.eqb (rv_sha r) (mi_prHeadSha inp))
              then ["review sha " +:+ rv_sha r +:+ " != head " +:+ mi_prHeadSha inp] else []
  | None => []
  end.

Definition check_sha_reasons (inp : MergeDecisionInput) : list string :=
  concat (map (fun c => if negb (String.eqb (ck_sha c) (mi_prHeadSha inp))
                        then ["check " +:+ ck_name c +:+ " sha " +:+ ck_sha c +:+ " != head " +:+ mi_prHeadSha inp]
                        else []) (mi_checks inp)).

Definition review_fail_reasons (inp : MergeDecisionInput) : list string :=
  match mi_review inp with
  | Some r => if bool_decide (rv_verdict r = FAIL) then ["review FAIL"] else []
  | None => []
  end.

(** The loop over failing checks pushes a reason and records a class. *)
Definition fail_step (inp : MergeDecisionInput) (acc : list string * jsmap string FailureClass) (c : CheckRun)
  : list string * jsmap string FailureClass :=
  if bool_decide (ck_status c = fail) then
    let classification := classifyFailure (ck_name c) inp in
    ((fst acc ++ ["check " +:+ ck_name c +:+ " failed (" +:+ class_name classification +:+ ")"])%list,
     map_set (ck_name c) classification (snd acc))
  else acc.

Definition review_missing_reasons (inp : MergeDecisionInput) : list string :=
  match mi_review inp with None => ["no review"] | Some _ => [] end.

Definition missing_reasons (inp : MergeDecisionInput) : list string :=
  concat (map (fun name => match js_find (fun c => String.eqb (ck_name c) name) (mi_checks inp) with
                           | None => ["required check " +:+ name +:+ " missing"]
                           | Some _ => []
                           end) (js_dedup (mi_requiredChecks inp))).

Definition unfinished_reasons (inp : MergeDecisionInput) : list string :=
  concat (map (fun run =>
    if negb (js_includes (ck_name run) (mi_requiredChecks inp)) then []
    else ((if bool_decide (ck_status run = pending) then ["required check " +:+ ck_name run +:+ " pending"] else [])
          ++ (if bool_decide (ck_status run = skipped) then ["required check " +:+ ck_name run +:+ " skipped"] else []))%list)
    (mi_checks inp)).

(** [other.repo !== input.repo || other.prNumber === input.prNumber] *)
Definition not_other (inp : MergeDecisionInput) (other : MergeQueueItem) : bool :=
  negb (String.eqb (qi_repo other) (mi_repo inp)) || (qi_prNumber other =? mi_prNumber inp)%Z.

Definition merging_reasons (inp : MergeDecisionInput) : list string :=
  concat (map (fun other =>
    if not_other inp other then []
    else if bool_decide (qi_state other = merging)
         then ["repo " +:+ mi_repo inp +:+ " merging PR " +:+ js_num (qi_prNumber other)] else [])
    (mi_queue inp)).

Definition self_item (inp : MergeDecisionInput) : option MergeQueueItem :=
  js_find (fun item => String.eqb (qi_repo item) (mi_repo inp) && (qi_prNumber item =? mi_prNumber inp)%Z) (mi_queue inp).

Definition selfAt (inp : MergeDecisionInput) : string := nullish (option_map qi_enqueuedAt (self_item inp)) "".

Definition earlier (inp : MergeDecisionInput) (other : MergeQueueItem) : bool :=
  String.ltb (qi_enqueuedAt other) (selfAt inp)
  || (String.eqb (qi_enqueuedAt other) (selfAt inp) && (qi_prNumber other <? mi_prNumber inp)%Z).

Definition queue_reasons (inp : MergeDecisionInput) : list string :=
  concat (map (fun other =>
    if not_other inp other then []
    else if negb (bool_decide (qi_state other = queued)) then []
    else if earlier inp other then ["PR " +:+ js_num (qi_prNumber other) +:+ " queued earlier"] else [])
    (mi_queue inp)).

Definition decideMerge (inp : MergeDecisionInput) : MergeDecision :=
  let reasons := (candidate_reasons inp ++ review_sha_reasons inp ++ check_sha_reasons inp ++ review_fail_reasons inp)%list in
  let '(reasons, failureClasses) := foldl (fail_step inp) (reasons, []) (mi_checks inp) in
  if (0 <? js_len reasons)%Z then mkDecision reject reasons failureClasses
  else
    let reasons := (review_missing_reasons inp ++ missing_reasons inp ++ unfinished_reasons inp
                    ++ merging_reasons inp ++ queue_reasons inp)%list in
    if (0 <? js_len reasons)%Z then mkDecision wait reasons failureClasses
    else mkDecision merge [] failureClasses.

(** *** Properties *)

Lemma fail_loop inp reasons classes cs :
  foldl (fail_step inp) (reasons, classes) cs =
  ((reasons ++ concat (map (fun c => if bool_decide (ck_status c = fail)
      then ["check " +:+ ck_name c +:+ " failed (" +:+ class_name (classifyFailure (ck_name c) inp) +:+ ")"] else []) cs))%list,
   foldl (fun m c => if bool_decide (ck_status c = fail) then map_set (ck_name c) (classifyFailure (ck_name c) inp) m else m) classes cs).
Proof.
  revert reasons classes. induction cs as [|c cs IH]; intros reasons classes; simpl; [by rewrite app_nil_r|].
  unfold fail_step at 2. case_bool_decide; simpl; rewrite IH; [by rewrite <- app_assoc|done].
Qed.

Lemma js_len_pos {A} (l : list A) : (0 <? js_len l)%Z = false <-> l = [].
Proof. rewrite Z.ltb_ge. unfold js_len. destruct l; simpl; split; (done || lia). Qed.

Lemma missing_reasons_nil inp :
  missing_reasons inp = [] <-> forall name, name ∈ mi_requiredChecks inp -> exists c, c ∈ mi_checks inp /\ ck_name c = name.
Proof.
  unfold missing_reasons. rewrite concat_map_nil. setoid_rewrite js_dedup_elem. split.
  - intros H name Hn. specialize (H name Hn). destruct (js_find _ _) as [c|] eqn:E; [|done].
    apply js_find_some in E as [? ?%String.eqb_eq]. eauto.
  - intros H name Hn. destruct (H name Hn) as (c & Hc & Hnm).
    destruct (js_find _ _) as [c'|] eqn:E; [done|]. rewrite js_find_none in E. specialize (E c Hc).
    rewrite Hnm, String.eqb_refl in E. done.
Qed.

Lemma unfinished_reasons_nil inp :
  unfinished_reasons inp = [] <->
  forall c, c ∈ mi_checks inp -> ck_name c ∈ mi_requiredChecks inp -> ck_status c <> pending /\ ck_status c <> skipped.
Proof.
  unfold unfinished_reasons. rewrite concat_map_nil. apply forall_proper. intros c. apply forall_proper. intros _.
  destruct (js_includes _ _) eqn:E; cbn [negb].
  - apply js_includes_true in E. rewrite app_nil, !if_nil, !bool_decide_eq_false. naive_solver.
  - apply js_includes_false in E. naive_solver.
Qed.

(** Another pull request of the same repository. *)
Definition other_pr (inp : MergeDecisionInput) (o : MergeQueueItem) : Prop :=
  qi_repo o = mi_repo inp /\ qi_prNumber o <> mi_prNumber inp.

Lemma not_other_false inp o : not_other inp o = false <-> other_pr inp o.
Proof. unfold not_other, other_pr. by rewrite orb_false_iff, negb_false_iff, String.eqb_eq, Z.eqb_neq. Qed.

Lemma merging_reasons_nil inp :
  merging_reasons inp = [] <-> forall o, o ∈ mi_queue inp -> other_pr inp o -> qi_state o <> merging.
Proof.
  unfold merging_reasons. rewrite concat_map_nil. apply forall_proper. intros o. apply forall_proper. intros _.
  rewrite <- not_other_false. destruct (not_other inp o); [naive_solver|]. rewrite if_nil, bool_decide_eq_false. naive_solver.
Qed.

Lemma queue_reasons_nil inp :
  queue_reasons inp = [] <-> forall o, o ∈ mi_queue inp -> other_pr inp o -> qi_state o = queued -> earlier inp o = false.
Proof.
  unfold queue_reasons. rewrite concat_map_nil. apply forall_proper. intros o. apply forall_proper. intros _.
  rewrite <- not_other_false. destruct (not_other inp o); [naive_solver|].
  case_bool_decide; cbn [negb]; [rewrite if_nil|]; naive_solver.
Qed.

(** The reasons a failing check adds. *)
Definition failed_reasons (inp : MergeDecisionInput) : list string :=
  concat (map (fun c => if bool_decide (ck_status c = fail)
    then ["check " +:+ ck_name c +:+ " failed (" +:+ class_name (classifyFailure (ck_name c) inp) +:+ ")"] else []) (mi_checks inp)).

Lemma merge_no_reasons inp :
  md_decision (decideMerge inp) = merge <->
  (candidate_reasons inp = [] /\ review_sha_reasons inp = [] /\ check_sha_reasons inp = [] /\ review_fail_reasons inp = [] /\
   failed_reasons inp = []) /\
  (review_missing_reasons inp = [] /\ missing_reasons inp = [] /\ unfinished_reasons inp = [] /\ merging_reasons inp = [] /\
   queue_reasons inp = []).
Proof.
  unfold decideMerge. rewrite fail_loop. fold (failed_reasons inp). destruct (0 <? js_len _)%Z eqn:E.
  - split; [done|]. intros [H _]. apply not_false_iff_true in E. destruct E. rewrite js_len_pos, !app_nil. tauto.
  - rewrite js_len_pos, !app_nil in E. destruct (0 <? js_len _)%Z eqn:E2.
    + split; [done|]. intros [_ H]. apply not_false_iff_true in E2. destruct E2. rewrite js_len_pos, !app_nil. tauto.
    + rewrite js_len_pos, !app_nil in E2. simpl. tauto.
Qed.

(** C36: the decision is [merge] exactly when the candidate is the reviewed head,
    an independent review passed at that head, every check ran at that head and
    none failed, every required check is present and passed, no other pull
    request of the repository is merging, and none is queued before this one. *)
Theorem decideMerge_merges_iff inp :
  md_decision (decideMerge inp) = merge <->
  mi_candidateSha inp = mi_prHeadSha inp /\
  mi_review inp = Some (mkReview PASS (mi_prHeadSha inp)) /\
  (forall c, c ∈ mi_checks inp -> ck_sha c = mi_prHeadSha inp /\ ck_status c <> fail) /\
  (forall name, name ∈ mi_requiredChecks inp -> exists c, c ∈ mi_checks inp /\ ck_name c = name) /\
  (forall c, c ∈ mi_checks inp -> ck_name c ∈ mi_requiredChecks inp -> ck_status c = pass) /\
  (forall o, o ∈ mi_queue inp -> other_pr inp o ->
     qi_state o <> merging /\ (qi_state o = queued -> earlier inp o = false)).
Proof.
  rewrite merge_no_reasons, missing_reasons_nil, unfinished_reasons_nil, merging_reasons_nil, queue_reasons_nil.
  unfold candidate_reasons, review_sha_reasons, check_sha_reasons, review_fail_reasons, failed_reasons, review_missing_reasons.
  rewrite !concat_map_nil. setoid_rewrite if_nil. setoid_rewrite bool_decide_eq_false. setoid_rewrite negb_false_iff.
  setoid_rewrite String.eqb_eq.
  destruct (mi_review inp) as [[[] sha]|]; cbn -[String.eqb].
  - rewrite if_nil, negb_false_iff, String.eqb_eq.
    assert (HS : forall c, ck_status c = pass <-> ck_status c <> fail /\ ck_status c <> pending /\ ck_status c <> skipped)
      by (intros c; destruct (ck_status c); naive_solver).
    setoid_rewrite HS. naive_solver.
  - naive_solver.
  - naive_solver.
Qed.

(** The pull request is in the queue, waiting or merging. *)
Definition active (inp : MergeDecisionInput) : Prop :=
  exists i, self_item inp = Some i /\ (qi_state i = queued \/ qi_state i = merging).

(** Queue order: time of enqueueing, then pull request number. *)
Definition queued_before (i j : MergeQueueItem) : bool :=
  String.ltb (qi_enqueuedAt i) (qi_enqueuedAt j)
  || (String.eqb (qi_enqueuedAt i) (qi_enqueuedAt j) && (qi_prNumber i <? qi_prNumber j)%Z).

Lemma queued_before_irrefl i : queued_before i i = false.
Proof. unfold queued_before. by rewrite string_ltb_irrefl, Z.ltb_irrefl, andb_false_r. Qed.

Lemma queued_before_trans i j k : queued_before i j = true -> queued_before j k = true -> queued_before i k = true.
Proof.
  unfold queued_before. rewrite !orb_true_iff, !andb_true_iff, !String.eqb_eq, !Z.ltb_lt.
  intros [H1|[-> H1]] [H2|[E2 H2]].
  - left. by eapply string_ltb_trans.
  - left. by rewrite <- E2.
  - by left.
  - right. split; [done|lia].
Qed.

Lemma queued_before_total i j : queued_before i j = false -> queued_before j i = false -> qi_prNumber i = qi_prNumber j.
Proof.
  unfold queued_before. intros [H1 H2]%orb_false_iff [H3 H4]%orb_false_iff.
  pose proof (string_ltb_total _ _ H1 H3) as E. rewrite E, String.eqb_refl in H2. rewrite E, String.eqb_refl in H4.
  bool_to_prop. simpl in *. bool_to_prop. lia.
Qed.

Lemma self_item_spec inp i :
  self_item inp = Some i -> i ∈ mi_queue inp /\ qi_repo i = mi_repo inp /\ qi_prNumber i = mi_prNumber inp.
Proof. intros [H1 H2]%js_find_some. apply andb_true_iff in H2 as [?%String.eqb_eq ?%Z.eqb_eq]. auto. Qed.

Lemma earlier_self inp i o :
  self_item inp = Some i -> earlier inp o = queued_before o i.
Proof.
  intros H. destruct (self_item_spec inp i H) as (_ & _ & Hpr).
  unfold earlier, queued_before, selfAt. rewrite H, Hpr. done.
Qed.

(** With one entry per pull request, a queue entry is its own first entry. *)
Lemma unique_self inp m :
  m ∈ mi_queue inp -> qi_repo m = mi_repo inp -> qi_prNumber m = mi_prNumber inp ->
  NoDup (map qi_prNumber (js_filter (fun o => String.eqb (qi_repo o) (mi_repo inp)) (mi_queue inp))) ->
  self_item inp = Some m.
Proof.
  unfold self_item. induction (mi_queue inp) as [|x q IH]; cbn [js_filter js_find]; [set_solver|].
  intros Hin Hr Hp. destruct (String.eqb_spec (qi_repo x) (mi_repo inp)) as [Ex|Ex]; cbn [andb map].
  - rewrite NoDup_cons. intros [Hni Hnd]. destruct (Z.eqb_spec (qi_prNumber x) (mi_prNumber inp)) as [E|E].
    + apply elem_of_cons in Hin as [->|Hin]; [done|]. exfalso. apply Hni. rewrite E, <- Hp.
      apply list_elem_of_fmap_2, js_filter_elem. by rewrite Hr, String.eqb_refl.
    + apply elem_of_cons in Hin as [->|Hin]; [done|auto].
  - intros Hnd. apply elem_of_cons in Hin as [->|Hin]; [done|auto].
Qed.

(** The queue lets pull requests of a repository through one at a time and
    never deadlocks: of two pull requests in the same queue, waiting or merging,
    at most one is told to merge; and when none is merging, the queue holds
    nothing against the first one waiting. *)
Theorem one_merge_at_a_time i1 i2 :
  mi_repo i1 = mi_repo i2 -> mi_queue i1 = mi_queue i2 -> mi_prNumber i1 <> mi_prNumber i2 -> active i1 -> active i2 ->
  ~ (md_decision (decideMerge i1) = merge /\ md_decision (decideMerge i2) = merge) /\
  ((forall o, o ∈ mi_queue i1 -> qi_repo o = mi_repo i1 -> qi_state o <> merging) ->
   NoDup (map qi_prNumber (js_filter (fun o => String.eqb (qi_repo o) (mi_repo i1)) (mi_queue i1))) ->
   exists m, m ∈ mi_queue i1 /\ qi_repo m = mi_repo i1 /\ qi_state m = queued /\
     forall inp, mi_repo inp = mi_repo i1 -> mi_queue inp = mi_queue i1 -> mi_prNumber inp = qi_prNumber m ->
       merging_reasons inp = [] /\ queue_reasons inp = []).
Proof.
  intros Hr Hq Hne (s1 & Hs1 & Ha1) (s2 & Hs2 & Ha2).
  destruct (self_item_spec _ _ Hs1) as (Hin1 & Hr1 & Hp1), (self_item_spec _ _ Hs2) as (Hin2 & Hr2 & Hp2). split.
  - rewrite !merge_no_reasons, !merging_reasons_nil, !queue_reasons_nil.
    intros [(_ & _ & _ & _ & M1 & Q1) (_ & _ & _ & _ & M2 & Q2)].
    specialize (M1 s2 ltac:(congruence) ltac:(split; congruence)). specialize (M2 s1 ltac:(congruence) ltac:(split; congruence)).
    specialize (Q1 s2 ltac:(congruence) ltac:(split; congruence)). specialize (Q2 s1 ltac:(congruence) ltac:(split; congruence)).
    rewrite (earlier_self _ s1) in Q1 by done. rewrite (earlier_self _ s2) in Q2 by done.
    destruct Ha1, Ha2; try done.
    pose proof (queued_before_total s1 s2 ltac:(auto) ltac:(auto)). congruence.
  - intros Hm Hnd.
    destruct (exists_minimal queued_before (js_filter (fun o => String.eqb (qi_repo o) (mi_repo i1) && bool_decide (qi_state o = queued)) (mi_queue i1)))
      as (m & Hmin & Hle).
    + apply queued_before_irrefl.
    + apply queued_before_trans.
    + intros E. rewrite js_filter_nil in E. specialize (E s1 Hin1).
      rewrite Hr1, String.eqb_refl in E. simpl in E. apply bool_decide_eq_false in E.
      destruct Ha1; [done|]. by apply (Hm s1).
    + apply js_filter_elem in Hmin as [Hmq Hmp]. apply andb_true_iff in Hmp as [Hmr%String.eqb_eq Hms%bool_decide_eq_true].
      exists m. split_and!; [done..|]. intros inp Er Eq Ep.
      rewrite merging_reasons_nil, queue_reasons_nil, Eq.
      assert (Hself : self_item inp = Some m) by (apply unique_self; [by rewrite Eq|congruence|done|by rewrite Er, Eq]).
      split; intros o Ho [Hor Hop]; [apply Hm; congruence|]. intros Hos. rewrite (earlier_self _ m) by done.
      apply Hle. apply js_filter_elem. split; [done|]. rewrite Hor, Er, String.eqb_refl. by apply bool_decide_eq_true.
Qed.
End Decision.

(** ** src/merge/checkRunIngest.ts *)
Module Ingest.
Import Decision.

(** A name that is missing or not a string is [None]; so is an absent field. *)
Record GhPrCheck := mkGh {
  gh_name : option string;
  gh_bucket : option string;
  gh_startedAt : option string;
  gh_completedAt : option string;
}.
Record RestCheckRun := mkRest {
  rc_name : option string;
  rc_head_sha : option string;
  rc_status : option string;
  rc_conclusion : option string;
  rc_started_at : option string;
  rc_completed_at : option string;
}.
Record NormalizeCheckRunsInput := mkNormalize {
  ni_headSha : string;
  ni_ghChecks : option (list GhPrCheck);
  ni_restCheckRuns : option (list RestCheckRun);
}.

Local Open Scope string_scope.

(** [switch (v)] on string cases: the first case that lists the value. *)
Definition switch {A} (v : option string) (cases : list (list string * A)) (dflt : A) : A :=
  match js_find (fun c => js_some (fun s => bool_decide (v = Some s)) (fst c)) cases with
  | Some c => snd c
  | None => dflt
  end.

Definition ghStatus (bucket : option string) : CheckStatus :=
  switch (option_map js_lower bucket)
    [(["pass"], pass); (["fail"; "cancel"], fail); (["pending"], pending); (["skipping"], skipped)] fail.

Definition restStatus (status conclusion : option string) : CheckStatus :=
  if negb (bool_decide (status = Some "completed")) then pending
  else switch conclusion
    [(["success"], pass); (["failure"; "timed_out"; "action_required"; "cancelled"], fail);
     (["skipped"; "neutral"], skipped); (["stale"], pending)] fail.

Definition normalizeDate (value : option string) : string :=
  match value with
  | None => ""
  | Some v => if negb (truthy v) then "" else if js_startsWith v "0001-" then "" else v
  end.

Definition dateKey (completedAt startedAt : option string) : string :=
  normalizeDate (match completedAt with Some _ => completedAt | None => startedAt end).

(** The two maps of [normalizeCheckRuns], and one [upsert]. *)
Definition Tables : Type := jsmap string CheckRun * jsmap string string.

Definition upsert (t : Tables) (row : CheckRun * string) : Tables :=
  let '(byName, byDate) := t in
  let '(run, date) := row in
  let name := ck_name run in
  match map_get name byName with
  | None => (map_set name run byName, map_set name date byDate)
  | Some _ =>
      let existingDate := nullish (map_get name byDate) "" in
      if negb (String.ltb date existingDate) then (map_set name run byName, map_set name date byDate)
      else (byName, byDate)
  end.

Definition gh_rows (headSha : string) (gh : GhPrCheck) : list (CheckRun * string) :=
  match gh_name gh with
  | None | Some "" => []
  | Some name => [(mkCheck name (ghStatus (gh_bucket gh)) headSha, dateKey (gh_completedAt gh) (gh_startedAt gh))]
  end.

Definition rest_sha (headSha : string) (r : RestCheckRun) : string :=
  match rc_head_sha r with None | Some "" => headSha | Some s => s end.

Definition rest_rows (headSha : string) (r : RestCheckRun) : list (CheckRun * string) :=
  match rc_name r with
  | None | Some "" => []
  | Some name => [(mkCheck name (restStatus (rc_status r) (rc_conclusion r)) (rest_sha headSha r),
                   dateKey (rc_completed_at r) (rc_started_at r))]
  end.

(** The upserts, in the order of the two loops. *)
Definition rows (inp : NormalizeCheckRunsInput) : list (CheckRun * string) :=
  (concat (map (gh_rows (ni_headSha inp)) (nullish (ni_ghChecks inp) []))
   ++ concat (map (rest_rows (ni_headSha inp)) (nullish (ni_restCheckRuns inp) [])))%list.

(** [localeCompare] is the platform's collation, a parameter. *)
Definition normalizeCheckRuns (localeCompare : string -> string -> Z) (inp : NormalizeCheckRunsInput) : list CheckRun :=
  js_sort (fun a b => localeCompare (ck_name a) (ck_name b) <=? 0)%Z (map_values (fst (foldl upsert ([], []) (rows inp)))).

Definition classify_step (baseSha : string) (baseline : option CheckBaseline) (m : jsmap string FailureClass) (c : CheckRun)
  : jsmap string FailureClass :=
  if negb (bool_decide (ck_status c = fail)) then m
  else match baseline with
  | Some b => if String.eqb (cb_baseSha b) baseSha && js_includes (ck_name c) (cb_failures b) then map_set (ck_name c) base m
              else if js_includes (ck_name c) (cb_flaky b) then map_set (ck_name c) flaky m
              else map_set (ck_name c) deterministic m
  | None => map_set (ck_name c) deterministic m
  end.

Definition classifyCheckFailures (checks : list CheckRun) (baseSha : string) (baseline : option CheckBaseline)
  : jsmap string FailureClass := foldl (classify_step baseSha baseline) [] checks.

(** *** Properties *)

(** Reference: the last of the latest rows of a name. *)
Definition latest (name : string) (rs : list (CheckRun * string)) : option (CheckRun * string) :=
  foldl (fun acc row => if bool_decide (ck_name (fst row) = name) then
                          match acc with
                          | None => Some row
                          | Some (_, d0) => if String.ltb (snd row) d0 then acc else Some row
                          end
                        else acc) None rs.

Lemma upserts_latest rs name :
  let t := foldl upsert ([], []) rs in
  map_get name (fst t) = option_map fst (latest name rs) /\ map_get name (snd t) = option_map snd (latest name rs) /\
  map_ok (fst t) /\ (forall n c, map_get n (fst t) = Some c -> ck_name c = n).
Proof.
  induction rs as [|[run date] rs IH] using rev_ind; [simpl; split_and!; [done|done|apply NoDup_nil_2|done]|].
  unfold latest. rewrite !foldl_app. fold (latest name rs). destruct IH as (IH1 & IH2 & IH3 & IH4).
  simpl. destruct (foldl upsert _ rs) as [byName byDate]. simpl in *.
  assert (Hset : map_ok (map_set (ck_name run) run byName) /\
                 forall n c, map_get n (map_set (ck_name run) run byName) = Some c -> ck_name c = n).
  { split; [by apply map_set_ok|]. intros n c. rewrite map_get_set. case_decide; [by intros [= <-]|apply IH4]. }
  destruct Hset as [Hset1 Hset2].
  destruct (decide (ck_name run = name)) as [<-|Hne].
  - rewrite bool_decide_eq_true_2, IH1 by done. destruct (latest (ck_name run) rs) as [[c0 d0]|] eqn:E; simpl in *.
    + rewrite IH2. simpl. destruct (String.ltb date d0); simpl; rewrite ?map_get_set_eq; auto.
    + rewrite !map_get_set_eq. auto.
  - rewrite bool_decide_eq_false_2 by done. destruct (map_get (ck_name run) byName); [destruct (negb _)|];
      simpl; rewrite ?map_get_set_ne by done; auto.
Qed.

(** [row] is the last of the rows of its name with the latest date. *)
Definition latest_row (row : CheckRun * string) (rs : list (CheckRun * string)) : Prop :=
  exists l1 l2, rs = (l1 ++ row :: l2)%list /\
    (forall r, r ∈ l1 -> ck_name (fst r) = ck_name (fst row) -> String.ltb (snd row) (snd r) = false) /\
    (forall r, r ∈ l2 -> ck_name (fst r) = ck_name (fst row) -> String.ltb (snd r) (snd row) = true).

Lemma latest_snoc name rs row :
  latest name (rs ++ [row]) =
  if bool_decide (ck_name (fst row) = name) then
    match latest name rs with
    | None => Some row
    | Some (_, d0) => if String.ltb (snd row) d0 then latest name rs else Some row
    end
  else latest name rs.
Proof. unfold latest. by rewrite foldl_app. Qed.

Lemma latest_none name rs : latest name rs = None <-> forall r, r ∈ rs -> ck_name (fst r) <> name.
Proof.
  induction rs as [|row rs IH] using rev_ind; [split; [intros _ r Hr; set_solver|done]|].
  rewrite latest_snoc. setoid_rewrite elem_of_app. setoid_rewrite list_elem_of_singleton.
  case_bool_decide as E.
  - split; [|intros H; exfalso; by apply (H row); [right|]].
    destruct (latest name rs) as [[c0 d0]|]; [destruct (String.ltb _ _)|]; done.
  - rewrite IH. naive_solver.
Qed.

Lemma latest_row_extend row rs r :
  latest_row row rs -> (ck_name (fst r) = ck_name (fst row) -> String.ltb (snd r) (snd row) = true) ->
  latest_row row (rs ++ [r]).
Proof.
  intros (l1 & l2 & -> & H1 & H2) Hr. exists l1, (l2 ++ [r])%list. split_and!; [by rewrite <- app_assoc|done|].
  intros r'. rewrite elem_of_app, list_elem_of_singleton. intros [?| ->]; auto.
Qed.

Lemma latest_spec name rs row :
  latest name rs = Some row -> ck_name (fst row) = name /\ latest_row row rs.
Proof.
  revert row. induction rs as [|r rs IH] using rev_ind; intros row; [done|]. rewrite latest_snoc.
  case_bool_decide as E; [|intros H; destruct (IH row H) as [<- ?]; split; [done|]; by apply latest_row_extend].
  assert (Hnew : (forall r', r' ∈ rs -> ck_name (fst r') = name -> String.ltb (snd r) (snd r') = false) -> latest_row r (rs ++ [r])).
  { intros H. exists rs, []. split_and!; [done|intros; apply H; congruence|set_solver]. }
  destruct (latest name rs) as [[c0 d0]|] eqn:L.
  - destruct (IH _ eq_refl) as [Hn Hl]. destruct (String.ltb (snd r) d0) eqn:Ed; intros [= <-].
    + split; [done|]. by apply latest_row_extend.
    + split; [done|]. apply Hnew. intros r' Hr' Hn'. destruct Hl as (l1 & l2 & -> & H1 & H2). simpl in *.
      apply elem_of_app in Hr' as [Hr'|Hr']; [|apply elem_of_cons in Hr' as [->|Hr']; [done|]].
      * apply (string_nltb_trans _ d0); [done|]. apply H1; congruence.
      * destruct (String.ltb (snd r) (snd r')) eqn:E'; [|done]. rewrite <- Ed. symmetry.
        eapply string_ltb_trans; [done|]. apply H2; congruence.
  - intros [= <-]. split; [done|]. apply Hnew. intros r' Hr' Hn'. rewrite latest_none in L. by destruct (L r').
Qed.

Lemma normalize_elem localeCompare inp c :
  c ∈ normalizeCheckRuns localeCompare inp <-> exists d, latest (ck_name c) (rows inp) = Some (c, d).
Proof.
  unfold normalizeCheckRuns. rewrite js_sort_perm.
  pose proof (upserts_latest (rows inp) (ck_name c)) as (H1 & _ & H3 & H4). unfold map_values.
  rewrite list_elem_of_fmap. split.
  - intros ([n c'] & -> & Hin). simpl in *. apply map_elem_get in Hin; [|done].
    assert (En : ck_name c' = n) by eauto. subst n. rewrite H1 in Hin.
    destruct (latest _ _) as [[? d]|]; simplify_eq/=. eauto.
  - intros (d & Hd). rewrite Hd in H1. apply map_get_elem in H1. by exists (ck_name c, c).
Qed.

(** The raw data says that check [name] passed at [head]. *)
Definition passing_source (name head : string) (inp : NormalizeCheckRunsInput) : Prop :=
  (exists g, g ∈ nullish (ni_ghChecks inp) [] /\ gh_name g = Some name /\ option_map js_lower (gh_bucket g) = Some "pass") \/
  (exists r, r ∈ nullish (ni_restCheckRuns inp) [] /\ rc_name r = Some name /\
     rc_status r = Some "completed" /\ rc_conclusion r = Some "success" /\
     (rc_head_sha r = None \/ rc_head_sha r = Some "" \/ rc_head_sha r = Some head)).

Lemma ghStatus_pass b : ghStatus b = pass -> option_map js_lower b = Some "pass".
Proof. unfold ghStatus, switch. simpl. repeat (case_bool_decide; simpl; try done). Qed.

Lemma restStatus_pass s c : restStatus s c = pass -> s = Some "completed" /\ c = Some "success".
Proof.
  unfold restStatus, switch. case_bool_decide; simpl; [|done]. repeat (case_bool_decide; simpl; try done).
Qed.

Lemma rows_pass inp c d :
  (c, d) ∈ rows inp -> ck_status c = pass -> ck_sha c = ni_headSha inp -> passing_source (ck_name c) (ni_headSha inp) inp.
Proof.
  unfold rows, passing_source. rewrite elem_of_app, !concat_map_elem.
  intros [(g & Hg & Hin)|(r & Hr & Hin)] Hs Hsha.
  - left. exists g. split; [done|]. unfold gh_rows in Hin.
    destruct (gh_name g) as [[|a n]|] eqn:E; [set_solver| |set_solver].
    apply list_elem_of_singleton in Hin as [= -> ->]. simpl in *. split; [done|]. by apply ghStatus_pass.
  - right. exists r. split; [done|]. unfold rest_rows in Hin.
    destruct (rc_name r) as [[|a n]|] eqn:E; [set_solver| |set_solver].
    apply list_elem_of_singleton in Hin as [= -> ->]. simpl in *. split; [done|].
    apply restStatus_pass in Hs as [? ?]. split_and!; [done..|]. unfold rest_sha in Hsha.
    destruct (rc_head_sha r) as [[|a' n']|]; [naive_solver| |naive_solver]. right. right. by rewrite Hsha.
Qed.

(** Ingestion fails closed: a merge decided on normalised check data means
    that for every required check the last of its latest rows, of either source,
    reports a pass at exactly the head being merged; and every check name has one
    row at most. *)
Theorem merge_requires_latest_pass localeCompare raw inp name :
  ni_headSha raw = mi_prHeadSha inp -> mi_checks inp = normalizeCheckRuns localeCompare raw ->
  md_decision (decideMerge inp) = merge -> name ∈ mi_requiredChecks inp ->
  (exists c d, latest_row (c, d) (rows raw) /\ c = mkCheck name pass (mi_prHeadSha inp)) /\
  passing_source name (mi_prHeadSha inp) raw /\
  NoDup (map ck_name (normalizeCheckRuns localeCompare raw)).
Proof.
  intros Hh Hc Hm Hreq. apply merge_no_reasons in Hm as [(_ & _ & Hsha & _ & Hfail) (_ & Hmiss & Hunf & _)].
  rewrite missing_reasons_nil in Hmiss. destruct (Hmiss name Hreq) as (c & Hin & Hn).
  rewrite unfinished_reasons_nil in Hunf. specialize (Hunf c Hin ltac:(by rewrite Hn)).
  unfold check_sha_reasons in Hsha. rewrite concat_map_nil in Hsha. specialize (Hsha c Hin).
  rewrite if_nil, negb_false_iff, String.eqb_eq in Hsha.
  unfold failed_reasons in Hfail. rewrite concat_map_nil in Hfail. specialize (Hfail c Hin).
  rewrite if_nil, bool_decide_eq_false in Hfail.
  assert (Hp : ck_status c = pass) by (destruct (ck_status c); naive_solver).
  rewrite Hc, normalize_elem in Hin. destruct Hin as (d & Hd). apply latest_spec in Hd as [_ Hl].
  split_and!.
  - exists c, d. split; [done|]. destruct c; simpl in *; congruence.
  - rewrite <- Hn, <- Hh. apply (rows_pass raw c d); [|done|congruence].
    destruct Hl as (l1 & l2 & -> & _). set_solver.
  - unfold normalizeCheckRuns. rewrite js_sort_perm.
    pose proof (upserts_latest (rows raw) name) as (_ & _ & H3 & H4).
    replace (map ck_name _) with (map_keys (fst (foldl upsert ([], []) (rows raw)))); [done|].
    unfold map_keys, map_values. rewrite <- list_fmap_compose. apply list_fmap_ext.
    intros i [n c'] Hi. simpl. symmetry. apply H4, map_elem_get; [done|]. by eapply list_elem_of_lookup_2.
Qed.

(** Both classifications of failing checks agree, on every input. *)
Lemma classifications_agree inp :
  md_failureClasses (decideMerge inp) = classifyCheckFailures (mi_checks inp) (mi_baseSha inp) (mi_baseline inp).
Proof.
  assert (E : forall cs acc,
    foldl (fun m c => if bool_decide (ck_status c = fail) then map_set (ck_name c) (classifyFailure (ck_name c) inp) m else m) acc cs
    = foldl (classify_step (mi_baseSha inp) (mi_baseline inp)) acc cs).
  { induction cs as [|c cs IH]; intros acc; simpl; [done|]. rewrite IH. f_equal.
    unfold classify_step, classifyFailure. case_bool_decide; simpl; [|done].
    destruct (mi_baseline inp) as [b|]; [|done]. by destruct (_ && _), (js_includes (ck_name c) (cb_flaky b)). }
  unfold decideMerge. rewrite fail_loop, E. repeat (destruct (0 <? js_len _)%Z; [done|]). done.
Qed.
End Ingest.

(** ** src/merge/protectionDrift.ts *)
Module Protection.

Record BranchProtectionSnapshot := mkSnapshot {
  ps_requiredStatusChecks : list string;
  ps_strict : bool;
  ps_requiredApprovingReviews : Z;
  ps_enforceAdmins : bool;
  ps_allowForcePushes : bool;
  ps_allowDeletions : bool;
}.
Inductive ProtectionDriftStatus := enforced | weakened | unknown.
Record ProtectionDriftResult := mkDrift {
  dr_status : ProtectionDriftStatus;
  dr_reasons : list string;
  dr_missingChecks : list string;
  dr_weakenedFields : list string;
}.
Record ProtectionDriftInput := mkDriftInput {
  di_desired : BranchProtectionSnapshot;
  di_actual : option BranchProtectionSnapshot;
  di_requiredChecks : list string;
}.

Local Open Scope string_scope.

(** A rule pushes its reason and its field when its condition holds. *)
Definition rule (cond : bool) (reason field : string) (acc : list string * list string) : list string * list string :=
  if cond then ((fst acc ++ [reason])%list, (snd acc ++ [field])%list) else acc.

Definition check_rule (actual : BranchProtectionSnapshot) (acc : list string * list string * list string) (name : string)
  : list string * list string * list string :=
  let '(reasons, fields, missing) := acc in
  if js_includes name (ps_requiredStatusChecks actual) then acc
  else ((reasons ++ ["required check " +:+ name +:+ " not enforced"])%list,
        (if js_includes "requiredStatusChecks" fields then fields else fields ++ ["requiredStatusChecks"])%list,
        (missing ++ [name])%list).

Definition evaluateProtectionDrift (inp : ProtectionDriftInput) : ProtectionDriftResult :=
  match di_actual inp with
  | None => mkDrift unknown ["branch protection unavailable"] [] []
  | Some actual =>
      let desired := di_desired inp in
      let checks := js_dedup (di_requiredChecks inp ++ ps_requiredStatusChecks desired)%list in
      let '(reasons, fields, missing) := foldl (check_rule actual) ([], [], []) checks in
      let '(reasons, fields) :=
        rule (negb (ps_allowDeletions desired) && ps_allowDeletions actual) "deletions allowed" "allowDeletions"
        (rule (negb (ps_allowForcePushes desired) && ps_allowForcePushes actual) "force pushes allowed" "allowForcePushes"
        (rule (ps_enforceAdmins desired && negb (ps_enforceAdmins actual)) "enforce admins disabled" "enforceAdmins"
        (rule (ps_requiredApprovingReviews actual <? ps_requiredApprovingReviews desired)%Z
           ("required approving reviews lowered from " +:+ js_num (ps_requiredApprovingReviews desired) +:+ " to "
            +:+ js_num (ps_requiredApprovingReviews actual)) "requiredApprovingReviews"
        (rule (ps_strict desired && negb (ps_strict actual)) "strict status checks disabled" "strict"
        (reasons, fields))))) in
      mkDrift (if (0 <? js_len reasons)%Z then weakened else enforced) reasons missing fields
  end.

Lemma rule_fst cond reason field acc : fst (rule cond reason field acc) = [] <-> cond = false /\ fst acc = [].
Proof. unfold rule. destruct cond; simpl; [|naive_solver]. rewrite app_nil. naive_solver. Qed.

Lemma check_loop actual checks reasons fields missing :
  let '(reasons', _, missing') := foldl (check_rule actual) (reasons, fields, missing) checks in
  missing' = (missing ++ js_filter (fun n => negb (js_includes n (ps_requiredStatusChecks actual))) checks)%list /\
  (reasons' = [] <-> reasons = [] /\ js_filter (fun n => negb (js_includes n (ps_requiredStatusChecks actual))) checks = []).
Proof.
  revert reasons fields missing. induction checks as [|n checks IH]; intros reasons fields missing; [simpl; by rewrite app_nil_r; naive_solver|].
  cbn [foldl js_filter]. unfold check_rule at 2. destruct (js_includes n _); cbn [negb]; [apply IH|].
  match goal with |- context [foldl _ (?r, ?f, ?m)] => specialize (IH r f m) end.
  destruct (foldl _ _ checks) as [[reasons' fields'] missing']. destruct IH as [-> ->].
  rewrite <- app_assoc. split; [done|]. rewrite app_nil. naive_solver.
Qed.

Lemma andb_negb_r a b : a && negb b = false <-> (a = true -> b = true).
Proof. destruct a, b; naive_solver. Qed.
Lemma andb_negb_l a b : negb a && b = false <-> (b = true -> a = true).
Proof. destruct a, b; naive_solver. Qed.

(** Protection counts as enforced exactly when every required and every
    desired check is required by the actual snapshot and no desired restriction
    was relaxed; the missing checks are listed exactly; without a snapshot the
    answer is unknown, never enforced. *)
Theorem protection_enforced_iff inp :
  (dr_status (evaluateProtectionDrift inp) = enforced <->
   exists actual, di_actual inp = Some actual /\ let desired := di_desired inp in
     (forall n, n ∈ di_requiredChecks inp \/ n ∈ ps_requiredStatusChecks desired -> n ∈ ps_requiredStatusChecks actual) /\
     (ps_strict desired = true -> ps_strict actual = true) /\
     (ps_requiredApprovingReviews desired <= ps_requiredApprovingReviews actual)%Z /\
     (ps_enforceAdmins desired = true -> ps_enforceAdmins actual = true) /\
     (ps_allowForcePushes actual = true -> ps_allowForcePushes desired = true) /\
     (ps_allowDeletions actual = true -> ps_allowDeletions desired = true)) /\
  (forall actual n, di_actual inp = Some actual ->
     n ∈ dr_missingChecks (evaluateProtectionDrift inp) <->
     (n ∈ di_requiredChecks inp \/ n ∈ ps_requiredStatusChecks (di_desired inp)) /\ n ∉ ps_requiredStatusChecks actual).
Proof.
  unfold evaluateProtectionDrift. destruct (di_actual inp) as [actual|]; [|split; [split; [done|naive_solver]|done]].
  set (desired := di_desired inp). set (checks := js_dedup _).
  assert (Hchecks : forall n, n ∈ checks <-> n ∈ di_requiredChecks inp \/ n ∈ ps_requiredStatusChecks desired)
    by (intros n; unfold checks; by rewrite js_dedup_elem, elem_of_app).
  pose proof (check_loop actual checks [] [] []) as Hloop.
  destruct (foldl _ _ checks) as [[reasons fields] missing]. destruct Hloop as [-> Hr].
  match goal with |- context [let '(_, _) := ?x in _] => destruct x as [reasons' fields'] eqn:E end.
  assert (Hr' : reasons' = fst (reasons', fields')) by done. rewrite <- E in Hr'. cbn [dr_status dr_missingChecks]. split.
  - transitivity (reasons' = []).
    + destruct (0 <? js_len reasons')%Z eqn:El; [|apply Decision.js_len_pos in El; naive_solver].
      split; [done|]. intros ->. done.
    + rewrite Hr', !rule_fst. cbn [fst]. rewrite Hr, js_filter_nil. setoid_rewrite negb_false_iff. setoid_rewrite js_includes_true.
      setoid_rewrite Hchecks.
      rewrite (andb_negb_r (ps_strict desired)), (andb_negb_r (ps_enforceAdmins desired)), !andb_negb_l, Z.ltb_ge.
      split; [intros (? & ? & ? & ? & ? & _ & ?); exists actual; tauto|intros (a & [= <-] & ?); tauto].
  - intros a n [= <-]. simpl. rewrite js_filter_elem, Hchecks, negb_true_iff, js_includes_false. done.
Qed.
End Protection.

(** ** Concrete instances *)
Section Samples.
Import Baseline Decision Ingest.
Local Open Scope string_scope.

Definition red_stage : StageRun := mkStageRun "test" 1 false false (Some ["parses"; "prints"]).
Definition red_outcome : VerifyOutcome := mkOutcome [mkStageRun "lint" 0 true false None; red_stage] (Some "p") false None.
Definition flaked_outcome : VerifyOutcome :=
  mkOutcome [mkStageRun "lint" 0 true false None; mkStageRun "test" 1 false false (Some ["prints"])] (Some "p") false None.
Definition red_baseline : FailureBaseline :=
  mkBaseline "abc" "p" ["test:test » parses"; "test:test » prints"] [] "now" None (Some [("test", 1)]).

Lemma baseline_forgives_iff_witness :
  bv_blocking (compareToBaseline red_baseline red_outcome (Some "ABC")) = false <->
  vo_blocked red_outcome = false /\ bound_to red_baseline red_outcome (Some "ABC") /\
  forall run, run ∈ vo_stages red_outcome -> sr_passed run = false -> forgiven red_baseline run.
Proof.
  apply baseline_forgives_iff. intros run Hr. apply elem_of_cons in Hr as [->|Hr]; [by vm_compute|].
  apply list_elem_of_singleton in Hr as ->. by vm_compute.
Defined.

Definition checkout_abc : Checkout := {| co_head := "abc"; co_wanted := "abc"; co_status := "" |}.

Lemma captured_run_blocked_by_flakes_witness :
  exists b, captureBaseline checkout_abc "p" "now" [red_outcome; flaked_outcome] = Ok b /\
    bv_introduced (compareToBaseline b red_outcome (Some "abc")) = ["test:test » parses"].
Proof.
  destruct (captureBaseline checkout_abc "p" "now" [red_outcome; flaked_outcome]) as [b|] eqn:E; [|by vm_compute in E].
  exists b. split; [done|].
  refine (eq_trans (proj2 (proj2 (captured_run_blocked_by_flakes checkout_abc "p" "now" _ b red_outcome E _ _ _ _))) _).
  - by left.
  - done.
  - by intros h [= <-].
  - apply (bool_decide_eq_true_1 (NoDup (map sr_name (vo_stages red_outcome)))). by vm_compute.
  - vm_compute in E. injection E as <-. by vm_compute.
Defined.

Definition raw_checks : NormalizeCheckRunsInput :=
  mkNormalize "head" (Some [mkGh (Some "verify") (Some "FAIL") None (Some "2026-01-01")])
    (Some [mkRest (Some "verify") (Some "head") (Some "completed") (Some "success") None (Some "2026-01-02")]).
Definition collate (a b : string) : Z := if String.eqb a b then 0 else if String.ltb a b then -1 else 1.
Definition pr_input (pr : Z) : MergeDecisionInput :=
  mkInput "repo" pr "head" "head" "base" (normalizeCheckRuns collate raw_checks) ["verify"] (Some (mkReview PASS "head"))
    [mkItem "repo" 7 queued "2026-01-01"; mkItem "repo" 9 queued "2026-01-02"] None.

Lemma one_merge_at_a_time_witness :
  ~ (md_decision (decideMerge (pr_input 7)) = merge /\ md_decision (decideMerge (pr_input 9)) = merge).
Proof.
  apply (one_merge_at_a_time (pr_input 7) (pr_input 9)); [done..| |].
  - exists (mkItem "repo" 7 queued "2026-01-01"). split; [done|]. by left.
  - exists (mkItem "repo" 9 queued "2026-01-02"). split; [done|]. by left.
Defined.

Lemma merge_requires_latest_pass_witness : passing_source "verify" "head" raw_checks.
Proof.
  apply (merge_requires_latest_pass collate raw_checks (pr_input 7) "verify"); [done|done|by vm_compute|by left].
Defined.
End Samples.
