(* ===== verification/MergeQueue.v ===== *)
(** * Merge queue (src/merge/MergeQueue.ts)

    [Fence] models the promotion of one entry: the git primitives the queue is
    given are functions on an abstract world, so that a primitive can observe any
    pushes that happened before it and fail; the queue's code is written in the
    resulting state-and-error monad. [Chains] models the per-target promise
    chains that serialise entries. *)

From S2P Require Import Prelude JsMap MergeGate.

Module Fence.
Import Baseline.

(** ** Data *)

Inductive PromotionLevel := candidate | integration | main.
Inductive ChecksResult := checks_pass | checks_fail | checks_pending | checks_none.
Inductive QueueState := MERGE_QUEUED | MERGING | MERGED.

Record RebaseResult := mkRebase { rb_ok : bool; rb_conflict : option string }.
Record PromoteResult := mkPromote {
  pr_level : PromotionLevel;
  pr_ok : bool;
  pr_reason : option string;
  pr_commit : option string;
  pr_checks : option ChecksResult;
}.
Record QueueEntry := mkEntry {
  qe_branch : string;
  qe_target : string;
  qe_reviewedHeadSha : string;
  qe_boundBaseSha : string;
}.
Record GateVerdict := mkGateVerdict { gv_passed : bool; gv_blocked : bool; gv_quarantined : option (list string) }.
(** [boolean | GateVerdict]. *)
Inductive GateResult := gate_bool (b : bool) | gate_verdict (v : GateVerdict).
Record MergeAnswer := mkMerge { mg_merged : bool; mg_conflict : bool; mg_reason : option string }.

#[global] Instance ChecksResult_eq_dec : EqDecision ChecksResult.
Proof. solve_decision. Defined.

Local Open Scope string_scope.

Definition blockedReason (ids : option (list string)) : string :=
  "integration gate blocked by quarantined test(s): " +:+ quarantine_list ids.

Definition gateRefusal (result : GateResult) : option string :=
  match result with
  | gate_bool true => None
  | gate_bool false => Some "integration gate failed"
  | gate_verdict v => if gv_blocked v then Some (blockedReason (gv_quarantined v))
                      else if gv_passed v then None else Some "integration gate failed"
  end.

(** A rejection before any merge was attempted. *)
Definition rejected (level : PromotionLevel) (reason : string) : PromoteResult := mkPromote level false (Some reason) None None.

Section Queue.
Context {W : Type}.

(** An awaited call: it may change the world, and returns or throws. *)
Definition io (A : Type) : Type := W -> W * res string A.
Definition io_ret {A} (a : A) : io A := fun w => (w, Ok a).
#[global] Instance io_bind : MBind io := fun A B k m w =>
  match m w with
  | (w', Ok a) => k a w'
  | (w', Err e) => (w', Err e)
  end.

Record GitPrimitives := mkGit {
  branchExists : string -> io bool;
  rebaseOnto : string -> string -> io RebaseResult;
  mergeBranch : string -> option string -> option string -> io MergeAnswer;
  headCommit : option string -> io string;
  runIntegrationGate : option (string -> option (string * string) -> io GateResult);
  resolveRef : option (string -> io string);
  requiredChecks : option (string -> io ChecksResult);
  baselineAt : option (string -> string -> io FailureBaseline);
  verifyBranch : option (string -> string -> io VerifyOutcome);
}.

Record MergeQueue := mkQueue {
  git : GitPrimitives;
  mainBranch : string;
  requireGate : bool;
  rebaseRetries : Z;
  onState : option (QueueEntry -> QueueState -> io unit);
  maxRevalidations : Z;
}.

(** The constructor's defaults. *)
Definition new (g : GitPrimitives) (main_ : option string) (gate : option bool) (retries : option Z)
    (onState_ : option (QueueEntry -> QueueState -> io unit)) (maxReval : option Z) : MergeQueue :=
  mkQueue g (nullish main_ "main") (nullish gate true) (nullish retries 1) onState_ (nullish maxReval 3).

Variable q : MergeQueue.

Definition notify (entry : QueueEntry) (s : QueueState) : io unit :=
  match onState q with Some f => f entry s | None => io_ret () end.

(** The rebase loop of [revalidate] and [promoteUnsafe]: [left] attempts remain;
    [None] means it broke out (or made no attempt). *)
Fixpoint rebase_loop (branch onto label : string) (left : nat) : io (option PromoteResult) :=
  match left with
  | O => io_ret None
  | S left' =>
      rebase ← rebaseOnto (git q) branch onto;
      if rb_ok rebase then io_ret None
      else match left' with
           | O => io_ret (Some (rejected integration ("rebase conflict on " +:+ label +:+ ": " +:+ nullish (rb_conflict rebase) "unknown")))
           | _ => rebase_loop branch onto label left'
           end
  end.

Definition attempts : nat := Z.to_nat (rebaseRetries q + 1).

(** The gate of [revalidate]: against a fresh baseline when the primitives can, else the integration gate. *)
Definition revalidation_gate (entry : QueueEntry) (tip : string) : io (option PromoteResult) :=
  match baselineAt (git q), verifyBranch (git q) with
  | Some base_at, Some verify =>
      baseline ← base_at (qe_target entry) tip;
      outcome ← verify (qe_branch entry) tip;
      if vo_blocked outcome then io_ret (Some (rejected integration (blockedReason (vo_quarantined outcome))))
      else let verdict := compareToBaseline baseline outcome (Some tip) in
           if bv_blocking verdict then io_ret (Some (rejected integration ("integration gate failed: " +:+ bv_reason verdict)))
           else io_ret None
  | _, _ =>
      match runIntegrationGate (git q) with
      | Some gate =>
          result ← gate (qe_branch entry) (Some (qe_target entry, tip));
          match gateRefusal result with
          | Some refusal => io_ret (Some (rejected integration refusal))
          | None => io_ret None
          end
      | None => io_ret None
      end
  end.

Definition revalidate (entry : QueueEntry) (tip : string) : io (option PromoteResult) :=
  conflict ← rebase_loop (qe_branch entry) (qe_target entry) (qe_target entry) attempts;
  match conflict with
  | Some r => io_ret (Some r)
  | None => if negb (requireGate q) then io_ret None else revalidation_gate entry tip
  end.

(** One iteration of the loop of [enqueueUnsafe]: return, go round again with
    these SHAs, or break out to the merge. *)
Inductive Round := stop (r : PromoteResult) | again (head base : string) | ready (checks : ChecksResult).

Definition round_body (resolve : string -> io string) (entry : QueueEntry) (round : Z) (head base : string) : io Round :=
  currentHead ← resolve (qe_branch entry);
  tip ← resolve (qe_target entry);
  if negb (String.eqb currentHead head) || negb (String.eqb tip base) then
    if (maxRevalidations q <=? round)%Z then
      io_ret (stop (rejected integration
        ("'" +:+ qe_branch entry +:+ "' or '" +:+ qe_target entry +:+ "' kept moving; gave up after "
         +:+ js_num (maxRevalidations q) +:+ " revalidations")))
    else
      revalidated ← revalidate entry tip;
      match revalidated with
      | Some r => io_ret (stop r)
      | None => head' ← resolve (qe_branch entry); io_ret (again head' tip)
      end
  else
    checks ← match requiredChecks (git q) with Some f => f head | None => io_ret checks_none end;
    if bool_decide (checks = checks_fail) || bool_decide (checks = checks_pending) then
      io_ret (stop (mkPromote integration false
        (Some ("required checks " +:+ (if bool_decide (checks = checks_fail) then "failed" else "pending") +:+ " for " +:+ head))
        None (Some checks)))
    else
      head2 ← resolve (qe_branch entry);
      if negb (String.eqb head2 head) then io_ret (again head base)
      else
        tip2 ← resolve (qe_target entry);
        if negb (String.eqb tip2 base) then io_ret (again head base) else io_ret (ready checks).

(** The merge after the loop. *)
Definition merge_entry (entry : QueueEntry) (head : string) (checks : ChecksResult) : io PromoteResult :=
  _ ← notify entry MERGING;
  merge ← mergeBranch (git q) (qe_branch entry) (Some (qe_target entry)) (Some head);
  if negb (mg_merged merge) then
    io_ret (mkPromote main false
      (Some (nullish (mg_reason merge) (if mg_conflict merge then "merge conflict" else "merge failed"))) None (Some checks))
  else
    _ ← notify entry MERGED;
    commit ← headCommit (git q) (Some (qe_target entry));
    io_ret (mkPromote main true None (Some commit) (Some checks)).

(** [for (let round = 0; ; round++)], with fuel: [None] when it runs out. *)
Fixpoint entry_loop (fuel : nat) (resolve : string -> io string) (entry : QueueEntry) (round : Z) (head base : string) (w : W)
  : option (W * res string PromoteResult) :=
  match fuel with
  | O => None
  | S fuel' =>
      match round_body resolve entry round head base w with
      | (w', Err e) => Some (w', Err e)
      | (w', Ok (stop r)) => Some (w', Ok r)
      | (w', Ok (again head' base')) => entry_loop fuel' resolve entry (round + 1) head' base' w'
      | (w', Ok (ready checks)) => Some (merge_entry entry head checks w')
      end
  end.

Definition enqueueUnsafe (fuel : nat) (resolve : string -> io string) (entry : QueueEntry) (w : W)
  : option (W * res string PromoteResult) :=
  match branchExists (git q) (qe_branch entry) w with
  | (w', Err e) => Some (w', Err e)
  | (w', Ok false) => Some (w', Ok (rejected candidate ("branch '" +:+ qe_branch entry +:+ "' does not exist")))
  | (w', Ok true) => entry_loop fuel resolve entry 0 (qe_reviewedHeadSha entry) (qe_boundBaseSha entry) w'
  end.

(** [enqueue], once the target's chain reaches the entry. *)
Definition enqueue (fuel : nat) (entry : QueueEntry) (w : W) : option (W * res string PromoteResult) :=
  match resolveRef (git q) with
  | None => Some (w, Ok (rejected candidate "git primitives cannot resolve refs; SHA fencing is unavailable"))
  | Some resolve =>
      match notify entry MERGE_QUEUED w with
      | (w', Err e) => Some (w', Err e)
      | (w', Ok _) => enqueueUnsafe fuel resolve entry w'
      end
  end.

(** [promote], once main's chain reaches the candidate. *)
Definition promoteUnsafe (branch : string) : io PromoteResult :=
  exists_ ← branchExists (git q) branch;
  if negb exists_ then io_ret (rejected candidate ("branch '" +:+ branch +:+ "' does not exist"))
  else
    conflict ← rebase_loop branch (mainBranch q) "main" attempts;
    match conflict with
    | Some r => io_ret r
    | None =>
        refusal ← match (if requireGate q then runIntegrationGate (git q) else None) with
                  | Some gate => result ← gate branch None; io_ret (gateRefusal result)
                  | None => io_ret None
                  end;
        match refusal with
        | Some reason => io_ret (rejected integration reason)
        | None =>
            merge ← mergeBranch (git q) branch None None;
            if negb (mg_merged merge) then
              io_ret (rejected main (nullish (mg_reason merge) (if mg_conflict merge then "merge conflict" else "merge failed")))
            else commit ← headCommit (git q) None; io_ret (mkPromote main true None (Some commit) None)
        end
    end.

(** ** Properties *)

Lemma io_bind_ok {A B} (m : io A) (k : A -> io B) w w' b :
  (m ≫= k) w = (w', Ok b) <-> exists a w1, m w = (w1, Ok a) /\ k a w1 = (w', Ok b).
Proof.
  unfold mbind, io_bind. destruct (m w) as [w1 [a|e]]; split.
  - eauto.
  - naive_solver.
  - done.
  - naive_solver.
Qed.

Lemma io_ret_ok {A} (a b : A) w w' : io_ret a w = (w', Ok b) <-> w' = w /\ b = a.
Proof. unfold io_ret. naive_solver. Qed.

(** What a revalidation that lets an entry pass has established, from world [w1] to [w2]. *)
Definition gate_accepted (entry : QueueEntry) (tip : string) : Prop :=
  match baselineAt (git q), verifyBranch (git q) with
  | Some base_at, Some verify =>
      exists wa wb baseline wc outcome,
        base_at (qe_target entry) tip wa = (wb, Ok baseline) /\ verify (qe_branch entry) tip wb = (wc, Ok outcome) /\
        vo_blocked outcome = false /\ bv_blocking (compareToBaseline baseline outcome (Some tip)) = false
  | _, _ =>
      forall gate, runIntegrationGate (git q) = Some gate ->
        exists wa wb result, gate (qe_branch entry) (Some (qe_target entry, tip)) wa = (wb, Ok result) /\ gateRefusal result = None
  end.

Definition rebased (branch onto : string) : Prop :=
  exists wa wb r, rebaseOnto (git q) branch onto wa = (wb, Ok r) /\ rb_ok r = true.

Lemma rebase_loop_sound branch onto label left w w' :
  rebase_loop branch onto label left w = (w', Ok None) -> (0 < left)%nat -> rebased branch onto.
Proof.
  revert w. induction left as [|left IH]; intros w H Hl; [lia|]. cbn [rebase_loop] in H.
  apply io_bind_ok in H as (r & w1 & Hr & H). destruct (rb_ok r) eqn:E; [unfold rebased; eauto 6|].
  destruct left as [|left]; [by apply io_ret_ok in H as [_ ?]|]. eapply IH; [done|lia].
Qed.

Lemma revalidation_gate_sound entry tip w w' :
  revalidation_gate entry tip w = (w', Ok None) -> gate_accepted entry tip.
Proof.
  unfold revalidation_gate, gate_accepted. intros H.
  assert (Hg : (match runIntegrationGate (git q) with
                | Some gate => result ← gate (qe_branch entry) (Some (qe_target entry, tip));
                    match gateRefusal result with Some refusal => io_ret (Some (rejected integration refusal)) | None => io_ret None end
                | None => io_ret None end) w = (w', Ok None) ->
    forall gate, runIntegrationGate (git q) = Some gate ->
        exists wa wb result, gate (qe_branch entry) (Some (qe_target entry, tip)) wa = (wb, Ok result) /\ gateRefusal result = None).
  { intros Hm gate E. rewrite E in Hm. apply io_bind_ok in Hm as (result & w1 & Hr & Hm).
    destruct (gateRefusal result) eqn:Er; [by apply io_ret_ok in Hm as [_ ?]|]. eauto. }
  destruct (baselineAt (git q)) as [ba|]; [|auto]. destruct (verifyBranch (git q)) as [vb|]; [|auto].
  apply io_bind_ok in H as (b & w1 & Hb & H). apply io_bind_ok in H as (o & w2 & Ho & H).
  destruct (vo_blocked o) eqn:E1; [by apply io_ret_ok in H as [_ ?]|].
  destruct (bv_blocking _) eqn:E2; [by apply io_ret_ok in H as [_ ?]|]. eauto 10.
Qed.

Lemma revalidate_sound entry tip w w' :
  revalidate entry tip w = (w', Ok None) -> (0 <= rebaseRetries q)%Z ->
  rebased (qe_branch entry) (qe_target entry) /\ (requireGate q = true -> gate_accepted entry tip).
Proof.
  unfold revalidate. intros (c & w1 & Hc & H)%io_bind_ok Hr. destruct c; [by apply io_ret_ok in H as [_ ?]|]. split.
  - eapply rebase_loop_sound; [done|]. unfold attempts. lia.
  - intros Hg. rewrite Hg in H. by eapply revalidation_gate_sound.
Qed.

(** Where the SHAs of a round come from: the reviewed entry, or a revalidation
    onto [base] directly followed by the reading of [head]. *)
Definition provenance (resolve : string -> io string) (entry : QueueEntry) (head base : string) : Prop :=
  (head = qe_reviewedHeadSha entry /\ base = qe_boundBaseSha entry) \/
  exists wa wb wc, revalidate entry base wa = (wb, Ok None) /\ resolve (qe_branch entry) wb = (wc, Ok head).

Lemma rebase_loop_rejects branch onto label left w w' r :
  rebase_loop branch onto label left w = (w', Ok (Some r)) -> pr_ok r = false.
Proof.
  revert w. induction left as [|left IH]; intros w H; [by apply io_ret_ok in H as [_ ?]|]. cbn [rebase_loop] in H.
  apply io_bind_ok in H as (rb & w1 & _ & H). destruct (rb_ok rb); [by apply io_ret_ok in H as [_ ?]|].
  destruct left as [|left]; [by apply io_ret_ok in H as [_ [= ->]]|]. by eapply IH.
Qed.

Lemma revalidate_rejects entry tip w w' r : revalidate entry tip w = (w', Ok (Some r)) -> pr_ok r = false.
Proof.
  unfold revalidate, revalidation_gate. intros (c & w1 & Hc & H)%io_bind_ok. destruct c as [r0|].
  { apply io_ret_ok in H as [_ [= ->]]. by eapply rebase_loop_rejects. }
  destruct (negb _); [by apply io_ret_ok in H as [_ ?]|].
  assert (Hg : forall w, (match runIntegrationGate (git q) with
                | Some gate => result ← gate (qe_branch entry) (Some (qe_target entry, tip));
                    match gateRefusal result with Some refusal => io_ret (Some (rejected integration refusal)) | None => io_ret None end
                | None => io_ret None end) w = (w', Ok (Some r)) -> pr_ok r = false).
  { intros w0 Hm. destruct (runIntegrationGate (git q)); [|by apply io_ret_ok in Hm as [_ ?]].
    apply io_bind_ok in Hm as (result & w2 & _ & Hm). destruct (gateRefusal result); by apply io_ret_ok in Hm as [_ [= ->]]. }
  destruct (baselineAt (git q)) as [ba|]; [|eauto]. destruct (verifyBranch (git q)) as [vb|]; [|eauto].
  apply io_bind_ok in H as (b & w2 & _ & H). apply io_bind_ok in H as (o & w3 & _ & H).
  destruct (vo_blocked o); [by apply io_ret_ok in H as [_ [= ->]]|].
  destruct (bv_blocking _); by apply io_ret_ok in H as [_ [= ->]].
Qed.

(** The two SHAs were confirmed, and one of them was found changed after the checks. *)
Definition moved_during_checks (resolve : string -> io string) (entry : QueueEntry) (head base : string) (w w' : W) : Prop :=
  exists w1 w2 w3 checks x, resolve (qe_branch entry) w = (w1, Ok head) /\ resolve (qe_target entry) w1 = (w2, Ok base) /\
    match requiredChecks (git q) with Some f => f head w2 = (w3, Ok checks) | None => w3 = w2 end /\
    ((resolve (qe_branch entry) w3 = (w', Ok x) /\ x <> head) \/
     exists w4, resolve (qe_branch entry) w3 = (w4, Ok head) /\ resolve (qe_target entry) w4 = (w', Ok x) /\ x <> base).

(** The three ways a round ends. *)
Lemma round_spec resolve entry round head base w w' res :
  round_body resolve entry round head base w = (w', Ok res) ->
  match res with
  | stop r => pr_ok r = false
  | again head' base' =>
      ((round < maxRevalidations q)%Z /\ exists w1 w2 w3 w4, resolve (qe_branch entry) w1 = (w2, Ok head') /\
         revalidate entry base' w3 = (w1, Ok None) /\ w' = w2 /\ exists h, resolve (qe_branch entry) w = (w4, Ok h) /\
         resolve (qe_target entry) w4 = (w3, Ok base')) \/
      (head' = head /\ base' = base /\ moved_during_checks resolve entry head base w w')
  | ready checks =>
      (checks = checks_pass \/ checks = checks_none) /\
      (forall f, requiredChecks (git q) = Some f -> exists wa wb, f head wa = (wb, Ok checks)) /\
      exists w1 w2, resolve (qe_branch entry) w1 = (w2, Ok head) /\ resolve (qe_target entry) w2 = (w', Ok base)
  end.
Proof.
  unfold round_body. intros H. apply io_bind_ok in H as (h1 & w1 & H1 & H). apply io_bind_ok in H as (t1 & w2 & H2 & H).
  destruct (_ || _) eqn:Em in H.
  - destruct (_ <=? _)%Z eqn:Er; [by apply io_ret_ok in H as [_ ->]|]. apply io_bind_ok in H as (r & w3 & Hr & H).
    destruct r as [r|]; [apply io_ret_ok in H as [_ ->]; by eapply revalidate_rejects|].
    apply io_bind_ok in H as (h2 & w4 & Hh & H). apply io_ret_ok in H as [-> ->]. left. bool_to_prop. eauto 12.
  - apply orb_false_iff in Em as [E1 E2]. apply negb_false_iff, String.eqb_eq in E1, E2. subst h1 t1.
    apply io_bind_ok in H as (c & w3 & Hc & H). destruct (_ || _) eqn:Ec in H; [by apply io_ret_ok in H as [_ ->]|].
    assert (Hc' : match requiredChecks (git q) with Some f => f head w2 = (w3, Ok c) | None => w3 = w2 end)
      by (destruct (requiredChecks (git q)); [done|by apply io_ret_ok in Hc as [? _]]).
    apply io_bind_ok in H as (h2 & w4 & Hh & H). destruct (String.eqb_spec h2 head) as [->|Eh]; cbn [negb] in H.
    2: { apply io_ret_ok in H as [-> ->]. right. split_and!; [done|done|]. exists w1, w2, w3, c, h2. eauto 6. }
    apply io_bind_ok in H as (t2 & w5 & Ht & H). destruct (String.eqb_spec t2 base) as [->|Et]; cbn [negb] in H.
    2: { apply io_ret_ok in H as [-> ->]. right. split_and!; [done|done|]. exists w1, w2, w3, c, t2. eauto 8. }
    apply io_ret_ok in H as [-> ->]. bool_to_prop. split_and!; [destruct c; naive_solver| |eauto].
    intros f Hf. rewrite Hf in Hc. eauto.
Qed.

Lemma round_again resolve entry round head base w w' head' base' :
  round_body resolve entry round head base w = (w', Ok (again head' base')) ->
  provenance resolve entry head base -> provenance resolve entry head' base'.
Proof.
  intros H Hp. apply round_spec in H as [(_ & w1 & w2 & w3 & w4 & H1 & H2 & _)|(-> & -> & _)]; [|done]. right. eauto.
Qed.

Lemma entry_loop_merges fuel resolve entry round head base w w' r :
  entry_loop fuel resolve entry round head base w = Some (w', Ok r) -> pr_ok r = true ->
  provenance resolve entry head base ->
  exists head' base' checks w1 w2 w3,
    provenance resolve entry head' base' /\ (checks = checks_pass \/ checks = checks_none) /\
    (forall f, requiredChecks (git q) = Some f -> exists wa wb, f head' wa = (wb, Ok checks)) /\
    resolve (qe_branch entry) w1 = (w2, Ok head') /\ resolve (qe_target entry) w2 = (w3, Ok base') /\
    merge_entry entry head' checks w3 = (w', Ok r).
Proof.
  revert round head base w. induction fuel as [|fuel IH]; intros round head base w H Hok Hp; [done|].
  cbn [entry_loop] in H. destruct (round_body _ _ _ _ _ _) as [w0 [[r0|head' base'|checks]|e]] eqn:E; simplify_eq.
  - apply round_spec in E. congruence.
  - eapply IH; [done|done|]. by eapply round_again.
  - apply round_spec in E as (Hc & Hf & w1 & w2 & H1 & H2). eauto 12.
Qed.

Lemma merge_entry_ok entry head checks w w' r :
  merge_entry entry head checks w = (w', Ok r) -> pr_ok r = true ->
  exists w1 w2 m, notify entry MERGING w = (w1, Ok ()) /\
    mergeBranch (git q) (qe_branch entry) (Some (qe_target entry)) (Some head) w1 = (w2, Ok m) /\ mg_merged m = true.
Proof.
  unfold merge_entry. intros ([] & w1 & H1 & H)%io_bind_ok Hok. apply io_bind_ok in H as (m & w2 & H2 & H).
  destruct (mg_merged m) eqn:E; [eauto 6|]. by apply io_ret_ok in H as [_ ->].
Qed.

(** C33: the SHA fence: an entry is reported merged only if, directly before the
    merge, its branch and its target were read at [head] and [base] in that
    order, the merge was asked for exactly [head], the required checks of [head]
    passed or there were none, where required checks are configured, and [head] and
    [base] are either the reviewed and bound SHAs, or the branch was rebased onto the
    target, accepted by the gate at [base] when a gate is required, and [head] is what the
    branch was read at right after that. What is pushed to the branch between the gate and
    that read is merged without having been reviewed or gated ([late_push_merged]). The number of
    rebase retries is not negative. *)
Theorem fenced_merge fuel resolve entry w w' r :
  enqueueUnsafe fuel resolve entry w = Some (w', Ok r) -> pr_ok r = true -> (0 <= rebaseRetries q)%Z ->
  exists head base checks w1 w2 w3,
    resolve (qe_branch entry) w1 = (w2, Ok head) /\ resolve (qe_target entry) w2 = (w3, Ok base) /\
    (exists w4 w5 m, notify entry MERGING w3 = (w4, Ok ()) /\
       mergeBranch (git q) (qe_branch entry) (Some (qe_target entry)) (Some head) w4 = (w5, Ok m) /\ mg_merged m = true) /\
    (checks = checks_pass \/ checks = checks_none) /\
    (forall f, requiredChecks (git q) = Some f -> exists wa wb, f head wa = (wb, Ok checks)) /\
    ((head = qe_reviewedHeadSha entry /\ base = qe_boundBaseSha entry) \/
     rebased (qe_branch entry) (qe_target entry) /\ (requireGate q = true -> gate_accepted entry base) /\
     exists wa wb wc, revalidate entry base wa = (wb, Ok None) /\ resolve (qe_branch entry) wb = (wc, Ok head)).
Proof.
  unfold enqueueUnsafe. intros H Hok Hr. destruct (branchExists _ _ _) as [w0 [[|]|e]]; simplify_eq.
  apply entry_loop_merges in H as (head & base & checks & w1 & w2 & w3 & Hp & Hc & Hf & H1 & H2 & H3); [|done|by left].
  exists head, base, checks, w1, w2, w3. split_and!; [done|done|by eapply merge_entry_ok|done|done|].
  destruct Hp as [?|(wa & wb & wc & Ha & Hb)]; [by left|right].
  destruct (revalidate_sound entry base wa wb Ha Hr) as [? ?]. split_and!; [done|done|eauto].
Qed.

(** *** Termination

    The loop has no bound of its own: it goes round again when a SHA moved while
    the checks were consulted. It ends when a ref that moved never comes back to
    an earlier commit, which is what git histories without rewinds do. *)
Class VersionedRefs (resolve : string -> io string) := {
  version : W -> string -> nat;
  sha : string -> nat -> string;
  sha_inj : forall ref v v', sha ref v = sha ref v' -> v = v';
  resolve_version : forall ref w w' s, resolve ref w = (w', Ok s) ->
    exists v, s = sha ref v /\ (version w ref <= v <= version w' ref)%nat;
  resolve_mono : forall ref ref' w w' o, resolve ref w = (w', o) -> (version w ref' <= version w' ref')%nat;
  checks_mono : forall f s ref' w w' o, requiredChecks (git q) = Some f -> f s w = (w', o) ->
    (version w ref' <= version w' ref')%nat;
}.

Section Termination.
Context (resolve : string -> io string) `{VersionedRefs resolve} (entry : QueueEntry).

(** Neither SHA can be read again. *)
Definition outdated (w : W) (head base : string) : Prop :=
  (exists v, head = sha (qe_branch entry) v /\ v < version w (qe_branch entry))%nat \/
  (exists v, base = sha (qe_target entry) v /\ v < version w (qe_target entry))%nat.

Lemma resolve_outdated ref w w' v : resolve ref w = (w', Ok (sha ref v)) -> (version w ref <= v)%nat.
Proof. intros H0. destruct (resolve_version _ _ _ _ H0) as (v' & E%sha_inj & ?). lia. Qed.

Lemma moved_outdated head base w w' : moved_during_checks resolve entry head base w w' -> outdated w' head base.
Proof.
  intros (w1 & w2 & w3 & checks & x & H1 & H2 & Hc & H3).
  assert (M : forall ref, (version w1 ref <= version w3 ref)%nat).
  { intros ref. transitivity (version w2 ref); [by eapply resolve_mono|].
    destruct (requiredChecks (git q)) as [f|] eqn:E; [by eapply checks_mono|by rewrite Hc]. }
  assert (M2 : forall ref, (version w2 ref <= version w3 ref)%nat).
  { intros ref. destruct (requiredChecks (git q)) as [f|] eqn:E; [by eapply checks_mono|by rewrite Hc]. }
  destruct (resolve_version _ _ _ _ H1) as (v1 & E1 & L1), (resolve_version _ _ _ _ H2) as (v2 & E2 & L2).
  destruct H3 as [[H3 Hne]|(w4 & H3 & H4 & Hne)].
  - left. exists v1. split; [done|]. destruct (resolve_version _ _ _ _ H3) as (v3 & E3 & L3).
    specialize (M (qe_branch entry)). destruct (decide (v1 = v3)) as [->|]; [congruence|lia].
  - right. exists v2. split; [done|]. destruct (resolve_version _ _ _ _ H4) as (v3 & E3 & L3).
    specialize (M2 (qe_target entry)). pose proof (resolve_mono _ (qe_target entry) _ _ _ H3).
    destruct (decide (v2 = v3)) as [->|]; [congruence|lia].
Qed.

Lemma outdated_round round head base w w' h b :
  outdated w head base -> round_body resolve entry round head base w = (w', Ok (again h b)) ->
  (round < maxRevalidations q)%Z.
Proof.
  intros Ho [[? _]|(_ & _ & Hm)]%round_spec; [done|]. exfalso.
  destruct Hm as (w1 & w2 & _ & _ & _ & H1 & H2 & _).
  destruct Ho as [(v & -> & ?)|(v & -> & ?)].
  - apply resolve_outdated in H1. lia.
  - apply resolve_outdated in H2. pose proof (resolve_mono _ (qe_target entry) _ _ _ H1). lia.
Qed.

Lemma entry_loop_ends fuel round head base w :
  (outdated w head base /\ maxRevalidations q <= round /\ 0 < Z.of_nat fuel)%Z \/
  (1 < Z.of_nat fuel /\ maxRevalidations q + 1 < round + Z.of_nat fuel)%Z ->
  is_Some (entry_loop fuel resolve entry round head base w).
Proof.
  revert round head base w. induction fuel as [|fuel IH]; intros round head base w Hf; [lia|].
  cbn [entry_loop]. destruct (round_body _ _ _ _ _ _) as [w' [[r|h b|c]|e]] eqn:E; [eauto| |eauto|eauto].
  apply IH. pose proof E as Hs. apply round_spec in Hs as [[Hlt _]|(-> & -> & Hm)]; [lia|].
  destruct Hf as [(Ho & Hle & _)|Hf]; [pose proof (outdated_round _ _ _ _ _ _ _ Ho E); lia|].
  destruct (decide (maxRevalidations q <= round + 1)%Z); [|lia]. left. split_and!; [by eapply moved_outdated|lia|lia].
Qed.

(** C34: the fence settles: when refs never come back to an earlier commit, an
    entry is merged, rejected or fails after at most [maxRevalidations + 2] rounds,
    however often its branch and target move. *)
Theorem enqueue_terminates w :
  is_Some (enqueueUnsafe (Z.to_nat (maxRevalidations q) + 2) resolve entry w).
Proof.
  unfold enqueueUnsafe. destruct (branchExists _ _ _) as [w' [[|]|e]]; [|eauto|eauto].
  apply entry_loop_ends. right. lia.
Qed.
End Termination.
End Queue.
End Fence.

(** ** [serialize]: one promise chain per target branch

    [run] is the task chained on the target's current tail; the new tail
    settles when [run] does, whether it failed or not. A job waits until the tail
    it was chained on has settled. *)
Module Chains.

Inductive JobStatus := waiting | running | settled.
Record Job := mkJob { jb_target : string; jb_after : option nat; jb_status : JobStatus }.
Record Queue := mkQueue { jobs : list Job; chains : jsmap string nat }.

#[global] Instance JobStatus_eq_dec : EqDecision JobStatus.
Proof. solve_decision. Defined.

Definition empty : Queue := mkQueue [] [].

Definition serialize (target : string) (s : Queue) : Queue :=
  mkQueue (jobs s ++ [mkJob target (map_get target (chains s)) waiting]) (map_set target (length (jobs s)) (chains s)).

Definition status_of (i : nat) (s : Queue) : option JobStatus := jb_status <$> jobs s !! i.

(** The promise a job is chained on has settled. *)
Definition may_start (j : Job) (s : Queue) : bool :=
  bool_decide (jb_status j = waiting)
  && match jb_after j with None => true | Some i => bool_decide (status_of i s = Some settled) end.

Definition set_status (i : nat) (st : JobStatus) (s : Queue) : Queue :=
  mkQueue (alter (fun j => mkJob (jb_target j) (jb_after j) st) i (jobs s)) (chains s).

Inductive step : Queue -> Queue -> Prop :=
| step_submit s target : step s (serialize target s)
| step_start s i j : jobs s !! i = Some j -> may_start j s = true -> step s (set_status i running s)
| step_settle s i j : jobs s !! i = Some j -> jb_status j = running -> step s (set_status i settled s).

Definition reachable (s : Queue) : Prop := rtc step empty s.

(** *** Properties *)

(** [i] is the last job before [n] for [target]. *)
Definition last_for (target : string) (n : nat) (js : list Job) (o : option nat) : Prop :=
  match o with
  | Some i => (i < n)%nat /\ (exists j, js !! i = Some j /\ jb_target j = target) /\
              forall k j, js !! k = Some j -> jb_target j = target -> (k < n)%nat -> (k <= i)%nat
  | None => forall k j, js !! k = Some j -> jb_target j = target -> (n <= k)%nat
  end.

Record Inv (s : Queue) : Prop := {
  inv_after : forall n j, jobs s !! n = Some j -> last_for (jb_target j) n (jobs s) (jb_after j);
  inv_tail : forall target, last_for target (length (jobs s)) (jobs s) (map_get target (chains s));
  inv_started : forall n j i, jobs s !! n = Some j -> jb_status j <> waiting -> jb_after j = Some i -> status_of i s = Some settled;
}.

(** Only targets matter to [last_for], so status changes keep it. *)
Lemma last_for_proper target n js js' o :
  (forall k, jb_target <$> js !! k = jb_target <$> js' !! k) -> last_for target n js o -> last_for target n js' o.
Proof.
  intros E.
  assert (F : forall k j, js' !! k = Some j -> exists j', js !! k = Some j' /\ jb_target j' = jb_target j).
  { intros k j Hk. specialize (E k). rewrite Hk in E. destruct (js !! k); simplify_eq/=. eauto. }
  destruct o as [i|]; simpl.
  - intros (? & (j & Hj & Ht) & Hl). split_and!; [done| |].
    + specialize (E i). rewrite Hj in E. destruct (js' !! i) as [j'|]; simplify_eq/=. eauto.
    + intros k j' Hk Hk2 ?. destruct (F k j' Hk) as (j'' & ? & ?). eapply Hl; [done|congruence|done].
  - intros Hl k j' Hk Hk2. destruct (F k j' Hk) as (j'' & ? & ?). eapply Hl; [done|congruence].
Qed.

Lemma set_status_targets i st s k : jb_target <$> jobs s !! k = jb_target <$> jobs (set_status i st s) !! k.
Proof. simpl. rewrite list_lookup_alter. destruct (decide (i = k)) as [->|]; [|done]. by destruct (jobs s !! k). Qed.

Lemma last_for_app target n js x o :
  (n <= length js)%nat -> last_for target n js o -> last_for target n (js ++ [x]) o.
Proof.
  intros Hn.
  assert (F : forall k j, (js ++ [x]) !! k = Some j -> (k < n)%nat -> js !! k = Some j).
  { intros k j Hk Hl. by rewrite lookup_app_l in Hk by lia. }
  destruct o as [i|]; simpl.
  - intros (? & (j & Hj & Ht) & Hl). split_and!; [done| |].
    + exists j. split; [|done]. by apply lookup_app_l_Some.
    + intros k j' Hk Hk2 ?. eapply Hl; eauto.
  - intros Hl k j' Hk Hk2. destruct (decide (n <= k)%nat); [done|]. eapply Hl; [apply F; [done|lia]|done].
Qed.

Lemma serialize_inv target s : Inv s -> Inv (serialize target s).
Proof.
  intros [Ha Ht Hs].
  assert (L : forall n j, jobs (serialize target s) !! n = Some j ->
    jobs s !! n = Some j \/ n = length (jobs s) /\ j = mkJob target (map_get target (chains s)) waiting).
  { intros n j [?|[? Hx]]%lookup_app_Some; [by left|right]. apply list_lookup_singleton_Some in Hx as [? <-].
    split; [lia|done]. }
  constructor.
  - intros n j Hn. destruct (L n j Hn) as [Hn'|[-> ->]]; simpl.
    + apply last_for_app; [|auto]. apply lookup_lt_Some in Hn'. lia.
    + apply last_for_app; [done|]. apply Ht.
  - intros t. simpl. rewrite length_app, map_get_set. simpl. case_decide as E.
    + subst t. split_and!; [lia| |intros; lia]. exists (mkJob target (map_get target (chains s)) waiting).
      by rewrite list_lookup_middle.
    + specialize (Ht t). destruct (map_get t (chains s)) as [i|]; simpl in *.
      * destruct Ht as (? & (j & Hj & Htj) & Hl). split_and!; [lia| |].
        -- exists j. split; [by apply lookup_app_l_Some|done].
        -- intros k j' Hk Hk2 ?. destruct (L k j' Hk) as [Hk'|[-> ->]]; [|done].
           eapply Hl; [done|done|]. by apply lookup_lt_Some in Hk'.
      * intros k j' Hk Hk2. destruct (L k j' Hk) as [Hk'|[-> ->]]; [|done].
        pose proof (Ht k j' Hk' Hk2). apply lookup_lt_Some in Hk'. lia.
  - intros n j i Hn Hw Hi. destruct (L n j Hn) as [Hn'|[-> ->]]; [|done].
    specialize (Hs n j i Hn' Hw Hi). unfold status_of in *. simpl.
    destruct (jobs s !! i) as [j'|] eqn:E; [|done]. by rewrite (lookup_app_l_Some _ _ _ _ E).
Qed.

Lemma status_of_set i st s k j :
  jobs s !! i = Some j -> status_of k (set_status i st s) = if decide (i = k) then Some st else status_of k s.
Proof.
  intros Hi. unfold status_of, set_status. simpl. rewrite list_lookup_alter.
  destruct (decide (i = k)) as [->|]; [by rewrite Hi|done].
Qed.

Lemma set_status_inv i st s j :
  Inv s -> jobs s !! i = Some j -> st <> waiting ->
  (st = settled \/ jb_status j = waiting) ->
  (forall k, jb_after j = Some k -> status_of k s = Some settled) -> Inv (set_status i st s).
Proof.
  intros [Ha Ht Hs] Hi Hst Hold Hafter.
  assert (L : forall n jn, jobs (set_status i st s) !! n = Some jn ->
    exists j0, jobs s !! n = Some j0 /\ jb_target jn = jb_target j0 /\ jb_after jn = jb_after j0 /\
               jb_status jn = if decide (i = n) then st else jb_status j0).
  { intros n jn. simpl. rewrite list_lookup_alter. destruct (decide (i = n)) as [->|]; [|eauto].
    rewrite Hi. intros [= <-]. eauto. }
  constructor.
  - intros n jn Hn. destruct (L n jn Hn) as (j0 & H0 & -> & -> & _).
    eapply last_for_proper; [apply set_status_targets|auto].
  - intros t. simpl. rewrite length_alter. eapply last_for_proper; [apply (set_status_targets i st)|apply Ht].
  - intros n jn k Hn Hw Hk. destruct (L n jn Hn) as (j0 & H0 & _ & Ea & Es).
    assert (Hk' : status_of k s = Some settled).
    { rewrite Ea in Hk. destruct (decide (i = n)) as [->|]; [apply Hafter; congruence|]. eapply Hs; [done|congruence|done]. }
    rewrite (status_of_set i st s k j Hi). destruct (decide (i = k)) as [->|]; [|done].
    unfold status_of in Hk'. rewrite Hi in Hk'. destruct Hold as [->|E]; [done|]. simpl in Hk'. congruence.
Qed.

Lemma reachable_inv s : reachable s -> Inv s.
Proof.
  intros H. unfold reachable in H. remember empty as s0 eqn:E0.
  assert (Inv s0). { subst s0. constructor; [done|intros t k j Hk; done|done]. } clear E0.
  induction H as [|s1 s2 s3 Hst _ IH]; [done|]. apply IH. destruct Hst as [s target|s i j Hi Hm|s i j Hi Hr].
  - by apply serialize_inv.
  - unfold may_start in Hm. bool_to_prop. eapply set_status_inv; [done|done|done|by right|].
    intros k Hk. rewrite Hk in *. by bool_to_prop.
  - eapply set_status_inv; [done|done|done|by left|]. intros k Hk.
    eapply inv_started; [done|done| |done]. by rewrite Hr.
Qed.

(** Entries of one target branch never overlap and run in the order they
    were queued, and no chain gets stuck: once a job has started every earlier job
    for its target has settled, and while a job waits some job of its chain is
    running or can start. *)
Theorem chains_serialise s :
  reachable s ->
  (forall m n jm jn, (m < n)%nat -> jobs s !! m = Some jm -> jobs s !! n = Some jn -> jb_target jm = jb_target jn ->
     jb_status jn <> waiting -> jb_status jm = settled) /\
  (forall n jn, jobs s !! n = Some jn -> jb_status jn = waiting ->
     exists k jk, jobs s !! k = Some jk /\ jb_target jk = jb_target jn /\ (jb_status jk = running \/ may_start jk s = true)).
Proof.
  intros [Ha Ht Hs]%reachable_inv. split.
  - intros m n. revert m. induction (lt_wf n) as [n _ IH]. intros m jm jn Hlt Hm Hn Htg Hw.
    pose proof (Ha n jn Hn) as Hl. destruct (jb_after jn) as [i|] eqn:Ei; simpl in Hl.
    2: { specialize (Hl m jm Hm Htg). lia. }
    destruct Hl as (Hin & (ji & Hji & Hti) & Hmax). specialize (Hmax m jm Hm Htg Hlt).
    pose proof (Hs n jn i Hn Hw Ei) as Hset. unfold status_of in Hset. rewrite Hji in Hset. injection Hset as Hset.
    destruct (decide (m = i)) as [->|]; [congruence|].
    eapply (IH i Hin m jm ji); [lia|done|done|congruence|by rewrite Hset].
  - intros n. induction (lt_wf n) as [n _ IH]. intros jn Hn Hw.
    destruct (may_start jn s) eqn:E; [eauto 6|]. unfold may_start in E. rewrite bool_decide_eq_true_2 in E by done.
    destruct (jb_after jn) as [i|] eqn:Ei; [|done]. simpl in E. bool_to_prop.
    pose proof (Ha n jn Hn) as Hl. rewrite Ei in Hl. destruct Hl as (Hin & (ji & Hji & Hti) & _).
    unfold status_of in E. rewrite Hji in E. simpl in E. destruct (jb_status ji) eqn:Es; [|eauto 6|congruence].
    destruct (IH i Hin ji Hji Es) as (k & jk & ? & ? & ?). exists k, jk. split_and!; [done|congruence|done].
Qed.
End Chains.

(** ** Concrete repositories *)
Module Samples.
Import Fence.
Local Open Scope string_scope.

(** A world counts git calls and remembers which commits the gate saw and which were merged. *)
Record World := mkWorld { clock : nat; gated : list string; merged_shas : list string }.
Definition tick (w : World) : World := mkWorld (S (clock w)) (gated w) (merged_shas w).

Fixpoint commit (n : nat) : string := match n with O => "" | S n' => String "c" (commit n') end.

Lemma commit_inj n n' : commit n = commit n' -> n = n'.
Proof. revert n'. induction n as [|n IH]; intros [|n'] E; simplify_eq/=; auto. Qed.

(** How many commits [ref] has moved by call number [t], in a given history of the feature branch. *)
Definition moves (history : nat -> nat) (ref : string) (t : nat) : nat :=
  if String.eqb ref "feature" then history t else 1%nat.

Definition resolve_at (history : nat -> nat) (ref : string) : io (W := World) string :=
  fun w => (tick w, Ok (commit (moves history ref (clock w)))).

Definition sample_git (history : nat -> nat) : GitPrimitives (W := World) :=
  mkGit (fun _ w => (tick w, Ok true)) (fun _ _ w => (tick w, Ok (mkRebase true None)))
    (fun _ _ expected w => (mkWorld (S (clock w)) (gated w) (merged_shas w ++ [nullish expected ""]), Ok (mkMerge true false None)))
    (fun _ w => (tick w, Ok "merge-commit"))
    (Some (fun branch _ w => (mkWorld (S (clock w)) (gated w ++ [commit (moves history branch (clock w))]) (merged_shas w),
                              Ok (gate_bool true))))
    (Some (resolve_at history)) None None None.

(** Call 3 rebases the reviewed commit, call 4 runs the gate on the rebased one,
    and a push lands before call 5. *)
Definition late_push (t : nat) : nat := if (t <? 4)%nat then 1 else if (t <? 5)%nat then 2 else 3.
(** No push: only the rebase moves the branch. *)
Definition rebase_only (t : nat) : nat := if (t <? 4)%nat then 1 else 2.

Definition sample_entry : QueueEntry := mkEntry "feature" "main" (commit 1) "old-base".
Definition start : World := mkWorld 0 [] [].
Definition sample_queue history := new (sample_git history) None None None None None.

(** The fence is taken from the branch after the gate, not from the commit
    the gate judged: a push that lands between the two is merged, although
    neither the reviewer nor the gate ever saw it. *)
Theorem late_push_merged :
  exists w r, enqueueUnsafe (sample_queue late_push) 5 (resolve_at late_push) sample_entry start = Some (w, Ok r) /\
    pr_ok r = true /\ merged_shas w = [commit 3] /\ gated w = [commit 2] /\ qe_reviewedHeadSha sample_entry = commit 1.
Proof. do 2 eexists. split_and!; vm_compute; reflexivity. Qed.

Lemma fenced_merge_witness :
  exists w r head base, enqueueUnsafe (sample_queue rebase_only) 5 (resolve_at rebase_only) sample_entry start = Some (w, Ok r) /\
    pr_ok r = true /\ (head = commit 1 /\ base = "old-base" \/ gate_accepted (sample_queue rebase_only) sample_entry base).
Proof.
  destruct (enqueueUnsafe (sample_queue rebase_only) 5 (resolve_at rebase_only) sample_entry start) as [[w [r|e]]|] eqn:E;
    [|by vm_compute in E..].
  exists w, r.
  assert (Hok : pr_ok r = true) by (vm_compute in E; by injection E as <- <-).
  destruct (fenced_merge (sample_queue rebase_only) 5 (resolve_at rebase_only) sample_entry start w r E Hok ltac:(done))
    as (head & base & _ & _ & _ & _ & _ & _ & _ & _ & _ & Hp).
  exists head, base. split_and!; [done|done|]. destruct Hp as [?|(_ & Hg & _)]; [by left|right; by apply Hg].
Defined.

#[global] Instance rebase_only_versions : VersionedRefs (sample_queue rebase_only) (resolve_at rebase_only).
Proof.
  refine {| version := fun w ref => moves rebase_only ref (clock w); sha := fun _ => commit |}.
  - intros _. apply commit_inj.
  - intros ref w w' s [= <- <-]. eexists. split; [done|]. unfold moves, rebase_only. simpl.
    repeat case_match; bool_to_prop; lia.
  - intros ref ref' w w' o [= <- _]. unfold moves, rebase_only. simpl. repeat case_match; bool_to_prop; lia.
  - done.
Defined.

Lemma enqueue_terminates_witness :
  is_Some (enqueueUnsafe (sample_queue rebase_only) 5 (resolve_at rebase_only) sample_entry start).
Proof. apply (enqueue_terminates (sample_queue rebase_only) (resolve_at rebase_only) sample_entry start). Defined.

(** A branch that is pushed away and back while the checks are consulted, round
    after round, defeats [maxRevalidations]: the loop never returns. *)
Definition flapping (t : nat) : nat := if (t mod 3 =? 1)%nat then 1 else 2.
Definition flapping_entry : QueueEntry := mkEntry "feature" "main" (commit 1) (commit 1).

Lemma flapping_first n : flapping (3 * n + 1) = 1%nat.
Proof. unfold flapping. rewrite Nat.add_comm, Nat.mul_comm, Nat.Div0.mod_add. done. Qed.

Lemma flapping_last n : flapping (3 * n + 3) = 2%nat.
Proof. unfold flapping. replace (3 * n + 3)%nat with (0 + (n + 1) * 3)%nat by lia. by rewrite Nat.Div0.mod_add. Qed.

Lemma flapping_loop fuel round n :
  entry_loop (sample_queue flapping) fuel (resolve_at flapping) flapping_entry round (commit 1) (commit 1)
    (mkWorld (3 * n + 1) [] []) = None.
Proof.
  revert round n. induction fuel as [|fuel IH]; intros round n; [done|]. cbn [entry_loop].
  assert (E : round_body (sample_queue flapping) (resolve_at flapping) flapping_entry round (commit 1) (commit 1)
      (mkWorld (3 * n + 1) [] []) = (mkWorld (3 * S n + 1) [] [], Ok (again (commit 1) (commit 1)))).
  { unfold round_body, mbind, io_bind, resolve_at, tick, moves. cbn [qe_branch qe_target flapping_entry clock gated merged_shas].
    change (String.eqb "feature" "feature") with true. change (String.eqb "main" "feature") with false. cbv iota.
    rewrite flapping_first. cbn -[flapping Nat.mul Nat.add].
    rewrite !bool_decide_eq_false_2 by done. cbn -[flapping Nat.mul Nat.add].
    replace (S (S (3 * n + 1))) with (3 * n + 3)%nat by lia. rewrite flapping_last. cbn -[Nat.mul Nat.add].
    by replace (S (3 * n + 3)) with (3 * S n + 1)%nat by lia. }
  rewrite E. apply IH.
Qed.

Lemma flapping_never_returns fuel :
  enqueueUnsafe (sample_queue flapping) fuel (resolve_at flapping) flapping_entry start = None.
Proof. apply (flapping_loop fuel 0 0). Qed.

Lemma chains_serialise_witness :
  let s := Chains.set_status 0 Chains.running (Chains.serialize "main" (Chains.serialize "main" Chains.empty)) in
  exists k jk, Chains.jobs s !! k = Some jk /\ Chains.jb_target jk = "main" /\
    (Chains.jb_status jk = Chains.running \/ Chains.may_start jk s = true).
Proof.
  set (s0 := Chains.serialize "main" (Chains.serialize "main" Chains.empty)).
  assert (Hr : Chains.reachable (Chains.set_status 0 Chains.running s0)).
  { eapply rtc_l; [apply (Chains.step_submit _ "main")|]. eapply rtc_l; [apply (Chains.step_submit _ "main")|].
    apply rtc_once. by eapply (Chains.step_start s0 0). }
  apply (proj2 (Chains.chains_serialise (Chains.set_status 0 Chains.running s0) Hr) 1%nat
           (Chains.mkJob "main" (Some 0%nat) Chains.waiting)); done.
Defined.
End Samples.
