(* ===== verification/PostMerge.v ===== *)
(** * After the merge (src/merge)

    [Evidence]: verificationEvidence.ts, the comparison of local, CI and release
    gate evidence. [Smoke]: postMergeSmoke.ts, the decision to confirm, re-run or
    revert. [Check]: postMerge.ts, the smoke run with its attribution, the revert
    policy and the construction of the revert branch, in the state-and-error monad
    of [MergeQueue] over git, the smoke command and the queue. *)

From S2P Require Import Prelude JsMap Regex MergeGate MergeQueue.
Import MergeGate.Decision MergeGate.Ingest.

Open Scope string_scope.
Open Scope Z_scope.

Module Evidence.

Inductive LocalStatus := l_pass | l_fail.
Record LocalRun := mkLocal { lr_name : string; lr_status : LocalStatus; lr_sha : string }.
Record ReleaseGateResult := mkGate { rg_pass : bool; rg_blockers : list string }.
Inductive DivergenceKind := local_pass_ci_fail | local_fail_ci_pass | gate_blocked | gate_pass_ci_fail | stale_evidence.
Record Divergence := mkDivergence { dv_kind : DivergenceKind; dv_name : string; dv_detail : string }.

Record VerificationEvidenceInput := mkEvidenceInput {
  ei_sha : string;
  ei_local : list LocalRun;
  ei_ci : list CheckRun;
  ei_requiredChecks : list string;
  ei_releaseGate : option ReleaseGateResult;
  ei_evidenceCommit : option string
}.

Inductive GateSummary := gate_pass | gate_is_blocked | gate_absent.
Record VerificationSummary := mkSummary {
  vs_required : Z; vs_localPassed : Z; vs_ciPassed : Z; vs_ciMissing : Z; vs_releaseGate : GateSummary }.
Inductive EvidenceStatus := consistent | divergent | incomplete.
Record VerificationEvidence := mkEvidence {
  ev_status : EvidenceStatus; ev_reasons : list string; ev_divergences : list Divergence; ev_summary : VerificationSummary }.

#[global] Instance LocalStatus_eq_dec : EqDecision LocalStatus.
Proof. solve_decision. Defined.

(** The loops keep the last entry; [find] the first. *)
Definition ciAt (name : string) (i : VerificationEvidenceInput) : option CheckRun :=
  foldl (fun found run => if bool_decide (ck_name run = name) && bool_decide (ck_sha run = ei_sha i) then Some run else found)
    None (ei_ci i).
Definition ciOther (name : string) (i : VerificationEvidenceInput) : option CheckRun :=
  js_find (fun run => bool_decide (ck_name run = name) && negb (bool_decide (ck_sha run = ei_sha i))) (ei_ci i).
Definition localAt (name : string) (i : VerificationEvidenceInput) : option LocalRun :=
  foldl (fun found run => if bool_decide (lr_name run = name) && bool_decide (lr_sha run = ei_sha i) then Some run else found)
    None (ei_local i).
Definition localOther (name : string) (i : VerificationEvidenceInput) : option LocalRun :=
  js_find (fun run => bool_decide (lr_name run = name) && negb (bool_decide (lr_sha run = ei_sha i))) (ei_local i).

(** What one required check adds to the accumulators of the loop. *)
Record Acc := mkAcc {
  a_reasons : list string; a_divergences : list Divergence; a_incomplete : bool;
  a_ciMissing : Z; a_ciPassed : Z; a_localPassed : Z }.

Definition missing (reason : string) (a : Acc) : Acc :=
  mkAcc (a_reasons a ++ [reason])%list (a_divergences a) true (a_ciMissing a) (a_ciPassed a) (a_localPassed a).
Definition diverge (kind : DivergenceKind) (name detail : string) (a : Acc) : Acc :=
  mkAcc (a_reasons a ++ [detail])%list (a_divergences a ++ [mkDivergence kind name detail])%list (a_incomplete a)
    (a_ciMissing a) (a_ciPassed a) (a_localPassed a).
Definition count_missing (a : Acc) : Acc :=
  mkAcc (a_reasons a) (a_divergences a) (a_incomplete a) (a_ciMissing a + 1) (a_ciPassed a) (a_localPassed a).
Definition count_ci (a : Acc) : Acc :=
  mkAcc (a_reasons a) (a_divergences a) (a_incomplete a) (a_ciMissing a) (a_ciPassed a + 1) (a_localPassed a).
Definition count_local (a : Acc) : Acc :=
  mkAcc (a_reasons a) (a_divergences a) (a_incomplete a) (a_ciMissing a) (a_ciPassed a) (a_localPassed a + 1).

Definition ci_evidence (i : VerificationEvidenceInput) (n : string) (a : Acc) : Acc :=
  match ciAt n i with
  | None => count_missing (missing match ciOther n i with
                                   | Some other => "CI " +:+ n +:+ " is for " +:+ ck_sha other +:+ ", not " +:+ ei_sha i
                                   | None => "CI " +:+ n +:+ " missing"
                                   end a)
  | Some at_ => match ck_status at_ with
                | pending => missing ("CI " +:+ n +:+ " pending") a
                | skipped => missing ("CI " +:+ n +:+ " skipped") a
                | pass => count_ci a
                | fail => a
                end
  end.

Definition local_evidence (i : VerificationEvidenceInput) (n : string) (a : Acc) : Acc :=
  match localAt n i with
  | None => missing match localOther n i with
                    | Some other => "local " +:+ n +:+ " is for " +:+ lr_sha other +:+ ", not " +:+ ei_sha i
                    | None => "local " +:+ n +:+ " missing"
                    end a
  | Some l => match lr_status l with l_pass => count_local a | l_fail => a end
  end.

Definition cross_check (i : VerificationEvidenceInput) (n : string) (a : Acc) : Acc :=
  match ciAt n i, localAt n i with
  | Some at_, Some l =>
      match lr_status l, ck_status at_ with
      | l_pass, fail => diverge local_pass_ci_fail n ("local " +:+ n +:+ " passed but CI " +:+ n +:+ " failed") a
      | l_fail, pass => diverge local_fail_ci_pass n ("local " +:+ n +:+ " failed but CI " +:+ n +:+ " passed") a
      | _, _ => a
      end
  | _, _ => a
  end.

Definition check_step (i : VerificationEvidenceInput) (a : Acc) (n : string) : Acc :=
  cross_check i n (local_evidence i n (ci_evidence i n a)).

Definition ci_status (i : VerificationEvidenceInput) (n : string) : option CheckStatus := ck_status <$> ciAt n i.

Definition gate_rule (i : VerificationEvidenceInput) (a : Acc) : Acc :=
  match ei_releaseGate i with
  | None => a
  | Some gate =>
      if negb (rg_pass gate) then
        let gateReasons := match rg_blockers gate with
                           | [] => ["release gate blocked: unspecified"]
                           | bs => map (fun b => "release gate blocked: " +:+ b) bs
                           end in
        let a := mkAcc (a_reasons a ++ gateReasons)%list (a_divergences a) (a_incomplete a) (a_ciMissing a) (a_ciPassed a) (a_localPassed a) in
        let allCiPass := js_every (fun n => bool_decide (ci_status i n = Some pass)) (ei_requiredChecks i) in
        if negb (bool_decide (ei_requiredChecks i = [])) && allCiPass
        then mkAcc (a_reasons a) (a_divergences a ++ [mkDivergence gate_blocked "release-gate" (nullish (head gateReasons) "")])%list
               (a_incomplete a) (a_ciMissing a) (a_ciPassed a) (a_localPassed a)
        else a
      else
        foldl (fun a n => if bool_decide (ci_status i n = Some fail)
                          then diverge gate_pass_ci_fail n ("release gate passed but CI " +:+ n +:+ " failed") a else a)
          a (ei_requiredChecks i)
  end.

Definition stale_rule (i : VerificationEvidenceInput) (a : Acc) : Acc :=
  match ei_evidenceCommit i with
  | Some c => if bool_decide (c = ei_sha i) then a
              else diverge stale_evidence "release-gate" ("release gate evidence commit " +:+ c +:+ " is stale for " +:+ ei_sha i) a
  | None => a
  end.

Definition no_checks_rule (i : VerificationEvidenceInput) (a : Acc) : Acc :=
  if bool_decide (ei_requiredChecks i = []) then missing "no required checks configured" a else a.

Definition buildVerificationEvidence (i : VerificationEvidenceInput) : VerificationEvidence :=
  let a := no_checks_rule i (mkAcc [] [] false 0 0 0) in
  let a := foldl (check_step i) a (ei_requiredChecks i) in
  let a := stale_rule i (gate_rule i a) in
  mkEvidence
    (match a_divergences a with _ :: _ => divergent | [] => if a_incomplete a then incomplete else consistent end)
    (a_reasons a) (a_divergences a)
    (mkSummary (js_len (ei_requiredChecks i)) (a_localPassed a) (a_ciPassed a) (a_ciMissing a)
       (match ei_releaseGate i with None => gate_absent | Some g => if negb (rg_pass g) then gate_is_blocked else gate_pass end)).

(** *** Properties *)

(** Local and CI evidence of one check agree at the sha. *)
Definition agreed (i : VerificationEvidenceInput) (n : string) : Prop :=
  exists c l, ciAt n i = Some c /\ localAt n i = Some l /\
    ((ck_status c = pass /\ lr_status l = l_pass) \/ (ck_status c = fail /\ lr_status l = l_fail)).

(** The release gate does not contradict CI. *)
Definition gate_agrees (i : VerificationEvidenceInput) : Prop :=
  match ei_releaseGate i with
  | None => True
  | Some g => if rg_pass g then forall n, n ∈ ei_requiredChecks i -> ci_status i n <> Some fail
              else exists n, n ∈ ei_requiredChecks i /\ ci_status i n <> Some pass
  end.

Definition settled_acc (a : Acc) : Prop := a_divergences a = [] /\ a_incomplete a = false.

Lemma check_step_settled i a n : settled_acc (check_step i a n) <-> settled_acc a /\ agreed i n.
Proof.
  unfold settled_acc, agreed, check_step, cross_check, local_evidence, ci_evidence.
  destruct (ciAt n i) as [[cn cs csha]|], (localAt n i) as [[ln ls lsha]|]; simpl;
    [destruct cs, ls; simpl|destruct cs; simpl|destruct ls; simpl|];
    (split; [intros [H1 H2]|intros [[H1 H2] (c & l & Hc & Hl & H)]]); simplify_eq/=;
    try (by apply app_nil in H1 as [_ H1]); try (by destruct H as [[??]|[??]]);
    (split_and!; [done|done|]) || split; try done; eexists _, _; split_and!; eauto.
Qed.

Lemma checks_settled i l a : settled_acc (foldl (check_step i) a l) <-> settled_acc a /\ forall n, n ∈ l -> agreed i n.
Proof.
  revert a. induction l as [|n l IH]; intros a; simpl; [set_solver|].
  rewrite IH, check_step_settled. set_solver.
Qed.

Lemma gate_fail_settled i l a :
  settled_acc (foldl (fun a n => if bool_decide (ci_status i n = Some fail)
     then diverge gate_pass_ci_fail n ("release gate passed but CI " +:+ n +:+ " failed") a else a) a l) <->
  settled_acc a /\ forall n, n ∈ l -> ci_status i n <> Some fail.
Proof.
  revert a. induction l as [|n l IH]; intros a; simpl; [set_solver|]. rewrite IH. case_bool_decide as Hn.
  - unfold settled_acc. simpl. split; [|intros [_ H]; destruct (H n); set_solver].
    intros [[H _] _]. apply app_nil in H as [_ H]. discriminate H.
  - set_solver.
Qed.

Lemma gate_settled i a :
  ei_requiredChecks i <> [] -> settled_acc (gate_rule i a) <-> settled_acc a /\ gate_agrees i.
Proof.
  intros Hne. unfold gate_rule, gate_agrees. destruct (ei_releaseGate i) as [[p bs]|]; simpl; [|tauto].
  destruct p; simpl; [apply gate_fail_settled|]. rewrite bool_decide_eq_false_2 by done. simpl.
  destruct (js_every _ _) eqn:E; unfold settled_acc; simpl.
  - split; [intros [H _]; apply app_nil in H as [_ H]; discriminate H|]. intros [_ (n & Hn & Hp)].
    rewrite js_every_true in E. specialize (E n Hn). rewrite bool_decide_eq_true in E. done.
  - split; [|tauto]. intros H. split; [done|].
    assert (~ Forall (fun n => ci_status i n = Some pass) (ei_requiredChecks i)) as Hex.
    { intros Hall. apply not_true_iff_false in E. apply E, js_every_true. intros n Hn. rewrite bool_decide_eq_true.
      by eapply (proj1 (List.Forall_forall _ _) Hall), list_elem_of_In. }
    apply not_Forall_Exists, Exists_exists in Hex as (n & Hn & Hp); [by exists n|]. intros n. apply _.
Qed.

Lemma stale_settled i a :
  settled_acc (stale_rule i a) <-> settled_acc a /\ (forall c, ei_evidenceCommit i = Some c -> c = ei_sha i).
Proof.
  unfold stale_rule. destruct (ei_evidenceCommit i) as [c|]; [|naive_solver]. case_bool_decide; [naive_solver|].
  unfold settled_acc. simpl. split; [intros [H1 _]; apply app_nil in H1 as [_ H1]; discriminate H1|naive_solver].
Qed.

(** Consistency, exactly: the verdict is [consistent] if and only if there are
    required checks, each of them has a finished CI run and a local run at the sha
    with the same outcome, a passing release gate has no failing check under it, a
    blocked one has a check that did not pass, and the evidence commit, if any, is
    the sha. *)
Theorem evidence_consistent_iff i :
  ev_status (buildVerificationEvidence i) = consistent <->
  ei_requiredChecks i <> [] /\ (forall n, n ∈ ei_requiredChecks i -> agreed i n) /\ gate_agrees i /\
  (forall c, ei_evidenceCommit i = Some c -> c = ei_sha i).
Proof.
  unfold buildVerificationEvidence. cbn [ev_status].
  set (a := stale_rule i _).
  transitivity (settled_acc a).
  { unfold settled_acc. destruct (a_divergences a); [|naive_solver]. destruct (a_incomplete a); naive_solver. }
  subst a. rewrite stale_settled. unfold no_checks_rule.
  destruct (decide (ei_requiredChecks i = [])) as [Hn|Hn].
  - rewrite bool_decide_eq_true_2 by done. split; [|naive_solver]. intros [[_ H] _]. exfalso.
    revert H. unfold gate_rule. rewrite Hn. simpl. destruct (ei_releaseGate i) as [[[] ?]|]; simpl; discriminate.
  - rewrite bool_decide_eq_false_2 by done. rewrite gate_settled, checks_settled by done.
    unfold settled_acc at 1. simpl. naive_solver.
Qed.

Definition sample_evidence : VerificationEvidenceInput :=
  mkEvidenceInput "abc" [mkLocal "unit" l_pass "abc"] [mkCheck "unit" fail "old"; mkCheck "unit" pass "abc"] ["unit"]
    (Some (mkGate true [])) (Some "abc").

(** The last CI run at the sha counts, and runs at other shas do not. *)
Example sample_consistent : ev_status (buildVerificationEvidence sample_evidence) = consistent.
Proof. vm_compute. reflexivity. Qed.

End Evidence.

Module Smoke.

(** A JavaScript number that counts: an integer or not finite. *)
Inductive count := finite (n : Z) | infinite (negative : bool) | NaN.
Definition count_lt (a b : count) : bool :=
  match a, b with
  | finite m, finite n => m <? n
  | infinite true, finite _ | infinite true, infinite false | finite _, infinite false => true
  | _, _ => false
  end.
Definition is_finite (a : count) : bool := match a with finite _ => true | _ => false end.
Definition count_text (a : count) : string :=
  match a with finite n => js_num n | infinite true => "-Infinity" | infinite false => "Infinity" | NaN => "NaN" end.

Inductive SmokeDecision := confirmed | rerun | revert | smoke_pending.

Record PostMergeSmokeInput := mkSmokeInput {
  si_mergeSha : string;
  si_prNumber : Z;
  si_parentSha : string;
  si_mainChecks : list CheckRun;
  si_requiredChecks : list string;
  si_preMergeMainChecks : option (list CheckRun);
  si_baseline : option CheckBaseline;
  si_rerunCount : count;
  si_maxReruns : count
}.
Record PostMergeSmokeResult := mkSmoke {
  sm_decision : SmokeDecision;
  sm_reasons : list string;
  sm_failureClasses : jsmap string FailureClass;
  sm_preExisting : list string;
  sm_introduced : list string;
  sm_revertTarget : option (string * Z)
}.

Section Smoke.
Context (i : PostMergeSmokeInput).

Definition mergeRuns : list CheckRun :=
  js_filter (fun run => bool_decide (ck_sha run = si_mergeSha i) && js_includes (ck_name run) (si_requiredChecks i)) (si_mainChecks i).
(** The first run of a name. *)
Definition run_of (name : string) : option CheckRun := js_find (fun r => bool_decide (ck_name r = name)) mergeRuns.

Definition unfinished (name : string) : list string :=
  match run_of name with
  | None => ["required check " +:+ name +:+ " missing"]
  | Some run => match ck_status run with
                | pending => ["required check " +:+ name +:+ " pending"]
                | skipped => ["required check " +:+ name +:+ " skipped"]
                | _ => []
                end
  end.

Definition classes : jsmap string FailureClass := classifyCheckFailures mergeRuns (si_parentSha i) (si_baseline i).
(** The copy of the classes the result carries: one entry per key. *)
Definition failureClasses : jsmap string FailureClass :=
  foldl (fun m name => match map_get name classes with Some c => map_set name c m | None => m end) [] (map_keys classes).

Definition preMergeFailing : list string :=
  map ck_name (js_filter (fun run => bool_decide (ck_sha run = si_parentSha i) && bool_decide (ck_status run = fail))
                 (nullish (si_preMergeMainChecks i) [])).

(** Rules 5 and 6, for one required name. *)
Definition split_step (acc : list string * list string * list string) (name : string) : list string * list string * list string :=
  let '(reasons, preExisting, introduced) := acc in
  match run_of name with
  | Some run =>
      if negb (bool_decide (ck_status run = fail)) then acc
      else let cls := nullish (map_get name classes) deterministic in
           if bool_decide (cls = base) || js_includes name preMergeFailing
           then ((reasons ++ ["check " +:+ name +:+ " failed before merge (preexisting)"])%list, (preExisting ++ [name])%list, introduced)
           else ((reasons ++ ["check " +:+ name +:+ " failed (" +:+ class_name cls +:+ ")"])%list, preExisting, (introduced ++ [name])%list)
  | None => acc
  end.

Definition introduced_as (c : FailureClass) (introduced : list string) : bool :=
  js_some (fun name => bool_decide (map_get name failureClasses = Some c)) introduced.

Definition decidePostMergeSmoke : PostMergeSmokeResult :=
  let reasons := concat (map unfinished (si_requiredChecks i)) in
  match reasons with
  | _ :: _ => mkSmoke smoke_pending reasons [] [] [] None
  | [] =>
      if js_every (fun run => bool_decide (ck_status run = pass)) mergeRuns then mkSmoke confirmed [] [] [] [] None
      else
        let '(reasons, preExisting, introduced) := foldl split_step ([], [], []) (si_requiredChecks i) in
        let target := Some (si_mergeSha i, si_prNumber i) in
        if introduced_as deterministic introduced
        then mkSmoke revert reasons failureClasses preExisting introduced target
        else if introduced_as flaky introduced then
          let rerunBudget := if is_finite (si_rerunCount i) && is_finite (si_maxReruns i) then si_maxReruns i else finite 0 in
          if count_lt (si_rerunCount i) rerunBudget
          then mkSmoke rerun reasons failureClasses preExisting introduced None
          else mkSmoke revert
                 (reasons ++ ["rerun budget exhausted (" +:+ count_text (si_rerunCount i) +:+ "/" +:+ count_text (si_maxReruns i) +:+ ")"])%list
                 failureClasses preExisting introduced target
        else mkSmoke confirmed reasons failureClasses preExisting introduced None
  end.

(** *** Properties *)

(** The class of a failing name. *)
Definition class_of (name : string) : FailureClass :=
  match si_baseline i with
  | Some b => if String.eqb (cb_baseSha b) (si_parentSha i) && js_includes name (cb_failures b) then base
              else if js_includes name (cb_flaky b) then flaky else deterministic
  | None => deterministic
  end.
(** What the code looks at: the first run of each required check has finished. *)
Definition first_finished : Prop :=
  forall n, n ∈ si_requiredChecks i -> exists run, run_of n = Some run /\ (ck_status run = pass \/ ck_status run = fail).
(** The failure was there before the merge. *)
Definition broken_before (n : string) : Prop := class_of n = base \/ n ∈ preMergeFailing.
(** The first run of a required check fails, and did not before the merge. *)
Definition first_broke (n : string) : Prop :=
  n ∈ si_requiredChecks i /\ (exists run, run_of n = Some run /\ ck_status run = fail) /\ ~ broken_before n.
Definition reruns_left : bool :=
  count_lt (si_rerunCount i) (if is_finite (si_rerunCount i) && is_finite (si_maxReruns i) then si_maxReruns i else finite 0).

Definition failing (name : string) (c : CheckRun) : bool := bool_decide (ck_name c = name) && bool_decide (ck_status c = fail).

Lemma classify_step_get name m c :
  map_get name (classify_step (si_parentSha i) (si_baseline i) m c) =
  if failing name c then Some (class_of name) else map_get name m.
Proof.
  unfold classify_step, class_of, failing. destruct (bool_decide (ck_status c = fail)); simpl; [|by rewrite andb_false_r].
  rewrite andb_true_r. case_bool_decide as Hn.
  - subst name. destruct (si_baseline i); [|apply map_get_set_eq].
    destruct (_ && _); [apply map_get_set_eq|]. destruct (js_includes _ _); apply map_get_set_eq.
  - destruct (si_baseline i); [|by apply map_get_set_ne].
    destruct (_ && _); [by apply map_get_set_ne|]. destruct (js_includes _ _); by apply map_get_set_ne.
Qed.

Lemma classify_get name l m :
  map_get name (foldl (classify_step (si_parentSha i) (si_baseline i)) m l) =
  if js_some (failing name) l then Some (class_of name) else map_get name m.
Proof.
  revert m. induction l as [|c l IH]; intros m; [done|]. cbn [foldl js_some existsb]. rewrite IH, classify_step_get.
  fold (js_some (failing name) l). by destruct (failing name c), (js_some (failing name) l).
Qed.

Lemma copy_get {A} (src : jsmap string A) name l m :
  map_get name (foldl (fun m name => match map_get name src with Some c => map_set name c m | None => m end) m l) =
  if bool_decide (name ∈ l) then (match map_get name src with Some c => Some c | None => map_get name m end) else map_get name m.
Proof.
  revert m. induction l as [|k l IH]; intros m; simpl; [done|]. rewrite IH.
  destruct (decide (k = name)) as [->|Hne].
  - rewrite (bool_decide_eq_true_2 (name ∈ name :: l)) by set_solver.
    destruct (map_get name src) as [c|] eqn:E; [|by case_bool_decide]. case_bool_decide; [done|]. apply map_get_set_eq.
  - assert (map_get name (match map_get k src with Some c => map_set k c m | None => m end) = map_get name m) as ->
      by (destruct (map_get k src); [by apply map_get_set_ne|done]).
    repeat case_bool_decide; try done; exfalso; set_solver.
Qed.

Lemma failureClasses_get name : map_get name failureClasses = map_get name classes.
Proof.
  unfold failureClasses. rewrite copy_get. case_bool_decide as H; [by destruct (map_get name classes)|].
  apply map_get_none in H. by rewrite H.
Qed.

Lemma failed_class n run : run_of n = Some run -> ck_status run = fail -> map_get n classes = Some (class_of n).
Proof.
  unfold run_of. intros H Hf. apply js_find_some in H as [Hin Hn]. rewrite bool_decide_eq_true in Hn.
  unfold classes, classifyCheckFailures. rewrite classify_get.
  assert (js_some (failing n) mergeRuns = true) as ->; [|done]. apply js_some_true. exists run. split; [done|].
  unfold failing. by rewrite andb_true_iff, !bool_decide_eq_true.
Qed.

Definition is_broke (n : string) : bool :=
  match run_of n with
  | Some run => bool_decide (ck_status run = fail) && negb (bool_decide (class_of n = base) || js_includes n preMergeFailing)
  | None => false
  end.

Lemma is_broke_true n : n ∈ si_requiredChecks i -> is_broke n = true <-> first_broke n.
Proof.
  intros Hn. unfold is_broke, first_broke, broken_before. destruct (run_of n) as [run|]; [|naive_solver].
  rewrite andb_true_iff, negb_true_iff, orb_false_iff, bool_decide_eq_true, bool_decide_eq_false, js_includes_false.
  naive_solver.
Qed.

Lemma split_introduced l rs ps is_ :
  (foldl split_step (rs, ps, is_) l).2 = (is_ ++ js_filter is_broke l)%list.
Proof.
  revert rs ps is_. induction l as [|n l IH]; intros rs ps is_; [simpl; by rewrite app_nil_r|].
  cbn [foldl js_filter]. unfold split_step at 2. unfold is_broke at 1. destruct (run_of n) as [run|] eqn:E; [|apply IH].
  case_bool_decide as Hf; simpl; [|apply IH]. rewrite (failed_class n run E Hf). simpl.
  destruct (_ || _); simpl; rewrite IH; [done|]. by rewrite <-app_assoc.
Qed.

Lemma introduced_as_true c :
  introduced_as c (js_filter is_broke (si_requiredChecks i)) = true <-> exists n, first_broke n /\ class_of n = c.
Proof.
  unfold introduced_as. rewrite js_some_true. split.
  - intros (n & Hn & Hc). apply js_filter_elem in Hn as [Hn Hb]. apply is_broke_true in Hb; [|done].
    rewrite bool_decide_eq_true, failureClasses_get in Hc. exists n. split; [done|].
    destruct Hb as (_ & (run & Hr & Hf) & _). rewrite (failed_class n run Hr Hf) in Hc. congruence.
  - intros (n & Hb & Hc). exists n. rewrite js_filter_elem. pose proof Hb as (Hn & (run & Hr & Hf) & _).
    split; [split; [done|by apply is_broke_true]|]. rewrite bool_decide_eq_true, failureClasses_get, (failed_class n run Hr Hf).
    congruence.
Qed.

Lemma unfinished_nil : concat (map unfinished (si_requiredChecks i)) = [] <-> first_finished.
Proof.
  rewrite concat_map_nil. unfold first_finished, unfinished.
  split; intros H n Hn; specialize (H n Hn).
  - destruct (run_of n) as [run|]; [|discriminate H]. exists run. split; [done|]. destruct (ck_status run); auto; discriminate H.
  - destruct H as (run & -> & H). destruct H as [-> | ->]; done.
Qed.

Lemma all_pass_not_broke n : js_every (fun run => bool_decide (ck_status run = pass)) mergeRuns = true -> ~ first_broke n.
Proof.
  rewrite js_every_true. intros H (_ & (run & Hr & Hf) & _). unfold run_of in Hr. apply js_find_some in Hr as [Hin _].
  specialize (H run Hin). rewrite bool_decide_eq_true in H. congruence.
Qed.


(** A run of a required check at the merge commit, and the rules of the
    decision over all runs of a name. *)
Definition run_at (n : string) (run : CheckRun) : Prop :=
  run ∈ si_mainChecks i /\ ck_sha run = si_mergeSha i /\ ck_name run = n.
Definition finished : Prop :=
  forall n, n ∈ si_requiredChecks i ->
    (exists run, run_at n run) /\ forall run, run_at n run -> ck_status run = pass \/ ck_status run = fail.
Definition failed_before (n : string) : Prop :=
  exists run, run ∈ nullish (si_preMergeMainChecks i) [] /\ ck_sha run = si_parentSha i /\ ck_name run = n /\ ck_status run = fail.
(** The merge broke a required check: a run of it fails, and it is neither known
    as broken at the parent nor was it seen failing there. *)
Definition broke (n : string) : Prop :=
  n ∈ si_requiredChecks i /\ (exists run, run_at n run /\ ck_status run = fail) /\ class_of n <> base /\ ~ failed_before n.
(** No required check has runs with different results at the merge commit. *)
Definition unambiguous : Prop :=
  forall n r1 r2, n ∈ si_requiredChecks i -> run_at n r1 -> run_at n r2 -> ck_status r1 = ck_status r2.

Lemma mergeRuns_elem n run : n ∈ si_requiredChecks i -> (run ∈ mergeRuns /\ ck_name run = n) <-> run_at n run.
Proof.
  intros Hn. unfold mergeRuns, run_at. rewrite js_filter_elem, andb_true_iff, bool_decide_eq_true, js_includes_true.
  split; [naive_solver|]. intros (? & ? & <-). naive_solver.
Qed.

Lemma run_of_some n run : n ∈ si_requiredChecks i -> run_of n = Some run -> run_at n run.
Proof.
  intros Hn H. apply mergeRuns_elem; [done|]. apply js_find_some in H as [H1 H2]. by rewrite bool_decide_eq_true in H2.
Qed.

Lemma run_of_exists n run : n ∈ si_requiredChecks i -> run_at n run -> exists first, run_of n = Some first.
Proof.
  intros Hn H. destruct (run_of n) as [first|] eqn:E; [by exists first|]. exfalso.
  apply mergeRuns_elem in H as [H1 H2]; [|done]. pose proof (proj1 (js_find_none _ _) E run H1) as Hf.
  by rewrite bool_decide_eq_false in Hf.
Qed.

Lemma first_finished_iff : unambiguous -> first_finished <-> finished.
Proof.
  intros Hu. unfold first_finished, finished. split; intros H n Hn; specialize (H n Hn).
  - destruct H as (run & Hr & Hs). pose proof (run_of_some n run Hn Hr) as Ha. split; [by exists run|].
    intros r Hr'. by rewrite (Hu n r run).
  - destruct H as [(run & Hr) Hs]. destruct (run_of_exists n run Hn Hr) as [first Hf]. exists first. split; [done|].
    by apply Hs, run_of_some.
Qed.

Lemma broken_before_iff n : broken_before n <-> class_of n = base \/ failed_before n.
Proof.
  unfold broken_before, failed_before, preMergeFailing. rewrite list_elem_of_fmap.
  setoid_rewrite js_filter_elem. setoid_rewrite andb_true_iff. setoid_rewrite bool_decide_eq_true.
  split; (intros [H|H]; [by left|right]); naive_solver.
Qed.

Lemma first_broke_iff n : unambiguous -> first_broke n <-> broke n.
Proof.
  intros Hu. unfold first_broke, broke. rewrite broken_before_iff. split.
  - intros (Hn & (run & Hr & Hf) & Hb). split; [done|]. split; [|naive_solver]. exists run. by split; [apply run_of_some|].
  - intros (Hn & (run & Hr & Hf) & Hb). split; [done|]. split; [|naive_solver].
    destruct (run_of_exists n run Hn Hr) as [first Hf']. exists first. split; [done|].
    by rewrite (Hu n first run Hn (run_of_some n first Hn Hf') Hr).
Qed.
End Smoke.

(** The decision over the first runs. *)
Lemma first_run_decision i :
  (sm_decision (decidePostMergeSmoke i) = smoke_pending <-> ~ first_finished i) /\
  (sm_decision (decidePostMergeSmoke i) = revert <->
     first_finished i /\ exists n, first_broke i n /\ (class_of i n = deterministic \/ (class_of i n = flaky /\ reruns_left i = false))) /\
  (sm_decision (decidePostMergeSmoke i) = confirmed <-> first_finished i /\ forall n, ~ first_broke i n).
Proof.
  unfold decidePostMergeSmoke. pose proof (unfinished_nil i) as Hu.
  destruct (concat (map (unfinished i) (si_requiredChecks i))) as [|r rs]; cbn [sm_decision]; [|naive_solver].
  assert (first_finished i) as Hfin by naive_solver.
  destruct (js_every _ (mergeRuns i)) eqn:Ep; cbn [sm_decision].
  { pose proof (fun n => all_pass_not_broke i n Ep). naive_solver. }
  pose proof (split_introduced i (si_requiredChecks i) [] [] []) as Hs.
  destruct (foldl (split_step i) _ _) as [[reasons pre] intro_]. cbn [snd app] in Hs. subst intro_.
  pose proof (introduced_as_true i deterministic) as Hd. pose proof (introduced_as_true i flaky) as Hf.
  assert (forall n, first_broke i n -> class_of i n = deterministic \/ class_of i n = flaky) as Hcl.
  { intros n (_ & _ & Hb). unfold broken_before in Hb. destruct (class_of i n); naive_solver. }
  fold (reruns_left i).
  destruct (introduced_as i deterministic _); cbn [sm_decision].
  { destruct Hd as [Hd _]. destruct (Hd eq_refl) as (n & Hb & Hc). naive_solver. }
  destruct (introduced_as i flaky _).
  - destruct Hf as [Hf _]. destruct (Hf eq_refl) as (n & Hb & Hc). destruct (reruns_left i); cbn [sm_decision]; naive_solver.
  - cbn [sm_decision]. naive_solver.
Qed.

(** C35: the smoke decision, exactly, when no required check has runs with
    different results at the merge commit: [pending] while a required check has no
    run there or one that has neither passed nor failed; a revert if and only if all
    have finished and the merge broke one of them, deterministically or flakily with
    no re-run left; a confirmation if and only if all have finished and the merge
    broke none. The merge broke a check when a run of it fails that the baseline does
    not know as broken at the parent and that was not seen failing there. *)
Theorem smoke_decision_exact i :
  unambiguous i ->
  (sm_decision (decidePostMergeSmoke i) = smoke_pending <-> ~ finished i) /\
  (sm_decision (decidePostMergeSmoke i) = revert <->
     finished i /\ exists n, broke i n /\ (class_of i n = deterministic \/ (class_of i n = flaky /\ reruns_left i = false))) /\
  (sm_decision (decidePostMergeSmoke i) = confirmed <-> finished i /\ forall n, ~ broke i n).
Proof.
  intros Hu. rewrite <-(first_finished_iff i Hu). setoid_rewrite <-(fun n => first_broke_iff i n Hu). apply first_run_decision.
Qed.

(** A merge that broke one check and met another that was failing before. *)
Definition smoke_sample : PostMergeSmokeInput :=
  mkSmokeInput "m" 1 "p" [mkCheck "unit" fail "m"; mkCheck "lint" fail "m"; mkCheck "unit" pass "p"] ["unit"; "lint"]
    (Some [mkCheck "lint" fail "p"; mkCheck "unit" pass "p"]) None (finite 0) (finite 1).

Lemma smoke_sample_unambiguous : unambiguous smoke_sample.
Proof.
  intros n r1 r2 _ (H1 & Hs1 & E1) (H2 & Hs2 & E2). cbn in H1, H2, Hs1, Hs2.
  rewrite !elem_of_cons, elem_of_nil in H1, H2. naive_solver.
Qed.

Lemma smoke_decision_exact_witness :
  unambiguous smoke_sample /\ sm_decision (decidePostMergeSmoke smoke_sample) = revert /\
  finished smoke_sample /\ exists n, broke smoke_sample n /\ class_of smoke_sample n = deterministic.
Proof.
  split; [exact smoke_sample_unambiguous|]. assert (Hd : sm_decision (decidePostMergeSmoke smoke_sample) = revert) by reflexivity.
  split; [exact Hd|]. destruct (proj1 (proj1 (proj2 (smoke_decision_exact smoke_sample smoke_sample_unambiguous)) ) Hd) as [Hf (n & Hb & Hc)].
  split; [exact Hf|]. exists n. split; [exact Hb|]. destruct Hc as [Hc|[_ Hr]]; [exact Hc|discriminate Hr].
Defined.

(** Where a name has runs with different results only the first counts: a failing
    run listed after a passing one is passed over and the merge is confirmed. *)
Theorem masked_failure_confirmed :
  sm_decision (decidePostMergeSmoke
    (mkSmokeInput "m" 1 "p" [mkCheck "unit" pass "m"; mkCheck "unit" fail "m"] ["unit"] None None (finite 0) (finite 1))) = confirmed.
Proof. vm_compute. reflexivity. Qed.
End Smoke.

Module Check.
Import MergeQueue.Fence.

Inductive RevertPolicy := off | propose | auto.
Definition DEFAULT_REVERT_POLICY : RevertPolicy := propose.
#[global] Instance RevertPolicy_eq_dec : EqDecision RevertPolicy.
Proof. solve_decision. Defined.

Inductive RevertBranchResult := prepared (sha : string) (created : bool) | not_prepared (reason : string).

Record PostMergeResult := mkPostMerge {
  smokePassed : bool;
  attributable : bool;
  pm_policy : RevertPolicy;
  revertBranch : option string;
  revertSha : option string;
  enqueued : bool;
  pm_reason : option string
}.

(** [s.replace(/[^A-Za-z0-9._-]+/g, "-").replace(/^[-.]+|[-.]+$/g, "")] *)
Definition branch_slug (s : string) : string :=
  replace_all (alts [(RBegin · plus (RSet (one_of "-.")))%re; (plus (RSet (one_of "-.")) · REnd)%re]) (fun _ _ => "")
    (replace_all (plus (RSet (cneg (cunion alnum (one_of "._-"))))) (fun _ _ => "-") s).

Definition revertBranchName (entry : QueueEntry) (mergedSha : string) : string :=
  let slug := branch_slug (qe_branch entry) in
  "revert/" +:+ (if truthy slug then slug else "branch") +:+ "-" +:+ String.substring 0 12 mergedSha.

Section Check.
Context {W : Type}.
Notation io := (Fence.io (W := W)).

Definition throw {A} (e : string) : io A := fun w => (w, Err e).
(** A call whose failure is handled: [try]/[catch] and [.catch]. *)
Definition attempt {A} (m : io A) : io (res string A) := fun w => let '(w', r) := m w in (w', Ok r).
Definition or_else (m : io string) (d : string) : io string :=
  r ← attempt m; io_ret (match r with Ok v => v | Err _ => d end).
Definition ignore_failure {A} (m : io A) : io unit := r ← attempt m; io_ret tt.

Record PostMergeGit := mkPostMergeGit {
  pg_createRevertBranch : string -> string -> string -> io RevertBranchResult; (* branch, mergedSha, base *)
  pg_resolveRef : string -> io string
}.

Definition postMergeCheck (entry : QueueEntry) (mergedSha preMergeSha : string) (smoke : string -> io bool)
    (policy : option RevertPolicy) (git : PostMergeGit) (queue : option (QueueEntry -> io PromoteResult)) : io PostMergeResult :=
  let effective := nullish policy DEFAULT_REVERT_POLICY in
  if bool_decide (mergedSha = preMergeSha) then throw "merged SHA equals the pre-merge SHA; nothing was merged"
  else
    passed ← smoke mergedSha;
    if passed : bool then io_ret (mkPostMerge true false effective None None false None)
    else
      before ← smoke preMergeSha;
      if negb before then
        io_ret (mkPostMerge false false effective None None false
          (Some ("smoke also fails at pre-merge " +:+ preMergeSha +:+ "; the failure is not attributable to this merge")))
      else if bool_decide (effective = off) then
        io_ret (mkPostMerge false true effective None None false (Some "revertPolicy is off; regression recorded only"))
      else
        base ← pg_resolveRef git (qe_target entry);
        revert ← pg_createRevertBranch git (revertBranchName entry mergedSha) mergedSha base;
        match revert with
        | not_prepared reason =>
            io_ret (mkPostMerge false true effective None None false (Some ("revert not prepared: " +:+ reason)))
        | prepared sha _ =>
            let branch := revertBranchName entry mergedSha in
            let done enq reason := mkPostMerge false true effective (Some branch) (Some sha) enq reason in
            if bool_decide (effective = propose) then io_ret (done false None)
            else match queue with
                 | None => io_ret (done false (Some "revertPolicy auto needs a merge queue; revert left proposed"))
                 | Some enqueue =>
                     queued ← enqueue (mkEntry branch (qe_target entry) sha base);
                     if pr_ok queued then io_ret (done true None)
                     else io_ret (done false (Some ("merge queue refused the revert: " +:+ nullish (pr_reason queued) "unknown")))
                 end
        end.

(** ** The real git *)

Section RealGit.
(** [safeGitOrThrow] with its output trimmed, the temporary directory, and its
    removal. *)
Context (git : string -> list string -> io string) (mkdtemp : io string) (rmdir : string -> io unit).
Context (repoDir : string).

(** [text.split("\n")[0]] *)
Fixpoint first_line (t : string) : string :=
  match t with
  | EmptyString => ""
  | String c t' => if bool_decide (c = ascii_of_N 10) then "" else String c (first_line t')
  end.

Definition words_of (t : string) : Z := js_len (split_re (lit " ") t).

Definition dropEmptyBranch (branch baseSha : string) : io unit :=
  ignore_failure (git repoDir ["update-ref"; "-d"; "refs/heads/" +:+ branch; baseSha]).
Definition existing_branch (branch : string) : io string :=
  or_else (git repoDir ["rev-parse"; "--verify"; "--quiet"; "refs/heads/" +:+ branch]) "".

Definition identity_args (hasIdentity : bool) : list string :=
  if hasIdentity then [] else ["-c"; "user.name=pi-engineering"; "-c"; "user.email=pi-engineering@localhost"].

(** The body of the [try] block. *)
Definition build_revert (branch mergedSha base baseSha dir : string) (parents : Z) : io RevertBranchResult :=
  git repoDir ["worktree"; "add"; "-q"; "-b"; branch; dir; base] ≫= fun _ =>
  attempt (git dir ["config"; "user.email"]) ≫= fun email =>
  let hasIdentity := match email with Ok v => truthy v | Err _ => false end in
  attempt (git dir (identity_args hasIdentity ++ ["revert"; "--no-edit"] ++ (if 1 <? parents then ["-m"; "1"] else []) ++ [mergedSha])%list)
    ≫= fun reverted =>
  match reverted with
  | Err message =>
      ignore_failure (git dir ["revert"; "--abort"]) ≫= fun _ =>
      ignore_failure (git repoDir ["worktree"; "remove"; dir]) ≫= fun _ =>
      dropEmptyBranch branch baseSha ≫= fun _ =>
      io_ret (not_prepared (first_line message))
  | Ok _ =>
      git dir ["rev-parse"; "HEAD"] ≫= fun sha =>
      git repoDir ["worktree"; "remove"; dir] ≫= fun _ =>
      io_ret (prepared sha true)
  end.

Definition createRevertBranch (branch mergedSha base : string) : io RevertBranchResult :=
  git repoDir ["rev-parse"; "--verify"; base +:+ "^{commit}"] ≫= fun baseSha =>
  existing_branch branch ≫= fun existing =>
  (if bool_decide (existing = baseSha)
   then dropEmptyBranch branch baseSha ≫= fun _ => existing_branch branch
   else io_ret existing) ≫= fun existing =>
  if truthy existing then io_ret (prepared existing false)
  else
    git repoDir ["rev-list"; "--parents"; "-n"; "1"; mergedSha] ≫= fun line =>
    let parents := words_of line - 1 in
    mkdtemp ≫= fun dir =>
    attempt (build_revert branch mergedSha base baseSha dir parents) ≫= fun built =>
    (match built with
     | Ok r => io_ret r
     | Err message =>
         ignore_failure (git repoDir ["worktree"; "remove"; dir]) ≫= fun _ =>
         dropEmptyBranch branch baseSha ≫= fun _ =>
         io_ret (not_prepared (first_line message))
     end) ≫= fun r =>
    ignore_failure (rmdir dir) ≫= fun _ => io_ret r.

Definition gitPostMerge : PostMergeGit :=
  mkPostMergeGit createRevertBranch (fun ref => git repoDir ["rev-parse"; "--verify"; ref +:+ "^{commit}"]).

(** *** Properties *)

(** The commands that can touch nothing but the revert branch: queries, the
    creation of the branch, its compare-and-swap deletion, the removal of a clean
    worktree, and the revert itself outside the repository's own checkout. *)
Inductive touches_only (branch cwd : string) : list string -> Prop :=
  | t_rev_parse rest : touches_only branch cwd ("rev-parse" :: rest)
  | t_rev_list rest : touches_only branch cwd ("rev-list" :: rest)
  | t_config : touches_only branch cwd ["config"; "user.email"]
  | t_delete sha : touches_only branch cwd ["update-ref"; "-d"; "refs/heads/" +:+ branch; sha]
  | t_add dir at_ : touches_only branch cwd ["worktree"; "add"; "-q"; "-b"; branch; dir; at_]
  | t_remove dir : touches_only branch cwd ["worktree"; "remove"; dir]
  | t_revert rest : cwd <> repoDir -> touches_only branch cwd ("revert" :: rest)
  | t_identity rest : cwd <> repoDir -> touches_only branch cwd ("-c" :: rest).

Context (I : W -> Prop) (branch : string).
Definition keeps {A} (m : io A) : Prop := forall w, I w -> I (m w).1.

Lemma keeps_ret {A} (a : A) : keeps (io_ret a).
Proof. intros w Hw. exact Hw. Qed.
Lemma keeps_bind {A B} (m : io A) (k : A -> io B) : keeps m -> (forall a, keeps (k a)) -> keeps (m ≫= k).
Proof.
  intros Hm Hk w Hw. unfold mbind, io_bind. specialize (Hm w Hw). destruct (m w) as [w' [a|e]]; [by apply Hk|done].
Qed.
Lemma keeps_attempt {A} (m : io A) : keeps m -> keeps (attempt m).
Proof. intros Hm w Hw. unfold attempt. specialize (Hm w Hw). by destruct (m w). Qed.
Lemma keeps_ignore {A} (m : io A) : keeps m -> keeps (ignore_failure m).
Proof. intros Hm. apply keeps_bind; [by apply keeps_attempt|]. intros r. apply keeps_ret. Qed.
Lemma keeps_or_else (m : io string) d : keeps m -> keeps (or_else m d).
Proof. intros Hm. apply keeps_bind; [by apply keeps_attempt|]. intros r. apply keeps_ret. Qed.

Hypothesis git_keeps : forall cwd args, touches_only branch cwd args -> keeps (git cwd args).
Hypothesis rmdir_keeps : forall dir, keeps (rmdir dir).
(** The temporary directory is a new one. *)
Hypothesis mkdtemp_fresh : forall w, I w -> I (mkdtemp w).1 /\ forall dir, (mkdtemp w).2 = Ok dir -> dir <> repoDir.

Lemma keeps_drop baseSha : keeps (dropEmptyBranch branch baseSha).
Proof. apply keeps_ignore, git_keeps. constructor. Qed.
Lemma keeps_existing : keeps (existing_branch branch).
Proof. apply keeps_or_else, git_keeps. constructor. Qed.
Lemma keeps_remove dir : keeps (git repoDir ["worktree"; "remove"; dir]).
Proof. apply git_keeps. constructor. Qed.

Lemma keeps_build mergedSha base baseSha dir parents :
  dir <> repoDir -> keeps (build_revert branch mergedSha base baseSha dir parents).
Proof.
  intros Hdir. unfold build_revert. apply keeps_bind; [apply git_keeps; constructor|]. intros _.
  apply keeps_bind; [apply keeps_attempt, git_keeps; constructor|]. intros email. cbn zeta.
  apply keeps_bind.
  { apply keeps_attempt, git_keeps. destruct (match email with Ok v => truthy v | Err _ => false end); by constructor. }
  intros [_|message].
  - apply keeps_bind; [apply git_keeps; constructor|]. intros sha. apply keeps_bind; [apply keeps_remove|]. intros _. apply keeps_ret.
  - apply keeps_bind; [apply keeps_ignore, git_keeps; by constructor|]. intros _.
    apply keeps_bind; [apply keeps_ignore, keeps_remove|]. intros _.
    apply keeps_bind; [apply keeps_drop|]. intros _. apply keeps_ret.
Qed.

Lemma keeps_create mergedSha base : keeps (createRevertBranch branch mergedSha base).
Proof.
  unfold createRevertBranch. apply keeps_bind; [apply git_keeps; constructor|]. intros baseSha.
  apply keeps_bind; [apply keeps_existing|]. intros existing.
  apply keeps_bind.
  { case_bool_decide; [|apply keeps_ret]. apply keeps_bind; [apply keeps_drop|]. intros _. apply keeps_existing. }
  intros existing'. destruct (truthy existing'); [apply keeps_ret|].
  apply keeps_bind; [apply git_keeps; constructor|]. intros line. cbn zeta. intros w Hw.
  unfold mbind at 1, io_bind at 1. destruct (mkdtemp_fresh w Hw) as [Hw' Hd].
  destruct (mkdtemp w) as [w' [dir|e]]; [|done]. simpl in Hw', Hd. specialize (Hd dir eq_refl).
  apply keeps_bind; [by apply keeps_attempt, keeps_build| |done].
  intros built. apply keeps_bind; [|intros r; apply keeps_bind; [by apply keeps_ignore|intros _; apply keeps_ret]].
  destruct built as [r|message]; [apply keeps_ret|].
  apply keeps_bind; [apply keeps_ignore, keeps_remove|]. intros _.
  apply keeps_bind; [apply keeps_drop|]. intros _. apply keeps_ret.
Qed.
End RealGit.

Lemma keeps_check (I : W -> Prop) entry mergedSha preMergeSha smoke policy git queue :
  (forall sha, keeps I (smoke sha)) -> (forall ref, keeps I (pg_resolveRef git ref)) ->
  (forall base, keeps I (pg_createRevertBranch git (revertBranchName entry mergedSha) mergedSha base)) ->
  (forall enqueue e, queue = Some enqueue -> keeps I (enqueue e)) ->
  keeps I (postMergeCheck entry mergedSha preMergeSha smoke policy git queue).
Proof.
  intros Hs Hr Hc Hq. unfold postMergeCheck. case_bool_decide; [by intros w Hw|].
  apply keeps_bind; [done|]. intros [|]; [apply keeps_ret|].
  apply keeps_bind; [done|]. intros [|]; [|apply keeps_ret]. cbn [negb].
  case_bool_decide; [apply keeps_ret|]. apply keeps_bind; [done|]. intros base.
  apply keeps_bind; [done|]. intros [sha created|reason]; [|apply keeps_ret].
  case_bool_decide; [apply keeps_ret|]. destruct queue as [enqueue|]; [|apply keeps_ret].
  apply keeps_bind; [by apply Hq|]. intros q. destruct (pr_ok q); apply keeps_ret.
Qed.
End Check.

(** The results in which no revert was enqueued. *)
Ltac no_revert :=
  match goal with
  | H : _ = (_, Ok _) |- _ => injection H as <- <-; split; [intros ? Hr; simplify_eq/=; eauto 8|intros Hr; discriminate Hr]
  end.

(** Nothing here rewrites history: whatever the policy, the answers and the
    failures on the way, a fact about the repository that survives the commands that
    touch only the revert branch (and the smoke command and the queue) survives the
    whole check. *)
Theorem check_preserves_history {W} (I : W -> Prop) (git : string -> list string -> W -> W * res string string)
    mkdtemp rmdir repoDir entry mergedSha preMergeSha smoke policy queue w :
  (forall cwd args, touches_only repoDir (revertBranchName entry mergedSha) cwd args -> keeps I (git cwd args)) ->
  (forall dir, keeps I (rmdir dir)) ->
  (forall w, I w -> I (mkdtemp w).1 /\ forall dir, (mkdtemp w).2 = Ok dir -> dir <> repoDir) ->
  (forall sha, keeps I (smoke sha)) ->
  (forall enqueue e, queue = Some enqueue -> keeps I (enqueue e)) ->
  I w ->
  I (postMergeCheck entry mergedSha preMergeSha smoke policy (gitPostMerge git mkdtemp rmdir repoDir) queue w).1.
Proof.
  intros Hg Hr Hm Hs Hq. apply keeps_check; [done| | |done].
  - intros ref. apply Hg. constructor.
  - intros base. by apply keeps_create.
Qed.

(** A revert is prepared only for a regression of this merge, and lands only
    through the queue: if the check reports a revert branch, the smoke command failed
    at the merged commit and passed at the one before it, and the policy is not
    [off]; if it reports the revert as enqueued, the policy is [auto] and the queue
    accepted the entry for the prepared commit, bound to the target's tip at that
    moment. *)
Theorem revert_only_when_attributable {W} entry mergedSha preMergeSha (smoke : string -> Fence.io (W := W) bool) policy git queue w w' r :
  postMergeCheck entry mergedSha preMergeSha smoke policy git queue w = (w', Ok r) ->
  (forall b, revertBranch r = Some b ->
     b = revertBranchName entry mergedSha /\ nullish policy DEFAULT_REVERT_POLICY <> off /\
     exists w1 w2, smoke mergedSha w = (w1, Ok false) /\ smoke preMergeSha w1 = (w2, Ok true)) /\
  (enqueued r = true ->
     nullish policy DEFAULT_REVERT_POLICY = auto /\
     exists enqueue base sha w2 w3 w4 created answer,
       queue = Some enqueue /\ pg_resolveRef git (qe_target entry) w2 = (w3, Ok base) /\
       pg_createRevertBranch git (revertBranchName entry mergedSha) mergedSha base w3 = (w4, Ok (prepared sha created)) /\
       enqueue (mkEntry (revertBranchName entry mergedSha) (qe_target entry) sha base) w4 = (w', Ok answer) /\ pr_ok answer = true).
Proof.
  unfold postMergeCheck. case_bool_decide as Hne; [discriminate|]. intros H.
  apply io_bind_ok in H as (p1 & w1 & Hs1 & H). destruct p1; [by no_revert|].
  apply io_bind_ok in H as (p2 & w2 & Hs2 & H). destruct p2; cbn [negb] in H; [|by no_revert].
  case_bool_decide as Hoff; [by no_revert|].
  apply io_bind_ok in H as (tip & w3 & Hb & H). apply io_bind_ok in H as (rv & w4 & Hc & H).
  destruct rv as [sha created|reason]; [|by no_revert].
  case_bool_decide as Hp; [by no_revert|]. destruct queue as [enqueue|]; [|by no_revert].
  apply io_bind_ok in H as (q & w5 & Hq & H).
  assert (nullish policy DEFAULT_REVERT_POLICY = auto) as Ha by (by destruct (nullish policy DEFAULT_REVERT_POLICY)).
  destruct (pr_ok q) eqn:Eq; [|by no_revert]. injection H as <- <-.
  split; [intros b Hb'; simplify_eq/=; eauto 8|]. intros _. split; [done|].
  by exists enqueue, tip, sha, w2, w3, w4, created, q.
Qed.

(** *** Samples *)
Module CheckSamples.
Definition Refs : Type := jsmap string string.
Definition is_cmd (cmd : string) (args : list string) : bool := bool_decide (head args = Some cmd).
Definition query (args : list string) (w : Refs) : res string string :=
  if is_cmd "rev-list" args then Ok "m2 m1"
  else if is_cmd "config" args then Ok "me@example.org"
  else if bool_decide (args = ["rev-parse"; "HEAD"]) then Ok "r1"
  else if bool_decide (args !! 2%nat = Some "--quiet")
       then match args !! 3%nat ≫= fun ref => map_get ref w with Some sha => Ok sha | None => Err "unknown" end
  else Ok (nullish (map_get "refs/heads/main" w) "").
Definition run_git (cwd : string) (args : list string) (w : Refs) : Refs * res string string :=
  if is_cmd "update-ref" args then
    match args with
    | [_; _; ref; sha] => if bool_decide (map_get ref w = Some sha) then (map_delete ref w, Ok "") else (w, Err "moved")
    | _ => (w, Err "usage")
    end
  else if is_cmd "worktree" args then
    match args with
    | [_; _; _; _; b; _; onto] => (map_set ("refs/heads/" +:+ b) onto w, Ok "")
    | _ => (w, Ok "")
    end
  else (w, query args w).
Definition repo : Refs := [("refs/heads/main", "m2")].
Definition tmp (w : Refs) : Refs * res string string := (w, Ok "/tmp/d").
Definition rm (_ : string) (w : Refs) : Refs * res string unit := (w, Ok tt).
Definition red_at (sha : string) (s : string) (w : Refs) : Refs * res string bool := (w, Ok (negb (bool_decide (s = sha)))).
Definition merged_entry : QueueEntry := mkEntry "feature/login" "main" "h" "m1".
Definition main_is_m2 (w : Refs) : Prop := map_get "refs/heads/main" w = Some "m2".
Definition real_git := gitPostMerge run_git tmp rm "/repo".

Lemma revert_only_when_attributable_witness :
  exists w1 w2, red_at "m2" "m2" repo = (w1, Ok false) /\ red_at "m2" "m1" w1 = (w2, Ok true).
Proof.
  destruct (postMergeCheck merged_entry "m2" "m1" (red_at "m2") None real_git None repo) as [w' r] eqn:E.
  destruct r as [r|e]; [|vm_compute in E; discriminate E].
  destruct (revert_only_when_attributable merged_entry "m2" "m1" (red_at "m2") None real_git None repo w' r E) as [H _].
  vm_compute in E. destruct (H "revert/feature-login-m2") as (_ & _ & Hw); [by simplify_eq|exact Hw].
Defined.

Lemma check_preserves_history_witness :
  main_is_m2 (postMergeCheck merged_entry "m2" "m1" (red_at "m2") None real_git None repo).1.
Proof.
  apply (check_preserves_history main_is_m2 run_git tmp rm "/repo").
  - intros cwd args Ha w Hw. unfold main_is_m2 in *.
    assert (revertBranchName merged_entry "m2" = "revert/feature-login-m2") as Hn by (vm_compute; reflexivity).
    rewrite Hn in Ha. destruct Ha; try exact Hw; unfold run_git; cbn.
    + change (is_cmd "update-ref" _) with true. cbn. case_bool_decide; [|exact Hw]. cbn [fst]. by rewrite map_get_delete_ne.
    + change (is_cmd "update-ref" _) with false. change (is_cmd "worktree" _) with true. cbn. by rewrite map_get_set_ne.
  - intros dir w Hw. exact Hw.
  - intros w Hw. split; [exact Hw|]. intros dir Hd. unfold tmp in Hd. simpl in Hd. by simplify_eq.
  - intros sha w Hw. exact Hw.
  - intros enqueue e He. discriminate He.
  - reflexivity.
Defined.
End CheckSamples.
End Check.
