(* ===== verification/MissionStore.v ===== *)
(** * The mission store (src/orchestration/missionStore.ts)

    Missions, tasks, executions, findings, failure classifications, recovery
    decisions, supersessions, stops and resumptions, kept in memory by the mutators
    and rebuilt from the events they append. A mutator checks its guards, writes the
    tables and emits an event; [emit] advances the mission's revision, queues the
    event and leaves the write to the drain. [apply] is the replay of one event.

    The store is a record of the tables of the class; a mutator is a computation of
    a state and error monad that keeps the writes made before a throw. Readings of
    the clock and fresh ids are drawn from two sequences. Fields of a mission or
    execution that no operation changes are grouped in its [spec], and those of a
    task likewise, with the two that a switch of its model changes: what it requires
    of its executions and the commit they start from. Not in this file: leases (file Ownership), candidates and their evidence, checkpoints,
    handoffs, specifications, plans, GitHub links and the lineage hooks. *)

From S2P Require Import Prelude JsMap LedgerView Regex CompletionGate Workset MissionLifecycle Ownership FailureRecovery.
Export FailureRecovery.Classify FailureRecovery.Planner.

Open Scope string_scope.
Open Scope Z_scope.

#[export] Existing Instances Mission.MissionStatus_eq_dec Task.TaskStatus_eq_dec.

(** ** Entities: orchestration/types.ts *)

Record OperatorModelPin := mkPin { pin_provider : string; pin_id : string; pin_set_at : string; pin_implicit : bool }.
#[export] Instance OperatorModelPin_eq_dec : EqDecision OperatorModelPin.
Proof. solve_decision. Defined.

Inductive CriterionStatus := c_pending | c_passed | c_failed.
Record AcceptanceCriterion := mkCriterion {
  ac_acceptance_id : option string; ac_criterion : string; ac_status : CriterionStatus; ac_evidence : option string }.

Record MissionSpec := mkMissionSpec {
  mission_id : string;
  title : string;
  goal : string;
  user_request : string;
  repository : string;
  base_ref : string;
  risk_profile : string;
  workflow_class : string;
  created_at : string;
  parent_session_id : option string
}.

Record Mission := mkMission {
  m_spec : MissionSpec;
  m_revision : Z;
  m_constraints : list string;
  m_acceptance_criteria : list AcceptanceCriterion;
  m_status : Mission.MissionStatus;
  m_updated_at : string;
  m_task_ids : list string;
  m_artifact_refs : list string;
  m_decision_refs : list string;
  m_required_gates : list string;
  m_failure_reason : option string;
  m_completed_at : option string;
  m_blocked_at : option string;
  m_blocked_episode_id : option string;
  m_operator_model_pin : option OperatorModelPin;
  m_operator_model_decided_at : option string;
  m_operator_paused_at : option string;
  m_execution_mode : option (string * string)
}.
Definition m_id (m : Mission) : string := mission_id (m_spec m).

(** A [Partial<Mission>] as the operations write them: [None] is an absent key. *)
Record MissionPatch := mkPatch {
  p_status : option Mission.MissionStatus;
  p_updated_at : option string;
  p_blocked : option (string * string);
  p_acceptance_criteria : option (list AcceptanceCriterion);
  p_constraints : option (list string);
  p_artifact_refs : option (list string);
  p_decision_refs : option (list string);
  p_required_gates : option (list string);
  p_operator_model_pin : option (option OperatorModelPin);
  p_operator_model_decided_at : option (option string);
  p_operator_paused_at : option (option string);
  p_execution_mode : option (string * string)
}.
Definition empty_patch : MissionPatch := mkPatch None None None None None None None None None None None None.

(** [{ ...m, ...patch }] *)
Definition patched (m : Mission) (p : MissionPatch) : Mission :=
  mkMission (m_spec m) (m_revision m) (nullish (p_constraints p) (m_constraints m))
    (nullish (p_acceptance_criteria p) (m_acceptance_criteria m)) (nullish (p_status p) (m_status m))
    (nullish (p_updated_at p) (m_updated_at m)) (m_task_ids m) (nullish (p_artifact_refs p) (m_artifact_refs m))
    (nullish (p_decision_refs p) (m_decision_refs m)) (nullish (p_required_gates p) (m_required_gates m)) (m_failure_reason m)
    (m_completed_at m) (match p_blocked p with Some (at_, _) => Some at_ | None => m_blocked_at m end)
    (match p_blocked p with Some (_, id) => Some id | None => m_blocked_episode_id m end)
    (nullish (p_operator_model_pin p) (m_operator_model_pin m)) (nullish (p_operator_model_decided_at p) (m_operator_model_decided_at m))
    (nullish (p_operator_paused_at p) (m_operator_paused_at m))
    (match p_execution_mode p with Some e => Some e | None => m_execution_mode m end).
Definition touched (at_ : string) (m : Mission) : Mission :=
  mkMission (m_spec m) (m_revision m) (m_constraints m) (m_acceptance_criteria m) (m_status m) at_ (m_task_ids m) (m_artifact_refs m)
    (m_decision_refs m) (m_required_gates m) (m_failure_reason m) (m_completed_at m) (m_blocked_at m) (m_blocked_episode_id m)
    (m_operator_model_pin m) (m_operator_model_decided_at m) (m_operator_paused_at m) (m_execution_mode m).
Definition ended (st : Mission.MissionStatus) (reason : option string) (done at_ : string) (m : Mission) : Mission :=
  mkMission (m_spec m) (m_revision m) (m_constraints m) (m_acceptance_criteria m) st at_ (m_task_ids m) (m_artifact_refs m)
    (m_decision_refs m) (m_required_gates m) (match reason with Some r => Some r | None => m_failure_reason m end) (Some done)
    (m_blocked_at m) (m_blocked_episode_id m) (m_operator_model_pin m) (m_operator_model_decided_at m) (m_operator_paused_at m)
    (m_execution_mode m).
Definition with_task (tid at_ : string) (m : Mission) : Mission :=
  mkMission (m_spec m) (m_revision m) (m_constraints m) (m_acceptance_criteria m) (m_status m) at_ (m_task_ids m ++ [tid])
    (m_artifact_refs m) (m_decision_refs m) (m_required_gates m) (m_failure_reason m) (m_completed_at m) (m_blocked_at m)
    (m_blocked_episode_id m) (m_operator_model_pin m) (m_operator_model_decided_at m) (m_operator_paused_at m) (m_execution_mode m).
Definition with_revision (r : Z) (m : Mission) : Mission :=
  mkMission (m_spec m) r (m_constraints m) (m_acceptance_criteria m) (m_status m) (m_updated_at m) (m_task_ids m) (m_artifact_refs m)
    (m_decision_refs m) (m_required_gates m) (m_failure_reason m) (m_completed_at m) (m_blocked_at m) (m_blocked_episode_id m)
    (m_operator_model_pin m) (m_operator_model_decided_at m) (m_operator_paused_at m) (m_execution_mode m).

Record TaskRecoveryAuthority := mkRecoveryAuthority {
  ra_recoveryDecisionId : string;
  ra_expectedReplacementFingerprint : string;
  ra_originalTaskId : string;
  ra_originalExecutionId : string;
  ra_checkpointId : string;
  ra_supersessionId : string;
  ra_resumptionGeneration : Z
}.

Inductive IsolationMode := iso_none | iso_worktree.
Inductive FailurePolicy := fp_retry | fp_replan | fp_repair | fp_block | fp_ask_user.

Record TaskSpec := mkTaskSpec {
  task_id : string;
  t_mission_id : string;
  t_kind : TaskKind;
  t_role : string;
  t_objective : string;
  t_depends_on : list string;
  t_priority : Z;
  t_mutates_repo : bool;
  t_write_domains : list string;
  t_isolation : IsolationMode;
  t_execution_requirements : json;
  t_artifacts : list string;
  t_max_attempts : Z;
  t_failure_policy : FailurePolicy;
  t_created_at : string;
  t_repo_id : option string;
  t_acceptance_ids : list string;
  t_deliverables : list string;
  t_execution_budget_ms : option Z;
  t_checkpoint_policy : option (Z * Z);
  t_required_output_artifacts : list string;
  t_candidate_generation : option Z;
  t_recovery_authority : option TaskRecoveryAuthority;
  t_repair_base_candidate_sha : option string;
  t_replacement_spec_fingerprint : option string;
  t_context_ref : option string
}.

Record OrchestrationTask := mkTask {
  t_spec : TaskSpec;
  t_status : Task.TaskStatus;
  t_assigned_execution_id : option string;
  t_attempt : Z;
  t_started_at : option string;
  t_completed_at : option string;
  t_steer_requests : list string;
  t_mission_generation : option Z;
  t_resumption_generation : option Z;
  t_fencing_token : option Z;
  t_failure_reason : option string
}.
Definition t_id (t : OrchestrationTask) : string := task_id (t_spec t).
Definition t_mission (t : OrchestrationTask) : string := t_mission_id (t_spec t).

(** [assigned_execution_id] of the metadata may be absent, null or an id. *)
Record TaskTransitionMetadata := mkMetadata {
  md_attempt : option Z; md_assigned_execution_id : option (option string); md_failure_reason : option string }.
Definition no_metadata : TaskTransitionMetadata := mkMetadata None None None.

Inductive ExecutionStatus := x_PENDING | x_RUNNING | x_SUCCEEDED | x_FAILED | x_CANCELED.
#[export] Instance ExecutionStatus_eq_dec : EqDecision ExecutionStatus.
Proof. solve_decision. Defined.

Record RecoveredMerge := mkRecoveredMerge { rm_task_id : string; rm_branch : string; rm_ref : string }.

Record ExecutionSpec := mkExecutionSpec {
  execution_id : string;
  x_task_id : string;
  x_mission_id : string;
  x_backend : string;
  x_mission_generation : option Z;
  x_resumption_generation : option Z;
  x_fencing_token : option Z;
  x_checkpoint_id : option string;
  x_repo_id : option string;
  x_base_sha : option string;
  x_candidate_generation : option Z
}.

Record ExecutionData := mkExecutionData {
  x_session_id : option string;
  x_pid : option Z;
  x_worktree : option string;
  x_model : option string;
  x_thinking_level : option string;
  x_usage : json;
  x_logs : list string;
  x_artifact_refs : list string;
  x_error : option string;
  x_summary : option string;
  x_recovered_merged : option (list RecoveredMerge);
  x_reviewed_recovered : option (list string);
  x_already_satisfied : option AlreadySatisfied
}.

Record Execution := mkExecution {
  x_spec : ExecutionSpec;
  x_data : ExecutionData;
  x_started_at : option string;
  x_ended_at : option string;
  x_exit_status : option string;
  x_status : ExecutionStatus
}.
Definition x_id (x : Execution) : string := execution_id (x_spec x).
Definition x_mission (x : Execution) : string := x_mission_id (x_spec x).
Definition x_task (x : Execution) : string := x_task_id (x_spec x).

Inductive FindingStatus := fs_open | fs_accepted | fs_resolved.
Record ReviewFinding := mkFinding {
  f_finding_id : string;
  f_mission_id : string;
  f_task_id : option string;
  f_severity : string;
  f_category : string;
  f_file : option string;
  f_line : option Z;
  f_summary : string;
  f_evidence : option string;
  f_recommended_action : string;
  f_status : FindingStatus;
  f_created_at : string
}.

Record RepositoryWait := mkWait { rw_missionId : string; rw_repoId : string; rw_holderMissionId : string; rw_holderOwnerId : string }.

Record TaskSupersession := mkSupersession {
  su_supersessionId : string;
  su_missionId : string;
  su_failedTaskId : string;
  su_replacementTaskIds : list string;
  su_repoId : string;
  su_acceptanceIds : list string;
  su_coverageFingerprint : option string;
  su_reason : string;
  su_createdAt : string;
  su_recoveryDecisionId : option string;
  su_expectedReplacementFingerprints : option (@jsmap string string)
}.

Inductive ResumptionOrigin := by_operator | by_model | automatic.
Record MissionResumption := mkResumption {
  re_missionId : string; re_reason : string; re_resumedAt : string; re_generation : Z; re_stopGeneration : Z;
  re_origin : option ResumptionOrigin }.

Record MissionRevisionFence := mkFence {
  fence_revision : Z; fence_status : Mission.MissionStatus; fence_resumptionGeneration : Z; fence_blockedEpisodeId : option string }.
#[export] Instance MissionRevisionFence_eq_dec : EqDecision MissionRevisionFence.
Proof. solve_decision. Defined.

Record MissionStop := mkStop {
  ps_missionId : string;
  ps_reason : string;
  ps_preservedWork : list string;
  ps_attemptedRecoveries : list string;
  ps_resumeCondition : string;
  ps_stoppedAt : string;
  ps_generation : Z;
  ps_resumptionGeneration : Z;
  ps_blockedEpisodeId : option string;
  ps_recoveryDeadline : option string;
  ps_queue : option json;
  ps_settlementIdentity : option MissionRevisionFence
}.

Record DiskSuspendEpisode := mkEpisode {
  de_episodeId : string; de_missionId : string; de_incidentPath : option string; de_taskIds : list string; de_markedAt : string;
  de_resolvedAt : option string }.

(** ** Canonical lifecycle: orchestration/canonicalLifecycle.ts *)

Inductive CanonicalLifecycleState :=
  | cl_CREATED | cl_PLANNED | cl_READY | cl_RUNNING | cl_VALIDATING | cl_REVIEWING | cl_REPAIRING | cl_MERGE_QUEUED | cl_MERGING
  | cl_MERGED | cl_FINALIZING | cl_ARCHIVED | cl_BLOCKED | cl_PAUSED | cl_FAILED | cl_CANCELLED | cl_RECOVERING
  | cl_RETAINED_FOR_DIAGNOSTICS.
#[export] Instance CanonicalLifecycleState_eq_dec : EqDecision CanonicalLifecycleState.
Proof. solve_decision. Defined.

Definition LIFECYCLE_SCHEMA_VERSION : Z := 1.

Definition toCanonical (s : Mission.MissionStatus) : CanonicalLifecycleState :=
  match s with
  | Mission.NEW | Mission.CLASSIFYING => cl_CREATED
  | Mission.PLANNING => cl_PLANNED
  | Mission.READY | Mission.QUEUED => cl_READY
  | Mission.STARTING | Mission.EXECUTING | Mission.INTEGRATING => cl_RUNNING
  | Mission.VALIDATING | Mission.FINAL_VALIDATION => cl_VALIDATING
  | Mission.REVIEWING => cl_REVIEWING
  | Mission.REPAIRING => cl_REPAIRING
  | Mission.COMPLETE => cl_MERGED
  | Mission.WAITING_FOR_USER | Mission.WAITING_FOR_LLM | Mission.WAITING_FOR_CAPACITY | Mission.WAITING_FOR_GATEWAY
  | Mission.WAITING_FOR_MODEL | Mission.WAITING_FOR_TOOL | Mission.PAUSED_INFRASTRUCTURE => cl_PAUSED
  | Mission.RECOVERING_CONTEXT | Mission.RECOVERING_PROCESS => cl_RECOVERING
  | Mission.NEEDS_ATTENTION | Mission.BLOCKED => cl_BLOCKED
  | Mission.CANCELING | Mission.CANCELED => cl_CANCELLED
  | Mission.FAILED => cl_FAILED
  end.

Definition CANONICAL_ONLY_STATES : list CanonicalLifecycleState :=
  [cl_MERGE_QUEUED; cl_MERGING; cl_FINALIZING; cl_ARCHIVED; cl_RETAINED_FOR_DIAGNOSTICS].
Definition isCanonicalTerminal (s : CanonicalLifecycleState) : bool := js_includes s [cl_ARCHIVED; cl_FAILED; cl_CANCELLED].

Record CanonicalLifecycleRecord := mkCanonical {
  cr_status : Mission.MissionStatus; cr_canonicalState : CanonicalLifecycleState; cr_lifecycleSchemaVersion : Z }.

(** ** Events *)

Inductive TaskEventType := task_ready | task_started | task_completed | task_failed | task_retried | task_canceled.
Inductive ExecutionEventType := execution_created | execution_started | execution_completed | execution_failed | execution_canceled.
#[export] Instance ExecutionEventType_eq_dec : EqDecision ExecutionEventType.
Proof. solve_decision. Defined.

(** The payloads of the modelled events, named by their types. [ev_other]: an event
    of a type whose tables are not in this file; [ev_routing_decided] is the one type
    that does not count as a revision. *)
Inductive Payload :=
  | mission_created (m : Mission)
  | mission_updated (missionId : string) (patch : MissionPatch) (lifecycle : option (CanonicalLifecycleState * Z))
  | mission_completed (missionId : string)
  | mission_failed (missionId : string) (failure_reason : string)
  | task_created (t : OrchestrationTask)
  | task_event (type : TaskEventType) (taskId : string) (status : Task.TaskStatus) (extra : TaskTransitionMetadata)
  | task_steered (taskId request : string)
  | task_authority_assigned (taskId : string) (mission_generation resumption_generation fencing_token : option Z)
      (assigned_execution_id : option string)
  | task_model_switched (taskId : string) (model resume_from_sha : option string)
  | execution_event (type : ExecutionEventType) (x : Execution)
  | execution_legacy (type : ExecutionEventType) (executionId : string) (status : ExecutionStatus)
      (exit_status ended_at : option (option string))
  | execution_late_result_rejected (x : Execution) (reason : string)
  | execution_orphaned (x : Execution)
  | execution_reconciled (x : Execution)
  | finding_created (f : ReviewFinding)
  | finding_resolved (findingId : string)
  | repository_wait (taskId : string) (wait : RepositoryWait)
  | repository_wait_cleared (taskId : string)
  | failure_classified (c : FailureClassification)
  | recovery_event (status : RecoveryStatus) (d : RecoveryDecision) (mission_patch : option MissionPatch)
      (lifecycle : option (CanonicalLifecycleState * Z))
  | task_superseded (su : TaskSupersession)
  | mission_resumed (r : MissionResumption) (selectedModel : option OperatorModelPin)
  | mission_stopped (st : MissionStop)
  | disk_suspend_marked (e : DiskSuspendEpisode)
  | disk_suspend_resolved (episodeId resolvedAt : string)
  | ev_other (type : string)
  | ev_routing_decided.

Record OrchestrationEvent := mkEvent { ev_id : string; ev_mission_id : string; ev_timestamp : string; ev_payload : Payload }.

Record MissionPersistenceDiagnostic := mkDiagnostic { dg_eventId : string; dg_missionId : string; dg_eventTimestamp : string; dg_message : string }.
Definition MAX_PERSISTENCE_DIAGNOSTICS : nat := 50.

(** ** The tables *)

Record Store := mkStore {
  missions : @jsmap string Mission;
  canonicalRecords : @jsmap string CanonicalLifecycleRecord;
  tasks : @jsmap string OrchestrationTask;
  repositoryWaits : @jsmap string RepositoryWait;
  executions : @jsmap string Execution;
  findings : @jsmap string ReviewFinding;
  failureClassifications : @jsmap string FailureClassification;
  recoveryDecisions : @jsmap string RecoveryDecision;
  taskSupersessions : @jsmap string TaskSupersession;
  authoritativeExecutionStartOrder : @jsmap string Z;
  executionStartSequence : Z;
  executionRejectionReasons : @jsmap string string;
  missionResumptions : list MissionResumption;
  missionStops : list MissionStop;
  diskSuspendEpisodes : list DiskSuspendEpisode;
  persistenceErrors : list MissionPersistenceDiagnostic;
  durable : list OrchestrationEvent;
  pendingWrites : list OrchestrationEvent;
  clock : nat;
  id_seq : nat
}.

Definition on_missions (f : @jsmap string Mission -> @jsmap string Mission) (s : Store) : Store :=
  mkStore (f (missions s)) (canonicalRecords s) (tasks s) (repositoryWaits s) (executions s) (findings s)
    (failureClassifications s) (recoveryDecisions s) (taskSupersessions s)
    (authoritativeExecutionStartOrder s) (executionStartSequence s) (executionRejectionReasons s)
    (missionResumptions s) (missionStops s) (diskSuspendEpisodes s) (persistenceErrors s) (durable s)
    (pendingWrites s) (clock s) (id_seq s).
Definition on_canonicalRecords (f : @jsmap string CanonicalLifecycleRecord -> @jsmap string CanonicalLifecycleRecord) (s : Store) : Store :=
  mkStore (missions s) (f (canonicalRecords s)) (tasks s) (repositoryWaits s) (executions s) (findings s)
    (failureClassifications s) (recoveryDecisions s) (taskSupersessions s)
    (authoritativeExecutionStartOrder s) (executionStartSequence s) (executionRejectionReasons s)
    (missionResumptions s) (missionStops s) (diskSuspendEpisodes s) (persistenceErrors s) (durable s)
    (pendingWrites s) (clock s) (id_seq s).
Definition on_tasks (f : @jsmap string OrchestrationTask -> @jsmap string OrchestrationTask) (s : Store) : Store :=
  mkStore (missions s) (canonicalRecords s) (f (tasks s)) (repositoryWaits s) (executions s) (findings s)
    (failureClassifications s) (recoveryDecisions s) (taskSupersessions s)
    (authoritativeExecutionStartOrder s) (executionStartSequence s) (executionRejectionReasons s)
    (missionResumptions s) (missionStops s) (diskSuspendEpisodes s) (persistenceErrors s) (durable s)
    (pendingWrites s) (clock s) (id_seq s).
Definition on_repositoryWaits (f : @jsmap string RepositoryWait -> @jsmap string RepositoryWait) (s : Store) : Store :=
  mkStore (missions s) (canonicalRecords s) (tasks s) (f (repositoryWaits s)) (executions s) (findings s)
    (failureClassifications s) (recoveryDecisions s) (taskSupersessions s)
    (authoritativeExecutionStartOrder s) (executionStartSequence s) (executionRejectionReasons s)
    (missionResumptions s) (missionStops s) (diskSuspendEpisodes s) (persistenceErrors s) (durable s)
    (pendingWrites s) (clock s) (id_seq s).
Definition on_executions (f : @jsmap string Execution -> @jsmap string Execution) (s : Store) : Store :=
  mkStore (missions s) (canonicalRecords s) (tasks s) (repositoryWaits s) (f (executions s)) (findings s)
    (failureClassifications s) (recoveryDecisions s) (taskSupersessions s)
    (authoritativeExecutionStartOrder s) (executionStartSequence s) (executionRejectionReasons s)
    (missionResumptions s) (missionStops s) (diskSuspendEpisodes s) (persistenceErrors s) (durable s)
    (pendingWrites s) (clock s) (id_seq s).
Definition on_findings (f : @jsmap string ReviewFinding -> @jsmap string ReviewFinding) (s : Store) : Store :=
  mkStore (missions s) (canonicalRecords s) (tasks s) (repositoryWaits s) (executions s) (f (findings s))
    (failureClassifications s) (recoveryDecisions s) (taskSupersessions s)
    (authoritativeExecutionStartOrder s) (executionStartSequence s) (executionRejectionReasons s)
    (missionResumptions s) (missionStops s) (diskSuspendEpisodes s) (persistenceErrors s) (durable s)
    (pendingWrites s) (clock s) (id_seq s).
Definition on_failureClassifications (f : @jsmap string FailureClassification -> @jsmap string FailureClassification) (s : Store) : Store :=
  mkStore (missions s) (canonicalRecords s) (tasks s) (repositoryWaits s) (executions s) (findings s)
    (f (failureClassifications s)) (recoveryDecisions s) (taskSupersessions s)
    (authoritativeExecutionStartOrder s) (executionStartSequence s) (executionRejectionReasons s)
    (missionResumptions s) (missionStops s) (diskSuspendEpisodes s) (persistenceErrors s) (durable s)
    (pendingWrites s) (clock s) (id_seq s).
Definition on_recoveryDecisions (f : @jsmap string RecoveryDecision -> @jsmap string RecoveryDecision) (s : Store) : Store :=
  mkStore (missions s) (canonicalRecords s) (tasks s) (repositoryWaits s) (executions s) (findings s)
    (failureClassifications s) (f (recoveryDecisions s)) (taskSupersessions s)
    (authoritativeExecutionStartOrder s) (executionStartSequence s) (executionRejectionReasons s)
    (missionResumptions s) (missionStops s) (diskSuspendEpisodes s) (persistenceErrors s) (durable s)
    (pendingWrites s) (clock s) (id_seq s).
Definition on_taskSupersessions (f : @jsmap string TaskSupersession -> @jsmap string TaskSupersession) (s : Store) : Store :=
  mkStore (missions s) (canonicalRecords s) (tasks s) (repositoryWaits s) (executions s) (findings s)
    (failureClassifications s) (recoveryDecisions s) (f (taskSupersessions s))
    (authoritativeExecutionStartOrder s) (executionStartSequence s) (executionRejectionReasons s)
    (missionResumptions s) (missionStops s) (diskSuspendEpisodes s) (persistenceErrors s) (durable s)
    (pendingWrites s) (clock s) (id_seq s).
Definition on_authoritativeExecutionStartOrder (f : @jsmap string Z -> @jsmap string Z) (s : Store) : Store :=
  mkStore (missions s) (canonicalRecords s) (tasks s) (repositoryWaits s) (executions s) (findings s)
    (failureClassifications s) (recoveryDecisions s) (taskSupersessions s)
    (f (authoritativeExecutionStartOrder s)) (executionStartSequence s) (executionRejectionReasons s)
    (missionResumptions s) (missionStops s) (diskSuspendEpisodes s) (persistenceErrors s) (durable s)
    (pendingWrites s) (clock s) (id_seq s).
Definition on_executionStartSequence (f : Z -> Z) (s : Store) : Store :=
  mkStore (missions s) (canonicalRecords s) (tasks s) (repositoryWaits s) (executions s) (findings s)
    (failureClassifications s) (recoveryDecisions s) (taskSupersessions s)
    (authoritativeExecutionStartOrder s) (f (executionStartSequence s)) (executionRejectionReasons s)
    (missionResumptions s) (missionStops s) (diskSuspendEpisodes s) (persistenceErrors s) (durable s)
    (pendingWrites s) (clock s) (id_seq s).
Definition on_executionRejectionReasons (f : @jsmap string string -> @jsmap string string) (s : Store) : Store :=
  mkStore (missions s) (canonicalRecords s) (tasks s) (repositoryWaits s) (executions s) (findings s)
    (failureClassifications s) (recoveryDecisions s) (taskSupersessions s)
    (authoritativeExecutionStartOrder s) (executionStartSequence s) (f (executionRejectionReasons s))
    (missionResumptions s) (missionStops s) (diskSuspendEpisodes s) (persistenceErrors s) (durable s)
    (pendingWrites s) (clock s) (id_seq s).
Definition on_missionResumptions (f : list MissionResumption -> list MissionResumption) (s : Store) : Store :=
  mkStore (missions s) (canonicalRecords s) (tasks s) (repositoryWaits s) (executions s) (findings s)
    (failureClassifications s) (recoveryDecisions s) (taskSupersessions s)
    (authoritativeExecutionStartOrder s) (executionStartSequence s) (executionRejectionReasons s)
    (f (missionResumptions s)) (missionStops s) (diskSuspendEpisodes s) (persistenceErrors s) (durable s)
    (pendingWrites s) (clock s) (id_seq s).
Definition on_missionStops (f : list MissionStop -> list MissionStop) (s : Store) : Store :=
  mkStore (missions s) (canonicalRecords s) (tasks s) (repositoryWaits s) (executions s) (findings s)
    (failureClassifications s) (recoveryDecisions s) (taskSupersessions s)
    (authoritativeExecutionStartOrder s) (executionStartSequence s) (executionRejectionReasons s)
    (missionResumptions s) (f (missionStops s)) (diskSuspendEpisodes s) (persistenceErrors s) (durable s)
    (pendingWrites s) (clock s) (id_seq s).
Definition on_diskSuspendEpisodes (f : list DiskSuspendEpisode -> list DiskSuspendEpisode) (s : Store) : Store :=
  mkStore (missions s) (canonicalRecords s) (tasks s) (repositoryWaits s) (executions s) (findings s)
    (failureClassifications s) (recoveryDecisions s) (taskSupersessions s)
    (authoritativeExecutionStartOrder s) (executionStartSequence s) (executionRejectionReasons s)
    (missionResumptions s) (missionStops s) (f (diskSuspendEpisodes s)) (persistenceErrors s) (durable s)
    (pendingWrites s) (clock s) (id_seq s).
Definition on_persistenceErrors (f : list MissionPersistenceDiagnostic -> list MissionPersistenceDiagnostic) (s : Store) : Store :=
  mkStore (missions s) (canonicalRecords s) (tasks s) (repositoryWaits s) (executions s) (findings s)
    (failureClassifications s) (recoveryDecisions s) (taskSupersessions s)
    (authoritativeExecutionStartOrder s) (executionStartSequence s) (executionRejectionReasons s)
    (missionResumptions s) (missionStops s) (diskSuspendEpisodes s) (f (persistenceErrors s)) (durable s)
    (pendingWrites s) (clock s) (id_seq s).
Definition on_durable (f : list OrchestrationEvent -> list OrchestrationEvent) (s : Store) : Store :=
  mkStore (missions s) (canonicalRecords s) (tasks s) (repositoryWaits s) (executions s) (findings s)
    (failureClassifications s) (recoveryDecisions s) (taskSupersessions s)
    (authoritativeExecutionStartOrder s) (executionStartSequence s) (executionRejectionReasons s)
    (missionResumptions s) (missionStops s) (diskSuspendEpisodes s) (persistenceErrors s) (f (durable s))
    (pendingWrites s) (clock s) (id_seq s).
Definition on_pendingWrites (f : list OrchestrationEvent -> list OrchestrationEvent) (s : Store) : Store :=
  mkStore (missions s) (canonicalRecords s) (tasks s) (repositoryWaits s) (executions s) (findings s)
    (failureClassifications s) (recoveryDecisions s) (taskSupersessions s)
    (authoritativeExecutionStartOrder s) (executionStartSequence s) (executionRejectionReasons s)
    (missionResumptions s) (missionStops s) (diskSuspendEpisodes s) (persistenceErrors s) (durable s)
    (f (pendingWrites s)) (clock s) (id_seq s).
Definition on_clock (f : nat -> nat) (s : Store) : Store :=
  mkStore (missions s) (canonicalRecords s) (tasks s) (repositoryWaits s) (executions s) (findings s)
    (failureClassifications s) (recoveryDecisions s) (taskSupersessions s)
    (authoritativeExecutionStartOrder s) (executionStartSequence s) (executionRejectionReasons s)
    (missionResumptions s) (missionStops s) (diskSuspendEpisodes s) (persistenceErrors s) (durable s)
    (pendingWrites s) (f (clock s)) (id_seq s).
Definition on_id_seq (f : nat -> nat) (s : Store) : Store :=
  mkStore (missions s) (canonicalRecords s) (tasks s) (repositoryWaits s) (executions s) (findings s)
    (failureClassifications s) (recoveryDecisions s) (taskSupersessions s)
    (authoritativeExecutionStartOrder s) (executionStartSequence s) (executionRejectionReasons s)
    (missionResumptions s) (missionStops s) (diskSuspendEpisodes s) (persistenceErrors s) (durable s)
    (pendingWrites s) (clock s) (f (id_seq s)).

Definition empty_store : Store := mkStore [] [] [] [] [] [] [] [] [] [] 0 [] [] [] [] [] [] [] 0 0.

(** What a log of events describes: the durable ones and those still queued. *)
Definition log (s : Store) : list OrchestrationEvent := (durable s ++ pendingWrites s)%list.

Definition map_update {V} (k : string) (f : V -> V) (m : @jsmap string V) : @jsmap string V :=
  match map_get k m with Some v => map_set k (f v) m | None => m end.

(** ** Replay *)

Definition advanceMissionRevision (missionId : string) (s : Store) : Store :=
  on_missions (map_update missionId (fun m => with_revision (m_revision m + 1) m)) s.

Definition recordCanonical (missionId : string) (status : option Mission.MissionStatus)
    (lifecycle : option (CanonicalLifecycleState * Z)) (s : Store) : Store :=
  match status, lifecycle with
  | Some st, Some (c, v) => on_canonicalRecords (map_set missionId (mkCanonical st c v)) s
  | _, _ => s
  end.

Definition given (o : option string) : option string := match o with Some x => if truthy x then Some x else None | None => None end.
Definition opt_eq {A} `{EqDecision A} (a b : option A) : bool := bool_decide (a = b).

Definition recordAuthoritativeExecutionStart (x : Execution) (s : Store) : Store :=
  if map_has (x_id x) (authoritativeExecutionStartOrder s) then s
  else match map_get (x_task x) (tasks s) with
       | None => s
       | Some t =>
           if bool_decide (t_mission t = x_mission x) && opt_eq (t_assigned_execution_id t) (Some (x_id x)) &&
              opt_eq (t_mission_generation t) (x_mission_generation (x_spec x)) &&
              opt_eq (t_resumption_generation t) (x_resumption_generation (x_spec x)) &&
              opt_eq (t_candidate_generation (t_spec t)) (x_candidate_generation (x_spec x)) &&
              opt_eq (t_fencing_token t) (x_fencing_token (x_spec x))
           then on_authoritativeExecutionStartOrder (map_set (x_id x) (executionStartSequence s + 1))
                  (on_executionStartSequence (fun n => n + 1) s)
           else s
       end.

Definition LEGACY_AUTHORITY_LOSS : regex :=
  alts [(lit "stale " · words ["mission"; "repository"] · lit " " · words ["fencing"; "resumption"])%re;
        lit "lease expired"; lit "lease renewal failed"; lit "custody of another live session"].

(** The task after a transition to [to] at [at_]. *)
Definition transitioned (at_ : string) (to : Task.TaskStatus) (extra : TaskTransitionMetadata) (t : OrchestrationTask) : OrchestrationTask :=
  mkTask (t_spec t) to (match md_assigned_execution_id extra with Some a => a | None => t_assigned_execution_id t end)
    (nullish (md_attempt extra) (t_attempt t))
    (if bool_decide (to = Task.RUNNING) then Some at_ else t_started_at t)
    (if js_includes to [Task.SUCCEEDED; Task.FAILED; Task.CANCELED] then Some at_ else t_completed_at t)
    (t_steer_requests t) (t_mission_generation t) (t_resumption_generation t) (t_fencing_token t)
    (match md_failure_reason extra with Some r => Some r | None => t_failure_reason t end).
Definition steered (request : string) (t : OrchestrationTask) : OrchestrationTask :=
  mkTask (t_spec t) (t_status t) (t_assigned_execution_id t) (t_attempt t) (t_started_at t) (t_completed_at t)
    (t_steer_requests t ++ [request]) (t_mission_generation t) (t_resumption_generation t) (t_fencing_token t) (t_failure_reason t).
Definition authorized (mission_generation resumption_generation fencing_token : option Z) (assigned : option string)
    (t : OrchestrationTask) : OrchestrationTask :=
  mkTask (t_spec t) (t_status t) (match assigned with Some a => Some a | None => t_assigned_execution_id t end) (t_attempt t)
    (t_started_at t) (t_completed_at t) (t_steer_requests t) mission_generation
    (match resumption_generation with Some g => Some g | None => t_resumption_generation t end) fencing_token (t_failure_reason t).

(** [{ ...execution_requirements, model }]; the requirements are an object. *)
Definition requiring (model : string) (requirements : json) : json :=
  jobj (map_set "model" (jstr model) match requirements with jobj o => o | _ => [] end).
Definition required_model (requirements : json) : option json := match requirements with jobj o => field "model" o | _ => None end.
Definition with_requirements (requirements : json) (base : option string) (t : TaskSpec) : TaskSpec :=
  mkTaskSpec (task_id t) (t_mission_id t) (t_kind t) (t_role t) (t_objective t) (t_depends_on t) (t_priority t) (t_mutates_repo t)
    (t_write_domains t) (t_isolation t) requirements (t_artifacts t) (t_max_attempts t) (t_failure_policy t) (t_created_at t)
    (t_repo_id t) (t_acceptance_ids t) (t_deliverables t) (t_execution_budget_ms t) (t_checkpoint_policy t)
    (t_required_output_artifacts t) (t_candidate_generation t) (t_recovery_authority t) base (t_replacement_spec_fingerprint t)
    (t_context_ref t).
Definition respecified (spec : TaskSpec) (t : OrchestrationTask) : OrchestrationTask :=
  mkTask spec (t_status t) (t_assigned_execution_id t) (t_attempt t) (t_started_at t) (t_completed_at t)
    (t_steer_requests t) (t_mission_generation t) (t_resumption_generation t) (t_fencing_token t) (t_failure_reason t).
(** The task after [applyTaskModelSwitch]. *)
Definition model_switched (model resumeFromSha : option string) (t : OrchestrationTask) : OrchestrationTask :=
  let requirements := t_execution_requirements (t_spec t) in
  respecified (with_requirements (match model with Some m => requiring m requirements | None => requirements end)
                 (match given resumeFromSha with Some sha => Some sha | None => t_repair_base_candidate_sha (t_spec t) end) (t_spec t)) t.

Definition legacy_settled (at_ : string) (status : ExecutionStatus) (exit_status ended_at : option (option string)) (x : Execution) : Execution :=
  mkExecution (x_spec x) (x_data x) (if bool_decide (status = x_RUNNING) then Some at_ else x_started_at x)
    (nullish ended_at (x_ended_at x)) (nullish exit_status (x_exit_status x)) status.

Definition resolved (f : ReviewFinding) : ReviewFinding :=
  mkFinding (f_finding_id f) (f_mission_id f) (f_task_id f) (f_severity f) (f_category f) (f_file f) (f_line f) (f_summary f)
    (f_evidence f) (f_recommended_action f) fs_resolved (f_created_at f).

Definition with_model (pin : OperatorModelPin) (m : Mission) : Mission :=
  patched m (mkPatch None None None None None None None None (Some (Some pin)) (Some (Some (pin_set_at pin))) None None).

(** [xs[i] = x] at the first entry that matches, [xs.push(x)] when none does. *)
Fixpoint upsert (p : DiskSuspendEpisode -> bool) (e : DiskSuspendEpisode) (l : list DiskSuspendEpisode) : list DiskSuspendEpisode :=
  match l with [] => [e] | x :: l' => if p x then e :: l' else x :: upsert p e l' end.
(** The first entry that matches, changed in place. *)
Fixpoint update_first (p : DiskSuspendEpisode -> bool) (f : DiskSuspendEpisode -> DiskSuspendEpisode) (l : list DiskSuspendEpisode) :
    list DiskSuspendEpisode :=
  match l with [] => [] | x :: l' => if p x then f x :: l' else x :: update_first p f l' end.
Definition same_episode (id : string) (e : DiskSuspendEpisode) : bool := bool_decide (de_episodeId e = id).
Definition resolved_at (at_ : string) (e : DiskSuspendEpisode) : DiskSuspendEpisode :=
  mkEpisode (de_episodeId e) (de_missionId e) (de_incidentPath e) (de_taskIds e) (de_markedAt e) (Some at_).

Definition set_execution (x : Execution) : Store -> Store := on_executions (map_set (x_id x) x).
Definition set_mission (k : string) (m : Mission) : Store -> Store := on_missions (map_set k m).
Definition set_task (t : OrchestrationTask) : Store -> Store := on_tasks (map_set (t_id t) t).

Definition apply_payload (at_ : string) (p : Payload) (s : Store) : Store :=
  match p with
  | mission_created m => set_mission (m_id m) m s
  | mission_updated k patch lifecycle =>
      match map_get k (missions s) with
      | Some m => recordCanonical k (p_status patch) lifecycle (set_mission k (touched at_ (patched m patch)) s)
      | None => s
      end
  | mission_completed k => on_missions (map_update k (ended Mission.COMPLETE None at_ at_)) s
  | mission_failed k reason =>
      on_missions (map_update k (ended Mission.FAILED (if truthy reason then Some reason else None) at_ at_)) s
  | task_created t =>
      let s := set_task t s in
      match map_get (t_mission t) (missions s) with
      | Some m => if js_includes (t_id t) (m_task_ids m) then s
                  else set_mission (m_id m) (with_task (t_id t) (t_created_at (t_spec t)) m) s
      | None => s
      end
  | task_event _ k status extra => on_tasks (map_update k (transitioned at_ status extra)) s
  | task_steered k request => if truthy request then on_tasks (map_update k (steered request)) s else s
  | task_authority_assigned k mg rg ft a => on_tasks (map_update k (authorized mg rg ft a)) s
  | task_model_switched k model sha => on_tasks (map_update k (model_switched model sha)) s
  | execution_event type x =>
      let s := set_execution x s in
      if bool_decide (type = execution_started) then recordAuthoritativeExecutionStart x s else s
  | execution_legacy _ k status exit_status ended_at =>
      on_executions (map_update k (legacy_settled at_ status exit_status ended_at)) s
  | execution_late_result_rejected x reason =>
      let s := set_execution x s in
      if test LEGACY_AUTHORITY_LOSS reason then on_executionRejectionReasons (map_set (x_id x) reason) s else s
  | execution_orphaned x | execution_reconciled x => set_execution x s
  | finding_created f => on_findings (map_set (f_finding_id f) f) s
  | finding_resolved k => on_findings (map_update k resolved) s
  | repository_wait k w => on_repositoryWaits (map_set k w) s
  | repository_wait_cleared k => on_repositoryWaits (map_delete k) s
  | failure_classified c => on_failureClassifications (map_set (fc_classificationId c) c) s
  | recovery_event _ d patch lifecycle =>
      let s := on_recoveryDecisions (map_set (rd_recoveryId d) d) s in
      match patch, map_get (rd_missionId d) (missions s) with
      | Some patch, Some m => recordCanonical (rd_missionId d) (p_status patch) lifecycle (set_mission (rd_missionId d) (patched m patch) s)
      | _, _ => s
      end
  | task_superseded su => on_taskSupersessions (map_set (su_supersessionId su) su) s
  | mission_resumed r selected =>
      let s := on_missionResumptions (fun l => l ++ [r])%list s in
      match selected with Some pin => on_missions (map_update (re_missionId r) (with_model pin)) s | None => s end
  | mission_stopped st => on_missionStops (fun l => l ++ [st])%list s
  | disk_suspend_marked e => on_diskSuspendEpisodes (upsert (same_episode (de_episodeId e)) e) s
  | disk_suspend_resolved k t => on_diskSuspendEpisodes (update_first (same_episode k) (resolved_at t)) s
  | ev_other _ | ev_routing_decided => s
  end.

Definition counts_as_revision (p : Payload) : bool := match p with ev_routing_decided => false | _ => true end.

Definition apply (e : OrchestrationEvent) (s : Store) : Store :=
  let s := apply_payload (ev_timestamp e) (ev_payload e) s in
  if counts_as_revision (ev_payload e) then advanceMissionRevision (ev_mission_id e) s else s.

Definition replayEvents (es : list OrchestrationEvent) (s : Store) : Store := foldl (fun s e => apply e s) s es.

(** [MissionStore.open(backend)] on a backend that holds [es]. *)
Definition open_ (es : list OrchestrationEvent) : Store := on_durable (fun _ => es) (replayEvents es empty_store).

(** ** Computations *)

Inductive StoreError :=
  | unknown_mission_ (k : string) | unknown_task (k : string) | unknown_execution (k : string) | unknown_recovery (k : string)
  | unknown_classification (k : string)
  | repair_needs_decision | recovery_cannot_repair (k : string) | recovery_not_planned (k : string) (st : RecoveryStatus)
  | recovery_other_episode (k : string)
  | illegal_mission_transition (from to : Mission.MissionStatus) | illegal_task_transition (from to : Task.TaskStatus)
  | illegal_recovery_transition (from to : RecoveryStatus) | repair_starts_with_mission
  | status_through_transition | unsupported_update_field
  | stale_resumption (expected current : Z)
  | duplicate_criterion (k : string)
  | lease_of_other_mission (k : string) | execution_of_other_task (k : string) | execution_already_assigned (k : string)
  | negative_attempt | terminal_task (k : string)
  | not_authoritative (k : string) (st : ExecutionStatus) | stale_execution (k : string) (mismatches : list string)
  | duplicate_recovery (k : string) | repair_outside_episode
  | supersession_needs_failed_task (k : string) | supersession_no_replacement | duplicate_supersession (k : string)
  | replacements_not_unique | task_replaces_itself (k : string) | already_superseded (k : string) | coverage_mismatch
  | immutable_coverage_mismatch | coverage_error (e : string) | unknown_replacement | replacement_coverage_mismatch
  | supersession_other_mission | fingerprints_required | one_fingerprint_each | replacement_fingerprint_mismatch.

Declare Scope store_scope.
Definition M (A : Type) : Type := Store -> Store * res StoreError A.
Definition ret {A} (a : A) : M A := fun s => (s, Ok a).
Definition fail {A} (e : StoreError) : M A := fun s => (s, Err e).
Definition bind {A B} (m : M A) (k : A -> M B) : M B := fun s =>
  let r := m s in match r.2 with Ok a => k a r.1 | Err e => (r.1, Err e) end.
Definition gets {A} (f : Store -> A) : M A := fun s => (s, Ok (f s)).
Definition modify (f : Store -> Store) : M unit := fun s => (f s, Ok tt).
Notation "'let*' x ':=' m 'in' k" := (bind m (fun x => k)) (x pattern) : store_scope.
Notation "m ;; k" := (bind m (fun _ => k)) : store_scope.
Open Scope store_scope.
Definition require {A} (o : option A) (e : StoreError) : M A := match o with Some a => ret a | None => fail e end.
Definition guard_ (b : bool) (e : StoreError) : M unit := if b then ret tt else fail e.
Definition when (b : bool) (m : M unit) : M unit := if b then m else ret tt.
Fixpoint for_each {A} (l : list A) (f : A -> M unit) : M unit :=
  match l with [] => ret tt | x :: l' => f x ;; for_each l' f end.

Section Store.
(** The readings of the clock and the ids drawn, in order; SHA-256 over the coverage of a task and over a failure. *)
Context (Date_now : nat -> string) (fresh : string -> nat -> string).
Context (coverage_sha256 : list string * string * string -> string) (failure_sha256 : FingerprintInput -> string).
Context (Date_valid : string -> bool).

Definition now : M string := fun s => (on_clock S s, Ok (Date_now (clock s))).
Definition id (prefix : string) : M string := fun s => (on_id_seq S s, Ok (fresh prefix (id_seq s))).

(** ** Emission and persistence *)

Definition emit (missionId : string) (payload : Payload) (timestamp : option string) : M OrchestrationEvent :=
  let* at_ := match timestamp with Some t => ret t | None => now end in
  let* eid := id "oevt" in
  let event := mkEvent eid missionId at_ payload in
  (if counts_as_revision payload then modify (advanceMissionRevision missionId) else ret tt) ;;
  modify (on_pendingWrites (fun l => l ++ [event])%list) ;;
  ret event.

Fixpoint replace_diagnostic (d : MissionPersistenceDiagnostic) (l : list MissionPersistenceDiagnostic) :
    option (list MissionPersistenceDiagnostic) :=
  match l with
  | [] => None
  | x :: l' => if bool_decide (dg_eventId x = dg_eventId d) then Some (d :: l')
               else option_map (cons x) (replace_diagnostic d l')
  end.
Definition recordPersistenceFailure (e : OrchestrationEvent) (message : string) (s : Store) : Store :=
  let d := mkDiagnostic (ev_id e) (ev_mission_id e) (ev_timestamp e) message in
  on_persistenceErrors (fun l =>
    let l := match replace_diagnostic d l with Some l' => l' | None => (l ++ [d])%list end in
    if bool_decide (MAX_PERSISTENCE_DIAGNOSTICS < length l)%nat then tail l else l) s.

Fixpoint clear_diagnostic (eventId : string) (l : list MissionPersistenceDiagnostic) : list MissionPersistenceDiagnostic :=
  match l with
  | [] => []
  | x :: l' => if bool_decide (dg_eventId x = eventId) then l' else x :: clear_diagnostic eventId l'
  end.

(** One turn of [drainPending]: the append of the head of the queue, with the message of its failure. *)
Definition drain_step (failed : option string) (s : Store) : Store :=
  match pendingWrites s with
  | [] => s
  | e :: rest =>
      match failed with
      | Some message => recordPersistenceFailure e message s
      | None => on_persistenceErrors (clear_diagnostic (ev_id e))
                  (on_durable (fun l => l ++ [e])%list (on_pendingWrites (fun _ => rest) s))
      end
  end.
(** The loop, given the answers of the backend: it stops at the first failure. *)
Fixpoint drainPending (answers : list (option string)) (s : Store) : Store * bool :=
  match pendingWrites s with
  | [] => (s, true)
  | _ => match answers with
         | [] => (s, false)
         | Some message :: _ => (drain_step (Some message) s, false)
         | None :: answers' => drainPending answers' (drain_step None s)
         end
  end.

(** ** Missions *)

Definition mission_of (k : string) : M Mission :=
  let* o := gets (fun s => map_get k (missions s)) in require o (unknown_mission_ k).

(** [listMissionResumptions(k).at(-1)?.generation ?? 0] *)
Definition resumptions_of (k : string) (s : Store) : list MissionResumption :=
  js_filter (fun r => bool_decide (re_missionId r = k)) (missionResumptions s).
Definition stops_of (k : string) (s : Store) : list MissionStop :=
  js_filter (fun st => bool_decide (ps_missionId st = k)) (missionStops s).
Definition currentGeneration (k : string) (s : Store) : Z := nullish (option_map re_generation (last (resumptions_of k s))) 0.

Record MissionCreateInput := mkMissionInput {
  mi_mission_id : option string;
  mi_title : string;
  mi_goal : string;
  mi_user_request : string;
  mi_repository : string;
  mi_base_ref : string;
  mi_constraints : list string;
  mi_risk_profile : string;
  mi_workflow_class : string;
  mi_parent_session_id : option string
}.

Definition createMission (input : MissionCreateInput) : M Mission :=
  let* at_ := now in
  let* k := match mi_mission_id input with Some k => ret k | None => id "MSN" end in
  let m := mkMission (mkMissionSpec k (mi_title input) (mi_goal input) (mi_user_request input) (mi_repository input)
                        (mi_base_ref input) (mi_risk_profile input) (mi_workflow_class input) at_ (mi_parent_session_id input))
             0 (mi_constraints input) [] Mission.NEW at_ [] [] [] [] None None None None None None None None in
  modify (set_mission k m) ;;
  emit k (mission_created m) None ;;
  ret m.

Definition assert_mission (from to : Mission.MissionStatus) : M unit :=
  match Mission.assertMissionTransition from to with Ok _ => ret tt | Err (a, b) => fail (illegal_mission_transition a b) end.
Definition assert_task (from to : Task.TaskStatus) : M unit :=
  match Task.assertTaskTransition from to with Ok _ => ret tt | Err (a, b) => fail (illegal_task_transition a b) end.

Definition lifecycle_of (st : Mission.MissionStatus) : CanonicalLifecycleState * Z := (toCanonical st, LIFECYCLE_SCHEMA_VERSION).

(** Whether the failure a decision recovers from is that of a gate task. *)
Definition probes_gate (d : RecoveryDecision) (s : Store) : bool :=
  match map_get (rd_classificationId d) (failureClassifications s) with
  | Some c => match map_get (nullish (fc_taskId c) "") (tasks s) with
              | Some t => js_includes (t_kind (t_spec t)) [validation; review; integration]
              | None => false
              end
  | None => false
  end.

(** The decision that lets a blocked mission enter active repair. *)
Definition repair_decision (missionId : string) (m : Mission) (rid : option string) : M RecoveryDecision :=
  let* d := gets (fun s => rid ≫= fun r => map_get r (recoveryDecisions s)) in
  let* d := require d repair_needs_decision in
  let k := nullish rid "" in
  let* probes := gets (probes_gate d) in
  guard_ (negb (negb (bool_decide (rd_missionId d = missionId)) ||
                js_includes (rd_action d) [STOP; WAIT_FOR_REQUIREMENT; PAUSE_FOR_PERSISTENCE] ||
                bool_decide (rd_action d = PROBE_AND_BACKOFF) && negb probes)) (recovery_cannot_repair k) ;;
  guard_ (bool_decide (rd_status d = rs_planned)) (recovery_not_planned k (rd_status d)) ;;
  guard_ (match given (m_blocked_episode_id m) with
          | Some ep => bool_decide (rd_blockedEpisodeId d = Some ep)
          | None => false
          end) (recovery_other_episode k) ;;
  ret d.

Definition with_episode (ep : string) (c : FailureClassification) : FailureClassification :=
  mkClassification (fc_classificationId c) (fc_missionId c) (fc_taskId c) (fc_executionId c) (fc_category c) (fc_evidenceRefs c)
    (fc_fingerprint c) (fc_summary c) (fc_classifiedAt c) (Some ep).

Definition put_classification (c : FailureClassification) : Store -> Store :=
  on_failureClassifications (map_set (fc_classificationId c) c).
Definition put_decision (d : RecoveryDecision) : Store -> Store := on_recoveryDecisions (map_set (rd_recoveryId d) d).

(** A mission that becomes blocked claims its failures without an episode. *)
Definition associate_failures (missionId at_ : string) : M unit :=
  let* o := gets (fun s => map_get missionId (missions s) ≫= fun m => given (m_blocked_episode_id m)) in
  match o with
  | None => ret tt
  | Some ep =>
      let* cs := gets (fun s => js_filter (fun c => bool_decide (fc_missionId c = missionId) &&
                                                    negb (bool_decide (is_Some (given (fc_blockerEpisodeId c)))))
                                  (map_values (failureClassifications s))) in
      for_each cs (fun c =>
        modify (put_classification (with_episode ep c)) ;;
        emit missionId (failure_classified (with_episode ep c)) (Some at_) ;;
        ret tt)
  end.

Definition transitionMission (missionId : string) (to : Mission.MissionStatus) (recoveryDecisionId : option string) : M unit :=
  let* m := mission_of missionId in
  let rid := given recoveryDecisionId in
  if bool_decide (m_status m = to) && negb (bool_decide (is_Some rid)) then ret tt else
  let* repair := (if bool_decide (m_status m = Mission.BLOCKED) && bool_decide (to = Mission.REPAIRING)
                  then let* d := repair_decision missionId m rid in ret (Some d) else ret None) in
  assert_mission (m_status m) to ;;
  let* at_ := now in
  let* blocked := (if bool_decide (to = Mission.BLOCKED) then let* ep := id "BLK" in ret (Some (at_, ep)) else ret None) in
  let patch := mkPatch (Some to) (Some at_) blocked None None None None None None None None None in
  modify (set_mission missionId (patched m patch)) ;;
  modify (on_canonicalRecords (map_set missionId (mkCanonical to (toCanonical to) LIFECYCLE_SCHEMA_VERSION))) ;;
  match repair with
  | Some d =>
      modify (put_decision (set_status d rs_started)) ;;
      emit missionId (recovery_event rs_started (set_status d rs_started) (Some patch) (Some (lifecycle_of to))) (Some at_) ;; ret tt
  | None => emit missionId (mission_updated missionId patch (Some (lifecycle_of to))) (Some at_) ;; ret tt
  end ;;
  when (bool_decide (to = Mission.BLOCKED)) (associate_failures missionId at_).

Definition validateMissionUpdatePatch (p : MissionPatch) : M unit :=
  guard_ (bool_decide (p_status p = None)) status_through_transition ;;
  guard_ (match p_updated_at p, p_blocked p, p_acceptance_criteria p with None, None, None => true | _, _, _ => false end)
    unsupported_update_field.

Definition updateMission (missionId : string) (patch : MissionPatch) : M unit :=
  let* m := mission_of missionId in
  validateMissionUpdatePatch patch ;;
  let* at_ := now in
  modify (set_mission missionId (touched at_ (patched m patch))) ;;
  emit missionId (mission_updated missionId patch None) (Some at_) ;;
  ret tt.

Definition terminal_mission : list Mission.MissionStatus := [Mission.COMPLETE; Mission.FAILED; Mission.CANCELED].
Definition pause_patch (at_ : option string) : MissionPatch := mkPatch None None None None None None None None None None (Some at_) None.

Definition markOperatorPause (missionId : string) : M unit :=
  let* o := gets (fun s => map_get missionId (missions s)) in
  match o with
  | Some m => if bool_decide (is_Some (given (m_operator_paused_at m))) || js_includes (m_status m) terminal_mission then ret tt
              else let* at_ := now in updateMission missionId (pause_patch (Some at_))
  | None => ret tt
  end.

Definition clearOperatorPause (missionId : string) : M unit :=
  let* o := gets (fun s => map_get missionId (missions s)) in
  match o with
  | Some m => if bool_decide (is_Some (given (m_operator_paused_at m))) then updateMission missionId (pause_patch None) else ret tt
  | None => ret tt
  end.

Definition completeMission (missionId : string) (expectedResumptionGeneration : Z) : M unit :=
  let* m := mission_of missionId in
  let* g := gets (currentGeneration missionId) in
  guard_ (expectedResumptionGeneration =? g) (stale_resumption expectedResumptionGeneration g) ;;
  assert_mission (m_status m) Mission.COMPLETE ;;
  let* t1 := now in
  let* t2 := now in
  modify (set_mission missionId (ended Mission.COMPLETE None t1 t2 m)) ;;
  emit missionId (mission_completed missionId) None ;;
  ret tt.

Definition failMission (missionId reason : string) : M unit :=
  let* m := mission_of missionId in
  let* t1 := now in
  let* t2 := now in
  modify (set_mission missionId (ended Mission.FAILED (Some reason) t1 t2 m)) ;;
  emit missionId (mission_failed missionId reason) None ;;
  ret tt.

Definition criteria_patch (c : list AcceptanceCriterion) : MissionPatch := mkPatch None None None (Some c) None None None None None None None None.

Definition addAcceptanceCriterion (missionId criterion : string) (evidence acceptanceId : option string) : M unit :=
  let* m := mission_of missionId in
  let* k := match acceptanceId with Some k => ret k | None => id "AC" end in
  guard_ (negb (js_some (fun c => bool_decide (ac_acceptance_id c = Some k)) (m_acceptance_criteria m))) (duplicate_criterion k) ;;
  let criteria := (m_acceptance_criteria m ++ [mkCriterion (Some k) criterion c_pending (given evidence)])%list in
  let* t1 := now in
  modify (set_mission missionId (touched t1 (patched m (criteria_patch criteria)))) ;;
  emit missionId (mission_updated missionId (criteria_patch criteria) None) None ;;
  ret tt.

Definition judged (st : CriterionStatus) (evidence : option string) (c : AcceptanceCriterion) : AcceptanceCriterion :=
  mkCriterion (ac_acceptance_id c) (ac_criterion c) st (match given evidence with Some e => Some e | None => ac_evidence c end).

Definition setCriterionStatus (missionId : string) (index : nat) (st : CriterionStatus) (evidence : option string) : M unit :=
  let* m := mission_of missionId in
  let criteria := imap (fun i c => if bool_decide (i = index) then judged st evidence c else c) (m_acceptance_criteria m) in
  let* t1 := now in
  modify (set_mission missionId (touched t1 (patched m (criteria_patch criteria)))) ;;
  emit missionId (mission_updated missionId (criteria_patch criteria) None) None ;;
  ret tt.

Definition getCanonicalLifecycle (missionId : string) (s : Store) : option (CanonicalLifecycleState * Z) :=
  match map_get missionId (missions s) with
  | None => None
  | Some m =>
      match map_get missionId (canonicalRecords s) with
      | Some r => if bool_decide (cr_status r = m_status m) then Some (cr_canonicalState r, cr_lifecycleSchemaVersion r)
                  else Some (lifecycle_of (m_status m))
      | None => Some (lifecycle_of (m_status m))
      end
  end.

(** ** Tasks *)

Record TaskCreateInput := mkTaskInput {
  ti_task_id : option string;
  ti_mission_id : string;
  ti_kind : TaskKind;
  ti_role : string;
  ti_objective : string;
  ti_depends_on : list string;
  ti_priority : option Z;
  ti_mutates_repo : option bool;
  ti_write_domains : list string;
  ti_isolation : option IsolationMode;
  ti_execution_requirements : option json;
  ti_max_attempts : option Z;
  ti_failure_policy : option FailurePolicy;
  ti_repo_id : option string;
  ti_acceptance_ids : list string;
  ti_deliverables : list string;
  ti_execution_budget_ms : option Z;
  ti_checkpoint_policy : option (Z * Z);
  ti_required_output_artifacts : list string;
  ti_candidate_generation : option Z;
  ti_mission_generation : option Z;
  ti_resumption_generation : option Z;
  ti_fencing_token : option Z;
  ti_recovery_authority : option TaskRecoveryAuthority;
  ti_repair_base_candidate_sha : option string;
  ti_replacement_spec_fingerprint : option string
}.

Definition task_spec_of (i : TaskCreateInput) (k at_ : string) : TaskSpec :=
  mkTaskSpec k (ti_mission_id i) (ti_kind i) (ti_role i) (ti_objective i) (ti_depends_on i) (nullish (ti_priority i) 0)
    (nullish (ti_mutates_repo i) false) (ti_write_domains i)
    (nullish (ti_isolation i) (if nullish (ti_mutates_repo i) false then iso_worktree else iso_none))
    (nullish (ti_execution_requirements i) (jobj [])) [] (nullish (ti_max_attempts i) 3) (nullish (ti_failure_policy i) fp_retry) at_
    (ti_repo_id i) (ti_acceptance_ids i) (ti_deliverables i) (ti_execution_budget_ms i) (ti_checkpoint_policy i)
    (ti_required_output_artifacts i) (Some (nullish (ti_candidate_generation i) 0)) (ti_recovery_authority i)
    (ti_repair_base_candidate_sha i) (ti_replacement_spec_fingerprint i) None.

(** [authority]: the lease [missionLeases] holds for the mission. *)
Definition createTask (input : TaskCreateInput) (authority : option MissionLease) : M OrchestrationTask :=
  let* at_ := now in
  let* k := match ti_task_id input with Some k => ret k | None => id "TSK" end in
  let* g := gets (currentGeneration (ti_mission_id input)) in
  let t := mkTask (task_spec_of input k at_) Task.PENDING None 0 None None []
             (Some (nullish (ti_mission_generation input) (nullish (option_map generation authority) 0)))
             (Some (nullish (ti_resumption_generation input) (nullish (authority ≫= Ownership.resumptionGeneration) g)))
             (Some (nullish (ti_fencing_token input) (nullish (option_map fencingToken authority) 0))) None in
  modify (set_task t) ;;
  let* o := gets (fun s => map_get (ti_mission_id input) (missions s)) in
  match o with Some m => modify (set_mission (m_id m) (with_task k at_ m)) | None => ret tt end ;;
  emit (ti_mission_id input) (task_created t) None ;;
  ret t.

Definition task_of (k : string) : M OrchestrationTask :=
  let* o := gets (fun s => map_get k (tasks s)) in require o (unknown_task k).

Definition assignTaskAuthority (taskId : string) (lease : MissionLease) : M unit :=
  let* t := task_of taskId in
  guard_ (bool_decide (t_mission t = missionId lease)) (lease_of_other_mission taskId) ;;
  let g := Some (nullish (Ownership.resumptionGeneration lease) 0) in
  modify (on_tasks (map_set taskId (authorized (Some (generation lease)) g (Some (fencingToken lease)) None t))) ;;
  emit (t_mission t) (task_authority_assigned taskId (Some (generation lease)) g (Some (fencingToken lease)) None) None ;;
  ret tt.

Definition settled_execution (x : Execution) : bool := js_includes (x_status x) [x_SUCCEEDED; x_FAILED; x_CANCELED].

Definition assignTaskExecution (taskId executionId : string) : M unit :=
  let* o := gets (fun s => map_get taskId (tasks s)) in
  let* ox := gets (fun s => map_get executionId (executions s)) in
  match o, ox with
  | Some t, Some x =>
      guard_ (bool_decide (x_task x = taskId) && bool_decide (x_mission x = t_mission t)) (execution_of_other_task executionId) ;;
      let* assigned := gets (fun s => given (t_assigned_execution_id t) ≫= fun a =>
                                if bool_decide (a = executionId) then None else map_get a (executions s)) in
      guard_ (match assigned with Some a => settled_execution a | None => true end) (execution_already_assigned taskId) ;;
      modify (on_tasks (map_set taskId (authorized (t_mission_generation t) (t_resumption_generation t) (t_fencing_token t)
                                          (Some executionId) t))) ;;
      emit (t_mission t) (task_authority_assigned taskId (t_mission_generation t) (t_resumption_generation t) (t_fencing_token t)
                            (Some executionId)) None ;;
      ret tt
  | _, _ => fail (execution_of_other_task executionId)
  end.

Definition validateTaskTransitionMetadata (md : TaskTransitionMetadata) : M unit :=
  guard_ (match md_attempt md with Some a => 0 <=? a | None => true end) negative_attempt.

Definition task_event_type (to : Task.TaskStatus) : TaskEventType :=
  match to with
  | Task.READY => task_ready
  | Task.RUNNING => task_started
  | Task.SUCCEEDED => task_completed
  | Task.FAILED => task_failed
  | Task.RETRYING => task_retried
  | _ => task_canceled
  end.

Definition transitionTask (taskId : string) (to : Task.TaskStatus) (metadata : TaskTransitionMetadata) : M unit :=
  let* t := task_of taskId in
  validateTaskTransitionMetadata metadata ;;
  assert_task (t_status t) to ;;
  let* event := emit (t_mission t) (task_event (task_event_type to) taskId to metadata) None in
  modify (on_tasks (map_set taskId (transitioned (ev_timestamp event) to metadata t))).

Definition TERMINAL_TASK_STATUSES : list Task.TaskStatus := [Task.SUCCEEDED; Task.FAILED; Task.CANCELED; Task.SKIPPED].

Definition steerTask (taskId request : string) : M unit :=
  let* t := task_of taskId in
  guard_ (negb (js_includes (t_status t) TERMINAL_TASK_STATUSES)) (terminal_task taskId) ;;
  modify (on_tasks (map_set taskId (steered request t))) ;;
  emit (t_mission t) (task_steered taskId request) None ;;
  ret tt.

Definition live_task (taskId : string) : M OrchestrationTask :=
  let* t := task_of taskId in
  guard_ (negb (js_includes (t_status t) TERMINAL_TASK_STATUSES)) (terminal_task taskId) ;;
  ret t.

Definition switchTaskModel (taskId model : string) (resumeFromSha : option string) : M unit :=
  let* t := live_task taskId in
  let alreadyThere :=
    match required_model (t_execution_requirements (t_spec t)) with Some (jstr m) => bool_decide (m = model) | _ => false end &&
    (bool_decide (resumeFromSha = None) || opt_eq (t_repair_base_candidate_sha (t_spec t)) resumeFromSha) in
  if alreadyThere then ret tt
  else
    modify (on_tasks (map_set taskId (model_switched (Some model) resumeFromSha t))) ;;
    emit (t_mission t) (task_model_switched taskId (Some model) (given resumeFromSha)) None ;;
    ret tt.

Definition resumeTaskFromCheckpoint (taskId resumeFromSha : string) : M unit :=
  let* t := live_task taskId in
  if opt_eq (t_repair_base_candidate_sha (t_spec t)) (Some resumeFromSha) then ret tt
  else
    modify (on_tasks (map_set taskId (model_switched None (Some resumeFromSha) t))) ;;
    emit (t_mission t) (task_model_switched taskId None (Some resumeFromSha)) None ;;
    ret tt.

(** ** Executions *)

Record ExecutionCreateInput := mkExecutionInput {
  xi_task_id : string;
  xi_backend : string;
  xi_mission_id : string;
  xi_session_id : option string;
  xi_pid : option Z;
  xi_worktree : option string;
  xi_model : option string;
  xi_thinking_level : option string;
  xi_mission_generation : option Z;
  xi_resumption_generation : option Z;
  xi_fencing_token : option Z;
  xi_checkpoint_id : option string;
  xi_repo_id : option string;
  xi_base_sha : option string;
  xi_candidate_generation : option Z
}.

Definition createExecution (i : ExecutionCreateInput) : M Execution :=
  let* task := gets (fun s => map_get (xi_task_id i) (tasks s)) in
  let* k := id "EXC" in
  let inherited (f : OrchestrationTask -> option Z) (own : option Z) : option Z := Some (nullish own (nullish (task ≫= f) 0)) in
  let x := mkExecution
    (mkExecutionSpec k (xi_task_id i) (xi_mission_id i) (xi_backend i) (inherited t_mission_generation (xi_mission_generation i))
       (inherited t_resumption_generation (xi_resumption_generation i)) (inherited t_fencing_token (xi_fencing_token i))
       (xi_checkpoint_id i) (xi_repo_id i) (xi_base_sha i)
       (inherited (fun t => t_candidate_generation (t_spec t)) (xi_candidate_generation i)))
    (mkExecutionData (xi_session_id i) (xi_pid i) (xi_worktree i) (xi_model i) (xi_thinking_level i) (jobj []) [] [] None None None None None)
    None None None x_PENDING in
  modify (set_execution x) ;;
  emit (xi_mission_id i) (execution_event execution_created x) None ;;
  ret x.

Definition execution_of (k : string) : M Execution :=
  let* o := gets (fun s => map_get k (executions s)) in require o (unknown_execution k).

(** [extra]: what [{ ...ex, ...extra }] changes of the data, the times and the exit status; no caller passes a field
    of the execution's identity. *)
Record ExecutionPatch := mkExecutionPatch {
  xp_data : ExecutionData -> ExecutionData;
  xp_started_at : option (option string);
  xp_ended_at : option (option string);
  xp_exit_status : option (option string)
}.

Definition with_status (at_ : string) (st : ExecutionStatus) (extra : ExecutionPatch) (x : Execution) : Execution :=
  mkExecution (x_spec x) (xp_data extra (x_data x))
    (if bool_decide (st = x_RUNNING) then Some at_ else nullish (xp_started_at extra) (x_started_at x))
    (if js_includes st [x_SUCCEEDED; x_FAILED; x_CANCELED] then Some at_ else nullish (xp_ended_at extra) (x_ended_at x))
    (nullish (xp_exit_status extra) (x_exit_status x)) st.

Definition execution_event_type (st : ExecutionStatus) : ExecutionEventType :=
  match st with
  | x_RUNNING => execution_started
  | x_SUCCEEDED => execution_completed
  | x_FAILED => execution_failed
  | _ => execution_canceled
  end.

Definition setExecutionStatus (executionId : string) (st : ExecutionStatus) (extra : ExecutionPatch) : M unit :=
  let* x := execution_of executionId in
  let* at_ := now in
  let next := with_status at_ st extra x in
  modify (on_executions (map_set executionId next)) ;;
  when (bool_decide (st = x_RUNNING)) (modify (recordAuthoritativeExecutionStart next)) ;;
  emit (x_mission x) (execution_event (execution_event_type st) next) None ;;
  ret tt.

Definition mismatches (x : Execution) (t : OrchestrationTask) (current : Z) : list string :=
  let m (b : bool) (name : string) : list string := if b then [] else [name] in
  (m (opt_eq (t_mission_generation t) (x_mission_generation (x_spec x))) "mission generation" ++
   m (opt_eq (t_resumption_generation t) (x_resumption_generation (x_spec x))) "resumption generation" ++
   m (opt_eq (x_resumption_generation (x_spec x)) (Some current)) "current resumption generation" ++
   m (opt_eq (t_candidate_generation (t_spec t)) (x_candidate_generation (x_spec x))) "candidate generation" ++
   m (opt_eq (t_fencing_token t) (x_fencing_token (x_spec x))) "fencing token" ++
   m (match given (t_assigned_execution_id t) with Some a => bool_decide (a = x_id x) | None => true end) "assigned execution")%list.

Definition assertExecutionAuthoritative (executionId : string) : M Execution :=
  let* x := execution_of executionId in
  guard_ (bool_decide (x_status x = x_RUNNING)) (not_authoritative executionId (x_status x)) ;;
  let* o := gets (fun s => map_get (x_task x) (tasks s)) in
  let* t := require o (unknown_task (x_task x)) in
  let* g := gets (currentGeneration (x_mission x)) in
  guard_ (bool_decide (mismatches x t g = [])) (stale_execution executionId (mismatches x t g)) ;;
  ret x.

Definition canceled (exit_status at_ : string) (x : Execution) : Execution :=
  mkExecution (x_spec x) (x_data x) (x_started_at x) (Some at_) (Some exit_status) x_CANCELED.

Definition rejectLateExecution (executionId reason : string) : M unit :=
  let* x := execution_of executionId in
  let* rejected := (if bool_decide (x_status x = x_RUNNING)
                    then let* at_ := now in ret (canceled ("late_result_rejected:" +:+ reason) at_ x) else ret x) in
  when (bool_decide (x_status x = x_RUNNING)) (modify (on_executions (map_set executionId rejected))) ;;
  when (test LEGACY_AUTHORITY_LOSS reason) (modify (on_executionRejectionReasons (map_set executionId reason))) ;;
  emit (x_mission x) (execution_late_result_rejected rejected reason) None ;;
  ret tt.

Definition executions_of (k : string) (s : Store) : list Execution :=
  js_filter (fun x => bool_decide (x_mission x = k)) (map_values (executions s)).
Definition tasks_of (k : string) (s : Store) : list OrchestrationTask :=
  js_filter (fun t => bool_decide (t_mission t = k)) (map_values (tasks s)).

Definition reason_metadata (reason : string) : TaskTransitionMetadata := mkMetadata None None (Some reason).

Definition reconcile_one (missionId : string) (x : Execution) : M unit :=
  emit missionId (execution_orphaned x) None ;;
  let* at_ := now in
  let terminal := canceled "orphaned_execution_reconciled" at_ x in
  modify (set_execution terminal) ;;
  emit missionId (execution_reconciled terminal) None ;;
  let* o := gets (fun s => map_get (x_task x) (tasks s)) in
  match o with
  | Some t =>
      if bool_decide (t_status t = Task.RUNNING) && opt_eq (t_assigned_execution_id t) (Some (x_id x))
      then transitionTask (t_id t) Task.RETRYING (reason_metadata "orphaned execution fenced during mission recovery") ;;
           transitionTask (t_id t) Task.READY no_metadata
      else ret tt
  | None => ret tt
  end.

Definition reconcileOrphanedExecutions (missionId : string) : M unit :=
  let* xs := gets (fun s => js_filter (fun x => bool_decide (x_status x = x_RUNNING)) (executions_of missionId s)) in
  for_each xs (reconcile_one missionId).

Definition requeueResumableTasks (missionId : string) : M unit :=
  let* ts := gets (tasks_of missionId) in
  for_each ts (fun t =>
    when (bool_decide (t_status t = Task.RETRYING))
      (transitionTask (t_id t) Task.READY (reason_metadata "resumable task re-queued after controller-disconnect recovery"))).

(** ** Waits, findings and disk suspensions *)

(** [this.apply(this.emit(...))] *)
Definition apply_emitted (missionId : string) (p : Payload) : M unit :=
  let* e := emit missionId p None in modify (apply e).

Definition setRepositoryWait (taskId repoId holderMissionId holderOwnerId : string) : M unit :=
  let* o := gets (fun s => map_get taskId (tasks s)) in
  match given (option_map t_mission o) with
  | None => ret tt
  | Some mission =>
      let* current := gets (fun s => map_get taskId (repositoryWaits s)) in
      if match current with
         | Some c => bool_decide (rw_holderMissionId c = holderMissionId) && bool_decide (rw_repoId c = repoId)
         | None => false
         end
      then ret tt
      else apply_emitted mission (repository_wait taskId (mkWait mission repoId holderMissionId holderOwnerId))
  end.

Definition clearRepositoryWait (taskId : string) : M unit :=
  let* current := gets (fun s => map_get taskId (repositoryWaits s)) in
  match current with
  | None => ret tt
  | Some c => apply_emitted (rw_missionId c) (repository_wait_cleared taskId)
  end.

Definition recordLaneEvent (type missionId : string) : M unit := emit missionId (ev_other type) None ;; ret tt.

(** The id, status and time of a new finding are the store's. *)
Definition addFinding (f : ReviewFinding) : M ReviewFinding :=
  let* k := id "F" in
  let* at_ := now in
  let f := mkFinding k (f_mission_id f) (f_task_id f) (f_severity f) (f_category f) (f_file f) (f_line f) (f_summary f)
             (f_evidence f) (f_recommended_action f) fs_open at_ in
  modify (on_findings (map_set k f)) ;;
  emit (f_mission_id f) (finding_created f) None ;;
  ret f.

Definition resolveFinding (findingId : string) : M unit :=
  let* o := gets (fun s => map_get findingId (findings s)) in
  match o with
  | None => ret tt
  | Some f => modify (on_findings (map_set findingId (resolved f))) ;;
              emit (f_mission_id f) (finding_resolved findingId) None ;; ret tt
  end.

Definition open_episode (missionId : string) (e : DiskSuspendEpisode) : bool :=
  bool_decide (de_missionId e = missionId) && bool_decide (de_resolvedAt e = None).

Definition merged (added : list string) (incidentPath : option string) (e : DiskSuspendEpisode) : DiskSuspendEpisode :=
  mkEpisode (de_episodeId e) (de_missionId e)
    (match given incidentPath, given (de_incidentPath e) with Some p, None => Some p | _, _ => de_incidentPath e end)
    (de_taskIds e ++ added) (de_markedAt e) (de_resolvedAt e).

Definition markDiskSuspendEpisode (missionId : string) (episodeId : option string) (taskIds : list string)
    (incidentPath markedAt : option string) : M unit :=
  mission_of missionId ;;
  let* o := gets (fun s => js_find (open_episode missionId) (diskSuspendEpisodes s)) in
  match o with
  | Some e =>
      let added := js_filter (fun t => negb (js_includes t (de_taskIds e))) taskIds in
      match added with
      | [] => ret tt
      | _ => modify (on_diskSuspendEpisodes (update_first (open_episode missionId) (merged added incidentPath))) ;;
             emit missionId (disk_suspend_marked (merged added incidentPath e)) None ;; ret tt
      end
  | None =>
      let* k := match episodeId with Some k => ret k | None => id "DSE" end in
      let* at_ := match markedAt with Some t => ret t | None => now end in
      let e := mkEpisode k missionId (given incidentPath) (js_dedup taskIds) at_ None in
      modify (on_diskSuspendEpisodes (fun l => l ++ [e])%list) ;;
      emit missionId (disk_suspend_marked e) None ;; ret tt
  end.

(** The last entry that matches, changed in place. *)
Definition update_last (p : DiskSuspendEpisode -> bool) (f : DiskSuspendEpisode -> DiskSuspendEpisode) (l : list DiskSuspendEpisode) :
    list DiskSuspendEpisode := rev (update_first p f (rev l)).

Definition resolveDiskSuspendEpisode (missionId : string) (resolvedAt : option string) : M unit :=
  let* o := gets (fun s => js_find (open_episode missionId) (rev (diskSuspendEpisodes s))) in
  match o with
  | None => ret tt
  | Some e =>
      let* at_ := match resolvedAt with Some t => ret t | None => now end in
      modify (on_diskSuspendEpisodes (update_last (open_episode missionId) (resolved_at at_))) ;;
      emit missionId (disk_suspend_resolved (de_episodeId e) at_) None ;; ret tt
  end.

(** ** Failures and recovery *)

Definition DISK_SUSPENDED_EXCUSABLE : list FailureCategory :=
  [PROVIDER_TRANSIENT; PROVIDER_PERMANENT; TASK_BUDGET_EXHAUSTED; ORPHANED_EXECUTION; INVALID_WORKER_OUTPUT; PERSISTENCE_FAILURE;
   EVIDENCE_UNAVAILABLE].

Definition applyDiskSuspendOverride (c : FailureClassification) (s : Store) : FailureClassification :=
  match given (fc_taskId c) with
  | None => c
  | Some taskId =>
      if bool_decide (fc_category c = DISK_SUSPENDED) || negb (js_includes (fc_category c) DISK_SUSPENDED_EXCUSABLE) then c
      else match js_find (open_episode (fc_missionId c)) (rev (diskSuspendEpisodes s)) with
           | None => c
           | Some e =>
               if negb (js_includes taskId (de_taskIds e)) then c
               else let summary := fc_summary c +:+ " [interrupted by disk suspend " +:+ de_episodeId e +:+
                                   match given (de_incidentPath e) with Some p => " on " +:+ p | None => "" end +:+ "]" in
                    mkClassification (fc_classificationId c) (fc_missionId c) (fc_taskId c) (fc_executionId c) DISK_SUSPENDED
                      (fc_evidenceRefs c)
                      (failureFingerprint failure_sha256
                         (mkFailure (fc_missionId c) (fc_taskId c) (fc_executionId c) summary (Some (fc_evidenceRefs c)) None None None None)
                         DISK_SUSPENDED)
                      summary (fc_classifiedAt c) (fc_blockerEpisodeId c)
           end
  end.

Definition classifyFailure (c : FailureClassification) : M unit :=
  mission_of (fc_missionId c) ;;
  let* copy := gets (applyDiskSuspendOverride c) in
  modify (put_classification copy) ;;
  emit (fc_missionId c) (failure_classified copy) None ;;
  ret tt.

Definition planned (generation : Z) (episode : option (option string)) (d : RecoveryDecision) : RecoveryDecision :=
  mkRecovery (rd_recoveryId d) (rd_missionId d) (rd_classificationId d) (rd_action d) (rd_expectedMaterialChange d)
    (rd_attempt d) (rd_maxAttempts d) (rd_deadline d) (rd_nextActionAt d) rs_planned (rd_decidedAt d) (rd_failureFingerprint d)
    (Some generation) (rd_operatorGuidance d) (rd_zeroToolWait d) (nullish episode (rd_blockedEpisodeId d))
    (rd_startingCandidateIdentityHash d) (rd_startingCandidateContent d).

Definition planRecovery (d : RecoveryDecision) : M unit :=
  let* m := mission_of (rd_missionId d) in
  let* c := gets (fun s => map_get (rd_classificationId d) (failureClassifications s)) in
  guard_ (match c with Some c => bool_decide (fc_missionId c = rd_missionId d) | None => false end)
    (unknown_classification (rd_classificationId d)) ;;
  let* known := gets (fun s => map_has (rd_recoveryId d) (recoveryDecisions s)) in
  guard_ (negb known) (duplicate_recovery (rd_recoveryId d)) ;;
  let blocked := bool_decide (m_status m = Mission.BLOCKED) in
  guard_ (negb (bool_decide (rd_action d = REPAIR_BLOCKED_MISSION) &&
                (negb blocked || negb (bool_decide (is_Some (given (m_blocked_episode_id m))))))) repair_outside_episode ;;
  let* g := gets (currentGeneration (rd_missionId d)) in
  let copy := planned g (if blocked && negb (bool_decide (rd_action d = STOP)) then Some (m_blocked_episode_id m) else None) d in
  modify (put_decision copy) ;;
  emit (rd_missionId d) (recovery_event rs_planned copy None None) None ;;
  ret tt.

Definition RECOVERY_TRANSITIONS (st : RecoveryStatus) : list RecoveryStatus :=
  match st with
  | rs_planned => [rs_started; rs_failed; rs_exhausted]
  | rs_started => [rs_succeeded; rs_failed; rs_exhausted]
  | _ => []
  end.

(** [status] is not [planned]. *)
Definition transitionRecovery (recoveryId : string) (st : RecoveryStatus) : M unit :=
  let* o := gets (fun s => map_get recoveryId (recoveryDecisions s)) in
  let* d := require o (unknown_recovery recoveryId) in
  if bool_decide (rd_status d = st) && js_includes st [rs_succeeded; rs_failed; rs_exhausted] then ret tt else
  guard_ (js_includes st (RECOVERY_TRANSITIONS (rd_status d))) (illegal_recovery_transition (rd_status d) st) ;;
  guard_ (negb (bool_decide (st = rs_started) && bool_decide (rd_action d = REPAIR_BLOCKED_MISSION))) repair_starts_with_mission ;;
  modify (on_recoveryDecisions (map_set recoveryId (set_status d st))) ;;
  emit (rd_missionId d) (recovery_event st (set_status d st) None None) None ;;
  ret tt.

(** ** Supersession *)

Definition decisions_of (k : string) (s : Store) : list RecoveryDecision :=
  js_filter (fun d => bool_decide (rd_missionId d = k)) (map_values (recoveryDecisions s)).
Definition supersessions_of (k : string) (s : Store) : list TaskSupersession :=
  js_filter (fun su => bool_decide (su_missionId su = k)) (map_values (taskSupersessions s)).
Definition classifications_of (k : string) (s : Store) : list FailureClassification :=
  js_filter (fun c => bool_decide (fc_missionId c = k)) (map_values (failureClassifications s)).

(** The words that tell an operator's cancellation. *)
Definition INTENT : regex := alts [lit_i "operator"; lit_i "user"; lit_i "constraint"; lit_i "canceled by caller"].

Definition canceled_implementer (t : OrchestrationTask) : bool :=
  bool_decide (t_status t = Task.CANCELED) && bool_decide (t_kind (t_spec t) = agent) && bool_decide (t_role (t_spec t) = "implementer").

Definition loss_reason (t : OrchestrationTask) (x : Execution) (s : Store) : string :=
  match map_get (x_id x) (executionRejectionReasons s) with
  | Some r => r
  | None =>
      match js_find (fun c => bool_decide (fc_category c = ORPHANED_EXECUTION) && opt_eq (fc_executionId c) (Some (x_id x)) &&
                              opt_eq (fc_taskId c) (Some (t_id t)) && test LEGACY_AUTHORITY_LOSS (fc_summary c))
              (classifications_of (t_mission t) s) with
      | Some c => fc_summary c
      | None => nullish (x_exit_status x) ""
      end
  end.

Definition legacyTaskCancellationWasAuthorityLoss (taskId : string) (s : Store) : bool :=
  match map_get taskId (tasks s) with
  | Some t =>
      canceled_implementer t &&
      match given (t_assigned_execution_id t) ≫= fun a => map_get a (executions s) with
      | Some x => negb (bool_decide (stops_of (t_mission t) s = [])) && bool_decide (x_status x = x_CANCELED) &&
                  bool_decide (x_task x = t_id t) && bool_decide (x_mission x = t_mission t) &&
                  test LEGACY_AUTHORITY_LOSS (loss_reason t x s) && bool_decide (t_steer_requests t = []) &&
                  negb (test INTENT (nullish (t_failure_reason t) ""))
      | None => false
      end
  | None => false
  end.

Definition legacy_candidates (missionId : string) (s : Store) : list string :=
  match map_get missionId (missions s) with
  | None => []
  | Some m =>
      if bool_decide (is_Some (given (m_operator_paused_at m))) ||
         js_includes (m_status m) [Mission.COMPLETE; Mission.FAILED; Mission.CANCELED; Mission.CANCELING; Mission.WAITING_FOR_USER]
      then []
      else if js_some (fun d => bool_decide (rd_action d = WAIT_FOR_REQUIREMENT) && (nullish (rd_resumptionGeneration d) 0 =? currentGeneration missionId s) &&
                                js_includes (rd_status d) [rs_planned; rs_started]) (decisions_of missionId s)
      then []
      else map t_id (js_filter (fun t => canceled_implementer t &&
                                         negb (js_some (fun su => bool_decide (su_failedTaskId su = t_id t)) (supersessions_of missionId s)))
                       (tasks_of missionId s))
  end.
(** The recoverable tasks and the ambiguous ones. *)
Definition legacyCanceledRecovery (missionId : string) (s : Store) : list string * list string :=
  let l := legacy_candidates missionId s in
  (js_filter (fun k => legacyTaskCancellationWasAuthorityLoss k s) l, js_filter (fun k => negb (legacyTaskCancellationWasAuthorityLoss k s)) l).

Definition coverageFingerprint (t : TaskSpec) : res string string :=
  let! objective := required (t_objective t) "objective" in
  let! repo := required (nullish (t_repo_id t) "") "repoId" in
  let! deliverables := canonicalSet (t_deliverables t) "deliverables" in
  Ok ("sha256:" +:+ coverage_sha256 (deliverables, objective, repo)).

Definition legacy_recovery (su : TaskSupersession) (failed : OrchestrationTask) (s : Store) : bool :=
  match given (su_recoveryDecisionId su) with
  | Some r =>
      let d := map_get r (recoveryDecisions s) in
      bool_decide (t_status failed = Task.CANCELED) && opt_eq (option_map rd_action d) (Some FENCE_RECONCILE_AND_RESUME) &&
      (nullish (d ≫= rd_resumptionGeneration) 0 =? currentGeneration (su_missionId su) s) &&
      js_includes (t_id failed) (legacyCanceledRecovery (su_missionId su) s).1
  | None => false
  end.

Definition subset_of (a b : list string) : bool := js_every (fun x => js_includes x b) a.

Definition replacement_matches (su : TaskSupersession) (prints : @jsmap string string) (t : OrchestrationTask) : bool :=
  let expected := map_get (t_id t) prints in
  opt_eq (t_replacement_spec_fingerprint (t_spec t)) expected &&
  match t_recovery_authority (t_spec t) with
  | Some a => opt_eq (Some (ra_recoveryDecisionId a)) (su_recoveryDecisionId su) && bool_decide (ra_supersessionId a = su_supersessionId su) &&
              bool_decide (ra_originalTaskId a = su_failedTaskId su) && opt_eq expected (Some (ra_expectedReplacementFingerprint a))
  | None => true
  end.

Definition lookup_all (l : list string) (s : Store) : list (option OrchestrationTask) := map (fun k => map_get k (tasks s)) l.

(** The checks a supersession made by a recovery decision adds. *)
Definition recovery_checks (su : TaskSupersession) (replacements : list OrchestrationTask) : M unit :=
  match given (su_recoveryDecisionId su) with
  | None => ret tt
  | Some r =>
      let* d := gets (fun s => map_get r (recoveryDecisions s)) in
      guard_ (match d with Some d => bool_decide (rd_missionId d = su_missionId su) | None => false end) supersession_other_mission ;;
      let* prints := require (su_expectedReplacementFingerprints su) fingerprints_required in
      guard_ (bool_decide (map_size prints = length replacements)) one_fingerprint_each ;;
      guard_ (js_every (replacement_matches su prints) replacements) replacement_fingerprint_mismatch
  end.

Definition supersedeTask (su : TaskSupersession) : M unit :=
  let failedId := su_failedTaskId su in
  let* o := gets (fun s => map_get failedId (tasks s)) in
  let* failed := require o (supersession_needs_failed_task failedId) in
  let* legacy := gets (legacy_recovery su failed) in
  guard_ (bool_decide (t_mission failed = su_missionId su) && (bool_decide (t_status failed = Task.FAILED) || legacy))
    (supersession_needs_failed_task failedId) ;;
  guard_ (negb (bool_decide (su_replacementTaskIds su = []))) supersession_no_replacement ;;
  let* known := gets (fun s => map_has (su_supersessionId su) (taskSupersessions s)) in
  guard_ (negb known) (duplicate_supersession (su_supersessionId su)) ;;
  guard_ (bool_decide (length (js_dedup (su_replacementTaskIds su)) = length (su_replacementTaskIds su))) replacements_not_unique ;;
  guard_ (negb (js_includes (t_id failed) (su_replacementTaskIds su))) (task_replaces_itself (t_id failed)) ;;
  let* sus := gets (supersessions_of (su_missionId su)) in
  guard_ (negb (js_some (fun x => bool_decide (su_failedTaskId x = t_id failed)) sus)) (already_superseded (t_id failed)) ;;
  guard_ (opt_eq (t_repo_id (t_spec failed)) (Some (su_repoId su)) && subset_of (t_acceptance_ids (t_spec failed)) (su_acceptanceIds su))
    coverage_mismatch ;;
  let* expected := match coverageFingerprint (t_spec failed) with Ok f => ret f | Err e => fail (coverage_error e) end in
  guard_ (opt_eq (su_coverageFingerprint su) (Some expected)) immutable_coverage_mismatch ;;
  let* found := gets (lookup_all (su_replacementTaskIds su)) in
  guard_ (js_every (fun o => match o with Some t => bool_decide (t_mission t = su_missionId su) | None => false end) found)
    unknown_replacement ;;
  let replacements := omap (fun o => o) found in
  guard_ (js_every (fun t => opt_eq (t_repo_id (t_spec t)) (Some (su_repoId su))) replacements &&
          subset_of (su_acceptanceIds su) (concat (map (fun t => t_acceptance_ids (t_spec t)) replacements)))
    replacement_coverage_mismatch ;;
  recovery_checks su replacements ;;
  modify (on_taskSupersessions (map_set (su_supersessionId su) su)) ;;
  emit (su_missionId su) (task_superseded su) None ;;
  ret tt.

(** [n]: the depth of the walk; one more than the supersessions is enough, as a task is visited once. *)
Fixpoint leaves_ (n : nat) (s : Store) (visiting : list string) (taskId : string) : list OrchestrationTask :=
  match n with
  | O => []
  | S n' =>
      if js_includes taskId visiting then []
      else match js_find (fun su => bool_decide (su_failedTaskId su = taskId)) (map_values (taskSupersessions s)) with
           | None => match map_get taskId (tasks s) with Some t => [t] | None => [] end
           | Some su => concat (map (leaves_ n' s (visiting ++ [taskId])) (su_replacementTaskIds su))
           end
  end.
Definition supersessionLeaves (s : Store) (taskId : string) : list OrchestrationTask :=
  leaves_ (S (S (length (taskSupersessions s)))) s [] taskId.
Definition isTaskSatisfiedBySupersession (s : Store) (taskId : string) : bool :=
  let l := supersessionLeaves s taskId in
  negb (bool_decide (length l = 0%nat)) && js_every (fun t => bool_decide (t_status t = Task.SUCCEEDED)) l.

(** ** Stops and resumptions *)

(** [fenced]: how many leases of the mission the resumption fences, each with its event. *)
Definition resumeMission (missionId reason : string) (origin : ResumptionOrigin) (fenced : nat) : M Z :=
  mission_of missionId ;;
  for_each (repeat tt fenced) (fun _ => emit missionId (ev_other "lease.fenced") None ;; ret tt) ;;
  let* at_ := now in
  let* g := gets (currentGeneration missionId) in
  let* sg := gets (fun s => nullish (option_map ps_generation (last (stops_of missionId s))) 0) in
  let r := mkResumption missionId reason at_ (g + 1) sg (Some origin) in
  modify (on_missionResumptions (fun l => l ++ [r])%list) ;;
  emit missionId (mission_resumed r None) None ;;
  ret (g + 1).

Record StopInput := mkStopInput {
  si_reason : string; si_preservedWork : list string; si_attemptedRecoveries : list string; si_resumeCondition : string; si_queue : option json }.

(** The earliest deadline of the decisions of a generation, in text order. *)
Definition recovery_deadline (missionId : string) (g : Z) (s : Store) : option string :=
  head (js_sort string_le (js_filter Date_valid
    (omap (fun d => given (rd_deadline d)) (js_filter (fun d => nullish (rd_resumptionGeneration d) 0 =? g) (decisions_of missionId s))))).

Definition stopMission (missionId : string) (i : StopInput) : M MissionStop :=
  let* m := mission_of missionId in
  let* g := gets (currentGeneration missionId) in
  let* deadline := gets (recovery_deadline missionId g) in
  let* at_ := now in
  let* n := gets (fun s => nullish (option_map ps_generation (last (stops_of missionId s))) 0) in
  let st := mkStop missionId (si_reason i) (si_preservedWork i) (si_attemptedRecoveries i) (si_resumeCondition i) at_ (n + 1) g
              (m_blocked_episode_id m) deadline (si_queue i) None in
  modify (on_missionStops (fun l => l ++ [st])%list) ;;
  emit missionId (mission_stopped st) None ;;
  ret st.

Definition matchesMissionFence (missionId : string) (expected : MissionRevisionFence) (s : Store) : bool :=
  match map_get missionId (missions s) with
  | Some m => negb (js_includes (m_status m) terminal_mission) && (currentGeneration missionId s =? fence_resumptionGeneration expected) &&
              (m_revision m =? fence_revision expected) && bool_decide (m_status m = fence_status expected) &&
              opt_eq (m_blocked_episode_id m) (fence_blockedEpisodeId expected)
  | None => false
  end.
Definition currentStopForGeneration (missionId : string) (g : Z) (s : Store) : option MissionStop :=
  last (js_filter (fun st => bool_decide (ps_missionId st = missionId) && (ps_resumptionGeneration st =? g)) (missionStops s)).
(** The fence a caller takes of the mission it reads. *)
Definition fence_of (missionId : string) (s : Store) : option MissionRevisionFence :=
  option_map (fun m => mkFence (m_revision m) (m_status m) (currentGeneration missionId s) (m_blocked_episode_id m))
    (map_get missionId (missions s)).

(** ** Conditional settlement

    Several stores share a backend. A settlement reads the durable log, then appends its event if the check still
    holds at the append; other stores may append between the two. [es]: the durable log; [s]: the caller's own
    tables, to which a committed event is applied. *)

Definition settlementIdentityMatches (actual : option MissionRevisionFence) (expected : MissionRevisionFence) : bool :=
  match actual with Some a => bool_decide (a = expected) | None => false end.
Definition settled_answer (expected : MissionRevisionFence) (st : MissionStop) : option MissionStop :=
  if settlementIdentityMatches (ps_settlementIdentity st) expected then Some st else None.

(** [stopMissionIfCurrent] up to the append: an answer, or the stop to append. *)
Definition stop_prepare (missionId : string) (i : StopInput) (expected : MissionRevisionFence) (at_ eid : string)
    (es : list OrchestrationEvent) : option MissionStop + MissionStop * OrchestrationEvent :=
  let g := fence_resumptionGeneration expected in
  let d := open_ es in
  match currentStopForGeneration missionId g d with
  | Some st => inl (settled_answer expected st)
  | None =>
      if negb (matchesMissionFence missionId expected d) then inl None
      else let st := mkStop missionId (si_reason i) (si_preservedWork i) (si_attemptedRecoveries i) (si_resumeCondition i) at_
                       (nullish (option_map ps_generation (last (stops_of missionId d))) 0 + 1) g (fence_blockedEpisodeId expected)
                       (recovery_deadline missionId g d) (si_queue i) (Some expected) in
           inr (st, mkEvent eid missionId at_ (mission_stopped st))
  end.

(** Its conditional append: the log, the caller's tables and the answer. *)
Definition stop_commit (missionId : string) (expected : MissionRevisionFence) (st : MissionStop) (e : OrchestrationEvent)
    (es : list OrchestrationEvent) (s : Store) : list OrchestrationEvent * Store * option MissionStop :=
  let d := open_ es in
  match currentStopForGeneration missionId (fence_resumptionGeneration expected) d with
  | Some existing => (es, s, settled_answer expected existing)
  | None => if matchesMissionFence missionId expected d then ((es ++ [e])%list, apply e s, Some st) else (es, s, None)
  end.

(** [eligible] of [resumeMissionIfCurrent]; [canResume]: the answer of the caller's own check. *)
Definition resume_eligible (missionId : string) (expected : MissionRevisionFence) (selected : option OperatorModelPin) (canResume : bool)
    (s : Store) : bool :=
  let m := map_get missionId (missions s) in
  matchesMissionFence missionId expected s && canResume &&
  (bool_decide (selected = None) || negb (js_some (fun x => bool_decide (x_status x = x_RUNNING)) (executions_of missionId s))) &&
  negb (bool_decide (is_Some (given (m ≫= m_operator_paused_at)))) &&
  negb (match m with Some m => js_includes (m_status m) [Mission.WAITING_FOR_USER; Mission.NEEDS_ATTENTION; Mission.CANCELING] | None => false end) &&
  negb (js_some (fun d => (nullish (rd_resumptionGeneration d) 0 =? fence_resumptionGeneration expected) &&
                          bool_decide (rd_action d = WAIT_FOR_REQUIREMENT) && js_includes (rd_status d) [rs_planned; rs_started])
          (decisions_of missionId s)).

Definition resume_prepare (missionId reason : string) (expected : MissionRevisionFence) (selected : option OperatorModelPin) (canResume : bool)
    (at_ eid : string) (es : list OrchestrationEvent) (s : Store) : option (MissionResumption * OrchestrationEvent) :=
  if resume_eligible missionId expected selected canResume (open_ es) && resume_eligible missionId expected selected canResume s
  then let r := mkResumption missionId reason at_ (fence_resumptionGeneration expected + 1)
                  (nullish (option_map ps_generation (last (stops_of missionId (open_ es)))) 0) (Some automatic) in
       Some (r, mkEvent eid missionId at_ (mission_resumed r selected))
  else None.

Definition resume_commit (missionId : string) (expected : MissionRevisionFence) (selected : option OperatorModelPin) (canResume : bool)
    (r : MissionResumption) (e : OrchestrationEvent) (es : list OrchestrationEvent) (s : Store) :
    list OrchestrationEvent * Store * option MissionResumption :=
  if resume_eligible missionId expected selected canResume s && resume_eligible missionId expected selected canResume (open_ es)
  then ((es ++ [e])%list, apply e s, Some r) else (es, s, None).
End Store.
