(* ===== verification/MissionReplay.v ===== *)
(** * What the mission store guarantees

    [Image]: the image of a store up to clock readings, and that the replay of an
    event depends on the image only. [Tracking]: every operation of the store leaves
    the image that replaying the events it appended would give, the events of a
    mission touch that mission only, and what follows from it: the replay theorem,
    the revision fence, the fencing of executions by resumptions. *)

From S2P Require Import Prelude JsMap LedgerView Regex CompletionGate Workset MissionLifecycle Ownership FailureRecovery MissionStore.

Open Scope string_scope.
Open Scope Z_scope.
#[local] Arguments test : simpl never.
#[local] Arguments update_last : simpl never.
#[local] Arguments String.append : simpl never.

(** ** Maps *)

Lemma map_update_set {V} k f (v : V) (m : jsmap string V) : map_update k f (map_set k v m) = map_set k (f v) m.
Proof. unfold map_update. by rewrite map_get_set_eq, map_set_set. Qed.

Lemma map_update_some {V} k f (v : V) (m : jsmap string V) : map_get k m = Some v -> map_update k f m = map_set k (f v) m.
Proof. unfold map_update. by intros ->. Qed.

Lemma map_get_update {V} k k' f (m : jsmap string V) :
  map_get k' (map_update k f m) = if decide (k = k') then f <$> map_get k' m else map_get k' m.
Proof.
  unfold map_update. destruct (map_get k m) eqn:E.
  - rewrite map_get_set. case_decide; subst; by rewrite ?E.
  - case_decide; subst; by rewrite ?E.
Qed.

Definition on_values {V} (f : V -> V) (m : jsmap string V) : jsmap string V := map (fun kv => (kv.1, f kv.2)) m.
#[global] Arguments on_values : simpl never.

Lemma on_values_get {V} (f : V -> V) k m : map_get k (on_values f m) = f <$> map_get k m.
Proof. apply map_get_values. Qed.

Lemma on_values_set {V} (f : V -> V) k v m : on_values f (map_set k v m) = map_set k (f v) (on_values f m).
Proof. unfold on_values. induction m as [|[k' w] m IH]; [done|]. simpl. destruct (decide (k = k')); simpl; [done|]. by rewrite IH. Qed.

Lemma on_values_twice {V} (f : V -> V) m : (forall v, f (f v) = f v) -> on_values f (on_values f m) = on_values f m.
Proof. intros H. unfold on_values. rewrite map_map. apply map_ext. intros [k v]. simpl. by rewrite H. Qed.

(** An update whose result depends on the image of the value only. *)
Lemma on_values_update {V} (f g : V -> V) k m : (forall v, f (f v) = f v) -> (forall v, f (g (f v)) = f (g v)) ->
  on_values f (map_update k g (on_values f m)) = on_values f (map_update k g m).
Proof.
  intros Hf Hg. unfold map_update. rewrite on_values_get. destruct (map_get k m); simpl; rewrite ?on_values_set, on_values_twice by done; by rewrite ?Hg.
Qed.

Module Image.

(** A mission without the readings of the clock, with its revision or not. *)
Definition mission (k : bool) (m : Mission) : Mission :=
  mkMission (m_spec m) (if k then m_revision m else 0) (m_constraints m) (m_acceptance_criteria m) (m_status m) ""
    (m_task_ids m) (m_artifact_refs m) (m_decision_refs m) (m_required_gates m) (m_failure_reason m)
    ((fun _ => "") <$> m_completed_at m) (m_blocked_at m) (m_blocked_episode_id m) (m_operator_model_pin m)
    (m_operator_model_decided_at m) (m_operator_paused_at m) (m_execution_mode m).

Lemma mission_twice k m : mission k (mission k m) = mission k m.
Proof. destruct m as [? ? ? ? ? ? ? ? ? ? ? [?|] ? ? ? ? ? ?], k; reflexivity. Qed.

(** The image of a store: its tables, without the queue, the diagnostics and the two sequences. *)
Definition image (k : bool) (s : Store) : Store :=
  mkStore (on_values (mission k) (missions s)) (canonicalRecords s) (tasks s) (repositoryWaits s) (executions s) (findings s)
    (failureClassifications s) (recoveryDecisions s) (taskSupersessions s) (authoritativeExecutionStartOrder s)
    (executionStartSequence s) (executionRejectionReasons s) (missionResumptions s) (missionStops s) (diskSuspendEpisodes s)
    [] [] [] 0 0.

Lemma image_twice k s : image k (image k s) = image k s.
Proof. unfold image. simpl. f_equal. apply on_values_twice, mission_twice. Qed.

(** The image determines everything but the missions' times and revisions. *)
Lemma image_missions k g s : image k (on_missions g s) = on_missions (fun _ => on_values (mission k) (g (missions s))) (image k s).
Proof. reflexivity. Qed.
End Image.
Export Image.

(** Every table by its ids, and episodes told apart by theirs. *)
Definition keyed {V} (f : V -> string) (m : jsmap string V) : Prop := map_ok m /\ forall k v, map_get k m = Some v -> f v = k.

Lemma keyed_set {V} (f : V -> string) k v m : keyed f m -> f v = k -> keyed f (map_set k v m).
Proof.
  intros [Hok Hk] Hv. split; [by apply map_set_ok|]. intros k' w. rewrite map_get_set. case_decide; [|eauto].
  intros [= <-]. congruence.
Qed.

Lemma keyed_updated {V} (f : V -> string) k g m : keyed f m -> (forall v, f (g v) = f v) -> keyed f (map_update k g m).
Proof.
  intros H Hg. unfold map_update. destruct (map_get k m) eqn:E; [|done]. apply keyed_set; [done|]. rewrite Hg. by apply H.
Qed.

Lemma keyed_values {V} (f : V -> string) (g : V -> V) m : (forall v, f (g v) = f v) -> keyed f (on_values g m) <-> keyed f m.
Proof.
  intros Hg. unfold keyed, map_ok. assert (Hk : map_keys (on_values g m) = map_keys m).
  { unfold map_keys, on_values. rewrite <- !list_fmap_compose. apply list_fmap_ext. by intros ? [? ?] ?. }
  rewrite Hk. split; intros [Hok H]; (split; [done|]); intros k v.
  - intros E. rewrite <- (Hg v). apply H. rewrite on_values_get, E. done.
  - rewrite on_values_get. intros (w & E & ->)%fmap_Some. rewrite Hg. auto.
Qed.

Record Keyed (s : Store) : Prop := mkKeyed {
  K_missions : keyed m_id (missions s);
  K_tasks : keyed t_id (tasks s);
  K_executions : keyed x_id (executions s);
  K_findings : keyed f_finding_id (findings s);
  K_classifications : keyed fc_classificationId (failureClassifications s);
  K_decisions : keyed rd_recoveryId (recoveryDecisions s);
  K_supersessions : keyed su_supersessionId (taskSupersessions s);
  K_episodes : NoDup (map de_episodeId (diskSuspendEpisodes s))
}.

Create HintDb store.
#[export] Hint Resolve keyed_set keyed_updated K_missions K_tasks K_executions K_findings K_classifications K_decisions K_supersessions K_episodes : store.

Lemma keyed_empty {V} (f : V -> string) : keyed f [].
Proof. split; [constructor|done]. Qed.

Lemma Keyed_empty : Keyed empty_store.
Proof. split; try apply keyed_empty. constructor. Qed.

Lemma Keyed_image k s : Keyed (image k s) <-> Keyed s.
Proof. split; intros []; split; simpl in *; try done; by apply (keyed_values m_id (mission k)). Qed.

Lemma upsert_ids e l : NoDup (map de_episodeId l) -> NoDup (map de_episodeId (upsert (same_episode (de_episodeId e)) e l)).
Proof.
  assert (Hin : forall y l, y ∈ map de_episodeId (upsert (same_episode (de_episodeId e)) e l) -> y = de_episodeId e \/ y ∈ map de_episodeId l).
  { intros y l'. induction l' as [|x l' IH]; simpl; [set_solver|]. unfold same_episode at 1. case_bool_decide; simpl; [set_solver|].
    rewrite !elem_of_cons. intros [?|?%IH]; tauto. }
  induction l as [|x l IH]; simpl; [intros; apply NoDup_singleton|]. intros [Hx Hl]%NoDup_cons. unfold same_episode at 1.
  case_bool_decide as E; simpl; apply NoDup_cons; [by rewrite <- E|]. split; [|auto]. intros [?|?]%Hin; [by apply E|done].
Qed.

Lemma update_first_ids p f l : (forall e, de_episodeId (f e) = de_episodeId e) ->
  map de_episodeId (update_first p f l) = map de_episodeId l.
Proof. intros H. induction l as [|x l IH]; simpl; [done|]. destruct (p x); simpl; by rewrite ?H, ?IH. Qed.

Lemma Keyed_advance mid s : Keyed s -> Keyed (advanceMissionRevision mid s).
Proof. intros H. destruct H. split; simpl; auto. by apply keyed_updated. Qed.

Lemma Keyed_record_start x s : Keyed s -> Keyed (recordAuthoritativeExecutionStart x s).
Proof. intros H. unfold recordAuthoritativeExecutionStart. repeat case_match; try done; by destruct H; split. Qed.

Lemma Keyed_canonical k st l s : Keyed s -> Keyed (recordCanonical k st l s).
Proof. intros H. unfold recordCanonical. repeat case_match; try done; by destruct H; split. Qed.
#[export] Hint Resolve Keyed_advance Keyed_record_start Keyed_canonical : store.

(** Replaying an event keeps the tables keyed. *)
Lemma Keyed_apply e s : Keyed s -> Keyed (apply e s).
Proof.
  intros H. unfold apply. assert (K : Keyed (apply_payload (ev_timestamp e) (ev_payload e) s)).
  { destruct (ev_payload e); simpl; repeat case_match; auto with store;
      try (apply Keyed_record_start || apply Keyed_canonical); destruct H; split; simpl; auto with store; try by apply keyed_updated.
    all: try (by apply upsert_ids); try by rewrite update_first_ids.
    all: apply keyed_set; [done|]; match goal with H : map_get _ (missions _) = Some _ |- _ => by apply (proj2 K_missions0) in H end. }
  case_match; auto with store.
Qed.

(** *** Replay depends on the image only *)

Lemma image_advance k mid s : image k (advanceMissionRevision mid (image k s)) = image k (advanceMissionRevision mid s).
Proof.
  unfold image. cbn. f_equal. apply on_values_update; [apply mission_twice|]. intros m. by destruct m as [? ? ? ? ? ? ? ? ? ? ? [?|] ? ? ? ? ? ?], k.
Qed.

Lemma image_record k x s : image k (recordAuthoritativeExecutionStart x (image k s)) = image k (recordAuthoritativeExecutionStart x s).
Proof.
  unfold recordAuthoritativeExecutionStart. cbn [image authoritativeExecutionStartOrder tasks executionStartSequence].
  repeat case_match; try apply image_twice; unfold image; cbn; f_equal; apply on_values_twice, mission_twice.
Qed.

Lemma image_set k key m m' s : mission k m = mission k m' -> image k (set_mission key m (image k s)) = image k (set_mission key m' s).
Proof. intros H. unfold image. cbn. f_equal. by rewrite !on_values_set, on_values_twice, H by apply mission_twice. Qed.

Lemma image_canonical k key st l a b : image k a = image k b -> image k (recordCanonical key st l a) = image k (recordCanonical key st l b).
Proof.
  intros H. unfold recordCanonical. repeat case_match; try done. cbn.
  match goal with |- image _ (on_canonicalRecords ?g _) = _ => change (on_canonicalRecords g (image k a) = on_canonicalRecords g (image k b)) end.
  by rewrite H.
Qed.

Lemma image_update k key g s : (forall m, mission k (g (mission k m)) = mission k (g m)) ->
  image k (on_missions (map_update key g) (image k s)) = image k (on_missions (map_update key g) s).
Proof. intros H. unfold image. cbn. f_equal. apply on_values_update; [apply mission_twice|done]. Qed.

Ltac by_fields k := intros [? ? ? ? ? ? ? ? ? ? ? [?|] ? ? ? ? ? ?]; destruct k; reflexivity.

Lemma image_missions_get k key s : map_get key (missions (image k s)) = mission k <$> map_get key (missions s).
Proof. apply on_values_get. Qed.

Lemma image_payload k t p s : image k (apply_payload t p (image k s)) = image k (apply_payload t p s).
Proof.
  destruct p; try (unfold image; cbn; f_equal; by apply on_values_twice, mission_twice).
  all: cbn [apply_payload].
  - by apply image_set.
  - rewrite image_missions_get. destruct (map_get _ (missions s)); cbn [fmap option_fmap option_map]; [|apply image_twice].
    apply image_canonical, image_set. by destruct m as [? ? ? ? ? ? ? ? ? ? ? [?|] ? ? ? ? ? ?], k.
  - by apply image_update; by_fields k.
  - by apply image_update; by_fields k.
  - change (set_task t0 (image k s)) with (image k (set_task t0 s)). rewrite image_missions_get.
    destruct (map_get _ _) as [m|]; cbn [fmap option_fmap option_map]; [|apply image_twice].
    change (m_task_ids (mission k m)) with (m_task_ids m). destruct (js_includes _ _); [apply image_twice|].
    apply image_set. by destruct m as [? ? ? ? ? ? ? ? ? ? ? [?|] ? ? ? ? ? ?], k.
  - destruct (truthy request); [|apply image_twice]. apply (image_twice k (on_tasks _ s)).
  - change (set_execution x (image k s)) with (image k (set_execution x s)). case_match; [apply image_record|apply image_twice].
  - case_match; [apply (image_twice k (on_executionRejectionReasons _ (set_execution x s)))|apply (image_twice k (set_execution x s))].
  - change (on_recoveryDecisions (map_set (rd_recoveryId d) d) (image k s)) with (image k (on_recoveryDecisions (map_set (rd_recoveryId d) d) s)).
    destruct mission_patch as [patch|]; [|apply image_twice]. rewrite image_missions_get.
    destruct (map_get _ _) as [m|]; cbn [fmap option_fmap option_map]; [|apply image_twice].
    apply image_canonical, image_set. by destruct m as [? ? ? ? ? ? ? ? ? ? ? [?|] ? ? ? ? ? ?], k.
  - match goal with |- context [on_missionResumptions ?g (image k s)] =>
      change (on_missionResumptions g (image k s)) with (image k (on_missionResumptions g s)) end.
    destruct selectedModel; [|apply image_twice]. by apply image_update; by_fields k.
Qed.

Lemma image_apply k e s : image k (apply e (image k s)) = image k (apply e s).
Proof.
  unfold apply. destruct (counts_as_revision _); [|apply image_payload].
  rewrite <- image_advance, image_payload, image_advance. done.
Qed.

Lemma replay_image k es a b : image k a = image k b -> image k (replayEvents es a) = image k (replayEvents es b).
Proof.
  revert a b. induction es as [|e es IH]; intros a b H; [done|]. simpl. apply IH. by rewrite <- image_apply, H, image_apply.
Qed.

Lemma replayEvents_app es es' s : replayEvents (es ++ es') s = replayEvents es' (replayEvents es s).
Proof. apply foldl_app. Qed.

Lemma Keyed_replay es s : Keyed s -> Keyed (replayEvents es s).
Proof. revert s. induction es as [|e es IH]; intros s H; [done|]. simpl. by apply IH, Keyed_apply. Qed.


(** ** Tracking *)

(** [of_mission f g k m]: what a map holds under the key [k] is of mission [m]. *)
Definition held_by {V} (f : V -> string) (t : jsmap string V) (k m : string) : Prop := forall v, map_get k t = Some v -> f v = m.

(** The lifecycle a status is announced with is its canonical state. *)
Definition canonical_ok (lifecycle : option (CanonicalLifecycleState * Z)) (status : option Mission.MissionStatus) : Prop :=
  match lifecycle, status with Some l, Some st => l = lifecycle_of st | _, _ => True end.

(** The status a mission is given follows from the one it has. *)
Definition legal_status (m : string) (status : option Mission.MissionStatus) (s : Store) : Prop :=
  forall x st, map_get m (missions s) = Some x -> status = Some st -> Mission.canTransitionMission (m_status x) st = true.

Lemma legal_image k m st s : legal_status m st (image k s) <-> legal_status m st s.
Proof.
  unfold legal_status. split; intros H x st' Hx Hst.
  - apply (H (mission k x) st'); [|done]. rewrite image_missions_get. by rewrite Hx.
  - rewrite image_missions_get in Hx. apply fmap_Some in Hx as (y & Hy & ->). by apply (H y st').
Qed.

(** What a supersession accepts of the failed task is accepted of its replacements. *)
Definition covers (su : TaskSupersession) (s : Store) : Prop :=
  exists failed, map_get (su_failedTaskId su) (tasks s) = Some failed /\
    forall a, a ∈ t_acceptance_ids (t_spec failed) ->
    exists key t, key ∈ su_replacementTaskIds su /\ map_get key (tasks s) = Some t /\ a ∈ t_acceptance_ids (t_spec t).

(** An event touches entities of its own mission only, moves missions, tasks and decisions along their transitions, keeps
    the identity of an execution and counts resumptions. *)
Definition belongs (e : OrchestrationEvent) (s : Store) : Prop :=
  let m := ev_mission_id e in
  match ev_payload e with
  | mission_created x => m_id x = m /\ map_get m (missions s) = None
  | mission_updated k patch l => k = m /\ canonical_ok l (p_status patch) /\ legal_status m (p_status patch) s
  | mission_completed k => k = m /\ legal_status m (Some Mission.COMPLETE) s
  | mission_failed k _ => k = m
  | task_created t => t_mission t = m /\ map_get (t_id t) (tasks s) = None
  | task_event _ k st _ => forall t, map_get k (tasks s) = Some t -> t_mission t = m /\ Task.canTransitionTask (t_status t) st = true
  | task_steered k _ | task_authority_assigned k _ _ _ _ => held_by t_mission (tasks s) k m
  | task_model_switched k _ _ =>
      forall t, map_get k (tasks s) = Some t -> t_mission t = m /\ js_includes (t_status t) TERMINAL_TASK_STATUSES = false
  | execution_event _ x | execution_late_result_rejected x _ | execution_orphaned x | execution_reconciled x =>
      x_mission x = m /\ forall y, map_get (x_id x) (executions s) = Some y -> x_spec y = x_spec x
  | execution_legacy _ k _ _ _ => held_by x_mission (executions s) k m
  | finding_created f => f_mission_id f = m /\ held_by f_mission_id (findings s) (f_finding_id f) m
  | finding_resolved k => held_by f_mission_id (findings s) k m
  | failure_classified c => fc_missionId c = m /\ held_by fc_missionId (failureClassifications s) (fc_classificationId c) m
  | recovery_event _ d patch l =>
      rd_missionId d = m /\ canonical_ok l (patch ≫= p_status) /\ legal_status m (patch ≫= p_status) s /\
      forall o, map_get (rd_recoveryId d) (recoveryDecisions s) = Some o ->
        rd_missionId o = m /\ js_includes (rd_status d) (RECOVERY_TRANSITIONS (rd_status o)) = true
  | task_superseded su => su_missionId su = m /\ map_get (su_supersessionId su) (taskSupersessions s) = None /\ covers su s
  | mission_resumed r _ => re_missionId r = m /\ re_generation r = currentGeneration m s + 1
  | mission_stopped st => ps_missionId st = m
  | repository_wait _ _ | repository_wait_cleared _ | disk_suspend_marked _ | disk_suspend_resolved _ _ | ev_other _
  | ev_routing_decided => True
  end.

Lemma held_none {V} (f : V -> string) t k m : map_get k t = None -> held_by f t k m.
Proof. intros H v. by rewrite H. Qed.
Lemma held_spec x s m : x_mission x = m -> (forall y, map_get (x_id x) (executions s) = Some y -> x_spec y = x_spec x) ->
  held_by x_mission (executions s) (x_id x) m.
Proof. intros <- H y Hy. unfold x_mission. by rewrite (H y Hy). Qed.
#[local] Hint Resolve held_none held_spec : store.

Lemma belongs_image k e s : belongs e (image k s) <-> belongs e s.
Proof.
  unfold belongs. destruct (ev_payload e); try done; rewrite ?legal_image; try done. simpl. rewrite on_values_get.
  destruct (map_get _ _); simpl; [|done]. by split; intros [? ?].
Qed.

Fixpoint owned (es : list OrchestrationEvent) (s : Store) : Prop :=
  match es with [] => True | e :: es' => belongs e s /\ owned es' (apply e s) end.

Lemma owned_image k es a b : image k a = image k b -> owned es a -> owned es b.
Proof.
  revert a b. induction es as [|e es IH]; intros a b H; [done|]. intros [He Hes]. split.
  - rewrite <- (belongs_image k), <- H. by apply belongs_image.
  - eapply IH; [|exact Hes]. by rewrite <- image_apply, H, image_apply.
Qed.

Lemma owned_app es es' s : owned (es ++ es') s <-> owned es s /\ owned es' (replayEvents es s).
Proof. revert s. induction es as [|e es IH]; intros s; simpl; [tauto|]. rewrite IH. tauto. Qed.

(** [tracked k s s']: from [s] to [s'] the store logged events of their missions whose replay gives the image of [s']. *)
Definition tracked (k : bool) (s s' : Store) : Prop :=
  exists es, log s' = (log s ++ es)%list /\ image k s' = image k (replayEvents es s) /\ owned es s.

Lemma tracked_refl k s s' : log s' = log s -> image k s' = image k s -> tracked k s s'.
Proof. intros Hl Hi. exists []. by rewrite app_nil_r. Qed.

Lemma tracked_trans k a b c : tracked k a b -> tracked k b c -> tracked k a c.
Proof.
  intros (es & Hl & Hi & Ho) (es' & Hl' & Hi' & Ho'). exists (es ++ es')%list. split_and!.
  - by rewrite Hl', Hl, app_assoc.
  - rewrite Hi', replayEvents_app. by apply replay_image.
  - apply owned_app. split; [done|]. by eapply owned_image.
Qed.

Lemma tracked_keyed k a b : tracked k a b -> Keyed a -> Keyed b.
Proof. intros (es & _ & Hi & _) H. apply (Keyed_image k). rewrite Hi. by apply Keyed_image, Keyed_replay. Qed.

Lemma image_weaken a b : image true a = image true b -> image false a = image false b.
Proof.
  intros H. apply (f_equal (image false)) in H.
  assert (E : forall s, image false (image true s) = image false s).
  { intros s. unfold image. cbn. f_equal. unfold on_values. rewrite map_map. apply map_ext. intros [i m]. cbn.
    by destruct m as [? ? ? ? ? ? ? ? ? ? ? [?|] ? ? ? ? ? ?]. }
  by rewrite !E in H.
Qed.

Lemma tracked_weaken a b : tracked true a b -> tracked false a b.
Proof. intros (es & Hl & Hi & Ho). exists es. split_and!; [done|by apply image_weaken|done]. Qed.

(** ** What a mission sees *)

Definition listed {V} (f : V -> string) (m : string) (t : jsmap string V) : list V := js_filter (fun v => bool_decide (f v = m)) (map_values t).
#[global] Arguments listed : simpl never.

Lemma listed_set {V} (f : V -> string) m mid k v t : f v = mid -> held_by f t k mid -> m <> mid -> listed f m (map_set k v t) = listed f m t.
Proof.
  intros Hv Hh Hne. unfold listed. induction t as [|[k' w] t IH]; simpl.
  - by rewrite bool_decide_false by congruence.
  - unfold held_by in *. simpl in Hh. destruct (decide (k = k')) as [->|]; simpl.
    + rewrite (bool_decide_false (f v = m)) by congruence. rewrite bool_decide_false; [done|]. rewrite (Hh w) by done. congruence.
    + rewrite IH by done. done.
Qed.

Lemma listed_update {V} (f : V -> string) m mid k g t : (forall v, f (g v) = f v) -> held_by f t k mid -> m <> mid ->
  listed f m (map_update k g t) = listed f m t.
Proof.
  intros Hg Hh Hne. unfold map_update. destruct (map_get k t) as [v|] eqn:E; [|done]. apply (listed_set f m mid); [|done..].
  rewrite Hg. by apply Hh.
Qed.

(** Everything the store keeps of a mission: its record up to clock readings, tasks, executions, findings,
    classifications, decisions, supersessions, resumptions and stops. *)
Record View := mkView {
  v_mission : option Mission;
  v_tasks : list OrchestrationTask;
  v_executions : list Execution;
  v_findings : list ReviewFinding;
  v_classifications : list FailureClassification;
  v_decisions : list RecoveryDecision;
  v_supersessions : list TaskSupersession;
  v_resumptions : list MissionResumption;
  v_stops : list MissionStop
}.
Definition view (m : string) (s : Store) : View :=
  mkView (mission true <$> map_get m (missions s)) (listed t_mission m (tasks s)) (listed x_mission m (executions s))
    (listed f_mission_id m (findings s)) (listed fc_missionId m (failureClassifications s)) (listed rd_missionId m (recoveryDecisions s))
    (listed su_missionId m (taskSupersessions s)) (resumptions_of m s) (stops_of m s).
Definition revision (m : string) (s : Store) : option Z := m_revision <$> map_get m (missions s).

Lemma view_image m a b : image true a = image true b -> view m a = view m b /\ revision m a = revision m b.
Proof.
  intros H. assert (E : forall s, view m (image true s) = view m s /\ revision m (image true s) = revision m s).
  { intros s. unfold view, revision. cbn. rewrite on_values_get. destruct (map_get m (missions s)) as [x|]; [|done]. cbn. split; [|done].
    f_equal. f_equal. apply mission_twice. }
  destruct (E a) as [<- <-], (E b) as [<- <-]. by rewrite H.
Qed.

Lemma snoc_filter_other {A} (f : A -> string) m l x : f x <> m ->
  js_filter (fun v => bool_decide (f v = m)) (l ++ [x]) = js_filter (fun v => bool_decide (f v = m)) l.
Proof. intros H. rewrite js_filter_app. simpl. rewrite bool_decide_false by done. by rewrite app_nil_r. Qed.

Lemma get_update_other {V} m k g (t : jsmap string V) : m <> k -> map_get m (map_update k g t) = map_get m t.
Proof. intros H. rewrite map_get_update. by rewrite decide_False. Qed.

Lemma view_missions m s g : map_get m (g (missions s)) = map_get m (missions s) -> view m (on_missions g s) = view m s.
Proof. intros H. unfold view. cbn. by rewrite H. Qed.

Lemma view_canonical m k st l s : view m (recordCanonical k st l s) = view m s.
Proof. unfold recordCanonical. by repeat case_match. Qed.
Lemma view_record_start m x s : view m (recordAuthoritativeExecutionStart x s) = view m s.
Proof. unfold recordAuthoritativeExecutionStart. by repeat case_match. Qed.

(** An event of another mission leaves the view alone. *)
Lemma apply_other m e s : Keyed s -> belongs e s -> m <> ev_mission_id e -> view m (apply e s) = view m s.
Proof.
  intros HK Hb Hne. unfold apply. set (mid := ev_mission_id e) in *.
  assert (Hp : view m (apply_payload (ev_timestamp e) (ev_payload e) s) = view m s).
  { unfold belongs in Hb. fold mid in Hb. destruct (ev_payload e); cbn [apply_payload]; try done.
    - destruct Hb as [<- _]. apply view_missions. by apply map_get_set_ne.
    - destruct Hb as [-> _]. case_match; [|done]. rewrite view_canonical. apply view_missions. by apply map_get_set_ne.
    - destruct Hb as [-> _]. apply view_missions. by apply get_update_other.
    - subst missionId. apply view_missions. by apply get_update_other.
    - destruct Hb as [Ht Hh].
      assert (view m (set_task t s) = view m s) as <- by (unfold view; cbn; by rewrite (listed_set t_mission m mid) by auto with store).
      repeat case_match; try done. apply view_missions. apply map_get_set_ne.
      rewrite (proj2 (K_missions _ HK) _ _ H). congruence.
    - unfold view. cbn. rewrite (listed_update t_mission m mid); [done..| |done]. intros v Hv. by apply Hb.
    - case_match; [|done]. unfold view. cbn. by rewrite (listed_update t_mission m mid).
    - unfold view. cbn. by rewrite (listed_update t_mission m mid).
    - unfold view. cbn. rewrite (listed_update t_mission m mid); [done..| |done]. intros v Hv. by apply Hb.
    - destruct Hb as [Hx Hh]. assert (E : view m (set_execution x s) = view m s) by (unfold view; cbn; by rewrite (listed_set x_mission m mid) by auto with store).
      case_match; [by rewrite view_record_start|done].
    - unfold view. cbn. by rewrite (listed_update x_mission m mid).
    - destruct Hb as [Hx Hh]. assert (E : view m (set_execution x s) = view m s) by (unfold view; cbn; by rewrite (listed_set x_mission m mid) by auto with store).
      by case_match.
    - destruct Hb as [Hx Hh]. unfold view. cbn. by rewrite (listed_set x_mission m mid) by auto with store.
    - destruct Hb as [Hx Hh]. unfold view. cbn. by rewrite (listed_set x_mission m mid) by auto with store.
    - destruct Hb as [Hx Hh]. unfold view. cbn. by rewrite (listed_set f_mission_id m mid).
    - unfold view. cbn. by rewrite (listed_update f_mission_id m mid).
    - destruct Hb as [Hx Hh]. unfold view. cbn. by rewrite (listed_set fc_missionId m mid).
    - destruct Hb as (Hx & _ & _ & Hh).
      assert (E : view m (on_recoveryDecisions (map_set (rd_recoveryId d) d) s) = view m s)
        by (unfold view; cbn; rewrite (listed_set rd_missionId m mid); [done..| |done]; intros v Hv; by apply Hh).
      repeat case_match; try done. rewrite view_canonical, <- E. apply view_missions. apply map_get_set_ne. congruence.
    - destruct Hb as (Hx & Hh & _). unfold view. cbn. by rewrite (listed_set su_missionId m mid) by auto with store.
    - destruct Hb as [Hb _]. assert (E : view m (on_missionResumptions (fun l => l ++ [r])%list s) = view m s)
        by (unfold view; f_equal; apply snoc_filter_other; congruence).
      case_match; [|done]. rewrite <- E. apply view_missions, get_update_other. congruence.
    - unfold view. f_equal. apply snoc_filter_other. congruence. }
  case_match; [|done]. rewrite <- Hp. by apply view_missions, get_update_other.
Qed.

(** An event keeps the entries of missions, and its payload their revisions. *)
Lemma payload_keeps m e s x : Keyed s -> belongs e s -> map_get m (missions s) = Some x ->
  exists x', map_get m (missions (apply_payload (ev_timestamp e) (ev_payload e) s)) = Some x' /\ m_revision x' = m_revision x.
Proof.
  intros HK Hb Hx.
  assert (Hset : forall k y z, map_get k (missions s) = Some z -> m_revision y = m_revision z ->
    exists x', map_get m (map_set k y (missions s)) = Some x' /\ m_revision x' = m_revision x).
  { intros k y z Hz Hy. rewrite map_get_set. case_decide; [subst; exists y; split; [done|]; congruence|eauto]. }
  assert (Hupd : forall k g, (forall z, m_revision (g z) = m_revision z) ->
    exists x', map_get m (map_update k g (missions s)) = Some x' /\ m_revision x' = m_revision x).
  { intros k g Hg. rewrite map_get_update. case_decide; [|eauto]. rewrite Hx. cbn. eauto. }
  unfold belongs in Hb. destruct (ev_payload e); cbn [apply_payload]; try by eauto.
  - destruct Hb as [E Hn]. cbn. rewrite map_get_set_ne; [eauto|]. intros E'. congruence.
  - case_match eqn:Hk; [|eauto]. unfold recordCanonical. repeat case_match; (eapply Hset; [eassumption|reflexivity]).
  - by apply Hupd.
  - by apply Hupd.
  - cbn [set_task on_tasks missions]. case_match eqn:Hk; [|eauto]. case_match; [eauto|]. apply (Hset _ _ m0); [|done].
    rewrite (proj2 (K_missions _ HK) _ _ Hk). exact Hk.
  - case_match; eauto.
  - case_match; [|eauto]. unfold recordAuthoritativeExecutionStart. repeat case_match; eauto.
  - case_match; eauto.
  - repeat case_match; try by eauto. unfold recordCanonical. repeat case_match; (eapply Hset; [eassumption|reflexivity]).
  - case_match; [|eauto]. by apply Hupd.
Qed.

(** *** Revisions order what a mission sees *)

(** From [s] to [s'] the revision of [m] does not go back, and where it stayed nothing of [m] changed. *)
Definition ordered (m : string) (s s' : Store) : Prop :=
  forall x, map_get m (missions s) = Some x ->
  exists x', map_get m (missions s') = Some x' /\ m_revision x <= m_revision x' /\ (m_revision x' = m_revision x -> view m s' = view m s).

Lemma ordered_trans m a b c : ordered m a b -> ordered m b c -> ordered m a c.
Proof.
  intros H1 H2 x Hx. destruct (H1 x Hx) as (y & Hy & L1 & E1), (H2 y Hy) as (z & Hz & L2 & E2). exists z. split_and!; [done|lia|].
  intros E. rewrite E2, E1 by lia. done.
Qed.

Lemma ordered_same m s s' : view m s' = view m s -> ordered m s s'.
Proof.
  intros E x Hx. pose proof (f_equal v_mission E) as Em. cbn in Em. rewrite Hx in Em.
  destruct (map_get m (missions s')) as [x'|]; [|done]. exists x'. split_and!; try done. injection Em. intros. lia.
Qed.

Lemma ordered_advance m mid s : ordered m s (advanceMissionRevision mid s).
Proof.
  destruct (decide (mid = m)) as [->|Hne]; [|apply ordered_same, view_missions, get_update_other; congruence].
  intros x Hx. cbn. rewrite map_get_update, decide_True, Hx by done. eexists. split; [done|]. cbn. split; [lia|lia].
Qed.

Lemma ordered_apply m e s : Keyed s -> belongs e s -> ordered m s (apply e s).
Proof.
  intros HK Hb. destruct (decide (m = ev_mission_id e)) as [->|Hne]; [|by apply ordered_same, apply_other].
  unfold apply. destruct (counts_as_revision _) eqn:Hc; [|destruct (ev_payload e); try done; by apply ordered_same].
  intros x Hx. destruct (payload_keeps _ _ _ _ HK Hb Hx) as (x' & Hx' & Hr). cbn. rewrite map_get_update, decide_True, Hx' by done.
  eexists. split; [done|]. cbn. split; lia.
Qed.

Lemma ordered_replay m es s : Keyed s -> owned es s -> ordered m s (replayEvents es s).
Proof.
  revert s. induction es as [|e es IH]; intros s HK Ho; [by apply ordered_same|]. destruct Ho as [He Hes]. cbn.
  eapply ordered_trans; [by apply ordered_apply|]. apply IH; [by apply Keyed_apply|done].
Qed.

Lemma ordered_tracked m s s' : Keyed s -> tracked true s s' -> ordered m s s'.
Proof.
  intros HK (es & _ & Hi & Ho) x Hx. destruct (ordered_replay m es s HK Ho x Hx) as (x' & Hx' & HL & HE).
  destruct (view_image m _ _ Hi) as [Hv Hr]. unfold revision in Hr. rewrite Hx' in Hr.
  destruct (map_get m (missions s')) as [y|]; [|done]. injection Hr as Hr. exists y. split_and!; [done|lia|]. intros E. rewrite Hv. apply HE. lia.
Qed.

Section Operations.
Context (Date_now : nat -> string) (fresh : string -> nat -> string).
Context (coverage_sha256 : list string * string * string -> string) (failure_sha256 : FingerprintInput -> string).
Context (Date_valid : string -> bool).
Notation emit := (emit Date_now fresh).

(** The time and the store an emission ends with. *)
Definition time_of (ts : option string) (s : Store) : string := match ts with Some t => t | None => Date_now (clock s) end.
Definition emitted (mid : string) (p : Payload) (ts : option string) (s : Store) : OrchestrationEvent :=
  mkEvent (fresh "oevt" (id_seq s)) mid (time_of ts s) p.
Definition revised (mid : string) (p : Payload) (s : Store) : Store :=
  if counts_as_revision p then advanceMissionRevision mid s else s.

Lemma emit_run mid p ts s :
  emit mid p ts s =
  (on_pendingWrites (fun l => l ++ [emitted mid p ts s])%list
     (revised mid p (on_id_seq S (match ts with Some _ => s | None => on_clock S s end))), Ok (emitted mid p ts s)).
Proof. unfold MissionStore.emit, revised, emitted, bind. by destruct ts, (counts_as_revision p). Qed.

Lemma bind_emit {A} mid p ts (f : OrchestrationEvent -> M A) s :
  bind (emit mid p ts) f s = f (emitted mid p ts s) (emit mid p ts s).1.
Proof. unfold bind. by rewrite emit_run. Qed.

(** An operation that wrote its tables, giving [u], and then emits. *)
Lemma tracked_emit k s u mid p ts :
  log u = log s -> belongs (mkEvent "" mid (time_of ts u) p) s ->
  image k (revised mid p u) = image k (revised mid p (apply_payload (time_of ts u) p s)) -> tracked k s (emit mid p ts u).1.
Proof.
  intros Hl Hb Hi. rewrite emit_run. exists [emitted mid p ts u]. split_and!.
  - unfold log in *. unfold revised. destruct (counts_as_revision p), ts; cbn; by rewrite <- Hl, app_assoc.
  - cbn. transitivity (image k (revised mid p u)).
    + unfold revised. by destruct (counts_as_revision p), ts.
    + rewrite Hi. done.
  - by split.
Qed.

Lemma tracked_one k s s' e : log s' = (log s ++ [e])%list -> belongs e s -> image k s' = image k (apply e s) -> tracked k s s'.
Proof. intros Hl Hb Hi. exists [e]. by split_and!. Qed.

(** *** Evaluation of computations *)

Lemma bind_bind {A B C} (m : M A) (f : A -> M B) (g : B -> M C) s : bind (bind m f) g s = bind m (fun a => bind (f a) g) s.
Proof. unfold bind. by destruct (m s) as [s' [a|e]]. Qed.
Lemma bind_gets {A B} (f : Store -> A) (g : A -> M B) s : bind (gets f) g s = g (f s) s.
Proof. done. Qed.
Lemma bind_modify {B} f (g : unit -> M B) s : bind (modify f) g s = g tt (f s).
Proof. done. Qed.
Lemma bind_ret {A B} (a : A) (g : A -> M B) s : bind (ret a) g s = g a s.
Proof. done. Qed.
Lemma bind_fail {A B} e (g : A -> M B) s : bind (fail e) g s = (s, Err e).
Proof. done. Qed.
Lemma bind_now {B} (g : string -> M B) s : bind (now Date_now) g s = g (Date_now (clock s)) (on_clock S s).
Proof. done. Qed.
Lemma bind_id {B} x (g : string -> M B) s : bind (id fresh x) g s = g (fresh x (id_seq s)) (on_id_seq S s).
Proof. done. Qed.

Lemma run_modify f s : (modify f s).1 = f s.
Proof. done. Qed.
Lemma run_ret {A} (a : A) s : (ret a s).1 = s.
Proof. done. Qed.
Lemma run_fail {A} e s : (fail (A := A) e s).1 = s.
Proof. done. Qed.
Lemma bind_guard {B} b e (g : unit -> M B) s : bind (guard_ b e) g s = if b then g tt s else (s, Err e).
Proof. by destruct b. Qed.
Lemma bind_require {A B} (o : option A) e (g : A -> M B) s : bind (require o e) g s = match o with Some a => g a s | None => (s, Err e) end.
Proof. by destruct o. Qed.
Lemma bind_when {B} b m (g : unit -> M B) s : bind (when b m) g s = if b then bind m g s else g tt s.
Proof. by destruct b. Qed.
Lemma bind_assert_mission {B} a b (g : unit -> M B) s :
  bind (assert_mission a b) g s = if Mission.canTransitionMission a b then g tt s else (s, Err (illegal_mission_transition a b)).
Proof. unfold assert_mission, Mission.assertMissionTransition. by destruct (Mission.canTransitionMission a b). Qed.
Lemma bind_assert_task {B} a b (g : unit -> M B) s :
  bind (assert_task a b) g s = if Task.canTransitionTask a b then g tt s else (s, Err (illegal_task_transition a b)).
Proof. unfold assert_task, Task.assertTaskTransition. by destruct (Task.canTransitionTask a b). Qed.

Ltac eval_m := repeat (cbn beta iota; first
  [rewrite bind_bind | rewrite bind_gets | rewrite bind_modify | rewrite bind_ret | rewrite bind_fail | rewrite bind_now | rewrite bind_id
  | rewrite bind_emit | rewrite bind_guard | rewrite bind_require | rewrite bind_when | rewrite bind_assert_mission | rewrite bind_assert_task]).
(** Branches on what the next step of a computation depends on. *)
Ltac branch :=
  match goal with
  | |- tracked _ _ (bind (match ?o with _ => _ end) _ _).1 => destruct o eqn:?
  | |- tracked _ _ (match ?o with _ => _ end _).1 => destruct o eqn:?
  | |- tracked _ _ (match ?o with _ => _ end).1 => destruct o eqn:?
  end.
Ltac go := unfold mission_of, task_of, execution_of, validateTaskTransitionMetadata, validateMissionUpdatePatch;
  repeat (eval_m; try branch); rewrite ?run_modify, ?run_ret, ?run_fail; cbn [fst].
Ltac quiet := by apply tracked_refl.

(** Closes the image equation of an emission: both sides are tables written at the same keys. *)
Ltac fields m := destruct m as [? ? ? ? ? ? ? ? ? ? ? [?|] ? ? ? ? ? ?].
Ltac fields_of := match goal with m : Mission |- _ => fields m end.
Ltac found := repeat match goal with H : map_get _ _ = Some _ |- _ => rewrite !(map_update_some _ _ _ _ H) || (rewrite H; cbn beta iota) end.
Lemma record_none key st s : recordCanonical key st None s = s.
Proof. by destruct st. Qed.
Ltac same_image :=
  unfold image, revised, advanceMissionRevision; cbn [counts_as_revision apply_payload]; found;
  rewrite ?record_none; unfold set_mission, set_task, set_execution; cbn; found; cbn; rewrite ?map_update_set, ?on_values_set; try reflexivity.

Lemma held_now {V} (f : V -> string) (t : jsmap string V) k v : map_get k t = Some v -> held_by f t k (f v).
Proof. intros H w. congruence. Qed.
Hint Resolve held_now : store.

(** Closes the side condition of an event that writes the record of its mission. *)
Ltac mission_event :=
  try split_and!; try done; intros ? ? ? ?; unfold mbind, option_bind in *; cbn in *; simplify_eq; try congruence;
  match goal with H : bool_decide (p_status _ = None) = true |- _ => apply bool_decide_eq_true in H; congruence end.

Lemma createMission_tracked k i s :
  map_get (nullish (mi_mission_id i) (fresh "MSN" (id_seq s))) (missions s) = None ->
  tracked k s (createMission Date_now fresh i s).1.
Proof. intros H. unfold createMission. go; simpl in H; by apply tracked_emit. Qed.

Lemma updateMission_tracked k mid patch s : tracked k s (updateMission Date_now fresh mid patch s).1.
Proof.
  unfold updateMission. go; try quiet. apply tracked_emit; [done|mission_event|].
  same_image.
Qed.

Lemma transitionTask_tracked k taskId to md s : tracked k s (transitionTask Date_now fresh taskId to md s).1.
Proof.
  unfold transitionTask. go; try quiet. rewrite emit_run. apply (tracked_one _ _ _ (emitted (t_mission o) (task_event (task_event_type to) taskId to md) None s)).
  - unfold log. cbn. by rewrite app_assoc.
  - intros t Ht. by simplify_eq.
  - unfold apply. same_image.
Qed.
Hint Resolve updateMission_tracked transitionTask_tracked : store.

(** A task's transition leaves the executions and the other tasks alone. *)
Lemma transitionTask_frame taskId to md s :
  executions (transitionTask Date_now fresh taskId to md s).1 = executions s /\
  forall key, key <> taskId -> map_get key (tasks (transitionTask Date_now fresh taskId to md s).1) = map_get key (tasks s).
Proof.
  unfold transitionTask, task_of, validateTaskTransitionMetadata. eval_m.
  destruct (map_get taskId (tasks s)) as [t|]; [|done]. eval_m. case_match; [|done]. eval_m.
  destruct (Task.canTransitionTask _ _); [|done]. eval_m. rewrite run_modify, emit_run. split; [done|]. intros key Hne.
  change (map_get key (map_set taskId (transitioned (Date_now (clock s)) to md t) (tasks s)) = map_get key (tasks s)). by apply map_get_set_ne.
Qed.

Lemma markOperatorPause_tracked k mid s : tracked k s (markOperatorPause Date_now fresh mid s).1.
Proof.
  unfold markOperatorPause. go; try quiet. eapply tracked_trans; [|apply updateMission_tracked]. quiet.
Qed.

Lemma clearOperatorPause_tracked k mid s : tracked k s (clearOperatorPause Date_now fresh mid s).1.
Proof. unfold clearOperatorPause. go; try quiet. apply updateMission_tracked. Qed.

Lemma completeMission_tracked k mid g s : tracked k s (completeMission Date_now fresh mid g s).1.
Proof.
  unfold completeMission. go; try quiet. apply tracked_emit; [done|mission_event|]. same_image.
Qed.

Lemma failMission_tracked k mid reason s : reason <> "" -> tracked k s (failMission Date_now fresh mid reason s).1.
Proof.
  intros Hr. unfold failMission. go; try quiet. apply tracked_emit; [done..|]. destruct reason; [done|]. same_image.
Qed.

Lemma addAcceptanceCriterion_tracked k mid c ev ac s : tracked k s (addAcceptanceCriterion Date_now fresh mid c ev ac s).1.
Proof.
  unfold addAcceptanceCriterion. go; try quiet; (apply tracked_emit; [done|mission_event|]); same_image.
Qed.

Lemma setCriterionStatus_tracked k mid i st ev s : tracked k s (setCriterionStatus Date_now fresh mid i st ev s).1.
Proof. unfold setCriterionStatus. go; try quiet. apply tracked_emit; [done|mission_event|]. same_image. Qed.

(** *** Transitions of missions *)

(** Writing a classification of a failure of the mission and announcing it. *)
Lemma put_classification_tracked k mid c ts s : fc_missionId c = mid ->
  held_by fc_missionId (failureClassifications s) (fc_classificationId c) mid ->
  tracked k s (emit mid (failure_classified c) ts (put_classification c s)).1.
Proof. intros H1 H2. apply tracked_emit; [done..|]. same_image. Qed.

Lemma for_each_tracked {A} k (I : Store -> Prop) (l : list A) (f : A -> M unit) s :
  I s -> (forall a s, a ∈ l -> I s -> I (f a s).1 /\ tracked k s (f a s).1) -> I (for_each l f s).1 /\ tracked k s (for_each l f s).1.
Proof.
  revert s. induction l as [|a l IH]; intros s Hs Hf; simpl; [split; [done|quiet]|].
  destruct (Hf a s) as [H1 H2]; [left|done|]. unfold bind. destruct (f a s) as [s1 [[]|e]] eqn:E; simpl in *; [|done].
  destruct (IH s1) as [H3 H4]; [done|intros; apply Hf; [by right|done]|]. split; [done|]. by eapply tracked_trans.
Qed.

Lemma associate_failures_tracked k mid at_ s : Keyed s -> tracked k s (associate_failures Date_now fresh mid at_ s).1.
Proof.
  intros HK. unfold associate_failures. go; [|quiet]. rename s0 into ep.
  pose proof (K_classifications _ HK) as [Hok Hkey].
  eapply (for_each_tracked k (fun s' => forall c, map_get c (failureClassifications s') = None \/
     exists d, map_get c (failureClassifications s') = Some d /\ (fc_missionId <$> map_get c (failureClassifications s)) = Some (fc_missionId d))).
  - intros c. destruct (map_get c _) as [d|]; [right|by left]. eauto.
  - intros c s' Hc Hs'. apply js_filter_elem in Hc as [Hin [Hm _]%andb_true_iff]. apply bool_decide_eq_true in Hm.
    assert (Hget : map_get (fc_classificationId c) (failureClassifications s) = Some c).
    { apply list_elem_of_fmap in Hin as ([key c'] & -> & Hin). simpl in *. pose proof (map_elem_get _ _ _ Hok Hin) as Hg.
      by rewrite (Hkey _ _ Hg). }
    split.
    + intros x. go. rewrite emit_run. unfold revised. cbn. rewrite map_get_set. case_decide as Hd; [|done]. subst x. right.
      eexists. split; [done|]. by rewrite Hget.
    + go. apply put_classification_tracked; [done|]. intros d Hd. cbn in Hd. destruct (Hs' (fc_classificationId c)) as [Hn|(d' & Hd' & He)]; [congruence|].
      rewrite Hget in He. cbn in He. congruence.
Qed.

Lemma when_associate k b mid at_ s u : Keyed s -> tracked k s u -> tracked k s (when b (associate_failures Date_now fresh mid at_) u).1.
Proof.
  intros HK H. destruct b; [|done]. eapply tracked_trans; [exact H|]. apply associate_failures_tracked. by eapply tracked_keyed.
Qed.

Lemma decision_key s r d : Keyed s -> map_get r (recoveryDecisions s) = Some d -> rd_recoveryId d = r.
Proof. intros HK H. by apply (proj2 (K_decisions _ HK)) in H. Qed.

Lemma transitionMission_tracked k mid to rid s : Keyed s -> tracked k s (transitionMission Date_now fresh mid to rid s).1.
Proof.
  intros HK. unfold transitionMission, repair_decision. go; try quiet; apply when_associate; try done.
  3, 4: apply tracked_emit; [done|mission_event|]; same_image.
  all: apply negb_true_iff in Heqb1; apply orb_false_iff in Heqb1 as [[Hm%negb_false_iff _]%orb_false_iff _];
    apply bool_decide_eq_true in Hm; apply bind_Some in Heqo0 as (x & _ & Hx); pose proof (decision_key _ _ _ HK Hx) as Hkey; subst x mid;
    apply bool_decide_eq_true in Heqb2;
    (apply tracked_emit; [done|split_and!; [done..|mission_event|]; intros o Ho; cbn in *; simplify_eq; by rewrite Heqb2|]); same_image.
Qed.

(** *** Tasks and executions *)

(** A new task and its place in the mission. *)
Lemma new_task_tracked k t s u :
  Keyed s -> map_get (t_id t) (tasks s) = None ->
  (forall m, map_get (t_mission t) (missions s) = Some m -> t_id t ∉ m_task_ids m) ->
  log u = log s -> image k u = image k s ->
  tracked k s (emit (t_mission t) (task_created t) None
    match map_get (t_mission t) (missions u) with
    | Some m => set_mission (m_id m) (with_task (t_id t) (t_created_at (t_spec t)) m) (set_task t u)
    | None => set_task t u
    end).1.
Proof.
  intros HK Hn Ht Hl Hi. apply tracked_emit; [destruct (map_get _ (missions u)); exact Hl|by split|].
  set (p := task_created t). match goal with |- image k (revised _ _ ?w) = _ => set (v := w) end.
  assert (E : v = apply_payload (time_of None v) p u).
  { unfold v, p. cbn [apply_payload set_task on_tasks missions]. destruct (map_get (t_mission t) (missions u)) as [m|] eqn:Em; [|done].
    assert (exists m', map_get (t_mission t) (missions s) = Some m' /\ m_task_ids m' = m_task_ids m) as (m' & Hm' & Hids).
    { pose proof (image_missions_get k (t_mission t) u) as G. rewrite Hi, image_missions_get, Em in G.
      destruct (map_get (t_mission t) (missions s)) as [m'|]; [|done]. exists m'. split; [done|]. by injection G. }
    case_match eqn:Ei; [|done]. apply js_includes_true in Ei. rewrite <- Hids in Ei. by apply Ht in Hm'. }
  assert (Hr : forall a b, image k a = image k b -> image k (revised (t_mission t) p a) = image k (revised (t_mission t) p b)).
  { intros a b Hab. unfold revised, p. cbn. by rewrite <- image_advance, Hab, image_advance. }
  apply Hr. rewrite E at 1. by rewrite <- image_payload, Hi, image_payload.
Qed.

Lemma createTask_tracked k i lease s :
  let key := nullish (ti_task_id i) (fresh "TSK" (id_seq s)) in
  Keyed s -> map_get key (tasks s) = None ->
  (forall m, map_get (ti_mission_id i) (missions s) = Some m -> key ∉ m_task_ids m) ->
  tracked k s (createTask Date_now fresh i lease s).1.
Proof.
  intros key HK Hn Ht. unfold createTask. eval_m.
  assert (Hput : forall u x, log u = log s -> image k u = image k s -> missions u = missions s -> t_id x = key -> t_mission x = ti_mission_id i ->
    tracked k s (emit (ti_mission_id i) (task_created x) None
      match map_get (ti_mission_id i) (missions u) with
      | Some m => set_mission (m_id m) (with_task key (t_created_at (t_spec x)) m) (set_task x u)
      | None => set_task x u
      end).1).
  { intros u x Hl Hi Hm Hk Hx. rewrite <- Hx, <- Hk. apply new_task_tracked; rewrite ?Hk, ?Hx; done. }
  unfold key in *. clear key.
  destruct (ti_task_id i) as [k0|]; eval_m; cbn [nullish] in *;
    match goal with |- context [set_task ?t ?u] => set (x := t); specialize (Hput u x eq_refl eq_refl eq_refl eq_refl eq_refl);
      change (missions (set_task x u)) with (missions u); destruct (map_get (ti_mission_id i) (missions u)); eval_m; exact Hput end.
Qed.

Lemma assignTaskAuthority_tracked k taskId lease s : tracked k s (assignTaskAuthority Date_now fresh taskId lease s).1.
Proof. unfold assignTaskAuthority. go; try quiet. apply tracked_emit; [done|cbn; eauto with store|]. same_image. Qed.

Lemma assignTaskExecution_tracked k taskId x s : tracked k s (assignTaskExecution Date_now fresh taskId x s).1.
Proof. unfold assignTaskExecution. go; try quiet. all: apply tracked_emit; [done|cbn; eauto with store|]; same_image. Qed.

Lemma steerTask_tracked k taskId request s : request <> "" -> tracked k s (steerTask Date_now fresh taskId request s).1.
Proof.
  intros Hr. unfold steerTask. go; try quiet. apply tracked_emit; [done|cbn; eauto with store|].
  assert (truthy request = true) as Ht by by destruct request. cbn [apply_payload]. rewrite Ht. same_image.
Qed.

Lemma given_given o : given (given o) = given o.
Proof. destruct o as [x|]; [|done]. cbn. destruct (truthy x) eqn:E; [|done]. cbn. by rewrite E. Qed.
(** The event carries a checkpoint only if it is given. *)
Lemma model_switched_given model sha t : model_switched model (given sha) t = model_switched model sha t.
Proof. unfold model_switched. by rewrite given_given. Qed.

Lemma switch_tracked k taskId t model sha sha' s :
  map_get taskId (tasks s) = Some t -> js_includes (t_status t) TERMINAL_TASK_STATUSES = false -> given sha' = given sha ->
  tracked k s (emit (t_mission t) (task_model_switched taskId model sha') None
                 (on_tasks (map_set taskId (model_switched model sha t)) s)).1.
Proof.
  intros Ht Hs Hsha. apply tracked_emit; [done|cbn; intros x Hx; by simplify_eq|].
  rewrite <- (model_switched_given _ sha), <- Hsha, model_switched_given. same_image.
Qed.

Lemma switchTaskModel_tracked k taskId model sha s : tracked k s (switchTaskModel Date_now fresh taskId model sha s).1.
Proof.
  unfold switchTaskModel, live_task. go; try quiet. all: apply switch_tracked; [done| |by rewrite ?given_given]; by apply negb_true_iff.
Qed.
Lemma resumeTaskFromCheckpoint_tracked k taskId sha s : tracked k s (resumeTaskFromCheckpoint Date_now fresh taskId sha s).1.
Proof.
  unfold resumeTaskFromCheckpoint, live_task. go; try quiet. all: apply switch_tracked; [done| |done]; by apply negb_true_iff.
Qed.

Lemma createExecution_tracked k i s : map_get (fresh "EXC" (id_seq s)) (executions s) = None ->
  tracked k s (createExecution Date_now fresh i s).1.
Proof. intros H. unfold createExecution. go. apply tracked_emit; [done|split; [done|]; intros ? ?; cbn in *; congruence|]. same_image. Qed.

Lemma execution_key s key x : Keyed s -> map_get key (executions s) = Some x -> x_id x = key.
Proof. intros HK H. by apply (proj2 (K_executions _ HK)) in H. Qed.

(** The order of authoritative starts is recorded from the tables of tasks and starts alone. *)
Lemma record_start_clock x f s : recordAuthoritativeExecutionStart x (on_clock f s) = on_clock f (recordAuthoritativeExecutionStart x s).
Proof. unfold recordAuthoritativeExecutionStart. cbn. by repeat case_match. Qed.

Lemma log_record_start x s : log (recordAuthoritativeExecutionStart x s) = log s.
Proof. unfold recordAuthoritativeExecutionStart. by repeat case_match. Qed.

Lemma setExecutionStatus_tracked k key st extra s : Keyed s -> tracked k s (setExecutionStatus Date_now fresh key st extra s).1.
Proof.
  intros HK. unfold setExecutionStatus. go; try quiet; pose proof (execution_key _ _ _ HK Heqo) as E;
    set (next := with_status (Date_now (clock s)) st extra e);
    (assert (Hb : forall ts, belongs (mkEvent "" (x_mission e) ts (execution_event (execution_event_type st) next)) s)
      by (intros ts; split; [done|]; change (x_id next) with (x_id e); rewrite E; intros y Hy; by simplify_eq));
    (assert (Hx : on_executions (map_set key next) s = set_execution next s) by (unfold set_execution; change (x_id next) with (x_id e); by rewrite E)).
  - apply bool_decide_eq_true in Heqb. change (on_executions (map_set key next) (on_clock S s)) with (on_clock S (on_executions (map_set key next) s)).
    rewrite Hx, record_start_clock. apply tracked_emit; [exact (log_record_start next (set_execution next s))|apply Hb|].
    subst st. cbn [apply_payload execution_event_type]. rewrite bool_decide_true by done. reflexivity.
  - change (on_executions (map_set key next) (on_clock S s)) with (on_clock S (on_executions (map_set key next) s)). rewrite Hx.
    apply tracked_emit; [done|apply Hb|]. cbn [apply_payload]. rewrite (bool_decide_false (execution_event_type st = execution_started)); [done|].
    apply bool_decide_eq_false in Heqb. by destruct st.
Qed.

Lemma set_execution_same x s : map_get (x_id x) (executions s) = Some x -> set_execution x s = s.
Proof. intros H. unfold set_execution. destruct s. cbn in *. unfold on_executions. cbn. by rewrite map_set_same. Qed.

Lemma rejectLateExecution_tracked k key reason s : Keyed s -> tracked k s (rejectLateExecution Date_now fresh key reason s).1.
Proof.
  intros HK. unfold rejectLateExecution. go; try quiet; pose proof (execution_key _ _ _ HK Heqo) as E; subst key.
  all: apply tracked_emit; [done|split; [done|intros y Hy; unfold x_id in *; cbn in *; by simplify_eq]|]; cbn [apply_payload]; rewrite ?Heqb0; try reflexivity.
  all: by rewrite set_execution_same.
Qed.

Lemma execution_written k mid x p ts s : (p = execution_orphaned x \/ p = execution_reconciled x) ->
  x_mission x = mid -> (forall y, map_get (x_id x) (executions s) = Some y -> x_spec y = x_spec x) ->
  tracked k s (emit mid p ts (set_execution x s)).1.
Proof. intros [-> | ->] H1 H2; (apply tracked_emit; [done|by split|]); reflexivity. Qed.

Lemma reconcile_one_tracked k mid x s :
  Keyed s -> map_get (x_id x) (executions s) = Some x -> x_mission x = mid ->
  tracked k s (reconcile_one Date_now fresh mid x s).1 /\
  (forall key, key <> x_id x -> map_get key (executions (reconcile_one Date_now fresh mid x s).1) = map_get key (executions s)).
Proof.
  intros HK Hx Hm. unfold reconcile_one. eval_m.
  set (s1 := (emit mid (execution_orphaned x) None s).1). set (x' := canceled _ _ x).
  set (s2 := (emit mid (execution_reconciled x') None (set_execution x' (on_clock S s1))).1).
  assert (H1 : tracked k s s1).
  { unfold s1. rewrite <- (set_execution_same x s Hx) at 2. apply execution_written; [by left|done|]. intros y Hy. by simplify_eq. }
  assert (E1 : executions s1 = executions s) by (unfold s1; by rewrite emit_run).
  assert (H2 : tracked k s1 s2).
  { eapply tracked_trans; [apply (tracked_refl k s1 (on_clock S s1)); done|]. apply execution_written; [by right|done|].
    intros y. change (map_get (x_id x) (executions s1) = Some y -> x_spec y = x_spec x). rewrite E1. intros. congruence. }
  assert (E2 : forall key, key <> x_id x -> map_get key (executions s2) = map_get key (executions s)).
  { intros key Hne. unfold s2. rewrite emit_run. change (map_get key (map_set (x_id x) x' (executions s1)) = map_get key (executions s)).
    rewrite map_get_set_ne by done. by rewrite E1. }
  pose proof (tracked_trans _ _ _ _ H1 H2) as H12.
  destruct (map_get (x_task x) (tasks s2)) as [t0|]; [|done]. destruct (_ && _); [|done].
  unfold bind. destruct (transitionTask_frame (t_id t0) Task.RETRYING (reason_metadata "orphaned execution fenced during mission recovery") s2) as [F1 F2].
  pose proof (transitionTask_tracked k (t_id t0) Task.RETRYING (reason_metadata "orphaned execution fenced during mission recovery") s2) as T1.
  destruct (transitionTask _ _ _ _ _ s2) as [s3 [[]|er]]; cbn [fst snd] in *.
  - destruct (transitionTask_frame (t_id t0) Task.READY no_metadata s3) as [F3 F4]. split.
    + eapply tracked_trans; [|apply transitionTask_tracked]. by eapply tracked_trans.
    + intros key Hne. rewrite F3, F1. auto.
  - split; [by eapply tracked_trans|]. intros key Hne. rewrite F1. auto.
Qed.

Lemma executions_listed s mid x : Keyed s -> x ∈ executions_of mid s -> map_get (x_id x) (executions s) = Some x /\ x_mission x = mid.
Proof.
  intros HK [Hin Hm%bool_decide_eq_true]%js_filter_elem. split; [|done].
  apply list_elem_of_fmap in Hin as ([key y] & -> & Hin). destruct (K_executions _ HK) as [Hok Hk].
  pose proof (map_elem_get _ _ _ Hok Hin) as Hg. cbn in *. by rewrite (Hk _ _ Hg).
Qed.

Lemma executions_NoDup s mid : Keyed s -> NoDup (map x_id (executions_of mid s)).
Proof.
  intros HK. destruct (K_executions _ HK) as [Hok Hk]. unfold executions_of, map_ok, map_keys, map_values in *.
  assert (E : map x_id ((executions s).*2) = (executions s).*1).
  { assert (H : forall kx, kx ∈ executions s -> x_id kx.2 = kx.1) by (intros [key x] Hin; by apply Hk, map_elem_get).
    clear -H. induction (executions s) as [|[key x] l IH]; [done|]. simpl. f_equal; [apply (H (key, x)); left|]. apply IH. intros. apply H. by right. }
  rewrite <- E in Hok. clear -Hok. induction ((executions s).*2) as [|x l IH]; [constructor|]. apply NoDup_cons in Hok as [H1 H2]. simpl.
  case_match; [|auto]. simpl. apply NoDup_cons. split; [|auto]. intros (y & Hy & [Hin _]%js_filter_elem)%list_elem_of_fmap.
  apply H1, list_elem_of_fmap. eauto.
Qed.

(** The executions captured at the start are still what the store holds when their turn comes. *)
Lemma reconcile_all_tracked k mid xs s :
  Keyed s -> NoDup (map x_id xs) -> (forall x, x ∈ xs -> map_get (x_id x) (executions s) = Some x /\ x_mission x = mid) ->
  tracked k s (for_each xs (reconcile_one Date_now fresh mid) s).1.
Proof.
  revert s. induction xs as [|x xs IH]; intros s HK Hnd Hx; [quiet|]. simpl. apply NoDup_cons in Hnd as [Hn Hnd].
  destruct (Hx x) as [Hg Hm]; [left|]. destruct (reconcile_one_tracked k mid x s HK Hg Hm) as [Ht Hf].
  unfold bind. destruct (reconcile_one _ _ mid x s) as [s1 [[]|e]]; cbn [fst snd] in *; [|done].
  eapply tracked_trans; [exact Ht|]. apply IH; [by eapply tracked_keyed|done|]. intros y Hy. rewrite Hf; [apply Hx; by right|].
  intros E. apply Hn, list_elem_of_fmap. by exists y.
Qed.

Lemma reconcileOrphanedExecutions_tracked k mid s : Keyed s -> tracked k s (reconcileOrphanedExecutions Date_now fresh mid s).1.
Proof.
  intros HK. unfold reconcileOrphanedExecutions. eval_m. apply reconcile_all_tracked; [done| |].
  - assert (H : forall l, NoDup (map x_id l) -> NoDup (map x_id (js_filter (fun x => bool_decide (x_status x = x_RUNNING)) l))).
    { induction l as [|x l IH]; [done|]. intros [H1 H2]%NoDup_cons. simpl. case_match; [|auto]. simpl. apply NoDup_cons. split; [|auto].
      intros (y & Hy & [Hin _]%js_filter_elem)%list_elem_of_fmap. apply H1, list_elem_of_fmap. eauto. }
    by apply H, executions_NoDup.
  - intros x [Hin _]%js_filter_elem. by apply executions_listed.
Qed.

Lemma requeueResumableTasks_tracked k mid s : tracked k s (requeueResumableTasks Date_now fresh mid s).1.
Proof.
  unfold requeueResumableTasks. eval_m. apply (for_each_tracked k (fun _ => True)); [done|]. intros t s' _ _. split; [done|].
  destruct (bool_decide _); [apply transitionTask_tracked|quiet].
Qed.

(** *** Findings, waits, disk suspensions *)

Lemma recordLaneEvent_tracked k type mid s : tracked k s (recordLaneEvent Date_now fresh type mid s).1.
Proof. unfold recordLaneEvent. go. by apply tracked_emit. Qed.

Lemma addFinding_tracked k f s : map_get (fresh "F" (id_seq s)) (findings s) = None -> tracked k s (addFinding Date_now fresh f s).1.
Proof. intros H. unfold addFinding. go. apply tracked_emit; [done|split; [done|]; intros ? ?; cbn in *; congruence|]. same_image. Qed.

Lemma resolveFinding_tracked k key s : tracked k s (resolveFinding Date_now fresh key s).1.
Proof. unfold resolveFinding. go; try quiet. apply tracked_emit; [done|cbn; eauto with store|]. same_image. Qed.

Lemma advance_image_false mid s : image false (advanceMissionRevision mid s) = image false s.
Proof.
  unfold image. cbn. f_equal. unfold map_update. destruct (map_get mid (missions s)) as [m|] eqn:E; [|done].
  rewrite on_values_set. apply map_set_same. by rewrite on_values_get, E.
Qed.

(** A wait is announced and applied, so the live store counts it twice: its replay agrees up to the revision. *)
Lemma repository_wait_tracked mid p s :
  match p with repository_wait _ _ | repository_wait_cleared _ => True | _ => False end -> tracked false s (apply_emitted Date_now fresh mid p s).1.
Proof.
  intros Hp. unfold apply_emitted. eval_m. rewrite run_modify, emit_run. cbn [fst].
  apply (tracked_one _ _ _ (emitted mid p None s)); destruct p; try done.
  1, 2: unfold log, apply; cbn; by rewrite app_assoc.
  all: unfold apply, revised; cbn [counts_as_revision ev_payload emitted]; rewrite !advance_image_false; unfold image; cbn; f_equal;
    exact (f_equal missions (advance_image_false mid s)).
Qed.

Lemma setRepositoryWait_tracked t r h o s : tracked false s (setRepositoryWait Date_now fresh t r h o s).1.
Proof. unfold setRepositoryWait. eval_m. repeat (case_match; try quiet; eval_m); by apply repository_wait_tracked. Qed.

Lemma clearRepositoryWait_tracked t s : tracked false s (clearRepositoryWait Date_now fresh t s).1.
Proof. unfold clearRepositoryWait. eval_m. case_match; [|quiet]. by apply repository_wait_tracked. Qed.

Lemma same_episode_none k l : k ∉ map de_episodeId l -> forall e, upsert (same_episode k) e l = (l ++ [e])%list.
Proof.
  intros H e. induction l as [|x l IH]; [done|]. simpl in *. apply not_elem_of_cons in H as [H1 H2]. unfold same_episode at 1.
  rewrite bool_decide_false by done. by rewrite IH.
Qed.

Lemma upsert_first p f k l e : NoDup (map de_episodeId l) -> js_find p l = Some e -> de_episodeId e = k ->
  upsert (same_episode k) (f e) l = update_first p f l.
Proof.
  intros Hnd Hf Hk. induction l as [|x l IH]; [done|]. simpl in *. apply NoDup_cons in Hnd as [Hx Hnd]. unfold same_episode at 1.
  destruct (p x) eqn:Hp; simplify_eq; [by rewrite bool_decide_true|]. case_bool_decide as E; [|by rewrite IH].
  exfalso. apply Hx. apply js_find_some in Hf as [Hin _]. apply list_elem_of_fmap. by exists e.
Qed.

Lemma update_find p f l e : NoDup (map de_episodeId l) -> js_find p l = Some e ->
  update_first p f l = update_first (same_episode (de_episodeId e)) f l.
Proof.
  intros Hnd Hf. induction l as [|x l IH]; [done|]. simpl in *. apply NoDup_cons in Hnd as [Hx Hnd]. unfold same_episode at 1.
  destruct (p x) eqn:Hp; simplify_eq; [by rewrite bool_decide_true|]. case_bool_decide as E; [|by rewrite IH].
  exfalso. apply Hx. apply js_find_some in Hf as [Hin _]. apply list_elem_of_fmap. by exists e.
Qed.

Lemma update_by_id key f l : NoDup (map de_episodeId l) ->
  update_first (same_episode key) f l = map (fun x => if same_episode key x then f x else x) l.
Proof.
  intros Hnd. induction l as [|x l IH]; [done|]. simpl in *. apply NoDup_cons in Hnd as [Hx Hnd].
  destruct (same_episode key x) eqn:E; [|by rewrite IH]. f_equal. symmetry. rewrite <- (list_fmap_id l) at 2. apply list_fmap_ext.
  intros i y Hy. unfold same_episode in *. apply bool_decide_eq_true in E. rewrite bool_decide_false; [done|]. intros E'.
  apply Hx, list_elem_of_fmap. exists y. split; [congruence|]. by eapply list_elem_of_lookup_2.
Qed.

Lemma update_last_id p f l e : NoDup (map de_episodeId l) -> js_find p (rev l) = Some e ->
  update_last p f l = update_first (same_episode (de_episodeId e)) f l.
Proof.
  intros Hnd Hf. assert (Hr : NoDup (map de_episodeId (rev l))) by (rewrite map_rev; by apply NoDup_ListNoDup, List.NoDup_rev, NoDup_ListNoDup).
  unfold update_last. rewrite (update_find p f _ e Hr Hf), !update_by_id by done. by rewrite map_rev, rev_involutive.
Qed.

Lemma markDiskSuspendEpisode_tracked k mid key ts path at_ s :
  Keyed s -> nullish key (fresh "DSE" (id_seq s)) ∉ map de_episodeId (diskSuspendEpisodes s) ->
  tracked k s (markDiskSuspendEpisode Date_now fresh mid key ts path at_ s).1.
Proof.
  intros HK Hn. unfold markDiskSuspendEpisode. go; try quiet.
  1: apply tracked_emit; [done..|]; unfold image, revised; cbn; rewrite (upsert_first (open_episode mid) (merged (s0 :: l) path)) by (done || apply HK); done.
  all: apply tracked_emit; [done..|]; unfold image, revised; cbn; by rewrite same_episode_none by done.
Qed.

Lemma resolveDiskSuspendEpisode_tracked k mid at_ s : Keyed s -> tracked k s (resolveDiskSuspendEpisode Date_now fresh mid at_ s).1.
Proof.
  intros HK. unfold resolveDiskSuspendEpisode. go; try quiet.
  all: apply tracked_emit; [done..|]; unfold image, revised; cbn; by rewrite (update_last_id _ _ _ d (K_episodes _ HK)) by done.
Qed.

(** *** Failures, recovery, supersession, stops and resumptions *)

Lemma disk_override_same c s : fc_classificationId (applyDiskSuspendOverride failure_sha256 c s) = fc_classificationId c /\
  fc_missionId (applyDiskSuspendOverride failure_sha256 c s) = fc_missionId c.
Proof. unfold applyDiskSuspendOverride. by repeat case_match. Qed.

Lemma classifyFailure_tracked k c s : held_by fc_missionId (failureClassifications s) (fc_classificationId c) (fc_missionId c) ->
  tracked k s (classifyFailure Date_now fresh failure_sha256 c s).1.
Proof.
  intros H. unfold classifyFailure. go; try quiet. destruct (disk_override_same c s) as [E1 E2].
  apply put_classification_tracked; [done|]. by rewrite E1.
Qed.

Lemma planRecovery_tracked k d s : tracked k s (planRecovery Date_now fresh d s).1.
Proof.
  unfold planRecovery. go; try quiet. apply tracked_emit; [done|split_and!; [done..|]|same_image]. intros x. cbn. intros Hx.
  apply negb_true_iff in Heqb0. unfold map_has in Heqb0. by rewrite Hx in Heqb0.
Qed.

Lemma transitionRecovery_tracked k key st s : Keyed s -> tracked k s (transitionRecovery Date_now fresh key st s).1.
Proof.
  intros HK. unfold transitionRecovery. go; try quiet. pose proof (decision_key _ _ _ HK Heqo) as E. subst key.
  apply tracked_emit; [done|split_and!; [done..|]; intros o Ho; cbn in *; by simplify_eq|]. same_image.
Qed.

Lemma elem_of_lookup_all x l s : x ∈ omap (fun o => o) (lookup_all l s) -> exists key, key ∈ l /\ map_get key (tasks s) = Some x.
Proof. intros (o & Ho & Hx)%list_elem_of_omap. subst o. apply list_elem_of_fmap in Ho as (key & E & Hk). eauto. Qed.

(** The guards on acceptance ids. *)
Lemma supersession_covers_task su s failed :
  map_get (su_failedTaskId su) (tasks s) = Some failed ->
  opt_eq (t_repo_id (t_spec failed)) (Some (su_repoId su)) && subset_of (t_acceptance_ids (t_spec failed)) (su_acceptanceIds su) = true ->
  js_every (fun t => opt_eq (t_repo_id (t_spec t)) (Some (su_repoId su))) (omap (fun o => o) (lookup_all (su_replacementTaskIds su) s)) &&
    subset_of (su_acceptanceIds su)
      (concat (map (fun t => t_acceptance_ids (t_spec t)) (omap (fun o => o) (lookup_all (su_replacementTaskIds su) s)))) = true ->
  covers su s.
Proof.
  intros Hf [_ H1]%andb_true_iff [_ H2]%andb_true_iff. exists failed. split; [done|]. intros a Ha. unfold subset_of in *.
  rewrite js_every_true in H1, H2. apply H1, js_includes_true, H2, js_includes_true in Ha.
  apply list_elem_of_In, in_concat in Ha as (l & Hl & Ha). apply in_map_iff in Hl as (t & <- & Ht).
  apply list_elem_of_In in Ht. apply list_elem_of_In in Ha. destruct (elem_of_lookup_all _ _ _ Ht) as (key & Hk & Hg). eauto.
Qed.

Lemma supersedeTask_tracked k su s : tracked k s (supersedeTask Date_now fresh coverage_sha256 su s).1.
Proof.
  unfold supersedeTask, recovery_checks. go; try quiet.
  all: apply tracked_emit; [done|split_and!; [done| |]|same_image].
  1, 3: match goal with H : negb (map_has _ _) = true |- _ =>
          apply negb_true_iff in H; unfold map_has in H; cbn; by destruct (map_get _ (taskSupersessions s)) end.
  all: eapply supersession_covers_task; eassumption.
Qed.

Lemma stopMission_tracked k mid i s : tracked k s (stopMission Date_now fresh Date_valid mid i s).1.
Proof. unfold stopMission. go; try quiet. by apply tracked_emit. Qed.

Lemma tracked_bind {A B} k (m : M A) (f : A -> M B) s :
  tracked k s (m s).1 -> (forall a s', tracked k s' (f a s').1) -> tracked k s (bind m f s).1.
Proof.
  intros H Hf. unfold bind. destruct (m s) as [s' [a|e]]; cbn [fst snd] in *; [|done]. by eapply tracked_trans.
Qed.

Lemma resumeMission_tracked k mid reason origin n s : tracked k s (resumeMission Date_now fresh mid reason origin n s).1.
Proof.
  unfold resumeMission. go; try quiet. apply tracked_bind.
  - apply (for_each_tracked k (fun _ => True)); [done|]. intros ? s' _ _. split; [done|]. eval_m. by apply tracked_emit.
  - intros _ s'. go. by apply tracked_emit.
Qed.

Lemma drain_step_tracked k answer s : tracked k s (drain_step answer s).
Proof.
  unfold drain_step. destruct (pendingWrites s) as [|e rest] eqn:E; [quiet|]. destruct answer as [message|]; [quiet|].
  apply tracked_refl; [|done]. unfold log. cbn. rewrite E, <- app_assoc. done.
Qed.

(** *** Runs *)

Inductive Op :=
  | op_createMission (i : MissionCreateInput)
  | op_transitionMission (missionId : string) (to : Mission.MissionStatus) (recoveryDecisionId : option string)
  | op_updateMission (missionId : string) (patch : MissionPatch)
  | op_markOperatorPause (missionId : string)
  | op_clearOperatorPause (missionId : string)
  | op_completeMission (missionId : string) (generation : Z)
  | op_failMission (missionId reason : string)
  | op_addAcceptanceCriterion (missionId criterion : string) (evidence acceptanceId : option string)
  | op_setCriterionStatus (missionId : string) (index : nat) (st : CriterionStatus) (evidence : option string)
  | op_createTask (i : TaskCreateInput) (authority : option MissionLease)
  | op_assignTaskAuthority (taskId : string) (lease : MissionLease)
  | op_assignTaskExecution (taskId executionId : string)
  | op_transitionTask (taskId : string) (to : Task.TaskStatus) (metadata : TaskTransitionMetadata)
  | op_steerTask (taskId request : string)
  | op_switchTaskModel (taskId model : string) (resumeFromSha : option string)
  | op_resumeTaskFromCheckpoint (taskId resumeFromSha : string)
  | op_createExecution (i : ExecutionCreateInput)
  | op_setExecutionStatus (executionId : string) (st : ExecutionStatus) (extra : ExecutionPatch)
  | op_rejectLateExecution (executionId reason : string)
  | op_reconcileOrphanedExecutions (missionId : string)
  | op_requeueResumableTasks (missionId : string)
  | op_setRepositoryWait (taskId repoId holderMissionId holderOwnerId : string)
  | op_clearRepositoryWait (taskId : string)
  | op_recordLaneEvent (type missionId : string)
  | op_addFinding (f : ReviewFinding)
  | op_resolveFinding (findingId : string)
  | op_markDiskSuspendEpisode (missionId : string) (episodeId : option string) (taskIds : list string) (incidentPath markedAt : option string)
  | op_resolveDiskSuspendEpisode (missionId : string) (resolvedAt : option string)
  | op_classifyFailure (c : FailureClassification)
  | op_planRecovery (d : RecoveryDecision)
  | op_transitionRecovery (recoveryId : string) (st : RecoveryStatus)
  | op_supersedeTask (su : TaskSupersession)
  | op_resumeMission (missionId reason : string) (origin : ResumptionOrigin) (fenced : nat)
  | op_stopMission (missionId : string) (i : StopInput).

(** The store after a call, whether it returned or threw. *)
Definition run_op (o : Op) (s : Store) : Store :=
  match o with
  | op_createMission i => (createMission Date_now fresh i s).1
  | op_transitionMission k to r => (transitionMission Date_now fresh k to r s).1
  | op_updateMission k p => (updateMission Date_now fresh k p s).1
  | op_markOperatorPause k => (markOperatorPause Date_now fresh k s).1
  | op_clearOperatorPause k => (clearOperatorPause Date_now fresh k s).1
  | op_completeMission k g => (completeMission Date_now fresh k g s).1
  | op_failMission k r => (failMission Date_now fresh k r s).1
  | op_addAcceptanceCriterion k c e a => (addAcceptanceCriterion Date_now fresh k c e a s).1
  | op_setCriterionStatus k i st e => (setCriterionStatus Date_now fresh k i st e s).1
  | op_createTask i l => (createTask Date_now fresh i l s).1
  | op_assignTaskAuthority k l => (assignTaskAuthority Date_now fresh k l s).1
  | op_assignTaskExecution k x => (assignTaskExecution Date_now fresh k x s).1
  | op_transitionTask k to m => (transitionTask Date_now fresh k to m s).1
  | op_steerTask k r => (steerTask Date_now fresh k r s).1
  | op_switchTaskModel k m sha => (switchTaskModel Date_now fresh k m sha s).1
  | op_resumeTaskFromCheckpoint k sha => (resumeTaskFromCheckpoint Date_now fresh k sha s).1
  | op_createExecution i => (createExecution Date_now fresh i s).1
  | op_setExecutionStatus k st x => (setExecutionStatus Date_now fresh k st x s).1
  | op_rejectLateExecution k r => (rejectLateExecution Date_now fresh k r s).1
  | op_reconcileOrphanedExecutions k => (reconcileOrphanedExecutions Date_now fresh k s).1
  | op_requeueResumableTasks k => (requeueResumableTasks Date_now fresh k s).1
  | op_setRepositoryWait k r h o => (setRepositoryWait Date_now fresh k r h o s).1
  | op_clearRepositoryWait k => (clearRepositoryWait Date_now fresh k s).1
  | op_recordLaneEvent t k => (recordLaneEvent Date_now fresh t k s).1
  | op_addFinding f => (addFinding Date_now fresh f s).1
  | op_resolveFinding k => (resolveFinding Date_now fresh k s).1
  | op_markDiskSuspendEpisode k e t p m => (markDiskSuspendEpisode Date_now fresh k e t p m s).1
  | op_resolveDiskSuspendEpisode k r => (resolveDiskSuspendEpisode Date_now fresh k r s).1
  | op_classifyFailure c => (classifyFailure Date_now fresh failure_sha256 c s).1
  | op_planRecovery d => (planRecovery Date_now fresh d s).1
  | op_transitionRecovery k st => (transitionRecovery Date_now fresh k st s).1
  | op_supersedeTask su => (supersedeTask Date_now fresh coverage_sha256 su s).1
  | op_resumeMission k r o n => (resumeMission Date_now fresh k r o n s).1
  | op_stopMission k i => (stopMission Date_now fresh Date_valid k i s).1
  end.

(** New entities have ids that are not taken, and texts that the replay tests for presence are not empty. *)
Definition op_ok (o : Op) (s : Store) : Prop :=
  match o with
  | op_createMission i => map_get (nullish (mi_mission_id i) (fresh "MSN" (id_seq s))) (missions s) = None
  | op_createTask i _ =>
      let key := nullish (ti_task_id i) (fresh "TSK" (id_seq s)) in
      map_get key (tasks s) = None /\ forall m, map_get (ti_mission_id i) (missions s) = Some m -> key ∉ m_task_ids m
  | op_createExecution _ => map_get (fresh "EXC" (id_seq s)) (executions s) = None
  | op_addFinding _ => map_get (fresh "F" (id_seq s)) (findings s) = None
  | op_markDiskSuspendEpisode _ e _ _ _ => nullish e (fresh "DSE" (id_seq s)) ∉ map de_episodeId (diskSuspendEpisodes s)
  | op_classifyFailure c => held_by fc_missionId (failureClassifications s) (fc_classificationId c) (fc_missionId c)
  | op_failMission _ reason => reason <> ""
  | op_steerTask _ request => request <> ""
  | _ => True
  end.

Definition is_wait (o : Op) : bool :=
  match o with op_setRepositoryWait _ _ _ _ | op_clearRepositoryWait _ => true | _ => false end.

Lemma op_tracked k o s : Keyed s -> op_ok o s -> (k = true -> is_wait o = false) -> tracked k s (run_op o s).
Proof.
  intros HK Hok Hw. destruct o; cbn [run_op op_ok] in *.
  - by apply createMission_tracked.
  - by apply transitionMission_tracked.
  - apply updateMission_tracked.
  - apply markOperatorPause_tracked.
  - apply clearOperatorPause_tracked.
  - apply completeMission_tracked.
  - by apply failMission_tracked.
  - apply addAcceptanceCriterion_tracked.
  - apply setCriterionStatus_tracked.
  - destruct Hok. by apply createTask_tracked.
  - apply assignTaskAuthority_tracked.
  - apply assignTaskExecution_tracked.
  - apply transitionTask_tracked.
  - by apply steerTask_tracked.
  - apply switchTaskModel_tracked.
  - apply resumeTaskFromCheckpoint_tracked.
  - by apply createExecution_tracked.
  - by apply setExecutionStatus_tracked.
  - by apply rejectLateExecution_tracked.
  - by apply reconcileOrphanedExecutions_tracked.
  - apply requeueResumableTasks_tracked.
  - destruct k; [by specialize (Hw eq_refl)|]. apply setRepositoryWait_tracked.
  - destruct k; [by specialize (Hw eq_refl)|]. apply clearRepositoryWait_tracked.
  - apply recordLaneEvent_tracked.
  - by apply addFinding_tracked.
  - apply resolveFinding_tracked.
  - by apply markDiskSuspendEpisode_tracked.
  - by apply resolveDiskSuspendEpisode_tracked.
  - by apply classifyFailure_tracked.
  - apply planRecovery_tracked.
  - by apply transitionRecovery_tracked.
  - apply supersedeTask_tracked.
  - apply resumeMission_tracked.
  - apply stopMission_tracked.
Qed.

(** A call, or one turn of the drain with the answer of the backend; [k]: without repository waits. *)
Inductive step (k : bool) : Store -> Store -> Prop :=
  | step_op o s : op_ok o s -> (k = true -> is_wait o = false) -> step k s (run_op o s)
  | step_drain answer s : step k s (drain_step answer s).

Lemma step_tracked k s s' : Keyed s -> step k s s' -> tracked k s s'.
Proof. intros HK H. revert HK. destruct H; intros HK; [by apply op_tracked|apply drain_step_tracked]. Qed.

Lemma run_tracked k s s' : Keyed s -> rtc (step k) s s' -> tracked k s s'.
Proof.
  intros HK H. induction H as [s|a b c Hab _ IH]; [quiet|]. pose proof (step_tracked k a b HK Hab) as Ht.
  eapply tracked_trans; [exact Ht|]. apply IH. by eapply tracked_keyed.
Qed.

Lemma ordered_wait m mid p s :
  match p with repository_wait _ _ | repository_wait_cleared _ => True | _ => False end ->
  ordered m s (apply_emitted Date_now fresh mid p s).1.
Proof.
  intros Hp. unfold apply_emitted. eval_m. rewrite run_modify, emit_run. cbn [fst].
  eapply ordered_trans; [apply (ordered_advance m mid)|].
  match goal with |- ordered _ _ (apply _ ?u) => eapply (ordered_trans _ _ u); [apply ordered_same; by destruct p|] end.
  unfold apply. cbn [ev_payload ev_mission_id emitted].
  eapply ordered_trans; [|destruct p; try done; apply ordered_advance]. apply ordered_same. by destruct p.
Qed.

Lemma step_ordered m k s s' : Keyed s -> step k s s' -> ordered m s s'.
Proof.
  intros HK Hs. destruct Hs as [o s Hok _|answer s]; [|by apply ordered_tracked, drain_step_tracked].
  destruct (is_wait o) eqn:Hw; [|by apply ordered_tracked, op_tracked].
  destruct o; try done; cbn [run_op].
  - unfold setRepositoryWait. eval_m. repeat (case_match; try (by apply ordered_same); eval_m); by apply ordered_wait.
  - unfold clearRepositoryWait. eval_m. case_match; [by apply ordered_wait|by apply ordered_same].
Qed.

Lemma run_ordered m k s s' : Keyed s -> rtc (step k) s s' -> ordered m s s'.
Proof.
  intros HK H. induction H as [s|a b c Hab _ IH]; [by apply ordered_same|].
  eapply ordered_trans; [by eapply step_ordered|]. apply IH. eapply (tracked_keyed false); [|done].
  destruct Hab as [o s Hok Hw|answer s]; [by apply op_tracked|apply drain_step_tracked].
Qed.

Lemma reopen_image k s : rtc (step k) empty_store s -> image k (open_ (log s)) = image k s.
Proof.
  intros H. destruct (run_tracked k _ _ Keyed_empty H) as (es & Hl & Hi & _). cbn in Hl. rewrite Hl.
  unfold open_. rewrite Hi. done.
Qed.

End Operations.
