(* ===== verification/MissionFences.v ===== *)
(** * Fences of the mission store

    What holds over every run of the store (file MissionReplay): the statuses of
    missions, tasks and recovery decisions move along their tables, executions keep
    their identity, generations only grow, supersessions cover what they supersede.
    From it: the revision fence, the fencing of executions by a resumption, and the
    conditional settlement on the log that several stores share. *)

From S2P Require Import Prelude JsMap LedgerView Regex CompletionGate Workset MissionLifecycle Ownership FailureRecovery MissionStore MissionReplay.

Open Scope string_scope.
Open Scope Z_scope.
#[local] Arguments test : simpl never.
#[local] Arguments String.append : simpl never.

(** ** Tables that only move *)

Definition moves {V} (R : V -> V -> Prop) (t t' : jsmap string V) : Prop :=
  forall k v, map_get k t = Some v -> exists v', map_get k t' = Some v' /\ R v v'.

Lemma moves_refl {V} (R : V -> V -> Prop) t : (forall v, R v v) -> moves R t t.
Proof. intros H k v Hv. eauto. Qed.
Lemma moves_trans {V} (R : V -> V -> Prop) a b c : (forall x y z, R x y -> R y z -> R x z) -> moves R a b -> moves R b c -> moves R a c.
Proof. intros H H1 H2 k v Hv. destruct (H1 k v Hv) as (w & Hw & ?), (H2 k w Hw) as (z & Hz & ?). eauto. Qed.
Lemma moves_set {V} (R : V -> V -> Prop) k v t : (forall v, R v v) -> (forall o, map_get k t = Some o -> R o v) -> moves R t (map_set k v t).
Proof. intros Hr H k' w Hw. rewrite map_get_set. case_decide; [subst|]; eauto. Qed.
Lemma moves_update {V} (R : V -> V -> Prop) k g t : (forall v, R v v) -> (forall o, map_get k t = Some o -> R o (g o)) ->
  moves R t (map_update k g t).
Proof. intros Hr H. unfold map_update. destruct (map_get k t) as [v|] eqn:E; [|by apply moves_refl]. apply moves_set; [done|]. naive_solver. Qed.

Definition mission_move (a b : Mission.MissionStatus) : Prop := Mission.canTransitionMission a b = true \/ b = Mission.FAILED.
Definition task_move (a b : Task.TaskStatus) : Prop := Task.canTransitionTask a b = true.
Definition decision_move (a b : RecoveryStatus) : Prop := js_includes b (RECOVERY_TRANSITIONS a) = true.

Definition mission_moved (a b : Mission) : Prop := m_spec b = m_spec a /\ rtc mission_move (m_status a) (m_status b).
(** The part of a task's specification that no operation changes: all but the requirements of its executions and the
    commit they start from. *)
Definition fixed_spec (t : OrchestrationTask) : TaskSpec := with_requirements jnull None (t_spec t).
Definition is_settled (t : OrchestrationTask) : Prop := t_status t ∈ TERMINAL_TASK_STATUSES.
Definition task_moved (a b : OrchestrationTask) : Prop :=
  fixed_spec b = fixed_spec a /\ rtc task_move (t_status a) (t_status b) /\ (is_settled a -> t_spec b = t_spec a).
Definition decision_moved (a b : RecoveryDecision) : Prop := rtc decision_move (rd_status a) (rd_status b).

Lemma mission_moved_refl m : mission_moved m m.
Proof. by split. Qed.
Lemma task_moved_refl t : task_moved t t.
Proof. by split_and!. Qed.
Lemma settled_stays t st : is_settled t -> rtc task_move (t_status t) st -> st = t_status t.
Proof.
  intros Hs H. inversion H as [|a b c Hab _]; [done|]. exfalso. unfold task_move, is_settled in *. subst.
  apply js_includes_true in Hs. by destruct (t_status t), b.
Qed.
Lemma task_moved_trans a b c : task_moved a b -> task_moved b c -> task_moved a c.
Proof.
  intros (E1 & H1 & S1) (E2 & H2 & S2). split_and!; [congruence|by etrans|]. intros Hs. rewrite S2; [by apply S1|].
  unfold is_settled. by rewrite (settled_stays a (t_status b)).
Qed.
Lemma task_kept a b : t_spec b = t_spec a -> rtc task_move (t_status a) (t_status b) -> task_moved a b.
Proof. intros E H. split_and!; [|done..]. unfold fixed_spec. by rewrite E. Qed.
Lemma fixed_acceptance a b : fixed_spec b = fixed_spec a -> t_acceptance_ids (t_spec b) = t_acceptance_ids (t_spec a).
Proof. intros H. by apply (f_equal t_acceptance_ids) in H. Qed.
Lemma decision_moved_refl d : decision_moved d d.
Proof. by unfold decision_moved. Qed.
#[local] Hint Resolve mission_moved_refl task_moved_refl decision_moved_refl : store.

(** How a store may have moved on. *)
Record Later (s s' : Store) : Prop := mkLater {
  L_missions : moves mission_moved (missions s) (missions s');
  L_tasks : moves task_moved (tasks s) (tasks s');
  L_executions : moves (fun a b => x_spec b = x_spec a) (executions s) (executions s');
  L_decisions : moves decision_moved (recoveryDecisions s) (recoveryDecisions s');
  L_generation : forall m, currentGeneration m s <= currentGeneration m s'
}.

Lemma Later_same s s' : missions s' = missions s -> tasks s' = tasks s -> executions s' = executions s ->
  recoveryDecisions s' = recoveryDecisions s -> missionResumptions s' = missionResumptions s -> Later s s'.
Proof.
  intros E1 E2 E3 E4 E5. split; rewrite ?E1, ?E2, ?E3, ?E4; try (apply moves_refl; auto with store).
  intros m. unfold currentGeneration, resumptions_of. rewrite E5. lia.
Qed.

#[export] Instance Later_refl : Reflexive Later.
Proof. intros s. by apply Later_same. Qed.

#[export] Instance Later_trans : Transitive Later.
Proof.
  intros a b c [A1 A2 A3 A4 A5] [B1 B2 B3 B4 B5]. split.
  - eapply moves_trans; [|done..]. intros x y z [E1 H1] [E2 H2]. split; [congruence|by etrans].
  - eapply moves_trans; [|done..]. apply task_moved_trans.
  - eapply moves_trans; [|done..]. intros x y z E1 E2. congruence.
  - eapply moves_trans; [|done..]. intros x y z H1 H2. unfold decision_moved in *. by etrans.
  - intros m. specialize (A5 m). specialize (B5 m). lia.
Qed.

Ltac only_table := intros H; split; [..|intros m; unfold currentGeneration, resumptions_of; cbn; lia]; cbn;
  try done; apply moves_refl; auto with store.

Lemma Later_missions g s : moves mission_moved (missions s) (g (missions s)) -> Later s (on_missions g s).
Proof. only_table. Qed.
Lemma Later_tasks g s : moves task_moved (tasks s) (g (tasks s)) -> Later s (on_tasks g s).
Proof. only_table. Qed.
Lemma Later_executions g s : moves (fun a b => x_spec b = x_spec a) (executions s) (g (executions s)) -> Later s (on_executions g s).
Proof. only_table. Qed.
Lemma Later_decisions g s : moves decision_moved (recoveryDecisions s) (g (recoveryDecisions s)) -> Later s (on_recoveryDecisions g s).
Proof. only_table. Qed.

Lemma Later_mission k g s : (forall x, map_get k (missions s) = Some x -> mission_moved x (g x)) -> Later s (on_missions (map_update k g) s).
Proof. intros H. apply Later_missions, moves_update; auto with store. Qed.

Lemma Later_set_mission k x y s : map_get k (missions s) = Some x -> mission_moved x y -> Later s (set_mission k y s).
Proof. intros Hx H. apply Later_missions, moves_set; [auto with store|]. intros o Ho. by simplify_eq. Qed.

Lemma Later_canonical k st l s : Later s (recordCanonical k st l s).
Proof. unfold recordCanonical. repeat case_match; by apply Later_same. Qed.
Lemma Later_start x s : Later s (recordAuthoritativeExecutionStart x s).
Proof. unfold recordAuthoritativeExecutionStart. repeat case_match; by apply Later_same. Qed.

Lemma last_snoc_filter {A} (p : A -> bool) l x : last (js_filter p (l ++ [x])) = if p x then Some x else last (js_filter p l).
Proof. rewrite js_filter_app. simpl. destruct (p x); [by rewrite last_snoc|by rewrite app_nil_r]. Qed.

Lemma resumed_generation m r s :
  currentGeneration m (on_missionResumptions (fun l => l ++ [r])%list s) =
  if bool_decide (re_missionId r = m) then re_generation r else currentGeneration m s.
Proof. unfold currentGeneration, resumptions_of. cbn. rewrite last_snoc_filter. by case_bool_decide. Qed.

Lemma Later_resumption r s : re_generation r = currentGeneration (re_missionId r) s + 1 ->
  Later s (on_missionResumptions (fun l => l ++ [r])%list s).
Proof.
  intros H. split; cbn; try (apply moves_refl; auto with store). intros m. rewrite resumed_generation. case_bool_decide; [subst; lia|lia].
Qed.

Lemma patched_moved m x p s : map_get m (missions s) = Some x -> legal_status m (p_status p) s -> mission_moved x (patched x p).
Proof.
  intros Hx Hl. split; [done|]. cbn. destruct (p_status p) as [st|] eqn:E; cbn; [|done]. apply rtc_once. left. by apply (Hl x st).
Qed.

(** Replaying an event of its mission moves the store on. *)
Lemma Later_payload e s : Keyed s -> belongs e s -> Later s (apply_payload (ev_timestamp e) (ev_payload e) s).
Proof.
  intros HK Hb. unfold belongs in Hb. destruct (ev_payload e); cbn [apply_payload]; try by apply Later_same.
  - destruct Hb as [<- Hn]. apply Later_missions, moves_set; [auto with store|]. intros o Ho. unfold m_id in *. congruence.
  - destruct Hb as (-> & _ & Hl). case_match eqn:Hx; [|done]. etrans; [|apply Later_canonical].
    eapply Later_set_mission; [done|]. by eapply (patched_moved _ _ _ s).
  - destruct Hb as [-> Hl]. apply Later_mission. intros x Hx. split; [done|]. apply rtc_once. left. by apply (Hl x).
  - subst missionId. apply Later_mission. intros x Hx. split; [done|]. apply rtc_once. by right.
  - destruct Hb as [Hm Hn]. etrans; [|].
    { apply (Later_tasks (map_set (t_id t) t)), moves_set; [auto with store|]. intros o Ho. congruence. }
    case_match eqn:Hx; [|done]. case_match; [done|]. apply (Later_set_mission _ m); [|by split].
    rewrite (proj2 (K_missions _ HK) _ _ Hx). exact Hx.
  - apply Later_tasks, moves_update; [auto with store|]. intros t Ht. apply task_kept; [done|]. apply rtc_once. by apply Hb.
  - case_match; [|done]. apply Later_tasks, moves_update; [auto with store|]. intros t Ht. by apply task_kept.
  - apply Later_tasks, moves_update; [auto with store|]. intros t Ht. by apply task_kept.
  - apply Later_tasks, moves_update; [auto with store|]. intros t Ht. split_and!; [done..|]. intros Hs. exfalso.
    destruct (Hb t Ht) as [_ Hl]. apply js_includes_true in Hs. congruence.
  - assert (H : Later s (set_execution x s)) by (apply Later_executions, moves_set; [done|]; intros o Ho; symmetry; by apply Hb).
    case_match; [|done]. etrans; [exact H|apply Later_start].
  - apply Later_executions, moves_update; [done|]. done.
  - assert (H : Later s (set_execution x s)) by (apply Later_executions, moves_set; [done|]; intros o Ho; symmetry; by apply Hb).
    case_match; [|done]. etrans; [exact H|]. by apply Later_same.
  - apply Later_executions, moves_set; [done|]. intros o Ho. symmetry. by apply Hb.
  - apply Later_executions, moves_set; [done|]. intros o Ho. symmetry. by apply Hb.
  - destruct Hb as (Hm & _ & Hl & Hd).
    assert (H : Later s (on_recoveryDecisions (map_set (rd_recoveryId d) d) s)).
    { apply Later_decisions, moves_set; [auto with store|]. intros o Ho. apply rtc_once. by apply Hd. }
    etrans; [exact H|]. case_match eqn:Hp; [|done]. case_match eqn:Hx; [|done]. subst. etrans; [|apply Later_canonical].
    eapply Later_set_mission; [done|]. cbn in Hl, Hx. rewrite Hm in Hx. by eapply (patched_moved _ _ _ s).
  - destruct Hb as [Hm Hg]. etrans; [apply Later_resumption; by rewrite Hm|]. case_match; [|done]. apply Later_mission.
    intros x Hx. by split.
Qed.

Lemma Later_advance m s : Later s (advanceMissionRevision m s).
Proof. apply Later_mission. intros x Hx. by split. Qed.

Lemma Later_apply e s : Keyed s -> belongs e s -> Later s (apply e s).
Proof.
  intros HK Hb. unfold apply. etrans; [by apply Later_payload|]. case_match; [apply Later_advance|done].
Qed.

Lemma Later_image s s' : image false s = image false s' -> Later s s'.
Proof.
  intros H. assert (E : forall k, mission false <$> map_get k (missions s) = mission false <$> map_get k (missions s')).
  { intros k. rewrite <- !image_missions_get. by rewrite H. }
  injection H as _ _ Ht _ Hx _ _ Hd _ _ _ _ Hr _. split; rewrite <- ?Ht, <- ?Hx, <- ?Hd; try (apply moves_refl; auto with store).
  - intros k x Hk. specialize (E k). rewrite Hk in E. destruct (map_get k (missions s')) as [y|]; [|done]. exists y. split; [done|].
    injection E as E1 _ _ E2. split; [done|]. by rewrite E2.
  - intros m. unfold currentGeneration, resumptions_of. rewrite Hr. lia.
Qed.

(** What replaying owned events establishes holds over runs. *)
Lemma tracked_rel (R : Store -> Store -> Prop) s s' :
  (forall s, R s s) -> (forall a b c, R a b -> R b c -> R a c) -> (forall e s, Keyed s -> belongs e s -> R s (apply e s)) ->
  (forall a b, image false a = image false b -> R a b) -> Keyed s -> tracked false s s' -> R s s'.
Proof.
  intros Hr Ht Ha Hi HK (es & _ & He & Ho). apply (Ht _ (replayEvents es s)); [|by apply Hi].
  clear He. revert s HK Ho. induction es as [|e es IH]; intros s HK Ho; [done|]. destruct Ho as [H1 H2]. cbn.
  eapply Ht; [by apply Ha|]. apply IH; [by apply Keyed_apply|done].
Qed.

Lemma tracked_Later s s' : Keyed s -> tracked false s s' -> Later s s'.
Proof. intros HK H. eapply tracked_rel; try done; [by intros; etrans|apply Later_apply|apply Later_image]. Qed.

(** ** Invariants of runs *)

(** The canonical records are those of their statuses. *)
Definition canonical_records (s : Store) : Prop :=
  forall k r, map_get k (canonicalRecords s) = Some r -> (cr_canonicalState r, cr_lifecycleSchemaVersion r) = lifecycle_of (cr_status r).

Lemma canonical_recorded k st l s : canonical_ok l st -> canonical_records s -> canonical_records (recordCanonical k st l s).
Proof.
  intros Hl H. unfold recordCanonical. destruct st as [st|]; [|done]. destruct l as [[c v]|]; [|done]. intros k' r. cbn. rewrite map_get_set.
  case_decide; [|by apply H]. intros [= <-]. exact Hl.
Qed.

Lemma canonical_apply e s : belongs e s -> canonical_records s -> canonical_records (apply e s).
Proof.
  intros Hb H. unfold apply. assert (K : canonical_records (apply_payload (ev_timestamp e) (ev_payload e) s)); [|by case_match].
  unfold belongs in Hb. destruct (ev_payload e); cbn [apply_payload]; try done.
  - case_match; [|done]. apply canonical_recorded; [by apply Hb|done].
  - repeat case_match; done.
  - by case_match.
  - case_match; [|done]. unfold recordAuthoritativeExecutionStart. repeat case_match; done.
  - by case_match.
  - destruct Hb as (_ & Hl & _). repeat case_match; try done. apply canonical_recorded; [|done]. by subst.
  - by case_match.
Qed.

(** Supersessions cover what they supersede. *)
Definition covered (s : Store) : Prop := forall k su, map_get k (taskSupersessions s) = Some su -> covers su s.

Lemma covers_Later su s s' : Later s s' -> covers su s -> covers su s'.
Proof.
  intros HL (f & Hf & Hc). destruct (L_tasks _ _ HL _ _ Hf) as (f' & Hf' & [Ef%fixed_acceptance _]). exists f'. split; [done|]. rewrite Ef. intros a Ha.
  destruct (Hc a Ha) as (k & t & Hk & Ht & Hat). destruct (L_tasks _ _ HL _ _ Ht) as (t' & Ht' & [Et%fixed_acceptance _]). exists k, t'. by rewrite Et.
Qed.

Lemma supersessions_apply e s k su : map_get k (taskSupersessions (apply e s)) = Some su ->
  map_get k (taskSupersessions s) = Some su \/ ev_payload e = task_superseded su.
Proof.
  unfold apply. assert (E : forall m u, taskSupersessions (advanceMissionRevision m u) = taskSupersessions u) by done.
  intros H. assert (H' : map_get k (taskSupersessions (apply_payload (ev_timestamp e) (ev_payload e) s)) = Some su) by (by case_match). clear H.
  destruct (ev_payload e); cbn [apply_payload] in H'; unfold recordAuthoritativeExecutionStart, recordCanonical in H'; repeat case_match; auto.
  cbn in H'. rewrite map_get_set in H'. case_decide; [|by left]. injection H' as ->. by right.
Qed.

Lemma covered_apply e s : Keyed s -> belongs e s -> covered s -> covered (apply e s).
Proof.
  intros HK Hb H k su Hsu. apply (covers_Later _ s); [by apply Later_apply|].
  apply supersessions_apply in Hsu as [Hsu|E]; [by eapply H|]. unfold belongs in Hb. rewrite E in Hb. apply Hb.
Qed.




Section Runs.
Context (Date_now : nat -> string) (fresh : string -> nat -> string).
Context (coverage_sha256 : list string * string * string -> string) (failure_sha256 : FingerprintInput -> string).
Context (Date_valid : string -> bool).
Notation step := (step Date_now fresh coverage_sha256 failure_sha256 Date_valid).
(** The stores reached from an empty one. *)
Definition Reached (s : Store) : Prop := rtc (step false) empty_store s.

Lemma step_weaken k s s' : step k s s' -> step false s s'.
Proof. intros H. destruct H as [o s Hok Hw|answer s]; [by apply step_op|apply step_drain]. Qed.

Lemma steps_tracked s s' : Keyed s -> rtc (step false) s s' -> tracked false s s'.
Proof. apply run_tracked. Qed.

Lemma Reached_keyed s : Reached s -> Keyed s.
Proof. intros H. eapply tracked_keyed; [by apply (steps_tracked empty_store); [apply Keyed_empty|]|apply Keyed_empty]. Qed.

Lemma steps_Later s s' : Keyed s -> rtc (step false) s s' -> Later s s'.
Proof. intros HK H. by apply tracked_Later, steps_tracked. Qed.

Lemma op_Later o s : Keyed s -> op_ok fresh o s -> Later s (run_op Date_now fresh coverage_sha256 failure_sha256 Date_valid o s).
Proof. intros HK Hok. by apply tracked_Later, op_tracked. Qed.

Lemma Reached_invariant (I : Store -> Prop) s :
  (forall e s, Keyed s -> belongs e s -> I s -> I (apply e s)) -> (forall a b, image false a = image false b -> I a -> I b) ->
  I empty_store -> Reached s -> I s.
Proof.
  intros Ha Hi H0 H. assert (I empty_store -> I s); [|auto].
  apply (tracked_rel (fun a b => I a -> I b)); auto using Keyed_empty. by apply steps_tracked; [apply Keyed_empty|].
Qed.

Lemma Reached_canonical s : Reached s -> canonical_records s.
Proof.
  apply Reached_invariant; [by intros; apply canonical_apply| |done]. intros a b H. injection H as _ Hc. unfold canonical_records. by rewrite Hc.
Qed.

Lemma Reached_covered s : Reached s -> covered s.
Proof.
  apply Reached_invariant; [apply covered_apply| |done]. intros a b H. injection H as _ _ Ht _ _ _ _ _ Hs. unfold covered, covers. by rewrite Hs, Ht.
Qed.

(** C7: the mission store can be rebuilt from its events. However operations, successful and failed appends
    interleave, reopening the log of a store, the durable events and those still queued, gives the tables of the
    live store: missions up to the times of their last update and of their completion, and up to the revision if
    tasks waited for repositories ([k = false]); once the queue is drained the durable events suffice. The calls of
    such a run ([op_ok]) create missions, tasks, executions, findings and disk suspensions under ids that are not
    taken, give a reason when they fail a mission and a text when they steer a task, and do not classify a failure
    under the id of another mission's classification. *)
Theorem store_replays_log k s : rtc (step k) empty_store s ->
  image k (open_ (log s)) = image k s /\ durable s `prefix_of` log s /\
  (pendingWrites s = [] -> image k (open_ (durable s)) = image k s).
Proof.
  intros H. split_and!; [by eapply reopen_image|by exists (pendingWrites s)|]. intros E. rewrite <- (reopen_image _ _ _ _ _ k s H).
  unfold log. by rewrite E, app_nil_r.
Qed.



(** The canonical lifecycle the store reports of a mission is that of its current status, whatever was recorded. *)
Theorem canonical_lifecycle_current s k m : Reached s -> map_get k (missions s) = Some m ->
  getCanonicalLifecycle k s = Some (toCanonical (m_status m), LIFECYCLE_SCHEMA_VERSION).
Proof.
  intros Hs Hm. unfold getCanonicalLifecycle. rewrite Hm. destruct (map_get k (canonicalRecords s)) as [r|] eqn:Hr; [|done].
  case_bool_decide as E; [|done]. f_equal. rewrite (Reached_canonical s Hs _ _ Hr). by rewrite E.
Qed.

(** C26: outcomes are final: over any run a task keeps its specification but for what it requires of its executions and
    the commit they start from, which a switch of its model changes; once it SUCCEEDED, FAILED or was canceled or
    skipped it keeps its status and these two as well. A recovery decision that succeeded, failed or is exhausted
    stays so. The calls of the run create missions, tasks, executions, findings and disk suspensions under ids that
    are not taken, fail missions with a reason, steer tasks with a text and do not classify a failure under the id
    of another mission's classification ([op_ok]). *)
Theorem outcomes_final s s' : Reached s -> rtc (step false) s s' ->
  (forall k t, map_get k (tasks s) = Some t ->
     exists t', map_get k (tasks s') = Some t' /\ fixed_spec t' = fixed_spec t /\
       (t_status t ∈ TERMINAL_TASK_STATUSES -> t_status t' = t_status t /\ t_spec t' = t_spec t)) /\
  (forall k d, map_get k (recoveryDecisions s) = Some d -> rd_status d ∈ [rs_succeeded; rs_failed; rs_exhausted] ->
     exists d', map_get k (recoveryDecisions s') = Some d' /\ rd_status d' = rd_status d).
Proof.
  intros Hs Hr. pose proof (steps_Later s s' (Reached_keyed s Hs) Hr) as HL. split.
  - intros k t Ht. destruct (L_tasks _ _ HL _ _ Ht) as (t' & Ht' & E & Hm & Hk). exists t'. split_and!; [done..|]. intros Hst.
    split; [by apply settled_stays|by apply Hk].
  - intros k d Hd Hst. destruct (L_decisions _ _ HL _ _ Hd) as (d' & Hd' & Hm). exists d'. split; [done|].
    inversion Hm as [|a b c Hab _]; [done|]. exfalso. unfold decision_move in Hab. subst. by destruct (rd_status d); try set_solver.
Qed.

(** ** The revision fence *)

Lemma fence_spec m f s : matchesMissionFence m f s = true -> exists x, map_get m (missions s) = Some x /\ m_revision x = fence_revision f.
Proof.
  unfold matchesMissionFence. destruct (map_get m (missions s)) as [x|]; [|done]. intros H. exists x. split; [done|].
  apply andb_true_iff in H as [[[_ H]%andb_true_iff _]%andb_true_iff _]. lia.
Qed.



(** ** Resumptions fence executions *)

(** What an authoritative execution was checked for. *)
Record Authoritative (k : string) (s : Store) (x : Execution) (t : OrchestrationTask) : Prop := mkAuthoritative {
  A_execution : map_get k (executions s) = Some x;
  A_running : x_status x = x_RUNNING;
  A_task : map_get (x_task x) (tasks s) = Some t;
  A_mission_generation : t_mission_generation t = x_mission_generation (x_spec x);
  A_resumption : x_resumption_generation (x_spec x) = Some (currentGeneration (x_mission x) s);
  A_candidate : t_candidate_generation (t_spec t) = x_candidate_generation (x_spec x);
  A_token : t_fencing_token t = x_fencing_token (x_spec x);
  A_assigned : forall a, given (t_assigned_execution_id t) = Some a -> a = x_id x
}.

Lemma if_else_nil {A} (b : bool) (x : A) : (if b then [] else [x]) = [] -> b = true.
Proof. by destruct b. Qed.

Lemma assert_authoritative k s : match assertExecutionAuthoritative k s with
  | (s', Ok x) => s' = s /\ exists t, Authoritative k s x t
  | (s', Err e) => s' = s
  end.
Proof.
  unfold assertExecutionAuthoritative, execution_of, bind, gets, require, guard_, ret, fail. cbn.
  destruct (map_get k (executions s)) as [y|] eqn:Hy; [|done]. cbn. case_bool_decide as Hrun; [|done]. cbn.
  destruct (map_get (x_task y) (tasks s)) as [t|] eqn:Ht; [|done]. cbn. case_bool_decide as Hm; [|done]. cbn. split; [done|]. exists t.
  unfold mismatches, opt_eq in Hm. rewrite !app_nil in Hm. destruct Hm as (H1 & _ & H3 & H4 & H5 & H6).
  apply if_else_nil, bool_decide_eq_true in H1, H3, H4, H5. apply if_else_nil in H6. split; try done. intros a Ha. rewrite Ha in H6. by apply bool_decide_eq_true in H6.
Qed.

Lemma authoritative_result k s x : (assertExecutionAuthoritative k s).2 = Ok x -> exists t, Authoritative k s x t.
Proof. pose proof (assert_authoritative k s) as H. destruct (assertExecutionAuthoritative k s) as [s' [y|e]]; cbn; [|done]. intros [= ->]. apply H. Qed.

Lemma emit_generation m mid p ts s : currentGeneration m (emit Date_now fresh mid p ts s).1 = currentGeneration m s.
Proof. rewrite emit_run. unfold revised. by destruct ts, (counts_as_revision p). Qed.

Lemma resume_loop_generation m mid n s :
  currentGeneration m (for_each (repeat tt n) (fun _ => bind (emit Date_now fresh mid (ev_other "lease.fenced") None) (fun _ => ret tt)) s).1 =
  currentGeneration m s /\
  (for_each (repeat tt n) (fun _ => bind (emit Date_now fresh mid (ev_other "lease.fenced") None) (fun _ => ret tt)) s).2 = Ok tt.
Proof.
  revert s. induction n as [|n IH]; intros s; [done|]. cbn [repeat for_each]. rewrite bind_bind, bind_emit, bind_ret.
  destruct (IH (emit Date_now fresh mid (ev_other "lease.fenced") None s).1) as [-> ->]. by rewrite emit_generation.
Qed.

(** A resumption of a known mission advances its generation by one. *)
Lemma resume_generation m reason origin n s : is_Some (map_get m (missions s)) ->
  currentGeneration m (resumeMission Date_now fresh m reason origin n s).1 = currentGeneration m s + 1.
Proof.
  intros [x Hx]. unfold resumeMission, mission_of. rewrite bind_bind, bind_gets, Hx. cbn [require]. rewrite bind_ret.
  destruct (resume_loop_generation m m n s) as [Hg Ho]. unfold bind at 1. rewrite Ho.
  rewrite bind_now, !bind_gets, bind_modify, bind_emit. unfold ret. cbn [fst]. rewrite emit_generation, resumed_generation.
  rewrite bool_decide_true by done. cbn. exact (f_equal (fun g => g + 1) Hg).
Qed.

(** C9: a resumption fences the executions before it, for good. An execution that was authoritative is refused by
    [assertExecutionAuthoritative] once its mission was resumed, after any further run: no late result of an
    earlier generation is taken. *)
Theorem resumption_fences_executions s s' k x reason origin n :
  Reached s -> (assertExecutionAuthoritative k s).2 = Ok x -> is_Some (map_get (x_mission x) (missions s)) ->
  rtc (step false) (resumeMission Date_now fresh (x_mission x) reason origin n s).1 s' ->
  exists e, (assertExecutionAuthoritative k s').2 = Err e.
Proof.
  intros Hs [t Ha]%authoritative_result Hm Hr. pose proof (Reached_keyed s Hs) as HK.
  set (s1 := (resumeMission Date_now fresh (x_mission x) reason origin n s).1) in *.
  assert (H1 : Later s s1) by (exact (op_Later (op_resumeMission (x_mission x) reason origin n) s HK I)).
  assert (HK1 : Keyed s1) by (eapply (tracked_keyed false); [apply (resumeMission_tracked Date_now fresh)|done]).
  pose proof (steps_Later s1 s' HK1 Hr) as H2.
  destruct (assertExecutionAuthoritative k s').2 as [y|e] eqn:E; [|by exists e]. exfalso.
  apply authoritative_result in E as [t' Ha'].
  destruct (L_executions _ _ (transitivity H1 H2) _ _ (A_execution _ _ _ _ Ha)) as (y' & Hy' & Es).
  pose proof (A_execution _ _ _ _ Ha') as Hy. rewrite Hy' in Hy. injection Hy as ->.
  pose proof (A_resumption _ _ _ _ Ha) as G. pose proof (A_resumption _ _ _ _ Ha') as G'.
  assert (Em : x_mission y = x_mission x) by (unfold x_mission; by rewrite Es). rewrite Es, G, Em in G'. injection G' as G'.
  pose proof (L_generation _ _ H2 (x_mission x)). pose proof (resume_generation (x_mission x) reason origin n s Hm) as Hg. fold s1 in Hg. lia.
Qed.

(** Authority is exclusive: of the executions of a task that has an assigned one, only that one passes. *)
Lemma authority_exclusive s k x k' x' : Keyed s -> (assertExecutionAuthoritative k s).2 = Ok x -> (assertExecutionAuthoritative k' s).2 = Ok x' ->
  x_task x = x_task x' -> (forall t, map_get (x_task x) (tasks s) = Some t -> is_Some (given (t_assigned_execution_id t))) -> k = k'.
Proof.
  intros HK [t Ha]%authoritative_result [t' Ha']%authoritative_result E Ht. pose proof (A_task _ _ _ _ Ha) as Hg. pose proof (A_task _ _ _ _ Ha') as Hg'.
  rewrite <- E, Hg in Hg'. injection Hg' as <-. destruct (Ht t Hg) as [a Hassigned].
  rewrite <- (proj2 (K_executions _ HK) _ _ (A_execution _ _ _ _ Ha)), <- (proj2 (K_executions _ HK) _ _ (A_execution _ _ _ _ Ha')).
  by rewrite <- (A_assigned _ _ _ _ Ha a Hassigned), <- (A_assigned _ _ _ _ Ha' a Hassigned).
Qed.

(** ** Entering repair *)

Ltac pass_guard H := match goal with |- (if ?b then _ else _) = _ -> _ => destruct b eqn:H; [|done] end.

Lemma repair_decision_ok m mid rid s s' d : repair_decision mid m rid s = (s', Ok d) ->
  s' = s /\ exists r ep, rid = Some r /\ map_get r (recoveryDecisions s) = Some d /\ rd_missionId d = mid /\ rd_status d = rs_planned /\
    rd_action d ∉ [STOP; WAIT_FOR_REQUIREMENT; PAUSE_FOR_PERSISTENCE] /\ given (m_blocked_episode_id m) = Some ep /\ rd_blockedEpisodeId d = Some ep.
Proof.
  unfold repair_decision. rewrite bind_gets, bind_require. destruct (rid ≫= _) as [d0|] eqn:Ed; [|done].
  apply bind_Some in Ed as (r & -> & Hd). rewrite bind_gets, bind_guard. pass_guard H1. rewrite bind_guard.
  pass_guard H2. rewrite bind_guard. pass_guard H3.
  unfold ret. intros [= -> ->]. split; [done|]. apply bool_decide_eq_true in H2.
  apply negb_true_iff, orb_false_iff in H1 as [[H4%negb_false_iff H5]%orb_false_iff _]. apply bool_decide_eq_true in H4.
  destruct (given (m_blocked_episode_id m)) as [ep|] eqn:He; [|done]. apply bool_decide_eq_true in H3. exists r, ep. split_and!; try done.
  intros Hin%js_includes_true. congruence.
Qed.

(** C17: a blocked mission enters repair with its decision, in one event. The transition succeeds only with a planned
    decision of the mission for the current blocked episode, not one to stop, wait or pause; the mission is then
    REPAIRING, the decision started, and both are announced by a single event, so that no replay sees one without
    the other. *)
Theorem repair_starts_atomically m mid rid s s' : Reached s ->
  map_get mid (missions s) = Some m -> m_status m = Mission.BLOCKED ->
  transitionMission Date_now fresh mid Mission.REPAIRING rid s = (s', Ok tt) ->
  exists r d ep e,
    given rid = Some r /\ map_get r (recoveryDecisions s) = Some d /\ rd_missionId d = mid /\ rd_status d = rs_planned /\
    rd_action d ∉ [STOP; WAIT_FOR_REQUIREMENT; PAUSE_FOR_PERSISTENCE] /\
    given (m_blocked_episode_id m) = Some ep /\ rd_blockedEpisodeId d = Some ep /\
    (m_status <$> map_get mid (missions s')) = Some Mission.REPAIRING /\
    (rd_status <$> map_get r (recoveryDecisions s')) = Some rs_started /\
    log s' = (log s ++ [e])%list /\ image false (apply e s) = image false s'.
Proof.
  intros Hs%Reached_keyed Hm Hst Ht. pose proof (transitionMission_tracked Date_now fresh false mid Mission.REPAIRING rid s Hs) as Htr. rewrite Ht in Htr.
  unfold transitionMission, mission_of in Ht. rewrite bind_bind, bind_gets, bind_require, Hm, Hst in Ht.
  rewrite (bool_decide_false (Mission.BLOCKED = Mission.REPAIRING)), (bool_decide_true (Mission.BLOCKED = Mission.BLOCKED)),
    (bool_decide_true (Mission.REPAIRING = Mission.REPAIRING)), !(bool_decide_false (Mission.REPAIRING = Mission.BLOCKED)) in Ht by done.
  cbn beta iota delta [andb when] in Ht. rewrite bind_bind in Ht. unfold bind at 1 in Ht. destruct (repair_decision mid m (given rid) s) as [s0 [d|]] eqn:Hd; cbn [fst snd] in Ht; [|done].
  apply repair_decision_ok in Hd as (-> & r & ep & Hr & Hd & Hdm & Hpl & Hac & Hep & Hde). rewrite bind_ret, bind_assert_mission in Ht.
  change (Mission.canTransitionMission Mission.BLOCKED Mission.REPAIRING) with true in Ht. cbn beta iota in Ht.
  rewrite bind_now, bind_ret, !bind_modify in Ht. cbn beta iota in Ht. rewrite bind_bind, bind_modify, bind_bind, bind_emit, bind_ret in Ht.
  apply (f_equal fst) in Ht. unfold ret in Ht. rewrite emit_run in Ht. cbn [fst] in Ht.
  pose proof (decision_key _ _ _ Hs Hd) as Hkey.
  assert (H0 : forall l es, log s' = (log s ++ l)%list -> log s' = (log s ++ es)%list -> l = es) by (intros l es -> H; by apply app_inv_head in H).
  assert (Hl : exists e, log s' = (log s ++ [e])%list) by (subst s'; eexists; unfold log; cbn; by rewrite app_assoc).
  destruct Hl as [e Hl]. exists r, d, ep, e. split_and!; try done.
  - subst s'. cbn. rewrite map_get_update, decide_True, map_get_set_eq by done. done.
  - subst s' r. cbn. rewrite map_get_set_eq. done.
  - destruct Htr as (es & Hl' & Hi & _). rewrite <- (H0 [e] es) in Hi by done. by symmetry.
Qed.

(** ** Supersession *)

Lemma supersession_elem s su : Keyed s -> su ∈ map_values (taskSupersessions s) -> exists k, map_get k (taskSupersessions s) = Some su.
Proof.
  intros HK ([k v] & -> & Hin)%list_elem_of_fmap. exists k. apply map_elem_get; [|done]. apply (K_supersessions _ HK).
Qed.

(** The walk reaches a leaf for every acceptance id, when it cannot come back to a task. *)
Lemma leaves_cover (rank : string -> nat) s n visiting k t a :
  Keyed s -> covered s ->
  (forall su key, su ∈ map_values (taskSupersessions s) -> key ∈ su_replacementTaskIds su -> (rank key < rank (su_failedTaskId su))%nat) ->
  NoDup visiting -> (forall v, v ∈ visiting -> v ∈ map su_failedTaskId (map_values (taskSupersessions s)) /\ (rank k < rank v)%nat) ->
  (length (taskSupersessions s) + 2 <= n + length visiting)%nat ->
  map_get k (tasks s) = Some t -> a ∈ t_acceptance_ids (t_spec t) ->
  exists l, l ∈ leaves_ n s visiting k /\ a ∈ t_acceptance_ids (t_spec l).
Proof.
  intros HK Hc Hrank. revert visiting k t. induction n as [|n IH]; intros visiting k t Hnd Hv Hn Ht Ha.
  - exfalso. assert (Hsub : visiting ⊆ map su_failedTaskId (map_values (taskSupersessions s))) by (intros v Hin; by apply Hv).
    apply NoDup_submseteq, submseteq_length in Hsub; [|done]. unfold map_values in Hsub. rewrite length_map, length_fmap in Hsub. lia.
  - cbn [leaves_]. rewrite (proj2 (js_includes_false k visiting)) by (intros Hin; destruct (Hv k Hin); lia).
    destruct (js_find _ _) as [su|] eqn:Hf; [|rewrite Ht; exists t; split; [left|done]].
    apply js_find_some in Hf as [Hin Hk%bool_decide_eq_true]. subst k.
    destruct (supersession_elem s su HK Hin) as [key Hkey]. destruct (Hc key su Hkey) as (f & Hf & Hcov). simplify_eq.
    destruct (Hcov a Ha) as (key' & t' & Hrep & Ht' & Ha'). destruct (IH (visiting ++ [su_failedTaskId su])%list key' t') as (l & Hl & Hal); try done.
    + apply NoDup_app. split_and!; [done| |apply NoDup_singleton]. intros v Hin' ->%list_elem_of_singleton. destruct (Hv _ Hin'). lia.
    + intros v [Hin'| ->%list_elem_of_singleton]%elem_of_app.
      * destruct (Hv v Hin'). split; [done|]. specialize (Hrank su key' Hin Hrep). lia.
      * split; [apply list_elem_of_fmap; eauto|by apply Hrank].
    + rewrite length_app. cbn. lia.
    + exists l. split; [|done]. apply list_elem_of_In, in_concat. exists (leaves_ n s (visiting ++ [su_failedTaskId su]) key').
      split; [|by apply list_elem_of_In]. apply in_map_iff. exists key'. split; [done|]. by apply list_elem_of_In.
Qed.

(** A task satisfied by supersession is covered. When supersessions do not lead back to a superseded task, every
    acceptance id of a task that counts as satisfied is carried by one of its leaves, and that leaf SUCCEEDED. *)
Theorem supersession_covers (rank : string -> nat) s k t a : Reached s ->
  (forall su key, su ∈ map_values (taskSupersessions s) -> key ∈ su_replacementTaskIds su -> (rank key < rank (su_failedTaskId su))%nat) ->
  map_get k (tasks s) = Some t -> isTaskSatisfiedBySupersession s k = true -> a ∈ t_acceptance_ids (t_spec t) ->
  exists l, l ∈ supersessionLeaves s k /\ t_status l = Task.SUCCEEDED /\ a ∈ t_acceptance_ids (t_spec l).
Proof.
  intros Hs Hrank Ht [_ Hall]%andb_true_iff Ha.
  destruct (leaves_cover rank s (S (S (length (taskSupersessions s)))) [] k t a) as (l & Hl & Hal); try done.
  - by apply Reached_keyed.
  - by apply Reached_covered.
  - constructor.
  - intros v Hv. by apply not_elem_of_nil in Hv.
  - cbn. lia.
  - exists l. split_and!; [done| |done]. rewrite js_every_true in Hall. by apply Hall, bool_decide_eq_true in Hl.
Qed.

(** ** Settlement on a shared log *)

Lemma open_image k es : image k (open_ es) = image k (replayEvents es empty_store).
Proof. done. Qed.
Lemma Keyed_open es : Keyed (open_ es).
Proof. apply (Keyed_image true). rewrite open_image. apply Keyed_image, Keyed_replay, Keyed_empty. Qed.
Lemma open_app k es es' : image k (open_ (es ++ es')) = image k (replayEvents es' (open_ es)).
Proof. rewrite open_image, replayEvents_app. by apply replay_image. Qed.

Lemma stops_payload at_ p s : missionStops (apply_payload at_ p s) = (missionStops s ++ match p with mission_stopped st => [st] | _ => [] end)%list.
Proof.
  destruct p; cbn [apply_payload]; unfold recordAuthoritativeExecutionStart, recordCanonical; repeat case_match; cbn; rewrite ?app_nil_r; done.
Qed.
Lemma stops_open es e : missionStops (open_ (es ++ [e])) = (missionStops (open_ es) ++ match ev_payload e with mission_stopped st => [st] | _ => [] end)%list.
Proof.
  cbn. rewrite replayEvents_app. cbn. unfold apply. rewrite <- stops_payload with (at_ := ev_timestamp e). by case_match.
Qed.

(** An event other than a conditional stop of the mission: its plain stops carry no settlement identity. *)
Definition no_settlement (m : string) (e : OrchestrationEvent) : Prop :=
  forall st, ev_payload e = mission_stopped st -> ps_missionId st = m -> ps_settlementIdentity st = None.

(** The log with the answers callers got: a mission, the fence asked for and the stop answered. *)
Definition Asked : Type := string * MissionRevisionFence * MissionStop.
Definition answered (m : string) (f : MissionRevisionFence) (o : option MissionStop) : list Asked := match o with Some st => [(m, f, st)] | None => [] end.

(** Any store appends events, plain stops of the mission included, and any number of them run conditional stops,
    whose two parts interleave freely; the tables of the callers play no role in the decision. *)
Inductive settling (m : string) : list OrchestrationEvent * list Asked -> list OrchestrationEvent * list Asked -> Prop :=
  | settling_append e es l : no_settlement m e -> settling m (es, l) ((es ++ [e])%list, l)
  | settling_early i f at_ eid es l o : stop_prepare Date_valid m i f at_ eid es = inl o -> settling m (es, l) (es, answered m f o ++ l)%list
  | settling_commit i f at_ eid es0 st e es l s :
      stop_prepare Date_valid m i f at_ eid es0 = inr (st, e) ->
      settling m (es, l) ((stop_commit m f st e es s).1.1, (answered m f (stop_commit m f st e es s).2 ++ l)%list).

(** The last conditional stop the log holds for the generation. *)
Definition settled_stop (m : string) (g : Z) (s : Store) : option MissionStop :=
  last (js_filter (fun st => (bool_decide (ps_missionId st = m) && (ps_resumptionGeneration st =? g)) && bool_decide (is_Some (ps_settlementIdentity st))) (missionStops s)).

(** The answers name it. *)
Definition answers_settled (m : string) (w : list OrchestrationEvent * list Asked) : Prop :=
  forall a, a ∈ w.2 -> a.1.1 = m /\ ps_settlementIdentity a.2 = Some a.1.2 /\
    settled_stop m (fence_resumptionGeneration a.1.2) (open_ w.1) = Some a.2.

Lemma settled_snoc_plain m g es e : no_settlement m e -> settled_stop m g (open_ (es ++ [e])) = settled_stop m g (open_ es).
Proof.
  intros H. unfold settled_stop. rewrite stops_open. destruct (ev_payload e) eqn:E; rewrite ?app_nil_r; try done.
  rewrite last_snoc_filter. specialize (H st E). case_bool_decide as Hm; [|done]. rewrite (H Hm). by rewrite andb_false_r.
Qed.
Lemma settled_snoc_other m g es e st : ev_payload e = mission_stopped st -> ps_resumptionGeneration st <> g ->
  settled_stop m g (open_ (es ++ [e])) = settled_stop m g (open_ es).
Proof.
  intros E H. unfold settled_stop. rewrite stops_open, E, last_snoc_filter. rewrite (proj2 (Z.eqb_neq _ _) H). by rewrite andb_false_r.
Qed.

Lemma last_filter_and {A} (p q : A -> bool) l x : last (js_filter p l) = Some x -> q x = true -> last (js_filter (fun y => p y && q y) l) = Some x.
Proof.
  induction l as [|y l IH] using rev_ind; [done|]. rewrite !last_snoc_filter. destruct (p y); cbn; [|exact IH]. by intros [= ->] ->.
Qed.
Lemma last_filter_none {A} (p q : A -> bool) l : last (js_filter p l) = None -> last (js_filter (fun y => p y && q y) l) = None.
Proof. induction l as [|y l IH] using rev_ind; [done|]. rewrite !last_snoc_filter. by destruct (p y). Qed.

(** The current stop is the settled one if it is a conditional one; without a stop there is no settled one. *)
Lemma current_settled m g s st f : currentStopForGeneration m g s = Some st -> ps_settlementIdentity st = Some f -> settled_stop m g s = Some st.
Proof. intros H E. unfold settled_stop. apply last_filter_and; [exact H|]. by rewrite E. Qed.
Lemma current_none m g s : currentStopForGeneration m g s = None -> settled_stop m g s = None.
Proof. apply last_filter_none. Qed.

Lemma settled_answer_some f st st' : settled_answer f st = Some st' -> st' = st /\ ps_settlementIdentity st = Some f.
Proof.
  unfold settled_answer, settlementIdentityMatches. destruct (ps_settlementIdentity st) as [a|]; [|done]. case_bool_decide; [|done]. intros [= <-]. by subst.
Qed.

Lemma answers_add m w f st es l : answers_settled m (es, l) -> w = (es, answered m f (settled_answer f st) ++ l)%list ->
  currentStopForGeneration m (fence_resumptionGeneration f) (open_ es) = Some st -> answers_settled m w.
Proof.
  intros H -> Hc a. cbn. destruct (settled_answer f st) as [st'|] eqn:E; cbn; [|by apply H].
  apply settled_answer_some in E as [-> E]. intros [-> |Ha]%elem_of_cons; [|by apply H]. split_and!; [done..|]. by eapply current_settled.
Qed.

Lemma answers_settled_step m w w' : settling m w w' -> answers_settled m w -> answers_settled m w'.
Proof.
  intros Hs H. destruct Hs as [e es l He|i f at_ eid es l o Hp|i f at_ eid es0 st e es l s Hp].
  - intros a Ha. cbn [fst snd] in *. rewrite settled_snoc_plain by done. by apply H.
  - unfold stop_prepare in Hp. destruct (currentStopForGeneration _ _ _) as [st|] eqn:Hc; [injection Hp as <-; by eapply answers_add|].
    destruct (negb _); [|done]. injection Hp as <-. done.
  - unfold stop_commit. destruct (currentStopForGeneration _ _ (open_ es)) as [ex|] eqn:Hc; [cbn; by eapply answers_add|].
    destruct (matchesMissionFence _ _ _); [|done]. unfold stop_prepare in Hp.
    destruct (currentStopForGeneration _ _ (open_ es0)); [done|]. destruct (negb _); [done|]. injection Hp as <- <-. cbn [fst snd].
    intros a. cbn [fst snd answered app]. intros [-> |Ha]%elem_of_cons; cbn [fst snd].
    + split_and!; [done..|]. unfold settled_stop. rewrite stops_open. cbn. rewrite last_snoc_filter. cbn.
      rewrite bool_decide_true, Z.eqb_refl by done. done.
    + destruct (H a Ha) as (H1 & H2 & H3). split_and!; [done..|]. erewrite settled_snoc_other; [done|reflexivity|]. cbn [ps_resumptionGeneration].
      intros Hg. cbn [fst snd] in H3. rewrite <- Hg, (current_none _ _ _ Hc) in H3. done.
Qed.

(** C10: a mission is settled once in a generation, across every store that shares the log. Whatever fences the callers of
    [stopMissionIfCurrent] hold and however their reads, appends and the events of others, plain stops of the mission
    included, interleave, all callers that get a stop for a generation asked with the same fence and get the same stop, and it is
    the last conditional stop the log holds for the generation; the last stop of the generation is that one or a plain one. *)
Theorem stop_settles_once m es w f st f' st' :
  rtc (settling m) (es, []) w -> (m, f, st) ∈ w.2 -> (m, f', st') ∈ w.2 -> fence_resumptionGeneration f = fence_resumptionGeneration f' ->
  f = f' /\ st = st' /\ settled_stop m (fence_resumptionGeneration f) (open_ w.1) = Some st /\
  exists cur, currentStopForGeneration m (fence_resumptionGeneration f) (open_ w.1) = Some cur /\ (cur = st \/ ps_settlementIdentity cur = None).
Proof.
  intros Hr H1 H2 Hg. assert (H : answers_settled m w).
  { assert (answers_settled m (es, []) -> answers_settled m w) as G; [|apply G; by intros a Ha%not_elem_of_nil].
    clear -Hr. induction Hr as [|a b c Hab _ IH]; [done|]. intros H. apply IH. by eapply answers_settled_step. }
  destruct (H _ H1) as (_ & E1 & C1), (H _ H2) as (_ & E2 & C2). cbn [fst snd] in *. rewrite <- Hg in C2. assert (st = st') as <- by congruence.
  split_and!; [congruence|done..|]. destruct (currentStopForGeneration m (fence_resumptionGeneration f) (open_ w.1)) as [cur|] eqn:Hc.
  - exists cur. split; [done|]. destruct (ps_settlementIdentity cur) as [g|] eqn:E; [left|by right].
    rewrite (current_settled _ _ _ _ _ Hc E) in C1. congruence.
  - by rewrite (current_none _ _ _ Hc) in C1.
Qed.

Lemma matches_generation m f s : matchesMissionFence m f s = true -> currentGeneration m s = fence_resumptionGeneration f.
Proof.
  unfold matchesMissionFence. destruct (map_get m (missions s)); [|done]. intros H.
  apply andb_true_iff in H as [[[[_ H]%andb_true_iff _]%andb_true_iff _]%andb_true_iff _]. lia.
Qed.

(** A fence is spent by an event that counts as a revision. *)
Lemma fence_spent m f e es later : matchesMissionFence m f (open_ es) = true -> belongs e (open_ es) -> ev_mission_id e = m ->
  counts_as_revision (ev_payload e) = true -> owned later (open_ (es ++ [e])) ->
  matchesMissionFence m f (open_ ((es ++ [e]) ++ later)) = false.
Proof.
  intros (x & Hx & Er)%fence_spec Hb Hm Hc Ho. apply not_true_iff_false. intros (y & Hy & Er')%fence_spec.
  destruct (payload_keeps m e (open_ es) x (Keyed_open es) Hb Hx) as (x' & Hx' & Ex).
  assert (H1 : map_get m (missions (apply e (open_ es))) = Some (with_revision (m_revision x' + 1) x')).
  { unfold apply. rewrite Hc, Hm. cbn [advanceMissionRevision on_missions missions]. rewrite map_get_update, decide_True by done. cbn.
    by rewrite Hx'. }
  assert (Hi : image true (open_ (es ++ [e])) = image true (apply e (open_ es))) by apply open_app.
  destruct (view_image m _ _ Hi) as [_ Hrev]. unfold revision in Hrev. rewrite H1 in Hrev.
  destruct (map_get m (missions (open_ (es ++ [e])))) as [z|] eqn:Hz; [|done]. injection Hrev as Hrev.
  destruct (ordered_replay m later _ (Keyed_open _) Ho z Hz) as (w & Hw & HL & _).
  destruct (view_image m _ _ (open_app true (es ++ [e]) later)) as [_ Hrev']. unfold revision in Hrev'. rewrite Hy, Hw in Hrev'. injection Hrev' as Hrev'.
  cbn in Hrev. lia.
Qed.

(** C25: automatic resumption happens once for a fence, and never against the operator. A committed resumption is of a
    mission the log does not show as paused by the operator or waiting for the user; it starts the next generation; and no caller with the same fence resumes the mission again after it. *)
Theorem automatic_resumption_once m reason f sel can can' at_ eid es0 s0 r e es s es' s' :
  resume_prepare m reason f sel can at_ eid es0 s0 = Some (r, e) ->
  resume_commit m f sel can' r e es s = (es', s', Some r) ->
  re_generation r = currentGeneration m (open_ es) + 1 /\ currentGeneration m (open_ es') = re_generation r /\
  (exists x, map_get m (missions (open_ es)) = Some x /\ given (m_operator_paused_at x) = None /\ m_status x <> Mission.WAITING_FOR_USER) /\
  forall later sel2 can2 r2 e2 s2, owned later (open_ es') ->
    resume_commit m f sel2 can2 r2 e2 (es' ++ later)%list s2 = ((es' ++ later)%list, s2, None).
Proof.
  intros Hp Hc. unfold resume_prepare in Hp. destruct (_ && _); [|done]. injection Hp as <- <-. unfold resume_commit in Hc.
  destruct (_ && resume_eligible _ _ _ _ (open_ es)) eqn:E in Hc; [|done]. injection Hc as <- <-. apply andb_true_iff in E as [_ E].
  unfold resume_eligible in E. rewrite !andb_true_iff, !negb_true_iff in E. destruct E as (((((Hf & _) & _) & Hpause) & Hst) & _).
  pose proof (matches_generation _ _ _ Hf) as Hg.
  assert (Hgen : currentGeneration m (open_ (es ++ [mkEvent eid m at_ (mission_resumed (mkResumption m reason at_ (fence_resumptionGeneration f + 1)
     (nullish (option_map ps_generation (last (stops_of m (open_ es0)))) 0) (Some automatic)) sel)])) = fence_resumptionGeneration f + 1).
  { match goal with |- currentGeneration m ?a = _ => assert (Hi : image true a = image true (replayEvents _ (open_ es))) by apply open_app end.
    injection Hi as _ _ _ _ _ _ _ _ _ _ _ _ Hr. unfold currentGeneration, resumptions_of. cbn in Hr |- *. rewrite Hr. unfold apply. cbn.
    destruct sel; cbn; rewrite last_snoc_filter; by rewrite bool_decide_true. }
  split_and!; [cbn; lia|exact Hgen| |].
  - destruct (fence_spec _ _ _ Hf) as (x & Hx & _). rewrite Hx in Hpause, Hst. exists x. split_and!; [done| |].
    + destruct (given (m_operator_paused_at x)) eqn:G; [|done]. cbn in Hpause. by rewrite G in Hpause.
    + intros E. by rewrite E in Hst.
  - intros later sel2 can2 r2 e2 s2 Ho. unfold resume_commit, resume_eligible. rewrite (fence_spent m f _ es later Hf); try done.
    + by rewrite andb_false_r.
    + split; [done|]. cbn. lia.
Qed.

(** ** Failing a mission *)

(** [failMission] asks no table: it takes a mission of any status to FAILED, also one that is COMPLETE or CANCELED,
    from where the table allows no way out, and from FAILED a mission can be blocked and repaired again. *)
Theorem fail_leaves_terminal mid reason m s : map_get mid (missions s) = Some m ->
  (m_status <$> map_get mid (missions (failMission Date_now fresh mid reason s).1)) = Some Mission.FAILED /\
  Mission.canTransitionMission Mission.COMPLETE Mission.FAILED = false /\ Mission.canTransitionMission Mission.CANCELED Mission.FAILED = false /\
  Mission.canTransitionMission Mission.FAILED Mission.BLOCKED = true.
Proof.
  intros Hm. split_and!; [|done..]. unfold failMission, mission_of. rewrite bind_bind, bind_gets, bind_require, Hm, !bind_now, bind_modify, bind_emit, emit_run.
  cbn. by rewrite map_get_update, decide_True, map_get_set_eq by done.
Qed.

(** ** Sequences of calls *)

Fixpoint run_ops (l : list Op) (s : Store) : Store :=
  match l with [] => s | o :: l' => run_ops l' (run_op Date_now fresh coverage_sha256 failure_sha256 Date_valid o s) end.

(** [op_ok], decided. *)
Definition op_check (o : Op) (s : Store) : bool :=
  match o with
  | op_createMission i => bool_decide (map_has (nullish (mi_mission_id i) (fresh "MSN" (id_seq s))) (missions s) = false)
  | op_createTask i _ =>
      let key := nullish (ti_task_id i) (fresh "TSK" (id_seq s)) in
      negb (map_has key (tasks s)) &&
      match map_get (ti_mission_id i) (missions s) with Some m => negb (js_includes key (m_task_ids m)) | None => true end
  | op_createExecution _ => negb (map_has (fresh "EXC" (id_seq s)) (executions s))
  | op_addFinding _ => negb (map_has (fresh "F" (id_seq s)) (findings s))
  | op_markDiskSuspendEpisode _ e _ _ _ => negb (js_includes (nullish e (fresh "DSE" (id_seq s))) (map de_episodeId (diskSuspendEpisodes s)))
  | op_classifyFailure c =>
      match map_get (fc_classificationId c) (failureClassifications s) with Some d => bool_decide (fc_missionId d = fc_missionId c) | None => true end
  | op_failMission _ reason => negb (bool_decide (reason = ""))
  | op_steerTask _ request => negb (bool_decide (request = ""))
  | _ => true
  end.

Lemma map_has_none {V} k (t : jsmap string V) : map_has k t = false -> map_get k t = None.
Proof. unfold map_has. by destruct (map_get k t). Qed.

Lemma op_check_ok o s : op_check o s = true -> op_ok fresh o s.
Proof.
  destruct o; cbn [op_check op_ok]; try done; rewrite ?negb_true_iff.
  - intros H%bool_decide_eq_true. by apply map_has_none.
  - by intros H%bool_decide_eq_false.
  - intros [H%negb_true_iff%map_has_none Hm]%andb_true_iff. split; [done|]. intros m Hg. rewrite Hg in Hm.
    by apply negb_true_iff, js_includes_false in Hm.
  - by intros H%bool_decide_eq_false.
  - apply map_has_none.
  - apply map_has_none.
  - by rewrite js_includes_false.
  - intros H d Hd. rewrite Hd in H. by apply bool_decide_eq_true in H.
Qed.

Fixpoint ops_check (k : bool) (l : list Op) (s : Store) : bool :=
  match l with
  | [] => true
  | o :: l' => op_check o s && negb (k && is_wait o) && ops_check k l' (run_op Date_now fresh coverage_sha256 failure_sha256 Date_valid o s)
  end.

Lemma run_ops_steps k l s : ops_check k l s = true -> rtc (step k) s (run_ops l s).
Proof.
  revert s. induction l as [|o l IH]; intros s H; [done|]. apply andb_true_iff in H as [[H1 H2%negb_true_iff]%andb_true_iff H3].
  eapply rtc_l; [|by apply IH]. apply step_op; [by apply op_check_ok|]. by intros ->.
Qed.
End Runs.

(** ** Concrete runs *)

Module Sample.
Definition Date (n : nat) : string := "2026-01-01".
Definition Fresh (p : string) (n : nat) : string := p +:+ String (Ascii.ascii_of_nat (48 + n)) "".
Definition csha (c : list string * string * string) : string := "c".
Definition fsha (c : FingerprintInput) : string := "f".
Definition valid (d : string) : bool := true.

Definition mission_input : MissionCreateInput := mkMissionInput (Some "m") "t" "g" "u" "r" "main" [] "low" "feature" None.
Definition task_input (key : string) : TaskCreateInput :=
  mkTaskInput (Some key) "m" agent "implementer" "objective" [] None None [] None None None None (Some "repo") ["a"; key] ["d"] None None [] None
    None None None None None None.
Notation run := (run_ops Date Fresh csha fsha valid).
Notation steps k := (rtc (step Date Fresh csha fsha valid k)).

(** A mission with a task that is ready to run. *)
Definition begun : list Op := [op_createMission mission_input; op_createTask (task_input "t1") None; op_transitionTask "t1" Task.READY no_metadata].
Definition waiting : list Op := (begun ++ [op_setRepositoryWait "t1" "repo" "other" "owner"])%list.
Definition started : Op := op_transitionTask "t1" Task.RUNNING no_metadata.

(** Repository waits break the fence. [setRepositoryWait] applies the event that [emit] already counted, so the
    live revision moves by two where a replay moves it by one. A fence taken of the live mission is then refused by
    the store reopened from the same log, and accepted after a later change that it was to detect. *)
Theorem wait_breaks_fence :
  let s := run waiting empty_store in
  let s' := run [started] s in
  exists f, fence_of "m" s = Some f /\ matchesMissionFence "m" f s = true /\
    matchesMissionFence "m" f (open_ (log s)) = false /\
    matchesMissionFence "m" f (open_ (log s')) = true /\ view "m" s' <> view "m" s.
Proof.
  cbv zeta. eexists. split; [vm_compute; reflexivity|]. split_and!; [vm_compute; reflexivity..|].
  intros H. apply (f_equal v_tasks) in H. vm_compute in H. discriminate H.
Qed.

(** *** The premises hold on concrete runs *)

Ltac ran := apply run_ops_steps; vm_compute; reflexivity.

Lemma replay_witness : exists s, durable s <> [] /\ pendingWrites s = [] /\ image true (open_ (durable s)) = image true s.
Proof.
  set (s := (drainPending [None; None; None] (run begun empty_store)).1). exists s. split; [by vm_compute|]. split; [by vm_compute|].
  apply (store_replays_log Date Fresh csha fsha valid true s); [|by vm_compute].
  etrans; [apply (run_ops_steps Date Fresh csha fsha valid true begun); vm_compute; reflexivity|].
  eapply rtc_l; [apply (step_drain _ _ _ _ _ _ None)|]. eapply rtc_l; [apply (step_drain _ _ _ _ _ _ None)|].
  eapply rtc_l; [apply (step_drain _ _ _ _ _ _ None)|]. by replace (drain_step None _) with s by (by vm_compute).
Defined.


Lemma canonical_witness : getCanonicalLifecycle "m" (run (begun ++ [op_transitionMission "m" Mission.CANCELED None]) empty_store) = Some (cl_CANCELLED, 1).
Proof.
  set (s := run _ _). assert (E : exists m, map_get "m" (missions s) = Some m /\ m_status m = Mission.CANCELED)
    by (eexists; split; vm_compute; reflexivity). destruct E as (m & Hm & Hst).
  rewrite (canonical_lifecycle_current Date Fresh csha fsha valid s "m" m); [by rewrite Hst|ran|done].
Defined.


(** The task runs, changes its model and the commit it starts from, and finishes. *)
Definition finished : list Op :=
  (begun ++ [started; op_switchTaskModel "t1" "large" (Some "sha1"); op_transitionTask "t1" Task.SUCCEEDED no_metadata])%list.
Definition afterwards : list Op :=
  [started; op_switchTaskModel "t1" "small" None; op_resumeTaskFromCheckpoint "t1" "sha2"; op_stopMission "m" (mkStopInput "r" [] [] "c" None)].

Lemma outcomes_witness : exists t, map_get "t1" (tasks (run afterwards (run finished empty_store))) = Some t /\
  t_status t = Task.SUCCEEDED /\ required_model (t_execution_requirements (t_spec t)) = Some (jstr "large") /\
  t_repair_base_candidate_sha (t_spec t) = Some "sha1".
Proof.
  set (s := run finished empty_store).
  assert (E : exists t, map_get "t1" (tasks s) = Some t /\ t_status t = Task.SUCCEEDED /\
    required_model (t_execution_requirements (t_spec t)) = Some (jstr "large") /\ t_repair_base_candidate_sha (t_spec t) = Some "sha1")
    by (eexists; split_and!; vm_compute; reflexivity). destruct E as (t & Ht & Hst & Hm & Hr).
  destruct (outcomes_final Date Fresh csha fsha valid s (run afterwards s)) as [H _]; [ran|ran|].
  destruct (H "t1" t Ht) as (t' & Ht' & _ & Hk). exists t'. destruct Hk as [E1 E2]; [rewrite Hst; left|].
  split; [exact Ht'|]. rewrite E1, E2. split; [exact Hst|]. split; [exact Hm|exact Hr].
Defined.

(** An execution of the task, running and assigned. *)
Definition executing : list Op :=
  (begun ++ [op_createExecution (mkExecutionInput "t1" "pi" "m" None None None None None None None None None None None None);
             op_assignTaskExecution "t1" "EXC3"; started; op_setExecutionStatus "EXC3" x_RUNNING (mkExecutionPatch (fun d => d) None None None)])%list.

Lemma fencing_witness : (exists x, (assertExecutionAuthoritative "EXC3" (run executing empty_store)).2 = Ok x) /\
  exists e, (assertExecutionAuthoritative "EXC3" (run [op_resumeMission "m" "again" by_operator 1] (run executing empty_store))).2 = Err e.
Proof.
  set (s := run executing empty_store).
  assert (E : exists x, (assertExecutionAuthoritative "EXC3" s).2 = Ok x /\ x_mission x = "m") by (eexists; split; vm_compute; reflexivity).
  destruct E as (x & Hx & Hm). split; [by exists x|].
  apply (resumption_fences_executions Date Fresh csha fsha valid s _ "EXC3" x "again" by_operator 1); [ran|done| |].
  - rewrite Hm. eexists. vm_compute. reflexivity.
  - rewrite Hm. cbn [run_ops run_op]. apply rtc_refl.
Defined.

(** A mission blocked in an episode, with a decision to repair it. *)
Definition blocked : list Op :=
  [op_createMission mission_input; op_transitionMission "m" Mission.CLASSIFYING None;
   op_classifyFailure (mkClassification "f1" "m" None None IMPLEMENTATION_DEFECT [] "f" "broken" "t" None);
   op_transitionMission "m" Mission.BLOCKED None;
   op_planRecovery (mkRecovery "r1" "m" "f1" REPAIR_BLOCKED_MISSION "change" 1 3 None "t" rs_planned "t" None None None None None None None)].

Lemma repair_witness : exists r d, map_get r (recoveryDecisions (run blocked empty_store)) = Some d /\ rd_status d = rs_planned /\
  (rd_status <$> map_get r (recoveryDecisions (run [op_transitionMission "m" Mission.REPAIRING (Some "r1")] (run blocked empty_store)))) = Some rs_started.
Proof.
  set (s := run blocked empty_store). set (s' := run _ s).
  assert (E : exists m, map_get "m" (missions s) = Some m /\ m_status m = Mission.BLOCKED) by (eexists; split; vm_compute; reflexivity).
  destruct E as (m & Hm & Hst).
  destruct (repair_starts_atomically Date Fresh csha fsha valid m "m" (Some "r1") s s') as (r & d & ep & e & _ & H1 & _ & H2 & _ & _ & _ & _ & H3 & _);
    [ran|done|done|vm_compute; reflexivity|]. exists r, d.
  split_and!; [exact H1|exact H2|exact H3].
Defined.

Definition covering (key : string) (accepted : list string) : TaskCreateInput :=
  mkTaskInput (Some key) "m" agent "implementer" "objective" [] None None [] None None None None (Some "repo") accepted ["d"] None None [] None
    None None None None None None.
Definition superseding (key failed : string) (replacements accepted : list string) : TaskSupersession :=
  mkSupersession key "m" failed replacements "repo" accepted (Some "sha256:c") "split" "t" None None.
Definition settling_task (key : string) (st : Task.TaskStatus) : list Op :=
  [op_transitionTask key Task.READY no_metadata; op_transitionTask key st no_metadata].

(** A failed task split into two that succeed. *)
Definition split_run : list Op :=
  ([op_createMission mission_input; op_createTask (covering "A" ["x"; "y"]) None; op_createTask (covering "B" ["x"]) None;
    op_createTask (covering "C" ["y"]) None] ++ settling_task "A" Task.FAILED ++ [op_supersedeTask (superseding "s1" "A" ["B"; "C"] ["x"; "y"])] ++
   settling_task "C" Task.SUCCEEDED)%list.

Lemma supersession_witness : exists l,
  l ∈ supersessionLeaves (run (split_run ++ settling_task "B" Task.SUCCEEDED) empty_store) "A" /\ t_status l = Task.SUCCEEDED /\ "x" ∈ t_acceptance_ids (t_spec l).
Proof.
  set (s := run _ _). assert (E : exists t, map_get "A" (tasks s) = Some t /\ t_acceptance_ids (t_spec t) = ["x"; "y"])
    by (eexists; split; vm_compute; reflexivity). destruct E as (t & Ht & Hids).
  apply (supersession_covers Date Fresh csha fsha valid (fun k => if bool_decide (k = "A") then 1%nat else 0%nat) s "A" t "x").
  - ran.
  - assert (E : map_values (taskSupersessions s) = [superseding "s1" "A" ["B"; "C"] ["x"; "y"]]) by (vm_compute; reflexivity). rewrite E.
    intros su key ->%list_elem_of_singleton Hk. cbn in Hk. rewrite !elem_of_cons in Hk. destruct Hk as [-> |[-> |Hk]]; [vm_compute; lia..|].
    destruct (not_elem_of_nil _ Hk).
  - exact Ht.
  - vm_compute. reflexivity.
  - rewrite Hids. left.
Defined.

(** Supersessions can lead back: nothing keeps the replacement of a replacement from being the task that failed
    first. The walk drops the branch it has seen, and a task counts as satisfied with a failed replacement and an
    acceptance id that no leaf carries. *)
Theorem supersession_cycle_masks :
  let s := run (split_run ++ settling_task "B" Task.FAILED ++ [op_supersedeTask (superseding "s2" "B" ["A"] ["x"])]) empty_store in
  isTaskSatisfiedBySupersession s "A" = true /\ (t_status <$> map_get "B" (tasks s)) = Some Task.FAILED /\
  ("x" ∈ match map_get "A" (tasks s) with Some t => t_acceptance_ids (t_spec t) | None => [] end) /\
  map (fun l => t_acceptance_ids (t_spec l)) (supersessionLeaves s "A") = [["y"]].
Proof. cbv zeta. split_and!; [vm_compute; reflexivity..| |vm_compute; reflexivity]. vm_compute. left. Qed.

(** Two callers with the same fence: the second is answered with the stop of the first. Then a plain stop follows. *)
Definition settle_log : list OrchestrationEvent := log (run begun empty_store).
Definition settle_fence : MissionRevisionFence := mkFence 3 Mission.NEW 0 None.
Definition settle_input (reason : string) : StopInput := mkStopInput reason [] [] "later" None.

Definition settle_stop : MissionStop := mkStop "m" "one" [] [] "later" "t" 1 0 None None None (Some settle_fence).
Definition plain_stop : MissionStop := mkStop "m" "three" [] [] "later" "t" 2 0 None None None None.

Lemma settle_witness : exists w st, rtc (settling valid "m") (settle_log, []) w /\ ("m", settle_fence, st) ∈ w.2 /\ length w.1 = 5%nat /\ length w.2 = 2%nat /\
  settled_stop "m" 0 (open_ w.1) = Some st /\ currentStopForGeneration "m" 0 (open_ w.1) = Some plain_stop.
Proof.
  set (st := settle_stop). set (e := mkEvent "e1" "m" "t" (mission_stopped settle_stop)). set (e3 := mkEvent "e3" "m" "t" (mission_stopped plain_stop)).
  assert (H1 : stop_prepare valid "m" (settle_input "one") settle_fence "t" "e1" settle_log = inr (st, e)) by (vm_compute; reflexivity).
  assert (H2 : (stop_commit "m" settle_fence st e settle_log empty_store).1.1 = (settle_log ++ [e])%list) by (vm_compute; reflexivity).
  assert (H3 : (stop_commit "m" settle_fence st e settle_log empty_store).2 = Some st) by (vm_compute; reflexivity).
  assert (H4 : stop_prepare valid "m" (settle_input "two") settle_fence "t" "e2" (settle_log ++ [e]) = inl (Some st)) by (vm_compute; reflexivity).
  assert (H5 : no_settlement "m" e3) by (intros x [= <-] _; reflexivity).
  set (w := (((settle_log ++ [e]) ++ [e3])%list, [("m", settle_fence, st); ("m", settle_fence, st)])).
  assert (Hr : rtc (settling valid "m") (settle_log, []) w).
  { eapply rtc_l; [exact (settling_commit valid "m" _ _ _ _ _ _ _ settle_log [] empty_store H1)|]. rewrite H2, H3.
    eapply rtc_l; [exact (settling_early valid "m" _ _ _ _ _ [("m", settle_fence, st)] _ H4)|].
    apply rtc_once. exact (settling_append valid "m" e3 (settle_log ++ [e]) [("m", settle_fence, st); ("m", settle_fence, st)] H5). }
  exists w, st. split; [exact Hr|]. split; [left|]. split; [vm_compute; reflexivity|]. split; [vm_compute; reflexivity|]. split; [|vm_compute; reflexivity].
  apply (stop_settles_once valid "m" settle_log w settle_fence st settle_fence st Hr); [left|right; left|reflexivity].
Defined.

Lemma resumption_witness : exists r es s, resume_commit "m" settle_fence None true r (mkEvent "e1" "m" "t" (mission_resumed r None)) settle_log (run begun empty_store) =
  (es, s, Some r) /\ currentGeneration "m" (open_ es) = 1.
Proof.
  assert (E : exists r, resume_prepare "m" "auto" settle_fence None true "t" "e1" settle_log (run begun empty_store) =
    Some (r, mkEvent "e1" "m" "t" (mission_resumed r None)) /\ re_generation r = 1) by (eexists; split; vm_compute; reflexivity).
  destruct E as (r & Hp & Hg).
  assert (C : exists es s, resume_commit "m" settle_fence None true r (mkEvent "e1" "m" "t" (mission_resumed r None)) settle_log (run begun empty_store) = (es, s, Some r)).
  { unfold resume_commit. assert (G : resume_eligible "m" settle_fence None true (run begun empty_store) && resume_eligible "m" settle_fence None true (open_ settle_log) = true)
      by (vm_compute; reflexivity). rewrite G. eauto. }
  destruct C as (es & s & C). exists r, es, s. split; [done|]. rewrite <- Hg.
  by apply (automatic_resumption_once _ _ _ _ _ _ _ _ _ _ _ _ _ _ _ _ Hp C).
Defined.

Lemma fail_witness : (m_status <$> map_get "m" (missions (run [op_transitionMission "m" Mission.CANCELED None] (run begun empty_store)))) = Some Mission.CANCELED /\
  (m_status <$> map_get "m" (missions (failMission Date Fresh "m" "gate" (run [op_transitionMission "m" Mission.CANCELED None] (run begun empty_store))).1)) = Some Mission.FAILED.
Proof.
  split; [vm_compute; reflexivity|]. set (s := run _ _). assert (E : exists m, map_get "m" (missions s) = Some m) by (eexists; vm_compute; reflexivity).
  destruct E as [m Hm]. apply (fail_leaves_terminal Date Fresh "m" "gate" m s Hm).
Defined.
End Sample.
