(* ===== verification/SessionStore.v ===== *)
(** * Per-session event streams (src/runtime/isolation/SessionEventStore.ts, jsonlFiles.ts)

    Every session appends to a stream of its own, [events/<session>.jsonl]; readers
    see the streams of the namespace merged by timestamp and told apart by event id.
    A stream is text: a record is visible once its line is complete, a torn tail is
    left to its writer. [Merge]: the k-way merge and what it does to ordered
    streams. [Streams]: the store of one session in a namespace others write to.

    Events are any type with an id, a timestamp and a line format (class
    [SessionCodec]); the fields of the envelope other than the sequence number are
    part of the format. Left out: the notices the store emits. *)

From stdpp Require Import sorting.
From S2P Require Import Prelude JsMap EventStore.

Open Scope string_scope.
Open Scope Z_scope.

Class SessionCodec (E : Type) := {
  event_key : E -> string;
  timestamp : E -> string;
  (** [JSON.stringify] of the event in its envelope, with its sequence number *)
  envelope_text : E -> nat -> text;
  (** [toStoredEvent(JSON.parse(line))] and the sequence number of the line *)
  parse_envelope : text -> option (E * option nat);
  parse_envelope_text e n : parse_envelope (envelope_text e n) = Some (e, Some n);
  envelope_one_line e n : nl ∉ envelope_text e n;
  envelope_not_blank e n : blank (envelope_text e n) = false
}.

(** ** Reading a stream: jsonlFiles.ts *)

(** The text up to its last newline. *)
Definition complete_part (t : text) : text := take (length t - length (tail_piece t)) t.

Lemma complete_part_nl a r : nl ∉ r -> complete_part (a ++ nl :: r) = (a ++ [nl])%list.
Proof.
  intros Hr. unfold complete_part. rewrite tail_piece_app by done. rewrite length_app. cbn [length].
  replace (length a + S (length r) - length r)%nat with (length (a ++ [nl])) by (rewrite length_app; cbn; lia).
  replace (a ++ nl :: r)%list with ((a ++ [nl]) ++ r)%list by by rewrite <- app_assoc. apply take_app_length.
Qed.
Lemma complete_part_one r : nl ∉ r -> complete_part r = [].
Proof. intros Hr. unfold complete_part. rewrite tail_piece_one by done. by rewrite Nat.sub_diag. Qed.

Lemma complete_part_prefix t : exists r, t = (complete_part t ++ r)%list /\ nl ∉ r.
Proof.
  destruct (last_nl t) as [H|(q & r & -> & Hr)].
  - exists t. by rewrite complete_part_one.
  - exists r. rewrite complete_part_nl by done. by rewrite <- app_assoc.
Qed.

Lemma complete_part_closed t : open_end (complete_part t) = false.
Proof.
  destruct (last_nl t) as [H|(q & r & -> & Hr)]; [by rewrite complete_part_one|]. rewrite complete_part_nl by done. apply open_end_nl.
Qed.

(** Complete text in front does not change where the rest is complete. *)
Lemma complete_part_app a b : open_end a = false -> complete_part (a ++ b) = (a ++ complete_part b)%list.
Proof.
  intros [->|[q ->]]%open_end_false; [done|]. destruct (last_nl b) as [H|(p & r & -> & Hr)].
  - rewrite (complete_part_one b) by done. rewrite <- app_assoc. cbn. rewrite complete_part_nl by done. by rewrite app_nil_r.
  - rewrite (complete_part_nl p) by done. rewrite app_assoc, complete_part_nl by done. by rewrite <- !app_assoc.
Qed.

(** What a reader makes of the lines of a text, line by line, when an empty line says nothing. *)
Lemma lines_app {X} (f : text -> option X) a b : f [] = None -> open_end a = false ->
  omap f (split_nl (a ++ b)) = (omap f (split_nl a) ++ omap f (split_nl b))%list.
Proof.
  intros Hf [->|[q ->]]%open_end_false; [cbn; by rewrite Hf|]. rewrite <- app_assoc. cbn. rewrite !split_app_nl, !omap_app. cbn. by rewrite Hf, app_nil_r.
Qed.

Section Read.
Context {E : Type} `{SessionCodec E}.

Record JsonlReadResult := mkRead {
  rr_events : list E; rr_consumedBytes : nat; rr_tornTailBytes : nat; rr_corruptLines : nat; rr_lastSequence : nat }.

(** One line of the chunk: blank lines are skipped, others parse or count as corrupt. *)
Definition read_line (acc : list E * nat * nat) (line : text) : list E * nat * nat :=
  let '(es, corrupt, seq) := acc in
  if blank line then acc
  else match parse_envelope line with
       | Some (e, n) => ((es ++ [e])%list, corrupt, nullish n seq)
       | None => (es, S corrupt, seq)
       end.

Definition readJsonlFrom (file : option text) (fromOffset : nat) : JsonlReadResult :=
  match file with
  | None => mkRead [] fromOffset 0 0 0
  | Some t =>
      if Nat.leb (length t) fromOffset then mkRead [] (Nat.min fromOffset (length t)) 0 0 0
      else let chunk := drop fromOffset t in
           let complete := complete_part chunk in
           let '(es, corrupt, seq) := if Nat.ltb 0 (length complete) then foldl read_line ([], 0%nat, 0%nat) (split_nl complete) else ([], 0%nat, 0%nat) in
           mkRead es (fromOffset + length complete) (length chunk - length complete) corrupt seq
  end.

(** [repairTornTail]: the file without its torn tail, and the bytes put aside. *)
Definition repairTornTail (file : option text) : option text * option text :=
  match file with
  | Some t => if open_end t then (Some (complete_part t), Some (tail_piece t)) else (file, None)
  | None => (None, None)
  end.

(** The events a text shows to a reader that starts at its beginning. *)
Definition line_event (line : text) : option E := if blank line then None else option_map fst (parse_envelope line).
Definition shown (t : text) : list E := omap line_event (split_nl (complete_part t)).

Lemma read_lines ls es c n : exists c' n', foldl read_line (es, c, n) ls = ((es ++ omap line_event ls)%list, c', n').
Proof.
  revert es c n. induction ls as [|l ls IH]; intros es c n; cbn; [rewrite app_nil_r; eauto|]. unfold line_event at 1.
  destruct (blank l); [apply IH|]. destruct (parse_envelope l) as [[e k]|]; cbn; [|apply IH].
  destruct (IH (es ++ [e])%list c (nullish k n)) as (c' & n' & E'). rewrite E'. rewrite <- app_assoc. eauto.
Qed.

Lemma split_complete_app a b : open_end a = false -> omap line_event (split_nl (a ++ b)) = (omap line_event (split_nl a) ++ omap line_event (split_nl b))%list.
Proof. by apply lines_app. Qed.

(** What a read gives: the complete lines after the offset. *)
Lemma read_spec t off : (off <= length t)%nat ->
  rr_events (readJsonlFrom (Some t) off) = shown (drop off t) /\
  rr_consumedBytes (readJsonlFrom (Some t) off) = (off + length (complete_part (drop off t)))%nat.
Proof.
  intros Hoff. unfold readJsonlFrom. destruct (Nat.leb_spec (length t) off) as [Hle|Hlt].
  - rewrite drop_ge by done. cbn. split; [done|]. cbn. lia.
  - unfold shown. destruct (Nat.ltb_spec 0 (length (complete_part (drop off t)))) as [Hp|Hz].
    + destruct (read_lines (split_nl (complete_part (drop off t))) [] 0 0) as (c & n & E'). rewrite E'. done.
    + assert (complete_part (drop off t) = []) as -> by (apply length_zero_iff_nil; lia). done.
Qed.

(** Reading in pieces shows what reading at once shows. *)
Lemma shown_app a b : shown (a ++ b) = (shown a ++ shown (drop (length (complete_part a)) (a ++ b)))%list.
Proof.
  destruct (complete_part_prefix a) as (r & Ea & Hr). set (c := complete_part a) in *.
  assert (Hc : open_end c = false) by apply complete_part_closed.
  rewrite Ea at 1. rewrite <- app_assoc. unfold shown at 1. rewrite complete_part_app, split_complete_app by done.
  unfold shown at 1. fold c. f_equal. rewrite Ea, <- app_assoc. by rewrite drop_app_length.
Qed.

Lemma complete_part_whole t : open_end t = false -> complete_part t = t.
Proof. intros [->|[q ->]]%open_end_false; [done|]. apply complete_part_nl. set_solver. Qed.
Lemma shown_complete t : shown (complete_part t) = shown t.
Proof. unfold shown. by rewrite (complete_part_whole (complete_part t)) by apply complete_part_closed. Qed.
Lemma shown_closed_app a b : open_end a = false -> shown (a ++ b) = (shown a ++ shown b)%list.
Proof. intros Ha. rewrite shown_app, complete_part_whole, drop_app_length by done. done. Qed.
Lemma open_end_closed_app a b : open_end a = false -> open_end b = false -> open_end (a ++ b) = false.
Proof.
  intros Ha [->|[q ->]]%open_end_false; [by rewrite app_nil_r|]. rewrite app_assoc. apply open_end_nl.
Qed.

(** A record written to a closed stream is shown at its end. *)
Lemma shown_line t e n : open_end t = false -> shown (t ++ envelope_text e n ++ [nl]) = (shown t ++ [e])%list.
Proof.
  intros Ht. unfold shown. rewrite complete_part_app by done. rewrite split_complete_app by done.
  assert (E1 : complete_part (envelope_text e n ++ [nl]) = (envelope_text e n ++ [nl])%list) by (apply complete_part_nl; set_solver).
  assert (E2 : complete_part t = t) by by apply complete_part_whole.
  rewrite E1, E2. f_equal. rewrite split_app_nl, split_one by apply envelope_one_line. cbn. unfold line_event at 1.
  rewrite envelope_not_blank, parse_envelope_text. done.
Qed.
End Read.

(** ** Merging *)

Module Merge.
Section Merge.
Context {E : Type} (time : E -> string).
Notation before := (fun a b : E => String.ltb (time a) (time b)).

(** The inner loop: the index of the stream to take from. [best]: the stream picked so far and its head's time. *)
Fixpoint pick (i : nat) (best : option (nat * string)) (streams : list (list E)) : option nat :=
  match streams with
  | [] => option_map fst best
  | [] :: rest => pick (S i) best rest
  | (e :: _) :: rest =>
      pick (S i) (match best with
                  | None => Some (i, time e)
                  | Some (_, t) => if String.ltb (time e) t then Some (i, time e) else best
                  end) rest
  end.

Fixpoint merge_loop (n : nat) (streams : list (list E)) : list E :=
  match n with
  | O => []
  | S n' =>
      match pick 0 None streams with
      | None => []
      | Some i => match streams !! i with
                  | Some (e :: rest) => e :: merge_loop n' (<[i := rest]> streams)
                  | _ => []
                  end
      end
  end.
Definition mergeStreams (streams : list (list E)) : list E := merge_loop (S (length (concat streams))) streams.

(** The reference: the first of the earliest heads, with what remains. *)
Fixpoint take_min (streams : list (list E)) : option (E * list (list E)) :=
  match streams with
  | [] => None
  | [] :: rest => (fun r => (r.1, [] :: r.2)) <$> take_min rest
  | (e :: s) :: rest =>
      match take_min rest with
      | Some (e', rest') => if before e' e then Some (e', (e :: s) :: rest') else Some (e, s :: rest)
      | None => Some (e, s :: rest)
      end
  end.

(** The loop answers as the reference on the rest, unless [best] wins. *)
Lemma pick_spec streams i best :
  match take_min streams with
  | None => pick i best streams = option_map fst best
  | Some (e, rest) =>
      if match best with Some (_, t) => String.ltb (time e) t | None => true end
      then exists j s, pick i best streams = Some (i + j)%nat /\ streams !! j = Some (e :: s) /\ rest = <[j := s]> streams
      else pick i best streams = option_map fst best
  end.
Proof.
  revert i best. induction streams as [|[|e s] rest IH]; intros i best; [done| |].
  - cbn [take_min pick]. specialize (IH (S i) best). destruct (take_min rest) as [[e r]|]; cbn; [|done].
    destruct (match best with Some _ => _ | None => _ end); [|done]. destruct IH as (j & s & H1 & H2 & ->). exists (S j), s.
    rewrite H1. split_and!; [f_equal; lia|done|done].
  - cbn [take_min pick]. set (best' := match best with Some _ => _ | None => _ end). specialize (IH (S i) best').
    assert (Hhere : pick (S i) best' rest = Some i -> exists j s0, pick (S i) best' rest = Some (i + j)%nat /\ ((e :: s) :: rest) !! j = Some (e :: s0) /\
      s :: rest = <[j := s0]> ((e :: s) :: rest)) by (intros ->; exists 0%nat, s; by rewrite Nat.add_0_r).
    assert (Hlater : forall e' r, (exists j s0, pick (S i) best' rest = Some (S i + j)%nat /\ rest !! j = Some (e' :: s0) /\ r = <[j := s0]> rest) ->
      exists j s0, pick (S i) best' rest = Some (i + j)%nat /\ ((e :: s) :: rest) !! j = Some (e' :: s0) /\ (e :: s) :: r = <[j := s0]> ((e :: s) :: rest)).
    { intros e' r (j & s0 & -> & Hj & ->). exists (S j), s0. split_and!; [f_equal; lia|done|done]. }
    destruct (take_min rest) as [[e' r]|].
    + destruct (String.ltb (time e') (time e)) eqn:L1.
      * destruct best as [[k t]|]; cbn in best'; unfold best' in *.
        -- destruct (String.ltb (time e) t) eqn:L2; [rewrite (string_ltb_trans _ _ _ L1 L2); rewrite L1 in IH; by apply Hlater|].
           destruct (String.ltb (time e') t); [by apply Hlater|done].
        -- rewrite L1 in IH. by apply Hlater.
      * destruct best as [[k t]|]; cbn in best'; unfold best' in *.
        -- destruct (String.ltb (time e) t) eqn:L2; [rewrite L1 in IH; by apply Hhere|].
           by rewrite (string_nltb_trans _ _ _ L1 L2) in IH.
        -- rewrite L1 in IH. by apply Hhere.
    + destruct best as [[k t]|]; cbn in best'; unfold best' in *; [destruct (String.ltb (time e) t); [by apply Hhere|done]|by apply Hhere].
Qed.

Lemma take_min_perm streams e rest : take_min streams = Some (e, rest) -> concat streams ≡ₚ e :: concat rest.
Proof.
  revert e rest. induction streams as [|[|x s] l IH]; intros e rest; cbn; [done| |].
  - intros ([e' r] & Hm & [= -> ->])%fmap_Some. cbn. by apply IH.
  - destruct (take_min l) as [[e' r]|]; [destruct (String.ltb _ _)|]; intros [= <- <-]; cbn; [|done..].
    rewrite (IH e' r) by done. rewrite <- (Permutation_middle s). apply perm_swap.
Qed.

Lemma take_min_none streams : take_min streams = None -> concat streams = [].
Proof.
  induction streams as [|[|x s] l IH]; cbn; [done| |].
  - intros H%fmap_None. auto.
  - destruct (take_min l) as [[e' r]|]; [by destruct (String.ltb _ _)|done].
Qed.

(** The merge, step by step. *)
Fixpoint merge_ref (n : nat) (streams : list (list E)) : list E :=
  match n with O => [] | S n' => match take_min streams with Some (e, rest) => e :: merge_ref n' rest | None => [] end end.

Lemma merge_loop_ref n streams : merge_loop n streams = merge_ref n streams.
Proof.
  revert streams. induction n as [|n IH]; intros streams; [done|]. cbn. pose proof (pick_spec streams 0 None) as H.
  destruct (take_min streams) as [[e rest]|].
  - destruct H as (j & s & -> & Hj & ->). cbn. rewrite Hj. by rewrite IH.
  - by rewrite H.
Qed.

Lemma merge_ref_fuel n m streams : (length (concat streams) < n)%nat -> (length (concat streams) < m)%nat -> merge_ref n streams = merge_ref m streams.
Proof.
  revert m streams. induction n as [|n IH]; intros [|m] streams Hn Hm; try lia. cbn. destruct (take_min streams) as [[e rest]|] eqn:Et; [|done].
  apply take_min_perm, Permutation_length in Et. cbn in Et. f_equal. apply IH; lia.
Qed.

Lemma merge_unfold streams : mergeStreams streams = match take_min streams with Some (e, rest) => e :: mergeStreams rest | None => [] end.
Proof.
  unfold mergeStreams. rewrite merge_loop_ref. cbn [merge_ref]. destruct (take_min streams) as [[e rest]|] eqn:Et; [|done].
  apply take_min_perm, Permutation_length in Et. cbn in Et. f_equal. rewrite merge_loop_ref. apply merge_ref_fuel; lia.
Qed.

(** Induction on what the merge takes. *)
Lemma merge_ind (P : list (list E) -> list E -> Prop) :
  (forall ss, take_min ss = None -> P ss []) ->
  (forall ss e rest, take_min ss = Some (e, rest) -> P rest (mergeStreams rest) -> P ss (e :: mergeStreams rest)) ->
  forall ss, P ss (mergeStreams ss).
Proof.
  intros H0 H1 ss. remember (length (concat ss)) as n eqn:Hn. revert ss Hn. induction n as [n IH] using lt_wf_ind. intros ss ->.
  rewrite merge_unfold. destruct (take_min ss) as [[e rest]|] eqn:Et; [|auto]. apply H1; [done|]. eapply IH; [|done].
  apply take_min_perm, Permutation_length in Et. cbn in Et. lia.
Qed.

Lemma merge_perm ss : mergeStreams ss ≡ₚ concat ss.
Proof.
  apply (merge_ind (fun ss m => m ≡ₚ concat ss)).
  - intros l ->%take_min_none. done.
  - intros l e rest Et IH. rewrite (take_min_perm _ _ _ Et). by rewrite IH.
Qed.

(** Empty streams make no difference. *)
Definition nonempty (ss : list (list E)) : list (list E) := filter (fun s => s <> []) ss.

Lemma nonempty_nil ss : nonempty ([] :: ss) = nonempty ss.
Proof. unfold nonempty. rewrite filter_cons_False; [done|]. intros H. by apply H. Qed.
Lemma nonempty_cons x s ss : nonempty ((x :: s) :: ss) = (x :: s) :: nonempty ss.
Proof. unfold nonempty. by rewrite filter_cons_True. Qed.
Lemma nonempty_twice ss : nonempty (nonempty ss) = nonempty ss.
Proof. unfold nonempty. rewrite list_filter_filter. apply list_filter_iff. naive_solver. Qed.

Lemma take_min_nonempty ss :
  match take_min ss with
  | Some (e, rest) => exists rest', take_min (nonempty ss) = Some (e, rest') /\ nonempty rest' = nonempty rest
  | None => take_min (nonempty ss) = None
  end.
Proof.
  induction ss as [|[|x s] l IH]; [done| |].
  - rewrite nonempty_nil. cbn [take_min]. destruct (take_min l) as [[e r]|]; cbn [fmap option_fmap option_map fst snd]; [|done].
    destruct IH as (r' & H1 & H2). exists r'. by rewrite nonempty_nil.
  - rewrite nonempty_cons. cbn [take_min].
    assert (Hh : exists rest', Some (x, s :: nonempty l) = Some (x, rest') /\ nonempty rest' = nonempty (s :: l)).
    { exists (s :: nonempty l). split; [done|]. destruct s; rewrite ?nonempty_nil, ?nonempty_cons; by rewrite nonempty_twice. }
    destruct (take_min l) as [[e r]|].
    + destruct IH as (r' & -> & H2). destruct (String.ltb (time e) (time x)); [|exact Hh]. exists ((x :: s) :: r'). split; [done|].
      by rewrite !nonempty_cons, H2.
    + rewrite IH. exact Hh.
Qed.

Lemma merge_nonempty ss ss' : nonempty ss = nonempty ss' -> mergeStreams ss = mergeStreams ss'.
Proof.
  revert ss'. apply (merge_ind (fun ss m => forall ss', nonempty ss = nonempty ss' -> m = mergeStreams ss')).
  - intros l Et ss' H. pose proof (take_min_nonempty l) as H1. pose proof (take_min_nonempty ss') as H2. rewrite Et in H1.
    rewrite merge_unfold. destruct (take_min ss') as [[e r]|]; [|done]. destruct H2 as (r' & H2 & _). rewrite <- H in H2. congruence.
  - intros l e rest Et IH ss' H. pose proof (take_min_nonempty l) as H1. pose proof (take_min_nonempty ss') as H2. rewrite Et in H1.
    destruct H1 as (r1 & H1 & E1). rewrite (merge_unfold ss'). destruct (take_min ss') as [[e' r]|].
    + destruct H2 as (r2 & H2 & E2). rewrite <- H, H1 in H2. injection H2 as -> ->. f_equal. apply IH. congruence.
    + rewrite <- H in H2. congruence.
Qed.

Lemma take_min_at ss e rest : take_min ss = Some (e, rest) -> exists j s, ss !! j = Some (e :: s) /\ rest = <[j := s]> ss.
Proof. intros Et. pose proof (pick_spec ss 0 None) as H. rewrite Et in H. destruct H as (j & s & _ & H). eauto. Qed.

(** The order of a stream is kept. *)
Lemma merge_sublist ss i s : ss !! i = Some s -> s `sublist_of` mergeStreams ss.
Proof.
  revert i s. apply (merge_ind (fun ss m => forall i s, ss !! i = Some s -> s `sublist_of` m)).
  - intros l H i s Hs. apply take_min_none in H. assert (s = []) as ->; [|done]. apply list_elem_of_lookup_2 in Hs.
    destruct s as [|x s]; [done|]. assert (x ∈ concat l); [|rewrite H in *; set_solver].
    apply list_elem_of_In, in_concat. exists (x :: s). split; [by apply list_elem_of_In|left; done].
  - intros l e rest (j & s' & Hj & ->)%take_min_at IH i s Hs. destruct (decide (i = j)) as [->|Hne].
    + simplify_eq. apply sublist_skip, (IH j). apply list_lookup_insert_eq. by eapply lookup_lt_Some.
    + apply sublist_cons, (IH i). by rewrite list_lookup_insert_ne.
Qed.

(** *** Streams in order *)

Definition ordered : list E -> Prop := StronglySorted (fun a b => String.ltb (time b) (time a) = false).

Lemma take_min_least ss e rest : Forall ordered ss -> take_min ss = Some (e, rest) -> forall x, x ∈ concat ss -> String.ltb (time x) (time e) = false.
Proof.
  revert e rest. induction ss as [|[|y s] l IH]; intros e rest Hs; cbn; [done| |].
  - intros ([e' r] & Hm & [= -> ->])%fmap_Some. apply (IH e' r); [by inversion Hs|done].
  - inversion Hs as [|? ? Hy Hl]; subst. assert (Hhead : forall x, x ∈ y :: s -> String.ltb (time x) (time y) = false).
    { inversion Hy as [|? ? _ Hall]; subst. intros x [-> |Hx]%elem_of_cons; [apply string_ltb_irrefl|]. rewrite Forall_forall in Hall. auto. }
    destruct (take_min l) as [[e' r]|] eqn:Em.
    + specialize (IH e' r Hl eq_refl). destruct (String.ltb (time e') (time y)) eqn:L; intros [= <- <-] x; rewrite elem_of_cons, elem_of_app; intros Hx.
      * assert (x ∈ y :: s \/ x ∈ concat l) as [Hxs|?] by (rewrite elem_of_cons; tauto); [|auto].
        specialize (Hhead x Hxs). destruct (String.ltb (time x) (time e')) eqn:L2; [|done]. rewrite <- Hhead. symmetry. by eapply string_ltb_trans.
      * destruct Hx as [Hx|[Hx|Hx]]; [apply Hhead; set_solver..|]. eapply string_nltb_trans; [|exact L]. auto.
    + apply take_min_none in Em. rewrite Em, app_nil_r. intros [= <- <-] x Hx. by apply Hhead.
Qed.

Lemma take_min_ordered ss e rest : Forall ordered ss -> take_min ss = Some (e, rest) -> Forall ordered rest.
Proof.
  intros Hs (j & s & Hj & ->)%take_min_at. apply Forall_insert; [done|]. pose proof (Forall_lookup_1 _ _ _ _ Hs Hj) as H. by inversion H.
Qed.

(** The merge of streams in order is in order. *)
Lemma merge_ordered ss : Forall ordered ss -> ordered (mergeStreams ss).
Proof.
  apply (merge_ind (fun ss m => Forall ordered ss -> ordered m)); [constructor|]. intros l e rest Et IH Hs. constructor.
  - apply IH. by eapply take_min_ordered.
  - apply Forall_forall. intros x Hx. rewrite (merge_perm rest) in Hx. apply (take_min_least _ _ _ Hs Et). rewrite (take_min_perm _ _ _ Et). by right.
Qed.
End Merge.

(** Changing and dropping events commutes with the merge of streams in order, if times stay. *)
Section Change.
Context {E F : Type} (time : E -> string) (time' : F -> string) (f : E -> option F).
Context (f_time : forall e e', f e = Some e' -> time' e' = time e).

Lemma concat_omap l w' : w' ∈ concat (map (omap f) l) -> exists w, w ∈ concat l /\ f w = Some w'.
Proof.
  rewrite concat_map_elem. intros (q & Hq & (w & Hw & Hf)%list_elem_of_omap). exists w. split; [|done].
  apply list_elem_of_In, in_concat. exists q. split; by apply list_elem_of_In.
Qed.

Lemma take_min_omap ss e rest : Forall (ordered time) ss -> take_min time ss = Some (e, rest) ->
  match f e with
  | Some e' => take_min time' (map (omap f) ss) = Some (e', map (omap f) rest)
  | None => map (omap f) ss = map (omap f) rest
  end.
Proof.
  revert e rest. induction ss as [|[|y s] l IH]; intros e rest Hs; cbn [take_min map]; [done| |].
  - intros ([e' r] & Hm & [= -> ->])%fmap_Some. inversion Hs; subst. specialize (IH e' r). destruct (f e').
    + cbn. by rewrite IH.
    + cbn. by rewrite IH.
  - inversion Hs as [|? ? Hy Hl]; subst.
    destruct (take_min time l) as [[e' r]|] eqn:Em.
    + destruct (String.ltb (time e') (time y)) eqn:L; intros [= <- <-].
      * specialize (IH e' r Hl eq_refl). destruct (f e') as [g|] eqn:Ef; [|cbn [map]; by rewrite IH].
        destruct (omap f (y :: s)) as [|z zs] eqn:Ez; cbn [take_min map]; rewrite IH, Ez; [done|]. cbn.
        assert (exists w, w ∈ y :: s /\ f w = Some z) as (w & Hw & Hz) by (apply list_elem_of_omap; rewrite Ez; left).
        rewrite (f_time _ _ Ef), (f_time _ _ Hz).
        assert (String.ltb (time w) (time y) = false).
        { apply elem_of_cons in Hw as [->|Hw]; [apply string_ltb_irrefl|]. inversion Hy as [|? ? _ Hall]; subst. rewrite Forall_forall in Hall. auto. }
        destruct (String.ltb (time e') (time w)) eqn:L2; [done|]. pose proof (string_nltb_trans _ _ _ L2 H). congruence.
      * destruct (f y) as [g|] eqn:Ef; cbn [omap list_omap map]; [|by rewrite Ef]. rewrite Ef. cbn [take_min].
        destruct (take_min time' (map (omap f) l)) as [[w' r']|] eqn:Ew; [|done].
        assert (exists w, w ∈ concat l /\ f w = Some w') as (w & Hw & Hfw).
        { apply concat_omap. rewrite (take_min_perm _ _ _ _ Ew). left. }
        pose proof (take_min_least _ _ _ _ Hl Em w Hw) as L2. rewrite (f_time _ _ Ef), (f_time _ _ Hfw).
        by rewrite (string_nltb_trans _ _ _ L2 L).
    + intros [= <- <-]. apply take_min_none in Em. destruct (f y) as [g|] eqn:Ef; cbn [omap list_omap map]; [|by rewrite Ef]. rewrite Ef. cbn [take_min].
      destruct (take_min time' (map (omap f) l)) as [[w' r']|] eqn:Ew; [|done]. exfalso.
      assert (exists w, w ∈ concat l /\ f w = Some w') as (w & Hw & _) by (apply concat_omap; rewrite (take_min_perm _ _ _ _ Ew); left).
      rewrite Em in Hw. by apply not_elem_of_nil in Hw.
Qed.

Lemma merge_omap ss : Forall (ordered time) ss -> mergeStreams time' (map (omap f) ss) = omap f (mergeStreams time ss).
Proof.
  apply (merge_ind time (fun ss m => Forall (ordered time) ss -> mergeStreams time' (map (omap f) ss) = omap f m)).
  - intros l Et Hs. apply take_min_none in Et. assert (Hc : concat (map (omap f) l) = []).
    { clear Hs. induction l as [|s l IH]; [done|]. cbn in *. apply app_nil in Et as [-> Et]. cbn. auto. }
    pose proof (merge_perm time' (map (omap f) l)) as H. rewrite Hc in H. by apply Permutation_nil_r in H.
  - intros l e rest Et IH Hs. pose proof (take_min_omap l e rest Hs Et) as H. specialize (IH (take_min_ordered _ _ _ _ Hs Et)). cbn [omap list_omap].
    destruct (f e) as [e'|].
    + rewrite (merge_unfold time'), H. f_equal. exact IH.
    + rewrite H. exact IH.
Qed.
End Change.
End Merge.
Export Merge.

(** ** The store of a session *)

Module Streams.

(** A directory of streams, by file name. *)
Definition Dir : Type := @jsmap string text.

Definition streamOrder (a b : string) : Z :=
  let la := js_startsWith a "legacy-" in
  let lb := js_startsWith b "legacy-" in
  if negb (Bool.eqb la lb) then if la then -1 else 1
  else if String.ltb a b then -1 else if String.ltb b a then 1 else 0.
Definition stream_le (a b : string) : bool := streamOrder a b <=? 0.

(** [name.endsWith(".jsonl")] *)
Definition is_stream (name : string) : bool :=
  bool_decide (6 <= String.length name)%nat && bool_decide (String.substring (String.length name - 6) 6 name = ".jsonl").

Definition listStreamFiles (dir : Dir) : list string := js_sort stream_le (js_filter is_stream (map_keys dir)).

Lemma stream_le_iff a b : stream_le a b = true <->
  (js_startsWith a "legacy-" = true /\ js_startsWith b "legacy-" = false) \/
  (js_startsWith a "legacy-" = js_startsWith b "legacy-" /\ String.ltb b a = false).
Proof.
  unfold stream_le, streamOrder. generalize (js_startsWith a "legacy-") (js_startsWith b "legacy-"). intros la lb.
  destruct (String.ltb a b) eqn:E1, (String.ltb b a) eqn:E2.
  1: pose proof (string_ltb_trans _ _ _ E1 E2) as H; by rewrite string_ltb_irrefl in H.
  all: destruct la, lb; cbn; intuition congruence.
Qed.
Lemma stream_le_total a b : stream_le a b = true \/ stream_le b a = true.
Proof.
  rewrite !stream_le_iff. generalize (js_startsWith a "legacy-") (js_startsWith b "legacy-"). intros la lb.
  destruct (String.ltb a b) eqn:E1, (String.ltb b a) eqn:E2.
  1: pose proof (string_ltb_trans _ _ _ E1 E2) as H; by rewrite string_ltb_irrefl in H.
  all: destruct la, lb; intuition congruence.
Qed.
Lemma stream_le_trans a b c : stream_le a b = true -> stream_le b c = true -> stream_le a c = true.
Proof.
  rewrite !stream_le_iff. generalize (js_startsWith a "legacy-") (js_startsWith b "legacy-") (js_startsWith c "legacy-"). intros la lb lc.
  intros [[-> ->]|[-> H1]] [[? ->]|[? H2]]; subst; try discriminate; auto. right. split; [done|]. by eapply string_nltb_trans.
Qed.
Lemma stream_le_antisym a b : stream_le a b = true -> stream_le b a = true -> a = b.
Proof.
  rewrite !stream_le_iff. generalize (js_startsWith a "legacy-") (js_startsWith b "legacy-"). intros la lb.
  intros [[-> ->]|[-> H1]] [[? ?]|[? H2]]; try discriminate; [congruence|]. by apply string_ltb_total.
Qed.

Section Store.
Context {E : Type} `{SessionCodec E}.
#[local] Instance session_event_id : HasEventId E := event_key.

Record SessionEventStore := mkSession {
  events : list E;
  byId : @jsmap string E;
  streams : @jsmap string (list E);
  cursors : @jsmap string nat;
  sequence : nat;
  closed : bool;
  corruptLines : nat;
  tornTailsSkipped : nat
}.
Definition empty_session : SessionEventStore := mkSession [] [] [] [] 0 false 0 0.

Definition admit_event (s : SessionEventStore) (e : E) : SessionEventStore * bool :=
  if map_has (event_key e) (byId s) then (s, false)
  else (mkSession (events s ++ [e]) (map_set (event_key e) e (byId s)) (streams s) (cursors s) (sequence s) (closed s) (corruptLines s)
          (tornTailsSkipped s), true).

(** Admission of a list, and the events it admitted. *)
Fixpoint admit_all (s : SessionEventStore) (es : list E) : SessionEventStore * list E :=
  match es with
  | [] => (s, [])
  | e :: es' => let r := admit_event s e in
                let r' := admit_all r.1 es' in
                (r'.1, if r.2 then e :: r'.2 else r'.2)
  end.

Definition on_streams (f : @jsmap string (list E) -> @jsmap string (list E)) (s : SessionEventStore) : SessionEventStore :=
  mkSession (events s) (byId s) (f (streams s)) (cursors s) (sequence s) (closed s) (corruptLines s) (tornTailsSkipped s).
Definition on_cursors (f : @jsmap string nat -> @jsmap string nat) (s : SessionEventStore) : SessionEventStore :=
  mkSession (events s) (byId s) (streams s) (f (cursors s)) (sequence s) (closed s) (corruptLines s) (tornTailsSkipped s).
Definition on_events (f : list E -> list E) (s : SessionEventStore) : SessionEventStore :=
  mkSession (f (events s)) (byId s) (streams s) (cursors s) (sequence s) (closed s) (corruptLines s) (tornTailsSkipped s).
Definition on_sequence (f : nat -> nat) (s : SessionEventStore) : SessionEventStore :=
  mkSession (events s) (byId s) (streams s) (cursors s) (f (sequence s)) (closed s) (corruptLines s) (tornTailsSkipped s).
Definition counted (corrupt torn : nat) (s : SessionEventStore) : SessionEventStore :=
  mkSession (events s) (byId s) (streams s) (cursors s) (sequence s) (closed s) (corruptLines s + corrupt)
    (tornTailsSkipped s + (if Nat.ltb 0 torn then 1 else 0)).

Definition push_stream (file : string) (es : list E) (s : SessionEventStore) : SessionEventStore :=
  on_streams (map_set file (default [] (map_get file (streams s)) ++ es)%list) s.

Context (own : string).

(** One file at the opening of the store. *)
Definition load_file (dir : Dir) (s : SessionEventStore) (file : string) : SessionEventStore :=
  let r := readJsonlFrom (E := E) (map_get file dir) 0 in
  let s := on_cursors (map_set file (rr_consumedBytes r)) s in
  let s := counted (rr_corruptLines r) (rr_tornTailBytes r) s in
  let s := if bool_decide (file = own) then on_sequence (fun _ => Nat.max (rr_lastSequence r) (length (rr_events r))) s else s in
  on_streams (map_set file (rr_events r)) s.

Definition stream_events (dir : Dir) (file : string) : list E := rr_events (readJsonlFrom (map_get file dir) 0).

(** [repaired]: whether the repair of the session's own stream, which is best effort, succeeded. *)
Definition repair_own (repaired : bool) (dir : Dir) : Dir :=
  match map_get own dir, repaired with
  | Some t, true => match (repairTornTail (Some t)).1 with Some t' => map_set own t' dir | None => dir end
  | _, _ => dir
  end.
Definition load (repaired : bool) (dir : Dir) : Dir * SessionEventStore :=
  let dir := repair_own repaired dir in
  let files := listStreamFiles dir in
  let s := foldl (load_file dir) empty_session files in
  (dir, (admit_all s (mergeStreams timestamp (map (stream_events dir) files))).1).

Definition admitOwn (s : SessionEventStore) (e : E) : SessionEventStore := (admit_event (push_stream own [e] s) e).1.

Definition refresh_file (dir : Dir) (acc : SessionEventStore * list (list E)) (file : string) : SessionEventStore * list (list E) :=
  if bool_decide (file = own) then acc
  else let r := readJsonlFrom (map_get file dir) (default 0%nat (map_get file (cursors acc.1))) in
       let s := on_cursors (map_set file (rr_consumedBytes r)) acc.1 in
       match rr_events r with
       | [] => (s, acc.2)
       | es => (push_stream file es s, (acc.2 ++ [es])%list)
       end.

Definition reorder (s : SessionEventStore) : SessionEventStore :=
  let files := js_sort stream_le (map_keys (streams s)) in
  let merged := mergeStreams timestamp (map (fun f => default [] (map_get f (streams s))) files) in
  on_events (fun _ => map (fun e => nullish (map_get (event_key e) (byId s)) e) (first_ids [] merged)) s.

Definition refresh (dir : Dir) (s : SessionEventStore) : SessionEventStore * list E :=
  let r := foldl (refresh_file dir) (s, []) (listStreamFiles dir) in
  let a := admit_all r.1 (mergeStreams timestamp r.2) in
  match a.2 with [] => a | _ => (reorder a.1, a.2) end.

Definition readMergedEvents (dir : Dir) : list E := first_ids [] (mergeStreams timestamp (map (stream_events dir) (listStreamFiles dir))).

(** *** Appending *)

(** The answer of the file system to a write: all of it, or an error after the first bytes. *)
Inductive WriteAnswer := written | failed (bytes : nat).
Inductive SessionError := append_after_close | writer_superseded | write_failed.

Definition write_own (t : text) (a : WriteAnswer) (dir : Dir) : Dir :=
  map_set own (default [] (map_get own dir) ++ match a with written => t | failed n => take n t end)%list dir.

Definition envelope (e : E) (s : SessionEventStore) : SessionEventStore * text :=
  (on_sequence S s, (envelope_text e (S (sequence s)) ++ [nl])%list).

Definition append_event (e : E) (authority : bool) (a : WriteAnswer) (dir : Dir) (s : SessionEventStore) : Dir * SessionEventStore * res SessionError E :=
  if closed s then (dir, s, Err append_after_close)
  else let (s, line) := envelope e s in
       if negb authority then (dir, s, Err writer_superseded)
       else match a with
            | written => (write_own line a dir, admitOwn s e, Ok e)
            | failed _ => (write_own line a dir, s, Err write_failed)
            end.

Definition appendConditionally (e : E) (condition : SessionEventStore -> bool) (authority : bool) (a : WriteAnswer) (dir : Dir) (s : SessionEventStore) :
    Dir * SessionEventStore * res SessionError (option E) :=
  if closed s then (dir, s, Err append_after_close)
  else if negb (condition s) then (dir, s, Ok None)
  else if negb authority then (dir, s, Err writer_superseded)
  else let (s, line) := envelope e s in
       match a with
       | written => (write_own line a dir, admitOwn s e, Ok (Some e))
       | failed _ => (write_own line a dir, s, Err write_failed)
       end.

Fixpoint envelopes (es : list E) (s : SessionEventStore) : SessionEventStore * text :=
  match es with
  | [] => (s, [])
  | e :: es' => let (s, line) := envelope e s in let (s, body) := envelopes es' s in (s, (line ++ body)%list)
  end.

Definition appendAll (es : list E) (authority : bool) (a : WriteAnswer) (dir : Dir) (s : SessionEventStore) : Dir * SessionEventStore * res SessionError unit :=
  if closed s then (dir, s, Err append_after_close)
  else match es with
       | [] => (dir, s, Ok tt)
       | _ => let (s, body) := envelopes es s in
              if negb authority then (dir, s, Err writer_superseded)
              else match a with
                   | written => (write_own body a dir, foldl admitOwn s es, Ok tt)
                   | failed _ => (write_own body a dir, s, Err write_failed)
                   end
       end.

(** *** What a store knows of its namespace *)

(** The index holds the events, by their ids. *)
Record indexed_by_id (s : SessionEventStore) : Prop := mkIndexed {
  I_has : forall k, map_has k (byId s) = js_includes k (map event_key (events s));
  I_nodup : NoDup (map event_key (events s));
  I_get : forall k e, map_get k (byId s) = Some e -> event_key e = k
}.

Lemma admit_all_spec es s : indexed_by_id s ->
  let r := admit_all s es in
  indexed_by_id r.1 /\ r.2 = first_ids (map event_key (events s)) es /\ events r.1 = (events s ++ r.2)%list /\
  (forall e, map_get (event_key e) (byId s) = Some e -> map_get (event_key e) (byId r.1) = Some e) /\
  (forall k e, map_get k (byId r.1) = Some e -> map_get k (byId s) = Some e \/ e ∈ es) /\
  streams r.1 = streams s /\ cursors r.1 = cursors s /\ closed r.1 = closed s /\ sequence r.1 = sequence s.
Proof.
  revert s. induction es as [|e es IH]; intros s HI; cbn; [rewrite app_nil_r; split_and!; eauto|].
  unfold admit_event. rewrite (I_has _ HI). change (event_id e) with (event_key e). destruct (js_includes (event_key e) (map event_key (events s))) eqn:Ei; cbn.
  - destruct (IH s HI) as (H1 & H2 & H3 & H4 & H5 & H6 & H7 & H8 & H9). split_and!; try done. intros k x Hx. destruct (H5 k x Hx); [by left|right; by right].
  - match goal with |- context [admit_all ?u es] => set (s1 := u) end.
    assert (HI1 : indexed_by_id s1).
    { split; cbn.
      - intros k. unfold map_has. rewrite map_get_set. rewrite map_app. cbn. case_decide as Hk.
        + subst k. symmetry. apply js_includes_true. set_solver.
        + pose proof (I_has _ HI k) as Hh. unfold map_has in Hh. rewrite Hh. unfold js_includes. apply bool_decide_ext.
          rewrite elem_of_app, list_elem_of_singleton. naive_solver.
      - rewrite map_app. apply NoDup_app. split_and!; [apply HI| |apply NoDup_singleton]. cbn. apply js_includes_false in Ei. set_solver.
      - intros k x. rewrite map_get_set. case_decide; [by intros [= <-]|apply HI]. }
    destruct (IH s1 HI1) as (H1 & H2 & H3 & H4 & H5 & H6 & H7 & H8 & H9).
    assert (En : map_get (event_key e) (byId s) = None).
    { pose proof (I_has _ HI (event_key e)) as Hh. rewrite Ei in Hh. unfold map_has in Hh. by destruct (map_get (event_key e) (byId s)). }
    split_and!; try done.
    + rewrite H2. cbn. by rewrite map_app.
    + rewrite H3. cbn. by rewrite <- app_assoc.
    + intros x Hx. apply H4. cbn. rewrite map_get_set. case_decide as Hk; [congruence|done].
    + intros k x Hx. destruct (H5 k x Hx) as [Hs|Hs]; [|right; by right]. cbn in Hs. rewrite map_get_set in Hs. case_decide; [|by left].
      injection Hs as <-. right. left.
Qed.

Definition file_text (f : string) (dir : Dir) : text := default [] (map_get f dir).
Definition in_memory (f : string) (s : SessionEventStore) : list E := default [] (map_get f (streams s)).
Definition known (e : E) (s : SessionEventStore) : Prop := exists f, e ∈ in_memory f s.

(** What the store holds of each stream: all of its own, of another what it has read. *)
Record Read (dir : Dir) (s : SessionEventStore) : Prop := mkReadState {
  S_own : in_memory own s = shown (file_text own dir);
  S_closed : open_end (file_text own dir) = false;
  S_other : forall f, f <> own ->
    let off := default 0%nat (map_get f (cursors s)) in
    (off <= length (file_text f dir))%nat /\ open_end (take off (file_text f dir)) = false /\ in_memory f s = shown (take off (file_text f dir));
  S_keys : forall f, f ∈ map_keys (streams s) -> is_stream f = true /\ f ∈ map_keys dir;
  S_streams_ok : map_ok (streams s);
  S_dir_ok : map_ok dir
}.
(** And the merged events are those of the streams. *)
Record Synced (dir : Dir) (s : SessionEventStore) : Prop := mkSynced {
  S_read : Read dir s;
  S_indexed : indexed_by_id s;
  S_ids : forall k, k ∈ map event_key (events s) <-> exists e, known e s /\ event_key e = k;
  S_byId : forall k e, map_get k (byId s) = Some e -> known e s
}.

Lemma in_memory_push f g es s : in_memory f (push_stream g es s) = if decide (g = f) then (in_memory f s ++ es)%list else in_memory f s.
Proof. unfold in_memory, push_stream. cbn. rewrite map_get_set. case_decide; [by subst|done]. Qed.

Lemma known_push e g es s : known e (push_stream g es s) <-> known e s \/ e ∈ es.
Proof.
  unfold known. setoid_rewrite in_memory_push. split.
  - intros (f & Hf). case_decide; [|eauto]. apply elem_of_app in Hf as [?|?]; eauto.
  - intros [[f Hf]|He]; [exists f|exists g]; case_decide; set_solver.
Qed.

(** *** Refreshing *)

Lemma refresh_file_read dir s f : Read dir s -> f <> own -> f ∈ map_keys dir -> is_stream f = true ->
  let t := file_text f dir in
  let off := default 0%nat (map_get f (cursors s)) in
  exists s1 es, (forall fr, refresh_file dir (s, fr) f = (s1, (fr ++ match es with [] => [] | _ => [es] end)%list)) /\
  Read dir s1 /\ in_memory f s1 = shown t /\ (forall g, g <> f -> in_memory g s1 = in_memory g s) /\
  (forall e, known e s1 <-> known e s \/ e ∈ es) /\ events s1 = events s /\ byId s1 = byId s.
Proof.
  intros HR Hne Hin Hstr t off. destruct (S_other _ _ HR f Hne) as (Hoff & Hcl & Hmem). fold t off in Hoff, Hcl, Hmem.
  assert (Et : map_get f dir = Some t). { unfold t, file_text. destruct (map_get f dir) eqn:G; [done|]. by apply map_get_none in G. }
  destruct (read_spec t off Hoff) as [Hev Hco]. set (es := shown (drop off t)) in *.
  assert (Esplit : shown t = (shown (take off t) ++ es)%list) by (rewrite <- (take_drop off t) at 1; by apply shown_closed_app).
  set (off' := (off + length (complete_part (drop off t)))%nat) in *.
  assert (Etake : take off' t = (take off t ++ complete_part (drop off t))%list).
  { destruct (complete_part_prefix (drop off t)) as (r & Er & _). rewrite <- (take_drop off t) at 1. rewrite Er at 1. rewrite app_assoc.
    replace off' with (length (take off t ++ complete_part (drop off t))) by (rewrite length_app, length_take; unfold off'; lia). apply take_app_length. }
  assert (Eshown : shown (take off' t) = shown t).
  { rewrite Etake, Esplit, shown_closed_app, shown_complete by done. done. }
  assert (Hlen : (off' <= length t)%nat).
  { unfold off'. destruct (complete_part_prefix (drop off t)) as (r & Er & _). apply (f_equal length) in Er. rewrite length_drop, length_app in Er. lia. }
  set (s0 := on_cursors (map_set f off') s). exists (match es with [] => s0 | _ => push_stream f es s0 end), es.
  assert (Hs0 : in_memory f s0 = shown (take off t)) by exact Hmem.
  assert (Hmem' : in_memory f (match es with [] => s0 | _ => push_stream f es s0 end) = shown t).
  { rewrite Esplit. destruct es; [by rewrite app_nil_r|]. rewrite in_memory_push, decide_True by done. by rewrite Hs0. }
  assert (Hoth : forall g, g <> f -> in_memory g (match es with [] => s0 | _ => push_stream f es s0 end) = in_memory g s).
  { intros g Hg. destruct es; [done|]. rewrite in_memory_push, decide_False by congruence. done. }
  split_and!.
  - intros fr. unfold refresh_file. rewrite bool_decide_false by done. cbn [fst snd]. rewrite Et. fold off. rewrite Hev, Hco. fold s0. destruct es; [by rewrite app_nil_r|done].
  - split.
    + rewrite Hoth by congruence. apply HR.
    + apply HR.
    + intros g Hg. cbn. replace (cursors (match es with [] => s0 | _ => push_stream f es s0 end)) with (map_set f off' (cursors s)) by (by destruct es).
      rewrite map_get_set. case_decide as Ed; [subst g; cbn|rewrite Hoth by congruence; by apply HR]. fold t. split_and!; [done| |].
      * rewrite Etake. apply open_end_closed_app; [done|apply complete_part_closed].
      * rewrite Hmem'. by symmetry.
    + intros g Hg. destruct es; [by apply HR|]. cbn in Hg. unfold s0 in Hg. cbn in Hg. apply list_elem_of_fmap in Hg as ([g' v] & -> & Hg).
      apply map_elem_get in Hg; [|apply map_set_ok, HR]. rewrite map_get_set in Hg. cbn. case_decide; [by subst|].
      apply map_get_elem in Hg. apply (S_keys _ _ HR). apply list_elem_of_fmap. by exists (g', v).
    + destruct es; [apply HR|]. apply map_set_ok, HR.
    + apply HR.
  - exact Hmem'.
  - exact Hoth.
  - intros x. destruct es; [rewrite elem_of_nil; unfold known; tauto|]. by rewrite known_push.
  - by destruct es.
  - by destruct es.
Qed.

Lemma refresh_files_read dir fs s fr : Read dir s -> NoDup fs -> (forall f, f ∈ fs -> f ∈ map_keys dir /\ is_stream f = true) ->
  let r := foldl (refresh_file dir) (s, fr) fs in
  Read dir r.1 /\ (forall f, f ∈ fs -> f <> own -> in_memory f r.1 = shown (file_text f dir)) /\
  (forall f, f ∉ fs -> in_memory f r.1 = in_memory f s) /\
  (forall e, known e s -> known e r.1) /\ (forall e, e ∈ concat fr -> e ∈ concat r.2) /\ (forall e, known e r.1 -> known e s \/ e ∈ concat r.2) /\
  (forall e, e ∈ concat r.2 -> known e r.1 \/ e ∈ concat fr) /\
  events r.1 = events s /\ byId r.1 = byId s.
Proof.
  revert s fr. induction fs as [|f fs IH]; intros s fr HR Hnd Hfs.
  - cbn. split_and!; try done; auto. intros f Hf. by apply not_elem_of_nil in Hf.
  - apply NoDup_cons in Hnd as [Hf Hnd]. destruct (Hfs f) as [Hd Hst]; [left|]. cbn [foldl]. destruct (decide (f = own)) as [->|Hne].
    + replace (refresh_file dir (s, fr) own) with (s, fr) by (unfold refresh_file; by rewrite bool_decide_true).
      destruct (IH s fr HR Hnd) as (A1 & A2 & A3 & A4); [intros; apply Hfs; by right|]. split_and!; try done; try apply A4.
      * intros g [->|Hg]%elem_of_cons Hno; [done|]. by apply A2.
      * intros g Hg. apply A3. set_solver.
    + destruct (refresh_file_read dir s f HR Hne Hd Hst) as (s1 & es & Hrun & HR1 & Hm1 & Ho1 & Hk1 & He1 & Hb1). rewrite Hrun.
      destruct (IH s1 (fr ++ match es with [] => [] | _ => [es] end)%list HR1 Hnd) as (A1 & A2 & A3 & A4 & A5 & A6 & A7 & A8 & A9); [intros; apply Hfs; by right|].
      assert (Hc : forall e, e ∈ concat (fr ++ match es with [] => [] | _ => [es] end) <-> e ∈ concat fr \/ e ∈ es).
      { intros e. rewrite concat_app, elem_of_app. destruct es; cbn; rewrite ?app_nil_r; done. }
      split_and!; try done.
      * intros g [->|Hg]%elem_of_cons Hno; [|by apply A2]. rewrite A3 by done. exact Hm1.
      * intros g Hg. apply not_elem_of_cons in Hg as [Hg1 Hg2]. rewrite A3 by done. by apply Ho1.
      * intros e He. apply A4, Hk1. by left.
      * intros e He. apply A5, Hc. by left.
      * intros e He. destruct (A6 e He) as [Hs|Hs]; [|by right]. apply Hk1 in Hs as [Hs|Hs]; [by left|]. right. apply A5, Hc. by right.
      * intros e He. destruct (A7 e He) as [Hs|Hs]; [by left|]. apply Hc in Hs as [Hs|Hs]; [by right|]. left. apply A4, Hk1. by right.
      * by rewrite A8.
      * by rewrite A9.
Qed.

Lemma listStreamFiles_elem dir f : f ∈ listStreamFiles dir <-> f ∈ map_keys dir /\ is_stream f = true.
Proof. unfold listStreamFiles. by rewrite js_sort_perm, js_filter_elem. Qed.
Lemma js_filter_NoDup {A} (p : A -> bool) l : NoDup l -> NoDup (js_filter p l).
Proof.
  induction 1 as [|x l Hx Hl IH]; cbn; [constructor|]. destruct (p x); [|done]. apply NoDup_cons. split; [|done]. by intros [? _]%js_filter_elem.
Qed.
Lemma listStreamFiles_NoDup dir : map_ok dir -> NoDup (listStreamFiles dir).
Proof. intros H0. unfold listStreamFiles. rewrite js_sort_perm. by apply js_filter_NoDup. Qed.

Definition merged_memory (s : SessionEventStore) : list E :=
  mergeStreams timestamp (map (fun f => in_memory f s) (js_sort stream_le (map_keys (streams s)))).

Lemma merged_memory_elem s e : e ∈ merged_memory s <-> known e s.
Proof.
  unfold merged_memory, known. rewrite merge_perm, concat_map_elem. split; [intros (f & _ & Hf); eauto|]. intros (f & Hf). exists f. split; [|done].
  rewrite js_sort_perm. unfold in_memory in Hf. destruct (map_get f (streams s)) as [l|] eqn:G; [|set_solver].
  apply map_get_elem in G. apply list_elem_of_fmap. by exists (f, l).
Qed.

Lemma first_ids_elem seen (es : list E) k : k ∈ map event_key (first_ids seen es) <-> k ∈ map event_key es /\ k ∉ seen.
Proof.
  revert seen. induction es as [|e es IH]; intros seen; cbn; [set_solver|]. change (event_id e) with (event_key e).
  destruct (js_includes (event_key e) seen) eqn:Ei.
  - apply js_includes_true in Ei. rewrite IH, elem_of_cons. split; [tauto|]. intros [[->|?] ?]; [done|done].
  - apply js_includes_false in Ei. cbn. rewrite elem_of_cons, IH, elem_of_cons, elem_of_app, list_elem_of_singleton.
    destruct (decide (k = event_key e)) as [->|]; tauto.
Qed.

Lemma reorder_keys s : indexed_by_id s -> map event_key (events (reorder s)) = map event_key (first_ids [] (merged_memory s)).
Proof.
  intros HI. unfold reorder. cbn. unfold merged_memory, in_memory. rewrite map_map. apply map_ext. intros e.
  destruct (map_get (event_key e) (byId s)) as [e'|] eqn:G; cbn; [|done]. by apply (I_get _ HI).
Qed.

Lemma reorder_synced dir s : Synced dir s -> Synced dir (reorder s).
Proof.
  intros [HR HI Hids Hby].
  assert (Hk : forall k, k ∈ map event_key (events (reorder s)) <-> exists e, known e s /\ event_key e = k).
  { intros k. rewrite reorder_keys, first_ids_elem by done. rewrite list_elem_of_fmap. setoid_rewrite merged_memory_elem. split.
    - intros [(e & -> & He) _]. eauto.
    - intros (e & He & <-). split; [eauto|set_solver]. }
  split; [| |exact Hk|exact Hby].
  - by destruct HR.
  - split.
    + intros k. change (byId (reorder s)) with (byId s). rewrite (I_has _ HI). unfold js_includes. apply bool_decide_ext. rewrite Hk. apply Hids.
    + rewrite reorder_keys by done. apply (first_ids_nodup (HasId := session_event_id)).
    + apply HI.
Qed.

Lemma admitted_synced dir s0 s es : Read dir s -> indexed_by_id s0 -> events s = events s0 -> byId s = byId s0 ->
  (forall k, k ∈ map event_key (events s0) <-> exists e, known e s0 /\ event_key e = k) -> (forall k e, map_get k (byId s0) = Some e -> known e s0) ->
  (forall e, known e s0 -> known e s) -> (forall e, known e s <-> known e s0 \/ e ∈ es) -> Synced dir (admit_all s es).1.
Proof.
  intros HR HI Ee Eb Hids Hby Hmono Hes. assert (HIs : indexed_by_id s) by (destruct HI; split; by rewrite ?Ee, ?Eb).
  destruct (admit_all_spec es s HIs) as (A1 & A2 & A3 & A4 & A5 & A6 & A7 & A8 & A9).
  assert (Hknown : forall e, known e (admit_all s es).1 <-> known e s) by (intros e; unfold known, in_memory; by rewrite A6).
  split.
  - destruct HR. split; rewrite ?A6, ?A7; try done; unfold in_memory in *; by rewrite A6.
  - exact A1.
  - intros k. rewrite A3, A2, map_app, elem_of_app, first_ids_elem. setoid_rewrite Hknown. split.
    + intros [Hk|[Hk _]].
      * rewrite Ee, Hids in Hk. destruct Hk as (e & He & <-). eauto.
      * apply list_elem_of_fmap in Hk as (e & -> & He). exists e. split; [|done]. apply Hes. by right.
    + intros (e & He & <-). destruct (decide (event_key e ∈ map event_key (events s))); [by left|right]. split; [|done].
      apply Hes in He as [He|He]; [|apply list_elem_of_fmap; eauto]. exfalso. apply n. rewrite Ee, Hids. eauto.
  - intros k e Hk. apply Hknown. destruct (A5 k e Hk) as [Hs|Hs]; [|apply Hes; by right]. rewrite Eb in Hs. apply Hmono. by eapply Hby.
Qed.

(** A refresh keeps the store in step and reads every stream to its last complete line. *)
Lemma refresh_synced dir s : Synced dir s ->
  Synced dir (refresh dir s).1 /\ (forall f, f ∈ listStreamFiles dir -> in_memory f (refresh dir s).1 = shown (file_text f dir)) /\
  ((refresh dir s).2 <> [] -> exists s1, (refresh dir s).1 = reorder s1 /\ Synced dir s1 /\
     forall f, f ∈ listStreamFiles dir -> in_memory f s1 = shown (file_text f dir)).
Proof.
  intros [HR HI Hids Hby]. unfold refresh.
  destruct (refresh_files_read dir (listStreamFiles dir) s [] HR) as (A1 & A2 & A3 & A4 & A5 & A6 & A7 & A8 & A9).
  { apply listStreamFiles_NoDup, HR. }
  { intros f. apply listStreamFiles_elem. }
  set (r := foldl (refresh_file dir) (s, []) (listStreamFiles dir)) in *.
  assert (Hs : Synced dir (admit_all r.1 (mergeStreams timestamp r.2)).1).
  { apply (admitted_synced dir s); try done. intros e. rewrite merge_perm. split.
    - apply A6.
    - intros [He|He]; [by apply A4|]. destruct (A7 e He) as [?|Hn]; [done|]. by apply not_elem_of_nil in Hn. }
  assert (Hm : forall f, f ∈ listStreamFiles dir -> in_memory f (admit_all r.1 (mergeStreams timestamp r.2)).1 = shown (file_text f dir)).
  { intros f Hf. assert (HIr : indexed_by_id r.1) by (destruct HI; split; by rewrite ?A8, ?A9).
    destruct (admit_all_spec (mergeStreams timestamp r.2) r.1 HIr) as (_ & _ & _ & _ & _ & Es & _). unfold in_memory. rewrite Es. fold (in_memory f r.1).
    destruct (decide (f = own)) as [->|Hne]; [apply A1|by apply A2]. }
  destruct (admit_all r.1 (mergeStreams timestamp r.2)) as [s1 [|e es]]; cbn [fst snd] in *.
  - split_and!; [done..|]. by intros [].
  - split_and!; [by apply reorder_synced|done|]. intros _. by exists s1.
Qed.

(** *** Other sessions write, this one appends *)

Lemma keys_get {V} f (m : @jsmap string V) : f ∈ map_keys m <-> map_get f m <> None.
Proof. rewrite map_get_none. destruct (decide (f ∈ map_keys m)); tauto. Qed.

(** The complete lines of every stream stay where they are, as do the bytes of this session's stream. *)
Definition others_write (dir dir' : Dir) : Prop :=
  map_ok dir' /\ file_text own dir' = file_text own dir /\
  forall f, (f ∈ map_keys dir -> f ∈ map_keys dir') /\ complete_part (file_text f dir) `prefix_of` file_text f dir'.

Lemma closed_prefix_complete t off : (off <= length t)%nat -> open_end (take off t) = false -> take off t `prefix_of` complete_part t.
Proof.
  intros Ho Hc. rewrite <- (take_drop off t) at 2. rewrite complete_part_app by done. by eexists.
Qed.

Lemma others_synced dir dir' s : others_write dir dir' -> Synced dir s -> Synced dir' s.
Proof.
  intros (Hok & Hown & Hf) [HR HI A B]. split; try done. destruct HR as [R1 R2 R3 R4 R5 R6]. split; try done.
  - by rewrite Hown.
  - by rewrite Hown.
  - intros f Hne. destruct (R3 f Hne) as (Ho & Hc & Hm). set (off := default 0%nat (map_get f (cursors s))) in *.
    destruct (Hf f) as [_ Hp]. destruct (closed_prefix_complete _ _ Ho Hc) as [u Hu]. destruct Hp as [v Hv]. rewrite Hu, <- app_assoc in Hv.
    assert (El : length (take off (file_text f dir)) = off) by (rewrite length_take; lia).
    assert (Et : take off (file_text f dir') = take off (file_text f dir)) by (rewrite Hv; rewrite <- El at 1; apply take_app_length).
    cbn. rewrite Et. split_and!; [|done|done]. rewrite Hv, length_app. lia.
  - intros f Hin. destruct (R4 f Hin). split; [done|]. by apply Hf.
Qed.

Lemma file_text_write f t dir : file_text f (write_own t written dir) = if decide (own = f) then (file_text own dir ++ t)%list else file_text f dir.
Proof. unfold file_text at 1, write_own. rewrite map_get_set. by case_decide. Qed.
Lemma write_own_keys f t dir : f ∈ map_keys (write_own t written dir) <-> f = own \/ f ∈ map_keys dir.
Proof. rewrite !keys_get. unfold write_own. rewrite map_get_set. case_decide; naive_solver. Qed.
Lemma write_own_twice a b dir : write_own (a ++ b) written dir = write_own b written (write_own a written dir).
Proof. unfold write_own. rewrite map_get_set_eq, map_set_set. cbn. by rewrite app_assoc. Qed.

Lemma write_nothing_synced dir s : Synced dir s -> Synced (write_own [] written dir) s.
Proof.
  intros HS. assert (Et : forall f, file_text f (write_own [] written dir) = file_text f dir).
  { intros f. rewrite file_text_write. case_decide; [subst; by rewrite app_nil_r|done]. }
  apply (others_synced dir); [|done]. split_and!; [apply map_set_ok, HS|apply Et|]. intros f. rewrite Et. split.
  - rewrite write_own_keys. auto.
  - destruct (complete_part_prefix (file_text f dir)) as (r & Er & _). by exists r.
Qed.

Lemma sequence_synced f dir s : Synced dir s -> Synced dir (on_sequence f s).
Proof. intros [[] [] A B]; split; [by split|by split|done|done]. Qed.

Context (own_stream : is_stream own = true).

Lemma own_line_synced e n dir s : Synced dir s -> Synced (write_own (envelope_text e n ++ [nl]) written dir) (admitOwn s e).
Proof.
  intros [HR HI A B]. set (dir' := write_own _ written dir).
  assert (E1 : admitOwn s e = (admit_all (push_stream own [e] s) [e]).1) by reflexivity. rewrite E1.
  apply (admitted_synced dir' s); try done.
  - destruct HR as [R1 R2 R3 R4 R5 R6]. unfold dir'. split.
    + rewrite in_memory_push, file_text_write, !decide_True by done. rewrite shown_line by done. by rewrite R1.
    + rewrite file_text_write, decide_True by done. rewrite app_assoc. apply open_end_nl.
    + intros f Hne. rewrite file_text_write, in_memory_push, !decide_False by done. by apply R3.
    + intros f. rewrite write_own_keys. rewrite keys_get. unfold push_stream. cbn. rewrite map_get_set. case_decide as Hd; [subst; auto|].
      intros Hg. apply keys_get, R4 in Hg. tauto.
    + apply map_set_ok, R5.
    + apply map_set_ok, R6.
  - intros x Hx. apply known_push. by left.
  - intros x. apply known_push.
Qed.

Lemma own_lines_synced es s0 dir s : Synced dir s -> Synced (write_own (envelopes es s0).2 written dir) (foldl admitOwn s es).
Proof.
  revert s0 dir s. induction es as [|e es IH]; intros s0 dir s HS; [by apply write_nothing_synced|].
  cbn [envelopes envelope foldl]. specialize (IH (on_sequence S s0)). destruct (envelopes es (on_sequence S s0)) as [s1 body]. cbn [snd] in *.
  rewrite write_own_twice. apply IH. by apply own_line_synced.
Qed.
Lemma envelopes_sequence es s : exists f, (envelopes es s).1 = on_sequence f s.
Proof.
  revert s. induction es as [|e es IH]; intros s; [exists (fun n => n); by destruct s|]. cbn [envelopes envelope].
  destruct (IH (on_sequence S s)) as [f Hf]. destruct (envelopes es (on_sequence S s)) as [s1 body]. cbn in *. subst. by exists (fun n => f (S n)).
Qed.

(** *** Opening *)

Lemma load_files dir fs s : NoDup fs -> map_ok (streams s) ->
  let r := foldl (load_file dir) s fs in
  map_ok (streams r) /\ events r = events s /\ byId r = byId s /\
  (forall f, f ∈ fs -> map_get f (streams r) = Some (shown (file_text f dir)) /\
     map_get f (cursors r) = Some (length (complete_part (file_text f dir)))) /\
  (forall f, f ∉ fs -> map_get f (streams r) = map_get f (streams s) /\ map_get f (cursors r) = map_get f (cursors s)).
Proof.
  revert s. induction fs as [|f fs IH]; intros s Hnd Hok; cbn [foldl]; [cbn; split_and!; try done; set_solver|].
  apply NoDup_cons in Hnd as [Hf Hnd].
  assert (Hr : rr_events (readJsonlFrom (E := E) (map_get f dir) 0) = shown (file_text f dir) /\
    rr_consumedBytes (readJsonlFrom (E := E) (map_get f dir) 0) = length (complete_part (file_text f dir))).
  { unfold file_text. destruct (map_get f dir) as [t|]; [|done]. by destruct (read_spec t 0 ltac:(lia)). }
  destruct Hr as [Hr1 Hr2].
  assert (Hs : exists k, streams (load_file dir s f) = map_set f (shown (file_text f dir)) (streams s) /\
    cursors (load_file dir s f) = map_set f k (cursors s) /\ k = length (complete_part (file_text f dir)) /\
    events (load_file dir s f) = events s /\ byId (load_file dir s f) = byId s).
  { exists (length (complete_part (file_text f dir))). unfold load_file. rewrite Hr1, Hr2. by destruct (bool_decide (f = own)). }
  destruct Hs as (k & Hs1 & Hs2 & -> & Hs3 & Hs4).
  destruct (IH (load_file dir s f) Hnd) as (A1 & A2 & A3 & A4 & A5); [rewrite Hs1; by apply map_set_ok|].
  split_and!; [done|congruence|congruence| |].
  - intros g [->|Hg]%elem_of_cons; [|by apply A4]. destruct (A5 f Hf) as [-> ->]. rewrite Hs1, Hs2. by rewrite !map_get_set_eq.
  - intros g Hg. apply not_elem_of_cons in Hg as [Hg1 Hg2]. destruct (A5 g Hg2) as [-> ->]. rewrite Hs1, Hs2. by rewrite !map_get_set_ne by congruence.
Qed.

Lemma stream_events_shown dir f : stream_events dir f = shown (file_text f dir).
Proof. unfold stream_events, file_text. destruct (map_get f dir) as [t|]; [|done]. by destruct (read_spec t 0 ltac:(lia)). Qed.

Lemma repair_own_closed dir : map_ok dir -> map_ok (repair_own true dir) /\ open_end (file_text own (repair_own true dir)) = false.
Proof.
  intros Hok. unfold repair_own, file_text. destruct (map_get own dir) as [t|] eqn:G; [|by rewrite G]. cbn. destruct (open_end t) eqn:Ho; cbn.
  - split; [by apply map_set_ok|]. rewrite map_get_set_eq. apply complete_part_closed.
  - split; [by apply map_set_ok|]. by rewrite map_get_set_eq.
Qed.

Lemma load_events repaired dir : events (load repaired dir).2 = readMergedEvents (load repaired dir).1.
Proof.
  unfold load. cbn [fst snd]. set (d := repair_own repaired dir). set (s := foldl _ _ _).
  assert (He : events s = [] /\ byId s = []).
  { unfold s. generalize (listStreamFiles d). intros fs. set (P := fun s : SessionEventStore => events s = [] /\ byId s = []).
    change (P (foldl (load_file d) empty_session fs)). assert (P empty_session) as HP by done. revert HP. generalize empty_session.
    induction fs as [|f fs IH]; intros s0 HP; [done|]. cbn [foldl]. apply IH. unfold load_file. by destruct (bool_decide (f = own)). }
  destruct He as [He1 He2]. assert (HI : indexed_by_id s) by (split; rewrite ?He1, ?He2; [done|constructor|done]).
  destruct (admit_all_spec (mergeStreams timestamp (map (stream_events d) (listStreamFiles d))) s HI) as (_ & A2 & A3 & _).
  rewrite A3, A2, He1. done.
Qed.

Lemma opening_synced dir : map_ok dir -> Synced (load true dir).1 (load true dir).2.
Proof.
  intros Hok. unfold load. cbn [fst snd]. destruct (repair_own_closed dir Hok) as [Hok' Hcl]. set (d := repair_own true dir) in *.
  destruct (load_files d (listStreamFiles d) empty_session) as (A1 & A2 & A3 & A4 & A5); [by apply listStreamFiles_NoDup|constructor|].
  set (s := foldl (load_file d) empty_session (listStreamFiles d)) in *.
  assert (Hmem : forall f, f ∈ listStreamFiles d -> in_memory f s = shown (file_text f d)) by (intros f Hf; unfold in_memory; by rewrite (proj1 (A4 f Hf))).
  assert (Hout : forall f, f ∉ listStreamFiles d -> in_memory f s = []) by (intros f Hf; unfold in_memory; by rewrite (proj1 (A5 f Hf))).
  apply (admitted_synced d empty_session); try done.
  - split; try done.
    + destruct (decide (own ∈ listStreamFiles d)) as [Hin|Hn]; [by apply Hmem|]. rewrite (Hout _ Hn). rewrite listStreamFiles_elem in Hn.
      assert (map_get own d = None) as Hd by (apply map_get_none; tauto). unfold file_text. by rewrite Hd.
    + intros f Hne. destruct (decide (f ∈ listStreamFiles d)) as [Hin|Hn].
      * rewrite (Hmem f Hin). rewrite (proj2 (A4 f Hin)). cbn. destruct (complete_part_prefix (file_text f d)) as (r & Er & _). set (c := complete_part (file_text f d)) in *.
        assert (Et : take (length c) (file_text f d) = c) by (rewrite Er; apply take_app_length). rewrite Et. split_and!.
        -- rewrite Er, length_app. lia.
        -- apply complete_part_closed.
        -- by rewrite <- shown_complete.
      * rewrite (Hout f Hn), (proj2 (A5 f Hn)). cbn. split_and!; [lia|done|done].
    + intros f Hf. apply keys_get in Hf. destruct (decide (f ∈ listStreamFiles d)) as [Hin|Hn]; [apply listStreamFiles_elem in Hin; tauto|].
      by rewrite (proj1 (A5 f Hn)) in Hf.
  - split; [done|constructor|done].
  - intros k. split; [by intros ?%not_elem_of_nil|]. intros (e & (f & Hf) & _). by apply not_elem_of_nil in Hf.
  - intros e (f & Hf). by apply not_elem_of_nil in Hf.
  - intros e. rewrite merge_perm, concat_map_elem. split.
    + intros (f & Hf). right. destruct (decide (f ∈ listStreamFiles d)) as [Hin|Hn]; [|by rewrite (Hout f Hn) in Hf; apply not_elem_of_nil in Hf].
      exists f. split; [done|]. rewrite stream_events_shown, <- (Hmem f Hin). done.
    + intros [(f & Hf)|(f & Hin & Hf)]; [by apply not_elem_of_nil in Hf|]. exists f. rewrite (Hmem f Hin), <- stream_events_shown. done.
Qed.

(** *** What a session and the others do *)

Inductive SessionOp :=
  | op_append (e : E) (authority : bool) (a : WriteAnswer)
  | op_appendAll (es : list E) (authority : bool) (a : WriteAnswer)
  | op_appendConditionally (e : E) (condition : SessionEventStore -> bool) (authority : bool) (a : WriteAnswer)
  | op_refresh.
Definition run_session (op : SessionOp) (dir : Dir) (s : SessionEventStore) : Dir * SessionEventStore :=
  match op with
  | op_append e authority a => (append_event e authority a dir s).1
  | op_appendAll es authority a => (appendAll es authority a dir s).1
  | op_appendConditionally e c authority a => (appendConditionally e c authority a dir s).1
  | op_refresh => (dir, (refresh dir s).1)
  end.
(** A write that fails leaves nothing behind. *)
Definition whole (a : WriteAnswer) : Prop := a = written \/ a = failed 0.
Definition whole_op (op : SessionOp) : Prop :=
  match op with op_append _ _ a | op_appendAll _ _ a | op_appendConditionally _ _ _ a => whole a | op_refresh => True end.

(** A run, and what happened in it, the last first: the session opens (and repairs its own stream
    or fails to), does something, or the others write. *)
Inductive RunStep := r_open (repaired : bool) | r_op (op : SessionOp) | r_others.
Inductive Runs : list RunStep -> Dir -> SessionEventStore -> Prop :=
  | runs_open repaired dir : map_ok dir -> Runs [r_open repaired] (load repaired dir).1 (load repaired dir).2
  | runs_op tr dir s op : Runs tr dir s -> Runs (r_op op :: tr) (run_session op dir s).1 (run_session op dir s).2
  | runs_others tr dir dir' s : Runs tr dir s -> others_write dir dir' -> Runs (r_others :: tr) dir' s.

(** The own stream is repaired when it is opened, and no write of the session fails part way. *)
Definition undamaged (x : RunStep) : Prop := match x with r_open repaired => repaired = true | r_op op => whole_op op | r_others => True end.

Lemma failed_synced t dir s : Synced dir s -> Synced (write_own t (failed 0) dir) s.
Proof. apply write_nothing_synced. Qed.

Lemma append_synced e authority a dir s : whole a -> Synced dir s ->
  Synced (append_event e authority a dir s).1.1 (append_event e authority a dir s).1.2.
Proof.
  intros Ha HS. unfold append_event. destruct (closed s); [done|]. cbn [envelope]. destruct authority; cbn [negb]; [|by apply sequence_synced].
  destruct Ha as [-> | ->]; [apply own_line_synced|apply failed_synced]; by apply sequence_synced.
Qed.
Lemma conditional_synced e c authority a dir s : whole a -> Synced dir s ->
  Synced (appendConditionally e c authority a dir s).1.1 (appendConditionally e c authority a dir s).1.2.
Proof.
  intros Ha HS. unfold appendConditionally. destruct (closed s), (c s), authority; try done. cbn [negb envelope].
  destruct Ha as [-> | ->]; [apply own_line_synced|apply failed_synced]; by apply sequence_synced.
Qed.
Lemma appendAll_synced es authority a dir s : whole a -> Synced dir s ->
  Synced (appendAll es authority a dir s).1.1 (appendAll es authority a dir s).1.2.
Proof.
  intros Ha HS. unfold appendAll. destruct (closed s); [done|]. destruct es as [|e es]; [done|].
  pose proof (own_lines_synced (e :: es) s dir) as Hb. destruct (envelopes_sequence (e :: es) s) as [f Hf].
  destruct (envelopes (e :: es) s) as [s1 body]. cbn [fst snd] in Hf, Hb. subst s1.
  destruct authority; cbn [negb]; [|by apply sequence_synced].
  destruct Ha as [-> | ->]; [apply Hb|apply failed_synced]; by apply sequence_synced.
Qed.

(** Whatever the session and the others do, the store is in step with the namespace. *)
Lemma runs_synced tr dir s : Runs tr dir s -> Forall undamaged tr -> Synced dir s.
Proof.
  induction 1 as [repaired dir Hok|tr dir s op _ IH|tr dir dir' s _ IH Ho]; intros [Hu Htr]%Forall_cons.
  - cbn in Hu. subst repaired. by apply opening_synced.
  - specialize (IH Htr). cbn in Hu. destruct op; cbn in *; [by apply append_synced|by apply appendAll_synced|by apply conditional_synced|by apply refresh_synced].
  - eapply others_synced; [exact Ho|by apply IH].
Qed.

(** *** The merged order *)

(** An id names one event of the namespace. *)
Definition ids_consistent (dir : Dir) : Prop :=
  forall e e', e ∈ concat (map (stream_events dir) (listStreamFiles dir)) -> e' ∈ concat (map (stream_events dir) (listStreamFiles dir)) ->
    event_key e = event_key e' -> e = e'.

Definition with_text (l : string -> list E) (f : string) : bool := negb (bool_decide (l f = [])).
Lemma nonempty_map (l : string -> list E) fs : nonempty (map l fs) = map l (js_filter (with_text l) fs).
Proof.
  induction fs as [|f fs IH]; [done|]. cbn [map js_filter]. unfold with_text at 1. destruct (l f) as [|x q] eqn:El.
  - rewrite nonempty_nil, bool_decide_true by done. exact IH.
  - rewrite nonempty_cons, bool_decide_false by done. cbn. by rewrite El, IH.
Qed.

Lemma js_filter_ext_in {A} (p q : A -> bool) l : (forall x, x ∈ l -> p x = q x) -> js_filter p l = js_filter q l.
Proof.
  induction l as [|x l IH]; intros Hx; [done|]. cbn. rewrite (Hx x) by left. rewrite IH; [done|]. intros y Hy. apply Hx. by right.
Qed.

(** The streams in memory merge as the files do: a stream of no events is of no account. *)
Lemma merged_memory_files dir s : Synced dir s -> (forall f, f ∈ listStreamFiles dir -> in_memory f s = shown (file_text f dir)) ->
  merged_memory s = mergeStreams timestamp (map (stream_events dir) (listStreamFiles dir)).
Proof.
  intros HS Hm. unfold merged_memory. apply merge_nonempty. rewrite !nonempty_map.
  set (A := js_sort stream_le (map_keys (streams s))).
  assert (HA : forall f, f ∈ A -> f ∈ listStreamFiles dir).
  { intros f. unfold A. rewrite js_sort_perm. intros Hf. apply listStreamFiles_elem. destruct (S_keys _ _ (S_read _ _ HS) f Hf). tauto. }
  assert (E1 : js_filter (with_text (stream_events dir)) (listStreamFiles dir) = js_filter (with_text (fun f => in_memory f s)) A).
  { rewrite (js_filter_ext_in _ (with_text (fun f => in_memory f s)) (listStreamFiles dir)).
    2: { intros f Hf. unfold with_text. by rewrite stream_events_shown, (Hm f Hf). }
    apply (StronglySorted_unique_strong (fun x y => stream_le x y = true)).
    - intros x y _ _. apply stream_le_antisym.
    - apply js_filter_sorted. apply js_sort_sorted; [apply stream_le_total|apply stream_le_trans].
    - apply js_filter_sorted. apply js_sort_sorted; [apply stream_le_total|apply stream_le_trans].
    - apply NoDup_Permutation.
      + apply js_filter_NoDup, listStreamFiles_NoDup, HS.
      + apply js_filter_NoDup. unfold A. rewrite js_sort_perm. apply HS.
      + intros f. rewrite !js_filter_elem. split; [|intros [? ?]; split; [by apply HA|done]]. intros [Hf Ht]. split; [|done].
        unfold A. rewrite js_sort_perm, keys_get. unfold with_text, in_memory in Ht. by destruct (map_get f (streams s)). }
  rewrite E1. apply map_ext_in. intros f Hf. apply list_elem_of_In, js_filter_elem in Hf as [Hf _]. rewrite stream_events_shown. apply Hm. auto.
Qed.

Lemma first_ids_in seen (es : list E) e : e ∈ first_ids seen es -> e ∈ es.
Proof.
  revert seen. induction es as [|x es IH]; intros seen; cbn; [done|]. destruct (js_includes _ seen); rewrite ?elem_of_cons; [eauto|]. intros [->|?]; eauto.
Qed.

Lemma reorder_files dir s : Synced dir s -> (forall f, f ∈ listStreamFiles dir -> in_memory f s = shown (file_text f dir)) -> ids_consistent dir ->
  events (reorder s) = readMergedEvents dir.
Proof.
  intros HS Hm Hc. pose proof (merged_memory_files dir s HS Hm) as Em. unfold readMergedEvents. rewrite <- Em. unfold reorder. cbn [events on_events].
  fold (merged_memory s). etransitivity; [|apply map_id]. apply map_ext_in. intros e He. apply list_elem_of_In, first_ids_in in He.
  destruct (map_get (event_key e) (byId s)) as [e'|] eqn:G; [|done]. cbn. pose proof (I_get _ (S_indexed _ _ HS) _ _ G) as Hk.
  apply (S_byId _ _ HS), merged_memory_elem in G. rewrite Em, merge_perm in G, He. by apply Hc.
Qed.

Lemma synced_ids dir s : Synced dir s -> (forall f, f ∈ listStreamFiles dir -> in_memory f s = shown (file_text f dir)) ->
  map event_key (events s) ≡ₚ map event_key (readMergedEvents dir).
Proof.
  intros HS Hm. apply NoDup_Permutation; [apply HS|apply (first_ids_nodup (HasId := session_event_id))|]. intros k.
  unfold readMergedEvents. rewrite first_ids_elem, <- (merged_memory_files dir s HS Hm), (S_ids _ _ HS), list_elem_of_fmap.
  setoid_rewrite merged_memory_elem. split; [intros (e & ? & <-); split; [eauto|apply not_elem_of_nil]|intros [(e & -> & ?) _]; eauto].
Qed.

(** Once every stream has been read, there is nothing more to admit. *)
Lemma nothing_admitted s es : indexed_by_id s -> (forall e, e ∈ es -> event_key e ∈ map event_key (events s)) -> (admit_all s es).2 = [].
Proof.
  intros HI Hin. destruct (admit_all_spec es s HI) as (_ & -> & _). generalize (map event_key (events s)), Hin. clear. intros seen Hin.
  induction es as [|e es IH]; [done|]. cbn. assert (js_includes (event_key e) seen = true) as Ei by (apply js_includes_true, Hin; left).
  change (event_id e) with (event_key e). rewrite Ei. apply IH. intros x Hx. apply Hin. by right.
Qed.
Lemma second_refresh dir s : Synced dir s -> (refresh dir (refresh dir s).1).2 = [].
Proof.
  intros HS. destruct (refresh_synced dir s HS) as (H1 & H2 & _). set (s1 := (refresh dir s).1) in *. unfold refresh.
  destruct (refresh_files_read dir (listStreamFiles dir) s1 [] (S_read _ _ H1)) as (A1 & A2 & A3 & A4 & A5 & A6 & A7 & A8 & A9).
  { apply listStreamFiles_NoDup, H1. }
  { intros f. apply listStreamFiles_elem. }
  set (r := foldl (refresh_file dir) (s1, []) (listStreamFiles dir)) in *.
  assert (Hn : (admit_all r.1 (mergeStreams timestamp r.2)).2 = []); [|by rewrite Hn].
  apply nothing_admitted; [destruct (S_indexed _ _ H1); split; by rewrite ?A8, ?A9|].
  intros e He. rewrite merge_perm in He. rewrite A8. apply (S_ids _ _ H1). destruct (A7 e He) as [(f & Hf)|Hx]; [|by apply not_elem_of_nil in Hx].
  exists e. split; [|done]. destruct (decide (f ∈ listStreamFiles dir)) as [Hin|Hni]; [|exists f; by rewrite <- A3].
  exists f. rewrite (H2 f Hin). destruct (decide (f = own)) as [->|Hne]; [rewrite (S_own _ _ A1) in Hf; done|]. by rewrite (A2 f Hin Hne) in Hf.
Qed.
End Store.

(** ** What the streams promise *)

(** The merge of streams holds each of their events once for every stream that has it, keeps
    the order of every stream, and is in time order when every stream is. *)
Theorem merge_keeps_streams {E} (time : E -> string) (ss : list (list E)) :
  mergeStreams time ss ≡ₚ concat ss /\ (forall s, s ∈ ss -> s `sublist_of` mergeStreams time ss) /\
  (Forall (ordered time) ss -> ordered time (mergeStreams time ss)).
Proof.
  split_and!; [apply merge_perm| |apply merge_ordered]. intros s [i Hi]%list_elem_of_lookup_1. by eapply merge_sublist.
Qed.

Section Promises.
Context {E : Type} `{SessionCodec E} (own : string) (own_stream : is_stream own = true).

(** C18: In every run of a session that repaired its own stream when it opened it and had no
    write of its own fail part way, whatever other sessions append, a refresh leaves exactly the ids the
    namespace shows, each once; when it admits an event and an id names one event, the events are
    those a store opened now would hold, in that order; and a second refresh admits nothing. *)
Theorem refresh_is_load tr dir (s : SessionEventStore) : Runs own tr dir s -> Forall undamaged tr ->
  let r := refresh own dir s in
  map event_key (events r.1) ≡ₚ map event_key (readMergedEvents dir) /\ NoDup (map event_key (events r.1)) /\
  (ids_consistent dir -> r.2 <> [] -> events r.1 = readMergedEvents dir /\ events r.1 = events (load own false dir).2) /\
  (refresh own dir r.1).2 = [].
Proof.
  intros HR Hu r. pose proof (runs_synced own own_stream tr dir s HR Hu) as HS. destruct (refresh_synced own dir s HS) as (H1 & H2 & H3). fold r in H1, H2, H3. split_and!.
  - by apply (synced_ids own).
  - apply H1.
  - intros Hc Hne. destruct (H3 Hne) as (s1 & E1 & HS1 & Hm). assert (events r.1 = readMergedEvents dir) as Er by (rewrite E1; by eapply reorder_files).
    split; [done|]. rewrite (load_events own false dir). unfold load, repair_own. cbn [fst]. by destruct (map_get own dir).
  - by apply (second_refresh own).
Qed.

(** In such a run an append that succeeds is the last record of the session's stream, and every reader that
    opens the namespace from then on, whatever the other sessions wrote meanwhile, sees its id. *)
Theorem append_is_durable tr dir (s : SessionEventStore) e authority a dir' s' : Runs own tr dir s -> Forall undamaged tr ->
  append_event own e authority a dir s = (dir', s', Ok e) ->
  shown (file_text own dir') = (shown (file_text own dir) ++ [e])%list /\
  forall later, others_write own dir' later -> event_key e ∈ map event_key (readMergedEvents later).
Proof.
  intros HR Hu Ha. pose proof (runs_synced own own_stream tr dir s HR Hu) as HS. unfold append_event in Ha. destruct (closed s); [done|]. cbn [envelope] in Ha.
  destruct authority; [|done]. destruct a as [|n]; [|done]. cbn [negb] in Ha. injection Ha as <- <-.
  set (d := write_own own _ written dir).
  assert (Es : shown (file_text own d) = (shown (file_text own dir) ++ [e])%list).
  { unfold d. rewrite file_text_write, decide_True by done. apply shown_line, HS. }
  split; [exact Es|]. intros later (Hok & Hown & Hk). unfold readMergedEvents. rewrite first_ids_elem. split; [|apply not_elem_of_nil].
  apply list_elem_of_fmap. exists e. split; [done|]. rewrite merge_perm, concat_map_elem. exists own. split.
  - apply listStreamFiles_elem. split; [|done]. apply Hk. unfold d. rewrite write_own_keys. by left.
  - rewrite stream_events_shown, Hown, Es. set_solver.
Qed.
End Promises.
End Streams.

(** ** A small namespace *)

Module SessionSample.
Import Streams.

Inductive Ev := ev_a | ev_b | ev_c.
Definition ev_char (e : Ev) : ascii := match e with ev_a => "a" | ev_b => "b" | ev_c => "c" end%char.
Definition ev_key (e : Ev) : string := String (ev_char e) EmptyString.
Definition ev_time (e : Ev) : string := match e with ev_a => "2026-01-01T00:00:01Z" | ev_b => "2026-01-01T00:00:02Z" | ev_c => "2026-01-01T00:00:03Z" end.
Definition ev_text (e : Ev) (n : nat) : text := ("{" :: ev_char e :: repeat "i" n ++ ["}"])%char%list.
Fixpoint ev_count (t : text) : option nat :=
  match t with
  | [c] => if decide (c = "}"%char) then Some 0%nat else None
  | c :: t' => if decide (c = "i"%char) then S <$> ev_count t' else None
  | [] => None
  end.
Definition ev_parse (t : text) : option (Ev * option nat) :=
  match t with
  | o :: c :: t' =>
      if decide (o = "{"%char) then
        match ev_count t', List.find (fun e => bool_decide (ev_char e = c)) [ev_a; ev_b; ev_c] with Some n, Some e => Some (e, Some n) | _, _ => None end
      else None
  | _ => None
  end.
Lemma ev_count_repeat n : ev_count (repeat "i"%char n ++ ["}"%char]) = Some n.
Proof. induction n as [|n IH]; [done|]. cbn [repeat app]. destruct n; [done|]. cbn [repeat app] in *. cbn [ev_count] in *. by rewrite IH. Qed.

#[local] Instance ev_codec : SessionCodec Ev.
Proof.
  refine {| event_key := ev_key; timestamp := ev_time; envelope_text := ev_text; parse_envelope := ev_parse |}.
  - intros e n. unfold ev_parse, ev_text. rewrite ev_count_repeat. by destruct e.
  - intros e n. unfold ev_text. rewrite !not_elem_of_cons, not_elem_of_app. split_and!; [by destruct e|by destruct e| |by rewrite list_elem_of_singleton].
    intros Hn. apply list_elem_of_In, repeat_spec in Hn. done.
  - by intros [] n.
Defined.

Definition mine : string := "m.jsonl".
Definition theirs : string := "t.jsonl".
Definition line (e : Ev) (n : nat) : text := (ev_text e n ++ [nl])%list.
(** The session appends [ev_c]; another writes [ev_b], the earlier of the two. *)
Definition one_theirs : Dir := [(theirs, line ev_b 1)].
Definition opened := load (E := Ev) mine true [].
Definition wrote := run_session mine (op_append ev_c true written) opened.1 opened.2.
Definition shared : Dir := [(mine, line ev_c 1); (theirs, line ev_b 1)].

Lemma opened_runs : Runs mine [r_open true] opened.1 opened.2.
Proof. apply runs_open. constructor. Qed.
Lemma wrote_runs : Runs mine [r_op (op_append ev_c true written); r_open true] wrote.1 wrote.2.
Proof. apply runs_op, opened_runs. Qed.
Lemma wrote_undamaged : Forall undamaged [r_op (op_append ev_c true written); r_open true].
Proof. repeat constructor. Qed.
Lemma shared_runs : Runs mine [r_others; r_op (op_append ev_c true written); r_open true] shared wrote.2.
Proof.
  eapply runs_others; [apply wrote_runs|]. split_and!; [apply (bool_decide_unpack (NoDup _)); vm_compute; exact I|reflexivity|].
  intros f. change wrote.1 with [(mine, line ev_c 1)]. split.
  - cbn. rewrite list_elem_of_singleton. intros ->. left.
  - unfold file_text. cbn. case_decide; [by exists []|]. apply prefix_nil.
Qed.
Lemma shared_undamaged : Forall undamaged [r_others; r_op (op_append ev_c true written); r_open true].
Proof. constructor; [exact I|apply wrote_undamaged]. Qed.
Lemma shared_consistent : ids_consistent shared.
Proof. intros [] [] _ _; vm_compute; congruence. Qed.

Lemma refresh_is_load_witness :
  let r := refresh mine shared wrote.2 in
  r.2 = [ev_b] /\ events r.1 = [ev_b; ev_c] /\ events r.1 = readMergedEvents shared.
Proof.
  destruct (refresh_is_load mine eq_refl _ shared wrote.2 shared_runs shared_undamaged) as (_ & _ & H & _).
  cbn zeta. split_and!; [vm_compute; reflexivity|vm_compute; reflexivity|]. apply H; [apply shared_consistent|vm_compute; discriminate].
Defined.

Lemma append_is_durable_witness :
  let r := append_event mine ev_a true written wrote.1 wrote.2 in
  r.2 = Ok ev_a /\ shown (file_text mine r.1.1) = (shown (file_text mine wrote.1) ++ [ev_a])%list.
Proof.
  cbn zeta. split; [vm_compute; reflexivity|].
  apply (append_is_durable mine eq_refl _ wrote.1 wrote.2 ev_a true written _ (append_event mine ev_a true written wrote.1 wrote.2).1.2 wrote_runs wrote_undamaged).
  vm_compute. reflexivity.
Defined.

(** A session that opens on another's [ev_b]. *)
Definition joined := load (E := Ev) mine true one_theirs.
Lemma joined_runs : Runs mine [r_open true] joined.1 joined.2.
Proof. apply runs_open. apply (bool_decide_unpack (NoDup _)). vm_compute. exact I. Qed.

(** An append is put at the end of the events, not where its time belongs: a session that has read
    [ev_b] and appends the earlier [ev_a] holds another order than a store opened at that moment, and
    a refresh that admits nothing leaves it so. *)
Theorem own_append_out_of_order :
  let r := run_session mine (op_append ev_a true written) joined.1 joined.2 in
  Runs mine [r_op (op_append ev_a true written); r_open true] r.1 r.2 /\ events r.2 = [ev_b; ev_a] /\ events (refresh mine r.1 r.2).1 = [ev_b; ev_a] /\ events (load mine true r.1).2 = [ev_a; ev_b].
Proof. split_and!; [|vm_compute; reflexivity..]. apply runs_op, joined_runs. Qed.

(** A write that fails part way leaves a torn tail that the next append continues: the append
    succeeds and the session holds the event, but no reader of the stream ever does. *)
Theorem torn_append_loses_next :
  let torn := append_event mine ev_c true (failed 2) opened.1 opened.2 in
  let next := append_event mine ev_a true written torn.1.1 torn.1.2 in
  torn.2 = Err write_failed /\ next.2 = Ok ev_a /\ events next.1.2 = [ev_a] /\ events (load mine true next.1.1).2 = [].
Proof. vm_compute. done. Qed.
End SessionSample.
