(* ===== verification/LeaseCompaction.v ===== *)
(** * Compaction of lease events (src/orchestration/leaseCompaction.ts)

    A lease event is a snapshot of its resource's lease: replay keeps the last one of
    a resource. Compaction keeps that one line per resource and folds into it what
    the dropped ones counted towards their missions' revisions. This file models the
    two passes over a log, the replay of a log of mission events ([MissionStore])
    and lease events ([Ownership]), the digest the command compares, and the file
    protocol of an apply.

    A line is a usable lease event, another event of the log, or a line replay skips.
    An event of a lease type that [parseLease] refuses is an event like another. The
    counts of [payload.collapsed] are whole numbers, as the code writes them. *)

From stdpp Require Import sorting.
From S2P Require Import Prelude JsMap EventStore Ownership MissionStore MissionReplay SessionStore.

Open Scope string_scope.
Open Scope nat_scope.

(** ** Lines *)

Notation counts := (@jsmap string nat).

Record LeaseRecord := mkLeaseRecord {
  lr_event_id : string;
  lr_timestamp : string;
  lr_transition : LeaseTransition;
  lr_identity : OwnershipIdentity;
  lr_run_id : option string;
  lr_collapsed : option counts
}.

Inductive Line :=
  | lease_line (l : LeaseRecord)
  | event_line (e : OrchestrationEvent)
  | skipped_line.

Definition resource (i : OwnershipIdentity) : string := match i with of_mission l => missionId l | of_repository r => repoId r end.
Definition lease_key (l : LeaseRecord) : string :=
  match lr_identity l with of_mission _ => "mission:" | of_repository _ => "repository:" end ++ resource (lr_identity l).
Definition parseLease (line : Line) : option LeaseRecord := match line with lease_line l => Some l | _ => None end.

(** ** Replay *)

Record Replayed := mkReplayed { rp_store : MissionStore.Store; rp_leases : Ownership.Store }.
Definition no_leases : Ownership.Store := Ownership.mkStore [] [] [] [] [] [] [] [].
Definition fresh_replay : Replayed := mkReplayed empty_store no_leases.

(** [fromStored(e).mission_id]: a lease event carries no [payload.mission_id]. *)
Definition lease_mission (l : LeaseRecord) : string := nullish (lr_run_id l) "".

Definition advance_collapsed (c : counts) (s : MissionStore.Store) : MissionStore.Store :=
  foldl (fun s p => Nat.iter p.2 (advanceMissionRevision p.1) s) s c.

Definition apply_lease (l : LeaseRecord) (r : Replayed) : Replayed :=
  mkReplayed (advanceMissionRevision (lease_mission l) (advance_collapsed (default [] (lr_collapsed l)) (rp_store r)))
    (put_lease (lr_transition l) (lr_identity l) (rp_leases r)).

Definition replay_line (r : Replayed) (line : Line) : Replayed :=
  match line with
  | lease_line l => apply_lease l r
  | event_line e => mkReplayed (MissionStore.apply e (rp_store r)) (rp_leases r)
  | skipped_line => r
  end.
Definition replay (lines : list Line) : Replayed := foldl replay_line fresh_replay lines.

(** [stateDigest()]: every map by its sorted entries. *)
Definition entries_le {V} (a b : string * V) : bool := negb (String.ltb b.1 a.1).
Definition sorted_entries {V} (m : @jsmap string V) : @jsmap string V := js_sort entries_le m.

Definition digest_leases (s : Ownership.Store) : Ownership.Store :=
  Ownership.mkStore (Ownership.missions s) (sorted_entries (missionLeases s)) (sorted_entries (repositoryLeases s))
    (sorted_entries (missionLeaseEpochs s)) (sorted_entries (repositoryLeaseEpochs s))
    (Ownership.missionResumptions s) (Ownership.st_log s) (Ownership.st_invalidated s).
Definition digest_missions (s : MissionStore.Store) : MissionStore.Store :=
  on_missions sorted_entries (on_canonicalRecords sorted_entries (on_tasks sorted_entries (on_repositoryWaits sorted_entries
    (on_executions sorted_entries (on_findings sorted_entries (on_failureClassifications sorted_entries
    (on_recoveryDecisions sorted_entries (on_taskSupersessions sorted_entries
    (on_authoritativeExecutionStartOrder sorted_entries (on_executionRejectionReasons sorted_entries s)))))))))).
Definition stateDigest (r : Replayed) : Replayed := mkReplayed (digest_missions (rp_store r)) (digest_leases (rp_leases r)).
Definition streamDigest (lines : list Line) : Replayed := stateDigest (replay lines).

(** ** The two passes *)

Definition count (m : string) (c : counts) : nat := default 0 (map_get m c).
Definition add_counts (c debt : counts) : counts := foldl (fun acc p => map_set p.1 (count p.1 acc + p.2) acc) c debt.

Definition lease_share (l : LeaseRecord) : counts :=
  let share := default [] (lr_collapsed l) in
  match lr_run_id l with
  | Some m => if truthy m then map_set m (count m share + 1) share else share
  | None => share
  end.

Record Pass1 := mkPass1 {
  lastLine : @jsmap string nat;
  lastShare : @jsmap string counts;
  owed : @jsmap string counts;
  linesBefore : nat;
  leaseEventsBefore : nat
}.

(** [linesBefore] is the index of the line as well. *)
Definition pass1_line (p : Pass1) (line : Line) : Pass1 :=
  match parseLease line with
  | Some l =>
      let k := lease_key l in
      mkPass1 (map_set k (linesBefore p) (lastLine p)) (map_set k (lease_share l) (lastShare p))
        (match map_get k (lastShare p) with
         | Some superseded => map_set k (add_counts (default [] (map_get k (owed p))) superseded) (owed p)
         | None => owed p
         end)
        (S (linesBefore p)) (S (leaseEventsBefore p))
  | None => mkPass1 (lastLine p) (lastShare p) (owed p) (S (linesBefore p)) (leaseEventsBefore p)
  end.
Definition pass1 (lines : list Line) : Pass1 := foldl pass1_line (mkPass1 [] [] [] 0 0) lines.

Definition with_collapsed (c : counts) (l : LeaseRecord) : LeaseRecord :=
  mkLeaseRecord (lr_event_id l) (lr_timestamp l) (lr_transition l) (lr_identity l) (lr_run_id l) (Some c).
Definition settle (p : Pass1) (l : LeaseRecord) : LeaseRecord :=
  match map_get (lease_key l) (owed p) with
  | Some debt => if 0 <? length debt then with_collapsed (add_counts (default [] (lr_collapsed l)) debt) l else l
  | None => l
  end.

(** What the second pass writes for the line at [index]. *)
Definition rewrite_line (p : Pass1) (index : nat) (line : Line) : option Line :=
  match parseLease line with
  | Some l => if bool_decide (map_get (lease_key l) (lastLine p) = Some index) then Some (lease_line (settle p l)) else None
  | None => Some line
  end.
Fixpoint pass2 (p : Pass1) (index : nat) (lines : list Line) : list Line :=
  match lines with
  | [] => []
  | line :: rest => match rewrite_line p index line with Some l => l :: pass2 p (S index) rest | None => pass2 p (S index) rest end
  end.
Definition compact (lines : list Line) : list Line := pass2 (pass1 lines) 0 lines.

(** ** Counting *)

Definition leases (lines : list Line) : list LeaseRecord := omap parseLease lines.
Definition events_of (lines : list Line) : list OrchestrationEvent := omap (fun l => match l with event_line e => Some e | _ => None end) lines.
Definition leases_of (k : string) (lines : list Line) : list LeaseRecord := filter (fun l => lease_key l = k) (leases lines).
(** What the lease events count for a mission. *)
Definition share_of (m : string) (l : LeaseRecord) : nat := count m (lease_share l).
Definition total (m : string) (ls : list LeaseRecord) : nat := sum_list_with (share_of m) ls.

Lemma count_map_set m k n c : count m (map_set k n c) = if decide (k = m) then n else count m c.
Proof. unfold count. rewrite map_get_set. by case_decide. Qed.

Lemma count_add m c debt : map_ok debt -> count m (add_counts c debt) = count m c + count m debt.
Proof.
  revert c. unfold add_counts, map_ok. induction debt as [|[k n] debt IH]; intros c Hok; cbn [foldl]; [cbn; lia|].
  apply NoDup_cons in Hok as [Hk Hok]. change (k ∉ map_keys debt) in Hk. apply map_get_none in Hk. rewrite IH, count_map_set by done.
  unfold count. cbn [map_get fst snd]. destruct (decide (k = m)) as [->|].
  - rewrite decide_True, Hk by done. cbn. lia.
  - by rewrite decide_False by congruence.
Qed.

Lemma add_counts_ok c debt : map_ok c -> map_ok (add_counts c debt).
Proof. unfold add_counts. revert c. induction debt as [|p debt IH]; intros c Hok; [done|]. cbn. apply IH. by apply map_set_ok. Qed.

(** A record's counts name a mission once. *)
Definition collapsed_ok (l : LeaseRecord) : Prop := map_ok (default [] (lr_collapsed l)).
Lemma share_ok l : collapsed_ok l -> map_ok (lease_share l).
Proof. intros H. unfold lease_share. repeat case_match; try done. by apply map_set_ok. Qed.

Definition runs_for (m : string) (l : LeaseRecord) : nat := if bool_decide (lr_run_id l = Some m) && truthy m then 1 else 0.
Lemma share_of_eq m l : share_of m l = count m (default [] (lr_collapsed l)) + runs_for m l.
Proof.
  unfold share_of, lease_share, runs_for. destruct (lr_run_id l) as [r|]; [|rewrite bool_decide_false by done; cbn; lia].
  destruct (truthy r) eqn:Et.
  - rewrite count_map_set. case_decide; [subst; rewrite bool_decide_true by done; rewrite Et; cbn; lia|]. rewrite bool_decide_false by congruence. cbn. lia.
  - destruct (decide (r = m)) as [->|]; [rewrite Et, andb_false_r; lia|]. rewrite bool_decide_false by congruence. cbn. lia.
Qed.

Lemma leases_of_snoc k lines line : leases_of k (lines ++ [line]) =
  (leases_of k lines ++ match parseLease line with Some l => if decide (lease_key l = k) then [l] else [] | None => [] end)%list.
Proof.
  unfold leases_of, leases. rewrite omap_app, filter_app. f_equal. cbn. destruct (parseLease line) as [l|]; cbn; [|done]. by repeat case_decide.
Qed.
Lemma leases_of_elem k l lines : l ∈ leases_of k lines <-> lease_key l = k /\ lease_line l ∈ lines.
Proof.
  unfold leases_of, leases. rewrite list_elem_of_filter, list_elem_of_omap. split.
  - intros [Hk (x & Hx & Hp)]. split; [done|]. destruct x; try done. by injection Hp as ->.
  - intros [Hk Hx]. split; [done|]. by exists (lease_line l).
Qed.

Lemma total_app m a b : total m (a ++ b) = total m a + total m b.
Proof. unfold total. by rewrite sum_list_with_app. Qed.

(** The line at [i] is the last one of its resource. *)
Definition is_last (k : string) (i : nat) (lines : list Line) : Prop :=
  (exists l, lines !! i = Some (lease_line l) /\ lease_key l = k) /\
  forall j l, lines !! j = Some (lease_line l) -> lease_key l = k -> j <= i.

Lemma is_last_snoc k i lines line : is_last k i (lines ++ [line]) <->
  match parseLease line with
  | Some l => if decide (lease_key l = k) then i = length lines else is_last k i lines
  | None => is_last k i lines
  end.
Proof.
  assert (Hnew : forall l, line = lease_line l -> lease_key l = k -> is_last k i (lines ++ [line]) <-> i = length lines).
  { intros l -> Hk. split.
    - intros [(l0 & Hi & _) Hmax]. assert (length lines <= i) by (apply (Hmax (length lines) l); [apply list_lookup_middle; done|done]).
      apply lookup_lt_Some in Hi. rewrite length_app in Hi. cbn in Hi. lia.
    - intros ->. split; [exists l; split; [by apply list_lookup_middle|done]|]. intros j l' Hj _. apply lookup_lt_Some in Hj. rewrite length_app in Hj. cbn in Hj. lia. }
  assert (Hold : (forall l, line = lease_line l -> lease_key l <> k) -> is_last k i (lines ++ [line]) <-> is_last k i lines).
  { intros Hne. assert (Hl : forall j l, lease_key l = k -> (lines ++ [line])%list !! j = Some (lease_line l) <-> lines !! j = Some (lease_line l)).
    { intros j l Hk. split; [|apply lookup_app_l_Some]. intros [Hj|[Hj Hx]]%lookup_app_Some; [done|]. destruct (j - length lines) as [|q]; [|done].
      injection Hx as Hx. by destruct (Hne l Hx). }
    unfold is_last. split; (intros [(l & Hi & Hk) Hmax]; split; [exists l; split; [by apply Hl|done]|]); intros j l' Hj Hk'; eapply Hmax; eauto; by apply Hl. }
  destruct line as [l|e|]; cbn; [|by apply Hold..]. case_decide as Hk; [by apply Hnew with l|]. apply Hold. by intros l' [= <-].
Qed.

Record Pass1Ok (lines : list Line) (p : Pass1) : Prop := mkPass1Ok {
  P_lines : linesBefore p = length lines;
  P_last : forall k i, map_get k (lastLine p) = Some i <-> is_last k i lines;
  P_share : forall k, map_get k (lastShare p) = lease_share <$> last (leases_of k lines);
  P_owed : forall k m, count m (default [] (map_get k (owed p))) + from_option (share_of m) 0 (last (leases_of k lines)) = total m (leases_of k lines);
  P_ok : forall k c, map_get k (owed p) = Some c -> map_ok c;
  P_once : forall k, length (leases_of k lines) <= 1 -> map_get k (owed p) = None
}.

Definition counts_ok (lines : list Line) : Prop := Forall collapsed_ok (leases lines).

Lemma pass1_ok lines : counts_ok lines -> Pass1Ok lines (pass1 lines).
Proof.
  induction lines as [|line lines IH] using rev_ind; intros Hok.
  - split; try done. intros k i. split; [done|]. by intros [(l & Hl & _) _].
  - unfold counts_ok, leases in Hok. rewrite omap_app in Hok. apply Forall_app in Hok as [Hok _]. destruct (IH Hok) as [H1 H2 H3 H4 H5 H6].
    unfold pass1. rewrite foldl_app. cbn [foldl]. fold (pass1 lines). set (p := pass1 lines) in *. unfold pass1_line.
    destruct (parseLease line) as [l|] eqn:El.
    2: { split; cbn [lastLine lastShare owed linesBefore]; [rewrite H1, length_app; cbn; lia|..].
         all: intros k; rewrite ?leases_of_snoc, ?El, ?app_nil_r; try by eauto. intros i. rewrite is_last_snoc, El. apply H2. }
    assert (Hshare : forall k c, map_get k (lastShare p) = Some c -> map_ok c).
    { intros k c. rewrite H3. intros (l0 & Hl0 & ->)%fmap_Some. apply share_ok. apply last_Some_elem_of, leases_of_elem in Hl0 as [_ Hl0].
      rewrite Forall_forall in Hok. apply Hok. apply list_elem_of_omap. by exists (lease_line l0). }
    split; cbn [lastLine lastShare owed linesBefore]; [rewrite H1, length_app; cbn; lia|..].
    + intros k i. rewrite is_last_snoc, El, map_get_set, H1. case_decide; [split; congruence|apply H2].
    + intros k. rewrite leases_of_snoc, El, map_get_set. case_decide; [by rewrite last_snoc|by rewrite app_nil_r].
    + intros k m. rewrite leases_of_snoc, El. destruct (decide (lease_key l = k)) as [<-|Hne].
      * rewrite last_snoc, total_app. pose proof (H3 (lease_key l)) as Hs. pose proof (H4 (lease_key l) m) as Ho.
        destruct (last (leases_of (lease_key l) lines)) as [l0|]; cbn in Hs; rewrite Hs.
        -- rewrite map_get_set_eq. cbn [from_option Datatypes.id] in *. rewrite count_add by (by eapply Hshare). fold (share_of m l0). cbn. lia.
        -- cbn in *. lia.
      * rewrite app_nil_r, <- H4. do 3 f_equal. destruct (map_get (lease_key l) (lastShare p)); [by rewrite map_get_set_ne|done].
    + intros k c. destruct (map_get (lease_key l) (lastShare p)) as [sh|]; [|apply H5]. rewrite map_get_set. case_decide; [|apply H5].
      intros [= <-]. apply add_counts_ok. destruct (map_get (lease_key l) (owed p)) eqn:G; [by eapply H5|constructor].
    + intros k. rewrite leases_of_snoc, El, length_app. intros Hlen. destruct (map_get (lease_key l) (lastShare p)) as [sh|] eqn:Es; [|apply H6; lia].
      rewrite H3 in Es. apply fmap_Some in Es as (l0 & Hl0 & _). rewrite map_get_set. case_decide as Hk; [|apply H6; cbn in Hlen; lia].
      subst k. destruct (leases_of (lease_key l) lines); [done|]. cbn in Hlen. lia.
Qed.

Lemma settle_key p l : lease_key (settle p l) = lease_key l.
Proof. unfold settle. by repeat case_match. Qed.
Lemma settle_identity p l : lr_identity (settle p l) = lr_identity l /\ lr_transition (settle p l) = lr_transition l.
Proof. unfold settle. by repeat case_match. Qed.

(** The line that is kept counts for all of its resource. *)
Lemma settle_share lines p k l m : Pass1Ok lines p -> last (leases_of k lines) = Some l -> share_of m (settle p l) = total m (leases_of k lines).
Proof.
  intros HP Hl. rewrite <- (P_owed _ _ HP), Hl. cbn [from_option]. assert (Hk : lease_key l = k) by (by apply last_Some_elem_of, leases_of_elem in Hl as [? _]).
  unfold settle. rewrite Hk. destruct (map_get k (owed p)) as [debt|] eqn:G; cbn [from_option Datatypes.id]; [|done].
  pose proof (P_ok _ _ HP _ _ G) as Hok. destruct (Nat.ltb_spec 0 (length debt)).
  - rewrite !share_of_eq. unfold runs_for. cbn [lr_collapsed with_collapsed lr_run_id from_option Datatypes.id]. rewrite count_add by done. lia.
  - assert (debt = []) as -> by (apply length_zero_iff_nil; lia). done.
Qed.

(** *** Which lines are kept *)

Lemma pass2_app p i a b : pass2 p i (a ++ b) = (pass2 p i a ++ pass2 p (i + length a) b)%list.
Proof.
  revert i. induction a as [|x a IH]; intros i; cbn; [by rewrite Nat.add_0_r|]. rewrite IH, Nat.add_succ_r. by destruct (rewrite_line p i x).
Qed.

Lemma leases_of_app k a b : leases_of k (a ++ b) = (leases_of k a ++ leases_of k b)%list.
Proof. unfold leases_of, leases. by rewrite omap_app, filter_app. Qed.

Lemma pass2_none p i k ls : (forall j l, ls !! j = Some (lease_line l) -> lease_key l = k -> map_get k (lastLine p) <> Some (i + j)) ->
  leases_of k (pass2 p i ls) = [].
Proof.
  revert i. induction ls as [|x ls IH]; intros i Hno; [done|]. assert (Hrest : leases_of k (pass2 p (S i) ls) = []).
  { apply IH. intros j l Hj Hk. replace (S i + j) with (i + S j) by lia. by apply (Hno (S j) l). }
  cbn. unfold rewrite_line. destruct x as [l|e|]; cbn; try done. case_bool_decide as Hl; [|done].
  change (leases_of k ([lease_line (settle p l)] ++ pass2 p (S i) ls) = []). rewrite leases_of_app, Hrest. unfold leases_of. cbn. rewrite settle_key.
  case_decide as Hk; [|done]. destruct (Hno 0 l eq_refl Hk). rewrite Nat.add_0_r. congruence.
Qed.

(** A resource's last lease event splits the log. *)
Lemma last_lease_split k lines l : last (leases_of k lines) = Some l ->
  exists a b, lines = (a ++ lease_line l :: b)%list /\ lease_key l = k /\ leases_of k b = [].
Proof.
  induction lines as [|x lines IH] using rev_ind; [done|]. rewrite leases_of_snoc. intros Hl.
  destruct x as [l0|e|]; cbn in Hl; [case_decide as Hk|..].
  - rewrite last_snoc in Hl. injection Hl as <-. by exists lines, [].
  - rewrite app_nil_r in Hl. destruct (IH Hl) as (a & b & -> & H1 & H2). exists a, (b ++ [lease_line l0])%list. rewrite <- app_assoc. split_and!; [done..|].
    rewrite leases_of_snoc, H2. cbn. by case_decide.
  - rewrite app_nil_r in Hl. destruct (IH Hl) as (a & b & -> & H1 & H2). exists a, (b ++ [event_line e])%list. rewrite <- app_assoc. split_and!; [done..|].
    by rewrite leases_of_snoc, H2.
  - rewrite app_nil_r in Hl. destruct (IH Hl) as (a & b & -> & H1 & H2). exists a, (b ++ [skipped_line])%list. rewrite <- app_assoc. split_and!; [done..|].
    by rewrite leases_of_snoc, H2.
Qed.

Lemma no_leases_of k b : leases_of k b = [] -> forall l, lease_line l ∈ b -> lease_key l <> k.
Proof. intros Hb l Hl Hk. assert (l ∈ leases_of k b) by (by apply leases_of_elem). rewrite Hb in *. by apply not_elem_of_nil in H. Qed.

Lemma split_is_last k a l b : lease_key l = k -> leases_of k b = [] -> is_last k (length a) (a ++ lease_line l :: b).
Proof.
  intros Hk Hb. split; [exists l; split; [by apply list_lookup_middle|done]|]. intros j l' Hj Hk'. destruct (decide (j <= length a)); [done|].
  rewrite lookup_app_r in Hj by lia. destruct (j - length a) as [|q] eqn:Eq; [lia|]. cbn in Hj. apply list_elem_of_lookup_2 in Hj.
  by destruct (no_leases_of k b Hb l' Hj).
Qed.

(** Of every resource the compacted log has one lease event, its last, which counts for all. *)
Lemma compact_leases_of k lines : counts_ok lines ->
  leases_of k (compact lines) = match last (leases_of k lines) with Some l => [settle (pass1 lines) l] | None => [] end.
Proof.
  intros Hok. pose proof (pass1_ok lines Hok) as HP. unfold compact. set (p := pass1 lines) in *. destruct (last (leases_of k lines)) as [l|] eqn:El.
  - destruct (last_lease_split k lines l El) as (a & b & E & Hk & Hb). assert (Hlast : map_get k (lastLine p) = Some (length a)).
    { apply (P_last _ _ HP). rewrite E. by apply split_is_last. }
    rewrite E, pass2_app, leases_of_app. rewrite (pass2_none p 0 k a).
    + cbn. unfold rewrite_line. cbn. rewrite Hk, bool_decide_true by done.
      change (leases_of k ([lease_line (settle p l)] ++ pass2 p (S (length a)) b) = [settle p l]). rewrite leases_of_app, (pass2_none p (S (length a)) k b).
      * unfold leases_of. cbn. by rewrite settle_key, decide_True.
      * intros j l' Hj Hk'. apply list_elem_of_lookup_2 in Hj. by destruct (no_leases_of k b Hb l' Hj).
    + intros j l' Hj _. rewrite Hlast. apply lookup_lt_Some in Hj. intros [= Heq]. cbn in Heq. lia.
  - apply pass2_none. intros j l Hj Hk. apply last_None in El. apply list_elem_of_lookup_2 in Hj. by destruct (no_leases_of k lines El l Hj).
Qed.

(** *** Totals *)

Lemma sum_one (ks : list string) k n : NoDup ks -> k ∈ ks -> sum_list_with (fun k' => if decide (k = k') then n else 0) ks = n.
Proof.
  assert (Hz : forall ks, k ∉ ks -> sum_list_with (fun k' => if decide (k = k') then n else 0) ks = 0).
  { induction ks0 as [|x l IH]; [done|]. intros [? ?]%not_elem_of_cons. cbn. rewrite decide_False by done. by apply IH. }
  induction 1 as [|x l Hx Hl IH]; [by intros ?%not_elem_of_nil|]. intros [->|Hk]%elem_of_cons; cbn.
  - rewrite decide_True, Hz by done. lia.
  - rewrite decide_False by (by intros ->). by apply IH.
Qed.

Lemma sum_plus {A} (f g : A -> nat) l : sum_list_with (fun x => f x + g x) l = sum_list_with f l + sum_list_with g l.
Proof. induction l as [|x l IH]; cbn; lia. Qed.

Lemma total_by_key m ks ls : NoDup ks -> (forall l, l ∈ ls -> lease_key l ∈ ks) ->
  total m ls = sum_list_with (fun k => total m (filter (fun l => lease_key l = k) ls)) ks.
Proof.
  intros Hnd. induction ls as [|l ls IH]; intros Hin.
  - clear. induction ks as [|k ks IH]; [done|exact IH].
  - transitivity (sum_list_with (fun k => (if decide (lease_key l = k) then share_of m l else 0) + total m (filter (fun l => lease_key l = k) ls)) ks).
    + rewrite sum_plus, sum_one, <- IH; [done|intros; apply Hin; by right|done|apply Hin; left].
    + clear. induction ks as [|k ks IH]; [done|]. cbn [sum_list_with]. rewrite IH. f_equal. rewrite filter_cons. by case_decide.
Qed.

Lemma compact_total m lines : counts_ok lines -> total m (leases (compact lines)) = total m (leases lines).
Proof.
  intros Hok. pose proof (pass1_ok lines Hok) as HP. set (ks := remove_dups (lease_key <$> leases lines)).
  assert (Hks : forall k l, last (leases_of k lines) = Some l -> k ∈ ks).
  { intros k l Hl. unfold ks. apply elem_of_remove_dups, list_elem_of_fmap. apply last_Some_elem_of in Hl. unfold leases_of in Hl.
    apply list_elem_of_filter in Hl as [<- Hl]. eauto. }
  rewrite (total_by_key m ks (leases (compact lines))), (total_by_key m ks (leases lines)).
  - fold (leases_of). clear Hks. induction ks as [|k ks IH]; [done|]. cbn [sum_list_with]. rewrite IH. f_equal. clear IH ks.
    fold (leases_of k (compact lines)) (leases_of k lines). rewrite compact_leases_of by done. destruct (last (leases_of k lines)) as [l|] eqn:El.
    + cbn. rewrite (settle_share lines _ k l m HP El). lia.
    + apply last_None in El. by rewrite El.
  - apply NoDup_remove_dups.
  - intros l Hl. unfold ks. apply elem_of_remove_dups, list_elem_of_fmap. eauto.
  - apply NoDup_remove_dups.
  - intros l Hl. assert (Hc : l ∈ leases_of (lease_key l) (compact lines)) by (by apply list_elem_of_filter).
    rewrite compact_leases_of in Hc by done. destruct (last (leases_of (lease_key l) lines)) eqn:El; [by eapply Hks|by apply not_elem_of_nil in Hc].
Qed.

(** ** Revisions commute with events *)

Notation advance_all := (foldl (fun s m => advanceMissionRevision m s)).

Lemma map_update_get {V} k k' f (m : @jsmap string V) : map_get k' (map_update k f m) = if decide (k = k') then f <$> map_get k m else map_get k' m.
Proof.
  unfold map_update. destruct (map_get k m) eqn:E; [rewrite map_get_set; by case_decide|]. case_decide; [by subst|done].
Qed.
Lemma map_set_comm {V} k k' (v v' : V) (m : @jsmap string V) : k <> k' -> is_Some (map_get k' m) ->
  map_set k v (map_set k' v' m) = map_set k' v' (map_set k v m).
Proof.
  intros Hne. induction m as [|[q w] m IH]; cbn; [by intros []|]. destruct (decide (k = q)), (decide (k' = q)); subst; cbn; intros Hk; try done.
  all: rewrite ?decide_True by done; rewrite ?decide_False by done; rewrite ?decide_True by done; rewrite ?IH; done.
Qed.
Lemma map_update_comm {V} k k' f g (m : @jsmap string V) : (forall v, f (g v) = g (f v)) -> map_update k f (map_update k' g m) = map_update k' g (map_update k f m).
Proof.
  intros Hfg. unfold map_update at 1 3. rewrite !map_update_get. destruct (decide (k = k')) as [<-|Hne].
  - rewrite !decide_True by done. unfold map_update. destruct (map_get k m) as [v|] eqn:E; cbn; [|done]. by rewrite !map_set_set, Hfg.
  - rewrite !decide_False by done. unfold map_update. destruct (map_get k m) as [v|] eqn:E, (map_get k' m) as [v'|] eqn:E'; cbn; try done.
    by apply map_set_comm.
Qed.

Lemma advance_comm a b s : advanceMissionRevision a (advanceMissionRevision b s) = advanceMissionRevision b (advanceMissionRevision a s).
Proof. unfold advanceMissionRevision, MissionStore.on_missions. cbn. f_equal. apply map_update_comm. by intros []. Qed.

Lemma advance_perm ms ms' s : ms ≡ₚ ms' -> advance_all s ms = advance_all s ms'.
Proof.
  intros H. revert s. induction H as [|m ms ms' _ IH|a b ms|a b c _ IH1 _ IH2]; intros s; cbn; [done|apply IH|by rewrite advance_comm|by rewrite IH1].
Qed.

(** Replaying an event reads no revision: unless it creates the mission, the mission's revision may be advanced before or after. *)
Definition creates (e : OrchestrationEvent) : option string := match ev_payload e with mission_created m => Some (m_id m) | _ => None end.

Lemma map_update_set_ne {V} k k' (f : V -> V) v (m : @jsmap string V) : k <> k' ->
  map_update k' f (map_set k v m) = map_set k v (map_update k' f m).
Proof.
  intros Hne. unfold map_update. rewrite map_get_set_ne by done. destruct (map_get k' m) as [w|] eqn:E; [|done]. symmetry. apply map_set_comm; [done|]. eauto.
Qed.

(** A payload that changes a mission it found, by a function that leaves the revision alone. *)
Notation bump := (fun m => with_revision (m_revision m + 1)%Z m).
Lemma bump_changed k k' (g : Mission -> Mission) (m : @jsmap string Mission) v : (forall x, bump (g x) = g (bump x)) -> map_get k m = Some v ->
  map_update k' bump (map_set k (g v) m) = map_update k g (map_update k' bump m) /\
  map_get k (map_update k' bump m) = Some (if decide (k' = k) then bump v else v).
Proof.
  intros Hg Hv. split.
  - replace (map_set k (g v) m) with (map_update k g m) by (unfold map_update; by rewrite Hv). apply map_update_comm, Hg.
  - rewrite map_update_get. case_decide as E; [subst; by rewrite Hv|done].
Qed.

Lemma advance_missions k s : MissionStore.missions (advanceMissionRevision k s) = map_update k bump (MissionStore.missions s).
Proof. done. Qed.
Lemma advance_start k x s : advanceMissionRevision k (recordAuthoritativeExecutionStart x s) = recordAuthoritativeExecutionStart x (advanceMissionRevision k s).
Proof.
  unfold recordAuthoritativeExecutionStart. change (authoritativeExecutionStartOrder (advanceMissionRevision k s)) with (authoritativeExecutionStartOrder s).
  change (tasks (advanceMissionRevision k s)) with (tasks s). by repeat case_match.
Qed.
Lemma advance_canonical k m st l s : advanceMissionRevision k (recordCanonical m st l s) = recordCanonical m st l (advanceMissionRevision k s).
Proof. unfold recordCanonical. by repeat case_match. Qed.
Lemma advance_on_missions k f s : (map_update k bump (f (MissionStore.missions s)) = f (map_update k bump (MissionStore.missions s))) ->
  advanceMissionRevision k (on_missions f s) = on_missions f (advanceMissionRevision k s).
Proof. intros H. unfold advanceMissionRevision, on_missions. cbn. by rewrite H. Qed.

Lemma advance_changed k q (g : Mission -> Mission) s v : (forall x, bump (g x) = g (bump x)) -> map_get q (MissionStore.missions s) = Some v ->
  exists v', map_get q (map_update k bump (MissionStore.missions s)) = Some v' /\
    advanceMissionRevision k (set_mission q (g v) s) = set_mission q (g v') (advanceMissionRevision k s) /\
    m_spec v' = m_spec v /\ m_task_ids v' = m_task_ids v.
Proof.
  intros Hg Hv. destruct (bump_changed q k g (MissionStore.missions s) v Hg Hv) as [H1 H2].
  exists (if decide (k = q) then bump v else v). split_and!; [done| |by case_decide|by case_decide].
  unfold advanceMissionRevision, set_mission, on_missions. cbn. rewrite H1. f_equal. unfold map_update at 1. by rewrite H2.
Qed.

Lemma advance_payload k at_ p s : Keyed s -> (forall m, p = mission_created m -> m_id m <> k) ->
  advanceMissionRevision k (apply_payload at_ p s) = apply_payload at_ p (advanceMissionRevision k s).
Proof.
  intros HK Hnc. destruct p; cbn [apply_payload]; try reflexivity.
  - unfold advanceMissionRevision, set_mission, on_missions. cbn. f_equal. apply map_update_set_ne. by apply Hnc.
  - rewrite advance_missions. destruct (map_get missionId (MissionStore.missions s)) as [v|] eqn:Hv.
    + destruct (advance_changed k missionId (fun m => touched at_ (patched m patch)) s v) as (v' & -> & Ha & _); [by intros []|done|].
      by rewrite advance_canonical, Ha.
    + rewrite map_update_get. case_decide as E; [subst; by rewrite Hv|by rewrite Hv].
  - apply advance_on_missions, map_update_comm. by intros [].
  - apply advance_on_missions, map_update_comm. by intros [].
  - change (MissionStore.missions (set_task t s)) with (MissionStore.missions s).
    change (MissionStore.missions (set_task t (advanceMissionRevision k s))) with (map_update k bump (MissionStore.missions s)).
    destruct (map_get (t_mission t) (MissionStore.missions s)) as [v|] eqn:Hv.
    + destruct (advance_changed k (t_mission t) (with_task (t_id t) (t_created_at (t_spec t))) (set_task t s) v) as (v' & Hv' & Ha & Hs & Ht); [by intros []|done|].
      change (MissionStore.missions (set_task t s)) with (MissionStore.missions s) in Hv'. rewrite Hv', Ht. destruct (js_includes _ _); [done|].
      assert (Hid : m_id v = t_mission t) by (by apply (proj2 (K_missions _ HK)) in Hv). assert (Hid' : m_id v' = t_mission t) by (unfold m_id in *; congruence).
      rewrite Hid, Hid'. exact Ha.
    + rewrite map_update_get. case_decide as E; [subst; by rewrite Hv|by rewrite Hv].
  - by destruct (truthy request).
  - destruct (bool_decide _); [apply advance_start|done].
  - by destruct (Regex.test _ _).
  - change (MissionStore.missions (on_recoveryDecisions (map_set (rd_recoveryId d) d) s)) with (MissionStore.missions s).
    change (MissionStore.missions (on_recoveryDecisions (map_set (rd_recoveryId d) d) (advanceMissionRevision k s))) with (map_update k bump (MissionStore.missions s)).
    destruct mission_patch as [patch|]; [|done]. destruct (map_get (rd_missionId d) (MissionStore.missions s)) as [v|] eqn:Hv.
    + destruct (advance_changed k (rd_missionId d) (fun m => patched m patch) (on_recoveryDecisions (map_set (rd_recoveryId d) d) s) v) as (v' & Hv' & Ha & _); [by intros []|done|].
      change (MissionStore.missions (on_recoveryDecisions (map_set (rd_recoveryId d) d) s)) with (MissionStore.missions s) in Hv'.
      by rewrite Hv', advance_canonical, Ha.
    + rewrite map_update_get. case_decide as E; [subst; by rewrite Hv|by rewrite Hv].
  - destruct selectedModel; [|done]. apply (advance_on_missions k _ (on_missionResumptions _ s)), map_update_comm. by intros [].
Qed.

Lemma advance_apply k e s : Keyed s -> creates e <> Some k -> advanceMissionRevision k (MissionStore.apply e s) = MissionStore.apply e (advanceMissionRevision k s).
Proof.
  intros HK Hc. unfold MissionStore.apply. rewrite <- advance_payload.
  - destruct (counts_as_revision (ev_payload e)); [apply advance_comm|done].
  - done.
  - intros m Hm. unfold creates in Hc. rewrite Hm in Hc. congruence.
Qed.

Lemma Keyed_advance_all ms s : Keyed s -> Keyed (advance_all s ms).
Proof. revert s. induction ms as [|m ms IH]; intros s HK; [done|]. cbn. by apply IH, Keyed_advance. Qed.

Lemma advance_all_apply ms e s : Keyed s -> (forall m, m ∈ ms -> creates e <> Some m) -> MissionStore.apply e (advance_all s ms) = advance_all (MissionStore.apply e s) ms.
Proof.
  revert s. induction ms as [|m ms IH]; intros s HK Hm; [done|]. cbn. rewrite IH; [|by apply Keyed_advance|intros; apply Hm; by right].
  rewrite <- advance_apply; [done|done|]. apply Hm. left.
Qed.

Lemma Keyed_replayEvents es s : Keyed s -> Keyed (replayEvents es s).
Proof. revert s. induction es as [|e es IH]; intros s HK; [done|]. cbn. by apply IH, Keyed_apply. Qed.

(** Only its creation puts a mission in the store. *)
Lemma apply_absent k e s : Keyed s -> creates e <> Some k -> map_get k (MissionStore.missions s) = None -> map_get k (MissionStore.missions (MissionStore.apply e s)) = None.
Proof.
  intros HK Hc Hn. assert (Ha : advanceMissionRevision k s = s).
  { unfold advanceMissionRevision, on_missions, map_update. rewrite Hn. by destruct s. }
  pose proof (advance_apply k e s HK Hc) as H. rewrite Ha in H. apply (f_equal (fun t => map_get k (MissionStore.missions t))) in H.
  rewrite advance_missions, map_update_get, decide_True in H by done. destruct (map_get k (MissionStore.missions (MissionStore.apply e s))) as [v|]; [|done].
  exfalso. cbn in H. injection H as H. apply (f_equal m_revision) in H. cbn in H. lia.
Qed.

(** ** The missions of a replay *)

(** The revisions a lease event counts, one by one. *)
Definition advances (l : LeaseRecord) : list string := (concat (map (fun p => repeat p.1 p.2) (default [] (lr_collapsed l))) ++ [lease_mission l])%list.

Lemma iter_advance n m s : Nat.iter n (advanceMissionRevision m) s = advance_all s (repeat m n).
Proof.
  revert s. induction n as [|n IH]; intros s; [done|]. change (Nat.iter (S n) (advanceMissionRevision m) s) with (advanceMissionRevision m (Nat.iter n (advanceMissionRevision m) s)).
  rewrite IH. cbn [repeat foldl]. generalize (repeat m n). intros ms. revert s. induction ms as [|x ms IHm]; intros s; [done|].
  cbn. by rewrite IHm, (advance_comm x).
Qed.
Lemma apply_lease_store l r : rp_store (apply_lease l r) = advance_all (rp_store r) (advances l).
Proof.
  unfold apply_lease, advances. cbn. rewrite foldl_app. cbn. f_equal. unfold advance_collapsed. generalize (default [] (lr_collapsed l)), (rp_store r). intros c.
  induction c as [|[m n] c IH]; intros s; [done|]. cbn. by rewrite foldl_app, <- iter_advance, IH.
Qed.

Lemma count_repeat m k n : count_occ String.string_dec (repeat k n) m = if decide (k = m) then n else 0.
Proof. case_decide; [subst; by apply count_occ_repeat_eq|by apply count_occ_repeat_neq]. Qed.

Lemma advances_count m l : m <> "" -> collapsed_ok l -> count_occ String.string_dec (advances l) m = share_of m l.
Proof.
  intros Hm Hok. rewrite share_of_eq. unfold advances. rewrite count_occ_app. f_equal.
  - unfold collapsed_ok, map_ok in Hok. induction (default [] (lr_collapsed l)) as [|[k n] c IH]; [done|]. cbn in *. apply NoDup_cons in Hok as [Hk Hok].
    rewrite count_occ_app, IH, count_repeat by done. unfold count. cbn. change (k ∉ map_keys c) in Hk. apply map_get_none in Hk. destruct (decide (k = m)) as [->|].
    + rewrite decide_True, Hk by done. cbn. lia.
    + by rewrite decide_False by congruence.
  - unfold runs_for, lease_mission. assert (Ht : truthy m = true) by (unfold truthy; by rewrite bool_decide_false).
    rewrite Ht, andb_true_r. change [nullish (lr_run_id l) ""] with (repeat (nullish (lr_run_id l) "") 1). rewrite count_repeat.
    destruct (lr_run_id l) as [r|]; cbn [nullish from_option Datatypes.id]; case_decide; first [rewrite bool_decide_true by congruence; done|rewrite bool_decide_false by congruence; done|congruence].
Qed.

(** No mission is created after a lease event that counts for it, and none has an empty id. *)
Definition created_first (lines : list Line) : Prop :=
  forall pre e post m, lines = (pre ++ event_line e :: post)%list -> creates e = Some m -> m <> "" /\ total m (leases pre) = 0.

Lemma created_first_prefix a b : created_first (a ++ b) -> created_first a.
Proof. intros H pre e post m -> Hc. apply (H pre e (post ++ b)%list); [by rewrite <- app_assoc|done]. Qed.

Definition all_advances (lines : list Line) : list string := concat (map advances (leases lines)).
Lemma all_advances_count m lines : m <> "" -> counts_ok lines -> count_occ String.string_dec (all_advances lines) m = total m (leases lines).
Proof.
  intros Hm. unfold all_advances, counts_ok. induction 1 as [|l ls Hl _ IH]; [done|]. cbn. by rewrite count_occ_app, IH, advances_count.
Qed.

Lemma leases_snoc lines line : leases (lines ++ [line]) = (leases lines ++ match parseLease line with Some l => [l] | None => [] end)%list.
Proof. unfold leases. rewrite omap_app. by destruct line. Qed.

Lemma replay_missions lines : counts_ok lines -> created_first lines ->
  rp_store (replay lines) = advance_all (replayEvents (events_of lines) empty_store) (all_advances lines).
Proof.
  induction lines as [|line lines IH] using rev_ind; intros Hok Hc; [done|].
  assert (Hok' : counts_ok lines) by (unfold counts_ok in *; rewrite leases_snoc in Hok; by apply Forall_app in Hok as [? _]).
  specialize (IH Hok' (created_first_prefix _ _ Hc)). unfold replay in *. rewrite foldl_app. cbn [foldl]. set (r := foldl replay_line fresh_replay lines) in *.
  unfold all_advances, events_of. rewrite leases_snoc, omap_app, map_app, concat_app. destruct line as [l|e|]; cbn [replay_line parseLease].
  - rewrite apply_lease_store, IH. cbn. by rewrite !app_nil_r, foldl_app.
  - cbn. rewrite app_nil_r, IH. unfold replayEvents. rewrite foldl_app. cbn. apply advance_all_apply; [apply Keyed_replayEvents, Keyed_empty|].
    intros m Hm Hce. destruct (Hc lines e [] m eq_refl Hce) as [Hne Ht]. rewrite <- all_advances_count in Ht by done.
    apply count_occ_not_In in Ht. by apply Ht, list_elem_of_In.
  - cbn. by rewrite !app_nil_r.
Qed.

Lemma replay_no_empty lines : created_first lines -> map_get "" (MissionStore.missions (replayEvents (events_of lines) empty_store)) = None.
Proof.
  induction lines as [|line lines IH] using rev_ind; intros Hc; [done|]. specialize (IH (created_first_prefix _ _ Hc)).
  unfold events_of, replayEvents. rewrite omap_app, foldl_app. destruct line as [l|e|]; cbn; try exact IH. apply apply_absent; [apply Keyed_replayEvents, Keyed_empty| |exact IH].
  intros He. by destruct (Hc lines e [] "" eq_refl He).
Qed.

(** Counts for a mission that does not exist are of no account. *)
Lemma advance_absent k ms s : map_get k (MissionStore.missions s) = None -> advance_all s ms = advance_all s (filter (fun m => m <> k) ms).
Proof.
  revert s. induction ms as [|m ms IH]; intros s Hk; [done|]. cbn [foldl]. rewrite filter_cons. case_decide as E.
  - cbn. apply IH. rewrite advance_missions, map_update_get, decide_False by done. done.
  - subst. rewrite <- IH.
    + f_equal. unfold advanceMissionRevision, on_missions, map_update. rewrite Hk. by destruct s.
    + exact Hk.
Qed.

Lemma same_missions a b : counts_ok a -> counts_ok b -> created_first a -> created_first b ->
  events_of a = events_of b -> (forall m, m <> "" -> total m (leases a) = total m (leases b)) -> rp_store (replay a) = rp_store (replay b).
Proof.
  intros Ha Hb Ca Cb He Ht. rewrite !replay_missions by done. pose proof (replay_no_empty b Cb) as Hn. rewrite He.
  rewrite (advance_absent "" (all_advances a)), (advance_absent "" (all_advances b)) by done. apply advance_perm.
  apply (Permutation_count_occ String.string_dec). intros m.
  assert (Hf : forall l, count_occ String.string_dec (filter (fun x => x <> "") l) m = if decide (m = "") then 0 else count_occ String.string_dec l m).
  { clear. induction l as [|x l IH]; [by case_decide|]. rewrite filter_cons. destruct (decide (x <> "")) as [E|E]; cbn.
    - rewrite IH. destruct (String.string_dec x m); case_decide; try done. congruence.
    - apply dec_stable in E. subst. rewrite IH. destruct (String.string_dec "" m); case_decide; congruence. }
  rewrite !Hf. case_decide; [done|]. rewrite !all_advances_count by done. by apply Ht.
Qed.

(** ** The leases of a replay *)

(** What the tables hold of a resource: whether it is held, and its last epoch. *)
Definition mission_row (x : string) (s : Ownership.Store) : option MissionLease * option MissionLease := (map_get x (missionLeases s), map_get x (missionLeaseEpochs s)).
Definition repository_row (x : string) (s : Ownership.Store) : option RepositoryLease * option RepositoryLease :=
  (map_get x (repositoryLeases s), map_get x (repositoryLeaseEpochs s)).
Definition tables_ok (s : Ownership.Store) : Prop :=
  map_ok (missionLeases s) /\ map_ok (repositoryLeases s) /\ map_ok (missionLeaseEpochs s) /\ map_ok (repositoryLeaseEpochs s).

Lemma put_lease_ok t i s : tables_ok s -> tables_ok (put_lease t i s).
Proof. intros (H1 & H2 & H3 & H4). unfold tables_ok. destruct i; cbn; destruct (ends t); split_and!; auto with pieng. Qed.

Definition row {A} (t : LeaseTransition) (l : A) : option A * option A := (if ends t then None else Some l, Some l).

Lemma mission_row_put x t i s : tables_ok s ->
  mission_row x (put_lease t i s) = match i with of_mission l => if decide (missionId l = x) then row t l else mission_row x s | _ => mission_row x s end.
Proof.
  intros (H1 & _). destruct i as [l|r]; [|done]. unfold mission_row, row. cbn. rewrite map_get_set. destruct (ends t); case_decide as E; subst; rewrite ?map_get_set_eq, ?map_get_delete_eq, ?map_get_set_ne, ?map_get_delete_ne by done; done.
Qed.
Lemma repository_row_put x t i s : tables_ok s ->
  repository_row x (put_lease t i s) = match i with of_repository r => if decide (repoId r = x) then row t r else repository_row x s | _ => repository_row x s end.
Proof.
  intros (_ & H1 & _). destruct i as [l|r]; [done|]. unfold repository_row, row. cbn. rewrite map_get_set. destruct (ends t); case_decide as E; subst; rewrite ?map_get_set_eq, ?map_get_delete_eq, ?map_get_set_ne, ?map_get_delete_ne by done; done.
Qed.

Lemma key_mission x l : lease_key l = "mission:" ++ x <-> exists m, lr_identity l = of_mission m /\ missionId m = x.
Proof.
  unfold lease_key. destruct (lr_identity l) as [m|r]; cbn; split.
  - intros [= E]. eauto.
  - by intros (m' & [= <-] & ->).
  - intros [= E].
  - by intros (m' & [=] & _).
Qed.
Lemma key_repository x l : lease_key l = "repository:" ++ x <-> exists r, lr_identity l = of_repository r /\ repoId r = x.
Proof.
  unfold lease_key. destruct (lr_identity l) as [m|r]; cbn; split.
  - intros [= E].
  - by intros (m' & [=] & _).
  - intros [= E]. eauto.
  - by intros (m' & [= <-] & ->).
Qed.

Lemma replay_tables_ok lines : tables_ok (rp_leases (replay lines)).
Proof.
  unfold replay. induction lines as [|line lines IH] using rev_ind; [split_and!; constructor|]. rewrite foldl_app. destruct line; cbn; [by apply put_lease_ok|done..].
Qed.

Lemma replay_mission_row x lines : mission_row x (rp_leases (replay lines)) =
  match last (leases_of ("mission:" ++ x) lines) with
  | Some l => match lr_identity l with of_mission m => row (lr_transition l) m | _ => (None, None) end
  | None => (None, None)
  end.
Proof.
  induction lines as [|line lines IH] using rev_ind; [done|]. pose proof (replay_tables_ok lines) as Hok.
  unfold replay in *. rewrite foldl_app, leases_of_snoc. destruct line as [l|e|]; cbn [replay_line parseLease foldl]; rewrite ?app_nil_r; try exact IH.
  cbn [apply_lease rp_leases]. rewrite mission_row_put by done. case_decide as Hk.
  - rewrite last_snoc. apply key_mission in Hk as (m & -> & <-). by rewrite decide_True.
  - rewrite app_nil_r, <- IH. destruct (lr_identity l) as [m|r] eqn:Ei; [|done]. rewrite decide_False; [done|]. intros E. apply Hk, key_mission. eauto.
Qed.
Lemma replay_repository_row x lines : repository_row x (rp_leases (replay lines)) =
  match last (leases_of ("repository:" ++ x) lines) with
  | Some l => match lr_identity l with of_repository r => row (lr_transition l) r | _ => (None, None) end
  | None => (None, None)
  end.
Proof.
  induction lines as [|line lines IH] using rev_ind; [done|]. pose proof (replay_tables_ok lines) as Hok.
  unfold replay in *. rewrite foldl_app, leases_of_snoc. destruct line as [l|e|]; cbn [replay_line parseLease foldl]; rewrite ?app_nil_r; try exact IH.
  cbn [apply_lease rp_leases]. rewrite repository_row_put by done. case_decide as Hk.
  - rewrite last_snoc. apply key_repository in Hk as (m & -> & <-). by rewrite decide_True.
  - rewrite app_nil_r, <- IH. destruct (lr_identity l) as [m|r] eqn:Ei; [done|]. rewrite decide_False; [done|]. intros E. apply Hk, key_repository. eauto.
Qed.

(** *** The digest tells tables apart by their entries only *)

Lemma entries_le_total {V} (a b : string * V) : entries_le a b = true \/ entries_le b a = true.
Proof. unfold entries_le. rewrite !negb_true_iff. destruct (String.ltb b.1 a.1) eqn:E; [right|by left]. destruct (String.ltb a.1 b.1) eqn:E2; [|done].
  pose proof (string_ltb_trans _ _ _ E E2) as H. by rewrite string_ltb_irrefl in H. Qed.
Lemma entries_le_trans {V} (a b c : string * V) : entries_le a b = true -> entries_le b c = true -> entries_le a c = true.
Proof. unfold entries_le. rewrite !negb_true_iff. intros H1 H2. by eapply string_nltb_trans. Qed.

Lemma sorted_entries_ext {V} (m m' : @jsmap string V) : map_ok m -> map_ok m' -> (forall k, map_get k m = map_get k m') -> sorted_entries m = sorted_entries m'.
Proof.
  intros H1 H2 Hg. apply (StronglySorted_unique_strong (fun x y => entries_le x y = true)).
  - intros [k v] [k' v']. unfold sorted_entries. rewrite !js_sort_perm. intros Hx Hy. unfold entries_le. cbn. rewrite !negb_true_iff. intros L1 L2.
    assert (k = k') as -> by (by apply string_ltb_total). apply map_elem_get in Hx, Hy; try done. rewrite Hg in Hx. congruence.
  - apply js_sort_sorted; [apply entries_le_total|apply entries_le_trans].
  - apply js_sort_sorted; [apply entries_le_total|apply entries_le_trans].
  - unfold sorted_entries. rewrite !js_sort_perm. apply NoDup_Permutation; [by apply (NoDup_fmap_1 fst)|by apply (NoDup_fmap_1 fst)|].
    intros [k v]. split; intros Hin; apply map_elem_get in Hin; try done; apply map_get_elem; congruence.
Qed.

(** The lease tables come from the last lease event of every resource, and the rest of the lease store is not written. *)
Definition same_effect (a b : LeaseRecord) : Prop := lr_identity a = lr_identity b /\ lr_transition a = lr_transition b.
Lemma replay_lease_rest lines : let s := rp_leases (replay lines) in
  Ownership.missions s = [] /\ Ownership.missionResumptions s = [] /\ Ownership.st_log s = [] /\ Ownership.st_invalidated s = [].
Proof.
  unfold replay. induction lines as [|line lines IH] using rev_ind; [done|]. rewrite foldl_app. destruct line as [l|e|]; cbn; try exact IH.
  by destruct (lr_identity l).
Qed.

Lemma same_leases a b : (forall k, option_Forall2 same_effect (last (leases_of k a)) (last (leases_of k b))) ->
  digest_leases (rp_leases (replay a)) = digest_leases (rp_leases (replay b)).
Proof.
  intros Hl. destruct (replay_tables_ok a) as (A1 & A2 & A3 & A4), (replay_tables_ok b) as (B1 & B2 & B3 & B4).
  destruct (replay_lease_rest a) as (R0 & RA & RB & RC), (replay_lease_rest b) as (R0' & RA' & RB' & RC').
  assert (Hm : forall x, mission_row x (rp_leases (replay a)) = mission_row x (rp_leases (replay b))).
  { intros x. rewrite !replay_mission_row. destruct (Hl ("mission:" ++ x)) as [u v [-> ->]|]; done. }
  assert (Hr : forall x, repository_row x (rp_leases (replay a)) = repository_row x (rp_leases (replay b))).
  { intros x. rewrite !replay_repository_row. destruct (Hl ("repository:" ++ x)) as [u v [-> ->]|]; done. }
  unfold digest_leases. rewrite R0, RA, RB, RC, R0', RA', RB', RC'. f_equal.
  all: apply sorted_entries_ext; try done; intros x; (specialize (Hm x); specialize (Hr x)); unfold mission_row, repository_row in *; congruence.
Qed.

Lemma events_of_cons x l : events_of (x :: l) = match x with event_line e => e :: events_of l | _ => events_of l end.
Proof. by destruct x. Qed.
Lemma leases_elem l lines : l ∈ leases lines <-> lease_line l ∈ lines.
Proof.
  unfold leases. rewrite list_elem_of_omap. split; [|by exists (lease_line l)]. intros ([l'|e|] & Hin & Hl); try done. by injection Hl as ->.
Qed.
Lemma total_zero m ls : total m ls = 0 <-> forall l, l ∈ ls -> share_of m l = 0.
Proof.
  induction ls as [|x ls IH]; [split; [|done]; by intros _ l ?%not_elem_of_nil|]. change (total m (x :: ls)) with (share_of m x + total m ls). split.
  - intros Hz l [->|Hl]%elem_of_cons; [lia|]. apply IH; [lia|done].
  - intros Hz. rewrite (Hz x) by left. apply IH. intros l Hl. apply Hz. by right.
Qed.

(** ** A log among others

    The lines replay sees, in its order: those of the compacted stream carry their
    position in it, those of other streams none. *)

Notation Tagged := (option nat * Line)%type.

Definition own_lines (T : list Tagged) : list (nat * Line) := omap (fun t => (fun i => (i, t.2)) <$> t.1) T.
Definition rewrite_tagged (p : Pass1) (t : Tagged) : option Line := match t.1 with Some i => rewrite_line p i t.2 | None => Some t.2 end.

(** The tagged lines are those of [s], in their order. *)
Definition interleaves (s : list Line) (T : list Tagged) : Prop := own_lines T = imap pair s.

Lemma own_app a b : own_lines (a ++ b) = (own_lines a ++ own_lines b)%list.
Proof. apply omap_app. Qed.
Lemma own_elem i line T : (i, line) ∈ own_lines T <-> (Some i, line) ∈ T.
Proof.
  unfold own_lines. rewrite list_elem_of_omap. split.
  - intros ([[j|] l] & Hin & Ho); cbn in Ho; [|done]. by injection Ho as -> ->.
  - intros Hin. by exists (Some i, line).
Qed.

Lemma omap_app_inv {A B} (f : A -> option B) l u v : omap f l = (u ++ v)%list -> exists a b, l = (a ++ b)%list /\ omap f a = u /\ omap f b = v.
Proof.
  revert u. induction l as [|x l IH]; intros u E; cbn in E.
  - symmetry in E. apply app_nil in E as [-> ->]. by exists [], [].
  - destruct (f x) as [y|] eqn:Ef.
    + destruct u as [|y' u]; cbn in E.
      * exists [], (x :: l). split_and!; [done..|]. cbn. by rewrite Ef.
      * injection E as <- E. destruct (IH u E) as (a & b & -> & <- & <-). exists (x :: a), b. split_and!; [done| |done]. cbn. by rewrite Ef.
    + destruct (IH u E) as (a & b & -> & <- & <-). exists (x :: a), b. split_and!; [done| |done]. cbn. by rewrite Ef.
Qed.
Lemma omap_cons_inv {A B} (f : A -> option B) l y v : omap f l = y :: v -> exists a x b, l = (a ++ x :: b)%list /\ omap f a = [] /\ f x = Some y /\ omap f b = v.
Proof.
  induction l as [|x l IH]; intros E; cbn in E; [done|]. destruct (f x) as [z|] eqn:Ef.
  - injection E as -> E. by exists [], x, l.
  - destruct (IH E) as (a & x' & b & -> & H1 & H2 & H3). exists (x :: a), x', b. split_and!; try done. cbn. by rewrite Ef.
Qed.

Definition other_lines (T : list Tagged) : list Line := omap (fun t => match t.1 with Some _ => None | None => Some t.2 end) T.

Lemma leases_cons x l : leases (x :: l) = match parseLease x with Some r => r :: leases l | None => leases l end.
Proof. by destruct x. Qed.
Lemma total_leases_cons m x l : total m (leases (x :: l)) = from_option (share_of m) 0 (parseLease x) + total m (leases l).
Proof. rewrite leases_cons. by destruct x. Qed.
Lemma total_split m T : total m (leases (map snd T)) = total m (leases (map snd (own_lines T))) + total m (leases (other_lines T)).
Proof.
  induction T as [|[[i|] line] T IH]; [done| |]; cbn [map snd]; rewrite total_leases_cons, IH.
  - change (own_lines ((Some i, line) :: T)) with ((i, line) :: own_lines T). cbn [map snd]. rewrite total_leases_cons.
    change (other_lines ((Some i, line) :: T)) with (other_lines T). lia.
  - change (own_lines ((None, line) :: T)) with (own_lines T). change (other_lines ((None, line) :: T)) with (line :: other_lines T). rewrite total_leases_cons. lia.
Qed.
Lemma total_split_rewritten m q T : total m (leases (omap (rewrite_tagged q) T)) =
  total m (leases (omap (fun x => rewrite_line q x.1 x.2) (own_lines T))) + total m (leases (other_lines T)).
Proof.
  induction T as [|[[i|] line] T IH]; [done| |]; cbn [omap list_omap rewrite_tagged fst snd].
  - change (own_lines ((Some i, line) :: T)) with ((i, line) :: own_lines T). change (other_lines ((Some i, line) :: T)) with (other_lines T).
    cbn [omap list_omap fst snd]. destruct (rewrite_line q i line) as [x|]; [rewrite !total_leases_cons, IH; lia|exact IH].
  - change (own_lines ((None, line) :: T)) with (own_lines T). change (other_lines ((None, line) :: T)) with (line :: other_lines T). rewrite !total_leases_cons, IH. lia.
Qed.
Lemma imap_pair_snd (s : list Line) : map snd (imap pair s) = s.
Proof. change (snd <$> imap pair s = s). apply list_eq. intros i. rewrite list_lookup_fmap, list_lookup_imap. by destruct (s !! i). Qed.
Lemma imap_pair_pass2 q s : omap (fun x => rewrite_line q x.1 x.2) (imap pair s) = pass2 q 0 s.
Proof.
  assert (G : forall i, omap (fun x => rewrite_line q x.1 x.2) (imap (fun j x => (i + j, x)) s) = pass2 q i s); [|exact (G 0)].
  induction s as [|x s IH]; intros i; [done|]. cbn [imap omap list_omap pass2 fst snd]. rewrite Nat.add_0_r.
  replace (imap ((fun j y => (i + j, y)) ∘ S) s) with (imap (fun j y => (S i + j, y)) s) by (apply imap_ext; intros; cbn; f_equal; lia).
  rewrite IH. done.
Qed.

Section Tagged.
Context (s : list Line) (s_ok : counts_ok s) (T : list Tagged) (T_s : interleaves s T).
Notation p := (pass1 s).
Notation before := (map snd T).
Notation after := (omap (rewrite_tagged p) T).

Lemma tagged_at i line : (Some i, line) ∈ T <-> s !! i = Some line.
Proof. rewrite <- own_elem, T_s, elem_of_lookup_imap. split; [intros (j & x & [= -> ->] & ?); done|intros ?; eauto]. Qed.

(** In front of a line of the stream are the lines of the stream before it. *)
Lemma tagged_before a i line b : T = (a ++ (Some i, line) :: b)%list -> forall j x, (Some j, x) ∈ a <-> j < i /\ s !! j = Some x.
Proof.
  intros E. pose proof T_s as H. unfold interleaves in H. rewrite E, own_app in H. change (own_lines ((Some i, line) :: b)) with ((i, line) :: own_lines b) in H.
  assert (Hl : imap pair s !! length (own_lines a) = Some (i, line)) by (rewrite <- H; by apply list_lookup_middle).
  rewrite list_lookup_imap in Hl. apply fmap_Some in Hl as (y & _ & [= -> _]).
  intros j x. rewrite <- own_elem, list_elem_of_lookup. split.
  - intros (q & Hq). pose proof (lookup_lt_Some _ _ _ Hq). apply (lookup_app_l_Some _ ((length (own_lines a), line) :: own_lines b)) in Hq.
    rewrite H, list_lookup_imap in Hq. apply fmap_Some in Hq as (z & Hz & [= -> ->]). done.
  - intros [Hj Hx]. exists j. rewrite <- (lookup_app_l _ ((length (own_lines a), line) :: own_lines b)) by done. by rewrite H, list_lookup_imap, Hx.
Qed.

Lemma rewritten_events : events_of after = events_of before.
Proof.
  clear. generalize p. intros q. induction T as [|[[i|] line] T' IH]; [done| |]; cbn [omap list_omap map snd]; rewrite events_of_cons, <- IH.
  - unfold rewrite_tagged at 1, rewrite_line. cbn. destruct line as [l|e|]; cbn [parseLease]; [case_bool_decide|..]; by rewrite ?events_of_cons.
  - cbn [rewrite_tagged fst snd]. by rewrite events_of_cons.
Qed.

Lemma rewritten_leases_of k (U : list Tagged) : (forall t l, t ∈ U -> t.2 = lease_line l -> lease_key l <> k) -> leases_of k (omap (rewrite_tagged p) U) = [].
Proof.
  intros Hno. destruct (leases_of k (omap (rewrite_tagged p) U)) as [|l ls] eqn:E; [done|]. exfalso.
  assert (Hin : l ∈ leases_of k (omap (rewrite_tagged p) U)) by (rewrite E; left). apply leases_of_elem in Hin as [Hk Hin].
  apply list_elem_of_omap in Hin as ([o line] & Hin & Hr). destruct line as [l0|e|].
  - apply (Hno _ l0 Hin eq_refl). destruct o; unfold rewrite_tagged, rewrite_line in Hr; cbn in Hr; [case_bool_decide; [|done]|].
    + injection Hr as <-. by rewrite settle_key in Hk.
    + by injection Hr as ->.
  - by destruct o.
  - by destruct o.
Qed.

(** The last lease event of a resource is kept, in what it says of the lease. *)
Lemma rewritten_last k : option_Forall2 same_effect (last (leases_of k before)) (last (leases_of k after)).
Proof.
  pose proof (pass1_ok s s_ok) as HP. destruct (last (leases_of k before)) as [l|] eqn:El.
  - destruct (last_lease_split k before l El) as (a & b & E & Hk & Hb). apply map_eq_app in E as (Ta & Tb' & ET & <- & E).
    destruct Tb' as [|[o line] Tb]; [done|]. injection E as -> <-.
    assert (Hno : forall t l', t ∈ Tb -> t.2 = lease_line l' -> lease_key l' <> k).
    { intros t l' Ht Hl. apply (no_leases_of k _ Hb). rewrite <- Hl. by apply list_elem_of_fmap_2. }
    assert (Hr : exists l', rewrite_tagged p (o, lease_line l) = Some (lease_line l') /\ same_effect l l' /\ lease_key l' = k).
    { destruct o as [i|]; [|by exists l]. exists (settle p l). destruct (settle_identity p l) as [H1 H2]. split_and!; [|by split|by rewrite settle_key].
      unfold rewrite_tagged, rewrite_line. cbn. rewrite bool_decide_true; [done|]. rewrite Hk. apply (P_last _ _ HP). split.
      - exists l. split; [|done]. apply tagged_at. rewrite ET. set_solver.
      - intros j l' Hj Hk'. apply tagged_at in Hj. rewrite ET in Hj. apply elem_of_app in Hj as [Hj|[Hj|Hj]%elem_of_cons].
        + apply (tagged_before _ _ _ _ ET) in Hj as [? _]. lia.
        + by injection Hj as -> ->.
        + by destruct (Hno _ l' Hj eq_refl Hk'). }
    destruct Hr as (l' & Hr & He & Hk'). rewrite ET, omap_app, leases_of_app. cbn [omap list_omap]. rewrite Hr.
    change (lease_line l' :: omap (rewrite_tagged p) Tb) with ([lease_line l'] ++ omap (rewrite_tagged p) Tb)%list.
    rewrite leases_of_app, (rewritten_leases_of k Tb Hno), app_nil_r. unfold leases_of at 2. cbn. rewrite decide_True by done.
    rewrite last_snoc. by constructor.
  - apply last_None in El. rewrite (rewritten_leases_of k T); [constructor|]. intros t l Ht Hl. apply (no_leases_of k _ El). rewrite <- Hl. by apply list_elem_of_fmap_2.
Qed.

Lemma rewritten_elem (a : list Tagged) l : lease_line l ∈ omap (rewrite_tagged p) a ->
  exists o l0, (o, lease_line l0) ∈ a /\ match o with Some i => map_get (lease_key l0) (lastLine p) = Some i /\ l = settle p l0 | None => l = l0 end.
Proof.
  intros ([o [l0|e|]] & Hin & Hr)%list_elem_of_omap; unfold rewrite_tagged, rewrite_line in Hr; cbn in Hr; destruct o as [i|]; try done.
  - exists (Some i), l0. case_bool_decide; [|done]. by injection Hr as <-.
  - exists None, l0. by injection Hr as ->.
Qed.

Lemma tagged_snd (a : list Tagged) o line : (o, line) ∈ a -> line ∈ map snd a.
Proof. intros Hin. change line with (o, line).2. by apply list_elem_of_fmap_2. Qed.

Lemma rewritten_counts_ok : counts_ok before -> counts_ok after.
Proof.
  unfold counts_ok. rewrite !Forall_forall. intros Hok l (o & l0 & Hin & Ho)%leases_elem%rewritten_elem.
  assert (H0 : collapsed_ok l0) by (apply Hok, leases_elem; by eapply tagged_snd).
  destruct o as [i|]; [|by subst]. destruct Ho as [_ ->]. unfold settle. destruct (map_get _ (owed p)) as [debt|]; [|done].
  destruct (0 <? length debt); [|done]. unfold collapsed_ok. cbn. by apply add_counts_ok.
Qed.

Lemma last_of_is_last k i l : is_last k i s -> s !! i = Some (lease_line l) -> lease_key l = k -> last (leases_of k s) = Some l.
Proof.
  intros [_ Hmax] Hat Hk. rewrite <- (take_drop_middle s i (lease_line l) Hat), leases_of_app.
  change (lease_line l :: drop (S i) s) with ([lease_line l] ++ drop (S i) s)%list. rewrite leases_of_app.
  assert (leases_of k (drop (S i) s) = []) as ->.
  { destruct (leases_of k (drop (S i) s)) as [|x xs] eqn:Ex; [done|]. assert (Hx : x ∈ leases_of k (drop (S i) s)) by (rewrite Ex; left).
    apply leases_of_elem in Hx as [Hkx Hx]. apply list_elem_of_lookup in Hx as [j Hj]. rewrite lookup_drop in Hj. pose proof (Hmax _ _ Hj Hkx). lia. }
  rewrite app_nil_r. unfold leases_of at 2. cbn. rewrite decide_True by done. by rewrite last_snoc.
Qed.

(** What comes before an event counts for no mission after that it did not count for before. *)
Lemma rewritten_total_zero m (a b : list Tagged) : T = (a ++ b)%list -> total m (leases (map snd a)) = 0 -> total m (leases (omap (rewrite_tagged p) a)) = 0.
Proof.
  intros E. rewrite !total_zero. intros Hz l (o & l0 & Hin & Ho)%leases_elem%rewritten_elem. pose proof (pass1_ok s s_ok) as HP.
  assert (Hall : forall o l, (o, lease_line l) ∈ a -> share_of m l = 0) by (intros o' l' H'; apply Hz, leases_elem; by eapply tagged_snd).
  destruct o as [i|]; [|subst; by eapply Hall]. destruct Ho as [Hlast ->]. apply (P_last _ _ HP) in Hlast.
  assert (Hat : s !! i = Some (lease_line l0)) by (apply tagged_at; rewrite E; set_solver).
  rewrite (settle_share s _ _ l0 m HP (last_of_is_last _ i l0 Hlast Hat eq_refl)). apply total_zero. intros l [Hk Hl]%leases_of_elem.
  apply list_elem_of_lookup in Hl as [j Hj]. pose proof (proj2 Hlast _ _ Hj Hk) as Hle. destruct (decide (j = i)) as [->|Hne].
  - rewrite Hat in Hj. injection Hj as <-. by eapply Hall.
  - apply list_elem_of_split in Hin as (u & v & ->). apply (Hall (Some j)), elem_of_app. left.
    apply (tagged_before u i (lease_line l0) (v ++ b)%list); [by rewrite E, <- app_assoc|]. split; [lia|done].
Qed.

Lemma rewritten_created : created_first before -> created_first after.
Proof.
  intros Hc pre e post m E He. apply omap_app_inv in E as (a & b & ET & <- & Eb). destruct (omap_cons_inv _ _ _ _ Eb) as (b1 & [o line] & b2 & -> & Hn & Hr & _).
  assert (line = event_line e) as ->.
  { unfold rewrite_tagged, rewrite_line in Hr. cbn in Hr. destruct o, line; cbn in Hr; try (by injection Hr as ->); case_bool_decide; done. }
  assert (Ha : omap (rewrite_tagged p) (a ++ b1)%list = omap (rewrite_tagged p) a) by (by rewrite omap_app, Hn, app_nil_r).
  destruct (Hc (map snd (a ++ b1)%list) e (map snd b2) m) as [Hm Hz]; [by rewrite ET, app_assoc, map_app|done|]. split; [done|].
  rewrite <- Ha. eapply (rewritten_total_zero m (a ++ b1)%list); [|done]. rewrite ET, app_assoc. done.
Qed.

Lemma rewritten_total m : total m (leases after) = total m (leases before).
Proof.
  pose proof (compact_total m s s_ok) as Hc. rewrite (total_split_rewritten m p), (total_split m). unfold interleaves in T_s. rewrite T_s.
  rewrite imap_pair_snd, imap_pair_pass2. fold (compact s). lia.
Qed.

(** Rewriting the lines of one stream where they stand leaves the state that replay derives. *)
Lemma rewritten_digest : counts_ok before -> created_first before -> streamDigest after = streamDigest before.
Proof.
  intros Hok Hc. unfold streamDigest, stateDigest. f_equal.
  - f_equal. symmetry. apply same_missions; [done|by apply rewritten_counts_ok|done|by apply rewritten_created|by rewrite rewritten_events|].
    intros m _. by rewrite rewritten_total.
  - symmetry. apply same_leases. apply rewritten_last.
Qed.
End Tagged.

(** ** Compacting one log *)

Definition tag_own (s : list Line) : list Tagged := imap (fun i l => (Some i, l)) s.
Lemma own_tag_own s : own_lines (tag_own s) = imap pair s.
Proof.
  unfold own_lines, tag_own. assert (G : forall i, omap (fun t : Tagged => (fun k => (k, t.2)) <$> t.1) (imap (fun j l => (Some (i + j), l)) s) = imap (fun j l => (i + j, l)) s); [|exact (G 0)].
  induction s as [|x s IH]; intros i; [done|]. cbn [imap omap list_omap fst snd fmap option_fmap option_map]. f_equal.
  rewrite (imap_ext _ (fun j l => (Some (S i + j), l))) by (intros; cbn; do 2 f_equal; lia). rewrite IH. apply imap_ext. intros; cbn. f_equal. lia.
Qed.
Lemma tag_own_snd s : map snd (tag_own s) = s.
Proof. change (snd <$> tag_own s = s). apply list_eq. intros i. unfold tag_own. rewrite list_lookup_fmap, list_lookup_imap. by destruct (s !! i). Qed.
Lemma tag_own_rewritten q s : omap (rewrite_tagged q) (tag_own s) = pass2 q 0 s.
Proof.
  assert (G : forall i, omap (rewrite_tagged q) (imap (fun j x => (Some (i + j), x)) s) = pass2 q i s); [|exact (G 0)].
  induction s as [|x s IH]; intros i; [done|]. cbn [imap omap list_omap pass2 rewrite_tagged fst snd]. rewrite Nat.add_0_r.
  rewrite (imap_ext _ (fun j l => (Some (S i + j), l))) by (intros; cbn; do 2 f_equal; lia). by rewrite IH.
Qed.

(** The leases of a log with one lease event per resource are all kept as they are. *)
Lemma compact_fixed lines : counts_ok lines -> (forall k, length (leases_of k lines) <= 1) -> compact lines = lines.
Proof.
  intros Hok Hone. pose proof (pass1_ok lines Hok) as HP. unfold compact. set (q := pass1 lines) in *.
  assert (G : forall a b, lines = (a ++ b)%list -> pass2 q (length a) b = b); [|exact (G [] lines eq_refl)].
  intros a b. revert a. induction b as [|x b IH]; intros a E; [done|]. cbn [pass2].
  assert (Hrest : pass2 q (S (length a)) b = b).
  { replace (S (length a)) with (length (a ++ [x])%list) by (rewrite length_app; cbn; lia). apply IH. by rewrite <- app_assoc. }
  rewrite Hrest. unfold rewrite_line. destruct x as [l|e|]; cbn [parseLease]; [|done..].
  assert (Hb : leases_of (lease_key l) b = [] /\ leases_of (lease_key l) a = []).
  { specialize (Hone (lease_key l)). rewrite E, leases_of_app in Hone. change (lease_line l :: b) with ([lease_line l] ++ b)%list in Hone.
    rewrite leases_of_app, !length_app in Hone. unfold leases_of at 2 in Hone. cbn in Hone. rewrite decide_True in Hone by done. cbn in Hone.
    split; apply length_zero_iff_nil; lia. }
  rewrite bool_decide_true.
  - unfold settle. by rewrite (P_once _ _ HP _ (Hone (lease_key l))).
  - apply (P_last _ _ HP). rewrite E. apply split_is_last; [done|apply Hb].
Qed.

Lemma compact_counts_ok lines : counts_ok lines -> counts_ok (compact lines).
Proof.
  intros Hok. unfold compact. rewrite <- tag_own_rewritten. apply rewritten_counts_ok. by rewrite tag_own_snd.
Qed.

(** C22: Replaying a compacted log derives the state the original derives, lease tables and mission
    revisions included, when no mission is created after a lease event that counts for it. *)
Theorem compaction_preserves_replay lines : counts_ok lines -> created_first lines -> streamDigest (compact lines) = streamDigest lines.
Proof.
  intros Hok Hc. pose proof (rewritten_digest lines Hok (tag_own lines) (own_tag_own lines)) as H. rewrite tag_own_snd, tag_own_rewritten in H.
  by apply H.
Qed.

(** A compacted log has at most one lease event of a resource, its other lines are those of the
    original, and compacting it again changes nothing. *)
Theorem compaction_is_idempotent lines : counts_ok lines ->
  (forall k, length (leases_of k (compact lines)) <= 1) /\ events_of (compact lines) = events_of lines /\ compact (compact lines) = compact lines.
Proof.
  intros Hok. assert (Hone : forall k, length (leases_of k (compact lines)) <= 1).
  { intros k. rewrite compact_leases_of by done. destruct (last _); cbn; lia. }
  split_and!; [done| |].
  - unfold compact. rewrite <- tag_own_rewritten, rewritten_events, tag_own_snd. done.
  - apply compact_fixed; [by apply compact_counts_ok|done].
Qed.

(** ** Compacting one stream of a namespace *)

Definition line_time (line : Line) : string := match line with lease_line l => lr_timestamp l | event_line e => ev_timestamp e | skipped_line => "" end.
Definition tag_time (t : Tagged) : string := line_time t.2.

Lemma merge_single {E} (time : E -> string) s : mergeStreams time [s] = s.
Proof. induction s as [|e s IH]; rewrite merge_unfold; cbn [take_min fmap option_fmap option_map]; [done|]. by rewrite IH. Qed.
Lemma merge_at {E} (time : E -> string) (ss : list (list E)) i s : ss !! i = Some s -> (forall j x, ss !! j = Some x -> j <> i -> x = []) -> mergeStreams time ss = s.
Proof.
  intros Hi Ho. rewrite <- (merge_single time s). apply merge_nonempty. rewrite <- (take_drop_middle ss i s Hi). unfold nonempty. rewrite filter_app, filter_cons.
  assert (Hnil : forall l : list (list E), (forall x, x ∈ l -> x = []) -> filter (fun s => s <> []) l = []).
  { induction l as [|x l IH]; intros Hl; [done|]. rewrite filter_cons_False; [apply IH; intros; apply Hl; by right|]. intros H. apply H, Hl. left. }
  rewrite (Hnil (take i ss)), (Hnil (drop (S i) ss)).
  - cbn. by case_decide.
  - intros x [j Hj]%list_elem_of_lookup. rewrite lookup_drop in Hj. apply (Ho _ _ Hj). lia.
  - intros x [j Hj]%list_elem_of_lookup. apply lookup_take_Some in Hj as [Hj ?]. apply (Ho _ _ Hj). lia.
Qed.

Section Namespace.
Context (streams : list (list Line)) (i : nat) (s : list Line) (s_at : streams !! i = Some s).

Definition tag_streams : list (list Tagged) := imap (fun j l => if decide (j = i) then tag_own l else map (fun x => (None, x)) l) streams.
Definition tagged_merge : list Tagged := mergeStreams tag_time tag_streams.

Lemma tag_streams_map {B} (f : Tagged -> option B) (g : list Line -> list B) (h : list Line -> list B) :
  (forall l, omap f (tag_own l) = g l) -> (forall l, omap f (map (fun x => (None, x)) l) = h l) ->
  map (omap f) tag_streams = <[i := g s]> (map h streams).
Proof.
  intros Hg Hh. change (omap f <$> tag_streams = <[i := g s]> (h <$> streams)). apply list_eq. intros j. unfold tag_streams.
  rewrite list_lookup_fmap, list_lookup_imap. destruct (decide (j = i)) as [->|Hne].
  - rewrite s_at, list_lookup_insert_eq by (rewrite length_fmap; by eapply lookup_lt_Some). unfold compose. cbn. destruct (decide (i = i)); [cbn; by rewrite Hg|done].
  - rewrite list_lookup_insert_ne by done. rewrite list_lookup_fmap. destruct (streams !! j) as [x|]; [|done]. unfold compose. cbn. destruct (decide (j = i)); [done|cbn; by rewrite Hh].
Qed.

Lemma omap_none {B} (f : Line -> option B) (g : Tagged -> option B) l : (forall x, g (None, x) = f x) -> omap g (map (fun x => (None, x)) l) = omap f l.
Proof. intros Hg. induction l as [|x l IH]; [done|]. cbn [map omap list_omap]. by rewrite Hg, IH. Qed.
Lemma omap_some {A} (l : list A) : omap Some l = l.
Proof. induction l as [|x l IH]; [done|]. cbn. by f_equal. Qed.

Context (streams_ordered : Forall (ordered line_time) streams).
Lemma ordered_tagged (l : list Line) (T : list Tagged) : map snd T = l -> ordered line_time l -> ordered tag_time T.
Proof.
  intros <-. induction T as [|t T IH]; intros Ho; [constructor|]. inversion Ho as [|? ? H1 H2]; subst. constructor; [by apply IH|].
  apply Forall_forall. intros x Hx. apply (proj1 (Forall_forall _ _) H2). by apply list_elem_of_fmap_2.
Qed.
Lemma tag_streams_ordered : Forall (ordered tag_time) tag_streams.
Proof.
  rewrite Forall_lookup. intros j T. unfold tag_streams. rewrite list_lookup_imap. intros (l & Hl & ->)%fmap_Some.
  pose proof (Forall_lookup_1 _ _ _ _ streams_ordered Hl) as Ho. apply (ordered_tagged l); [|done]. case_decide; [apply tag_own_snd|].
  clear. induction l as [|x l IH]; [done|]. cbn. by f_equal.
Qed.

Lemma merged_before : map snd tagged_merge = mergeStreams line_time streams.
Proof.
  assert (E : omap (fun t : Tagged => Some t.2) tagged_merge = map snd tagged_merge).
  { generalize tagged_merge. intros T. induction T as [|t T IH]; [done|]. cbn. by f_equal. }
  rewrite <- E. unfold tagged_merge. rewrite <- (merge_omap tag_time line_time); [|by intros t x [= <-]|apply tag_streams_ordered].
  f_equal. rewrite (tag_streams_map _ (fun l => l) (fun l => l)), map_id, list_insert_id; [done|done| |].
  - intros l. rewrite <- (tag_own_snd l) at 2. generalize (tag_own l). intros T. induction T as [|t T IH]; [done|]. cbn. by f_equal.
  - intros l. rewrite (omap_none Some) by done. apply omap_some.
Qed.

Lemma rewrite_time q t x : rewrite_tagged q t = Some x -> line_time x = tag_time t.
Proof.
  unfold rewrite_tagged, rewrite_line, tag_time. destruct t as [[k|] [l|e|]]; cbn; try by intros [= <-]. case_bool_decide; [|done]. intros [= <-]. cbn.
  unfold settle. by repeat case_match.
Qed.
Lemma merged_after : omap (rewrite_tagged (pass1 s)) tagged_merge = mergeStreams line_time (<[i := compact s]> streams).
Proof.
  unfold tagged_merge. rewrite <- (merge_omap tag_time line_time); [|apply rewrite_time|apply tag_streams_ordered].
  f_equal. rewrite (tag_streams_map _ (pass2 (pass1 s) 0) (fun l => l)), map_id; [done| |].
  - apply tag_own_rewritten.
  - intros l. rewrite (omap_none Some) by done. apply omap_some.
Qed.
Lemma merged_interleaves : interleaves s tagged_merge.
Proof.
  unfold interleaves, own_lines, tagged_merge. rewrite <- (merge_omap tag_time (fun x => line_time x.2)); [| |apply tag_streams_ordered].
  - rewrite (tag_streams_map _ (fun l => imap pair l) (fun _ => [])).
    + apply (merge_at _ _ i); [apply list_lookup_insert_eq; rewrite length_map; by eapply lookup_lt_Some|].
      intros j x. intros Hj Hne. rewrite list_lookup_insert_ne in Hj by done. change (map (fun _ => []) streams) with ((fun _ => @nil (nat * Line)) <$> streams) in Hj.
      rewrite list_lookup_fmap in Hj. by destruct (streams !! j); [injection Hj as <-|].
    + apply own_tag_own.
    + intros l. induction l as [|x l IH]; [done|]. cbn. exact IH.
  - intros [[k|] x] e He; [|done]. by injection He as <-.
Qed.
End Namespace.

(** Compacting one stream where it stands in the merge. *)
Lemma merged_digest streams i s : streams !! i = Some s -> Forall (ordered line_time) streams -> Forall counts_ok streams ->
  created_first (mergeStreams line_time streams) ->
  streamDigest (mergeStreams line_time (<[i := compact s]> streams)) = streamDigest (mergeStreams line_time streams).
Proof.
  intros Hi Ho Hok Hc. rewrite <- (merged_after streams i s Hi Ho). rewrite <- (merged_before streams i s Hi Ho) in Hc |- *.
  apply rewritten_digest; [by eapply Forall_lookup_1|by apply merged_interleaves| |done]. rewrite (merged_before streams i s Hi Ho).
  unfold counts_ok. rewrite Forall_forall. intros l Hl. apply leases_elem in Hl. rewrite merge_perm in Hl. apply list_elem_of_In, in_concat in Hl as (x & Hx & Hl).
  apply list_elem_of_In in Hx, Hl. rewrite Forall_forall in Hok. specialize (Hok x Hx). unfold counts_ok in Hok. rewrite Forall_forall in Hok. by apply Hok, leases_elem.
Qed.

(** *** What a namespace shows

    Readers merge the records of the streams, without the lines that are none, and take an event
    id once ([readMergedEvents] of SessionEventStore.ts). *)
Definition line_id (line : Line) : option string := match line with lease_line l => Some (lr_event_id l) | event_line e => Some (ev_id e) | skipped_line => None end.
Definition is_record (line : Line) : bool := match line with skipped_line => false | _ => true end.
Definition records (lines : list Line) : list Line := js_filter is_record lines.
Fixpoint first_seen (seen : list (option string)) (lines : list Line) : list Line :=
  match lines with
  | [] => []
  | x :: rest => if bool_decide (line_id x ∈ seen) then first_seen seen rest else x :: first_seen (line_id x :: seen) rest
  end.
Definition namespace_order (streams : list (list Line)) : list Line := mergeStreams line_time (map records streams).
Definition readMerged (streams : list (list Line)) : list Line := first_seen [] (namespace_order streams).

Lemma first_seen_id seen lines : NoDup (map line_id lines) -> (forall x, x ∈ lines -> line_id x ∉ seen) -> first_seen seen lines = lines.
Proof.
  revert seen. induction lines as [|x lines IH]; intros seen Hnd Hs; [done|]. cbn in Hnd |- *. apply NoDup_cons in Hnd as [Hx Hnd].
  rewrite bool_decide_false by (apply Hs; left). f_equal. apply IH; [done|]. intros y Hy [E|E]%elem_of_cons; [|by apply (Hs y); [right|]].
  apply Hx. rewrite <- E. by apply list_elem_of_fmap_2.
Qed.
Lemma readMerged_id streams : NoDup (map line_id (namespace_order streams)) -> readMerged streams = namespace_order streams.
Proof. intros Hnd. apply first_seen_id; [done|]. intros x _. apply not_elem_of_nil. Qed.

(** The lines that are no records do not matter to compaction. *)
Lemma leases_records lines : leases (records lines) = leases lines.
Proof.
  induction lines as [|x lines IH]; [done|]. destruct x; cbn [records js_filter is_record]; fold (records lines);
    rewrite ?leases_cons; cbn [parseLease]; by rewrite ?IH.
Qed.
Lemma pass1_records lines : owed (pass1 (records lines)) = owed (pass1 lines) /\ lastShare (pass1 (records lines)) = lastShare (pass1 lines).
Proof.
  induction lines as [|x lines [IH1 IH2]] using rev_ind; [done|]. unfold records, pass1 in *. rewrite js_filter_app, !foldl_app.
  destruct x as [l|e|]; cbn [js_filter is_record foldl]; [|by split..]. generalize dependent (foldl pass1_line (mkPass1 [] [] [] 0 0) (js_filter is_record lines)).
  intros q IH1 IH2. cbn. by rewrite IH1, IH2.
Qed.

(** The second pass without line numbers. *)
Fixpoint settle_last (p : Pass1) (lines : list Line) : list Line :=
  match lines with
  | [] => []
  | x :: rest =>
      match parseLease x with
      | Some l => if bool_decide (leases_of (lease_key l) rest = []) then lease_line (settle p l) :: settle_last p rest else settle_last p rest
      | None => x :: settle_last p rest
      end
  end.
Lemma last_split k a l b : is_last k (length a) (a ++ lease_line l :: b) -> leases_of k b = [].
Proof.
  intros [_ Hmax]. destruct (leases_of k b) as [|l' ls] eqn:E; [done|]. exfalso.
  assert (Hl : l' ∈ leases_of k b) by (rewrite E; left). apply leases_of_elem in Hl as [Hk [j Hj]%list_elem_of_lookup].
  specialize (Hmax (length a + S j) l'). rewrite lookup_app_r in Hmax by lia. replace (length a + S j - length a) with (S j) in Hmax by lia.
  specialize (Hmax Hj Hk). lia.
Qed.
Lemma compact_settle_last lines : counts_ok lines -> compact lines = settle_last (pass1 lines) lines.
Proof.
  intros Hok. pose proof (pass1_ok lines Hok) as HP. unfold compact. set (q := pass1 lines) in *.
  assert (G : forall a b, lines = (a ++ b)%list -> pass2 q (length a) b = settle_last q b); [|exact (G [] lines eq_refl)].
  intros a b. revert a. induction b as [|x b IH]; intros a E; [done|]. cbn [pass2 settle_last].
  assert (Hrest : pass2 q (S (length a)) b = settle_last q b).
  { replace (S (length a)) with (length (a ++ [x])%list) by (rewrite length_app; cbn; lia). apply IH. by rewrite <- app_assoc. }
  rewrite Hrest. unfold rewrite_line. destruct x as [l|e|]; cbn [parseLease]; [|done..].
  assert (Hiff : map_get (lease_key l) (lastLine q) = Some (length a) <-> leases_of (lease_key l) b = []).
  { rewrite (P_last _ _ HP), E. split; [apply last_split|]. by apply split_is_last. }
  do 2 case_bool_decide; tauto.
Qed.
Lemma settle_last_records p lines : settle_last p (records lines) = records (settle_last p lines).
Proof.
  assert (Hl : forall k l, leases_of k (records l) = leases_of k l) by (intros; unfold leases_of; by rewrite leases_records).
  induction lines as [|[l|e|] lines IH]; [done|..]; cbn [records js_filter is_record settle_last parseLease]; fold (records lines); rewrite ?Hl, ?IH; [|done..].
  by case_bool_decide.
Qed.
Lemma settle_last_owed p q lines : owed p = owed q -> settle_last p lines = settle_last q lines.
Proof.
  intros E. induction lines as [|x lines IH]; [done|]. cbn [settle_last]. rewrite IH. unfold settle. by rewrite E.
Qed.
Lemma records_counts_ok lines : counts_ok lines -> counts_ok (records lines).
Proof. unfold counts_ok. by rewrite leases_records. Qed.
Lemma records_compact lines : counts_ok lines -> records (compact lines) = compact (records lines).
Proof.
  intros Hok. rewrite (compact_settle_last lines), (compact_settle_last (records lines)) by (try apply records_counts_ok; done).
  rewrite settle_last_records. f_equal. apply settle_last_owed. symmetry. apply pass1_records.
Qed.

Lemma rewritten_ids (f : Tagged -> option Line) T : (forall t x, f t = Some x -> line_id x = line_id t.2) ->
  sublist (map line_id (omap f T)) (map line_id (map snd T)).
Proof.
  intros Hf. induction T as [|t T IH]; cbn; [constructor|]. destruct (f t) as [x|] eqn:E; cbn; [|by constructor].
  rewrite (Hf t x E). by constructor.
Qed.
Lemma rewrite_id q t x : rewrite_tagged q t = Some x -> line_id x = line_id t.2.
Proof.
  unfold rewrite_tagged, rewrite_line. destruct t as [[k|] [l|e|]]; cbn; try by intros [= <-]. case_bool_decide; [|done]. intros [= <-]. cbn.
  unfold settle. by repeat case_match.
Qed.

(** C21: In a namespace whose streams are each in time order, in which no event id occurs twice and
    in whose merged order no mission is created after a lease event that counts for it, compacting
    one of the streams leaves the state that the replay of the merged streams derives, event ids
    being taken once and lines that are no records being left out. *)
Theorem compaction_safe_in_namespace streams i s : streams !! i = Some s -> Forall (fun l => ordered line_time (records l)) streams -> Forall counts_ok streams ->
  NoDup (map line_id (namespace_order streams)) -> created_first (namespace_order streams) ->
  streamDigest (readMerged (<[i := compact s]> streams)) = streamDigest (readMerged streams).
Proof.
  intros Hi Ho Hok Hnd Hc. assert (Hs : map records streams !! i = Some (records s)) by (change (map records streams) with (records <$> streams); by rewrite list_lookup_fmap, Hi).
  assert (Ho' : Forall (ordered line_time) (map records streams)) by (by apply Forall_fmap).
  assert (E : namespace_order (<[i := compact s]> streams) = mergeStreams line_time (<[i := compact (records s)]> (map records streams))).
  { unfold namespace_order. rewrite <- records_compact by (by eapply Forall_lookup_1). f_equal. change (records <$> <[i := compact s]> streams = <[i := records (compact s)]> (records <$> streams)). by rewrite list_fmap_insert. }
  rewrite !readMerged_id; [|done|].
  - rewrite E. apply merged_digest; [done|done| |done]. apply Forall_fmap. eapply Forall_impl; [exact Hok|]. intros l. apply records_counts_ok.
  - rewrite E, <- (merged_after _ i (records s) Hs Ho'). eapply sublist_NoDup; [|apply rewritten_ids, rewrite_id].
    by rewrite (merged_before _ i (records s) Hs Ho').
Qed.

(** ** The command *)

(** A copy of a log under another name: all of it, or what a failed write left of it. *)
Inductive Copy := whole (lines : list Line) | partial.

(** The log, its backup and the temporary copy of this run, whose name is new. *)
Record Files := mkFiles { f_log : list Line; f_backup : option Copy; f_temporary : option Copy }.

Inductive Verdict := v_live | v_dead | v_uncertain.
(** [no_registry], or what the registry says of the stream's session. *)
Inductive RegistryAnswer := no_registry | session_unknown | session_is (v : Verdict).
(** [link], and [copyFile] where linking is not possible: it may refuse an existing backup or fail
    half way and leave a part. *)
Inductive CopyAnswer := copied | copy_exists | copy_failed (left : bool).
Inductive LinkAnswer := linked | backup_exists | link_unsupported (c : CopyAnswer).
(** Writing the temporary: it could not be created, was created and not finished, or is there, written and synced. *)
Inductive OutputAnswer := not_created | unfinished_output | output_written.

Inductive CompactionError :=
  | backup_in_the_way | session_may_be_writing (v : Verdict) | written_recently | log_locked
  | output_failed | log_changed | backup_failed | rename_failed | unlink_failed.

(** What the system answers on the way: whether the file is a session's stream, what is known of
    its writer, the lock, the write of the copy, the comparison of the two digests, the log and
    its size and time at the recheck, the backup, the rename and the removal of the temporary copy. *)
Record Answers := mkAnswers {
  a_session_stream : bool;
  a_registry : RegistryAnswer;
  a_quietFor : Z;
  a_lock : bool;
  a_output : OutputAnswer;
  a_identical : bool;
  a_log_now : list Line;
  a_stat_same : bool;
  a_link : LinkAnswer;
  a_rename : bool;
  a_unlink : bool
}.

Record Report := mkReport {
  r_applied : bool; r_backup : bool; r_linesBefore : nat; r_linesAfter : nat; r_leaseEventsBefore : nat; r_leaseEventsAfter : nat; r_stateIdentical : bool }.

Definition UNKNOWN_WRITER_QUIET_MS : Z := (5 * 60000)%Z.

Definition assertSessionWriterGone (a : Answers) : res CompactionError unit :=
  if negb (a_session_stream a) then Ok tt
  else match a_registry a with
       | session_is v_dead => Ok tt
       | session_is v => Err (session_may_be_writing v)
       | no_registry | session_unknown => if Z.ltb (a_quietFor a) UNKNOWN_WRITER_QUIET_MS then Err written_recently else Ok tt
       end.

Definition report_of (lines : list Line) (applied identical : bool) : Report :=
  let p := pass1 lines in let out := pass2 p 0 lines in
  mkReport applied applied (linesBefore p) (length out) (leaseEventsBefore p) (length (leases out)) identical.

(** [unlink(temporary)]: what is left of it. *)
Definition unlink_temporary (a : Answers) (f : Files) : Files := if a_unlink a then mkFiles (f_log f) (f_backup f) None else f.
(** The [catch] of [compactLocked]: it removes the temporary as well as it can and throws. *)
Definition abandon (a : Answers) (f : Files) (x : CompactionError) : Files * res CompactionError Report := (unlink_temporary a f, Err x).

(** The temporary is written first; the log is then what others made of it. An error of the
    [unlink] of a dry run is caught like any other, and the removal is tried once more, with the
    same answer. Closing the directory handle after the rename is taken not to fail. *)
Definition compactLocked (apply : bool) (a : Answers) (f : Files) : Files * res CompactionError Report :=
  let out := compact (f_log f) in
  let now := a_log_now a in
  let with_temporary t := mkFiles now (f_backup f) t in
  match a_output a with
  | not_created => abandon a (with_temporary (f_temporary f)) output_failed
  | unfinished_output => abandon a (with_temporary (Some partial)) output_failed
  | output_written =>
      let f1 := with_temporary (Some (whole out)) in
      if negb apply || negb (a_identical a) then
        if a_unlink a then (unlink_temporary a f1, Ok (report_of (f_log f) false (a_identical a)))
        else abandon a f1 unlink_failed
      else if negb (a_stat_same a) then abandon a f1 log_changed
      else
        let swap f2 := if a_rename a then (mkFiles out (f_backup f2) None, Ok (report_of (f_log f) true true)) else abandon a f2 rename_failed in
        match a_link a with
        | linked | link_unsupported copied => swap (mkFiles now (Some (whole now)) (f_temporary f1))
        | backup_exists | link_unsupported copy_exists | link_unsupported (copy_failed false) => abandon a f1 backup_failed
        | link_unsupported (copy_failed true) => abandon a (mkFiles now (Some partial) (f_temporary f1)) backup_failed
        end
  end.

Definition compactLeaseEvents (apply : bool) (a : Answers) (f : Files) : Files * res CompactionError Report :=
  if apply && bool_decide (is_Some (f_backup f)) then (f, Err backup_in_the_way)
  else match if apply then assertSessionWriterGone a else Ok tt with
       | Err x => (f, Err x)
       | Ok _ => if apply && negb (a_lock a) then (f, Err log_locked) else compactLocked apply a f
       end.

(** The comparison is of the digests, and a log of the same size and time is the same log. *)
Definition truthful (a : Answers) (f : Files) : Prop :=
  (a_identical a = true <-> streamDigest (compact (f_log f)) = streamDigest (f_log f)) /\ (a_stat_same a = true -> a_log_now a = f_log f).

(** C37: Whatever fails on the way, the command replaces the log only by its compaction, only when
    the two derive the same state, with the whole original under the backup's name; in every other
    case it leaves the log as its writers did. It never overwrites a backup; a backup is made, or
    left in part by a copy that failed, only on the way to a swap. A temporary copy is left only when its removal
    failed. The comparison of the two digests is taken to be right and a log whose size and time
    are unchanged at the recheck to be unchanged. *)
Theorem compaction_apply_safe apply a f : truthful a f -> f_temporary f = None ->
  let r := compactLeaseEvents apply a f in
  (f_temporary r.1 <> None -> a_unlink a = false) /\
  (forall b, f_backup f = Some b -> apply = true -> r = (f, Err backup_in_the_way)) /\
  match r.2 with
  | Ok rep =>
      if r_applied rep
      then apply = true /\ f_backup f = None /\ f_log r.1 = compact (f_log f) /\ f_backup r.1 = Some (whole (f_log f)) /\
        streamDigest (f_log r.1) = streamDigest (f_log f) /\ f_temporary r.1 = None
      else f_log r.1 = a_log_now a /\ f_backup r.1 = f_backup f /\ f_temporary r.1 = None /\
        (apply = true -> streamDigest (compact (f_log f)) <> streamDigest (f_log f))
  | Err x => (f_log r.1 = f_log f \/ f_log r.1 = a_log_now a) /\
      (f_backup r.1 = f_backup f \/ (apply = true /\ f_backup f = None /\
         ((x = rename_failed /\ f_backup r.1 = Some (whole (f_log f))) \/ (x = backup_failed /\ f_backup r.1 = Some partial))))
  end.
Proof.
  intros [Hid Hst] Ht. cbn zeta. unfold compactLeaseEvents. destruct apply; cbn [andb].
  - case_bool_decide as Hb; [cbn; rewrite Ht; split_and!; auto; done|]. assert (Hn : f_backup f = None) by (destruct (f_backup f); [by destruct Hb|done]).
    destruct (assertSessionWriterGone a); [|cbn; rewrite Ht; split_and!; auto; congruence]. destruct (a_lock a); cbn [negb]; [|cbn; rewrite Ht; split_and!; auto; congruence].
    unfold compactLocked, abandon, unlink_temporary. destruct (a_output a); cbn; [destruct (a_unlink a); cbn; rewrite ?Ht; split_and!; auto; congruence..|].
    destruct (a_identical a) eqn:Ei; cbn.
    + destruct (a_stat_same a) eqn:Es; cbn; [|destruct (a_unlink a); cbn; split_and!; auto; congruence]. rewrite (Hst eq_refl).
      destruct (a_link a) as [| |[| |[]]]; cbn; try (destruct (a_unlink a); cbn; split_and!; auto 10; congruence);
        destruct (a_rename a); cbn; try (destruct (a_unlink a); cbn; split_and!; auto 10; congruence); split_and!; auto; try congruence; by apply Hid.
    + destruct (a_unlink a); cbn; split_and!; auto; try congruence. intros _ Hd. apply Hid in Hd. congruence.
  - unfold compactLocked, abandon, unlink_temporary. destruct (a_output a); cbn; [destruct (a_unlink a); cbn; rewrite ?Ht; split_and!; auto; congruence..|].
    destruct (a_unlink a); cbn; split_and!; auto; congruence.
Qed.

(** ** Evaluated logs *)

Fixpoint created_firstb (seen : list LeaseRecord) (lines : list Line) : bool :=
  match lines with
  | [] => true
  | lease_line l :: rest => created_firstb (seen ++ [l])%list rest
  | event_line e :: rest =>
      match creates e with Some m => truthy m && Nat.eqb (total m seen) 0 | None => true end && created_firstb seen rest
  | skipped_line :: rest => created_firstb seen rest
  end.
Lemma created_firstb_ok lines : created_firstb [] lines = true -> created_first lines.
Proof.
  assert (G : forall lines done, created_firstb (leases done) lines = true ->
    forall pre e post m, lines = (pre ++ event_line e :: post)%list -> creates e = Some m -> m <> "" /\ total m (leases (done ++ pre)%list) = 0).
  { clear. induction lines as [|x lines IH]; intros done Hb pre e post m E Hc; [by destruct pre|]. destruct pre as [|y pre]; cbn in E.
    - injection E as -> ->. cbn in Hb. rewrite Hc in Hb. apply andb_true_iff in Hb as [[H1 H2]%andb_true_iff _]. rewrite app_nil_r. split; [|by apply Nat.eqb_eq].
      intros ->. done.
    - injection E as -> ->. replace (done ++ y :: pre)%list with ((done ++ [y]) ++ pre)%list by by rewrite <- app_assoc. eapply IH; [|reflexivity|done].
      rewrite leases_snoc. destruct y as [l|e'|]; cbn in *; [done| |by rewrite app_nil_r]. apply andb_true_iff in Hb as [_ Hb]. by rewrite app_nil_r. }
  intros Hb pre e post m. apply (G lines [] Hb).
Qed.

Module CompactionSample.

Definition the_mission : Mission :=
  mkMission (mkMissionSpec "m" "t" "g" "u" "r" "main" "low" "feature" "2026-01-01T00:00:00Z" None) 0 [] [] MissionLifecycle.Mission.PLANNING "2026-01-01T00:00:00Z"
    [] [] [] [] None None None None None None None None.
Definition create : Line := event_line (mkEvent "e0" "m" "2026-01-01T00:00:00Z" (mission_created the_mission)).
Definition lease (time : string) (epoch : Z) (t : LeaseTransition) : Line :=
  lease_line (mkLeaseRecord ("l" ++ time) time t (of_mission (mkLease "m" epoch "owner" 0 1 epoch None)) (Some "m") None).
Definition note (time : string) : Line := event_line (mkEvent ("n" ++ time) "m" time (ev_other "task.note")).

(** A recovery loop: the mission is acquired and fenced twice. *)
Definition churn : list Line := [create; lease "2026-01-01T00:00:01Z" 1 acquired; lease "2026-01-01T00:00:02Z" 1 fenced; note "2026-01-01T00:00:03Z";
  lease "2026-01-01T00:00:04Z" 2 acquired; lease "2026-01-01T00:00:05Z" 2 fenced].
Definition elsewhere : list Line := [note "2026-01-01T00:00:02Z"; lease "2026-01-01T00:00:06Z" 3 acquired].

Lemma churn_ok : counts_ok churn.
Proof. repeat constructor. Qed.
Lemma churn_ordered : Forall (fun l => ordered line_time (records l)) [churn; elsewhere].
Proof. repeat constructor. Qed.

Lemma compaction_preserves_replay_witness : length (compact churn) = 3 /\ streamDigest (compact churn) = streamDigest churn.
Proof.
  split; [vm_compute; reflexivity|]. apply (compaction_preserves_replay churn churn_ok). apply created_firstb_ok. vm_compute. reflexivity.
Defined.

Lemma compaction_is_idempotent_witness : compact churn <> churn /\ compact (compact churn) = compact churn.
Proof.
  split; [intros H; apply (f_equal length) in H; vm_compute in H; discriminate H|]. apply (compaction_is_idempotent churn churn_ok).
Defined.

Lemma compaction_safe_in_namespace_witness :
  streamDigest (readMerged [compact churn; elsewhere]) = streamDigest (readMerged [churn; elsewhere]).
Proof.
  apply (compaction_safe_in_namespace [churn; elsewhere] 0 churn eq_refl churn_ordered); [repeat constructor| |].
  - apply (bool_decide_unpack _). vm_compute. exact I.
  - apply created_firstb_ok. vm_compute. reflexivity.
Defined.

Definition quiet : Answers := mkAnswers true (session_is v_dead) 0 true output_written true churn true linked true true.
Lemma compaction_apply_safe_witness :
  let r := compactLeaseEvents true quiet (mkFiles churn None None) in
  f_log r.1 = compact churn /\ f_backup r.1 = Some (whole churn) /\ f_temporary r.1 = None.
Proof.
  destruct (compaction_apply_safe true quiet (mkFiles churn None None)) as (_ & _ & H2); [|reflexivity|].
  - split; [|reflexivity]. split; intros _; [vm_compute; reflexivity|reflexivity].
  - exact (conj (proj1 (proj2 (proj2 H2))) (conj (proj1 (proj2 (proj2 (proj2 H2)))) (proj2 (proj2 (proj2 (proj2 (proj2 H2))))))).
Defined.

(** An event that two streams carry is taken once; when one of them is compacted it counts in the
    event that replaced it there and once more in the other stream. *)
Theorem shared_event_counts_twice :
  let shared := lease "2026-01-01T00:00:01Z" 1 acquired in
  let own := [create; shared; lease "2026-01-01T00:00:02Z" 2 acquired] in
  streamDigest (compact own) = streamDigest own /\
  streamDigest (readMerged [compact own; [shared]]) <> streamDigest (readMerged [own; [shared]]).
Proof.
  cbn zeta. split; [vm_compute; reflexivity|].
  intros H. apply (f_equal (fun d => m_revision <$> map_get "m" (MissionStore.missions (rp_store d)))) in H. vm_compute in H. discriminate H.
Qed.

Definition stepped : list Line := [create; lease "2026-01-01T00:00:05Z" 1 acquired; lease "2026-01-01T00:00:03Z" 2 acquired].
Definition meanwhile : list Line := [lease "2026-01-01T00:00:04Z" 9 fenced].

(** A stream whose clock went back is not safe to compact on its own. Its first lease event holds
    back the merge until another session's has been taken; compaction drops it, and the
    other session's event becomes the last of the resource. *)
Theorem clock_step_changes_winner :
  streamDigest (compact stepped) = streamDigest stepped /\
  map_has "m" (missionLeases (rp_leases (replay (readMerged [stepped; meanwhile])))) = true /\
  map_has "m" (missionLeases (rp_leases (replay (readMerged [compact stepped; meanwhile])))) = false.
Proof. vm_compute. split_and!; reflexivity. Qed.

(** A lease event for a mission that is created later in the log counts for nothing when it is
    replayed, and counts once folded into a later one: the digests differ, and the command keeps the log. *)
Theorem early_lease_refused :
  let log := [lease "2026-01-01T00:00:01Z" 1 acquired; create; lease "2026-01-01T00:00:02Z" 2 acquired] in
  streamDigest (compact log) <> streamDigest log.
Proof. cbn zeta. intros H. apply (f_equal (fun d => m_revision <$> map_get "m" (MissionStore.missions (rp_store d)))) in H. vm_compute in H. discriminate H. Qed.
End CompactionSample.
