(* ===== verification/Outbox.v ===== *)
(** * The durable outbox of control-plane events (src/runtime/herdr/outbox.ts)

    Events wait in an append-only file until the server took them. Processes share
    the file under a lock; each keeps an index of the pending events that it brings up
    to date from the bytes appended since it last looked. Acknowledgements are lines
    too, and the file is rewritten once they outweigh what is pending. What leaves
    the queue undelivered is first written to a dead-letter file.

    An operation is one step: the lock of [PortableLock] serialises operations. A
    process can die in any write, of the outbox file or of the dead-letter file, leaving
    any prefix of it; [Unlocked] takes the synchronisation that readers run without the
    lock apart, which in a run does not overlap with other calls of its process. Files are
    named by their inode numbers. Left out: the notices of losses, file modes and fsync. *)

From stdpp Require Import countable sorting.
From S2P Require Import Prelude JsMap EventStore LedgerCodec SessionStore.

Open Scope string_scope.
Open Scope Z_scope.

(** ** Data *)

Record EnvelopeV2 := mkEnvelope { e_id : string; source_sequence : Z; e_content : string }.

Inductive DeadLetterReason := server_rejected | lineage_forbidden | client_error | repeated_5xx | oversized | overflow_dropped.
Inductive Fate := delivered | dead.
#[export] Instance Fate_eq_dec : EqDecision Fate.
Proof. solve_decision. Defined.

Inductive OutLine :=
  | l_event (e : EnvelopeV2)
  | l_reseq (e : EnvelopeV2)
  | l_ack (id : string) (s : option Fate).

(** A dead-letter record; [None]: a subject that never entered the queue. *)
Record DeadRecord := mkDead { d_subject : option EnvelopeV2; d_reason : DeadLetterReason; d_status : option Z }.
(** The dead-letter file: the records that were written to the end, each with whether it can be read
    (it cannot if the line it is on begins with a record that was cut off), and whether the last line
    was cut off. [dl_torn] counts the writes that were cut off. *)
Record DeadFile := mkDeadFile { dl_lines : list (bool * DeadRecord); dl_open : bool; dl_torn : nat }.
Definition dl_records (d : DeadFile) : list DeadRecord := omap (fun l : bool * DeadRecord => if l.1 then Some l.2 else None) (dl_lines d).
Definition unreadable (d : DeadFile) : list DeadRecord := omap (fun l : bool * DeadRecord => if l.1 then None else Some l.2) (dl_lines d).

Record OutFile := mkOutFile { fi_ino : nat; fi_text : text }.

Record Options := mkOptions { maxPending : Z; compactMin : Z }.
Definition default_options : Options := mkOptions 10000 500.

Record Outbox := mkOutbox {
  index : @jsmap string EnvelopeV2;
  recent : @jsmap string Fate;
  offset : nat;
  ino : option nat;
  tombstones : nat;
  highSeq : Z;
  tornTail : bool;
  dropped : nat;
  rejected : nat;
  deadLettered : nat;
  resequenced : nat
}.
Definition new_outbox : Outbox := mkOutbox [] [] 0 None 0 0 false 0 0 0 0.

Definition on_index (f : @jsmap string EnvelopeV2 -> @jsmap string EnvelopeV2) (o : Outbox) : Outbox :=
  mkOutbox (f (index o)) (recent o) (offset o) (ino o) (tombstones o) (highSeq o) (tornTail o) (dropped o) (rejected o) (deadLettered o) (resequenced o).
Definition on_recent (f : @jsmap string Fate -> @jsmap string Fate) (o : Outbox) : Outbox :=
  mkOutbox (index o) (f (recent o)) (offset o) (ino o) (tombstones o) (highSeq o) (tornTail o) (dropped o) (rejected o) (deadLettered o) (resequenced o).
Definition on_tombstones (f : nat -> nat) (o : Outbox) : Outbox :=
  mkOutbox (index o) (recent o) (offset o) (ino o) (f (tombstones o)) (highSeq o) (tornTail o) (dropped o) (rejected o) (deadLettered o) (resequenced o).
Definition on_highSeq (f : Z -> Z) (o : Outbox) : Outbox :=
  mkOutbox (index o) (recent o) (offset o) (ino o) (tombstones o) (f (highSeq o)) (tornTail o) (dropped o) (rejected o) (deadLettered o) (resequenced o).
Definition set_position (n : nat) (torn : bool) (o : Outbox) : Outbox :=
  mkOutbox (index o) (recent o) n (ino o) (tombstones o) (highSeq o) torn (dropped o) (rejected o) (deadLettered o) (resequenced o).
Definition set_ino (i : option nat) (o : Outbox) : Outbox :=
  mkOutbox (index o) (recent o) (offset o) i (tombstones o) (highSeq o) (tornTail o) (dropped o) (rejected o) (deadLettered o) (resequenced o).
Definition on_counters (d r l q : nat) (o : Outbox) : Outbox :=
  mkOutbox (index o) (recent o) (offset o) (ino o) (tombstones o) (highSeq o) (tornTail o) (dropped o + d) (rejected o + r) (deadLettered o + l) (resequenced o + q).

(** ** Reading the file *)

Definition RECENT_MAX : Z := 2000.
Definition size_of {V} (m : @jsmap string V) : Z := Z.of_nat (map_size m).

Definition remember (id : string) (s : Fate) (o : Outbox) : Outbox :=
  on_recent (fun r => let r := map_set id s (map_delete id r) in
    if RECENT_MAX <? size_of r then match map_keys r with k :: _ => map_delete k r | [] => r end else r) o.

Definition apply_line (o : Outbox) (line : OutLine) : Outbox :=
  match line with
  | l_event e =>
      if truthy (e_id e) then
        let o := on_highSeq (Z.max (source_sequence e)) o in
        if negb (map_has (e_id e) (index o)) && negb (map_has (e_id e) (recent o)) then on_index (map_set (e_id e) e) o else o
      else o
  | l_reseq e =>
      if truthy (e_id e) then
        let o := on_highSeq (Z.max (source_sequence e)) o in
        if map_has (e_id e) (index o) then on_index (map_set (e_id e) e) o else o
      else o
  | l_ack id s => remember id (match s with Some dead => dead | _ => delivered end) (on_index (map_delete id) (on_tombstones S o))
  end.

Definition reset (o : Outbox) : Outbox :=
  mkOutbox [] (recent o) 0 (ino o) 0 0 false (dropped o) (rejected o) (deadLettered o) (resequenced o).

Section Outbox.
Context `{Codec : EventCodec OutLine}.

(** What was read of the file from [offset] on. *)
Definition apply_chunk (buf : text) (o : Outbox) : Outbox :=
  let complete := complete_part buf in
  let o := set_position (offset o) (open_end buf) o in
  let o := foldl apply_line o (decode complete) in
  set_position (offset o + length complete) (tornTail o) o.

Definition sync_stat (file : option OutFile) (o : Outbox) : Outbox :=
  match file with
  | None => set_ino None (reset o)
  | Some f => if negb (bool_decide (ino o = Some (fi_ino f))) || Nat.ltb (length (fi_text f)) (offset o) then set_ino (Some (fi_ino f)) (reset o) else o
  end.
Definition sync (file : option OutFile) (o : Outbox) : Outbox :=
  let o := sync_stat file o in
  match file with
  | None => o
  | Some f => if Nat.eqb (length (fi_text f)) (offset o) then o else apply_chunk (drop (offset o) (fi_text f)) o
  end.

(** ** Operations

    The system a process acts on: the files, its own outbox, and what will happen to its
    writes to either file: [None], the write is complete; [Some k], the process dies
    after [k] bytes. The [n]th file created has the inode [inos n]. *)
Context (inos : nat -> nat).
Record Sys := mkSys { file : option OutFile; deads : DeadFile; ob : Outbox; tape : list (option nat); dead_tape : list (option nat); created : nat }.
Definition M (A : Type) : Type := Sys -> Sys * option A.
Definition ret {A} (a : A) : M A := fun s => (s, Some a).
Definition bind {A B} (m : M A) (k : A -> M B) : M B := fun s => match m s with (s', Some a) => k a s' | (s', None) => (s', None) end.
Notation "'let*' x := m 'in' k" := (bind m (fun x => k)) (at level 10, x name, m at level 100, k at level 200).
Notation "m ;; k" := (bind m (fun _ : unit => k)) (at level 100, right associativity).

Definition get {A} (f : Outbox -> A) : M A := fun s => (s, Some (f (ob s))).
Definition modify (f : Outbox -> Outbox) : M unit := fun s => (mkSys (file s) (deads s) (f (ob s)) (tape s) (dead_tape s) (created s), Some tt).
Definition sync_ : M unit := fun s => (mkSys (file s) (deads s) (sync (file s) (ob s)) (tape s) (dead_tape s) (created s), Some tt).

Definition text_of (f : option OutFile) : text := match f with Some f => fi_text f | None => [] end.
(** Appending creates the file if need be. *)
Definition append_bytes (b : text) (f : option OutFile) (n : nat) : option OutFile * nat :=
  match f with
  | Some f => (Some (mkOutFile (fi_ino f) (fi_text f ++ b)), n)
  | None => (Some (mkOutFile (inos n) b), S n)
  end.

Definition writeLines (batch : list OutLine) : M unit := fun s =>
  let b := append_text (tornTail (ob s)) batch in
  match tape s with
  | Some k :: rest => let (f, ns) := append_bytes (take k b) (file s) (created s) in (mkSys f (deads s) (ob s) rest (dead_tape s) ns, None)
  | _ => let (f, ns) := append_bytes b (file s) (created s) in
         let o := set_position (offset (ob s)) false (ob s) in
         (mkSys f (deads s) (sync f o) (tl (tape s)) (dead_tape s) ns, Some tt)
  end.

(** A record appended to a line that was cut off is not readable. A process that dies in the write
    has written less than the whole record. *)
Definition writeDeadLetter (subject : option EnvelopeV2) (reason : DeadLetterReason) (status : option Z) : M unit := fun s =>
  let d := deads s in
  match dead_tape s with
  | Some k :: rest =>
      let cut := Nat.ltb 0 k in
      (mkSys (file s) (mkDeadFile (dl_lines d) (dl_open d || cut) (if cut then S (dl_torn d) else dl_torn d)) (ob s) (tape s) rest (created s), None)
  | _ => (mkSys (file s) (mkDeadFile (dl_lines d ++ [(negb (dl_open d), mkDead subject reason status)]) false (dl_torn d))
            (ob s) (tape s) (tl (dead_tape s)) (created s), Some tt)
  end.

(** [atomicWriteFile]: the process dies before the rename, or the file is a new one. *)
Definition atomicWriteFile (b : text) : M unit := fun s =>
  match tape s with
  | Some _ :: rest => (mkSys (file s) (deads s) (ob s) rest (dead_tape s) (created s), None)
  | _ => (mkSys (Some (mkOutFile (inos (created s)) b)) (deads s) (ob s) (tl (tape s)) (dead_tape s) (S (created s)), Some tt)
  end.

Context (opts : Options).

Definition locked {A} (m : M A) : M A := sync_ ;; m.

Definition drop_id (id : string) (s : Fate) : M unit := modify (fun o => remember id s (on_tombstones S (on_index (map_delete id) o))).

Definition maybeCompact : M unit :=
  let* o := get (fun o => o) in
  if (Z.of_nat (tombstones o) <? compactMin opts) || (Z.of_nat (tombstones o) <? 2 * size_of (index o)) then ret tt
  else atomicWriteFile (append_text false (map l_event (map_values (index o)))) ;; modify (set_ino None).

Fixpoint overflow (fuel : nat) : M unit :=
  let* o := get (fun o => o) in
  match fuel, map_values (index o) with
  | S fuel', oldest :: _ =>
      if maxPending opts <? size_of (index o) then
        modify (on_counters 1 0 0 0) ;;
        writeDeadLetter (Some oldest) overflow_dropped None ;;
        writeLines [l_ack (e_id oldest) (Some dead)] ;;
        drop_id (e_id oldest) dead ;;
        overflow fuel'
      else ret tt
  | _, _ => ret tt
  end.

Definition append (e : EnvelopeV2) : M EnvelopeV2 :=
  locked (
    let* o := get (fun o => o) in
    match map_get (e_id e) (index o) with
    | Some existing => ret existing
    | None =>
        writeLines [l_event e] ;;
        sync_ ;;
        let* o := get (fun o => o) in
        overflow (map_size (index o)) ;;
        ret e
    end).

Definition replacePending (es : list EnvelopeV2) : M nat :=
  locked (
    let* o := get (fun o => o) in
    match js_filter (fun e => map_has (e_id e) (index o)) es with
    | [] => ret 0%nat
    | live => writeLines (map l_reseq live) ;; modify (on_counters 0 0 0 (length live)) ;; ret (length live)
    end).

Fixpoint drop_all (ids : list string) (s : Fate) : M unit :=
  match ids with [] => ret tt | id :: ids' => drop_id id s ;; drop_all ids' s end.

Definition ackMany (ids : list string) : M unit :=
  locked (
    let* o := get (fun o => o) in
    match js_filter (fun id => map_has id (index o)) ids with
    | [] => ret tt
    | live => writeLines (map (fun id => l_ack id (Some delivered)) live) ;; drop_all live delivered ;; maybeCompact
    end).
Definition ack (id : string) : M unit := ackMany [id].

Definition is_rejection (r : DeadLetterReason) : bool := match r with server_rejected | lineage_forbidden => true | _ => false end.

Definition deadLetter (e : EnvelopeV2) (reason : DeadLetterReason) (status : option Z) : M unit :=
  locked (
    writeDeadLetter (Some e) reason status ;;
    modify (if is_rejection reason then on_counters 0 1 0 0 else on_counters 0 0 1 0) ;;
    (let* o := get (fun o => o) in
     if map_has (e_id e) (index o)
     then writeLines [l_ack (e_id e) (Some dead)] ;; modify (fun o => on_tombstones S (on_index (map_delete (e_id e)) o))
     else ret tt) ;;
    modify (remember (e_id e) dead) ;;
    maybeCompact).

Definition recordUndeliverable (reason : DeadLetterReason) : M unit :=
  locked (writeDeadLetter None reason None ;; modify (on_counters 0 0 1 0)).

Definition peek (limit : option nat) : M (list EnvelopeV2) :=
  sync_ ;; get (fun o => match limit with Some n => take n (map_values (index o)) | None => map_values (index o) end).

Inductive LookupResult := is_pending (e : EnvelopeV2) | is_completed (s : Fate) | is_unknown.
Definition lookup_out (id : string) : M LookupResult :=
  sync_ ;; get (fun o => match map_get id (index o) with
                         | Some e => is_pending e
                         | None => match map_get id (recent o) with Some s => is_completed s | None => is_unknown end
                         end).
Definition highestSequence : M Z := sync_ ;; get highSeq.

(** ** What a reader knows *)

(** The events of [ls] that can be indexed. *)
Definition has_event (id : string) (ls : list OutLine) : Prop := truthy id = true /\ exists e, l_event e ∈ ls /\ e_id e = id.

(** [D]: the ids that were delivered or put aside. *)
Definition acks_done (D : list string) (ls : list OutLine) : Prop := forall id s, l_ack id s ∈ ls -> id ∈ D.

(** The index of a reader that saw the lines [ls], up to ids that are done. *)
Record Indexed (D : list string) (ls : list OutLine) (o : Outbox) : Prop := mkIndexedBy {
  X_recent : forall id, map_has id (recent o) = true -> id ∈ D;
  X_keyed : forall id e, map_get id (index o) = Some e -> e_id e = id;
  X_ok : map_ok (index o);
  X_index : forall id, id ∉ D -> (map_has id (index o) = true <-> has_event id ls)
}.

Lemma has_event_app id a b : has_event id (a ++ b) <-> has_event id a \/ has_event id b.
Proof. unfold has_event. setoid_rewrite elem_of_app. naive_solver. Qed.

Lemma map_has_set {V} k k' (v : V) (m : @jsmap string V) : map_has k' (map_set k v m) = true <-> k = k' \/ map_has k' m = true.
Proof. unfold map_has. rewrite map_get_set. case_decide; [naive_solver|]. destruct (map_get k' m); naive_solver. Qed.
Lemma map_has_delete {V} k k' (m : @jsmap string V) : map_ok m -> map_has k' (map_delete k m) = true <-> k <> k' /\ map_has k' m = true.
Proof.
  intros Hok. unfold map_has. destruct (decide (k = k')) as [->|Hne].
  - rewrite map_get_delete_eq by done. naive_solver.
  - rewrite map_get_delete_ne by done. destruct (map_get k' m); naive_solver.
Qed.
Lemma map_has_delete_sub {V} k k' (m : @jsmap string V) : map_has k' (map_delete k m) = true -> map_has k' m = true.
Proof.
  rewrite !map_has_get. intros [v Hv]. apply map_get_elem in Hv. assert (k' ∈ map_keys m) as Hk.
  { clear - Hv. induction m as [|[q w] m IH]; cbn in *; [by apply not_elem_of_nil in Hv|]. case_decide; rewrite elem_of_cons.
    - right. apply list_elem_of_fmap. by exists (k', v).
    - apply elem_of_cons in Hv as [[= -> ->]|Hv]; [by left|right; by apply IH]. }
  destruct (map_get k' m) eqn:E; [eauto|]. by apply map_get_none in E.
Qed.

Lemma remember_has id s o k : map_has k (recent (remember id s o)) = true -> k = id \/ map_has k (recent o) = true.
Proof.
  unfold remember. cbn. set (r := map_set id s (map_delete id (recent o))).
  assert (Hr : map_has k r = true -> k = id \/ map_has k (recent o) = true).
  { unfold r. rewrite map_has_set. intros [->|?]; [by left|right; by eapply map_has_delete_sub]. }
  destruct (RECENT_MAX <? size_of r); [|exact Hr]. destruct (map_keys r); [exact Hr|]. intros H. apply map_has_delete_sub in H. by apply Hr.
Qed.

Lemma Indexed_remember D ls id s o : id ∈ D -> Indexed D ls o -> Indexed D ls (remember id s o).
Proof. intros Hid [H1 H2 H3 H4]. split; try done. intros k Hk. apply remember_has in Hk as [->|Hk]; auto. Qed.
Lemma Indexed_delete D ls id o : id ∈ D -> Indexed D ls o -> Indexed D ls (on_index (map_delete id) o).
Proof.
  intros Hid [H1 H2 H3 H4]. split; cbn; [done| |by apply map_delete_ok|].
  - intros k e Hk. destruct (decide (id = k)) as [->|Hne]; [by rewrite map_get_delete_eq in Hk|]. rewrite map_get_delete_ne in Hk by done. auto.
  - intros k Hk. rewrite map_has_delete by done. rewrite H4 by done. split; [tauto|]. split; [by intros ->|done].
Qed.
Lemma Indexed_set D ls e o : truthy (e_id e) = true -> Indexed D ls o -> Indexed D (ls ++ [l_event e]) (on_index (map_set (e_id e) e) o).
Proof.
  intros Ht [H1 H2 H3 H4]. split; cbn; [done| |by apply map_set_ok|].
  - intros k x. rewrite map_get_set. case_decide; [by intros [= <-]|auto].
  - intros k Hk. rewrite map_has_set, has_event_app, H4 by done. unfold has_event at 3. setoid_rewrite list_elem_of_singleton. naive_solver.
Qed.
Lemma Indexed_same D ls ls' o : (forall id, id ∉ D -> has_event id ls <-> has_event id ls') -> Indexed D ls o -> Indexed D ls' o.
Proof. intros Hl [H1 H2 H3 H4]. split; try done. intros id Hid. by rewrite H4, Hl. Qed.

Lemma Indexed_line D ls o line : (forall id s, line = l_ack id s -> id ∈ D) -> Indexed D ls o -> Indexed D (ls ++ [line]) (apply_line o line).
Proof.
  intros Ha HI. destruct line as [e|e|id s]; cbn.
  - destruct (truthy (e_id e)) eqn:Ht; cycle 1.
    { apply (Indexed_same D ls); [|done]. intros id _. rewrite has_event_app. unfold has_event at 3. setoid_rewrite list_elem_of_singleton. naive_solver congruence. }
    assert (HI' : Indexed D ls (on_highSeq (Z.max (source_sequence e)) o)) by (by destruct HI; split).
    destruct (map_has (e_id e) (index o)) eqn:E1; cbn [negb andb]; [|destruct (map_has (e_id e) (recent o)) eqn:E2; cbn [negb]].
    + apply (Indexed_same D ls); [|done]. intros id Hid. rewrite has_event_app. unfold has_event at 3. setoid_rewrite list_elem_of_singleton.
      split; [tauto|]. intros [?|(_ & e' & [= ->] & <-)]; [done|]. by apply (X_index _ _ _ HI).
    + apply (Indexed_same D ls); [|done]. intros id Hid. rewrite has_event_app. unfold has_event at 3. setoid_rewrite list_elem_of_singleton.
      split; [tauto|]. intros [?|(_ & e' & [= ->] & <-)]; [done|]. exfalso. apply Hid. by apply (X_recent _ _ _ HI).
    + by apply Indexed_set.
  - assert (HI' : Indexed D (ls ++ [l_reseq e]) o).
    { apply (Indexed_same D ls); [|done]. intros id _. rewrite has_event_app. unfold has_event at 3. setoid_rewrite list_elem_of_singleton. naive_solver. }
    destruct (truthy (e_id e)) eqn:Ht; [|done]. destruct (map_has (e_id e) (index o)) eqn:E1; [|by destruct HI'; split].
    destruct HI' as [H1 H2 H3 H4]. split; cbn; [done| |by apply map_set_ok|].
    + intros k x. rewrite map_get_set. case_decide; [by intros [= <-]|auto].
    + intros k Hk. rewrite map_has_set, H4 by done. split; [|tauto]. intros [<-|?]; [|done]. by apply H4.
  - apply Indexed_remember; [by eapply Ha|]. apply Indexed_delete; [by eapply Ha|]. apply (Indexed_same D ls).
    + intros k _. rewrite has_event_app. unfold has_event at 3. setoid_rewrite list_elem_of_singleton. naive_solver.
    + by destruct HI; split.
Qed.

Lemma Indexed_lines D ls new o : acks_done D new -> Indexed D ls o -> Indexed D (ls ++ new) (foldl apply_line o new).
Proof.
  revert ls o. induction new as [|x new IH]; intros ls o Ha HI; cbn [foldl]; [by rewrite app_nil_r|].
  replace (ls ++ x :: new)%list with ((ls ++ [x]) ++ new)%list by by rewrite <- app_assoc. apply IH.
  - intros id s Hin. apply (Ha id s). by right.
  - apply Indexed_line; [|done]. intros id s ->. apply (Ha id s). left.
Qed.

(** *** Positions *)

Definition lines_of (t : text) : list OutLine := decode (complete_part t).

Lemma lines_of_closed t : open_end t = false -> lines_of t = decode t.
Proof. intros Ht. unfold lines_of. by rewrite complete_part_whole. Qed.
Lemma lines_of_app a b : open_end a = false -> lines_of (a ++ b) = (lines_of a ++ lines_of b)%list.
Proof. intros Ha. unfold lines_of. rewrite complete_part_app, (complete_part_whole a) by done. apply decode_app. by left. Qed.
Lemma lines_of_decode t l : l ∈ lines_of t -> l ∈ decode t.
Proof.
  intros Hl. destruct (complete_part_prefix t) as (r & Er & _). rewrite Er, decode_app by (left; apply complete_part_closed). apply elem_of_app. by left.
Qed.
Lemma take_complete t : take (length (complete_part t)) t = complete_part t.
Proof. destruct (complete_part_prefix t) as (r & Er & _). pose proof (f_equal (take (length (complete_part t))) Er) as H. by rewrite take_app_length in H. Qed.
Lemma lines_of_complete t : lines_of (complete_part t) = lines_of t.
Proof. unfold lines_of. by rewrite (complete_part_whole (complete_part t)) by apply complete_part_closed. Qed.

Lemma Indexed_mono D D' ls o : D ⊆ D' -> Indexed D ls o -> Indexed D' ls o.
Proof. intros HD [H1 H2 H3 H4]. split; try done; [set_solver|]. intros id Hid. apply H4. set_solver. Qed.

Record Base (D : list string) (o : Outbox) : Prop := mkBase {
  B_recent : forall id, map_has id (recent o) = true -> id ∈ D;
  B_keyed : forall id e, map_get id (index o) = Some e -> e_id e = id;
  B_ok : map_ok (index o)
}.
Lemma Indexed_base D ls o : Indexed D ls o -> Base D o.
Proof. intros []. by split. Qed.

(** A process that reads the file from where it stopped. *)
Definition Reader (D : list string) (f : option OutFile) (o : Outbox) : Prop :=
  Base D o /\ forall fl, f = Some fl -> ino o = Some (fi_ino fl) ->
    (offset o <= length (fi_text fl))%nat /\ open_end (take (offset o) (fi_text fl)) = false /\ Indexed D (lines_of (take (offset o) (fi_text fl))) o.
(** A process that has read all of it. *)
Definition Synced (D : list string) (f : option OutFile) (o : Outbox) : Prop :=
  Indexed D (lines_of (text_of f)) o /\
  match f with
  | None => ino o = None
  | Some fl => ino o = Some (fi_ino fl) /\ offset o = length (complete_part (fi_text fl))
  end /\ (tornTail o = false -> open_end (text_of f) = false).

Lemma Reader_mono D D' f o : D ⊆ D' -> Reader D f o -> Reader D' f o.
Proof.
  intros HD [[B1 B2 B3] H]. split; [split; try done; set_solver|]. intros fl Hf Hi. destruct (H fl Hf Hi) as (H1 & H2 & H3). split_and!; try done. by eapply Indexed_mono.
Qed.
Lemma Synced_mono D D' f o : D ⊆ D' -> Synced D f o -> Synced D' f o.
Proof. intros HD (H1 & H2 & H3). split_and!; try done. by eapply Indexed_mono. Qed.
Lemma Synced_reader D f o : Synced D f o -> Reader D f o.
Proof.
  intros (H1 & H2 & _). split; [by eapply Indexed_base|]. intros fl -> _. destruct H2 as [_ H2]. cbn in *. rewrite H2, take_complete. split_and!.
  - destruct (complete_part_prefix (fi_text fl)) as (r & Er & _). apply (f_equal length) in Er. rewrite length_app in Er. lia.
  - apply complete_part_closed.
  - by rewrite lines_of_complete.
Qed.
Lemma Reader_new D f : Reader D f new_outbox.
Proof. split; [split; [done|done|constructor]|done]. Qed.

Lemma reset_indexed D i o : Base D o -> Indexed D [] (set_ino i (reset o)).
Proof.
  intros [B1 B2 B3]. split; cbn; [done|done|constructor|]. intros id _. split; [done|]. intros (_ & e & He & _). by apply not_elem_of_nil in He.
Qed.

(** Lines change neither the position nor the file they are read from. *)
Lemma foldl_kept ls (x : Outbox) : ino (foldl apply_line x ls) = ino x /\ offset (foldl apply_line x ls) = offset x /\ tornTail (foldl apply_line x ls) = tornTail x.
Proof. revert x. induction ls as [|l ls IH]; intros x; [done|]. cbn. destruct (IH (apply_line x l)) as (-> & -> & ->). destruct l; cbn; repeat case_match; done. Qed.

Lemma sync_synced D f o : Reader D f o -> acks_done D (decode (text_of f)) -> Synced D f (sync f o).
Proof.
  intros [HB HR] Ha. unfold sync. destruct f as [fl|]; cbn [sync_stat text_of] in *.
  2: { split_and!; [by apply reset_indexed|done|done]. }
  set (t := fi_text fl) in *.
  set (o1 := if negb _ || _ then _ else o).
  assert (H1 : ino o1 = Some (fi_ino fl) /\ (offset o1 <= length t)%nat /\ open_end (take (offset o1) t) = false /\ Indexed D (lines_of (take (offset o1) t)) o1).
  { unfold o1. case_bool_decide as Hi; cbn [negb orb].
    - destruct (Nat.ltb_spec (length t) (offset o)) as [Hlt|Hge].
      + split_and!; [done|cbn; lia|done|]. apply reset_indexed, HB.
      + destruct (HR fl eq_refl Hi) as (A & B & C). done.
    - split_and!; [done|cbn; lia|done|]. apply reset_indexed, HB. }
  clearbody o1. destruct H1 as (Hi & Hoff & Hcl & HI). destruct (Nat.eqb_spec (length t) (offset o1)) as [Heq|Hne].
  - rewrite <- Heq, firstn_all in Hcl, HI. split_and!; [done|done|by rewrite complete_part_whole|done].
  - assert (Et : t = (take (offset o1) t ++ drop (offset o1) t)%list) by by rewrite take_drop.
    assert (El : lines_of t = (lines_of (take (offset o1) t) ++ lines_of (drop (offset o1) t))%list) by (rewrite Et at 1; by apply lines_of_app).
    unfold apply_chunk. set (x := set_position (offset o1) (open_end (drop (offset o1) t)) o1).
    destruct (foldl_kept (decode (complete_part (drop (offset o1) t))) x) as (F1 & F2 & F3).
    assert (HX : Indexed D (lines_of t) (foldl apply_line x (decode (complete_part (drop (offset o1) t))))).
    { rewrite El. apply Indexed_lines; [|by destruct HI; split]. intros id s Hin. apply (Ha id s). rewrite Et, decode_app by (by left). apply elem_of_app. right. by apply lines_of_decode. }
    split_and!.
    + by destruct HX; split.
    + cbn. by rewrite F1.
    + cbn. fold t. rewrite F2. assert (Ec : complete_part t = (take (offset o1) t ++ complete_part (drop (offset o1) t))%list) by (rewrite Et at 1; by apply complete_part_app).
      rewrite Ec, length_app, length_take. cbn. lia.
    + cbn. fold t. rewrite F3. cbn. intros Hd. rewrite Et. by apply open_end_closed_app.
Qed.

(** *** Growth of the file *)

Lemma Reader_grow D i t b o : Reader D (Some (mkOutFile i t)) o -> Reader D (Some (mkOutFile i (t ++ b))) o.
Proof.
  intros [HB HR]. split; [done|]. intros fl [= <-] Hi. destruct (HR _ eq_refl Hi) as (H1 & H2 & H3). cbn in *. rewrite take_app_le by done. split_and!; try done.
  rewrite length_app. lia.
Qed.
Lemma Reader_elsewhere D f n t o : Base D o -> ino o <> Some n -> f = Some (mkOutFile n t) -> Reader D f o.
Proof. intros HB Hn ->. split; [done|]. intros fl [= <-] Hi. done. Qed.

(** *** The invariant of an operation

    [Del]: the ids callers reported as delivered; [St]: the ids that were staged;
    [others]: the outboxes of the other processes. *)
Section Invariant.
Context (Del St : list string) (others : list Outbox).

(** The ids the dead-letter file has a whole record of, readable or not. *)
Definition dead_ids (d : DeadFile) : list string := omap (fun l : bool * DeadRecord => e_id <$> d_subject l.2) (dl_lines d).
(** Every unreadable record, and a line that is cut off now, goes back to a write that was cut off. *)
Definition torn_ok (d : DeadFile) : Prop := (length (unreadable d) + Nat.b2n (dl_open d) <= dl_torn d)%nat.
Definition done (s : Sys) : list string := (Del ++ dead_ids (deads s))%list.

(** An inode a process knows is that of a file created before. *)
Definition known_ino (n : nat) (o : Outbox) : Prop := forall i, ino o = Some i -> exists j, (j < n)%nat /\ i = inos j.

Record Inv (s : Sys) : Prop := mkInv {
  V_acks : acks_done (done s) (decode (text_of (file s)));
  V_staged : forall id, id ∈ St -> id ∉ done s -> has_event id (lines_of (text_of (file s)));
  V_others : forall o, o ∈ others -> Reader (done s) (file s) o /\ known_ino (created s) o;
  V_torn : torn_ok (deads s);
  V_file_ino : forall fl, file s = Some fl -> exists j, (j < created s)%nat /\ fi_ino fl = inos j
}.

Definition triple {A} (P : Sys -> Prop) (m : M A) (Q : A -> Sys -> Prop) : Prop :=
  forall s, P s -> match m s with (s', Some a) => Q a s' | (s', None) => Inv s' end.

Lemma triple_ret {A} (a : A) Q : triple (Q a) (ret a) Q.
Proof. intros s H. exact H. Qed.
Lemma triple_bind {A B} P (m : M A) R (k : A -> M B) Q : triple P m R -> (forall a, triple (R a) (k a) Q) -> triple P (bind m k) Q.
Proof. intros H1 H2 s Hs. unfold bind. specialize (H1 s Hs). destruct (m s) as [s' [a|]]; [by apply H2|done]. Qed.
Lemma triple_weaken {A} (P P' : Sys -> Prop) (m : M A) (Q Q' : A -> Sys -> Prop) : (forall s, P' s -> P s) -> (forall a s, Q a s -> Q' a s) -> triple P m Q -> triple P' m Q'.
Proof. intros HP HQ H s Hs. specialize (H s (HP s Hs)). destruct (m s) as [s' [a|]]; auto. Qed.

(** The process has read the file; the process may have to read it anew. *)
Definition InSync (s : Sys) : Prop := Inv s /\ Synced (done s) (file s) (ob s) /\ known_ino (created s) (ob s).
Definition Able (s : Sys) : Prop := Inv s /\ Reader (done s) (file s) (ob s) /\ known_ino (created s) (ob s).

Lemma sync_known s : Able s -> known_ino (created s) (sync (file s) (ob s)).
Proof.
  intros (HV & HR & Hk). destruct (sync_synced _ _ _ HR (V_acks _ HV)) as (_ & H2 & _). intros i Hi. destruct (file s) as [fl|] eqn:Ef; [|congruence].
  destruct H2 as [H2 _]. destruct (V_file_ino _ HV fl Ef) as (j & Hj & Ej). exists j. split; [done|]. congruence.
Qed.
Lemma triple_sync : triple Able sync_ (fun _ s => InSync s).
Proof. intros s Hs. destruct (Hs) as (HV & HR & Hk). cbn. split_and!; [by destruct HV; split|apply (sync_synced (done s)); [done|exact (V_acks _ HV)]|exact (sync_known s Hs)]. Qed.

(** A change of the outbox that keeps what it knows of the file. *)
Lemma Synced_indexed D f o o' : (forall ls, Indexed D ls o -> Indexed D ls o') -> ino o' = ino o -> offset o' = offset o -> tornTail o' = tornTail o -> Synced D f o -> Synced D f o'.
Proof. intros HI E1 E2 E3 (H1 & H2 & H3). split_and!; [by apply HI| |by rewrite E3]. destruct f; by rewrite E1, ?E2. Qed.
Lemma triple_modify (P : Sys -> Prop) (f : Outbox -> Outbox) : (forall s, P s -> InSync s) ->
  (forall s ls, P s -> Indexed (done s) ls (ob s) -> Indexed (done s) ls (f (ob s))) ->
  (forall o, ino (f o) = ino o /\ offset (f o) = offset o /\ tornTail (f o) = tornTail o) -> triple P (modify f) (fun _ s => InSync s).
Proof.
  intros HP Hf He s Hs. destruct (HP s Hs) as (HV & HS & Hk). destruct (He (ob s)) as (E1 & E2 & E3). cbn. split_and!; [by destruct HV; split| |].
  - apply (Synced_indexed (done s) _ (ob s)); try done. intros ls. by apply (Hf s).
  - intros i. cbn. rewrite E1. apply Hk.
Qed.

Lemma grown_staged t b id : has_event id (lines_of t) -> has_event id (lines_of (t ++ b)).
Proof.
  intros H. destruct (complete_part_prefix t) as (r & Er & _). assert (Hc : open_end (complete_part t) = false) by apply complete_part_closed.
  rewrite Er, <- app_assoc, lines_of_app by done. apply has_event_app. left. by rewrite lines_of_complete.
Qed.

Context (inos_inj : forall i j, inos i = inos j -> i = j).

Lemma Reader_new_file D n t o : Base D o -> known_ino n o -> Reader D (Some (mkOutFile (inos n) t)) o.
Proof.
  intros HB Hk. split; [done|]. intros fl [= <-] Hi. destruct (Hk _ Hi) as (j & Hj & Ej). cbn in Ej. apply inos_inj in Ej. lia.
Qed.
Lemma known_later n o : known_ino n o -> known_ino (S n) o.
Proof. intros Hk i Hi. destruct (Hk i Hi) as (j & Hj & ->). exists j. split; [lia|done]. Qed.

(** The file after [b] was appended to it. *)
Lemma append_inv s b o tp : Inv s -> acks_done (done s) (decode (text_of (file s) ++ b)) ->
  let r := append_bytes b (file s) (created s) in
  Inv (mkSys r.1 (deads s) o tp (dead_tape s) r.2) /\ text_of r.1 = (text_of (file s) ++ b)%list /\
  (forall x, Reader (done s) (file s) x -> known_ino (created s) x -> Reader (done s) r.1 x /\ known_ino r.2 x).
Proof.
  intros HV Hacks r. destruct HV as [V1 V2 V3 V4 V6].
  assert (Hx : forall x, Reader (done s) (file s) x -> known_ino (created s) x -> Reader (done s) r.1 x /\ known_ino r.2 x).
  { intros x HR Hk. unfold r, append_bytes. destruct (file s) as [fl|]; cbn [fst snd]; [destruct fl; by split; [apply Reader_grow|]|].
    split; [apply Reader_new_file; [apply HR|done]|by apply known_later]. }
  assert (Ht : text_of r.1 = (text_of (file s) ++ b)%list) by (unfold r; by destruct (file s)).
  split_and!; try done. split; cbn; try done.
  - unfold done at 1. cbn. fold (done s). by rewrite Ht.
  - intros id Hid Hd. rewrite Ht. by apply grown_staged, V2.
  - intros x Hin. destruct (V3 x Hin). by apply Hx.
  - intros fl Hfl. unfold r, append_bytes in *. destruct (file s) as [fl0|]; cbn in *.
    + injection Hfl as <-. destruct (V6 fl0 eq_refl) as (j & Hj & Ej). by exists j.
    + injection Hfl as <-. exists (created s). split; [lia|done].
Qed.

(** *** Writes *)

Definition Has (X : list string) (s : Sys) : Prop := X ⊆ done s.
Definition Ready (X : list string) (s : Sys) : Prop := InSync s /\ Has X s.

Lemma written_torn t torn batch k : (torn = false -> open_end t = false) -> exists n, decode (t ++ take k (append_text torn batch)) = (decode t ++ take n batch)%list.
Proof.
  intros Ht. destruct (decode_torn batch torn k) as [n Hn]. exists n. rewrite decode_app, Hn; [done|]. destruct torn; [|left; auto]. right. destruct k; [by left|].
  right. by eexists.
Qed.
Lemma written_lines t torn batch l : (torn = false -> open_end t = false) -> l ∈ batch -> l ∈ lines_of (t ++ append_text torn batch).
Proof.
  intros Ht Hl. assert (Hc : open_end (t ++ append_text torn batch) = false).
  { destruct batch as [|b bs]; [by apply not_elem_of_nil in Hl|]. assert (Ha : open_end (append_text torn (b :: bs)) = false) by (by apply append_text_open).
    apply open_end_false in Ha as [Ha|[q ->]]; [|rewrite app_assoc; apply open_end_nl]. rewrite Ha, app_nil_r. apply Ht. destruct torn; [done|done]. }
  rewrite lines_of_closed by done. destruct (written_torn t torn batch (length (append_text torn batch)) Ht) as [n Hn]. rewrite firstn_all in Hn.
  rewrite decode_app; [|destruct torn; [right; right; by eexists|left; auto]]. rewrite decode_append_text. apply elem_of_app. by right.
Qed.

Lemma Reader_position D f o b : Reader D f o -> Reader D f (set_position (offset o) b o).
Proof. intros [[] HR]. split; [by split|]. intros fl Hf Hi. destruct (HR fl Hf Hi) as (? & ? & HI). split_and!; try done. by destruct HI; split. Qed.

Lemma acks_app D a b : acks_done D a -> acks_done D b -> acks_done D (a ++ b).
Proof. intros H1 H2 id s [?|?]%elem_of_app; eauto. Qed.
Lemma acks_take D n b : acks_done D b -> acks_done D (take n b).
Proof. intros H id s Hin. apply (H id s). rewrite <- (take_drop n b). apply elem_of_app. by left. Qed.

Lemma triple_write X batch : (forall id s, l_ack id s ∈ batch -> id ∈ X) ->
  triple (Ready X) (writeLines batch) (fun _ s => Ready X s /\ forall l, l ∈ batch -> l ∈ lines_of (text_of (file s))).
Proof.
  intros HX s [(HV & HS & Hk) Hhas]. unfold writeLines. assert (Hbatch : acks_done (done s) batch) by (intros id f Hin; apply Hhas; by eapply HX).
  assert (Htorn : tornTail (ob s) = false -> open_end (text_of (file s)) = false) by apply HS.
  assert (Hcut : forall k, acks_done (done s) (decode (text_of (file s) ++ take k (append_text (tornTail (ob s)) batch)))).
  { intros k. destruct (written_torn (text_of (file s)) _ batch k Htorn) as [n ->]. apply acks_app; [apply HV|by apply acks_take]. }
  assert (Hdone : let b := append_text (tornTail (ob s)) batch in let (f, n) := append_bytes b (file s) (created s) in
    let o := set_position (offset (ob s)) false (ob s) in
    forall tp, let s' := mkSys f (deads s) (sync f o) tp (dead_tape s) n in Ready X s' /\ forall l, l ∈ batch -> l ∈ lines_of (text_of (file s'))).
  { cbn zeta. specialize (Hcut (length (append_text (tornTail (ob s)) batch))). rewrite firstn_all in Hcut.
    destruct (append_bytes (append_text (tornTail (ob s)) batch) (file s) (created s)) as [f n] eqn:Eb. intros tp.
    set (o := set_position (offset (ob s)) false (ob s)).
    destruct (append_inv s (append_text (tornTail (ob s)) batch) o tp HV Hcut) as (HV' & Ht & HR). rewrite Eb in HV', Ht, HR. cbn [fst snd] in HV', Ht, HR.
    destruct (HR o) as [HR' Hk']; [apply Reader_position; by apply Synced_reader|done|].
    set (s0 := mkSys f (deads s) o tp (dead_tape s) n) in *. assert (HA : Able s0) by (split_and!; done).
    pose proof (triple_sync s0 HA) as HI. cbn in HI. split; [split; [exact HI|exact Hhas]|]. intros l Hl. cbn. rewrite Ht. by apply written_lines. }
  destruct (tape s) as [|[k|] rest].
  - cbn zeta in Hdone. destruct (append_bytes _ (file s) (created s)) as [f n]. apply (Hdone []).
  - specialize (Hcut k). destruct (append_inv s _ (ob s) rest HV Hcut) as (HV' & _). destruct (append_bytes _ (file s) (created s)) as [f n]. exact HV'.
  - cbn zeta in Hdone. destruct (append_bytes _ (file s) (created s)) as [f n]. apply (Hdone rest).
Qed.

(** A dead-letter record puts its subject among the ids that are done. *)
Lemma done_later s s' : dl_lines (deads s) `prefix_of` dl_lines (deads s') -> done s ⊆ done s'.
Proof. intros [r Er]. unfold done, dead_ids. rewrite Er, omap_app. set_solver. Qed.

Lemma Inv_later s s' : Inv s -> file s' = file s -> created s' = created s -> done s ⊆ done s' -> torn_ok (deads s') -> Inv s'.
Proof.
  intros [V1 V2 V3 V4 V6] E1 E2 HD H1. split; rewrite ?E1, ?E2; try done.
  - intros id f Hin. apply HD. by eapply V1.
  - intros id Hid Hn. apply V2; set_solver.
  - intros o Ho. destruct (V3 o Ho). split; [by eapply Reader_mono|done].
Qed.

Lemma triple_dead X subject reason status : triple (Ready X) (writeDeadLetter subject reason status)
  (fun _ s => Ready (match subject with Some e => e_id e :: X | None => X end) s).
Proof.
  intros s [(HV & HS & Hk) Hhas]. unfold writeDeadLetter. pose proof (V_torn _ HV) as Ht.
  assert (Hok : forall tp, Ready (match subject with Some e => e_id e :: X | None => X end)
      (mkSys (file s) (mkDeadFile (dl_lines (deads s) ++ [(negb (dl_open (deads s)), mkDead subject reason status)]) false (dl_torn (deads s))) (ob s) (tape s) tp (created s))).
  { intros tp. set (s' := mkSys _ _ _ _ _ _). assert (HD : done s ⊆ done s') by (apply done_later; by eexists).
    assert (Ht' : torn_ok (deads s')).
    { unfold torn_ok, unreadable in *. cbn. rewrite omap_app, length_app. cbn. destruct (dl_open (deads s)); cbn in *; lia. }
    split; [split_and!; [by apply (Inv_later s)|by eapply Synced_mono|done]|]. unfold Has in *.
    destruct subject as [e|]; [|set_solver]. intros id [->|Hid]%elem_of_cons; [|by apply HD, Hhas].
    unfold done, dead_ids. cbn. rewrite omap_app. set_solver. }
  destruct (dead_tape s) as [|[k|] rest]; [by apply Hok| |by apply Hok].
  apply (Inv_later s); try done. unfold torn_ok, unreadable in *. cbn. destruct k; cbn; [by rewrite orb_false_r|]. rewrite orb_true_r. cbn. destruct (dl_open (deads s)); cbn in *; lia.
Qed.

(** *** The operations *)

Lemma triple_keep X (f : Outbox -> Outbox) : (forall D ls o, X ⊆ D -> Indexed D ls o -> Indexed D ls (f o)) ->
  (forall o, ino (f o) = ino o /\ offset (f o) = offset o /\ tornTail (f o) = tornTail o) -> triple (Ready X) (modify f) (fun _ s => Ready X s).
Proof.
  intros Hf He s [HS HX]. split; [|exact HX].
  assert (H : triple (Ready X) (modify f) (fun _ s => InSync s)); [|exact (H s (conj HS HX))].
  apply triple_modify; [by intros ? [? _]|intros ? ? [_ ?]; by apply Hf|done].
Qed.
Lemma triple_get {A} P (f : Outbox -> A) : triple P (get f) (fun a s => P s /\ a = f (ob s)).
Proof. by intros s Hs. Qed.

Lemma triple_drop X id f : id ∈ X -> triple (Ready X) (drop_id id f) (fun _ s => Ready X s).
Proof.
  intros Hid. apply triple_keep; [|done]. intros D ls o HX HI. apply Indexed_remember; [set_solver|].
  assert (HI' : Indexed D ls (on_index (map_delete id) o)) by (apply Indexed_delete; [set_solver|done]). by destruct HI'; split.
Qed.
Lemma triple_drop_all X ids f : ids ⊆ X -> triple (Ready X) (drop_all ids f) (fun _ s => Ready X s).
Proof.
  induction ids as [|id ids IH]; intros Hs; [by intros s Hr|]. eapply triple_bind; [apply triple_drop; set_solver|]. intros []. apply IH. set_solver.
Qed.
Lemma triple_counters X a b c d : triple (Ready X) (modify (on_counters a b c d)) (fun _ s => Ready X s).
Proof. apply triple_keep; [|done]. intros D ls o _ HI. by destruct HI; split. Qed.

Lemma Ready_able X s : Ready X s -> Able s.
Proof. intros [(H1 & H2 & H3) _]. split_and!; [done|by apply Synced_reader|done]. Qed.

Lemma map_values_get {V} (m : @jsmap string V) v : v ∈ map_values m -> map_ok m -> exists k, map_get k m = Some v.
Proof. intros (p & -> & Hp)%list_elem_of_fmap Hok. destruct p as [k w]. exists k. by apply map_elem_get. Qed.

Lemma triple_compact X : triple (Ready X) maybeCompact (fun _ s => Able s /\ Has X s).
Proof.
  intros s HR. unfold maybeCompact, get, bind at 1. cbn beta iota. set (o := ob s).
  destruct (_ || _); [split; [by eapply Ready_able|apply HR]|]. destruct HR as [(HV & HS & Hk) HX]. unfold bind, atomicWriteFile.
  set (b := append_text false (map l_event (map_values (index o)))).
  assert (Hdec : decode b = map l_event (map_values (index o))) by apply decode_append_text.
  assert (Hlines : forall id, id ∈ St -> id ∉ done s -> has_event id (lines_of b)).
  { intros id Hid Hn. pose proof (V_staged _ HV id Hid Hn) as He. destruct HS as [HI _]. apply (X_index _ _ _ HI) in He as Hin; [|done].
    apply map_has_get in Hin as [e Hget]. split; [apply He|]. exists e. split; [|by eapply (X_keyed _ _ _ HI)].
    pose proof (written_lines [] false (map l_event (map_values (index o))) (l_event e)) as Hw. cbn [app] in Hw. apply Hw; [done|].
    apply list_elem_of_fmap. exists e. split; [done|]. apply map_get_elem in Hget. apply list_elem_of_fmap. by exists (id, e). }
  assert (Hdone : forall tp, let s' := mkSys (Some (mkOutFile (inos (created s)) b)) (deads s) (set_ino None (ob s)) tp (dead_tape s) (S (created s)) in Able s' /\ Has X s').
  { intros tp s'. destruct HV as [V1 V2 V3 V4 V6]. split; [split_and!|exact HX].
    - split; cbn [file deads created text_of fi_text dead_tape]; try done.
      + change (acks_done (done s) (decode b)). rewrite Hdec. intros id f (e & ? & _)%list_elem_of_fmap. done.
      + intros x Hx. destruct (V3 x Hx) as [[HB _] Hkx]. split; [by apply Reader_new_file|by apply known_later].
      + intros fl [= <-]. exists (created s). split; [cbn; lia|done].
    - cbn. split; [|done]. destruct HS as [HI _]. by destruct HI; split.
    - done. }
  destruct (tape s) as [|[k|] rest]; [apply (Hdone [])| |apply (Hdone rest)]. destruct HV; by split.
Qed.

Lemma triple_locked {A} (m : M A) Q : triple InSync m Q -> triple Able (locked m) Q.
Proof. intros H. eapply triple_bind; [apply triple_sync|]. intros []. exact H. Qed.

Lemma triple_overflow X fuel : triple (Ready X) (overflow fuel) (fun _ s => exists Y, X ⊆ Y /\ Ready Y s).
Proof.
  revert X. induction fuel as [|fuel IH]; intros X s HR; unfold overflow, get, bind at 1; cbn beta iota; [by exists X|].
  fold overflow. destruct (map_values (index (ob s))) as [|e es]; [by exists X|]. destruct (_ <? _); [|by exists X].
  assert (H : triple (Ready X) (modify (on_counters 1 0 0 0) ;; writeDeadLetter (Some e) overflow_dropped None ;; writeLines [l_ack (e_id e) (Some dead)] ;;
    drop_id (e_id e) dead ;; overflow fuel) (fun _ s => exists Y, X ⊆ Y /\ Ready Y s)); [|exact (H s HR)].
  eapply triple_bind; [apply triple_counters|intros []]. eapply triple_bind; [apply triple_dead|intros []].
  eapply triple_bind; [apply (triple_write (e_id e :: X)); intros id f [= -> _]%list_elem_of_singleton; left|intros []].
  eapply triple_bind; [eapply triple_weaken; [|intros ? ?; exact (fun H => H)|apply (triple_drop (e_id e :: X)); left]; by intros ? [? _]|intros []].
  eapply triple_weaken; [exact (fun _ H => H)| |apply IH]. intros [] s' (Y & HY & HR'). exists Y. split; [set_solver|done].
Qed.

End Invariant.

(** ** Runs of processes that share the file *)

Inductive Op :=
  | op_append (e : EnvelopeV2)
  | op_ackMany (ids : list string)
  | op_deadLetter (e : EnvelopeV2) (reason : DeadLetterReason) (status : option Z)
  | op_recordUndeliverable (reason : DeadLetterReason)
  | op_replacePending (es : list EnvelopeV2)
  | op_read.
Definition run_op (op : Op) : M unit :=
  match op with
  | op_append e => let* _ := append e in ret tt
  | op_ackMany ids => ackMany ids
  | op_deadLetter e r st => deadLetter e r st
  | op_recordUndeliverable r => recordUndeliverable r
  | op_replacePending es => let* _ := replacePending es in ret tt
  | op_read => sync_
  end.
(** What the callers know afterwards: the ids staged, and those reported as delivered. *)
Definition staged_by (op : Op) : list string := match op with op_append e => if truthy (e_id e) then [e_id e] else [] | _ => [] end.
Definition delivered_by (op : Op) : list string := match op with op_ackMany ids => ids | _ => [] end.

Section Runs.
Context (inos_inj : forall i j, inos i = inos j -> i = j).
Context (others : list Outbox).

Lemma Able_staged Del St X s : (forall id, id ∈ X -> id ∉ done Del s -> has_event id (lines_of (text_of (file s)))) ->
  Able Del St others s -> Able Del (X ++ St) others s.
Proof. intros HX ([V1 V2 V3 V4 V6] & H2 & H3). split_and!; try done. split; try done. intros id [?|?]%elem_of_app; auto. Qed.
Lemma InSync_staged Del St X s : (forall id, id ∈ X -> id ∉ done Del s -> has_event id (lines_of (text_of (file s)))) ->
  InSync Del St others s -> InSync Del (X ++ St) others s.
Proof. intros HX ([V1 V2 V3 V4 V6] & H2 & H3). split_and!; try done. split; try done. intros id [?|?]%elem_of_app; auto. Qed.
Lemma Inv_unstaged Del St X s : Inv Del (X ++ St) others s -> Inv Del St others s.
Proof. intros [V1 V2 V3 V4 V6]. split; try done. intros id Hid. apply V2. set_solver. Qed.
Lemma done_deliver Del ids s : done Del s ⊆ done (ids ++ Del) s.
Proof. unfold done. set_solver. Qed.
Lemma Inv_deliver Del St ids s : Inv Del St others s -> Inv (ids ++ Del) St others s.
Proof.
  intros [V1 V2 V3 V4 V6]. pose proof (done_deliver Del ids s) as HD. split; try done.
  - intros id f Hin. apply HD. by eapply V1.
  - intros id Hid Hn. apply V2; set_solver.
  - intros o Ho. destruct (V3 o Ho). split; [by eapply Reader_mono|done].
Qed.
Lemma Able_deliver Del St ids s : Able Del St others s -> Able (ids ++ Del) St others s.
Proof. intros (H1 & H2 & H3). split_and!; [by apply Inv_deliver|eapply Reader_mono; [apply done_deliver|done]|done]. Qed.

Lemma Ready_nil Del St s : InSync Del St others s -> Ready Del St others [] s.
Proof. intros H. split; [done|]. unfold Has. set_solver. Qed.

Lemma staged_elem e id : id ∈ staged_by (op_append e) -> truthy id = true /\ id = e_id e.
Proof. cbn. destruct (truthy (e_id e)) eqn:Ht; [|by intros ?%not_elem_of_nil]. by intros ->%list_elem_of_singleton. Qed.

Lemma append_step Del St e (St' := (staged_by (op_append e) ++ St)%list) :
  forall s, Able Del St others s -> match append e s with (s', Some _) => Able Del St' others s' | (s', None) => Inv Del St others s' end.
Proof.
  apply (triple_locked Del St others _ (fun _ s' => Able Del St' others s')). intros s HS. unfold get, bind at 1. cbn beta iota.
  destruct (map_get (e_id e) (index (ob s))) as [x|] eqn:G.
  - apply Able_staged; [|by apply (Ready_able _ _ _ []), Ready_nil]. intros id [_ ->]%staged_elem Hn. destruct HS as (_ & (HI & _) & _).
    apply (X_index _ _ _ HI); [done|]. apply map_has_get. eauto.
  - pose proof (triple_write Del St others inos_inj [] [l_event e]) as Hw.
    assert (H1 : forall id f, l_ack id f ∈ [l_event e] -> id ∈ []) by (intros id f Hin; apply list_elem_of_singleton in Hin; done).
    specialize (Hw H1 s (Ready_nil _ _ _ HS)). unfold bind at 1. destruct (writeLines [l_event e] s) as [s1 [[]|]]; [|exact Hw].
    destruct Hw as [[HS1 _] Hl]. assert (HS2 : InSync Del St' others s1).
    { apply InSync_staged; [|done]. intros id [Ht ->]%staged_elem _. split; [done|]. exists e. split; [apply Hl; left|done]. }
    assert (Hrest : triple Del St' others (Able Del St' others) (sync_ ;; (let* o := get (fun o => o) in overflow (map_size (index o)) ;; ret e))
      (fun _ s' => Able Del St' others s')).
    { eapply triple_bind; [apply triple_sync|intros []]. eapply triple_bind; [apply triple_get|intros o]. intros s2 [HS3 ->].
      pose proof (triple_overflow Del St' others inos_inj [] (map_size (index (ob s2))) s2 (Ready_nil _ _ _ HS3)) as Ho.
      unfold bind. destruct (overflow _ s2) as [s3 [[]|]]; [|exact Ho]. destruct Ho as (Y & _ & HY). by eapply Ready_able. }
    specialize (Hrest s1 (Ready_able _ _ _ [] s1 (Ready_nil _ _ _ HS2))). destruct ((sync_ ;; _) s1) as [s2 [r|]]; [done|]. by eapply Inv_unstaged.
Qed.

Lemma ackMany_step Del St ids : triple (ids ++ Del) St others (Able (ids ++ Del) St others) (ackMany ids) (fun _ s => Able (ids ++ Del) St others s).
Proof.
  apply triple_locked. intros s HS. unfold get, bind at 1. cbn beta iota. set (live := js_filter _ ids). assert (Hl : live ⊆ ids) by (intros id [? _]%js_filter_elem; done).
  clearbody live. destruct live as [|l ls]; [by apply (Ready_able _ _ _ []), Ready_nil|].
  assert (H : triple (ids ++ Del) St others (Ready (ids ++ Del) St others ids)
    (writeLines (map (fun id => l_ack id (Some delivered)) (l :: ls)) ;; drop_all (l :: ls) delivered ;; maybeCompact) (fun _ s => Able (ids ++ Del) St others s)).
  { eapply triple_bind; [apply (triple_write _ _ _ inos_inj ids); intros id f (x & [= -> _] & Hx)%list_elem_of_fmap; by apply Hl|intros []].
    eapply triple_bind; [eapply triple_weaken; [|intros ? ?; exact (fun H => H)|by apply (triple_drop_all _ _ _ inos_inj ids)]; by intros ? [? _]|intros []].
    eapply triple_weaken; [exact (fun _ H => H)| |apply (triple_compact _ _ _ inos_inj ids)]. by intros ? ? [? _]. }
  apply H. split; [done|]. unfold Has, done. set_solver.
Qed.

Lemma deadLetter_step Del St e reason status : triple Del St others (Able Del St others) (deadLetter e reason status) (fun _ s => Able Del St others s).
Proof.
  apply triple_locked. eapply triple_weaken; [apply Ready_nil|intros ? ?; exact (fun H => H)|].
  eapply triple_bind; [by apply triple_dead|intros []]. set (X := [e_id e]).
  eapply (triple_bind _ _ _ _ _ (fun _ s => Ready Del St others X s)); [destruct (is_rejection reason); apply triple_counters|intros []].
  eapply (triple_bind _ _ _ _ _ (fun _ s => Ready Del St others X s)).
  - eapply triple_bind; [apply triple_get|intros o]. intros s [HR ->]. destruct (map_has (e_id e) (index (ob s))); [|exact HR].
    assert (H : triple Del St others (Ready Del St others X) (writeLines [l_ack (e_id e) (Some dead)] ;; modify (fun o => on_tombstones S (on_index (map_delete (e_id e)) o)))
      (fun _ s => Ready Del St others X s)); [|exact (H s HR)].
    eapply triple_bind; [apply (triple_write _ _ _ inos_inj X); intros id f [= -> _]%list_elem_of_singleton; left|intros []].
    eapply triple_weaken; [|intros ? ?; exact (fun H => H)|apply (triple_keep _ _ _ X); [|done]]; [by intros ? [? _]|].
    intros D ls o HX HI. assert (HI' : Indexed D ls (on_index (map_delete (e_id e)) o)) by (apply Indexed_delete; [unfold X in HX; set_solver|done]). by destruct HI'; split.
  - intros []. eapply triple_bind; [apply (triple_keep _ _ _ X); [|done]; intros D ls o HX HI; apply Indexed_remember; [unfold X in HX; set_solver|done]|intros []].
    eapply triple_weaken; [exact (fun _ H => H)| |apply (triple_compact _ _ _ inos_inj X)]. by intros ? ? [? _].
Qed.

Lemma other_step Del St op : match op with op_recordUndeliverable _ | op_replacePending _ | op_read => True | _ => False end ->
  triple Del St others (Able Del St others) (run_op op) (fun _ s => Able Del St others s).
Proof.
  assert (Hw : forall s, InSync Del St others s -> Able Del St others s) by (intros s H; by apply (Ready_able _ _ _ []), Ready_nil).
  destruct op as [| | |reason|es|]; try done; intros _; cbn [run_op].
  - apply triple_locked. eapply (triple_weaken _ _ _ _ _ _ (fun _ s => Ready Del St others [] s)); [apply Ready_nil|intros ? ? H; exact (Hw _ (proj1 H))|].
    eapply triple_bind; [by apply triple_dead|intros []]. by apply triple_counters.
  - eapply (triple_bind _ _ _ _ _ (fun _ s => Able Del St others s)); [|intros r; apply (triple_ret _ _ _ tt (fun _ s => Able Del St others s))]. apply triple_locked. intros s HS. unfold get, bind at 1. cbn beta iota.
    destruct (js_filter _ es) as [|x xs]; [by apply Hw|].
    assert (H : triple Del St others (Ready Del St others []) (writeLines (map l_reseq (x :: xs)) ;; modify (on_counters 0 0 0 (length (x :: xs))) ;; ret (length (x :: xs)))
      (fun _ s => Able Del St others s)); [|apply H; by apply Ready_nil].
    eapply triple_bind; [apply (triple_write _ _ _ inos_inj []); by intros id f (y & ? & _)%list_elem_of_fmap|intros []].
    eapply triple_bind; [eapply triple_weaken; [|intros ? ?; exact (fun H => H)|by apply triple_counters]; by intros ? [? _]|intros []].
    intros s' HR. by apply Hw, HR.
  - eapply triple_weaken; [exact (fun _ H => H)|intros ? ? H; exact (Hw _ H)|apply triple_sync].
Qed.

(** Every operation keeps the invariant; one that returns has staged its event. *)
Lemma op_step Del St op s : Able Del St others s ->
  match run_op op s with
  | (s', Some _) => Able (delivered_by op ++ Del) (staged_by op ++ St) others s'
  | (s', None) => Inv (delivered_by op ++ Del) St others s'
  end.
Proof.
  intros HA. destruct op as [e|ids|e reason status|reason|es|] eqn:Eop; cbn [delivered_by].
  - pose proof (append_step Del St e s HA) as H. cbn [run_op]. unfold bind. by destruct (append e s) as [s' [r|]].
  - exact (ackMany_step Del St ids s (Able_deliver Del St ids s HA)).
  - exact (deadLetter_step Del St e reason status s HA).
  - exact (other_step Del St (op_recordUndeliverable reason) I s HA).
  - exact (other_step Del St (op_replacePending es) I s HA).
  - exact (other_step Del St op_read I s HA).
Qed.
End Runs.

(** The processes that share the files, and what was staged and delivered so far. *)
Record World := mkWorld { w_file : option OutFile; w_deads : DeadFile; w_created : nat; procs : list Outbox; staged : list string; w_delivered : list string }.
Definition world0 : World := mkWorld None (mkDeadFile [] false 0) 0 [] [] [].

(** A process dies at any time, in a write of either file at any byte. Another takes its place.
    A read is a step: the reads of a process do not overlap with its other calls. *)
Inductive step : World -> World -> Prop :=
  | step_join w : step w (mkWorld (w_file w) (w_deads w) (w_created w) (procs w ++ [new_outbox]) (staged w) (w_delivered w))
  | step_die w a o b : procs w = (a ++ o :: b)%list -> step w (mkWorld (w_file w) (w_deads w) (w_created w) (a ++ new_outbox :: b) (staged w) (w_delivered w))
  | step_op w a o b op tp dtp s' r :
      procs w = (a ++ o :: b)%list ->
      run_op op (mkSys (w_file w) (w_deads w) o tp dtp (w_created w)) = (s', r) ->
      step w (mkWorld (file s') (deads s') (created s') (a ++ (if r then ob s' else new_outbox) :: b)
                (if r then staged_by op ++ staged w else staged w)%list (delivered_by op ++ w_delivered w)).

Definition sys_of (w : World) (o : Outbox) (tp dtp : list (option nat)) : Sys := mkSys (w_file w) (w_deads w) o tp dtp (w_created w).
Definition WInv (w : World) : Prop := Inv (w_delivered w) (staged w) (procs w) (sys_of w new_outbox [] []).

Lemma Inv_procs Del St others others' s s' : Inv Del St others s -> file s' = file s -> deads s' = deads s -> created s' = created s ->
  (forall o, o ∈ others' -> o ∈ others \/ Reader (done Del s) (file s) o /\ known_ino (created s) o) -> Inv Del St others' s'.
Proof.
  intros [V1 V2 V3 V4 V6] E1 E2 E3 Ho. split; unfold done in *; rewrite ?E1, ?E2, ?E3; try done.
  intros o Hin. destruct (Ho o Hin) as [?|?]; auto.
Qed.

Lemma WInv_step w w' : (forall i j, inos i = inos j -> i = j) -> step w w' -> WInv w -> WInv w'.
Proof.
  intros Hinj Hst HI. unfold WInv in *. destruct Hst as [w|w a o b Hp|w a o b op tp dtp s' r Hp Hr]; cbn [w_delivered staged procs].
  - eapply Inv_procs; [exact HI|done|done|done|]. intros o [?| ->%list_elem_of_singleton]%elem_of_app; [by left|]. right. split; [apply Reader_new|done].
  - eapply Inv_procs; [exact HI|done|done|done|]. intros x Hx. rewrite Hp.
    apply elem_of_app in Hx as [?|[->|?]%elem_of_cons]; [left; set_solver|right; split; [apply Reader_new|done]|left; set_solver].
  - assert (HA : Able (w_delivered w) (staged w) (a ++ b) (sys_of w o tp dtp)).
    { rewrite Hp in HI. destruct (V_others _ _ _ _ HI o) as [H1 H2]; [set_solver|]. split_and!; [|exact H1|exact H2].
      eapply Inv_procs; [exact HI|done|done|done|]. intros x Hx. left. set_solver. }
    pose proof (op_step Hinj (a ++ b) _ _ op _ HA) as H. unfold sys_of in H. rewrite Hr in H. destruct r as [r|].
    + destruct H as (H1 & H2 & H3). eapply Inv_procs; [exact H1|done|done|done|]. intros x Hx. apply elem_of_app in Hx as [?|[->|?]%elem_of_cons]; [left; set_solver|by right|left; set_solver].
    + eapply Inv_procs; [exact H|done|done|done|]. intros x Hx.
      apply elem_of_app in Hx as [?|[->|?]%elem_of_cons]; [left; set_solver|right; split; [apply Reader_new|done]|left; set_solver].
Qed.

Lemma WInv_reachable w : (forall i j, inos i = inos j -> i = j) -> rtc step world0 w -> WInv w.
Proof.
  intros Hinj. revert w. apply rtc_ind_r; [|intros x y _ Hst Hx; by eapply WInv_step].
  split; cbn; try done; [intros id f ?|..|unfold torn_ok; cbn; lia]; set_solver.
Qed.
Lemma WInv_able w o tp : WInv w -> o = new_outbox \/ o ∈ procs w -> Able (w_delivered w) (staged w) [] (sys_of w o tp []).
Proof.
  intros HI Ho. split_and!; [eapply Inv_procs; [exact HI|done|done|done|by intros ? ?%not_elem_of_nil]| |].
  - destruct Ho as [->|Ho]; [apply Reader_new|]. by destruct (V_others _ _ _ _ HI o Ho).
  - destruct Ho as [->|Ho]; [done|]. by destruct (V_others _ _ _ _ HI o Ho).
Qed.

Lemma unreadable_bounded w : (forall i j, inos i = inos j -> i = j) -> rtc step world0 w -> (length (unreadable (w_deads w)) <= dl_torn (w_deads w))%nat.
Proof. intros Hinj Hw. pose proof (V_torn _ _ _ _ (WInv_reachable w Hinj Hw)) as Ht. unfold torn_ok in Ht. cbn in Ht. lia. Qed.

Lemma event_kept w id : (forall i j, inos i = inos j -> i = j) -> rtc step world0 w -> id ∈ staged w ->
  id ∈ w_delivered w \/ id ∈ dead_ids (w_deads w) \/
  forall o, o = new_outbox \/ o ∈ procs w -> exists s' es e, peek None (sys_of w o [] []) = (s', Some es) /\ e ∈ es /\ e_id e = id.
Proof.
  intros Hinj Hw Hid. pose proof (WInv_reachable w Hinj Hw) as HI. destruct (decide (id ∈ w_delivered w)) as [?|Hd1]; [by left|].
  destruct (decide (id ∈ dead_ids (w_deads w))) as [?|Hd2]; [by right; left|]. right; right. intros o Ho.
  assert (Hn : id ∉ done (w_delivered w) (sys_of w o [] [])) by (unfold done; cbn; set_solver).
  destruct (WInv_able w o [] HI Ho) as (HV & HR & _). destruct (sync_synced _ _ _ HR (V_acks _ _ _ _ HV)) as (HX & _).
  pose proof (V_staged _ _ _ _ HV id Hid Hn) as He. apply (X_index _ _ _ HX) in He; [|done]. apply map_has_get in He as [e He].
  eexists _, _, e. split; [reflexivity|]. split; [|by eapply (X_keyed _ _ _ HX)]. apply map_get_elem in He. apply list_elem_of_fmap. by exists (id, e).
Qed.

(** C19: However processes stage, acknowledge, put aside, renumber, compact, come, go and die in
    the middle of writes, an event whose staging returned is delivered, or recorded whole in the dead-letter
    file, or listed as pending by every process and by one that has just started. A record of the
    dead-letter file is unreadable only if it follows one that was cut off: at most one for each
    process that died in a dead-letter write. Inode numbers are not used again, and a process's reads without
    the lock do not overlap with its other calls. *)
Theorem nothing_lost w id : (forall i j, inos i = inos j -> i = j) -> rtc step world0 w -> id ∈ staged w ->
  (id ∈ w_delivered w \/ id ∈ dead_ids (w_deads w) \/
   forall o, o = new_outbox \/ o ∈ procs w -> exists s' es e, peek None (sys_of w o [] []) = (s', Some es) /\ e ∈ es /\ e_id e = id) /\
  (length (unreadable (w_deads w)) <= dl_torn (w_deads w))%nat.
Proof.
  intros Hinj Hw Hid. split; [by apply event_kept|by apply unreadable_bounded].
Qed.

(** ** The cap on pending events *)

(** A process that has read all of a file whose last line is complete. *)
Record Quiet (s : Sys) : Prop := mkQuiet {
  Q_file : exists fl, file s = Some fl /\ ino (ob s) = Some (fi_ino fl) /\ offset (ob s) = length (fi_text fl);
  Q_closed : open_end (text_of (file s)) = false;
  Q_keyed : forall id e, map_get id (index (ob s)) = Some e -> e_id e = id;
  Q_ok : map_ok (index (ob s));
  Q_tape : tape s = [] /\ dead_tape s = []
}.

Lemma map_delete_absent {V} k (m : @jsmap string V) : k ∉ map_keys m -> map_delete k m = m.
Proof.
  induction m as [|[q v] m IH]; [done|]. cbn. intros [Hq Hm]%not_elem_of_cons. rewrite decide_False by done. by rewrite IH.
Qed.

Lemma quiet_write_ack s id f : Quiet s -> exists s', writeLines [l_ack id f] s = (s', Some tt) /\ Quiet s' /\
  index (ob s') = map_delete id (index (ob s)) /\ deads s' = deads s.
Proof.
  intros [(fl & Ef & Ei & Eo) Hc Hk Hok (Et & Ed)]. unfold writeLines. rewrite Et, Ef. rewrite Ef in Hc. cbn [append_bytes]. set (b := append_text _ _). set (t := fi_text fl) in *.
  assert (Hb : open_end b = false) by (by apply append_text_open). assert (Hdec : decode b = [l_ack id f]) by apply decode_append_text.
  assert (Hlen : (0 < length b)%nat) by (destruct b; [done|cbn; lia]).
  assert (Hs : sync (Some (mkOutFile (fi_ino fl) (t ++ b))) (set_position (offset (ob s)) false (ob s)) =
    apply_chunk b (set_position (offset (ob s)) false (ob s))).
  { unfold sync, sync_stat. cbn [fi_ino fi_text ino offset set_position]. rewrite bool_decide_eq_true_2 by done. rewrite Eo, length_app.
    destruct (Nat.ltb_spec (length t + length b) (length t)); [lia|]. cbn [negb orb offset set_position].
    destruct (Nat.eqb_spec (length t + length b) (length t)); [lia|]. by rewrite drop_app_length. }
  rewrite Hs. eexists. split; [reflexivity|]. unfold apply_chunk. rewrite complete_part_whole, Hdec by done. cbn [foldl apply_line]. split; [|done].
  split; cbn [file ob text_of fi_text index ino offset set_position tape dead_tape deads].
  - eexists. split; [reflexivity|]. split; [done|]. cbn. rewrite Eo, length_app. done.
  - by apply open_end_closed_app.
  - cbn. intros k e Hg. destruct (decide (id = k)) as [->|Hne]; [by rewrite map_get_delete_eq in Hg|]. rewrite map_get_delete_ne in Hg by done. by apply Hk.
  - by apply map_delete_ok.
  - done.
Qed.

Definition dropped_record (e : EnvelopeV2) : DeadRecord := mkDead (Some e) overflow_dropped None.
(** The dead-letter file after some records: the first of them is not readable if the last line was cut off. *)
Definition put_records (rs : list DeadRecord) (d : DeadFile) : DeadFile :=
  match rs with
  | [] => d
  | r :: rs' => mkDeadFile (dl_lines d ++ (negb (dl_open d), r) :: map (pair true) rs') false (dl_torn d)
  end.
Lemma put_records_cons r rs d : put_records (r :: rs) d = put_records rs (put_records [r] d).
Proof. destruct rs as [|r' rs]; [done|]. cbn. by rewrite <- app_assoc. Qed.

Lemma overflow_drops fuel : 0 <= maxPending opts -> forall s, Quiet s -> map_size (index (ob s)) = fuel ->
  let n := (fuel - Z.to_nat (maxPending opts))%nat in
  exists s', overflow fuel s = (s', Some tt) /\ Quiet s' /\ index (ob s') = drop n (index (ob s)) /\
    deads s' = put_records (map dropped_record (take n (map_values (index (ob s))))) (deads s).
Proof.
  intros Hmax. induction fuel as [|fuel IH]; intros s HQ Hsz n.
  { exists s. split; [done|]. subst n. cbn. rewrite take_0. done. }
  cbn [overflow]. unfold get, bind at 1. cbn beta iota. destruct (index (ob s)) as [|[k e] m] eqn:Ei; [done|]. cbn [map_values fmap list_fmap snd map].
  cbn in Hsz. injection Hsz as Hsz. unfold size_of. cbn [map_size length].
  destruct (Z.ltb_spec (maxPending opts) (Z.of_nat (S (length m)))) as [Hlt|Hge]; cycle 1.
  { exists s. replace n with 0%nat by (unfold n, map_size in *; lia). rewrite take_0, drop_0, Ei. done. }
  assert (Ek : e_id e = k) by (apply (Q_keyed _ HQ); rewrite Ei; cbn; by rewrite decide_True).
  pose proof (Q_ok _ HQ) as Hok. rewrite Ei in Hok. assert (Hkm : k ∉ map_keys m) by (by apply NoDup_cons_1_1 in Hok).
  destruct HQ as [HQ1 HQ2 HQ3 HQ4 (Et & Ed)]. unfold modify, bind at 1. unfold writeDeadLetter, bind at 1. cbn [dead_tape deads dl_open file ob tape created]. rewrite Ed.
  set (s1 := mkSys _ _ _ _ _ _). assert (HQ' : Quiet s1) by (by split).
  destruct (quiet_write_ack s1 (e_id e) (Some dead) HQ') as (s2 & E2 & HQ2' & Ei2 & Ed2). unfold bind at 1. rewrite E2.
  assert (Em : index (ob s2) = m) by (rewrite Ei2; cbn; rewrite Ei, Ek; cbn; by rewrite decide_True).
  unfold drop_id, modify, bind. set (s3 := mkSys _ _ _ _ _ _).
  assert (Em3 : index (ob s3) = m) by (cbn; rewrite Em, map_delete_absent; [done|by rewrite Ek]).
  destruct HQ2' as [Q1 Q2 Q3 Q4 Q5]. assert (HQ3' : Quiet s3) by (split; rewrite ?Em3, <- ?Em; done).
  assert (Hsz3 : map_size (index (ob s3)) = fuel) by by rewrite Em3.
  destruct (IH s3 HQ3' Hsz3) as (s' & E' & HQ4' & Ei' & Ed'). exists s'. rewrite E', Ei', Ed', Em3. split_and!; try done.
  - subst n. replace (S fuel - Z.to_nat (maxPending opts))%nat with (S (fuel - Z.to_nat (maxPending opts))) by lia. done.
  - cbn [s3 deads]. rewrite Ed2. subst n.
    replace (S fuel - Z.to_nat (maxPending opts))%nat with (S (fuel - Z.to_nat (maxPending opts))) by lia. cbn [take map]. by rewrite put_records_cons.
Qed.

Lemma Synced_quiet D s : Synced D (file s) (ob s) -> (exists fl, file s = Some fl) -> open_end (text_of (file s)) = false ->
  tape s = [] /\ dead_tape s = [] -> Quiet s.
Proof.
  intros (HI & H2 & _) [fl Ef] Hc Ht. rewrite Ef in *. cbn in *. destruct H2 as [H2 H3]. rewrite complete_part_whole in H3 by done.
  split; [by exists fl|by rewrite Ef|apply HI|apply HI|done].
Qed.

(** Writing a line that the process does not crash in. *)
Lemma write_event_quiet Del St others s e : (forall i j, inos i = inos j -> i = j) -> InSync Del St others s -> tape s = [] -> dead_tape s = [] ->
  exists s1, writeLines [l_event e] s = (s1, Some tt) /\ Quiet s1 /\ deads s1 = deads s.
Proof.
  intros Hinj HS Et Ed. assert (H1 : forall id f, l_ack id f ∈ [l_event e] -> id ∈ []) by (intros id f Hin; apply list_elem_of_singleton in Hin; done).
  pose proof (triple_write Del St others Hinj [] [l_event e] H1 s (Ready_nil Hinj _ _ _ _ HS)) as Hw.
  destruct HS as (HV & (HI & HS & Htorn) & _). unfold writeLines in *. rewrite Et in *. set (b := append_text _ _) in *.
  assert (Ef : exists fl, (append_bytes b (file s) (created s)).1 = Some fl /\ fi_text fl = (text_of (file s) ++ b)%list) by (destruct (file s); by eexists).
  destruct (append_bytes b (file s) (created s)) as [f n]. cbn [fst] in Ef. destruct Ef as (fl & -> & Efl). eexists. split; [reflexivity|]. split; [|done].
  destruct Hw as [[(_ & HS' & _) _] _]. eapply Synced_quiet; [exact HS'|by eexists| |done]. cbn. rewrite Efl.
  assert (Hb : open_end b = false) by (by apply append_text_open). destruct (tornTail (ob s)) eqn:E; [|apply open_end_closed_app; auto].
  apply open_end_false in Hb as [Hb|[q Hb]]; [|rewrite Hb, app_assoc; apply open_end_nl]. exfalso. unfold b, append_text in Hb. done.
Qed.

Lemma put_records_readable rs d : dl_open d = false -> dl_records (put_records rs d) = (dl_records d ++ rs)%list.
Proof.
  intros Hd. unfold dl_records. destruct rs as [|r rs]; cbn; [by rewrite app_nil_r|]. rewrite omap_app, Hd. cbn. f_equal. f_equal.
  induction rs as [|x rs IH]; [done|]. cbn. by f_equal.
Qed.

(** C23: A process that stages an event without dying makes it durable and then puts the oldest events aside, one
    dead-letter record each and in their order, until at most [maxPending] are left. All the records are
    readable unless the last line of the dead-letter file was cut off before; then all but the first are. *)
Theorem append_drops_oldest w o e : (forall i j, inos i = inos j -> i = j) -> rtc step world0 w -> o ∈ procs w -> 0 <= maxPending opts ->
  map_get (e_id e) (index (sync (w_file w) o)) = None ->
  exists s1 s', writeLines [l_event e] (sys_of w (sync (w_file w) o) [] []) = (s1, Some tt) /\ append e (sys_of w o [] []) = (s', Some e) /\
    let n := (map_size (index (ob s1)) - Z.to_nat (maxPending opts))%nat in
    let dropped := map dropped_record (take n (map_values (index (ob s1)))) in
    index (ob s') = drop n (index (ob s1)) /\ size_of (index (ob s')) <= maxPending opts /\
    deads s' = put_records dropped (w_deads w) /\
    (dl_open (w_deads w) = false -> dl_records (deads s') = (dl_records (w_deads w) ++ dropped)%list).
Proof.
  intros Hinj Hw Ho Hmax Hnew. pose proof (WInv_able w o [] (WInv_reachable w Hinj Hw) (or_intror Ho)) as HA.
  pose proof (triple_sync _ _ _ _ HA) as HS. cbn [sync_ fst] in HS.
  destruct (write_event_quiet _ _ _ _ e Hinj HS eq_refl eq_refl) as (s1 & E1 & HQ & Ed).
  exists s1. assert (E1' : writeLines [l_event e] (sys_of w (sync (w_file w) o) [] []) = (s1, Some tt)) by exact E1.
  assert (Hs : sync (file s1) (ob s1) = ob s1).
  { destruct HQ as [(fl & Ef & Ei & Eo) _ _ _ _]. rewrite Ef. unfold sync, sync_stat. rewrite bool_decide_eq_true_2, Eo, Nat.ltb_irrefl by done. cbn [negb orb]. by rewrite Eo, Nat.eqb_refl. }
  destruct (overflow_drops _ Hmax s1 HQ eq_refl) as (s' & E' & _ & Ei & Edl). exists s'. split; [done|]. split.
  - unfold append, locked, sync_, get, bind. cbn [ob file deads tape dead_tape created sys_of]. rewrite Hnew.
    unfold sys_of in E1'. rewrite E1', Hs. destruct s1; cbn [file ob deads tape dead_tape created] in *. by rewrite E'.
  - split; [done|]. split; [rewrite Ei; unfold size_of, map_size; rewrite length_drop; unfold map_size; lia|]. rewrite Edl, Ed.
    split; [done|]. apply put_records_readable.
Qed.

(** *** Evaluating runs *)

Inductive Act := act_join | act_op (i : nat) (op : Op) (tp dtp : list (option nat)).
Definition act (w : World) (a : Act) : World :=
  match a with
  | act_join => mkWorld (w_file w) (w_deads w) (w_created w) (procs w ++ [new_outbox]) (staged w) (w_delivered w)
  | act_op i op tp dtp =>
      match drop i (procs w) with
      | [] => w
      | o :: b =>
          let (s', r) := run_op op (sys_of w o tp dtp) in
          mkWorld (file s') (deads s') (created s') (take i (procs w) ++ (if r then ob s' else new_outbox) :: b)
            (if r then staged_by op ++ staged w else staged w)%list (delivered_by op ++ w_delivered w)
      end
  end.

Lemma act_step w a : rtc step w (act w a).
Proof.
  destruct a as [|i op tp dtp]; cbn; [apply rtc_once; constructor|]. destruct (drop i (procs w)) as [|o b] eqn:E; [constructor|].
  destruct (run_op op (sys_of w o tp dtp)) as [s' r] eqn:Er. apply rtc_once. eapply (step_op w (take i (procs w)) o b op tp dtp); [|exact Er].
  by rewrite <- E, take_drop.
Qed.
Lemma acts_reachable acts w : rtc step world0 w -> rtc step world0 (foldl act w acts).
Proof. revert w. induction acts as [|a acts IH]; intros w Hw; [done|]. cbn. apply IH. etrans; [exact Hw|apply act_step]. Qed.
End Outbox.

(** ** Synchronising without the lock

    Readers call [sync] outside the lock, so two calls in one process can overlap at the
    reads of the file: [sync_begin] is what runs up to the read, [sync_end] what runs after it. *)
Module Unlocked.
Section Unlocked.
Context `{Codec : EventCodec OutLine}.

(** The state after [stat], and the bytes read. *)
Definition sync_begin (file : option OutFile) (o : Outbox) : Outbox * option text :=
  let o := sync_stat file o in
  match file with
  | None => (o, None)
  | Some f => (o, if Nat.eqb (length (fi_text f)) (offset o) then None else Some (drop (offset o) (fi_text f)))
  end.
Definition sync_end (buf : option text) (o : Outbox) : Outbox := match buf with Some b => apply_chunk b o | None => o end.

(** One call at a time is the [sync] of the operations. *)
Lemma sync_phases f o : sync f o = sync_end (sync_begin f o).2 (sync_begin f o).1.
Proof. unfold sync, sync_begin, sync_end. destruct f as [fl|]; [|done]. cbn [fst snd]. by destruct (Nat.eqb _ _). Qed.

Definition overlap (f : option OutFile) (o : Outbox) : Outbox :=
  let (o1, b1) := sync_begin f o in
  let (o2, b2) := sync_begin f o1 in
  sync_end b2 (sync_end b1 o2).

(** Two calls that overlap on a file new to the process apply the lines twice and
    count their bytes twice. *)
Lemma overlap_offset f o : ino o <> Some (fi_ino f) -> fi_text f <> [] -> 
  offset (overlap (Some f) o) = (2 * length (complete_part (fi_text f)))%nat.
Proof.
  intros Hi Hne. set (o1 := set_ino (Some (fi_ino f)) (reset o)). assert (Hl : (0 < length (fi_text f))%nat) by (destruct (fi_text f); [done|cbn; lia]).
  assert (E1 : sync_stat (Some f) o = o1) by (unfold sync_stat; by rewrite bool_decide_eq_false_2).
  assert (E2 : sync_stat (Some f) o1 = o1) by (unfold sync_stat; rewrite bool_decide_eq_true_2 by done; cbn; destruct (Nat.ltb_spec (length (fi_text f)) 0); [lia|done]).
  unfold overlap, sync_begin. rewrite E1, E2. change (offset o1) with 0%nat. destruct (Nat.eqb_spec (length (fi_text f)) 0); [lia|].
  cbn [sync_end]. rewrite drop_0.
  assert (Ha : forall t x, offset (apply_chunk t x) = (offset x + length (complete_part t))%nat).
  { intros t x. unfold apply_chunk. cbn [offset set_position]. f_equal. by destruct (foldl_kept (decode (complete_part t)) (set_position (offset x) (open_end t) x)) as (_ & -> & _). }
  rewrite !Ha. cbn. lia.
Qed.
End Unlocked.
End Unlocked.

(** ** Evaluated runs *)
Module OutboxSample.

#[local] Instance EnvelopeV2_eq_dec : EqDecision EnvelopeV2.
Proof. solve_decision. Defined.
#[local] Instance OutLine_eq_dec : EqDecision OutLine.
Proof. solve_decision. Defined.
#[local] Instance Fate_countable : Countable Fate.
Proof. refine (inj_countable' (fun f => match f with delivered => true | dead => false end) (fun b => if b then delivered else dead) _). by intros []. Defined.
#[local] Instance EnvelopeV2_countable : Countable EnvelopeV2.
Proof. refine (inj_countable' (fun e => (e_id e, source_sequence e, e_content e)) (fun '(a, b, c) => mkEnvelope a b c) _). by intros []. Defined.
#[local] Instance OutLine_countable : Countable OutLine.
Proof.
  refine (inj_countable' (fun l => match l with l_event e => inl (inl e) | l_reseq e => inl (inr e) | l_ack i s => inr (i, s) end)
    (fun x => match x with inl (inl e) => l_event e | inl (inr e) => l_reseq e | inr (i, s) => l_ack i s end) _).
  by intros [].
Defined.
#[local] Instance line_codec : EventCodec OutLine := number_codec.

Definition ev (id : string) (n : Z) : EnvelopeV2 := mkEnvelope id n "".
Definition opts2 : Options := mkOptions 3 2.
Definition do (i : nat) (op : Op) : Act := act_op i op [] [].
Definition ids_of (w : World) (o : Outbox) : list string := map e_id (map_values (index (sync (w_file w) o))).

(** Two processes; one dies in the middle of staging c, another takes over. *)
Definition run_a : list Act :=
  [act_join; act_join; do 0 (op_append (ev "a" 1)); do 1 (op_append (ev "b" 2)); act_op 0 (op_append (ev "c" 3)) [Some 9%nat] [];
   do 0 (op_append (ev "d" 4)); do 1 (op_ackMany ["a"])].
Definition world_a : World := foldl (act Datatypes.id opts2) world0 run_a.

Example run_a_result : staged world_a = ["d"; "b"; "a"] /\ w_delivered world_a = ["a"] /\ map (ids_of world_a) (new_outbox :: procs world_a) = [["b"; "d"]; ["b"; "d"]; ["b"; "d"]].
Proof. vm_compute. split_and!; reflexivity. Qed.

Lemma hd_elem {A} (d : A) l : Nat.ltb 0 (length l) = true -> List.hd d l ∈ l.
Proof. destruct l; [done|left]. Qed.

Lemma nothing_lost_witness : exists s' es e, peek None (sys_of world_a new_outbox [] []) = (s', Some es) /\ e ∈ es /\ e_id e = "b".
Proof.
  destruct (nothing_lost Datatypes.id opts2 world_a "b") as [[H|[H|H]] _].
  - by intros i j.
  - apply acts_reachable. constructor.
  - apply (bool_decide_unpack _). vm_compute. exact I.
  - exfalso. revert H. apply (bool_decide_unpack (~ _)). vm_compute. exact I.
  - exfalso. revert H. apply (bool_decide_unpack (~ _)). vm_compute. exact I.
  - exact (H new_outbox (or_introl eq_refl)).
Defined.

(** Three events may wait: staging a fourth puts the oldest aside. *)
Definition run_full : list Act := [act_join; do 0 (op_append (ev "a" 1)); do 0 (op_append (ev "b" 2)); do 0 (op_append (ev "c" 3))].
Definition world_full : World := foldl (act Datatypes.id opts2) world0 run_full.
Definition proc_full : Outbox := List.hd new_outbox (procs world_full).

Lemma append_drops_oldest_witness : exists s1 s', writeLines Datatypes.id [l_event (ev "d" 4)] (sys_of world_full (sync (w_file world_full) proc_full) [] []) = (s1, Some tt) /\
  append Datatypes.id opts2 (ev "d" 4) (sys_of world_full proc_full [] []) = (s', Some (ev "d" 4)) /\ size_of (index (ob s')) <= 3.
Proof.
  destruct (append_drops_oldest Datatypes.id opts2 world_full proc_full (ev "d" 4)) as (s1 & s' & H1 & H2 & _ & H3 & _).
  - by intros i j.
  - apply acts_reachable. constructor.
  - apply hd_elem. vm_compute. reflexivity.
  - vm_compute. discriminate.
  - vm_compute. reflexivity.
  - exists s1, s'. exact (conj H1 (conj H2 H3)).
Defined.
Example full_result : let w := act Datatypes.id opts2 world_full (do 0 (op_append (ev "d" 4))) in
  map (ids_of w) (procs w) = [["b"; "c"; "d"]] /\ map d_subject (dl_records (w_deads w)) = [Some (ev "a" 1)].
Proof. vm_compute. split; reflexivity. Qed.

(** *** Inode numbers that are used again *)

(** A file replaces another while both exist; the number of the one it replaced is free
    for the next. *)
Definition inos2 (n : nat) : nat := Nat.modulo n 2.
Definition opts9 : Options := mkOptions 100 2.
Definition run_reuse : list Act :=
  [act_join; act_join; do 0 (op_append (ev "x" 1));
   do 1 (op_ackMany ["x"]);
   do 1 (op_append (ev "y" 2)); do 1 (op_append (ev "z" 3)); do 1 (op_append (ev "u" 4)); do 1 (op_append (ev "v" 5));
   do 1 (op_ackMany ["u"; "v"]);
   do 0 op_read].
Definition world_reuse : World := foldl (act inos2 opts9) world0 run_reuse.
Definition world_lost : World := foldl (act inos2 opts9) world0 (run_reuse ++ [do 0 (op_ackMany ["x"; "z"])]).

(** With inode numbers that are used again, a process takes the file left by two compactions
    for the one it was reading, goes on at its old position and misses an event; its own compaction then
    removes the event, which is neither delivered nor set aside. *)
Theorem reused_inode_loses : rtc (step inos2 opts9) world0 world_lost /\ "y" ∈ staged world_lost /\ "y" ∉ w_delivered world_lost /\
  dl_records (w_deads world_lost) = [] /\ map (ids_of world_reuse) (new_outbox :: procs world_reuse) = [["y"; "z"]; ["x"; "z"]; ["y"; "z"]] /\
  (exists o, o ∈ procs world_lost /\ ids_of world_lost o = []) /\ ids_of world_lost new_outbox = [].
Proof.
  split_and!.
  - apply acts_reachable. constructor.
  - apply (bool_decide_unpack _). vm_compute. exact I.
  - apply (bool_decide_unpack (~ _)). vm_compute. exact I.
  - vm_compute. reflexivity.
  - vm_compute. reflexivity.
  - exists (List.hd new_outbox (procs world_lost)). split; [apply hd_elem; vm_compute; reflexivity|vm_compute; reflexivity].
  - vm_compute. reflexivity.
Qed.

(** *** When compaction starts *)

(** One acknowledgement of one of two events reaches a minimum of two tombstones: the line counts
    when it is read back and again when the operation finishes. *)
Example one_ack_compacts : let w := foldl (act Datatypes.id opts9) world0 [act_join; do 0 (op_append (ev "a" 1)); do 0 (op_append (ev "b" 2)); do 0 (op_ackMany ["a"])] in
  lines_of (text_of (w_file w)) = [l_event (ev "b" 2)] /\ w_created w = 2%nat.
Proof. vm_compute. split; reflexivity. Qed.

(** *** A dead-letter record that was cut off *)

(** A process dies in a record; the next record ends up on the same line and cannot be read, and the event it is about
    has left the queue. *)
Example torn_dead_letter : let w := foldl (act Datatypes.id opts9) world0
    [act_join; do 0 (op_append (ev "a" 1)); do 0 (op_append (ev "b" 2)); act_op 0 (op_deadLetter (ev "a" 1) repeated_5xx (Some 500)) [] [Some 5%nat];
     do 0 (op_deadLetter (ev "b" 2) repeated_5xx (Some 500))] in
  ids_of w new_outbox = ["a"] /\ "b" ∈ staged w /\ w_delivered w = [] /\ dl_records (w_deads w) = [] /\ dead_ids (w_deads w) = ["b"].
Proof. cbn zeta. split_and!; [vm_compute; reflexivity|apply (bool_decide_unpack _); vm_compute; exact I|vm_compute; reflexivity..]. Qed.

(** *** Overlapping synchronisations *)

(** A reader that overlaps with another call skips as many bytes again: another
    process stages two events, and the first of them is not seen. *)
Definition file_a : OutFile := mkOutFile 0 (append_text false [l_event (ev "a" 1)]).
Definition file_abc : OutFile := mkOutFile 0 (fi_text file_a ++ append_text false [l_event (ev "b" 2); l_event (ev "c" 3)]).
Example overlap_skips : map_keys (index (sync (Some file_abc) (Unlocked.overlap (Some file_a) new_outbox))) = ["a"; "c"] /\
  map_keys (index (sync (Some file_abc) (sync (Some file_a) new_outbox))) = ["a"; "b"; "c"].
Proof. vm_compute. split; reflexivity. Qed.
End OutboxSample.
