(* ===== verification/Delivery.v ===== *)
(** * Staging and delivery of control-plane events

    [Seq]: the allocator of sequence numbers (src/runtime/herdr/sourceSequence.ts), whose
    state is a file that processes share. [Deliver]: staging and renumbering
    (src/runtime/herdr/envelopeStore.ts) and the pass that posts what is pending
    (src/runtime/herdr/ControlPlaneIngest.ts), written as programs that call the outbox, the
    allocator, the clock and the server. [Net]: processes with any number of such programs
    whose calls interleave on the files of [Outbox].

    A call happens, or fails before it changes anything (the lock is not obtained), or the
    process dies in it. Redaction, the fields of an envelope other than its id and number, and
    the reading of a response body are outside: a reply carries its parsed fields. *)

From S2P Require Import Prelude JsMap EventStore SessionStore Outbox Regex.

Open Scope string_scope.
Open Scope Z_scope.

(** ** The allocator of sequence numbers *)
Module Seq.

(** The state file: its [next] field, or a text that does not parse. *)
Inductive SequenceFile := seq_absent | seq_next (n : Z) | seq_corrupt.
Definition MAX_SAFE_INTEGER : Z := 9007199254740991.

Definition readNext (f : SequenceFile) : option Z :=
  match f with
  | seq_absent => Some 1
  | seq_next n => if negb ((- MAX_SAFE_INTEGER <=? n) && (n <=? MAX_SAFE_INTEGER)) || (n <? 1) then None else Some n
  | seq_corrupt => None
  end.

Record SourceSequence := mkSequence { cur : Z; end_ : Z; failures : nat; regressions : nat }.
Definition new_sequence : SourceSequence := mkSequence 0 0 0 0.

Definition block_of (requested : Z) : Z := Z.max 1 requested.

Definition on_failures (a : SourceSequence) : SourceSequence := mkSequence (cur a) (end_ a) (S (failures a)) (regressions a).

Section Alloc.
Context (blockSize : Z).

(** The file, the allocator and the number; [None]: the call throws. *)
Definition next (floor : Z) (f : SequenceFile) (a : SourceSequence) : SequenceFile * SourceSequence * option Z :=
  if cur a <? end_ a then (f, mkSequence (cur a + 1) (end_ a) (failures a) (regressions a), Some (cur a))
  else
    match readNext f with
    | None => (f, on_failures a, None)
    | Some persisted =>
        let n := Z.max persisted floor in
        (seq_next (n + blockSize), mkSequence (n + 1) (n + blockSize) (failures a) (if persisted <? n then S (regressions a) else regressions a), Some n)
    end.

Definition advanceTo (minNext : Z) (f : SequenceFile) (a : SourceSequence) : SequenceFile * SourceSequence * option Z :=
  match readNext f with
  | None => (f, a, None)
  | Some persisted =>
      let target := Z.max persisted minNext in
      (if persisted <? target then seq_next target else f, mkSequence 0 0 (failures a) (regressions a), Some target)
  end.

(** Allocators that share the file, and the numbers handed out, last first. *)
Record Pool := mkPool { p_file : SequenceFile; allocs : list SourceSequence; handed : list Z }.
Definition pool0 : Pool := mkPool seq_absent [] [].

Inductive pool_step : Pool -> Pool -> Prop :=
  | ps_join p : pool_step p (mkPool (p_file p) (allocs p ++ [new_sequence]) (handed p))
  | ps_next p i a floor : allocs p !! i = Some a ->
      pool_step p (mkPool (next floor (p_file p) a).1.1 (<[i := (next floor (p_file p) a).1.2]> (allocs p))
                     (option_list (next floor (p_file p) a).2 ++ handed p))
  | ps_advance p i a m : allocs p !! i = Some a ->
      pool_step p (mkPool (advanceTo m (p_file p) a).1.1 (<[i := (advanceTo m (p_file p) a).1.2]> (allocs p)) (handed p))
  (** the process dies before or after the file was replaced; another takes its place *)
  | ps_die p i a floor (late : bool) : allocs p !! i = Some a ->
      pool_step p (mkPool (if late then (next floor (p_file p) a).1.1 else p_file p) (<[i := new_sequence]> (allocs p)) (handed p))
  (** the lock is not obtained *)
  | ps_fail p i a : allocs p !! i = Some a ->
      pool_step p (mkPool (p_file p) (<[i := on_failures a]> (allocs p)) (handed p))
  | ps_corrupt p : pool_step p (mkPool seq_corrupt (allocs p) (handed p)).

Definition reserved (a : SourceSequence) (x : Z) : Prop := cur a <= x < end_ a.

Record PoolInv (p : Pool) : Prop := mkPoolInv {
  P_handed : NoDup (handed p);
  P_above : forall n x, readNext (p_file p) = Some n -> x ∈ handed p -> x < n;
  P_reserved : forall n i a x, readNext (p_file p) = Some n -> allocs p !! i = Some a -> reserved a x -> x < n;
  P_unused : forall i a x, allocs p !! i = Some a -> reserved a x -> x ∉ handed p;
  P_apart : forall i j a b x, allocs p !! i = Some a -> allocs p !! j = Some b -> reserved a x -> reserved b x -> i = j
}.

Context (blockSize_pos : 1 <= blockSize).

Lemma readNext_le n m : readNext (seq_next n) = Some m -> m = n.
Proof. cbn. destruct (_ || _); congruence. Qed.

(** An allocator that may have lost what it reserved. *)
Lemma PoolInv_shrink p i a a' f : PoolInv p -> allocs p !! i = Some a -> (forall x, reserved a' x -> reserved a x) ->
  (forall n, readNext f = Some n -> exists m, readNext (p_file p) = Some m /\ m <= n) -> PoolInv (mkPool f (<[i := a']> (allocs p)) (handed p)).
Proof.
  intros [P1 P2 P3 P4 P5] Ha Hs Hf.
  assert (Hl : forall j b x, <[i := a']> (allocs p) !! j = Some b -> reserved b x -> exists c, allocs p !! j = Some c /\ reserved c x).
  { intros j b x Hj Hx. apply list_lookup_insert_Some in Hj as [(-> & -> & _)|[_ Hj]]; eauto. }
  split; cbn [p_file allocs handed]; try done.
  - intros n x Hn Hx. destruct (Hf n Hn) as (m & Hm & ?). pose proof (P2 m x Hm Hx). lia.
  - intros n j b x Hn Hj Hx. destruct (Hf n Hn) as (m & Hm & ?). destruct (Hl j b x Hj Hx) as (c & Hc & Hcx). pose proof (P3 m j c x Hm Hc Hcx). lia.
  - intros j b x Hj Hx. destruct (Hl j b x Hj Hx) as (c & Hc & Hcx). eauto.
  - intros j k b b' x Hj Hk Hx Hx'. destruct (Hl j b x Hj Hx) as (c & Hc & Hcx). destruct (Hl k b' x Hk Hx') as (c' & Hc' & Hcx'). eauto.
Qed.

(** A block above everything handed out or reserved. *)
Lemma PoolInv_block p i a a' n : PoolInv p -> allocs p !! i = Some a -> end_ a <= cur a -> readNext (p_file p) = Some n -> forall m, n <= m ->
  (forall x, reserved a' x -> m < x < m + blockSize) -> PoolInv (mkPool (seq_next (m + blockSize)) (<[i := a']> (allocs p)) (m :: handed p)).
Proof.
  intros [P1 P2 P3 P4 P5] Ha He Hn m Hm Hr.
  assert (Hl : forall j b x, <[i := a']> (allocs p) !! j = Some b -> reserved b x -> (j = i /\ m < x < m + blockSize) \/ (j <> i /\ x < n /\ exists c, allocs p !! j = Some c /\ reserved c x)).
  { intros j b x Hj Hx. apply list_lookup_insert_Some in Hj as [(<- & -> & _)|[Hne Hj]]; [left; auto|right]. split_and!; eauto. }
  assert (Hh : forall x, x ∈ handed p -> x < n) by eauto.
  split; cbn [p_file allocs handed].
  - constructor; [|done]. intros Hin. apply Hh in Hin. lia.
  - intros k x Hk [->|Hx]%elem_of_cons; apply readNext_le in Hk as ->; [lia|]. apply Hh in Hx. lia.
  - intros k j b x Hk Hj Hx. apply readNext_le in Hk as ->. destruct (Hl j b x Hj Hx) as [?|(? & ? & _)]; lia.
  - intros j b x Hj Hx [->|Hin]%elem_of_cons; destruct (Hl j b _ Hj Hx) as [?|(? & ? & c & Hc & Hcx)]; try lia; [apply Hh in Hin; lia|]. by apply (P4 j c x).
  - intros j k b b' x Hj Hk Hx Hx'. destruct (Hl j b x Hj Hx) as [?|(? & ? & c & Hc & Hcx)], (Hl k b' x Hk Hx') as [?|(? & ? & c' & Hc' & Hcx')]; try lia.
    by eapply P5.
Qed.

Lemma next_file floor f a n : readNext (next floor f a).1.1 = Some n -> exists m, readNext f = Some m /\ m <= n.
Proof.
  unfold next. destruct (cur a <? end_ a); [eauto with lia|]. destruct (readNext f) as [m|] eqn:E; cbn [fst]; [|rewrite E; done].
  intros ->%readNext_le. exists m. split; [done|]. lia.
Qed.

Lemma PoolInv_step p p' : pool_step p p' -> PoolInv p -> PoolInv p'.
Proof.
  intros Hst HI. destruct Hst as [p|p i a floor Ha|p i a m Ha|p i a floor late Ha|p i a Ha|p].
  - destruct HI as [P1 P2 P3 P4 P5].
    assert (Hl : forall j b x, (allocs p ++ [new_sequence])%list !! j = Some b -> reserved b x -> allocs p !! j = Some b).
    { intros j b x Hj Hx. apply lookup_app_Some in Hj as [?|[_ Hj]]; [done|]. apply list_lookup_singleton_Some in Hj as [_ <-]. unfold reserved in Hx. cbn in Hx. lia. }
    split; cbn [p_file allocs handed]; eauto.
  - unfold next. destruct (Z.ltb_spec (cur a) (end_ a)) as [Hlt|Hge]; cbn [fst snd option_list app].
    + assert (HI' : PoolInv (mkPool (p_file p) (<[i := mkSequence (cur a + 1) (end_ a) (failures a) (regressions a)]> (allocs p)) (handed p))).
      { eapply PoolInv_shrink; [done|done| |eauto with lia]. unfold reserved. cbn. lia. }
      assert (Hc : reserved a (cur a)) by (unfold reserved; lia). destruct HI as [P1 P2 P3 P4 P5], HI' as [Q1 Q2 Q3 Q4 Q5]. split; cbn [p_file allocs handed] in *; try done.
      * constructor; [by eapply P4|done].
      * intros n x Hn [->|Hx]%elem_of_cons; eauto.
      * intros j b x Hj Hx [->|Hin]%elem_of_cons; [|by eapply Q4]. apply list_lookup_insert_Some in Hj as [(<- & <- & _)|[Hne Hj]]; [unfold reserved in Hx; cbn in Hx; lia|].
        by apply Hne, (P5 i j a b (cur a)).
    + destruct (readNext (p_file p)) as [n|] eqn:En; cbn [fst snd option_list app]; cycle 1.
      { eapply PoolInv_shrink; [done|done|done|eauto with lia]. }
      eapply PoolInv_block; [done|done|done|done|lia|]. unfold reserved. cbn. lia.
  - unfold advanceTo. destruct (readNext (p_file p)) as [n|] eqn:En; cbn [fst snd]; [|rewrite list_insert_id by done; by destruct p].
    eapply PoolInv_shrink; [done|done|unfold reserved; cbn; lia|]. intros k Hk. exists n. split; [done|]. destruct (Z.ltb_spec n (Z.max n m)); [|rewrite En in Hk; injection Hk; lia].
    apply readNext_le in Hk. lia.
  - eapply PoolInv_shrink; [done|done|unfold reserved; cbn; lia|]. destruct late; [apply next_file|eauto with lia].
  - eapply PoolInv_shrink; [done|done|done|eauto with lia].
  - destruct HI as [P1 P2 P3 P4 P5]. split; cbn [p_file allocs handed]; done.
Qed.

(** Without blocks an allocator reserves nothing beyond the number it returns. *)
Definition Ordered (p : Pool) : Prop := Forall (fun a => end_ a <= cur a) (allocs p) /\ StronglySorted Z.gt (handed p).
Lemma Ordered_step p p' : blockSize = 1 -> pool_step p p' -> PoolInv p -> Ordered p -> Ordered p'.
Proof.
  intros Hb Hst HI [H1 H2]. destruct Hst as [p|p i a floor Ha|p i a m Ha|p i a floor late Ha|p i a Ha|p]; unfold Ordered; cbn [allocs handed p_file].
  - split; [|done]. apply Forall_app. split; [done|]. by constructor.
  - assert (He : end_ a <= cur a) by (rewrite Forall_lookup in H1; eauto). unfold next. destruct (Z.ltb_spec (cur a) (end_ a)); [lia|].
    destruct (readNext (p_file p)) as [n|] eqn:En; cbn [fst snd option_list app]; (split; [apply Forall_insert; [done|cbn; lia]|]); [|done].
    constructor; [done|]. apply Forall_forall. intros x Hx. pose proof (P_above _ HI n x En Hx). lia.
  - assert (He : end_ a <= cur a) by (rewrite Forall_lookup in H1; eauto). split; [|done]. apply Forall_insert; [done|]. unfold advanceTo. destruct (readNext (p_file p)); cbn; lia.
  - split; [|done]. by apply Forall_insert.
  - assert (He : end_ a <= cur a) by (rewrite Forall_lookup in H1; eauto). split; [|done]. by apply Forall_insert.
  - done.
Qed.

Lemma sequence_handed p : rtc pool_step pool0 p -> PoolInv p.
Proof.
  revert p. apply rtc_ind_r; [|intros p p' _ Hst; by apply PoolInv_step]. split; cbn; try done; [constructor|..]; set_solver.
Qed.

(** C24: No sequence number is handed out twice: not by processes that share the state file, whatever blocks
    they reserve, wherever they die, to whatever numbers the allocator is moved up, and not once the file became
    unreadable. Without blocks the numbers grow in the order in which they are handed out, across processes. *)
Theorem sequence_unique p : rtc pool_step pool0 p -> NoDup (handed p) /\ (blockSize = 1 -> StronglySorted Z.gt (handed p)).
Proof.
  intros Hp. split; [by apply P_handed, sequence_handed|]. intros Hb. enough (Ordered p) as [_ ?] by done. revert p Hp. apply rtc_ind_r; [by repeat constructor|].
  intros p p' Hp Hst. apply Ordered_step; [done|done|by apply sequence_handed].
Qed.
End Alloc.
End Seq.

(** ** Staging and delivering *)
Module Deliver.

Record RefusalBody := mkRefusal { reason : option string; error : option string; lastSequence : option Z }.
Definition empty_body : RefusalBody := mkRefusal None None None.
(** The answer to a request: none (network error, timeout), or a status with the fields read from the body and the
    [retry-after] header. *)
Inductive Reply := net_error | reply (status : Z) (body : RefusalBody) (retryAfter : option Z).

Definition is_ok (status : Z) : bool := (200 <=? status) && (status <=? 299).

Definition isSequenceCollision (body : RefusalBody) : bool :=
  if bool_decide (reason body = Some "sequence_conflict") then true
  else let text := default "" (error body) in test (lit_i "sequence") text && negb (test (lit_i "different content") text).

(** *** Programs *)

(** What a program asks for. A call that can fail answers [None] when it threw. *)
Inductive Call : Type -> Type :=
  | c_now : Call Z
  | c_post (e : EnvelopeV2) : Call Reply
  | c_highWater : Call (option Z)
  | c_peek (limit : option nat) : Call (option (list EnvelopeV2))
  | c_lookup (id : string) : Call (option LookupResult)
  | c_append (e : EnvelopeV2) : Call (option EnvelopeV2)
  | c_ackMany (ids : list string) : Call (option unit)
  | c_deadLetter (e : EnvelopeV2) (r : DeadLetterReason) (status : option Z) : Call (option unit)
  | c_replacePending (es : list EnvelopeV2) : Call (option nat)
  | c_recordUndeliverable (r : DeadLetterReason) : Call (option unit)
  | c_next : Call (option Z)
  | c_advanceTo (minNext : Z) : Call (option Z).

Inductive Prog (A : Type) : Type :=
  | Ret (a : A)
  | Do {B : Type} (c : Call B) (k : B -> Prog A).
Arguments Ret {A} a.
Arguments Do {A B} c k.

Fixpoint pbind {A B} (p : Prog A) (f : A -> Prog B) : Prog B :=
  match p with Ret a => f a | Do c k => Do c (fun b => pbind (k b) f) end.

Record BackoffOptions := mkBackoff { baseMs : Z; maxMs : Z; deadLetterAfter : Z }.
Definition default_backoff : BackoffOptions := mkBackoff 1000 60000 5.

Record Ingest := mkIngest {
  consecutiveFailures : nat;
  nextAttemptAt : Z;
  lastStatus : option Z;
  credentialProblem : bool;
  headId : option string;
  headFailures : nat;
  conflictDeadLettered : nat;
  resequencedIds : list string;
  resyncs : nat
}.
Definition new_ingest : Ingest := mkIngest 0 0 None false None 0 0 [] 0.

(** The fields of a client and the sets a pass builds. *)
Record FState := mkFState { ing : Ingest; acked : list string; toAck : list string }.

(** A program that keeps a state and may throw. *)
Definition PM (A : Type) : Type := FState -> Prog (FState * option A).
Definition pret {A} (a : A) : PM A := fun s => Ret (s, Some a).
Definition pthen {A B} (m : PM A) (k : A -> PM B) : PM B :=
  fun s => pbind (m s) (fun '(s', r) => match r with Some a => k a s' | None => Ret (s', None) end).
Notation "'let*' x := m 'in' k" := (pthen m (fun x => k)) (at level 10, x name, m at level 100, k at level 200).
Notation "m ;; k" := (pthen m (fun _ : unit => k)) (at level 100, right associativity).
Definition try_ {A} (m h : PM A) : PM A := fun s => pbind (m s) (fun '(s', r) => match r with Some a => Ret (s', Some a) | None => h s' end).
Definition pthrow {A} : PM A := fun s => Ret (s, None).
Definition pget {A} (f : FState -> A) : PM A := fun s => Ret (s, Some (f s)).
Definition pmod (f : FState -> FState) : PM unit := fun s => Ret (f s, Some tt).
Definition on_ing (f : Ingest -> Ingest) : PM unit := pmod (fun s => mkFState (f (ing s)) (acked s) (toAck s)).
Definition ask {B} (c : Call B) : PM B := fun s => Do c (fun b => Ret (s, Some b)).
Definition opt {B} (c : Call (option B)) : PM B := fun s => Do c (fun b => Ret (s, b)).

(** *** Staging *)

Record StageInput := mkStage { s_event_id : option string; s_derived : bool; s_valid : bool; s_bytes : Z; s_content : string }.
Inductive StageResult := r_staged (e : EnvelopeV2) | r_pending (e : EnvelopeV2) | r_delivered | r_dead_lettered.

#[export] Instance EnvelopeV2_eq_dec : EqDecision EnvelopeV2.
Proof. solve_decision. Defined.

Section Staging.
Context (maxEventBytes : Z) (deriveEventId : string -> string -> string).

(** [event_id.split("_")[0]] *)
Fixpoint before_underscore (s : string) : string :=
  match s with EmptyString => EmptyString | String c s' => if decide (c = "_"%char) then EmptyString else String c (before_underscore s') end.
Definition id_prefix (id : string) : string := let p := before_underscore id in if truthy p then p else "evt".
Definition draft_id (i : StageInput) (nonce : string) : option string :=
  match s_event_id i with
  | Some id => if truthy id && s_derived i then Some (deriveEventId (id_prefix id) id ++ "-" ++ nonce)%string else Some id
  | None => None
  end.
Definition nonEmpty (v : option string) : option string := match v with Some s => if truthy (js_trim s) then Some s else None | None => None end.

(** [uuid] and [nonce]: the random ids of this call. An object is compared by its fields. *)
Definition stageNow (i : StageInput) (uuid nonce : string) : PM StageResult :=
  let id := draft_id i nonce in
  if negb (s_valid i) then pthrow
  else if maxEventBytes <? s_bytes i then opt (c_recordUndeliverable oversized) ;; pret r_dead_lettered
  else
    let fresh :=
      let* n := opt c_next in
      let e := mkEnvelope (default uuid (nonEmpty id)) n (s_content i) in
      let* stored := opt (c_append e) in
      pret (if decide (stored = e) then r_staged stored else r_pending stored) in
    match id with
    | Some known =>
        if truthy known && negb (s_derived i) then
          let* r := opt (c_lookup known) in
          match r with
          | is_pending e => pret (r_pending e)
          | is_completed delivered => pret r_delivered
          | is_completed dead => pret r_dead_lettered
          | is_unknown => fresh
          end
        else fresh
    | None => fresh
    end.
End Staging.

(** *** Renumbering *)

Fixpoint restamp (es : list EnvelopeV2) : PM (list EnvelopeV2) :=
  match es with
  | [] => pret []
  | e :: es' =>
      let* n := opt c_next in
      let* rest := restamp es' in
      pret (mkEnvelope (e_id e) n (e_content e) :: rest)
  end.

Definition on_resyncs (g : Ingest) : Ingest :=
  mkIngest (consecutiveFailures g) (nextAttemptAt g) (lastStatus g) (credentialProblem g) (headId g) (headFailures g) (conflictDeadLettered g) (resequencedIds g) (S (resyncs g)).
Definition resync (highWater : Z) : PM unit :=
  let* from := opt (c_advanceTo (highWater + 1)) in
  let* pending := opt (c_peek None) in
  let* es := restamp pending in
  let* restamped := opt (c_replacePending es) in
  on_ing on_resyncs.

Definition add_resequenced (ids : list string) (g : Ingest) : Ingest :=
  mkIngest (consecutiveFailures g) (nextAttemptAt g) (lastStatus g) (credentialProblem g) (headId g) (headFailures g) (conflictDeadLettered g)
    (js_dedup (resequencedIds g ++ ids)%list) (resyncs g).

Definition resyncAfterCollision (body : RefusalBody) (e : EnvelopeV2) : PM bool :=
  if negb (isSequenceCollision body) then pret false
  else
    let* g := pget ing in
    if js_includes (e_id e) (resequencedIds g) then pret false
    else
      let* high := (match lastSequence body with Some n => pret (Some n) | None => ask c_highWater end) in
      match high with
      | None => pret false
      | Some n =>
          try_ (let* pending := opt (c_peek None) in on_ing (add_resequenced (map e_id pending)) ;; resync n ;; pret true) (pret false)
      end.

(** *** A pass *)

Section Pass.
Context (backoff : BackoffOptions).

Definition on_failed (now : Z) (status retryAfter : option Z) (g : Ingest) : Ingest :=
  let n := S (consecutiveFailures g) in
  let exp := Z.min (maxMs backoff) (baseMs backoff * 2 ^ (Z.of_nat n - 1)) in
  mkIngest n (now + Z.max exp (Z.min (default 0 retryAfter) (maxMs backoff))) status (credentialProblem g) (headId g) (headFailures g) (conflictDeadLettered g) (resequencedIds g) (resyncs g).
Definition failed (status retryAfter : option Z) : PM unit :=
  let* now := ask c_now in on_ing (on_failed now status retryAfter).
Definition on_succeeded (g : Ingest) : Ingest :=
  mkIngest 0 0 None false None (headFailures g) (conflictDeadLettered g) (resequencedIds g) (resyncs g).
Definition clear_head (g : Ingest) : Ingest :=
  mkIngest (consecutiveFailures g) (nextAttemptAt g) (lastStatus g) (credentialProblem g) None (headFailures g) (conflictDeadLettered g) (resequencedIds g) (resyncs g).
Definition on_conflict (g : Ingest) : Ingest :=
  mkIngest (consecutiveFailures g) (nextAttemptAt g) (lastStatus g) (credentialProblem g) (headId g) (headFailures g) (S (conflictDeadLettered g)) (resequencedIds g) (resyncs g).
Definition on_credentials (g : Ingest) : Ingest :=
  mkIngest (consecutiveFailures g) (nextAttemptAt g) (lastStatus g) true (headId g) (headFailures g) (conflictDeadLettered g) (resequencedIds g) (resyncs g).
(** Another failure of the head event. *)
Definition on_head (id : string) (g : Ingest) : Ingest :=
  let n := if decide (headId g = Some id) then headFailures g else 0%nat in
  mkIngest (consecutiveFailures g) (nextAttemptAt g) (lastStatus g) (credentialProblem g) (Some id) (S n) (conflictDeadLettered g) (resequencedIds g) (resyncs g).
Definition on_acked (id : string) : PM unit :=
  pmod (fun s => mkFState (on_succeeded (ing s)) (if js_includes id (acked s) then acked s else (acked s ++ [id])%list) (toAck s ++ [id])%list).

(** The answers after which the pass goes on; [true]: start over. *)
Fixpoint post_all (pending : list EnvelopeV2) : PM bool :=
  match pending with
  | [] => pret false
  | e :: rest =>
      let* res := ask (c_post e) in
      match res with
      | net_error => failed None None ;; pret false
      | reply status body retryAfter =>
          if is_ok status then on_acked (e_id e) ;; post_all rest
          else
            let* again := (if status =? 409 then resyncAfterCollision body e else pret false) in
            if again then pret true
            else if js_includes status [400; 409; 422] then
              opt (c_deadLetter e server_rejected (Some status)) ;;
              on_ing (fun g => clear_head (if status =? 409 then on_conflict g else g)) ;;
              post_all rest
            else if (status =? 403) && bool_decide (reason body = Some "lineage_forbidden") then
              opt (c_deadLetter e lineage_forbidden (Some status)) ;; on_ing clear_head ;; post_all rest
            else if js_includes status [401; 403] then on_ing on_credentials ;; failed (Some status) None ;; pret false
            else if js_includes status [408; 425; 429] then failed (Some status) retryAfter ;; pret false
            else if 500 <=? status then
              on_ing (on_head (e_id e)) ;;
              let* g := pget ing in
              if deadLetterAfter backoff <=? Z.of_nat (headFailures g) then
                opt (c_deadLetter e repeated_5xx (Some status)) ;; on_ing clear_head ;; post_all rest
              else failed (Some status) None ;; pret false
            else if 400 <=? status then opt (c_deadLetter e client_error (Some status)) ;; on_ing clear_head ;; post_all rest
            else failed (Some status) None ;; pret false
      end
  end.

Definition MAX_FLUSH : nat := Z.to_nat 500.
Fixpoint rounds (n : nat) : PM unit :=
  match n with
  | O => pret tt
  | S n' =>
      let* pending := opt (c_peek (Some MAX_FLUSH)) in
      let* restart := post_all pending in
      if restart then rounds n' else pret tt
  end.

Definition flushOutbox : PM (list string) :=
  pmod (fun s => mkFState (ing s) [] []) ;;
  let* now := ask c_now in
  let* g := pget ing in
  if now <? nextAttemptAt g then pret []
  else
    try_ (rounds 3) (pret tt) ;;
    let* ids := pget toAck in
    try_ (opt (c_ackMany ids)) (pmod (fun s => mkFState (ing s) [] (toAck s))) ;;
    pget acked.
End Pass.
End Deliver.

(** ** What a program did *)
Module Trace.
Import Deliver.

Inductive Ev := ev_post (e : EnvelopeV2) (r : Reply) | ev_ack (ids : list string) | ev_dead (e : EnvelopeV2) (r : DeadLetterReason) (status : option Z) | ev_call.
Definition ev {B} (c : Call B) : B -> Ev :=
  match c with
  | c_post e => fun r => ev_post e r
  | c_ackMany ids => fun _ => ev_ack ids
  | c_deadLetter e r st => fun _ => ev_dead e r st
  | _ => fun _ => ev_call
  end.

(** A program with the answers it got. *)
Inductive traces {A} : Prog A -> list Ev -> option A -> Prop :=
  | tr_ret a : traces (Ret a) [] (Some a)
  | tr_stop p : traces p [] None
  | tr_do {B} (c : Call B) k b tr r : traces (k b) tr r -> traces (Do c k) (ev c b :: tr) r.

Definition accepted (h : list Ev) (id : string) : Prop := exists e st body ra, ev_post e (reply st body ra) ∈ h /\ e_id e = id /\ is_ok st = true.
Definition posts (h : list Ev) : list (EnvelopeV2 * Reply) := omap (fun x => match x with ev_post e r => Some (e, r) | _ => None end) h.
(** How often the server failed to take the event. *)
Definition fails_one (id : string) (x : EnvelopeV2 * Reply) : bool :=
  bool_decide (e_id x.1 = id) && match x.2 with reply st _ _ => 500 <=? st | net_error => false end.
Definition fails (h : list Ev) (id : string) : nat := length (js_filter (fails_one id) (posts h)).

(** Statuses of which the event is not to blame. *)
Definition is_transient (st : Z) : bool := js_includes st [401; 403; 408; 425; 429].

Notation "'let*' x := m 'in' k" := (pthen m (fun x => k)) (at level 10, x name, m at level 100, k at level 200).
Notation "m ;; k" := (pthen m (fun _ : unit => k)) (at level 100, right associativity).

Section Logic.
Context (backoff : BackoffOptions).

(** The reason for putting an event aside is the answer to its last request. *)
Definition justified (h : list Ev) (e : EnvelopeV2) (r : DeadLetterReason) (status : option Z) : Prop :=
  exists st body ra, last (posts h) = Some (e, reply st body ra) /\ status = Some st /\
  match r with
  | server_rejected => st ∈ [400; 409; 422]
  | lineage_forbidden => st = 403 /\ reason body = Some "lineage_forbidden"
  | repeated_5xx => 500 <= st /\ deadLetterAfter backoff <= Z.of_nat (fails h (e_id e))
  | client_error => 400 <= st < 500 /\ is_transient st = false
  | _ => False
  end.
Definition guarded (h : list Ev) (x : Ev) : Prop :=
  match x with
  | ev_ack ids => forall id, id ∈ ids -> accepted h id
  | ev_dead e r st => justified h e r st
  | _ => True
  end.

Fixpoint safe {A} (h : list Ev) (p : Prog A) (Q : list Ev -> A -> Prop) : Prop :=
  match p with
  | Ret a => Q h a
  | Do c k => forall b, guarded h (ev c b) /\ safe (h ++ [ev c b])%list (k b) Q
  end.

Lemma safe_weaken {A} (p : Prog A) h (Q Q' : list Ev -> A -> Prop) : (forall h a, Q h a -> Q' h a) -> safe h p Q -> safe h p Q'.
Proof. intros HQ. revert h. induction p as [a|B c k IH]; intros h; cbn; [apply HQ|]. intros Hs b. destruct (Hs b). split; [done|]. by apply IH. Qed.
Lemma safe_bind {A B} (p : Prog A) (f : A -> Prog B) h Q : safe h p (fun h a => safe h (f a) Q) -> safe h (pbind p f) Q.
Proof. revert h. induction p as [a|C c k IH]; intros h; cbn; [done|]. intros Hs b. destruct (Hs b). split; [done|]. by apply IH. Qed.

(** Every acknowledgement and every dead letter of a safe program is guarded. *)
Lemma safe_trace {A} (p : Prog A) h Q tr r : safe h p Q -> traces p tr r ->
  (forall a x b, tr = (a ++ x :: b)%list -> guarded (h ++ a)%list x) /\ (forall a, r = Some a -> Q (h ++ tr)%list a).
Proof.
  intros Hs Ht. revert h Hs. induction Ht as [a|p|B c k b tr r Ht IH]; intros h Hs.
  - split; [by intros [] ? ? ?|]. intros ? [= <-]. by rewrite app_nil_r.
  - split; [by intros [] ? ? ?|done].
  - destruct (Hs b) as [Hg Hk]. destruct (IH _ Hk) as [H1 H2]. split.
    + intros [|y a] x t Et; cbn in Et; injection Et as <- Et; [by rewrite app_nil_r|]. replace (h ++ ev c b :: a)%list with ((h ++ [ev c b]) ++ a)%list by by rewrite <- app_assoc. by eapply H1.
    + intros a Ha. replace (h ++ ev c b :: tr)%list with ((h ++ [ev c b]) ++ tr)%list by by rewrite <- app_assoc. by apply H2.
Qed.

(** *** Programs with a state *)

Definition hoare {A} (P : list Ev -> FState -> Prop) (m : PM A) (Q : A -> list Ev -> FState -> Prop) (X : list Ev -> FState -> Prop) : Prop :=
  forall h s, P h s -> safe h (m s) (fun h' x => match x.2 with Some a => Q a h' x.1 | None => X h' x.1 end).

Lemma hoare_ret {A} (a : A) Q X : hoare (Q a) (pret a) Q X.
Proof. by intros h s. Qed.
Lemma hoare_throw {A} P (Q : A -> list Ev -> FState -> Prop) : hoare P pthrow Q P.
Proof. by intros h s. Qed.
Lemma hoare_then {A B} P (m : PM A) R (k : A -> PM B) Q X : hoare P m R X -> (forall a, hoare (R a) (k a) Q X) -> hoare P (pthen m k) Q X.
Proof. intros H1 H2 h s Hp. apply safe_bind. eapply safe_weaken; [|by apply H1]. intros h' [s' [a|]]; cbn; [apply H2|done]. Qed.
Lemma hoare_try {A} P (m n : PM A) Q X Y : hoare P m Q Y -> hoare Y n Q X -> hoare P (try_ m n) Q X.
Proof. intros H1 H2 h s Hp. apply safe_bind. eapply safe_weaken; [|by apply H1]. intros h' [s' [a|]]; cbn; [done|apply H2]. Qed.
Lemma hoare_conseq {A} (P P' : list Ev -> FState -> Prop) (m : PM A) (Q Q' : A -> list Ev -> FState -> Prop) (X X' : list Ev -> FState -> Prop) :
  (forall h s, P' h s -> P h s) -> (forall a h s, Q a h s -> Q' a h s) -> (forall h s, X h s -> X' h s) -> hoare P m Q X -> hoare P' m Q' X'.
Proof. intros HP HQ HX H h s Hs. eapply safe_weaken; [|by apply H, HP]. intros h' [s' [a|]]; cbn; auto. Qed.
Lemma hoare_get {A} P (f : FState -> A) X : hoare P (pget f) (fun a h s => P h s /\ a = f s) X.
Proof. by intros h s. Qed.
Lemma hoare_mod P f (Q : unit -> list Ev -> FState -> Prop) X : (forall h s, P h s -> Q tt h (f s)) -> hoare P (pmod f) Q X.
Proof. intros H h s Hs. by apply H. Qed.

(** *** A pass *)

Lemma posts_app a b : posts (a ++ b) = (posts a ++ posts b)%list.
Proof. apply omap_app. Qed.
Lemma accepted_app h h' id : accepted h id -> accepted (h ++ h') id.
Proof. intros (e & st & body & ra & Hin & ?). exists e, st, body, ra. split; [|done]. apply elem_of_app. by left. Qed.
Lemma fails_app h h' id : fails (h ++ h') id = (fails h id + fails h' id)%nat.
Proof. unfold fails. rewrite posts_app, js_filter_app. by rewrite length_app. Qed.

(** The head count never exceeds the failures of the head event; what will be acknowledged was accepted. *)
Definition PassInv (h : list Ev) (s : FState) : Prop :=
  (forall id, headId (ing s) = Some id -> (headFailures (ing s) <= fails h id)%nat) /\ (forall id, id ∈ toAck s -> accepted h id).
Lemma PassInv_app h h' s : PassInv h s -> PassInv (h ++ h') s.
Proof. intros [H1 H2]. split; [|intros id Hid; by apply accepted_app, H2]. intros id Hid. rewrite fails_app. specialize (H1 id Hid). lia. Qed.

(** After the answer [x] to the last request. *)
Definition Answered (x : EnvelopeV2 * Reply) (h : list Ev) (s : FState) : Prop := PassInv h s /\ last (posts h) = Some x.

Lemma hoare_ask {B} (P : list Ev -> FState -> Prop) (c : Call B) : (forall h s b, P h s -> guarded h (ev c b) /\ P (h ++ [ev c b])%list s) ->
  hoare P (ask c) (fun _ => P) P.
Proof. intros H h s Hs b. by apply H. Qed.
Lemma hoare_opt {B} (P : list Ev -> FState -> Prop) (c : Call (option B)) : (forall h s b, P h s -> guarded h (ev c b) /\ P (h ++ [ev c b])%list s) ->
  hoare P (opt c) (fun _ => P) P.
Proof. intros H h s Hs b. destruct (H h s b Hs). split; [done|]. by destruct b. Qed.
Lemma Answered_call x h s y : (forall e r, y <> ev_post e r) -> Answered x h s -> Answered x (h ++ [y]) s.
Proof.
  intros Hy [H1 H2]. split; [by apply PassInv_app|]. rewrite posts_app. destruct y as [e r| | |]; cbn; rewrite ?app_nil_r; try done. by exfalso; eapply Hy.
Qed.
(** Calls that neither post, acknowledge nor put aside. *)
Definition is_call {B} (c : Call B) : bool := match c with c_post _ | c_ackMany _ | c_deadLetter _ _ _ => false | _ => true end.
Lemma quiet_call x {B} (c : Call B) : is_call c = true -> forall h s b, Answered x h s -> guarded h (ev c b) /\ Answered x (h ++ [ev c b]) s.
Proof. intros Hc h s b HA. destruct c; try done; (split; [done|by apply Answered_call]). Qed.

Lemma answered_mod x f X : (forall g, headId (f g) = headId g /\ headFailures (f g) = headFailures g \/ headId (f g) = None) -> hoare (Answered x) (on_ing f) (fun _ => Answered x) X.
Proof.
  intros Hf. apply hoare_mod. intros h s [[H1 H2] H3]. split; [|done]. split; [|done]. cbn. intros id Hid. destruct (Hf (ing s)) as [[E1 E2]|E]; [|congruence].
  rewrite E2. apply H1. congruence.
Qed.

Lemma restamp_safe x es : hoare (Answered x) (restamp es) (fun _ => Answered x) (Answered x).
Proof.
  induction es as [|e es IH]; cbn [restamp]; [apply (hoare_ret _ (fun _ => Answered x))|]. eapply hoare_then; [apply hoare_opt, quiet_call; done|intros n].
  eapply hoare_then; [apply IH|intros rest]. apply (hoare_ret _ (fun _ => Answered x)).
Qed.
Lemma resync_safe x n : hoare (Answered x) (resync n) (fun _ => Answered x) (Answered x).
Proof.
  eapply hoare_then; [apply hoare_opt, quiet_call; done|intros from]. eapply hoare_then; [apply hoare_opt, quiet_call; done|intros pending].
  eapply hoare_then; [apply restamp_safe|intros es]. eapply hoare_then; [apply hoare_opt, quiet_call; done|intros k]. apply answered_mod. by left.
Qed.
Lemma collision_safe x body e : hoare (Answered x) (resyncAfterCollision body e) (fun _ => Answered x) (Answered x).
Proof.
  unfold resyncAfterCollision. destruct (isSequenceCollision body); cbn [negb]; [|apply (hoare_ret _ (fun _ => Answered x))].
  eapply hoare_then; [apply hoare_get|intros g]. apply (hoare_conseq (Answered x) _ _ (fun _ => Answered x) _ (Answered x)); [by intros ? ? []|done|done|].
  destruct (js_includes _ _); [apply (hoare_ret _ (fun _ => Answered x))|].
  eapply (hoare_then _ _ (fun _ => Answered x)); [destruct (lastSequence body); [apply (hoare_ret _ (fun _ => Answered x))|apply hoare_ask, quiet_call; done]|intros [n|]; [|apply (hoare_ret _ (fun _ => Answered x))]].
  eapply hoare_try; [|apply (hoare_ret _ (fun _ => Answered x))]. eapply hoare_then; [apply hoare_opt, quiet_call; done|intros pending].
  eapply hoare_then; [apply answered_mod; by left|intros []]. eapply hoare_then; [apply resync_safe|intros []]. apply (hoare_ret _ (fun _ => Answered x)).
Qed.
Lemma failed_safe x st ra : hoare (Answered x) (failed backoff st ra) (fun _ => Answered x) (Answered x).
Proof. eapply hoare_then; [apply hoare_ask, quiet_call; done|intros now]. apply answered_mod. by left. Qed.

(** Right after the answer to a request for [e]. *)
Definition Fresh (e : EnvelopeV2) (r : Reply) (h : list Ev) (s : FState) : Prop :=
  Answered (e, r) h s /\ (forall st body ra, r = reply st body ra -> (500 <= st -> (1 <= fails h (e_id e))%nat /\
    (headId (ing s) = Some (e_id e) -> (S (headFailures (ing s)) <= fails h (e_id e))%nat)) /\ (is_ok st = true -> accepted h (e_id e))).

Lemma post_fresh e : hoare PassInv (ask (c_post e)) (Fresh e) PassInv.
Proof.
  intros h s HP r. split; [done|]. cbn. split; [split; [by apply PassInv_app|rewrite posts_app; apply last_snoc]|].
  intros st body ra ->. split.
  - intros Hst. assert (Hf : fails [ev_post e (reply st body ra)] (e_id e) = 1%nat).
    { unfold fails, posts, fails_one. cbn. rewrite bool_decide_eq_true_2 by done. by destruct (Z.leb_spec 500 st); [|lia]. }
    rewrite fails_app, Hf. split; [lia|]. intros Hh. destruct HP as [H1 _]. specialize (H1 _ Hh). lia.
  - intros Hok. exists e, st, body, ra. split; [|done]. apply elem_of_app. right. by apply list_elem_of_singleton.
Qed.

Lemma Answered_inv x h s : Answered x h s -> PassInv h s.
Proof. by intros []. Qed.
Lemma to_inv {A} x (m : PM A) (Q : A -> list Ev -> FState -> Prop) : hoare PassInv m Q PassInv -> hoare (Answered x) m Q PassInv.
Proof. by apply hoare_conseq; [apply Answered_inv|..]. Qed.

(** Putting the event of the last request aside, and going on. *)
Lemma dead_safe e st body ra r (f : Ingest -> Ingest) (rest : PM bool) :
  (forall h s, Answered (e, reply st body ra) h s -> justified h e r (Some st)) -> (forall g, headId (f g) = None) ->
  hoare PassInv rest (fun _ => PassInv) PassInv ->
  hoare (Answered (e, reply st body ra)) (opt (c_deadLetter e r (Some st)) ;; on_ing f ;; rest) (fun _ => PassInv) PassInv.
Proof.
  intros Hj Hf Hr. set (x := (e, reply st body ra)) in *. apply (hoare_conseq (Answered x) _ _ (fun _ => PassInv) _ PassInv); [done|done|done|].
  eapply (hoare_then _ _ (fun _ => Answered x)).
  - apply (hoare_conseq (Answered x) _ _ (fun _ => Answered x) _ (Answered x)); [done|done|apply Answered_inv|]. apply hoare_opt.
    intros h s b HA. split; [by eapply Hj|by apply Answered_call].
  - intros []. eapply (hoare_then _ _ (fun _ => Answered x)); [apply answered_mod; by right|intros []; by apply to_inv].
Qed.

(** The pass gives up for now. *)
Lemma stop_safe x st ra : hoare (Answered x) (failed backoff st ra ;; pret false) (fun _ => PassInv) PassInv.
Proof.
  eapply hoare_then; [eapply hoare_conseq; [exact (fun _ _ H => H)|exact (fun _ _ _ H => H)|apply Answered_inv|apply failed_safe]|intros []].
  apply to_inv. apply (hoare_ret false (fun _ => PassInv)).
Qed.

Lemma js_includes_spec (st : Z) l : js_includes st l = true -> st ∈ l.
Proof. by rewrite js_includes_true. Qed.

(** The answers that are neither success nor a renumbering. *)
Lemma refusal_safe e st body ra rest : is_ok st = false -> hoare PassInv (post_all backoff rest) (fun _ => PassInv) PassInv ->
  hoare (fun h s => Answered (e, reply st body ra) h s /\ (500 <= st -> Fresh e (reply st body ra) h s)) (
    if js_includes st [400; 409; 422] then
      opt (c_deadLetter e server_rejected (Some st)) ;; on_ing (fun g => clear_head (if st =? 409 then on_conflict g else g)) ;; post_all backoff rest
    else if (st =? 403) && bool_decide (reason body = Some "lineage_forbidden") then
      opt (c_deadLetter e lineage_forbidden (Some st)) ;; on_ing clear_head ;; post_all backoff rest
    else if js_includes st [401; 403] then on_ing on_credentials ;; failed backoff (Some st) None ;; pret false
    else if js_includes st [408; 425; 429] then failed backoff (Some st) ra ;; pret false
    else if 500 <=? st then
      on_ing (on_head (e_id e)) ;;
      let* g := pget ing in
      if deadLetterAfter backoff <=? Z.of_nat (headFailures g) then
        opt (c_deadLetter e repeated_5xx (Some st)) ;; on_ing clear_head ;; post_all backoff rest
      else failed backoff (Some st) None ;; pret false
    else if 400 <=? st then opt (c_deadLetter e client_error (Some st)) ;; on_ing clear_head ;; post_all backoff rest
    else failed backoff (Some st) None ;; pret false) (fun _ => PassInv) PassInv.
Proof.
  intros Hok Hrest. set (x := (e, reply st body ra)).
  assert (Hw : forall m : PM bool, hoare (Answered x) m (fun _ => PassInv) PassInv -> hoare (fun h s => Answered x h s /\ (500 <= st -> Fresh e (reply st body ra) h s)) m (fun _ => PassInv) PassInv).
  { intros m. by apply hoare_conseq; [intros ? ? []|..]. }
  destruct (js_includes st [400; 409; 422]) eqn:E1.
  { apply Hw, dead_safe; [|by intros g|done]. intros h s [_ Hl]. exists st, body, ra. split_and!; try done. by apply js_includes_spec. }
  destruct ((st =? 403) && _) eqn:E2.
  { apply andb_true_iff in E2 as [?%Z.eqb_eq ?%bool_decide_eq_true]. apply Hw, dead_safe; [|done|done]. intros h s [_ Hl]. by exists st, body, ra. }
  destruct (js_includes st [401; 403]) eqn:E3.
  { apply Hw. eapply (hoare_then _ _ (fun _ => Answered x)); [apply answered_mod; by left|intros []; apply stop_safe]. }
  destruct (js_includes st [408; 425; 429]) eqn:E4; [apply Hw, stop_safe|].
  destruct (Z.leb_spec 500 st) as [H5|H5].
  - set (Counted := fun h s => Answered x h s /\ (headFailures (ing s) <= fails h (e_id e))%nat).
    eapply (hoare_then _ _ (fun _ => Counted)).
    + apply hoare_mod. intros h s [[[H1 H2] H3] HF]. destruct (HF H5) as [_ HF']. destruct (HF' st body ra eq_refl) as [[Hone Hhead]%(fun H => H H5) _].
      assert (Hc : (S (if decide (headId (ing s) = Some (e_id e)) then headFailures (ing s) else 0) <= fails h (e_id e))%nat) by (destruct (decide _) as [Hh|_]; [exact (Hhead Hh)|exact Hone]).
      split; [|exact Hc]. split; [|done]. split; [|done]. cbn. intros id [= <-]. exact Hc.
    + intros []. eapply hoare_then; [apply hoare_get|intros g]. destruct (Z.leb_spec (deadLetterAfter backoff) (Z.of_nat (headFailures g))) as [Hd|Hd].
      * intros h s [[HA Hc] ->]. assert (HS : hoare (fun h s => Counted h s /\ deadLetterAfter backoff <= Z.of_nat (headFailures (ing s))) (opt (c_deadLetter e repeated_5xx (Some st)) ;; on_ing clear_head ;; post_all backoff rest) (fun _ => PassInv) PassInv).
        { eapply (hoare_then _ _ (fun _ => Answered x)); [|intros []; eapply (hoare_then _ _ (fun _ => Answered x)); [apply answered_mod; by right|intros []; by apply to_inv]].
          intros h' s' [[[HP Hl] Hc'] Hd'] b. split; [exists st, body, ra; split_and!; [exact Hl|done|done|cbn in Hc', Hd'; lia]|]. destruct b; [by apply Answered_call|by apply PassInv_app]. }
        by apply HS.
      * eapply hoare_conseq; [|exact (fun _ _ _ H => H)|exact (fun _ _ H => H)|apply (stop_safe x)]. by intros ? ? [[? _] _].
  - destruct (Z.leb_spec 400 st) as [H4|H4]; [|apply Hw, stop_safe]. apply Hw, dead_safe; [|done|done]. intros h s [_ Hl]. exists st, body, ra. split_and!; try done; try lia.
    unfold is_transient. apply js_includes_false. apply js_includes_false in E3, E4. set_solver.
Qed.

Lemma post_all_safe pending : hoare PassInv (post_all backoff pending) (fun _ => PassInv) PassInv.
Proof.
  induction pending as [|e rest IH]; cbn [post_all]; [apply (hoare_ret false (fun _ => PassInv))|].
  eapply hoare_then; [apply post_fresh|intros [|st body ra]].
  - eapply hoare_conseq; [|exact (fun _ _ _ H => H)|exact (fun _ _ H => H)|apply (stop_safe (e, net_error))]. by intros h s [? _].
  - destruct (is_ok st) eqn:Eok.
    + eapply (hoare_then _ _ (fun _ => PassInv)); [|by intros []]. apply hoare_mod. intros h s [[[H1 H2] _] HF]. split; [done|]. cbn.
      intros id [?| ->%list_elem_of_singleton]%elem_of_app; [auto|]. by apply (HF st body ra).
    + set (x := (e, reply st body ra)). eapply (hoare_then _ _ (fun _ h s => Answered x h s /\ (500 <= st -> Fresh e (reply st body ra) h s))).
      * destruct (Z.eqb_spec st 409) as [->|Hne]; [|intros h s HF; split; [apply HF|done]].
        eapply hoare_conseq; [| |apply Answered_inv|apply (collision_safe x)]; [by intros h s [? _]|]. intros a h s HA. split; [done|lia].
      * intros []; [|by apply refusal_safe]. apply (hoare_conseq PassInv _ _ (fun _ => PassInv) _ PassInv); [|done|done|apply (hoare_ret true (fun _ => PassInv))].
        by intros h s [[? _] _].
Qed.

Lemma PassInv_call {B} (c : Call B) : is_call c = true -> forall h s b, PassInv h s -> guarded h (ev c b) /\ PassInv (h ++ [ev c b]) s.
Proof. intros Hc h s b HA. destruct c; try done; (split; [done|by apply PassInv_app]). Qed.
Lemma rounds_safe n : hoare PassInv (rounds backoff n) (fun _ => PassInv) PassInv.
Proof.
  induction n as [|n IH]; cbn [rounds]; [apply (hoare_ret tt (fun _ => PassInv))|]. eapply hoare_then; [apply hoare_opt, PassInv_call; done|intros pending].
  eapply hoare_then; [apply post_all_safe|intros []; [done|apply (hoare_ret tt (fun _ => PassInv))]].
Qed.

(** What survives a pass. *)
Definition HeadInv (h : list Ev) (g : Ingest) : Prop := forall id, headId g = Some id -> (headFailures g <= fails h id)%nat.
Lemma flush_pass_safe : hoare (fun h s => HeadInv h (ing s)) (flushOutbox backoff) (fun _ => PassInv) PassInv.
Proof.
  eapply (hoare_then _ _ (fun _ => PassInv)); [apply hoare_mod; intros h s HH; split; [exact HH|cbn; set_solver]|intros []].
  eapply hoare_then; [apply hoare_ask, PassInv_call; done|intros now]. eapply hoare_then; [apply hoare_get|intros g].
  apply (hoare_conseq PassInv _ _ (fun _ => PassInv) _ PassInv); [by intros ? ? []|done|done|]. destruct (now <? nextAttemptAt g); [apply (hoare_ret [] (fun _ => PassInv))|].
  eapply hoare_then; [eapply hoare_try; [apply rounds_safe|apply (hoare_ret tt (fun _ => PassInv))]|intros []].
  eapply hoare_then; [apply hoare_get|intros ids].
  eapply (hoare_then _ _ (fun _ => PassInv)); [|intros []; eapply hoare_conseq; [exact (fun _ _ H => H)| |exact (fun _ _ H => H)|apply hoare_get]; by intros ? ? ? []].
  eapply (hoare_try _ _ _ _ _ PassInv); [|apply hoare_mod; by intros h s []].
  intros h s [HP ->] b. split; [exact (proj2 HP)|]. destruct b; by apply PassInv_app.
Qed.

(** The history of a client: its finished passes. *)
Inductive client : list Ev -> Ingest -> Prop :=
  | client_new : client [] new_ingest
  | client_pass h g tr s r : client h g -> traces (flushOutbox backoff (mkFState g [] [])) tr (Some (s, r)) -> client (h ++ tr) (ing s).

Lemma client_head h g : client h g -> HeadInv h g.
Proof.
  induction 1 as [|h g tr s r Hc IH Ht]; [done|]. destruct (safe_trace _ _ _ _ _ (flush_pass_safe h (mkFState g [] []) IH) Ht) as [_ Hq].
  specialize (Hq _ eq_refl). by destruct r as [r|]; destruct Hq.
Qed.

(** C20: Whatever a client's requests and calls are answered, a pass acknowledges only events that the server took,
    and puts an event aside only for the answer to its last request: a rejection (400, 409, 422), a refusal of the event's lineage,
    a client error that is not about credentials, time or load, or a server error when the event failed so at least
    [deadLetterAfter] times. *)
Theorem pass_justified h g tr r pre x post : client h g -> traces (flushOutbox backoff (mkFState g [] [])) tr r -> tr = (pre ++ x :: post)%list ->
  match x with
  | ev_ack ids => forall id, id ∈ ids -> accepted (h ++ pre) id
  | ev_dead e reason status => justified (h ++ pre) e reason status
  | _ => True
  end.
Proof.
  intros Hc Ht Etr. destruct (safe_trace _ _ _ _ _ (flush_pass_safe h (mkFState g [] []) (client_head _ _ Hc)) Ht) as [Hg _]. exact (Hg pre x post Etr).
Qed.
End Logic.
End Trace.

(** ** Processes that stage and deliver *)
Module Net.
Import Seq Deliver Trace.

Section Net.
Context `{Codec : EventCodec OutLine}.
Context (inos : nat -> nat) (opts : Options) (backoff : BackoffOptions) (blockSize maxEventBytes : Z) (deriveEventId : string -> string -> string).

(** The outboxes and their files, the allocators and theirs, and the ids of the events the server took. *)
Record Net := mkNet { n_world : World; n_pool : Pool; n_taken : list string }.

(** What the outside contributes to a call. *)
Record Input := mkInput { i_now : Z; i_reply : Reply; i_high : option Z; i_fail : bool; i_tape : list (option nat); i_dead_tape : list (option nat) }.

(** A call of the outbox of process [i]; [None]: the process died in it. *)
Definition call_out {B} (i : nat) (inp : Input) (op : Op) (m : M B) (n : Net) : Net * option (option B) :=
  let w := n_world n in
  match procs w !! i with
  | Some o =>
      if i_fail inp then (n, Some None)
      else
        let (s', r) := m (sys_of w o (i_tape inp) (i_dead_tape inp)) in
        let p := match r with Some _ => ob s' | None => new_outbox end in
        let w' := mkWorld (file s') (deads s') (created s') (<[i := p]> (procs w)) (match r with Some _ => staged_by op ++ staged w | None => staged w end)%list (delivered_by op ++ w_delivered w) in
        (mkNet w' (n_pool n) (n_taken n), Some <$> r)
  | None => (n, Some None)
  end.

Definition with_pool (n : Net) (p : Pool) : Net := mkNet (n_world n) p (n_taken n).
Definition answer_next (i : nat) (n : Net) (r : SequenceFile * SourceSequence * option Z) : Net * option (option Z) :=
  (with_pool n (mkPool r.1.1 (<[i := r.1.2]> (allocs (n_pool n))) (option_list r.2 ++ handed (n_pool n))), Some r.2).

(** [sequence.next()], whose floor is one above the outbox's highest number. *)
Definition call_next (i : nat) (inp : Input) (n : Net) : Net * option (option Z) :=
  match allocs (n_pool n) !! i with
  | Some a =>
      if cur a <? end_ a then answer_next i n (next blockSize 0 (p_file (n_pool n)) a)
      else if i_fail inp then (with_pool n (mkPool (p_file (n_pool n)) (<[i := on_failures a]> (allocs (n_pool n))) (handed (n_pool n))), Some None)
      else
        match call_out i inp op_read highestSequence n with
        | (n', Some (Some high)) => answer_next i n' (next blockSize (high + 1) (p_file (n_pool n')) a)
        | (n', Some None) => (n', Some None)
        | (n', None) => (n', None)
        end
  | None => (n, Some None)
  end.
Definition call_advance (i : nat) (inp : Input) (m : Z) (n : Net) : Net * option (option Z) :=
  match allocs (n_pool n) !! i with
  | Some a =>
      if i_fail inp then (n, Some None)
      else
        let r := advanceTo m (p_file (n_pool n)) a in
        (with_pool n (mkPool r.1.1 (<[i := r.1.2]> (allocs (n_pool n))) (handed (n_pool n))), Some r.2)
  | None => (n, Some None)
  end.

Definition took (e : EnvelopeV2) (r : Reply) : list string := match r with reply st _ _ => if is_ok st then [e_id e] else [] | net_error => [] end.

Definition exec (i : nat) (inp : Input) (n : Net) {B} (c : Call B) : Net * option B :=
  match c with
  | c_now => (n, Some (i_now inp))
  | c_post e => (mkNet (n_world n) (n_pool n) (took e (i_reply inp) ++ n_taken n), Some (i_reply inp))
  | c_highWater => (n, Some (i_high inp))
  | c_peek limit => call_out i inp op_read (peek limit) n
  | c_lookup id => call_out i inp op_read (lookup_out id) n
  | c_append e => call_out i inp (op_append e) (append inos opts e) n
  | c_ackMany ids => call_out i inp (op_ackMany ids) (ackMany inos opts ids) n
  | c_deadLetter e r st => call_out i inp (op_deadLetter e r st) (deadLetter inos opts e r st) n
  | c_replacePending es => call_out i inp (op_replacePending es) (replacePending inos es) n
  | c_recordUndeliverable r => call_out i inp (op_recordUndeliverable r) (recordUndeliverable r) n
  | c_next => call_next i inp n
  | c_advanceTo m => call_advance i inp m n
  end.

(** Threads of processes: a client's passes, one after the other, or one staging. *)
Inductive Result := ended_pass (s : FState) | ended_stage.
Definition pass_prog (g : Ingest) : Prog Result := pbind (flushOutbox backoff (mkFState g [] [])) (fun x => Ret (ended_pass x.1)).
Definition stage_prog (i : StageInput) (uuid nonce : string) : Prog Result :=
  pbind (stageNow maxEventBytes deriveEventId i uuid nonce (mkFState new_ingest [] [])) (fun _ => Ret ended_stage).
Record Thread := mkThread { t_proc : nat; t_hist : list Ev; t_prog : Prog Result }.
Definition System : Type := Net * list Thread.
Definition sys0 : System := (mkNet world0 pool0 [], []).

(** The allocator of a process that takes another's place. *)
Definition restarted (i : nat) (n : Net) : Net := with_pool n (mkPool (p_file (n_pool n)) (<[i := new_sequence]> (allocs (n_pool n))) (handed (n_pool n))).

Inductive sys_step : System -> System -> Prop :=
  | sy_join n ths : sys_step (n, ths)
      (mkNet (mkWorld (w_file (n_world n)) (w_deads (n_world n)) (w_created (n_world n)) (procs (n_world n) ++ [new_outbox]) (staged (n_world n)) (w_delivered (n_world n)))
         (mkPool (p_file (n_pool n)) (allocs (n_pool n) ++ [new_sequence]) (handed (n_pool n))) (n_taken n), ths)
  | sy_stage n ths i inp uuid nonce : sys_step (n, ths) (n, mkThread i [] (stage_prog inp uuid nonce) :: ths)
  | sy_client n ths i : sys_step (n, ths) (n, mkThread i [] (pass_prog new_ingest) :: ths)
  | sy_pass n i h s t1 t2 : sys_step (n, t1 ++ mkThread i h (Ret (ended_pass s)) :: t2)%list (n, t1 ++ mkThread i h (pass_prog (ing s)) :: t2)%list
  | sy_call n n' i h B (c : Call B) k b inp t1 t2 : exec i inp n c = (n', Some b) ->
      sys_step (n, t1 ++ mkThread i h (Do c k) :: t2)%list (n', t1 ++ mkThread i (h ++ [ev c b]) (k b) :: t2)%list
  | sy_die n n' i h B (c : Call B) k inp t1 t2 : exec i inp n c = (n', None) ->
      sys_step (n, t1 ++ mkThread i h (Do c k) :: t2)%list (restarted i n', js_filter (fun th => negb (Nat.eqb (t_proc th) i)) (t1 ++ t2)%list)
  | sy_kill n ths i : sys_step (n, ths)
        (restarted i (mkNet (mkWorld (w_file (n_world n)) (w_deads (n_world n)) (w_created (n_world n)) (<[i := new_outbox]> (procs (n_world n))) (staged (n_world n)) (w_delivered (n_world n)))
           (n_pool n) (n_taken n)),
         js_filter (fun th => negb (Nat.eqb (t_proc th) i)) ths).

(** *** Calls are steps of the outbox and of the allocator *)

Definition agrees {B} (op : Op) (m : M B) : Prop := forall s, run_op inos opts op s = ((m s).1, match (m s).2 with Some _ => Some tt | None => None end).
Lemma unit_agrees op (m : M unit) : run_op inos opts op = m -> agrees op m.
Proof. intros <- s. by destruct (run_op inos opts op s) as [s' [[]|]]. Qed.
Lemma bind_agrees {B} op (m : M B) : run_op inos opts op = Outbox.bind m (fun _ => Outbox.ret tt) -> agrees op m.
Proof. intros E s. rewrite E. unfold Outbox.bind. by destruct (m s) as [s' [b|]]. Qed.

Lemma insert_split {A} (l : list A) i x : l !! i = Some x -> exists a b, l = (a ++ x :: b)%list /\ forall y, <[i := y]> l = (a ++ y :: b)%list.
Proof.
  intros Hi. exists (take i l), (drop (S i) l). split; [by rewrite take_drop_middle|]. intros y. rewrite insert_take_drop; [done|]. by apply lookup_lt_Some in Hi.
Qed.

Record NetInv (n : Net) : Prop := mkNetInv {
  N_world : rtc (step inos opts) world0 (n_world n);
  N_pool : rtc (pool_step blockSize) pool0 (n_pool n);
  N_taken : forall id, id ∈ w_delivered (n_world n) -> id ∈ n_taken n
}.

Lemma call_out_inv {B} i inp op (m : M B) n : agrees op m -> (forall id, id ∈ delivered_by op -> id ∈ n_taken n) -> NetInv n ->
  NetInv (call_out i inp op m n).1 /\ n_taken (call_out i inp op m n).1 = n_taken n /\ n_pool (call_out i inp op m n).1 = n_pool n.
Proof.
  intros Hag Hd HI. unfold call_out. destruct (procs (n_world n) !! i) as [o|] eqn:Ho; [|done]. destruct (i_fail inp); [done|].
  destruct (insert_split _ _ _ Ho) as (a & b & Ep & Ei). specialize (Hag (sys_of (n_world n) o (i_tape inp) (i_dead_tape inp))).
  destruct (m (sys_of (n_world n) o (i_tape inp) (i_dead_tape inp))) as [s' r]. cbn [fst snd] in *. split; [|done]. destruct HI as [N1 N2 N3]. split; cbn [n_world n_pool n_taken w_delivered]; [|done|set_solver].
  eapply rtc_r; [exact N1|]. pose proof (step_op inos opts (n_world n) a o b op _ _ _ _ Ep Hag) as Hst. rewrite Ei. by destruct r.
Qed.
Lemma answer_next_inv i n a floor : allocs (n_pool n) !! i = Some a -> NetInv n -> let r := answer_next i n (next blockSize floor (p_file (n_pool n)) a) in NetInv r.1 /\ n_taken r.1 = n_taken n.
Proof. intros Ha [N1 N2 N3]. split; [|done]. split; cbn; [done| |done]. eapply rtc_r; [exact N2|]. exact (ps_next blockSize (n_pool n) i a floor Ha). Qed.

Lemma call_advance_inv i inp m n : NetInv n -> NetInv (call_advance i inp m n).1 /\ n_taken (call_advance i inp m n).1 = n_taken n.
Proof.
  intros HI. unfold call_advance. destruct (allocs (n_pool n) !! i) as [a|] eqn:Ha; [|done]. destruct (i_fail inp); [done|]. destruct HI as [N1 N2 N3]. split; [|done]. split; cbn; [done| |done].
  eapply rtc_r; [exact N2|]. exact (ps_advance blockSize (n_pool n) i a m Ha).
Qed.
Lemma call_next_inv i inp n : NetInv n -> NetInv (call_next i inp n).1 /\ n_taken (call_next i inp n).1 = n_taken n.
Proof.
  intros HI. unfold call_next. destruct (allocs (n_pool n) !! i) as [a|] eqn:Ha; [|done].
  destruct (cur a <? end_ a); [by apply answer_next_inv|]. destruct (i_fail inp).
  - destruct HI as [N1 N2 N3]. split; [|done]. split; cbn; [done| |done]. eapply rtc_r; [exact N2|]. exact (ps_fail blockSize (n_pool n) i a Ha).
  - destruct (call_out_inv i inp op_read highestSequence n) as (H1 & H2 & H3); [by apply (bind_agrees op_read highestSequence)|by intros id ?%not_elem_of_nil|done|].
    destruct (call_out i inp op_read highestSequence n) as [n' [[high|]|]]; [|done|done]. cbn [fst] in *. rewrite <- H2. apply answer_next_inv; [by rewrite H3|done].
Qed.

(** The ids an acknowledgement names were taken. *)
Definition ack_ok (n : Net) {B} (c : Call B) : Prop := match c with c_ackMany ids => forall id, id ∈ ids -> id ∈ n_taken n | _ => True end.

Lemma exec_inv {B} i inp n (c : Call B) : ack_ok n c -> NetInv n ->
  NetInv (exec i inp n c).1 /\ (forall id, id ∈ n_taken n -> id ∈ n_taken (exec i inp n c).1).
Proof.
  assert (Hout : forall C op (m : M C), agrees op m -> (forall id, id ∈ delivered_by op -> id ∈ n_taken n) -> NetInv n ->
    NetInv (call_out i inp op m n).1 /\ (forall id, id ∈ n_taken n -> id ∈ n_taken (call_out i inp op m n).1)).
  { intros C op m H1 H3 HI. destruct (call_out_inv i inp op m n H1 H3 HI) as (? & -> & _). done. }
  intros Hok HI. destruct c; cbn [exec fst] in *; try done.
  - destruct HI as [N1 N2 N3]. split; [split; cbn; try done; set_solver|cbn; set_solver].
  - apply Hout; [|by intros id ?%not_elem_of_nil|done]. by intros [].
  - apply Hout; [|by intros id' ?%not_elem_of_nil|done]. by intros [].
  - apply Hout; [by apply bind_agrees|by intros id ?%not_elem_of_nil|done].
  - apply Hout; [by apply unit_agrees|done|done].
  - apply Hout; [by apply unit_agrees|by intros id ?%not_elem_of_nil|done].
  - apply Hout; [by apply bind_agrees|by intros id ?%not_elem_of_nil|done].
  - apply Hout; [by apply unit_agrees|by intros id ?%not_elem_of_nil|done].
  - destruct (call_next_inv i inp n HI) as [? ->]. done.
  - destruct (call_advance_inv i inp minNext n HI) as [? ->]. done.
Qed.

Lemma accepted_snoc h x id : accepted (h ++ [x]) id -> accepted h id \/ exists e st body ra, x = ev_post e (reply st body ra) /\ e_id e = id /\ is_ok st = true.
Proof.
  intros (e & st & body & ra & [Hin|Hin%list_elem_of_singleton]%elem_of_app & ?); [left|right]; by exists e, st, body, ra.
Qed.
Lemma exec_taken {B} i inp n n' (c : Call B) b id : exec i inp n c = (n', Some b) -> (exists e st body ra, ev c b = ev_post e (reply st body ra) /\ e_id e = id /\ is_ok st = true) -> id ∈ n_taken n'.
Proof.
  intros He (e & st & body & ra & Ev & <- & Hok). destruct c; try done. cbn in He. injection He as <- <-. cbn in Ev. injection Ev as <- Er. cbn. rewrite Er. cbn. rewrite Hok. set_solver.
Qed.

Definition ThreadInv (n : Net) (th : Thread) : Prop :=
  (forall id, accepted (t_hist th) id -> id ∈ n_taken n) /\
  safe backoff (t_hist th) (t_prog th) (fun h r => match r with ended_pass s => PassInv h s | ended_stage => True end).
Definition SysInv (s : System) : Prop := NetInv s.1 /\ Forall (ThreadInv s.1) s.2.

Lemma ThreadInv_later n n' th : (forall id, id ∈ n_taken n -> id ∈ n_taken n') -> ThreadInv n th -> ThreadInv n' th.
Proof. intros Hn [H1 H2]. split; [|done]. auto. Qed.
Lemma pass_prog_safe h g : HeadInv h g -> safe backoff h (pass_prog g) (fun h r => match r with ended_pass s => PassInv h s | ended_stage => True end).
Proof. intros Hg. apply safe_bind. eapply safe_weaken; [|by apply (flush_pass_safe backoff h (mkFState g [] []))]. by intros h' [s [a|]]. Qed.

Lemma stage_prog_safe h i uuid nonce : safe backoff h (stage_prog i uuid nonce) (fun h r => match r with ended_pass s => PassInv h s | ended_stage => True end).
Proof.
  set (T := fun (_ : list Ev) (_ : FState) => True). assert (Hc : forall C (c : Call (option C)), is_call c = true -> hoare backoff T (opt c) (fun _ => T) T) by (intros C c Hc; apply hoare_opt; intros h' s' b _; by destruct c).
  assert (Hr : forall C (a : C), hoare backoff T (pret a) (fun _ => T) T) by (intros C a; apply (hoare_ret backoff a (fun _ => T))).
  assert (Hs : hoare backoff T (stageNow maxEventBytes deriveEventId i uuid nonce) (fun _ => T) T).
  { unfold stageNow. destruct (negb (s_valid i)); [by intros ? ?|]. destruct (maxEventBytes <? s_bytes i); [eapply hoare_then; [by apply Hc|intros []; apply Hr]|].
    set (fresh := pthen (opt c_next) _). assert (Hf : hoare backoff T fresh (fun _ => T) T) by (eapply hoare_then; [by apply Hc|intros k]; eapply hoare_then; [by apply Hc|intros e; apply Hr]).
    destruct (draft_id deriveEventId i nonce) as [known|]; [|exact Hf]. destruct (_ && _); [|exact Hf]. eapply hoare_then; [by apply Hc|intros [e|[]|]; [apply Hr|apply Hr|apply Hr|exact Hf]]. }
  apply safe_bind. eapply safe_weaken; [|by apply Hs]. done.
Qed.

Lemma restarted_inv i n : NetInv n -> NetInv (restarted i n).
Proof.
  intros [N1 N2 N3]. unfold restarted. split; cbn; try done. destruct (allocs (n_pool n) !! i) as [a|] eqn:Ha.
  - eapply rtc_r; [exact N2|]. exact (ps_die blockSize (n_pool n) i a 0 false Ha).
  - rewrite list_insert_ge; [by destruct (n_pool n)|by apply lookup_ge_None].
Qed.
Lemma Forall_filter {A} (P : A -> Prop) p l : Forall P l -> Forall P (js_filter p l).
Proof. rewrite !Forall_forall. intros H x [? _]%js_filter_elem. auto. Qed.

Lemma SysInv_step s s' : sys_step s s' -> SysInv s -> SysInv s'.
Proof.
  intros Hst [HI HT]. destruct Hst as [n ths|n ths i inp uuid nonce|n ths i|n i h s t1 t2|n n' i h B c k b inp t1 t2 He|n n' i h B c k inp t1 t2 He|n ths i]; cbn [fst snd] in *.
  - destruct HI as [N1 N2 N3]. split; [|exact HT]. split; cbn; [|  |done]; [eapply rtc_r; [exact N1|apply step_join]|eapply rtc_r; [exact N2|apply ps_join]].
  - split; [done|]. constructor; [|done]. split; [|apply stage_prog_safe]. by intros id (e & st & body & ra & ?%not_elem_of_nil & _).
  - split; [done|]. constructor; [|done]. split; [|by apply pass_prog_safe]. by intros id (e & st & body & ra & ?%not_elem_of_nil & _).
  - split; [done|]. apply Forall_app in HT as [H1 [[Ha Hs] H2]%Forall_cons_1]. apply Forall_app. split; [done|]. constructor; [|done]. split; [done|]. apply pass_prog_safe. exact (proj1 Hs).
  - apply Forall_app in HT as [H1 [[Ha Hs] H2]%Forall_cons_1]. cbn [t_hist t_prog] in *. destruct (Hs b) as [Hg Hk].
    destruct (exec_inv i inp n c) as [HI' Hm]; [destruct c; try done; intros id Hid; by apply Ha, Hg|done|]. rewrite He in HI', Hm. cbn [fst] in *.
    split; [done|]. cbn. apply Forall_app. split; [eapply Forall_impl; [exact H1|intros th; by apply ThreadInv_later]|].
    constructor; [|eapply Forall_impl; [exact H2|intros th; by apply ThreadInv_later]]. split; [|exact Hk]. cbn. intros id [?|?]%accepted_snoc; [auto|by eapply exec_taken].
  - apply Forall_app in HT as [H1 [[Ha Hs] H2]%Forall_cons_1]. cbn [t_hist t_prog] in *.
    destruct (exec_inv i inp n c) as [HI' Hm]; [destruct c; try done; intros id Hid; apply Ha; exact (proj1 (Hs None) id Hid)|done|]. rewrite He in HI', Hm. cbn [fst] in *.
    split; [by apply restarted_inv|]. apply Forall_filter, Forall_app. split; (eapply Forall_impl; [eassumption|intros th; by apply (ThreadInv_later n)]).
  - split; [apply restarted_inv|by apply Forall_filter]. destruct HI as [N1 N2 N3]. split; cbn; try done.
    destruct (procs (n_world n) !! i) as [o|] eqn:Ho; [|rewrite list_insert_ge; [by destruct (n_world n)|by apply lookup_ge_None]].
    destruct (insert_split _ _ _ Ho) as (a & b & Ep & Ei). rewrite Ei. eapply rtc_r; [exact N1|]. by apply (step_die inos opts (n_world n) a o b).
Qed.

(** C16: However processes stage and deliver at the same time, whatever the server answers, whichever calls fail
    and wherever processes die, an event whose staging returned was taken by the server, or has a whole record in the
    dead-letter file, or is listed as pending by every process; no sequence number was given to two events; and at most one
    record of the dead-letter file is unreadable for each process that died in a dead-letter write. Inode
    numbers are not used again, a process's reads without the lock do not overlap with its other
    calls, and blocks of sequence numbers are not empty. *)
Theorem delivery_accounts n ths id : (forall i j, inos i = inos j -> i = j) -> 1 <= blockSize -> rtc sys_step sys0 (n, ths) -> id ∈ staged (n_world n) ->
  NoDup (handed (n_pool n)) /\ (length (unreadable (w_deads (n_world n))) <= dl_torn (w_deads (n_world n)))%nat /\
  (id ∈ n_taken n \/ id ∈ dead_ids (w_deads (n_world n)) \/
   forall o, o = new_outbox \/ o ∈ procs (n_world n) -> exists s' es e, peek None (sys_of (n_world n) o [] []) = (s', Some es) /\ e ∈ es /\ e_id e = id).
Proof.
  intros Hinj Hb Hr Hid. assert (HI : SysInv (n, ths)).
  { revert Hr. generalize (n, ths). apply rtc_ind_r; [|intros s s' _ Hst; by apply SysInv_step]. split; [split; cbn; try done; try constructor; by intros id' ?%not_elem_of_nil|constructor]. }
  destruct HI as [[N1 N2 N3] _]. split; [by apply P_handed, (sequence_handed blockSize)|].
  split; [by apply (unreadable_bounded inos opts)|]. destruct (event_kept inos opts (n_world n) id Hinj N1 Hid) as [?|[?|?]]; auto.
Qed.

(** *** Evaluating programs *)

(** A program of process [i] alone, an input for each of its calls: the state, what it did, its result. *)
Fixpoint run_prog {A} (i : nat) (p : Prog A) (inps : list Input) (n : Net) : Net * list Ev * option A :=
  match p with
  | Ret a => (n, [], Some a)
  | Do c k =>
      match inps with
      | [] => (n, [], None)
      | inp :: rest =>
          match exec i inp n c with
          | (n', Some b) => let '(n2, tr, r) := run_prog i (k b) rest n' in (n2, ev c b :: tr, r)
          | (n', None) => (n', [], None)
          end
      end
  end.

Lemma run_traces {A} i (p : Prog A) inps n : traces p (run_prog i p inps n).1.2 (run_prog i p inps n).2.
Proof.
  revert inps n. induction p as [a|B c k IH]; intros inps n; cbn; [constructor|]. destruct inps as [|inp rest]; [constructor|].
  destruct (exec i inp n c) as [n' [b|]]; [|constructor]. specialize (IH b rest n'). destruct (run_prog i (k b) rest n') as [[n2 tr] r]. by constructor.
Qed.
Lemma run_steps i (p : Prog Result) inps n h t1 t2 r : (run_prog i p inps n).2 = Some r ->
  rtc sys_step (n, t1 ++ mkThread i h p :: t2)%list ((run_prog i p inps n).1.1, t1 ++ mkThread i (h ++ (run_prog i p inps n).1.2) (Ret r) :: t2)%list.
Proof.
  revert inps n h. induction p as [a|B c k IH]; intros inps n h Hr; cbn in *; [injection Hr as <-; by rewrite app_nil_r|].
  destruct inps as [|inp rest]; [done|]. destruct (exec i inp n c) as [n' [b|]] eqn:Ee; [|done].
  specialize (IH b rest n' (h ++ [ev c b])%list). destruct (run_prog i (k b) rest n') as [[n2 tr] r']. cbn in *. specialize (IH Hr). rewrite <- app_assoc in IH.
  eapply rtc_l; [by apply (sy_call n n' i h B c k b inp)|exact IH].
Qed.
End Net.
End Net.

(** ** Evaluated runs *)
Module DeliverySample.
Import Seq Deliver Trace Net.
#[local] Existing Instance OutboxSample.line_codec.

Definition opts_big : Options := mkOptions 100 500.
Definition hmac (prefix id : string) : string := (prefix ++ "_" ++ id)%string.
Definition good (r : Reply) : Input := mkInput 0 r None false [] [].
Definition fine : Input := good (reply 200 empty_body None).
Definition broken : Input := mkInput 0 net_error None true [] [].
Definition collides : Input := good (reply 409 (mkRefusal (Some "sequence_conflict") None (Some 10)) None).
Definition net1 : Net := mkNet (mkWorld None (mkDeadFile [] false 0) 0 [new_outbox] [] []) (mkPool seq_absent [new_sequence] []) [].
Definition draft (id : string) : StageInput := mkStage (Some id) false true 10 "".
Definition stage_in (opts : Options) (id : string) (n : Net) : Net := (run_prog Datatypes.id opts 1 0 (stage_prog 1000 hmac (draft id) "u" "n") (repeat fine 3) n).1.1.
Definition staged3 : Net := stage_in opts_big "c" (stage_in opts_big "b" (stage_in opts_big "a" net1)).
Definition pass_in (opts : Options) (inps : list Input) (n : Net) := run_prog Datatypes.id opts 1 0 (pass_prog default_backoff new_ingest) inps n.
Definition pending_in (n : Net) : list (string * Z) := map (fun e => (e_id e, source_sequence e)) (map_values (index (sync (w_file (n_world n)) new_outbox))).
Definition sent (tr : list Ev) : list (string * Z) := map (fun x => (e_id x.1, source_sequence x.1)) (posts tr).
Definition aside (n : Net) : list (option string) := map (fun r => e_id <$> d_subject r) (dl_records (w_deads (n_world n))).

Example staged_in_order : pending_in staged3 = [("a", 1); ("b", 2); ("c", 3)] /\ handed (n_pool staged3) = [3; 2; 1].
Proof. vm_compute. split; reflexivity. Qed.
Example clean_pass : let r := pass_in opts_big (repeat fine 6) staged3 in sent r.1.2 = [("a", 1); ("b", 2); ("c", 3)] /\ pending_in r.1.1 = [] /\ n_taken r.1.1 = ["c"; "b"; "a"].
Proof. vm_compute. split_and!; reflexivity. Qed.

(** *** Renumbering *)

(** An event that the server took earlier in the pass is still pending when a later one collides: it is
    renumbered and sent again. *)
Example taken_event_sent_again : let r := pass_in opts_big [fine; fine; fine; collides; fine; fine; fine; fine; fine; fine; fine; fine; fine; fine; fine; fine] staged3 in
  sent r.1.2 = [("a", 1); ("b", 2); ("a", 11); ("b", 12); ("c", 13)] /\ pending_in r.1.1 = [].
Proof. vm_compute. split; reflexivity. Qed.

(** The pass in which the lock is not obtained once, while the queue is renumbered. *)
Definition failed_resync := pass_in opts_big [fine; fine; collides; fine; broken; fine; collides; fine; collides; fine; fine] staged3.
(** If the renumbering after a collision fails once, the pass puts not only the event that collided
    aside but every pending event that collides after it: they are marked as renumbered before the attempt. *)
Theorem failed_resync_drops_queue : sent failed_resync.1.2 = [("a", 1); ("b", 2); ("c", 3)] /\ pending_in failed_resync.1.1 = [] /\
  aside failed_resync.1.1 = [Some "a"; Some "b"; Some "c"] /\ n_taken failed_resync.1.1 = [].
Proof. vm_compute. split_and!; reflexivity. Qed.
(** With the lock, all of them would have been delivered. *)
Example resync_delivers_queue : let r := pass_in opts_big [fine; fine; collides; fine; fine; fine; fine; fine; fine; fine; fine; fine; fine; fine; fine] staged3 in
  sent r.1.2 = [("a", 1); ("a", 11); ("b", 12); ("c", 13)] /\ pending_in r.1.1 = [] /\ aside r.1.1 = [].
Proof. vm_compute. split_and!; reflexivity. Qed.

(** *** A completed id *)

(** An id whose acknowledgement was compacted away is staged anew, with a new number, by a process that started later. *)
Definition opts_small : Options := mkOptions 100 1.
Definition after_restart : Net :=
  let n := (pass_in opts_small (repeat fine 4) (stage_in opts_small "a" net1)).1.1 in
  restarted 0 (mkNet (mkWorld (w_file (n_world n)) (w_deads (n_world n)) (w_created (n_world n)) [new_outbox] (staged (n_world n)) (w_delivered (n_world n))) (n_pool n) (n_taken n)).
Example completed_id_restaged : n_taken after_restart = ["a"] /\ pending_in after_restart = [] /\ pending_in (stage_in opts_small "a" after_restart) = [("a", 2)].
Proof. vm_compute. split_and!; reflexivity. Qed.

(** *** The theorems at these runs *)

Lemma staged3_reachable : exists ths, rtc (sys_step Datatypes.id opts_big default_backoff 1 1000 hmac) sys0 (staged3, ths).
Proof.
  assert (Hstage : forall id n ths, (run_prog Datatypes.id opts_big 1 0 (stage_prog 1000 hmac (draft id) "u" "n") (repeat fine 3) n).2 = Some ended_stage ->
    exists th, rtc (sys_step Datatypes.id opts_big default_backoff 1 1000 hmac) (n, ths) (stage_in opts_big id n, th :: ths)).
  { intros id n ths Hr. eexists. eapply rtc_l; [apply (sy_stage _ _ _ _ _ _ n ths 0 (draft id) "u" "n")|].
    apply (run_steps Datatypes.id opts_big default_backoff 1 1000 hmac 0 _ (repeat fine 3) n [] [] ths ended_stage). exact Hr. }
  destruct (Hstage "a" net1 []) as [t1 H1]; [vm_compute; reflexivity|]. destruct (Hstage "b" (stage_in opts_big "a" net1) [t1]) as [t2 H2]; [vm_compute; reflexivity|].
  destruct (Hstage "c" (stage_in opts_big "b" (stage_in opts_big "a" net1)) [t2; t1]) as [t3 H3]; [vm_compute; reflexivity|].
  exists [t3; t2; t1]. eapply rtc_l; [apply sy_join|]. etrans; [exact H1|]. etrans; [exact H2|exact H3].
Qed.

Lemma delivery_accounts_witness : NoDup (handed (n_pool staged3)) /\ exists s' es e, peek None (sys_of (n_world staged3) new_outbox [] []) = (s', Some es) /\ e ∈ es /\ e_id e = "b".
Proof.
  destruct staged3_reachable as [ths Hr].
  destruct (delivery_accounts Datatypes.id opts_big default_backoff 1 1000 hmac staged3 ths "b") as (H1 & _ & [H|[H|H]]).
  - by intros i j.
  - done.
  - exact Hr.
  - apply (bool_decide_unpack _). vm_compute. exact I.
  - exfalso. revert H. apply (bool_decide_unpack (~ _)). vm_compute. exact I.
  - exfalso. revert H. apply (bool_decide_unpack (~ _)). vm_compute. exact I.
  - exact (conj H1 (H new_outbox (or_introl eq_refl))).
Defined.

Lemma sequence_unique_witness : NoDup (handed (n_pool staged3)) /\ ((1 : Z) = 1 -> StronglySorted Z.gt (handed (n_pool staged3))).
Proof.
  apply (sequence_unique 1); [done|]. apply (rtc_l _ _ (mkPool seq_absent [new_sequence] [])); [apply ps_join|].
  eapply rtc_l; [apply (ps_next 1 _ 0 new_sequence 1); reflexivity|]. eapply rtc_l; [apply (ps_next 1 _ 0 (mkSequence 2 2 0 0) 2); reflexivity|].
  eapply rtc_l; [apply (ps_next 1 _ 0 (mkSequence 3 3 0 0) 3); reflexivity|]. vm_compute. constructor.
Defined.

Definition rejected_run := run_prog Datatypes.id opts_big 1 0 (flushOutbox default_backoff (mkFState new_ingest [] [])) [fine; fine; collides; fine; broken; fine; fine; fine; fine] staged3.
Lemma rejected_split : rejected_run.1.2 = (take 5 rejected_run.1.2 ++ ev_dead (mkEnvelope "a" 1 "") server_rejected (Some 409) :: drop 6 rejected_run.1.2)%list.
Proof. vm_compute. reflexivity. Qed.
Lemma pass_justified_witness : justified default_backoff ([] ++ take 5 rejected_run.1.2)%list (mkEnvelope "a" 1 "") server_rejected (Some 409).
Proof.
  exact (pass_justified default_backoff [] new_ingest rejected_run.1.2 rejected_run.2 (take 5 rejected_run.1.2) (ev_dead (mkEnvelope "a" 1 "") server_rejected (Some 409)) (drop 6 rejected_run.1.2)
    (client_new default_backoff) (run_traces _ _ _ _ _ _ _) rejected_split).
Defined.
End DeliverySample.
