(* ===== verification/PortableLock.v ===== *)
(** * The lock of the event emitter (src/runtime/herdr/portableLock.ts)

    The file system calls of [withFileLock], [steal], [tryCreate] and [removeIfSame] are the
    steps, so that all interleavings of any number of processes, deaths included, are runs.
    A process links one record, always with the same text, to the name of the lock or of the guard that
    serialises stealing: a name holds the process whose record it is, and texts are equal
    exactly when the processes are. Refreshing a record's time and linking it are one step, and so are
    reading the age of a name and probing its owner. A process that breaks an old guard
    carries whose guard it found old; the code does not look at it again. Sweeping of
    records is left out. *)

From S2P Require Import Prelude FileLock.

Module Portable.

(** The file system calls a process makes next, with what it has read. *)
Inductive Pc :=
  | Out
  | Linking                              (* tryCreate(lockPath) *)
  | Reading                              (* the deadline; readFile(lockPath) *)
  | Judging (raw : nat)                  (* stat(lockPath), pidAlive *)
  | GuardLinking (raw : nat)             (* steal: tryCreate(guardPath) *)
  | GuardStat                            (* stat(guardPath) *)
  | GuardRead (old : nat)                (* readFile(guardPath); old: whose guard was found old *)
  | BreakReading (old raw : nat)         (* removeIfSame(guardPath): readFile *)
  | BreakRenaming (old raw : nat)        (* rename(guardPath, tomb) *)
  | BreakChecking (raw moved : nat)      (* readFile(tomb) *)
  | BreakRestoring (moved : nat)         (* link(tomb, guardPath) *)
  | StealReading (raw : nat)             (* removeIfSame(lockPath): readFile *)
  | StealRenaming (raw : nat)            (* rename(lockPath, tomb) *)
  | StealChecking (raw moved : nat)      (* readFile(tomb) *)
  | StealRestoring (moved : nat)         (* link(tomb, lockPath) *)
  | GuardReleasing                       (* finally: readFile(guardPath) *)
  | UnguardReading                       (* removeIfSame(guardPath): readFile *)
  | UnguardRenaming                      (* rename(guardPath, tomb) *)
  | UnguardChecking (moved : nat)        (* readFile(tomb) *)
  | UnguardRestoring (moved : nat)       (* link(tomb, guardPath) *)
  | Holding                              (* fn() *)
  | Releasing                            (* finally: readFile(lockPath) *)
  | Unlinking                            (* rm(lockPath) *)
  | Waiting.                             (* setTimeout *)

Record World := mkWorld {
  w_lock : option nat;
  w_guard : option nat;
  w_time : nat -> Z;
  w_gtime : nat -> Z;
  w_clock : Z;
  w_pc : nat -> Pc;
  w_alive : nat -> bool
}.

Section Lock.
(** [comparable p q]: same host, boot and pid namespace. *)
Context (comparable : nat -> nat -> bool) (staleMs : Z).

Definition set_pc (p : nat) (c : Pc) (w : World) : World := mkWorld (w_lock w) (w_guard w) (w_time w) (w_gtime w) (w_clock w) (upd p c (w_pc w)) (w_alive w).
Definition set_lock (l : option nat) (w : World) : World := mkWorld l (w_guard w) (w_time w) (w_gtime w) (w_clock w) (w_pc w) (w_alive w).
Definition set_guard (g : option nat) (w : World) : World := mkWorld (w_lock w) g (w_time w) (w_gtime w) (w_clock w) (w_pc w) (w_alive w).
Definition GUARD_STALE_MS : Z := 10000.

(** [now]: the owner of the file whose age is read. *)
Definition is_stale (p raw now : nat) (w : World) : bool :=
  if comparable p raw then negb (w_alive w raw) else staleMs <? w_clock w - w_time w now.

Definition syscall (p : nat) (w : World) : World :=
  match w_pc w p with
  | Out => w
  | Linking =>
      match w_lock w with
      | None => mkWorld (Some p) (w_guard w) (upd p (w_clock w) (w_time w)) (w_gtime w) (w_clock w) (upd p Holding (w_pc w)) (w_alive w)
      | Some _ => set_pc p Reading w
      end
  | Reading => match w_lock w with Some q => set_pc p (Judging q) w | None => set_pc p Waiting w end
  | Judging raw => match w_lock w with Some q => set_pc p (if is_stale p raw q w then GuardLinking raw else Waiting) w | None => set_pc p Waiting w end
  | GuardLinking raw =>
      match w_guard w with
      | None => mkWorld (w_lock w) (Some p) (w_time w) (upd p (w_clock w) (w_gtime w)) (w_clock w) (upd p (StealReading raw) (w_pc w)) (w_alive w)
      | Some _ => set_pc p GuardStat w
      end
  | GuardStat =>
      match w_guard w with
      | Some q => set_pc p (if GUARD_STALE_MS <? w_clock w - w_gtime w q then GuardRead q else Waiting) w
      | None => set_pc p Waiting w
      end
  | GuardRead old => match w_guard w with Some q => set_pc p (BreakReading old q) w | None => set_pc p Waiting w end
  | BreakReading old raw => match w_guard w with Some q => set_pc p (if Nat.eqb q raw then BreakRenaming old raw else Waiting) w | None => set_pc p Waiting w end
  | BreakRenaming _ raw => match w_guard w with Some q => set_pc p (BreakChecking raw q) (set_guard None w) | None => set_pc p Waiting w end
  | BreakChecking raw moved => set_pc p (if Nat.eqb moved raw then Waiting else BreakRestoring moved) w
  | BreakRestoring moved => match w_guard w with None => set_pc p Waiting (set_guard (Some moved) w) | Some _ => set_pc p Waiting w end
  | StealReading raw => match w_lock w with Some q => set_pc p (if Nat.eqb q raw then StealRenaming raw else GuardReleasing) w | None => set_pc p GuardReleasing w end
  | StealRenaming raw => match w_lock w with Some q => set_pc p (StealChecking raw q) (set_lock None w) | None => set_pc p GuardReleasing w end
  | StealChecking raw moved => set_pc p (if Nat.eqb moved raw then GuardReleasing else StealRestoring moved) w
  | StealRestoring moved => match w_lock w with None => set_pc p GuardReleasing (set_lock (Some moved) w) | Some _ => set_pc p GuardReleasing w end
  | GuardReleasing => match w_guard w with Some q => set_pc p (if Nat.eqb q p then UnguardReading else Waiting) w | None => set_pc p Waiting w end
  | UnguardReading => match w_guard w with Some q => set_pc p (if Nat.eqb q p then UnguardRenaming else Waiting) w | None => set_pc p Waiting w end
  | UnguardRenaming => match w_guard w with Some q => set_pc p (UnguardChecking q) (set_guard None w) | None => set_pc p Waiting w end
  | UnguardChecking moved => set_pc p (if Nat.eqb moved p then Waiting else UnguardRestoring moved) w
  | UnguardRestoring moved => match w_guard w with None => set_pc p Waiting (set_guard (Some moved) w) | Some _ => set_pc p Waiting w end
  | Holding => set_pc p Releasing w
  | Releasing => match w_lock w with Some q => set_pc p (if Nat.eqb q p then Unlinking else Out) w | None => set_pc p Out w end
  | Unlinking => set_pc p Out (set_lock None w)
  | Waiting => set_pc p Linking w
  end.

Inductive Action :=
  | a_start (p : nat)    (* withFileLock is called *)
  | a_next (p : nat)     (* its next file system call *)
  | a_give_up (p : nat)  (* the deadline has passed *)
  | a_die (p : nat)
  | a_tick (ms : Z).

Definition exec (a : Action) (w : World) : option World :=
  match a with
  | a_start p => if w_alive w p then match w_pc w p with Out => Some (set_pc p Linking w) | _ => None end else None
  | a_next p => if w_alive w p then Some (syscall p w) else None
  | a_give_up p => if w_alive w p then match w_pc w p with Reading => Some (set_pc p Out w) | _ => None end else None
  | a_die p => Some (mkWorld (w_lock w) (w_guard w) (w_time w) (w_gtime w) (w_clock w) (w_pc w) (upd p false (w_alive w)))
  | a_tick ms => if 0 <=? ms then Some (mkWorld (w_lock w) (w_guard w) (w_time w) (w_gtime w) (w_clock w + ms) (w_pc w) (w_alive w)) else None
  end.
Fixpoint exec_all (l : list Action) (w : World) : option World := match l with [] => Some w | a :: l' => w' ← exec a w; exec_all l' w' end.

Definition init : World := mkWorld None None (fun _ => 0) (fun _ => 0) 0 (fun _ => Out) (fun _ => true).

(** ** Mutual exclusion *)

Definition has_lock (c : Pc) : bool := match c with Holding | Releasing | Unlinking => true | _ => false end.
Definition has_guard (c : Pc) : bool :=
  match c with StealReading _ | StealRenaming _ | StealChecking _ _ | StealRestoring _ | GuardReleasing | UnguardReading | UnguardRenaming => true | _ => false end.
(** The owner whose lock a process is about to take away, or whose guard it found old. *)
Definition condemned (c : Pc) : option nat :=
  match c with
  | GuardLinking raw | StealReading raw | StealRenaming raw | StealChecking raw _ => Some raw
  | GuardRead old | BreakReading old _ | BreakRenaming old _ => Some old
  | _ => None
  end.

Definition holds (p : nat) (w : World) : Prop := w_alive w p = true /\ w_pc w p = Holding.

(** The timing assumptions. Age condemns only the dead: the owner of a lock that cannot be
    probed and is found older than [staleMs], and the owner of a guard found older than
    [GUARD_STALE_MS]. And a guard is not replaced between being found old and being renamed:
    the code reads its text only after its age. *)
Definition timely (a : Action) (w : World) : Prop :=
  match a with
  | a_next p =>
      match w_pc w p with
      | Judging raw => comparable p raw = false -> (exists q, w_lock w = Some q /\ staleMs < w_clock w - w_time w q) -> w_alive w raw = false
      | GuardStat => forall q, w_guard w = Some q -> GUARD_STALE_MS < w_clock w - w_gtime w q -> w_alive w q = false
      | BreakRenaming old _ => forall q, w_guard w = Some q -> q = old
      | _ => True
      end
  | _ => True
  end.
Inductive timely_step : World -> World -> Prop :=
  | timely_step_intro a w w' : exec a w = Some w' -> timely a w -> timely_step w w'.

(** A run all of whose steps are timely. *)
Fixpoint all_timely (l : list Action) (w : World) : Prop :=
  match l with [] => True | a :: l' => timely a w /\ match exec a w with Some w' => all_timely l' w' | None => True end end.
Lemma exec_all_timely l w w' : exec_all l w = Some w' -> all_timely l w -> rtc timely_step w w'.
Proof.
  revert w. induction l as [|a l IH]; intros w E Hc; cbn in *; [simplify_eq; apply rtc_refl|]. destruct Hc as [Ha Hl]. destruct (exec a w) as [w1|] eqn:Ew; [|done].
  eapply rtc_l; [by eapply timely_step_intro|auto].
Qed.

Record Inv (w : World) : Prop := mkInv {
  I_lock : forall p, w_alive w p = true -> has_lock (w_pc w p) = true -> w_lock w = Some p;
  I_guard : forall p, w_alive w p = true -> has_guard (w_pc w p) = true -> w_guard w = Some p;
  I_dead : forall p raw, condemned (w_pc w p) = Some raw -> w_alive w raw = false;
  I_same : forall p raw, w_alive w p = true -> w_pc w p = StealRenaming raw -> w_lock w = Some raw;
  I_moved : forall p raw moved, w_pc w p = StealChecking raw moved -> moved = raw;
  I_restoring : forall p moved, w_pc w p <> StealRestoring moved;
  I_unguard : forall p moved, w_pc w p = UnguardChecking moved -> moved = p;
  I_reguard : forall p moved, w_pc w p <> UnguardRestoring moved
}.

(** *** The invariant is kept *)

Lemma upd_same {A} (k : nat) (v : A) f : upd k v f k = v.
Proof. unfold upd. by rewrite decide_True. Qed.
Lemma upd_other {A} (k : nat) (v : A) f x : x <> k -> upd k v f x = f x.
Proof. intros. unfold upd. by rewrite decide_False. Qed.

(** What a process that goes to [c] has to know. *)
Record Entitled (w : World) (p : nat) (c : Pc) : Prop := mkEntitled {
  E_lock : has_lock c = true -> w_lock w = Some p;
  E_guard : has_guard c = true -> w_guard w = Some p;
  E_dead : forall raw, condemned c = Some raw -> w_alive w raw = false;
  E_same : forall raw, c = StealRenaming raw -> w_lock w = Some raw;
  E_moved : forall raw moved, c = StealChecking raw moved -> moved = raw;
  E_restoring : forall moved, c <> StealRestoring moved;
  E_unguard : forall moved, c = UnguardChecking moved -> moved = p;
  E_reguard : forall moved, c <> UnguardRestoring moved
}.
Lemma Inv_set_pc p c w : Inv w -> Entitled w p c -> Inv (set_pc p c w).
Proof.
  intros [] []. split; cbn; intros q; destruct (decide (q = p)) as [->|Hne]; rewrite ?upd_same, ?upd_other by done; eauto.
Qed.
Lemma Inv_set_lock l w : Inv w -> (forall p, w_alive w p = true -> has_lock (w_pc w p) = true -> l = Some p) ->
  (forall p raw, w_alive w p = true -> w_pc w p = StealRenaming raw -> l = Some raw) -> Inv (set_lock l w).
Proof. intros [] H1 H2. by split. Qed.
Lemma Inv_set_guard g w : Inv w -> (forall p, w_alive w p = true -> has_guard (w_pc w p) = true -> g = Some p) -> Inv (set_guard g w).
Proof. intros [] H1. by split. Qed.
Lemma Inv_times w t g c : Inv w -> Inv (mkWorld (w_lock w) (w_guard w) t g c (w_pc w) (w_alive w)).
Proof. intros []. by split. Qed.

Ltac plain := split; cbn; try done; intros; simplify_eq; try done; eauto.

Lemma linking_inv p w : Inv w -> w_alive w p = true -> w_pc w p = Linking -> Inv (syscall p w).
Proof.
  intros HI Ha Hpc. unfold syscall. rewrite Hpc. destruct (w_lock w) as [q|] eqn:El; [by apply Inv_set_pc; [|plain]|].
  assert (HI' : Inv (set_lock (Some p) w)).
  { apply Inv_set_lock; [done|..]; intros q; [intros Hq Hc|intros raw Hq Hc]; exfalso; [pose proof (I_lock _ HI q Hq Hc)|pose proof (I_same _ HI q raw Hq Hc)]; congruence. }
  pose proof (Inv_times _ (upd p (w_clock w) (w_time w)) (w_gtime w) (w_clock w) HI') as HT. apply (Inv_set_pc p Holding) in HT; [done|plain].
Qed.
Lemma guarding_inv p w raw : Inv w -> w_alive w p = true -> w_pc w p = GuardLinking raw -> Inv (syscall p w).
Proof.
  intros HI Ha Hpc. unfold syscall. rewrite Hpc. destruct (w_guard w) as [q|] eqn:El; [by apply Inv_set_pc; [|plain]|].
  assert (Hd : w_alive w raw = false) by (apply (I_dead _ HI p); by rewrite Hpc).
  assert (HI' : Inv (set_guard (Some p) w)).
  { apply Inv_set_guard; [done|]. intros q Hq Hc. exfalso. pose proof (I_guard _ HI q Hq Hc). congruence. }
  pose proof (Inv_times _ (w_time w) (upd p (w_clock w) (w_gtime w)) (w_clock w) HI') as HT. apply (Inv_set_pc p (StealReading raw)) in HT; [done|plain].
Qed.
(** Taking the lock of a dead process away. *)
Lemma stealing_inv p w raw : Inv w -> w_alive w p = true -> w_pc w p = StealRenaming raw -> Inv (syscall p w).
Proof.
  intros HI Ha Hpc. unfold syscall. rewrite Hpc. rewrite (I_same _ HI p raw Ha Hpc). assert (Hd : w_alive w raw = false) by (apply (I_dead _ HI p); by rewrite Hpc).
  assert (Hg : w_guard w = Some p) by (apply (I_guard _ HI); [done|by rewrite Hpc]). pose proof (I_same _ HI p raw Ha Hpc) as Hl.
  change (Inv (set_lock None (set_pc p (StealChecking raw raw) w))). apply Inv_set_lock; [apply Inv_set_pc; [done|plain]|..]; cbn; intros q.
  - intros Hq Hc. destruct (decide (q = p)) as [->|Hne]; [by rewrite upd_same in Hc|]. rewrite upd_other in Hc by done. pose proof (I_lock _ HI q Hq Hc). congruence.
  - intros raw' Hq Hc. destruct (decide (q = p)) as [->|Hne]; [by rewrite upd_same in Hc|]. rewrite upd_other in Hc by done.
    assert (Hg' : w_guard w = Some q) by (apply (I_guard _ HI); [done|by rewrite Hc]). congruence.
Qed.
Lemma unlinking_inv p w : Inv w -> w_alive w p = true -> w_pc w p = Unlinking -> Inv (syscall p w).
Proof.
  intros HI Ha Hpc. unfold syscall. rewrite Hpc. assert (Hl : w_lock w = Some p) by (apply (I_lock _ HI); [done|by rewrite Hpc]).
  change (Inv (set_lock None (set_pc p Out w))). apply Inv_set_lock; [apply Inv_set_pc; [done|plain]|..]; cbn; intros q.
  - intros Hq Hc. destruct (decide (q = p)) as [->|Hne]; [by rewrite upd_same in Hc|]. rewrite upd_other in Hc by done. pose proof (I_lock _ HI q Hq Hc). congruence.
  - intros raw' Hq Hc. destruct (decide (q = p)) as [->|Hne]; [by rewrite upd_same in Hc|]. rewrite upd_other in Hc by done.
    pose proof (I_same _ HI q raw' Hq Hc). assert (Hd : w_alive w raw' = false) by (apply (I_dead _ HI q); by rewrite Hc). congruence.
Qed.
(** Moving a guard away: one's own, or that of a dead process. *)
Lemma unguard_inv p w c : Inv w -> (forall g, w_guard w = Some g -> g = p \/ w_alive w g = false) -> has_guard c = false -> Entitled w p c -> Inv (set_guard None (set_pc p c w)).
Proof.
  intros HI Hg Hc He. apply Inv_set_guard; [by apply Inv_set_pc|]. cbn. intros q Hq Hcq. destruct (decide (q = p)) as [->|Hne]; [rewrite upd_same in Hcq; congruence|].
  rewrite upd_other in Hcq by done. pose proof (I_guard _ HI q Hq Hcq) as Hgq. destruct (Hg q Hgq); congruence.
Qed.

Lemma portable_syscall_inv p w : Inv w -> w_alive w p = true -> timely (a_next p) w -> Inv (syscall p w).
Proof.
  intros HI Ha Ht. destruct (w_pc w p) as [| | |raw|raw| |old|old raw|old raw|raw moved|moved|raw|raw|raw moved|moved| | | |moved|moved| | | |] eqn:Hpc.
  2: by apply linking_inv.
  4: by eapply guarding_inv.
  11: by eapply stealing_inv.
  20: by apply unlinking_inv.
  all: unfold syscall; rewrite Hpc; try done.
  all: try (assert (Hgp : w_guard w = Some p) by (apply (I_guard _ HI); [done|by rewrite Hpc])).
  all: try (assert (Hlp : w_lock w = Some p) by (apply (I_lock _ HI); [done|by rewrite Hpc])).
  all: try (assert (Hd : w_alive w raw = false) by (apply (I_dead _ HI p); by rewrite Hpc)).
  all: try (assert (Ho : w_alive w old = false) by (apply (I_dead _ HI p); by rewrite Hpc)).
  all: try solve [repeat case_match; apply Inv_set_pc; try done; plain].
  - destruct (w_lock w) as [q|] eqn:El; [|by apply Inv_set_pc; [|plain]]. destruct (is_stale p raw q w) eqn:Es; [|by apply Inv_set_pc; [|plain]].
    apply Inv_set_pc; [done|]. assert (Hd : w_alive w raw = false); [|plain]. unfold is_stale in Es. cbn in Ht. rewrite Hpc in Ht. destruct (comparable p raw); [by apply negb_true_iff in Es|].
    apply Z.ltb_lt in Es. apply Ht; [done|]. by exists q.
  - destruct (w_guard w) as [q|] eqn:Eg; [|by apply Inv_set_pc; [|plain]]. destruct (Z.ltb_spec GUARD_STALE_MS (w_clock w - w_gtime w q)) as [Hlt|]; [|by apply Inv_set_pc; [|plain]].
    cbn in Ht. rewrite Hpc in Ht. pose proof (Ht q Eg Hlt) as Hq. apply Inv_set_pc; [done|plain].
  - destruct (w_guard w) as [q|] eqn:Eg; [|by apply Inv_set_pc; [|plain]]. apply (unguard_inv p w (BreakChecking raw q)); [done| |done|plain]. cbn in Ht. rewrite Hpc in Ht. intros g Hg. right. by rewrite (Ht g) by congruence.
  - destruct (w_guard w) as [q|] eqn:Eg; [by apply Inv_set_pc; [|plain]|]. apply (Inv_set_guard (Some moved) (set_pc p Waiting w)); [apply Inv_set_pc; [done|plain]|]. cbn. intros q Hq Hc. exfalso.
    destruct (decide (q = p)) as [->|Hne]; [by rewrite upd_same in Hc|]. rewrite upd_other in Hc by done. pose proof (I_guard _ HI q Hq Hc). congruence.
  - destruct (w_lock w) as [q|] eqn:El; [|by apply Inv_set_pc; [|plain]]. destruct (Nat.eqb_spec q raw) as [->|]; apply Inv_set_pc; try done; plain.
  - rewrite (I_moved _ HI p raw moved Hpc), Nat.eqb_refl. apply Inv_set_pc; [done|plain].
  - by pose proof (I_restoring _ HI p moved).
  - rewrite Hgp. apply (unguard_inv p w (UnguardChecking p)); [done| |done|plain]. intros g Hg. left. congruence.
  - rewrite (I_unguard _ HI p moved Hpc), Nat.eqb_refl. apply Inv_set_pc; [done|plain].
  - by pose proof (I_reguard _ HI p moved).
Qed.

Lemma portable_step_inv w w' : timely_step w w' -> Inv w -> Inv w'.
Proof.
  intros [a w1 w2 E Hc] HI. destruct a as [p|p|p|p|ms]; cbn in E.
  - destruct (w_alive w1 p); [|done]. destruct (w_pc w1 p); simplify_eq. by apply Inv_set_pc; [|plain].
  - destruct (w_alive w1 p) eqn:Ha; simplify_eq. by apply portable_syscall_inv.
  - destruct (w_alive w1 p); [|done]. destruct (w_pc w1 p); simplify_eq. by apply Inv_set_pc; [|plain].
  - simplify_eq. destruct HI as [H1 H2 H3 H4 H5 H6 H7 H8].
    assert (Hu : forall q, upd p false (w_alive w1) q = true -> w_alive w1 q = true) by (intros q; unfold upd; by case_decide).
    split; cbn; eauto. intros q raw Hq. unfold upd. case_decide; [done|]. eauto.
  - destruct (0 <=? ms); simplify_eq. by apply Inv_times.
Qed.

(** C39: The lock excludes under any interleaving of file system calls and deaths, as long as age condemns only the
    dead (the owner of a lock that cannot be probed and is older than [staleMs], and the owner of a guard older than ten
    seconds) and no guard is replaced between being found old and being renamed away: at most one live process is in its
    critical section, and the lock is its own. In every run, whatever the timing, a release goes on to remove the lock
    only if the record it read there is its own. *)
Theorem portable_lock_exclusive w :
  (rtc timely_step init w ->
     (forall p p', holds p w -> holds p' w -> p = p') /\ (forall p, holds p w -> w_lock w = Some p)) /\
  (forall p w', w_pc w p = Releasing -> exec (a_next p) w = Some w' -> w_pc w' p = Unlinking -> w_lock w = Some p).
Proof.
  split.
  - intros Hr. assert (HI : Inv w).
    { revert w Hr. apply rtc_ind_r; [by split|]. intros x y _ Hst. by apply portable_step_inv. }
    assert (Hl : forall p, holds p w -> w_lock w = Some p) by (intros p [Ha Hp]; apply (I_lock _ HI); [done|by rewrite Hp]).
    split; [|done]. intros p p' H1%Hl H2%Hl. congruence.
  - intros p w' Hpc. cbn. destruct (w_alive w p); [|done]. intros [= <-]. unfold syscall. rewrite Hpc.
    destruct (w_lock w) as [q|]; cbn; rewrite upd_same; [|done]. by destruct (Nat.eqb_spec q p) as [->|].
Qed.
End Lock.
End Portable.

(** ** A guard that is broken twice *)
Module PortableSample.
Import Portable.

Definition one_env (_ _ : nat) : bool := true.
Definition DEFAULT_STALE_MS : Z := 60000.
Definition run_portable (l : list Action) : option World := exec_all one_env DEFAULT_STALE_MS l init.
Definition steps (p n : nat) : list Action := repeat (a_next p) n.

(** 0 dies in its critical section and 1 while it steals from 0. Ten seconds later 2 and 3 both find the guard old;
    2 removes it, takes the guard and is about to steal; 3 now reads the guard, which is 2's, removes
    that, and is about to steal as well. 2 steals, 5 takes the lock; 3 moves 5's lock away, and 6 takes
    the lock before 3 can put it back. *)
Definition guard_break_trace : list Action :=
  ([a_start 0; a_next 0; a_die 0]
   ++ a_start 1 :: steps 1 4 ++ [a_die 1; a_tick 10001]
   ++ a_start 2 :: steps 2 5 ++ a_start 3 :: steps 3 5
   ++ steps 2 10 ++ steps 3 10
   ++ [a_next 2; a_start 5; a_next 5; a_next 3; a_start 6; a_next 6])%list.

(** The lock does not exclude once a guard has become old, although no live process was slow: after this run of one
    environment, in which every owner can be probed, two live processes are in their critical sections. *)
Theorem guard_break_overlap : exists w, run_portable guard_break_trace = Some w /\ holds 5 w /\ holds 6 w.
Proof. eexists. split; [vm_compute; reflexivity|]. split; (split; [done|vm_compute; reflexivity]). Qed.

(** One process steals from a dead owner. *)
Definition steal_trace : list Action := ([a_start 0; a_next 0; a_die 0; a_start 1] ++ steps 1 13)%list.
Definition steal_world : World := default init (run_portable steal_trace).
Lemma portable_lock_exclusive_witness : holds 1 steal_world /\ w_lock steal_world = Some 1%nat.
Proof.
  assert (H1 : holds 1 steal_world) by (split; vm_compute; reflexivity).
  split; [exact H1|]. apply (proj1 (portable_lock_exclusive one_env DEFAULT_STALE_MS steal_world)); [|exact H1].
  apply (exec_all_timely one_env DEFAULT_STALE_MS steal_trace); [vm_compute; reflexivity|]. vm_compute. repeat split; try exact I; discriminate.
Defined.
End PortableSample.
